(* ===== verification/_CoqProject ===== *)
-Q . S2P
Prelude.v
CppStd.v
Utf8.v
JsonValue.v
JsonSerializer.v
JsonParser.v
JsonNumbers.v
RoomVersion.v
Signing.v
JsonCanonical.v
EventAuth.v
EventAuthBase.v
EventAuthSafety.v
Membership.v
EventShape.v
Redaction.v
RedactionSafety.v
EventId.v
EventSigner.v
SignedEvents.v
EventWitness.v
Glob.v
EventTable.v
EventTableInv.v
EventTableAdd.v
EventTableErase.v
EventTableSpec.v
FailureWindow.v
EduWindow.v
CircuitBreaker.v
StreamToken.v
ParkedPolls.v
RateLimit.v
RateLimitSpec.v
Limiters.v
PushText.v
PushRules.v
UserPushRules.v
UserPushRulesSpec.v
StateTables.v
Store.v
StoreLookup.v
ServerAcl.v
HistoryVisibility.v
HistoryPrivacy.v
RedactionService.v
RedactionFlow.v
RedactionOrder.v
StoreWitness.v
StoreWrites.v
StateGroups.v
StateGroupsWrite.v
EventSource.v
StateGraph.v
StateAuth.v
PowerSort.v
StateRes.v
AuthChain.v
PowerOrder.v
PowerRank.v
ConflictedSubgraph.v
MainlineOrder.v
Partition.v
Resolution.v
StateWitness.v
Bookkeeping.v
BookkeepingBase.v
BookkeepingStore.v
BookkeepingLocal.v
BookkeepingWitness.v
Inbound.v
DeferredWake.v
ReceiptChecks.v
Ingestion.v
IngestionEffects.v
IngestionMembers.v
IngestionTrace.v
Rebuild.v
Retry.v
IngestionWitness.v
