(* ===== verification/Prelude.v ===== *)
(** * Merovingian: a verified model of its protocol core

    Merovingian is a Matrix homeserver in C++.  Servers of a room exchange
    signed JSON events, and every server decides alone, from the events it has,
    which of them the room accepts and what the room's state is.  This
    development models the code that takes those decisions, the in-memory mirror
    of the database that keeps what was decided, and the code that answers from
    it:

    - src/src/canonicaljson: JSON values, the strict parser, and the canonical
      serialization that hashes and signatures are computed over;
    - src/src/rooms/RoomVersionPolicy.cpp: the table of rules per room version;
    - src/src/events: the shape of events, redaction, event IDs and hashes,
      signing and verification, authorization, and state resolution;
    - src/src/database: the event table, the state-group tables, and the rooms'
      rows of PersistentStore.cpp with the writes and lookups over them;
    - src/src/homeserver: the version and the power levels a stored room has, the
      redaction service, the bookkeeping of state, extremities and groups
      for every stored event (state_bookkeeping.cpp), and the reception of events
      from other servers ([ingest_pdu_event] of local_http_router.cpp, with
      deferred_pdu_retry.cpp and room_residency.cpp);
    - src/src/sync: history visibility, stream tokens, event type patterns, the
      registry of parked long-polls;
    - src/src/federation: the parsing of received events and EDUs
      (inbound_ingestion.cpp), server ACLs and the window of seen to-device
      messages;
    - src/src/push: push rules and their evaluation, a user's editable rules (with
      homeserver/default_push_ruleset.cpp), the circuit breaker of gateways;
    - src/src/http: the rate limits of clients and the budgets of operations in
      flight;
    - src/src/auth: the table of login failures.

    They interact in layers.  Resolution authorizes every event it considers;
    authorization reads levels and memberships out of parsed JSON under the room
    version's policy and checks third-party invites against the canonical
    payload.  The bookkeeping reads the state before an event from state groups,
    resolves it where histories meet, and writes the event, the group after it,
    the tips and the current state in one transaction.  Reception parses an event
    of another server, authorizes it three times (against the events it names,
    the state before it, the current state), stores it with its verdict and books
    it, or retains it until the history it needs arrives.  The redaction service
    rewrites stored events; history visibility and server ACLs answer from what
    the store then holds.

    ** Files

    Shared:
    - Prelude: notations, the hint database [mero], tactics ([breflect],
      [split_hyp]) and lemmas on lists, options and strings;
    - CppStd: what the sources use of the C++ library: [find], [substr],
      [std::from_chars], [std::to_string], doubles and their truncation.

    Canonical JSON (parser.cpp, yyjson_adapter.c, serializer.cpp, signable.cpp):
    - Utf8: [utf8_is_valid]; JsonValue: [Value] and its accessors;
    - JsonParser: [parse_lossless] and the other entry points over yyjson;
    - JsonSerializer: [serialize_canonical] in both modes;
    - JsonNumbers: accepted number tokens are exactly the printed integers;
    - JsonCanonical: [json_equiv], canonical forms and signing payloads.

    Events:
    - RoomVersion: the policies; EventShape: [parse_event_envelope] (event.cpp);
    - Redaction: [redact_event] and [judge_redaction]; RedactionSafety: what
      redaction keeps;
    - EventId: hashes and IDs; Signing and EventSigner: payloads, key stores and
      providers; SignedEvents: what IDs, hashes and signatures pin down.

    Authorization (authorization.cpp):
    - EventAuth: the rules, one definition per helper and per group of rules,
      composed in [authorize_event_against_auth_events];
    - EventAuthBase: shared lemmas; EventAuthSafety: the security theorems;
    - Membership: the state machine [permitted] and the refinement theorem.

    State resolution (state_resolution.cpp), definitions:
    - EventSource (requests, limits, results, the cached, budgeted event source
      and the auth-chain walks), StateGraph (the conflicted subgraph of version
      12), StateAuth (auth events out of a state, iterative auth checks),
      PowerSort (both orderings), and StateRes, which composes them in
      [resolve_state], [partition_conflicted_state] and [resolve_state_v2];
    and theorems, each file against a specification of its own:
    - AuthChain, PowerOrder, PowerRank, ConflictedSubgraph, MainlineOrder,
      Partition, and Resolution for the algorithm as a whole.

    The store (src/src/database):
    - EventTable: rows and indexes; EventTableInv, EventTableAdd and
      EventTableErase: the invariant and that every operation keeps it;
      EventTableSpec: the simulation of the table by a plain list;
    - StateTables: the three tables of state groups;
    - Store: [PersistentStore], its rows, indexes, writers and lookups;
      StoreLookup: the indexes answer what a scan answers;
    - StoreWrites: the statements a write prepares and the order of statement,
      commit and mirror;
    - StateGroups: reading, creating and reusing state groups and the forward
      extremities, and what reading amounts to; StateGroupsWrite: the same for
      writing.

    The homeserver on top of it (src/src/homeserver):
    - RedactionService: stored_room_version.cpp, room_power.cpp and
      redaction_service.cpp; RedactionFlow: its invariant and the machine it
      refines; RedactionOrder: order of arrival;
    - Bookkeeping: state_bookkeeping.cpp; BookkeepingBase: its parts;
      BookkeepingStore: [store_event_with_bookkeeping] as a whole;
      BookkeepingLocal: recomputation and the life of local events.

    Reception of events:
    - Inbound: inbound_ingestion.cpp and what parsed events satisfy;
    - DeferredWake: the retained events and their index (PersistentStore.cpp), its
      invariant and what wakes a retained event;
    - ReceiptChecks: the helpers of local_http_router.cpp that read the store for
      a received event: interest, duplicates, auth maps, auth event selection;
    - Ingestion: [ingest_pdu_event], one definition per stage of
      [ingest_pdu_event_locked], composed in its order;
    - IngestionEffects: what each verdict leaves in the store; IngestionMembers:
      what acceptance implies of the sender; IngestionTrace: answers that store
      nothing, and duplicates;
    - Rebuild: the envelope of a retained event rebuilt from its text; Retry: the
      retry job ([retry_deferred_pdus]) and what a pass does to a retained event.

    Answers from it and small machines:
    - HistoryVisibility and HistoryPrivacy: HistoryVisibility.cpp and
      state_group_lookup.cpp; ServerAcl: server_acl.cpp; Glob: both pattern
      matchers; StreamToken: StreamToken.cpp;
    - ParkedPolls: the registry of waiting long-polls (ParkedPollRegistry.cpp), its
      calls and the rounds of its thread;
    - FailureWindow: FailureWindowTable.cpp; EduWindow: EduIdempotenceWindow.cpp
      with generic_hash.cpp; CircuitBreaker: GatewayCircuitBreaker.cpp;
    - RateLimit: rate_limit.cpp and RateLimitEngine.hpp, with the choice of a
      policy; RateLimitSpec: the tables of buckets as a list of counters, and
      what a limit promises; Limiters: InFlightBudget.cpp, ConnectionLimiter.cpp
      and GatewayInFlightLimiter.cpp as step relations of the programs that hold
      their slots, one Module each.

    Push rules (push_rules.cpp, UserPushRules.cpp, default_push_ruleset.cpp):
    - PushText: the matchers and the budget of steps; PushRules: parsing,
      conditions and evaluation, against what a ruleset means;
    - UserPushRules: the user's rules, their edits and their stored form;
      UserPushRulesSpec: what edits keep and that storing loses nothing.

    The files ending in Witness run the theorems that have hypotheses on concrete
    documents, rooms, forks and stores.

    ** How the code is represented

    A pointer that may be null is an [option]; a decision or a reason string is
    the value the code returns; an early return of [resolve_state_v2] is the left
    of a sum that carries its reason.  Objects are ordered member lists, so
    order and duplicate keys are visible.  [std::string] is a byte string;
    [std::int64_t] and [std::uint64_t] are [Z] with the ranges written out where
    the code checks them or relies on them.  The event source is threaded through
    every call that may fetch: its cache, its lookup budget and its missing flag
    are part of the result.  The store is a record that every writer takes and
    returns.  Times are integers of clock ticks.  A function that holds a mutex
    throughout is one step.  Reception releases its locks between stages and
    during the backfill and the commit: at each of these points a function of the
    record [Others] stands for what the rest of the server does to the runtime.

    What is not in the repository is a parameter: [Yyjson] (what a read returns
    and what the accessors tell), [Libc] (the formatting calls of the lossy
    serializer), [Sodium] (base64, SHA-256 and Ed25519), [GenericHash] (keyed
    BLAKE2b), [BinToHex], [InetPton], [IterationOrder] (the order in which an unordered
    container is traversed: some permutation of it), [UnstableSort] and
    [TimelineSort] (how [std::ranges::sort] leaves equal elements), and the
    caller's event lookup.  Whether the database takes a transaction is a
    parameter too, a function of the store and of the statements sent.  Where a
    theorem needs the primary key of the state-group tables, it assumes
    [keeps_group_keys], which the SQL schema enforces and the memory backend, which
    accepts every transaction, does not.  No theorem assumes more of them than its
    statement says.

    ** What is proved

    - JSON.  Two values have the same strict canonical form exactly when they
      are equal up to member order; the same holds for signing payloads, less
      the signatures and unsigned members.  Parsed values are well formed and
      serialize; integer tokens round trip; the validator accepts exactly UTF-8.
    - Events.  Event IDs pin down an
      event up to redaction and content hashes all of it, short of a collision
      of the two texts hashed;
      redaction changes neither ID nor signatures; what the server signs
      verifies; redacting the state of a room does not change its rules.
    - Authorization.  Where a room has a power-levels event, no other raises
      anyone above the sender or touches a superior; changed levels are bounded by the sender's power;
      creators of privileged versions cannot be removed or listed; only joined
      users send; foreign senders stay out of non-federated rooms.  The
      membership rules accept exactly the steps of the machine [permitted], from
      which bans, removals and joins are characterized.
    - Orderings.  The power sort returns the one lexicographically least
      topological order of its candidates, independently of their order of
      arrival; the mainline sort returns the unique order by mainline position,
      timestamp and ID.
    - Graphs.  The walks return exactly the auth chains, the auth difference and
      the conflicted subgraph, fail when an event is missing, and return when
      everything resolves within the limits.
    - Resolution.  Agreed state survives; every other event is judged in the
      specified order, power events first, against the state left by those before
      it, and the last one accepted for a key is resolved; missing events make it
      fail; undisputed state always resolves; version 1 picks the winner of
      each key.  One lemma records that groups without events are refused with
      a reason meant for another case.
    - Store.  The event table is the list of its rows; the indexes of state,
      transitions and memberships answer what a scan answers; a state group
      reads back as the state it was written for, and both readers of groups
      agree.
    - Redaction service.  An applied redaction leaves the redacted JSON, one that
      is not applied is withheld; the order in which an event and its only
      redaction arrive does not matter; a redaction the local check permits applies.
    - Bookkeeping.  Storing an event with its bookkeeping is atomic and leaves
      the state after the event, the tips and the current state in agreement;
      recomputing current state reaches the resolution over the tips; a local
      event builds on its basis, and the next event on it.
    - Reception.  Parsed events are within every limit of the event format.  A
      received event is stored with its verdict, and only an accepted one enters
      current state, membership or the tips; an accepted event has a sender who
      is joined by the events it names, by the state before it and by current
      state.  An answer that stores nothing leaves the store as it was, and an
      event stored once is never judged again.  Retained events keep waiting
      until what they miss arrives, and then wake, within fixed bounds; a pass of
      the retry job drops what has expired or arrived, tries the first of what is
      due and settles, counts or gives up each, after ten attempts at most, and a retained event is rebuilt as the one received.
    - Answers.  History visibility shows an event only for one of the reasons of
      the rules; server ACLs are read from the room's own event, decide by the
      host of a server's name, and patterns mean what the glob syntax says; stream
      tokens round trip; failure windows lock out, and replays are detected.
    - Push rules.  Patterns and display names are found in a body exactly where the
      rules say, within a fixed budget of steps; an event notifies by the first
      rule that applies; a user's rules come before the server's, are put where
      asked, and read back from their stored form as they were, rules above the
      size limit apart, which one lemma shows to be lost.
    - Limits.  A request falls under the most specific policy, and an invalid one
      refuses it; the bounded tables behave as a list of counters in the order of
      use; a bucket lets in at most twice its allowance in any window, refuses
      only when the window is used up, and lets in again after the wait it names.
      Counts of operations in flight are those of the slots held, whatever a
      program does with them, and never pass a cap.
    - Long-polls.  Whatever calls and rounds interleave, an accepted poll is owned
      once: parked, ready, handed over or destroyed; publishes wake exactly the
      polls they concern, and the thread never sleeps past a deadline.

    ** Bounds and fuel

    Loops that are not structural carry fuel, and each has a lemma that its fuel
    suffices or counts down a limit of the code itself.
    - [utf8_is_valid] starts with the length of its input: each round consumes a
      byte ([utf8_loop_fuel]).
    - [std::to_string] starts with one more than the binary logarithm
      ([nat_digits_value]); the hexadecimal digits of a token are at most
      sixteen, as 64 bits are.
    - [walk_auth_chain] and [explore] start with one more than the cap: each
      round adds a node, and the code fails beyond the cap
      ([walk_loop_fuel], [conflicted_subgraph_returns]).
    - The two topological sorts take as many rounds as there are nodes; the
      backward search and the selection of power events as many as there are
      nodes left to add ([power_sort_returns], [power_event_selection_returns]).
    - [collect_loop] and [position_loop] count down the code's own depth limit,
      as do the walk up a chain of state groups, the walks of history visibility
      over previous events and over membership transitions, and the walk over a
      state key's predecessors.
    - The chain of state groups is read within its depth limit in every store
      the writers build ([group_chain_exists]).
    - The glob matchers and the eviction loops take the length of what they
      consume; the doubling of a retry delay stops at its cap or its count.

    ** What is not modelled

    Log messages and diagnostics, moves and copies of C++ values, memory
    allocation failure, and the contents of yyjson, libsodium and libc.  The SQL
    stores and migrations, sockets, TLS, HTTP, process and sandbox code, media,
    email and identity clients are input and output around the core.  The caches
    of history visibility are left out: they hold values of functions of a store
    the class does not change.  Of reception, the backfill of missing history,
    the roster and its device lists, and the notification of waiting clients
    are left to [Others].  The other request handlers of the homeserver and of
    federation compose the parts above with input and output; so far they are
    not part of the model.

    ** Plan

    In this order: the backfill of missing history and the queue of a pending
    join; the mirror against an interpretation of the statements; sync filters
    and policy lists; the routes a request is normalized to before it is
    counted; independence of the whole resolution from iteration order. *)
From stdpp Require Export base gmap sets list strings sorting.
From Stdlib Require Export ZArith Lia Bool.
From Stdlib Require Ascii.
Export Stdlib.Strings.Ascii (ascii(..)).
Export (notations) Stdlib.Strings.Ascii.

(** * Notations *)

Declare Scope mero_scope.
Delimit Scope mero_scope with mero.

(** String equality as the boolean test the code performs with [==]. *)
Notation "a =s b" := (String.eqb a b) (at level 70, no associativity) : mero_scope.
Notation "a <>s b" := (negb (String.eqb a b)) (at level 70, no associativity) : mero_scope.
(** [std::string::operator<]: lexicographic on unsigned bytes. *)
Notation "a <s b" := (String.ltb a b) (at level 70, no associativity) : mero_scope.
Open Scope mero_scope.

(** * Hint databases and tactics *)

Create HintDb mero.

Lemma string_eqb_true (a b : string) : (a =s b) = true <-> a = b.
Proof. apply String.eqb_eq. Qed.

Lemma string_eqb_false (a b : string) : (a =s b) = false <-> a <> b.
Proof. apply String.eqb_neq. Qed.

Lemma string_neqb_true (a b : string) : (a <>s b) = true <-> a <> b.
Proof. rewrite negb_true_iff. apply String.eqb_neq. Qed.

Lemma string_neqb_false (a b : string) : (a <>s b) = false <-> a = b.
Proof. rewrite negb_false_iff. apply String.eqb_eq. Qed.

(** Turn the boolean tests of the code that are hypotheses into propositions. *)
Ltac breflect :=
  repeat match goal with
  | H : (_ =s _) = true |- _ => apply string_eqb_true in H
  | H : (_ =s _) = false |- _ => apply string_eqb_false in H
  | H : (_ <>s _) = true |- _ => apply string_neqb_true in H
  | H : (_ <>s _) = false |- _ => apply string_neqb_false in H
  | H : _ && _ = true |- _ => apply andb_true_iff in H; destruct H
  | H : _ || _ = false |- _ => apply orb_false_iff in H; destruct H
  | H : negb _ = true |- _ => apply negb_true_iff in H
  | H : negb _ = false |- _ => apply negb_false_iff in H
  | H : (_ <? _)%Z = true |- _ => apply Z.ltb_lt in H
  | H : (_ <? _)%Z = false |- _ => apply Z.ltb_ge in H
  | H : (_ <=? _)%Z = true |- _ => apply Z.leb_le in H
  | H : (_ <=? _)%Z = false |- _ => apply Z.leb_gt in H
  | H : (_ =? _)%Z = true |- _ => apply Z.eqb_eq in H
  | H : (_ =? _)%Z = false |- _ => apply Z.eqb_neq in H
  end.

(** Split on the scrutinee of an [if] or [match] in a hypothesis or goal. *)
Ltac split_hyp H :=
  match type of H with
  | context [match ?x with _ => _ end] =>
      lazymatch x with
      | context [match _ with _ => _ end] => fail
      | _ => let E := fresh "E" in destruct x eqn:E
      end
  end.

Ltac split_goal :=
  match goal with
  | |- context [match ?x with _ => _ end] =>
      lazymatch x with
      | context [match _ with _ => _ end] => fail
      | _ => let E := fresh "E" in destruct x eqn:E
      end
  end.

(** * Sorting by a strict boolean comparison

    [std::sort] and [std::stable_sort] with a comparator [ltb]: a stable
    insertion sort, which agrees with every correct sort on inputs whose
    elements the comparator tells apart. *)

Section Sorting.
Context {A : Type} (ltb : A -> A -> bool).

Fixpoint insert_by (x : A) (l : list A) : list A :=
  match l with
  | [] => [x]
  | y :: ys => if ltb y x then y :: insert_by x ys else x :: y :: ys
  end.

Definition sort_by (l : list A) : list A := foldr insert_by [] l.

Lemma insert_by_perm x l : insert_by x l ≡ₚ x :: l.
Proof.
  induction l as [|y ys IH]; simpl; [done|].
  destruct (ltb y x); [|done]. rewrite IH. constructor.
Qed.

Lemma sort_by_perm l : sort_by l ≡ₚ l.
Proof. induction l as [|x l IH]; simpl; [done|]. by rewrite insert_by_perm, IH. Qed.

Lemma sort_by_length l : length (sort_by l) = length l.
Proof. by rewrite sort_by_perm. Qed.

Lemma elem_of_sort_by x l : x ∈ sort_by l <-> x ∈ l.
Proof. by rewrite sort_by_perm. Qed.

(** [not_after x y]: the comparator does not put [y] before [x]. *)
Definition not_after (x y : A) : Prop := ltb y x = false.

Section Ordered.
(** The comparator is a strict weak order on the elements sorted. *)
Context (P : A -> Prop).
Hypothesis ltb_asym : forall x y, P x -> P y -> ltb x y = true -> ltb y x = false.
Hypothesis not_after_trans : forall x y z, P x -> P y -> P z ->
  not_after x y -> not_after y z -> not_after x z.

Lemma insert_by_sorted x l :
  P x -> Forall P l -> StronglySorted not_after l -> StronglySorted not_after (insert_by x l).
Proof.
  intros Hx Hl Hs; induction l as [|y ys IH]; simpl.
  { repeat constructor. }
  apply Forall_cons in Hl as [Hy Hys].
  apply StronglySorted_inv in Hs as [Hs Hall].
  destruct (ltb y x) eqn:E.
  - constructor; [by apply IH|].
    rewrite insert_by_perm. constructor; [by apply ltb_asym|done].
  - constructor.
    { by constructor. }
    constructor; [exact E|].
    rewrite Forall_forall in Hall |- *; rewrite Forall_forall in Hys.
    intros z Hz. eapply not_after_trans with (y := y); eauto.
Qed.

Lemma sort_by_sorted l : Forall P l -> StronglySorted not_after (sort_by l).
Proof.
  induction 1 as [|x l Hx Hl IH]; simpl; [constructor|].
  apply insert_by_sorted; [done| |done].
  by rewrite sort_by_perm.
Qed.

(** When the comparator separates distinct elements, the result does not
    depend on the order in which they arrive. *)
Hypothesis ltb_total : forall x y, P x -> P y ->
  ltb x y = false -> ltb y x = false -> x = y.

Lemma sorted_perm_unique l1 l2 : Forall P l1 ->
  StronglySorted not_after l1 -> StronglySorted not_after l2 -> l1 ≡ₚ l2 -> l1 = l2.
Proof.
  intros HP H1 H2 Hp. apply (StronglySorted_unique_strong not_after); try done.
  intros x y Hx Hy Hxy Hyx.
  assert (Forall P l2) as HP2 by (by rewrite <- Hp).
  rewrite Forall_forall in HP; rewrite Forall_forall in HP2.
  apply ltb_total; auto.
Qed.

Lemma sort_by_perm_eq l1 l2 : Forall P l1 -> l1 ≡ₚ l2 -> sort_by l1 = sort_by l2.
Proof.
  intros HP Hp. assert (Forall P l2) as HP2 by (by rewrite <- Hp).
  apply sorted_perm_unique.
  - by rewrite sort_by_perm.
  - by apply sort_by_sorted.
  - by apply sort_by_sorted.
  - by rewrite !sort_by_perm.
Qed.
End Ordered.
End Sorting.

#[export] Hint Resolve sort_by_perm insert_by_perm : mero.

(** * Counting occurrences *)

Section Count.
Context {A : Type} `{EqDecision A}.

Definition cnt (i : A) (l : list A) : nat := length (filter (fun k => k = i) l).

Lemma cnt_app i l k : cnt i (l ++ k) = (cnt i l + cnt i k)%nat.
Proof. unfold cnt. by rewrite filter_app, length_app. Qed.

Lemma cnt_cons i x l : cnt i (x :: l) = ((if decide (x = i) then 1 else 0) + cnt i l)%nat.
Proof. unfold cnt. rewrite filter_cons. by destruct (decide (x = i)). Qed.

Lemma cnt_pos i l : cnt i l <> 0%nat <-> i ∈ l.
Proof.
  induction l as [|x l IH]; [set_solver|]. rewrite cnt_cons.
  destruct (decide (x = i)) as [->|Hne]; rewrite elem_of_cons; [split; [by left|lia]|].
  rewrite Nat.add_0_l, IH. naive_solver.
Qed.
End Count.

(** * Pairwise related lists *)

Lemma Forall2_in_l {A B} (P : A -> B -> Prop) l k x : Forall2 P l k -> x ∈ l -> exists y, y ∈ k /\ P x y.
Proof. induction 1 as [|a b l k Hab _ IH]; set_solver. Qed.

Lemma Forall2_in_r {A B} (P : A -> B -> Prop) l k y : Forall2 P l k -> y ∈ k -> exists x, x ∈ l /\ P x y.
Proof. induction 1 as [|a b l k Hab _ IH]; set_solver. Qed.

(** * The byte order on strings *)

Lemma string_compare_refl s : String.compare s s = Eq.
Proof.
  induction s as [|a s IH]; simpl; [done|].
  unfold Ascii.compare. by rewrite N.compare_refl.
Qed.

Lemma ascii_compare_trans_lt a b c :
  Ascii.compare a b = Lt -> Ascii.compare b c = Lt -> Ascii.compare a c = Lt.
Proof. unfold Ascii.compare. rewrite !N.compare_lt_iff. lia. Qed.

Lemma ascii_compare_eq a b : Ascii.compare a b = Eq -> a = b.
Proof. exact (Ascii.compare_eq_iff a b). Qed.

Lemma ascii_compare_refl a : Ascii.compare a a = Eq.
Proof. unfold Ascii.compare. apply N.compare_refl. Qed.

Lemma string_compare_trans_lt (a b c : string) :
  String.compare a b = Lt -> String.compare b c = Lt -> String.compare a c = Lt.
Proof.
  revert b c; induction a as [|x a IH]; intros [|y b] [|z c]; simpl; try done.
  destruct (Ascii.compare x y) eqn:E1; try done; destruct (Ascii.compare y z) eqn:E2; try done;
    intros H1 H2.
  - apply ascii_compare_eq in E1, E2. subst. rewrite ascii_compare_refl. eauto.
  - apply ascii_compare_eq in E1. subst. by rewrite E2.
  - apply ascii_compare_eq in E2. subst. by rewrite E1.
  - by rewrite (ascii_compare_trans_lt _ _ _ E1 E2).
Qed.

Lemma string_ltb_lt (a b : string) : (a <s b) = true <-> String.compare a b = Lt.
Proof. unfold String.ltb. destruct (String.compare a b); split; congruence. Qed.

Lemma string_ltb_irrefl (a : string) : (a <s a) = false.
Proof. unfold String.ltb. by rewrite string_compare_refl. Qed.

Lemma string_ltb_trans (a b c : string) : (a <s b) = true -> (b <s c) = true -> (a <s c) = true.
Proof. rewrite !string_ltb_lt. apply string_compare_trans_lt. Qed.

Lemma string_ltb_total (a b : string) : (a <s b) = false -> (b <s a) = false -> a = b.
Proof.
  unfold String.ltb. rewrite (String.compare_antisym b a).
  destruct (String.compare a b) eqn:E; simpl; intros; try done.
  by apply String.compare_eq_iff in E.
Qed.

Lemma string_ltb_asym (a b : string) : (a <s b) = true -> (b <s a) = false.
Proof.
  intros H1. destruct (b <s a) eqn:H2; [|done].
  pose proof (string_ltb_trans _ _ _ H1 H2) as H. by rewrite string_ltb_irrefl in H.
Qed.

(** Negative transitivity, the form the sorting lemmas use. *)
Lemma string_ltb_false_trans (a b c : string) :
  (b <s a) = false -> (c <s b) = false -> (c <s a) = false.
Proof.
  intros H1 H2. destruct (c <s a) eqn:H; [|done].
  destruct (a <s b) eqn:H3.
  - by rewrite (string_ltb_trans _ _ _ H H3) in H2.
  - rewrite (string_ltb_total a b) in H by done. congruence.
Qed.
