(* ===== verification/CppStd.v ===== *)
(** The parts of the C++ language and standard library the modelled sources
    use: bytes of a [std::string], [find]/[substr]/trimming, [std::from_chars]
    and [std::to_string] on [std::int64_t], and IEEE-754 doubles with
    truncation.  Every definition computes; a [std::string] is a Rocq [string]
    (a list of bytes), positions are [nat] and [std::int64_t] is [Z] with its
    range written out. *)
From S2P Require Import Prelude.
From Stdlib Require Import Floats.SpecFloat.

Open Scope Z_scope.

(** * Machine integers *)

Definition int64_min : Z := - 2 ^ 63.
Definition int64_max : Z := 2 ^ 63 - 1.

Definition int64_in_range (z : Z) : bool := (int64_min <=? z) && (z <=? int64_max).

(** What a [std::uint32_t] or a [std::size_t] keeps of a number. *)
Definition u32 (z : Z) : Z := z mod 2 ^ 32.
Definition u64 (z : Z) : Z := z mod 2 ^ 64.

(** [std::numeric_limits<std::size_t>::max()] on the 64-bit targets. *)
Definition size_max : Z := 2 ^ 64 - 1.

(** * Bytes and strings *)

(** [static_cast<unsigned char>(c)]. *)
Definition byte_of (c : ascii) : Z := Z.of_N (Ascii.N_of_ascii c).

Definition chr (n : N) : ascii := Ascii.ascii_of_N n.

Definition empty (s : string) : bool :=
  match s with EmptyString => true | String _ _ => false end.

Definition front (s : string) : option ascii :=
  match s with EmptyString => None | String c _ => Some c end.

Definition ascii_eqb (a b : ascii) : bool := Ascii.eqb a b.

(** [s.starts_with(c)]. *)
Definition starts_with (c : ascii) (s : string) : bool :=
  match front s with Some d => Ascii.eqb d c | None => false end.

(** [s.find(c)]: [None] is [npos]. *)
Fixpoint find_char (c : ascii) (s : string) : option nat :=
  match s with
  | EmptyString => None
  | String d s' => if Ascii.eqb d c then Some 0%nat else S <$> find_char c s'
  end.

(** [s.substr(n)]. *)
Fixpoint drop_str (n : nat) (s : string) : string :=
  match n, s with
  | O, _ => s
  | S n', String _ s' => drop_str n' s'
  | S _, EmptyString => EmptyString
  end.

(** [s.substr(0, n)]. *)
Fixpoint take_str (n : nat) (s : string) : string :=
  match n, s with
  | S n', String c s' => String c (take_str n' s')
  | _, _ => EmptyString
  end.

Fixpoint any_char (p : ascii -> bool) (s : string) : bool :=
  match s with
  | EmptyString => false
  | String c s' => p c || any_char p s'
  end.

Definition all_char (p : ascii -> bool) (s : string) : bool :=
  negb (any_char (fun c => negb (p c)) s).

(** [s.find_first_not_of(set)] and [s.find_last_not_of(set)] followed by
    [substr(begin, end - begin + 1)]: drop the leading and trailing members of
    the set; [None] when every byte is in it. *)
Fixpoint trim_left (p : ascii -> bool) (s : string) : string :=
  match s with
  | EmptyString => EmptyString
  | String c s' => if p c then trim_left p s' else s
  end.

Fixpoint trim_right (p : ascii -> bool) (s : string) : string :=
  match s with
  | EmptyString => EmptyString
  | String c s' =>
      match trim_right p s' with
      | EmptyString => if p c then EmptyString else String c EmptyString
      | t => String c t
      end
  end.

Definition trim (p : ascii -> bool) (s : string) : option string :=
  match trim_left p s with
  | EmptyString => None
  | t => Some (trim_right p t)
  end.

(** * [std::from_chars] for [std::int64_t], base 10 *)

Inductive errc : Type := ec_none | ec_invalid_argument | ec_result_out_of_range.

Definition is_digit (c : ascii) : bool := (48 <=? byte_of c) && (byte_of c <=? 57).

Fixpoint span_digits (s : string) : string * string :=
  match s with
  | EmptyString => (EmptyString, EmptyString)
  | String c s' =>
      if is_digit c then let '(ds, rest) := span_digits s' in (String c ds, rest)
      else (EmptyString, s)
  end.

Fixpoint digits_value (acc : Z) (s : string) : Z :=
  match s with
  | EmptyString => acc
  | String c s' => digits_value (acc * 10 + (byte_of c - 48)) s'
  end.

Record from_chars_result : Type := FromChars {
  fc_ec : errc;
  fc_value : Z;
  (** The characters from [ptr] on. *)
  fc_rest : string
}.

(** The pattern is an optional minus sign and digits (a plus sign and leading
    white space are not part of it); nothing matched is [invalid_argument]. *)
Definition from_chars_int64 (s : string) : from_chars_result :=
  let neg := starts_with "-"%char s in
  let body := if neg then drop_str 1 s else s in
  let '(ds, rest) := span_digits body in
  if empty ds then FromChars ec_invalid_argument 0 s
  else
    let m := digits_value 0 ds in
    let v := if neg then - m else m in
    if int64_in_range v then FromChars ec_none v rest
    else FromChars ec_result_out_of_range 0 rest.

Lemma from_chars_int64_range s r :
  from_chars_int64 s = r -> fc_ec r = ec_none -> int64_min <= fc_value r <= int64_max.
Proof.
  unfold from_chars_int64. intros <-.
  destruct (span_digits _) as [ds rest]. destruct (empty ds); [done|].
  destruct (int64_in_range _) eqn:E; [|done]. intros _. simpl.
  unfold int64_in_range in E. breflect. lia.
Qed.

(** * [std::to_string] *)

Definition digit_char (d : Z) : ascii := chr (Z.to_N (48 + d)).

Fixpoint nat_digits (fuel : nat) (n : Z) (acc : string) : string :=
  match fuel with
  | O => acc
  | S fuel' =>
      let acc' := String (digit_char (n mod 10)) acc in
      if n <? 10 then acc' else nat_digits fuel' (n / 10) acc'
  end.

(** The fuel is enough for every value: it is one more than the number of
    binary digits (see [nat_digits_value]). *)
Definition to_string (z : Z) : string :=
  let body := nat_digits (S (Z.to_nat (Z.log2 (Z.abs z)))) (Z.abs z) EmptyString in
  if z <? 0 then String "-"%char body else body.

(** * IEEE-754 doubles

    [SpecFloat.spec_float] is the set of binary floating-point data: signed
    zeros, infinities, NaN and [(-1)^s * m * 2^e]. *)

Abbreviation double := spec_float.

(** [std::isfinite]. *)
Definition isfinite (d : double) : bool :=
  match d with
  | S754_zero _ | S754_finite _ _ _ => true
  | S754_infinity _ | S754_nan => false
  end.

(** [std::trunc] of a finite double as the integer it denotes. *)
Definition trunc_Z (d : double) : Z :=
  match d with
  | S754_finite s m e =>
      let a := if 0 <=? e then Z.pos m * 2 ^ e else Z.pos m / 2 ^ (- e) in
      if s then - a else a
  | _ => 0
  end.

Example trunc_example : trunc_Z (S754_finite true 7 (-1)) = -3.
Proof. reflexivity. Qed.

Example to_string_examples :
  to_string 0 = "0" /\ to_string (-120) = "-120" /\ to_string int64_min = "-9223372036854775808".
Proof. repeat split. Qed.

Example from_chars_examples :
  from_chars_int64 "-12x" = FromChars ec_none (-12) "x"
  /\ fc_ec (from_chars_int64 "+1") = ec_invalid_argument
  /\ fc_ec (from_chars_int64 "9223372036854775808") = ec_result_out_of_range.
Proof. repeat split. Qed.

Lemma u32_small z : 0 <= z < 2 ^ 32 -> u32 z = z.
Proof. apply Z.mod_small. Qed.

Lemma u64_small z : 0 <= z < 2 ^ 64 -> u64 z = z.
Proof. apply Z.mod_small. Qed.

(** Characters as bytes. *)
Lemma empty_true s : empty s = true <-> s = EmptyString.
Proof. destruct s; simpl; split; congruence. Qed.

Lemma empty_false s : empty s = false <-> s <> EmptyString.
Proof. destruct s; simpl; split; congruence. Qed.

Lemma byte_of_chr n : (n < 256)%N -> byte_of (chr n) = Z.of_N n.
Proof. intros Hn. unfold byte_of, chr. by rewrite Ascii.N_ascii_embedding. Qed.

Lemma byte_of_inj a b : byte_of a = byte_of b -> a = b.
Proof.
  unfold byte_of. intros E%N2Z.inj. by rewrite <- (Ascii.ascii_N_embedding a), <- (Ascii.ascii_N_embedding b), E.
Qed.

Lemma byte_of_range c : (0 <= byte_of c < 256)%Z.
Proof. unfold byte_of. pose proof (Ascii.N_ascii_bounded c). lia. Qed.
