(* ===== verification/Utf8.v ===== *)
(** UTF-8 validation: [canonicaljson::utf8_is_valid] of parser.cpp. *)
From S2P Require Import Prelude CppStd.
Open Scope Z_scope.

(** The lead byte's sequence length, smallest code point and payload bits. *)
Definition lead_byte (first : Z) : option (nat * Z * Z) :=
  if Z.land first 0xE0 =? 0xC0 then Some (2%nat, 0x80, Z.land first 0x1F)
  else if Z.land first 0xF0 =? 0xE0 then Some (3%nat, 0x800, Z.land first 0x0F)
  else if Z.land first 0xF8 =? 0xF0 then Some (4%nat, 0x10000, Z.land first 0x07)
  else None.

(** The loop over the continuation bytes; [None] on a byte that is not one,
    and when the sequence runs past the end of the input. *)
Fixpoint continuation_bytes (n : nat) (codepoint : Z) (s : string) : option (Z * string) :=
  match n with
  | O => Some (codepoint, s)
  | S n' =>
      match s with
      | EmptyString => None
      | String c s' =>
          let next := byte_of c in
          if Z.land next 0xC0 =? 0x80
          then continuation_bytes n' (Z.lor (Z.shiftl codepoint 6) (Z.land next 0x3F)) s'
          else None
      end
  end.

Definition codepoint_is_valid (min_codepoint codepoint : Z) : bool :=
  negb ((codepoint <? min_codepoint) || (0x10FFFF <? codepoint)
        || ((0xD800 <=? codepoint) && (codepoint <=? 0xDFFF))).

(** One iteration of the loop: the rest of the input after a valid character. *)
Definition utf8_step (c : ascii) (s : string) : option string :=
  let first := byte_of c in
  if first <=? 0x7F then Some s
  else
    match lead_byte first with
    | None => None
    | Some (length, min_codepoint, payload) =>
        match continuation_bytes (length - 1) payload s with
        | None => None
        | Some (codepoint, rest) =>
            if codepoint_is_valid min_codepoint codepoint then Some rest else None
        end
    end.

(** Every iteration consumes at least one byte, so the length is enough fuel
    (see [utf8_loop_fuel]). *)
Fixpoint utf8_loop (fuel : nat) (s : string) : bool :=
  match s with
  | EmptyString => true
  | String c s' =>
      match fuel with
      | O => false
      | S fuel' =>
          match utf8_step c s' with
          | None => false
          | Some rest => utf8_loop fuel' rest
          end
      end
  end.

Definition utf8_is_valid (value : string) : bool := utf8_loop (String.length value) value.

Example utf8_examples :
  utf8_is_valid "héllo €" = true /\ utf8_is_valid (String (chr 0xC0) (String (chr 0x80) EmptyString)) = false
  /\ utf8_is_valid (String (chr 0xED) (String (chr 0xA0) (String (chr 0x80) EmptyString))) = false.
Proof. repeat split. Qed.

Lemma continuation_bytes_shrinks n codepoint s codepoint' rest :
  continuation_bytes n codepoint s = Some (codepoint', rest) ->
  (String.length rest <= String.length s)%nat.
Proof.
  revert codepoint s. induction n as [|n IH]; simpl; intros codepoint s Hs; [by simplify_eq|].
  destruct s as [|c s']; [done|]. destruct (_ =? _); [|done].
  apply IH in Hs. simpl. lia.
Qed.

Lemma utf8_step_shrinks c s rest :
  utf8_step c s = Some rest -> (String.length rest <= String.length s)%nat.
Proof.
  unfold utf8_step. intros Hs. destruct (_ <=? _); [by simplify_eq|].
  destruct (lead_byte _) as [[[len lo] payload]|]; [|done].
  destruct (continuation_bytes _ _ _) as [[cp r]|] eqn:E; [|done].
  destruct (codepoint_is_valid _ _); [|done]. simplify_eq.
  by eapply continuation_bytes_shrinks.
Qed.

(** Any fuel from the length on gives the same verdict: the loop never ends for
    lack of fuel. *)
Lemma utf8_loop_fuel fuel s :
  (String.length s <= fuel)%nat -> utf8_loop fuel s = utf8_is_valid s.
Proof.
  unfold utf8_is_valid. remember (String.length s) as n eqn:Hn. revert fuel n s Hn.
  induction fuel as [fuel IH] using lt_wf_ind. intros n s -> Hle.
  destruct s as [|c s']; [by destruct fuel|]. destruct fuel as [|fuel]; [simpl in Hle; lia|].
  simpl in *. destruct (utf8_step c s') as [rest|] eqn:E; [|done].
  apply utf8_step_shrinks in E.
  rewrite (IH fuel ltac:(lia) _ rest eq_refl ltac:(lia)).
  destruct (decide (String.length s' = fuel)) as [->|Hne].
  - by rewrite (IH fuel ltac:(lia) _ rest eq_refl ltac:(lia)).
  - by rewrite (IH (String.length s') ltac:(lia) _ rest eq_refl ltac:(lia)).
Qed.

(** * The encoding of Unicode scalar values *)

Definition scalar_value (cp : Z) : Prop := 0 <= cp <= 0x10FFFF /\ ~ (0xD800 <= cp <= 0xDFFF).

Definition byte_chr (b : Z) : ascii := chr (Z.to_N b).

Fixpoint bytes_string (bs : list Z) : string :=
  match bs with [] => EmptyString | b :: bs' => String (byte_chr b) (bytes_string bs') end.

(** The bytes of a code point: RFC 3629, section 3. *)
Definition encode_scalar (cp : Z) : list Z :=
  if cp <? 0x80 then [cp]
  else if cp <? 0x800 then [0xC0 + cp / 64; 0x80 + cp mod 64]
  else if cp <? 0x10000 then [0xE0 + cp / 4096; 0x80 + cp / 64 mod 64; 0x80 + cp mod 64]
  else [0xF0 + cp / 262144; 0x80 + cp / 4096 mod 64; 0x80 + cp / 64 mod 64; 0x80 + cp mod 64].

(** The text of a sequence of scalar values. *)
Fixpoint encode_text (cps : list Z) : string :=
  match cps with [] => EmptyString | cp :: cps' => bytes_string (encode_scalar cp) +:+ encode_text cps' end.

Lemma byte_chr_of c : byte_chr (byte_of c) = c.
Proof. unfold byte_chr, byte_of, chr. rewrite N2Z.id. apply Ascii.ascii_N_embedding. Qed.

Lemma byte_of_byte_chr b : 0 <= b < 256 -> byte_of (byte_chr b) = b.
Proof.
  intros Hb. unfold byte_of, byte_chr, chr. rewrite Ascii.N_ascii_embedding by lia. lia.
Qed.

(** The masks of the code, as intervals. *)
Lemma lead_byte_spec c : let b := byte_of c in lead_byte b =
  if b <? 0xC0 then None else if b <? 0xE0 then Some (2%nat, 0x80, b - 0xC0)
  else if b <? 0xF0 then Some (3%nat, 0x800, b - 0xE0)
  else if b <? 0xF8 then Some (4%nat, 0x10000, b - 0xF0) else None.
Proof. destruct c as [[] [] [] [] [] [] [] []]; reflexivity. Qed.

Lemma continuation_byte_spec c : let b := byte_of c in
  (Z.land b 0xC0 =? 0x80) = ((0x80 <=? b) && (b <? 0xC0)) /\ (0x80 <= b < 0xC0 -> Z.land b 0x3F = b - 0x80).
Proof. destruct c as [[] [] [] [] [] [] [] []]; vm_compute; (split; [reflexivity|]); intros [H1 H2]; try reflexivity; by destruct H1. Qed.

Lemma shift_or cp x : 0 <= cp -> 0 <= x < 64 -> Z.lor (Z.shiftl cp 6) x = cp * 64 + x.
Proof.
  intros Hc Hx. assert (Z.land (Z.shiftl cp 6) x = 0) as H0.
  { apply Z.bits_inj'. intros i Hi. rewrite Z.land_spec, Z.bits_0. destruct (Z.lt_ge_cases i 6).
    - by rewrite Z.shiftl_spec_low.
    - rewrite <- (Z.mod_small x (2 ^ 6)) by done. by rewrite Z.mod_pow2_bits_high, andb_false_r by lia. }
  rewrite <- Z.lxor_lor, <- Z.add_nocarry_lxor by done. by rewrite Z.shiftl_mul_pow2.
Qed.

(** Continuation bytes append six bits each. *)
Lemma continuation_S n cp s r : 0 <= cp ->
  continuation_bytes (S n) cp s = Some r <->
  exists b s', 0x80 <= b < 0xC0 /\ s = String (byte_chr b) s' /\ continuation_bytes n (cp * 64 + (b - 0x80)) s' = Some r.
Proof.
  intros Hcp. simpl. split.
  - destruct s as [|c s']; [done|]. destruct (continuation_byte_spec c) as [Hm Hv]. rewrite Hm.
    destruct (_ && _) eqn:E; [|done]. breflect. rewrite Hv, shift_or by lia. intros Hr.
    exists (byte_of c), s'. by rewrite byte_chr_of.
  - intros (b & s' & Hb & -> & Hr). destruct (continuation_byte_spec (byte_chr b)) as [Hm Hv].
    rewrite byte_of_byte_chr in * by lia. rewrite Hm, Hv, shift_or by lia.
    assert ((0x80 <=? b) && (b <? 0xC0) = true) as -> by (apply andb_true_iff; lia). done.
Qed.

Lemma codepoint_is_valid_spec lo cp : 0 <= lo -> codepoint_is_valid lo cp = true <-> lo <= cp /\ scalar_value cp.
Proof.
  intros Hlo. unfold codepoint_is_valid, scalar_value.
  rewrite negb_true_iff, !orb_false_iff, andb_false_iff, Z.ltb_ge, Z.ltb_ge, !Z.leb_gt. lia.
Qed.

Lemma byte_chr_inj a b : 0 <= a < 256 -> 0 <= b < 256 -> byte_chr a = byte_chr b -> a = b.
Proof. intros Ha Hb E. by rewrite <- (byte_of_byte_chr a), <- (byte_of_byte_chr b), E by lia. Qed.

Ltac euclid := Z.to_euclidean_division_equations; lia.

(** The arithmetic of the encoding, read from the bytes to the code point. *)
Lemma encode2 a b cp : cp = a * 64 + b -> 0 <= b < 64 -> 0x80 <= cp < 0x800 ->
  encode_scalar cp = [0xC0 + a; 0x80 + b].
Proof.
  intros -> Hb Hcp. unfold encode_scalar. rewrite (proj2 (Z.ltb_ge _ _)), (proj2 (Z.ltb_lt _ _)) by lia.
  repeat f_equal; euclid.
Qed.

Lemma encode3 a b c cp : cp = (a * 64 + b) * 64 + c -> 0 <= b < 64 -> 0 <= c < 64 -> 0x800 <= cp < 0x10000 ->
  encode_scalar cp = [0xE0 + a; 0x80 + b; 0x80 + c].
Proof.
  intros -> Hb Hc Hcp. unfold encode_scalar.
  rewrite (proj2 (Z.ltb_ge _ 0x80)), (proj2 (Z.ltb_ge _ 0x800)), (proj2 (Z.ltb_lt _ _)) by lia.
  repeat f_equal; euclid.
Qed.

Lemma encode4 a b c d cp : cp = ((a * 64 + b) * 64 + c) * 64 + d -> 0 <= b < 64 -> 0 <= c < 64 -> 0 <= d < 64 ->
  0x10000 <= cp -> encode_scalar cp = [0xF0 + a; 0x80 + b; 0x80 + c; 0x80 + d].
Proof.
  intros -> Hb Hc Hd Hcp. unfold encode_scalar.
  rewrite (proj2 (Z.ltb_ge _ 0x80)), (proj2 (Z.ltb_ge _ 0x800)), (proj2 (Z.ltb_ge _ 0x10000)) by lia.
  repeat f_equal; euclid.
Qed.

Lemma utf8_step_sound c s rest : utf8_step c s = Some rest ->
  exists cp, scalar_value cp /\ String c s = bytes_string (encode_scalar cp) +:+ rest.
Proof.
  unfold utf8_step. pose proof (byte_of_range c) as Hc. destruct (byte_of c <=? 0x7F) eqn:E.
  { intros [= <-]. breflect. exists (byte_of c). split; [unfold scalar_value; lia|].
    unfold encode_scalar. rewrite (proj2 (Z.ltb_lt _ _)) by lia. simpl. by rewrite byte_chr_of. }
  rewrite lead_byte_spec. breflect.
  destruct (byte_of c <? 0xC0) eqn:E0; [done|].
  destruct (byte_of c <? 0xE0) eqn:E1; [|destruct (byte_of c <? 0xF0) eqn:E2; [|destruct (byte_of c <? 0xF8) eqn:E3; [|done]]];
    breflect; (destruct (continuation_bytes _ _ _) as [[cp r]|] eqn:Ec; [|done]);
    (destruct (codepoint_is_valid _ _) eqn:Ev; [|done]); intros [= <-];
    apply codepoint_is_valid_spec in Ev as [Hlo Hsc]; try lia; exists cp; (split; [done|]); simpl Nat.sub in Ec;
    repeat (apply continuation_S in Ec as (?b & ?s & ?Hb & -> & Ec); [|lia]); simpl in Ec; injection Ec as Ecp <-.
  - rewrite (encode2 (byte_of c - 0xC0) (b - 0x80) cp) by (unfold scalar_value in Hsc; lia). simpl.
    replace (0xC0 + (byte_of c - 0xC0)) with (byte_of c) by lia. replace (0x80 + (b - 0x80)) with b by lia.
    by rewrite byte_chr_of.
  - rewrite (encode3 (byte_of c - 0xE0) (b - 0x80) (b0 - 0x80) cp) by (unfold scalar_value in Hsc; lia). simpl.
    replace (0xE0 + (byte_of c - 0xE0)) with (byte_of c) by lia. replace (0x80 + (b - 0x80)) with b by lia.
    replace (0x80 + (b0 - 0x80)) with b0 by lia. by rewrite byte_chr_of.
  - rewrite (encode4 (byte_of c - 0xF0) (b - 0x80) (b0 - 0x80) (b1 - 0x80) cp) by (unfold scalar_value in Hsc; lia). simpl.
    replace (0xF0 + (byte_of c - 0xF0)) with (byte_of c) by lia. replace (0x80 + (b - 0x80)) with b by lia.
    replace (0x80 + (b0 - 0x80)) with b0 by lia. replace (0x80 + (b1 - 0x80)) with b1 by lia. by rewrite byte_chr_of.
Qed.

(** Each kind of sequence is accepted, whatever follows. *)
Lemma step_multi lead n lo payload tail rest cp : 0xC0 <= lead < 0x100 ->
  lead_byte lead = Some (S n, lo, payload) -> continuation_bytes n payload (tail +:+ rest) = Some (cp, rest) ->
  0 <= lo <= cp -> scalar_value cp -> utf8_step (byte_chr lead) (tail +:+ rest) = Some rest.
Proof.
  intros Hl Hlead Hcont Hlo Hsc. unfold utf8_step. rewrite byte_of_byte_chr by lia.
  rewrite (proj2 (Z.leb_gt _ _)), Hlead by lia. rewrite Nat.sub_succ, Nat.sub_0_r, Hcont.
  by rewrite (proj2 (codepoint_is_valid_spec lo cp (proj1 Hlo)) (conj (proj2 Hlo) Hsc)).
Qed.

Lemma lead_byte_Z b : 0 <= b < 256 -> lead_byte b =
  if b <? 0xC0 then None else if b <? 0xE0 then Some (2%nat, 0x80, b - 0xC0)
  else if b <? 0xF0 then Some (3%nat, 0x800, b - 0xE0)
  else if b <? 0xF8 then Some (4%nat, 0x10000, b - 0xF0) else None.
Proof. intros Hb. pose proof (lead_byte_spec (byte_chr b)) as H. by rewrite byte_of_byte_chr in H by lia. Qed.

Ltac next_byte b := apply continuation_S; [lia|]; exists b; eexists; split; [lia|split; [reflexivity|]].
Ltac last_byte := simpl; do 2 f_equal; euclid.

Lemma utf8_step_complete cp rest : scalar_value cp ->
  exists c s, bytes_string (encode_scalar cp) +:+ rest = String c s /\ utf8_step c s = Some rest.
Proof.
  intros [Hcp Hsur]. unfold encode_scalar.
  destruct (cp <? 0x80) eqn:E1; [|destruct (cp <? 0x800) eqn:E2; [|destruct (cp <? 0x10000) eqn:E3]]; breflect.
  - exists (byte_chr cp), rest. split; [done|]. unfold utf8_step. rewrite byte_of_byte_chr, (proj2 (Z.leb_le _ _)) by lia. done.
  - assert (2 <= cp / 64 < 32) by euclid. assert (0 <= cp mod 64 < 64) by euclid.
    exists (byte_chr (0xC0 + cp / 64)), (bytes_string [0x80 + cp mod 64] +:+ rest). split; [done|].
    apply (step_multi _ 1 0x80 (cp / 64) _ _ cp); [lia| | |lia|done].
    + rewrite lead_byte_Z by lia. repeat (rewrite (proj2 (Z.ltb_ge _ _)) by lia).
      rewrite (proj2 (Z.ltb_lt _ _)) by lia. do 2 f_equal. lia.
    + simpl bytes_string. next_byte (0x80 + cp mod 64). last_byte.
  - assert (0 <= cp / 4096 < 16) by euclid. assert (0 <= cp / 64 mod 64 < 64) by euclid.
    assert (0 <= cp mod 64 < 64) by euclid.
    exists (byte_chr (0xE0 + cp / 4096)), (bytes_string [0x80 + cp / 64 mod 64; 0x80 + cp mod 64] +:+ rest). split; [done|].
    apply (step_multi _ 2 0x800 (cp / 4096) _ _ cp); [lia| | |lia|done].
    + rewrite lead_byte_Z by lia. rewrite (proj2 (Z.ltb_ge _ 0xC0)), (proj2 (Z.ltb_ge _ 0xE0)) by lia.
      rewrite (proj2 (Z.ltb_lt _ _)) by lia. do 2 f_equal. lia.
    + simpl bytes_string. next_byte (0x80 + cp / 64 mod 64). next_byte (0x80 + cp mod 64). last_byte.
  - assert (0 <= cp / 262144 < 5) by euclid. assert (0 <= cp / 4096 mod 64 < 64) by euclid.
    assert (0 <= cp / 64 mod 64 < 64) by euclid. assert (0 <= cp mod 64 < 64) by euclid.
    exists (byte_chr (0xF0 + cp / 262144)),
      (bytes_string [0x80 + cp / 4096 mod 64; 0x80 + cp / 64 mod 64; 0x80 + cp mod 64] +:+ rest). split; [done|].
    apply (step_multi _ 3 0x10000 (cp / 262144) _ _ cp); [lia| | |lia|done].
    + rewrite lead_byte_Z by lia. rewrite (proj2 (Z.ltb_ge _ 0xC0)), (proj2 (Z.ltb_ge _ 0xE0)), (proj2 (Z.ltb_ge _ 0xF0)) by lia.
      rewrite (proj2 (Z.ltb_lt _ _)) by lia. do 2 f_equal. lia.
    + simpl bytes_string. next_byte (0x80 + cp / 4096 mod 64). next_byte (0x80 + cp / 64 mod 64).
      next_byte (0x80 + cp mod 64). last_byte.
Qed.

(** * Property *)

(** C40. The validator accepts exactly UTF-8: a byte string passes if and only if it
    is the encoding of a sequence of Unicode scalar values, so overlong forms,
    surrogates, stray or missing continuation bytes and code points beyond U+10FFFF
    are refused, and nothing else is. *)
Theorem utf8_validation_exact s :
  utf8_is_valid s = true <-> exists cps, Forall scalar_value cps /\ s = encode_text cps.
Proof.
  split.
  - unfold utf8_is_valid. generalize (String.length s). intros fuel. revert s.
    induction fuel as [|fuel IH]; intros [|c s]; try done; try (by exists []).
    simpl. destruct (utf8_step c s) as [rest|] eqn:E; [|done]. intros (cps & Hc & ->)%IH.
    apply utf8_step_sound in E as (cp & Hcp & Heq). exists (cp :: cps). split; [by constructor|done].
  - intros (cps & Hc & ->). induction Hc as [|cp cps Hcp Hc IH]; [done|]. simpl.
    destruct (utf8_step_complete cp (encode_text cps) Hcp) as (c & s & -> & Hs).
    rewrite <- (utf8_loop_fuel (S (String.length s))) by done. simpl. rewrite Hs.
    apply utf8_step_shrinks in Hs. by rewrite utf8_loop_fuel.
Qed.
