(* ===== verification/JsonValue.v ===== *)
(** The JSON data model of [canonicaljson::Value] (Value.hpp, ObjectMember.hpp,
    RawNumber.hpp) and the member accessors that event authorization and state
    resolution define on it.

    An [Object] is an ordered vector of members, so order and duplicate keys
    are part of the model.  Every member is built by [make_member], which
    always owns a value, so a member is a pair of a key and a value. *)
From S2P Require Import Prelude CppStd.

#[warnings="-register-all"]
Inductive Value : Type :=
| VNull : Value
| VBool : bool -> Value
| VInt : Z -> Value
| VDouble : double -> Value
| VString : string -> Value
| VArray : list Value -> Value
| VObject : list (string * Value) -> Value
| VRaw : string -> Value.

Abbreviation Array := (list Value).
Abbreviation Object := (list (string * Value)).

(** Induction that reaches the elements of arrays and objects. *)
Section ValueInd.
Context (P : Value -> Prop).
Hypothesis Pnull : P VNull.
Hypothesis Pbool : forall b, P (VBool b).
Hypothesis Pint : forall z, P (VInt z).
Hypothesis Pdouble : forall d, P (VDouble d).
Hypothesis Pstring : forall s, P (VString s).
Hypothesis Parray : forall l, Forall P l -> P (VArray l).
Hypothesis Pobject : forall o, Forall (fun m => P m.2) o -> P (VObject o).
Hypothesis Praw : forall t, P (VRaw t).

Fixpoint Value_nested_ind (v : Value) : P v :=
  match v with
  | VNull => Pnull
  | VBool b => Pbool b
  | VInt z => Pint z
  | VDouble d => Pdouble d
  | VString s => Pstring s
  | VArray l => Parray l ((fix go (l : list Value) : Forall P l :=
      match l with
      | [] => @List.Forall_nil _ P
      | x :: l' => @List.Forall_cons _ P _ _ (Value_nested_ind x) (go l')
      end) l)
  | VObject o => Pobject o ((fix go (o : list (string * Value)) : Forall (fun m => P m.2) o :=
      match o with
      | [] => @List.Forall_nil _ (fun m => P m.2)
      | x :: o' => @List.Forall_cons _ (fun m => P m.2) _ _ (Value_nested_ind x.2) (go o')
      end) o)
  | VRaw t => Praw t
  end.
End ValueInd.

(** * Member access *)

Fixpoint object_member (object : Object) (key : string) : option Value :=
  match object with
  | [] => None
  | (k, v) :: rest => if k =s key then Some v else object_member rest key
  end.

(** [std::get_if<T>(&value.storage())] for the alternatives the code asks for. *)
Definition as_string (v : Value) : option string := match v with VString s => Some s | _ => None end.
Definition as_array (v : Value) : option Array := match v with VArray l => Some l | _ => None end.
Definition as_bool (v : Value) : option bool := match v with VBool b => Some b | _ => None end.
Definition as_int (v : Value) : option Z := match v with VInt z => Some z | _ => None end.
Definition value_is_object (v : Value) : option Object := match v with VObject o => Some o | _ => None end.

Definition value_has_content (v : Value) : bool := match v with VNull => false | _ => true end.

Definition string_member (object : Object) (key : string) : option string :=
  object_member object key ≫= as_string.

Definition object_member_as_object (object : Object) (key : string) : option Object :=
  object_member object key ≫= value_is_object.

Definition array_member (object : Object) (key : string) : option Array :=
  object_member object key ≫= as_array.

(** * Lemmas *)

Definition object_keys (o : Object) : list string := o.*1.

Lemma object_member_In (o : Object) k v : object_member o k = Some v -> (k, v) ∈ o.
Proof.
  induction o as [|[k' v'] o IH]; simpl; [done|].
  destruct (k' =s k) eqn:E; breflect; intros H; simplify_eq; [by left|right; auto].
Qed.

Lemma object_member_None (o : Object) k : object_member o k = None <-> k ∉ object_keys o.
Proof.
  unfold object_keys. induction o as [|[k' v'] o IH]; simpl.
  { split; [set_solver|done]. }
  destruct (k' =s k) eqn:E; breflect; subst.
  - split; [done|]. set_solver.
  - rewrite IH. rewrite not_elem_of_cons. naive_solver.
Qed.

Lemma object_member_NoDup (o : Object) k v :
  NoDup (object_keys o) -> (k, v) ∈ o -> object_member o k = Some v.
Proof.
  unfold object_keys. induction o as [|[k' v'] o IH]; simpl; [set_solver|].
  rewrite NoDup_cons, elem_of_cons. intros [Hn Hd] [[= -> ->]|H].
  - by rewrite String.eqb_refl.
  - destruct (k' =s k) eqn:E; [|auto]. breflect. subst.
    exfalso. apply Hn. by apply (list_elem_of_fmap_2 fst _ (k, v)).
Qed.

Lemma object_member_perm (o1 o2 : Object) k :
  NoDup (object_keys o1) -> o1 ≡ₚ o2 -> object_member o1 k = object_member o2 k.
Proof.
  intros Hd Hp. destruct (object_member o1 k) as [v|] eqn:E.
  - symmetry. apply object_member_NoDup.
    + unfold object_keys in *. by rewrite <- Hp.
    + rewrite <- Hp. by apply object_member_In.
  - symmetry. apply object_member_None. apply object_member_None in E.
    unfold object_keys in *. by rewrite <- Hp.
Qed.

Lemma string_member_Some o k s : string_member o k = Some s <-> object_member o k = Some (VString s).
Proof.
  unfold string_member. destruct (object_member o k) as [[]|]; simpl; split; congruence.
Qed.

Lemma object_member_as_object_Some o k o' :
  object_member_as_object o k = Some o' <-> object_member o k = Some (VObject o').
Proof.
  unfold object_member_as_object. destruct (object_member o k) as [[]|]; simpl; split; congruence.
Qed.

#[export] Hint Resolve object_member_In object_member_NoDup : mero.

(** * The representation invariant of [Value]

    The integer alternative is a [std::int64_t]: every integer of a value is in
    range. *)
Fixpoint int64_ok (v : Value) : bool :=
  match v with
  | VInt z => int64_in_range z
  | VArray l => forallb int64_ok l
  | VObject o => forallb (fun m => int64_ok m.2) o
  | _ => true
  end.

Lemma int64_ok_member o k v : int64_ok (VObject o) = true -> object_member o k = Some v -> int64_ok v = true.
Proof.
  simpl. rewrite forallb_forall. intros Hall Hm%object_member_In.
  apply (Hall (k, v)). by apply list_elem_of_In.
Qed.
