(* ===== verification/JsonSerializer.v ===== *)
(** Canonical JSON serialization: serializer.cpp, signable.cpp and the libc
    formatting the non-strict path relies on. *)
From S2P Require Import Prelude CppStd Utf8 JsonValue.
From Stdlib Require Import Floats.SpecFloat.
Open Scope Z_scope.

Inductive CanonicalJsonError : Type :=
| cje_none | cje_duplicate_object_key | cje_invalid_string | cje_float_not_allowed.

(** [SerializeResult]: the output, or the error with an empty output. *)
Inductive SerializeResult : Type :=
| SOk (output : string)
| SErr (error : CanonicalJsonError).

Definition canonical_json_error_name (e : CanonicalJsonError) : string :=
  match e with
  | cje_none => "none"
  | cje_duplicate_object_key => "duplicate_object_key"
  | cje_invalid_string => "invalid_string"
  | cje_float_not_allowed => "float_not_allowed"
  end.

(** * Strings *)

Definition hex_digit (value : Z) : ascii :=
  let d := Z.land value 0x0F in
  if d <? 10 then chr (Z.to_N (48 + d)) else chr (Z.to_N (87 + d)).

Definition control_escape (value : Z) : string :=
  "\u00" +:+ String (hex_digit (Z.shiftr value 4)) (String (hex_digit value) EmptyString).

(** One iteration of the loop of [append_escaped_string]. *)
Definition escape_char (c : ascii) : string :=
  let byte := byte_of c in
  if byte =? 34 then String "\"%char (String (chr 34) EmptyString)
  else if byte =? 92 then "\\"
  else if byte =? 8 then "\b"
  else if byte =? 12 then "\f"
  else if byte =? 10 then "\n"
  else if byte =? 13 then "\r"
  else if byte =? 9 then "\t"
  else if byte <? 0x20 then control_escape byte
  else String c EmptyString.

Fixpoint escape_chars (value : string) : string :=
  match value with
  | EmptyString => EmptyString
  | String c s => escape_char c +:+ escape_chars s
  end.

Definition quote : string := String (chr 34) EmptyString.

Definition append_escaped_string (output value : string) : string :=
  output +:+ quote +:+ escape_chars value +:+ quote.

Definition string_is_valid_for_json (value : string) : bool := utf8_is_valid value.

Fixpoint keys_repeat (seen_keys : gset string) (object : Object) : bool :=
  match object with
  | [] => false
  | (key, _) :: rest =>
      if bool_decide (key ∈ seen_keys) then true else keys_repeat ({[key]} ∪ seen_keys) rest
  end.

Definition object_has_duplicate_keys (object : Object) : bool := keys_repeat ∅ object.

(** * Numbers

    The C library's [snprintf("%.*g")], [strtod] and [localeconv] are
    parameters.  [snprintf_g p d] is the text it formats ([None] when it
    reports an error), [strtod] returns the value and the count of characters
    it consumed. *)
Class Libc : Type := {
  snprintf_g : Z -> double -> option string;
  strtod : string -> double * nat;
  decimal_point : option string
}.

Fixpoint replace_first (needle replacement text : string) : string :=
  if String.prefix needle text
  then replacement +:+ drop_str (String.length needle) text
  else match text with
       | String c rest => String c (replace_first needle replacement rest)
       | EmptyString => EmptyString
       end.

Section Serializer.
Context `{Libc}.

Definition normalize_decimal_point (text : string) : string :=
  match decimal_point with
  | None => text
  | Some dp =>
      if empty dp || (dp =s ".") then text
      else replace_first dp "." text
  end.

(** The buffer has 32 bytes: a longer text is skipped, never used cut off. *)
Definition format_at (value : double) (precision : Z) : option string :=
  match snprintf_g precision value with
  | None => None
  | Some text =>
      let written := String.length text in
      if (written =? 0)%nat || (32 <=? written)%nat then None
      else
        let '(round_tripped, consumed) := strtod text in
        if (consumed =? written)%nat && SFeqb round_tripped value
        then Some (normalize_decimal_point text) else None
  end.

Fixpoint first_round_trip (value : double) (precisions : list Z) : option string :=
  match precisions with
  | [] => None
  | p :: ps => match format_at value p with Some t => Some t | None => first_round_trip value ps end
  end.

(** The text after the loop is used at whatever length [snprintf] reports.  The code would read past its buffer for 32
    characters or more, which is out of reach: with 17 digits "%g" writes at most 24. *)
Definition format_double (value : double) : string :=
  match first_round_trip value (Z.of_nat <$> seq 1 17) with
  | Some text => text
  | None =>
      match snprintf_g 17 value with
      | Some text => normalize_decimal_point text
      | None => normalize_decimal_point EmptyString
      end
  end.

(** * Values *)

(** The comma-separated loop shared by arrays and objects. *)
Fixpoint join (items : list string) : string :=
  match items with
  | [] => EmptyString
  | [x] => x
  | x :: rest => x +:+ "," +:+ join rest
  end.

Section Nested.
(** [serialize_value] on the children. *)
Context (serialize_child : Value -> SerializeResult).

Fixpoint serialize_items (array : Array) : list string + CanonicalJsonError :=
  match array with
  | [] => inl []
  | item :: rest =>
      match serialize_child item with
      | SErr e => inr e
      | SOk out =>
          match serialize_items rest with
          | inr e => inr e
          | inl outs => inl (out :: outs)
          end
      end
  end.

Definition serialize_array (array : Array) : SerializeResult :=
  match serialize_items array with
  | inr e => SErr e
  | inl items => SOk ("[" +:+ join items +:+ "]")
  end.

Fixpoint serialize_members (object : Object) : list (string * string) + CanonicalJsonError :=
  match object with
  | [] => inl []
  | (key, value) :: rest =>
      if negb (string_is_valid_for_json key) then inr cje_invalid_string
      else
        match serialize_child value with
        | SErr e => inr e
        | SOk out =>
            match serialize_members rest with
            | inr e => inr e
            | inl outs => inl ((key, out) :: outs)
            end
        end
  end.

Definition key_ltb {A} (lhs rhs : string * A) : bool := lhs.1 <s rhs.1.

Definition render_member (member : string * string) : string :=
  append_escaped_string EmptyString member.1 +:+ ":" +:+ member.2.

Definition serialize_object (object : Object) : SerializeResult :=
  if object_has_duplicate_keys object then SErr cje_duplicate_object_key
  else
    match serialize_members object with
    | inr e => SErr e
    | inl members =>
        SOk ("{" +:+ join (render_member <$> sort_by key_ltb members) +:+ "}")
    end.
End Nested.

Fixpoint serialize_value (reject_floats : bool) (value : Value) : SerializeResult :=
  match value with
  | VNull => SOk "null"
  | VBool b => SOk (if b then "true" else "false")
  | VInt z => SOk (to_string z)
  | VDouble d => if reject_floats then SErr cje_float_not_allowed else SOk (format_double d)
  | VRaw token => if reject_floats then SErr cje_float_not_allowed else SOk token
  | VString s =>
      if string_is_valid_for_json s then SOk (append_escaped_string EmptyString s)
      else SErr cje_invalid_string
  | VArray array => serialize_array (serialize_value reject_floats) array
  | VObject object => serialize_object (serialize_value reject_floats) object
  end.

Definition serialize_canonical (value : Value) : SerializeResult := serialize_value false value.
Definition serialize_canonical_strict (value : Value) : SerializeResult := serialize_value true value.

(** signable.cpp: drop the top-level [signatures] and [unsigned] members. *)
Definition make_signable_object_view (value : Value) : SerializeResult :=
  match value with
  | VObject object =>
      serialize_canonical_strict
        (VObject (List.filter (fun m => negb ((m.1 =s "signatures") || (m.1 =s "unsigned"))) object))
  | _ => serialize_canonical_strict value
  end.
End Serializer.

(** A C library that formats nothing: the strict path never calls it. *)
Definition no_libc : Libc := {| snprintf_g := fun _ _ => None; strtod := fun _ => (S754_nan, 0%nat);
                                decimal_point := None |}.

Example serialize_example :
  @serialize_canonical_strict no_libc
    (VObject [("b", VArray [VInt (-5); VNull]); ("a", VString "x/")])
  = SOk ("{" +:+ quote +:+ "a" +:+ quote +:+ ":" +:+ quote +:+ "x/" +:+ quote +:+ ","
           +:+ quote +:+ "b" +:+ quote +:+ ":[-5,null]}").
Proof. reflexivity. Qed.
