(* ===== verification/JsonParser.v ===== *)
(** Canonical JSON parsing: parser.cpp and yyjson_adapter.c.

    The yyjson library is a parameter.  [Yyjson] gives what a read returns: an
    error code, or a document with its root value and the number of bytes read.
    [YValue] is what the adapter's accessors tell of a value; a null data
    pointer is [None]. *)
From S2P Require Import Prelude CppStd Utf8 JsonValue.
Open Scope Z_scope.

Inductive ParseError : Type :=
| pe_none | pe_trailing_data | pe_unexpected_end | pe_unexpected_token | pe_invalid_literal
| pe_invalid_string | pe_invalid_escape | pe_invalid_unicode_escape | pe_invalid_number
| pe_integer_out_of_range | pe_duplicate_object_key | pe_nesting_too_deep | pe_too_many_object_members.

(** [ParseResult] and [ConvertResult]: a value, or the error with a null value. *)
Inductive ParseResult : Type :=
| POk (value : Value)
| PErr (error : ParseError).

Inductive MerovingianYyjsonReadCode : Type :=
| read_success | read_invalid_parameter | read_memory_allocation | read_empty_content
| read_unexpected_content | read_unexpected_end | read_unexpected_character | read_json_structure
| read_invalid_comment | read_invalid_number | read_invalid_string | read_literal
| read_file_open | read_file_read | read_more.

Inductive YValue : Type :=
| YNull
| YBool (b : bool)
| YRaw (token : option string)
| YUint (u : Z)
| YSint (s : Z)
| YReal (d : double)
| YString (data : option string)
| YArray (items : list YValue)
| YObject (members : list (option string * YValue))
| YUnknown.

Record YDocument : Type := { doc_root : option YValue; doc_bytes_read : nat }.

Class Yyjson : Type := {
  (** [yyjson_read_opts] with [YYJSON_READ_NUMBER_AS_RAW]. *)
  read_raw_numbers : string -> MerovingianYyjsonReadCode + YDocument;
  (** [yyjson_read_opts] with [YYJSON_READ_NOFLAG]. *)
  read_numbers : string -> MerovingianYyjsonReadCode + YDocument
}.

Definition max_depth : nat := 64.
Definition max_object_members : nat := Z.to_nat 65536.
Definition max_safe_integer : Z := 9007199254740991.
Definition min_safe_integer : Z := -9007199254740991.

Definition map_yyjson_error (error : MerovingianYyjsonReadCode) : ParseError :=
  match error with
  | read_success => pe_none
  | read_empty_content | read_unexpected_end | read_more => pe_unexpected_end
  | read_unexpected_content => pe_trailing_data
  | read_invalid_number => pe_invalid_number
  | read_invalid_string => pe_invalid_string
  | read_literal => pe_invalid_literal
  | _ => pe_unexpected_token
  end.

Definition is_blank_char (c : ascii) : bool :=
  Ascii.eqb c " "%char || Ascii.eqb c (chr 10) || Ascii.eqb c (chr 13) || Ascii.eqb c (chr 9).

Definition input_is_blank (input : string) : bool := all_char is_blank_char input.

(** * Numbers *)

(** An optional minus sign and digits without a leading zero; no negative zero. *)
Definition is_canonical_int64_token (token : string) : bool :=
  match token with
  | EmptyString => false
  | String c0 rest0 =>
      let has_minus := Ascii.eqb c0 "-"%char in
      match (if has_minus then rest0 else token) with
      | EmptyString => false
      | String c rest =>
          if Ascii.eqb c "0"%char then if has_minus then false else empty rest
          else if (byte_of c <? 49) || (57 <? byte_of c) then false
          else all_char is_digit rest
      end
  end.

(** [token.find_first_of(".eE") != npos]. *)
Definition has_fraction_or_exponent (token : string) : bool :=
  any_char (fun c => Ascii.eqb c "."%char || Ascii.eqb c "e"%char || Ascii.eqb c "E"%char) token.

Definition raw_number_as_int64 (token : string) : ParseResult :=
  if has_fraction_or_exponent token then PErr pe_invalid_number
  else if negb (is_canonical_int64_token token) then PErr pe_invalid_number
  else
    let r := from_chars_int64 token in
    match fc_ec r with
    | ec_result_out_of_range => PErr pe_integer_out_of_range
    | ec_invalid_argument => PErr pe_invalid_number
    | ec_none =>
        if negb (empty (fc_rest r)) then PErr pe_invalid_number
        else if (fc_value r <? min_safe_integer) || (max_safe_integer <? fc_value r)
        then PErr pe_integer_out_of_range
        else POk (VInt (fc_value r))
    end.

Definition convert_raw (token : string) (preserve_numbers : bool) : ParseResult :=
  match raw_number_as_int64 token with
  | PErr pe_invalid_number => if preserve_numbers then POk (VRaw token) else PErr pe_invalid_number
  | PErr pe_integer_out_of_range =>
      if preserve_numbers then POk (VRaw token) else PErr pe_integer_out_of_range
  | converted => converted
  end.

(** [merovingian_yyjson_integer_in_canonical_range]. *)
Definition integer_in_canonical_range (value : YValue) : bool :=
  match value with
  | YUint u => u <=? 9007199254740991
  | YSint s => (-9007199254740991 <=? s) && (s <=? 9007199254740991)
  | _ => false
  end.

(** * Conversion *)

Section Convert.
Context (preserve_numbers : bool).

Section Children.
(** [convert_yyjson_value] on the children. *)
Context (convert_child : YValue -> ParseResult).

Fixpoint convert_items (items : list YValue) : list Value + ParseError :=
  match items with
  | [] => inl []
  | item :: rest =>
      match convert_child item with
      | PErr e => inr e
      | POk v => match convert_items rest with
                 | inr e => inr e
                 | inl vs => inl (v :: vs)
                 end
      end
  end.

Fixpoint convert_members (seen_keys : gset string) (members : list (option string * YValue))
    : Object + ParseError :=
  match members with
  | [] => inl []
  | (None, _) :: _ => inr pe_invalid_string
  | (Some key, member) :: rest =>
      if bool_decide (key ∈ seen_keys) then inr pe_duplicate_object_key
      else
        match convert_child member with
        | PErr e => inr e
        | POk v => match convert_members ({[key]} ∪ seen_keys) rest with
                   | inr e => inr e
                   | inl vs => inl ((key, v) :: vs)
                   end
        end
  end.
End Children.

Fixpoint convert_yyjson_value (value : YValue) (depth : nat) : ParseResult :=
  if (max_depth <? depth)%nat then PErr pe_nesting_too_deep
  else
    match value with
    | YNull => POk VNull
    | YBool b => POk (VBool b)
    | YRaw None => PErr pe_unexpected_token
    | YRaw (Some token) => convert_raw token preserve_numbers
    | YUint u =>
        if negb (integer_in_canonical_range (YUint u)) then PErr pe_integer_out_of_range else POk (VInt u)
    | YSint s =>
        if negb (integer_in_canonical_range (YSint s)) then PErr pe_integer_out_of_range else POk (VInt s)
    | YReal d => POk (VDouble d)
    | YString None => PErr pe_invalid_string
    | YString (Some s) => POk (VString s)
    | YArray items =>
        match convert_items (fun item => convert_yyjson_value item (S depth)) items with
        | inr e => PErr e
        | inl vs => POk (VArray vs)
        end
    | YObject members =>
        if (max_object_members <? length members)%nat then PErr pe_too_many_object_members
        else
          match convert_members (fun member => convert_yyjson_value member (S depth)) ∅ members with
          | inr e => PErr e
          | inl vs => POk (VObject vs)
          end
    | YUnknown => PErr pe_unexpected_token
    end.

(** A null pointer fails after the depth check. *)
Definition convert_root (root : option YValue) : ParseResult :=
  match root with
  | None => PErr pe_unexpected_token
  | Some v => convert_yyjson_value v 0
  end.
End Convert.

Definition parse_error_name (error : ParseError) : string :=
  match error with
  | pe_none => "none"
  | pe_trailing_data => "trailing_data"
  | pe_unexpected_end => "unexpected_end"
  | pe_unexpected_token => "unexpected_token"
  | pe_invalid_literal => "invalid_literal"
  | pe_invalid_string => "invalid_string"
  | pe_invalid_escape => "invalid_escape"
  | pe_invalid_unicode_escape => "invalid_unicode_escape"
  | pe_invalid_number => "invalid_number"
  | pe_integer_out_of_range => "integer_out_of_range"
  | pe_duplicate_object_key => "duplicate_object_key"
  | pe_nesting_too_deep => "nesting_too_deep"
  | pe_too_many_object_members => "too_many_object_members"
  end.

(** * Parsing *)

Section Parse.
Context `{Yyjson}.

(** What follows the read in both entry points. *)
Definition finish_parse (preserve_numbers : bool) (input : string)
    (read : MerovingianYyjsonReadCode + YDocument) : ParseResult :=
  match read with
  | inl code => PErr (map_yyjson_error code)
  | inr document =>
      if negb (doc_bytes_read document =? String.length input)%nat then PErr pe_trailing_data
      else convert_root preserve_numbers (doc_root document)
  end.

Definition parse_with_raw_numbers (input : string) (preserve_numbers : bool) : ParseResult :=
  if input_is_blank input then PErr pe_unexpected_end
  else if negb (utf8_is_valid input) then PErr pe_invalid_string
  else finish_parse preserve_numbers input (read_raw_numbers input).

Definition parse_lossless (input : string) : ParseResult := parse_with_raw_numbers input false.
Definition parse_preserving_numbers (input : string) : ParseResult := parse_with_raw_numbers input true.

Definition parse_json (input : string) : ParseResult :=
  if input_is_blank input then PErr pe_unexpected_end
  else if negb (utf8_is_valid input) then PErr pe_invalid_string
  else finish_parse false input (read_numbers input).
End Parse.

Example token_examples :
  raw_number_as_int64 "-120" = POk (VInt (-120)) /\ raw_number_as_int64 "-0" = PErr pe_invalid_number
  /\ raw_number_as_int64 "007" = PErr pe_invalid_number
  /\ raw_number_as_int64 "9007199254740992" = PErr pe_integer_out_of_range.
Proof. repeat split. Qed.
