(* ===== verification/JsonNumbers.v ===== *)
(** Integers in canonical JSON: the parser accepts exactly the tokens the
    serializer prints, for the integers of the canonical range. *)
From S2P Require Import Prelude CppStd JsonValue JsonParser.
Open Scope Z_scope.
#[local] Arguments String.append : simpl nomatch.

(** * Strings of digits *)

Fixpoint all_digits (s : string) : bool :=
  match s with EmptyString => true | String c s' => is_digit c && all_digits s' end.

Lemma all_char_cons p c s : all_char p (String c s) = p c && all_char p s.
Proof. unfold all_char. simpl. by destruct (p c). Qed.

Lemma all_digits_all_char s : all_char is_digit s = all_digits s.
Proof. induction s as [|c s IH]; [done|]. by rewrite all_char_cons, IH. Qed.

Lemma append_assoc (a b c : string) : (a +:+ b) +:+ c = a +:+ (b +:+ c).
Proof. induction a as [|x a IH]; simpl; [done|]. by f_equal. Qed.

Lemma append_nil_r (a : string) : a +:+ EmptyString = a.
Proof. induction a as [|x a IH]; simpl; [done|]. by f_equal. Qed.

Lemma all_digits_app a b : all_digits (a +:+ b) = all_digits a && all_digits b.
Proof. induction a as [|c a IH]; simpl; [done|]. rewrite IH. by destruct (is_digit c). Qed.

Lemma digits_value_app acc a b : digits_value acc (a +:+ b) = digits_value (digits_value acc a) b.
Proof. revert acc. induction a as [|c a IH]; intros acc; simpl; [done|]. apply IH. Qed.

Lemma is_digit_spec c : is_digit c = true <-> 48 <= byte_of c <= 57.
Proof. unfold is_digit. rewrite andb_true_iff, !Z.leb_le. done. Qed.

Lemma digits_value_nonneg acc s : 0 <= acc -> all_digits s = true -> 0 <= digits_value acc s.
Proof.
  revert acc. induction s as [|c s IH]; intros acc Hacc; simpl; [done|].
  rewrite andb_true_iff, is_digit_spec. intros [Hc Hs]. apply IH; [lia|done].
Qed.

Lemma digits_value_mono acc s : 0 <= acc -> all_digits s = true -> acc <= digits_value acc s.
Proof.
  revert acc. induction s as [|c s IH]; intros acc Hacc; simpl; [done|].
  rewrite andb_true_iff, is_digit_spec. intros [Hc Hs]. etrans; [|apply IH; [lia|done]]. lia.
Qed.

Lemma byte_of_digit_char d : 0 <= d < 10 -> byte_of (digit_char d) = 48 + d.
Proof. intros Hd. unfold digit_char. rewrite byte_of_chr by lia. lia. Qed.

Lemma digit_char_of c : is_digit c = true -> digit_char (byte_of c - 48) = c.
Proof. intros Hc%is_digit_spec. apply byte_of_inj. rewrite byte_of_digit_char by lia. lia. Qed.

(** A digit string without a leading zero. *)
Definition canonical_digits (s : string) : bool :=
  match s with
  | EmptyString => false
  | String c rest => is_digit c && all_digits rest && (negb (byte_of c =? 48) || empty rest)
  end.

Lemma string_snoc (s : string) : s <> EmptyString -> exists init c, s = init +:+ String c EmptyString.
Proof.
  induction s as [|c s IH]; [done|]. intros _. destruct s as [|c' s].
  - by exists EmptyString, c.
  - destruct IH as (init & d & E); [done|]. exists (String c init), d. simpl. by rewrite E.
Qed.

Lemma length_append (a b : string) : String.length (a +:+ b) = (String.length a + String.length b)%nat.
Proof. induction a as [|c a IH]; simpl; [done|]. by f_equal. Qed.

(** Dropping the last digit of a longer canonical string leaves a canonical
    string of positive value. *)
Lemma canonical_init init c : init <> EmptyString -> canonical_digits (init +:+ String c EmptyString) = true ->
  canonical_digits init = true /\ is_digit c = true /\ 0 < digits_value 0 init.
Proof.
  destruct init as [|d init]; [done|]. intros _. simpl. rewrite all_digits_app. simpl.
  rewrite !andb_true_iff. intros [(Hd & Hi & Hc & _) Hz].
  assert (negb (byte_of d =? 48) = true) as Hnz by (destruct (byte_of d =? 48); [by destruct init|done]).
  rewrite Hd, Hi, Hnz. split; [done|]. split; [done|].
  apply negb_true_iff, Z.eqb_neq in Hnz. apply is_digit_spec in Hd.
  eapply Z.lt_le_trans; [|apply digits_value_mono; [|exact Hi]]; lia.
Qed.

(** [std::to_string] of the value of a canonical digit string is the string. *)
Lemma nat_digits_canonical fuel s acc : canonical_digits s = true -> (String.length s <= fuel)%nat ->
  nat_digits fuel (digits_value 0 s) acc = s +:+ acc.
Proof.
  revert s acc. induction fuel as [|fuel IH]; intros s acc Hs Hf.
  { by destruct s; [|simpl in Hf; lia]. }
  destruct (string_snoc s) as (init & c & ->); [by intros ->|].
  rewrite digits_value_app. simpl digits_value. set (n := digits_value 0 init).
  destruct (decide (init = EmptyString)) as [->|Hne].
  - simpl in Hs. rewrite !andb_true_iff in Hs. destruct Hs as [[Hc _] _]. pose proof Hc as Hc'%is_digit_spec.
    subst n. simpl digits_value. replace (0 * 10 + (byte_of c - 48)) with (byte_of c - 48) by lia.
    cbn [nat_digits]. rewrite Z.mod_small by lia. rewrite (digit_char_of c Hc).
    assert ((byte_of c - 48 <? 10) = true) as -> by (apply Z.ltb_lt; lia). done.
  - destruct (canonical_init init c Hne Hs) as (Hi & Hc & Hpos). pose proof Hc as Hc'%is_digit_spec.
    fold n in Hpos. simpl.
    assert ((n * 10 + (byte_of c - 48)) mod 10 = byte_of c - 48) as ->
      by (rewrite Z.add_comm, Z_mod_plus_full, Z.mod_small; lia).
    assert ((n * 10 + (byte_of c - 48)) / 10 = n) as ->
      by (rewrite Z.add_comm, Z_div_plus_full, Z.div_small by lia; lia).
    assert ((n * 10 + (byte_of c - 48) <? 10) = false) as -> by (apply Z.ltb_ge; lia).
    rewrite (digit_char_of c Hc). rewrite length_append in Hf. simpl in Hf.
    subst n. rewrite IH by (done || lia). by rewrite append_assoc.
Qed.

(** Enough fuel prints a canonical digit string of the value. *)
Lemma nat_digits_value fuel n acc : (0 < fuel)%nat -> 0 <= n < 10 ^ Z.of_nat fuel ->
  exists s, nat_digits fuel n acc = s +:+ acc /\ canonical_digits s = true /\ digits_value 0 s = n
    /\ (0 < n -> forall c rest, s = String c rest -> byte_of c <> 48).
Proof.
  revert n acc. induction fuel as [|fuel IH]; intros n acc Hf Hn; [lia|]. simpl.
  pose proof (Z.mod_pos_bound n 10 ltac:(lia)) as Hm.
  destruct (n <? 10) eqn:E; breflect.
  - exists (String (digit_char (n mod 10)) EmptyString). rewrite Z.mod_small by lia. split; [done|].
    unfold canonical_digits. rewrite (proj2 (is_digit_spec _)) by (rewrite byte_of_digit_char; lia).
    split; [by rewrite orb_true_r|]. simpl. rewrite byte_of_digit_char by lia. split; [lia|].
    intros Hp c rest [= <- _]. rewrite byte_of_digit_char by lia. lia.
  - assert (0 < fuel)%nat as Hfu by (destruct fuel; [simpl in Hn; lia|lia]).
    assert (0 <= n / 10 < 10 ^ Z.of_nat fuel) as Hd.
    { split; [apply Z.div_pos; lia|]. apply Z.div_lt_upper_bound; [lia|].
      rewrite Nat2Z.inj_succ, Z.pow_succ_r in Hn by lia. lia. }
    destruct (IH (n / 10) (String (digit_char (n mod 10)) acc) Hfu Hd) as (s & Hs & Hc & Hv & Hnz).
    assert (0 < n / 10) as Hpos by (apply Z.div_str_pos; lia).
    exists (s +:+ String (digit_char (n mod 10)) EmptyString). rewrite append_assoc. split; [done|].
    destruct s as [|c s]; [done|]. pose proof (Hnz Hpos c s eq_refl) as Hne. split; [|split].
    + simpl in Hc |- *. rewrite !andb_true_iff in Hc. destruct Hc as [[Hc1 Hc2] _].
      rewrite all_digits_app, Hc1, Hc2. simpl.
      rewrite (proj2 (is_digit_spec _)) by (rewrite byte_of_digit_char; lia). simpl.
      rewrite (proj2 (Z.eqb_neq _ _) Hne). done.
    + rewrite digits_value_app, Hv. simpl. rewrite byte_of_digit_char by lia.
      pose proof (Z.div_mod n 10 ltac:(lia)). lia.
    + intros _ c' rest [= <- _]. done.
Qed.

(** * Printing *)

Lemma canonical_digits_unique s t : canonical_digits s = true -> canonical_digits t = true ->
  digits_value 0 s = digits_value 0 t -> s = t.
Proof.
  intros Hs Ht E. set (fuel := Nat.max (String.length s) (String.length t)).
  pose proof (nat_digits_canonical fuel s EmptyString Hs ltac:(lia)) as H1.
  pose proof (nat_digits_canonical fuel t EmptyString Ht ltac:(lia)) as H2.
  rewrite append_nil_r in H1, H2. congruence.
Qed.

(** The first digit of a positive number is not zero. *)
Definition leading_nonzero (s : string) : Prop := forall c rest, s = String c rest -> byte_of c <> 48.

Lemma to_string_digits z : exists s, to_string z = (if z <? 0 then String "-"%char s else s)
  /\ canonical_digits s = true /\ digits_value 0 s = Z.abs z /\ (z <> 0 -> leading_nonzero s).
Proof.
  unfold to_string.
  destruct (nat_digits_value (S (Z.to_nat (Z.log2 (Z.abs z)))) (Z.abs z) EmptyString) as (s & Hs & Hc & Hv & Hnz).
  - lia.
  - split; [lia|]. rewrite Nat2Z.inj_succ, Z2Nat.id by apply Z.log2_nonneg.
    destruct (decide (z = 0)) as [->|Hz]; [done|].
    pose proof (Z.log2_spec (Z.abs z) ltac:(lia)) as [_ Hlt]. etrans; [exact Hlt|].
    pose proof (Z.log2_nonneg (Z.abs z)). apply Z.pow_lt_mono_l; lia.
  - rewrite append_nil_r in Hs. rewrite Hs. exists s. split; [done|]. split; [done|]. split; [done|].
    intros Hz. exact (Hnz ltac:(lia)).
Qed.

(** * Tokens *)

Lemma span_all_digits s : all_digits s = true -> span_digits s = (s, EmptyString).
Proof.
  induction s as [|c s IH]; simpl; [done|]. rewrite andb_true_iff. intros [-> Hs]. by rewrite IH.
Qed.

Lemma canonical_all_digits s : canonical_digits s = true -> all_digits s = true.
Proof. destruct s as [|c s]; [done|]. simpl. rewrite !andb_true_iff. tauto. Qed.

Lemma digit_not c d : is_digit c = true -> is_digit d = false -> Ascii.eqb c d = false.
Proof. intros Hc Hd. apply Ascii.eqb_neq. intros ->. congruence. Qed.

Lemma digits_no_fraction s : all_digits s = true -> has_fraction_or_exponent s = false.
Proof.
  unfold has_fraction_or_exponent. induction s as [|c s IH]; simpl; [done|]. rewrite andb_true_iff.
  intros [Hc Hs]. rewrite !(digit_not c) by done. simpl. auto.
Qed.

Lemma starts_with_digit s : all_digits s = true -> starts_with "-"%char s = false.
Proof. destruct s as [|c s]; simpl; [done|]. rewrite andb_true_iff. intros [Hc _]. by apply digit_not. Qed.

Lemma canonical_nonempty s : canonical_digits s = true -> empty s = false.
Proof. by destruct s. Qed.

Lemma from_chars_digits s : canonical_digits s = true ->
  from_chars_int64 s = if int64_in_range (digits_value 0 s) then FromChars ec_none (digits_value 0 s) EmptyString
                       else FromChars ec_result_out_of_range 0 EmptyString.
Proof.
  intros Hc. pose proof (canonical_all_digits s Hc) as Hd. unfold from_chars_int64.
  rewrite (starts_with_digit s Hd), (span_all_digits s Hd), (canonical_nonempty s Hc). done.
Qed.

Lemma from_chars_negative s : canonical_digits s = true ->
  from_chars_int64 (String "-"%char s) =
    if int64_in_range (- digits_value 0 s) then FromChars ec_none (- digits_value 0 s) EmptyString
    else FromChars ec_result_out_of_range 0 EmptyString.
Proof.
  intros Hc. unfold from_chars_int64. simpl.
  rewrite (span_all_digits s (canonical_all_digits s Hc)), (canonical_nonempty s Hc). done.
Qed.

(** The tokens the check accepts. *)
Lemma canonical_token token : is_canonical_int64_token token = true <->
  canonical_digits token = true \/ exists s, token = String "-"%char s /\ canonical_digits s = true /\ leading_nonzero s.
Proof.
  assert (forall c, is_digit c = true <-> Ascii.eqb c "0"%char = true \/ (byte_of c <? 49) || (57 <? byte_of c) = false)
    as Hdig.
  { intros c. rewrite is_digit_spec, orb_false_iff, !Z.ltb_ge, Ascii.eqb_eq. split.
    - intros Hc. destruct (decide (byte_of c = 48)) as [E|E]; [left; by apply byte_of_inj|right; lia].
    - intros [->|Hc]; [done|lia]. }
  assert (forall c, Ascii.eqb c "0"%char = (byte_of c =? 48)) as Hzero.
  { intros c. destruct (Ascii.eqb_spec c "0"%char) as [->|Hne]; [done|].
    symmetry. apply Z.eqb_neq. intros E. by apply Hne, byte_of_inj. }
  destruct token as [|c0 rest0]; [split; [done|intros [|(s & ? & _)]; done]|].
  unfold is_canonical_int64_token. destruct (Ascii.eqb_spec c0 "-"%char) as [->|Hm].
  - split.
    + intros Ht. right. exists rest0. split; [done|]. destruct rest0 as [|c rest]; [done|].
      rewrite Hzero in Ht. destruct (byte_of c =? 48) eqn:E; [done|].
      destruct (_ || _) eqn:Er; [done|]. rewrite all_digits_all_char in Ht.
      split; [simpl; rewrite (proj2 (Hdig c)), Ht, E by auto; done|].
      intros c' r' [= <- _]. by apply Z.eqb_neq.
    + intros [Hc|(s & [= <-] & Hs & Hnz)]; [done|]. destruct rest0 as [|c rest]; [done|].
      simpl in Hs. rewrite !andb_true_iff in Hs. destruct Hs as [[Hd Hr] _].
      rewrite Hzero, (proj2 (Z.eqb_neq _ _) (Hnz c rest eq_refl)).
      apply Hdig in Hd as [Hd|Hd]; [rewrite Hzero in Hd; apply Z.eqb_eq in Hd; by destruct (Hnz c rest eq_refl)|].
      by rewrite Hd, all_digits_all_char.
  - rewrite Hzero. split.
    + intros Ht. left. simpl. destruct (byte_of c0 =? 48) eqn:E.
      * destruct rest0; [|done]. rewrite (proj2 (Hdig c0)); [done|]. left. by rewrite Hzero.
      * destruct (_ || _) eqn:Er; [done|]. rewrite all_digits_all_char in Ht.
        rewrite (proj2 (Hdig c0)), Ht by auto. done.
    + intros [Hc|(s & [= -> ->] & _)]; [|done]. simpl in Hc. rewrite !andb_true_iff in Hc.
      destruct Hc as [[Hd Hr] Hz]. destruct (byte_of c0 =? 48) eqn:E; [done|].
      apply Hdig in Hd as [Hd|Hd]; [rewrite Hzero in Hd; congruence|]. by rewrite Hd, all_digits_all_char.
Qed.

Lemma to_string_canonical s : canonical_digits s = true -> to_string (digits_value 0 s) = s.
Proof.
  intros Hs. pose proof (digits_value_nonneg 0 s ltac:(lia) (canonical_all_digits s Hs)) as Hp.
  destruct (to_string_digits (digits_value 0 s)) as (t & -> & Ht & Hv & _).
  assert ((digits_value 0 s <? 0) = false) as -> by (by apply Z.ltb_ge).
  apply canonical_digits_unique; [done..|]. lia.
Qed.

Lemma to_string_negative s : canonical_digits s = true -> leading_nonzero s ->
  to_string (- digits_value 0 s) = String "-"%char s.
Proof.
  intros Hs Hnz. assert (0 < digits_value 0 s) as Hp.
  { destruct s as [|c s]; [done|]. pose proof (Hnz c s eq_refl). simpl in Hs. rewrite !andb_true_iff in Hs.
    destruct Hs as [[Hc%is_digit_spec Hs] _]. simpl digits_value.
    eapply Z.lt_le_trans; [|apply digits_value_mono; [|exact Hs]]; lia. }
  destruct (to_string_digits (- digits_value 0 s)) as (t & -> & Ht & Hv & _).
  assert ((- digits_value 0 s <? 0) = true) as -> by (apply Z.ltb_lt; lia).
  f_equal. apply canonical_digits_unique; [done..|]. lia.
Qed.

Lemma safe_in_int64 z : min_safe_integer <= z <= max_safe_integer -> int64_in_range z = true.
Proof.
  unfold int64_in_range, min_safe_integer, max_safe_integer, int64_min, int64_max. intros Hz.
  rewrite andb_true_iff, !Z.leb_le. lia.
Qed.

(** * Property *)

(** A number token is accepted as the integer [z] exactly when it is the text
    the serializer prints for [z] and [z] is in the canonical range: leading
    zeros, a plus sign, negative zero, fractions, exponents and out-of-range
    values are refused, and nothing else is. *)
Lemma integer_tokens_exact token z :
  raw_number_as_int64 token = POk (VInt z) <->
  token = to_string z /\ min_safe_integer <= z <= max_safe_integer.
Proof.
  unfold raw_number_as_int64. split.
  - destruct (has_fraction_or_exponent token); [done|].
    destruct (is_canonical_int64_token token) eqn:Et; [|done]. simpl.
    apply canonical_token in Et as [Hs|(s & -> & Hs & Hnz)].
    + rewrite (from_chars_digits token Hs). destruct (int64_in_range _); [|done]. simpl.
      destruct (_ || _) eqn:Er; [done|]. intros [= <-]. breflect. by rewrite to_string_canonical.
    + rewrite (from_chars_negative s Hs). destruct (int64_in_range _); [|done]. cbn [fc_ec fc_rest fc_value empty negb].
      destruct (_ || _) eqn:Er; [done|]. intros [= <-]. breflect. by rewrite to_string_negative.
  - intros [-> Hz]. destruct (to_string_digits z) as (s & -> & Hs & Hv & Hnz).
    pose proof (safe_in_int64 z Hz) as Hr. pose proof (digits_no_fraction s (canonical_all_digits s Hs)) as Hf.
    assert (((z <? min_safe_integer) || (max_safe_integer <? z)) = false) as Hsafe
      by (rewrite orb_false_iff, !Z.ltb_ge; lia).
    destruct (Z.ltb_spec z 0) as [Hlt|Hge].
    + assert (- digits_value 0 s = z) as Hneg by lia.
      unfold has_fraction_or_exponent in *. simpl any_char. rewrite Hf. simpl orb. cbv iota.
      rewrite (proj2 (canonical_token _)) by (right; exists s; repeat split; [done|apply Hnz; lia]).
      rewrite (from_chars_negative s Hs), Hneg, Hr. cbn [fc_ec fc_rest fc_value empty negb]. by rewrite Hsafe.
    + assert (digits_value 0 s = z) as Hpos by lia.
      rewrite Hf. rewrite (proj2 (canonical_token _)) by (by left).
      rewrite (from_chars_digits s Hs), Hpos, Hr. cbn [fc_ec fc_rest fc_value empty negb]. by rewrite Hsafe.
Qed.
