(* ===== verification/RoomVersion.v ===== *)
(** Room version policies: rooms/RoomVersionPolicy.{hpp,cpp} and the enums of
    include/merovingian/rooms. *)
From S2P Require Import Prelude CppStd.

Inductive AuthRules : Type := room_v1 | room_v6_plus | room_v12.
Inductive RedactionRules : Type := room_v1_v7 | room_v8_v10 | room_v11_plus.
Inductive StateResolutionAlgorithm : Type := sr_v2 | sr_v2_1.
Inductive EventFormat : Type := room_v3_plus.
Inductive EventIdFormat : Type := reference_hash.

#[export] Instance AuthRules_eq_dec : EqDecision AuthRules.
Proof. solve_decision. Defined.
#[export] Instance RedactionRules_eq_dec : EqDecision RedactionRules.
Proof. solve_decision. Defined.
#[export] Instance StateResolutionAlgorithm_eq_dec : EqDecision StateResolutionAlgorithm.
Proof. solve_decision. Defined.

Record RoomVersionPolicy : Type := {
  policy_id : string;
  event_format : EventFormat;
  redaction_rules : RedactionRules;
  auth_rules : AuthRules;
  state_resolution : StateResolutionAlgorithm;
  event_id_format : EventIdFormat;
  stable : bool;
  create_event_is_room_id : bool;
  privilege_room_creators : bool;
  power_levels_require_integers : bool;
  power_levels_accept_floats : bool;
  knock_join_rule : bool;
  restricted_join_rule : bool;
  knock_restricted_join_rule : bool;
  redaction_keeps_aliases : bool;
  redaction_keeps_join_authorisation : bool;
  ignores_key_validity : bool;
  event_id_url_safe_base64 : bool
}.

(** The entries of the [policies] array: the designated initializers of each
    entry, and the struct's default for every flag it omits. *)
Definition policy_v3 : RoomVersionPolicy := {|
  policy_id := "3"; event_format := room_v3_plus; redaction_rules := room_v1_v7;
  auth_rules := room_v1; state_resolution := sr_v2; event_id_format := reference_hash;
  stable := true; create_event_is_room_id := false; privilege_room_creators := false;
  power_levels_require_integers := false; power_levels_accept_floats := true;
  knock_join_rule := false; restricted_join_rule := false; knock_restricted_join_rule := false;
  redaction_keeps_aliases := true; redaction_keeps_join_authorisation := false;
  ignores_key_validity := true; event_id_url_safe_base64 := false |}.

Definition policy_v4 : RoomVersionPolicy := {|
  policy_id := "4"; event_format := room_v3_plus; redaction_rules := room_v1_v7;
  auth_rules := room_v1; state_resolution := sr_v2; event_id_format := reference_hash;
  stable := true; create_event_is_room_id := false; privilege_room_creators := false;
  power_levels_require_integers := false; power_levels_accept_floats := true;
  knock_join_rule := false; restricted_join_rule := false; knock_restricted_join_rule := false;
  redaction_keeps_aliases := true; redaction_keeps_join_authorisation := false;
  ignores_key_validity := true; event_id_url_safe_base64 := true |}.

Definition policy_v5 : RoomVersionPolicy := {|
  policy_id := "5"; event_format := room_v3_plus; redaction_rules := room_v1_v7;
  auth_rules := room_v1; state_resolution := sr_v2; event_id_format := reference_hash;
  stable := true; create_event_is_room_id := false; privilege_room_creators := false;
  power_levels_require_integers := false; power_levels_accept_floats := true;
  knock_join_rule := false; restricted_join_rule := false; knock_restricted_join_rule := false;
  redaction_keeps_aliases := true; redaction_keeps_join_authorisation := false;
  ignores_key_validity := false; event_id_url_safe_base64 := true |}.

Definition policy_v6 : RoomVersionPolicy := {|
  policy_id := "6"; event_format := room_v3_plus; redaction_rules := room_v1_v7;
  auth_rules := room_v6_plus; state_resolution := sr_v2; event_id_format := reference_hash;
  stable := true; create_event_is_room_id := false; privilege_room_creators := false;
  power_levels_require_integers := false; power_levels_accept_floats := false;
  knock_join_rule := false; restricted_join_rule := false; knock_restricted_join_rule := false;
  redaction_keeps_aliases := false; redaction_keeps_join_authorisation := false;
  ignores_key_validity := false; event_id_url_safe_base64 := true |}.

Definition policy_v7 : RoomVersionPolicy := {|
  policy_id := "7"; event_format := room_v3_plus; redaction_rules := room_v1_v7;
  auth_rules := room_v6_plus; state_resolution := sr_v2; event_id_format := reference_hash;
  stable := true; create_event_is_room_id := false; privilege_room_creators := false;
  power_levels_require_integers := false; power_levels_accept_floats := false;
  knock_join_rule := true; restricted_join_rule := false; knock_restricted_join_rule := false;
  redaction_keeps_aliases := false; redaction_keeps_join_authorisation := false;
  ignores_key_validity := false; event_id_url_safe_base64 := true |}.

Definition policy_v8 : RoomVersionPolicy := {|
  policy_id := "8"; event_format := room_v3_plus; redaction_rules := room_v8_v10;
  auth_rules := room_v6_plus; state_resolution := sr_v2; event_id_format := reference_hash;
  stable := true; create_event_is_room_id := false; privilege_room_creators := false;
  power_levels_require_integers := false; power_levels_accept_floats := false;
  knock_join_rule := true; restricted_join_rule := true; knock_restricted_join_rule := false;
  redaction_keeps_aliases := false; redaction_keeps_join_authorisation := false;
  ignores_key_validity := false; event_id_url_safe_base64 := true |}.

Definition policy_v9 : RoomVersionPolicy := {|
  policy_id := "9"; event_format := room_v3_plus; redaction_rules := room_v8_v10;
  auth_rules := room_v6_plus; state_resolution := sr_v2; event_id_format := reference_hash;
  stable := true; create_event_is_room_id := false; privilege_room_creators := false;
  power_levels_require_integers := false; power_levels_accept_floats := false;
  knock_join_rule := true; restricted_join_rule := true; knock_restricted_join_rule := false;
  redaction_keeps_aliases := false; redaction_keeps_join_authorisation := true;
  ignores_key_validity := false; event_id_url_safe_base64 := true |}.

Definition policy_v10 : RoomVersionPolicy := {|
  policy_id := "10"; event_format := room_v3_plus; redaction_rules := room_v8_v10;
  auth_rules := room_v6_plus; state_resolution := sr_v2; event_id_format := reference_hash;
  stable := true; create_event_is_room_id := false; privilege_room_creators := false;
  power_levels_require_integers := true; power_levels_accept_floats := false;
  knock_join_rule := true; restricted_join_rule := true; knock_restricted_join_rule := true;
  redaction_keeps_aliases := false; redaction_keeps_join_authorisation := true;
  ignores_key_validity := false; event_id_url_safe_base64 := true |}.

Definition policy_v11 : RoomVersionPolicy := {|
  policy_id := "11"; event_format := room_v3_plus; redaction_rules := room_v11_plus;
  auth_rules := room_v6_plus; state_resolution := sr_v2; event_id_format := reference_hash;
  stable := true; create_event_is_room_id := false; privilege_room_creators := false;
  power_levels_require_integers := true; power_levels_accept_floats := false;
  knock_join_rule := true; restricted_join_rule := true; knock_restricted_join_rule := true;
  redaction_keeps_aliases := false; redaction_keeps_join_authorisation := true;
  ignores_key_validity := false; event_id_url_safe_base64 := true |}.

Definition policy_v12 : RoomVersionPolicy := {|
  policy_id := "12"; event_format := room_v3_plus; redaction_rules := room_v11_plus;
  auth_rules := room_v12; state_resolution := sr_v2_1; event_id_format := reference_hash;
  stable := true; create_event_is_room_id := true; privilege_room_creators := true;
  power_levels_require_integers := true; power_levels_accept_floats := false;
  knock_join_rule := true; restricted_join_rule := true; knock_restricted_join_rule := true;
  redaction_keeps_aliases := false; redaction_keeps_join_authorisation := true;
  ignores_key_validity := false; event_id_url_safe_base64 := true |}.

Definition policies : list RoomVersionPolicy :=
  [policy_v3; policy_v4; policy_v5; policy_v6; policy_v7; policy_v8; policy_v9; policy_v10;
   policy_v11; policy_v12].

Definition known_room_versions : list RoomVersionPolicy := policies.

Definition find_room_version_policy (v : string) : option RoomVersionPolicy :=
  List.find (fun p => policy_id p =s v) policies.

Definition room_version_is_supported (v : string) : bool :=
  match find_room_version_policy v with Some _ => true | None => false end.

(** Room version features only ever accumulate along the version order: each
    flag that gates an authorization rule of a later version implies the flags
    of the earlier ones. *)
Lemma policies_features_monotone :
  Forall (fun p =>
    implb (knock_restricted_join_rule p) (restricted_join_rule p)
    && implb (restricted_join_rule p) (knock_join_rule p)
    && implb (power_levels_accept_floats p) (negb (power_levels_require_integers p))
    && implb (privilege_room_creators p) (create_event_is_room_id p) = true) policies.
Proof. repeat constructor. Qed.

Lemma find_room_version_policy_In v p :
  find_room_version_policy v = Some p -> p ∈ policies /\ policy_id p = v.
Proof.
  unfold find_room_version_policy. intros H%find_some. destruct H as [H1 H2].
  breflect. by rewrite <- list_elem_of_In in H1.
Qed.
