(* ===== verification/Signing.v ===== *)
(** Signing payloads and Ed25519 verification: the parts of event_signer.cpp and
    crypto/ed25519.cpp that event authorization calls.

    libsodium is a parameter: [Sodium] lists the calls the sources make, as
    functions on byte strings. *)
From S2P Require Import Prelude CppStd JsonValue JsonSerializer.
Open Scope Z_scope.

Class Sodium : Type := {
  (** [sodium_init() >= 0]. *)
  sodium_init_ok : bool;
  (** [sodium_base642bin] with the unpadded original alphabet; [None] is a
      non-zero return. *)
  sodium_base642bin : string -> option string;
  (** [sodium_bin2base64] without padding: the original alphabet, or the
      URL-safe one when the flag is set. *)
  sodium_bin2base64 : bool -> string -> string;
  (** [crypto_hash_sha256]; [None] is a non-zero return. *)
  crypto_hash_sha256 : string -> option string;
  (** [crypto_sign_detached(secret_key, message)]; [None] is a non-zero return. *)
  crypto_sign_detached : string -> string -> option string;
  (** [crypto_sign_verify_detached(signature, message, public_key) == 0]. *)
  crypto_sign_verify_detached : string -> string -> string -> bool
}.

Section Signing.
Context `{Libc} `{Sodium}.

Definition clone_without_unsigned_and_signatures (object : Object) : Object :=
  List.filter (fun m => (m.1 <>s "unsigned") && (m.1 <>s "signatures")) object.

Definition matrix_bytes_from_base64 (encoded : string) : string :=
  if empty encoded || negb sodium_init_ok then EmptyString
  else match sodium_base642bin encoded with Some bytes => bytes | None => EmptyString end.

Definition make_event_signing_payload (event : Value) : SerializeResult :=
  match event with
  | VObject object =>
      serialize_canonical_strict (VObject (clone_without_unsigned_and_signatures object))
  | _ => SErr cje_invalid_string
  end.

Definition ed25519_public_key_shape_is_valid (bytes : string) : bool := (String.length bytes =? 32)%nat.
Definition ed25519_signature_shape_is_valid (bytes : string) : bool := (String.length bytes =? 64)%nat.

Definition ed25519_verify (public_key message signature : string) : bool :=
  if negb (ed25519_public_key_shape_is_valid public_key)
     || negb (ed25519_signature_shape_is_valid signature) then false
  else crypto_sign_verify_detached signature message public_key.

End Signing.
