(* ===== verification/JsonCanonical.v ===== *)
(** Canonical form: strict serialization succeeds on what the parser returns,
    does not depend on the order of object members, and tells all other values
    apart. *)
From S2P Require Import Prelude CppStd Utf8 JsonValue JsonSerializer JsonParser JsonNumbers Signing.
Open Scope Z_scope.
#[local] Arguments String.append : simpl nomatch.

(** * Equality up to the order of members *)

Inductive json_equiv : Value -> Value -> Prop :=
| equiv_null : json_equiv VNull VNull
| equiv_bool b : json_equiv (VBool b) (VBool b)
| equiv_int z : json_equiv (VInt z) (VInt z)
| equiv_double d : json_equiv (VDouble d) (VDouble d)
| equiv_string s : json_equiv (VString s) (VString s)
| equiv_raw t : json_equiv (VRaw t) (VRaw t)
| equiv_array l l' : Forall2 json_equiv l l' -> json_equiv (VArray l) (VArray l')
| equiv_object o p o' : o ≡ₚ p -> Forall2 (fun m m' => m.1 = m'.1 /\ json_equiv m.2 m'.2) p o' ->
    json_equiv (VObject o) (VObject o').

Lemma json_equiv_refl v : json_equiv v v.
Proof.
  induction v as [| | | | |l IH|o IH|] using Value_nested_ind; try constructor.
  - induction IH; constructor; auto.
  - apply (equiv_object o o o); [done|]. induction IH; constructor; auto.
Qed.

(** * The loops of the serializer *)

Section Loops.
Context (f : Value -> SerializeResult).

Definition item_out (v : Value) (out : string) : Prop := f v = SOk out.
Definition member_out (m : string * Value) (r : string * string) : Prop :=
  r.1 = m.1 /\ string_is_valid_for_json m.1 = true /\ f m.2 = SOk r.2.

Lemma serialize_items_ok l outs : serialize_items f l = inl outs <-> Forall2 item_out l outs.
Proof.
  revert outs. induction l as [|v l IH]; intros outs; simpl.
  { split; [intros [= <-]; constructor|by inversion_clear 1]. }
  split.
  - destruct (f v) as [out|] eqn:E; [|done]. destruct (serialize_items f l) as [os|]; [|done].
    intros [= <-]. constructor; [done|]. by apply IH.
  - inversion_clear 1 as [|? out ? os Hv Hl]. rewrite Hv. apply IH in Hl. by rewrite Hl.
Qed.

Lemma serialize_members_ok o ms : serialize_members f o = inl ms <-> Forall2 member_out o ms.
Proof.
  revert ms. induction o as [|[k v] o IH]; intros ms; simpl.
  { split; [intros [= <-]; constructor|by inversion_clear 1]. }
  split.
  - destruct (string_is_valid_for_json k) eqn:Ek; [|done]. simpl.
    destruct (f v) as [out|] eqn:E; [|done]. destruct (serialize_members f o) as [os|]; [|done].
    intros [= <-]. constructor; [done|]. by apply IH.
  - inversion_clear 1 as [|? [k' out] ? os (Hk & Hvalid & Hv) Hl]. simpl in *. subst k'.
    rewrite Hvalid, Hv. simpl. apply IH in Hl. by rewrite Hl.
Qed.
End Loops.

Lemma keys_repeat_spec seen o : keys_repeat seen o = false <->
  NoDup (object_keys o) /\ forall k, k ∈ object_keys o -> k ∉ seen.
Proof.
  revert seen. induction o as [|[k v] o IH]; intros seen; csimpl.
  { split; [intros _; split; [constructor|set_solver]|done]. }
  unfold object_keys in *. csimpl. rewrite NoDup_cons.
  case_bool_decide as Hk.
  - split; [done|]. intros [_ Hn]. exfalso. apply (Hn k); [by left|done].
  - rewrite IH. set_solver.
Qed.

Lemma no_duplicate_keys o : object_has_duplicate_keys o = false <-> NoDup (object_keys o).
Proof. unfold object_has_duplicate_keys. rewrite keys_repeat_spec. set_solver. Qed.

Lemma members_keys f o ms : Forall2 (member_out f) o ms -> ms.*1 = object_keys o.
Proof. unfold object_keys. induction 1 as [|m r o ms (Hk & _) _ IH]; csimpl; [done|]. by f_equal. Qed.

Lemma NoDup_fst_fun {A B} (l : list (A * B)) k a b : NoDup l.*1 -> (k, a) ∈ l -> (k, b) ∈ l -> a = b.
Proof.
  intros Hnd [i Hi]%list_elem_of_lookup [j Hj]%list_elem_of_lookup.
  enough (i = j) by congruence. apply (NoDup_lookup _ _ _ k Hnd).
  - by rewrite list_lookup_fmap, Hi.
  - by rewrite list_lookup_fmap, Hj.
Qed.

(** Sorting members with distinct keys does not depend on their order. *)
Lemma sort_members_perm (ms ms' : list (string * string)) : NoDup ms.*1 -> ms ≡ₚ ms' ->
  sort_by key_ltb ms = sort_by key_ltb ms'.
Proof.
  intros Hnd Hp. apply (sort_by_perm_eq key_ltb (fun m => m ∈ ms)).
  - intros x y _ _. apply string_ltb_asym.
  - intros x y z _ _ _. unfold not_after, key_ltb. apply string_ltb_false_trans.
  - intros [kx vx] [ky vy] Hx Hy H1 H2. unfold key_ltb in *. simpl in *.
    assert (kx = ky) as -> by (by apply string_ltb_total). f_equal.
    by apply (NoDup_fst_fun ms ky).
  - by apply Forall_forall.
  - done.
Qed.

Section Strict.
Context `{Libc}.

Lemma strict_object_ok o out : serialize_canonical_strict (VObject o) = SOk out <->
  NoDup (object_keys o) /\ exists ms, Forall2 (member_out serialize_canonical_strict) o ms
    /\ out = "{" +:+ join (render_member <$> sort_by key_ltb ms) +:+ "}".
Proof.
  change (serialize_canonical_strict (VObject o)) with (serialize_object serialize_canonical_strict o).
  unfold serialize_object. rewrite <- no_duplicate_keys.
  destruct (object_has_duplicate_keys o); [split; [done|by intros []]|]. split.
  - destruct (serialize_members _ o) as [ms|] eqn:E; [|done]. intros [= <-]. split; [done|].
    exists ms. split; [by apply serialize_members_ok|done].
  - intros [_ (ms & Hms & ->)]. apply serialize_members_ok in Hms. by rewrite Hms.
Qed.

Lemma strict_array_ok l out : serialize_canonical_strict (VArray l) = SOk out <->
  exists outs, Forall2 (item_out serialize_canonical_strict) l outs /\ out = "[" +:+ join outs +:+ "]".
Proof.
  change (serialize_canonical_strict (VArray l)) with (serialize_array serialize_canonical_strict l).
  unfold serialize_array. split.
  - destruct (serialize_items _ l) as [os|] eqn:E; [|done]. intros [= <-].
    exists os. split; [by apply serialize_items_ok|done].
  - intros (os & Hos & ->). apply serialize_items_ok in Hos. by rewrite Hos.
Qed.

(** * Member order does not matter *)

Lemma strict_equiv v w out : json_equiv v w ->
  serialize_canonical_strict v = SOk out -> serialize_canonical_strict w = SOk out.
Proof.
  revert w out. induction v as [|b|z|d|s|l IH|o IH|t] using Value_nested_ind; intros w out Hvw;
    inversion Hvw as [| | | | | |l1 l' Hl|o1 p o' Hp Ho]; subst; try done.
  - rewrite !strict_array_ok. intros (os & Hos & ->). exists os. split; [|done]. clear Hvw.
    revert l' Hl. induction Hos as [|v out l os Hv Hos IHl]; intros l' Hl;
      inversion_clear Hl as [|? v' ? l'' Hvv Hll]; [constructor|].
    apply Forall_cons in IH as [IHv IH]. constructor; [by apply IHv|by apply IHl].
  - rewrite !strict_object_ok. intros [Hnd (ms & Hms & ->)].
    destruct (Permutation_Forall2 Hp Hms) as (ms' & Hpm & Hms').
    assert (Forall (fun m => forall w out, json_equiv m.2 w -> serialize_canonical_strict m.2 = SOk out ->
      serialize_canonical_strict w = SOk out) p) as IHp by (by rewrite <- Hp).
    assert (Forall2 (member_out serialize_canonical_strict) o' ms') as Ho'.
    { clear -IHp Ho Hms'. revert ms' Hms'. induction Ho as [|m m' p o' [Hk Hv] Ho IH]; intros ms' Hms';
        inversion_clear Hms' as [|? r ? ms'' (H1 & H2 & H3) Hms]; [constructor|].
      apply Forall_cons in IHp as [IHm IHp]. constructor; [|by apply IH].
      unfold member_out. rewrite <- Hk. split; [done|]. split; [done|]. by apply (IHm m'.2). }
    assert (NoDup ms.*1) as Hms1 by (by rewrite (members_keys _ _ _ Hms)).
    split.
    + rewrite <- (members_keys _ _ _ Ho'). by rewrite <- Hpm.
    + exists ms'. split; [done|]. by rewrite (sort_members_perm ms ms').
Qed.

(** * Reading a quoted string back *)

Definition hex_value (c : ascii) : Z :=
  if is_digit c then byte_of c - 48 else byte_of c - 87.

(** The character an escape sequence or a plain character stands for. *)
Definition unescape (s : string) : option (ascii * string) :=
  match s with
  | EmptyString => None
  | String c rest =>
      if negb (Ascii.eqb c "\"%char) then Some (c, rest)
      else
        match rest with
        | EmptyString => None
        | String k rest =>
            if Ascii.eqb k "b"%char then Some (chr 8, rest)
            else if Ascii.eqb k "f"%char then Some (chr 12, rest)
            else if Ascii.eqb k "n"%char then Some (chr 10, rest)
            else if Ascii.eqb k "r"%char then Some (chr 13, rest)
            else if Ascii.eqb k "t"%char then Some (chr 9, rest)
            else if Ascii.eqb k "u"%char then
              match rest with
              | String _ (String _ (String h (String l rest))) =>
                  Some (chr (Z.to_N (hex_value h * 16 + hex_value l)), rest)
              | _ => None
              end
            else Some (k, rest)
        end
  end.

Lemma unescape_escape c rest : unescape (escape_char c +:+ rest) = Some (c, rest).
Proof. by destruct c as [[] [] [] [] [] [] [] []]. Qed.

Lemma escape_char_not_quote c rest r : escape_char c +:+ rest <> quote +:+ r.
Proof. by destruct c as [[] [] [] [] [] [] [] []]. Qed.

Lemma escaped_inj s t r1 r2 :
  escape_chars s +:+ quote +:+ r1 = escape_chars t +:+ quote +:+ r2 -> s = t /\ r1 = r2.
Proof.
  revert t. induction s as [|c s IH]; intros [|d t]; cbn [escape_chars]; rewrite ?append_assoc; intros E.
  - split; [done|]. by apply (inj (String.append quote)) in E.
  - symmetry in E. by apply escape_char_not_quote in E.
  - by apply escape_char_not_quote in E.
  - pose proof (unescape_escape c (escape_chars s +:+ quote +:+ r1)) as H1.
    rewrite E, unescape_escape in H1. simplify_eq.
    destruct (IH t) as [-> ->]; [|done]. congruence.
Qed.

(** * What may follow a value *)

(** The rest of the text after a value: nothing, or a separator or bracket. *)
Definition delimited (r : string) : Prop :=
  match r with
  | EmptyString => True
  | String c _ => c = ","%char \/ c = "]"%char \/ c = "}"%char
  end.

Lemma delimited_digits r : delimited r -> span_digits r = (EmptyString, r).
Proof. destruct r as [|c r]; [done|]. by intros [-> | [-> | ->]]. Qed.

Lemma span_digits_app s r : all_digits s = true -> delimited r -> span_digits (s +:+ r) = (s, r).
Proof.
  intros Hs Hr. induction s as [|c s IH]; simpl in *; [by apply delimited_digits|].
  apply andb_true_iff in Hs as [-> Hs]. by rewrite (IH Hs).
Qed.

Lemma to_string_inj_rest z1 z2 r1 r2 : delimited r1 -> delimited r2 ->
  to_string z1 +:+ r1 = to_string z2 +:+ r2 -> z1 = z2 /\ r1 = r2.
Proof.
  intros D1 D2. destruct (to_string_digits z1) as (s1 & -> & C1 & V1 & _).
  destruct (to_string_digits z2) as (s2 & -> & C2 & V2 & _).
  pose proof (span_digits_app s1 r1 (canonical_all_digits s1 C1) D1) as S1.
  pose proof (span_digits_app s2 r2 (canonical_all_digits s2 C2) D2) as S2.
  assert (forall s r t q, canonical_digits s = true -> String "-"%char t +:+ q <> s +:+ r) as Hminus.
  { intros s r t q Hs. destruct s as [|c s]; [done|]. simpl. intros [= <- _].
    apply canonical_all_digits in Hs. done. }
  destruct (Z.ltb_spec z1 0), (Z.ltb_spec z2 0); simpl; intros E.
  - injection E as E. rewrite E in S1. rewrite S1 in S2. simplify_eq. split; [lia|done].
  - by apply (Hminus s2 r2 s1 r1) in C2.
  - symmetry in E. by apply (Hminus s1 r1 s2 r2) in C1.
  - rewrite E in S1. rewrite S1 in S2. simplify_eq. split; [lia|done].
Qed.

(** Every value starts with a character of its kind. *)
Inductive value_kind : Type := kind_null | kind_true | kind_false | kind_int | kind_string | kind_array | kind_object.

Definition kind_of_char (c : ascii) : option value_kind :=
  if Ascii.eqb c "n"%char then Some kind_null
  else if Ascii.eqb c "t"%char then Some kind_true
  else if Ascii.eqb c "f"%char then Some kind_false
  else if Ascii.eqb c "-"%char || is_digit c then Some kind_int
  else if Ascii.eqb c (chr 34) then Some kind_string
  else if Ascii.eqb c "["%char then Some kind_array
  else if Ascii.eqb c "{"%char then Some kind_object
  else None.

Definition kind_of (v : Value) : option value_kind :=
  match v with
  | VNull => Some kind_null
  | VBool true => Some kind_true
  | VBool false => Some kind_false
  | VInt _ => Some kind_int
  | VString _ => Some kind_string
  | VArray _ => Some kind_array
  | VObject _ => Some kind_object
  | VDouble _ | VRaw _ => None
  end.

Lemma strict_first_char v out : serialize_canonical_strict v = SOk out ->
  exists c rest, out = String c rest /\ kind_of_char c = kind_of v /\ is_Some (kind_of v).
Proof.
  destruct v as [|[]|z|d|s|l|o|t]; try (intros [= <-]; eexists _, _; split; [reflexivity|]; split; [done|by eexists]);
    try done.
  - intros [= <-]. destruct (to_string_digits z) as (s & -> & Hs & _). destruct s as [|c s]; [done|].
    apply canonical_all_digits in Hs. simpl in Hs. apply andb_true_iff in Hs as [Hc _].
    destruct (z <? 0); eexists _, _; (split; [reflexivity|]); (split; [|by eexists]); [done|].
    unfold kind_of_char. rewrite !(digit_not c) by done. by rewrite Hc.
  - unfold serialize_canonical_strict. simpl. destruct (string_is_valid_for_json s); [|done]. intros [= <-].
    eexists _, _. split; [reflexivity|]. split; [done|by eexists].
  - intros (os & _ & ->)%strict_array_ok. eexists _, _. split; [reflexivity|]. split; [done|by eexists].
  - intros [_ (ms & _ & ->)]%strict_object_ok. eexists _, _. split; [reflexivity|]. split; [done|by eexists].
Qed.

Lemma strict_same_kind v w out1 out2 r1 r2 :
  serialize_canonical_strict v = SOk out1 -> serialize_canonical_strict w = SOk out2 ->
  out1 +:+ r1 = out2 +:+ r2 -> kind_of v = kind_of w.
Proof.
  intros (c & s & -> & K1 & _)%strict_first_char (d & t & -> & K2 & _)%strict_first_char. simpl.
  intros [= -> _]. congruence.
Qed.

(** * Lists of texts *)

(** The items after the first, each behind a comma, then the closing text. *)
Fixpoint joined_tail (items : list string) (close : string) : string :=
  match items with
  | [] => close
  | x :: rest => "," +:+ x +:+ joined_tail rest close
  end.

Definition joined (items : list string) (close : string) : string :=
  match items with
  | [] => close
  | x :: rest => x +:+ joined_tail rest close
  end.

Lemma join_joined items close : join items +:+ close = joined items close.
Proof.
  destruct items as [|x items]; [done|]. simpl. revert x.
  induction items as [|y items IH]; intros x; [done|].
  simpl join. rewrite !append_assoc. f_equal. simpl. f_equal. apply IH.
Qed.

Section Lists.
(** Texts that determine what they stand for when a delimiter follows. *)
Context {A : Type} (prints : A -> string -> Prop) (same : A -> A -> Prop).

Definition reads_back (a : A) : Prop := forall b s t r1 r2, prints a s -> prints b t ->
  delimited r1 -> delimited r2 -> s +:+ r1 = t +:+ r2 -> same a b /\ r1 = r2.

(** A text does not start with a delimiter. *)
Hypothesis prints_start : forall a s r, prints a s -> ~ delimited (s +:+ r).

(** The closing bracket, and what follows. *)
Definition closing (close : string) : Prop := exists c r, close = String c r /\ (c = "]"%char \/ c = "}"%char).

Lemma joined_tail_delimited items close : closing close -> delimited (joined_tail items close).
Proof. intros (c & r & -> & Hc). destruct items; simpl; [destruct Hc; auto|by left]. Qed.

Lemma joined_tail_inj l1 l2 s1 s2 c1 c2 :
  Forall reads_back l1 -> Forall2 prints l1 s1 -> Forall2 prints l2 s2 -> closing c1 -> closing c2 ->
  joined_tail s1 c1 = joined_tail s2 c2 -> Forall2 same l1 l2 /\ c1 = c2.
Proof.
  intros Hr H1. revert l2 s2 Hr. induction H1 as [|a s l1 s1 Ha H1 IH]; intros l2 s2 Hr H2 C1 C2;
    destruct H2 as [|b t l2 s2 Hb H2]; simpl.
  - intros ->. split; [constructor|done].
  - intros E. exfalso. destruct C1 as (c & r & -> & Hc). injection E as -> _. by destruct Hc.
  - intros E. exfalso. destruct C2 as (c & r & -> & Hc). injection E as <- _. by destruct Hc.
  - intros [= E]. apply Forall_cons in Hr as [Hra Hr].
    destruct (Hra b s t (joined_tail s1 c1) (joined_tail s2 c2)) as [Hab E']; try done;
      [by apply joined_tail_delimited..|].
    destruct (IH l2 s2 Hr H2 C1 C2 E') as [Hl Hc]. split; [by constructor|done].
Qed.

Lemma joined_inj l1 l2 s1 s2 c1 c2 :
  Forall reads_back l1 -> Forall2 prints l1 s1 -> Forall2 prints l2 s2 -> closing c1 -> closing c2 ->
  joined s1 c1 = joined s2 c2 -> Forall2 same l1 l2 /\ c1 = c2.
Proof.
  intros Hr H1 H2 C1 C2.
  assert (forall c, closing c -> delimited c) as Hcd by (intros c Hc; apply (joined_tail_delimited [] c Hc)).
  destruct H1 as [|a s l1 s1 Ha H1], H2 as [|b t l2 s2 Hb H2]; simpl.
  - intros ->. split; [constructor|done].
  - intros E. exfalso. apply (prints_start b t (joined_tail s2 c2) Hb). rewrite <- E. auto.
  - intros E. exfalso. apply (prints_start a s (joined_tail s1 c1) Ha). rewrite E. auto.
  - intros E. apply Forall_cons in Hr as [Hra Hr].
    destruct (Hra b s t (joined_tail s1 c1) (joined_tail s2 c2)) as [Hab E']; try done;
      [by apply joined_tail_delimited..|].
    destruct (joined_tail_inj l1 l2 s1 s2 c1 c2 Hr H1 H2 C1 C2 E') as [Hl Hc]. split; [by constructor|done].
Qed.
End Lists.

(** * Values are told apart *)

Abbreviation ser := serialize_canonical_strict.

Lemma item_start v s r : item_out ser v s -> ~ delimited (s +:+ r).
Proof.
  intros (c & t & -> & K & [k Hk])%strict_first_char. rewrite Hk in K. simpl.
  by intros [-> | [-> | ->]].
Qed.

(** A rendered member. *)
Definition member_text (m : string * Value) (s : string) : Prop :=
  exists r, member_out ser m r /\ s = render_member r.

Definition same_member (m m' : string * Value) : Prop := m.1 = m'.1 /\ json_equiv m.2 m'.2.

Lemma render_member_app k out r :
  render_member (k, out) +:+ r = quote +:+ escape_chars k +:+ quote +:+ ":" +:+ out +:+ r.
Proof. unfold render_member, append_escaped_string. simpl fst. simpl snd. by rewrite !append_assoc. Qed.

Lemma member_start m s r : member_text m s -> ~ delimited (s +:+ r).
Proof.
  intros ([k out] & _ & ->). rewrite render_member_app. by intros [E|[E|E]].
Qed.

Lemma member_reads_back m : reads_back (item_out ser) json_equiv m.2 -> reads_back member_text same_member m.
Proof.
  intros Hv m' s t r1 r2 ([k out] & (Hk & _ & Ho) & ->) ([k' out'] & (Hk' & _ & Ho') & ->) D1 D2.
  simpl in Hk, Ho, Hk', Ho'. rewrite !render_member_app. intros E%(inj (String.append quote)).
  apply escaped_inj in E as [-> E]. apply (inj (String.append ":")) in E.
  destruct (Hv m'.2 out out' r1 r2 Ho Ho' D1 D2 E) as [Hequiv ->].
  split; [|done]. split; [by rewrite <- Hk, <- Hk'|done].
Qed.

Lemma members_texts o ms : Forall2 (member_out ser) o ms -> Forall2 member_text o (render_member <$> ms).
Proof. induction 1 as [|m r o ms Hm _ IH]; csimpl; constructor; [by exists r|done]. Qed.

Lemma strict_reads_back v : reads_back (item_out ser) json_equiv v.
Proof.
  induction v as [|b|z|d|s|l IH|o IH|t] using Value_nested_ind; intros w out1 out2 r1 r2 H1 H2 D1 D2 E;
    pose proof (strict_same_kind _ _ _ _ _ _ H1 H2 E) as Hk; unfold item_out in *.
  - destruct w as [|[]|z'|d'|s'|l'|o'|t']; try done. injection H1 as <-. injection H2 as <-.
    apply (inj (String.append _)) in E. split; [constructor|done].
  - destruct b; destruct w as [|[]|z'|d'|s'|l'|o'|t']; try done; injection H1 as <-; injection H2 as <-;
      apply (inj (String.append _)) in E; (split; [constructor|done]).
  - destruct w as [|[]|z'|d'|s'|l'|o'|t']; try done. injection H1 as <-. injection H2 as <-.
    destruct (to_string_inj_rest z z' r1 r2 D1 D2 E) as [-> ->]. split; [constructor|done].
  - done.
  - destruct w as [|[]|z'|d'|s'|l'|o'|t']; try done. revert H1 H2. unfold serialize_canonical_strict.
    simpl. destruct (string_is_valid_for_json s); [|done]. destruct (string_is_valid_for_json s'); [|done].
    intros [= <-] [= <-]. unfold append_escaped_string in E. rewrite !append_assoc in E.
    apply (inj (String.append EmptyString)), (inj (String.append quote)) in E.
    apply escaped_inj in E as [-> ->]. split; [constructor|done].
  - destruct w as [|[]|z'|d'|s'|l'|o'|t']; try done.
    apply strict_array_ok in H1 as (os1 & F1 & ->). apply strict_array_ok in H2 as (os2 & F2 & ->).
    rewrite !append_assoc in E. apply (inj (String.append "[")) in E. rewrite !join_joined in E.
    destruct (joined_inj (item_out ser) json_equiv item_start l l' os1 os2 ("]" +:+ r1) ("]" +:+ r2)) as [Hl Hr];
      [done|done|done|eexists _, _; split; [reflexivity|by left]..|done|].
    apply (inj (String.append "]")) in Hr. split; [by constructor|done].
  - destruct w as [|[]|z'|d'|s'|l'|o'|t']; try done.
    apply strict_object_ok in H1 as [N1 (ms1 & F1 & ->)]. apply strict_object_ok in H2 as [N2 (ms2 & F2 & ->)].
    rewrite !append_assoc in E. apply (inj (String.append "{")) in E. rewrite !join_joined in E.
    (* the members in sorted order *)
    destruct (Permutation_Forall2 (symmetry (sort_by_perm key_ltb ms1)) (proj2 (Forall2_flip _ _ _) F1)) as (p1 & P1 & G1).
    destruct (Permutation_Forall2 (symmetry (sort_by_perm key_ltb ms2)) (proj2 (Forall2_flip _ _ _) F2)) as (p2 & P2 & G2).
    apply Forall2_flip in G1, G2.
    destruct (joined_inj member_text same_member member_start p1 p2 (render_member <$> sort_by key_ltb ms1)
      (render_member <$> sort_by key_ltb ms2) ("}" +:+ r1) ("}" +:+ r2)) as [Hl Hr].
    + rewrite <- P1. apply (Forall_impl _ _ _ IH). intros m Hm. by apply member_reads_back.
    + by apply members_texts.
    + by apply members_texts.
    + eexists _, _; split; [reflexivity|by right].
    + eexists _, _; split; [reflexivity|by right].
    + done.
    + apply (inj (String.append "}")) in Hr. split; [|done].
      destruct (Permutation_Forall2 (symmetry P2) (proj2 (Forall2_flip _ _ _) Hl)) as (p & Pp & Gp).
      apply (equiv_object o p o'); [by rewrite P1|]. by apply Forall2_flip in Gp.
  - done.
Qed.

(** * Well-formed values *)

(** Integers in the canonical range, valid strings and keys, no duplicate keys,
    bounded width, no floats or raw tokens, and at most [levels] levels below
    the top. *)
Fixpoint well_formed (levels : nat) (v : Value) {struct v} : bool :=
  match v with
  | VNull | VBool _ => true
  | VInt z => (min_safe_integer <=? z) && (z <=? max_safe_integer)
  | VDouble _ | VRaw _ => false
  | VString s => utf8_is_valid s
  | VArray l =>
      match levels with
      | O => match l with [] => true | _ => false end
      | S n => forallb (well_formed n) l
      end
  | VObject o =>
      (length o <=? max_object_members)%nat && negb (object_has_duplicate_keys o)
      && forallb (fun m => utf8_is_valid m.1) o
      && match levels with
         | O => match o with [] => true | _ => false end
         | S n => forallb (fun m => well_formed n m.2) o
         end
  end.

Lemma well_formed_serializes levels v : well_formed levels v = true -> exists out, ser v = SOk out.
Proof.
  revert levels. induction v as [|b|z|d|s|l IH|o IH|t] using Value_nested_ind; intros levels; simpl; try done;
    try (by eexists).
  - intros Hs. eexists. unfold serialize_canonical_strict. simpl. unfold string_is_valid_for_json. by rewrite Hs.
  - intros Hl. assert (exists n, forallb (well_formed n) l = true) as [n Hn]
      by (destruct levels; [exists O; by destruct l|eauto]).
    assert (exists outs, Forall2 (item_out ser) l outs) as [outs Ho].
    { clear Hl. induction IH as [|v l Hv _ IHl]; [by exists []; constructor|]. simpl in Hn.
      apply andb_true_iff in Hn as [Hn1 Hn2]. destruct (Hv n Hn1) as [out Hout].
      destruct (IHl Hn2) as [outs Houts]. exists (out :: outs). by constructor. }
    eexists. apply strict_array_ok. eauto.
  - rewrite !andb_true_iff. intros [[[_ Hd] Hk] Ho]. apply negb_true_iff, no_duplicate_keys in Hd.
    assert (exists n, forallb (fun m => well_formed n m.2) o = true) as [n Hn]
      by (destruct levels; [exists O; by destruct o|eauto]).
    assert (exists ms, Forall2 (member_out ser) o ms) as [ms Hms].
    { clear Ho Hd. induction IH as [|m o Hm _ IHo]; [by exists []; constructor|]. simpl in Hn, Hk.
      apply andb_true_iff in Hn as [Hn1 Hn2]. apply andb_true_iff in Hk as [Hk1 Hk2].
      destruct (Hm n Hn1) as [out Hout]. destruct (IHo Hk2 Hn2) as [ms Hms].
      exists ((m.1, out) :: ms). by constructor. }
    eexists. apply strict_object_ok. eauto.
Qed.
End Strict.

(** * What the parser returns *)

(** A value as yyjson reads it with numbers as raw text: no decoded numbers, and
    every string it points to is valid UTF-8. *)
Fixpoint raw_document (v : YValue) : bool :=
  match v with
  | YNull | YBool _ | YRaw _ | YUnknown => true
  | YUint _ | YSint _ | YReal _ => false
  | YString s => match s with Some t => utf8_is_valid t | None => true end
  | YArray l => forallb raw_document l
  | YObject o =>
      forallb (fun m => match m.1 with Some k => utf8_is_valid k | None => true end && raw_document m.2) o
  end.

Section YInd.
Context (P : YValue -> Prop).
Hypothesis Pleaf : forall v, (forall l, v <> YArray l) -> (forall o, v <> YObject o) -> P v.
Hypothesis Parray : forall l, Forall P l -> P (YArray l).
Hypothesis Pobject : forall o, Forall (fun m => P m.2) o -> P (YObject o).

Fixpoint YValue_nested_ind (v : YValue) : P v :=
  match v with
  | YArray l => Parray l ((fix go (l : list YValue) : Forall P l :=
      match l with
      | [] => @List.Forall_nil _ P
      | x :: l' => @List.Forall_cons _ P _ _ (YValue_nested_ind x) (go l')
      end) l)
  | YObject o => Pobject o ((fix go (o : list (option string * YValue)) : Forall (fun m => P m.2) o :=
      match o with
      | [] => @List.Forall_nil _ (fun m => P m.2)
      | x :: o' => @List.Forall_cons _ (fun m => P m.2) _ _ (YValue_nested_ind x.2) (go o')
      end) o)
  | other => Pleaf other ltac:(done) ltac:(done)
  end.
End YInd.

Lemma convert_items_ok f l vs : convert_items f l = inl vs -> Forall2 (fun y v => f y = POk v) l vs.
Proof.
  revert vs. induction l as [|y l IH]; intros vs; simpl; [intros [= <-]; constructor|].
  destruct (f y) as [v|] eqn:E; [|done]. destruct (convert_items f l); [|done].
  intros [= <-]. constructor; auto.
Qed.

Lemma convert_members_ok f seen o vs : convert_members f seen o = inl vs ->
  Forall2 (fun y v => y.1 = Some v.1 /\ f y.2 = POk v.2) o vs /\ keys_repeat seen vs = false.
Proof.
  revert seen vs. induction o as [|[[k|] y] o IH]; intros seen vs; simpl; [|case_bool_decide as Hk; [done|]|done].
  { intros [= <-]. split; [constructor|done]. }
  destruct (f y) as [v|] eqn:E; [|done]. specialize (IH ({[k]} ∪ seen)).
  destruct (convert_members f _ o) as [vs'|]; [|done]. intros [= <-].
  destruct (IH vs' eq_refl) as [H1 H2]. split; [by constructor|]. simpl. by rewrite bool_decide_eq_false_2.
Qed.

Lemma raw_number_value token v : raw_number_as_int64 token = POk v ->
  exists z, v = VInt z /\ min_safe_integer <= z <= max_safe_integer.
Proof.
  unfold raw_number_as_int64. destruct (has_fraction_or_exponent token); [done|].
  destruct (negb _); [done|]. destruct (fc_ec _); try done. destruct (negb _); [done|].
  destruct (_ || _) eqn:E; [done|]. intros [= <-]. breflect. eauto.
Qed.

Lemma convert_well_formed y depth v :
  convert_yyjson_value false y depth = POk v -> raw_document y = true -> (depth <= max_depth)%nat ->
  well_formed (max_depth - depth) v = true.
Proof.
  revert depth v. induction y as [y Ha Ho|l IH|o IH] using YValue_nested_ind; intros depth v Hc Hr Hd.
  - assert ((max_depth <? depth)%nat = false) as Hlt by (by apply Nat.ltb_ge).
    destruct y as [|b|[t|]|u|s|d|[s|]|l|o|]; simpl in Hc; rewrite Hlt in Hc; try done;
      try (by destruct (Ha l)); try (by destruct (Ho o)); simplify_eq; try done.
    destruct (raw_number_as_int64 t) as [v'|e] eqn:E; unfold convert_raw in Hc; rewrite E in Hc;
      [|by destruct e]. simplify_eq.
    destruct (raw_number_value t v E) as (z & -> & Hz). simpl. apply andb_true_iff. rewrite !Z.leb_le. lia.
  - simpl in Hc. assert ((max_depth <? depth)%nat = false) as Hlt by (by apply Nat.ltb_ge). rewrite Hlt in Hc.
    destruct (convert_items _ l) as [vs|] eqn:E; [|done]. simplify_eq. apply convert_items_ok in E.
    simpl in Hr |- *. destruct (max_depth - depth)%nat as [|n] eqn:En.
    + destruct E as [|y v l vs Hy _]; [done|]. exfalso.
      destruct y; simpl in Hy;
        (assert ((max_depth <? S depth)%nat = true) as Hgt by (apply Nat.ltb_lt; lia); rewrite Hgt in Hy; done).
    + assert (S depth <= max_depth)%nat by lia. assert (n = max_depth - S depth)%nat as -> by lia. clear En.
      apply forallb_forall. intros v Hv. apply list_elem_of_In in Hv.
      destruct (Forall2_in_r _ _ _ _ E Hv) as (y & Hy & Hyv).
      rewrite Forall_forall in IH. apply (IH y Hy (S depth) v Hyv); [|lia].
      rewrite forallb_forall in Hr. by apply Hr, list_elem_of_In.
  - simpl in Hc. assert ((max_depth <? depth)%nat = false) as Hlt by (by apply Nat.ltb_ge). rewrite Hlt in Hc.
    destruct (max_object_members <? length o)%nat eqn:Ew; [done|]. apply Nat.ltb_ge in Ew.
    destruct (convert_members _ ∅ o) as [vs|] eqn:E; [|done]. simplify_eq.
    apply convert_members_ok in E as [E Hdup]. simpl in Hr |- *. rewrite forallb_forall in Hr.
    rewrite !andb_true_iff. repeat split.
    + apply Nat.leb_le. by rewrite <- (Forall2_length _ _ _ E).
    + unfold object_has_duplicate_keys. by rewrite Hdup.
    + apply forallb_forall. intros m Hm. apply list_elem_of_In in Hm.
      destruct (Forall2_in_r _ _ _ _ E Hm) as ([k y] & Hy & Hk & _). simpl in Hk. subst k.
      apply list_elem_of_In, Hr in Hy. simpl in Hy. by apply andb_true_iff in Hy as [? _].
    + destruct (max_depth - depth)%nat as [|n] eqn:En.
      * destruct E as [|[k y] m o vs [_ Hy] _]; [done|]. exfalso. simpl in Hy.
        destruct y; simpl in Hy;
          (assert ((max_depth <? S depth)%nat = true) as Hgt by (apply Nat.ltb_lt; lia); rewrite Hgt in Hy; done).
      * assert (S depth <= max_depth)%nat by lia. assert (n = max_depth - S depth)%nat as -> by lia. clear En.
        apply forallb_forall. intros m Hm. apply list_elem_of_In in Hm.
        destruct (Forall2_in_r _ _ _ _ E Hm) as (y & Hy & _ & Hyv).
        rewrite Forall_forall in IH. apply (IH y Hy (S depth) m.2 Hyv); [|lia].
        apply list_elem_of_In, Hr in Hy. by apply andb_true_iff in Hy as [_ ?].
Qed.

Section Parsed.
Context `{Yyjson}.

(** With numbers read as raw text, yyjson decodes no number and accepts only
    valid UTF-8 in strings. *)
Definition raw_reads : Prop := forall input document root,
  read_raw_numbers input = inr document -> doc_root document = Some root -> raw_document root = true.

Lemma parse_lossless_well_formed input v : raw_reads ->
  parse_lossless input = POk v -> well_formed max_depth v = true.
Proof.
  intros Hraw. unfold parse_lossless, parse_with_raw_numbers. destruct (input_is_blank input); [done|].
  destruct (negb _); [done|]. unfold finish_parse.
  destruct (read_raw_numbers input) as [code|document] eqn:E; [done|]. destruct (negb _); [done|].
  unfold convert_root. destruct (doc_root document) as [root|] eqn:Er; [|done]. intros Hc.
  pose proof (convert_well_formed root 0 v Hc (Hraw _ _ _ E Er) ltac:(lia)) as Hw. by rewrite Nat.sub_0_r in Hw.
Qed.
End Parsed.

(** * Properties *)

(** C12. Two values have the same strict canonical form exactly when they are equal
    up to the order of object members. *)
Theorem canonical_form_exact `{Libc} v w out :
  serialize_canonical_strict v = SOk out ->
  serialize_canonical_strict w = SOk out <-> json_equiv v w.
Proof.
  intros Hv. split.
  - intros Hw. apply (strict_reads_back v w out out EmptyString EmptyString); done.
  - intros He. by apply (strict_equiv v).
Qed.

(** Two events have the same signing payload exactly when their members other
    than signatures and unsigned are equal up to order, so a signature covers all
    other content and nothing else; the signable view of an object is the same
    payload. *)
Theorem signing_payload_exact `{Libc} o o' payload :
  make_event_signing_payload (VObject o) = SOk payload ->
  (make_event_signing_payload (VObject o') = SOk payload <->
   json_equiv (VObject (clone_without_unsigned_and_signatures o))
              (VObject (clone_without_unsigned_and_signatures o')))
  /\ make_signable_object_view (VObject o) = SOk payload.
Proof.
  unfold make_event_signing_payload, make_signable_object_view. intros Hv. split.
  - split.
    + intros Hw. apply (strict_reads_back _ _ payload payload EmptyString EmptyString); done.
    + intros He. by apply (strict_equiv (VObject (clone_without_unsigned_and_signatures o))).
  - rewrite <- Hv. f_equal. f_equal. unfold clone_without_unsigned_and_signatures.
    apply filter_ext. intros [k x]. simpl. by destruct (k =s "signatures"), (k =s "unsigned").
Qed.

(** A value parsed losslessly has only integers of the canonical range, valid
    UTF-8 strings, objects with distinct keys and at most 65536 members, and is
    nested at most 64 levels deep. *)
Lemma parsed_values_well_formed `{Yyjson} input v :
  raw_reads -> parse_lossless input = POk v -> well_formed max_depth v = true.
Proof. apply parse_lossless_well_formed. Qed.

(** Every value parsed losslessly has a strict canonical form. *)
Lemma parsed_values_serialize `{Yyjson} `{Libc} input v :
  raw_reads -> parse_lossless input = POk v -> exists out, serialize_canonical_strict v = SOk out.
Proof. intros Hr Hp. eapply well_formed_serializes, parse_lossless_well_formed; done. Qed.

(** A value parsed losslessly has only integers of the canonical range,
    valid UTF-8 strings, objects with distinct keys and at most 65536 members,
    is nested at most 64 levels deep, and has a strict canonical form.  A number
    token is read as the integer [z] exactly when it is the text that is printed
    for [z] and [z] is in the canonical range. *)
Theorem parsed_values_canonical `{Yyjson} `{Libc} input v :
  raw_reads -> parse_lossless input = POk v ->
  well_formed max_depth v = true /\ (exists out, serialize_canonical_strict v = SOk out)
  /\ (forall token z, raw_number_as_int64 token = POk (VInt z) <->
        token = to_string z /\ min_safe_integer <= z <= max_safe_integer).
Proof.
  intros Hr Hp. split; [by eapply parsed_values_well_formed|]. split; [by eapply parsed_values_serialize|].
  intros token z. apply integer_tokens_exact.
Qed.
