(* ===== verification/EventAuth.v ===== *)
(** Event authorization: src/events/authorization.cpp with AuthEventMap.hpp,
    EventAuthorizationDecision.hpp, MembershipState.hpp and
    PowerLevelEncoding.hpp.

    A pointer result that may be null is an [option]; a reason string that is
    empty when nothing is wrong stays a string; the whole of
    [authorize_event_against_auth_events] is modelled, one definition per
    branch of it. *)
From S2P Require Import Prelude CppStd JsonValue JsonSerializer RoomVersion Signing.
Open Scope Z_scope.

(** * Data *)

Inductive MembershipState : Type := ms_leave | ms_invite | ms_join | ms_ban | ms_knock | ms_restricted.

#[export] Instance MembershipState_eq_dec : EqDecision MembershipState.
Proof. solve_decision. Defined.

Definition ms_eqb (a b : MembershipState) : bool := bool_decide (a = b).

Inductive PowerLevelEncoding : Type := integers | integers_or_strings | integers_strings_or_floats.

#[export] Instance PowerLevelEncoding_eq_dec : EqDecision PowerLevelEncoding.
Proof. solve_decision. Defined.

Record EventAuthorizationDecision : Type := Decision_ {
  allowed : bool;
  rule_hook : string;
  rule_step : string;
  reason : string
}.

Definition make_denied (step why : string) : EventAuthorizationDecision :=
  Decision_ false EmptyString step why.
Definition make_allowed (step : string) : EventAuthorizationDecision :=
  Decision_ true EmptyString step EmptyString.

Record AuthEventMap : Type := {
  create : Value;
  create_event_id : string;
  power_levels : Value;
  join_rules : Value;
  sender_member : Value;
  target_member : Value;
  authorising_user_member : Value;
  third_party_invite : Value
}.

Definition empty_auth_event_map : AuthEventMap := {|
  create := VNull; create_event_id := EmptyString; power_levels := VNull; join_rules := VNull;
  sender_member := VNull; target_member := VNull; authorising_user_member := VNull;
  third_party_invite := VNull |}.

(** A loop that returns the first non-empty reason. *)
Fixpoint first_problem {A} (check : A -> string) (l : list A) : string :=
  match l with
  | [] => EmptyString
  | x :: rest => let r := check x in if empty r then first_problem check rest else r
  end.

(** * Reading events *)

Definition event_has_signature_from_server (event : Value) (server_name : string) : bool :=
  match value_is_object event with
  | None => false
  | Some obj =>
      if empty server_name then false
      else
        match object_member obj "signatures" with
        | Some (VObject signatures) =>
            match object_member signatures server_name with
            | Some (VObject server_signatures) =>
                existsb (fun m => match m.2 with VString s => negb (empty s) | _ => false end)
                        server_signatures
            | _ => false
            end
        | _ => false
        end
  end.

Definition event_content_string (event : Value) (key : string) : option string :=
  match value_is_object event with
  | None => None
  | Some obj => match object_member_as_object obj "content" with
                | None => None
                | Some content => string_member content key
                end
  end.

Definition extract_content_membership (event : Value) : string :=
  default EmptyString (event_content_string event "membership").

(** The separators find_first_not_of and find_last_not_of skip. *)
Definition is_power_level_space (c : ascii) : bool :=
  let b := byte_of c in
  (b =? 0x20) || (b =? 0x09) || (b =? 0x0a) || (b =? 0x0d) || (b =? 0x0c) || (b =? 0x0b).

Definition power_level_text (text : string) : option Z :=
  if empty text then None
  else
    match trim is_power_level_space text with
    | None => None
    | Some token =>
        let parse t :=
          let r := from_chars_int64 t in
          match fc_ec r with
          | ec_none => if empty (fc_rest r) then Some (fc_value r) else None
          | _ => None
          end in
        if starts_with "+"%char token then
          let t := drop_str 1 token in
          match front t with
          | None => None
          | Some c => if is_digit c then parse t else None
          end
        else parse token
    end.

Definition power_level_double (number : double) (encoding : PowerLevelEncoding) : option Z :=
  if negb (bool_decide (encoding = integers_strings_or_floats)) || negb (isfinite number) then None
  else
    let truncated := trunc_Z number in
    if (truncated <? - 2 ^ 63) || (2 ^ 63 <=? truncated) then None else Some truncated.

Definition power_level_value (value : option Value) (encoding : PowerLevelEncoding) : option Z :=
  match value with
  | None => None
  | Some (VInt integer) => Some integer
  | Some v =>
      if bool_decide (encoding = integers) then None
      else match v with
           | VDouble number => power_level_double number encoding
           | VString text => power_level_text text
           | _ => None
           end
  end.

#[global] Arguments power_level_value : simpl never.

Definition power_level_member (object : Object) (key : string) (encoding : PowerLevelEncoding) : option Z :=
  power_level_value (object_member object key) encoding.

Definition extract_user_level_from_users (users : Object) (user_id : string)
    (encoding : PowerLevelEncoding) : option Z :=
  power_level_member users user_id encoding.

Definition membership_at_least_one_of (current : MembershipState) (required : list MembershipState) : bool :=
  existsb (ms_eqb current) required.

Definition array_contains_string (value : Value) (needle : string) : bool :=
  match value with
  | VArray array => existsb (fun e => match e with VString s => s =s needle | _ => false end) array
  | _ => false
  end.

Definition user_is_room_creator (create_event : Value) (user_id : string) (policy : RoomVersionPolicy) : bool :=
  if negb (privilege_room_creators policy) then false
  else
    match value_is_object create_event with
    | None => false
    | Some obj =>
        if match string_member obj "sender" with Some s => s =s user_id | None => false end then true
        else
          match object_member_as_object obj "content" with
          | None => false
          | Some content =>
              match object_member content "additional_creators" with
              | None => false
              | Some additional => array_contains_string additional user_id
              end
          end
    end.

Definition creator_power : Z := int64_max.

Definition redaction_v11_plus (policy : RoomVersionPolicy) : bool :=
  bool_decide (redaction_rules policy = room_v11_plus).

(** An empty string when the create event names no creator. *)
Definition room_creator_user_id (create_event : Value) (policy : RoomVersionPolicy) : string :=
  if negb (redaction_v11_plus policy) then default EmptyString (event_content_string create_event "creator")
  else
    match value_is_object create_event with
    | None => EmptyString
    | Some obj => default EmptyString (string_member obj "sender")
    end.

Definition sole_prev_event_is_create (event : Value) (am : AuthEventMap) (policy : RoomVersionPolicy) : bool :=
  match value_is_object event with
  | None => false
  | Some obj =>
      match array_member obj "prev_events" with
      | Some [VString prev_event] =>
          if empty prev_event then false
          else if create_event_is_room_id policy then
            match string_member obj "room_id" with
            | None => false
            | Some room_id =>
                if (String.length room_id <? 2)%nat || negb (starts_with "!"%char room_id) then false
                else starts_with "$"%char prev_event && (drop_str 1 prev_event =s drop_str 1 room_id)
            end
          else negb (empty (create_event_id am)) && (prev_event =s create_event_id am)
      | _ => false
      end
  end.

(** * Third-party invites *)

Definition collect_third_party_invite_public_keys (third_party_invite_event : Value) : list string :=
  match value_is_object third_party_invite_event ≫= (fun o => object_member_as_object o "content") with
  | None => []
  | Some content =>
      let single := match string_member content "public_key" with Some k => [k] | None => [] end in
      let listed :=
        match array_member content "public_keys" with
        | None => []
        | Some array =>
            omap (fun entry => value_is_object entry ≫= (fun o => string_member o "public_key")) array
        end in
      single ++ listed
  end.

Section Authorization.
Context `{Libc} `{Sodium}.

(** Some signature of the blob verifies under some candidate key. *)
Definition third_party_invite_signature_is_valid (signed_obj : Object) (third_party_invite_event : Value) : bool :=
  match object_member_as_object signed_obj "signatures" with
  | None => false
  | Some signatures =>
      let candidate_keys := collect_third_party_invite_public_keys third_party_invite_event in
      match candidate_keys with
      | [] => false
      | _ =>
          match make_event_signing_payload (VObject signed_obj) with
          | SErr _ => false
          | SOk payload =>
              existsb (fun server_entry =>
                match value_is_object server_entry.2 with
                | None => false
                | Some key_signatures =>
                    existsb (fun key_entry =>
                      match as_string key_entry.2 with
                      | None => false
                      | Some signature_b64 =>
                          let signature := matrix_bytes_from_base64 signature_b64 in
                          if negb (ed25519_signature_shape_is_valid signature) then false
                          else
                            existsb (fun public_key_b64 =>
                              let public_key := matrix_bytes_from_base64 public_key_b64 in
                              if negb (ed25519_public_key_shape_is_valid public_key) then false
                              else ed25519_verify public_key payload signature) candidate_keys
                      end) key_signatures
                end) signatures
          end
      end
  end.

Definition authorize_third_party_invite (third_party_invite_content : Value) (state_key sender : string)
    (target_current_membership : MembershipState) (third_party_invite_event : Value)
    : EventAuthorizationDecision :=
  if ms_eqb target_current_membership ms_ban
  then make_denied "6" "banned user cannot accept a third-party invite"
  else
  match value_is_object third_party_invite_content ≫= (fun o => object_member_as_object o "signed") with
  | None => make_denied "6" "third_party_invite missing signed property"
  | Some signed_obj =>
      match string_member signed_obj "mxid", string_member signed_obj "token" with
      | Some mxid, Some token =>
          if mxid <>s state_key
          then make_denied "6" "third_party_invite signed mxid does not match state_key"
          else
            match value_is_object third_party_invite_event with
            | None => make_denied "6" "no matching m.room.third_party_invite event for token"
            | Some tpi_event_obj =>
                if match string_member tpi_event_obj "state_key" with Some k => k <>s token | None => true end
                then make_denied "6" "no matching m.room.third_party_invite event for token"
                else if match string_member tpi_event_obj "sender" with Some s => s <>s sender | None => true end
                then make_denied "6" "sender does not match m.room.third_party_invite sender"
                else if negb (third_party_invite_signature_is_valid signed_obj third_party_invite_event)
                then make_denied "6" "third_party_invite signature does not match any public key"
                else make_allowed "6"
            end
      | _, _ => make_denied "6" "third_party_invite signed is missing mxid or token"
      end
  end.

(** * Power levels *)

Definition power_level_encoding (policy : RoomVersionPolicy) : PowerLevelEncoding :=
  if power_levels_require_integers policy then integers
  else if power_levels_accept_floats policy then integers_strings_or_floats
  else integers_or_strings.

Definition scalar_power_level_keys : list string :=
  ["users_default"; "events_default"; "state_default"; "ban"; "redact"; "kick"; "invite"].

Definition user_id_is_well_formed (user_id : string) : bool :=
  let size := String.length user_id in
  if (size <? 3)%nat || (255 <? size)%nat || negb (starts_with "@"%char user_id) then false
  else
    match find_char ":"%char user_id with
    | None => false
    | Some separator =>
        if (size <=? separator + 1)%nat then false
        else
          let localpart := String.substring 1 (separator - 1) user_id in
          let server_name := drop_str (separator + 1) user_id in
          let is_structurally_invalid c := (byte_of c <=? 0x20) || (byte_of c =? 0x7F) in
          if any_char is_structurally_invalid localpart || any_char is_structurally_invalid server_name
          then false
          else
            match find_char ":"%char server_name with
            | None => negb (empty server_name)
            | Some port_separator =>
                if empty (take_str port_separator server_name) then false
                else match find_char ":"%char (drop_str (port_separator + 1) server_name) with
                     | None => true
                     | Some _ => false
                     end
            end
    end.

Definition bounded_power_level_maps (policy : RoomVersionPolicy) : list string :=
  if bool_decide (auth_rules policy = room_v1) then ["events"] else ["events"; "notifications"].

Definition is_level (value : Value) (encoding : PowerLevelEncoding) : bool :=
  match power_level_value (Some value) encoding with Some _ => true | None => false end.

(** Rules 9.1 to 9.3. *)
Definition power_levels_content_rejection_reason (content : Object) (policy : RoomVersionPolicy) : string :=
  let encoding := power_level_encoding policy in
  let scalars := first_problem (fun key =>
    match object_member content key with
    | Some value => if is_level value encoding then EmptyString else key +:+ " must be an integer"
    | None => EmptyString
    end) scalar_power_level_keys in
  if negb (empty scalars) then scalars
  else
  let maps := first_problem (fun key =>
    match object_member content key with
    | None => EmptyString
    | Some (VObject map) =>
        first_problem (fun entry =>
          if is_level entry.2 encoding then EmptyString else key +:+ " values must be integers") map
    | Some _ => key +:+ " must be an object"
    end) (bounded_power_level_maps policy) in
  if negb (empty maps) then maps
  else
  match object_member content "users" with
  | None => EmptyString
  | Some (VObject users) =>
      first_problem (fun entry =>
        if negb (user_id_is_well_formed entry.1) then "users keys must be valid user IDs"
        else if is_level entry.2 encoding then EmptyString else "users values must be integers") users
  | Some _ => "users must be an object"
  end.

Definition power_levels_content_problem := power_levels_content_rejection_reason.

(** Rule 9.5. *)
Definition scalar_power_level_rejection_reason (old_content new_content : Object) (sender_power : Z)
    (encoding : PowerLevelEncoding) : string :=
  first_problem (fun key =>
    let old_level := power_level_member old_content key encoding in
    let new_level := power_level_member new_content key encoding in
    let unchanged :=
      match old_level, new_level with
      | None, None => true
      | Some o, Some n => o =? n
      | _, _ => false
      end in
    if unchanged then EmptyString
    else if match old_level with Some o => sender_power <? o | None => false end
    then "cannot alter " +:+ key +:+ ": its current value exceeds the sender's power level"
    else if match new_level with Some n => sender_power <? n | None => false end
    then "cannot set " +:+ key +:+ " above the sender's own power level"
    else EmptyString) scalar_power_level_keys.

Definition level_in (map : option Object) (key : string) (encoding : PowerLevelEncoding) : option Z :=
  match map with None => None | Some m => power_level_member m key encoding end.

(** Whether the second level is absent or differs from the first. *)
Definition differs (level : Z) (other : option Z) : bool :=
  match other with None => true | Some o => negb (level =? o) end.

(** Rules 9.6 and 9.7. *)
Definition power_level_map_rejection_reason (old_content new_content : Object) (map_key : string)
    (sender_power : Z) (encoding : PowerLevelEncoding) : string :=
  let old_map := object_member_as_object old_content map_key in
  let new_map := object_member_as_object new_content map_key in
  let removed := first_problem (fun entry =>
    match power_level_value (Some entry.2) encoding with
    | None => EmptyString
    | Some old_level =>
        if differs old_level (level_in new_map entry.1 encoding) && (sender_power <? old_level)
        then map_key +:+ " entry '" +:+ entry.1 +:+ "' currently exceeds the sender's power level"
        else EmptyString
    end) (default [] old_map) in
  if negb (empty removed) then removed
  else
  first_problem (fun entry =>
    match power_level_value (Some entry.2) encoding with
    | None => EmptyString
    | Some new_level =>
        if differs new_level (level_in old_map entry.1 encoding) && (sender_power <? new_level)
        then map_key +:+ " entry '" +:+ entry.1 +:+ "' exceeds the sender's power level"
        else EmptyString
    end) (default [] new_map).

Definition domain_of (matrix_id : string) : string :=
  match find_char ":"%char matrix_id with
  | None => EmptyString
  | Some colon => drop_str (colon + 1) matrix_id
  end.

(** * Rule 1: m.room.create *)

Definition create_event_rejection_reason (event : Object) (policy : RoomVersionPolicy) : string :=
  if match array_member event "prev_events" with Some (_ :: _) => true | _ => false end
  then "create event must not have prev_events"
  else
  let sender := string_member event "sender" in
  let room_id := string_member event "room_id" in
  let room_id_problem :=
    if create_event_is_room_id policy then
      match room_id with Some _ => "v12 create event must not carry a room_id" | None => EmptyString end
    else
      match room_id with
      | None => "create event requires a room_id"
      | Some r =>
          if match sender with None => true | Some s => domain_of r <>s domain_of s end
          then "create event room_id domain does not match the sender domain" else EmptyString
      end in
  if negb (empty room_id_problem) then room_id_problem
  else
  let content := object_member_as_object event "content" in
  let creator_field_required := negb (create_event_is_room_id policy) && negb (redaction_v11_plus policy) in
  if creator_field_required
     && match content with
        | None => true
        | Some c => match object_member c "creator" with None => true | Some _ => false end
        end
  then "create event content requires a creator"
  else
  match content with
  | None => EmptyString
  | Some c =>
      if match object_member c "room_version" with
         | None => false
         | Some (VString v) => negb (room_version_is_supported v)
         | Some _ => true
         end
      then "create event declares an unrecognised room_version"
      else if create_event_is_room_id policy then
        match object_member c "additional_creators" with
        | None => EmptyString
        | Some (VArray entries) =>
            first_problem (fun entry =>
              match entry with
              | VString user_id =>
                  if user_id_is_well_formed user_id then EmptyString
                  else "additional_creators must contain only valid user IDs"
              | _ => "additional_creators must contain only valid user IDs"
              end) entries
        | Some _ => "additional_creators must be an array"
        end
      else EmptyString
  end.

(** * Levels held and required *)

Definition event_content (event : Value) : option Object :=
  match value_is_object event with
  | None => None
  | Some obj => object_member_as_object obj "content"
  end.

Definition extract_power_level_key (power_levels_event : Value) (key : string) (default_value : Z)
    (encoding : PowerLevelEncoding) : Z :=
  match event_content power_levels_event with
  | None => default_value
  | Some content => default default_value (power_level_member content key encoding)
  end.

Definition extract_user_power_level (power_levels_event : Value) (user_id : string)
    (encoding : PowerLevelEncoding) : Z :=
  match event_content power_levels_event with
  | None => 0
  | Some content =>
      let default_level := extract_power_level_key power_levels_event "users_default" 0 encoding in
      match object_member_as_object content "users" with
      | None => default_level
      | Some users => default default_level (extract_user_level_from_users users user_id encoding)
      end
  end.

Definition effective_sender_power (power_levels_event : Value) (sender : string) (create_event : Value)
    (policy : RoomVersionPolicy) : Z :=
  if user_is_room_creator create_event sender policy then creator_power
  else if value_has_content power_levels_event
  then extract_user_power_level power_levels_event sender (power_level_encoding policy)
  else
    let creator := room_creator_user_id create_event policy in
    if negb (empty creator) && (sender =s creator) then 100 else 0.

Definition membership_name (membership : MembershipState) : string :=
  match membership with
  | ms_leave => "leave"
  | ms_invite => "invite"
  | ms_join => "join"
  | ms_ban => "ban"
  | ms_knock => "knock"
  | ms_restricted => "restricted"
  end.

Definition parse_membership_state (membership : string) : option MembershipState :=
  if membership =s "join" then Some ms_join
  else if membership =s "invite" then Some ms_invite
  else if membership =s "leave" then Some ms_leave
  else if membership =s "ban" then Some ms_ban
  else if membership =s "knock" then Some ms_knock
  else None.

(** The level a type requires under the event: its entry in [content.events],
    else the fallback. *)
Definition events_entry_or (power_levels_event : Value) (event_type : string) (fallback : Z)
    (encoding : PowerLevelEncoding) : Z :=
  match event_content power_levels_event with
  | None => fallback
  | Some content =>
      match object_member_as_object content "events" with
      | None => fallback
      | Some events => default fallback (power_level_member events event_type encoding)
      end
  end.

Definition required_state_event_power (power_levels_event : Value) (event_type : string)
    (policy : RoomVersionPolicy) : Z :=
  if negb (value_has_content power_levels_event) then 50
  else
    let encoding := power_level_encoding policy in
    let state_default := extract_power_level_key power_levels_event "state_default" 50 encoding in
    events_entry_or power_levels_event event_type state_default encoding.

(** [value_has_content(power_levels) ? extract_power_level_key(...) : default]. *)
Definition level_or_default (am : AuthEventMap) (policy : RoomVersionPolicy) (key : string) (dflt : Z) : Z :=
  if value_has_content (power_levels am)
  then extract_power_level_key (power_levels am) key dflt (power_level_encoding policy) else dflt.

Definition required_message_event_power (am : AuthEventMap) (event_type : string)
    (policy : RoomVersionPolicy) : Z :=
  let events_default := level_or_default am policy "events_default" 0 in
  if value_has_content (power_levels am)
  then events_entry_or (power_levels am) event_type events_default (power_level_encoding policy)
  else events_default.

Definition join_authorising_user (event : Value) : string :=
  if extract_content_membership event <>s "join" then EmptyString
  else default EmptyString
         (event_content event ≫= (fun c => string_member c "join_authorised_via_users_server")).

Definition third_party_invite_token (event : Value) : string :=
  default EmptyString
    (content ← event_content event;
     invite ← object_member_as_object content "third_party_invite";
     signed_obj ← object_member_as_object invite "signed";
     string_member signed_obj "token").

Definition permitted_auth_event_keys (pdu : Value) (policy : RoomVersionPolicy) (event_type sender : string)
    (state_key : option string) (token : string) : list (string * string) :=
  if event_type =s "m.room.create" then []
  else
    (if create_event_is_room_id policy then [] else [("m.room.create", EmptyString)])
    ++ [("m.room.power_levels", EmptyString); ("m.room.member", sender)]
    ++ match state_key with
       | Some target =>
           if event_type =s "m.room.member" then
             let membership := extract_content_membership pdu in
             [("m.room.member", target)]
             ++ (if (membership =s "join") || (membership =s "invite") || (membership =s "knock")
                 then [("m.room.join_rules", EmptyString)] else [])
             ++ (if (membership =s "invite") && negb (empty token)
                 then [("m.room.third_party_invite", token)] else [])
             ++ (if membership =s "join" then
                   let authorised := join_authorising_user pdu in
                   if empty authorised then [] else [("m.room.member", authorised)]
                 else [])
           else []
       | None => []
       end.

Definition decode_power_level (value : Value) (encoding : PowerLevelEncoding) : option Z :=
  power_level_value (Some value) encoding.

(** * The authorization rules *)

(** Step 1. *)
Definition authorize_create (obj : Object) (policy : RoomVersionPolicy) (am : AuthEventMap)
    : EventAuthorizationDecision :=
  if value_has_content (create am) then make_denied "1" "room already has a create event"
  else
    let why := create_event_rejection_reason obj policy in
    if negb (empty why) then make_denied "1" why else make_allowed "1".

(** Step 3: the create event turns federation off with [m.federate = false]. *)
Definition is_non_federated (am : AuthEventMap) : bool :=
  match event_content (create am) with
  | None => false
  | Some content =>
      match object_member content "m.federate" with
      | Some (VBool federate) => negb federate
      | _ => false
      end
  end.

Definition federation_denial (sender : string) (am : AuthEventMap) : option EventAuthorizationDecision :=
  if is_non_federated am then
    match value_is_object (create am) ≫= (fun o => string_member o "sender") with
    | None => Some (make_denied "3" "create event has no identifiable creator")
    | Some create_sender =>
        if empty create_sender then Some (make_denied "3" "create event has no identifiable creator")
        else if domain_of sender <>s domain_of create_sender
        then Some (make_denied "3" "sender domain does not match creator domain")
        else None
    end
  else None.

(** Room versions 3-5, rule 4. *)
Definition authorize_aliases (obj : Object) (sender : string) : EventAuthorizationDecision :=
  match string_member obj "state_key" with
  | None => make_denied "4" "m.room.aliases requires a state_key"
  | Some state_key =>
      if state_key <>s domain_of sender
      then make_denied "4" "aliases state_key does not match sender domain"
      else make_allowed "4"
  end.

Definition membership_of (member_event : Value) : MembershipState :=
  default ms_leave (parse_membership_state (extract_content_membership member_event)).

Definition sender_current_membership (am : AuthEventMap) : MembershipState :=
  if value_has_content (sender_member am) then membership_of (sender_member am) else ms_leave.

Definition target_current_membership (target_is_sender : bool) (am : AuthEventMap) : MembershipState :=
  if target_is_sender && value_has_content (sender_member am) then membership_of (sender_member am)
  else if value_has_content (target_member am) then membership_of (target_member am)
  else ms_leave.

Definition current_join_rule (am : AuthEventMap) : string :=
  if value_has_content (join_rules am)
  then default "invite" (event_content_string (join_rules am) "join_rule") else "invite".

(** Rule 4.3.5: restricted and knock_restricted joins. *)
Definition authorize_restricted_join (event : Value) (target_membership : MembershipState)
    (policy : RoomVersionPolicy) (am : AuthEventMap) : EventAuthorizationDecision :=
  if membership_at_least_one_of target_membership [ms_invite; ms_join] then make_allowed "5"
  else
  match event_content_string event "join_authorised_via_users_server" with
  | None => make_denied "5" "restricted join requires join_authorised_via_users_server"
  | Some authorising_user =>
      if empty authorising_user
      then make_denied "5" "restricted join requires join_authorised_via_users_server"
      else if negb (event_has_signature_from_server event (domain_of authorising_user))
      then make_denied "5" "restricted join event lacks a signature from the authorising user's server"
      else
        match value_is_object (authorising_user_member am) with
        | None => make_denied "5" "restricted join missing authorising user membership"
        | Some authorising_member_obj =>
            if match string_member authorising_member_obj "state_key" with
               | None => true | Some k => k <>s authorising_user end
            then make_denied "5" "restricted join authorising user does not match membership event"
            else if negb (bool_decide
                   (parse_membership_state (extract_content_membership (authorising_user_member am))
                    = Some ms_join))
            then make_denied "5" "restricted join authorising user is not joined"
            else
              let invite_power := level_or_default am policy "invite" 0 in
              let authorising_power :=
                effective_sender_power (power_levels am) authorising_user (create am) policy in
              if authorising_power <? invite_power
              then make_denied "5" "restricted join authorising user lacks invite power"
              else make_allowed "5"
        end
  end.

(** Step 5, a join of the sender. *)
Definition authorize_join (event : Value) (target_membership : MembershipState)
    (policy : RoomVersionPolicy) (am : AuthEventMap) : EventAuthorizationDecision :=
  if ms_eqb target_membership ms_ban then make_denied "5" "banned user cannot join"
  else
  let join_rule := current_join_rule am in
  if join_rule =s "public" then make_allowed "5"
  else if join_rule =s "invite" then
    if membership_at_least_one_of target_membership [ms_invite; ms_join] then make_allowed "5"
    else make_denied "5" "user was not invited to this invite-only room"
  else if (join_rule =s "knock") && knock_join_rule policy then
    if membership_at_least_one_of target_membership [ms_invite; ms_join] then make_allowed "5"
    else make_denied "5" "user was not invited to a knock room"
  else if ((join_rule =s "restricted") && restricted_join_rule policy)
          || ((join_rule =s "knock_restricted") && knock_restricted_join_rule policy)
  then authorize_restricted_join event target_membership policy am
  else make_denied "5" "join rule not defined by this room version".

Definition authorize_knock (target_is_sender : bool) (target_membership : MembershipState)
    (policy : RoomVersionPolicy) (am : AuthEventMap) : EventAuthorizationDecision :=
  if negb (knock_join_rule policy)
  then make_denied "5" "knock membership not defined by this room version"
  else if negb target_is_sender then make_denied "5" "cannot knock on behalf of another user"
  else if ms_eqb target_membership ms_ban then make_denied "5" "banned user cannot knock"
  else if membership_at_least_one_of target_membership [ms_join; ms_invite]
  then make_denied "5" "already joined or invited user cannot knock"
  else
  let rule := current_join_rule am in
  if (rule =s "knock") || ((rule =s "knock_restricted") && knock_restricted_join_rule policy)
  then make_allowed "5"
  else make_denied "5" "join_rule does not permit knocking".

(** Step 6. *)
Definition authorize_invite (obj : Object) (state_key sender : string)
    (sender_membership target_membership : MembershipState)
    (policy : RoomVersionPolicy) (am : AuthEventMap) : EventAuthorizationDecision :=
  match object_member_as_object obj "content" ≫= (fun c => object_member c "third_party_invite") with
  | Some third_party_invite_value =>
      authorize_third_party_invite third_party_invite_value state_key sender target_membership
        (third_party_invite am)
  | None =>
      if ms_eqb target_membership ms_join then make_denied "6" "cannot invite already-joined user"
      else if ms_eqb target_membership ms_ban then make_denied "6" "cannot invite banned user"
      else if negb (ms_eqb sender_membership ms_join) then make_denied "6" "inviter must be joined"
      else
        let invite_power := level_or_default am policy "invite" 0 in
        let sender_power := effective_sender_power (power_levels am) sender (create am) policy in
        if sender_power <? invite_power then make_denied "6" "insufficient power to invite"
        else make_allowed "6"
  end.

(** Step 7. *)
Definition authorize_leave (target_is_sender : bool) (state_key sender : string)
    (sender_membership target_membership : MembershipState)
    (policy : RoomVersionPolicy) (am : AuthEventMap) : EventAuthorizationDecision :=
  if target_is_sender then
    if membership_at_least_one_of target_membership [ms_invite; ms_join; ms_knock] then make_allowed "7"
    else make_denied "7" "self-leave requires current membership of invite, join, or knock"
  else if negb (ms_eqb sender_membership ms_join) then make_denied "7" "kicker must be joined"
  else
  let sender_power := effective_sender_power (power_levels am) sender (create am) policy in
  if ms_eqb target_membership ms_ban && (sender_power <? level_or_default am policy "ban" 50)
  then make_denied "7" "insufficient power to unban"
  else
  let kick_power := level_or_default am policy "kick" 50 in
  let target_power := effective_sender_power (power_levels am) state_key (create am) policy in
  if (kick_power <=? sender_power) && (target_power <? sender_power) then make_allowed "7"
  else make_denied "7" "insufficient power to kick or unban target".

(** Step 8. *)
Definition authorize_ban (state_key sender : string) (sender_membership : MembershipState)
    (policy : RoomVersionPolicy) (am : AuthEventMap) : EventAuthorizationDecision :=
  if negb (ms_eqb sender_membership ms_join) then make_denied "8" "banner must be joined"
  else
  let ban_power := level_or_default am policy "ban" 50 in
  let sender_power := effective_sender_power (power_levels am) sender (create am) policy in
  let target_power := effective_sender_power (power_levels am) state_key (create am) policy in
  if (ban_power <=? sender_power) && (target_power <? sender_power) then make_allowed "8"
  else make_denied "8" "insufficient power to ban".

(** The creator's first join, right after the create event. *)
Definition creator_bootstrap (event : Value) (state_key : string) (policy : RoomVersionPolicy)
    (am : AuthEventMap) : bool :=
  sole_prev_event_is_create event am policy
  && (let creator := room_creator_user_id (create am) policy in
      negb (empty creator) && (state_key =s creator)).

Definition authorize_member (event : Value) (obj : Object) (sender : string)
    (policy : RoomVersionPolicy) (am : AuthEventMap) : EventAuthorizationDecision :=
  match string_member obj "state_key" with
  | None => make_denied "4" "m.room.member requires a state_key"
  | Some state_key =>
      if empty state_key then make_denied "4" "m.room.member requires a state_key"
      else
      match parse_membership_state (extract_content_membership event) with
      | None => make_denied "4" "membership value is unrecognized"
      | Some requested =>
          if ms_eqb requested ms_join && creator_bootstrap event state_key policy am
          then make_allowed "5"
          else
          let target_is_sender := sender =s state_key in
          let sender_membership := sender_current_membership am in
          let target_membership := target_current_membership target_is_sender am in
          match requested with
          | ms_join =>
              if negb target_is_sender then make_denied "5" "cannot force another user to join"
              else authorize_join event target_membership policy am
          | ms_knock => authorize_knock target_is_sender target_membership policy am
          | ms_invite =>
              authorize_invite obj state_key sender sender_membership target_membership policy am
          | ms_leave =>
              authorize_leave target_is_sender state_key sender sender_membership target_membership
                policy am
          | ms_ban => authorize_ban state_key sender sender_membership policy am
          | ms_restricted => make_denied "4" "unsupported membership type"
          end
      end
  end.

(** ** m.room.power_levels *)

(** The lambda [required_power_level]. *)
Definition required_power_levels_power (am : AuthEventMap) (policy : RoomVersionPolicy) : Z :=
  if negb (value_has_content (power_levels am)) then 50
  else
    let encoding := power_level_encoding policy in
    let state_default := extract_power_level_key (power_levels am) "state_default" 50 encoding in
    events_entry_or (power_levels am) "m.room.power_levels" state_default encoding.

(** A room creator is named in the new [content.users]. *)
Definition users_list_creator (new_users : option Object) (policy : RoomVersionPolicy) (am : AuthEventMap) : bool :=
  privilege_room_creators policy
  && existsb (fun entry => user_is_room_creator (create am) entry.1 policy) (default [] new_users).

(** Rule 9.9. *)
Definition elevates_above_sender (old_users new_users : option Object) (sender_power : Z)
    (encoding : PowerLevelEncoding) : bool :=
  existsb (fun entry =>
    match power_level_value (Some entry.2) encoding with
    | None => false
    | Some new_level =>
        differs new_level (level_in old_users entry.1 encoding) && (sender_power <? new_level)
    end) (default [] new_users).

(** Rule 9.8. *)
Definition alters_peer_or_superior (old_users new_users : option Object) (sender : string)
    (sender_power : Z) (encoding : PowerLevelEncoding) : bool :=
  existsb (fun entry =>
    if entry.1 =s sender then false
    else
      match level_in old_users entry.1 encoding with
      | None => false
      | Some old_level =>
          differs old_level (level_in new_users entry.1 encoding) && (sender_power <=? old_level)
      end) (default [] old_users).

Definition power_levels_change_denial (content_obj : Object) (new_users : option Object) (sender : string)
    (pl_sender_power : Z) (policy : RoomVersionPolicy) (am : AuthEventMap)
    : option EventAuthorizationDecision :=
  if value_has_content (power_levels am) then
    let encoding := power_level_encoding policy in
    let old_content := event_content (power_levels am) in
    let old_users := match old_content with None => None | Some c => object_member_as_object c "users" end in
    let why :=
      match old_content with
      | None => EmptyString
      | Some old =>
          let scalar := scalar_power_level_rejection_reason old content_obj pl_sender_power encoding in
          if negb (empty scalar) then scalar
          else first_problem (fun map_key =>
                 power_level_map_rejection_reason old content_obj map_key pl_sender_power encoding)
                 (bounded_power_level_maps policy)
      end in
    if negb (empty why) then Some (make_denied "11" why)
    else if elevates_above_sender old_users new_users pl_sender_power encoding
    then Some (make_denied "11" "cannot elevate user above own power level")
    else if alters_peer_or_superior old_users new_users sender pl_sender_power encoding
    then Some (make_denied "11" "cannot change or remove power level of user at or above own power level")
    else None
  else None.

Definition authorize_power_levels (obj : Object) (sender : string) (policy : RoomVersionPolicy)
    (am : AuthEventMap) : EventAuthorizationDecision :=
  let pl_sender_power := effective_sender_power (power_levels am) sender (create am) policy in
  if pl_sender_power <? required_power_levels_power am policy
  then make_denied "11" "insufficient power to send power_levels event"
  else
  match object_member_as_object obj "content" with
  | None => make_denied "11" "m.room.power_levels requires a content object"
  | Some content_obj =>
      let why := power_levels_content_rejection_reason content_obj policy in
      if negb (empty why) then make_denied "11" why
      else
      let new_users := object_member_as_object content_obj "users" in
      if users_list_creator new_users policy am
      then make_denied "11" "creator cannot be specified in m.room.power_levels content.users"
      else
      match power_levels_change_denial content_obj new_users sender pl_sender_power policy am with
      | Some denial => denial
      | None => make_allowed "11"
      end
  end.

(** ** Everything but create, aliases and member events *)

(** Step 6 in the room version documents' numbering. *)
Definition authorize_third_party_invite_event (sender : string) (policy : RoomVersionPolicy)
    (am : AuthEventMap) : EventAuthorizationDecision :=
  let invite_power := level_or_default am policy "invite" 0 in
  let sender_power := effective_sender_power (power_levels am) sender (create am) policy in
  if sender_power <? invite_power
  then make_denied "6" "insufficient power to create a third-party invite" else make_allowed "6".

(** Steps 13 and 14. *)
Definition authorize_by_type (event_type : string) (is_state_event : bool) (sender_power : Z)
    (policy : RoomVersionPolicy) (am : AuthEventMap) : EventAuthorizationDecision :=
  if is_state_event then
    if sender_power <? required_state_event_power (power_levels am) event_type policy
    then make_denied "13" "insufficient power for state event" else make_allowed "13"
  else if sender_power <? required_message_event_power am event_type policy
  then make_denied "14" "insufficient power for message event" else make_allowed "14".

Definition authorize_joined_sender (obj : Object) (event_type sender : string)
    (policy : RoomVersionPolicy) (am : AuthEventMap) : EventAuthorizationDecision :=
  if negb (ms_eqb (sender_current_membership am) ms_join)
  then make_denied "10" "sender is not joined to the room"
  else if event_type =s "m.room.third_party_invite"
  then authorize_third_party_invite_event sender policy am
  else
  let sender_power := effective_sender_power (power_levels am) sender (create am) policy in
  let state_key := string_member obj "state_key" in
  if match state_key with Some k => starts_with "@"%char k && (k <>s sender) | None => false end
  then make_denied "8" "state_key belongs to another user"
  else if event_type =s "m.room.power_levels" then authorize_power_levels obj sender policy am
  else
  let is_state_event := match state_key with Some _ => true | None => false end in
  authorize_by_type event_type is_state_event sender_power policy am.

Definition authorize_event_against_auth_events (event : Value) (policy : RoomVersionPolicy)
    (am : AuthEventMap) : EventAuthorizationDecision :=
  match value_is_object event with
  | None => make_denied "0" "event must be an object"
  | Some obj =>
      match string_member obj "type" with
      | None => make_denied "0" "missing event type"
      | Some event_type =>
          if empty event_type then make_denied "0" "missing event type"
          else
          match string_member obj "sender" with
          | None => make_denied "0" "missing sender"
          | Some sender =>
              if empty sender then make_denied "0" "missing sender"
              else if event_type =s "m.room.create" then authorize_create obj policy am
              else if negb (value_has_content (create am))
              then make_denied "2" "room has no create event"
              else
              match federation_denial sender am with
              | Some denial => denial
              | None =>
                  if (event_type =s "m.room.aliases") && bool_decide (auth_rules policy = room_v1)
                  then authorize_aliases obj sender
                  else if event_type =s "m.room.member"
                  then authorize_member event obj sender policy am
                  else authorize_joined_sender obj event_type sender policy am
              end
          end
      end
  end.

End Authorization.
