(* ===== verification/EventAuthBase.v ===== *)
(** Shared lemmas on event authorization: the shape of an authorized event, the
    meaning of the reason loops, and the power-level tables before and after a
    change.  The security theorems are in EventAuthSafety.v and the membership
    state machine in Membership.v. *)
From S2P Require Import Prelude CppStd JsonValue JsonSerializer RoomVersion Signing EventAuth.
Open Scope Z_scope.

Lemma ms_eqb_true a b : ms_eqb a b = true <-> a = b.
Proof. apply bool_decide_eq_true. Qed.

Lemma ms_eqb_false a b : ms_eqb a b = false <-> a <> b.
Proof. apply bool_decide_eq_false. Qed.

(** [breflect] with the tests of the authorization rules. *)
Ltac areflect :=
  repeat (breflect; match goal with
  | H : empty _ = true |- _ => apply empty_true in H
  | H : empty _ = false |- _ => apply empty_false in H
  | H : ms_eqb _ _ = true |- _ => apply ms_eqb_true in H
  | H : ms_eqb _ _ = false |- _ => apply ms_eqb_false in H
  | H : bool_decide _ = true |- _ => apply bool_decide_eq_true in H
  | H : bool_decide _ = false |- _ => apply bool_decide_eq_false in H
  end); breflect.

(** Split every test of a decision that was allowed, dropping the denials. *)
Ltac denied := repeat match goal with
  | H : allowed (make_denied _ _) = true |- _ => discriminate H
  | H : allowed (make_allowed _) = false |- _ => discriminate H
  | H : true = false |- _ => discriminate H
  | H : false = true |- _ => discriminate H
  end.
Ltac allowed_cases H := repeat (split_hyp H; denied); try discriminate H.

(** * The reason loops *)

Lemma first_problem_empty {A} (check : A -> string) l :
  first_problem check l = EmptyString <-> Forall (fun x => check x = EmptyString) l.
Proof.
  induction l as [|x l IH]; simpl; [by split|].
  rewrite Forall_cons, <- IH. destruct (empty (check x)) eqn:E; areflect; naive_solver.
Qed.

Lemma first_problem_nonempty {A} (check : A -> string) l :
  empty (first_problem check l) = false -> exists x, x ∈ l /\ first_problem check l = check x.
Proof.
  induction l as [|x l IH]; simpl; [done|].
  destruct (empty (check x)) eqn:E; [|set_solver].
  intros (y & Hy & He)%IH. set_solver.
Qed.

(** Checks one after the other: the second runs when the first finds nothing. *)
Lemma reason_seq (r y : string) :
  (if negb (empty r) then r else y) = EmptyString <-> r = EmptyString /\ y = EmptyString.
Proof. destruct r; simpl; naive_solver. Qed.

Lemma append_nonempty_l a b : a <> EmptyString -> a +:+ b <> EmptyString.
Proof. destruct a; [done|]. simpl. done. Qed.

Lemma append_nonempty_r a b : b <> EmptyString -> a +:+ b <> EmptyString.
Proof. destruct a; simpl; done. Qed.

(** * The shape of an event that reaches the rules *)

(** [event] is an object with a non-empty type and sender. *)
Definition is_event (event : Value) (obj : Object) (event_type sender : string) : Prop :=
  event = VObject obj /\ string_member obj "type" = Some event_type
  /\ string_member obj "sender" = Some sender
  /\ event_type <> EmptyString /\ sender <> EmptyString.

Section Shape.
Context `{Libc} `{Sodium}.

Definition authorized (event : Value) (policy : RoomVersionPolicy) (am : AuthEventMap) : Prop :=
  allowed (authorize_event_against_auth_events event policy am) = true.

(** Past steps 0 to 3: what holds for every authorized event but a create. *)
Definition past_federation (event_type sender : string) (am : AuthEventMap) : Prop :=
  event_type <> "m.room.create" /\ value_has_content (create am) = true
  /\ federation_denial sender am = None.

Definition is_v1_aliases (event_type : string) (policy : RoomVersionPolicy) : Prop :=
  event_type = "m.room.aliases" /\ auth_rules policy = room_v1.

Lemma authorized_shape event policy am :
  authorized event policy am ->
  exists obj event_type sender, is_event event obj event_type sender.
Proof.
  unfold authorized, authorize_event_against_auth_events. intros Ha.
  destruct event as [| | | | | |obj|]; simpl in Ha; try discriminate.
  destruct (string_member obj "type") as [ty|] eqn:Et; [|discriminate].
  destruct (empty ty) eqn:Ety; [discriminate|].
  destruct (string_member obj "sender") as [s|] eqn:Es; [|discriminate].
  destruct (empty s) eqn:Esd; [discriminate|].
  exists obj, ty, s. unfold is_event. by areflect.
Qed.

(** How the entry point dispatches on the event's type. *)
Lemma authorize_dispatch event obj event_type sender policy am :
  is_event event obj event_type sender ->
  authorize_event_against_auth_events event policy am =
  if event_type =s "m.room.create" then authorize_create obj policy am
  else if negb (value_has_content (create am)) then make_denied "2" "room has no create event"
  else match federation_denial sender am with
       | Some denial => denial
       | None =>
           if (event_type =s "m.room.aliases") && bool_decide (auth_rules policy = room_v1)
           then authorize_aliases obj sender
           else if event_type =s "m.room.member" then authorize_member event obj sender policy am
           else authorize_joined_sender obj event_type sender policy am
       end.
Proof.
  intros (-> & Ht & Hs & Hnt & Hns). unfold authorize_event_against_auth_events. simpl.
  rewrite Ht, Hs. apply empty_false in Hnt, Hns. by rewrite Hnt, Hns.
Qed.

Lemma federation_denial_denies sender am d : federation_denial sender am = Some d -> allowed d = false.
Proof. unfold federation_denial. intros Hd. repeat split_hyp Hd; simplify_eq; done. Qed.

Lemma authorized_past_federation event obj event_type sender policy am :
  is_event event obj event_type sender -> event_type <> "m.room.create" ->
  authorized event policy am -> past_federation event_type sender am.
Proof.
  intros Hev Hc Ha. unfold authorized in Ha. rewrite (authorize_dispatch _ _ _ _ _ _ Hev) in Ha.
  apply string_eqb_false in Hc. rewrite Hc in Ha.
  destruct (value_has_content (create am)) eqn:E; [|discriminate]. simpl in Ha.
  destruct (federation_denial sender am) as [d|] eqn:Ef.
  { apply federation_denial_denies in Ef. congruence. }
  unfold past_federation. areflect. done.
Qed.

(** A member event is judged by [authorize_member]. *)
Lemma authorized_member event obj sender policy am :
  is_event event obj "m.room.member" sender ->
  authorized event policy am <->
  past_federation "m.room.member" sender am
  /\ allowed (authorize_member event obj sender policy am) = true.
Proof.
  intros Hev. unfold authorized, past_federation.
  rewrite (authorize_dispatch _ _ _ _ _ _ Hev). simpl.
  destruct (value_has_content (create am)) eqn:Ec; simpl; [|naive_solver].
  destruct (federation_denial sender am) as [d|] eqn:Ef; simpl; [|naive_solver].
  apply federation_denial_denies in Ef. naive_solver congruence.
Qed.

(** Every other event but create and the version 3-5 aliases is judged by
    [authorize_joined_sender]. *)
Lemma authorized_other event obj event_type sender policy am :
  is_event event obj event_type sender ->
  event_type <> "m.room.create" -> event_type <> "m.room.member" ->
  ~ is_v1_aliases event_type policy ->
  authorized event policy am <->
  past_federation event_type sender am
  /\ allowed (authorize_joined_sender obj event_type sender policy am) = true.
Proof.
  intros Hev Hc Hm Hal. unfold authorized, past_federation.
  rewrite (authorize_dispatch _ _ _ _ _ _ Hev).
  rewrite (proj2 (string_eqb_false _ _) Hc), (proj2 (string_eqb_false _ _) Hm).
  assert ((event_type =s "m.room.aliases") && bool_decide (auth_rules policy = room_v1) = false) as ->.
  { destruct (event_type =s "m.room.aliases") eqn:E; [|done]. simpl. breflect.
    apply bool_decide_eq_false. intros ?. by apply Hal. }
  destruct (value_has_content (create am)) eqn:Ec; simpl; [|naive_solver].
  destruct (federation_denial sender am) as [d|] eqn:Ef; simpl; [|naive_solver].
  apply federation_denial_denies in Ef. naive_solver congruence.
Qed.
End Shape.

(** * A sample room

    A version 11 room of three users, with federation off; the witnesses of the
    theorems about authorization are stated on it. *)
Definition no_sodium : Sodium := {|
  sodium_init_ok := false; sodium_base642bin := fun _ => None; sodium_bin2base64 := fun _ _ => EmptyString;
  crypto_hash_sha256 := fun _ => None; crypto_sign_detached := fun _ _ => None;
  crypto_sign_verify_detached := fun _ _ _ => false |}.

Definition mk_event (event_type sender : string) (state_key : option string) (content : Object) : Value :=
  VObject ([("type", VString event_type); ("sender", VString sender); ("room_id", VString "!r:a.org")]
           ++ match state_key with Some k => [("state_key", VString k)] | None => [] end
           ++ [("content", VObject content)]).

Definition mk_member (sender target membership : string) : Value :=
  mk_event "m.room.member" sender (Some target) [("membership", VString membership)].

Definition sample_create : Value :=
  mk_event "m.room.create" "@alice:a.org" (Some EmptyString) [("m.federate", VBool false)].

Definition sample_levels (users : Object) (ban : Z) : Value :=
  mk_event "m.room.power_levels" "@alice:a.org" (Some EmptyString)
    [("users", VObject users); ("ban", VInt ban); ("events", VObject [("m.room.name", VInt 40)])].

Definition sample_room (sender_m target_m : string) : AuthEventMap := {|
  create := sample_create; create_event_id := "$create";
  power_levels := sample_levels [("@alice:a.org", VInt 100); ("@mod:a.org", VInt 50)] 50;
  join_rules := VNull;
  sender_member := mk_member "@mod:a.org" "@mod:a.org" sender_m;
  target_member := mk_member "@bob:a.org" "@bob:a.org" target_m;
  authorising_user_member := VNull; third_party_invite := VNull |}.
