(* ===== verification/EventAuthSafety.v ===== *)
(** Security theorems of event authorization: no privilege escalation through
    m.room.power_levels, the protection of superiors and of room creators, who
    may send at all, non-federated rooms, room creation, and the range of every
    level the rules compute with. *)
From S2P Require Import Prelude CppStd JsonValue JsonSerializer RoomVersion Signing EventAuth EventAuthBase.
Open Scope Z_scope.

(** * Level tables *)

Lemma level_in_entry users u encoding l :
  level_in users u encoding = Some l ->
  exists o v, users = Some o /\ (u, v) ∈ o /\ power_level_value (Some v) encoding = Some l.
Proof.
  destruct users as [o|]; simpl; [|done]. unfold power_level_member.
  destruct (object_member o u) as [v|] eqn:E; [|done]. intros Hl.
  exists o, v. eauto using object_member_In.
Qed.

Lemma differs_false l other : differs l other = false -> other = Some l.
Proof. destruct other as [o|]; simpl; [|done]. intros. breflect. congruence. Qed.

(** The level [content] gives a user: the entry in [users], else [users_default]. *)
Definition users_default_of (content : Object) (encoding : PowerLevelEncoding) : Z :=
  default 0 (power_level_member content "users_default" encoding).

Definition users_of (content : Object) : option Object := object_member_as_object content "users".

Lemma extract_user_power_level_content event content u encoding :
  event_content event = Some content ->
  extract_user_power_level event u encoding =
  default (users_default_of content encoding) (level_in (users_of content) u encoding).
Proof.
  unfold extract_user_power_level, extract_power_level_key, users_default_of, users_of. intros ->.
  by destruct (object_member_as_object content "users").
Qed.

(** An altered level was, and is, within the sender's reach. *)
Definition change_bounded (sender_power : Z) (old new : option Z) : Prop :=
  old = new
  \/ (forall o, old = Some o -> o <= sender_power) /\ (forall n, new = Some n -> n <= sender_power).

Lemma scalar_reason_bounded old new sp encoding :
  scalar_power_level_rejection_reason old new sp encoding = EmptyString ->
  forall key, key ∈ scalar_power_level_keys ->
  change_bounded sp (power_level_member old key encoding) (power_level_member new key encoding).
Proof.
  unfold scalar_power_level_rejection_reason. rewrite first_problem_empty, Forall_forall.
  intros Hall key Hk. specialize (Hall key Hk). simpl in Hall. unfold change_bounded.
  destruct (power_level_member old key encoding) as [o|],
           (power_level_member new key encoding) as [n|]; [|  |  |by left].
  - destruct (o =? n) eqn:Eq; breflect; [left; congruence|right].
    destruct (sp <? o) eqn:Eo; [done|]. destruct (sp <? n) eqn:En.
    { by destruct (append_nonempty_l "cannot set " (key +:+ " above the sender's own power level")). }
    breflect. split; intros ? [= <-]; lia.
  - right. destruct (sp <? o) eqn:Eo; [done|]. breflect. split; intros ? [=]; lia.
  - right. destruct (sp <? n) eqn:En; [done|]. breflect. split; intros ? [=]; lia.
Qed.

Lemma map_reason_bounded old new map_key sp encoding :
  power_level_map_rejection_reason old new map_key sp encoding = EmptyString ->
  forall key, change_bounded sp (level_in (object_member_as_object old map_key) key encoding)
                                (level_in (object_member_as_object new map_key) key encoding).
Proof.
  unfold power_level_map_rejection_reason.
  set (om := object_member_as_object old map_key). set (nm := object_member_as_object new map_key).
  cbv zeta. rewrite reason_seq, !first_problem_empty, !Forall_forall. intros [E Hr].
  intros key. unfold change_bounded.
  destruct (decide (level_in om key encoding = level_in nm key encoding)) as [|Hne]; [by left|right].
  split; intros l Hl; destruct (level_in_entry _ _ _ _ Hl) as (o & v & Ho & Hin & Hv).
  - specialize (E (key, v)). rewrite Ho in E. specialize (E Hin). simpl in E. rewrite Hv in E.
    destruct (differs l (level_in nm key encoding)) eqn:Ed.
    + destruct (sp <? l) eqn:El; simpl in E; [|breflect; lia].
      by apply append_nonempty_r in E.
    + apply differs_false in Ed. congruence.
  - specialize (Hr (key, v)). rewrite Ho in Hr. specialize (Hr Hin). simpl in Hr. rewrite Hv in Hr.
    destruct (differs l (level_in om key encoding)) eqn:Ed.
    + destruct (sp <? l) eqn:El; simpl in Hr; [|breflect; lia].
      by apply append_nonempty_r in Hr.
    + apply differs_false in Ed. congruence.
Qed.

Lemma elevates_false old_users new_users sp encoding u l :
  elevates_above_sender old_users new_users sp encoding = false ->
  level_in new_users u encoding = Some l -> level_in old_users u encoding <> Some l -> l <= sp.
Proof.
  unfold elevates_above_sender. intros He Hl Hne.
  destruct (level_in_entry _ _ _ _ Hl) as (o & v & -> & Hin & Hv). simpl in He.
  destruct (Z.le_gt_cases l sp) as [|Hgt]; [done|exfalso].
  apply not_true_iff_false in He. apply He. apply existsb_exists.
  exists (u, v). split; [by apply list_elem_of_In|]. simpl. rewrite Hv.
  apply andb_true_iff; split; [|by apply Z.ltb_lt].
  destruct (differs l _) eqn:E; [done|]. by apply differs_false in E.
Qed.

Lemma alters_false old_users new_users sender sp encoding u l :
  alters_peer_or_superior old_users new_users sender sp encoding = false ->
  u <> sender -> level_in old_users u encoding = Some l -> sp <= l ->
  level_in new_users u encoding = Some l.
Proof.
  unfold alters_peer_or_superior. intros He Hu Hl Hle.
  destruct (level_in_entry _ _ _ _ Hl) as (o & v & -> & Hin & Hv). simpl in Hl.
  apply differs_false. destruct (differs l _) eqn:E; [exfalso|done].
  apply not_true_iff_false in He. apply He. apply existsb_exists.
  exists (u, v). split; [by apply list_elem_of_In|]. simpl.
  apply string_eqb_false in Hu. rewrite Hu, Hl, E. simpl. by apply Z.leb_le.
Qed.

Section Safety.
Context `{Libc} `{Sodium}.

(** * Accepted m.room.power_levels events *)

Lemma authorize_power_levels_inv obj sender policy am :
  allowed (authorize_power_levels obj sender policy am) = true ->
  exists content,
    object_member_as_object obj "content" = Some content
    /\ required_power_levels_power am policy
       <= effective_sender_power (power_levels am) sender (create am) policy
    /\ power_levels_content_rejection_reason content policy = EmptyString
    /\ users_list_creator (users_of content) policy am = false
    /\ power_levels_change_denial content (users_of content) sender
         (effective_sender_power (power_levels am) sender (create am) policy) policy am = None.
Proof.
  unfold authorize_power_levels. intros Ha.
  destruct (_ <? _) eqn:Ep; [done|].
  destruct (object_member_as_object obj "content") as [content|]; [|done].
  destruct (negb (empty _)) eqn:Er; [done|]. fold (users_of content) in Ha.
  destruct (users_list_creator _ _ _) eqn:Ec; [done|].
  exists content. areflect. repeat split; [done..|].
  unfold power_levels_change_denial in *. by repeat split_hyp Ha.
Qed.

Lemma power_levels_change_inv content sender sp policy am old_content :
  event_content (power_levels am) = Some old_content ->
  power_levels_change_denial content (users_of content) sender sp policy am = None ->
  let encoding := power_level_encoding policy in
  scalar_power_level_rejection_reason old_content content sp encoding = EmptyString
  /\ Forall (fun map_key =>
       power_level_map_rejection_reason old_content content map_key sp encoding = EmptyString)
       (bounded_power_level_maps policy)
  /\ elevates_above_sender (users_of old_content) (users_of content) sp encoding = false
  /\ alters_peer_or_superior (users_of old_content) (users_of content) sender sp encoding = false.
Proof.
  intros Hold. unfold power_levels_change_denial. rewrite Hold.
  assert (value_has_content (power_levels am) = true) as ->.
  { unfold event_content in Hold. by destruct (power_levels am). }
  fold (users_of old_content). cbv zeta. intros Hd.
  destruct (negb (empty (if negb _ then _ else _))) eqn:Er; [done|].
  destruct (elevates_above_sender _ _ _ _) eqn:Ee; [done|].
  destruct (alters_peer_or_superior _ _ _ _ _) eqn:Ea; [done|].
  areflect. apply reason_seq in Er as [-> Hm]. by rewrite first_problem_empty in Hm.
Qed.

(** The event and the previous power levels, opened up for the theorems below. *)
Lemma authorized_power_levels event obj sender policy am :
  is_event event obj "m.room.power_levels" sender -> authorized event policy am ->
  allowed (authorize_power_levels obj sender policy am) = true.
Proof.
  intros Hev Ha.
  apply (authorized_other _ _ _ _ _ _ Hev) in Ha; [|done|done|by intros [? _]].
  destruct Ha as [_ Ha]. unfold authorize_joined_sender in Ha.
  destruct (negb _); [done|]. simpl in Ha.
  destruct (match string_member obj "state_key" with Some _ => _ | None => _ end); done.
Qed.

Lemma is_event_content event obj event_type sender :
  is_event event obj event_type sender ->
  event_content event = object_member_as_object obj "content".
Proof. by intros (-> & _). Qed.

(** C1. In a room that has an m.room.power_levels event with readable content,
    accepting another never gives any user more power than the greatest of: the
    power that user already had, the sender's own power, the previous
    [users_default], and the default level 0.  (A room's first power levels replace
    none, and are not bounded by this.) *)
Theorem power_levels_no_escalation event obj sender policy am old_content user :
  is_event event obj "m.room.power_levels" sender -> authorized event policy am ->
  event_content (power_levels am) = Some old_content ->
  let encoding := power_level_encoding policy in
  let sender_power := effective_sender_power (power_levels am) sender (create am) policy in
  extract_user_power_level event user encoding
  <= Z.max (extract_user_power_level (power_levels am) user encoding)
       (Z.max sender_power (Z.max 0 (users_default_of old_content encoding))).
Proof.
  intros Hev Ha Hold encoding sp.
  apply (authorized_power_levels _ _ _ _ _ Hev) in Ha.
  destruct (authorize_power_levels_inv _ _ _ _ Ha) as (content & Hc & _ & _ & _ & Hd).
  destruct (power_levels_change_inv _ _ _ _ _ _ Hold Hd) as (Hs & _ & He & _).
  rewrite (extract_user_power_level_content event content)
    by (by rewrite (is_event_content _ _ _ _ Hev)).
  rewrite (extract_user_power_level_content _ old_content) by done. fold encoding sp in He, Hs |- *.
  destruct (level_in (users_of content) user encoding) as [l|] eqn:El; simpl.
  - destruct (decide (level_in (users_of old_content) user encoding = Some l)) as [->|Hne]; simpl; [lia|].
    pose proof (elevates_false _ _ _ _ _ _ He El Hne). lia.
  - destruct (scalar_reason_bounded _ _ _ _ Hs "users_default") as [Heq|[_ Hn]]; [set_solver|..].
    + unfold users_default_of. rewrite <- Heq. lia.
    + unfold users_default_of. destruct (power_level_member content _ _) as [n|]; simpl; [|lia].
      specialize (Hn n eq_refl). lia.
Qed.

(** Every scalar level (users_default, events_default, state_default, ban,
    redact, kick, invite) and every entry of the bounded maps that an accepted
    m.room.power_levels event adds, changes or removes was at most the sender's
    power before and is at most the sender's power after. *)
Lemma power_levels_changes_bounded event obj sender policy am old_content :
  is_event event obj "m.room.power_levels" sender -> authorized event policy am ->
  event_content (power_levels am) = Some old_content ->
  let encoding := power_level_encoding policy in
  let sender_power := effective_sender_power (power_levels am) sender (create am) policy in
  exists content, event_content event = Some content
  /\ (forall key, key ∈ scalar_power_level_keys ->
        change_bounded sender_power (power_level_member old_content key encoding)
                                    (power_level_member content key encoding))
  /\ (forall map_key key, map_key ∈ bounded_power_level_maps policy ->
        change_bounded sender_power
          (level_in (object_member_as_object old_content map_key) key encoding)
          (level_in (object_member_as_object content map_key) key encoding)).
Proof.
  intros Hev Ha Hold encoding sp.
  apply (authorized_power_levels _ _ _ _ _ Hev) in Ha.
  destruct (authorize_power_levels_inv _ _ _ _ Ha) as (content & Hc & _ & _ & _ & Hd).
  destruct (power_levels_change_inv _ _ _ _ _ _ Hold Hd) as (Hs & Hm & _).
  exists content. split; [by rewrite (is_event_content _ _ _ _ Hev)|]. split.
  - by apply scalar_reason_bounded.
  - intros map_key key Hk. rewrite Forall_forall in Hm. by apply map_reason_bounded, Hm.
Qed.

(** A user other than the sender whose listed level is at or above the
    sender's power keeps exactly that level, and exactly that effective power,
    through any accepted m.room.power_levels event. *)
Lemma power_levels_superiors_unchanged event obj sender policy am old_content user level :
  is_event event obj "m.room.power_levels" sender -> authorized event policy am ->
  event_content (power_levels am) = Some old_content ->
  let encoding := power_level_encoding policy in
  user <> sender -> level_in (users_of old_content) user encoding = Some level ->
  effective_sender_power (power_levels am) sender (create am) policy <= level ->
  extract_user_power_level event user encoding = level
  /\ extract_user_power_level (power_levels am) user encoding = level.
Proof.
  intros Hev Ha Hold encoding Hu Hl Hle.
  apply (authorized_power_levels _ _ _ _ _ Hev) in Ha.
  destruct (authorize_power_levels_inv _ _ _ _ Ha) as (content & Hc & _ & _ & _ & Hd).
  destruct (power_levels_change_inv _ _ _ _ _ _ Hold Hd) as (_ & _ & _ & Hp).
  pose proof (alters_false _ _ _ _ _ _ _ Hp Hu Hl Hle) as Hn.
  rewrite (extract_user_power_level_content event content)
    by (by rewrite (is_event_content _ _ _ _ Hev)).
  rewrite (extract_user_power_level_content _ old_content) by done.
  fold encoding in Hn. by rewrite Hn, Hl.
Qed.

(** * Room creators (room version 12) *)

Lemma creator_has_maximal_power pl user create_event policy :
  user_is_room_creator create_event user policy = true ->
  effective_sender_power pl user create_event policy = int64_max.
Proof. unfold effective_sender_power. by intros ->. Qed.

(** Where the room version privileges creators, an accepted
    m.room.power_levels event lists no room creator in [content.users]. *)
Lemma power_levels_never_list_creators event obj sender policy am user :
  is_event event obj "m.room.power_levels" sender -> authorized event policy am ->
  user_is_room_creator (create am) user policy = true ->
  forall content users, event_content event = Some content -> users_of content = Some users ->
  object_member users user = None.
Proof.
  intros Hev Ha Hcr content users Hc Hu.
  apply (authorized_power_levels _ _ _ _ _ Hev) in Ha.
  destruct (authorize_power_levels_inv _ _ _ _ Ha) as (content' & Hc' & _ & _ & Hl & _).
  rewrite (is_event_content _ _ _ _ Hev), Hc' in Hc. simplify_eq. rewrite Hu in Hl.
  unfold users_list_creator in Hl. simpl in Hl.
  assert (privilege_room_creators policy = true) as Hp.
  { unfold user_is_room_creator in Hcr. by destruct (privilege_room_creators policy). }
  rewrite Hp in Hl. simpl in Hl.
  destruct (object_member users user) as [v|] eqn:E; [exfalso|done].
  apply not_true_iff_false in Hl. apply Hl, existsb_exists.
  exists (user, v). split; [|done]. apply list_elem_of_In. by apply object_member_In.
Qed.

(** * The range of levels *)

Lemma power_level_text_range text l : power_level_text text = Some l -> int64_min <= l <= int64_max.
Proof.
  unfold power_level_text. destruct (empty text); [done|].
  destruct (trim _ text) as [token|]; [|done].
  assert (forall t, match fc_ec (from_chars_int64 t) with
            | ec_none => if empty (fc_rest (from_chars_int64 t)) then Some (fc_value (from_chars_int64 t)) else None
            | _ => None end = Some l -> int64_min <= l <= int64_max) as Hp.
  { intros t Ht. pose proof (from_chars_int64_range t _ eq_refl) as Hr.
    destruct (fc_ec (from_chars_int64 t)); [|done|done].
    destruct (empty _); [|done]. simplify_eq. by apply Hr. }
  destruct (starts_with _ token); [|apply Hp].
  destruct (front _); [|done]. destruct (is_digit _); [apply Hp|done].
Qed.

Lemma power_level_value_range v encoding l :
  (forall x, v = Some x -> int64_ok x = true) ->
  power_level_value v encoding = Some l -> int64_min <= l <= int64_max.
Proof.
  unfold power_level_value, int64_min, int64_max. intros Hok Hl. destruct v as [v|]; [|done].
  specialize (Hok v eq_refl). destruct v; simpl in Hok; try (by destruct (bool_decide _)).
  - simplify_eq. unfold int64_in_range, int64_min, int64_max in Hok. breflect. lia.
  - destruct (bool_decide _); [done|]. unfold power_level_double in Hl.
    destruct (_ || _); [done|]. destruct (_ || _) eqn:E; [done|]. simplify_eq. breflect. lia.
  - destruct (bool_decide _); [done|]. by apply (power_level_text_range _ _ Hl).
Qed.

Lemma power_level_member_range o key encoding l :
  int64_ok (VObject o) = true -> power_level_member o key encoding = Some l -> int64_min <= l <= int64_max.
Proof.
  intros Hok. apply power_level_value_range. intros x Hx. by apply (int64_ok_member o key).
Qed.

Lemma event_content_ok event content :
  int64_ok event = true -> event_content event = Some content -> int64_ok (VObject content) = true.
Proof.
  unfold event_content. destruct event as [| | | | | |obj|]; simpl; try done. intros Hok Hc.
  apply object_member_as_object_Some in Hc. exact (int64_ok_member obj "content" _ Hok Hc).
Qed.

Lemma extract_user_power_level_range event user encoding :
  int64_ok event = true -> int64_min <= extract_user_power_level event user encoding <= int64_max.
Proof.
  intros Hok. destruct (event_content event) as [content|] eqn:Hc.
  2: { unfold extract_user_power_level. rewrite Hc. unfold int64_min, int64_max. lia. }
  pose proof (event_content_ok _ _ Hok Hc) as Hcok.
  rewrite (extract_user_power_level_content _ content) by done.
  destruct (level_in (users_of content) user encoding) as [l|] eqn:El; simpl.
  - unfold users_of in El. destruct (object_member_as_object content "users") as [us|] eqn:Eu; [|done].
    apply object_member_as_object_Some in Eu. apply (power_level_member_range us user encoding); [|done].
    exact (int64_ok_member content "users" _ Hcok Eu).
  - unfold users_default_of. destruct (power_level_member content _ _) as [n|] eqn:En; simpl.
    + by apply (power_level_member_range content "users_default" encoding).
    + unfold int64_min, int64_max. lia.
Qed.

(** Whatever the events say, the power the rules compute with fits in the
    [std::int64_t] the code stores it in, so no comparison of levels overflows:
    only the representation of the power levels event itself is assumed. *)
Theorem effective_power_in_int64 power_levels_event user create_event policy :
  int64_ok power_levels_event = true ->
  int64_min <= effective_sender_power power_levels_event user create_event policy <= int64_max.
Proof.
  intros Hok. unfold effective_sender_power, creator_power.
  destruct (user_is_room_creator _ _ _); [unfold int64_min, int64_max; lia|].
  destruct (value_has_content _).
  - by apply extract_user_power_level_range.
  - destruct (_ && _); unfold int64_min, int64_max; lia.
Qed.

Lemma creator_power_not_exceeded pl user other create_event policy :
  int64_ok pl = true -> user_is_room_creator create_event user policy = true ->
  (effective_sender_power pl user create_event policy
   <? effective_sender_power pl other create_event policy) = false.
Proof.
  intros Hok Hc. rewrite (creator_has_maximal_power _ _ _ _ Hc). apply Z.ltb_ge.
  unfold effective_sender_power, creator_power. destruct (user_is_room_creator _ other _); [lia|].
  destruct (value_has_content _).
  - by apply extract_user_power_level_range.
  - destruct (_ && _); unfold int64_max; lia.
Qed.

(** A room creator of a version that privileges creators can be banned or
    kicked by nobody, not even by another creator: every m.room.member event
    that would ban a creator, or make a creator leave on someone else's behalf,
    is refused. *)
Lemma creators_cannot_be_removed event obj sender target policy am requested :
  is_event event obj "m.room.member" sender -> string_member obj "state_key" = Some target ->
  parse_membership_state (extract_content_membership event) = Some requested ->
  user_is_room_creator (create am) target policy = true -> int64_ok (power_levels am) = true ->
  requested = ms_ban \/ requested = ms_leave /\ target <> sender ->
  ~ authorized event policy am.
Proof.
  intros Hev Hk Hr Hc Hok Hcase. rewrite (authorized_member _ _ _ _ _ Hev). intros [_ Ha].
  unfold authorize_member in Ha. rewrite Hk, Hr in Ha. destruct (empty target); [done|].
  pose proof (creator_power_not_exceeded (power_levels am) target sender _ _ Hok Hc) as Hp.
  destruct Hcase as [->|[-> Hne]]; simpl in Ha.
  - unfold authorize_ban in Ha. rewrite Hp, andb_false_r in Ha. by destruct (negb _).
  - unfold authorize_leave in Ha. assert ((sender =s target) = false) as Hst by (by apply string_eqb_false).
    rewrite Hst, Hp, andb_false_r in Ha. destruct (negb _); [done|]. by destruct (_ && _).
Qed.

(** * Who may send *)

(** Only a joined user can send anything other than a create event, a
    membership event, or (room versions 3-5) an m.room.aliases event. *)
Lemma only_joined_senders event obj event_type sender policy am :
  is_event event obj event_type sender -> authorized event policy am ->
  event_type <> "m.room.create" -> event_type <> "m.room.member" ->
  ~ is_v1_aliases event_type policy ->
  sender_current_membership am = ms_join.
Proof.
  intros Hev Ha Hc Hm Hal.
  apply (authorized_other _ _ _ _ _ _ Hev Hc Hm Hal) in Ha as [_ Ha].
  unfold authorize_joined_sender in Ha. destruct (negb _) eqn:E; [done|]. by areflect.
Qed.

(** State keyed to a user: apart from membership events, an authorized event
    whose state key starts with an at sign carries the sender's own user ID. *)
Lemma user_state_keys_are_senders event obj event_type sender policy am state_key :
  is_event event obj event_type sender -> authorized event policy am ->
  event_type <> "m.room.create" -> event_type <> "m.room.member" ->
  event_type <> "m.room.third_party_invite" -> ~ is_v1_aliases event_type policy ->
  string_member obj "state_key" = Some state_key -> starts_with "@"%char state_key = true ->
  state_key = sender.
Proof.
  intros Hev Ha Hc Hm Ht Hal Hk Hat.
  apply (authorized_other _ _ _ _ _ _ Hev Hc Hm Hal) in Ha as [_ Ha].
  unfold authorize_joined_sender in Ha. destruct (negb _); [done|].
  rewrite (proj2 (string_eqb_false _ _) Ht) in Ha. rewrite Hk, Hat in Ha. simpl in Ha.
  destruct (state_key <>s sender) eqn:E; [done|]. by breflect.
Qed.

(** A room whose create event sets [m.federate] to false accepts no event,
    the create event itself apart, from a sender of another domain than the
    create event's sender. *)
Lemma non_federated_rooms_reject_foreign_senders event obj event_type sender policy am create_obj create_sender :
  is_event event obj event_type sender -> event_type <> "m.room.create" ->
  is_non_federated am = true -> create am = VObject create_obj ->
  string_member create_obj "sender" = Some create_sender ->
  domain_of sender <> domain_of create_sender ->
  ~ authorized event policy am.
Proof.
  intros Hev Hc Hf Hco Hcs Hd Ha.
  apply (authorized_past_federation _ _ _ _ _ _ Hev Hc) in Ha as (_ & _ & Hn).
  unfold federation_denial in Hn. rewrite Hf, Hco in Hn. simpl in Hn. rewrite Hcs in Hn.
  destruct (empty create_sender); [done|]. apply string_neqb_true in Hd. by rewrite Hd in Hn.
Qed.

(** * Room creation *)

(** An accepted create event is the room's first event: the room had no
    create event, it cites no previous events, the room version it declares (if
    any) is supported, and before version 12 its room ID lies in the sender's
    own domain, so no server can mint room IDs inside another server's
    namespace. *)
Lemma accepted_create_events event obj sender policy am :
  is_event event obj "m.room.create" sender -> authorized event policy am ->
  value_has_content (create am) = false
  /\ (forall prev, array_member obj "prev_events" = Some prev -> prev = [])
  /\ (forall content v, event_content event = Some content ->
        object_member content "room_version" = Some v ->
        exists version, v = VString version /\ room_version_is_supported version = true)
  /\ (if create_event_is_room_id policy then string_member obj "room_id" = None
      else exists room_id, string_member obj "room_id" = Some room_id
           /\ domain_of room_id = domain_of sender).
Proof.
  intros Hev Ha. unfold authorized in Ha. rewrite (authorize_dispatch _ _ _ _ _ _ Hev) in Ha.
  simpl in Ha. unfold authorize_create in Ha.
  destruct (value_has_content (create am)) eqn:Ec; [done|].
  destruct (negb (empty _)) eqn:Er; [done|]. areflect.
  destruct Hev as (-> & Ht & Hs & _). unfold create_event_rejection_reason in Er.
  destruct (match array_member obj "prev_events" with Some (_ :: _) => _ | _ => _ end) eqn:Ep; [done|].
  cbv zeta in Er. apply reason_seq in Er as [Hroom Er].
  split; [done|]. split; [intros [|? ?] Hp; [done|]; by rewrite Hp in Ep|]. split.
  - unfold event_content. simpl. intros content v Hcont Hv. rewrite Hcont in Er.
    destruct (_ && _); [done|]. rewrite Hv in Er.
    destruct v as [| | | |version| | |]; try done. exists version. split; [done|].
    by destruct (room_version_is_supported version).
  - rewrite Hs in Hroom. destruct (create_event_is_room_id policy).
    + by destruct (string_member obj "room_id").
    + destruct (string_member obj "room_id") as [r|]; [|done]. exists r. split; [done|].
      destruct (domain_of r <>s domain_of sender) eqn:E; [done|]. by breflect.
Qed.

(** What an accepted m.room.power_levels event may change is bounded by the
    sender's rank. Every scalar level and every entry of the bounded maps that
    differs from the current one was at most the sender's power before and is at
    most the sender's power after; another user whose level is at or above the
    sender's keeps exactly that level; and in versions where creators hold
    infinite power the event lists none of them. *)
Theorem power_levels_changes_respect_rank event obj sender policy am old_content :
  is_event event obj "m.room.power_levels" sender -> authorized event policy am ->
  event_content (power_levels am) = Some old_content ->
  let encoding := power_level_encoding policy in
  let sender_power := effective_sender_power (power_levels am) sender (create am) policy in
  (exists content, event_content event = Some content
     /\ (forall key, key ∈ scalar_power_level_keys ->
           change_bounded sender_power (power_level_member old_content key encoding)
                                       (power_level_member content key encoding))
     /\ (forall map_key key, map_key ∈ bounded_power_level_maps policy ->
           change_bounded sender_power
             (level_in (object_member_as_object old_content map_key) key encoding)
             (level_in (object_member_as_object content map_key) key encoding)))
  /\ (forall user level, user <> sender -> level_in (users_of old_content) user encoding = Some level ->
        sender_power <= level ->
        extract_user_power_level event user encoding = level
        /\ extract_user_power_level (power_levels am) user encoding = level)
  /\ (forall user content users, user_is_room_creator (create am) user policy = true ->
        event_content event = Some content -> users_of content = Some users ->
        object_member users user = None).
Proof.
  intros Hev Ha Hold encoding sender_power. split; [|split].
  - by apply (power_levels_changes_bounded event obj).
  - intros user level. by apply (power_levels_superiors_unchanged event obj).
  - intros user content users Hc. by apply (power_levels_never_list_creators event obj sender policy am).
Qed.

(** Which senders an accepted event has. An m.room.create event is accepted
    only into a room without one, with no previous events, a supported room
    version and, where the room ID names a server, the sender's own server. Any
    other event of a room closed to federation comes from the creator's server;
    and apart from membership events (and the aliases events of old versions),
    its sender is joined, and a state key that starts with @ is the sender. *)
Theorem accepted_events_sender_rules event obj event_type sender policy am :
  is_event event obj event_type sender -> authorized event policy am ->
  (event_type = "m.room.create" ->
     value_has_content (create am) = false
     /\ (forall prev, array_member obj "prev_events" = Some prev -> prev = [])
     /\ (forall content v, event_content event = Some content ->
           object_member content "room_version" = Some v ->
           exists version, v = VString version /\ room_version_is_supported version = true)
     /\ (if create_event_is_room_id policy then string_member obj "room_id" = None
         else exists room_id, string_member obj "room_id" = Some room_id
              /\ domain_of room_id = domain_of sender))
  /\ (event_type <> "m.room.create" -> forall create_obj create_sender,
        is_non_federated am = true -> create am = VObject create_obj ->
        string_member create_obj "sender" = Some create_sender ->
        domain_of sender = domain_of create_sender)
  /\ (event_type <> "m.room.create" -> event_type <> "m.room.member" -> ~ is_v1_aliases event_type policy ->
        sender_current_membership am = ms_join
        /\ (event_type <> "m.room.third_party_invite" -> forall state_key,
              string_member obj "state_key" = Some state_key -> starts_with "@"%char state_key = true ->
              state_key = sender)).
Proof.
  intros Hev Ha. split; [|split].
  - intros ->. by apply accepted_create_events.
  - intros Hc co cs Hn Hco Hcs. destruct (decide (domain_of sender = domain_of cs)) as [|Hne]; [done|].
    by destruct (non_federated_rooms_reject_foreign_senders event obj event_type sender policy am co cs).
  - intros Hc Hm Hal. split; [by apply (only_joined_senders event obj event_type sender policy)|].
    intros Ht sk. by apply (user_state_keys_are_senders event obj event_type sender policy am sk).
Qed.

End Safety.
