(* ===== verification/Membership.v ===== *)
(** The membership state machine: an abstract specification of which
    m.room.member events a room accepts, and the proof that
    [authorize_event_against_auth_events] implements exactly it.

    [permitted] has one constructor per way a membership may change; the
    invariants below are proved on it by cases and transferred to the code by
    the refinement theorem. *)
From S2P Require Import Prelude CppStd JsonValue JsonSerializer RoomVersion Signing EventAuth EventAuthBase EventAuthSafety.
Open Scope Z_scope.

Section Machine.
Context `{Libc} `{Sodium}.
Context (event : Value) (obj : Object) (sender target : string).
Context (policy : RoomVersionPolicy) (am : AuthEventMap).

Definition power_of (user : string) : Z := effective_sender_power (power_levels am) user (create am) policy.
Definition joined (m : MembershipState) : Prop := m = ms_join.
Definition restricted_rule : Prop :=
  current_join_rule am = "restricted" /\ restricted_join_rule policy = true
  \/ current_join_rule am = "knock_restricted" /\ knock_restricted_join_rule policy = true.
Definition knock_rule : Prop := current_join_rule am = "knock" /\ knock_join_rule policy = true.

(** A joined user with invite power, whose server signed the event, vouches for
    the join. *)
Definition vouched : Prop :=
  exists user member_obj,
    event_content_string event "join_authorised_via_users_server" = Some user
    /\ user <> EmptyString
    /\ event_has_signature_from_server event (domain_of user) = true
    /\ authorising_user_member am = VObject member_obj
    /\ string_member member_obj "state_key" = Some user
    /\ parse_membership_state (extract_content_membership (authorising_user_member am)) = Some ms_join
    /\ level_or_default am policy "invite" 0 <= power_of user.

(** The invite redeems a third-party invite token of the room. *)
Definition redeems_third_party_invite (content : Value) : Prop :=
  exists tpi_obj signed_obj tpi_event token,
    content = VObject tpi_obj /\ object_member_as_object tpi_obj "signed" = Some signed_obj
    /\ string_member signed_obj "mxid" = Some target /\ string_member signed_obj "token" = Some token
    /\ third_party_invite am = VObject tpi_event
    /\ string_member tpi_event "state_key" = Some token /\ string_member tpi_event "sender" = Some sender
    /\ third_party_invite_signature_is_valid signed_obj (third_party_invite am) = true.

Definition third_party_invite_content : option Value :=
  object_member_as_object obj "content" ≫= (fun c => object_member c "third_party_invite").

(** [permitted current requested]: the target's membership may go from
    [current] to [requested]. *)
Inductive permitted : MembershipState -> MembershipState -> Prop :=
| permitted_bootstrap current :
    creator_bootstrap event target policy am = true -> permitted current ms_join
| permitted_join_public current :
    sender = target -> current <> ms_ban -> current_join_rule am = "public" -> permitted current ms_join
| permitted_join_invited current :
    sender = target -> current = ms_invite \/ current = ms_join ->
    current_join_rule am = "invite" \/ knock_rule \/ restricted_rule -> permitted current ms_join
| permitted_join_restricted current :
    sender = target -> current <> ms_ban -> restricted_rule -> vouched -> permitted current ms_join
| permitted_knock current :
    sender = target -> knock_join_rule policy = true ->
    current <> ms_ban -> current <> ms_join -> current <> ms_invite ->
    current_join_rule am = "knock"
    \/ current_join_rule am = "knock_restricted" /\ knock_restricted_join_rule policy = true ->
    permitted current ms_knock
| permitted_invite current :
    third_party_invite_content = None -> current <> ms_join -> current <> ms_ban ->
    joined (sender_current_membership am) ->
    level_or_default am policy "invite" 0 <= power_of sender -> permitted current ms_invite
| permitted_third_party_invite current content :
    third_party_invite_content = Some content -> current <> ms_ban ->
    redeems_third_party_invite content -> permitted current ms_invite
| permitted_self_leave current :
    sender = target -> current = ms_invite \/ current = ms_join \/ current = ms_knock ->
    permitted current ms_leave
| permitted_kick current :
    sender <> target -> joined (sender_current_membership am) ->
    level_or_default am policy "kick" 50 <= power_of sender -> power_of target < power_of sender ->
    (current = ms_ban -> level_or_default am policy "ban" 50 <= power_of sender) ->
    permitted current ms_leave
| permitted_ban current :
    joined (sender_current_membership am) ->
    level_or_default am policy "ban" 50 <= power_of sender -> power_of target < power_of sender ->
    permitted current ms_ban.

(** * Each branch implements the constructors of its membership *)

#[local] Arguments membership_at_least_one_of : simpl never.

Lemma membership_in current l : membership_at_least_one_of current l = true <-> current ∈ l.
Proof.
  unfold membership_at_least_one_of. rewrite existsb_exists. split.
  - intros (x & Hx & Heq). areflect. subst. by apply list_elem_of_In.
  - intros Hx. exists current. split; [by apply list_elem_of_In|]. by apply ms_eqb_true.
Qed.

Lemma restricted_join_sound current :
  allowed (authorize_restricted_join event current policy am) = true <->
  current = ms_invite \/ current = ms_join \/ vouched.
Proof.
  unfold authorize_restricted_join, vouched.
  destruct (membership_at_least_one_of current _) eqn:Em.
  { apply membership_in in Em. split; [|done]. set_solver. }
  assert (current <> ms_invite /\ current <> ms_join) as [Hi Hj].
  { apply not_true_iff_false in Em. rewrite membership_in in Em. set_solver. }
  split.
  - intros Ha. right. right. allowed_cases Ha. areflect. subst.
    match goal with H : value_is_object _ = Some ?o |- _ => exists s, o end.
    destruct (authorising_user_member am) eqn:Eam; simplify_eq. simpl in *. simplify_eq.
    repeat split; try done.
  - intros [?|[?|(u & o & Hu & Hne & Hs & Ho & Hk & Hm & Hp)]]; [done..|].
    rewrite Hu. apply empty_false in Hne. rewrite Hne, Hs. simpl. rewrite Ho. simpl.
    rewrite Hk, String.eqb_refl. simpl. rewrite Ho in Hm.
    rewrite bool_decide_eq_true_2 by done. simpl.
    unfold power_of in Hp. apply Z.ltb_ge in Hp. by rewrite Hp.
Qed.
Lemma restricted_ruleb :
  ((current_join_rule am =s "restricted") && restricted_join_rule policy)
  || ((current_join_rule am =s "knock_restricted") && knock_restricted_join_rule policy) = true
  <-> restricted_rule.
Proof. unfold restricted_rule. by rewrite orb_true_iff, !andb_true_iff, !string_eqb_true. Qed.

Lemma join_sound current :
  sender = target -> creator_bootstrap event target policy am = false ->
  allowed (authorize_join event current policy am) = true <-> permitted current ms_join.
Proof.
  intros Hst Hb. split.
  - unfold authorize_join. intros Ha. destruct (ms_eqb current ms_ban) eqn:Eb; [done|]. areflect.
    destruct (current_join_rule am =s "public") eqn:Ep; [by apply permitted_join_public; areflect|].
    destruct (current_join_rule am =s "invite") eqn:Ei.
    { destruct (membership_at_least_one_of _ _) eqn:Em; [|done]. apply membership_in in Em.
      apply permitted_join_invited; [done|set_solver|areflect; auto]. }
    destruct ((current_join_rule am =s "knock") && knock_join_rule policy) eqn:Ek.
    { destruct (membership_at_least_one_of _ _) eqn:Em; [|done]. apply membership_in in Em.
      areflect. apply permitted_join_invited; [done|set_solver|right; left; by split]. }
    destruct (_ || _) eqn:Er; [|done]. apply restricted_ruleb in Er.
    apply restricted_join_sound in Ha as [?|[?|?]].
    + apply permitted_join_invited; auto.
    + apply permitted_join_invited; auto.
    + by apply permitted_join_restricted.
  - unfold authorize_join. intros Hp.
    inversion Hp as [|? _ Hc Hr|? _ Hc Hr|? _ Hc Hr Hv| | | | | |]; subst; [congruence|..].
    + apply ms_eqb_false in Hc. by rewrite Hc, Hr.
    + assert (ms_eqb current ms_ban = false) as -> by (apply ms_eqb_false; naive_solver).
      assert (membership_at_least_one_of current [ms_invite; ms_join] = true) as Hm
        by (apply membership_in; set_solver).
      rewrite Hm. destruct (_ =s "public"); [done|]. destruct (_ =s "invite") eqn:Ei; [done|].
      destruct ((_ =s "knock") && _) eqn:Ek; [done|].
      destruct (_ || _) eqn:Er; [by apply restricted_join_sound; naive_solver|exfalso].
      apply not_true_iff_false in Er. rewrite restricted_ruleb in Er. breflect.
      destruct Hr as [Hr|[[Hr1 Hr2]|Hr]]; [done| |done]. rewrite Hr1, Hr2 in Ek. done.
    + apply ms_eqb_false in Hc. rewrite Hc.
      pose proof (proj2 restricted_ruleb Hr) as Hr'. rewrite Hr'.
      destruct Hr as [[-> _]|[-> _]]; simpl; apply restricted_join_sound; auto.
Qed.

Lemma knock_sound current :
  allowed (authorize_knock (sender =s target) current policy am) = true <-> permitted current ms_knock.
Proof.
  unfold authorize_knock. split.
  - intros Ha. destruct (knock_join_rule policy) eqn:Ek; [|done].
    destruct (sender =s target) eqn:Es; [|done]. simpl in Ha.
    destruct (ms_eqb current ms_ban) eqn:Eb; [done|].
    destruct (membership_at_least_one_of _ _) eqn:Em; [done|].
    apply not_true_iff_false in Em. rewrite membership_in in Em.
    destruct (_ || _) eqn:Er; [|done]. apply orb_true_iff in Er. areflect.
    apply permitted_knock; [done|done|done|set_solver|set_solver|].
    destruct Er; breflect; auto.
  - intros Hp. inversion Hp as [| | | |? Hs Hk Hb Hj Hi Hr| | | | |]; subst.
    rewrite Hk, Hs, String.eqb_refl. apply ms_eqb_false in Hb. rewrite Hb. simpl.
    destruct (membership_at_least_one_of _ _) eqn:Em; [apply membership_in in Em; set_solver|].
    destruct Hr as [->|[-> ->]]; done.
Qed.

Lemma third_party_sound current content :
  third_party_invite_content = Some content ->
  allowed (authorize_third_party_invite content target sender current (third_party_invite am)) = true
  <-> current <> ms_ban /\ redeems_third_party_invite content.
Proof.
  intros Hc. unfold authorize_third_party_invite, redeems_third_party_invite. split.
  - intros Ha. allowed_cases Ha. areflect. subst.
    destruct content as [| | | | | |tpi|]; simplify_eq.
    destruct (third_party_invite am) as [| | | | | |te|] eqn:Et; simplify_eq.
    split; [done|]. simpl in *. simplify_eq. naive_solver.
  - intros [Hb (tpi & sg & te & tok & -> & Hs & Hm & Ht & Hte & Hk & Hsd & Hv)].
    apply ms_eqb_false in Hb. rewrite Hb. simpl. rewrite Hs. rewrite Hm, Ht, String.eqb_refl. simpl.
    rewrite Hte. simpl. rewrite Hk, String.eqb_refl, Hsd, String.eqb_refl. simpl.
    rewrite Hte in Hv. by rewrite Hv.
Qed.

Lemma invite_sound current :
  allowed (authorize_invite obj target sender (sender_current_membership am) current policy am) = true
  <-> permitted current ms_invite.
Proof.
  unfold authorize_invite. fold third_party_invite_content.
  destruct third_party_invite_content as [content|] eqn:Hc.
  { rewrite third_party_sound by done. split.
    - intros [? ?]. by eapply permitted_third_party_invite.
    - inversion 1; naive_solver congruence. }
  split.
  - intros Ha. allowed_cases Ha. areflect. by apply permitted_invite.
  - inversion 1 as [| | | | |? _ Hj Hb Hsj Hp| | | |]; subst; [|congruence].
    apply ms_eqb_false in Hj, Hb. rewrite Hj, Hb. apply ms_eqb_true in Hsj. rewrite Hsj. simpl.
    unfold power_of in Hp. apply Z.ltb_ge in Hp. by rewrite Hp.
Qed.

Lemma leave_sound current :
  allowed (authorize_leave (sender =s target) target sender (sender_current_membership am) current policy am)
  = true <-> permitted current ms_leave.
Proof.
  unfold authorize_leave. destruct (sender =s target) eqn:Es; breflect.
  - destruct (membership_at_least_one_of _ _) eqn:Em.
    + apply membership_in in Em. split; [|done]. intros _. apply permitted_self_leave; [done|set_solver].
    + split; [done|]. apply not_true_iff_false in Em. rewrite membership_in in Em.
      inversion 1; subst; [|done]. set_solver.
  - split.
    + intros Ha. allowed_cases Ha. areflect. apply permitted_kick; try done.
      intros ->. apply andb_false_iff in E0 as [?|?]; areflect; done.
    + inversion 1 as [| | | | | | | |? _ Hj Hk Ht Hb|]; subst; [done|].
      apply ms_eqb_true in Hj. rewrite Hj. simpl. unfold power_of in *.
      apply Z.leb_le in Hk. apply Z.ltb_lt in Ht. rewrite Hk, Ht. simpl.
      destruct (ms_eqb current ms_ban) eqn:Eb; simpl; [|done]. areflect.
      apply Hb, Z.ltb_ge in Eb. by rewrite Eb.
Qed.

Lemma ban_sound current :
  allowed (authorize_ban target sender (sender_current_membership am) policy am) = true
  <-> permitted current ms_ban.
Proof.
  unfold authorize_ban. split.
  - intros Ha. allowed_cases Ha. areflect. by apply permitted_ban.
  - inversion 1 as [| | | | | | | | |? Hj Hb Ht]; subst.
    apply ms_eqb_true in Hj. rewrite Hj. simpl. unfold power_of in *.
    apply Z.leb_le in Hb. apply Z.ltb_lt in Ht. by rewrite Hb, Ht.
Qed.

Lemma authorize_member_sound :
  string_member obj "state_key" = Some target -> target <> EmptyString ->
  allowed (authorize_member event obj sender policy am) = true <->
  exists requested, parse_membership_state (extract_content_membership event) = Some requested
  /\ permitted (target_current_membership (sender =s target) am) requested.
Proof.
  intros Hk Hne. unfold authorize_member. rewrite Hk. apply empty_false in Hne. rewrite Hne.
  destruct (parse_membership_state _) as [r|] eqn:Hr; [|naive_solver].
  set (current := target_current_membership (sender =s target) am).
  assert ((exists requested, Some r = Some requested /\ permitted current requested) <-> permitted current r)
    as -> by naive_solver.
  destruct (ms_eqb r ms_join && creator_bootstrap event target policy am) eqn:Eb.
  { areflect. subst. split; [|done]. intros _. by apply permitted_bootstrap. }
  destruct r; simpl in Eb.
  - apply leave_sound.
  - apply invite_sound.
  - destruct (sender =s target) eqn:Es; breflect; simpl; [by apply join_sound|].
    split; [done|]. inversion 1; naive_solver congruence.
  - apply ban_sound.
  - apply knock_sound.
  - split; [done|]. inversion 1.
Qed.
End Machine.

Section MachineTheorems.
Context `{Libc} `{Sodium}.

(** C2. The membership rules implement the abstract state machine: a
    m.room.member event for a user is accepted exactly when the checks common to
    all events pass (the room exists and its federation flag admits the sender)
    and the machine permits the step from the target's current membership to the
    one the event requests. *)
Theorem membership_rules_refine_machine event obj sender target policy am :
  is_event event obj "m.room.member" sender -> string_member obj "state_key" = Some target ->
  target <> EmptyString ->
  authorized event policy am <->
  past_federation "m.room.member" sender am
  /\ exists requested, parse_membership_state (extract_content_membership event) = Some requested
     /\ permitted event obj sender target policy am
          (target_current_membership (sender =s target) am) requested.
Proof.
  intros Hev Hk Hne. rewrite (authorized_member _ _ _ _ _ Hev).
  by rewrite (authorize_member_sound event obj sender target policy am Hk Hne).
Qed.

Lemma authorized_member_permitted event obj sender target policy am :
  is_event event obj "m.room.member" sender -> string_member obj "state_key" = Some target ->
  authorized event policy am ->
  exists requested, parse_membership_state (extract_content_membership event) = Some requested
  /\ permitted event obj sender target policy am
       (target_current_membership (sender =s target) am) requested.
Proof.
  intros Hev Hk Ha. apply (authorized_member _ _ _ _ _ Hev) in Ha as [_ Ha].
  assert (target <> EmptyString) as Hne.
  { intros ->. unfold authorize_member in Ha. by rewrite Hk in Ha. }
  by apply authorize_member_sound.
Qed.

(** A banned user stays out: while the target is banned, the only membership
    events a room accepts about them (the creator's bootstrap join apart) are
    another ban, or a leave sent by somebody else who is joined, holds both the
    ban and the kick level, and outranks them. *)
Lemma banned_users_stay_out event obj sender target policy am :
  is_event event obj "m.room.member" sender -> string_member obj "state_key" = Some target ->
  authorized event policy am ->
  target_current_membership (sender =s target) am = ms_ban ->
  creator_bootstrap event target policy am = false ->
  let requested := parse_membership_state (extract_content_membership event) in
  requested = Some ms_ban
  \/ requested = Some ms_leave /\ sender <> target /\ sender_current_membership am = ms_join
     /\ level_or_default am policy "ban" 50 <= power_of policy am sender
     /\ level_or_default am policy "kick" 50 <= power_of policy am sender
     /\ power_of policy am target < power_of policy am sender.
Proof.
  intros Hev Hk Ha Hban Hboot. cbv zeta.
  destruct (authorized_member_permitted _ _ _ _ _ _ Hev Hk Ha) as (r & -> & Hp).
  rewrite Hban in Hp. inversion Hp; subst; try congruence; naive_solver.
Qed.

(** Nobody is made to join: an accepted join is the sender's own, the
    creator's bootstrap join right after the create event apart, and an
    accepted knock is always the sender's own. *)
Lemma joins_are_voluntary event obj sender target policy am requested :
  is_event event obj "m.room.member" sender -> string_member obj "state_key" = Some target ->
  authorized event policy am ->
  parse_membership_state (extract_content_membership event) = Some requested ->
  requested = ms_join \/ requested = ms_knock ->
  sender = target \/ requested = ms_join /\ creator_bootstrap event target policy am = true.
Proof.
  intros Hev Hk Ha Hr Hcase.
  destruct (authorized_member_permitted _ _ _ _ _ _ Hev Hk Ha) as (r & Hr' & Hp).
  rewrite Hr in Hr'. simplify_eq. inversion Hp; subst; naive_solver.
Qed.

(** Removing somebody else takes rank: whoever kicks, unbans or bans another
    user is joined, holds at least the required level and strictly outranks the
    target. *)
Lemma removals_require_rank event obj sender target policy am requested :
  is_event event obj "m.room.member" sender -> string_member obj "state_key" = Some target ->
  authorized event policy am -> sender <> target ->
  parse_membership_state (extract_content_membership event) = Some requested ->
  requested = ms_leave \/ requested = ms_ban ->
  sender_current_membership am = ms_join
  /\ power_of policy am target < power_of policy am sender
  /\ level_or_default am policy (if ms_eqb requested ms_ban then "ban" else "kick") 50
     <= power_of policy am sender.
Proof.
  intros Hev Hk Ha Hne Hr Hcase.
  destruct (authorized_member_permitted _ _ _ _ _ _ Hev Hk Ha) as (r & Hr' & Hp).
  rewrite Hr in Hr'. simplify_eq. inversion Hp; subst; naive_solver.
Qed.

(** Changing a membership takes standing. A banned user is let out only by
    somebody else who is joined, has the ban and the kick level and outranks
    them; kicking or banning somebody else takes being joined, the required
    level and a strictly higher power; nobody is joined or knocks on behalf of
    another (the room's own bootstrap join apart); and where creators hold
    infinite power, nobody removes a creator. *)
Theorem membership_changes_need_standing event obj sender target policy am requested :
  is_event event obj "m.room.member" sender -> string_member obj "state_key" = Some target ->
  authorized event policy am ->
  parse_membership_state (extract_content_membership event) = Some requested ->
  (target_current_membership (sender =s target) am = ms_ban ->
     creator_bootstrap event target policy am = false ->
     requested = ms_ban
     \/ requested = ms_leave /\ sender <> target /\ sender_current_membership am = ms_join
        /\ level_or_default am policy "ban" 50 <= power_of policy am sender
        /\ level_or_default am policy "kick" 50 <= power_of policy am sender
        /\ power_of policy am target < power_of policy am sender)
  /\ (requested = ms_leave \/ requested = ms_ban -> sender <> target ->
        sender_current_membership am = ms_join
        /\ power_of policy am target < power_of policy am sender
        /\ level_or_default am policy (if ms_eqb requested ms_ban then "ban" else "kick") 50
           <= power_of policy am sender)
  /\ (requested = ms_join \/ requested = ms_knock ->
        sender = target \/ requested = ms_join /\ creator_bootstrap event target policy am = true)
  /\ (user_is_room_creator (create am) target policy = true -> int64_ok (power_levels am) = true ->
        requested <> ms_ban /\ (requested = ms_leave -> target = sender)).
Proof.
  intros Hev Hk Ha Hr. split; [|split; [|split]].
  - intros Hban Hb. pose proof (banned_users_stay_out _ _ _ _ _ _ Hev Hk Ha Hban Hb) as Hs.
    simpl in Hs. rewrite Hr in Hs. naive_solver.
  - intros Hcase Hne. by apply (removals_require_rank event obj sender target policy am requested).
  - by apply (joins_are_voluntary event obj).
  - intros Hc Hi.
    pose proof (creators_cannot_be_removed event obj sender target policy am requested Hev Hk Hr Hc Hi) as Hno.
    split; [naive_solver|]. intros Hl. destruct (decide (target = sender)); naive_solver.
Qed.
End MachineTheorems.
