(* ===== verification/EventShape.v ===== *)
(** The shape of an event: matrix_id_is_valid, event_type_is_valid,
    state_key_contains_nul, parse_event_signatures and parse_event_envelope of
    event.cpp, with EventEnvelope.hpp, EventSignature.hpp and the size limits of
    limits.hpp. *)
From S2P Require Import Prelude CppStd JsonValue.
Open Scope Z_scope.

(** * Limits *)

Definition max_signatures_per_server : nat := 100.
Definition max_servers_with_signatures : nat := 50.
Definition max_signatures_per_event : nat := 5000.
Definition max_id_length_bytes : nat := 255.
Definition max_state_key_length_bytes : nat := 255.

(** * Data *)

Record EventSignature : Type := {
  sig_server_name : string;
  sig_key_id : string;
  sig_signature : string
}.

Record EventEnvelope : Type := {
  env_json : Value;
  env_room_id : string;
  env_event_type : string;
  env_sender : string;
  env_state_key : string;
  env_origin_server_ts : Z;
  env_signatures : list EventSignature
}.

(** [EventParseResult]: an event, or the reason it was refused. *)
Inductive EventParseResult : Type :=
| EnvelopeParsed (event : EventEnvelope)
| EnvelopeRejected (error : string).

(** * Identifiers *)

Definition contains_no_control_or_space (value : string) : bool :=
  all_char (fun c => negb ((byte_of c <=? 0x20) || (byte_of c =? 0x7F))) value.

Definition matrix_id_is_valid (id : string) (sigil : ascii) : bool :=
  let requires_colon := negb (Ascii.eqb sigil "!") in
  (3 <=? String.length id)%nat && (String.length id <=? max_id_length_bytes)%nat && starts_with sigil id
  && (negb requires_colon || match find_char ":" id with Some _ => true | None => false end)
  && contains_no_control_or_space id.

Definition event_type_is_valid (type : string) : bool :=
  negb (empty type) && (String.length type <=? 255)%nat && contains_no_control_or_space type.

Definition state_key_contains_nul (state_key : string) : bool :=
  match find_char (chr 0) state_key with Some _ => true | None => false end.

Definition integer_member (object : Object) (key : string) : option Z :=
  object_member object key ≫= as_int.

(** * Signatures *)

(** The loop over the keys of one server: a value that is not a string is
    skipped, and more than the limit of signatures fails. *)
Fixpoint parse_key_signatures (server : string) (keys : Object) (parsed : list EventSignature)
    : option (list EventSignature) :=
  match keys with
  | [] => Some parsed
  | (key, value) :: rest =>
      match as_string value with
      | None => parse_key_signatures server rest parsed
      | Some signature =>
          let parsed := parsed ++ [{| sig_server_name := server; sig_key_id := key; sig_signature := signature |}] in
          if (max_signatures_per_event <? length parsed)%nat then None
          else parse_key_signatures server rest parsed
      end
  end.

Fixpoint parse_server_signatures (servers : Object) (parsed : list EventSignature)
    : option (list EventSignature) :=
  match servers with
  | [] => Some parsed
  | (server, value) :: rest =>
      match value_is_object value with
      | None => parse_server_signatures rest parsed
      | Some server_signatures =>
          if (max_signatures_per_server <? length server_signatures)%nat then None
          else
            match parse_key_signatures server server_signatures parsed with
            | None => None
            | Some parsed => parse_server_signatures rest parsed
            end
      end
  end.

Definition parse_event_signatures (object : Object) : option (list EventSignature) :=
  match object_member_as_object object "signatures" with
  | None => Some []
  | Some signatures =>
      if (max_servers_with_signatures <? length signatures)%nat then None
      else parse_server_signatures signatures []
  end.

(** * The envelope *)

Definition parse_event_envelope (json : Value) : EventParseResult :=
  match value_is_object json with
  | None => EnvelopeRejected "event must be an object"
  | Some object =>
      match string_member object "type", string_member object "sender",
            integer_member object "origin_server_ts" with
      | Some type, Some sender, Some origin_server_ts =>
          let room_id := string_member object "room_id" in
          if negb (type =s "m.room.create") && match room_id with None => true | Some _ => false end
          then EnvelopeRejected "event missing required fields"
          else if match room_id with Some id => negb (matrix_id_is_valid id "!") | None => false end
          then EnvelopeRejected "invalid room_id"
          else if negb (matrix_id_is_valid sender "@") then EnvelopeRejected "invalid sender"
          else if negb (event_type_is_valid type) then EnvelopeRejected "invalid event type"
          else if origin_server_ts <? 0 then EnvelopeRejected "invalid origin_server_ts"
          else
            match parse_event_signatures object with
            | None => EnvelopeRejected "event signatures exceed resource limits"
            | Some signatures =>
                let envelope state_key := EnvelopeParsed {|
                  env_json := json; env_room_id := default EmptyString room_id; env_event_type := type;
                  env_sender := sender; env_state_key := state_key;
                  env_origin_server_ts := origin_server_ts; env_signatures := signatures |} in
                match string_member object "state_key" with
                | None => envelope EmptyString
                | Some state_key =>
                    if state_key_contains_nul state_key then EnvelopeRejected "state_key contains NUL"
                    else if (max_state_key_length_bytes <? String.length state_key)%nat
                    then EnvelopeRejected "state_key exceeds 255 bytes"
                    else envelope state_key
                end
            end
      | _, _, _ => EnvelopeRejected "event missing required fields"
      end
  end.

(** * Lemmas *)

Lemma all_char_spec p s : all_char p s = true <-> forall c, c ∈ String.list_ascii_of_string s -> p c = true.
Proof.
  unfold all_char. rewrite negb_true_iff. induction s as [|d s IH]; simpl; [set_solver|].
  rewrite orb_false_iff, IH, negb_false_iff. split.
  - intros [Hd Hs] c [->|Hc]%elem_of_cons; auto.
  - intros Hall. split; [apply Hall; left|]. intros c Hc. apply Hall. by right.
Qed.

(** A signature is the string entry of a server object in [signatures]. *)
Definition signature_in (servers : Object) (x : EventSignature) : Prop :=
  exists keys, (sig_server_name x, VObject keys) ∈ servers /\ (sig_key_id x, VString (sig_signature x)) ∈ keys.

Lemma parse_key_signatures_spec server keys parsed out :
  parse_key_signatures server keys parsed = Some out -> (length parsed <= max_signatures_per_event)%nat ->
  (length out <= max_signatures_per_event)%nat
  /\ forall x, x ∈ out <-> x ∈ parsed \/
       (sig_server_name x = server /\ (sig_key_id x, VString (sig_signature x)) ∈ keys).
Proof.
  revert parsed. induction keys as [|[key value] keys IH]; simpl; intros parsed Hp Hl.
  { simplify_eq. set_solver. }
  destruct (as_string value) as [s|] eqn:Es.
  - destruct value; simplify_eq/=. split_hyp Hp; [done|]. apply Nat.ltb_ge in E.
    destruct (IH _ Hp ltac:(lia)) as [Hlen Hin]. split; [done|]. intros x. rewrite Hin.
    rewrite elem_of_app, list_elem_of_singleton, elem_of_cons. split.
    + intros [[?| ->]|[? ?]]; [by left|right; split; [done|by left]|right; split; [done|by right]].
    + intros [?|[<- [[= <- <-]|?]]]; [by left; left|left; right; by destruct x|by right].
  - destruct (IH _ Hp Hl) as [Hlen Hin]. split; [done|]. intros x. rewrite Hin.
    split; intros [?|[? Hk]]; try (by left); right; split; try done; [by right|].
    apply elem_of_cons in Hk as [[= <- <-]|?]; done.
Qed.

Lemma parse_server_signatures_spec servers parsed out :
  parse_server_signatures servers parsed = Some out -> (length parsed <= max_signatures_per_event)%nat ->
  (length out <= max_signatures_per_event)%nat
  /\ forall x, x ∈ out <-> x ∈ parsed \/ signature_in servers x.
Proof.
  unfold signature_in. revert parsed. induction servers as [|[server value] servers IH]; simpl; intros parsed Hp Hl.
  { simplify_eq. set_solver. }
  destruct (value_is_object value) as [keys|] eqn:Ev.
  - destruct value; simplify_eq/=. split_hyp Hp; [done|].
    destruct (parse_key_signatures server keys parsed) as [mid|] eqn:Ek; [|done].
    destruct (parse_key_signatures_spec _ _ _ _ Ek Hl) as [Hlen Hin].
    destruct (IH _ Hp Hlen) as [Hlen' Hin']. split; [done|]. intros x. rewrite Hin', Hin. split.
    + intros [[?|[Hs Hk]]|(ks & Hs & Hk)]; [by left| |right; exists ks; split; [by right|done]].
      right. exists keys. rewrite Hs. split; [by left|done].
    + intros [?|(ks & Hs & Hk)]; [by left; left|]. apply elem_of_cons in Hs as [[= Hs ->]|Hs].
      * left. by right.
      * right. by exists ks.
  - destruct (IH _ Hp Hl) as [Hlen Hin]. split; [done|]. intros x. rewrite Hin.
    split; (intros [?|(ks & Hs & Hk)]; [by left|right]).
    + exists ks. split; [by right|done].
    + apply elem_of_cons in Hs as [[= Hs <-]|Hs]; [done|]. by exists ks.
Qed.

Lemma parse_event_signatures_spec o out : parse_event_signatures o = Some out ->
  (length out <= max_signatures_per_event)%nat
  /\ forall x, x ∈ out <-> exists servers, object_member o "signatures" = Some (VObject servers) /\ signature_in servers x.
Proof.
  unfold parse_event_signatures. destruct (object_member_as_object o "signatures") as [servers|] eqn:E.
  - intros Hp. split_hyp Hp; [done|]. destruct (parse_server_signatures_spec _ _ _ Hp) as [Hlen Hin]; [simpl; lia|].
    apply object_member_as_object_Some in E. split; [done|]. intros x. rewrite Hin. split.
    + intros [?|?]; [set_solver|]. by exists servers.
    + intros (? & Hs & ?). rewrite E in Hs. simplify_eq. by right.
  - intros [= <-]. split; [simpl; lia|]. intros x. split; [set_solver|].
    intros (servers & Hs & _). apply object_member_as_object_Some in Hs. congruence.
Qed.

(** An identifier free of white space and control bytes, of bounded length. *)
Definition printable_id (s : string) : Prop :=
  (0 < String.length s <= 255)%nat
  /\ forall c, c ∈ String.list_ascii_of_string s -> 0x20 < byte_of c /\ byte_of c <> 0x7F.

Lemma no_control_or_space_spec s : contains_no_control_or_space s = true <->
  forall c, c ∈ String.list_ascii_of_string s -> 0x20 < byte_of c /\ byte_of c <> 0x7F.
Proof.
  unfold contains_no_control_or_space. rewrite all_char_spec.
  split; intros Hall c Hc; specialize (Hall c Hc); breflect; [lia|].
  rewrite negb_true_iff, orb_false_iff, Z.leb_gt, Z.eqb_neq. lia.
Qed.

Lemma matrix_id_printable id sigil : matrix_id_is_valid id sigil = true -> printable_id id /\ front id = Some sigil.
Proof.
  unfold matrix_id_is_valid, printable_id, starts_with, max_id_length_bytes. intros H. breflect.
  rewrite no_control_or_space_spec in H0. rewrite Nat.leb_le in *.
  split; [split; [lia|done]|]. destruct (front id); [|done]. f_equal. by apply Ascii.eqb_eq.
Qed.

Lemma event_type_printable t : event_type_is_valid t = true -> printable_id t.
Proof.
  unfold event_type_is_valid, printable_id. intros H. breflect. rewrite no_control_or_space_spec in H0.
  rewrite Nat.leb_le in *. split; [|done]. destruct t; simpl in *; [done|lia].
Qed.

Lemma integer_member_Some o k z : integer_member o k = Some z <-> object_member o k = Some (VInt z).
Proof. unfold integer_member. destruct (object_member o k) as [[]|]; simpl; split; congruence. Qed.

(** * Properties *)

(** An accepted event is what its JSON says and within every limit. *)
Lemma envelope_facts json env : parse_event_envelope json = EnvelopeParsed env ->
  exists o, json = VObject o /\ env_json env = json
  /\ object_member o "type" = Some (VString (env_event_type env)) /\ printable_id (env_event_type env)
  /\ object_member o "sender" = Some (VString (env_sender env)) /\ printable_id (env_sender env)
  /\ front (env_sender env) = Some "@"%char
  /\ object_member o "origin_server_ts" = Some (VInt (env_origin_server_ts env)) /\ 0 <= env_origin_server_ts env
  /\ (string_member o "room_id" = None /\ env_event_type env = "m.room.create" /\ env_room_id env = EmptyString
      \/ object_member o "room_id" = Some (VString (env_room_id env)) /\ printable_id (env_room_id env)
         /\ front (env_room_id env) = Some "!"%char)
  /\ env_state_key env = default EmptyString (string_member o "state_key")
  /\ (String.length (env_state_key env) <= 255)%nat /\ find_char (chr 0) (env_state_key env) = None
  /\ (length (env_signatures env) <= 5000)%nat
  /\ forall x, x ∈ env_signatures env <->
       exists servers, object_member o "signatures" = Some (VObject servers) /\ signature_in servers x.
Proof.
  unfold parse_event_envelope. destruct (value_is_object json) as [o|] eqn:Eo; [intros Hp|done].
  destruct json; simplify_eq/=. exists o. split; [done|].
  destruct (string_member o "type") as [type|] eqn:Et; [|done].
  destruct (string_member o "sender") as [sender|] eqn:Es; [|done].
  destruct (integer_member o "origin_server_ts") as [ts|] eqn:Ets; [|done].
  apply string_member_Some in Et, Es. apply integer_member_Some in Ets.
  match type of Hp with (if ?a then _ else if ?b then _ else _) = _ =>
    destruct a eqn:Eroom; [done|]; destruct b eqn:Eid; [done|] end.
  destruct (matrix_id_is_valid sender "@") eqn:Esv; [|done]. simpl in Hp.
  destruct (event_type_is_valid type) eqn:Etv; [|done]. simpl in Hp.
  destruct (ts <? 0) eqn:Etsv; [done|]. destruct (parse_event_signatures o) as [sigs|] eqn:Esig; [|done].
  apply matrix_id_printable in Esv as [??]. apply event_type_printable in Etv.
  apply parse_event_signatures_spec in Esig as [??]. breflect.
  assert (exists k, env = {| env_json := VObject o; env_room_id := default EmptyString (string_member o "room_id");
    env_event_type := type; env_sender := sender; env_state_key := k; env_origin_server_ts := ts;
    env_signatures := sigs |} /\ k = default EmptyString (string_member o "state_key")
    /\ (String.length k <= 255)%nat /\ find_char (chr 0) k = None) as (k & -> & Hk & Hl & Hn).
  { destruct (string_member o "state_key") as [k|] eqn:Ek;
      [|simplify_eq; exists EmptyString; repeat split; simpl; lia].
    unfold state_key_contains_nul in Hp. destruct (find_char (chr 0) k) eqn:En; [done|].
    destruct (_ <? _)%nat eqn:El in Hp; [done|]. apply Nat.ltb_ge in El. simplify_eq. by exists k. }
  simpl. do 8 (split; [done|]). split; [|done].
  destruct (string_member o "room_id") as [rid|] eqn:Er; simpl in *.
  - right. apply string_member_Some in Er. rewrite negb_false_iff in Eid.
    apply matrix_id_printable in Eid as [??]. done.
  - left. rewrite andb_true_r in Eroom. breflect. done.
Qed.
