(* ===== verification/Redaction.v ===== *)
(** Redaction: redact_event of redaction.cpp, and which redactions apply:
    redaction_target, sender_meets_redact_level and judge_redaction of
    redaction_validity.cpp, with RedactionContext.hpp and RedactionVerdict.hpp. *)
From S2P Require Import Prelude CppStd JsonValue JsonSerializer RoomVersion Signing EventAuth.
Open Scope Z_scope.

(** * What redaction keeps *)

Definition base_key_is_allowed (key : string) : bool :=
  (key =s "event_id") || (key =s "type") || (key =s "room_id") || (key =s "sender") || (key =s "state_key")
  || (key =s "content") || (key =s "hashes") || (key =s "signatures") || (key =s "depth") || (key =s "prev_events")
  || (key =s "auth_events") || (key =s "origin_server_ts").

Definition key_is_allowed (key : string) (policy : RoomVersionPolicy) : bool :=
  if bool_decide (redaction_rules policy = room_v1_v7) || bool_decide (redaction_rules policy = room_v8_v10)
  then base_key_is_allowed key || (key =s "origin") || (key =s "prev_state") || (key =s "membership")
  else base_key_is_allowed key.

Definition content_key_allowed (event_type key : string) (policy : RoomVersionPolicy) : bool :=
  let v11_plus := bool_decide (redaction_rules policy = room_v11_plus) in
  if event_type =s "m.room.member" then
    (key =s "membership")
    || (redaction_keeps_join_authorisation policy && (key =s "join_authorised_via_users_server"))
    || (v11_plus && (key =s "third_party_invite"))
  else if event_type =s "m.room.create" then v11_plus || (key =s "creator")
  else if event_type =s "m.room.join_rules" then
    let allow_preserved := bool_decide (redaction_rules policy = room_v8_v10) || v11_plus in
    (key =s "join_rule") || (allow_preserved && (key =s "allow"))
  else if event_type =s "m.room.power_levels" then
    (key =s "ban") || (key =s "events") || (key =s "events_default") || (key =s "kick") || (key =s "redact")
    || (key =s "state_default") || (key =s "users") || (key =s "users_default")
    || (v11_plus && (key =s "invite"))
  else if event_type =s "m.room.history_visibility" then key =s "history_visibility"
  else if event_type =s "m.room.aliases" then redaction_keeps_aliases policy && (key =s "aliases")
  else if event_type =s "m.room.redaction" then v11_plus && (key =s "redacts")
  else false.

Definition redact_third_party_invite (value : Value) : Value :=
  match value_is_object value with
  | None => VObject []
  | Some object =>
      match object_member object "signed" with
      | None => VObject []
      | Some signed_value => VObject [("signed", signed_value)]
      end
  end.

Definition redact_content_member (m : string * Value) : string * Value :=
  if m.1 =s "third_party_invite" then (m.1, redact_third_party_invite m.2) else m.

Definition redact_content (content : Value) (event_type : string) (policy : RoomVersionPolicy) : Value :=
  match value_is_object content with
  | None => VObject []
  | Some object =>
      VObject (redact_content_member <$> List.filter (fun m => content_key_allowed event_type m.1 policy) object)
  end.

(** [RedactionResult]: the redacted event, or the error. *)
Inductive RedactionResult : Type :=
| Redacted (event : Value)
| RedactionError (error : string).

(** One round of the loop over the members: the member to push, if any. *)
Definition redact_member (event_type : option string) (policy : RoomVersionPolicy) (m : string * Value)
    : option (string * Value) :=
  let create_event_omits_room_id :=
    create_event_is_room_id policy && match event_type with Some t => t =s "m.room.create" | None => false end in
  if (m.1 =s "room_id") && create_event_omits_room_id then None
  else if key_is_allowed m.1 policy then
    match event_type with
    | Some t => if m.1 =s "content" then Some (m.1, redact_content m.2 t policy) else Some m
    | None => Some m
    end
  else None.

Definition redact_event (event : Value) (policy : RoomVersionPolicy) : RedactionResult :=
  match value_is_object event with
  | None => RedactionError "event must be an object"
  | Some object => Redacted (VObject (omap (redact_member (string_member object "type") policy) object))
  end.

(** * Which redactions apply *)

Record RedactionContext : Type := {
  context_power_levels : Value;
  context_create : Value
}.

Inductive RedactionVerdict : Type := applies | sender_lacks_authority | target_not_redactable.

Definition default_redact_level : Z := 50.

Definition redaction_target (redaction_event : Value) (policy : RoomVersionPolicy) : option string :=
  match value_is_object redaction_event with
  | None => None
  | Some event =>
      match string_member event "type" with
      | None => None
      | Some type =>
          if type <>s "m.room.redaction" then None
          else
            let holder :=
              if bool_decide (redaction_rules policy = room_v11_plus) then object_member_as_object event "content"
              else Some event in
            match holder ≫= (fun h => string_member h "redacts") with
            | None => None
            | Some target => if empty target then None else Some target
            end
      end
  end.

Definition sender_meets_redact_level (redaction_event : Value) (context : RedactionContext)
    (policy : RoomVersionPolicy) : bool :=
  match value_is_object redaction_event ≫= (fun r => string_member r "sender") with
  | None => false
  | Some sender =>
      let redact_level :=
        if value_has_content (context_power_levels context)
        then extract_power_level_key (context_power_levels context) "redact" default_redact_level
               (power_level_encoding policy)
        else default_redact_level in
      redact_level <=? effective_sender_power (context_power_levels context) sender (context_create context) policy
  end.

Definition judge_redaction (redaction_event target_event : Value) (context : RedactionContext)
    (policy : RoomVersionPolicy) : RedactionVerdict :=
  match value_is_object redaction_event, value_is_object target_event with
  | Some redaction, Some target =>
      if match string_member target "type" with Some t => t =s "m.room.create" | None => false end
      then target_not_redactable
      else
        match string_member redaction "sender" with
        | None => sender_lacks_authority
        | Some redaction_sender =>
            if sender_meets_redact_level redaction_event context policy then applies
            else
              match string_member target "sender" with
              | None => sender_lacks_authority
              | Some target_sender =>
                  let redaction_domain := domain_of redaction_sender in
                  if negb (empty redaction_domain) && (redaction_domain =s domain_of target_sender) then applies
                  else sender_lacks_authority
              end
        end
  | _, _ => sender_lacks_authority
  end.
