(* ===== verification/RedactionSafety.v ===== *)
(** Theorems on redaction: it keeps what it keeps for good (idempotence), and in
    room versions 11 and 12 redacting the state of a room does not change whom
    the room admits, nor anybody's power. *)
From S2P Require Import Prelude CppStd JsonValue JsonSerializer RoomVersion Signing EventAuth Redaction.
Open Scope Z_scope.

(** * Members after redaction *)

Lemma redact_member_key t p m m' : redact_member t p m = Some m' -> m'.1 = m.1.
Proof. unfold redact_member. intros Hr. repeat (split_hyp Hr; simplify_eq/=); done. Qed.

(** Whether a member survives depends on its key alone. *)
Lemma redact_member_drop t p k v w : redact_member t p (k, v) = None -> redact_member t p (k, w) = None.
Proof. unfold redact_member. simpl. intros Hr. repeat (split_hyp Hr; simplify_eq/=); done. Qed.

Lemma object_member_redacted t p o k :
  object_member (omap (redact_member t p) o) k = object_member o k ≫= (fun v => snd <$> redact_member t p (k, v)).
Proof.
  induction o as [|[k' v] o IH]; csimpl; [done|]. destruct (redact_member t p (k', v)) as [[k'' w]|] eqn:E.
  - pose proof (redact_member_key _ _ _ _ E) as Hk. simpl in Hk. subst k''. simpl.
    destruct (k' =s k) eqn:Ek; [|done]. breflect. subst. simpl. by rewrite E.
  - rewrite IH. destruct (k' =s k) eqn:Ek; [|done]. breflect. subst. simpl. rewrite E. simpl.
    destruct (object_member o k) as [w|]; [|done]. simpl. by rewrite (redact_member_drop t p k v w E).
Qed.

(** The members redaction copies unchanged. *)
Definition kept_key (key : string) : Prop :=
  base_key_is_allowed key = true /\ key <> "content" /\ key <> "room_id".

Lemma key_is_allowed_base key p : base_key_is_allowed key = true -> key_is_allowed key p = true.
Proof. intros Hb. unfold key_is_allowed. rewrite Hb. by destruct (_ || _). Qed.

Lemma redact_member_kept t p k v : kept_key k -> redact_member t p (k, v) = Some (k, v).
Proof.
  intros (Hb & Hc & Hr). unfold redact_member. simpl.
  rewrite (proj2 (string_eqb_false _ _) Hr), (proj2 (string_eqb_false _ _) Hc). simpl.
  rewrite key_is_allowed_base by done. by destruct t.
Qed.

Lemma object_member_kept t p o k : kept_key k -> object_member (omap (redact_member t p) o) k = object_member o k.
Proof.
  intros Hk. rewrite object_member_redacted. destruct (object_member o k); simpl; [|done].
  by rewrite redact_member_kept.
Qed.

Lemma string_member_kept t p o k : kept_key k -> string_member (omap (redact_member t p) o) k = string_member o k.
Proof. intros Hk. unfold string_member. by rewrite object_member_kept. Qed.

Ltac kept := repeat split; (reflexivity || discriminate).

Lemma redacted_type t p o : string_member (omap (redact_member t p) o) "type" = string_member o "type".
Proof. apply string_member_kept. kept. Qed.

(** * Idempotence *)

Lemma redact_third_party_invite_idempotent v :
  redact_third_party_invite (redact_third_party_invite v) = redact_third_party_invite v.
Proof.
  unfold redact_third_party_invite. destruct (value_is_object v) as [o|]; [|done].
  by destruct (object_member o "signed") eqn:E.
Qed.

Lemma redact_content_member_key m : (redact_content_member m).1 = m.1.
Proof. unfold redact_content_member. by destruct (_ =s _). Qed.

Lemma redact_content_member_idempotent m : redact_content_member (redact_content_member m) = redact_content_member m.
Proof.
  unfold redact_content_member. destruct (m.1 =s "third_party_invite") eqn:E; simpl; [|by rewrite E].
  by rewrite E, redact_third_party_invite_idempotent.
Qed.

Lemma redact_content_idempotent v t p : redact_content (redact_content v t p) t p = redact_content v t p.
Proof.
  unfold redact_content. destruct (value_is_object v) as [o|]; simpl; [|done]. f_equal.
  induction o as [|m o IH]; csimpl; [done|].
  destruct (content_key_allowed t m.1 p) eqn:E; csimpl; [|done].
  rewrite redact_content_member_key, E. csimpl. by rewrite redact_content_member_idempotent, IH.
Qed.

Lemma redact_member_idempotent t p m m' : redact_member t p m = Some m' -> redact_member t p m' = Some m'.
Proof.
  intros Hr. pose proof (redact_member_key _ _ _ _ Hr) as Hk. unfold redact_member in *. rewrite Hk.
  destruct (_ && _); [done|]. destruct (key_is_allowed m.1 p); [|done].
  destruct t as [t|]; [|done]. destruct (m.1 =s "content") eqn:Ec; [|done].
  simplify_eq/=. by rewrite redact_content_idempotent.
Qed.

Lemma redact_event_idempotent v v' p : redact_event v p = Redacted v' -> redact_event v' p = Redacted v'.
Proof.
  unfold redact_event. destruct (value_is_object v) as [o|]; [|done]. intros [= <-]. simpl.
  rewrite redacted_type. do 2 f_equal. generalize (string_member o "type"). intros t.
  induction o as [|m o IH]; csimpl; [done|]. destruct (redact_member t p m) as [m'|] eqn:E; [|done].
  csimpl. by rewrite (redact_member_idempotent _ _ _ _ E), IH.
Qed.

(** * Content after redaction *)

Definition content_lookup (v : Value) (key : string) : option Value :=
  event_content v ≫= (fun c => object_member c key).

(** An event of the room state: of the given type if it is an object at all. *)
Definition of_type (t : string) (v : Value) : Prop :=
  forall o, v = VObject o -> string_member o "type" = Some t.

(** The stored event after a redaction was applied to it. *)
Definition redacted_form (p : RoomVersionPolicy) (v : Value) : Value :=
  match redact_event v p with Redacted v' => v' | RedactionError _ => v end.

Lemma redacted_form_has_content p v : value_has_content (redacted_form p v) = value_has_content v.
Proof. by destruct v. Qed.

Lemma redacted_form_top p v k : kept_key k ->
  (value_is_object (redacted_form p v) ≫= (fun o => string_member o k))
  = (value_is_object v ≫= (fun o => string_member o k)).
Proof. intros Hk. destruct v; try done. simpl. by apply string_member_kept. Qed.

Lemma object_member_filter (f : string -> bool) o k : f k = true ->
  object_member (List.filter (fun m => f m.1) o) k = object_member o k.
Proof.
  intros Hf. induction o as [|[k' v] o IH]; simpl; [done|].
  destruct (k' =s k) eqn:E; breflect; subst.
  - rewrite Hf. simpl. by rewrite String.eqb_refl.
  - destruct (f k'); simpl; [|done]. rewrite (proj2 (string_eqb_false _ _) E). done.
Qed.

Lemma object_member_content_map o k : k <> "third_party_invite" ->
  object_member (redact_content_member <$> o) k = object_member o k.
Proof.
  intros Hk. induction o as [|[k' v] o IH]; csimpl; [done|]. unfold redact_content_member at 1. simpl.
  destruct (k' =s "third_party_invite") eqn:E; simpl; destruct (k' =s k) eqn:E'; breflect; subst; done.
Qed.

(** Redaction does not change the content keys it allows. *)
Lemma content_lookup_redacted p v t k : of_type t v -> content_key_allowed t k p = true ->
  k <> "third_party_invite" -> content_lookup (redacted_form p v) k = content_lookup v k.
Proof.
  intros Ht Hk Hn. destruct v as [| | | | | |o|]; try done. specialize (Ht o eq_refl).
  unfold content_lookup, redacted_form, redact_event, event_content. simpl. rewrite Ht.
  unfold object_member_as_object. rewrite object_member_redacted.
  destruct (object_member o "content") as [c|]; simpl; [|done].
  unfold redact_member. simpl. rewrite key_is_allowed_base by done. simpl.
  unfold redact_content. destruct c; simpl; try done.
  by rewrite object_member_content_map, (object_member_filter (fun k => content_key_allowed t k p)).
Qed.

(** The readers of an event's content, as functions of its lookups. *)
Lemma event_content_string_lookup v k : event_content_string v k = content_lookup v k ≫= as_string.
Proof. destruct v; try done. unfold event_content_string, content_lookup, event_content. simpl. by destruct (object_member_as_object _ _). Qed.

Lemma power_level_key_lookup v k d e :
  extract_power_level_key v k d e = default d (power_level_value (content_lookup v k) e).
Proof. unfold extract_power_level_key, content_lookup. by destruct (event_content v). Qed.

Lemma user_power_level_lookup v u e : extract_user_power_level v u e =
  let d := extract_power_level_key v "users_default" 0 e in
  match content_lookup v "users" ≫= value_is_object with
  | None => d
  | Some users => default d (extract_user_level_from_users users u e)
  end.
Proof.
  unfold extract_user_power_level, extract_power_level_key, content_lookup.
  destruct (event_content v); reflexivity.
Qed.

Lemma events_entry_lookup v t d e : events_entry_or v t d e =
  match content_lookup v "events" ≫= value_is_object with
  | None => d
  | Some events => default d (power_level_member events t e)
  end.
Proof. unfold events_entry_or, content_lookup. by destruct (event_content v). Qed.

Lemma room_creator_lookup v u p : user_is_room_creator v u p =
  if negb (privilege_room_creators p) then false
  else if match value_is_object v ≫= (fun o => string_member o "sender") with Some s => s =s u | None => false end
  then true
  else match content_lookup v "additional_creators" with None => false | Some a => array_contains_string a u end.
Proof.
  unfold user_is_room_creator, content_lookup, event_content. destruct (negb _); [done|].
  destruct v as [| | | | | |o|]; try done. simpl.
  destruct (string_member o "sender") as [s|]; [destruct (s =s u)|];
    by destruct (object_member_as_object o "content").
Qed.

Lemma non_federated_lookup am : is_non_federated am =
  match content_lookup (create am) "m.federate" with Some (VBool federate) => negb federate | _ => false end.
Proof. unfold is_non_federated, content_lookup. by destruct (event_content _). Qed.

(** * The room state after redactions *)

Section RedactedState.
Context (p : RoomVersionPolicy).
Hypothesis v11_plus : redaction_rules p = room_v11_plus.

Definition redacted_state (am : AuthEventMap) : AuthEventMap := {|
  create := redacted_form p (create am); create_event_id := create_event_id am;
  power_levels := redacted_form p (power_levels am); join_rules := redacted_form p (join_rules am);
  sender_member := redacted_form p (sender_member am); target_member := redacted_form p (target_member am);
  authorising_user_member := redacted_form p (authorising_user_member am);
  third_party_invite := redacted_form p (third_party_invite am) |}.

(** Each event of the map has the type its slot is for. *)
Record typed_state (am : AuthEventMap) : Prop := {
  ts_create : of_type "m.room.create" (create am);
  ts_power : of_type "m.room.power_levels" (power_levels am);
  ts_rules : of_type "m.room.join_rules" (join_rules am);
  ts_sender : of_type "m.room.member" (sender_member am);
  ts_target : of_type "m.room.member" (target_member am);
  ts_authorising : of_type "m.room.member" (authorising_user_member am)
}.

Context (am : AuthEventMap).
Hypothesis typed : typed_state am.

Lemma create_lookup k : k <> "third_party_invite" ->
  content_lookup (redacted_form p (create am)) k = content_lookup (create am) k.
Proof.
  apply (content_lookup_redacted p _ "m.room.create"); [apply typed|].
  unfold content_key_allowed. simpl. by rewrite bool_decide_true.
Qed.

Lemma power_lookup k : k ∈ ["ban"; "events"; "events_default"; "kick"; "redact"; "state_default"; "users";
    "users_default"; "invite"] ->
  content_lookup (redacted_form p (power_levels am)) k = content_lookup (power_levels am) k.
Proof.
  intros Hk. apply (content_lookup_redacted p _ "m.room.power_levels"); [apply typed| |];
    unfold content_key_allowed; simpl; rewrite ?bool_decide_true by done;
    repeat (apply elem_of_cons in Hk as [->|Hk]; [done|]); by apply not_elem_of_nil in Hk.
Qed.

Lemma member_lookup v : of_type "m.room.member" v ->
  extract_content_membership (redacted_form p v) = extract_content_membership v.
Proof.
  intros Hv. unfold extract_content_membership. rewrite !event_content_string_lookup.
  by rewrite (content_lookup_redacted p v "m.room.member").
Qed.

Lemma create_sender : (value_is_object (redacted_form p (create am)) ≫= (fun o => string_member o "sender"))
  = (value_is_object (create am) ≫= (fun o => string_member o "sender")).
Proof. apply redacted_form_top. kept. Qed.

Lemma level_redacted k d : k ∈ ["ban"; "events_default"; "kick"; "redact"; "state_default"; "users_default"; "invite"] ->
  extract_power_level_key (redacted_form p (power_levels am)) k d (power_level_encoding p)
  = extract_power_level_key (power_levels am) k d (power_level_encoding p).
Proof. intros Hk. rewrite !power_level_key_lookup, power_lookup; [done|set_solver]. Qed.

Lemma level_or_default_redacted k d : k ∈ ["ban"; "events_default"; "kick"; "redact"; "state_default"; "users_default"; "invite"] ->
  level_or_default (redacted_state am) p k d = level_or_default am p k d.
Proof. intros Hk. unfold level_or_default. simpl. by rewrite redacted_form_has_content, level_redacted. Qed.

Lemma events_entry_redacted t d :
  events_entry_or (redacted_form p (power_levels am)) t d (power_level_encoding p)
  = events_entry_or (power_levels am) t d (power_level_encoding p).
Proof. rewrite !events_entry_lookup, power_lookup; [done|set_solver]. Qed.

Lemma room_creator_redacted : room_creator_user_id (redacted_form p (create am)) p = room_creator_user_id (create am) p.
Proof.
  unfold room_creator_user_id, redaction_v11_plus. rewrite v11_plus. simpl.
  pose proof create_sender as Hs. destruct (create am); try done. simpl in *. by rewrite Hs.
Qed.

Lemma power_redacted u :
  effective_sender_power (redacted_form p (power_levels am)) u (redacted_form p (create am)) p
  = effective_sender_power (power_levels am) u (create am) p.
Proof.
  unfold effective_sender_power. rewrite !room_creator_lookup, create_sender, create_lookup by done.
  rewrite redacted_form_has_content, !user_power_level_lookup, power_lookup by set_solver.
  by rewrite level_redacted, room_creator_redacted by set_solver.
Qed.

Lemma membership_redacted v : of_type "m.room.member" v -> membership_of (redacted_form p v) = membership_of v.
Proof. intros Hv. unfold membership_of. by rewrite member_lookup. Qed.

Lemma join_rule_redacted : current_join_rule (redacted_state am) = current_join_rule am.
Proof.
  unfold current_join_rule. simpl. rewrite redacted_form_has_content, !event_content_string_lookup.
  by rewrite (content_lookup_redacted p _ "m.room.join_rules") by (apply typed || done).
Qed.

Lemma sender_membership_redacted : sender_current_membership (redacted_state am) = sender_current_membership am.
Proof. unfold sender_current_membership. simpl. by rewrite redacted_form_has_content, membership_redacted by apply typed. Qed.

Lemma target_membership_redacted b : target_current_membership b (redacted_state am) = target_current_membership b am.
Proof.
  unfold target_current_membership. simpl. by rewrite !redacted_form_has_content, !membership_redacted by apply typed.
Qed.

Lemma federation_redacted s : federation_denial s (redacted_state am) = federation_denial s am.
Proof.
  unfold federation_denial. rewrite !non_federated_lookup. simpl.
  by rewrite create_lookup, create_sender.
Qed.

Lemma message_power_redacted t :
  required_message_event_power (redacted_state am) t p = required_message_event_power am t p.
Proof.
  unfold required_message_event_power. rewrite level_or_default_redacted by set_solver. simpl.
  by rewrite redacted_form_has_content, events_entry_redacted.
Qed.

Lemma state_power_redacted t :
  required_state_event_power (redacted_form p (power_levels am)) t p = required_state_event_power (power_levels am) t p.
Proof.
  unfold required_state_event_power. rewrite redacted_form_has_content, level_redacted by set_solver.
  by rewrite events_entry_redacted.
Qed.

Lemma restricted_join_redacted e m :
  authorize_restricted_join e m p (redacted_state am) = authorize_restricted_join e m p am.
Proof.
  unfold authorize_restricted_join. rewrite level_or_default_redacted by set_solver. cbn [redacted_state authorising_user_member power_levels create].
  rewrite member_lookup by apply typed.
  destruct (membership_at_least_one_of m [ms_invite; ms_join]); [done|].
  destruct (event_content_string e _) as [u|]; [|done]. rewrite power_redacted.
  pose proof (redacted_form_top p (authorising_user_member am) "state_key" ltac:(kept)) as Hk.
  destruct (authorising_user_member am); try done. simpl in Hk |- *. by rewrite Hk.
Qed.

Context `{Libc} `{Sodium}.

Lemma member_redacted e o s :
  (object_member_as_object o "content" ≫= (fun c => object_member c "third_party_invite")) = None ->
  authorize_member e o s p (redacted_state am) = authorize_member e o s p am.
Proof.
  intros Hn. unfold authorize_member. destruct (string_member o "state_key") as [k|]; [|done].
  destruct (empty k); [done|]. destruct (parse_membership_state _) as [m|]; [|done].
  unfold creator_bootstrap, sole_prev_event_is_create. simpl. rewrite room_creator_redacted.
  rewrite sender_membership_redacted, target_membership_redacted. destruct (_ && _); [done|].
  destruct m; [| | |..|done].
  - unfold authorize_leave. simpl. by rewrite !power_redacted, !level_or_default_redacted by set_solver.
  - unfold authorize_invite. rewrite Hn. simpl. by rewrite power_redacted, level_or_default_redacted by set_solver.
  - unfold authorize_join. by rewrite join_rule_redacted, restricted_join_redacted.
  - unfold authorize_ban. simpl. by rewrite !power_redacted, level_or_default_redacted by set_solver.
  - unfold authorize_knock. by rewrite join_rule_redacted.
Qed.

Lemma joined_sender_redacted o t s : t <> "m.room.power_levels" ->
  authorize_joined_sender o t s p (redacted_state am) = authorize_joined_sender o t s p am.
Proof.
  intros Ht. unfold authorize_joined_sender, authorize_third_party_invite_event, authorize_by_type.
  rewrite sender_membership_redacted, (proj2 (string_eqb_false _ _) Ht). simpl.
  by rewrite power_redacted, state_power_redacted, message_power_redacted, level_or_default_redacted by set_solver.
Qed.
End RedactedState.

(** * Properties *)

(** C20. Redacting a room's state does not change its rules: in room versions 11
    and 12, every event other than m.room.power_levels and third-party invites is
    authorized against the redacted state exactly as against the original, the
    reason of a refusal included, so redacting bans, joins, levels or join rules
    neither lets anybody in nor shuts anybody out. *)
Theorem redaction_preserves_authorization `{Libc} `{Sodium} p am o :
  redaction_rules p = room_v11_plus -> typed_state am ->
  string_member o "type" <> Some "m.room.power_levels" ->
  (object_member_as_object o "content" ≫= (fun c => object_member c "third_party_invite")) = None ->
  authorize_event_against_auth_events (VObject o) p (redacted_state p am)
  = authorize_event_against_auth_events (VObject o) p am.
Proof.
  intros Hp Hs Ht Hn. unfold authorize_event_against_auth_events. simpl.
  destruct (string_member o "type") as [t|]; [|done]. destruct (empty t); [done|].
  destruct (string_member o "sender") as [s|]; [|done]. destruct (empty s); [done|].
  unfold authorize_create. simpl. rewrite redacted_form_has_content.
  destruct (t =s "m.room.create"); [done|]. destruct (negb _); [done|].
  rewrite federation_redacted by done. destruct (federation_denial s am); [done|].
  destruct (_ && _); [done|]. rewrite member_redacted, joined_sender_redacted by congruence. done.
Qed.
