(* ===== verification/EventId.v ===== *)
(** Event IDs and hashes: event_id.cpp, and the stripping of unsigned data of
    unsigned_data.cpp.

    SHA-256 and base64 are libsodium's, parameters of the model ([Sodium]). *)
From S2P Require Import Prelude CppStd JsonValue JsonSerializer JsonParser RoomVersion Signing EventShape EventAuth Redaction.
Open Scope Z_scope.

(** * Syntax of event IDs *)

Definition char_between (lo hi c : ascii) : bool := (byte_of lo <=? byte_of c) && (byte_of c <=? byte_of hi).

Definition is_alphanumeric (c : ascii) : bool :=
  char_between "A" "Z" c || char_between "a" "z" c || char_between "0" "9" c.

Definition event_id_is_valid (event_id : string) : bool :=
  if (String.length event_id <? 3)%nat || negb (starts_with "$" event_id) then false
  else all_char (fun c => is_alphanumeric c || Ascii.eqb c "_" || Ascii.eqb c "-" || Ascii.eqb c ":" || Ascii.eqb c ".")
         (drop_str 1 event_id).

Definition event_id_is_acceptable_in_receipt (event_id : string) : bool :=
  if (max_id_length_bytes <? String.length event_id)%nat then false
  else event_id_is_valid event_id
       || ((3 <=? String.length event_id)%nat && starts_with "$" event_id
           && all_char (fun c => is_alphanumeric c || Ascii.eqb c "+" || Ascii.eqb c "/") (drop_str 1 event_id)).

(** * Hashes *)

(** [EventHashResult] and [EventIdResult]: a text, or the error. *)
Inductive HashResult : Type :=
| Hashed (text : string)
| HashError (error : string).

Definition clone_without_fields (object : Object) (fields : list string) : Object :=
  List.filter (fun m => negb (existsb (fun field => m.1 =s field) fields)) object.

Section EventId.
Context `{Libc} `{Sodium}.

Definition matrix_base64_from_digest (digest : string) (url_safe : bool) : string :=
  sodium_bin2base64 url_safe digest.

Definition sha256_base64 (input : string) (url_safe : bool) : HashResult :=
  if negb sodium_init_ok then HashError "libsodium initialization failed"
  else
    match crypto_hash_sha256 input with
    | None => HashError "sha256 failed"
    | Some digest => Hashed (matrix_base64_from_digest digest url_safe)
    end.

Definition serialize_object_without (event : Value) (fields : list string) : SerializeResult :=
  match value_is_object event with
  | None => SErr cje_invalid_string
  | Some object => serialize_canonical_strict (VObject (clone_without_fields object fields))
  end.

Definition make_content_hash (event : Value) : HashResult :=
  match serialize_object_without event ["unsigned"; "signatures"; "hashes"] with
  | SErr e => HashError (canonical_json_error_name e)
  | SOk output => sha256_base64 output false
  end.

Definition encoded_reference_hash (event : Value) (policy : RoomVersionPolicy) (url_safe : bool) : HashResult :=
  match redact_event event policy with
  | RedactionError error => HashError error
  | Redacted redacted =>
      match serialize_object_without redacted ["signatures"; "unsigned"] with
      | SErr e => HashError (canonical_json_error_name e)
      | SOk output => sha256_base64 output url_safe
      end
  end.

Definition make_reference_hash (event : Value) (policy : RoomVersionPolicy) : HashResult :=
  encoded_reference_hash event policy true.

Definition make_reference_hash_event_id (event : Value) (policy : RoomVersionPolicy) : HashResult :=
  match encoded_reference_hash event policy (event_id_url_safe_base64 policy) with
  | HashError error => HashError error
  | Hashed sha256 => Hashed (String "$" sha256)
  end.

Definition make_content_hash_id (event : Value) (policy : RoomVersionPolicy) : HashResult :=
  make_reference_hash_event_id event policy.

Definition make_noncanonical_event_id_label (event : Value) (policy : RoomVersionPolicy) : HashResult :=
  match redact_event event policy with
  | RedactionError error => HashError error
  | Redacted redacted =>
      match value_is_object redacted with
      | None => HashError "event is not an object"
      | Some object =>
          match serialize_canonical (VObject (clone_without_fields object ["signatures"; "unsigned"])) with
          | SErr e => HashError (canonical_json_error_name e)
          | SOk output =>
              match sha256_base64 output (event_id_url_safe_base64 policy) with
              | HashError error => HashError error
              | Hashed sha256 => Hashed (String "$" sha256)
              end
          end
      end
  end.

Definition verify_pdu_content_hash (event : Value) : bool :=
  match value_is_object event with
  | None => false
  | Some root =>
      match object_member root "hashes" ≫= value_is_object with
      | None => false
      | Some hashes_obj =>
          match object_member hashes_obj "sha256" ≫= as_string with
          | None => false
          | Some claimed =>
              if empty claimed then false
              else
                match make_content_hash event with
                | HashError _ => false
                | Hashed computed => if empty computed then false else claimed =s computed
                end
          end
      end
  end.

(** * Unsigned data *)

Definition is_unsigned (m : string * Value) : bool := m.1 =s "unsigned".

Definition without_unsigned (event : Value) : Value :=
  match value_is_object event with
  | None => event
  | Some object =>
      if negb (existsb is_unsigned object) then event
      else VObject (List.filter (fun m => negb (is_unsigned m)) object)
  end.

(** [event_json.find(needle) != npos]. *)
Fixpoint contains_text (needle s : string) : bool :=
  String.prefix needle s || match s with EmptyString => false | String _ s' => contains_text needle s' end.

Context `{Yyjson}.

Definition unsigned_key : string := quote +:+ "unsigned" +:+ quote.

Definition without_unsigned_json (event_json : string) : option string :=
  if negb (contains_text unsigned_key event_json) then Some event_json
  else
    match parse_lossless event_json with
    | POk (VObject object as parsed) =>
        if negb (existsb is_unsigned object) then Some event_json
        else
          match serialize_canonical (without_unsigned parsed) with
          | SErr _ => None
          | SOk output => Some output
          end
    | _ => None
    end.

End EventId.
