(* ===== verification/EventSigner.v ===== *)
(** Signing and verifying events: event_signer.cpp, crypto/ed25519.cpp,
    crypto/signing_service.cpp and the key stores and providers of src/crypto.

    [SigningKeyStore] and [Ed25519Provider] are the interfaces of the same names;
    the providers of the repository are instances. *)
From S2P Require Import Prelude CppStd JsonValue JsonSerializer RoomVersion Signing EventShape EventAuth Redaction.
Open Scope Z_scope.

(** * Ed25519 keys *)

Definition is_printable_without_space (c : ascii) : bool := (0x20 <? byte_of c) && (byte_of c <? 0x7F).

Definition key_id_prefix : string := "ed25519:".

Definition ed25519_key_id_is_valid (key_id : string) : bool :=
  (String.length key_id_prefix <? String.length key_id)%nat && (String.length key_id <=? 255)%nat
  && String.prefix key_id_prefix key_id
  && all_char is_printable_without_space (drop_str (String.length key_id_prefix) key_id).

Record SigningKeyRecord : Type := {
  skr_server_name : string;
  skr_key_id : string;
  skr_public_key : string;
  skr_active : bool
}.

Definition signing_key_record_is_usable (key : SigningKeyRecord) : bool :=
  skr_active key && negb (empty (skr_server_name key)) && ed25519_key_id_is_valid (skr_key_id key)
  && ed25519_public_key_shape_is_valid (skr_public_key key).

(** * Interfaces *)

(** [SignatureResult] and [VerificationResult]: [inr] carries the error. *)
Class Ed25519Provider : Type := {
  provider_sign : string -> string -> string + string;
  provider_verify : string -> string -> string -> unit + string
}.

Class SigningKeyStore : Type := {
  active_keys_for_server : string -> list SigningKeyRecord
}.

(** The default [SigningKeyStore::active_keys_for_server], over the lookup of a
    store with one key per server. *)
Definition single_key_store (active_key_for_server : string -> SigningKeyRecord + string) : SigningKeyStore := {|
  active_keys_for_server server_name :=
    match active_key_for_server server_name with
    | inr _ => []
    | inl key => if signing_key_record_is_usable key then [key] else []
    end |}.

Definition ed25519_secret_key_bytes : nat := 64.

Section Providers.
Context `{Sodium}.

Definition ed25519_sign_detached (secret_key message : string) : option string :=
  if negb sodium_init_ok || negb (String.length secret_key =? 64)%nat then None
  else crypto_sign_detached secret_key message.

Definition verify_result (public_key message signature : string) : unit + string :=
  if negb (ed25519_public_key_shape_is_valid public_key)
     || negb (ed25519_signature_shape_is_valid signature) then inr "invalid Ed25519 material"
  else if ed25519_verify public_key message signature then inl tt else inr "signature verification failed".

(** [RuntimeEd25519Provider]: the constructor keeps only a secret of 64 bytes. *)
Definition RuntimeEd25519Provider (secret_key : string) : Ed25519Provider :=
  let stored := if (String.length secret_key =? ed25519_secret_key_bytes)%nat then secret_key else EmptyString in {|
  provider_sign _ message :=
    if negb (String.length stored =? ed25519_secret_key_bytes)%nat
    then inr "signing key is not a valid Ed25519 secret key"
    else match crypto_sign_detached stored message with
         | Some signature => inl signature
         | None => inr "Ed25519 signing failed"
         end;
  provider_verify := verify_result |}.

(** [RuntimeMultiKeyEd25519Provider]: a later entry for a key ID replaces an
    earlier one. *)
Definition multi_key_secrets (keys : list (string * string)) : gmap string string :=
  foldl (fun secrets entry => <[entry.1 := entry.2]> secrets) ∅ keys.

Definition RuntimeMultiKeyEd25519Provider (keys : list (string * string)) : Ed25519Provider :=
  let secrets := multi_key_secrets keys in {|
  provider_sign key_id message :=
    match secrets !! key_id with
    | Some secret =>
        if negb (String.length secret =? ed25519_secret_key_bytes)%nat then inr ("signing key not held: " +:+ key_id)
        else match crypto_sign_detached secret message with
             | Some signature => inl signature
             | None => inr "Ed25519 signing failed"
             end
    | None => inr ("signing key not held: " +:+ key_id)
    end;
  provider_verify := verify_result |}.

Definition RefusingEd25519Provider : Ed25519Provider := {|
  provider_sign _ _ :=
    inr "signing is not permitted in this process: the federation worker holds no signing capability";
  provider_verify _ _ _ :=
    inr "verification is not permitted in this process: the federation worker holds no signing capability" |}.
End Providers.

(** * sign_for_server *)

Record ServerSignature : Type := {
  ss_server_name : string;
  ss_key_id : string;
  ss_signature : string
}.

Section SignForServer.
Context `{Ed25519Provider}.

(** The loop over the active keys: the first usable key of the server that
    signs, or the last error. *)
Fixpoint try_keys (server_name message : string) (keys : list SigningKeyRecord) (last_error : string)
    : ServerSignature + string :=
  match keys with
  | [] => inr (if empty last_error then "no usable active signing key" else last_error)
  | key :: rest =>
      if negb (signing_key_record_is_usable key) || (skr_server_name key <>s server_name)
      then try_keys server_name message rest last_error
      else
        match provider_sign (skr_key_id key) message with
        | inr error => try_keys server_name message rest error
        | inl signature =>
            if negb (ed25519_signature_shape_is_valid signature)
            then try_keys server_name message rest "provider returned invalid Ed25519 signature shape"
            else inl {| ss_server_name := skr_server_name key; ss_key_id := skr_key_id key; ss_signature := signature |}
        end
  end.

Definition sign_for_server `{SigningKeyStore} (server_name message : string) : ServerSignature + string :=
  if empty server_name then inr "server name is empty"
  else
    match active_keys_for_server server_name with
    | [] => inr "no active signing key"
    | keys => try_keys server_name message keys EmptyString
    end.
End SignForServer.

(** * Event signatures *)

Record SigningKeyId : Type := {
  ski_server_name : string;
  ski_key_id : string
}.

Definition signing_key_id_is_valid (key_id : SigningKeyId) : bool :=
  negb (empty (ski_server_name key_id)) && contains_no_control_or_space (ski_server_name key_id)
  && ed25519_key_id_is_valid (ski_key_id key_id).

(** [clone_signature_object] and [clone_server_signatures]: anything that is not
    an object counts as no signatures. *)
Definition clone_signature_object (signatures_value : option Value) : Object :=
  default [] (signatures_value ≫= value_is_object).

Definition clone_server_signatures (server_value : Value) : Object := default [] (value_is_object server_value).

(** Replace the value of the first member with the key, or append a member. *)
Fixpoint upsert_server_signature (server_signatures : Object) (key_id signature : string) : Object :=
  match server_signatures with
  | [] => [(key_id, VString signature)]
  | (k, v) :: rest =>
      if k =s key_id then (k, VString signature) :: rest
      else (k, v) :: upsert_server_signature rest key_id signature
  end.

Fixpoint upsert_signature (signatures : Object) (key_id : SigningKeyId) (signature : string) : Object :=
  match signatures with
  | [] => [(ski_server_name key_id, VObject [(ski_key_id key_id, VString signature)])]
  | (server, v) :: rest =>
      if server =s ski_server_name key_id
      then (server, VObject (upsert_server_signature (clone_server_signatures v) (ski_key_id key_id) signature)) :: rest
      else (server, v) :: upsert_signature rest key_id signature
  end.

(** The object [attach_event_signature] serializes. *)
Definition signed_object (object : Object) (key_id : SigningKeyId) (signature : string) : Object :=
  List.filter (fun m => m.1 <>s "signatures") object
  ++ [("signatures", VObject (upsert_signature (clone_signature_object (object_member object "signatures")) key_id signature))].

Record SignedEvent : Type := {
  se_json : string;
  se_server_name : string;
  se_key_id : string;
  se_signature : string
}.

Section EventSigner.
Context `{Libc} `{Sodium}.

Definition matrix_base64_from_bytes (bytes : string) : string :=
  if empty bytes || negb sodium_init_ok then EmptyString else sodium_bin2base64 false bytes.

Definition signature_is_valid_shape (signature : string) : bool :=
  negb (empty signature) && (String.length signature <=? 4096)%nat && contains_no_control_or_space signature
  && ed25519_signature_shape_is_valid (matrix_bytes_from_base64 signature).

(** The overload that takes the room version's policy. *)
Definition make_event_signing_payload_for (event : Value) (policy : RoomVersionPolicy) : SerializeResult :=
  match value_is_object event with
  | None => SErr cje_invalid_string
  | Some _ =>
      match redact_event event policy with
      | RedactionError _ => SErr cje_invalid_string
      | Redacted redacted =>
          match value_is_object redacted with
          | None => SErr cje_invalid_string
          | Some redacted_obj =>
              serialize_canonical_strict (VObject (clone_without_unsigned_and_signatures redacted_obj))
          end
      end
  end.

Definition attach_event_signature (event : Value) (key_id : SigningKeyId) (signature : string) : SerializeResult :=
  if negb (signing_key_id_is_valid key_id) || negb (signature_is_valid_shape signature) then SErr cje_invalid_string
  else
    match value_is_object event with
    | None => SErr cje_invalid_string
    | Some object => serialize_canonical_strict (VObject (signed_object object key_id signature))
    end.

Definition sign_event_for_server `{Ed25519Provider} `{SigningKeyStore} (event : Value)
    (policy : RoomVersionPolicy) (server_name : string) : SignedEvent + string :=
  match make_event_signing_payload_for event policy with
  | SErr e => inr (canonical_json_error_name e)
  | SOk payload =>
      match sign_for_server server_name payload with
      | inr error => inr error
      | inl signature =>
          let encoded := matrix_base64_from_bytes (ss_signature signature) in
          if empty encoded then inr "signature base64 encoding failed"
          else
            match attach_event_signature event
                    {| ski_server_name := ss_server_name signature; ski_key_id := ss_key_id signature |} encoded with
            | SErr e => inr (canonical_json_error_name e)
            | SOk signed_json =>
                inl {| se_json := signed_json; se_server_name := ss_server_name signature;
                       se_key_id := ss_key_id signature; se_signature := encoded |}
            end
      end
  end.

(** The signature of the key in the event, or why there is none; the text of a
    signature of valid shape. *)
Definition verify_event_signature_presence (event : Value) (key_id : SigningKeyId) : unit + string :=
  if negb (signing_key_id_is_valid key_id) then inr "invalid signing key id"
  else
    match value_is_object event with
    | None => inr "event must be an object"
    | Some object =>
        match object_member object "signatures" with
        | None => inr "missing signatures"
        | Some signatures_value =>
            match value_is_object signatures_value with
            | None => inr "signatures must be an object"
            | Some signatures =>
                match object_member signatures (ski_server_name key_id) with
                | None => inr "missing server signature"
                | Some server_value =>
                    match value_is_object server_value with
                    | None => inr "server signatures must be an object"
                    | Some server_signatures =>
                        match object_member server_signatures (ski_key_id key_id) with
                        | None => inr "missing key signature"
                        | Some signature_value =>
                            match as_string signature_value with
                            | None => inr "invalid signature"
                            | Some found => if signature_is_valid_shape found then inl tt else inr "invalid signature"
                            end
                        end
                    end
                end
            end
        end
    end.

(** The chain of lookups that [verify_event_signature] repeats. *)
Definition event_signature_text (event : Value) (key_id : SigningKeyId) : option string :=
  object ← value_is_object event;
  signatures ← object_member_as_object object "signatures";
  server_signatures ← object_member_as_object signatures (ski_server_name key_id);
  string_member server_signatures (ski_key_id key_id).

Definition verify_event_signature `{Ed25519Provider} (event : Value) (policy : RoomVersionPolicy)
    (key_id : SigningKeyId) (public_key : string) : unit + string :=
  match verify_event_signature_presence event key_id with
  | inr error => inr error
  | inl _ =>
      match event_signature_text event key_id with
      | None => inr "missing key signature"
      | Some encoded_signature =>
          let signature_bytes := matrix_bytes_from_base64 encoded_signature in
          if negb (ed25519_signature_shape_is_valid signature_bytes) then inr "invalid signature"
          else
            match make_event_signing_payload_for event policy with
            | SErr e => inr (canonical_json_error_name e)
            | SOk payload =>
                match provider_verify public_key payload signature_bytes with
                | inr error => inr error
                | inl _ => inl tt
                end
            end
      end
  end.
End EventSigner.

(** * The server's own keys: homeserver/RuntimeSigningKeyStore.cpp *)

Record PersistentServerSigningKey : Type := {
  pk_server_name : string;
  pk_key_id : string;
  pk_public_key : string;
  pk_valid_until_ts : Z;
  pk_secret_key : string;
  pk_expired_ts : Z
}.

Definition runtime_key_record `{Sodium} (server_name : string) (key : PersistentServerSigningKey)
    : option SigningKeyRecord :=
  if (pk_server_name key <>s server_name) || (pk_key_id key =s "ed25519:auto") || empty (pk_public_key key) then None
  else
    let public_key := matrix_bytes_from_base64 (pk_public_key key) in
    if empty public_key then None
    else
      let record := {| skr_server_name := pk_server_name key; skr_key_id := pk_key_id key;
                       skr_public_key := public_key; skr_active := true |} in
      if signing_key_record_is_usable record then Some record else None.

Definition RuntimeSigningKeyStore `{Sodium} (own_name : string) (keys : list PersistentServerSigningKey)
    : SigningKeyStore := {|
  active_keys_for_server server_name :=
    if server_name <>s own_name then [] else omap (runtime_key_record own_name) keys |}.

Definition runtime_active_key `{Sodium} (own_name : string) (keys : list PersistentServerSigningKey)
    (server_name : string) : SigningKeyRecord + string :=
  if server_name <>s own_name then inr "signing key not found"
  else
    match @active_keys_for_server (RuntimeSigningKeyStore own_name keys) server_name with
    | [] => inr "signing key not found"
    | key :: _ => inl key
    end.
