(* ===== verification/SignedEvents.v ===== *)
(** Theorems on hashed and signed events: what an event ID and a content hash pin
    down, that redaction changes neither the ID nor the validity of signatures,
    and that an event this server signs verifies at every receiver. *)
From S2P Require Import Prelude CppStd JsonValue JsonSerializer JsonParser JsonNumbers RoomVersion Signing JsonCanonical EventShape EventAuth Redaction RedactionSafety EventId EventSigner.
Open Scope Z_scope.

(** * Values equal up to member order *)

Lemma equiv_object_inv o w : json_equiv (VObject o) w ->
  exists p o', w = VObject o' /\ o ≡ₚ p /\ Forall2 same_member p o'.
Proof. inversion 1; subst. eauto. Qed.

Lemma same_members_keys p o' : Forall2 same_member p o' -> object_keys p = object_keys o'.
Proof. unfold object_keys. induction 1 as [|m m' p o' [Hk _] _ IH]; csimpl; [done|]. by f_equal. Qed.

Definition option_equiv : option Value -> option Value -> Prop := option_Forall2 json_equiv.

Lemma same_members_lookup p o' k : Forall2 same_member p o' -> option_equiv (object_member p k) (object_member o' k).
Proof.
  induction 1 as [|[k1 v] [k2 w] p o' [Hk Hv] _ IH]; simpl in *; [constructor|]. subst k2.
  destruct (k1 =s k); [by constructor|done].
Qed.

Lemma equiv_lookup o o' k : NoDup (object_keys o) -> json_equiv (VObject o) (VObject o') ->
  option_equiv (object_member o k) (object_member o' k).
Proof.
  intros Hnd (p & o1 & [= ->] & Hp & Ho)%equiv_object_inv.
  rewrite (object_member_perm o p) by done. by apply same_members_lookup.
Qed.

Lemma option_equiv_string a b : option_equiv a b -> a ≫= as_string = b ≫= as_string.
Proof. destruct 1 as [v w Hvw|]; [|done]. by destruct Hvw. Qed.

Lemma equiv_string_member o o' k : NoDup (object_keys o) -> json_equiv (VObject o) (VObject o') ->
  string_member o k = string_member o' k.
Proof. intros Hnd He. by apply option_equiv_string, equiv_lookup. Qed.

(** Filtering or rewriting members one by one respects the order-free equality. *)
Lemma equiv_omap (f : string * Value -> option (string * Value)) o o' :
  (forall m m', m ∈ o -> same_member m m' -> option_Forall2 same_member (f m) (f m')) ->
  json_equiv (VObject o) (VObject o') -> json_equiv (VObject (omap f o)) (VObject (omap f o')).
Proof.
  intros Hf (p & o1 & [= ->] & Hp & Ho)%equiv_object_inv.
  apply (equiv_object _ (omap f p)); [by rewrite Hp|].
  assert (forall m m', m ∈ p -> same_member m m' -> option_Forall2 same_member (f m) (f m')) as Hfp.
  { intros m m' Hm. apply Hf. by rewrite Hp. }
  clear Hf Hp. induction Ho as [|m m' p o' Hm Ho IH]; csimpl; [constructor|].
  assert (option_Forall2 same_member (f m) (f m')) as [a b Hab|] by (apply Hfp; [by left|done]);
    [constructor; [done|]|]; (apply IH; intros ? ? ?; apply Hfp; by right).
Qed.

Lemma filter_omap {A} (f : A -> bool) l : List.filter f l = omap (fun m => if f m then Some m else None) l.
Proof. induction l as [|x l IH]; csimpl; [done|]. rewrite IH. by destruct (f x). Qed.

Lemma equiv_filter (f : string -> bool) o o' : json_equiv (VObject o) (VObject o') ->
  json_equiv (VObject (List.filter (fun m => f m.1) o)) (VObject (List.filter (fun m => f m.1) o')).
Proof.
  intros He. rewrite !filter_omap. apply equiv_omap; [|done]. intros m m' _ [Hk Hv]. rewrite <- Hk.
  destruct (f m.1); by repeat constructor.
Qed.

(** * Redaction respects member order *)

Section Equiv.
Context `{Libc}.

Definition serializable (v : Value) : Prop := exists out, serialize_canonical_strict v = SOk out.

Lemma serializable_keys o : serializable (VObject o) -> NoDup (object_keys o).
Proof. intros [out Hout]. by apply strict_object_ok in Hout as []. Qed.

Lemma serializable_member o m : serializable (VObject o) -> m ∈ o -> serializable m.2.
Proof.
  intros [out Hout] Hm. apply strict_object_ok in Hout as (_ & ms & Hms & _).
  destruct (Forall2_in_l _ _ _ _ Hms Hm) as ([k r] & _ & _ & _ & Hr). by exists r.
Qed.

Lemma redact_third_party_invite_equiv v w : serializable v -> json_equiv v w ->
  json_equiv (redact_third_party_invite v) (redact_third_party_invite w).
Proof.
  intros Hs He. unfold redact_third_party_invite. destruct He as [| | | | | | |o p o' Hp Ho]; try apply json_equiv_refl.
  simpl. assert (option_equiv (object_member o "signed") (object_member o' "signed")) as Hl.
  { apply equiv_lookup; [by apply serializable_keys|by apply (equiv_object o p)]. }
  destruct Hl as [a b Hab|]; [|apply json_equiv_refl].
  apply (equiv_object _ [("signed", a)]); [done|]. by repeat constructor.
Qed.

Lemma redact_content_omap o t p : redact_content (VObject o) t p =
  VObject (omap (fun m => if content_key_allowed t m.1 p then Some (redact_content_member m) else None) o).
Proof.
  unfold redact_content. simpl. f_equal. induction o as [|m o IH]; csimpl; [done|].
  destruct (content_key_allowed t m.1 p); csimpl; by rewrite IH.
Qed.

Lemma redact_content_equiv v w t p : serializable v -> json_equiv v w ->
  json_equiv (redact_content v t p) (redact_content w t p).
Proof.
  intros Hs He. destruct He as [| | | | | | |o q o' Hp Ho]; try apply json_equiv_refl.
  rewrite !redact_content_omap. apply equiv_omap; [|by apply (equiv_object o q)].
  intros m m' Hm [Hk Hv]. rewrite <- Hk. destruct (content_key_allowed t m.1 p); [|constructor].
  unfold redact_content_member. rewrite <- Hk. destruct (m.1 =s "third_party_invite"); repeat constructor; try done.
  simpl. apply redact_third_party_invite_equiv; [|done]. by apply (serializable_member o).
Qed.

Lemma redact_event_equiv v w p v' : serializable v -> json_equiv v w -> redact_event v p = Redacted v' ->
  exists w', redact_event w p = Redacted w' /\ json_equiv v' w'.
Proof.
  intros Hs He. destruct He as [| | | | | | |o q o' Hp Ho]; try done.
  assert (json_equiv (VObject o) (VObject o')) as He by (by apply (equiv_object o q)).
  unfold redact_event. simpl. intros [= <-]. eexists. split; [done|].
  rewrite <- (equiv_string_member o o') by (done || by apply serializable_keys).
  apply equiv_omap; [|done]. intros m m' Hm [Hk Hv]. unfold redact_member. rewrite <- Hk.
  destruct (_ && _); [constructor|]. destruct (key_is_allowed m.1 p); [|constructor].
  destruct (string_member o "type") as [t|]; [|by repeat constructor].
  destruct (m.1 =s "content"); repeat constructor; try done. simpl.
  apply redact_content_equiv; [|done]. by apply (serializable_member o).
Qed.
End Equiv.

(** * Event IDs *)

(** What an event ID covers: the redacted event without signatures and unsigned
    data. *)
Definition hashed_part (policy : RoomVersionPolicy) (event : Value) : Value :=
  match redact_event event policy with
  | Redacted (VObject o) => VObject (clone_without_fields o ["signatures"; "unsigned"])
  | _ => event
  end.

(** What a content hash covers. *)
Definition content_part (event : Value) : Value :=
  match event with
  | VObject o => VObject (clone_without_fields o ["unsigned"; "signatures"; "hashes"])
  | _ => event
  end.

Section Hashes.
Context `{Libc} `{Sodium}.

(** The strict canonical texts of two values differ and have the same encoded SHA-256. *)
Definition sha256_collision (url_safe : bool) (v w : Value) : Prop :=
  exists s t h, serialize_canonical_strict v = SOk s /\ serialize_canonical_strict w = SOk t /\ s <> t
    /\ sha256_base64 s url_safe = Hashed h /\ sha256_base64 t url_safe = Hashed h.

Lemma reference_hash_part v p url h : encoded_reference_hash v p url = Hashed h ->
  exists out, serialize_canonical_strict (hashed_part p v) = SOk out /\ sha256_base64 out url = Hashed h.
Proof.
  unfold encoded_reference_hash, hashed_part, redact_event. destruct (value_is_object v) as [o|]; [|done].
  unfold serialize_object_without. simpl.
  destruct (serialize_canonical_strict _) as [out|] eqn:E; [|done]. by exists out.
Qed.

Lemma reference_hash_of_part v p url out o : v = VObject o ->
  serialize_canonical_strict (hashed_part p v) = SOk out -> encoded_reference_hash v p url = sha256_base64 out url.
Proof.
  intros ->. unfold encoded_reference_hash, hashed_part, redact_event, serialize_object_without. simpl.
  by intros ->.
Qed.

Lemma content_hash_part v h : make_content_hash v = Hashed h ->
  exists out, serialize_canonical_strict (content_part v) = SOk out /\ sha256_base64 out false = Hashed h.
Proof.
  unfold make_content_hash, serialize_object_without. destruct v as [| | | | | |o|]; try done. simpl.
  destruct (serialize_canonical_strict _) as [out|] eqn:E; [|done]. by exists out.
Qed.

Lemma same_text_equiv v w out : serialize_canonical_strict v = SOk out -> serialize_canonical_strict w = SOk out ->
  json_equiv v w.
Proof. intros Hv Hw. by apply (strict_reads_back v w out out EmptyString EmptyString). Qed.

(** Values whose texts have one hash are equal up to member order, or collide. *)
Lemma equal_hash_texts url v w s t h : serialize_canonical_strict v = SOk s -> serialize_canonical_strict w = SOk t ->
  sha256_base64 s url = Hashed h -> sha256_base64 t url = Hashed h -> json_equiv v w \/ sha256_collision url v w.
Proof.
  intros Hv Hw Hs Ht. destruct (decide (s = t)) as [->|Hne]; [left; by eapply same_text_equiv|]. right. by exists s, t, h.
Qed.

Lemma claimed_content_hash v : verify_pdu_content_hash v = true ->
  exists o hashes h, v = VObject o /\ object_member o "hashes" = Some (VObject hashes)
    /\ object_member hashes "sha256" = Some (VString h) /\ make_content_hash v = Hashed h.
Proof.
  unfold verify_pdu_content_hash. destruct v as [| | | | | |o|]; try done. simpl.
  destruct (object_member o "hashes") as [[| | | | | |hashes|]|] eqn:Eh; try done. simpl.
  destruct (object_member hashes "sha256") as [[| | | |h| | |]|] eqn:Es; try done. simpl.
  destruct (empty h); [done|]. destruct (make_content_hash _) as [h'|] eqn:Ec; [|done].
  destruct (empty h'); [done|]. intros Hh. breflect. subst h'. by exists o, hashes, h.
Qed.
End Hashes.

(** * Attaching a signature *)

Lemma upsert_server_lookup o k s k' : object_member (upsert_server_signature o k s) k' =
  if k =s k' then Some (VString s) else object_member o k'.
Proof.
  induction o as [|[k0 v] o IH]; simpl.
  { by destruct (k =s k'). }
  destruct (k0 =s k) eqn:E; simpl; [breflect; subst; by destruct (k =s k')|].
  rewrite IH. destruct (k0 =s k') eqn:E', (k =s k') eqn:E''; breflect; subst; congruence.
Qed.

Lemma upsert_lookup o key s server : object_member (upsert_signature o key s) server =
  if ski_server_name key =s server
  then Some (VObject (upsert_server_signature
         (default [] (object_member o server ≫= value_is_object)) (ski_key_id key) s))
  else object_member o server.
Proof.
  induction o as [|[server' v] o IH]; simpl.
  { by destruct (_ =s server). }
  destruct (server' =s ski_server_name key) eqn:E; simpl.
  - breflect. subst server'. by destruct (_ =s server).
  - rewrite IH. destruct (server' =s server) eqn:E', (ski_server_name key =s server) eqn:E''; breflect; congruence.
Qed.

Lemma object_member_app o o' k : object_member (o ++ o') k =
  match object_member o k with Some v => Some v | None => object_member o' k end.
Proof. induction o as [|[k' v] o IH]; simpl; [done|]. by destruct (k' =s k). Qed.

Lemma object_member_dropped (f : string -> bool) o k : f k = false ->
  object_member (List.filter (fun m => f m.1) o) k = None.
Proof.
  intros Hf. induction o as [|[k' v] o IH]; simpl; [done|]. destruct (f k') eqn:E; [|done].
  simpl. destruct (k' =s k) eqn:Ek; [|done]. breflect. congruence.
Qed.

Lemma signed_signatures o key s : object_member (signed_object o key s) "signatures" =
  Some (VObject (upsert_signature (clone_signature_object (object_member o "signatures")) key s)).
Proof.
  unfold signed_object. by rewrite object_member_app, (object_member_dropped (fun k => k <>s "signatures")).
Qed.

Definition same_key (a b : SigningKeyId) : bool :=
  (ski_server_name a =s ski_server_name b) && (ski_key_id a =s ski_key_id b).

(** The new signature is found, and no other changes. *)
Lemma signed_text o key s key' : event_signature_text (VObject (signed_object o key s)) key' =
  if same_key key key' then Some s else event_signature_text (VObject o) key'.
Proof.
  unfold event_signature_text, object_member_as_object. simpl. rewrite signed_signatures. simpl.
  rewrite upsert_lookup. unfold same_key.
  assert (object_member (clone_signature_object (object_member o "signatures")) (ski_server_name key') ≫= value_is_object
    = (object_member o "signatures" ≫= value_is_object) ≫= (fun g => object_member g (ski_server_name key') ≫= value_is_object)) as Hold.
  { unfold clone_signature_object. by destruct (object_member o "signatures" ≫= value_is_object). }
  destruct (ski_server_name key =s ski_server_name key') eqn:Es; simpl.
  - unfold string_member. rewrite upsert_server_lookup.
    destruct (ski_key_id key =s ski_key_id key') eqn:Ek; simpl; [done|]. rewrite Hold.
    destruct (object_member o "signatures" ≫= value_is_object) as [g|]; simpl; [|done].
    by destruct (object_member g _ ≫= value_is_object).
  - rewrite Hold. by destruct (object_member o "signatures" ≫= value_is_object).
Qed.

Lemma signed_string_member o key s k : k <> "signatures" -> string_member (signed_object o key s) k = string_member o k.
Proof.
  intros Hk. unfold string_member, signed_object. rewrite object_member_app.
  rewrite (object_member_filter (fun k => k <>s "signatures")) by (by apply string_neqb_true).
  destruct (object_member o k); [done|]. cbn [object_member].
  by rewrite (proj2 (string_eqb_false "signatures" k)) by congruence.
Qed.

Lemma clone_redacted_signed t p o key s :
  clone_without_unsigned_and_signatures (omap (redact_member t p) (signed_object o key s))
  = clone_without_unsigned_and_signatures (omap (redact_member t p) o).
Proof.
  unfold signed_object. rewrite omap_app. unfold clone_without_unsigned_and_signatures. rewrite List.filter_app.
  assert (redact_member t p ("signatures", VObject (upsert_signature (clone_signature_object (object_member o "signatures")) key s))
    = Some ("signatures", VObject (upsert_signature (clone_signature_object (object_member o "signatures")) key s))) as Hs
    by (apply redact_member_kept; kept).
  csimpl. rewrite Hs. simpl. rewrite app_nil_r. clear Hs.
  induction o as [|m o IH]; csimpl; [done|]. destruct (redact_member t p m) as [m'|] eqn:E; csimpl.
  - pose proof (redact_member_key _ _ _ _ E) as Hk. rewrite Hk.
    destruct (m.1 =s "signatures") eqn:Em; csimpl; rewrite ?E; csimpl; rewrite ?Hk, ?Em; simpl; rewrite ?andb_false_r; [done|].
    by rewrite IH.
  - destruct (m.1 =s "signatures"); csimpl; rewrite ?E; done.
Qed.

Section Payload.
Context `{Libc} `{Sodium}.

Lemma signed_payload o p key s :
  make_event_signing_payload_for (VObject (signed_object o key s)) p = make_event_signing_payload_for (VObject o) p.
Proof.
  unfold make_event_signing_payload_for, redact_event. simpl.
  rewrite signed_string_member by done. by rewrite clone_redacted_signed.
Qed.

Lemma payload_equiv v w p payload : serializable v -> json_equiv v w ->
  make_event_signing_payload_for v p = SOk payload -> make_event_signing_payload_for w p = SOk payload.
Proof.
  intros Hs He. destruct v as [| | | | | |o|]; try done.
  destruct (equiv_object_inv _ _ He) as (q & o' & -> & _).
  destruct (redact_event_equiv (VObject o) (VObject o') p _ Hs He eq_refl) as (w' & Hw & He').
  unfold make_event_signing_payload_for. simpl. unfold redact_event in Hw. simplify_eq/=.
  apply strict_equiv. by apply (equiv_filter (fun k => (k <>s "unsigned") && (k <>s "signatures"))).
Qed.

Lemma equiv_as_object a b : option_equiv a b ->
  match a ≫= value_is_object, b ≫= value_is_object with
  | Some o, Some o' => json_equiv (VObject o) (VObject o')
  | None, None => True
  | _, _ => False
  end.
Proof. destruct 1 as [v w Hvw|]; [|done]. destruct Hvw as [| | | | | | |o q o' Hq Ho]; simpl; try done. by apply (equiv_object o q). Qed.

Lemma signature_text_equiv v w key : serializable v -> json_equiv v w ->
  event_signature_text v key = event_signature_text w key.
Proof.
  intros Hs He. destruct v as [| | | | | |o|]; try (by inversion He).
  destruct (equiv_object_inv _ _ He) as (q & o' & -> & _). unfold event_signature_text, object_member_as_object. simpl.
  pose proof (equiv_as_object _ _ (equiv_lookup o o' "signatures" (serializable_keys _ Hs) He)) as Hg.
  destruct (object_member o "signatures") as [[| | | | | |g|]|] eqn:Eg; simpl in *;
    destruct (object_member o' "signatures" ≫= value_is_object) as [g'|]; try done; simpl.
  assert (serializable (VObject g)) as Hsg by (by apply (serializable_member o ("signatures", VObject g) Hs), object_member_In).
  pose proof (equiv_as_object _ _ (equiv_lookup g g' (ski_server_name key) (serializable_keys _ Hsg) Hg)) as Hk.
  destruct (object_member g (ski_server_name key)) as [[| | | | | |ks|]|] eqn:Ek; simpl in *;
    destruct (object_member g' (ski_server_name key) ≫= value_is_object) as [ks'|]; try done; simpl.
  apply equiv_string_member; [|done]. apply serializable_keys.
  by apply (serializable_member g (ski_server_name key, VObject ks) Hsg), object_member_In.
Qed.
End Payload.

(** * Verification *)

Section Verification.
Context `{Libc} `{Sodium} `{Ed25519Provider}.

Ltac none_found := split; [done|intros (_ & s' & Hs' & _); done].

Lemma presence_spec v key : verify_event_signature_presence v key = inl tt <->
  signing_key_id_is_valid key = true /\ exists s, event_signature_text v key = Some s /\ signature_is_valid_shape s = true.
Proof.
  unfold verify_event_signature_presence, event_signature_text, object_member_as_object, string_member.
  destruct (signing_key_id_is_valid key); simpl; [|split; [done|intros [? _]; done]].
  destruct (value_is_object v) as [o|]; simpl; [|none_found].
  destruct (object_member o "signatures") as [[| | | | | |g|]|]; simpl; try none_found.
  destruct (object_member g (ski_server_name key)) as [[| | | | | |ks|]|]; simpl; try none_found.
  destruct (object_member ks (ski_key_id key)) as [[| | | |s| | |]|]; simpl; try none_found.
  destruct (signature_is_valid_shape s) eqn:E; split; try done.
  - intros _. split; [done|]. by exists s.
  - intros (_ & s' & ? & ?). congruence.
Qed.

Lemma verify_spec v p key pk : verify_event_signature v p key pk = inl tt <->
  signing_key_id_is_valid key = true /\ exists s payload, event_signature_text v key = Some s
    /\ signature_is_valid_shape s = true /\ make_event_signing_payload_for v p = SOk payload
    /\ provider_verify pk payload (matrix_bytes_from_base64 s) = inl tt.
Proof.
  unfold verify_event_signature. destruct (verify_event_signature_presence v key) as [[]|e] eqn:E.
  - apply presence_spec in E as (Hk & s & Hs & Hshape). rewrite Hs.
    assert (ed25519_signature_shape_is_valid (matrix_bytes_from_base64 s) = true) as ->
      by (unfold signature_is_valid_shape in Hshape; by breflect). simpl. split.
    + destruct (make_event_signing_payload_for v p) as [payload|]; [|done].
      destruct (provider_verify _ _ _) as [[]|] eqn:Ev; [|done]. intros _. split; [done|]. by exists s, payload.
    + intros (_ & s' & payload & Hs' & _ & -> & Hv). simplify_eq. by rewrite Hv.
  - split; [done|]. intros (Hk & s & payload & Hs & Hshape & _). exfalso.
    assert (verify_event_signature_presence v key = inl tt) by (apply presence_spec; eauto). congruence.
Qed.

Lemma try_keys_signs server message keys err sig : try_keys server message keys err = inl sig ->
  ss_server_name sig = server /\ provider_sign (ss_key_id sig) message = inl (ss_signature sig)
  /\ ed25519_signature_shape_is_valid (ss_signature sig) = true
  /\ exists key, key ∈ keys /\ signing_key_record_is_usable key = true /\ skr_key_id key = ss_key_id sig.
Proof.
  revert err. induction keys as [|key keys IH]; simpl; intros err; [done|].
  assert (forall e, try_keys server message keys e = inl sig -> ss_server_name sig = server
    /\ provider_sign (ss_key_id sig) message = inl (ss_signature sig)
    /\ ed25519_signature_shape_is_valid (ss_signature sig) = true
    /\ exists k, k ∈ key :: keys /\ signing_key_record_is_usable k = true /\ skr_key_id k = ss_key_id sig) as Hrest.
  { intros e (? & ? & ? & k & ? & ?)%IH. do 3 (split; [done|]). exists k. split; [by right|done]. }
  destruct (negb _ || _) eqn:Eu; [apply Hrest|]. breflect.
  destruct (provider_sign (skr_key_id key) message) as [s|e] eqn:Es; [|apply Hrest].
  destruct (ed25519_signature_shape_is_valid s) eqn:Eshape; simpl; [|apply Hrest].
  intros [= <-]. simpl. do 3 (split; [done|]). exists key. split; [by left|done].
Qed.

Lemma sign_for_server_signs `{SigningKeyStore} server message sig : sign_for_server server message = inl sig ->
  ss_server_name sig = server /\ provider_sign (ss_key_id sig) message = inl (ss_signature sig)
  /\ ed25519_signature_shape_is_valid (ss_signature sig) = true
  /\ exists key, key ∈ active_keys_for_server server /\ signing_key_record_is_usable key = true
       /\ skr_key_id key = ss_key_id sig.
Proof.
  unfold sign_for_server. destruct (empty server); [done|].
  destruct (active_keys_for_server server); [done|]. apply try_keys_signs.
Qed.

Lemma sign_event_inv `{SigningKeyStore} v p server se : sign_event_for_server v p server = inl se ->
  exists o payload sig, v = VObject o /\ make_event_signing_payload_for v p = SOk payload
    /\ sign_for_server server payload = inl sig /\ se_server_name se = ss_server_name sig
    /\ se_key_id se = ss_key_id sig /\ se_signature se = matrix_base64_from_bytes (ss_signature sig)
    /\ se_signature se <> EmptyString
    /\ let key := {| ski_server_name := se_server_name se; ski_key_id := se_key_id se |} in
       signing_key_id_is_valid key = true /\ signature_is_valid_shape (se_signature se) = true
       /\ serialize_canonical_strict (VObject (signed_object o key (se_signature se))) = SOk (se_json se).
Proof.
  unfold sign_event_for_server. destruct (make_event_signing_payload_for v p) as [payload|] eqn:Ep; [|done].
  destruct (sign_for_server server payload) as [sig|] eqn:Es; [|done].
  destruct (empty _) eqn:Ee; [done|]. destruct (attach_event_signature _ _ _) as [json|] eqn:Ea; [|done].
  intros [= <-]. unfold attach_event_signature in Ea. destruct (negb _ || negb _) eqn:Ev; [done|]. breflect.
  destruct v as [| | | | | |o|]; try done. exists o, payload, sig. simpl in *.
  repeat split; try done. by intros Hn; rewrite Hn in Ee.
Qed.
End Verification.

(** What libsodium documents of its detached signatures and base64 codec, for the
    key pairs of a signing scheme. *)
Record SodiumLaws `{Sodium} (keypair : string -> string -> Prop) : Prop := {
  base64_round_trip bytes : bytes <> EmptyString -> sodium_base642bin (sodium_bin2base64 false bytes) = Some bytes;
  public_key_length secret public : keypair secret public -> String.length public = 32%nat;
  sign_then_verify secret public message signature : keypair secret public ->
    crypto_sign_detached secret message = Some signature ->
    crypto_sign_verify_detached signature message public = true
}.

Section RoundTrip.
Context `{Libc} `{Sodium} (keypair : string -> string -> Prop).
Hypothesis laws : SodiumLaws keypair.

Lemma base64_decodes bytes : matrix_base64_from_bytes bytes <> EmptyString ->
  matrix_bytes_from_base64 (matrix_base64_from_bytes bytes) = bytes.
Proof.
  unfold matrix_base64_from_bytes, matrix_bytes_from_base64. destruct (empty bytes) eqn:Eb; [done|].
  destruct sodium_init_ok; simpl; [|done]. intros Hne.
  destruct (empty (sodium_bin2base64 false bytes)) eqn:Ee; simpl;
    [by destruct (sodium_bin2base64 false bytes)|].
  rewrite (base64_round_trip keypair laws); [done|]. by intros ->.
Qed.

Lemma multi_key_signs keys key_id secret public message signature : multi_key_secrets keys !! key_id = Some secret ->
  keypair secret public -> @provider_sign (RuntimeMultiKeyEd25519Provider keys) key_id message = inl signature ->
  ed25519_signature_shape_is_valid signature = true -> verify_result public message signature = inl tt.
Proof.
  intros Hk Hp Hs Hshape. simpl in Hs. rewrite Hk in Hs. split_hyp Hs; [done|].
  destruct (crypto_sign_detached secret message) as [sig|] eqn:E'; [|done]. simplify_eq.
  assert (ed25519_public_key_shape_is_valid public = true) as Hpk
    by (unfold ed25519_public_key_shape_is_valid; by rewrite (public_key_length keypair laws _ _ Hp)).
  unfold verify_result, ed25519_verify. rewrite Hpk, Hshape. simpl.
  by rewrite (sign_then_verify keypair laws _ _ _ _ Hp E').
Qed.
End RoundTrip.

(** * Properties *)

(** C21. Redacting an event changes neither its event ID nor the outcome of verifying
    any of its signatures, and redacting it again changes nothing: servers that
    hold the redacted form and servers that hold the original agree on both. *)
Theorem redaction_preserves_identity `{Libc} `{Sodium} `{Ed25519Provider} v v' p : redact_event v p = Redacted v' ->
  redact_event v' p = Redacted v'
  /\ make_reference_hash_event_id v' p = make_reference_hash_event_id v p
  /\ forall key public_key, verify_event_signature v' p key public_key = verify_event_signature v p key public_key.
Proof.
  intros Hr. pose proof (redact_event_idempotent _ _ _ Hr) as Hi. split; [done|]. split.
  - unfold make_reference_hash_event_id, encoded_reference_hash. by rewrite Hr, Hi.
  - intros key pk. unfold redact_event in Hr. destruct v as [| | | | | |o|]; simplify_eq/=.
    unfold verify_event_signature, make_event_signing_payload_for. rewrite Hi. simpl.
    unfold verify_event_signature_presence, event_signature_text, object_member_as_object. simpl.
    by rewrite object_member_kept by kept.
Qed.

(** C23. An event ID pins down the event up to redaction: events have the same ID
    exactly when their redacted forms, signatures and unsigned data apart, are
    equal up to member order, unless the canonical texts of these two forms differ
    and have the same SHA-256; and a verified content hash does the same for all of
    the event but hashes, signatures and unsigned data. *)
Theorem event_hashes_bind `{Libc} `{Sodium} o o' p id :
  make_reference_hash_event_id (VObject o) p = Hashed id ->
  (make_reference_hash_event_id (VObject o') p = Hashed id ->
     json_equiv (hashed_part p (VObject o)) (hashed_part p (VObject o'))
     \/ sha256_collision (event_id_url_safe_base64 p) (hashed_part p (VObject o)) (hashed_part p (VObject o')))
  /\ (json_equiv (hashed_part p (VObject o)) (hashed_part p (VObject o')) ->
      make_reference_hash_event_id (VObject o') p = Hashed id)
  /\ (verify_pdu_content_hash (VObject o) = true -> verify_pdu_content_hash (VObject o') = true ->
      object_member o "hashes" = object_member o' "hashes" ->
      json_equiv (content_part (VObject o)) (content_part (VObject o'))
      \/ sha256_collision false (content_part (VObject o)) (content_part (VObject o'))).
Proof.
  unfold make_reference_hash_event_id. intros Hid.
  destruct (encoded_reference_hash (VObject o) p _) as [h|] eqn:Eh; [|done]. simplify_eq.
  destruct (reference_hash_part _ _ _ _ Eh) as (out & Hout & Hh). repeat split.
  - intros Hid'. destruct (encoded_reference_hash (VObject o') p _) as [h'|] eqn:Eh'; simplify_eq.
    destruct (reference_hash_part _ _ _ _ Eh') as (out' & Hout' & Hh').
    by eapply equal_hash_texts.
  - intros He. rewrite (reference_hash_of_part _ p _ out o') by (done || by apply (strict_equiv _ _ _ He)).
    by rewrite Hh.
  - intros (o1 & g & c & [= <-] & Hg & Hc & Hm)%claimed_content_hash
      (o2 & g' & c' & [= <-] & Hg' & Hc' & Hm')%claimed_content_hash Hsame.
    rewrite Hg, Hg' in Hsame. simplify_eq.
    destruct (content_hash_part _ _ Hm) as (t & Ht & Hht), (content_hash_part _ _ Hm') as (t' & Ht' & Hht').
    by eapply equal_hash_texts.
Qed.

(** C22. What this server signs verifies: when signing succeeds with the secrets of
    a multi-key provider, every value whose canonical form is the signed JSON
    verifies under the public key that belongs to the secret, carries the
    server's own name, and keeps all signatures of other keys. *)
Theorem signed_events_verify `{Libc} `{Sodium} keypair keys store v p server se secret public w :
  SodiumLaws keypair ->
  @sign_event_for_server _ _ (RuntimeMultiKeyEd25519Provider keys) store v p server = inl se ->
  multi_key_secrets keys !! se_key_id se = Some secret -> keypair secret public ->
  serialize_canonical_strict w = SOk (se_json se) ->
  let key := {| ski_server_name := se_server_name se; ski_key_id := se_key_id se |} in
  se_server_name se = server
  /\ @verify_event_signature _ _ (RuntimeMultiKeyEd25519Provider keys) w p key public = inl tt
  /\ forall key', same_key key key' = false -> event_signature_text w key' = event_signature_text v key'.
Proof.
  intros Hlaws Hsign Hsecret Hpair Hw key.
  apply sign_event_inv in Hsign as (o & payload & sig & -> & Hpay & Hsig & Hsn & Hki & Hst & Hne & Hvalid & Hshape & Hser).
  fold key in Hvalid, Hser. apply sign_for_server_signs in Hsig as (Hname & Hsigned & Hlen & _).
  assert (serializable (VObject (signed_object o key (se_signature se)))) as Hs by (by eexists).
  pose proof (same_text_equiv _ _ _ Hser Hw) as He. split; [congruence|]. split.
  - apply verify_spec. split; [done|]. exists (se_signature se), payload. repeat split; try done.
    + rewrite <- (signature_text_equiv _ _ key Hs He), signed_text. unfold same_key. by rewrite !String.eqb_refl.
    + apply (payload_equiv _ _ _ _ Hs He). by rewrite signed_payload.
    + rewrite Hst, (base64_decodes keypair) by congruence. simpl.
      apply (multi_key_signs keypair Hlaws keys (ss_key_id sig) secret); congruence.
  - intros key' Hk. by rewrite <- (signature_text_equiv _ _ key' Hs He), signed_text, Hk.
Qed.
