(* ===== verification/EventWitness.v ===== *)
(** The theorems on canonical JSON, redaction, hashes and signatures applied to
    sample documents and events, with a toy codec and signature scheme in place of libsodium. *)
From S2P Require Import Prelude CppStd Utf8 JsonValue JsonSerializer JsonParser JsonNumbers RoomVersion Signing JsonCanonical EventAuth EventAuthBase EventShape Redaction RedactionSafety EventId EventSigner SignedEvents.
Open Scope Z_scope.

#[local] Existing Instance no_libc.

Definition one_document : YDocument :=
  {| doc_root := Some (YArray [YRaw (Some "1"); YRaw (Some "-5"); YObject [(Some "k", YNull)]]); doc_bytes_read := 7 |}.

Definition toy_reader : Yyjson := {|
  read_raw_numbers := fun s => if s =s "[1,-5,k" then inr one_document else inl read_json_structure;
  read_numbers := fun _ => inl read_json_structure |}.

#[local] Existing Instance toy_reader.

Lemma toy_raw_reads : raw_reads.
Proof.
  intros input document root. simpl. destruct (input =s _); [|done]. intros [= <-] [= <-]. reflexivity.
Qed.

Lemma parsed_values_canonical_witness :
  exists out, serialize_canonical_strict (VArray [VInt 1; VInt (-5); VObject [("k", VNull)]]) = SOk out.
Proof.
  refine (proj1 (proj2 (parsed_values_canonical "[1,-5,k" _ toy_raw_reads _))). reflexivity.
Defined.

Definition sample_json : Value := VObject [("b", VInt 2); ("a", VArray [VString "x"; VBool true])].
Definition sample_json' : Value := VObject [("a", VArray [VString "x"; VBool true]); ("b", VInt 2)].

Definition text_of (r : SerializeResult) : string := match r with SOk out => out | SErr _ => EmptyString end.

Lemma canonical_form_exact_witness : json_equiv sample_json sample_json'.
Proof.
  apply (proj1 (canonical_form_exact sample_json sample_json' (text_of (serialize_canonical_strict sample_json)) eq_refl)).
  reflexivity.
Defined.

Definition signed_event (signature : string) : Object :=
  [("type", VString "m.room.topic"); ("signatures", VObject [("a.org", VString signature)]); ("depth", VInt 7)].

Lemma signing_payload_exact_witness :
  make_signable_object_view (VObject (signed_event "one"))
  = SOk (text_of (make_event_signing_payload (VObject (signed_event "two")))).
Proof.
  exact (proj2 (signing_payload_exact (signed_event "one") (signed_event "two")
    (text_of (make_event_signing_payload (VObject (signed_event "two")))) eq_refl)).
Defined.

#[local] Existing Instance no_libc.

(** Base64 and SHA-256 as the identity; a signature is the start of the message
    padded to 64 bytes. *)
Definition sixty_four : string := "0123456789abcdef0123456789abcdef0123456789abcdef0123456789abcdef".
Definition thirty_two : string := take_str 32 sixty_four.
Definition toy_signature (message : string) : string := take_str 64 (message +:+ sixty_four).

Definition toy_sodium : Sodium := {|
  sodium_init_ok := true; sodium_base642bin := Some; sodium_bin2base64 := fun _ bytes => bytes;
  crypto_hash_sha256 := Some; crypto_sign_detached := fun _ message => Some (toy_signature message);
  crypto_sign_verify_detached := fun signature message _ => signature =s toy_signature message |}.
#[local] Existing Instance toy_sodium.

Definition toy_keypair (secret public : string) : Prop := secret = sixty_four /\ public = thirty_two.

Lemma toy_laws : SodiumLaws toy_keypair.
Proof.
  constructor.
  - done.
  - by intros ? ? [_ ->].
  - intros secret public message signature _ [= <-]. apply String.eqb_refl.
Qed.

Definition sample_event : Object :=
  [("type", VString "m.room.message"); ("sender", VString "@alice:a.org"); ("room_id", VString "!r:a.org");
   ("origin_server_ts", VInt 5); ("unsigned", VObject [("age", VInt 3)]); ("content", VObject [("body", VString "hi")]);
   ("signatures", VObject [("b.org", VObject [("ed25519:0", VString "x")])])].

Definition sample_keys : list (string * string) := [("ed25519:1", sixty_four)].
Definition sample_store : SigningKeyStore :=
  RuntimeSigningKeyStore "a.org" [{| pk_server_name := "a.org"; pk_key_id := "ed25519:1"; pk_public_key := thirty_two;
    pk_valid_until_ts := 0; pk_secret_key := EmptyString; pk_expired_ts := 0 |}].
#[local] Existing Instance sample_store.
Definition sample_provider : Ed25519Provider := RuntimeMultiKeyEd25519Provider sample_keys.
#[local] Existing Instance sample_provider.

Definition sample_key : SigningKeyId := {| ski_server_name := "a.org"; ski_key_id := "ed25519:1" |}.

Definition sample_signed : SignedEvent :=
  match sign_event_for_server (VObject sample_event) policy_v11 "a.org" with
  | inl se => se
  | inr _ => {| se_json := EmptyString; se_server_name := EmptyString; se_key_id := EmptyString; se_signature := EmptyString |}
  end.

Lemma signed_events_verify_witness :
  verify_event_signature (VObject (signed_object sample_event sample_key (se_signature sample_signed))) policy_v11
    sample_key thirty_two = inl tt.
Proof.
  refine (proj1 (proj2 (signed_events_verify toy_keypair sample_keys sample_store (VObject sample_event) policy_v11
    "a.org" sample_signed sixty_four thirty_two
    (VObject (signed_object sample_event sample_key (se_signature sample_signed))) toy_laws _ _ _ _)));
    [vm_compute; reflexivity|vm_compute; reflexivity|split; reflexivity|vm_compute; reflexivity].
Defined.

Definition redacted_sample : Value := redacted_form policy_v11 (VObject sample_event).

Lemma redaction_preserves_identity_witness :
  make_reference_hash_event_id redacted_sample policy_v11 = make_reference_hash_event_id (VObject sample_event) policy_v11.
Proof. exact (proj1 (proj2 (redaction_preserves_identity (VObject sample_event) redacted_sample policy_v11 eq_refl))). Defined.

Definition hashed_text (r : HashResult) : string := match r with Hashed t => t | HashError _ => EmptyString end.

Lemma event_hashes_bind_witness :
  make_reference_hash_event_id (VObject (rev sample_event)) policy_v11
  = Hashed (hashed_text (make_reference_hash_event_id (VObject sample_event) policy_v11)).
Proof.
  refine (proj1 (proj2 (event_hashes_bind sample_event (rev sample_event) policy_v11
    (hashed_text (make_reference_hash_event_id (VObject sample_event) policy_v11)) _)) _).
  - vm_compute. reflexivity.
  - apply (equiv_object _ (rev (clone_without_fields (omap (redact_member (Some "m.room.message") policy_v11) sample_event)
      ["signatures"; "unsigned"]))).
    + apply Permutation_rev.
    + vm_compute. repeat (constructor; [split; [reflexivity|apply json_equiv_refl]|]). constructor.
Defined.

Lemma sample_room_typed : typed_state (sample_room "join" "ban").
Proof. split; intros o; vm_compute; intros [= <-]; reflexivity || discriminate. Qed.

Lemma redaction_preserves_authorization_witness :
  authorize_event_against_auth_events (mk_member "@bob:a.org" "@bob:a.org" "join") policy_v11
    (redacted_state policy_v11 (sample_room "join" "ban"))
  = authorize_event_against_auth_events (mk_member "@bob:a.org" "@bob:a.org" "join") policy_v11 (sample_room "join" "ban").
Proof.
  apply (redaction_preserves_authorization policy_v11 (sample_room "join" "ban")).
  - reflexivity.
  - apply sample_room_typed.
  - discriminate.
  - reflexivity.
Defined.
