(* ===== verification/Glob.v ===== *)
(** Glob patterns: what a pattern of literals, question marks and stars means, and
    the two matchers of the code.

    [glob_match] of federation/server_acl.cpp fills a table row by row;
    [type_pattern_matches] of sync/type_pattern.cpp matches stars greedily. *)
From S2P Require Import Prelude CppStd.
Open Scope Z_scope.

(** * Meaning

    A text matches when it can be cut into one piece per pattern character, each
    piece fitting its character. *)

Section Meaning.
Context (fits : ascii -> list ascii -> Prop).

Definition pattern_matches (pattern text : list ascii) : Prop :=
  exists pieces, Forall2 fits pattern pieces /\ text = concat pieces.

Lemma pattern_nil text : pattern_matches [] text <-> text = [].
Proof.
  split; [intros (ps & Hp & ->); by inversion Hp|]. intros ->. by exists [].
Qed.

Lemma pattern_app p q text : pattern_matches (p ++ q) text <->
  exists t u, text = t ++ u /\ pattern_matches p t /\ pattern_matches q u.
Proof.
  split.
  - intros (ps & Hp & ->). apply Forall2_app_inv_l in Hp as (p1 & p2 & H1 & H2 & ->).
    exists (concat p1), (concat p2). rewrite concat_app. repeat split; [by exists p1|by exists p2].
  - intros (t & u & -> & (p1 & H1 & ->) & (p2 & H2 & ->)). exists (p1 ++ p2).
    by rewrite concat_app; split; [apply Forall2_app|].
Qed.

Lemma pattern_single c text : pattern_matches [c] text <-> fits c text.
Proof.
  split.
  - intros (ps & Hp & ->). inversion Hp as [|? x ? l Hx Hl]; subst. inversion Hl; subst. simpl. by rewrite app_nil_r.
  - intros Hf. exists [text]. simpl. rewrite app_nil_r. split; [by repeat constructor|done].
Qed.
End Meaning.

(** * The table of glob_match *)

(** [std::tolower] in the "C" locale, which the program never leaves. *)
Definition to_lower_ascii (c : ascii) : ascii :=
  if (65 <=? byte_of c) && (byte_of c <=? 90) then chr (Z.to_N (byte_of c + 32)) else c.

Definition case_insensitive_equal (left right : ascii) : bool :=
  Ascii.eqb (to_lower_ascii left) (to_lower_ascii right).

(** The row after a star: [current[i] = previous[i] || current[i - 1]]. *)
Fixpoint star_row (carry : bool) (previous : list bool) : list bool :=
  match previous with
  | [] => []
  | p :: ps => let c := p || carry in c :: star_row c ps
  end.

(** The rows after a question mark and after a literal: [current[0]] is 0 and
    [current[i]] is [previous[i - 1]] where the character fits. *)
Fixpoint shift_row (fits : ascii -> bool) (text : list ascii) (previous : list bool) : list bool :=
  match text, previous with
  | t :: ts, p :: ps => (fits t && p) :: shift_row fits ts ps
  | _, _ => []
  end.

Definition next_row (text : list ascii) (previous : list bool) (pattern_char : ascii) : list bool :=
  if Ascii.eqb pattern_char "*" then star_row false previous
  else if Ascii.eqb pattern_char "?" then false :: shift_row (fun _ => true) text previous
  else false :: shift_row (case_insensitive_equal pattern_char) text previous.

Definition glob_match (pattern text : string) : bool :=
  let p := String.list_ascii_of_string pattern in
  let t := String.list_ascii_of_string text in
  match p with
  | [] => empty text
  | _ => List.last (foldl (next_row t) (true :: replicate (length t) false) p) false
  end.

(** * The table is right *)

Definition glob_fits (c : ascii) (piece : list ascii) : Prop :=
  if Ascii.eqb c "*" then True
  else if Ascii.eqb c "?" then length piece = 1%nat
  else exists d, piece = [d] /\ case_insensitive_equal c d = true.

(** The row of a pattern: entry [i] says whether the first [i] characters match. *)
Definition row_of (p : list ascii) (t : list ascii) (row : list bool) : Prop :=
  length row = S (length t) /\
  forall i, (i <= length t)%nat -> row !! i = Some true <-> pattern_matches glob_fits p (take i t).

Lemma star_row_length carry row : length (star_row carry row) = length row.
Proof. revert carry. induction row as [|p row IH]; simpl; intros; [done|]. by rewrite IH. Qed.

Lemma star_row_lookup carry row i : (i < length row)%nat ->
  star_row carry row !! i = Some true <-> carry = true \/ exists j, (j <= i)%nat /\ row !! j = Some true.
Proof.
  revert carry i. induction row as [|p row IH]; simpl; intros carry i Hi; [lia|]. destruct i as [|i]; simpl.
  - split.
    + intros [= E]. apply orb_true_iff in E as [->| ->]; [right; by exists 0%nat|by left].
    + intros [->|(j & Hj & Hr)]; [by rewrite orb_true_r|]. assert (j = 0%nat) as -> by lia. simplify_eq/=. done.
  - rewrite IH by lia. rewrite orb_true_iff. split.
    + intros [[->| ->]|(j & Hj & Hr)]; [right; exists 0%nat; split; [lia|done]|by left|right; exists (S j); split; [lia|done]].
    + intros [->|([|j] & Hj & Hr)]; [left; by right|simplify_eq/=; left; by left|right; exists j; split; [lia|done]].
Qed.

Lemma shift_row_length f t row : (length t <= length row)%nat -> length (shift_row f t row) = length t.
Proof. revert row. induction t as [|c t IH]; intros [|p row]; simpl; intros; try lia. rewrite IH; lia. Qed.

Lemma shift_row_lookup f t row i : shift_row f t row !! i = Some true <->
  exists c, t !! i = Some c /\ f c = true /\ row !! i = Some true.
Proof.
  revert row i. induction t as [|c t IH]; intros [|p row] i; simpl; try (split; [done|by intros (? & ? & ?)]).
  - split; [done|]. intros (d & Hd & Hf & Hr). done.
  - destruct i as [|i]; simpl; [|apply IH]. split.
    + intros [= E]. apply andb_true_iff in E as [Hf ->]. by exists c.
    + intros (d & [= <-] & Hf & [= ->]). by rewrite Hf.
Qed.

Lemma take_S_last {A} (t : list A) i c : t !! i = Some c -> take (S i) t = take i t ++ [c].
Proof. apply take_S_r. Qed.

Lemma next_row_of p t row c : row_of p t row -> row_of (p ++ [c]) t (next_row t row c).
Proof.
  intros [Hlen Hrow]. unfold next_row.
  assert (forall i, (i <= length t)%nat -> pattern_matches glob_fits (p ++ [c]) (take i t) <->
    exists a b, take i t = a ++ b /\ pattern_matches glob_fits p a /\ glob_fits c b) as Happ.
  { intros i Hi. rewrite pattern_app. by setoid_rewrite pattern_single. }
  destruct (Ascii.eqb c "*") eqn:Es; [split; [by rewrite star_row_length|]|].
  { intros i Hi. rewrite star_row_lookup by lia. rewrite Happ by done. unfold glob_fits. rewrite Es. split.
    - intros [?|(j & Hj & Hr)]; [done|]. apply Hrow in Hr; [|lia]. exists (take j t), (drop j (take i t)).
      split; [|done]. rewrite <- (take_drop j (take i t)) at 1. by rewrite take_take, Nat.min_l.
    - intros (a & b & Hab & Ha & _). right. exists (length a).
      assert (length a <= i)%nat by (apply (f_equal length) in Hab; rewrite length_app, length_take in Hab; lia).
      split; [done|]. apply Hrow; [lia|]. replace (take (length a) t) with a; [done|].
      apply (f_equal (take (length a))) in Hab. by rewrite take_app_length, take_take, Nat.min_l in Hab. }
  assert (forall f, (forall b, glob_fits c b <-> exists d, b = [d] /\ f d = true) ->
    row_of (p ++ [c]) t (false :: shift_row f t row)) as Hshift.
  { intros f Hf. split; [simpl; rewrite shift_row_length; lia|]. intros [|i] Hi.
    - rewrite Happ by lia. split; [done|]. intros (a & b & Hab & _ & Hb). apply Hf in Hb as (d & -> & _).
      simpl in Hab. by destruct a.
    - rewrite Happ by done. simpl. rewrite shift_row_lookup. split.
      + intros (d & Hd & Hfd & Hr). exists (take i t), [d]. rewrite (take_S_last _ _ _ Hd). split; [done|].
        split; [apply Hrow; [lia|done]|]. apply Hf. by exists d.
      + intros (a & b & Hab & Ha & Hb). apply Hf in Hb as (d & -> & Hfd).
        destruct (lookup_lt_is_Some_2 t i ltac:(lia)) as [e He]. rewrite (take_S_last _ _ _ He) in Hab.
        apply app_inj_tail in Hab as [<- ->]. exists d. split; [done|]. split; [done|]. apply Hrow; [lia|done]. }
  destruct (Ascii.eqb c "?") eqn:Eq; apply Hshift; intros b; unfold glob_fits; rewrite Es, Eq; [|done].
  split; [|by intros (d & -> & _)]. destruct b as [|d [|]]; simpl; try done. by exists d.
Qed.

Lemma rows_of p t row q : row_of p t row -> row_of (p ++ q) t (foldl (next_row t) row q).
Proof.
  revert p row. induction q as [|c q IH]; intros p row Hr; simpl; [by rewrite app_nil_r|].
  rewrite (cons_middle c p q), app_assoc. by apply IH, next_row_of.
Qed.

Lemma first_row t : row_of [] t (true :: replicate (length t) false).
Proof.
  split; [simpl; by rewrite length_replicate|]. intros i Hi. rewrite pattern_nil. destruct i as [|i]; simpl.
  - by rewrite take_0.
  - rewrite lookup_replicate_2 by lia. split; [done|]. intros Ht. destruct t; simpl in *; [lia|done].
Qed.

Lemma row_last p t row : row_of p t row -> List.last row false = true <-> pattern_matches glob_fits p t.
Proof.
  intros [Hlen Hrow]. rewrite <- (firstn_all t) at 1. rewrite <- (Hrow (length t)) by done.
  destruct (exists_last (l := row)) as (l & x & ->); [by destruct row|].
  rewrite last_last. rewrite length_app in Hlen. simpl in Hlen.
  rewrite lookup_app_r by lia. replace (length t - length l)%nat with 0%nat by lia. simpl. split; congruence.
Qed.

(** [glob_match] decides the meaning of the pattern, letter case aside. *)
Lemma glob_match_spec pattern text : glob_match pattern text = true <->
  pattern_matches glob_fits (String.list_ascii_of_string pattern) (String.list_ascii_of_string text).
Proof.
  unfold glob_match. pose proof (rows_of [] (String.list_ascii_of_string text) _
    (String.list_ascii_of_string pattern) (first_row _)) as Hrow. simpl in Hrow.
  destruct (String.list_ascii_of_string pattern) as [|c p] eqn:E; [|by apply row_last].
  rewrite pattern_nil. by destruct text.
Qed.

(** * The greedy matcher of sync/type_pattern.cpp

    [std::string_view] as the list of its bytes. *)

Definition is_star (c : ascii) : bool := Ascii.eqb c "*".

(** [v.find('*')] and [v.rfind('*')]; [None] is [npos]. *)
Fixpoint find_star (v : list ascii) : option nat :=
  match v with
  | [] => None
  | c :: v' => if is_star c then Some 0%nat else S <$> find_star v'
  end.

Fixpoint rfind_star (v : list ascii) : option nat :=
  match v with
  | [] => None
  | c :: v' => match rfind_star v' with
               | Some i => Some (S i)
               | None => if is_star c then Some 0%nat else None
               end
  end.

Fixpoint starts_with_run (run v : list ascii) : bool :=
  match run, v with
  | [], _ => true
  | r :: run', c :: v' => Ascii.eqb r c && starts_with_run run' v'
  | _ :: _, [] => false
  end.

Definition ends_with_run (run v : list ascii) : bool :=
  (length run <=? length v)%nat && bool_decide (drop (length v - length run) v = run).

(** [v.find(run)]: the leftmost occurrence. *)
Fixpoint find_run (run v : list ascii) : option nat :=
  if starts_with_run run v then Some 0%nat
  else match v with [] => None | _ :: v' => S <$> find_run run v' end.

(** The loop over the runs between stars; every round consumes a character of the
    pattern, so its length is enough fuel. *)
Fixpoint match_runs (fuel : nat) (pattern event_type : list ascii) : bool :=
  match pattern with
  | [] => true
  | c :: pattern' =>
      match fuel with
      | O => false
      | S fuel' =>
          if is_star c then match_runs fuel' pattern' event_type
          else
            let run := match find_star pattern with Some i => take i pattern | None => pattern end in
            match find_run run event_type with
            | None => false
            | Some at_ => match_runs fuel' (drop (length run) pattern) (drop (at_ + length run) event_type)
            end
      end
  end.

(** From the first star on: the text after the last star must close the type, and
    the runs in between are looked for in what remains. *)
Definition match_from_star (p t : list ascii) : bool :=
  let tail := match rfind_star p with Some i => drop (i + 1) p | None => p end in
  if negb (ends_with_run tail t) then false
  else
    let t := take (length t - length tail) t in
    let p := take (length p - length tail) p in
    match_runs (length p) p t.

Definition type_pattern_matches (pattern event_type : string) : bool :=
  let p := String.list_ascii_of_string pattern in
  let t := String.list_ascii_of_string event_type in
  match find_star p with
  | None => bool_decide (p = t)
  | Some first_star =>
      if negb (starts_with_run (take first_star p) t) then false
      else match_from_star (drop first_star p) (drop first_star t)
  end.

Definition type_fits (c : ascii) (piece : list ascii) : Prop :=
  if is_star c then True else piece = [c].

Abbreviation type_matches := (pattern_matches type_fits).

Definition no_star (v : list ascii) : Prop := Forall (fun c => is_star c = false) v.

Lemma find_star_None v : find_star v = None <-> no_star v.
Proof.
  unfold no_star. induction v as [|c v IH]; simpl; [split; [constructor|done]|]. rewrite Forall_cons.
  destruct (is_star c); [split; [done|by intros []]|]. rewrite fmap_None, IH. naive_solver.
Qed.

Lemma find_star_Some v i : find_star v = Some i -> exists a b, v = a ++ "*"%char :: b /\ no_star a /\ length a = i.
Proof.
  revert i. induction v as [|c v IH]; simpl; intros i; [done|]. destruct (is_star c) eqn:E.
  - intros [= <-]. apply Ascii.eqb_eq in E. subst. exists [], v. repeat split. constructor.
  - intros (j & (a & b & -> & Ha & <-)%IH & ->)%fmap_Some. exists (c :: a), b. repeat split. by constructor.
Qed.

Lemma rfind_star_None v : rfind_star v = None <-> no_star v.
Proof.
  unfold no_star. induction v as [|c v IH]; simpl; [split; [constructor|done]|]. rewrite Forall_cons.
  destruct (rfind_star v); [split; [done|]; intros [_ H]; by apply IH in H|].
  destruct (is_star c); naive_solver.
Qed.

Lemma rfind_star_Some v i : rfind_star v = Some i -> exists a b, v = a ++ "*"%char :: b /\ no_star b /\ length a = i.
Proof.
  revert i. induction v as [|c v IH]; simpl; intros i; [done|]. destruct (rfind_star v) as [j|] eqn:E.
  - intros [= <-]. destruct (IH j eq_refl) as (a & b & -> & Hb & <-). by exists (c :: a), b.
  - destruct (is_star c) eqn:Ec; [|done]. intros [= <-]. apply Ascii.eqb_eq in Ec. subst.
    exists [], v. repeat split. by apply rfind_star_None.
Qed.

Lemma starts_with_run_spec run v : starts_with_run run v = true <-> exists w, v = run ++ w.
Proof.
  revert v. induction run as [|r run IH]; intros v; simpl; [split; [by exists v|done]|].
  destruct v as [|c v]; [split; [done|by intros [w ?]]|]. rewrite andb_true_iff, IH, Ascii.eqb_eq. naive_solver.
Qed.

Lemma ends_with_run_spec run v : ends_with_run run v = true <-> exists w, v = w ++ run.
Proof.
  unfold ends_with_run. rewrite andb_true_iff, Nat.leb_le, bool_decide_eq_true. split.
  - intros [Hl Hd]. exists (take (length v - length run) v). rewrite <- Hd at 2. by rewrite take_drop.
  - intros [w ->]. rewrite length_app. split; [lia|].
    replace (length w + length run - length run)%nat with (length w) by lia. by rewrite drop_app_length.
Qed.

Lemma find_run_Some run v i : find_run run v = Some i -> exists a w, v = a ++ run ++ w /\ length a = i /\
  forall a' w', v = a' ++ run ++ w' -> (i <= length a')%nat.
Proof.
  revert i. induction v as [|c v IH]; intros i; simpl; destruct (starts_with_run run _) eqn:E; try done.
  - intros [= <-]. apply starts_with_run_spec in E as [w Hw]. exists [], w. repeat split; [done|lia].
  - intros [= <-]. apply starts_with_run_spec in E as [w Hw]. exists [], w. repeat split; [done|lia].
  - intros (j & (a & w & -> & <- & Hleft)%IH & ->)%fmap_Some. exists (c :: a), w. repeat split.
    intros [|c' a'] w' Hv; simplify_eq/=; [|apply le_n_S; by eapply Hleft].
    assert (starts_with_run run (c :: a ++ run ++ w) = true) by (apply starts_with_run_spec; by exists w'). congruence.
Qed.

Lemma find_run_None run v : find_run run v = None -> ~ exists a w, v = a ++ run ++ w.
Proof.
  induction v as [|c v IH]; simpl; destruct (starts_with_run run _) eqn:E; try done.
  - intros _ (a & w & Hv). symmetry in Hv. apply app_eq_nil in Hv as [-> Hv].
    assert (starts_with_run run [] = true) by (apply starts_with_run_spec; exists w; by symmetry). congruence.
  - intros Hn (a & w & Hv). apply fmap_None in Hn. destruct a as [|c' a]; simplify_eq/=.
    + assert (starts_with_run run (c :: v) = true) by (apply starts_with_run_spec; by exists w). congruence.
    + apply (IH Hn). by exists a, w.
Qed.

(** A pattern without stars is matched by itself alone. *)
Lemma no_star_matches p t : no_star p -> type_matches p t <-> t = p.
Proof.
  intros Hp. revert t. induction Hp as [|c p Hc Hp IH]; intros t; [apply pattern_nil|].
  rewrite (pattern_app _ [c] p). setoid_rewrite pattern_single. unfold type_fits at 1. rewrite Hc.
  setoid_rewrite IH. naive_solver.
Qed.

Lemma star_matches p t : type_matches ("*"%char :: p) t <-> exists x u, t = x ++ u /\ type_matches p u.
Proof.
  rewrite (pattern_app _ ["*"%char] p). setoid_rewrite pattern_single. unfold type_fits at 1. simpl. naive_solver.
Qed.

Lemma star_absorbs p x u : type_matches ("*"%char :: p) u -> type_matches ("*"%char :: p) (x ++ u).
Proof. rewrite !star_matches. intros (y & w & -> & Hw). exists (x ++ y), w. by rewrite app_assoc. Qed.

Lemma star_star p t : type_matches ("*"%char :: "*"%char :: p) t <-> type_matches ("*"%char :: p) t.
Proof.
  rewrite star_matches. split.
  - intros (x & u & -> & Hu). by apply star_absorbs.
  - intros Ht. by exists [], t.
Qed.

Lemma run_prefix run p u : no_star run ->
  type_matches (run ++ p) u <-> exists w, u = run ++ w /\ type_matches p w.
Proof.
  intros Hr. rewrite pattern_app. split.
  - intros (x & w & -> & Hx & Hw). apply no_star_matches in Hx; [|done]. subst x. by exists w.
  - intros (w & -> & Hw). exists run, w. split; [done|]. by rewrite no_star_matches.
Qed.

Lemma run_suffix run p u : no_star run ->
  type_matches (p ++ run) u <-> exists w, u = w ++ run /\ type_matches p w.
Proof.
  intros Hr. rewrite pattern_app. split.
  - intros (w & x & -> & Hw & Hx). apply no_star_matches in Hx; [|done]. subst x. by exists w.
  - intros (w & -> & Hw). exists w, run. repeat split; [done|]. by apply no_star_matches.
Qed.

(** The leftmost occurrence of a run is as good as any. *)
Lemma star_run_matches run q t : no_star run ->
  type_matches ("*"%char :: run ++ q) t <-> exists x w, t = x ++ run ++ w /\ type_matches q w.
Proof.
  intros Hr. rewrite star_matches. split.
  - intros (x & u & -> & (w & -> & Hw)%run_prefix); [|done]. by exists x, w.
  - intros (x & w & -> & Hw). exists x, (run ++ w). split; [done|]. apply run_prefix; [done|]. by exists w.
Qed.

Lemma run_matches run q t : no_star run -> type_matches ("*"%char :: run ++ "*"%char :: q) t <->
  exists i, find_run run t = Some i /\ type_matches ("*"%char :: q) (drop (i + length run) t).
Proof.
  intros Hr. rewrite star_run_matches by done. split.
  - intros (x & w & -> & Hw). destruct (find_run run (x ++ run ++ w)) as [i|] eqn:E.
    + exists i. split; [done|]. destruct (find_run_Some _ _ _ E) as (a & w0 & Heq & Hi & Hleft).
      specialize (Hleft x w eq_refl). rewrite app_assoc, drop_app_le by (rewrite length_app; lia).
      by apply star_absorbs.
    + exfalso. apply (find_run_None _ _ E). by exists x, w.
  - intros (i & (a & w & -> & <- & _)%find_run_Some & Hq). exists a, w. split; [done|].
    by rewrite app_assoc, <- length_app, drop_app_length in Hq.
Qed.

(** A pattern that is empty or ends in a star. *)
Definition star_ended (p : list ascii) : Prop := p = [] \/ exists q, p = q ++ ["*"%char].

Lemma star_ended_app a p : star_ended (a ++ p) -> p <> [] -> star_ended p.
Proof.
  intros [Hn|[q Hq]] Hp; [by apply app_eq_nil in Hn as [_ ->]|].
  destruct (exists_last Hp) as (p' & c & ->). rewrite app_assoc in Hq. apply app_inj_tail in Hq as [_ ->].
  right. by exists p'.
Qed.

Lemma match_runs_spec fuel p t : (length p <= fuel)%nat -> star_ended p ->
  match_runs fuel p t = true <-> type_matches ("*"%char :: p) t.
Proof.
  revert p t. induction fuel as [|fuel IH]; intros [|c p] t Hf He; simpl in Hf; try lia;
    try (simpl; rewrite star_matches; split; [|done]; intros _; exists t, []; rewrite app_nil_r;
         split; [done|by apply pattern_nil]).
  cbn [match_runs]. destruct (is_star c) eqn:Ec.
  { apply Ascii.eqb_eq in Ec. subst c. rewrite star_star. destruct p as [|d p].
    { apply IH; [simpl in *; lia|by left]. }
    apply IH; [simpl in *; lia|]. by apply (star_ended_app ["*"%char]). }
  destruct (find_star (c :: p)) as [i|] eqn:Es.
  2:{ exfalso. apply find_star_None in Es. destruct He as [?|[q Hq]]; [done|]. rewrite Hq in Es.
      apply Forall_app in Es as [_ Es]. by apply Forall_cons in Es as [? _]. }
  destruct (find_star_Some _ _ Es) as (run & q & Hq & Hr & Hi).
  assert (run <> []) as Hne by (intros ->; simpl in Hq; by simplify_eq). rewrite Hq in *.
  rewrite <- Hi, take_app_length, drop_app_length.
  rewrite run_matches by done. destruct (find_run run t) as [j|]; [|split; [done|by intros (? & ? & _)]].
  rewrite IH, star_star.
  - split; [by exists j|]. by intros (? & [= <-] & ?).
  - apply (f_equal length) in Hq. rewrite length_app in Hq. destruct run; [done|]. simpl in *. lia.
  - by apply (star_ended_app run).
Qed.

Lemma starred_matches p' t : starts_with_run ["*"%char] p' = true ->
  match_from_star p' t = true <-> type_matches p' t.
Proof.
  unfold match_from_star. intros Hstar. destruct (rfind_star p') as [i|] eqn:Er.
  2:{ exfalso. apply rfind_star_None in Er. apply starts_with_run_spec in Hstar as [w ->].
      by apply Forall_cons in Er as [? _]. }
  destruct (rfind_star_Some _ _ Er) as (m & tail & -> & Htail & <-). clear Er.
  assert (drop (length m + 1) (m ++ "*"%char :: tail) = tail) as ->.
  { rewrite cons_middle, app_assoc. replace (length m + 1)%nat with (length (m ++ ["*"%char])) by (rewrite length_app; simpl; lia).
    by rewrite drop_app_length. }
  assert (take (length (m ++ "*"%char :: tail) - length tail) (m ++ "*"%char :: tail) = m ++ ["*"%char]) as Htake.
  { rewrite cons_middle, app_assoc. rewrite (length_app (m ++ _)).
    replace (length (m ++ ["*"%char]) + length tail - length tail)%nat with (length (m ++ ["*"%char])) by lia.
    by rewrite take_app_length. }
  simpl. rewrite Htake. rewrite (cons_middle _ m tail), app_assoc, run_suffix by done.
  assert (forall w, match_runs (length (m ++ ["*"%char])) (m ++ ["*"%char]) w = true <-> type_matches (m ++ ["*"%char]) w) as Hruns.
  { intros w. rewrite match_runs_spec by (done || by right; exists m).
    destruct m as [|c m]; [apply star_star|]. apply starts_with_run_spec in Hstar as [w' Hw].
    injection Hw as -> _. apply star_star. }
  destruct (ends_with_run tail t) eqn:Ee; simpl.
  - apply ends_with_run_spec in Ee as [w ->]. rewrite (length_app w tail).
    replace (length w + length tail - length tail)%nat with (length w) by lia. rewrite take_app_length, Hruns.
    split; [by exists w|]. intros (w' & Hw & ?). apply app_inv_tail in Hw. by subst.
  - split; [done|]. intros (w & -> & _). assert (ends_with_run tail (w ++ tail) = true) by (apply ends_with_run_spec; by exists w).
    congruence.
Qed.

Lemma type_pattern_spec pattern event_type : type_pattern_matches pattern event_type = true <->
  type_matches (String.list_ascii_of_string pattern) (String.list_ascii_of_string event_type).
Proof.
  unfold type_pattern_matches. generalize (String.list_ascii_of_string pattern), (String.list_ascii_of_string event_type).
  intros p t. destruct (find_star p) as [i|] eqn:Es.
  2:{ apply find_star_None in Es. rewrite no_star_matches, bool_decide_eq_true by done. naive_solver. }
  destruct (find_star_Some _ _ Es) as (a & b & -> & Ha & <-). rewrite take_app_length, drop_app_length, run_prefix by done.
  destruct (starts_with_run a t) eqn:E; simpl negb; cbv iota.
  - apply starts_with_run_spec in E as [u ->]. rewrite drop_app_length, starred_matches by done.
    split; [by exists u|]. intros (w & Hw & ?). apply app_inv_head in Hw. by subst.
  - split; [done|]. intros (w & -> & _). assert (starts_with_run a (a ++ w) = true) by (apply starts_with_run_spec; by exists w).
    congruence.
Qed.

(** * Property *)

(** Both glob matchers are exact: the table of the server ACL matcher and the
    greedy matcher of event type patterns accept a text if and only if it can be
    cut into pieces that fit the characters of the pattern one by one, a star
    fitting any piece, a question mark (server ACLs only) any one character and a
    literal itself, letter case ignored for server names only. *)
Theorem glob_matchers_exact pattern text :
  (glob_match pattern text = true <->
   pattern_matches glob_fits (String.list_ascii_of_string pattern) (String.list_ascii_of_string text))
  /\ (type_pattern_matches pattern text = true <->
      pattern_matches type_fits (String.list_ascii_of_string pattern) (String.list_ascii_of_string text)).
Proof. split; [apply glob_match_spec|apply type_pattern_spec]. Qed.
