(* ===== verification/EventTable.v ===== *)
(** The table of stored events: database/EventTable.cpp and EventTable.hpp.

    Rows are kept in the order they were added; six indexes over them are updated
    by every operation.  Positions are [nat], the unsigned 64-bit orderings and
    depths are [Z].  A binary search on a sorted index is written as the scan that
    finds the same place. *)
From S2P Require Import Prelude CppStd JsonValue JsonParser EventShape EventId.
Open Scope Z_scope.

(** * Rows *)

Record PersistentEvent : Type := {
  ev_event_id : string;
  ev_room_id : string;
  ev_sender_user_id : string;
  ev_json : string;
  ev_depth : Z;
  ev_stream_ordering : Z;
  ev_prev_event_ids : list string;
  ev_auth_event_ids : list string;
  ev_signatures : list EventSignature;
  ev_status : string
}.

Inductive RelationKind : Type := rk_replace | rk_thread | rk_reference.

#[export] Instance RelationKind_eq_dec : EqDecision RelationKind.
Proof. solve_decision. Defined.

Record RelationKey : Type := {
  rel_target : string;
  rel_kind : RelationKind
}.

#[export] Instance RelationKey_eq_dec : EqDecision RelationKey.
Proof. solve_decision. Defined.

(** One list of positions per kind. *)
Record RelationLists : Type := {
  rl_replace : list nat;
  rl_thread : list nat;
  rl_reference : list nat
}.

Definition rl_get (kind : RelationKind) (r : RelationLists) : list nat :=
  match kind with rk_replace => rl_replace r | rk_thread => rl_thread r | rk_reference => rl_reference r end.

Definition rl_map (f : RelationKind -> list nat -> list nat) (r : RelationLists) : RelationLists := {|
  rl_replace := f rk_replace (rl_replace r); rl_thread := f rk_thread (rl_thread r);
  rl_reference := f rk_reference (rl_reference r) |}.

Definition rl_empty : RelationLists := {| rl_replace := []; rl_thread := []; rl_reference := [] |}.

Definition is_nil {A} (l : list A) : bool := match l with [] => true | _ => false end.

Definition rl_all_empty (r : RelationLists) : bool :=
  is_nil (rl_replace r) && is_nil (rl_thread r) && is_nil (rl_reference r).

(** An entry of the room-and-time index, ordered field by field. *)
Record TimeEntry : Type := {
  te_origin_server_ts : Z;
  te_depth : Z;
  te_stream_ordering : Z;
  te_position : nat
}.

#[export] Instance TimeEntry_eq_dec : EqDecision TimeEntry.
Proof. solve_decision. Defined.

Definition te_ltb (a b : TimeEntry) : bool :=
  if negb (te_origin_server_ts a =? te_origin_server_ts b) then te_origin_server_ts a <? te_origin_server_ts b
  else if negb (te_depth a =? te_depth b) then te_depth a <? te_depth b
  else if negb (te_stream_ordering a =? te_stream_ordering b) then te_stream_ordering a <? te_stream_ordering b
  else (te_position a <? te_position b)%nat.

(** * Reading a row's JSON *)

Definition is_json_space (c : ascii) : bool :=
  let b := byte_of c in (b =? 32) || (b =? 9) || (b =? 10) || (b =? 13).

(** The text up to the closing quote, escapes skipped in pairs, and what follows
    the quote; [None] when the text ends first. *)
Fixpoint skip_json_string (s : string) : option (string * string) :=
  match s with
  | EmptyString => None
  | String c s' =>
      if byte_of c =? 34 then Some (EmptyString, s')
      else if byte_of c =? 92 then
        match s' with
        | EmptyString => None
        | String d s'' =>
            match skip_json_string s'' with
            | None => None
            | Some (text, rest) => Some (String c (String d text), rest)
            end
        end
      else
        match skip_json_string s' with
        | None => None
        | Some (text, rest) => Some (String c text, rest)
        end
  end.

(** The value after the key: an integer token not continued by a fraction or an
    exponent. *)
Definition integer_value (s : string) : option Z :=
  let negative := starts_with "-" s in
  let '(ds, rest) := span_digits (if negative then drop_str 1 s else s) in
  if empty ds || starts_with "." rest || starts_with "e" rest || starts_with "E" rest then None
  else
    let r := from_chars_int64 (if negative then String "-" ds else ds) in
    match fc_ec r with
    | ec_none => if empty (fc_rest r) then Some (fc_value r) else None
    | _ => None
    end.

(** The scan for a top-level member; [depth] is an [unsigned int].  Every round
    consumes a byte, so the length is enough fuel. *)
Fixpoint scan_top_level (fuel : nat) (depth : Z) (key : string) (s : string) : option Z :=
  match fuel, s with
  | S fuel', String c s' =>
      let b := byte_of c in
      if (b =? 123) || (b =? 91) then scan_top_level fuel' ((depth + 1) mod 2 ^ 32) key s'
      else if (b =? 125) || (b =? 93) then
        if depth =? 0 then None else scan_top_level fuel' (depth - 1) key s'
      else if negb (b =? 34) then scan_top_level fuel' depth key s'
      else
        match skip_json_string s' with
        | None => None
        | Some (text, rest) =>
            if negb (depth =? 1) || (text <>s key) then scan_top_level fuel' depth key rest
            else
              let after := trim_left is_json_space rest in
              if negb (starts_with ":" after) then scan_top_level fuel' depth key rest
              else integer_value (trim_left is_json_space (drop_str 1 after))
        end
  | _, _ => None
  end.

Definition top_level_integer (json key : string) : option Z := scan_top_level (String.length json) 0 key json.

Definition relation_kind_of (rel_type : string) : option RelationKind :=
  if rel_type =s "m.replace" then Some rk_replace
  else if rel_type =s "m.thread" then Some rk_thread
  else if rel_type =s "m.reference" then Some rk_reference
  else None.

Definition time_entry_for (row : PersistentEvent) (position : nat) : option TimeEntry :=
  if (ev_status row =s "outlier") || (ev_status row =s "rejected") || (ev_status row =s "soft_failed") then None
  else
    match top_level_integer (ev_json row) "origin_server_ts" with
    | None => None
    | Some ts => Some {| te_origin_server_ts := ts; te_depth := ev_depth row;
                         te_stream_ordering := ev_stream_ordering row; te_position := position |}
    end.

Definition latest_ts_of (row : PersistentEvent) : Z :=
  match top_level_integer (ev_json row) "origin_server_ts" with
  | Some ts => if 0 <? ts then ts else 0
  | None => 0
  end.

Definition relates_to_text : string := JsonSerializer.quote +:+ "m.relates_to" +:+ JsonSerializer.quote.

Definition relation_key_for `{Yyjson} (row : PersistentEvent) : option RelationKey :=
  if negb (contains_text relates_to_text (ev_json row)) then None
  else
    match parse_lossless (ev_json row) with
    | POk parsed =>
        relates ← (event ← value_is_object parsed;
                   content ← object_member_as_object event "content";
                   object_member_as_object content "m.relates_to");
        target ← string_member relates "event_id";
        rel_type ← string_member relates "rel_type";
        if empty target || (max_id_length_bytes <? String.length target)%nat then None
        else
          kind ← relation_kind_of rel_type;
          Some {| rel_target := target; rel_kind := kind |}
    | _ => None
    end.

(** * Sorted vectors *)

Section SortedVector.
Context {A : Type} (ltb : A -> A -> bool).

(** Insert before the first element greater than [x]: [std::ranges::upper_bound]. *)
Fixpoint upper_insert (x : A) (l : list A) : list A :=
  match l with
  | [] => [x]
  | y :: ys => if ltb x y then x :: y :: ys else y :: upper_insert x ys
  end.

(** The newest goes on the end, any other after those no greater than it. *)
Definition push_or_insert (x : A) (l : list A) : list A :=
  match last l with
  | None => l ++ [x]
  | Some b => if negb (ltb x b) then l ++ [x] else upper_insert x l
  end.

(** [std::ranges::inplace_merge]: stable, the left range first among equals. *)
Fixpoint merge_sorted (l : list A) : list A -> list A :=
  match l with
  | [] => fun r => r
  | x :: xs => fix go (r : list A) : list A :=
      match r with
      | [] => x :: xs
      | y :: ys => if ltb y x then y :: go ys else x :: merge_sorted xs r
      end
  end.
End SortedVector.

Example top_level_integer_examples :
  let q := JsonSerializer.quote in
  top_level_integer ("{" +:+ q +:+ "a" +:+ q +:+ ":{" +:+ q +:+ "ts" +:+ q +:+ ":1}, " +:+ q +:+ "ts" +:+ q +:+ " : -27}") "ts"
    = Some (-27)
  /\ top_level_integer ("{" +:+ q +:+ "ts" +:+ q +:+ ":1.5}") "ts" = None.
Proof. repeat split. Qed.

(** * The table *)

Record EventTable : Type := {
  rows : list PersistentEvent;
  by_id : gmap string nat;
  stream_order : list nat;
  by_room_stream : gmap string (list nat);
  by_room_time : gmap string (list TimeEntry);
  room_latest_ts : gmap string Z;
  relation_children : gmap string RelationLists
}.

Definition empty_table : EventTable := {|
  rows := []; by_id := ∅; stream_order := []; by_room_stream := ∅; by_room_time := ∅; room_latest_ts := ∅;
  relation_children := ∅ |}.

(** A row of the table as an index sees it; positions in an index are in range. *)
Definition ordering_at (rs : list PersistentEvent) (position : nat) : Z :=
  match rs !! position with Some row => ev_stream_ordering row | None => 0 end.

Definition ordering_ltb (rs : list PersistentEvent) (p q : nat) : bool := ordering_at rs p <? ordering_at rs q.

(** [index_time] and [index_stream] of the row at a position of [rs]. *)
Definition index_time (rs : list PersistentEvent) (position : nat) (index : gmap string (list TimeEntry))
    : gmap string (list TimeEntry) :=
  match rs !! position with
  | None => index
  | Some row =>
      match time_entry_for row position with
      | None => index
      | Some entry =>
          let entries := default [] (index !! ev_room_id row) in
          <[ev_room_id row := push_or_insert te_ltb entry entries]> index
      end
  end.

Definition index_stream (rs : list PersistentEvent) (position : nat) (index : gmap string (list nat))
    : gmap string (list nat) :=
  match rs !! position with
  | None => index
  | Some row =>
      let positions := default [] (index !! ev_room_id row) in
      <[ev_room_id row := push_or_insert (ordering_ltb rs) position positions]> index
  end.

(** [std::ranges::lower_bound] for the entry, then erase it if it is there. *)
Fixpoint lower_erase (entry : TimeEntry) (entries : list TimeEntry) : list TimeEntry :=
  match entries with
  | [] => []
  | e :: es => if te_ltb e entry then e :: lower_erase entry es
               else if bool_decide (e = entry) then es else e :: es
  end.

Definition unindex_time (room_id : string) (entry : option TimeEntry) (index : gmap string (list TimeEntry))
    : gmap string (list TimeEntry) :=
  match entry, index !! room_id with
  | Some entry, Some entries =>
      let entries := lower_erase entry entries in
      if is_nil entries then delete room_id index else <[room_id := entries]> index
  | _, _ => index
  end.

(** [std::ranges::equal_range] of the ordering, then erase the position if it is
    in the range. *)
Fixpoint range_erase (rs : list PersistentEvent) (position : nat) (stream_ordering : Z) (positions : list nat)
    : list nat :=
  match positions with
  | [] => []
  | p :: ps =>
      if ordering_at rs p <? stream_ordering then p :: range_erase rs position stream_ordering ps
      else if stream_ordering <? ordering_at rs p then p :: ps
      else if (p =? position)%nat then ps
      else p :: range_erase rs position stream_ordering ps
  end.

Definition unindex_stream (rs : list PersistentEvent) (room_id : string) (position : nat) (stream_ordering : Z)
    (index : gmap string (list nat)) : gmap string (list nat) :=
  match index !! room_id with
  | None => index
  | Some positions =>
      let positions := range_erase rs position stream_ordering positions in
      if is_nil positions then delete room_id index else <[room_id := positions]> index
  end.

Definition note_latest_ts (row : PersistentEvent) (index : gmap string Z) : gmap string Z :=
  let latest := latest_ts_of row in
  if 0 <? latest
  then <[ev_room_id row := Z.max (default latest (index !! ev_room_id row)) latest]> index else index.

Definition recompute_latest_ts (rs : list PersistentEvent) (streams : gmap string (list nat)) (room_id : string)
    (index : gmap string Z) : gmap string Z :=
  let latest := foldl (fun latest position =>
    match rs !! position with Some row => Z.max latest (latest_ts_of row) | None => latest end) 0
    (default [] (streams !! room_id)) in
  if 0 <? latest then <[room_id := latest]> index else delete room_id index.

Definition index_relation (position : nat) (key : RelationKey) (index : gmap string RelationLists)
    : gmap string RelationLists :=
  let lists := default rl_empty (index !! rel_target key) in
  <[rel_target key := rl_map (fun kind l => if bool_decide (kind = rel_kind key) then l ++ [position] else l) lists]> index.

Definition unindex_relation (position : nat) (key : RelationKey) (index : gmap string RelationLists)
    : gmap string RelationLists :=
  match index !! rel_target key with
  | None => index
  | Some lists =>
      let lists := rl_map (fun kind l =>
        if bool_decide (kind = rel_kind key) then filter (fun p => p <> position) l else l) lists in
      if rl_all_empty lists then delete (rel_target key) index else <[rel_target key := lists]> index
  end.

(** * Operations *)

Section Operations.
Context `{Yyjson}.

Definition index_relation_of (rs : list PersistentEvent) (position : nat) (index : gmap string RelationLists)
    : gmap string RelationLists :=
  match rs !! position ≫= relation_key_for with
  | Some key => index_relation position key index
  | None => index
  end.

Definition insert (event : PersistentEvent) (t : EventTable) : bool * EventTable :=
  match by_id t !! ev_event_id event with
  | Some _ => (false, t)
  | None =>
      let position := length (rows t) in
      let rs := rows t ++ [event] in
      (true, {|
        rows := rs;
        by_id := <[ev_event_id event := position]> (by_id t);
        stream_order := push_or_insert (ordering_ltb rs) position (stream_order t);
        by_room_stream := index_stream rs position (by_room_stream t);
        by_room_time := index_time rs position (by_room_time t);
        room_latest_ts := note_latest_ts event (room_latest_ts t);
        relation_children := index_relation_of rs position (relation_children t) |})
  end.

(** The first loop of [insert_all]: the rows whose ID is not held yet. *)
Fixpoint add_rows (events : list PersistentEvent) (rs : list PersistentEvent) (ids : gmap string nat)
    (latest : gmap string Z) : list PersistentEvent * gmap string nat * gmap string Z :=
  match events with
  | [] => (rs, ids, latest)
  | event :: rest =>
      match ids !! ev_event_id event with
      | Some _ => add_rows rest rs ids latest
      | None => add_rows rest (rs ++ [event]) (<[ev_event_id event := length rs]> ids) (note_latest_ts event latest)
      end
  end.

(** Append to the rooms' lists, remembering how long each touched list was. *)
Definition append_to_room {A} (m : gmap string (list A) * gmap string nat) (entry : string * A)
    : gmap string (list A) * gmap string nat :=
  let '(lists, touched) := m in
  let l := default [] (lists !! entry.1) in
  (<[entry.1 := l ++ [entry.2]]> lists,
   match touched !! entry.1 with Some _ => touched | None => <[entry.1 := length l]> touched end).

(** Sort each touched room's new tail and merge it with what the room held. *)
Definition merge_touched {A} (ltb : A -> A -> bool) (m : gmap string (list A) * gmap string nat)
    : gmap string (list A) :=
  map_imap (fun room l =>
    Some (match m.2 !! room with
          | Some old_size => merge_sorted ltb (take old_size l) (sort_by ltb (drop old_size l))
          | None => l
          end)) m.1.

Definition insert_all (events : list PersistentEvent) (t : EventTable) : nat * EventTable :=
  let first_added := length (rows t) in
  let '(rs, ids, latest) := add_rows events (rows t) (by_id t) (room_latest_ts t) in
  let added := seq first_added (length rs - first_added) in
  let room_of position := match rs !! position with Some row => ev_room_id row | None => EmptyString end in
  ((length rs - first_added)%nat, {|
    rows := rs;
    by_id := ids;
    stream_order := merge_sorted (ordering_ltb rs) (stream_order t) (sort_by (ordering_ltb rs) added);
    by_room_stream := merge_touched (ordering_ltb rs)
      (foldl append_to_room (by_room_stream t, ∅) ((fun p => (room_of p, p)) <$> added));
    by_room_time := merge_touched te_ltb
      (foldl append_to_room (by_room_time t, ∅)
        (omap (fun p => row ← rs !! p; entry ← time_entry_for row p; Some (ev_room_id row, entry)) added));
    room_latest_ts := latest;
    relation_children := foldl (fun index p => index_relation_of rs p index) (relation_children t) added |}).

(** The new position of each row that is not removed. *)
Fixpoint build_remap (kept : nat) (removed : list bool) : list (option nat) :=
  match removed with
  | [] => []
  | true :: rest => None :: build_remap kept rest
  | false :: rest => Some kept :: build_remap (S kept) rest
  end.

Definition remapped (remap : list (option nat)) (position : nat) : option nat := remap !! position ≫= id.

Fixpoint kept_rows {A} (rs : list A) (removed : list bool) : list A :=
  match rs, removed with
  | r :: rs', false :: rest => r :: kept_rows rs' rest
  | _ :: rs', true :: rest => kept_rows rs' rest
  | _, _ => []
  end.

Fixpoint removed_rows {A} (rs : list A) (removed : list bool) : list A :=
  match rs, removed with
  | _ :: rs', false :: rest => removed_rows rs' rest
  | r :: rs', true :: rest => r :: removed_rows rs' rest
  | _, _ => []
  end.

(** Drop the lists that became empty. *)
Definition non_empty {A} (l : list A) : option (list A) := if is_nil l then None else Some l.

Definition remap_entry (remap : list (option nat)) (entry : TimeEntry) : option TimeEntry :=
  position ← remapped remap (te_position entry);
  Some {| te_origin_server_ts := te_origin_server_ts entry; te_depth := te_depth entry;
          te_stream_ordering := te_stream_ordering entry; te_position := position |}.

Definition erase_marked (removed : list bool) (t : EventTable) : nat * EventTable :=
  let remap := build_remap 0 removed in
  let rs := kept_rows (rows t) removed in
  let streams := omap (fun l => non_empty (omap (remapped remap) l)) (by_room_stream t) in
  ((length (rows t) - length rs)%nat, {|
    rows := rs;
    by_id := omap (remapped remap) (by_id t);
    stream_order := omap (remapped remap) (stream_order t);
    by_room_stream := streams;
    by_room_time := omap (fun l => non_empty (omap (remap_entry remap) l)) (by_room_time t);
    room_latest_ts := foldl (fun index room => recompute_latest_ts rs streams room index) (room_latest_ts t)
      (ev_room_id <$> removed_rows (rows t) removed);
    relation_children := omap (fun lists =>
      let lists := rl_map (fun _ l => omap (remapped remap) l) lists in
      if rl_all_empty lists then None else Some lists) (relation_children t) |}).

Definition erase_if (predicate : PersistentEvent -> bool) (t : EventTable) : nat * EventTable :=
  let removed := predicate <$> rows t in
  if existsb id removed then erase_marked removed t else (0%nat, t).

(** [modify] at a position of the table: the mutation, with the ID and the
    stream ordering put back. *)
Definition with_identity_of (old new : PersistentEvent) : PersistentEvent := {|
  ev_event_id := ev_event_id old; ev_room_id := ev_room_id new; ev_sender_user_id := ev_sender_user_id new;
  ev_json := ev_json new; ev_depth := ev_depth new; ev_stream_ordering := ev_stream_ordering old;
  ev_prev_event_ids := ev_prev_event_ids new; ev_auth_event_ids := ev_auth_event_ids new;
  ev_signatures := ev_signatures new; ev_status := ev_status new |}.

Definition modify (position : nat) (mutation : PersistentEvent -> PersistentEvent) (t : EventTable) : EventTable :=
  match rows t !! position with
  | None => t
  | Some old =>
      let target := with_identity_of old (mutation old) in
      let rs := <[position := target]> (rows t) in
      let room_id := ev_room_id old in
      let moved := ev_room_id target <>s room_id in
      let time_before := time_entry_for old position in
      let streams :=
        if moved
        then index_stream rs position (unindex_stream rs room_id position (ev_stream_ordering old) (by_room_stream t))
        else by_room_stream t in
      let relation_before := relation_key_for old in
      let relation_after := relation_key_for target in
      {| rows := rs;
         by_id := by_id t;
         stream_order := stream_order t;
         by_room_stream := streams;
         by_room_time :=
           if moved || negb (bool_decide (time_entry_for target position = time_before))
           then index_time rs position (unindex_time room_id time_before (by_room_time t))
           else by_room_time t;
         room_latest_ts :=
           if moved || negb (latest_ts_of target =? latest_ts_of old)
           then recompute_latest_ts rs streams (ev_room_id target)
                  (recompute_latest_ts rs streams room_id (room_latest_ts t))
           else room_latest_ts t;
         relation_children :=
           if bool_decide (relation_after = relation_before) then relation_children t
           else
             let index := match relation_before with
                          | Some key => unindex_relation position key (relation_children t)
                          | None => relation_children t
                          end in
             match relation_after with Some key => index_relation position key index | None => index end |}
  end.

Definition extract (t : EventTable) : list PersistentEvent * EventTable := (rows t, empty_table).
Definition clear (t : EventTable) : EventTable := empty_table.
End Operations.

(** * Queries *)

Definition find (event_id : string) (t : EventTable) : option PersistentEvent :=
  by_id t !! event_id ≫= (fun position => rows t !! position).

Definition contains (event_id : string) (t : EventTable) : bool :=
  match by_id t !! event_id with Some _ => true | None => false end.

Definition find_in_room (room_id event_id : string) (t : EventTable) : option PersistentEvent :=
  match find event_id t with
  | Some event => if ev_room_id event =s room_id then Some event else None
  | None => None
  end.

(** The rows at positions of an index. *)
Definition rows_at (t : EventTable) (positions : list nat) : list PersistentEvent :=
  omap (fun position => rows t !! position) positions.

Definition in_stream_order (t : EventTable) : list PersistentEvent := rows_at t (stream_order t).

Definition room_in_stream_order (room_id : string) (t : EventTable) : list PersistentEvent :=
  rows_at t (default [] (by_room_stream t !! room_id)).

Definition room_latest_origin_server_ts (room_id : string) (t : EventTable) : Z :=
  default 0 (room_latest_ts t !! room_id).

Inductive TimeDirection : Type := forwards | backwards.

(** Offer the rows in turn, at most [max_examined] of them: the accepted row, and
    whether the search stopped at the cap. *)
Fixpoint search_rows (accept : PersistentEvent -> bool) (max_examined : nat) (candidates : list PersistentEvent)
    : option PersistentEvent * bool :=
  match candidates with
  | [] => (None, false)
  | row :: rest =>
      match max_examined with
      | O => (None, true)
      | S n => if accept row then (Some row, false) else search_rows accept n rest
      end
  end.

(** The rows offered, in order: forwards from the lower bound of the timestamp,
    backwards from its upper bound. *)
Definition time_candidates (room_id : string) (ts : Z) (direction : TimeDirection) (t : EventTable)
    : list PersistentEvent :=
  let entries := default [] (by_room_time t !! room_id) in
  rows_at t (te_position <$>
    match direction with
    | forwards => filter (fun e => ts <= te_origin_server_ts e) entries
    | backwards => reverse (filter (fun e => te_origin_server_ts e <= ts) entries)
    end).

Definition nearest_by_time (room_id : string) (ts : Z) (direction : TimeDirection)
    (accept : PersistentEvent -> bool) (max_examined : nat) (t : EventTable) : option PersistentEvent * bool :=
  search_rows accept max_examined (time_candidates room_id ts direction t).

(** The rows [walk_room_newest_first] visits, and whether it was truncated. *)
Definition walk_room_newest_first (room_id : string) (max_examined : nat) (t : EventTable)
    : list PersistentEvent * bool :=
  let entries := reverse (default [] (by_room_time t !! room_id)) in
  (rows_at t (te_position <$> take max_examined entries), (max_examined <? length entries)%nat).

Definition relation_child_count (target_event_id : string) (t : EventTable) : nat :=
  match relation_children t !! target_event_id with
  | None => 0
  | Some lists => length (rl_replace lists) + length (rl_thread lists) + length (rl_reference lists)
  end.

Definition relation_children_of (target_event_id : string) (kind : RelationKind) (t : EventTable) : list nat :=
  default [] (rl_get kind <$> relation_children t !! target_event_id).

Definition relation_kind_count (target_event_id : string) (kind : RelationKind) (t : EventTable) : nat :=
  length (relation_children_of target_event_id kind t).

Definition for_each_relation_child_newest_first (target_event_id : string) (kind : RelationKind)
    (max_examined : nat) (t : EventTable) : list PersistentEvent * bool :=
  let positions := reverse (relation_children_of target_event_id kind t) in
  (rows_at t (take max_examined positions), (max_examined <? length positions)%nat).
