(* ===== verification/EventTableInv.v ===== *)
(** The invariant of the event table: every index says about the rows exactly what
    it is kept for, after every operation. *)
From S2P Require Import Prelude CppStd JsonValue JsonParser EventShape EventId EventTable.
Open Scope Z_scope.

(** * Sorted vectors *)

Section Sorted.
Context {A : Type} (R : A -> A -> Prop) (ltb : A -> A -> bool).
Context `{!Transitive R}.

Lemma upper_insert_perm x l : upper_insert ltb x l ≡ₚ x :: l.
Proof.
  induction l as [|y l IH]; simpl; [done|]. destruct (ltb x y); [done|]. rewrite IH. constructor.
Qed.

Lemma push_or_insert_perm x l : push_or_insert ltb x l ≡ₚ x :: l.
Proof.
  unfold push_or_insert. destruct (last l) as [b|]; [destruct (negb _); [|apply upper_insert_perm]|];
    symmetry; apply Permutation_cons_append.
Qed.

(** The comparator places [x] among the elements of a list as the order does. *)
Definition places (x : A) (l : list A) : Prop :=
  forall y, y ∈ l -> (ltb x y = true -> R x y) /\ (ltb x y = false -> R y x).

Lemma upper_insert_sorted x l : places x l -> StronglySorted R l -> StronglySorted R (upper_insert ltb x l).
Proof.
  intros Hx Hs. induction Hs as [|y l Hs IH Hy]; simpl; [by repeat constructor|].
  destruct (Hx y ltac:(by left)) as [Hlt Hge]. destruct (ltb x y) eqn:E.
  - specialize (Hlt eq_refl). constructor; [by constructor|]. constructor; [done|].
    rewrite Forall_forall in Hy; rewrite Forall_forall. intros z Hz. transitivity y; auto.
  - constructor; [apply IH; intros z Hz; apply Hx; by right|].
    rewrite upper_insert_perm. constructor; [by apply Hge|done].
Qed.

Lemma snoc_sorted x l : (forall y, y ∈ l -> R y x) -> StronglySorted R l -> StronglySorted R (l ++ [x]).
Proof.
  intros Hx Hs. induction Hs as [|y l Hs IH Hy]; simpl; [by repeat constructor|].
  constructor; [apply IH; intros z Hz; apply Hx; by right|].
  apply Forall_app. split; [done|]. repeat constructor. apply Hx. by left.
Qed.

Lemma sorted_before_last b l : StronglySorted R l -> last l = Some b -> forall y, y ∈ l -> y = b \/ R y b.
Proof.
  intros Hs Hb. destruct (last_Some l b) as [Hl _]. destruct (Hl Hb) as [l' ->]. clear Hl.
  intros y [Hy|Hy%list_elem_of_singleton]%elem_of_app; [right|by left].
  clear Hb. induction l' as [|z l' IH]; [set_solver|].
  simpl in Hs. apply StronglySorted_inv in Hs as [Hs Hz]. apply elem_of_cons in Hy as [->|Hy]; [|auto].
  rewrite Forall_forall in Hz. apply Hz. set_solver.
Qed.

Lemma push_or_insert_sorted x l : places x l -> StronglySorted R l -> StronglySorted R (push_or_insert ltb x l).
Proof.
  intros Hx Hs. unfold push_or_insert. destruct (last l) as [b|] eqn:Eb.
  - destruct (ltb x b) eqn:E; simpl; [by apply upper_insert_sorted|]. apply snoc_sorted; [|done].
    assert (b ∈ l) as Hb by (apply last_Some in Eb as [l' ->]; set_solver).
    pose proof (proj2 (Hx b Hb) E) as Hbx. intros y Hy.
    destruct (sorted_before_last b l Hs Eb y Hy) as [->|Hyb]; [done|]. by transitivity b.
  - apply last_None in Eb. subst. by repeat constructor.
Qed.

Lemma merge_sorted_nil_r l : merge_sorted ltb l [] = l.
Proof. by destruct l. Qed.

Lemma merge_sorted_cons x xs y ys : merge_sorted ltb (x :: xs) (y :: ys) =
  if ltb y x then y :: merge_sorted ltb (x :: xs) ys else x :: merge_sorted ltb xs (y :: ys).
Proof. done. Qed.

Lemma merge_sorted_perm l r : merge_sorted ltb l r ≡ₚ l ++ r.
Proof.
  revert r. induction l as [|x l IHl]; intros r; [done|]. induction r as [|y r IHr].
  - by rewrite merge_sorted_nil_r, app_nil_r.
  - rewrite merge_sorted_cons. destruct (ltb y x).
    + rewrite IHr. simpl. rewrite <- Permutation_middle. constructor.
    + rewrite IHl. done.
Qed.

Lemma merge_sorted_sorted l r : (forall x y, x ∈ l -> y ∈ r -> (ltb y x = true -> R y x) /\ (ltb y x = false -> R x y)) ->
  StronglySorted R l -> StronglySorted R r -> StronglySorted R (merge_sorted ltb l r).
Proof.
  revert r. induction l as [|x l IHl]; intros r Hlr Hl Hr; [done|]. induction r as [|y r IHr]; [by rewrite merge_sorted_nil_r|].
  rewrite merge_sorted_cons. apply StronglySorted_inv in Hl as [Hl Hxl], Hr as [Hr Hyr].
  destruct (Hlr x y ltac:(by left) ltac:(by left)) as [Hlt Hge]. destruct (ltb y x).
  - specialize (Hlt eq_refl). constructor.
    + apply IHr; [intros a b Ha Hb; apply Hlr; [done|by right]|done].
    + rewrite merge_sorted_perm. apply Forall_app. split; [|done]. constructor; [done|].
      rewrite Forall_forall in Hxl; rewrite Forall_forall. intros z Hz. transitivity x; auto.
  - specialize (Hge eq_refl). constructor.
    + apply IHl; [intros a b Ha Hb; apply Hlr; [by right|done]|done|by constructor].
    + rewrite merge_sorted_perm. apply Forall_app. split; [done|]. constructor; [done|].
      rewrite Forall_forall in Hyr; rewrite Forall_forall. intros z Hz. transitivity y; auto.
Qed.

(** A sorted duplicate-free list is determined by its elements. *)
Lemma sorted_unique l k : (forall x y, R x y -> R y x -> False) -> StronglySorted R l -> StronglySorted R k ->
  (forall x, x ∈ l <-> x ∈ k) -> l = k.
Proof.
  intros Hasym Hl. revert k. induction Hl as [|x l Hl IH Hx]; intros k Hk Hiff.
  - destruct k as [|y k]; [done|]. exfalso. assert (y ∈ []) by (apply Hiff; by left). set_solver.
  - destruct Hk as [|y k Hk Hy]; [exfalso; assert (x ∈ []) by (apply Hiff; by left); set_solver|].
    rewrite Forall_forall in Hx. rewrite Forall_forall in Hy.
    assert (x = y) as <-.
    { assert (x ∈ y :: k) as [?|Hxk]%elem_of_cons by (apply Hiff; by left); [done|].
      assert (y ∈ x :: l) as [?|Hyl]%elem_of_cons by (apply Hiff; by left); [done|].
      exfalso. by apply (Hasym x y); [apply Hx|apply Hy]. }
    f_equal. apply IH; [done|]. intros z. split; intros Hz.
    + assert (z ∈ x :: k) as [->|?]%elem_of_cons by (apply Hiff; by right); [|done].
      exfalso. by apply (Hasym x x); apply Hx.
    + assert (z ∈ x :: l) as [->|?]%elem_of_cons by (apply Hiff; by right); [|done].
      exfalso. by apply (Hasym x x); apply Hy.
Qed.

Lemma sorted_NoDup l : (forall x, ~ R x x) -> StronglySorted R l -> NoDup l.
Proof.
  intros Hirr. induction 1 as [|x l Hs IH Hx]; constructor; [|done].
  intros Hin. rewrite Forall_forall in Hx. by apply (Hirr x), Hx.
Qed.
End Sorted.

Lemma StronglySorted_omap {A B} (R : A -> A -> Prop) (S : B -> B -> Prop) (f : A -> option B) l :
  (forall x y a b, x ∈ l -> y ∈ l -> R x y -> f x = Some a -> f y = Some b -> S a b) ->
  StronglySorted R l -> StronglySorted S (omap f l).
Proof.
  intros Hf Hs. induction Hs as [|x l Hs IH Hx]; csimpl; [constructor|].
  assert (StronglySorted S (omap f l)) as Hl by (apply IH; intros; eapply Hf; eauto; by right).
  destruct (f x) as [a|] eqn:E; [|done]. constructor; [done|]. rewrite Forall_forall in Hx; rewrite Forall_forall.
  intros b (y & Hy & Hb)%list_elem_of_omap. eapply (Hf x y); eauto; [by left|by right].
Qed.

Lemma StronglySorted_impl {A} (R S : A -> A -> Prop) l :
  (forall x y, x ∈ l -> y ∈ l -> R x y -> S x y) -> StronglySorted R l -> StronglySorted S l.
Proof.
  intros HRS Hs. induction Hs as [|x l Hs IH Hx]; constructor.
  - apply IH. intros y z Hy Hz. apply HRS; by right.
  - rewrite Forall_forall in Hx; rewrite Forall_forall. intros y Hy. apply HRS; [by left|by right|auto].
Qed.

Lemma StronglySorted_filter {A} (R : A -> A -> Prop) (P : A -> Prop) `{forall x, Decision (P x)} l :
  StronglySorted R l -> StronglySorted R (filter P l).
Proof.
  induction 1 as [|x l Hs IH Hx]; [constructor|]. rewrite filter_cons. case_decide; [|done]. constructor; [done|].
  rewrite Forall_forall in Hx; rewrite Forall_forall. intros y [_ Hy]%list_elem_of_filter. auto.
Qed.

Lemma NoDup_omap {A B} (f : A -> option B) l :
  (forall x y b, x ∈ l -> y ∈ l -> f x = Some b -> f y = Some b -> x = y) -> NoDup l -> NoDup (omap f l).
Proof.
  intros Hf. induction 1 as [|x l Hx Hnd IH]; csimpl; [constructor|].
  assert (NoDup (omap f l)) as Hl by (apply IH; intros; eapply Hf; eauto; by right).
  destruct (f x) as [b|] eqn:E; [|done]. constructor; [|done]. intros (y & Hy & Hb)%list_elem_of_omap.
  assert (x = y) as -> by (eapply Hf; eauto; [by left|by right]). done.
Qed.

(** * Indexes by room *)

(** The list of a room is sorted and holds exactly what belongs to the room; a
    room with nothing has no entry. *)
Definition room_index_ok {A} (R : A -> A -> Prop) (P : string -> A -> Prop) (index : gmap string (list A)) : Prop :=
  forall room, index !! room <> Some [] /\ StronglySorted R (default [] (index !! room))
    /\ forall x, x ∈ default [] (index !! room) <-> P room x.

Section RoomIndex.
Context {A : Type} (R : A -> A -> Prop).

Lemma room_index_ext (R' : A -> A -> Prop) P P' index : room_index_ok R P index ->
  (forall room x, P room x <-> P' room x) -> (forall room x y, P room x -> P room y -> R x y -> R' x y) ->
  room_index_ok R' P' index.
Proof.
  intros Hok HP HR room. destruct (Hok room) as (Hne & Hs & Hin). split; [done|]. split.
  - eapply StronglySorted_impl; [|exact Hs]. intros x y Hx Hy. apply (HR room); by apply Hin.
  - intros x. by rewrite Hin, HP.
Qed.

Lemma room_index_add (ltb : A -> A -> bool) `{!Transitive R} P index room x : room_index_ok R P index ->
  places R ltb x (default [] (index !! room)) ->
  room_index_ok R (fun r y => P r y \/ (r = room /\ y = x))
    (<[room := push_or_insert ltb x (default [] (index !! room))]> index).
Proof.
  intros Hok Hp r. destruct (decide (r = room)) as [->|Hne].
  - rewrite lookup_insert_eq. simpl. destruct (Hok room) as (Hn & Hs & Hin). split; [|split].
    + intros [= Hnil]. pose proof (push_or_insert_perm ltb x (default [] (index !! room))) as Hperm.
      rewrite Hnil in Hperm. by apply Permutation_nil_cons in Hperm.
    + by apply push_or_insert_sorted.
    + intros y. rewrite push_or_insert_perm, elem_of_cons, Hin. naive_solver.
  - rewrite lookup_insert_ne by done. destruct (Hok r) as (Hn & Hs & Hin). split; [done|]. split; [done|].
    intros y. rewrite Hin. naive_solver.
Qed.

(** Replacing a room's list by one with an element less. *)
Lemma room_index_remove P index room x l' : room_index_ok R P index ->
  StronglySorted R l' -> (forall y, y ∈ l' <-> y ∈ default [] (index !! room) /\ y <> x) ->
  room_index_ok R (fun r y => P r y /\ ~ (r = room /\ y = x))
    (if is_nil l' then delete room index else <[room := l']> index).
Proof.
  intros Hok Hs' Hin' r. destruct (Hok r) as (Hn & Hs & Hin).
  assert (forall o, (o : option (list A)) = index !! r -> r <> room -> o <> Some [] /\ StronglySorted R (default [] o)
    /\ forall y, y ∈ default [] o <-> P r y /\ ~ (r = room /\ y = x)) as Hother.
  { intros o -> Hr. split; [done|]. split; [done|]. intros y. rewrite Hin. naive_solver. }
  destruct (is_nil l') eqn:E.
  - destruct l' as [|]; [|done]. destruct (decide (r = room)) as [->|Hr]; [|apply Hother; [by rewrite lookup_delete_ne|done]].
    rewrite lookup_delete_eq. simpl. split; [done|]. split; [done|]. intros y. split; [set_solver|].
    intros [HP Hx]. apply Hin in HP. apply Hin'. naive_solver.
  - destruct (decide (r = room)) as [->|Hr]; [|apply Hother; [by rewrite lookup_insert_ne|done]].
    rewrite lookup_insert_eq. simpl. split; [by intros [= ->]|]. split; [done|]. intros y. rewrite Hin', Hin.
    naive_solver.
Qed.

(** Renumbering every list and dropping those that become empty. *)
Lemma room_index_omap {B} (S : B -> B -> Prop) (f : A -> option B) P Q index : room_index_ok R P index ->
  (forall room x y a b, P room x -> P room y -> R x y -> f x = Some a -> f y = Some b -> S a b) ->
  (forall room b, Q room b <-> exists x, P room x /\ f x = Some b) ->
  room_index_ok S Q (omap (fun l => non_empty (omap f l)) index).
Proof.
  intros Hok HS HQ room. rewrite lookup_omap. destruct (Hok room) as (Hn & Hs & Hin).
  assert (default [] (index !! room ≫= (fun l => non_empty (omap f l))) = omap f (default [] (index !! room))) as Hdef.
  { destruct (index !! room) as [l|]; simpl; [|done]. unfold non_empty. by destruct (omap f l). }
  rewrite Hdef. split; [|split].
  - destruct (index !! room) as [l|]; simpl; [|done]. unfold non_empty. destruct (omap f l); simpl; congruence.
  - eapply StronglySorted_omap; [|exact Hs]. intros x y a b Hx Hy. apply (HS room); by apply Hin.
  - intros b. rewrite list_elem_of_omap, HQ. by setoid_rewrite Hin.
Qed.
End RoomIndex.

(** * The relation index *)

(** The list of a target and a kind has each child once; a target without
    children has no entry. *)
Definition relation_index_ok (P : string -> RelationKind -> nat -> Prop) (index : gmap string RelationLists) : Prop :=
  forall target, (forall lists, index !! target = Some lists -> rl_all_empty lists = false)
    /\ forall kind, NoDup (default [] (rl_get kind <$> index !! target))
         /\ forall p, p ∈ default [] (rl_get kind <$> index !! target) <-> P target kind p.

Lemma rl_get_map f kind r : rl_get kind (rl_map f r) = f kind (rl_get kind r).
Proof. by destruct kind. Qed.

Lemma rl_get_empty kind : rl_get kind rl_empty = [].
Proof. by destruct kind. Qed.

Lemma rl_all_empty_spec r : rl_all_empty r = true <-> forall kind, rl_get kind r = [].
Proof.
  unfold rl_all_empty. split.
  - intros Hb kind. destruct kind; simpl; destruct (rl_replace r), (rl_thread r), (rl_reference r); done.
  - intros Hr. pose proof (Hr rk_replace) as H1. pose proof (Hr rk_thread) as H2. pose proof (Hr rk_reference) as H3.
    simpl in *. by rewrite H1, H2, H3.
Qed.

(** Reading a target's list after its record has been replaced, or dropped when
    nothing is left in it. *)
Lemma relation_list_set (index : gmap string RelationLists) target r kind :
  default [] (rl_get kind <$> (if rl_all_empty r then delete target index else <[target := r]> index) !! target)
    = rl_get kind r.
Proof.
  destruct (rl_all_empty r) eqn:E; [|by rewrite lookup_insert_eq].
  rewrite lookup_delete_eq. simpl. symmetry. by apply rl_all_empty_spec.
Qed.

Section RelationIndex.
Context (P : string -> RelationKind -> nat -> Prop) (index : gmap string RelationLists).
Hypothesis index_ok : relation_index_ok P index.

Lemma relation_index_ext Q : (forall t k p, P t k p <-> Q t k p) -> relation_index_ok Q index.
Proof.
  intros HPQ target. destruct (index_ok target) as [Hne Hk]. split; [done|]. intros kind.
  destruct (Hk kind) as [Hnd Hin]. split; [done|]. intros p. by rewrite Hin.
Qed.

(** Replacing one target's record. *)
Lemma relation_index_set target r Q : (forall t, t <> target -> forall k p, P t k p <-> Q t k p) ->
  (forall kind, NoDup (rl_get kind r) /\ forall p, p ∈ rl_get kind r <-> Q target kind p) ->
  relation_index_ok Q (if rl_all_empty r then delete target index else <[target := r]> index).
Proof.
  intros HPQ Hr t. destruct (decide (t = target)) as [->|Hne].
  - split; [|intros kind; rewrite relation_list_set; apply Hr].
    destruct (rl_all_empty r) eqn:E; intros lists; [by rewrite lookup_delete_eq|].
    rewrite lookup_insert_eq. by intros [= <-].
  - destruct (index_ok t) as [He Hk].
    assert ((if rl_all_empty r then delete target index else <[target := r]> index) !! t = index !! t) as ->
      by (destruct (rl_all_empty r); [by rewrite lookup_delete_ne|by rewrite lookup_insert_ne]).
    split; [done|]. intros kind. destruct (Hk kind) as [Hnd Hin]. split; [done|]. intros p. rewrite Hin. by apply HPQ.
Qed.

Lemma relation_lists_of target kind : rl_get kind (default rl_empty (index !! target)) =
  default [] (rl_get kind <$> index !! target).
Proof. destruct (index !! target); simpl; [done|apply rl_get_empty]. Qed.

Lemma index_relation_ok p key : ~ P (rel_target key) (rel_kind key) p ->
  relation_index_ok (fun t k q => P t k q \/ (key = {| rel_target := t; rel_kind := k |} /\ q = p))
    (index_relation p key index).
Proof.
  intros Hnew. set (r := rl_map (fun kind l => if bool_decide (kind = rel_kind key) then l ++ [p] else l)
    (default rl_empty (index !! rel_target key))).
  assert (index_relation p key index = if rl_all_empty r then delete (rel_target key) index
    else <[rel_target key := r]> index) as ->.
  { destruct (rl_all_empty r) eqn:E; [exfalso|done]. rewrite rl_all_empty_spec in E. specialize (E (rel_kind key)).
    subst r. rewrite rl_get_map, bool_decide_true in E by done. by apply app_nil in E as [_ ?]. }
  apply relation_index_set.
  - intros t Ht k q. split; [by left|]. intros [?|[Hkey _]]; [done|by rewrite Hkey in Ht].
  - intros kind. subst r. rewrite rl_get_map, relation_lists_of.
    destruct (index_ok (rel_target key)) as [_ Hk]. destruct (Hk kind) as [Hnd Hin]. case_bool_decide as Ek.
    + subst kind. split.
      * apply NoDup_app. split; [done|]. split; [|apply NoDup_singleton].
        intros q Hq ->%list_elem_of_singleton. by apply Hnew, Hin.
      * intros q. rewrite elem_of_app, list_elem_of_singleton, Hin. destruct key. simpl. naive_solver.
    + split; [done|]. intros q. rewrite Hin. split; [by left|]. intros [?|[Hkey _]]; [done|by rewrite Hkey in Ek].
Qed.

Lemma unindex_relation_ok p key :
  relation_index_ok (fun t k q => P t k q /\ ~ (key = {| rel_target := t; rel_kind := k |} /\ q = p))
    (unindex_relation p key index).
Proof.
  unfold unindex_relation. destruct (index_ok (rel_target key)) as [_ Hk].
  destruct (index !! rel_target key) as [lists|] eqn:E.
  - apply relation_index_set.
    + intros t Ht k q. split; [|by intros [? _]]. intros ?. split; [done|]. intros [Hkey _]. by rewrite Hkey in Ht.
    + intros kind. rewrite rl_get_map. destruct (Hk kind) as [Hnd Hin]. simpl in Hnd, Hin. case_bool_decide as Ek.
      * subst kind. split; [by apply NoDup_filter|]. intros q. rewrite list_elem_of_filter, Hin. destruct key. naive_solver.
      * split; [done|]. intros q. rewrite Hin. split; [|by intros [? _]]. intros ?. split; [done|].
        intros [Hkey _]. by rewrite Hkey in Ek.
  - apply relation_index_ext. intros t k q. split; [|by intros [? _]]. intros HP. split; [done|]. intros [-> _].
    simpl in Hk. destruct (Hk k) as [_ Hin]. apply Hin in HP. set_solver.
Qed.

(** Renumbering the children. *)
Lemma relation_index_omap (f : nat -> option nat) Q :
  (forall p q a, f p = Some a -> f q = Some a -> p = q) ->
  (forall t k b, Q t k b <-> exists p, P t k p /\ f p = Some b) ->
  relation_index_ok Q (omap (fun lists =>
    let lists := rl_map (fun _ l => omap f l) lists in if rl_all_empty lists then None else Some lists) index).
Proof.
  intros Hinj HQ target. rewrite lookup_omap. destruct (index_ok target) as [_ Hk].
  assert (forall kind, default [] (rl_get kind <$> (index !! target ≫= fun lists =>
    let lists := rl_map (fun _ l => omap f l) lists in if rl_all_empty lists then None else Some lists))
    = omap f (default [] (rl_get kind <$> index !! target))) as Hl.
  { intros kind. destruct (index !! target) as [r|]; simpl; [|done].
    destruct (rl_all_empty _) eqn:E; simpl; [|apply rl_get_map].
    rewrite rl_all_empty_spec in E. specialize (E kind). by rewrite rl_get_map in E. }
  split.
  - intros lists. destruct (index !! target) as [r|]; simpl; [|done]. destruct (rl_all_empty _) eqn:E; congruence.
  - intros kind. rewrite Hl. destruct (Hk kind) as [Hnd Hin]. split.
    + apply NoDup_omap; [|done]. intros p q a _ _ Ha Hb. by eapply Hinj.
    + intros b. rewrite list_elem_of_omap, HQ. by setoid_rewrite Hin.
Qed.
End RelationIndex.

(** * The invariant *)

(** Stream order: by ordering, then by the order in which the rows were added. *)
Definition before (rs : list PersistentEvent) (p q : nat) : Prop :=
  ordering_at rs p < ordering_at rs q \/ (ordering_at rs p = ordering_at rs q /\ (p < q)%nat).

Definition te_lt (a b : TimeEntry) : Prop := te_ltb a b = true.

#[export] Instance before_trans rs : Transitive (before rs).
Proof. intros p q r. unfold before. lia. Qed.

Lemma te_lt_spec a b : te_lt a b <->
  te_origin_server_ts a < te_origin_server_ts b \/ te_origin_server_ts a = te_origin_server_ts b /\
  (te_depth a < te_depth b \/ te_depth a = te_depth b /\
   (te_stream_ordering a < te_stream_ordering b \/ te_stream_ordering a = te_stream_ordering b /\
    (te_position a < te_position b)%nat)).
Proof.
  unfold te_lt, te_ltb.
  destruct (te_origin_server_ts a =? te_origin_server_ts b) eqn:E1; simpl; breflect; [|rewrite Z.ltb_lt; lia].
  destruct (te_depth a =? te_depth b) eqn:E2; simpl; breflect; [|rewrite Z.ltb_lt; lia].
  destruct (te_stream_ordering a =? te_stream_ordering b) eqn:E3; simpl; breflect; [|rewrite Z.ltb_lt; lia].
  rewrite Nat.ltb_lt. lia.
Qed.

#[export] Instance te_lt_trans : Transitive te_lt.
Proof. intros a b c. rewrite !te_lt_spec. lia. Qed.

Lemma te_lt_irrefl a : ~ te_lt a a.
Proof. rewrite te_lt_spec. lia. Qed.

Lemma te_total a b : te_position a <> te_position b -> te_ltb a b = false -> te_lt b a.
Proof.
  intros Hne Hf. assert (~ te_lt a b) as Hn by (unfold te_lt; congruence).
  rewrite te_lt_spec in *. lia.
Qed.

(** What belongs to a room in the two indexes by room. *)
Definition in_room (rs : list PersistentEvent) (room : string) (p : nat) : Prop :=
  exists e, rs !! p = Some e /\ ev_room_id e = room.

Definition timed_in_room (rs : list PersistentEvent) (room : string) (te : TimeEntry) : Prop :=
  exists e, rs !! te_position te = Some e /\ ev_room_id e = room /\ time_entry_for e (te_position te) = Some te.

(** The greatest positive timestamp of a room's rows, 0 when there is none. *)
Definition room_max (rs : list PersistentEvent) (room : string) : Z :=
  foldr Z.max 0 (latest_ts_of <$> filter (fun e => ev_room_id e = room) rs).

Section Invariant.
Context `{Yyjson}.

Definition related (rs : list PersistentEvent) (target : string) (kind : RelationKind) (p : nat) : Prop :=
  exists e, rs !! p = Some e /\ relation_key_for e = Some {| rel_target := target; rel_kind := kind |}.

Definition ids_ok (rs : list PersistentEvent) (ids : gmap string nat) : Prop :=
  forall id p, ids !! id = Some p <-> exists e, rs !! p = Some e /\ ev_event_id e = id.

Definition stream_ok (rs : list PersistentEvent) (order : list nat) : Prop :=
  StronglySorted (before rs) order /\ forall p, p ∈ order <-> (p < length rs)%nat.

Definition latest_ok (rs : list PersistentEvent) (index : gmap string Z) : Prop :=
  forall room, index !! room = if 0 <? room_max rs room then Some (room_max rs room) else None.

Definition relations_ok (rs : list PersistentEvent) (index : gmap string RelationLists) : Prop :=
  relation_index_ok (related rs) index.

Record table_ok (t : EventTable) : Prop := {
  ok_ids : ids_ok (rows t) (by_id t);
  ok_stream : stream_ok (rows t) (stream_order t);
  ok_room_stream : room_index_ok (before (rows t)) (in_room (rows t)) (by_room_stream t);
  ok_room_time : room_index_ok te_lt (timed_in_room (rows t)) (by_room_time t);
  ok_latest : latest_ok (rows t) (room_latest_ts t);
  ok_relations : relations_ok (rows t) (relation_children t)
}.
End Invariant.

(** * Appending a row *)

Section Append.
Context (rs : list PersistentEvent) (e : PersistentEvent).

Lemma lookup_snoc p x : (rs ++ [e]) !! p = Some x <-> rs !! p = Some x \/ (p = length rs /\ x = e).
Proof.
  rewrite lookup_app_Some, list_lookup_singleton_Some. split.
  - intros [?|[? [? ?]]]; [by left|right; split; [lia|done]].
  - intros [?|[-> ->]]; [by left|right]. split; [done|]. split; [lia|done].
Qed.

Lemma ordering_at_snoc p : (p < length rs)%nat -> ordering_at (rs ++ [e]) p = ordering_at rs p.
Proof. intros Hp. unfold ordering_at. by rewrite lookup_app_l. Qed.

Lemma before_snoc p q : (p < length rs)%nat -> (q < length rs)%nat -> before (rs ++ [e]) p q <-> before rs p q.
Proof. intros Hp Hq. unfold before. by rewrite !ordering_at_snoc. Qed.

Lemma in_room_lt room p : in_room rs room p -> (p < length rs)%nat.
Proof. intros (x & Hx & _). by eapply lookup_lt_Some. Qed.

Lemma in_room_snoc room p : in_room (rs ++ [e]) room p <-> in_room rs room p \/ (room = ev_room_id e /\ p = length rs).
Proof. unfold in_room. setoid_rewrite lookup_snoc. naive_solver. Qed.

Lemma time_entry_position x p te : time_entry_for x p = Some te -> te_position te = p.
Proof. unfold time_entry_for. intros Ht. repeat (split_hyp Ht; [done|]). split_hyp Ht; [by simplify_eq|done]. Qed.

Lemma timed_in_room_snoc room te : timed_in_room (rs ++ [e]) room te <->
  timed_in_room rs room te \/ (room = ev_room_id e /\ time_entry_for e (length rs) = Some te).
Proof.
  unfold timed_in_room. setoid_rewrite lookup_snoc. split.
  - intros (x & [Hx|[Hp ->]] & <- & Ht); [left; by exists x|right]. by rewrite Hp in Ht.
  - intros [(x & ? & ? & ?)|[-> Ht]]; [exists x; auto|]. exists e. pose proof (time_entry_position _ _ _ Ht) as ->. auto.
Qed.

Lemma timed_lt room te : timed_in_room rs room te -> (te_position te < length rs)%nat.
Proof. intros (x & Hx & _). by eapply lookup_lt_Some. Qed.

(** A row added last comes after every row of no greater ordering. *)
Lemma new_position_places l : (forall p, p ∈ l -> (p < length rs)%nat) ->
  places (before (rs ++ [e])) (ordering_ltb (rs ++ [e])) (length rs) l.
Proof.
  intros Hl p Hp. specialize (Hl p Hp). unfold ordering_ltb, before. split; intros Hc; breflect; [by left|]. lia.
Qed.

Lemma new_entry_places te l : te_position te = length rs -> (forall x, x ∈ l -> (te_position x < length rs)%nat) ->
  places te_lt te_ltb te l.
Proof. intros Hp Hl x Hx. split; [done|]. apply te_total. specialize (Hl x Hx). lia. Qed.

Lemma room_max_snoc room : room_max (rs ++ [e]) room =
  if decide (ev_room_id e = room) then Z.max (room_max rs room) (latest_ts_of e) else room_max rs room.
Proof.
  unfold room_max. rewrite filter_app, filter_cons, filter_nil, fmap_app.
  destruct (decide (ev_room_id e = room)); simpl; [|by rewrite app_nil_r].
  generalize (latest_ts_of <$> filter (fun e => ev_room_id e = room) rs). intros l. rewrite foldr_app. simpl.
  assert (0 <= latest_ts_of e) as Hp
    by (unfold latest_ts_of; destruct (top_level_integer _ _) as [ts|]; [destruct (0 <? ts) eqn:E; breflect|]; lia).
  rewrite Z.max_l by lia. induction l as [|x l IH]; simpl; lia.
Qed.

Lemma latest_ts_nonneg x : 0 <= latest_ts_of x.
Proof. unfold latest_ts_of. destruct (top_level_integer _ _) as [ts|]; [destruct (0 <? ts) eqn:E; breflect|]; lia. Qed.

Lemma note_latest_ok index : latest_ok rs index -> latest_ok (rs ++ [e]) (note_latest_ts e index).
Proof.
  intros Hok room. rewrite room_max_snoc. unfold note_latest_ts. pose proof (latest_ts_nonneg e).
  pose proof (Hok room) as Hroom. destruct (decide (ev_room_id e = room)) as [<-|Hne].
  - revert Hroom. generalize (room_max rs (ev_room_id e)). intros m Hroom.
    destruct (0 <? latest_ts_of e) eqn:E, (0 <? Z.max m (latest_ts_of e)) eqn:Em, (0 <? m) eqn:Er; breflect;
      try lia; rewrite ?lookup_insert_eq, Hroom; simpl; try done; f_equal; lia.
  - destruct (0 <? latest_ts_of e); [by rewrite lookup_insert_ne|done].
Qed.

Lemma ids_snoc_ok ids : ids_ok rs ids -> ids !! ev_event_id e = None ->
  ids_ok (rs ++ [e]) (<[ev_event_id e := length rs]> ids).
Proof.
  intros Hok Hn id p. setoid_rewrite lookup_snoc. destruct (decide (id = ev_event_id e)) as [->|Hne].
  - rewrite lookup_insert_eq. split.
    + intros [= <-]. exists e. split; [by right|done].
    + intros (x & [Hx|[-> ->]] & Hid); [|done]. exfalso.
      assert (ids !! ev_event_id e = Some p) by (apply Hok; by exists x). congruence.
  - rewrite lookup_insert_ne by done. rewrite (Hok id p). split.
    + intros (x & Hx & Hid). exists x. split; [by left|done].
    + intros (x & [Hx|[-> ->]] & Hid); [by exists x|congruence].
Qed.
End Append.
