(* ===== verification/EventTableAdd.v ===== *)
(** Adding rows to the event table, one by one or in a batch: the invariant is
    kept, and a batch leaves the table that the single insertions leave. *)
From S2P Require Import Prelude CppStd JsonValue JsonParser EventShape EventId EventTable EventTableInv.
Open Scope Z_scope.

(** * A sorted tail *)

Section Tail.
Context {A : Type} (R : A -> A -> Prop) (ltb : A -> A -> bool).
Context `{!Transitive R}.

(** The comparator puts [x], which comes first, and [y] the way the order does. *)
Definition stable (x y : A) : Prop := (ltb y x = true -> R y x) /\ (ltb y x = false -> R x y).

Lemma insert_by_stable x l : (forall y, y ∈ l -> stable x y) -> StronglySorted R l ->
  StronglySorted R (insert_by ltb x l).
Proof.
  intros Hx Hs. induction Hs as [|y l Hs IH Hy]; simpl; [by repeat constructor|].
  destruct (Hx y ltac:(by left)) as [Hlt Hge]. destruct (ltb y x).
  - constructor; [apply IH; intros z Hz; apply Hx; by right|]. rewrite insert_by_perm. constructor; auto.
  - specialize (Hge eq_refl). constructor; [by constructor|]. constructor; [done|].
    rewrite Forall_forall in Hy; rewrite Forall_forall. intros z Hz. transitivity y; auto.
Qed.

Lemma sort_by_stable l : StronglySorted stable l -> StronglySorted R (sort_by ltb l).
Proof.
  induction 1 as [|x l Hs IH Hx]; [constructor|].
  change (sort_by ltb (x :: l)) with (insert_by ltb x (sort_by ltb l)). apply (insert_by_stable x); [|done].
  intros y Hy. rewrite elem_of_sort_by in Hy. rewrite Forall_forall in Hx. auto.
Qed.

Lemma merge_tail_sorted l r : (forall x y, x ∈ l -> y ∈ r -> stable x y) -> StronglySorted R l ->
  StronglySorted stable r -> StronglySorted R (merge_sorted ltb l (sort_by ltb r)).
Proof.
  intros Hlr Hl Hr. apply merge_sorted_sorted; [done| |done|by apply sort_by_stable].
  intros x y Hx Hy. apply Hlr; [done|]. by rewrite elem_of_sort_by in Hy.
Qed.

Lemma merge_tail_elem l r x : x ∈ merge_sorted ltb l (sort_by ltb r) <-> x ∈ l \/ x ∈ r.
Proof. by rewrite merge_sorted_perm, elem_of_app, elem_of_sort_by. Qed.

(** The entries of a room, in the order they were appended. *)
Definition entries_of (room : string) (entries : list (string * A)) : list A :=
  omap (fun en => if decide (en.1 = room) then Some en.2 else None) entries.

Lemma elem_of_entries_of room entries x : x ∈ entries_of room entries <-> (room, x) ∈ entries.
Proof.
  unfold entries_of. rewrite list_elem_of_omap. split.
  - intros ([r y] & Hin & Hx). simpl in Hx. case_decide; by simplify_eq.
  - intros Hin. exists (room, x). split; [done|]. simpl. by rewrite decide_True.
Qed.

Lemma append_to_rooms (index : gmap string (list A)) entries room :
  let m := foldl append_to_room (index, ∅) entries in
  let l := default [] (index !! room) in
  m.1 !! room = (if is_nil (entries_of room entries) then index !! room else Some (l ++ entries_of room entries))
  /\ m.2 !! room = if is_nil (entries_of room entries) then None else Some (length l).
Proof.
  induction entries as [|[r x] entries IH] using rev_ind; simpl; [by rewrite lookup_empty|].
  rewrite foldl_app. simpl in *. revert IH. destruct (foldl append_to_room (index, ∅) entries) as [lists touched].
  simpl. intros [IH1 IH2]. unfold entries_of in *. rewrite omap_app. csimpl.
  set (es := omap _ entries) in *. destruct (decide (r = room)) as [->|Hne].
  - rewrite lookup_insert_eq, IH1. destruct es as [|a es]; simpl in *.
    + rewrite IH2. by rewrite lookup_insert_eq.
    + rewrite IH2. by rewrite <- app_assoc.
  - rewrite app_nil_r, lookup_insert_ne by done. split; [done|].
    destruct (touched !! r); [done|by rewrite lookup_insert_ne].
Qed.

Lemma merge_touched_lookup (index : gmap string (list A)) entries room :
  merge_touched ltb (foldl append_to_room (index, ∅) entries) !! room =
  if is_nil (entries_of room entries) then index !! room
  else Some (merge_sorted ltb (default [] (index !! room)) (sort_by ltb (entries_of room entries))).
Proof.
  unfold merge_touched. rewrite map_lookup_imap. destruct (append_to_rooms index entries room) as [H1 H2].
  simpl in H1, H2. rewrite H1, H2. destruct (is_nil _).
  - by destruct (index !! room).
  - simpl. by rewrite take_app_length, drop_app_length.
Qed.

(** Appending to the rooms and merging the sorted tails keeps an index by room. *)
Lemma room_index_merge P (index : gmap string (list A)) entries : room_index_ok R P index ->
  (forall room x y, P room x -> (room, y) ∈ entries -> stable x y) ->
  (forall room, StronglySorted stable (entries_of room entries)) ->
  room_index_ok R (fun room x => P room x \/ (room, x) ∈ entries)
    (merge_touched ltb (foldl append_to_room (index, ∅) entries)).
Proof.
  intros Hok Hst Hs room. destruct (Hok room) as (Hn & Hsorted & Hin). rewrite merge_touched_lookup.
  assert (default [] (if is_nil (entries_of room entries) then index !! room
    else Some (merge_sorted ltb (default [] (index !! room)) (sort_by ltb (entries_of room entries))))
    = merge_sorted ltb (default [] (index !! room)) (sort_by ltb (entries_of room entries))) as Hd
    by (destruct (entries_of room entries); simpl; [by rewrite merge_sorted_nil_r|done]).
  rewrite Hd. split; [|split].
  - destruct (entries_of room entries) as [|a es] eqn:E; simpl; [done|]. intros [= Hnil].
    pose proof (merge_sorted_perm ltb (default [] (index !! room)) (sort_by ltb (a :: es))) as Hp.
    assert (a ∈ []) as Ha; [|set_solver]. change (sort_by ltb (a :: es)) with (insert_by ltb a (sort_by ltb es)) in Hp.
    rewrite Hnil in Hp. rewrite Hp, insert_by_perm. set_solver.
  - apply merge_tail_sorted; [|done|done]. intros x y Hx%Hin Hy%elem_of_entries_of. by eapply Hst.
  - intros x. by rewrite merge_tail_elem, Hin, elem_of_entries_of.
Qed.
End Tail.

Lemma entries_of_omap {A B} (f : A -> option (string * B)) room l :
  entries_of room (omap f l) = omap (fun x => en ← f x; if decide (en.1 = room) then Some en.2 else None) l.
Proof.
  unfold entries_of. induction l as [|x l IH]; csimpl; [done|]. destruct (f x) as [[r y]|]; csimpl; [|done].
  by case_decide; csimpl; rewrite IH.
Qed.

Lemma seq_sorted n k : StronglySorted lt (seq n k).
Proof.
  revert n. induction k as [|k IH]; intros n; simpl; constructor; [done|]. apply Forall_forall.
  intros x Hx. apply elem_of_seq in Hx. lia.
Qed.

Section Adding.
Context `{Yyjson}.

Lemma empty_table_ok : table_ok empty_table.
Proof.
  constructor; simpl.
  - intros id p. rewrite lookup_empty. split; [done|]. intros (e & He & _). done.
  - split; [constructor|]. intros p. simpl. split; [set_solver|lia].
  - intros room. rewrite lookup_empty. split; [done|]. split; [constructor|]. intros x.
    split; [set_solver|]. intros (e & He & _). done.
  - intros room. rewrite lookup_empty. split; [done|]. split; [constructor|]. intros x.
    split; [set_solver|]. intros (e & He & _). done.
  - intros room. by rewrite lookup_empty.
  - intros target. rewrite lookup_empty. split; [done|]. intros kind. split; [constructor|]. intros p.
    split; [set_solver|]. intros (e & He & _). done.
Qed.

Lemma related_lt rs target kind p : related rs target kind p -> (p < length rs)%nat.
Proof. intros (e & He & _). by eapply lookup_lt_Some. Qed.

(** * One row *)

Lemma insert_stream_ok e t : table_ok t ->
  stream_ok (rows t ++ [e]) (push_or_insert (ordering_ltb (rows t ++ [e])) (length (rows t)) (stream_order t)).
Proof.
  intros Hok. destruct (ok_stream t Hok) as [Hs Hin]. split.
  - apply push_or_insert_sorted; [apply _| |].
    + apply new_position_places. intros p. apply Hin.
    + eapply StronglySorted_impl; [|exact Hs]. intros p q Hp%Hin Hq%Hin. by apply before_snoc.
  - intros p. rewrite push_or_insert_perm, elem_of_cons, Hin, length_app. simpl. lia.
Qed.

Lemma insert_room_stream_ok e t : table_ok t ->
  room_index_ok (before (rows t ++ [e])) (in_room (rows t ++ [e]))
    (index_stream (rows t ++ [e]) (length (rows t)) (by_room_stream t)).
Proof.
  intros Hok. unfold index_stream. rewrite (proj2 (lookup_snoc (rows t) e _ _)) by (by right).
  assert (room_index_ok (before (rows t ++ [e])) (in_room (rows t)) (by_room_stream t)) as Hbase.
  { eapply room_index_ext; [apply (ok_room_stream t Hok)|done|]. intros room p q Hp%in_room_lt Hq%in_room_lt.
    by apply before_snoc. }
  eapply room_index_ext; [eapply room_index_add; [|exact Hbase|]; [apply _|]| |done].
  - apply new_position_places. intros p Hp. apply Hbase in Hp. by apply in_room_lt in Hp.
  - intros room p. by rewrite in_room_snoc.
Qed.

Lemma insert_room_time_ok e t : table_ok t ->
  room_index_ok te_lt (timed_in_room (rows t ++ [e])) (index_time (rows t ++ [e]) (length (rows t)) (by_room_time t)).
Proof.
  intros Hok. unfold index_time. rewrite (proj2 (lookup_snoc (rows t) e _ _)) by (by right).
  pose proof (ok_room_time t Hok) as Hbase. destruct (time_entry_for e (length (rows t))) as [te|] eqn:E.
  - eapply room_index_ext; [eapply room_index_add; [|exact Hbase|]; [apply _|]| |done].
    + eapply new_entry_places; [by eapply time_entry_position|]. intros x Hx. apply Hbase in Hx. by apply timed_lt in Hx.
    + intros room x. rewrite timed_in_room_snoc, E. naive_solver.
  - eapply room_index_ext; [exact Hbase| |done]. intros room x. rewrite timed_in_room_snoc, E. naive_solver.
Qed.

Lemma index_relation_of_ok P rs p index : relation_index_ok P index -> (forall t k, ~ P t k p) ->
  relation_index_ok (fun t k q => P t k q \/ (related rs t k q /\ q = p)) (index_relation_of rs p index).
Proof.
  intros Hok Hnew. unfold index_relation_of, related. destruct (rs !! p) as [e|] eqn:Ee; simpl.
  - destruct (relation_key_for e) as [key|] eqn:Ek.
    + eapply relation_index_ext; [by apply index_relation_ok|]. naive_solver.
    + eapply relation_index_ext; [done|]. naive_solver.
  - eapply relation_index_ext; [done|]. naive_solver.
Qed.

Lemma related_snoc rs e t k p : related (rs ++ [e]) t k p <->
  related rs t k p \/ (related (rs ++ [e]) t k p /\ p = length rs).
Proof.
  split; [|intros [(x & Hx & ?)|[? _]]; [|done]].
  - intros (x & [Hx|[-> ->]]%lookup_snoc & ?); [left; by exists x|right]. split; [|done]. exists e.
    split; [|done]. apply lookup_snoc. by right.
  - exists x. split; [|done]. apply lookup_snoc. by left.
Qed.

Lemma insert_ok e t : table_ok t -> table_ok (insert e t).2.
Proof.
  intros Hok. unfold insert. destruct (by_id t !! ev_event_id e) eqn:E; [done|]. constructor; simpl.
  - apply ids_snoc_ok; [apply (ok_ids t Hok)|done].
  - by apply insert_stream_ok.
  - by apply insert_room_stream_ok.
  - by apply insert_room_time_ok.
  - apply note_latest_ok, (ok_latest t Hok).
  - eapply relation_index_ext; [apply index_relation_of_ok; [apply (ok_relations t Hok)|]|].
    + intros target kind Hp%related_lt. lia.
    + intros target kind p. by rewrite <- related_snoc.
Qed.

(** * A batch *)

(** What the first loop of a batch adds: the rows whose IDs are new. *)
Lemma add_rows_ok events : forall rs ids latest, ids_ok rs ids -> latest_ok rs latest ->
  exists added, let '(rs', ids', latest') := add_rows events rs ids latest in
    rs' = rs ++ added /\ ids_ok rs' ids' /\ latest_ok rs' latest'.
Proof.
  induction events as [|e events IH]; intros rs ids latest Hids Hl; simpl; [exists []; by rewrite app_nil_r|].
  destruct (ids !! ev_event_id e) eqn:E; [by apply IH|].
  destruct (IH (rs ++ [e]) (<[ev_event_id e := length rs]> ids) (note_latest_ts e latest)) as [added Hadded];
    [by apply ids_snoc_ok|by apply note_latest_ok|].
  destruct (add_rows _ _ _ _) as [[rs' ids'] latest']. destruct Hadded as (-> & ? & ?).
  exists (e :: added). split; [by rewrite <- app_assoc|done].
Qed.

Section Batch.
Context (rs added : list PersistentEvent).
Local Abbreviation all := (rs ++ added).
Local Abbreviation new := (seq (length rs) (length added)).

Lemma before_app p q : (p < length rs)%nat -> (q < length rs)%nat -> before all p q <-> before rs p q.
Proof. intros Hp Hq. unfold before, ordering_at. by rewrite !lookup_app_l by done. Qed.

Lemma positions_stable p q : (p < q)%nat -> stable (before all) (ordering_ltb all) p q.
Proof. intros Hpq. unfold stable, ordering_ltb, before. split; intros Hc; breflect; [by left|lia]. Qed.

Lemma batch_stream_ok order : stream_ok rs order ->
  stream_ok all (merge_sorted (ordering_ltb all) order (sort_by (ordering_ltb all) new)).
Proof.
  intros [Hs Hin]. split.
  - apply merge_tail_sorted; [apply _| | |].
    + intros p q Hp%Hin Hq%elem_of_seq. apply positions_stable. lia.
    + eapply StronglySorted_impl; [|exact Hs]. intros p q Hp%Hin Hq%Hin. by apply before_app.
    + eapply StronglySorted_impl; [|apply seq_sorted]. intros p q _ _. apply positions_stable.
  - intros p. rewrite merge_tail_elem, Hin, elem_of_seq, length_app. lia.
Qed.

Lemma lookup_new p e : all !! p = Some e <-> rs !! p = Some e \/ (all !! p = Some e /\ p ∈ new).
Proof.
  split; [|intros [?|[? _]]; [by apply lookup_app_l_Some|done]]. intros Hp.
  destruct (decide (p < length rs)%nat) as [Hl|Hl]; [left; by rewrite lookup_app_l in Hp|right].
  split; [done|]. apply elem_of_seq. apply lookup_lt_Some in Hp. rewrite length_app in Hp. lia.
Qed.

(** Entries of the added rows, for an index by room. *)
Lemma batch_room_index {A} (R : A -> A -> Prop) ltb `{!Transitive R} (P : string -> A -> Prop)
    (f : nat -> option (string * A)) index : room_index_ok R P index ->
  (forall room x p y, P room x -> p ∈ new -> f p = Some (room, y) -> stable R ltb x y) ->
  (forall room p q x y, (p < q)%nat -> f p = Some (room, x) -> f q = Some (room, y) -> stable R ltb x y) ->
  room_index_ok R (fun room x => P room x \/ exists p, p ∈ new /\ f p = Some (room, x))
    (merge_touched ltb (foldl append_to_room (index, ∅) (omap f new))).
Proof.
  intros Hok Hold Hnew. eapply room_index_ext; [eapply room_index_merge; [|exact Hok| |]; [apply _| |]| |done].
  - intros room x y HP (p & Hp & Hf)%list_elem_of_omap. by eapply Hold.
  - intros room. rewrite entries_of_omap. eapply StronglySorted_omap; [|apply seq_sorted].
    intros p q x y _ _ Hpq Hx Hy. destruct (f p) as [[r1 a]|] eqn:E1; [|done]. destruct (f q) as [[r2 b]|] eqn:E2; [|done].
    simpl in Hx, Hy. repeat case_decide; simplify_eq. by eapply Hnew.
  - intros room x. split; (intros [?|Hin]; [by left|right; by apply list_elem_of_omap in Hin || by apply list_elem_of_omap]).
Qed.

Lemma batch_room_stream_ok index : room_index_ok (before rs) (in_room rs) index ->
  room_index_ok (before all) (in_room all) (merge_touched (ordering_ltb all)
    (foldl append_to_room (index, ∅)
      ((fun p => (match all !! p with Some row => ev_room_id row | None => EmptyString end, p)) <$> new))).
Proof.
  intros Hok. rewrite list_fmap_alt.
  assert (room_index_ok (before all) (in_room rs) index) as Hbase.
  { eapply room_index_ext; [exact Hok|done|]. intros room p q Hp%in_room_lt Hq%in_room_lt. by apply before_app. }
  eapply room_index_ext; [eapply batch_room_index; [|exact Hbase| |]; [apply _| |]| |done].
  - intros room x p y Hx%in_room_lt Hp%elem_of_seq [= _ <-]. apply positions_stable. lia.
  - intros room p q x y Hpq [= _ <-] [= _ <-]. by apply positions_stable.
  - intros room p. unfold in_room. setoid_rewrite lookup_new. split.
    + intros [(e & He & Hr)|(q & Hq & [= Hr ->])]; [exists e; auto|].
      assert (is_Some (all !! p)) as [e He]
        by (apply elem_of_seq in Hq; apply lookup_lt_is_Some; rewrite length_app; lia).
      exists e. rewrite He in Hr. auto.
    + intros (e & [He|[He Hp]] & Hr); [left; by exists e|right]. exists p. rewrite He, Hr. auto.
Qed.

Lemma batch_room_time_ok index : room_index_ok te_lt (timed_in_room rs) index ->
  room_index_ok te_lt (timed_in_room all) (merge_touched te_ltb
    (foldl append_to_room (index, ∅)
      (omap (fun p => row ← all !! p; entry ← time_entry_for row p; Some (ev_room_id row, entry)) new))).
Proof.
  intros Hok.
  assert (forall room p te, (row ← all !! p; entry ← time_entry_for row p; Some (ev_room_id row, entry)) = Some (room, te)
    <-> exists e, all !! p = Some e /\ ev_room_id e = room /\ time_entry_for e p = Some te) as Hf.
  { intros room p te. destruct (all !! p) as [e|]; simpl; [|naive_solver].
    destruct (time_entry_for e p) eqn:Ht; simpl; split.
    - intros [= <- <-]. by exists e.
    - intros (x & [= <-] & <- & Hx). congruence.
    - done.
    - intros (x & [= <-] & <- & Hx). congruence. }
  assert (forall x y, (te_position x < te_position y)%nat -> stable te_lt te_ltb x y) as Hst.
  { intros x y Hxy. split; [done|]. apply te_total. lia. }
  eapply room_index_ext; [eapply batch_room_index; [|exact Hok| |]; [apply _| |]| |done].
  - intros room x p y Hx%timed_lt Hp%elem_of_seq (e & _ & _ & Hy%time_entry_position)%Hf. apply Hst. lia.
  - intros room p q x y Hpq (e & _ & _ & Hx%time_entry_position)%Hf (e' & _ & _ & Hy%time_entry_position)%Hf.
    apply Hst. lia.
  - intros room te. setoid_rewrite Hf. unfold timed_in_room. setoid_rewrite lookup_new at 2. split.
    + intros [(e & ? & ? & ?)|(p & Hp & e & He & Hr & Ht)]; [exists e; auto|].
      pose proof (time_entry_position _ _ _ Ht) as ->. exists e. auto.
    + intros (e & [He|[He Hp]] & Hr & Ht); [left; by exists e|right]. eauto 6.
Qed.

Lemma batch_relations_ok index : relations_ok rs index ->
  relations_ok all (foldl (fun index p => index_relation_of all p index) index new).
Proof.
  intros Hok. assert (forall n, relation_index_ok
    (fun t k p => related rs t k p \/ (related all t k p /\ p ∈ seq (length rs) n))
    (foldl (fun index p => index_relation_of all p index) index (seq (length rs) n))) as Hn.
  { induction n as [|n IH]; [eapply relation_index_ext; [exact Hok|]; set_solver|].
    rewrite seq_S, foldl_app. simpl. eapply relation_index_ext; [apply index_relation_of_ok; [exact IH|]|].
    - intros t k [Hp%related_lt|[_ Hp%elem_of_seq]]; lia.
    - intros t k p. rewrite elem_of_app, list_elem_of_singleton. naive_solver. }
  eapply relation_index_ext; [apply Hn|]. intros t k p. unfold related. setoid_rewrite lookup_new at 2. naive_solver.
Qed.
End Batch.

Lemma insert_all_ok events t : table_ok t -> table_ok (insert_all events t).2.
Proof.
  intros Hok. unfold insert_all.
  destruct (add_rows_ok events _ _ _ (ok_ids t Hok) (ok_latest t Hok)) as [added Hadded].
  destruct (add_rows _ _ _ _) as [[rs ids] latest]. destruct Hadded as (-> & Hids & Hlatest).
  rewrite length_app, Nat.add_comm, Nat.add_sub. constructor; simpl; [done| | | |done|].
  - apply batch_stream_ok, (ok_stream t Hok).
  - apply batch_room_stream_ok, (ok_room_stream t Hok).
  - apply batch_room_time_ok, (ok_room_time t Hok).
  - apply batch_relations_ok, (ok_relations t Hok).
Qed.

(** * Batch and single insertions *)

Lemma room_index_unique {A} (R : A -> A -> Prop) `{!Transitive R} P (i j : gmap string (list A)) :
  (forall x y, R x y -> R y x -> False) -> room_index_ok R P i -> room_index_ok R P j -> i = j.
Proof.
  intros Hasym Hi Hj. apply map_eq. intros room. destruct (Hi room) as (Hni & Hsi & Hini), (Hj room) as (Hnj & Hsj & Hinj).
  assert (default [] (i !! room) = default [] (j !! room)) as Heq
    by (eapply (sorted_unique R); [exact Hasym|done|done|]; intros x; by rewrite Hini, Hinj).
  destruct (i !! room) as [l|], (j !! room) as [k|]; simpl in Heq; congruence.
Qed.

Lemma before_asym rs p q : before rs p q -> before rs q p -> False.
Proof. unfold before. lia. Qed.

Lemma te_lt_asym a b : te_lt a b -> te_lt b a -> False.
Proof. intros H1 H2. by apply (te_lt_irrefl a), (te_lt_trans a b a). Qed.

(** The invariant leaves the indexes no choice but the order of the relation lists. *)
Lemma table_ok_unique t u : table_ok t -> table_ok u -> rows t = rows u -> relation_children t = relation_children u ->
  t = u.
Proof.
  destruct t as [rs i1 i2 i3 i4 i5 i6], u as [rs' j1 j2 j3 j4 j5 j6]. simpl. intros Ht Hu -> ->.
  destruct Ht as [A1 [A2 A2'] A3 A4 A5 _], Hu as [B1 [B2 B2'] B3 B4 B5 _]. simpl in *. f_equal.
  - apply map_eq. intros id. apply option_eq. intros p. by rewrite (A1 id p), (B1 id p).
  - eapply (sorted_unique (before rs')); [apply before_asym|done|done|]. intros p. by rewrite A2', B2'.
  - eapply (room_index_unique (before rs')); eauto using before_asym.
  - eapply (room_index_unique te_lt); eauto using te_lt_asym.
  - apply map_eq. intros room. by rewrite A5, B5.
Qed.

Definition insert_each (events : list PersistentEvent) (t : EventTable) : EventTable :=
  foldl (fun t event => (insert event t).2) t events.

Lemma insert_each_ok events : forall t, table_ok t -> table_ok (insert_each events t).
Proof. induction events as [|e events IH]; intros t Hok; [done|]. by apply IH, insert_ok. Qed.

(** Single insertions add what the first loop of a batch adds, and index the
    relations of the added rows in the same order. *)
Lemma insert_each_rows events : forall t, let u := insert_each events t in
  exists added, add_rows events (rows t) (by_id t) (room_latest_ts t) = (rows t ++ added, by_id u, room_latest_ts u)
    /\ rows u = rows t ++ added
    /\ relation_children u = foldl (fun index p => index_relation_of (rows u) p index) (relation_children t)
         (seq (length (rows t)) (length added)).
Proof.
  induction events as [|e events IH]; intros t u.
  - exists []. subst u. simpl. by rewrite app_nil_r.
  - change u with (insert_each events (insert e t).2). destruct (IH (insert e t).2) as (added & Hadd & Hrows & Hrel).
    clearbody u. clear u. revert Hadd Hrows Hrel. generalize (insert_each events (insert e t).2). intros u.
    unfold insert. simpl. destruct (by_id t !! ev_event_id e) eqn:E; simpl; intros Hadd Hrows Hrel.
    + by exists added.
    + exists (e :: added). rewrite <- app_assoc in Hadd, Hrows. rewrite Hadd, Hrel, length_app, Hrows. simpl.
      split; [done|]. split; [done|]. rewrite Nat.add_1_r. f_equal. unfold index_relation_of.
      rewrite !lookup_app_r, Nat.sub_diag by done. done.
Qed.

Lemma insert_all_each events t : table_ok t -> (insert_all events t).2 = insert_each events t.
Proof.
  intros Hok. pose proof (insert_all_ok events t Hok) as Hall. pose proof (insert_each_ok events t Hok) as Heach.
  destruct (insert_each_rows events t) as (added & Hadd & Hrows & Hrel).
  apply table_ok_unique; [done|done| |]; unfold insert_all; rewrite Hadd; simpl.
  - done.
  - rewrite Hrel, Hrows. by rewrite length_app, Nat.add_comm, Nat.add_sub.
Qed.
End Adding.
