(* ===== verification/EventTableErase.v ===== *)
(** Removing rows from the event table and rewriting a row in place: the
    invariant is kept. *)
From S2P Require Import Prelude CppStd JsonValue JsonParser EventShape EventId EventTable EventTableInv.
Open Scope Z_scope.

(** * Renumbering *)

Lemma remap_lookup {A} (rs : list A) removed : length removed = length rs -> forall k p q,
  remapped (build_remap k removed) p = Some q -> (k <= q)%nat /\ kept_rows rs removed !! (q - k)%nat = rs !! p
    /\ (p < length rs)%nat.
Proof.
  unfold remapped. revert removed. induction rs as [|r rs IH]; intros [|[] removed] Hlen k p q; simpl in *; try done.
  - destruct p as [|p]; simpl; [done|]. intros Hp. apply (IH removed ltac:(lia)) in Hp as (? & ? & ?). split; [done|].
    split; [done|lia].
  - destruct p as [|p]; simpl; [intros [= <-]; rewrite Nat.sub_diag; repeat split; lia|].
    intros Hp. apply (IH removed ltac:(lia)) in Hp as (Hk & Hl & Hp). replace (q - k)%nat with (S (q - S k)) by lia.
    repeat split; [lia|done|lia].
Qed.

Lemma remap_mono removed : forall k p1 p2 q1 q2, remapped (build_remap k removed) p1 = Some q1 ->
  remapped (build_remap k removed) p2 = Some q2 -> (p1 < p2)%nat -> (q1 < q2)%nat.
Proof.
  unfold remapped. induction removed as [|[] removed IH]; intros k p1 p2 q1 q2; simpl; [done| |].
  - destruct p1, p2; simpl; try done; try lia. intros H1 H2 Hlt. eapply IH; eauto. lia.
  - destruct p1 as [|p1], p2 as [|p2]; simpl; try lia.
    + intros [= <-] H2 _. pose proof (remap_lookup removed removed eq_refl (S k) p2 q2 H2). lia.
    + intros H1 H2 Hlt. eapply IH; eauto. lia.
Qed.

Lemma remap_onto {A} (rs : list A) removed : length removed = length rs -> forall k q x,
  kept_rows rs removed !! q = Some x -> exists p, remapped (build_remap k removed) p = Some (k + q)%nat /\ rs !! p = Some x.
Proof.
  unfold remapped. revert removed. induction rs as [|r rs IH]; intros [|[] removed] Hlen k q x Hq; simpl in *; try done.
  - apply (IH removed ltac:(lia) k) in Hq as (p & ? & ?). by exists (S p).
  - destruct q as [|q]; simpl in Hq; [exists 0%nat; simpl; rewrite Nat.add_0_r; by simplify_eq|].
    apply (IH removed ltac:(lia) (S k)) in Hq as (p & Hp & ?). exists (S p). by rewrite Nat.add_succ_r.
Qed.

Lemma remap_inj removed k p1 p2 q : remapped (build_remap k removed) p1 = Some q ->
  remapped (build_remap k removed) p2 = Some q -> p1 = p2.
Proof.
  intros H1 H2. destruct (Nat.lt_trichotomy p1 p2) as [Hlt|[?|Hlt]]; [|done|].
  - pose proof (remap_mono removed k p1 p2 q q H1 H2 Hlt). lia.
  - pose proof (remap_mono removed k p2 p1 q q H2 H1 Hlt). lia.
Qed.

(** The rows that stay, at their old and new positions. *)
Lemma kept_rows_iff {A} (rs : list A) removed q e : length removed = length rs ->
  kept_rows rs removed !! q = Some e <-> exists p, rs !! p = Some e /\ remapped (build_remap 0 removed) p = Some q.
Proof.
  intros lengths. split.
  - intros (p & Hp & Hr)%(remap_onto rs removed lengths 0). by exists p.
  - intros (p & Hr & Hp). apply (remap_lookup rs removed lengths) in Hp as (_ & Hk & _).
    rewrite Nat.sub_0_r in Hk. by rewrite Hk.
Qed.

Section Erase.
Context (rs : list PersistentEvent) (removed : list bool).
Hypothesis lengths : length removed = length rs.
Local Abbreviation kept := (kept_rows rs removed).
Local Abbreviation new := (remapped (build_remap 0 removed)).

Lemma kept_iff q e : kept !! q = Some e <-> exists p, rs !! p = Some e /\ new p = Some q.
Proof. by apply kept_rows_iff. Qed.

Lemma kept_at p q : new p = Some q -> kept !! q = rs !! p.
Proof. intros Hp. apply (remap_lookup rs removed lengths) in Hp as (_ & Hk & _). by rewrite Nat.sub_0_r in Hk. Qed.

Lemma before_kept p1 p2 q1 q2 : new p1 = Some q1 -> new p2 = Some q2 -> before rs p1 p2 -> before kept q1 q2.
Proof.
  intros H1 H2. unfold before, ordering_at. rewrite (kept_at p1 q1 H1), (kept_at p2 q2 H2).
  intros [?|[? Hlt]]; [by left|right]. split; [done|]. by eapply remap_mono.
Qed.

Lemma erase_ids_ok ids : ids_ok rs ids -> ids_ok kept (omap new ids).
Proof.
  intros Hok id q. rewrite lookup_omap, bind_Some. setoid_rewrite (Hok id). setoid_rewrite kept_iff. naive_solver.
Qed.

Lemma erase_stream_ok order : stream_ok rs order -> stream_ok kept (omap new order).
Proof.
  intros [Hs Hin]. split.
  - eapply StronglySorted_omap; [|exact Hs]. intros p1 p2 q1 q2 _ _ Hb H1 H2. by eapply before_kept.
  - intros q. rewrite list_elem_of_omap, <- lookup_lt_is_Some. split.
    + intros (p & Hp%Hin & Hq). rewrite (kept_at p q Hq). by apply lookup_lt_is_Some.
    + intros [e (p & Hp & Hq)%kept_iff]. exists p. split; [|done]. apply Hin. by eapply lookup_lt_Some.
Qed.

Lemma erase_room_stream_ok index : room_index_ok (before rs) (in_room rs) index ->
  room_index_ok (before kept) (in_room kept) (omap (fun l => non_empty (omap new l)) index).
Proof.
  intros Hok. eapply room_index_omap; [exact Hok| |].
  - intros room p1 p2 q1 q2 _ _ Hb H1 H2. by eapply before_kept.
  - intros room q. unfold in_room. setoid_rewrite kept_iff. naive_solver.
Qed.

Lemma remap_entry_spec te te' : remap_entry (build_remap 0 removed) te = Some te' <->
  te' = {| te_origin_server_ts := te_origin_server_ts te; te_depth := te_depth te;
           te_stream_ordering := te_stream_ordering te; te_position := te_position te' |}
  /\ new (te_position te) = Some (te_position te').
Proof. unfold remap_entry. rewrite bind_Some. destruct te'. simpl. naive_solver. Qed.

Lemma time_entry_at e p q te : time_entry_for e p = Some te ->
  time_entry_for e q = Some {| te_origin_server_ts := te_origin_server_ts te; te_depth := te_depth te;
    te_stream_ordering := te_stream_ordering te; te_position := q |}.
Proof.
  unfold time_entry_for. destruct (_ || _); [done|]. destruct (top_level_integer _ _); [|done]. by intros [= <-].
Qed.

Lemma erase_room_time_ok index : room_index_ok te_lt (timed_in_room rs) index ->
  room_index_ok te_lt (timed_in_room kept) (omap (fun l => non_empty (omap (remap_entry (build_remap 0 removed)) l)) index).
Proof.
  intros Hok. eapply room_index_omap; [exact Hok| |].
  - intros room a b a' b' _ _ Hlt [-> Ha]%remap_entry_spec [-> Hb]%remap_entry_spec.
    rewrite te_lt_spec in Hlt. rewrite te_lt_spec. simpl.
    pose proof (remap_mono removed 0 _ _ _ _ Ha Hb) as Hm. simpl in Hm. lia.
  - intros room te'. unfold timed_in_room. setoid_rewrite kept_iff. setoid_rewrite remap_entry_spec. split.
    + intros (e & (p & Hp & Hq) & Hr & Ht). pose proof (time_entry_at _ _ p _ Ht) as Htp.
      exists {| te_origin_server_ts := te_origin_server_ts te'; te_depth := te_depth te';
        te_stream_ordering := te_stream_ordering te'; te_position := p |}. simpl.
      split; [by exists e|]. split; [by destruct te'|done].
    + intros (te & (e & Hp & Hr & Ht) & Heq & Hq). exists e. split; [eauto|]. split; [done|].
      rewrite Heq. by apply (time_entry_at _ _ (te_position te')) in Ht.
Qed.
End Erase.

(** * The newest timestamps *)

Lemma room_max_le rs room b : room_max rs room <= b <->
  0 <= b /\ forall p e, rs !! p = Some e -> ev_room_id e = room -> latest_ts_of e <= b.
Proof.
  unfold room_max. assert (forall l, foldr Z.max 0 l <= b <-> 0 <= b /\ forall z, z ∈ l -> z <= b) as ->.
  { induction l as [|z l IH]; simpl; [set_solver|]. rewrite Z.max_lub_iff, IH. setoid_rewrite elem_of_cons. naive_solver. }
  split; intros [? Hle]; (split; [done|]).
  - intros p e He Hr. apply Hle, list_elem_of_fmap. exists e. split; [done|]. apply list_elem_of_filter.
    split; [done|]. by eapply list_elem_of_lookup_2.
  - intros z (e & -> & [Hr [p Hp]%list_elem_of_lookup_1]%list_elem_of_filter)%list_elem_of_fmap. by eapply Hle.
Qed.

Lemma room_max_ext rs rs' room : (forall p e, rs !! p = Some e -> ev_room_id e = room ->
    latest_ts_of e <= room_max rs' room) ->
  (forall p e, rs' !! p = Some e -> ev_room_id e = room -> latest_ts_of e <= room_max rs room) ->
  room_max rs room = room_max rs' room.
Proof.
  intros H1 H2. assert (forall l r, 0 <= room_max l r) as Hnn.
  { intros l r. pose proof (proj1 (room_max_le l r (room_max l r)) ltac:(lia)). naive_solver. }
  apply Z.le_antisymm; apply room_max_le; auto.
Qed.

Lemma room_max_ge rs room p e : rs !! p = Some e -> ev_room_id e = room -> latest_ts_of e <= room_max rs room.
Proof. intros He Hr. pose proof (proj1 (room_max_le rs room (room_max rs room)) ltac:(lia)). naive_solver. Qed.

Lemma recompute_is_max rs streams room index room' : room_index_ok (before rs) (in_room rs) streams ->
  recompute_latest_ts rs streams room index !! room' =
  if decide (room = room') then (if 0 <? room_max rs room then Some (room_max rs room) else None) else index !! room'.
Proof.
  intros Hok. unfold recompute_latest_ts.
  set (f := fun latest position => match rs !! position with Some row => Z.max latest (latest_ts_of row) | None => latest end).
  assert (forall l z b, foldl f z l <= b <-> z <= b /\ forall p e, p ∈ l -> rs !! p = Some e -> latest_ts_of e <= b) as Hf.
  { induction l as [|p l IH]; intros z b; simpl; [set_solver|]. rewrite IH. setoid_rewrite elem_of_cons.
    unfold f. destruct (rs !! p) as [e|] eqn:E; [rewrite Z.max_lub_iff|]; naive_solver. }
  destruct (Hok room) as (_ & _ & Hin). unfold in_room in Hin.
  assert (foldl f 0 (default [] (streams !! room)) = room_max rs room) as ->.
  { apply Z.le_antisymm.
    - apply Hf. pose proof (proj1 (room_max_le rs room (room_max rs room)) ltac:(lia)) as [? _]. split; [done|].
      intros p e (x & Hx & Hr)%Hin He. simplify_eq. by eapply room_max_ge.
    - pose proof (proj1 (Hf (default [] (streams !! room)) 0 _) (Z.le_refl _)) as [? Hle].
      apply room_max_le. split; [done|]. intros p e He Hr. apply (Hle p); [|done]. apply Hin. by exists e. }
  destruct (0 <? room_max rs room), (decide (room = room')) as [->|Hne].
  - by rewrite lookup_insert_eq.
  - by rewrite lookup_insert_ne.
  - by rewrite lookup_delete_eq.
  - by rewrite lookup_delete_ne.
Qed.

Lemma recompute_rooms rs streams rooms : room_index_ok (before rs) (in_room rs) streams -> forall index room,
  foldl (fun index room => recompute_latest_ts rs streams room index) index rooms !! room =
  if decide (room ∈ rooms) then (if 0 <? room_max rs room then Some (room_max rs room) else None) else index !! room.
Proof.
  intros Hok. induction rooms as [|r rooms IH]; intros index room; simpl; [done|]. rewrite IH, recompute_is_max by done.
  destruct (decide (room ∈ rooms)); [by rewrite decide_True by (by right)|].
  destruct (decide (r = room)) as [->|Hne]; [by rewrite decide_True by (by left)|].
  rewrite decide_False; [done|]. set_solver.
Qed.

Section Removing.
Context `{Yyjson}.

Lemma kept_or_removed {A} (rs : list A) removed e : length removed = length rs -> e ∈ rs ->
  e ∈ kept_rows rs removed \/ e ∈ removed_rows rs removed.
Proof.
  revert removed. induction rs as [|r rs IH]; intros [|[] removed] Hlen; simpl in *; try done;
    try (by intros ?%elem_of_nil); rewrite elem_of_cons; intros [->|He];
    try (destruct (IH removed ltac:(lia) He)); set_solver.
Qed.

Lemma removed_in {A} (rs : list A) removed e : e ∈ removed_rows rs removed -> e ∈ rs.
Proof. revert removed. induction rs as [|r rs IH]; intros [|[] removed]; simpl; set_solver. Qed.

Lemma erase_latest_ok rs removed streams index : length removed = length rs -> latest_ok rs index ->
  room_index_ok (before (kept_rows rs removed)) (in_room (kept_rows rs removed)) streams ->
  latest_ok (kept_rows rs removed)
    (foldl (fun index room => recompute_latest_ts (kept_rows rs removed) streams room index) index
      (ev_room_id <$> removed_rows rs removed)).
Proof.
  intros Hlen Hok Hst room. rewrite recompute_rooms by done. case_decide as Hroom; [done|]. rewrite Hok.
  assert (room_max rs room = room_max (kept_rows rs removed) room) as ->; [|done]. apply room_max_ext.
  - intros p e He Hr. destruct (kept_or_removed rs removed e Hlen) as [Hk|Hk].
    + by eapply list_elem_of_lookup_2.
    + apply list_elem_of_lookup_1 in Hk as [q Hq]. by eapply room_max_ge.
    + destruct Hroom. apply list_elem_of_fmap. eauto.
  - intros q e (p & Hp & _)%(kept_iff rs removed Hlen) Hr. by eapply room_max_ge.
Qed.

Lemma erase_marked_ok removed t : length removed = length (rows t) -> table_ok t ->
  table_ok (erase_marked removed t).2.
Proof.
  intros Hlen Hok. unfold erase_marked.
  pose proof (erase_room_stream_ok (rows t) removed Hlen _ (ok_room_stream t Hok)) as Hst. constructor; simpl.
  - apply erase_ids_ok, ok_ids; done.
  - apply erase_stream_ok, ok_stream; done.
  - done.
  - apply erase_room_time_ok, ok_room_time; done.
  - apply erase_latest_ok; [done|by apply ok_latest|done].
  - eapply relation_index_omap; [apply (ok_relations t Hok)|intros p q a; apply remap_inj|].
    intros target kind q. unfold related. setoid_rewrite (kept_iff (rows t) removed Hlen). naive_solver.
Qed.

Lemma erase_if_ok predicate t : table_ok t -> table_ok (erase_if predicate t).2.
Proof.
  intros Hok. unfold erase_if. destruct (existsb id _); [|done]. apply erase_marked_ok; [|done].
  apply length_fmap.
Qed.

(** What is left is what the predicate does not hold of, in the same order. *)
Lemma kept_rows_filter (predicate : PersistentEvent -> bool) rs :
  kept_rows rs (predicate <$> rs) = filter (fun e => predicate e = false) rs.
Proof.
  induction rs as [|r rs IH]; [done|]. rewrite fmap_cons, filter_cons. simpl.
  destruct (predicate r) eqn:E; [rewrite decide_False by congruence|rewrite decide_True by done]; by rewrite IH.
Qed.

Lemma erase_if_rows predicate t : rows (erase_if predicate t).2 = filter (fun e => predicate e = false) (rows t).
Proof.
  unfold erase_if. destruct (existsb id (predicate <$> rows t)) eqn:E; simpl; [apply kept_rows_filter|].
  rewrite <- kept_rows_filter. revert E. generalize (rows t). induction l as [|r rs IH]; [done|].
  rewrite fmap_cons. simpl. destruct (predicate r); simpl; [done|]. intros E. f_equal. by apply IH.
Qed.

(** * Rewriting a row *)

Lemma range_erase_spec rs p l : StronglySorted (before rs) l ->
  StronglySorted (before rs) (range_erase rs p (ordering_at rs p) l)
  /\ forall q, q ∈ range_erase rs p (ordering_at rs p) l <-> q ∈ l /\ q <> p.
Proof.
  induction 1 as [|x l Hs [IHs IHin] Hx]; simpl; [split; [constructor|set_solver]|].
  rewrite Forall_forall in Hx.
  assert (x <> p -> StronglySorted (before rs) (x :: range_erase rs p (ordering_at rs p) l)
    /\ forall q, q ∈ x :: range_erase rs p (ordering_at rs p) l <-> q ∈ x :: l /\ q <> p) as Hkeep.
  { intros Hne. split; [constructor; [done|]; apply Forall_forall; intros q [Hq _]%IHin; auto|].
    intros q. rewrite !elem_of_cons, IHin. naive_solver. }
  destruct (ordering_at rs x <? ordering_at rs p) eqn:E1; breflect; [apply Hkeep; intros ->; lia|].
  destruct (ordering_at rs p <? ordering_at rs x) eqn:E2; breflect.
  - split; [constructor; [done|by apply Forall_forall]|]. intros q. rewrite elem_of_cons. split; [|naive_solver].
    intros Hq. split; [done|]. intros ->. destruct Hq as [->|Hq]; [lia|]. specialize (Hx p Hq). unfold before in Hx. lia.
  - destruct (x =? p)%nat eqn:E3; [apply Nat.eqb_eq in E3 as ->|apply Nat.eqb_neq in E3; auto].
    split; [done|]. intros q. rewrite elem_of_cons. split; [|naive_solver]. intros Hq. split; [by right|]. intros ->.
    specialize (Hx p Hq). unfold before in Hx. lia.
Qed.

Lemma lower_erase_spec te l : StronglySorted te_lt l ->
  StronglySorted te_lt (lower_erase te l) /\ forall x, x ∈ lower_erase te l <-> x ∈ l /\ x <> te.
Proof.
  induction 1 as [|x l Hs [IHs IHin] Hx]; simpl; [split; [constructor|set_solver]|].
  rewrite Forall_forall in Hx. destruct (te_ltb x te) eqn:E1.
  - split; [constructor; [done|]; apply Forall_forall; intros y [Hy _]%IHin; auto|].
    assert (x <> te) by (intros ->; by apply (te_lt_irrefl te)).
    intros y. rewrite !elem_of_cons, IHin. naive_solver.
  - case_bool_decide as E2; [subst x|]; (split; [try constructor; try done; by apply Forall_forall|]); intros y;
      rewrite !elem_of_cons; (split; [|naive_solver]); intros Hy; (split; [naive_solver|]); intros ->.
    + by apply (te_lt_irrefl te), Hx.
    + destruct Hy as [->|Hy]; [done|]. specialize (Hx te Hy). unfold te_lt in Hx. congruence.
Qed.

Section Modify.
Context (rs : list PersistentEvent) (p : nat) (old target : PersistentEvent).
Hypothesis old_at : rs !! p = Some old.
Hypothesis same_id : ev_event_id target = ev_event_id old.
Hypothesis same_ordering : ev_stream_ordering target = ev_stream_ordering old.
Local Abbreviation rs' := (<[p := target]> rs).

Lemma modified_at q e : rs' !! q = Some e <-> (q = p /\ e = target) \/ (q <> p /\ rs !! q = Some e).
Proof.
  destruct (decide (q = p)) as [->|Hne].
  - rewrite list_lookup_insert_eq by (by eapply lookup_lt_Some). naive_solver.
  - rewrite list_lookup_insert_ne by done. naive_solver.
Qed.

Lemma ordering_at_modified q : ordering_at rs' q = ordering_at rs q.
Proof.
  unfold ordering_at. destruct (decide (q = p)) as [->|Hne]; [|by rewrite list_lookup_insert_ne].
  by rewrite list_lookup_insert_eq, old_at, same_ordering by (by eapply lookup_lt_Some).
Qed.

Lemma before_modified q1 q2 : before rs' q1 q2 <-> before rs q1 q2.
Proof. unfold before. by rewrite !ordering_at_modified. Qed.

Lemma in_room_modified room q : in_room rs' room q <->
  (in_room rs room q /\ ~ (room = ev_room_id old /\ q = p)) \/ (room = ev_room_id target /\ q = p).
Proof.
  unfold in_room. setoid_rewrite modified_at. split.
  - intros (e & [[-> ->]|[Hq He]] & Hr); [by right|left]. split; [by exists e|]. by intros [_ ?].
  - intros [[(e & He & Hr) Hn]|[-> ->]]; [|exists target; split; [by left|done]].
    exists e. split; [right; split; [|done]|done]. intros ->. simplify_eq. by apply Hn.
Qed.

Lemma modify_ids_ok ids : ids_ok rs ids -> ids_ok rs' ids.
Proof.
  intros Hok id q. rewrite (Hok id q). setoid_rewrite modified_at. split.
  - intros (e & He & Hid). destruct (decide (q = p)) as [->|Hq]; [|exists e; auto].
    exists target. simplify_eq. split; [by left|done].
  - intros (e & [[-> ->]|[_ He]] & Hid); [exists old; by rewrite <- same_id|by exists e].
Qed.

Lemma modify_stream_ok order : stream_ok rs order -> stream_ok rs' order.
Proof.
  intros [Hs Hin]. split.
  - eapply StronglySorted_impl; [|exact Hs]. intros q1 q2 _ _. by apply before_modified.
  - intros q. by rewrite Hin, length_insert.
Qed.

(** A row that changes its room goes after every row of the same ordering there:
    in the order of addition only when no other row has its ordering. *)
Definition keeps_stream_order : Prop := ev_room_id target = ev_room_id old \/
  forall q e, rs !! q = Some e -> ev_stream_ordering e = ev_stream_ordering old -> q = p.

Definition moved : bool := ev_room_id target <>s ev_room_id old.

Lemma moved_spec : moved = true <-> ev_room_id target <> ev_room_id old.
Proof. unfold moved. destruct (ev_room_id target =s ev_room_id old) eqn:E; breflect; naive_solver. Qed.

Lemma moved_false : moved = false <-> ev_room_id target = ev_room_id old.
Proof. unfold moved. destruct (ev_room_id target =s ev_room_id old) eqn:E; breflect; naive_solver. Qed.

Lemma unindex_stream_ok index : room_index_ok (before rs') (in_room rs) index ->
  room_index_ok (before rs') (fun room q => in_room rs room q /\ ~ (room = ev_room_id old /\ q = p))
    (unindex_stream rs' (ev_room_id old) p (ev_stream_ordering old) index).
Proof.
  intros Hok. unfold unindex_stream. assert (ev_stream_ordering old = ordering_at rs' p) as ->
    by (rewrite ordering_at_modified; unfold ordering_at; by rewrite old_at).
  destruct (Hok (ev_room_id old)) as (_ & Hs & Hin). destruct (index !! ev_room_id old) as [l|] eqn:E.
  - destruct (range_erase_spec rs' p l Hs) as [Hs' Hin']. apply (room_index_remove _ (in_room rs)); [done|done|]. by rewrite E.
  - exfalso. assert (p ∈ []); [|set_solver]. apply Hin. by exists old.
Qed.

Lemma modify_room_stream_ok index : keeps_stream_order -> room_index_ok (before rs) (in_room rs) index ->
  room_index_ok (before rs') (in_room rs')
    (if moved then index_stream rs' p (unindex_stream rs' (ev_room_id old) p (ev_stream_ordering old) index) else index).
Proof.
  intros Hkeep Hok. assert (room_index_ok (before rs') (in_room rs) index) as Hbase.
  { eapply room_index_ext; [exact Hok|done|]. intros room q1 q2 _ _. by apply before_modified. }
  destruct moved eqn:Em.
  - apply moved_spec in Em. destruct Hkeep as [?|Hkeep]; [done|]. pose proof (unindex_stream_ok index Hbase) as Hun.
    unfold index_stream. rewrite (proj2 (modified_at p target)) by (by left).
    eapply room_index_ext; [eapply room_index_add; [|exact Hun|]; [apply _|]| |done].
    + intros q ((e & He & Hr) & Hq)%Hun. unfold ordering_ltb, before. split; intros Hc; breflect; [by left|].
      assert (ordering_at rs' q <> ordering_at rs' p); [|lia]. rewrite !ordering_at_modified. unfold ordering_at.
      rewrite He, old_at. intros Heq. pose proof (Hkeep q e He Heq). subst q. simplify_eq.
    + intros room q. by rewrite in_room_modified.
  - apply moved_false in Em. eapply room_index_ext; [exact Hbase| |done]. intros room q. rewrite in_room_modified, Em.
    unfold in_room. split; [|naive_solver]. intros (e & He & Hr). destruct (decide (q = p)) as [->|]; [|naive_solver].
    right. naive_solver.
Qed.

Lemma timed_modified room te : timed_in_room rs' room te <->
  (timed_in_room rs room te /\ ~ (room = ev_room_id old /\ time_entry_for old p = Some te))
  \/ (room = ev_room_id target /\ time_entry_for target p = Some te).
Proof.
  unfold timed_in_room. setoid_rewrite modified_at. split.
  - intros (e & [[Hp ->]|[Hp He]] & Hr & Ht); [right; by rewrite Hp in Ht|left].
    split; [by exists e|]. intros [_ Ho%time_entry_position]. done.
  - intros [[(e & He & Hr & Ht) Hn]|[-> Ht]].
    + exists e. split; [right; split; [|done]|done]. intros Hp. rewrite Hp in He, Ht. simplify_eq. by apply Hn.
    + exists target. pose proof (time_entry_position _ _ _ Ht) as ->. naive_solver.
Qed.

Lemma unindex_time_ok index : room_index_ok te_lt (timed_in_room rs) index ->
  room_index_ok te_lt (fun room te => timed_in_room rs room te /\ ~ (room = ev_room_id old /\ time_entry_for old p = Some te))
    (unindex_time (ev_room_id old) (time_entry_for old p) index).
Proof.
  intros Hok. unfold unindex_time. destruct (time_entry_for old p) as [te|] eqn:Et.
  - destruct (Hok (ev_room_id old)) as (_ & Hs & Hin). destruct (index !! ev_room_id old) as [l|] eqn:E.
    + destruct (lower_erase_spec te l Hs) as [Hs' Hin'].
      eapply room_index_ext; [apply (room_index_remove te_lt (timed_in_room rs) _ (ev_room_id old) te); [exact Hok|exact Hs'|]| |done].
      * by rewrite E.
      * naive_solver.
    + exfalso. assert (te ∈ []); [|set_solver]. apply Hin. exists old.
      pose proof (time_entry_position _ _ _ Et) as ->. done.
  - eapply room_index_ext; [exact Hok| |done]. naive_solver.
Qed.

Lemma modify_room_time_ok index : room_index_ok te_lt (timed_in_room rs) index ->
  room_index_ok te_lt (timed_in_room rs')
    (if moved || negb (bool_decide (time_entry_for target p = time_entry_for old p))
     then index_time rs' p (unindex_time (ev_room_id old) (time_entry_for old p) index) else index).
Proof.
  intros Hok. destruct (moved || _) eqn:Em.
  - pose proof (unindex_time_ok index Hok) as Hun. unfold index_time. rewrite (proj2 (modified_at p target)) by (by left).
    destruct (time_entry_for target p) as [te|] eqn:Et.
    + eapply room_index_ext; [eapply room_index_add; [|exact Hun|]; [apply _|]| |done].
      * intros x [(e & He & Hr & Hx) Hn]%Hun. split; [done|]. apply te_total. rewrite (time_entry_position _ _ _ Et).
        intros Hp. rewrite <- Hp in He, Hx. simplify_eq. by apply Hn.
      * intros room x. rewrite timed_modified, Et. naive_solver.
    + eapply room_index_ext; [exact Hun| |done]. intros room x. rewrite timed_modified, Et. naive_solver.
  - apply orb_false_iff in Em as [Em%moved_false Et%negb_false_iff%bool_decide_eq_true].
    eapply room_index_ext; [exact Hok| |done]. intros room x. rewrite timed_modified, Em, Et.
    unfold timed_in_room. split; [|intros [[? _]|[-> Hx]]; [done|]].
    + intros Hx. destruct (decide (room = ev_room_id old /\ time_entry_for old p = Some x)); [by right|by left].
    + exists old. pose proof (time_entry_position _ _ _ Hx) as ->. done.
Qed.

Lemma room_max_modified room :
  (room <> ev_room_id old /\ room <> ev_room_id target)
  \/ (ev_room_id target = ev_room_id old /\ latest_ts_of target = latest_ts_of old) ->
  room_max rs' room = room_max rs room.
Proof.
  intros Hcase. apply room_max_ext.
  - intros q e [[-> ->]|[_ He]]%modified_at Hr; [|by eapply room_max_ge].
    destruct Hcase as [[_ ?]|[Hroom ->]]; [done|]. eapply room_max_ge; [done|congruence].
  - intros q e He Hr. destruct (decide (q = p)) as [->|Hq]; [|by eapply room_max_ge; [apply modified_at; right|]].
    rewrite old_at in He. injection He as <-. destruct Hcase as [[? _]|[Hroom <-]]; [done|].
    eapply room_max_ge; [apply modified_at; by left|congruence].
Qed.

Lemma modify_latest_ok streams index : latest_ok rs index -> room_index_ok (before rs') (in_room rs') streams ->
  latest_ok rs' (if moved || negb (latest_ts_of target =? latest_ts_of old)
    then recompute_latest_ts rs' streams (ev_room_id target) (recompute_latest_ts rs' streams (ev_room_id old) index)
    else index).
Proof.
  intros Hok Hst room. destruct (moved || _) eqn:Em.
  - rewrite !recompute_is_max by done. destruct (decide (ev_room_id target = room)) as [->|Ht]; [done|].
    destruct (decide (ev_room_id old = room)) as [->|Ho]; [done|]. by rewrite Hok, room_max_modified by (left; done).
  - apply orb_false_iff in Em as [Em%moved_false Et%negb_false_iff%Z.eqb_eq].
    by rewrite Hok, room_max_modified by (right; done).
Qed.

Lemma related_modified t k q : related rs' t k q <->
  (related rs t k q /\ ~ (relation_key_for old = Some {| rel_target := t; rel_kind := k |} /\ q = p))
  \/ (relation_key_for target = Some {| rel_target := t; rel_kind := k |} /\ q = p).
Proof.
  unfold related. setoid_rewrite modified_at. split.
  - intros (e & [[-> ->]|[Hq He]] & Hk); [by right|left]. split; [by exists e|]. by intros [_ ?].
  - intros [[(e & He & Hk) Hn]|[Hk ->]]; [|exists target; split; [by left|done]].
    exists e. split; [right; split; [|done]|done]. intros ->. simplify_eq. by apply Hn.
Qed.

Lemma modify_relations_ok index : relations_ok rs index ->
  relations_ok rs' (if bool_decide (relation_key_for target = relation_key_for old) then index
    else
      let index := match relation_key_for old with Some key => unindex_relation p key index | None => index end in
      match relation_key_for target with Some key => index_relation p key index | None => index end).
Proof.
  intros Hok. case_bool_decide as Eq.
  - eapply relation_index_ext; [exact Hok|]. intros t k q. rewrite related_modified, Eq. split; [|intros [[? _]|[Hk ->]]].
    + intros Hr. destruct (decide (relation_key_for old = Some {| rel_target := t; rel_kind := k |} /\ q = p));
        [by right|by left].
    + done.
    + by exists old.
  - assert (relation_index_ok (fun t k q => related rs t k q
        /\ ~ (relation_key_for old = Some {| rel_target := t; rel_kind := k |} /\ q = p))
      (match relation_key_for old with Some key => unindex_relation p key index | None => index end)) as Hun.
    { destruct (relation_key_for old) as [key|].
      - eapply relation_index_ext; [by apply unindex_relation_ok|]. naive_solver.
      - eapply relation_index_ext; [exact Hok|]. naive_solver. }
    destruct (relation_key_for target) as [key|] eqn:Et.
    + eapply relation_index_ext; [apply index_relation_ok; [exact Hun|]|].
      * intros [(e & He & Hk) Hn]. apply Hn. simplify_eq. by destruct key.
      * intros t k q. rewrite related_modified, Et. naive_solver.
    + eapply relation_index_ext; [exact Hun|]. intros t k q. rewrite related_modified, Et. naive_solver.
Qed.
End Modify.

(** A mutation that leaves the room alone, or a row whose ordering no other row has. *)
Definition modification_in_order (p : nat) (mutation : PersistentEvent -> PersistentEvent) (t : EventTable) : Prop :=
  forall old, rows t !! p = Some old -> keeps_stream_order (rows t) p old (mutation old).

Lemma modify_ok p mutation t : modification_in_order p mutation t -> table_ok t -> table_ok (modify p mutation t).
Proof.
  intros Hkeep Hok. unfold modify. destruct (rows t !! p) as [old|] eqn:E; [|done]. specialize (Hkeep old E).
  set (target := with_identity_of old (mutation old)).
  pose proof (modify_room_stream_ok (rows t) p old target E eq_refl eq_refl _ Hkeep (ok_room_stream t Hok)) as Hst.
  constructor; simpl.
  - by eapply modify_ids_ok, ok_ids.
  - by eapply modify_stream_ok, ok_stream.
  - exact Hst.
  - by apply (modify_room_time_ok (rows t) p old target), ok_room_time.
  - by apply (modify_latest_ok (rows t) p old target); [..|apply ok_latest|].
  - by apply (modify_relations_ok (rows t) p old target), ok_relations.
Qed.
End Removing.
