(* ===== verification/EventTableSpec.v ===== *)
(** What the event table promises: every table the operations build answers its
    queries as the plain list of its rows does. *)
From S2P Require Import Prelude CppStd JsonValue JsonParser EventShape EventId EventTable EventTableInv.
From S2P Require Import EventTableAdd EventTableErase.
Open Scope Z_scope.

(** * The operations as steps *)

Section Steps.
Context `{Yyjson}.

Inductive table_step : EventTable -> EventTable -> Prop :=
  | step_insert e t : table_step t (insert e t).2
  | step_insert_all events t : table_step t (insert_all events t).2
  | step_erase_if predicate t : table_step t (erase_if predicate t).2
  | step_modify p mutation t : modification_in_order p mutation t -> table_step t (modify p mutation t)
  | step_extract t : table_step t (extract t).2
  | step_clear t : table_step t (clear t).

Lemma reachable_ok t : rtc table_step empty_table t -> table_ok t.
Proof.
  intros Hr. cut (forall s, table_ok s -> rtc table_step s t -> table_ok t); [intros Hc; by eapply Hc, Hr; apply empty_table_ok|].
  clear. intros s Hs Hr. induction Hr as [|s u t Hstep _ IH]; [done|]. apply IH. destruct Hstep.
  - by apply insert_ok.
  - by apply insert_all_ok.
  - by apply erase_if_ok.
  - by apply modify_ok.
  - apply empty_table_ok.
  - apply empty_table_ok.
Qed.
End Steps.

(** * The reference: lists of rows *)

(** Stably by stream ordering. *)
Definition by_stream_ordering (rs : list PersistentEvent) : list PersistentEvent :=
  sort_by (fun a b => ev_stream_ordering a <? ev_stream_ordering b) rs.

Section ReadOff.
Context (rs : list PersistentEvent).
Local Abbreviation at_positions := (omap (fun p => rs !! p)).

Lemma at_positions_insert p e l : rs !! p = Some e -> (forall q, q ∈ l -> (q < length rs)%nat) ->
  at_positions (insert_by (ordering_ltb rs) p l) =
  insert_by (fun a b => ev_stream_ordering a <? ev_stream_ordering b) e (at_positions l).
Proof.
  intros Hp. induction l as [|q l IH]; intros Hl; csimpl; [by rewrite Hp|].
  assert (is_Some (rs !! q)) as [x Hx] by (apply lookup_lt_is_Some, Hl; by left).
  unfold ordering_ltb, ordering_at. rewrite Hp, Hx. simpl. destruct (ev_stream_ordering x <? ev_stream_ordering e) eqn:E; csimpl.
  - rewrite Hx. f_equal. unfold ordering_ltb, ordering_at in IH. apply IH. intros r Hr. apply Hl. by right.
  - by rewrite Hp, Hx.
Qed.

Lemma at_positions_sort l : (forall q, q ∈ l -> (q < length rs)%nat) ->
  at_positions (sort_by (ordering_ltb rs) l) = by_stream_ordering (at_positions l).
Proof.
  induction l as [|q l IH]; intros Hl; [done|].
  assert (is_Some (rs !! q)) as [x Hx] by (apply lookup_lt_is_Some, Hl; by left).
  change (sort_by (ordering_ltb rs) (q :: l)) with (insert_by (ordering_ltb rs) q (sort_by (ordering_ltb rs) l)).
  rewrite (at_positions_insert q x); [|done|intros r Hr; rewrite elem_of_sort_by in Hr; apply Hl; by right].
  csimpl. rewrite Hx, IH by (intros r Hr; apply Hl; by right). done.
Qed.

End ReadOff.

Lemma at_positions_seq (rs : list PersistentEvent) : omap (fun p => rs !! p) (seq 0 (length rs)) = rs.
Proof.
  cut (forall pre, omap (fun p => (pre ++ rs) !! p) (seq (length pre) (length rs)) = rs); [intros Hc; apply (Hc [])|].
  induction rs as [|e rs IH]; intros pre; [done|]. csimpl. rewrite list_lookup_middle by done. f_equal.
  specialize (IH (pre ++ [e])). rewrite <- app_assoc, length_app, Nat.add_1_r in IH. exact IH.
Qed.

(** A list of the positions of the rows a condition holds of is as long as the
    list of those rows. *)
Lemma positions_of_filter (P : PersistentEvent -> Prop) `{forall e, Decision (P e)} (l : list nat) rs : NoDup l ->
  (forall p, p ∈ l <-> exists e, rs !! p = Some e /\ P e) -> length l = length (filter P rs).
Proof.
  intros Hnd Hin. set (Q := fun (rs : list PersistentEvent) (p : nat) => match rs !! p with Some e => bool_decide (P e) | None => false end).
  assert (forall rs p, Is_true (Q rs p) <-> exists e, rs !! p = Some e /\ P e) as HQ.
  { intros k p. unfold Q. destruct (k !! p) as [e|]; [rewrite bool_decide_spec|]; naive_solver. }
  assert (l ≡ₚ filter (fun p => Is_true (Q rs p)) (seq 0 (length rs))) as ->.
  { apply NoDup_Permutation; [done|apply NoDup_filter, NoDup_seq|]. intros p.
    rewrite list_elem_of_filter, HQ, Hin, elem_of_seq. split; [|by intros [? _]]. intros (e & He & HP).
    split; [eauto|]. apply lookup_lt_Some in He. lia. }
  clear. cut (forall pre, length (filter (fun p => Is_true (Q (pre ++ rs) p)) (seq (length pre) (length rs)))
    = length (filter P rs)); [intros Hc; apply (Hc [])|].
  induction rs as [|e rs IH]; intros pre; [done|]. specialize (IH (pre ++ [e])).
  rewrite <- app_assoc, length_app, Nat.add_1_r in IH. simpl. rewrite !filter_cons.
  assert (Q (pre ++ e :: rs) (length pre) = bool_decide (P e)) as HQe by (unfold Q; by rewrite list_lookup_middle).
  destruct (decide (P e)) as [HP|HP].
  - rewrite decide_True by (rewrite HQe; by apply bool_decide_spec). simpl. f_equal. exact IH.
  - rewrite decide_False by (rewrite HQe; by rewrite bool_decide_spec). exact IH.
Qed.

Lemma in_room_iff rs room p : in_room rs room p <-> ev_room_id <$> rs !! p = Some room.
Proof. unfold in_room. rewrite fmap_Some. naive_solver. Qed.

Lemma at_positions_room (rs : list PersistentEvent) room (l : list nat) :
  omap (fun p => rs !! p) (filter (fun p => ev_room_id <$> rs !! p = Some room) l) =
  filter (fun e => ev_room_id e = room) (omap (fun p => rs !! p) l).
Proof.
  induction l as [|p l IH]; [done|]. rewrite filter_cons. csimpl. destruct (rs !! p) as [e|] eqn:E; simpl.
  - rewrite filter_cons. destruct (decide (ev_room_id e = room)) as [He|He].
    + rewrite decide_True by congruence. csimpl. by rewrite E, IH.
    + rewrite decide_False by congruence. done.
  - exact IH.
Qed.

(** A row of a time index of a room: its entry and itself. *)
Definition timed_row (rs : list PersistentEvent) (room : string) (te : TimeEntry) (e : PersistentEvent) : Prop :=
  rs !! te_position te = Some e /\ ev_room_id e = room /\ time_entry_for e (te_position te) = Some te.

Section Queries.
Context `{Yyjson} (t : EventTable).
Hypothesis t_ok : table_ok t.

Lemma stream_order_sorted : stream_order t = sort_by (ordering_ltb (rows t)) (seq 0 (length (rows t))).
Proof.
  destruct (ok_stream t t_ok) as [Hs Hin]. apply (sorted_unique (before (rows t))); [apply before_asym|done| |].
  - apply sort_by_stable; [apply _|]. eapply StronglySorted_impl; [|apply seq_sorted]. intros p q _ _ Hpq.
    pose proof (positions_stable (rows t) [] p q Hpq) as Hst. by rewrite app_nil_r in Hst.
  - intros p. rewrite Hin, elem_of_sort_by, elem_of_seq. lia.
Qed.

Lemma in_stream_order_spec : in_stream_order t = by_stream_ordering (rows t).
Proof.
  unfold in_stream_order, rows_at. rewrite stream_order_sorted, at_positions_sort.
  - by rewrite at_positions_seq.
  - intros q Hq%elem_of_seq. lia.
Qed.

Lemma room_in_stream_order_spec room :
  room_in_stream_order room t = filter (fun e => ev_room_id e = room) (by_stream_ordering (rows t)).
Proof.
  rewrite <- in_stream_order_spec. unfold room_in_stream_order, in_stream_order, rows_at. rewrite <- at_positions_room.
  f_equal. destruct (ok_stream t t_ok) as [Hs Hin], (ok_room_stream t t_ok room) as (_ & Hrs & Hrin).
  apply (sorted_unique (before (rows t))); [apply before_asym|done| |].
  - by apply StronglySorted_filter.
  - intros p. rewrite Hrin, list_elem_of_filter, Hin, in_room_iff. split; [|by intros [? _]].
    intros Hp. split; [done|]. apply fmap_Some in Hp as (e & He & _). by eapply lookup_lt_Some.
Qed.

Lemma find_spec id e : find id t = Some e <-> e ∈ rows t /\ ev_event_id e = id.
Proof.
  unfold find. rewrite bind_Some, list_elem_of_lookup. split.
  - intros (p & Hp & He). apply (ok_ids t t_ok) in Hp as (x & Hx & Hid). simplify_eq. eauto.
  - intros [[p Hp] Hid]. exists p. split; [|done]. apply (ok_ids t t_ok). eauto.
Qed.

Lemma contains_spec id : contains id t = true <-> exists e, e ∈ rows t /\ ev_event_id e = id.
Proof.
  unfold contains. destruct (by_id t !! id) as [p|] eqn:E.
  - split; [|done]. intros _. apply (ok_ids t t_ok) in E as (e & He & Hid). exists e. split; [|done].
    by eapply list_elem_of_lookup_2.
  - split; [done|]. intros (e & [p Hp]%list_elem_of_lookup_1 & Hid).
    assert (by_id t !! id = Some p) by (apply (ok_ids t t_ok); eauto). congruence.
Qed.

Lemma latest_spec room : room_latest_origin_server_ts room t = room_max (rows t) room.
Proof.
  unfold room_latest_origin_server_ts. rewrite (ok_latest t t_ok room).
  assert (0 <= room_max (rows t) room)
    by (pose proof (proj1 (room_max_le (rows t) room _) (Z.le_refl _)); naive_solver).
  destruct (0 <? room_max (rows t) room) eqn:E; breflect; simpl; lia.
Qed.

Lemma relation_count_spec target kind : relation_kind_count target kind t =
  length (filter (fun e => relation_key_for e = Some {| rel_target := target; rel_kind := kind |}) (rows t)).
Proof.
  destruct (ok_relations t t_ok target) as [_ Hk]. destruct (Hk kind) as [Hnd Hin].
  apply positions_of_filter; [done|]. exact Hin.
Qed.

(** * Searching by time *)

Lemma entries_timed room te : te ∈ default [] (by_room_time t !! room) <-> timed_in_room (rows t) room te.
Proof. apply (ok_room_time t t_ok room). Qed.

(** Both directions offer the rows of the entries on their side, nearest first. *)
Lemma search_entries (R : TimeEntry -> TimeEntry -> Prop) accept room entries : StronglySorted R entries ->
  (forall te, te ∈ entries -> timed_in_room (rows t) room te) -> forall n,
  match search_rows accept n (rows_at t (te_position <$> entries)) with
  | (Some e, _) => accept e = true /\ exists te, te ∈ entries /\ timed_row (rows t) room te e
      /\ forall te' e', te' ∈ entries -> timed_row (rows t) room te' e' -> accept e' = true -> te' = te \/ R te te'
  | (None, false) => forall te e, te ∈ entries -> timed_row (rows t) room te e -> accept e = false
  | (None, true) => (n < length entries)%nat
  end.
Proof.
  intros Hs. induction Hs as [|te entries Hs IH Hte]; intros Hin n; [destruct n; simpl; intros; set_solver|].
  rewrite Forall_forall in Hte.
  destruct (Hin te ltac:(by left)) as (e & He & Hr & Ht). unfold rows_at in *. csimpl. rewrite He. simpl.
  destruct n as [|n]; simpl; [lia|]. destruct (accept e) eqn:Ea.
  - split; [done|]. exists te. split; [by left|]. split; [done|]. intros te' e' [->|Hin']%elem_of_cons _ _; auto.
  - specialize (IH ltac:(intros x Hx; apply Hin; by right) n). destruct (search_rows _ _ _) as [[x|] b].
    + destruct IH as (Hx & te0 & Hin0 & Hrow & Hmin). split; [done|]. exists te0. split; [by right|]. split; [done|].
      intros te' e' [->|Hin']%elem_of_cons Hrow' Hacc; [|eauto]. destruct Hrow' as [He' _]. congruence.
    + destruct b; [lia|]. intros te' e' [->|Hin']%elem_of_cons Hrow'; [|eauto]. destruct Hrow' as [He' _]. congruence.
Qed.
End Queries.

(** * The contract *)

(** The operations on the plain list of rows. *)
Definition add_row (rs : list PersistentEvent) (e : PersistentEvent) : list PersistentEvent :=
  if existsb (fun x => ev_event_id x =s ev_event_id e) rs then rs else rs ++ [e].

Section Contract.
Context `{Yyjson}.

Lemma insert_rows e t : table_ok t -> rows (insert e t).2 = add_row (rows t) e.
Proof.
  intros Hok. pose proof (contains_spec t Hok (ev_event_id e)) as Hc. unfold contains in Hc. unfold insert, add_row.
  destruct (by_id t !! ev_event_id e) eqn:E, (existsb _ (rows t)) eqn:Ex; simpl; [done| | |done]; exfalso.
  - destruct (proj1 Hc eq_refl) as (x & Hx & Hid). apply not_true_iff_false in Ex. apply Ex, existsb_exists.
    exists x. rewrite <- list_elem_of_In. split; [done|]. by apply String.eqb_eq.
  - apply existsb_exists in Ex as (x & Hx & Hid). rewrite <- list_elem_of_In in Hx. apply String.eqb_eq in Hid.
    assert (false = true); [|done]. apply Hc. by exists x.
Qed.

Lemma insert_each_add_row events : forall t, table_ok t -> rows (insert_each events t) = foldl add_row (rows t) events.
Proof.
  induction events as [|e events IH]; intros t Hok; [done|]. simpl. rewrite <- insert_rows by done.
  by apply IH, insert_ok.
Qed.

Lemma modify_rows p mutation t :
  rows (modify p mutation t) = alter (fun old => with_identity_of old (mutation old)) p (rows t).
Proof.
  unfold modify. destruct (rows t !! p) as [old|] eqn:E; simpl.
  - apply list_eq. intros q. destruct (decide (q = p)) as [->|Hne].
    + rewrite list_lookup_insert_eq by (by eapply lookup_lt_Some). by rewrite list_lookup_alter_eq, E.
    + by rewrite list_lookup_insert_ne, list_lookup_alter_ne.
  - symmetry. apply list_eq. intros q. destruct (decide (q = p)) as [->|Hne];
      [by rewrite list_lookup_alter_eq, E|by rewrite list_lookup_alter_ne].
Qed.

(** C7. Each operation of the event table does to the rows what the plain list
    operation does: an insertion appends a row unless one has its event ID, a
    removal keeps the other rows in order, a modification rewrites one row but not
    its event ID or stream ordering.  A batch insertion leaves exactly the table,
    indexes included, that inserting the events one by one leaves. *)
Theorem event_table_simulates_list t : rtc table_step empty_table t ->
  (forall e, rows (insert e t).2 = add_row (rows t) e)
  /\ (forall events, rows (insert_all events t).2 = foldl add_row (rows t) events
        /\ (insert_all events t).2 = insert_each events t
        /\ ((insert_all events t).1 + length (rows t) = length (foldl add_row (rows t) events))%nat)
  /\ (forall predicate, rows (erase_if predicate t).2 = filter (fun e => predicate e = false) (rows t)
        /\ ((erase_if predicate t).1 + length (rows (erase_if predicate t).2) = length (rows t))%nat)
  /\ (forall p mutation, rows (modify p mutation t) = alter (fun old => with_identity_of old (mutation old)) p (rows t))
  /\ (extract t).1 = rows t /\ rows (extract t).2 = [] /\ rows (clear t) = [].
Proof.
  intros Hok%reachable_ok. split; [intros e; by apply insert_rows|]. split; [|split; [|split; [intros p f; apply modify_rows|done]]].
  - intros events. rewrite insert_all_each, insert_each_add_row by done. split; [done|]. split; [done|].
    rewrite <- insert_each_add_row, <- insert_all_each by done. unfold insert_all.
    destruct (add_rows_ok events _ _ _ (ok_ids t Hok) (ok_latest t Hok)) as [added Ha].
    destruct (add_rows _ _ _ _) as [[rs ids] latest]. destruct Ha as (-> & _). simpl. rewrite length_app. lia.
  - intros predicate. split; [apply erase_if_rows|]. unfold erase_if. destruct (existsb id _); simpl; [|done].
    rewrite kept_rows_filter. pose proof (length_filter (fun e => predicate e = false) (rows t)). lia.
Qed.

(** An entry lies on the side of the timestamp the direction asks for. *)
Definition on_side (direction : TimeDirection) (ts : Z) (te : TimeEntry) : Prop :=
  match direction with forwards => ts <= te_origin_server_ts te | backwards => te_origin_server_ts te <= ts end.

(** [a] is offered before [b]. *)
Definition nearer (direction : TimeDirection) (a b : TimeEntry) : Prop :=
  match direction with forwards => te_lt a b | backwards => te_lt b a end.

Lemma StronglySorted_reverse {A} (R : A -> A -> Prop) l : StronglySorted R l ->
  StronglySorted (fun a b => R b a) (reverse l).
Proof.
  induction 1 as [|x l Hs IH Hx]; [constructor|]. rewrite reverse_cons. apply snoc_sorted; [|done].
  intros y Hy. rewrite elem_of_reverse in Hy. rewrite Forall_forall in Hx. auto.
Qed.

(** A search by time in a table the operations built: the row it returns is in
    the room, is timed, lies on the asked side of the timestamp, is accepted, and
    no other accepted row on that side is nearer in the index order (timestamp,
    depth, stream ordering, position).  When it returns none without reaching its
    cap, no such row is accepted; it reaches the cap only when more rows than the
    cap lie on that side. *)
Lemma nearest_by_time_exact t room ts direction accept cap : rtc table_step empty_table t ->
  match nearest_by_time room ts direction accept cap t with
  | (Some e, _) => accept e = true /\ exists te, on_side direction ts te /\ timed_row (rows t) room te e
      /\ forall te' e', on_side direction ts te' -> timed_row (rows t) room te' e' -> accept e' = true ->
           te' = te \/ nearer direction te te'
  | (None, false) => forall te e, on_side direction ts te -> timed_row (rows t) room te e -> accept e = false
  | (None, true) => (cap < length (time_candidates room ts direction t))%nat
  end.
Proof.
  intros Hok%reachable_ok. unfold nearest_by_time.
  set (entries := match direction with
    | forwards => filter (fun e => ts <= te_origin_server_ts e) (default [] (by_room_time t !! room))
    | backwards => reverse (filter (fun e => te_origin_server_ts e <= ts) (default [] (by_room_time t !! room)))
    end).
  assert (StronglySorted (nearer direction) entries) as Hs.
  { destruct (ok_room_time t Hok room) as (_ & Hsorted & _). subst entries.
    destruct direction; [|apply StronglySorted_reverse]; by apply StronglySorted_filter. }
  assert (forall te, te ∈ entries <-> on_side direction ts te /\ timed_in_room (rows t) room te) as Hin.
  { intros te. rewrite <- (entries_timed t Hok). subst entries.
    destruct direction; rewrite ?elem_of_reverse; by rewrite list_elem_of_filter. }
  assert (forall te e, timed_row (rows t) room te e -> timed_in_room (rows t) room te) as Hrow by (intros te e He; by exists e).
  pose proof (search_entries t Hok (nearer direction) accept room entries Hs (fun te Hte => proj2 (proj1 (Hin te) Hte)) cap) as Hsearch.
  change (time_candidates room ts direction t) with (rows_at t (te_position <$> entries)).
  assert (length (rows_at t (te_position <$> entries)) = length entries) as Hlen.
  { assert (forall te, te ∈ entries -> is_Some (rows t !! te_position te)) as Hsome
      by (intros te [_ (e & He & _)]%Hin; by exists e).
    clear Hsearch Hs Hin. clearbody entries. unfold rows_at. induction entries as [|te entries IH]; [done|].
    csimpl. destruct (Hsome te ltac:(by left)) as [e ->]. simpl. f_equal. apply IH. intros x Hx. apply Hsome. by right. }
  destruct (search_rows _ _ _) as [[e|] b].
  - destruct Hsearch as (Ha & te & Hte & Hr & Hmin). split; [done|]. exists te. split; [by apply Hin|]. split; [done|].
    intros te' e' Hside Hr' Ha'. apply (Hmin te' e'); [|done|done]. apply Hin. eauto.
  - destruct b; [by rewrite Hlen|]. intros te e Hside Hr. apply (Hsearch te e); [|done]. apply Hin. eauto.
Qed.

(** Every table the operations build answers its queries as the list of its
    rows does: event IDs are unique and lookups find the row of the ID; the global
    order is the stable sort of the rows by stream ordering and a room's order is
    that order restricted to the room; the newest timestamp of a room is the
    maximum over its rows; a relation list counts each child once; and a search by
    time returns the nearest accepted row on the asked side, or none when no row
    there is accepted, unless more rows than its cap lie on that side. *)
Theorem event_table_queries_exact t : rtc table_step empty_table t ->
  NoDup (ev_event_id <$> rows t)
  /\ (forall id e, find id t = Some e <-> e ∈ rows t /\ ev_event_id e = id)
  /\ (forall id, contains id t = true <-> exists e, e ∈ rows t /\ ev_event_id e = id)
  /\ (forall room id e, find_in_room room id t = Some e <-> e ∈ rows t /\ ev_event_id e = id /\ ev_room_id e = room)
  /\ in_stream_order t = by_stream_ordering (rows t)
  /\ (forall room, room_in_stream_order room t = filter (fun e => ev_room_id e = room) (by_stream_ordering (rows t)))
  /\ (forall room, room_latest_origin_server_ts room t = room_max (rows t) room)
  /\ (forall target kind, relation_kind_count target kind t =
        length (filter (fun e => relation_key_for e = Some {| rel_target := target; rel_kind := kind |}) (rows t)))
  /\ (forall room ts direction accept cap,
      match nearest_by_time room ts direction accept cap t with
      | (Some e, _) => accept e = true /\ exists te, on_side direction ts te /\ timed_row (rows t) room te e
          /\ forall te' e', on_side direction ts te' -> timed_row (rows t) room te' e' -> accept e' = true ->
               te' = te \/ nearer direction te te'
      | (None, false) => forall te e, on_side direction ts te -> timed_row (rows t) room te e -> accept e = false
      | (None, true) => (cap < length (time_candidates room ts direction t))%nat
      end).
Proof.
  intros Hreach. pose proof (fun room ts direction accept cap => nearest_by_time_exact t room ts direction accept cap Hreach) as Hnear.
  apply reachable_ok in Hreach as Hok. split; [|split; [|split; [|split; [|split; [|split; [|split; [|split; [|exact Hnear]]]]]]]].
  - apply NoDup_alt. intros p q id Hp Hq. rewrite list_lookup_fmap in Hp, Hq.
    apply fmap_Some in Hp as (e1 & H1 & Hid1), Hq as (e2 & H2 & Hid2).
    assert (by_id t !! id = Some p) by (apply (ok_ids t Hok); eauto).
    assert (by_id t !! id = Some q) by (apply (ok_ids t Hok); eauto). congruence.
  - by apply find_spec.
  - by apply contains_spec.
  - intros room id e. unfold find_in_room. pose proof (find_spec t Hok id) as Hf. destruct (find id t) as [x|].
    + pose proof (proj1 (Hf x) eq_refl) as [Hx Hid]. destruct (ev_room_id x =s room) eqn:E; breflect.
      * split; [intros [= <-]; auto|]. intros (? & ? & _). by apply Hf.
      * split; [done|]. intros (He & Hide & Hr). assert (Some x = Some e) by (by apply Hf). congruence.
    + split; [done|]. intros (He & Hide & _). by apply Hf.
  - by apply in_stream_order_spec.
  - by apply room_in_stream_order_spec.
  - by apply latest_spec.
  - by apply relation_count_spec.
Qed.

End Contract.
