(* ===== verification/FailureWindow.v ===== *)
(** Counting login failures: auth/FailureWindowTable.cpp.

    A bounded list of entries in the order of their window starts, and an index
    from a key to its node of the list.  No two nodes have the same key, so the
    index is the set of the keys held and a key stands for its iterator.  Times
    are integers of clock ticks. *)
From S2P Require Import Prelude CppStd JsonNumbers Signing.
Open Scope Z_scope.

Definition max_failure_window_entries : nat := Z.to_nat 100000.
Definition uint32_max : Z := 2 ^ 32 - 1.

(** [FailureKey] is a 32-byte digest. *)
Abbreviation FailureKey := string.

Record Entry : Type := {
  fe_key : FailureKey;
  fe_count : Z;
  fe_window_start : Z
}.

Record FailureWindowTable : Type := {
  fw_capacity : nat;
  fw_order : list Entry;
  fw_index : gset string
}.

Definition new_failure_table (capacity : nat) : FailureWindowTable :=
  {| fw_capacity := Nat.max capacity 1; fw_order := []; fw_index := ∅ |}.

Definition with_order (t : FailureWindowTable) (order : list Entry) (index : gset string) : FailureWindowTable :=
  {| fw_capacity := fw_capacity t; fw_order := order; fw_index := index |}.

(** [pop_front] with the erasure from the index before it. *)
Definition pop_oldest (t : FailureWindowTable) : FailureWindowTable :=
  match fw_order t with
  | [] => t
  | e :: rest => with_order t rest (fw_index t ∖ {[fe_key e]})
  end.

Fixpoint expire_from (order : list Entry) (now window : Z) (index : gset string) : list Entry * gset string :=
  match order with
  | [] => ([], index)
  | e :: rest =>
      if window <=? now - fe_window_start e then expire_from rest now window (index ∖ {[fe_key e]})
      else (order, index)
  end.

Definition expire (now window : Z) (t : FailureWindowTable) : FailureWindowTable :=
  let '(order, index) := expire_from (fw_order t) now window (fw_index t) in with_order t order index.

(** The node a key's iterator points to. *)
Definition node_of (key : FailureKey) (order : list Entry) : option Entry :=
  head (filter (fun e => fe_key e = key) order).

Definition index_find (key : FailureKey) (t : FailureWindowTable) : option Entry :=
  if decide (key ∈ fw_index t) then node_of key (fw_order t) else None.

Definition lockout_remaining (key : FailureKey) (now window threshold : Z) (t : FailureWindowTable)
    : Z * FailureWindowTable :=
  let t := expire now window t in
  (match index_find key t with
   | None => 0
   | Some e => if fe_count e <? threshold then 0 else fe_window_start e + window - now
   end, t).

Definition with_count (e : Entry) (count : Z) : Entry :=
  {| fe_key := fe_key e; fe_count := count; fe_window_start := fe_window_start e |}.

Definition record_failure (key : FailureKey) (now window threshold : Z) (t : FailureWindowTable) : FailureWindowTable :=
  let t := expire now window t in
  match index_find key t with
  | None =>
      let t := if (fw_capacity t <=? length (fw_order t))%nat then pop_oldest t else t in
      with_order t (fw_order t ++ [{| fe_key := key; fe_count := 1; fe_window_start := now |}]) (fw_index t ∪ {[key]})
  | Some e =>
      if fe_count e =? uint32_max then t
      else if fe_count e + 1 =? threshold
      then with_order t
             (filter (fun x => fe_key x <> key) (fw_order t)
              ++ [{| fe_key := key; fe_count := fe_count e + 1; fe_window_start := now |}]) (fw_index t)
      else with_order t ((fun x => if fe_key x =s key then with_count x (fe_count x + 1) else x) <$> fw_order t) (fw_index t)
  end.

Definition clear_failures (key : FailureKey) (t : FailureWindowTable) : FailureWindowTable :=
  match index_find key t with
  | None => t
  | Some _ => with_order t (filter (fun x => fe_key x <> key) (fw_order t)) (fw_index t ∖ {[key]})
  end.

Definition failures (key : FailureKey) (now window : Z) (t : FailureWindowTable) : Z * FailureWindowTable :=
  let t := expire now window t in
  (match index_find key t with None => 0 | Some e => fe_count e end, t).

(** * The invariant *)

Abbreviation keys := (fmap fe_key).

Definition no_later (a b : Entry) : Prop := fe_window_start a <= fe_window_start b.

Record failures_ok (now : Z) (t : FailureWindowTable) : Prop := {
  fw_keys : NoDup (keys (fw_order t));
  fw_indexed : forall k, k ∈ fw_index t <-> k ∈ keys (fw_order t);
  fw_positive : (1 <= fw_capacity t)%nat;
  fw_bounded : (length (fw_order t) <= fw_capacity t)%nat;
  fw_sorted : StronglySorted no_later (fw_order t);
  fw_past : forall e, e ∈ fw_order t -> fe_window_start e <= now;
  fw_counts : forall e, e ∈ fw_order t -> 1 <= fe_count e <= uint32_max
}.

Lemma node_of_Some key order e : node_of key order = Some e -> e ∈ order /\ fe_key e = key.
Proof.
  unfold node_of. intros He. assert (e ∈ filter (fun e => fe_key e = key) order) as Hin
    by (destruct (filter _ order); simplify_eq/=; by left).
  apply list_elem_of_filter in Hin. naive_solver.
Qed.

Lemma node_of_None key order : node_of key order = None <-> key ∉ keys order.
Proof.
  unfold node_of. split.
  - intros Hn (e & -> & He)%list_elem_of_fmap. destruct (filter _ order) eqn:E; [|done].
    assert (e ∈ ([] : list Entry)); [|set_solver]. rewrite <- E. by apply list_elem_of_filter.
  - intros Hn. destruct (filter _ order) as [|e l] eqn:E; [done|]. destruct Hn.
    assert (e ∈ filter (fun e => fe_key e = key) order) as [<- He]%list_elem_of_filter by (rewrite E; by left).
    apply list_elem_of_fmap. eauto.
Qed.

Lemma node_of_unique key order e : NoDup (keys order) -> e ∈ order -> fe_key e = key -> node_of key order = Some e.
Proof.
  intros Hnd He Hk. destruct (node_of key order) as [x|] eqn:E.
  - apply node_of_Some in E as [Hx Hxk]. f_equal. apply list_elem_of_lookup_1 in He as [i Hi], Hx as [j Hj].
    assert (i = j) as ->; [|congruence].
    eapply NoDup_lookup; [exact Hnd|rewrite list_lookup_fmap, Hi; reflexivity|].
    rewrite list_lookup_fmap, Hj. simpl. congruence.
  - apply node_of_None in E. destruct E. apply list_elem_of_fmap. eauto.
Qed.

Lemma index_find_node key t : (forall k, k ∈ fw_index t <-> k ∈ keys (fw_order t)) ->
  index_find key t = node_of key (fw_order t).
Proof.
  intros Hi. unfold index_find. destruct (decide (key ∈ fw_index t)) as [|Hn]; [done|].
  symmetry. apply node_of_None. by rewrite <- Hi.
Qed.

(** Expiry drops a prefix of the list: the entries whose window has passed. *)
Lemma expire_from_spec order now window : forall index, exists dropped,
  order = dropped ++ (expire_from order now window index).1
  /\ (forall e, e ∈ dropped -> window <= now - fe_window_start e)
  /\ (forall e rest, (expire_from order now window index).1 = e :: rest -> now - fe_window_start e < window)
  /\ forall k, k ∈ (expire_from order now window index).2 <-> k ∈ index /\ k ∉ keys dropped.
Proof.
  induction order as [|e order IH]; intros index; simpl; [exists []; set_solver|].
  destruct (window <=? now - fe_window_start e) eqn:E; breflect.
  - destruct (IH (index ∖ {[fe_key e]})) as (dropped & Heq & Hd & Hfresh & Hi). exists (e :: dropped).
    split; [simpl; by f_equal|]. split; [set_solver|]. split; [done|]. intros k. rewrite Hi. set_solver.
  - exists []. simpl. split; [done|]. split; [set_solver|]. split; [|set_solver]. intros x rest [= <- _]. done.
Qed.

Lemma expire_spec now window t : exists dropped,
  fw_order t = dropped ++ fw_order (expire now window t)
  /\ (forall e, e ∈ dropped -> window <= now - fe_window_start e)
  /\ (forall e rest, fw_order (expire now window t) = e :: rest -> now - fe_window_start e < window)
  /\ (forall k, k ∈ fw_index (expire now window t) <-> k ∈ fw_index t /\ k ∉ keys dropped)
  /\ fw_capacity (expire now window t) = fw_capacity t.
Proof.
  unfold expire. destruct (expire_from_spec (fw_order t) now window (fw_index t)) as (dropped & H1 & H2 & H3 & H4).
  destruct (expire_from _ _ _ _) as [order index]. exists dropped. auto.
Qed.

Lemma failures_ok_later now now' t : now <= now' -> failures_ok now t -> failures_ok now' t.
Proof. intros Hle []. constructor; try done. intros e He. specialize (fw_past0 e He). lia. Qed.

(** Keeping a part of the list, in order, with the index to match. *)
Lemma failures_ok_sub now t order index : failures_ok now t -> order `sublist_of` fw_order t ->
  (forall k, k ∈ index <-> k ∈ keys order) -> failures_ok now (with_order t order index).
Proof.
  intros [Hnd Hi Hp Hb Hs Hpast Hc] Hsub Hindex. constructor; simpl; try done.
  - eapply sublist_NoDup; [exact Hnd|]. clear -Hsub. induction Hsub; simpl; by constructor.
  - apply sublist_length in Hsub. lia.
  - clear -Hsub Hs. induction Hsub as [|x l k Hsub IH|x l k Hsub IH]; [done| |]; apply StronglySorted_inv in Hs as [Hs Hx].
    + constructor; [auto|]. rewrite Forall_forall in Hx; rewrite Forall_forall. intros y Hy. apply Hx.
      by eapply elem_of_sublist.
    + auto.
  - intros e He. eapply Hpast, elem_of_sublist; eauto.
  - intros e He. eapply Hc, elem_of_sublist; eauto.
Qed.

Lemma expire_ok now window t : failures_ok now t -> failures_ok now (expire now window t)
  /\ forall e, e ∈ fw_order (expire now window t) -> now - fe_window_start e < window.
Proof.
  intros Hok. destruct (expire_spec now window t) as (dropped & Heq & _ & Hfresh & Hi & Hcap).
  assert (failures_ok now (expire now window t)) as Hok'.
  { assert (expire now window t = with_order t (fw_order (expire now window t)) (fw_index (expire now window t))) as Heta.
    { destruct (expire now window t). unfold with_order. simpl in *. congruence. }
    rewrite Heta. apply failures_ok_sub; [done|rewrite Heq; by apply sublist_inserts_l|].
    intros k. rewrite Hi, (fw_indexed now t Hok), Heq, fmap_app, elem_of_app. split; [naive_solver|]. intros Hk.
    split; [by right|]. intros Hd. pose proof (fw_keys now t Hok) as Hnd. rewrite Heq, fmap_app in Hnd.
    apply NoDup_app in Hnd as (_ & Hdis & _). by apply (Hdis k). }
  split; [done|]. destruct (fw_order (expire now window t)) as [|x rest] eqn:Eo; [set_solver|].
  specialize (Hfresh x rest eq_refl). pose proof (fw_sorted now _ Hok') as Hs. rewrite Eo in Hs.
  apply StronglySorted_inv in Hs as [_ Hx]. rewrite Forall_forall in Hx.
  intros e [->|He]%elem_of_cons; [done|]. specialize (Hx e He). unfold no_later in Hx. lia.
Qed.

Lemma pop_oldest_ok now t : failures_ok now t -> failures_ok now (pop_oldest t).
Proof.
  intros Hok. unfold pop_oldest. destruct (fw_order t) as [|e rest] eqn:E; [done|].
  apply failures_ok_sub; [done|rewrite E; by apply sublist_cons|]. intros k.
  pose proof (fw_keys now t Hok) as Hnd. rewrite E in Hnd. apply NoDup_cons in Hnd as [Hn _].
  rewrite elem_of_difference, (fw_indexed now t Hok), E. set_solver.
Qed.

Lemma drop_key_ok now t key : failures_ok now t ->
  failures_ok now (with_order t (filter (fun x => fe_key x <> key) (fw_order t)) (fw_index t ∖ {[key]})).
Proof.
  intros Hok. apply failures_ok_sub; [done|apply sublist_filter|]. intros k.
  rewrite elem_of_difference, (fw_indexed now t Hok), !list_elem_of_fmap. setoid_rewrite list_elem_of_filter. set_solver.
Qed.

(** Appending the newest entry, of a key not held. *)
Lemma push_newest_ok now t key count : failures_ok now t -> key ∉ keys (fw_order t) ->
  (length (fw_order t) < fw_capacity t)%nat -> 1 <= count <= uint32_max ->
  failures_ok now (with_order t (fw_order t ++ [{| fe_key := key; fe_count := count; fe_window_start := now |}])
    (fw_index t ∪ {[key]})).
Proof.
  intros [Hnd Hi Hp Hb Hs Hpast Hc] Hnew Hlen Hcount. constructor; simpl; try done.
  - rewrite fmap_app. apply NoDup_app. split; [done|]. split; [|apply NoDup_singleton].
    intros k Hk ->%list_elem_of_singleton. done.
  - intros k. rewrite fmap_app, elem_of_union, elem_of_app, Hi. set_solver.
  - rewrite length_app. simpl. lia.
  - clear -Hs Hpast. induction Hs as [|x l Hs IH Hx]; simpl; [by repeat constructor|]. constructor.
    + apply IH. intros e He. apply Hpast. by right.
    + apply Forall_app. split; [done|]. repeat constructor. unfold no_later. simpl. apply Hpast. by left.
  - intros e [He| ->%list_elem_of_singleton]%elem_of_app; [auto|simpl; lia].
  - intros e [He| ->%list_elem_of_singleton]%elem_of_app; [auto|done].
Qed.

(** Changing counts in place. *)
Lemma recount_ok now t f : failures_ok now t ->
  (forall e, e ∈ fw_order t -> 1 <= f e <= uint32_max) ->
  failures_ok now (with_order t ((fun e => with_count e (f e)) <$> fw_order t) (fw_index t)).
Proof.
  intros [Hnd Hi Hp Hb Hs Hpast Hc] Hf.
  assert (keys ((fun e => with_count e (f e)) <$> fw_order t) = keys (fw_order t)) as Hk
    by (rewrite <- list_fmap_compose; by apply list_fmap_ext).
  constructor; simpl; rewrite ?Hk; try done.
  - by rewrite length_fmap.
  - clear -Hs. induction Hs as [|x l Hs IH Hx]; simpl; constructor; [done|]. apply Forall_fmap.
    eapply Forall_impl; [exact Hx|]. done.
  - intros e (x & -> & Hx)%list_elem_of_fmap. simpl. auto.
  - intros e (x & -> & Hx)%list_elem_of_fmap. simpl. auto.
Qed.

Lemma record_failure_ok key now window threshold t : failures_ok now t ->
  failures_ok now (record_failure key now window threshold t).
Proof.
  intros Hok. destruct (expire_ok now window t Hok) as [Hexp _]. unfold record_failure.
  generalize dependent (expire now window t). clear t Hok. intros t Hok.
  rewrite index_find_node by (apply (fw_indexed now t Hok)). destruct (node_of key (fw_order t)) as [e|] eqn:En.
  - apply node_of_Some in En as [He Hk]. pose proof (fw_counts now t Hok e He) as Hcount.
    destruct (fe_count e =? uint32_max) eqn:Em; breflect; [done|]. destruct (fe_count e + 1 =? threshold).
    + pose proof (drop_key_ok now t key Hok) as Hdrop.
      assert (fw_index t ≡ (fw_index t ∖ {[key]}) ∪ {[key]}) as Hset.
      { assert (key ∈ fw_index t) by (apply (fw_indexed now t Hok), list_elem_of_fmap; eauto). intros k.
        destruct (decide (k = key)); set_solver. }
      apply leibniz_equiv in Hset. rewrite Hset. apply (push_newest_ok now _ key (fe_count e + 1)) in Hdrop; [exact Hdrop| | |lia].
      * simpl. intros (x & -> & [Hx _]%list_elem_of_filter)%list_elem_of_fmap. done.
      * simpl. pose proof (fw_bounded now t Hok).
        enough (length (filter (fun x => fe_key x <> key) (fw_order t)) < length (fw_order t))%nat by lia.
        apply (length_filter_lt _ _ e); [done|]. intros Hne. by apply Hne.
    + erewrite list_fmap_ext; [apply (recount_ok now t (fun x => if fe_key x =s key then fe_count x + 1 else fe_count x) Hok)|].
      * intros x Hx. pose proof (fw_counts now t Hok x Hx). destruct (fe_key x =s key) eqn:Ek; [|lia]. breflect.
        assert (Some x = Some e) as [= ->]; [|lia]. rewrite <- (node_of_unique key (fw_order t) x), <- (node_of_unique key (fw_order t) e);
          try done; apply (fw_keys now t Hok).
      * intros i x _. cbv beta. destruct (fe_key x =s key); [done|by destruct x].
  - apply node_of_None in En. destruct (fw_capacity t <=? length (fw_order t))%nat eqn:Ec.
    + pose proof (pop_oldest_ok now t Hok) as Hpop. pose proof (fw_positive now t Hok).
      apply push_newest_ok; [done| | |unfold uint32_max; lia]; apply Nat.leb_le in Ec; pose proof (fw_bounded now t Hok);
        unfold pop_oldest; destruct (fw_order t); simpl in *; [lia|set_solver|lia|lia].
    + apply Nat.leb_gt in Ec. apply push_newest_ok; [done|done|done|unfold uint32_max; lia].
Qed.

Lemma clear_failures_ok now key t : failures_ok now t -> failures_ok now (clear_failures key t).
Proof. intros Hok. unfold clear_failures. destruct (index_find key t); [by apply drop_key_ok|done]. Qed.

(** * Sequences of calls *)

Inductive FailureOp : Type :=
  | op_record (key : FailureKey)
  | op_lockout (key : FailureKey)
  | op_failures (key : FailureKey)
  | op_clear (key : FailureKey).

(** A call, its time and the policy it is made with. *)
Record FailureCall : Type := {
  fc_op : FailureOp;
  fc_now : Z;
  fc_window : Z;
  fc_threshold : Z
}.

Definition run_call (t : FailureWindowTable) (c : FailureCall) : FailureWindowTable :=
  match fc_op c with
  | op_record key => record_failure key (fc_now c) (fc_window c) (fc_threshold c) t
  | op_lockout key => (lockout_remaining key (fc_now c) (fc_window c) (fc_threshold c) t).2
  | op_failures key => (failures key (fc_now c) (fc_window c) t).2
  | op_clear key => clear_failures key t
  end.

Definition run_calls (calls : list FailureCall) (t : FailureWindowTable) : FailureWindowTable := foldl run_call t calls.

(** The clock does not go back: the calls are made from [start] to [stop]. *)
Fixpoint clocked (start : Z) (calls : list FailureCall) (stop : Z) : Prop :=
  match calls with
  | [] => start <= stop
  | c :: rest => start <= fc_now c /\ clocked (fc_now c) rest stop
  end.

Lemma clocked_le calls : forall start stop, clocked start calls stop -> start <= stop.
Proof. induction calls as [|c calls IH]; intros start stop; simpl; [done|]. intros [? Hc%IH]. lia. Qed.

Lemma run_call_ok start t c : start <= fc_now c -> failures_ok start t -> failures_ok (fc_now c) (run_call t c).
Proof.
  intros Hle Hok%(failures_ok_later start (fc_now c)); [|done]. unfold run_call. destruct (fc_op c).
  - by apply record_failure_ok.
  - simpl. by apply expire_ok.
  - simpl. by apply expire_ok.
  - by apply clear_failures_ok.
Qed.

Lemma run_calls_ok calls : forall start stop t, clocked start calls stop -> failures_ok start t ->
  failures_ok stop (run_calls calls t).
Proof.
  induction calls as [|c calls IH]; intros start stop t; simpl; [by apply failures_ok_later|].
  intros [Hle Hc] Hok. eapply IH; [exact Hc|]. by eapply run_call_ok.
Qed.

Lemma run_call_capacity t c : fw_capacity (run_call t c) = fw_capacity t.
Proof.
  unfold run_call, lockout_remaining, failures, clear_failures, record_failure, pop_oldest.
  destruct (expire_spec (fc_now c) (fc_window c) t) as (_ & _ & _ & _ & _ & Hcap).
  destruct (fc_op c); simpl; [|done|done|by split_goal]. by repeat (split_goal; simpl).
Qed.

Lemma run_calls_capacity calls : forall t, fw_capacity (run_calls calls t) = fw_capacity t.
Proof. induction calls as [|c calls IH]; intros t; [done|]. simpl. rewrite IH. apply run_call_capacity. Qed.

Lemma new_failure_table_ok capacity now : failures_ok now (new_failure_table capacity).
Proof. constructor; simpl; try set_solver; try lia; constructor. Qed.

(** * The lockout *)

(** The key's entry is held, tripped at [start], with at most [newer] entries
    behind it. *)
Definition tripped (key : FailureKey) (start threshold : Z) (newer : nat) (t : FailureWindowTable) : Prop :=
  exists pre e post, fw_order t = pre ++ e :: post /\ fe_key e = key /\ fe_window_start e = start
    /\ threshold <= fe_count e /\ (length post <= newer)%nat.

(** The number of calls that may add an entry. *)
Fixpoint records (calls : list FailureCall) : nat :=
  match calls with
  | [] => 0
  | c :: rest => match fc_op c with op_record _ => S (records rest) | _ => records rest end
  end.

Lemma expire_tripped key start threshold newer now window t : now < start + window ->
  tripped key start threshold newer t -> tripped key start threshold newer (expire now window t).
Proof.
  intros Hnow (pre & e & post & Heq & Hk & Hs & Hc & Hl). destruct (expire_spec now window t) as (dropped & Hd & Hexp & _).
  rewrite Heq in Hd. clear Heq. revert pre Hd. induction dropped as [|x dropped IH]; intros pre Hd; simpl in Hd.
  - exists pre, e, post. auto.
  - destruct pre as [|y pre]; injection Hd as <- Hd.
    + specialize (Hexp e ltac:(by left)). lia.
    + apply (IH ltac:(intros z Hz; apply Hexp; by right) pre Hd).
Qed.

Lemma tripped_filter key start threshold newer t other index : other <> key ->
  tripped key start threshold newer t ->
  tripped key start threshold newer (with_order t (filter (fun x => fe_key x <> other) (fw_order t)) index).
Proof.
  intros Hne (pre & e & post & Heq & Hk & Hs & Hc & Hl).
  exists (filter (fun x => fe_key x <> other) pre), e, (filter (fun x => fe_key x <> other) post). simpl.
  rewrite Heq, filter_app, filter_cons, decide_True by congruence. repeat (split; [done|]).
  pose proof (length_filter (fun x => fe_key x <> other) post). lia.
Qed.

Lemma tripped_push key start threshold newer t x index :
  tripped key start threshold newer t ->
  tripped key start threshold (S newer) (with_order t (fw_order t ++ [x]) index).
Proof.
  intros (pre & e & post & Heq & Hk & Hs & Hc & Hl). exists pre, e, (post ++ [x]). simpl. rewrite Heq, <- app_assoc.
  repeat (split; [done|]). rewrite length_app. simpl. lia.
Qed.

Lemma tripped_weaken key start threshold newer newer' t : (newer <= newer')%nat ->
  tripped key start threshold newer t -> tripped key start threshold newer' t.
Proof. intros Hle (pre & e & post & ? & ? & ? & ? & ?). exists pre, e, post. repeat (split; [done|]). lia. Qed.

Lemma pop_tripped key start threshold newer t : (fw_capacity t <= length (fw_order t))%nat -> (S newer < fw_capacity t)%nat ->
  tripped key start threshold newer t -> tripped key start threshold newer (pop_oldest t).
Proof.
  intros Hfull Hroom (pre & e & post & Heq & Hk & Hs & Hc & Hl). unfold pop_oldest. rewrite Heq. rewrite Heq, length_app in Hfull.
  destruct pre as [|x pre]; simpl in *; [lia|]. exists pre, e, post. auto.
Qed.

Lemma record_tripped now other key start window threshold newer t : failures_ok now t -> now < start + window ->
  (S newer < fw_capacity t)%nat -> tripped key start threshold newer t ->
  tripped key start threshold (S newer) (record_failure other now window threshold t).
Proof.
  intros Hok Hnow Hroom Htrip. pose proof (expire_tripped _ _ _ _ _ _ _ Hnow Htrip) as Ht.
  destruct (expire_ok now window t Hok) as [Hok' _]. destruct (expire_spec now window t) as (_ & _ & _ & _ & _ & Hcap).
  rewrite <- Hcap in Hroom. clear Hcap. unfold record_failure. generalize dependent (expire now window t). clear t Hok Htrip.
  intros t Hroom Ht Hok. rewrite index_find_node by (apply (fw_indexed now t Hok)).
  destruct (node_of other (fw_order t)) as [x|] eqn:En.
  - apply node_of_Some in En as [Hx Hxk]. destruct (fe_count x =? uint32_max); [eapply tripped_weaken; [|done]; lia|].
    destruct (fe_count x + 1 =? threshold) eqn:Et; breflect.
    + apply (tripped_push key start threshold newer (with_order t _ (fw_index t))). apply tripped_filter; [|done].
      intros ->. destruct Ht as (pre & e & post & Heq & Hek & _ & Hec & _).
      assert (Some x = Some e) as [= ->]; [|lia].
      rewrite <- (node_of_unique key (fw_order t) x), <- (node_of_unique key (fw_order t) e); try done;
        first [apply (fw_keys now t Hok)|rewrite Heq; apply elem_of_app; right; by left].
    + destruct Ht as (pre & e & post & Heq & Hek & Hes & Hec & Hl). rewrite Heq. set (f := fun x => _).
      exists (f <$> pre), (f e), (f <$> post). simpl. rewrite fmap_app, length_fmap. subst f. simpl.
      destruct (fe_key e =s other); simpl; repeat (split; [done || lia|]); lia.
  - destruct (fw_capacity t <=? length (fw_order t))%nat eqn:Ec.
    + apply (tripped_push key start threshold newer (pop_oldest t)). apply Nat.leb_le in Ec. by apply pop_tripped.
    + by apply (tripped_push key start threshold newer t).
Qed.

Lemma run_tripped key start window threshold calls : forall from stop newer t,
  Forall (fun c => fc_window c = window /\ fc_threshold c = threshold /\ fc_op c <> op_clear key) calls ->
  clocked from calls stop -> stop < start + window -> failures_ok from t ->
  (newer + records calls < fw_capacity t)%nat -> tripped key start threshold newer t ->
  tripped key start threshold (newer + records calls) (run_calls calls t).
Proof.
  induction calls as [|c calls IH]; intros from stop newer t Hall; [simpl; intros; by rewrite Nat.add_0_r|].
  apply Forall_cons in Hall as [(Hw & Hth & Hop) Hall]. simpl. intros [Hle Hclock] Hstop Hok Hcap Ht.
  pose proof (clocked_le _ _ _ Hclock) as Hend. pose proof (run_call_ok _ _ c Hle Hok) as Hok'.
  apply (failures_ok_later from (fc_now c)) in Hok; [|done].
  assert (fw_capacity (run_call t c) = fw_capacity t) as Hsame by apply run_call_capacity.
  assert (exists n, (n + records calls = newer + records (c :: calls))%nat /\ tripped key start threshold n (run_call t c))
    as (n & Hn & Htn).
  { simpl in Hcap |- *. unfold run_call. destruct (fc_op c) as [other|other|other|other]; simpl in *.
    - exists (S newer). split; [lia|]. rewrite Hw, Hth. apply record_tripped; [done|lia|lia|done].
    - exists newer. split; [done|]. rewrite Hw. apply expire_tripped; [lia|done].
    - exists newer. split; [done|]. rewrite Hw. apply expire_tripped; [lia|done].
    - exists newer. split; [done|]. unfold clear_failures. destruct (index_find other t); [|done].
      apply tripped_filter; [congruence|done]. }
  simpl in Hn. rewrite <- Hn. apply (IH (fc_now c) stop n); try done. rewrite Hsame. lia.
Qed.

Lemma record_trips key s window threshold t : failures_ok s t -> 0 < window -> threshold <= uint32_max ->
  (failures key s window t).1 + 1 = threshold ->
  tripped key s threshold 0 (record_failure key s window threshold t).
Proof.
  intros Hok Hw Hth. destruct (expire_ok s window t Hok) as [Hok' _]. unfold failures, record_failure. simpl.
  generalize dependent (expire s window t). clear t Hok. intros t Hok.
  rewrite index_find_node by (apply (fw_indexed s t Hok)). destruct (node_of key (fw_order t)) as [e|].
  - intros Hc. destruct (fe_count e =? uint32_max) eqn:Em; breflect; [lia|]. rewrite (proj2 (Z.eqb_eq _ _)) by lia.
    eexists _, _, []. split; [reflexivity|]. simpl. repeat (split; [done || lia|]). lia.
  - intros <-. eexists _, _, []. split; [reflexivity|]. simpl. repeat (split; [done || lia|]). lia.
Qed.

Lemma tripped_lockout key s window threshold newer now t : failures_ok now t -> now < s + window ->
  tripped key s threshold newer t -> (lockout_remaining key now window threshold t).1 = s + window - now.
Proof.
  intros Hok Hnow Ht. pose proof (expire_tripped _ _ _ _ _ _ _ Hnow Ht) as (pre & e & post & Heq & Hk & Hs & Hc & _).
  destruct (expire_ok now window t Hok) as [Hok' _]. unfold lockout_remaining. simpl.
  rewrite index_find_node by (apply (fw_indexed now _ Hok')). rewrite (node_of_unique key _ e); [|apply (fw_keys now _ Hok')| |done].
  - by rewrite (proj2 (Z.ltb_ge _ _)), Hs by lia.
  - rewrite Heq. apply elem_of_app. right. by left.
Qed.

(** A table of login failures, after any calls on an advancing clock: it holds
    no more entries than its capacity, and a remaining lockout is between 0 and the
    window.  When a key has one failure less than the threshold, its next failure
    at [s] locks it out until [s + window], whatever calls follow except one that
    clears the key, as long as fewer calls than the capacity record a failure: at
    [now] the remaining time is exactly what is left of the window. *)
Theorem failures_lock_out capacity before first s key window threshold calls now :
  let t := run_calls before (new_failure_table capacity) in
  clocked first before s -> 0 < window -> 1 <= threshold <= uint32_max ->
  (length (fw_order t) <= Nat.max capacity 1)%nat
  /\ 0 <= (lockout_remaining key s window threshold t).1 <= window
  /\ ((failures key s window t).1 + 1 = threshold ->
      Forall (fun c => fc_window c = window /\ fc_threshold c = threshold /\ fc_op c <> op_clear key) calls ->
      clocked s calls now -> now < s + window -> (records calls < Nat.max capacity 1)%nat ->
      (lockout_remaining key now window threshold (run_calls calls (record_failure key s window threshold t))).1
        = s + window - now).
Proof.
  intros t Hclock Hw Hth.
  assert (failures_ok s t) as Hok by (eapply run_calls_ok; [exact Hclock|apply new_failure_table_ok]).
  assert (fw_capacity t = Nat.max capacity 1) as Hcap by (subst t; apply run_calls_capacity).
  split; [rewrite <- Hcap; apply (fw_bounded s t Hok)|]. split.
  - destruct (expire_ok s window t Hok) as [Hok' Hfresh]. unfold lockout_remaining. simpl.
    rewrite index_find_node by (apply (fw_indexed s _ Hok')). destruct (node_of key _) as [e|] eqn:En; [|lia].
    apply node_of_Some in En as [He _]. pose proof (Hfresh e He). pose proof (fw_past s _ Hok' e He).
    destruct (fe_count e <? threshold); lia.
  - intros Hf Hall Hcalls Hnow Hrec. pose proof (record_trips key s window threshold t Hok Hw (proj2 Hth) Hf) as Ht.
    pose proof (record_failure_ok key s window threshold t Hok) as Hok1.
    eapply tripped_lockout; [eapply run_calls_ok; [exact Hcalls|done]|done|].
    eapply (run_tripped key s window threshold calls s now 0); try done.
    pose proof (run_call_capacity t {| fc_op := op_record key; fc_now := s; fc_window := window; fc_threshold := threshold |}) as Hc.
    unfold run_call in Hc. simpl in Hc. rewrite Hc, Hcap. done.
Qed.

Definition sample_failures : list FailureCall :=
  [{| fc_op := op_record "k"; fc_now := 1; fc_window := 60; fc_threshold := 3 |};
   {| fc_op := op_record "k"; fc_now := 5; fc_window := 60; fc_threshold := 3 |}].

Lemma failures_lock_out_witness :
  (lockout_remaining "k" 20 60 3 (run_calls [{| fc_op := op_record "j"; fc_now := 15; fc_window := 60; fc_threshold := 3 |}]
    (record_failure "k" 10 60 3 (run_calls sample_failures (new_failure_table 4))))).1 = 50.
Proof.
  refine (proj2 (proj2 (failures_lock_out 4 sample_failures 0 10 "k" 60 3
    [{| fc_op := op_record "j"; fc_now := 15; fc_window := 60; fc_threshold := 3 |}] 20 _ _ _)) _ _ _ _ _).
  - simpl. lia.
  - lia.
  - unfold uint32_max. lia.
  - vm_compute. reflexivity.
  - repeat constructor. discriminate.
  - simpl. lia.
  - lia.
  - simpl. lia.
Defined.
