(* ===== verification/EduWindow.v ===== *)
(** Replays of to-device messages: federation/EduIdempotenceWindow.cpp, with the
    hashed identities of crypto/generic_hash.cpp, crypto/encoding.cpp and
    auth/FailureWindowTable.cpp.  Times are integers of clock ticks. *)
From S2P Require Import Prelude CppStd JsonNumbers Signing FailureWindow.
Open Scope Z_scope.

(** * Hashes of pieces *)

Definition nul : ascii := chr 0.

Class GenericHash : Type := {
  (** [crypto_generichash_init], updates with the bytes of the message, and
      [crypto_generichash_final] for 32 bytes, with a key (empty for none);
      [None] is a non-zero return of one of them. *)
  crypto_generichash : string -> string -> option string
}.

(** Each piece is followed by a NUL. *)
Fixpoint hash_input (pieces : list string) : string :=
  match pieces with
  | [] => EmptyString
  | piece :: rest => piece +:+ String nul (hash_input rest)
  end.

Section Hashes.
Context `{Sodium, GenericHash}.

Definition generic_hash_bytes (pieces : list string) (key : string) : option string :=
  if sodium_init_ok then crypto_generichash key (hash_input pieces) else None.

Definition base64_urlsafe_encode (input : string) : option string :=
  if empty input || negb sodium_init_ok then None else Some (sodium_bin2base64 true input).

Definition failure_pieces (kind account qualifier : string) : list string :=
  [kind; to_string (Z.of_nat (String.length account)); account; qualifier].

Definition make_failure_key (kind account qualifier : string) : option FailureKey :=
  match generic_hash_bytes (failure_pieces kind account qualifier) EmptyString with
  | None => None
  | Some digest => if (String.length digest =? 32)%nat then Some digest else None
  end.

(** [std::to_string(input.size()) + ":" + input]. *)
Definition prefixed (input : string) : string :=
  to_string (Z.of_nat (String.length input)) +:+ String ":" input.

Definition message_id_domain : string := "merovingian.m.direct_to_device.message_id".
Definition message_id_digest_bytes : nat := 18.

Definition message_id_pieces (sender sender_device event_type txn_id : string) : list string :=
  [message_id_domain; prefixed sender; prefixed sender_device; prefixed event_type; prefixed txn_id].

Definition derive_direct_to_device_message_id (sender sender_device event_type txn_id : string) : option string :=
  match generic_hash_bytes (message_id_pieces sender sender_device event_type txn_id) EmptyString with
  | None => None
  | Some digest =>
      if (String.length digest <? message_id_digest_bytes)%nat then None
      else base64_urlsafe_encode (take_str message_id_digest_bytes digest)
  end.
End Hashes.

Definition max_message_id_codepoints : Z := 32.

Fixpoint count_codepoints (s : string) : Z :=
  match s with
  | EmptyString => 0
  | String c s' => (if negb (Z.land (byte_of c) 192 =? 128) then 1 else 0) + count_codepoints s'
  end.

Definition direct_to_device_message_id_is_valid (message_id : string) : bool :=
  negb (empty message_id) && (count_codepoints message_id <=? max_message_id_codepoints).

(** * The window *)

Definition window_key (origin sender message_id : string) : string :=
  prefixed origin +:+ prefixed sender +:+ message_id.

Record EduIdempotenceWindow : Type := {
  ew_capacity : nat;
  ew_lifetime : Z;
  ew_order : list (string * Z);
  ew_keys : gmap string Z
}.

Definition new_edu_window (capacity : nat) (lifetime : Z) : EduIdempotenceWindow :=
  {| ew_capacity := capacity; ew_lifetime := lifetime; ew_order := []; ew_keys := ∅ |}.

Definition with_entries (w : EduIdempotenceWindow) (order : list (string * Z)) (keys : gmap string Z) : EduIdempotenceWindow :=
  {| ew_capacity := ew_capacity w; ew_lifetime := ew_lifetime w; ew_order := order; ew_keys := keys |}.

Definition seen (origin sender message_id : string) (now : Z) (w : EduIdempotenceWindow) : bool :=
  match ew_keys w !! window_key origin sender message_id with
  | Some seen_at => now - seen_at <? ew_lifetime w
  | None => false
  end.

(** Pop from the front while the condition on the front and the length holds. *)
Fixpoint pop_while (stop : string * Z -> nat -> bool) (order : list (string * Z)) (keys : gmap string Z)
    : list (string * Z) * gmap string Z :=
  match order with
  | [] => ([], keys)
  | e :: rest => if stop e (length order) then pop_while stop rest (delete e.1 keys) else (order, keys)
  end.

Definition record (origin sender message_id : string) (now : Z) (w : EduIdempotenceWindow) : EduIdempotenceWindow :=
  let '(order, keys) := pop_while (fun e _ => ew_lifetime w <=? now - e.2) (ew_order w) (ew_keys w) in
  let key := window_key origin sender message_id in
  if match keys !! key with Some _ => true | None => false end || (ew_capacity w =? 0)%nat
  then with_entries w order keys
  else
    let '(order, keys) := pop_while (fun _ size => (ew_capacity w <=? size)%nat) order keys in
    with_entries w (order ++ [(key, now)]) (<[key := now]> keys).

Example direct_to_device_message_id_examples :
  direct_to_device_message_id_is_valid "m1" = true /\ direct_to_device_message_id_is_valid EmptyString = false
  /\ window_key "a.org" "@u:a.org" "m" = "5:a.org8:@u:a.orgm".
Proof. repeat split. Qed.

(** * Keys are told apart *)

Lemma all_digits_split a b x y c : all_digits a = true -> all_digits b = true -> is_digit c = false ->
  a +:+ String c x = b +:+ String c y -> a = b /\ x = y.
Proof.
  intros Ha Hb Hc. revert b Hb. induction a as [|d a IH]; intros [|e b] Hb; simpl in *; intros Heq; breflect.
  - by simplify_eq.
  - simplify_eq. congruence.
  - simplify_eq. congruence.
  - injection Heq as -> Heq. destruct (IH ltac:(done) b) as [-> ->]; auto.
Qed.

Lemma append_same_length (a b x y : string) : String.length a = String.length b -> a +:+ x = b +:+ y -> a = b /\ x = y.
Proof.
  revert b. induction a as [|c a IH]; intros [|d b] Hlen; simpl in *; try done. intros [= -> Heq].
  destruct (IH b ltac:(lia) Heq) as [-> ->]. done.
Qed.

Lemma to_string_nat n : all_digits (to_string (Z.of_nat n)) = true /\ digits_value 0 (to_string (Z.of_nat n)) = Z.of_nat n.
Proof.
  destruct (to_string_digits (Z.of_nat n)) as (s & -> & Hc & Hv & _). rewrite (proj2 (Z.ltb_ge _ _)) by lia.
  split; [by apply canonical_all_digits|lia].
Qed.

Lemma to_string_nat_inj n m : to_string (Z.of_nat n) = to_string (Z.of_nat m) -> n = m.
Proof.
  intros Heq. destruct (to_string_nat n) as [_ Hn], (to_string_nat m) as [_ Hm]. rewrite Heq in Hn. lia.
Qed.

(** A length, a separator that is no digit, and as many bytes can be read back. *)
Lemma length_framed_inj c a b x y : is_digit c = false ->
  to_string (Z.of_nat (String.length a)) +:+ String c (a +:+ x) = to_string (Z.of_nat (String.length b)) +:+ String c (b +:+ y) ->
  a = b /\ x = y.
Proof.
  intros Hc Heq. apply all_digits_split in Heq as [Hlen Heq]; [|apply to_string_nat|apply to_string_nat|done].
  apply to_string_nat_inj in Hlen. by apply append_same_length.
Qed.

Lemma prefixed_inj a b x y : prefixed a +:+ x = prefixed b +:+ y -> a = b /\ x = y.
Proof. unfold prefixed. rewrite !append_assoc. simpl. by apply length_framed_inj. Qed.

Lemma window_key_inj o s m o' s' m' : window_key o s m = window_key o' s' m' -> o = o' /\ s = s' /\ m = m'.
Proof. unfold window_key. intros (-> & (-> & ->)%prefixed_inj)%prefixed_inj. done. Qed.

Lemma append_inv_l (a x y : string) : a +:+ x = a +:+ y -> x = y.
Proof. intros Heq. by apply append_same_length in Heq as [_ ?]. Qed.

Lemma message_id_input_inj s d e t s' d' e' t' :
  hash_input (message_id_pieces s d e t) = hash_input (message_id_pieces s' d' e' t') ->
  s = s' /\ d = d' /\ e = e' /\ t = t'.
Proof.
  unfold message_id_pieces. cbn [hash_input]. intros Heq%append_inv_l. injection Heq as Heq.
  apply prefixed_inj in Heq as [-> Heq]. injection Heq as Heq. apply prefixed_inj in Heq as [-> Heq]. injection Heq as Heq.
  apply prefixed_inj in Heq as [-> Heq]. injection Heq as Heq. by apply prefixed_inj in Heq as [-> _].
Qed.

(** The pieces of a failure key: the kind, a constant without NUL, is read up to
    its NUL; the account by its length; the qualifier is what remains. *)
Lemma kind_split a b x y : find_char nul a = None -> find_char nul b = None ->
  a +:+ String nul x = b +:+ String nul y -> a = b /\ x = y.
Proof.
  revert b. induction a as [|c a IH]; intros [|d b]; simpl.
  - by intros _ _ [= ->].
  - intros _ Hb Heq. injection Heq as <- _. by rewrite Ascii.eqb_refl in Hb.
  - intros Ha _ Heq. injection Heq as -> _. by rewrite Ascii.eqb_refl in Ha.
  - destruct (Ascii.eqb c nul), (Ascii.eqb d nul); try done. intros Ha Hb [= -> Heq].
    destruct (IH b) as [-> ->]; [by destruct (find_char nul a)|by destruct (find_char nul b)|done|done].
Qed.

Lemma append_snoc_inj (a b : string) c : a +:+ String c EmptyString = b +:+ String c EmptyString -> a = b.
Proof.
  intros Heq. apply (append_same_length a b) in Heq as [? _]; [done|].
  apply (f_equal String.length) in Heq. rewrite !length_append in Heq. simpl in Heq. lia.
Qed.

Lemma failure_input_inj k a q k' a' q' : find_char nul k = None -> find_char nul k' = None ->
  hash_input (failure_pieces k a q) = hash_input (failure_pieces k' a' q') -> k = k' /\ a = a' /\ q = q'.
Proof.
  unfold failure_pieces. cbn [hash_input]. intros Hk Hk' (-> & Heq)%kind_split; [|done|done].
  apply length_framed_inj in Heq as (-> & Heq); [|done]. injection Heq as Heq. by apply append_snoc_inj in Heq.
Qed.

(** * The invariant of the window *)

Record edu_ok (history : list (string * Z)) (now : Z) (w : EduIdempotenceWindow) : Prop := {
  edu_distinct : NoDup (ew_order w).*1;
  edu_keys : forall k t, ew_keys w !! k = Some t <-> (k, t) ∈ ew_order w;
  edu_sorted : StronglySorted (fun a b => a.2 <= b.2) (ew_order w);
  edu_past : forall e, e ∈ ew_order w -> e.2 <= now;
  edu_bounded : (length (ew_order w) <= ew_capacity w)%nat;
  edu_history : forall e, e ∈ ew_order w -> e ∈ history
}.

(** Popping drops a prefix; the front left is one the condition stops at. *)
Lemma pop_while_spec stop order : forall keys, NoDup order.*1 -> (forall k t, keys !! k = Some t <-> (k, t) ∈ order) ->
  exists dropped, order = dropped ++ (pop_while stop order keys).1
    /\ (forall e rest, (pop_while stop order keys).1 = e :: rest -> stop e (S (length rest)) = false)
    /\ (forall a e b, dropped = a ++ e :: b -> stop e (length (e :: b ++ (pop_while stop order keys).1)) = true)
    /\ forall k t, (pop_while stop order keys).2 !! k = Some t <-> (k, t) ∈ (pop_while stop order keys).1.
Proof.
  induction order as [|e order IH]; intros keys Hnd Hk; simpl.
  - exists []. split; [done|]. split; [done|]. split; [by intros [|]|done].
  - apply NoDup_cons in Hnd as [Hn Hnd]. destruct (stop e (S (length order))) eqn:E; simpl.
    + destruct (IH (delete e.1 keys)) as (dropped & Heq & Hfront & Hd & Hk'); [done| |].
      { intros k t. rewrite lookup_delete_Some, Hk, elem_of_cons. split.
        - intros [Hne [Heq|?]]; [by rewrite <- Heq in Hne|done].
        - intros Hin. split; [|by right]. intros <-. apply Hn. apply list_elem_of_fmap. by exists (e.1, t). }
      exists (e :: dropped). split; [simpl; by f_equal|]. split; [done|]. split; [|done].
      intros [|x a] y b; simpl; intros [= <- Hab]; [|by apply (Hd a)]. by rewrite <- Hab, <- Heq.
    + exists []. split; [done|]. split; [by intros x rest [= <- <-]|]. split; [by intros [|]|done].
Qed.

Lemma suffix_ok history now w dropped order keys : edu_ok history now w -> ew_order w = dropped ++ order ->
  (forall k t, keys !! k = Some t <-> (k, t) ∈ order) -> edu_ok history now (with_entries w order keys).
Proof.
  intros [Hnd Hk Hs Hp Hb Hh] Heq Hkeys. rewrite Heq in *. constructor; simpl; try done.
  - rewrite fmap_app in Hnd. by apply NoDup_app in Hnd as (_ & _ & ?).
  - clear -Hs. induction dropped as [|x dropped IH]; [done|]. apply IH. by apply StronglySorted_inv in Hs as [Hs _].
  - intros e He. apply Hp, elem_of_app. by right.
  - rewrite length_app in Hb. lia.
  - intros e He. apply Hh, elem_of_app. by right.
Qed.

(** The expiry at the start of a call. *)
Definition edu_expire (now : Z) (w : EduIdempotenceWindow) : EduIdempotenceWindow :=
  let '(order, keys) := pop_while (fun e _ => ew_lifetime w <=? now - e.2) (ew_order w) (ew_keys w) in
  with_entries w order keys.

Lemma edu_expire_ok history now w : edu_ok history now w -> edu_ok history now (edu_expire now w)
  /\ (exists dropped, ew_order w = dropped ++ ew_order (edu_expire now w)
      /\ forall e, e ∈ dropped -> ew_lifetime w <= now - e.2)
  /\ forall e, e ∈ ew_order (edu_expire now w) -> now - e.2 < ew_lifetime w.
Proof.
  intros Hok. unfold edu_expire. destruct (pop_while_spec (fun e _ => ew_lifetime w <=? now - e.2) (ew_order w) (ew_keys w)
    (edu_distinct _ _ _ Hok) (edu_keys _ _ _ Hok)) as (dropped & Heq & Hfront & Hd & Hk).
  destruct (pop_while _ _ _) as [order keys]. simpl in *.
  pose proof (suffix_ok _ _ _ _ _ _ Hok Heq Hk) as Hok'. split; [done|]. split.
  - exists dropped. split; [done|]. intros e (a & b & Hab)%list_elem_of_split. specialize (Hd a e b Hab). by breflect.
  - destruct order as [|x rest]; [set_solver|]. specialize (Hfront x rest eq_refl). breflect.
    pose proof (edu_sorted _ _ _ Hok') as Hs. simpl in Hs. apply StronglySorted_inv in Hs as [_ Hx].
    rewrite Forall_forall in Hx. intros e [->|He]%elem_of_cons; [done|]. specialize (Hx e He). simpl in Hx. lia.
Qed.

(** [record] after the expiry. *)
Definition edu_push (key : string) (now : Z) (w : EduIdempotenceWindow) : EduIdempotenceWindow :=
  if match ew_keys w !! key with Some _ => true | None => false end || (ew_capacity w =? 0)%nat then w
  else
    let '(order, keys) := pop_while (fun _ size => (ew_capacity w <=? size)%nat) (ew_order w) (ew_keys w) in
    with_entries w (order ++ [(key, now)]) (<[key := now]> keys).

Lemma record_expire_push o s m now w : record o s m now w = edu_push (window_key o s m) now (edu_expire now w).
Proof.
  unfold record, edu_push, edu_expire. destruct (pop_while _ (ew_order w) (ew_keys w)) as [order keys]. simpl.
  by destruct (_ || _).
Qed.

(** What a push leaves: the window as it is, or a suffix of it, at most one entry
    shorter when the window was within its capacity, and the new entry. *)
Lemma edu_push_spec history now key w : edu_ok history now w ->
  ((exists t, ew_keys w !! key = Some t) \/ ew_capacity w = 0%nat) /\ edu_push key now w = w
  \/ (ew_keys w !! key = None /\ (0 < ew_capacity w)%nat /\ exists dropped order, ew_order w = dropped ++ order
      /\ ew_order (edu_push key now w) = order ++ [(key, now)]
      /\ length order = Nat.min (length (ew_order w)) (ew_capacity w - 1)
      /\ edu_ok ((key, now) :: history) now (edu_push key now w)).
Proof.
  intros Hok. unfold edu_push. destruct (ew_keys w !! key) as [t|] eqn:Ek; simpl; [left; eauto|].
  destruct (ew_capacity w =? 0)%nat eqn:Ec; [left; apply Nat.eqb_eq in Ec; auto|]. apply Nat.eqb_neq in Ec.
  right. split; [done|]. split; [lia|].
  destruct (pop_while_spec (fun _ size => (ew_capacity w <=? size)%nat) (ew_order w) (ew_keys w)
    (edu_distinct _ _ _ Hok) (edu_keys _ _ _ Hok)) as (dropped & Heq & Hfront & Hd & Hk).
  destruct (pop_while _ _ _) as [order keys]. simpl in *. exists dropped, order. split; [done|]. split; [done|].
  assert (length order = Nat.min (length (ew_order w)) (ew_capacity w - 1)) as Hlen.
  { rewrite Heq, length_app. assert (length order < ew_capacity w)%nat.
    { destruct order as [|x rest]; simpl; [lia|]. specialize (Hfront x rest eq_refl). apply Nat.leb_gt in Hfront. lia. }
    destruct dropped as [|x dropped'] using rev_ind; simpl; [lia|]. specialize (Hd _ x [] eq_refl). apply Nat.leb_le in Hd.
    simpl in Hd. rewrite length_app. simpl. lia. }
  split; [done|]. destruct (suffix_ok _ _ _ _ _ _ Hok Heq Hk) as [Hnd' Hk' Hs' Hp' Hb' Hh']. simpl in *.
  assert (key ∉ order.*1) as Hnew.
  { intros ([k t] & -> & Hin)%list_elem_of_fmap. assert (ew_keys w !! k = Some t); [|simpl in Ek; congruence].
    apply (edu_keys _ _ _ Hok). rewrite Heq. apply elem_of_app. by right. }
  constructor; simpl.
  - rewrite fmap_app. apply NoDup_app. split; [done|]. split; [|apply NoDup_singleton].
    intros k Hin ->%list_elem_of_singleton. done.
  - intros k t. rewrite elem_of_app, list_elem_of_singleton. destruct (decide (k = key)) as [->|Hne].
    + rewrite lookup_insert_eq. split; [intros [= ->]; by right|]. intros [Hin|[= ->]]; [|done].
      destruct Hnew. apply list_elem_of_fmap. by exists (key, t).
    + rewrite lookup_insert_ne by done. rewrite Hk'. split; [by left|]. intros [?|[= -> ->]]; done.
  - clear -Hs' Hp'. induction Hs' as [|x l Hs IH Hx]; simpl; [by repeat constructor|]. constructor.
    + apply IH. intros e He. apply Hp'. by right.
    + apply Forall_app. split; [done|]. repeat constructor. simpl. apply Hp'. by left.
  - intros e [He| ->%list_elem_of_singleton]%elem_of_app; [auto|simpl; lia].
  - rewrite length_app. simpl. lia.
  - intros e [He| ->%list_elem_of_singleton]%elem_of_app; [right; auto|by left].
Qed.

(** * Sequences of calls *)

Record EduCall : Type := {
  ec_origin : string;
  ec_sender : string;
  ec_message_id : string;
  ec_now : Z
}.

Definition ec_key (c : EduCall) : string := window_key (ec_origin c) (ec_sender c) (ec_message_id c).

Definition run_records (calls : list EduCall) (w : EduIdempotenceWindow) : EduIdempotenceWindow :=
  foldl (fun w c => record (ec_origin c) (ec_sender c) (ec_message_id c) (ec_now c) w) w calls.

Fixpoint records_clocked (start : Z) (calls : list EduCall) (stop : Z) : Prop :=
  match calls with
  | [] => start <= stop
  | c :: rest => start <= ec_now c /\ records_clocked (ec_now c) rest stop
  end.

Lemma edu_ok_weaken history history' now now' w : edu_ok history now w -> now <= now' ->
  (forall e, e ∈ history -> e ∈ history') -> edu_ok history' now' w.
Proof.
  intros [Hnd Hk Hs Hp Hb Hh] Hle Hsub. constructor; auto. intros e He. specialize (Hp e He). lia.
Qed.

Lemma record_sizes o s m now w : ew_capacity (record o s m now w) = ew_capacity w /\ ew_lifetime (record o s m now w) = ew_lifetime w.
Proof. unfold record. destruct (pop_while _ _ _). destruct (_ || _); [done|]. by destruct (pop_while _ _ _). Qed.

Lemma run_records_sizes calls : forall w,
  ew_capacity (run_records calls w) = ew_capacity w /\ ew_lifetime (run_records calls w) = ew_lifetime w.
Proof.
  induction calls as [|c calls IH]; intros w; [done|]. simpl. destruct (IH (record (ec_origin c) (ec_sender c) (ec_message_id c) (ec_now c) w)) as [-> ->].
  apply record_sizes.
Qed.

Lemma record_ok history now o s m w : edu_ok history now w ->
  edu_ok ((window_key o s m, now) :: history) now (record o s m now w).
Proof.
  intros Hok. rewrite record_expire_push. destruct (edu_expire_ok history now w Hok) as [Hexp _].
  destruct (edu_push_spec history now (window_key o s m) _ Hexp) as [[_ ->]|(_ & _ & dropped & order & _ & _ & _ & Hpush)].
  - eapply edu_ok_weaken; [exact Hexp|lia|]. intros e He. by right.
  - done.
Qed.

Lemma run_records_ok calls : forall history start stop w, records_clocked start calls stop -> edu_ok history start w ->
  edu_ok (rev ((fun c => (ec_key c, ec_now c)) <$> calls) ++ history) stop (run_records calls w).
Proof.
  induction calls as [|c calls IH]; intros history start stop w; simpl.
  - intros Hle Hok. eapply edu_ok_weaken; eauto.
  - intros [Hle Hc] Hok. rewrite <- app_assoc. simpl. eapply IH; [exact Hc|]. apply record_ok.
    eapply edu_ok_weaken; [exact Hok|done|done].
Qed.

(** * Replays *)

(** The key is held since [r], with at most [newer] entries behind it. *)
Definition held (key : string) (r : Z) (newer : nat) (w : EduIdempotenceWindow) : Prop :=
  exists pre post, ew_order w = pre ++ (key, r) :: post /\ (length post <= newer)%nat.

(** An entry of a list is in each suffix long enough to reach it. *)
Lemma suffix_reaches {A} (pre post dropped order : list A) e : pre ++ e :: post = dropped ++ order ->
  (length post < length order)%nat -> exists pre', order = pre' ++ e :: post.
Proof.
  revert pre. induction dropped as [|x dropped IH]; intros pre Heq Hlen; simpl in *; [by exists pre|].
  destruct pre as [|y pre]; injection Heq as <- Heq; [|by apply (IH pre)]. subst post. rewrite length_app in Hlen. lia.
Qed.

Lemma held_expire history now key r newer w : edu_ok history now w -> now < r + ew_lifetime w -> held key r newer w ->
  held key r newer (edu_expire now w).
Proof.
  intros Hok Hnow (pre & post & Heq & Hl). destruct (edu_expire_ok history now w Hok) as (_ & (dropped & Hd & Hexp) & _).
  rewrite Hd in Heq. clear Hd. revert pre Heq. induction dropped as [|x dropped IH]; intros pre Heq; simpl in Heq; [by exists pre, post|].
  destruct pre as [|y pre]; injection Heq as -> Heq.
  - specialize (Hexp (key, r) ltac:(by left)). simpl in Hexp. lia.
  - apply (IH ltac:(intros e He; apply Hexp; by right) pre Heq).
Qed.

Lemma held_record history now o s m key r newer w : edu_ok history now w -> now < r + ew_lifetime w ->
  (S newer < ew_capacity w)%nat -> held key r newer w -> held key r (S newer) (record o s m now w).
Proof.
  intros Hok Hnow Hcap Hheld. pose proof (held_expire _ _ _ _ _ _ Hok Hnow Hheld) as (pre & post & Heq & Hl).
  rewrite record_expire_push. destruct (edu_expire_ok history now w Hok) as [Hexp _].
  assert (ew_capacity (edu_expire now w) = ew_capacity w) as Hc by (unfold edu_expire; by destruct (pop_while _ _ _)).
  destruct (edu_push_spec history now (window_key o s m) _ Hexp) as [[_ ->]|(_ & _ & dropped & order & Hd & Hpush & Hlen & _)].
  - exists pre, post. split; [done|lia].
  - rewrite Heq in Hd. destruct (suffix_reaches _ _ _ _ _ Hd) as [pre' ->].
    + rewrite Hlen, Heq, length_app, Hc. simpl. lia.
    + exists pre', (post ++ [(window_key o s m, now)]). rewrite Hpush, <- app_assoc. split; [done|]. rewrite length_app. simpl. lia.
Qed.

Lemma held_run key r calls : forall history start stop newer w, records_clocked start calls stop -> edu_ok history start w ->
  stop < r + ew_lifetime w -> (newer + length calls < ew_capacity w)%nat -> held key r newer w ->
  held key r (newer + length calls) (run_records calls w).
Proof.
  induction calls as [|c calls IH]; intros history start stop newer w; simpl; [intros; by rewrite Nat.add_0_r|].
  intros [Hle Hc] Hok Hstop Hcap Hheld.
  assert (ec_now c <= stop) as Hend by (clear -Hc; revert Hc; generalize (ec_now c); induction calls as [|d calls IH];
    intros z; simpl; [done|]; intros [? ?%IH]; lia).
  apply (edu_ok_weaken history history start (ec_now c)) in Hok; [|done|done].
  destruct (record_sizes (ec_origin c) (ec_sender c) (ec_message_id c) (ec_now c) w) as [Hcs Hls].
  replace (newer + S (length calls))%nat with (S newer + length calls)%nat by lia. eapply IH; [exact Hc|by apply record_ok| | |].
  - by rewrite Hls.
  - rewrite Hcs. lia.
  - eapply held_record; [done|lia|lia|done].
Qed.

Lemma new_edu_window_ok capacity lifetime now : edu_ok [] now (new_edu_window capacity lifetime).
Proof.
  constructor; simpl; try set_solver; try lia; try constructor. all: rewrite ?lookup_empty; [done|set_solver].
Qed.

(** A replay window after any records on an advancing clock: it holds at most
    its capacity of entries; an ID it calls seen was recorded by that origin and
    sender less than a lifetime before, so no message is dropped for another's
    sake; and an ID that was not seen at [r], once recorded, is seen at every later
    [now] within its lifetime as long as fewer records than the capacity follow. *)
Theorem edu_replays_detected capacity lifetime calls first r later now o s m :
  let w := run_records calls (new_edu_window capacity lifetime) in
  records_clocked first calls r ->
  (length (ew_order w) <= capacity)%nat
  /\ (seen o s m r w = true -> exists c, c ∈ calls /\ ec_origin c = o /\ ec_sender c = s /\ ec_message_id c = m
        /\ ec_now c <= r < ec_now c + lifetime)
  /\ (seen o s m r w = false -> records_clocked r later now -> now < r + lifetime -> (length later < capacity)%nat ->
        seen o s m now (run_records later (record o s m r w)) = true).
Proof.
  intros w Hclock. destruct (run_records_sizes calls (new_edu_window capacity lifetime)) as [Hcap Hlife]. fold w in Hcap, Hlife.
  simpl in Hcap, Hlife. pose proof (run_records_ok calls [] first r _ Hclock (new_edu_window_ok capacity lifetime first)) as Hok.
  fold w in Hok. split; [rewrite <- Hcap; apply (edu_bounded _ _ _ Hok)|]. split.
  - unfold seen. destruct (ew_keys w !! window_key o s m) as [t|] eqn:E; [|done]. rewrite Hlife. intros Hlt. breflect.
    apply (edu_keys _ _ _ Hok) in E. pose proof (edu_past _ _ _ Hok _ E) as Hpast. simpl in Hpast.
    apply (edu_history _ _ _ Hok) in E. rewrite app_nil_r, list_elem_of_In, <- in_rev, <- list_elem_of_In in E.
    apply list_elem_of_fmap in E as (c & [= Hkey Ht] & Hc). apply window_key_inj in Hkey as (-> & -> & ->).
    exists c. repeat (split; [done|]). lia.
  - intros Hunseen Hlater Hnow Hlen.
    assert (held (window_key o s m) r 0 (record o s m r w)) as Hheld.
    { rewrite record_expire_push. destruct (edu_expire_ok _ r w Hok) as (Hexp & (dropped & Hd & _) & Hfresh).
      destruct (edu_push_spec _ r (window_key o s m) _ Hexp) as [[[[t Ht]|Hz] _]|(_ & _ & dr & order & _ & Heq & _)].
      - exfalso. apply (edu_keys _ _ _ Hexp) in Ht. pose proof (Hfresh _ Ht) as Hf. simpl in Hf.
        assert (ew_keys w !! window_key o s m = Some t) as Hkt
          by (apply (edu_keys _ _ _ Hok); rewrite Hd; apply elem_of_app; by right).
        unfold seen in Hunseen. rewrite Hkt in Hunseen. breflect. lia.
      - exfalso. assert (ew_capacity (edu_expire r w) = ew_capacity w) as Hc by (unfold edu_expire; by destruct (pop_while _ _ _)). lia.
      - exists order, []. split; [done|simpl; lia]. }
    destruct (record_sizes o s m r w) as [Hcs Hls]. pose proof (record_ok _ r o s m w Hok) as Hrec.
    pose proof (held_run (window_key o s m) r later _ r now 0 _ Hlater Hrec) as Hrun.
    destruct Hrun as (pre & post & Heq & _); [lia|lia|done|].
    pose proof (run_records_ok later _ r now _ Hlater Hrec) as Hok'. unfold seen.
    assert (ew_keys (run_records later (record o s m r w)) !! window_key o s m = Some r) as ->
      by (apply (edu_keys _ _ _ Hok'); rewrite Heq; apply elem_of_app; right; by left).
    apply Z.ltb_lt. destruct (run_records_sizes later (record o s m r w)) as [_ ->]. lia.
Qed.

(** Two messages with one digest. *)
Definition hash_collision `{GenericHash} : Prop :=
  exists x y d, x <> y /\ crypto_generichash EmptyString x = Some d /\ crypto_generichash EmptyString y = Some d.

(** The identities the server derives tell their subjects apart.  Two failure
    keys of kinds without a NUL agree only for the same kind, account and qualifier,
    or else the hash has a collision; the text hashed for a to-device message ID
    determines the sender, device, event type and transaction; and a replay-window
    key determines the origin, sender and message ID. *)
Theorem derived_identities_distinct `{Sodium, GenericHash} k a q k' a' q' d :
  find_char nul k = None -> find_char nul k' = None ->
  make_failure_key k a q = Some d -> make_failure_key k' a' q' = Some d ->
  ((k = k' /\ a = a' /\ q = q') \/ hash_collision)
  /\ (forall s dv e t s' dv' e' t',
        hash_input (message_id_pieces s dv e t) = hash_input (message_id_pieces s' dv' e' t') ->
        s = s' /\ dv = dv' /\ e = e' /\ t = t')
  /\ (forall o s m o' s' m', window_key o s m = window_key o' s' m' -> o = o' /\ s = s' /\ m = m').
Proof.
  intros Hk Hk' H1 H2. split; [|split; [apply message_id_input_inj|apply window_key_inj]].
  destruct (decide (hash_input (failure_pieces k a q) = hash_input (failure_pieces k' a' q'))) as [Heq|Hne].
  - left. by apply failure_input_inj in Heq.
  - right. unfold make_failure_key, generic_hash_bytes in H1, H2. destruct sodium_init_ok; [|done].
    destruct (crypto_generichash EmptyString (hash_input (failure_pieces k a q))) as [d1|] eqn:E1; [|done].
    destruct (crypto_generichash EmptyString (hash_input (failure_pieces k' a' q'))) as [d2|] eqn:E2; [|done].
    destruct (String.length d1 =? 32)%nat, (String.length d2 =? 32)%nat; simplify_eq. eexists _, _, d. eauto.
Qed.

Definition toy_sodium : Sodium := {|
  sodium_init_ok := true; sodium_base642bin := fun _ => None; sodium_bin2base64 := fun _ s => s;
  crypto_hash_sha256 := fun _ => None; crypto_sign_detached := fun _ _ => None;
  crypto_sign_verify_detached := fun _ _ _ => false |}.

Definition toy_hash : GenericHash := {| crypto_generichash := fun _ _ => Some "0123456789abcdef0123456789abcdef" |}.

Lemma derived_identities_distinct_witness :
  let key := @make_failure_key toy_sodium toy_hash in
  key "login" "@a:b.org" "1" = key "login" "@a:b.org" "2"
  /\ @hash_collision toy_hash.
Proof.
  split; [reflexivity|].
  edestruct (@derived_identities_distinct toy_sodium toy_hash "login" "@a:b.org" "1" "login" "@a:b.org" "2") as [[H|H] _];
    [reflexivity|reflexivity|reflexivity|reflexivity|destruct H as (_ & _ & H); discriminate H|exact H].
Defined.

Definition sample_records : list EduCall :=
  [{| ec_origin := "a.org"; ec_sender := "@u:a.org"; ec_message_id := "1"; ec_now := 3 |}].

Lemma edu_replays_detected_witness :
  seen "a.org" "@u:a.org" "2" 50 (run_records
    [{| ec_origin := "b.org"; ec_sender := "@v:b.org"; ec_message_id := "1"; ec_now := 20 |}]
    (record "a.org" "@u:a.org" "2" 10 (run_records sample_records (new_edu_window 2 60)))) = true.
Proof.
  refine (proj2 (proj2 (edu_replays_detected 2 60 sample_records 0 10
    [{| ec_origin := "b.org"; ec_sender := "@v:b.org"; ec_message_id := "1"; ec_now := 20 |}] 50 "a.org" "@u:a.org" "2" _)) _ _ _ _).
  - simpl. lia.
  - vm_compute. reflexivity.
  - simpl. lia.
  - lia.
  - simpl. lia.
Defined.
