(* ===== verification/CircuitBreaker.v ===== *)
(** Push gateways that cannot be reached: push/GatewayCircuitBreaker.cpp.

    Each call holds the mutex, so the calls are a sequence.  Times and the cooldown
    are integers of clock ticks; the failure count is an unsigned 32-bit integer. *)
From S2P Require Import Prelude CppStd.
Open Scope Z_scope.

Record GatewayCircuitBreakerPolicy : Type := {
  failure_threshold : Z;
  cooldown : Z;
  max_hosts : nat
}.

Record HostState : Type := {
  consecutive_failures : Z;
  open : bool;
  open_until : Z;
  last_failure : Z
}.

(** [HostState{}]. *)
Definition new_host : HostState := {| consecutive_failures := 0; open := false; open_until := 0; last_failure := 0 |}.

Abbreviation GatewayCircuitBreaker := (gmap string HostState).

Definition allow (host : string) (now : Z) (policy : GatewayCircuitBreakerPolicy) (hosts : GatewayCircuitBreaker)
    : bool * GatewayCircuitBreaker :=
  match hosts !! host with
  | None => (true, hosts)
  | Some state =>
      if negb (open state) then (true, hosts)
      else if now <? open_until state then (false, hosts)
      else (true, <[host := {| consecutive_failures := consecutive_failures state; open := open state;
                               open_until := now + cooldown policy; last_failure := last_failure state |}]> hosts)
  end.

(** What a failure does to the state of its host. *)
Definition failed (now : Z) (policy : GatewayCircuitBreakerPolicy) (state : HostState) : HostState :=
  let failures := (consecutive_failures state + 1) mod 2 ^ 32 in
  if Z.max (failure_threshold policy) 1 <=? failures
  then {| consecutive_failures := failures; open := true; open_until := now + cooldown policy; last_failure := now |}
  else {| consecutive_failures := failures; open := open state; open_until := open_until state; last_failure := now |}.

(** [std::ranges::min_element] over the entries in the order the map iterates. *)
Fixpoint min_element (best : string * HostState) (entries : list (string * HostState)) : string * HostState :=
  match entries with
  | [] => best
  | e :: rest => min_element (if last_failure e.2 <? last_failure best.2 then e else best) rest
  end.

Section Breaker.
(** The order in which a [std::unordered_map] visits its entries, which is not
    specified. *)
Context (iterate : gmap string HostState -> list (string * HostState)).
Hypothesis iterates : forall m, iterate m ≡ₚ map_to_list m.

(** Forget the least recently failing hosts until there is room.  Every round
    forgets one, so the size is enough fuel. *)
Fixpoint make_room (fuel : nat) (limit : nat) (hosts : GatewayCircuitBreaker) : GatewayCircuitBreaker :=
  match fuel with
  | O => hosts
  | S fuel' =>
      if (limit <=? size hosts)%nat then
        match iterate hosts with
        | [] => hosts
        | e :: rest => make_room fuel' limit (delete (min_element e rest).1 hosts)
        end
      else hosts
  end.

Definition record (host : string) (success : bool) (now : Z) (policy : GatewayCircuitBreakerPolicy)
    (hosts : GatewayCircuitBreaker) : GatewayCircuitBreaker :=
  if success then delete host hosts
  else
    let hosts :=
      match hosts !! host with
      | None => if (0 <? max_hosts policy)%nat then make_room (size hosts) (max_hosts policy) hosts else hosts
      | Some _ => hosts
      end in
    <[host := failed now policy (default new_host (hosts !! host))]> hosts.

Definition tracked_hosts (hosts : GatewayCircuitBreaker) : nat := size hosts.

(** * Memory *)

Lemma min_element_in e rest : min_element e rest ∈ e :: rest.
Proof.
  revert e. induction rest as [|x rest IH]; intros e; simpl; [by left|].
  destruct (last_failure x.2 <? last_failure e.2); [right; apply IH|].
  specialize (IH e). apply elem_of_cons in IH as [->|?]; [by left|right; by right].
Qed.

Lemma iterate_delete hosts e rest : iterate hosts = e :: rest ->
  size (delete (min_element e rest).1 hosts) = (size hosts - 1)%nat /\ (0 < size hosts)%nat.
Proof.
  intros Hit. assert (min_element e rest ∈ map_to_list hosts) as Hin
    by (rewrite <- iterates, Hit; apply min_element_in).
  destruct (min_element e rest) as [k v]. apply elem_of_map_to_list in Hin. simpl.
  rewrite map_size_delete, Hin. split; [simpl; lia|].
  destruct (decide (size hosts = 0%nat)) as [Hz|]; [|lia]. apply map_size_empty_inv in Hz. subst. by rewrite lookup_empty in Hin.
Qed.

Lemma make_room_size fuel limit : forall hosts, (size hosts <= fuel)%nat -> (0 < limit)%nat ->
  (size (make_room fuel limit hosts) < limit)%nat /\ (size (make_room fuel limit hosts) <= size hosts)%nat.
Proof.
  induction fuel as [|fuel IH]; intros hosts Hf Hl; simpl; [lia|].
  destruct (limit <=? size hosts)%nat eqn:E; [|apply Nat.leb_gt in E; lia]. apply Nat.leb_le in E.
  destruct (iterate hosts) as [|e rest] eqn:Hit.
  - exfalso. assert (map_to_list hosts = []) as Hnil by (apply Permutation_nil; rewrite <- iterates; by rewrite Hit).
    apply map_to_list_empty_iff in Hnil. subst. rewrite map_size_empty in E. lia.
  - destruct (iterate_delete hosts e rest Hit) as [Hs Hp]. destruct (IH (delete (min_element e rest).1 hosts)); lia.
Qed.

(** Nothing is forgotten while there is room. *)
Lemma make_room_id fuel limit hosts : (size hosts < limit)%nat -> make_room fuel limit hosts = hosts.
Proof. intros Hs. destruct fuel; simpl; [done|]. apply Nat.leb_gt in Hs. by rewrite Hs. Qed.

Lemma record_size host success now policy hosts : (0 < max_hosts policy)%nat -> (size hosts <= max_hosts policy)%nat ->
  (size (record host success now policy hosts) <= max_hosts policy)%nat.
Proof.
  intros Hm Hs. unfold record. destruct success.
  - rewrite map_size_delete. destruct (hosts !! host); unfold id; lia.
  - destruct (hosts !! host) as [state|] eqn:E.
    + rewrite map_size_insert, E. done.
    + rewrite (proj2 (Nat.ltb_lt _ _)) by done. destruct (make_room_size (size hosts) (max_hosts policy) hosts); [lia|done|].
      rewrite map_size_insert. destruct (make_room _ _ _ !! host); unfold id; lia.
Qed.

(** * One host *)

Inductive BreakerCall : Type :=
  | call_allow (host : string) (now : Z)
  | call_record (host : string) (success : bool) (now : Z).

Definition call_host (c : BreakerCall) : string := match c with call_allow h _ => h | call_record h _ _ => h end.

Definition run_call (policy : GatewayCircuitBreakerPolicy) (c : BreakerCall) (hosts : GatewayCircuitBreaker)
    : GatewayCircuitBreaker :=
  match c with
  | call_allow h now => (allow h now policy hosts).2
  | call_record h success now => record h success now policy hosts
  end.

Definition run_calls (policy : GatewayCircuitBreakerPolicy) (calls : list BreakerCall) (hosts : GatewayCircuitBreaker)
    : GatewayCircuitBreaker := foldl (fun m c => run_call policy c m) hosts calls.

(** The circuit of a host on its own: the answer to a request and the state after
    a call. *)
Definition circuit_allows (now : Z) (state : option HostState) : bool :=
  match state with None => true | Some s => negb (open s) || negb (now <? open_until s) end.

Definition circuit_step (policy : GatewayCircuitBreakerPolicy) (c : BreakerCall) (state : option HostState)
    : option HostState :=
  match c with
  | call_allow _ now =>
      match state with
      | Some s => if open s && negb (now <? open_until s)
                  then Some {| consecutive_failures := consecutive_failures s; open := open s;
                               open_until := now + cooldown policy; last_failure := last_failure s |}
                  else state
      | None => None
      end
  | call_record _ true _ => None
  | call_record _ false now => Some (failed now policy (default new_host state))
  end.

Lemma allow_spec h now policy hosts : (allow h now policy hosts).1 = circuit_allows now (hosts !! h).
Proof. unfold allow, circuit_allows. destruct (hosts !! h) as [s|]; [|done]. destruct (open s); simpl; [|done]. by destruct (now <? open_until s). Qed.

Lemma run_call_size policy c hosts : (0 < max_hosts policy)%nat -> (size hosts <= max_hosts policy)%nat ->
  (size (run_call policy c hosts) <= max_hosts policy)%nat.
Proof.
  intros Hm Hs. destruct c as [h now|h success now]; simpl; [|by apply record_size].
  unfold allow. destruct (hosts !! h) as [s|] eqn:E; [|done]. destruct (open s); simpl; [|done].
  destruct (now <? open_until s); simpl; [done|]. by rewrite map_size_insert, E.
Qed.

(** A call changes the circuit of its host only, as long as the hosts named stay
    within the limit. *)
Lemma run_call_isolated policy c hosts (named : gset string) host : dom hosts ⊆ named -> call_host c ∈ named ->
  (size named <= max_hosts policy)%nat ->
  run_call policy c hosts !! host = (if decide (call_host c = host) then circuit_step policy c (hosts !! host) else hosts !! host)
  /\ dom (run_call policy c hosts) ⊆ named.
Proof.
  intros Hdom Hnamed Hsize. destruct c as [h now|h success now]; simpl in *.
  - unfold allow. destruct (hosts !! h) as [s|] eqn:E; simpl.
    + destruct (open s) eqn:Eo; simpl; [destruct (now <? open_until s) eqn:En; simpl|];
        (split; [destruct (decide (h = host)) as [->|Hne]; rewrite ?E; simpl; rewrite ?Eo, ?En; simpl;
          rewrite ?lookup_insert_eq, ?lookup_insert_ne by done; try done; congruence|set_solver]).
    + split; [|done]. destruct (decide (h = host)) as [->|]; [by rewrite E|done].
  - unfold record. destruct success.
    + split; [|set_solver]. destruct (decide (h = host)) as [->|Hne]; [apply lookup_delete_eq|by apply lookup_delete_ne].
    + assert (match hosts !! h with
        | None => if (0 <? max_hosts policy)%nat then make_room (size hosts) (max_hosts policy) hosts else hosts
        | Some _ => hosts end = hosts) as ->.
      { destruct (hosts !! h) as [s|] eqn:E; [done|]. destruct (0 <? max_hosts policy)%nat; [|done]. apply make_room_id.
        rewrite <- size_dom. assert (size (dom hosts) < size named)%nat; [|lia]. apply subset_size.
        apply not_elem_of_dom in E. set_solver. }
      split; [|set_solver]. destruct (decide (h = host)) as [->|Hne]; [by rewrite lookup_insert_eq|by rewrite lookup_insert_ne].
Qed.

Lemma run_calls_isolated policy host (named : gset string) calls : (size named <= max_hosts policy)%nat ->
  Forall (fun c => call_host c ∈ named) calls -> forall hosts, dom hosts ⊆ named ->
  run_calls policy calls hosts !! host =
  foldl (fun s c => circuit_step policy c s) (hosts !! host) (filter (fun c => call_host c = host) calls).
Proof.
  intros Hsize. induction 1 as [|c calls Hc Hcalls IH]; intros hosts Hdom; [done|]. simpl.
  destruct (run_call_isolated policy c hosts named host Hdom Hc Hsize) as [Hl Hd]. rewrite IH by done. rewrite filter_cons, Hl.
  by destruct (decide (call_host c = host)).
Qed.

(** * Cooling down *)

Definition call_time (c : BreakerCall) : Z := match c with call_allow _ now => now | call_record _ _ now => now end.

Fixpoint in_order (start : Z) (calls : list BreakerCall) (stop : Z) : Prop :=
  match calls with
  | [] => start <= stop
  | c :: rest => start <= call_time c /\ in_order (call_time c) rest stop
  end.

Lemma in_order_filter (P : BreakerCall -> Prop) `{forall c, Decision (P c)} calls : forall start stop,
  in_order start calls stop -> in_order start (filter P calls) stop.
Proof.
  assert (forall l a b z, a <= b -> in_order b l z -> in_order a l z) as Hweak
    by (intros [|c l] a b z; simpl; [lia|intros ? [? ?]; split; [lia|done]]).
  induction calls as [|c calls IH]; intros start stop; simpl; [done|]. intros [Hle Hc]. rewrite filter_cons. case_decide.
  - split; [done|]. by apply IH.
  - by eapply Hweak, IH.
Qed.

Lemma in_order_le calls : forall start stop, in_order start calls stop -> start <= stop.
Proof. induction calls as [|c calls IH]; intros start stop; simpl; [done|]. intros [? Hc%IH]. lia. Qed.

(** The circuit is shut until at least [a + cooldown]. *)
Definition shut_since (policy : GatewayCircuitBreakerPolicy) (a : Z) (state : option HostState) : Prop :=
  exists s, state = Some s /\ open s = true /\ a + cooldown policy <= open_until s.

(** The calls that shut a circuit: a request let through as a probe, and a failure
    that makes the count reach the threshold. *)
Definition shuts (policy : GatewayCircuitBreakerPolicy) (c : BreakerCall) (state : option HostState) : Prop :=
  match c with
  | call_allow _ now => circuit_allows now state = true /\ exists s, state = Some s /\ open s = true
  | call_record _ success _ => success = false /\
      Z.max (failure_threshold policy) 1 <= (consecutive_failures (default new_host state) + 1) mod 2 ^ 32
  end.

Lemma shuts_shut policy c state : shuts policy c state -> shut_since policy (call_time c) (circuit_step policy c state).
Proof.
  destruct c as [h now|h success now]; simpl.
  - intros (Ha & s & -> & Ho). simpl in Ha. rewrite Ho in Ha |- *. simpl in *. rewrite Ha. eexists. split; [done|]. simpl. split; [done|lia].
  - intros [-> Hf]. unfold failed. rewrite (proj2 (Z.leb_le _ _)) by done. eexists. split; [done|]. simpl. split; [done|lia].
Qed.

Definition no_success (c : BreakerCall) : Prop := match c with call_record _ success _ => success = false | _ => True end.

Lemma shut_stays policy a calls now : Forall no_success calls -> forall start state,
  in_order start calls now -> a <= start -> now < a + cooldown policy -> shut_since policy a state ->
  shut_since policy a (foldl (fun s c => circuit_step policy c s) state calls).
Proof.
  induction 1 as [|c calls Hc Hcalls IH]; intros start state; [done|]. simpl. intros [Hle Ho] Ha Hnow (s & -> & Hopen & Hu).
  pose proof (in_order_le _ _ _ Ho) as Hend. eapply IH; [exact Ho|lia|done|].
  destruct c as [h z|h success z]; simpl in *.
  - rewrite Hopen, (proj2 (Z.ltb_lt _ _)) by lia. simpl. by exists s.
  - subst success. unfold failed. destruct (_ <=? _); eexists; (split; [done|]); simpl; (split; [done|]); lia.
Qed.

Lemma shut_refuses policy a now state : shut_since policy a state -> now < a + cooldown policy -> circuit_allows now state = false.
Proof. intros (s & -> & Ho & Hu) Hnow. simpl. rewrite Ho, (proj2 (Z.ltb_lt _ _)) by lia. done. Qed.

(** The circuit breaker, after any calls: it tracks at most its limit of hosts.
    While the hosts named stay within the limit, the circuit of a host depends on
    the calls for that host only; and once a failure brings the count to the
    threshold, or an open circuit lets a probe through, at [a], every request to the
    host before [a + cooldown] is refused unless a success was recorded, so at most
    one probe is sent per cooldown. *)
Theorem circuit_breaker_limits policy before c later now (named : gset string) :
  (0 < max_hosts policy)%nat -> (size named <= max_hosts policy)%nat ->
  Forall (fun c => call_host c ∈ named) (before ++ c :: later) ->
  let host := call_host c in
  let of_host := filter (fun c => call_host c = host) in
  (size (run_calls policy (before ++ c :: later) ∅) <= max_hosts policy)%nat
  /\ run_calls policy before ∅ !! host = foldl (fun s c => circuit_step policy c s) None (of_host before)
  /\ (shuts policy c (run_calls policy before ∅ !! host) -> Forall no_success (of_host later) ->
      in_order (call_time c) later now -> now < call_time c + cooldown policy ->
      (allow host now policy (run_calls policy (before ++ c :: later) ∅)).1 = false).
Proof.
  intros Hm Hsize Hnamed host of_host.
  assert (forall calls hosts, (size hosts <= max_hosts policy)%nat -> (size (run_calls policy calls hosts) <= max_hosts policy)%nat) as Hbound.
  { induction calls as [|x calls IH]; intros hosts Hs; [done|]. simpl. by apply IH, run_call_size. }
  assert (forall calls, Forall (fun c => call_host c ∈ named) calls ->
    run_calls policy calls ∅ !! host = foldl (fun s c => circuit_step policy c s) None (of_host calls)) as Hiso.
  { intros calls Hc. rewrite (run_calls_isolated policy host named calls Hsize Hc ∅) by set_solver. by rewrite lookup_empty. }
  split; [apply Hbound; rewrite map_size_empty; lia|]. split; [apply Hiso; by apply Forall_app in Hnamed as [? _]|].
  intros Hshut Hno Hord Hnow. rewrite allow_spec. apply (shut_refuses policy (call_time c)); [|done].
  rewrite Hiso by done. unfold of_host. rewrite filter_app, filter_cons, decide_True by done. rewrite foldl_app. simpl.
  eapply shut_stays; [exact Hno|by apply in_order_filter|lia|done|]. apply shuts_shut.
  apply Forall_app in Hnamed as [Hbefore _]. rewrite (Hiso before Hbefore) in Hshut. exact Hshut.
Qed.
End Breaker.

Definition sample_policy : GatewayCircuitBreakerPolicy := {| failure_threshold := 2; cooldown := 300; max_hosts := 4 |}.

Lemma circuit_breaker_limits_witness :
  (allow "push.org" 200 sample_policy (run_calls map_to_list sample_policy
    ([call_record "push.org" false 5] ++ call_record "push.org" false 10 :: [call_record "other.org" false 20]) ∅)).1 = false.
Proof.
  refine (proj2 (proj2 (circuit_breaker_limits map_to_list (fun m => reflexivity _) sample_policy [call_record "push.org" false 5]
    (call_record "push.org" false 10) [call_record "other.org" false 20] 200 {["push.org"; "other.org"]} _ _ _)) _ _ _ _).
  - simpl. lia.
  - vm_compute. lia.
  - repeat constructor; set_solver.
  - vm_compute. split; [reflexivity|discriminate].
  - constructor.
  - simpl. lia.
  - simpl. lia.
Defined.
