(* ===== verification/StreamToken.v ===== *)
(** Sync stream tokens: sync/StreamToken.cpp.  The components are unsigned 64-bit
    integers. *)
From S2P Require Import Prelude CppStd JsonNumbers.
Open Scope Z_scope.

Record StreamToken : Type := {
  event_ordering : Z;
  membership_ordering : Z;
  sync_stream_id : Z
}.

Definition hex_digits : string := "0123456789abcdef".

Definition hex_digit (d : Z) : ascii := default "0"%char (String.get (Z.to_nat d) hex_digits).

(** The loop that writes the digits from the lowest; the string is reversed at the
    end, so a digit goes in front of those written before.  Sixteen digits are
    enough for 64 bits. *)
Fixpoint encode_digits (fuel : nat) (remaining : Z) (result : string) : string :=
  match fuel with
  | O => result
  | S fuel' =>
      if 0 <? remaining
      then encode_digits fuel' (Z.shiftr remaining 4) (String (hex_digit (Z.land remaining 15)) result)
      else result
  end.

Definition encode_component (value : Z) : string := if value =? 0 then "0" else encode_digits 16 value EmptyString.

Definition max_hex_digits : nat := 16.

Definition hex_value (c : ascii) : option Z :=
  let b := byte_of c in
  if (48 <=? b) && (b <=? 57) then Some (b - 48)
  else if (97 <=? b) && (b <=? 102) then Some (b - 97 + 10)
  else if (65 <=? b) && (b <=? 70) then Some (b - 65 + 10)
  else None.

Fixpoint decode_digits (result : Z) (encoded : string) : option Z :=
  match encoded with
  | EmptyString => Some result
  | String c rest =>
      match hex_value c with
      | None => None
      | Some d => decode_digits ((Z.shiftl result 4 mod 2 ^ 64 + d) mod 2 ^ 64) rest
      end
  end.

Definition decode_component (encoded : string) : option Z :=
  if empty encoded || (max_hex_digits <? String.length encoded)%nat then None else decode_digits 0 encoded.

Definition encode_stream_token (token : StreamToken) : string :=
  encode_component (event_ordering token) +:+ "_" +:+ encode_component (membership_ordering token) +:+ "_"
  +:+ encode_component (sync_stream_id token).

Definition decode_stream_token (encoded : string) : option StreamToken :=
  first_separator ← find_char "_" encoded;
  let event_part := take_str first_separator encoded in
  let remainder := drop_str (first_separator + 1) encoded in
  let second_separator := find_char "_" remainder in
  let membership_part := match second_separator with Some n => take_str n remainder | None => remainder end in
  let sync_part := match second_separator with Some n => drop_str (n + 1) remainder | None => EmptyString end in
  if empty event_part || empty membership_part then None
  else
    match decode_component event_part, decode_component membership_part with
    | Some event, Some membership =>
        sync ← (if empty sync_part then Some 0 else decode_component sync_part);
        Some {| event_ordering := event; membership_ordering := membership; sync_stream_id := sync |}
    | _, _ => None
    end.

Definition is_valid_stream_token (encoded : string) : bool :=
  match decode_stream_token encoded with Some _ => true | None => false end.

Example stream_token_examples :
  encode_stream_token {| event_ordering := 2 ^ 64 - 1; membership_ordering := 0; sync_stream_id := 26 |} = "ffffffffffffffff_0_1a"
  /\ decode_stream_token "A_1" = Some {| event_ordering := 10; membership_ordering := 1; sync_stream_id := 0 |}
  /\ decode_stream_token "1_2_3_4" = None /\ decode_stream_token "10000000000000000_0" = None.
Proof. repeat split. Qed.

(** * Digits *)

(** The number a string of hexadecimal digits denotes, without a bound. *)
Fixpoint hex_number (acc : Z) (s : string) : option Z :=
  match s with
  | EmptyString => Some acc
  | String c rest => d ← hex_value c; hex_number (16 * acc + d) rest
  end.

Lemma hex_value_range c d : hex_value c = Some d -> 0 <= d < 16.
Proof. unfold hex_value. intros H. repeat (split_hyp H; [breflect; simplify_eq; lia|]). done. Qed.

Lemma decode_digits_exact s : forall acc n, 0 <= acc < 2 ^ (4 * n) -> 0 <= n -> n + Z.of_nat (String.length s) <= 16 ->
  decode_digits acc s = hex_number acc s
  /\ forall v, hex_number acc s = Some v -> 0 <= v < 2 ^ (4 * (n + Z.of_nat (String.length s))).
Proof.
  induction s as [|c s IH]; intros acc n Hacc Hn Hlen; simpl.
  - split; [done|]. intros v [= <-]. by rewrite Z.add_0_r.
  - destruct (hex_value c) as [d|] eqn:E; simpl; [|done]. apply hex_value_range in E. simpl in Hlen.
    assert (2 ^ (4 * (n + 1)) = 16 * 2 ^ (4 * n)) as Hpow by (rewrite Z.mul_add_distr_l, Z.pow_add_r by lia; lia).
    assert (2 ^ (4 * (n + 1)) <= 2 ^ 64) by (apply Z.pow_le_mono_r; lia).
    rewrite Z.shiftl_mul_pow2 by lia. rewrite (Z.mod_small (acc * 2 ^ 4)) by lia. rewrite Z.mod_small by lia.
    replace (acc * 2 ^ 4 + d) with (16 * acc + d) by lia.
    replace (n + Z.of_nat (S (String.length s))) with (n + 1 + Z.of_nat (String.length s)) by lia.
    apply IH; lia.
Qed.

Lemma decode_component_exact s v : decode_component s = Some v -> hex_number 0 s = Some v /\ 0 <= v < 2 ^ 64.
Proof.
  unfold decode_component. destruct (empty s || _) eqn:E; [done|]. apply orb_false_iff in E as [_ Hlen]. apply Nat.ltb_ge in Hlen.
  unfold max_hex_digits in Hlen. destruct (decode_digits_exact s 0 0) as [-> Hr]; [lia|lia|lia|]. intros Hv. split; [done|].
  specialize (Hr v Hv). assert (2 ^ (4 * (0 + Z.of_nat (String.length s))) <= 2 ^ 64) by (apply Z.pow_le_mono_r; lia). lia.
Qed.

Lemma hex_digit_value d : 0 <= d < 16 -> hex_value (hex_digit d) = Some d /\ (hex_digit d =? "_")%char = false.
Proof.
  intros Hd. assert (d ∈ map Z.of_nat (seq 0 16)) as Hin.
  { apply list_elem_of_In, in_map_iff. exists (Z.to_nat d). split; [lia|]. apply in_seq. lia. }
  clear Hd. revert d Hin. apply Forall_forall. vm_compute. repeat constructor.
Qed.

(** What the encoder writes: hexadecimal digits of the value, no separator. *)
Lemma encode_digits_spec fuel : forall v result, 0 <= v < 16 ^ Z.of_nat fuel ->
  exists ds, encode_digits fuel v result = ds +:+ result /\ (String.length ds <= fuel)%nat /\ (0 < v -> ds <> EmptyString)
    /\ find_char "_" ds = None /\ hex_number 0 ds = Some v.
Proof.
  induction fuel as [|fuel IH]; intros v result Hv; simpl.
  - assert (v = 0) as -> by (change (16 ^ Z.of_nat 0) with 1 in Hv; lia). by exists EmptyString.
  - destruct (0 <? v) eqn:E; breflect.
    + destruct (IH (Z.shiftr v 4) (String (hex_digit (Z.land v 15)) result)) as (ds & -> & Hl & _ & Hf & Hn).
      { rewrite Z.shiftr_div_pow2 by lia. rewrite Nat2Z.inj_succ, Z.pow_succ_r in Hv by lia. split; [apply Z.div_pos; lia|].
        apply Z.div_lt_upper_bound; lia. }
      assert (Z.land v 15 = v mod 16) as Hland by (apply (Z.land_ones v 4); lia).
      assert (0 <= v mod 16 < 16) as Hm by (apply Z.mod_pos_bound; lia).
      destruct (hex_digit_value (v mod 16) Hm) as [Hd Hu]. rewrite Hland in *.
      exists (ds +:+ String (hex_digit (v mod 16)) EmptyString). split; [by rewrite append_assoc|].
      split; [rewrite length_append; simpl; lia|]. split; [by destruct ds|]. split.
      * clear -Hf Hu. induction ds as [|c ds IHd]; simpl in *; [by rewrite Hu|]. destruct (c =? "_")%char; [done|].
        rewrite IHd; [done|]. by destruct (find_char "_" ds).
      * assert (forall x y acc, hex_number acc (x +:+ y) = hex_number acc x ≫= fun a => hex_number a y) as Happ.
        { clear. induction x as [|c x IHx]; intros y acc; simpl; [done|]. destruct (hex_value c); simpl; [apply IHx|done]. }
        rewrite Happ, Hn. simpl. rewrite Hd. simpl. f_equal. rewrite Z.shiftr_div_pow2 by lia.
        change (2 ^ 4) with 16. rewrite <- Z.div_mod by lia. done.
    + assert (v = 0) as -> by lia. exists EmptyString. repeat (split; [done || (simpl; lia)|]). done.
Qed.

Lemma encode_component_spec v : 0 <= v < 2 ^ 64 -> let s := encode_component v in
  s <> EmptyString /\ find_char "_" s = None /\ decode_component s = Some v.
Proof.
  intros Hv s. subst s. unfold encode_component. destruct (v =? 0) eqn:E; breflect; [by subst v|].
  destruct (encode_digits_spec 16 v EmptyString) as (ds & -> & Hl & Hne & Hf & Hn); [simpl; lia|].
  rewrite append_nil_r. specialize (Hne ltac:(lia)). split; [done|]. split; [done|]. unfold decode_component.
  assert (empty ds = false) as -> by (by destruct ds). rewrite (proj2 (Nat.ltb_ge _ _)) by done. simpl.
  destruct (decode_digits_exact ds 0 0) as [-> _]; [lia|lia|lia|done].
Qed.

(** * Splitting *)

Lemma split_at_separator (a b : string) : find_char "_" a = None ->
  find_char "_" (a +:+ String "_" b) = Some (String.length a)
  /\ take_str (String.length a) (a +:+ String "_" b) = a /\ drop_str (String.length a + 1) (a +:+ String "_" b) = b.
Proof.
  induction a as [|c a IH]; simpl; [done|]. destruct (c =? "_")%char; [done|]. intros Hf.
  destruct IH as (-> & -> & ->); [by destruct (find_char "_" a)|]. done.
Qed.

Lemma find_char_split c s n : find_char c s = Some n -> s = take_str n s +:+ String c (drop_str (n + 1) s).
Proof.
  revert n. induction s as [|d s IH]; intros n; simpl; [done|]. destruct (d =? c)%char eqn:E.
  - intros [= <-]. apply Ascii.eqb_eq in E as ->. done.
  - intros (m & Hm & ->)%fmap_Some_1. simpl. rewrite (IH m Hm) at 1. reflexivity.
Qed.

(** A stream token decodes to what was encoded.  Any text the decoder accepts
    has hexadecimal components whose exact, unwrapped values fit 64 bits, so no
    crafted token is truncated to a smaller ordering. *)
Theorem stream_tokens_round_trip :
  (forall t, 0 <= event_ordering t < 2 ^ 64 -> 0 <= membership_ordering t < 2 ^ 64 -> 0 <= sync_stream_id t < 2 ^ 64 ->
     decode_stream_token (encode_stream_token t) = Some t)
  /\ (forall s t, decode_stream_token s = Some t ->
        0 <= event_ordering t < 2 ^ 64 /\ 0 <= membership_ordering t < 2 ^ 64 /\ 0 <= sync_stream_id t < 2 ^ 64
        /\ exists e m rest, s = e +:+ String "_" (m +:+ rest) /\ hex_number 0 e = Some (event_ordering t)
             /\ hex_number 0 m = Some (membership_ordering t)
             /\ ((rest = EmptyString \/ rest = "_") /\ sync_stream_id t = 0
                 \/ exists y, rest = String "_" y /\ hex_number 0 y = Some (sync_stream_id t))).
Proof.
  split.
  - intros [e m y] He Hm Hy. simpl in *. unfold encode_stream_token, decode_stream_token. simpl.
    change ("_" +:+ encode_component m +:+ "_" +:+ encode_component y)
      with (String "_" (encode_component m +:+ String "_" (encode_component y))).
    destruct (encode_component_spec e He) as (Hen & Hef & Hed), (encode_component_spec m Hm) as (Hmn & Hmf & Hmd),
      (encode_component_spec y Hy) as (Hyn & _ & Hyd).
    destruct (split_at_separator (encode_component e) (encode_component m +:+ String "_" (encode_component y)) Hef) as (-> & H1 & H2).
    simpl. rewrite H1, H2. destruct (split_at_separator (encode_component m) (encode_component y) Hmf) as (-> & -> & ->).
    rewrite Hed, Hmd, Hyd. destruct (encode_component e), (encode_component m), (encode_component y); done.
  - intros s t. unfold decode_stream_token. destruct (find_char "_" s) as [n|] eqn:En; [|done].
    cbn [mbind option_bind]. apply find_char_split in En. set (e := take_str n s) in *. set (r := drop_str (n + 1) s) in *.
    clearbody e r. subst s. destruct (find_char "_" r) as [k|] eqn:Ek.
    + apply find_char_split in Ek. set (m := take_str k r) in *. set (y := drop_str (k + 1) r) in *. clearbody m y. subst r.
      destruct (empty e || empty m); [done|]. destruct (decode_component e) as [ve|] eqn:Ee; [|done].
      destruct (decode_component m) as [vm|] eqn:Em; [|done]. apply decode_component_exact in Ee as [? ?], Em as [? ?].
      destruct (empty y) eqn:Ey; cbn.
      * intros [= <-]. simpl. repeat (split; [lia|]). exists e, m, "_". destruct y; [|done]. repeat (split; [done|]). left. auto.
      * destruct (decode_component y) as [vy|] eqn:Ed; [|done]. intros [= <-]. simpl. apply decode_component_exact in Ed as [? ?].
        repeat (split; [lia|]). exists e, m, (String "_" y). repeat (split; [done|]). right. eauto.
    + destruct (empty e || empty r); [done|]. destruct (decode_component e) as [ve|] eqn:Ee; [|done].
      destruct (decode_component r) as [vm|] eqn:Em; [|done]. apply decode_component_exact in Ee as [? ?], Em as [? ?]. cbn.
      intros [= <-]. simpl. repeat (split; [lia|]). exists e, r, EmptyString. rewrite append_nil_r. repeat (split; [done|]). left. auto.
Qed.
