(* ===== verification/ParkedPolls.v ===== *)
(** Long-polls parked without a thread (sync/ParkedPollRegistry.cpp): the registry
    of waiting polls with its indexes by user and by deadline, the operations of
    publishers and request threads, and the rounds of the registry's own thread. *)
From S2P Require Import Prelude CppStd.
Open Scope Z_scope.

Inductive WakeReason : Type := published | deadline_passed.

Record ParkedPollLimits : Type := { max_parked : nat; max_parked_per_user : nat }.

Record ParkOutcome : Type := { parked_ok : bool; park_ticket : Z; park_refusal : string }.

Section Registry.
(** A poll is a handle that is only moved. *)
Context {Poll : Type}.

Record Entry : Type := { en_user : string; en_deadline : Z; en_poll : Poll }.

Record Registry : Type := {
  limits : ParkedPollLimits;
  started : bool;
  stopping : bool;
  next_ticket : Z;
  entries : gmap Z Entry;
  by_user : gmap string (list Z);
  deadlines : list (Z * Z);
  ready : list (Poll * WakeReason)
}.

Definition new_registry : Registry := {|
  limits := {| max_parked := 1024; max_parked_per_user := 4 |}; started := false; stopping := false; next_ticket := 1;
  entries := ∅; by_user := ∅; deadlines := []; ready := [] |}.

(** How an unordered map of entries is traversed. *)
Context (iter_entries : gmap Z Entry -> list (Z * Entry)).

(** [resume] tells whether the callback is set. *)
Definition start (new_limits : ParkedPollLimits) (resume : bool) (r : Registry) : bool * Registry :=
  if started r || stopping r || negb resume then (false, r)
  else (true, {| limits := new_limits; started := true; stopping := stopping r; next_ticket := next_ticket r; entries := entries r;
                 by_user := by_user r; deadlines := deadlines r; ready := ready r |}).

(** The polls taken out to be destroyed. *)
Definition request_stop (r : Registry) : list Poll * Registry :=
  ((en_poll ∘ snd <$> iter_entries (entries r)) ++ (ready r).*1,
   {| limits := limits r; started := started r; stopping := true; next_ticket := next_ticket r; entries := ∅; by_user := ∅;
      deadlines := []; ready := [] |}).

Definition running (r : Registry) : bool := started r && negb (stopping r).

(** A multimap inserts after the entries of an equal key. *)
Fixpoint insert_deadline (x : Z * Z) (l : list (Z * Z)) : list (Z * Z) :=
  match l with
  | [] => [x]
  | y :: l => if x.1 <? y.1 then x :: y :: l else y :: insert_deadline x l
  end.

Fixpoint erase_deadline (x : Z * Z) (l : list (Z * Z)) : list (Z * Z) :=
  match l with
  | [] => []
  | y :: l => if bool_decide (y = x) then l else y :: erase_deadline x l
  end.

Definition refused (message : string) : ParkOutcome := {| parked_ok := false; park_ticket := 0; park_refusal := message |}.

(** The outcome, what the caller still holds, and the registry. *)
Definition park (user : string) (deadline : Z) (poll : option Poll) (r : Registry) : ParkOutcome * option Poll * Registry :=
  match poll with
  | None => (refused "no poll to park", poll, r)
  | Some p =>
      if negb (started r) || stopping r then (refused "parking is not running", poll, r)
      else if (max_parked (limits r) <=? size (entries r))%nat then (refused "too many parked long-polls", poll, r)
      else if match by_user r !! user with Some tickets => (max_parked_per_user (limits r) <=? length tickets)%nat | None => false end
      then (refused "too many parked long-polls for this user", poll, r)
      else
        let ticket := next_ticket r in
        ({| parked_ok := true; park_ticket := ticket; park_refusal := EmptyString |}, None,
         {| limits := limits r; started := started r; stopping := stopping r; next_ticket := (ticket + 1) mod 2 ^ 64;
            entries := match entries r !! ticket with
                       | Some _ => entries r
                       | None => <[ticket := {| en_user := user; en_deadline := deadline; en_poll := p |}]> (entries r)
                       end;
            by_user := <[user := default [] (by_user r !! user) ++ [ticket]]> (by_user r);
            deadlines := insert_deadline (deadline, ticket) (deadlines r); ready := ready r |})
  end.

Definition unlist (user : string) (ticket : Z) (m : gmap string (list Z)) : gmap string (list Z) :=
  match m !! user with
  | None => m
  | Some tickets =>
      match List.filter (fun t => negb (t =? ticket)) tickets with
      | [] => delete user m
      | rest => <[user := rest]> m
      end
  end.

Definition make_ready_locked (ticket : Z) (entry : Entry) (reason : WakeReason) (r : Registry) : Registry :=
  {| limits := limits r; started := started r; stopping := stopping r; next_ticket := next_ticket r;
     entries := delete ticket (entries r); by_user := unlist (en_user entry) ticket (by_user r);
     deadlines := erase_deadline (en_deadline entry, ticket) (deadlines r);
     ready := ready r ++ [(en_poll entry, reason)] |}.

(** [wake] of one ticket, and the inner loop of [wake_users]. *)
Definition wake (ticket : Z) (r : Registry) : Registry :=
  match entries r !! ticket with
  | None => r
  | Some entry => make_ready_locked ticket entry published r
  end.

Definition wake_user (r : Registry) (user : string) : Registry :=
  match by_user r !! user with
  | None => r
  | Some tickets => foldl (fun r ticket => wake ticket r) r tickets
  end.

Definition wake_users (users : list string) (r : Registry) : Registry :=
  if bool_decide (entries r = ∅) then r else foldl wake_user r users.

Definition wake_all (r : Registry) : Registry :=
  if bool_decide (entries r = ∅) then r
  else {| limits := limits r; started := started r; stopping := stopping r; next_ticket := next_ticket r; entries := ∅;
          by_user := ∅; deadlines := [];
          ready := ready r ++ ((fun entry => (en_poll entry.2, published)) <$> iter_entries (entries r)) |}.

Definition parked (r : Registry) : nat := size (entries r).
Definition parked_for (user : string) (r : Registry) : nat := from_option length 0%nat (by_user r !! user).

(** * The thread *)

(** The loop over passed deadlines; [None] is the dereference of [end()]. *)
Fixpoint expire_due (rounds : nat) (now : Z) (r : Registry) : option Registry :=
  match deadlines r with
  | [] => Some r
  | (deadline, ticket) :: _ =>
      if deadline <=? now then
        match entries r !! ticket, rounds with
        | Some entry, S rounds => expire_due rounds now (make_ready_locked ticket entry deadline_passed r)
        | _, _ => None
        end
      else Some r
  end.

Inductive ThreadAction : Type :=
  | thread_ends
  | resume_batch (batch : list (Poll * WakeReason))
  | wait_for_signal
  | wait_until (deadline : Z).

(** One round of [run] while it holds the lock. *)
Definition thread_round (now : Z) (r : Registry) : option (ThreadAction * Registry) :=
  if stopping r then Some (thread_ends, r)
  else
    match expire_due (length (deadlines r)) now r with
    | None => None
    | Some r =>
        match ready r with
        | _ :: _ =>
            Some (resume_batch (ready r),
                  {| limits := limits r; started := started r; stopping := stopping r; next_ticket := next_ticket r;
                     entries := entries r; by_user := by_user r; deadlines := deadlines r; ready := [] |})
        | [] => match deadlines r with [] => Some (wait_for_signal, r) | (deadline, _) :: _ => Some (wait_until deadline, r) end
        end
    end.

(** * The invariant *)

Definition deadline_of (x : Z * Entry) : Z * Z := (en_deadline x.2, x.1).

Record ok (r : Registry) : Prop := {
  ok_deadlines : deadlines r ≡ₚ deadline_of <$> map_to_list (entries r);
  ok_sorted : StronglySorted (fun a b => a.1 <= b.1) (deadlines r);
  ok_users : forall u t, t ∈ default [] (by_user r !! u) <-> exists e, entries r !! t = Some e /\ en_user e = u;
  ok_listed : forall u tickets, by_user r !! u = Some tickets -> tickets <> [] /\ NoDup tickets;
  ok_tickets : forall t, is_Some (entries r !! t) -> t < next_ticket r;
  ok_parked : (size (entries r) <= max_parked (limits r))%nat;
  ok_per_user : forall u, (length (default [] (by_user r !! u)) <= Nat.max 1 (max_parked_per_user (limits r)))%nat;
  ok_started : started r = false -> entries r = ∅
}.

Lemma insert_deadline_perm x l : insert_deadline x l ≡ₚ x :: l.
Proof. induction l as [|y l IH]; simpl; [done|]. destruct (_ <? _); [done|]. rewrite IH. apply Permutation_swap. Qed.

Lemma insert_deadline_sorted x l : StronglySorted (fun a b => a.1 <= b.1) l -> StronglySorted (fun a b => a.1 <= b.1) (insert_deadline x l).
Proof.
  induction 1 as [|y l Hs IH Hy]; simpl; [repeat constructor|]. destruct (x.1 <? y.1) eqn:E.
  - constructor; [by constructor|]. constructor; [lia|]. eapply Forall_impl; [exact Hy|]. simpl. intros z Hz. lia.
  - constructor; [done|]. rewrite insert_deadline_perm. constructor; [lia|done].
Qed.

Lemma erase_deadline_perm x l : x ∈ l -> l ≡ₚ x :: erase_deadline x l.
Proof.
  induction l as [|y l IH]; intros Hin; [by apply elem_of_nil in Hin|]. simpl. case_bool_decide as E; [by subst|].
  apply elem_of_cons in Hin as [->|Hin]; [done|]. rewrite (IH Hin) at 1. apply Permutation_swap.
Qed.

Lemma erase_deadline_elem x y l : y ∈ erase_deadline x l -> y ∈ l.
Proof.
  induction l as [|z l IH]; simpl; [done|]. case_bool_decide; rewrite elem_of_cons; [by right|]. rewrite elem_of_cons. naive_solver.
Qed.

Lemma erase_deadline_sorted x l : StronglySorted (fun a b => a.1 <= b.1) l -> StronglySorted (fun a b => a.1 <= b.1) (erase_deadline x l).
Proof.
  induction 1 as [|y l Hs IH Hy]; simpl; [constructor|]. case_bool_decide; [done|]. constructor; [done|].
  apply Forall_forall. intros z Hz%erase_deadline_elem. by rewrite Forall_forall in Hy; apply Hy.
Qed.

Lemma filter_ticket t l x : x ∈ List.filter (fun y => negb (y =? t)) l <-> x ∈ l /\ x <> t.
Proof. rewrite !list_elem_of_In, filter_In. split; intros [? Hn]; (split; [done|]); lia. Qed.

Lemma unlist_elem u t m u' x : x ∈ default [] (unlist u t m !! u') <-> x ∈ default [] (m !! u') /\ ~ (u' = u /\ x = t).
Proof.
  unfold unlist. destruct (m !! u) as [tickets|] eqn:E.
  - pose proof (filter_ticket t tickets x) as Hf. destruct (List.filter _ tickets) as [|y rest] eqn:Ef; destruct (decide (u' = u)) as [->|Hne].
    + rewrite lookup_delete_eq, E. simpl. set_solver.
    + rewrite lookup_delete_ne by done. naive_solver.
    + rewrite lookup_insert_eq, E. simpl. rewrite Hf. naive_solver.
    + rewrite lookup_insert_ne by done. naive_solver.
  - split; [|by intros [? _]]. intros Hx. split; [done|]. intros [-> ->]. rewrite E in Hx. by apply elem_of_nil in Hx.
Qed.

Lemma unlist_listed u t m u' tickets' : (forall u tickets, m !! u = Some tickets -> tickets <> [] /\ NoDup tickets) ->
  unlist u t m !! u' = Some tickets' -> (tickets' <> [] /\ NoDup tickets') /\ (length tickets' <= length (default [] (m !! u')))%nat.
Proof.
  intros Hm. unfold unlist. destruct (m !! u) as [tickets|] eqn:E; [|intros Hu; rewrite Hu; split; [by apply (Hm u')|done]].
  destruct (Hm u tickets E) as [_ Hn].
  assert (NoDup (List.filter (fun y => negb (y =? t)) tickets)) as Hnf.
  { clear -Hn. induction Hn as [|x l Hx _ IH]; simpl; [constructor|]. destruct (negb _); [|done]. constructor; [|done].
    rewrite filter_ticket. naive_solver. }
  pose proof (List.filter_length_le (fun y => negb (y =? t)) tickets) as Hlen.
  destruct (List.filter _ tickets) as [|y rest] eqn:Ef; destruct (decide (u' = u)) as [->|Hne].
  - by rewrite lookup_delete_eq.
  - rewrite lookup_delete_ne by done. intros Hu. rewrite Hu. split; [by apply (Hm u')|done].
  - rewrite lookup_insert_eq, E. by intros [= <-].
  - rewrite lookup_insert_ne by done. intros Hu. rewrite Hu. split; [by apply (Hm u')|done].
Qed.

(** * Moving polls to the ready list *)

Definition as_ready (reason : WakeReason) (x : Z * Entry) : Poll * WakeReason := (en_poll x.2, reason).

(** The entries of [l] left for the ready list, for this reason. *)
Record moves (reason : WakeReason) (l : list (Z * Entry)) (r r' : Registry) : Prop := {
  mv_ok : ok r';
  mv_limits : limits r' = limits r;
  mv_started : started r' = started r;
  mv_stopping : stopping r' = stopping r;
  mv_next : next_ticket r' = next_ticket r;
  mv_entries : map_to_list (entries r) ≡ₚ l ++ map_to_list (entries r');
  mv_ready : ready r' = ready r ++ (as_ready reason <$> l)
}.

Lemma moves_refl reason r : ok r -> moves reason [] r r.
Proof. intros Hok. split; try done. simpl. by rewrite app_nil_r. Qed.

Lemma moves_trans reason l1 l2 r1 r2 r3 : moves reason l1 r1 r2 -> moves reason l2 r2 r3 -> moves reason (l1 ++ l2) r1 r3.
Proof.
  intros M1 M2. destruct M1, M2. split; try congruence; [by rewrite mv_entries0, mv_entries1, (assoc_L (++))|].
  by rewrite mv_ready1, mv_ready0, fmap_app, (assoc_L (++)).
Qed.

Lemma make_ready_moves reason t e r : ok r -> entries r !! t = Some e -> moves reason [(t, e)] r (make_ready_locked t e reason r).
Proof.
  intros [D S U L T P R B] He. assert (map_to_list (entries r) ≡ₚ (t, e) :: map_to_list (delete t (entries r))) as Hm.
  { symmetry. by apply map_to_list_delete. }
  split; try done. split; simpl.
  - rewrite Hm in D. csimpl in D. unfold deadline_of in D at 1. simpl in D.
    rewrite (erase_deadline_perm (en_deadline e, t) (deadlines r)) in D; [by apply (inj _) in D|]. rewrite D. by left.
  - by apply erase_deadline_sorted.
  - intros u x. rewrite unlist_elem, U. split.
    + intros [(e' & He' & Hu) Hn]. exists e'. rewrite lookup_delete_ne; [done|]. intros ->. apply Hn. split; [congruence|done].
    + intros (e' & [Hne He']%lookup_delete_Some & Hu). split; [by exists e'|]. intros [_ ->]. done.
  - intros u tickets Hu. by apply (unlist_listed _ _ _ _ _ L Hu).
  - intros x [e' [_ Hx]%lookup_delete_Some]. by apply T.
  - rewrite (map_size_delete_Some t (entries r)) by done. lia.
  - intros u. destruct (unlist _ _ _ !! u) as [tickets|] eqn:E; simpl; [|lia].
    destruct (unlist_listed _ _ _ _ _ L E) as [_ Hl]. specialize (R u). lia.
  - intros Hs. rewrite (B Hs). apply delete_empty.
Qed.
Lemma wake_moves t r : ok r ->
  moves published (match entries r !! t with Some e => [(t, e)] | None => [] end) r (wake t r).
Proof. intros Hok. unfold wake. destruct (_ !! _) as [e|] eqn:E; [by apply make_ready_moves|by apply moves_refl]. Qed.

Lemma moves_lookup reason l r r' t e : moves reason l r r' -> entries r !! t = Some e <-> (t, e) ∈ l \/ entries r' !! t = Some e.
Proof. intros M. rewrite <- !elem_of_map_to_list. rewrite (mv_entries _ _ _ _ M). by rewrite elem_of_app. Qed.

Lemma moves_disjoint reason l r r' t e : moves reason l r r' -> (t, e) ∈ l -> entries r' !! t = None.
Proof.
  intros M Hl. destruct (entries r' !! t) as [e'|] eqn:E; [|done]. exfalso.
  pose proof (NoDup_fst_map_to_list (entries r)) as Hn. rewrite (mv_entries _ _ _ _ M), fmap_app in Hn.
  apply NoDup_app in Hn as (_ & Hn & _). apply (Hn t); apply list_elem_of_fmap; [by exists (t, e)|].
  exists (t, e'). by rewrite elem_of_map_to_list.
Qed.

Lemma moves_left reason l r r' t e : moves reason l r r' -> entries r' !! t = Some e <-> entries r !! t = Some e /\ (t, e) ∉ l.
Proof.
  intros M. pose proof (moves_lookup _ _ _ _ t e M) as Hl. pose proof (moves_disjoint _ _ _ _ t e M) as Hd. naive_solver.
Qed.

Lemma moves_nodup reason l r r' : moves reason l r r' -> NoDup l.
Proof.
  intros M. pose proof (NoDup_map_to_list (entries r)) as Hn. rewrite (mv_entries _ _ _ _ M) in Hn. by apply NoDup_app in Hn as [? _].
Qed.

(** Waking tickets one after another takes out the entries of exactly these tickets. *)
Lemma wake_tickets_moves tickets r : ok r ->
  exists l, moves published l r (foldl (fun r ticket => wake ticket r) r tickets) /\
    (forall t e, (t, e) ∈ l <-> t ∈ tickets /\ entries r !! t = Some e).
Proof.
  revert r. induction tickets as [|t tickets IH]; intros r Hok; simpl.
  { exists []. split; [by apply moves_refl|]. set_solver. }
  pose proof (wake_moves t r Hok) as M. destruct (IH _ (mv_ok _ _ _ _ M)) as (l & Ml & Hl).
  eexists. split; [exact (moves_trans _ _ _ _ _ _ M Ml)|]. intros t' e'. rewrite elem_of_app, Hl, elem_of_cons.
  pose proof (moves_lookup _ _ _ _ t' e' M) as Hlk. destruct (entries r !! t) as [e|] eqn:E.
  - rewrite list_elem_of_singleton in *. destruct (decide (t' = t)) as [->|Hne]; naive_solver.
  - assert ((t', e') ∈ [] <-> False) as Hnil by set_solver. destruct (decide (t' = t)) as [->|Hne]; naive_solver.
Qed.

Lemma wake_user_moves u r : ok r ->
  exists l, moves published l r (wake_user r u) /\ (forall t e, (t, e) ∈ l <-> entries r !! t = Some e /\ en_user e = u).
Proof.
  intros Hok. pose proof (ok_users r Hok u) as Hu. unfold wake_user. destruct (by_user r !! u) as [tickets|] eqn:E; simpl in Hu.
  - destruct (wake_tickets_moves tickets r Hok) as (l & M & Hl). exists l. split; [done|]. intros t e. rewrite Hl, Hu. naive_solver.
  - exists []. split; [by apply moves_refl|]. intros t e. set_solver.
Qed.

Lemma wake_users_moves users r : ok r ->
  exists l, moves published l r (wake_users users r) /\ (forall t e, (t, e) ∈ l <-> entries r !! t = Some e /\ en_user e ∈ users).
Proof.
  intros Hok. unfold wake_users. case_bool_decide as Hempty.
  { exists []. split; [by apply moves_refl|]. rewrite Hempty. set_solver. }
  clear Hempty. revert r Hok. induction users as [|u users IH]; intros r Hok; simpl.
  { exists []. split; [by apply moves_refl|]. set_solver. }
  destruct (wake_user_moves u r Hok) as (l1 & M1 & H1). destruct (IH _ (mv_ok _ _ _ _ M1)) as (l2 & M2 & H2).
  exists (l1 ++ l2). split; [exact (moves_trans _ _ _ _ _ _ M1 M2)|]. intros t e. rewrite elem_of_app, H1, H2, elem_of_cons.
  pose proof (moves_lookup _ _ _ _ t e M1) as Hlk. rewrite H1 in Hlk. destruct (decide (en_user e = u)); naive_solver.
Qed.
(** What the standard library says of a traversal. *)
Context (iter_entries_ok : forall m, iter_entries m ≡ₚ map_to_list m).

Lemma cleared_ok r : entries r = ∅ -> by_user r = ∅ -> deadlines r = [] -> ok r.
Proof.
  intros He Hu Hd. split; rewrite ?He, ?Hu, ?Hd.
  - by rewrite map_to_list_empty.
  - constructor.
  - intros u t. rewrite !lookup_empty. simpl. split; [by intros ?%elem_of_nil|]. intros (e & ? & _). done.
  - intros u tickets. by rewrite lookup_empty.
  - intros t [e Ht]. by rewrite lookup_empty in Ht.
  - rewrite map_size_empty. lia.
  - intros u. rewrite lookup_empty. simpl. lia.
  - done.
Qed.

Lemma empty_cleared r : ok r -> entries r = ∅ -> by_user r = ∅ /\ deadlines r = [].
Proof.
  intros Hok He. split.
  - apply map_eq. intros u. rewrite lookup_empty. destruct (by_user r !! u) as [[|t tickets]|] eqn:E; [|exfalso|done].
    + by destruct (ok_listed r Hok u [] E).
    + pose proof (ok_users r Hok u t) as Hu. rewrite E, He in Hu. simpl in Hu. destruct Hu as [Hu _].
      destruct (Hu ltac:(by left)) as (e & Hl & _). by rewrite lookup_empty in Hl.
  - apply Permutation_nil_r. rewrite (ok_deadlines r Hok), He. by rewrite map_to_list_empty.
Qed.

Lemma wake_all_moves r : ok r ->
  exists l, moves published l r (wake_all r) /\ l ≡ₚ map_to_list (entries r) /\ entries (wake_all r) = ∅.
Proof.
  intros Hok. unfold wake_all. case_bool_decide as He.
  - exists []. split; [by apply moves_refl|]. by rewrite He, map_to_list_empty.
  - exists (iter_entries (entries r)). split; [|split; [apply iter_entries_ok|done]]. split; try done; simpl; [by apply cleared_ok|].
    rewrite map_to_list_empty, app_nil_r. symmetry. apply iter_entries_ok.
Qed.

Lemma start_ok new_limits resume r : ok r -> ok (start new_limits resume r).2.
Proof.
  intros Hok. unfold start. destruct (started r) eqn:Es; simpl; [done|]. destruct (_ || _); simpl; [done|].
  pose proof (ok_started r Hok Es) as He. destruct (empty_cleared r Hok He) as [? ?]. by apply cleared_ok.
Qed.

(** A park that is refused changes nothing and leaves the poll with the caller. *)
Lemma park_refused u d poll r : parked_ok (park u d poll r).1.1 = false -> (park u d poll r).1.2 = poll /\ (park u d poll r).2 = r.
Proof. unfold park. destruct poll; [|done]. repeat case_match; done. Qed.

Lemma park_accepted u d poll r : ok r -> next_ticket r < 2 ^ 64 - 1 -> 0 < next_ticket r -> parked_ok (park u d poll r).1.1 = true ->
  exists p, let e := {| en_user := u; en_deadline := d; en_poll := p |} in let r' := (park u d poll r).2 in
    poll = Some p /\ stopping r' = false /\ (park u d poll r).1 = ({| parked_ok := true; park_ticket := next_ticket r; park_refusal := EmptyString |}, None) /\
    ok r' /\ next_ticket r' = next_ticket r + 1 /\ ready r' = ready r /\
    map_to_list (entries r') ≡ₚ (next_ticket r, e) :: map_to_list (entries r).
Proof.
  intros [D S U L T P R B] Hmax Hpos. unfold park. destruct poll as [p|]; [|done].
  destruct (started r) eqn:Est; simpl; [|done]. destruct (stopping r) eqn:Esp; simpl; [done|].
  destruct (max_parked (limits r) <=? size (entries r))%nat eqn:Ec; [done|].
  destruct (match by_user r !! u with Some _ => _ | None => _ end) eqn:Eu; [done|]. intros _.
  assert (entries r !! next_ticket r = None) as Hn.
  { destruct (entries r !! next_ticket r) eqn:E; [|done]. assert (next_ticket r < next_ticket r); [|lia]. apply T. by eexists. }
  rewrite Hn. exists p. simpl. rewrite Z.mod_small by lia.
  split; [done|]. split; [done|]. split; [done|]. split; [|split; [done|]; split; [done|]; by apply map_to_list_insert].
  split; simpl.
  - rewrite insert_deadline_perm, D, map_to_list_insert by done. done.
  - by apply insert_deadline_sorted.
  - intros u' t. destruct (decide (u' = u)) as [->|Hne].
    + rewrite lookup_insert_eq. simpl. rewrite elem_of_app, U, list_elem_of_singleton. split.
      * intros [(e & He & Hu)| ->]; [|rewrite lookup_insert_eq; by eexists]. exists e. rewrite lookup_insert_ne; [done|]. congruence.
      * intros (e & He & Hu). destruct (decide (t = next_ticket r)) as [->|Ht]; [by right|]. left. exists e. by rewrite lookup_insert_ne in He.
    + rewrite lookup_insert_ne by done. rewrite U. split; intros (e & He & Hu); exists e; (split; [|done]).
      * rewrite lookup_insert_ne; [done|]. congruence.
      * apply lookup_insert_Some in He as [[? <-]|[? ?]]; [|done]. simpl in Hu. congruence.
  - intros u' tickets. destruct (decide (u' = u)) as [->|Hne]; [|rewrite lookup_insert_ne by done; apply L].
    rewrite lookup_insert_eq. intros [= <-]. split; [by destruct (default _ _)|]. apply NoDup_app. split_and!.
    + destruct (by_user r !! u) as [ts|] eqn:E; [|constructor]. by apply (L u ts).
    + intros t Ht ->%list_elem_of_singleton. apply U in Ht as (e & He & _). congruence.
    + apply NoDup_singleton.
  - intros t Ht. rewrite lookup_insert_is_Some in Ht. destruct Ht as [<-|[_ Ht]]; [lia|]. apply T in Ht. lia.
  - rewrite map_size_insert_None by done. apply Nat.leb_gt in Ec. lia.
  - intros u'. destruct (decide (u' = u)) as [->|Hne]; [|by rewrite lookup_insert_ne].
    rewrite lookup_insert_eq. simpl. rewrite length_app. simpl. destruct (by_user r !! u); simpl; [|lia]. apply Nat.leb_gt in Eu. lia.
  - congruence.
Qed.
(** A deadline in the map belongs to an entry, and an entry's deadline is in the map. *)
Lemma deadline_entry r d t : ok r -> (d, t) ∈ deadlines r <-> exists e, entries r !! t = Some e /\ en_deadline e = d.
Proof.
  intros Hok. rewrite (ok_deadlines r Hok), list_elem_of_fmap. split.
  - intros ([t' e] & [= -> ->] & He%elem_of_map_to_list). by exists e.
  - intros (e & He & <-). exists (t, e). split; [done|]. by apply elem_of_map_to_list.
Qed.

(** The loop over passed deadlines is never left without an entry, and takes out exactly the entries that are due. *)
Lemma expire_due_moves now n r : ok r -> length (deadlines r) = n ->
  exists l r', expire_due n now r = Some r' /\ moves deadline_passed l r r' /\
    (forall t e, (t, e) ∈ l <-> entries r !! t = Some e /\ en_deadline e <= now).
Proof.
  revert r. induction n as [|n IH]; intros r Hok Hlen; simpl; destruct (deadlines r) as [|[d t] rest] eqn:Ed; try done;
    pose proof (fun t e => deadline_entry r (en_deadline e) t Hok) as Hin.
  - exists [], r. split; [done|]. split; [by apply moves_refl|]. intros t e. split; [by intros ?%elem_of_nil|]. intros [He _].
    assert ((en_deadline e, t) ∈ deadlines r) as Hd; [apply Hin; by exists e|]. rewrite Ed in Hd. by apply elem_of_nil in Hd.
  - destruct (d <=? now) eqn:El.
    + assert ((d, t) ∈ deadlines r) as Hd by (rewrite Ed; by left). apply deadline_entry in Hd as (e & He & <-); [|done]. rewrite He.
      pose proof (make_ready_moves deadline_passed t e r Hok He) as M1.
      destruct (IH (make_ready_locked t e deadline_passed r)) as (l & r' & Hr & M2 & Hl).
      { apply (mv_ok _ _ _ _ M1). }
      { simpl. rewrite Ed. simpl. rewrite bool_decide_eq_true_2 by done. simpl in Hlen. lia. }
      exists ([(t, e)] ++ l), r'. split; [done|]. split; [exact (moves_trans _ _ _ _ _ _ M1 M2)|].
      intros t' e'. rewrite elem_of_app, Hl, list_elem_of_singleton. pose proof (moves_lookup _ _ _ _ t' e' M1) as Hlk.
      rewrite list_elem_of_singleton in Hlk. split; [|naive_solver]. intros [[= -> ->]|?]; [|naive_solver]. split; [done|lia].
    + exists [], r. split; [done|]. split; [by apply moves_refl|]. intros t' e'. split; [by intros ?%elem_of_nil|]. intros [He Hdue].
      assert ((en_deadline e', t') ∈ deadlines r) as Hd; [apply Hin; by exists e'|]. pose proof (ok_sorted r Hok) as Hs.
      rewrite Ed in Hd, Hs. apply StronglySorted_inv in Hs as [_ Hs]. apply elem_of_cons in Hd as [[= Hd1 Hd2]|Hd]; [lia|].
      rewrite Forall_forall in Hs. specialize (Hs _ Hd). simpl in Hs. lia.
Qed.

(** * Any sequence of calls *)

Inductive Call : Type :=
  | call_start (new_limits : ParkedPollLimits) (resume : bool)
  | call_request_stop
  | call_park (user : string) (deadline : Z) (poll : option Poll)
  | call_wake (ticket : Z)
  | call_wake_users (users : list string)
  | call_wake_all
  | call_thread_round (now : Z).

(** The registry and what became of polls: accepted by [park], handed to the resume callback, destroyed. *)
Record Trace : Type := {
  tr_registry : Registry;
  tr_accepted : list Poll;
  tr_resumed : list (Poll * WakeReason);
  tr_destroyed : list Poll
}.

Definition new_trace : Trace := {| tr_registry := new_registry; tr_accepted := []; tr_resumed := []; tr_destroyed := [] |}.

Definition with_registry (r : Registry) (s : Trace) : Trace :=
  {| tr_registry := r; tr_accepted := tr_accepted s; tr_resumed := tr_resumed s; tr_destroyed := tr_destroyed s |}.

(** [None] is undefined behaviour of the thread. The thread only exists once the registry is started. *)
Definition call (s : Trace) (c : Call) : option Trace :=
  let r := tr_registry s in
  match c with
  | call_start new_limits resume => Some (with_registry (start new_limits resume r).2 s)
  | call_request_stop =>
      Some {| tr_registry := (request_stop r).2; tr_accepted := tr_accepted s; tr_resumed := tr_resumed s;
              tr_destroyed := tr_destroyed s ++ (request_stop r).1 |}
  | call_park user deadline poll =>
      let '(outcome, _, r') := park user deadline poll r in
      Some {| tr_registry := r'; tr_accepted := tr_accepted s ++ (if parked_ok outcome then option_list poll else []);
              tr_resumed := tr_resumed s; tr_destroyed := tr_destroyed s |}
  | call_wake ticket => Some (with_registry (wake ticket r) s)
  | call_wake_users users => Some (with_registry (wake_users users r) s)
  | call_wake_all => Some (with_registry (wake_all r) s)
  | call_thread_round now =>
      if negb (started r) then Some s
      else
        match thread_round now r with
        | None => None
        | Some (action, r') =>
            Some {| tr_registry := r'; tr_accepted := tr_accepted s;
                    tr_resumed := tr_resumed s ++ match action with resume_batch batch => batch | _ => [] end;
                    tr_destroyed := tr_destroyed s |}
        end
  end.

Definition calls (cs : list Call) : option Trace := foldl (fun s c => s ≫= fun s => call s c) (Some new_trace) cs.

(** The polls the registry owns. *)
Definition polls (r : Registry) : list Poll := (en_poll ∘ snd <$> map_to_list (entries r)) ++ (ready r).*1.

Definition with_ready (r : Registry) (l : list (Poll * WakeReason)) : Registry :=
  {| limits := limits r; started := started r; stopping := stopping r; next_ticket := next_ticket r; entries := entries r;
     by_user := by_user r; deadlines := deadlines r; ready := l |}.
#[local] Arguments with_ready : simpl never.

Record trace_ok (s : Trace) : Prop := {
  tro_registry : ok (tr_registry s);
  tro_owner : tr_accepted s ≡ₚ
    polls (tr_registry s) ++ (tr_resumed s).*1 ++ tr_destroyed s;
  tro_stopped : stopping (tr_registry s) = true -> entries (tr_registry s) = ∅ /\ ready (tr_registry s) = [];
  tro_next : 0 < next_ticket (tr_registry s)
}.

Lemma moves_polls reason l r r' : moves reason l r r' -> polls r ≡ₚ polls r'.
Proof.
  intros M. unfold polls. rewrite (mv_entries _ _ _ _ M), (mv_ready _ _ _ _ M), !fmap_app, <- list_fmap_compose.
  change (fst ∘ as_ready reason) with ((en_poll ∘ snd) : Z * Entry -> Poll). solve_Permutation.
Qed.

Lemma moves_trace reason l r s : trace_ok s -> moves reason l (tr_registry s) r -> trace_ok (with_registry r s).
Proof.
  intros [K O St N] M. split; simpl.
  - apply (mv_ok _ _ _ _ M).
  - by rewrite <- (moves_polls _ _ _ _ M).
  - rewrite (mv_stopping _ _ _ _ M). intros Hs. destruct (St Hs) as [He Hr]. pose proof (mv_entries _ _ _ _ M) as Hm.
    rewrite He, map_to_list_empty in Hm. symmetry in Hm. apply Permutation_nil_r, app_nil in Hm as [-> Hm].
    split; [by apply map_to_list_empty_iff|]. by rewrite (mv_ready _ _ _ _ M), Hr.
  - by rewrite (mv_next _ _ _ _ M).
Qed.

Lemma with_ready_ok r l : ok (with_ready r l) -> ok r.
Proof. by intros []. Qed.

(** A round of the thread: it ends after a stop, else hands over what was ready and what is due, or sleeps no longer than
    until the first deadline. *)
Lemma thread_round_spec now r : ok r -> stopping r = false ->
  exists due action r', thread_round now r = Some (action, r') /\ moves deadline_passed due r (with_ready r' (ready r ++ (as_ready deadline_passed <$> due))) /\
    (forall t e, (t, e) ∈ due <-> entries r !! t = Some e /\ en_deadline e <= now) /\ ready r' = [] /\
    match action with
    | thread_ends => False
    | resume_batch batch => batch = ready r ++ (as_ready deadline_passed <$> due) /\ batch <> []
    | wait_for_signal => ready r = [] /\ due = [] /\ entries r = ∅
    | wait_until d => ready r = [] /\ due = [] /\ now < d /\ (exists t e, entries r !! t = Some e /\ en_deadline e = d) /\
        (forall t e, entries r !! t = Some e -> d <= en_deadline e)
    end.
Proof.
  intros Hok Hrun. unfold thread_round. rewrite Hrun. destruct (expire_due_moves now _ r Hok eq_refl) as (due & r1 & -> & M & Hdue).
  pose proof (mv_ready _ _ _ _ M) as Hr. assert (with_ready r1 (ready r1) = r1) as Heta by (by destruct r1).
  rewrite Hr in Heta. destruct (ready r1) as [|x batch] eqn:E.
  - symmetry in Hr. apply app_nil in Hr as [Hr Hl]. apply fmap_nil_inv in Hl. subst due.
    assert (with_ready r1 [] = r1) as Heta' by (rewrite <- E; by destruct r1).
    rewrite Hr in *. simpl in *. pose proof (mv_ok _ _ _ _ M) as Hok1.
    assert (forall t e, entries r !! t = Some e <-> entries r1 !! t = Some e) as Hsame.
    { intros t e. rewrite (moves_lookup _ _ _ _ t e M). set_solver. }
    destruct (deadlines r1) as [|[d t] rest] eqn:Ed; eexists [], _, r1; (split; [done|]); (split; [simpl; by rewrite Heta'|]); (split; [done|]);
      (split; [done|]); (split; [done|]); (split; [done|]).
    + apply map_empty. intros t. destruct (entries r !! t) as [e|] eqn:He; [|done]. apply Hsame in He.
      assert ((en_deadline e, t) ∈ deadlines r1) as Hd by (apply deadline_entry; [done|by exists e]). rewrite Ed in Hd. by apply elem_of_nil in Hd.
    + assert ((d, t) ∈ deadlines r1) as Hd by (rewrite Ed; by left). apply deadline_entry in Hd as (e & He & Hde); [|done].
      apply Hsame in He. assert (now < d) as Hnow.
      { destruct (decide (now < d)); [done|]. exfalso. assert ((t, e) ∈ []) as Hx by (apply Hdue; split; [done|lia]). by apply elem_of_nil in Hx. }
      split; [done|]. split; [by exists t, e|]. intros t' e' He'%Hsame. pose proof (ok_sorted r1 Hok1) as Hs.
      assert ((en_deadline e', t') ∈ deadlines r1) as Hd' by (apply deadline_entry; [done|by exists e']).
      rewrite Ed in Hd', Hs. apply StronglySorted_inv in Hs as [_ Hs]. apply elem_of_cons in Hd' as [[= Hd1 Hd2]|Hd']; [lia|].
      rewrite Forall_forall in Hs. by specialize (Hs _ Hd').
  - eexists due, _, _. split; [done|]. split; [exact (eq_ind_r (moves _ _ _) M Heta)|]. split; [done|]. split; [done|]. by split; [rewrite Hr|].
Qed.

Lemma round_ok now s : trace_ok s ->
  exists s', match thread_round now (tr_registry s) with
    | None => None
    | Some (action, r') =>
        Some {| tr_registry := r'; tr_accepted := tr_accepted s;
                tr_resumed := tr_resumed s ++ match action with resume_batch batch => batch | _ => [] end;
                tr_destroyed := tr_destroyed s |}
    end = Some s' /\ trace_ok s' /\ next_ticket (tr_registry s') <= next_ticket (tr_registry s) + 1.
Proof.
  intros Hs. pose proof Hs as [K O St N]. destruct (stopping (tr_registry s)) eqn:E.
  { unfold thread_round. rewrite E. eexists. split; [done|]. simpl. split; [|lia]. split; simpl; [done|by rewrite app_nil_r|auto|done]. }
  destruct (thread_round_spec now _ K E) as (due & action & r' & -> & M & _ & Hr & Ha). eexists. split; [done|]. simpl.
  pose proof (mv_next _ _ _ _ M) as Hn. pose proof (mv_stopping _ _ _ _ M) as Hstop. simpl in Hn, Hstop. split; [|lia].
  pose proof (moves_polls _ _ _ _ M) as Hp. split; simpl; [by apply (with_ready_ok _ _ (mv_ok _ _ _ _ M))| |congruence|lia].
  rewrite O, Hp. unfold polls. simpl. rewrite Hr.
  assert ((match action with resume_batch batch => batch | _ => [] end) = ready (tr_registry s) ++ (as_ready deadline_passed <$> due)) as ->.
  { destruct action; [done|by destruct Ha as [-> _]|destruct Ha as (-> & -> & _)..]; done. }
  rewrite !fmap_app, app_nil_r. solve_Permutation.
Qed.

Lemma call_ok s c : trace_ok s -> next_ticket (tr_registry s) < 2 ^ 64 - 1 ->
  exists s', call s c = Some s' /\ trace_ok s' /\ next_ticket (tr_registry s') <= next_ticket (tr_registry s) + 1.
Proof.
  intros Hs Hmax. pose proof Hs as [K O St N].
  destruct c as [new_limits resume| |u d poll|t|users| |now]; simpl.
  - eexists. split; [done|]. split; [|unfold start; destruct (_ || _); simpl; lia].
    split; simpl; [by apply start_ok|..]; unfold start; destruct (started _ || _ || _); try done.
  - eexists. split; [done|]. simpl. split; [|lia]. split; simpl; [by apply cleared_ok| |done|done].
    rewrite O. unfold polls. simpl. rewrite (iter_entries_ok _). rewrite map_to_list_empty. simpl. solve_Permutation.
  - destruct (park u d poll (tr_registry s)) as [[outcome held] r'] eqn:E.
    destruct (parked_ok outcome) eqn:Eo.
    + destruct (park_accepted u d poll (tr_registry s) K Hmax N) as (p & -> & Hrun & Hout & Hok & Hnext & Hready & Hent); [by rewrite E|].
      rewrite E in Hrun, Hout, Hok, Hnext, Hready, Hent. simpl in *. eexists. split; [done|]. simpl. split; [|lia]. split; simpl; [done| | |lia].
      * rewrite O. unfold polls. rewrite Hent, Hready. simpl. solve_Permutation.
      * by rewrite Hrun.
    + destruct (park_refused u d poll (tr_registry s)) as [_ Hr]; [by rewrite E|]. rewrite E in Hr. simpl in Hr. subst r'.
      eexists. split; [done|]. simpl. split; [|lia]. split; simpl; [done| |done|done]. by rewrite app_nil_r.
  - pose proof (wake_moves t _ K) as M. eexists. split; [done|]. split; [by eapply moves_trace|]. simpl. rewrite (mv_next _ _ _ _ M). lia.
  - destruct (wake_users_moves users _ K) as (l & M & _). eexists. split; [done|]. split; [by eapply moves_trace|].
    simpl. rewrite (mv_next _ _ _ _ M). lia.
  - destruct (wake_all_moves _ K) as (l & M & _). eexists. split; [done|]. split; [by eapply moves_trace|].
    simpl. rewrite (mv_next _ _ _ _ M). lia.
  - destruct (negb _); [exists s; split; [done|]; split; [done|lia]|]. by apply round_ok.
Qed.

Lemma calls_ok cs : Z.of_nat (length cs) < 2 ^ 64 - 1 ->
  exists s, calls cs = Some s /\ trace_ok s /\ next_ticket (tr_registry s) <= 1 + Z.of_nat (length cs).
Proof.
  unfold calls. induction cs as [|c cs IH] using rev_ind; intros Hlen.
  { exists new_trace. split; [done|]. split; [|simpl; lia]. split; [by apply cleared_ok|done|done|done]. }
  rewrite length_app in *. simpl in *. destruct IH as (s & Hs & Hok & Hn); [lia|]. rewrite foldl_app, Hs. simpl.
  destruct (call_ok s c Hok) as (s' & Hc & Hok' & Hn'); [lia|]. exists s'. split; [done|]. split; [done|lia].
Qed.

(** What is counted for a user is what is parked for the user. *)
Lemma parked_for_exact u r : ok r -> parked_for u r = length (filter (fun x => en_user x.2 = u) (map_to_list (entries r))).
Proof.
  intros Hok. assert (parked_for u r = length (default [] (by_user r !! u))) as ->; [unfold parked_for; by destruct (_ !! _)|].
  rewrite <- (length_fmap fst (filter _ _)). apply Permutation_length, NoDup_Permutation.
  - destruct (by_user r !! u) as [tickets|] eqn:E; [by apply (ok_listed r Hok u)|constructor].
  - eapply sublist_NoDup; [apply (NoDup_fst_map_to_list (entries r))|]. apply fmap_sublist, sublist_filter.
  - intros t. rewrite (ok_users r Hok), list_elem_of_fmap. split.
    + intros (e & He & Hu). exists (t, e). rewrite list_elem_of_filter, elem_of_map_to_list. done.
    + intros ([t' e] & -> & [Hu He%elem_of_map_to_list]%list_elem_of_filter). by exists e.
Qed.

(** C37. Parked polls are owned by exactly one party. After any sequence of fewer than 2^64 - 1 calls of [start],
    [park], the wakes, [request_stop] and rounds of the registry's thread, at whatever times and in whatever order an
    unordered map is traversed: nothing undefined happened, and each accepted poll is exactly once among those still
    parked, those ready, those handed to the resume callback and those destroyed at the stop. After a stop none is
    parked or ready. No more polls are parked than the limit; what is counted for a user is what is parked for the
    user and, but for a single poll, within the user's limit. *)
Theorem parked_polls_have_one_owner cs : Z.of_nat (length cs) < 2 ^ 64 - 1 ->
  exists s, calls cs = Some s /\ let r := tr_registry s in
    tr_accepted s ≡ₚ (en_poll ∘ snd <$> map_to_list (entries r)) ++ (ready r).*1 ++ (tr_resumed s).*1 ++ tr_destroyed s /\
    (stopping r = true -> entries r = ∅ /\ ready r = []) /\
    (parked r <= max_parked (limits r))%nat /\
    forall u, parked_for u r = length (filter (fun x => en_user x.2 = u) (map_to_list (entries r))) /\
      (parked_for u r <= Nat.max 1 (max_parked_per_user (limits r)))%nat.
Proof.
  intros Hlen. destruct (calls_ok cs Hlen) as (s & Hs & [K O St N] & _). exists s. split; [done|]. simpl.
  split; [unfold polls in O; by rewrite <- (assoc_L (++)) in O|]. split; [done|]. split; [apply (ok_parked _ K)|].
  intros u. split; [by apply parked_for_exact|]. pose proof (ok_per_user _ K u) as Hu. unfold parked_for. by destruct (_ !! _).
Qed.

(** C38. Parked polls are woken. In every registry the calls build: waking users makes ready exactly their parked
    polls, each once, behind what was ready, and leaves the others parked. A round of the running thread takes every
    ready poll and exactly the polls whose deadline has passed; if there are any it hands them over, in one batch,
    the deadline as the reason of the latter; if there are none it sleeps until a signal when nothing is parked, and
    otherwise until the earliest deadline, which is still to come. *)
Theorem parked_polls_wake cs s : Z.of_nat (length cs) < 2 ^ 64 - 1 -> calls cs = Some s -> let r := tr_registry s in
  (forall users, exists woken,
    NoDup woken /\ (forall t e, (t, e) ∈ woken <-> entries r !! t = Some e /\ en_user e ∈ users) /\
    ready (wake_users users r) = ready r ++ ((fun x => (en_poll x.2, published)) <$> woken) /\
    (forall t e, entries (wake_users users r) !! t = Some e <-> entries r !! t = Some e /\ en_user e ∉ users)) /\
  (forall now, stopping r = false -> exists due action r',
    NoDup due /\ (forall t e, (t, e) ∈ due <-> entries r !! t = Some e /\ en_deadline e <= now) /\
    thread_round now r = Some (action, r') /\ ready r' = [] /\
    (forall t e, entries r' !! t = Some e <-> entries r !! t = Some e /\ now < en_deadline e) /\
    match ready r ++ ((fun x => (en_poll x.2, deadline_passed)) <$> due), action with
    | [], wait_for_signal => entries r = ∅
    | [], wait_until d => now < d /\ (exists t e, entries r !! t = Some e /\ en_deadline e = d) /\
        (forall t e, entries r !! t = Some e -> d <= en_deadline e)
    | (_ :: _) as batch, resume_batch batch' => batch' = batch
    | _, _ => False
    end).
Proof.
  intros Hlen Hs. destruct (calls_ok cs Hlen) as (s' & Hs' & [K O St N] & _). assert (s' = s) as -> by congruence. simpl. split.
  - intros users. destruct (wake_users_moves users _ K) as (woken & M & Hw). exists woken. split; [by eapply moves_nodup|].
    split; [done|]. split; [apply (mv_ready _ _ _ _ M)|]. intros t e. rewrite (moves_left _ _ _ _ t e M), Hw. naive_solver.
  - intros now Hrun. destruct (thread_round_spec now _ K Hrun) as (due & action & r' & Hround & M & Hdue & Hr & Ha).
    exists due, action, r'. split; [by eapply moves_nodup|]. split; [done|]. split; [done|]. split; [done|].
    split.
    { intros t e. pose proof (moves_left _ _ _ _ t e M) as Hleft. simpl in Hleft. rewrite Hleft, Hdue.
      split; intros [He Hd]; (split; [done|]); [apply Z.nle_gt; by intros ?; apply Hd|intros [_ Hle]; lia]. }
    destruct action; [done| |destruct Ha as (-> & -> & Ha); done..]. destruct Ha as [-> Hne].
    change (fun x => (en_poll x.2, deadline_passed)) with (as_ready deadline_passed). revert Hne. generalize (ready (tr_registry s) ++ (as_ready deadline_passed <$> due)). intros l Hl. by destruct l.
Qed.
End Registry.

(** * Instances *)

(** Polls as numbers, entries traversed from the last one. *)
Definition last_first (m : gmap Z (@Entry nat)) : list (Z * Entry) := rev (map_to_list m).

Lemma last_first_ok m : last_first m ≡ₚ map_to_list m.
Proof. symmetry. apply Permutation_rev. Qed.

(** Two polls of alice and one of bob; a publish for alice, then bob's deadline, then a poll that stays. *)
Definition demo_calls : list (@Call nat) := [
  call_start {| max_parked := 3; max_parked_per_user := 2 |} true;
  call_park "@alice:a" 50 (Some 1%nat); call_park "@alice:a" 40 (Some 2%nat); call_park "@alice:a" 60 (Some 3%nat);
  call_park "@bob:b" 30 (Some 4%nat); call_wake_users ["@alice:a"; "@carol:c"]; call_thread_round 20;
  call_park "@alice:a" 90 (Some 5%nat); call_thread_round 30; call_wake 1].

Definition demo_registry : @Registry nat := from_option tr_registry new_registry (calls last_first demo_calls).

Lemma parked_polls_have_one_owner_witness : exists s, calls last_first demo_calls = Some s /\
  tr_resumed s = [(1, published); (2, published); (4, deadline_passed)]%nat /\ tr_accepted s ≡ₚ [5; 1; 2; 4]%nat /\
  parked (tr_registry s) = 1%nat /\ (parked (tr_registry s) <= 3)%nat.
Proof.
  destruct (parked_polls_have_one_owner last_first last_first_ok demo_calls) as (s & Hs & Ho & _ & Hp & _); [done|].
  exists s. split; [exact Hs|]. vm_compute in Hs. injection Hs as <-. split; [reflexivity|]. split; [exact Ho|]. split; [reflexivity|exact Hp].
Defined.

Lemma parked_polls_wake_witness : exists (due : list (Z * Entry)) action r',
  (forall t e, (t, e) ∈ due <-> entries demo_registry !! t = Some e /\ en_deadline e <= 95) /\
  thread_round 95 demo_registry = Some (action, r') /\ action = resume_batch [(5%nat, deadline_passed)].
Proof.
  destruct (calls last_first demo_calls) as [s|] eqn:Hs; [|vm_compute in Hs; discriminate Hs].
  assert (demo_registry = tr_registry s) as -> by (unfold demo_registry; by rewrite Hs).
  destruct (parked_polls_wake last_first last_first_ok demo_calls s) as [_ Hround]; [done|exact Hs|].
  vm_compute in Hs. injection Hs as <-. destruct (Hround 95) as (due & action & r' & _ & Hdue & Hact & _); [reflexivity|].
  exists due, action, r'. split; [exact Hdue|]. split; [exact Hact|]. vm_compute in Hact. by injection Hact as <- _.
Defined.
