(* ===== verification/RateLimit.v ===== *)
(** Rate limits of the client API: http/rate_limit.cpp and the class template of
    include/merovingian/http/RateLimitEngine.hpp.

    A request falls into a tier, its limit comes from the operator's entries or
    the built-in ones, and it is counted in a bucket of its client and route and
    in one of its user and route.  Both tables of buckets hold at most
    [MaxBuckets] entries; a list of keys in the order of use says which to give
    up.  A [std::unordered_map] of the configuration is the list of its entries
    in the order an iteration meets them; a node of a [std::list] has a name that
    stands for the iterators to it; a time is a count of nanoseconds.  What the
    buckets promise is in RateLimitSpec.v. *)
From S2P Require Import Prelude CppStd.
Open Scope Z_scope.

(** * Policies and tiers *)

Record RateLimitPolicy : Type := Policy { max_requests : Z; window_seconds : Z }.

#[export] Instance RateLimitPolicy_eq_dec : EqDecision RateLimitPolicy.
Proof. solve_decision. Defined.

Inductive RateLimitTier : Type :=
  | tier_auth_sensitive | tier_media | tier_sync | tier_federation | tier_admin | tier_generic.

#[export] Instance RateLimitTier_eq_dec : EqDecision RateLimitTier.
Proof. solve_decision. Defined.

(** [starts_with(value, prefix)] of the anonymous namespace. *)
Definition has_prefix (value prefix : string) : bool := String.prefix prefix value.

(** [value.find(text) != npos]. *)
Definition has_substring (value text : string) : bool :=
  match String.index 0 text value with Some _ => true | None => false end.

Definition builtin_per_ip_refinement (target : string) : option RateLimitPolicy :=
  if has_prefix target "/_matrix/client/v3/keys/" || has_prefix target "/_matrix/client/v3/devices"
  then Some (Policy 120 60)
  else if has_prefix target "/_matrix/client/v3/search" then Some (Policy 20 60)
  else if has_prefix target "/_matrix/client/v1/media/thumbnail/" || has_prefix target "/_matrix/media/v3/thumbnail/"
  then Some (Policy 240 60)
  else None.

Definition rate_limit_tier_for (target : string) : RateLimitTier :=
  if has_prefix target "/_matrix/client/v3/login" || has_prefix target "/_matrix/client/v3/refresh"
     || has_prefix target "/_matrix/client/v3/register" || has_prefix target "/_matrix/client/v1/register"
     || has_substring target "/requestToken" || has_substring target "/submitToken"
  then tier_auth_sensitive
  else if has_prefix target "/_matrix/media/" || has_prefix target "/_matrix/client/v1/media/" then tier_media
  else if has_prefix target "/_matrix/client/v3/sync"
          || has_prefix target "/_matrix/client/unstable/org.matrix.msc4186/sync"
          || has_prefix target "/_matrix/client/unstable/org.matrix.simplified_msc3575/sync" then tier_sync
  else if has_prefix target "/_matrix/federation/" then tier_federation
  else if has_prefix target "/_merovingian/admin/" then tier_admin
  else tier_generic.

Definition rate_limit_tier_name (tier : RateLimitTier) : string :=
  match tier with
  | tier_auth_sensitive => "auth_sensitive" | tier_media => "media" | tier_sync => "sync"
  | tier_federation => "federation" | tier_admin => "admin" | tier_generic => "generic"
  end.

Definition rate_limit_tier_from_name (name : string) : option RateLimitTier :=
  if String.eqb name "auth_sensitive" then Some tier_auth_sensitive
  else if String.eqb name "media" then Some tier_media
  else if String.eqb name "sync" then Some tier_sync
  else if String.eqb name "federation" then Some tier_federation
  else if String.eqb name "admin" then Some tier_admin
  else if String.eqb name "generic" then Some tier_generic
  else None.

Definition rate_limit_tier_default (tier : RateLimitTier) : RateLimitPolicy :=
  match tier with
  | tier_auth_sensitive => Policy 20 60
  | tier_media => Policy 120 60
  | tier_sync | tier_federation => Policy 3000 60
  | tier_generic => Policy 600 60
  | tier_admin => Policy 30 60
  end.

Definition rate_limit_policy_is_valid (policy : RateLimitPolicy) : bool :=
  (0 <? max_requests policy) && (0 <? window_seconds policy) && (window_seconds policy <=? 3600).

Definition endpoint_default_rate_limit (method target : string) : RateLimitPolicy :=
  match builtin_per_ip_refinement target with
  | Some refinement => refinement
  | None => rate_limit_tier_default (rate_limit_tier_for target)
  end.

(** * The configuration and the choice of a policy *)

Abbreviation PolicyTable := (list (string * RateLimitPolicy)).

Record RateLimitConfig : Type := {
  builtin_per_ip : PolicyTable;
  builtin_per_user : PolicyTable;
  per_ip : PolicyTable;
  per_user : PolicyTable;
  tier_overrides : PolicyTable;
  default_per_ip : RateLimitPolicy
}.

Definition default_client_rate_limit_config : RateLimitConfig := {|
  builtin_per_ip :=
    [("/_matrix/client/v3/keys/", Policy 120 60);
     ("/_matrix/client/v3/devices", Policy 120 60);
     ("/_matrix/client/v3/search", Policy 20 60);
     ("/_matrix/client/v1/media/thumbnail/", Policy 240 60);
     ("/_matrix/media/v3/thumbnail/", Policy 240 60)];
  builtin_per_user :=
    [("/_matrix/client/v3/login", Policy 5 60);
     ("/_matrix/client/v1/login/get_token", Policy 4 60);
     ("/_matrix/client/v1/media/preview_url", Policy 30 60);
     ("/_matrix/media/v3/preview_url", Policy 30 60);
     ("/_matrix/media/v1/create", Policy 30 60)];
  per_ip := []; per_user := []; tier_overrides := [];
  default_per_ip := Policy 600 60
|}.

(** [config::ClientRateLimitsConfig]. *)
Record ClientRateLimitsConfig : Type := {
  in_per_ip : PolicyTable;
  in_per_user : PolicyTable;
  in_tier : PolicyTable;
  in_default_per_ip : RateLimitPolicy
}.

(** [table[key] = policy]. *)
Fixpoint table_assign (key : string) (policy : RateLimitPolicy) (table : PolicyTable) : PolicyTable :=
  match table with
  | [] => [(key, policy)]
  | (k, p) :: rest => if String.eqb k key then (k, policy) :: rest else (k, p) :: table_assign key policy rest
  end.

Definition assign_all (entries table : PolicyTable) : PolicyTable :=
  foldl (fun table entry => table_assign entry.1 entry.2 table) table entries.

Definition to_http_rate_limit_config (config : ClientRateLimitsConfig) : RateLimitConfig :=
  let out := default_client_rate_limit_config in
  {| builtin_per_ip := builtin_per_ip out;
     builtin_per_user := builtin_per_user out;
     per_ip := assign_all (in_per_ip config) (per_ip out);
     per_user := assign_all (in_per_user config) (per_user out);
     tier_overrides := assign_all (in_tier config) (tier_overrides out);
     default_per_ip := in_default_per_ip config |}.

(** [map.find(key)] on the entries of a map. *)
Definition table_find (key : string) (table : PolicyTable) : option RateLimitPolicy :=
  snd <$> List.find (fun entry => String.eqb entry.1 key) table.

(** The loop of [lookup_policy]: the best entry so far and the length of its key. *)
Fixpoint lookup_policy_from (table : PolicyTable) (target policy_target : string)
    (best : option RateLimitPolicy) (best_len : nat) : option RateLimitPolicy :=
  match table with
  | [] => best
  | (key, policy) :: rest =>
      if (has_prefix target key || has_prefix policy_target key) && (best_len <? String.length key)%nat
      then lookup_policy_from rest target policy_target (Some policy) (String.length key)
      else lookup_policy_from rest target policy_target best best_len
  end.

Definition lookup_policy (table : PolicyTable) (target policy_target : string) : option RateLimitPolicy :=
  lookup_policy_from table target policy_target None 0.

Definition valid_or_nullopt (policy : RateLimitPolicy) : option RateLimitPolicy :=
  if negb (rate_limit_policy_is_valid policy) then None else Some policy.

Definition resolve_per_ip_policy (config : RateLimitConfig) (target policy_target : string) : option RateLimitPolicy :=
  match lookup_policy (per_ip config) target policy_target with
  | Some policy => valid_or_nullopt policy
  | None =>
      let tier := rate_limit_tier_for (if empty policy_target then target else policy_target) in
      match table_find (rate_limit_tier_name tier) (tier_overrides config) with
      | Some policy => valid_or_nullopt policy
      | None =>
          match lookup_policy (builtin_per_ip config) target policy_target with
          | Some policy => valid_or_nullopt policy
          | None =>
              if bool_decide (tier = tier_generic) then valid_or_nullopt (default_per_ip config)
              else Some (rate_limit_tier_default tier)
          end
      end
  end.

Definition resolve_per_user_policy (config : RateLimitConfig) (target policy_target : string) : option RateLimitPolicy :=
  let policy := match lookup_policy (per_user config) target policy_target with
                | Some policy => Some policy
                | None => lookup_policy (builtin_per_user config) target policy_target
                end in
  match policy with
  | None => None
  | Some policy => if negb (rate_limit_policy_is_valid policy) then None else Some policy
  end.

(** * Buckets *)

Record RateLimitDecision : Type := Decision_ {
  allowed : bool;
  d_max_requests : Z;
  d_window_seconds : Z;
  requests_seen : Z;
  per_ip_count : Z;
  per_user_count : Z;
  per_user_max : Z;
  retry_after_ms : Z;
  deny_reason : string
}.

Record Bucket : Type := {
  b_count : Z;
  b_window_seconds : Z;
  b_window_start : Z;
  b_recency : nat
}.

Abbreviation BucketTable := (gmap string Bucket).

(** [std::list<std::string>]: the nodes in order, each with its name, and the
    name the next node gets. *)
Record LruList : Type := { lru_nodes : list (nat * string); lru_next : nat }.

Definition lru_empty : LruList := {| lru_nodes := []; lru_next := 0 |}.

(** [push_back(key)], then [std::prev(end())]. *)
Definition lru_push_back (key : string) (lru : LruList) : LruList * nat :=
  ({| lru_nodes := lru_nodes lru ++ [(lru_next lru, key)]; lru_next := S (lru_next lru) |}, lru_next lru).

(** [splice(end(), lru, node)]. *)
Definition lru_splice_back (node : nat) (lru : LruList) : LruList :=
  {| lru_nodes := filter (fun n => n.1 <> node) (lru_nodes lru) ++ filter (fun n => n.1 = node) (lru_nodes lru);
     lru_next := lru_next lru |}.

(** A full table is never without an oldest key: MaxBuckets is positive and the
    table and the list hold the same keys, so [front] is always defined. *)
Definition evict_to_make_room (MaxBuckets : nat) (table : BucketTable) (lru : LruList) : BucketTable * LruList :=
  if (MaxBuckets <=? size table)%nat
  then match lru_nodes lru with
       | [] => (table, lru)
       | (_, oldest) :: rest => (delete oldest table, {| lru_nodes := rest; lru_next := lru_next lru |})
       end
  else (table, lru).

Definition remaining_window_ms (window_start : Z) (policy : RateLimitPolicy) (now : Z) : Z :=
  let elapsed_ms := Z.quot (now - window_start) 1000000 in
  let window_ms := window_seconds policy * 1000 in
  let remaining_ms := Z.max 0 (window_ms - elapsed_ms) in
  u32 remaining_ms.

Definition check_bucket (MaxBuckets : nat) (table : BucketTable) (bucket_key : string) (lru : LruList)
    (policy : option RateLimitPolicy) (now : Z) : RateLimitDecision * (BucketTable * LruList) :=
  match policy with
  | None => (Decision_ true 0 0 0 0 0 0 0 "", (table, lru))
  | Some policy =>
      if empty bucket_key then (Decision_ true 0 0 0 0 0 0 0 "", (table, lru))
      else
        match table !! bucket_key with
        | None =>
            let '(table, lru) := evict_to_make_room MaxBuckets table lru in
            let '(lru, recency) := lru_push_back bucket_key lru in
            let table := <[bucket_key := {| b_count := 1; b_window_seconds := window_seconds policy;
                                            b_window_start := now; b_recency := recency |}]> table in
            (Decision_ true (max_requests policy) (window_seconds policy) 1 1 0 0 0 "", (table, lru))
        | Some bucket =>
            let lru := lru_splice_back (b_recency bucket) lru in
            let expired := window_seconds policy * 1000000000 <=? now - b_window_start bucket in
            let count := if expired then 0 else b_count bucket in
            let window_start := if expired then now else b_window_start bucket in
            let updated count := <[bucket_key := {| b_count := count; b_window_seconds := window_seconds policy;
                                                    b_window_start := window_start; b_recency := b_recency bucket |}]> table in
            if max_requests policy <=? count
            then (Decision_ false (max_requests policy) (window_seconds policy) count count 0 0
                    (remaining_window_ms window_start policy now) "per_ip_cap", (updated count, lru))
            else
              let count := u32 (count + 1) in
              (Decision_ true (max_requests policy) (window_seconds policy) count count 0 0 0 "", (updated count, lru))
        end
  end.

(** * The engine *)

Record RateLimitEngine : Type := {
  m_config : RateLimitConfig;
  m_ip_buckets : BucketTable;
  m_user_buckets : BucketTable;
  m_ip_lru : LruList;
  m_user_lru : LruList
}.

Definition new_engine (config : RateLimitConfig) : RateLimitEngine := {|
  m_config := config; m_ip_buckets := ∅; m_user_buckets := ∅; m_ip_lru := lru_empty; m_user_lru := lru_empty |}.

Definition reset (e : RateLimitEngine) : RateLimitEngine := {|
  m_config := m_config e; m_ip_buckets := ∅; m_user_buckets := ∅;
  m_ip_lru := {| lru_nodes := []; lru_next := lru_next (m_ip_lru e) |};
  m_user_lru := {| lru_nodes := []; lru_next := lru_next (m_user_lru e) |} |}.

Definition ip_bucket_count (e : RateLimitEngine) : nat := size (m_ip_buckets e).
Definition user_bucket_count (e : RateLimitEngine) : nat := size (m_user_buckets e).

(** The answer of [check] from the decisions of the two buckets. *)
Definition combine_decisions (per_ip : RateLimitPolicy) (per_user : option RateLimitPolicy)
    (ip_decision user_decision : RateLimitDecision) : RateLimitDecision :=
  let user_max := match per_user with Some p => max_requests p | None => 0 end in
  if negb (allowed user_decision)
  then Decision_ (allowed user_decision) (d_max_requests user_decision) (d_window_seconds user_decision)
         (requests_seen user_decision) (requests_seen ip_decision) (requests_seen user_decision) user_max
         (retry_after_ms user_decision) "per_user_cap"
  else if negb (allowed ip_decision)
  then Decision_ (allowed ip_decision) (d_max_requests ip_decision) (d_window_seconds ip_decision)
         (requests_seen ip_decision) (per_ip_count ip_decision) (requests_seen user_decision) user_max
         (retry_after_ms ip_decision) "per_ip_cap"
  else Decision_ true (max_requests per_ip) (window_seconds per_ip) (requests_seen ip_decision)
         (requests_seen ip_decision) (requests_seen user_decision) user_max 0 "".

(** [check]; [now] is what the clock answers. *)
Definition check (MaxBuckets : nat) (now : Z) (ip_bucket target user_bucket policy_target : string) (e : RateLimitEngine)
    : RateLimitDecision * RateLimitEngine :=
  let per_ip := resolve_per_ip_policy (m_config e) target policy_target in
  let per_user := resolve_per_user_policy (m_config e) target policy_target in
  match per_ip with
  | None => (Decision_ false 0 0 0 0 0 0 0 "invalid_policy", e)
  | Some ip_policy =>
      let '(ip_decision, (ip_buckets, ip_lru)) :=
        if empty ip_bucket then (Decision_ true 0 0 0 0 0 0 0 "", (m_ip_buckets e, m_ip_lru e))
        else check_bucket MaxBuckets (m_ip_buckets e) ip_bucket (m_ip_lru e) per_ip now in
      let '(user_decision, (user_buckets, user_lru)) :=
        if empty user_bucket then (Decision_ true 0 0 0 0 0 0 0 "", (m_user_buckets e, m_user_lru e))
        else check_bucket MaxBuckets (m_user_buckets e) user_bucket (m_user_lru e) per_user now in
      (combine_decisions ip_policy per_user ip_decision user_decision,
       {| m_config := m_config e; m_ip_buckets := ip_buckets; m_user_buckets := user_buckets;
          m_ip_lru := ip_lru; m_user_lru := user_lru |})
  end.


(** * The choice of a policy *)

Definition entry_matches (target policy_target : string) (entry : string * RateLimitPolicy) : Prop :=
  entry.1 <> EmptyString /\ (has_prefix target entry.1 = true \/ has_prefix policy_target entry.1 = true).

(** The policy of a longest key that starts the route or the path. *)
Definition longest_match (table : PolicyTable) (target policy_target : string) (policy : RateLimitPolicy) : Prop :=
  exists key, (key, policy) ∈ table /\ entry_matches target policy_target (key, policy) /\
    forall entry, entry ∈ table -> entry_matches target policy_target entry ->
      (String.length entry.1 <= String.length key)%nat.

Lemma length_pos s : s <> EmptyString <-> (0 < String.length s)%nat.
Proof. destruct s; simpl; split; [done|lia|lia|done]. Qed.

Lemma lookup_policy_from_spec target policy_target table best best_len :
  match lookup_policy_from table target policy_target best best_len with
  | None => best = None /\ forall e, e ∈ table -> entry_matches target policy_target e -> (String.length e.1 <= best_len)%nat
  | Some p =>
      (best = Some p /\ forall e, e ∈ table -> entry_matches target policy_target e -> (String.length e.1 <= best_len)%nat)
      \/ exists key, (key, p) ∈ table /\ entry_matches target policy_target (key, p) /\ (best_len < String.length key)%nat /\
           forall e, e ∈ table -> entry_matches target policy_target e -> (String.length e.1 <= String.length key)%nat
  end.
Proof.
  revert best best_len. induction table as [|[key policy] rest IH]; intros best best_len; simpl.
  { destruct best; [left|]; split; try done; intros e He; by apply not_elem_of_nil in He. }
  destruct ((has_prefix target key || has_prefix policy_target key) && (best_len <? String.length key)%nat) eqn:Hm.
  - apply andb_true_iff in Hm as [Hm Hl]. apply orb_true_iff in Hm. apply Nat.ltb_lt in Hl.
    assert (entry_matches target policy_target (key, policy)) as Hmatch by (split; [apply length_pos; simpl; lia|done]).
    specialize (IH (Some policy) (String.length key)).
    destruct (lookup_policy_from _ _ _ _ _) as [p|]; [|by destruct IH].
    right. destruct IH as [[[= ->] IH]|(k & Hk & Hkm & Hkl & IH)].
    + exists key. split; [by left|]. do 2 (split; [done|]). intros e He Hem. apply elem_of_cons in He as [->|He]; [done|by apply IH].
    + exists k. split; [by right|]. split; [done|]. split; [lia|]. intros e He Hem. apply elem_of_cons in He as [->|He]; [simpl; lia|by apply IH].
  - assert (entry_matches target policy_target (key, policy) -> (String.length key <= best_len)%nat) as Hshort.
    { intros [_ Hm']. apply orb_true_iff in Hm'. simpl in Hm'. rewrite Hm' in Hm. simpl in Hm. by apply Nat.ltb_ge in Hm. }
    specialize (IH best best_len). destruct (lookup_policy_from _ _ _ _ _) as [p|].
    + destruct IH as [[-> IH]|(k & Hk & Hkm & Hkl & IH)]; [left|right].
      * split; [done|]. intros e He Hem. apply elem_of_cons in He as [->|He]; [by apply Hshort|by apply IH].
      * exists k. split; [by right|]. do 2 (split; [done|]). intros e He Hem.
        apply elem_of_cons in He as [->|He]; [|by apply IH]. pose proof (Hshort Hem). simpl. lia.
    + destruct IH as [-> IH]. split; [done|]. intros e He Hem. apply elem_of_cons in He as [->|He]; [by apply Hshort|by apply IH].
Qed.

Lemma lookup_policy_spec table target policy_target :
  match lookup_policy table target policy_target with
  | Some p => longest_match table target policy_target p
  | None => forall e, e ∈ table -> ~ entry_matches target policy_target e
  end.
Proof.
  unfold lookup_policy. pose proof (lookup_policy_from_spec target policy_target table None 0) as H.
  destruct (lookup_policy_from _ _ _ _ _) as [p|].
  - destruct H as [[? _]|(k & ? & ? & _ & ?)]; [done|]. by exists k.
  - destruct H as [_ H]. intros e He Hm. pose proof (H e He Hm). destruct Hm as [Hne _]. apply length_pos in Hne. lia.
Qed.

(** The level that has the say, most specific first: the operator's entry of the
    longest prefix, the operator's entry of the tier, the built-in entry of the
    longest prefix, and the default of the tier. *)
Inductive chosen (config : RateLimitConfig) (target policy_target : string) : RateLimitPolicy -> Prop :=
  | chosen_operator p : longest_match (per_ip config) target policy_target p -> chosen config target policy_target p
  | chosen_tier p :
      (forall e, e ∈ per_ip config -> ~ entry_matches target policy_target e) ->
      table_find (rate_limit_tier_name (rate_limit_tier_for (if empty policy_target then target else policy_target)))
        (tier_overrides config) = Some p -> chosen config target policy_target p
  | chosen_builtin p :
      (forall e, e ∈ per_ip config -> ~ entry_matches target policy_target e) ->
      table_find (rate_limit_tier_name (rate_limit_tier_for (if empty policy_target then target else policy_target)))
        (tier_overrides config) = None ->
      longest_match (builtin_per_ip config) target policy_target p -> chosen config target policy_target p
  | chosen_default tier :
      (forall e, e ∈ per_ip config ++ builtin_per_ip config -> ~ entry_matches target policy_target e) ->
      table_find (rate_limit_tier_name tier) (tier_overrides config) = None ->
      tier = rate_limit_tier_for (if empty policy_target then target else policy_target) ->
      chosen config target policy_target
        (if bool_decide (tier = tier_generic) then default_per_ip config else rate_limit_tier_default tier).

Lemma tier_default_valid tier : rate_limit_policy_is_valid (rate_limit_tier_default tier) = true.
Proof. by destruct tier. Qed.

Lemma valid_or_nullopt_default tier : valid_or_nullopt (rate_limit_tier_default tier) = Some (rate_limit_tier_default tier).
Proof. unfold valid_or_nullopt. by rewrite tier_default_valid. Qed.

Lemma resolve_chosen config target policy_target :
  exists p, chosen config target policy_target p /\ resolve_per_ip_policy config target policy_target = valid_or_nullopt p.
Proof.
  unfold resolve_per_ip_policy.
  pose proof (lookup_policy_spec (per_ip config) target policy_target) as Ho.
  destruct (lookup_policy (per_ip config) _ _) as [p|]; [exists p; split; [by apply chosen_operator|done]|].
  destruct (table_find _ _) as [p|] eqn:Ht; [exists p; split; [by apply chosen_tier|done]|].
  pose proof (lookup_policy_spec (builtin_per_ip config) target policy_target) as Hb.
  destruct (lookup_policy (builtin_per_ip config) _ _) as [p|]; [exists p; split; [by apply chosen_builtin|done]|].
  eexists. split.
  - eapply chosen_default; [|exact Ht|reflexivity]. intros e He. apply elem_of_app in He as [He|He]; [by apply Ho|by apply Hb].
  - case_bool_decide; [done|]. by rewrite valid_or_nullopt_default.
Qed.

Lemma check_invalid MaxBuckets now ip_bucket target user_bucket policy_target e :
  resolve_per_ip_policy (m_config e) target policy_target = None ->
  check MaxBuckets now ip_bucket target user_bucket policy_target e = (Decision_ false 0 0 0 0 0 0 0 "invalid_policy", e).
Proof. unfold check. by intros ->. Qed.

(** Two texts that both start a third: one starts the other. *)
Lemma prefixes_comparable a b t : String.prefix a t = true -> String.prefix b t = true ->
  String.prefix a b || String.prefix b a = true.
Proof.
  revert b t. induction a as [|c a IH]; intros b t; [by destruct b|]. destruct b as [|d b]; [by intros _ _; rewrite orb_true_r|].
  destruct t as [|x t]; [done|]. simpl.
  destruct (Ascii.ascii_dec c x) as [->|]; [|done]. destruct (Ascii.ascii_dec d x) as [->|]; [|done].
  destruct (Ascii.ascii_dec x x) as [_|]; [|done]. apply IH.
Qed.

Lemma has_prefix_empty key : has_prefix "" key = true -> key = EmptyString.
Proof. by destruct key. Qed.

Lemma lookup_policy_from_same table target best best_len :
  lookup_policy_from table target target best best_len = lookup_policy_from table target "" best best_len.
Proof.
  revert best best_len. induction table as [|[key p] rest IH]; intros; [done|]. cbn [lookup_policy_from].
  rewrite !IH. destruct (has_prefix target key) eqn:Ht; [done|].
  destruct (has_prefix "" key) eqn:He; [|done]. by apply has_prefix_empty in He as ->.
Qed.

(** The built-in entries of the configuration and [builtin_per_ip_refinement] agree. *)
Lemma builtin_entries_agree target :
  lookup_policy (builtin_per_ip default_client_rate_limit_config) target "" = builtin_per_ip_refinement target.
Proof.
  unfold lookup_policy, builtin_per_ip_refinement. cbn -[has_prefix String.length Nat.ltb].
  pose proof (prefixes_comparable) as Hc. unfold has_prefix in *.
  repeat match goal with
  | |- context [String.prefix ?k ""] => change (String.prefix k "") with false
  end. rewrite !orb_false_r.
  destruct (String.prefix "/_matrix/client/v3/keys/" target) eqn:H1;
  destruct (String.prefix "/_matrix/client/v3/devices" target) eqn:H2;
  destruct (String.prefix "/_matrix/client/v3/search" target) eqn:H3;
  destruct (String.prefix "/_matrix/client/v1/media/thumbnail/" target) eqn:H4;
  destruct (String.prefix "/_matrix/media/v3/thumbnail/" target) eqn:H5; try reflexivity;
  exfalso;
  repeat match goal with
  | A : String.prefix ?a target = true, B : String.prefix ?b target = true |- _ =>
      lazymatch a with b => fail | _ => idtac end;
      let H := fresh in pose proof (prefixes_comparable a b target A B) as H; vm_compute in H; first [discriminate H|clear H B]
  end.
Qed.

(** A built-in entry whose key starts the text is the one [builtin_per_ip_refinement] has for it. *)
Lemma builtin_entry_unique text key p : (key, p) ∈ builtin_per_ip default_client_rate_limit_config ->
  has_prefix text key = true -> builtin_per_ip_refinement text = Some p.
Proof.
  intros Hin Hk. rewrite <- builtin_entries_agree.
  pose proof (lookup_policy_spec (builtin_per_ip default_client_rate_limit_config) text "") as Hs.
  destruct (lookup_policy _ _ _) as [p'|].
  - destruct Hs as (key' & Hin' & [Hne [Hk'|Hk']] & _); [|by apply has_prefix_empty in Hk'].
    pose proof (prefixes_comparable _ _ _ Hk Hk') as Hc. cbn [fst] in Hc. clear -Hin Hin' Hc. simpl in Hin, Hin'.
    repeat (apply elem_of_cons in Hin as [Hin|Hin]; [injection Hin as -> ->;
      repeat (apply elem_of_cons in Hin' as [Hin'|Hin']; [injection Hin' as -> ->; vm_compute in Hc; (reflexivity || discriminate)|]);
      by apply not_elem_of_nil in Hin'|]). by apply not_elem_of_nil in Hin.
  - destruct (Hs (key, p) Hin). split; [|by left]. intros Heq. cbn in Heq. subst key. clear -Hin. simpl in Hin.
    repeat (apply elem_of_cons in Hin as [Hin|Hin]; [discriminate|]). by apply not_elem_of_nil in Hin.
Qed.

Lemma builtin_lookup target policy_target :
  match lookup_policy (builtin_per_ip default_client_rate_limit_config) target policy_target with
  | Some p => builtin_per_ip_refinement target = Some p \/ builtin_per_ip_refinement policy_target = Some p
  | None => builtin_per_ip_refinement target = None /\ builtin_per_ip_refinement policy_target = None
  end.
Proof.
  pose proof (lookup_policy_spec (builtin_per_ip default_client_rate_limit_config) target policy_target) as Hs.
  destruct (lookup_policy _ _ _) as [p|].
  - destruct Hs as (key & Hin & [_ [Hk|Hk]] & _); [left|right]; by eapply builtin_entry_unique.
  - assert (forall text, (forall e, entry_matches text "" e -> entry_matches target policy_target e) ->
      builtin_per_ip_refinement text = None) as Hnone.
    { intros text Hsub. rewrite <- builtin_entries_agree.
      pose proof (lookup_policy_spec (builtin_per_ip default_client_rate_limit_config) text "") as Ht.
      destruct (lookup_policy _ _ _) as [p|]; [|done]. destruct Ht as (key & Hin & Hm & _). destruct (Hs (key, p) Hin). by apply Hsub. }
    split; apply Hnone; intros e [Hne [Hk|Hk]]; (split; [done|]); [by left|by apply has_prefix_empty in Hk|by right|by apply has_prefix_empty in Hk].
Qed.

(** The limit without an operator's entries: the built-in one of the route or of the path, else the default of the tier. *)
Lemma default_resolves target policy_target :
  exists p, resolve_per_ip_policy default_client_rate_limit_config target policy_target = Some p
    /\ match builtin_per_ip_refinement target, builtin_per_ip_refinement policy_target with
       | Some a, Some b => p = a \/ p = b
       | Some a, None => p = a
       | None, Some b => p = b
       | None, None => p = rate_limit_tier_default (rate_limit_tier_for (if empty policy_target then target else policy_target))
       end.
Proof.
  unfold resolve_per_ip_policy.
  change (lookup_policy (per_ip default_client_rate_limit_config) target policy_target) with (@None RateLimitPolicy).
  change (table_find (rate_limit_tier_name ?t) (tier_overrides default_client_rate_limit_config)) with (@None RateLimitPolicy). cbv iota zeta.
  assert (forall text p, builtin_per_ip_refinement text = Some p -> valid_or_nullopt p = Some p) as Hvalid.
  { intros text p. unfold builtin_per_ip_refinement. repeat case_match; intros ?; by simplify_eq. }
  pose proof (builtin_lookup target policy_target) as Hb. destruct (lookup_policy _ _ _) as [p|].
  - exists p. split; [by destruct Hb as [Hb|Hb]; eapply Hvalid|].
    destruct Hb as [Hb|Hb]; rewrite Hb; [destruct (builtin_per_ip_refinement policy_target)|destruct (builtin_per_ip_refinement target)]; auto.
  - destruct Hb as [-> ->]. eexists. split; [|reflexivity]. case_bool_decide as Hg; [by rewrite Hg|done].
Qed.

(** Two of the operator's keys of one length, one of the route and one of the
    path: the order of iteration decides between their policies. *)
Example equal_prefixes_tie :
  let by_route := ("/_matrix/client/v3/rooms/{roomId}/send", Policy 10 60) in
  let by_path := ("/_matrix/client/v3/rooms/!ab:c.io/send", Policy 500 60) in
  let route := "/_matrix/client/v3/rooms/{roomId}/send" in
  let path := "/_matrix/client/v3/rooms/!ab:c.io/send/m.room.message/1" in
  lookup_policy [by_route; by_path] route path = Some (Policy 10 60) /\
  lookup_policy [by_path; by_route] route path = Some (Policy 500 60).
Proof. by vm_compute. Qed.

(** C35. Which limit a request of a client falls under.  The policy is that of the
    most specific level that has one: the operator's entry whose key is the
    longest prefix of the route or the path, else the operator's entry of the
    tier, else the built-in entry of the longest prefix, else the default of the
    tier.  A valid policy is the one applied; an invalid one is never read as no
    limit: the request is refused, with [invalid_policy], and no bucket changes.
    Without an operator's entries the limit is the built-in one of the route or of
    the path ([builtin_per_ip_refinement]), one of the two when both have one, and the
    default of the tier when neither has.  So it is the limit that
    [endpoint_default_rate_limit] gives for the path (the route when no path is given)
    unless the route has a built-in limit of its own and the path another. *)
Theorem rate_limit_policies_resolved MaxBuckets now ip_bucket target user_bucket policy_target e :
  (exists p, chosen (m_config e) target policy_target p /\
     if rate_limit_policy_is_valid p
     then resolve_per_ip_policy (m_config e) target policy_target = Some p
     else check MaxBuckets now ip_bucket target user_bucket policy_target e
            = (Decision_ false 0 0 0 0 0 0 0 "invalid_policy", e)) /\
  (exists p, resolve_per_ip_policy default_client_rate_limit_config target policy_target = Some p
    /\ match builtin_per_ip_refinement target, builtin_per_ip_refinement policy_target with
       | Some a, Some b => p = a \/ p = b
       | Some a, None => p = a
       | None, Some b => p = b
       | None, None => p = rate_limit_tier_default (rate_limit_tier_for (if empty policy_target then target else policy_target))
       end
    /\ (let path := if empty policy_target then target else policy_target in
        builtin_per_ip_refinement target = None \/ builtin_per_ip_refinement target = builtin_per_ip_refinement path ->
        forall method, p = endpoint_default_rate_limit method path)).
Proof.
  split.
  - destruct (resolve_chosen (m_config e) target policy_target) as (p & Hp & Hr). exists p. split; [done|].
    unfold valid_or_nullopt in Hr. destruct (rate_limit_policy_is_valid p); [done|]. by apply check_invalid.
  - destruct (default_resolves target policy_target) as (p & Hp & Hm). exists p. split; [done|]. split; [done|].
    cbv zeta. intros Hsame method. unfold endpoint_default_rate_limit. destruct (empty policy_target) eqn:Ee.
    + destruct policy_target; [|done]. change (builtin_per_ip_refinement "") with (@None RateLimitPolicy) in Hm.
      by destruct (builtin_per_ip_refinement target).
    + destruct (builtin_per_ip_refinement target), (builtin_per_ip_refinement policy_target); naive_solver.
Qed.
