(* ===== verification/RateLimitSpec.v ===== *)
(** What the buckets of the rate limits promise (RateLimit.v).

    The two tables with their lists are refined to one list of counters in the
    order of use; on that list the limits are counted: how many requests a key is
    let through in a time of one window, when it is refused, and when it is let
    in again. *)
From S2P Require Import Prelude CppStd RateLimit.
Open Scope Z_scope.

(** * Counters in the order of use *)

(** A key, the requests counted and the start of the window. *)
Abbreviation Counters := (list (string * (Z * Z))).

Definition counter (key : string) (counters : Counters) : option (Z * Z) :=
  snd <$> List.find (fun c => String.eqb c.1 key) counters.

Definition others (key : string) (counters : Counters) : Counters := filter (fun c => c.1 <> key) counters.

(** One key: let in and counted, or refused until its window is over. *)
Definition window_step (policy : RateLimitPolicy) (now : Z) (state : option (Z * Z)) : RateLimitDecision * (Z * Z) :=
  match state with
  | None => (Decision_ true (max_requests policy) (window_seconds policy) 1 1 0 0 0 "", (1, now))
  | Some (count, start) =>
      let expired := window_seconds policy * 1000000000 <=? now - start in
      let count := if expired then 0 else count in
      let start := if expired then now else start in
      if max_requests policy <=? count
      then (Decision_ false (max_requests policy) (window_seconds policy) count count 0 0
              (remaining_window_ms start policy now) "per_ip_cap", (count, start))
      else (Decision_ true (max_requests policy) (window_seconds policy) (count + 1) (count + 1) 0 0 0 "", (count + 1, start))
  end.

(** The key moves to the end; a new key takes the place of the one unused for longest when there is no room. *)
Definition spec_bucket (MaxBuckets : nat) (key : string) (policy : RateLimitPolicy) (now : Z) (counters : Counters)
    : RateLimitDecision * Counters :=
  let '(decision, state) := window_step policy now (counter key counters) in
  let kept := match counter key counters with
              | Some _ => others key counters
              | None => if (MaxBuckets <=? length counters)%nat then tail counters else counters
              end in
  (decision, kept ++ [(key, state)]).

Definition spec_check_bucket (MaxBuckets : nat) (key : string) (policy : option RateLimitPolicy) (now : Z) (counters : Counters)
    : RateLimitDecision * Counters :=
  match policy with
  | Some policy => if empty key then (Decision_ true 0 0 0 0 0 0 0 "", counters) else spec_bucket MaxBuckets key policy now counters
  | None => (Decision_ true 0 0 0 0 0 0 0 "", counters)
  end.

(** * The representation *)

Definition row_node (row : string * Bucket) : nat * string := (b_recency row.2, row.1).
Definition row_counter (row : string * Bucket) : string * (Z * Z) := (row.1, (b_count row.2, b_window_start row.2)).

(** The rows of a table in the order of the list: each bucket points to the node of its key. *)
Record rows_of (table : BucketTable) (lru : LruList) (rows : list (string * Bucket)) : Prop := {
  rows_keys : NoDup rows.*1;
  rows_table : table = list_to_map rows;
  rows_nodes : lru_nodes lru = row_node <$> rows;
  rows_names : NoDup ((fun row => b_recency row.2) <$> rows);
  rows_old : Forall (fun row => (b_recency row.2 < lru_next lru)%nat) rows
}.

Definition represents (MaxBuckets : nat) (table : BucketTable) (lru : LruList) (counters : Counters) : Prop :=
  exists rows, rows_of table lru rows /\ counters = row_counter <$> rows /\
    Forall (fun row => 0 <= b_count row.2 < 2 ^ 32) rows /\ (length rows <= MaxBuckets)%nat.

Lemma rows_lookup table lru rows key : rows_of table lru rows ->
  table !! key = snd <$> List.find (fun row => String.eqb row.1 key) rows.
Proof.
  intros [Hk -> _ _ _]. clear lru. induction rows as [|[k b] rows IH]; [done|]. simpl. apply NoDup_cons in Hk as [_ Hk].
  destruct (String.eqb_spec k key) as [->|Hne]; [by rewrite lookup_insert_eq|]. rewrite lookup_insert_ne by done. by apply IH.
Qed.

Lemma find_row key (rows : list (string * Bucket)) b : snd <$> List.find (fun row => String.eqb row.1 key) rows = Some b -> (key, b) ∈ rows.
Proof.
  induction rows as [|[k c] rows IH]; [done|]. simpl. destruct (String.eqb_spec k key) as [->|]; simpl; intros H.
  - simplify_eq. by left.
  - right. by apply IH.
Qed.

Lemma find_no_row key (rows : list (string * Bucket)) : snd <$> List.find (fun row => String.eqb row.1 key) rows = None -> key ∉ rows.*1.
Proof.
  induction rows as [|[k c] rows IH]; simpl; [intros _; apply not_elem_of_nil|].
  destruct (String.eqb_spec k key) as [->|]; [done|]. intros H. apply not_elem_of_cons. split; [congruence|by apply IH].
Qed.

Lemma counter_rows key rows : counter key (row_counter <$> rows) =
  (fun b => (b_count b, b_window_start b)) <$> (snd <$> List.find (fun row => String.eqb row.1 key) rows).
Proof. induction rows as [|[k b] rows IH]; [done|]. unfold counter in *. simpl. by destruct (String.eqb k key). Qed.

Lemma others_rows key rows : others key (row_counter <$> rows) = row_counter <$> filter (fun row => row.1 <> key) rows.
Proof.
  unfold others. induction rows as [|[k b] rows IH]; [done|]. rewrite fmap_cons, !filter_cons.
  case_decide; case_decide; simpl in *; by rewrite ?fmap_cons, ?IH.
Qed.

Lemma rows_size table lru rows : rows_of table lru rows -> size table = length rows.
Proof.
  intros [Hk -> _ _ _]. clear lru. induction rows as [|[k b] rows IH]; simpl in *; [by rewrite map_size_empty|].
  apply NoDup_cons in Hk as [Hn Hk]. rewrite map_size_insert_None by (by apply not_elem_of_list_to_map_1). by rewrite IH.
Qed.

Lemma represents_size MaxBuckets table lru counters : represents MaxBuckets table lru counters ->
  size table = length counters /\ (length counters <= MaxBuckets)%nat.
Proof. intros (rows & Hr & -> & _ & Hl). rewrite length_fmap, (rows_size _ _ _ Hr). done. Qed.

Lemma represents_empty MaxBuckets n : represents MaxBuckets ∅ {| lru_nodes := []; lru_next := n |} [].
Proof. exists []. split; [split; done || apply NoDup_nil_2 || apply Forall_nil_2|]. split; [done|]. split; [apply Forall_nil_2|simpl; lia]. Qed.

Lemma rows_append table lru rows key b : rows_of table lru rows -> key ∉ rows.*1 -> b_recency b = lru_next lru ->
  rows_of (<[key := b]> table) (lru_push_back key lru).1 (rows ++ [(key, b)]).
Proof.
  intros [Hk -> Hn Hm Ho] Hkey Hb. split; simpl.
  - rewrite fmap_app. apply NoDup_app. split_and!; [done|set_solver|apply NoDup_singleton].
  - symmetry. rewrite list_to_map_app. simpl. rewrite insert_empty, map_union_comm.
    + by rewrite insert_union_singleton_l.
    + apply map_disjoint_singleton_r. by apply not_elem_of_list_to_map_1.
  - rewrite Hn, fmap_app. simpl. unfold row_node at 3. simpl. by rewrite Hb.
  - rewrite fmap_app. apply NoDup_app. split_and!; [done| |apply NoDup_singleton]. simpl. intros n Hin Hn'.
    apply list_elem_of_singleton in Hn' as ->. apply list_elem_of_fmap in Hin as (row & He & Hin).
    rewrite Forall_forall in Ho. apply Ho in Hin. lia.
  - apply Forall_app. split; [eapply Forall_impl; [exact Ho|]; simpl; lia|]. apply Forall_singleton. simpl. lia.
Qed.

Lemma rows_drop table lru key b rows : rows_of table lru ((key, b) :: rows) ->
  rows_of (delete key table) {| lru_nodes := tail (lru_nodes lru); lru_next := lru_next lru |} rows.
Proof.
  intros [Hk -> Hn Hm Ho]. simpl in *. apply NoDup_cons in Hk as [Hkey Hk]. apply NoDup_cons in Hm as [_ Hm].
  apply Forall_cons in Ho as [_ Ho]. split; simpl; [done| |by rewrite Hn|done|done].
  rewrite delete_insert_id; [done|by apply not_elem_of_list_to_map_1].
Qed.

(** The node of a bucket is the only one with its name, and the only one with its key. *)
Lemma rows_same table lru rows row row' : rows_of table lru rows -> row ∈ rows -> row' ∈ rows ->
  b_recency row.2 = b_recency row'.2 <-> row.1 = row'.1.
Proof.
  intros [Hk _ _ Hm _] Hr Hr'. apply list_elem_of_lookup in Hr as [i Hi], Hr' as [j Hj].
  assert (b_recency row.2 = b_recency row'.2 -> i = j) as H1.
  { intros He. apply (NoDup_lookup _ i j (b_recency row.2) Hm); rewrite list_lookup_fmap; [by rewrite Hi|rewrite Hj]. simpl. by rewrite He. }
  assert (row.1 = row'.1 -> i = j) as H2.
  { intros He. apply (NoDup_lookup _ i j row.1 Hk); rewrite list_lookup_fmap; [by rewrite Hi|rewrite Hj]. simpl. by rewrite He. }
  split; intros He; [apply H1 in He|apply H2 in He]; congruence.
Qed.

Lemma filter_map {A B} (f : A -> B) (P : B -> Prop) (Q : A -> Prop) `{!forall x, Decision (P x), !forall x, Decision (Q x)} (l : list A) :
  (forall x, x ∈ l -> P (f x) <-> Q x) -> filter P (f <$> l) = f <$> filter Q l.
Proof.
  induction l as [|x l IH]; intros Hpq; [done|]. rewrite fmap_cons, !filter_cons.
  rewrite IH by (intros; apply Hpq; by right). pose proof (Hpq x ltac:(by left)) as Hx.
  case_decide; case_decide; naive_solver.
Qed.

Lemma filter_own_key (key : string) (b : Bucket) rows : NoDup rows.*1 -> (key, b) ∈ rows -> filter (fun row => row.1 = key) rows = [(key, b)].
Proof.
  induction rows as [|[k c] rows IH]; intros Hn Hin; [by apply not_elem_of_nil in Hin|].
  apply NoDup_cons in Hn as [Hk Hn]. rewrite filter_cons. simpl in *. case_decide as Hd.
  - subst k. assert (filter (fun row : string * Bucket => row.1 = key) rows = []) as ->.
    { apply elem_of_nil_inv. intros row [Hd Hr]%list_elem_of_filter. apply Hk. rewrite <- Hd. by apply list_elem_of_fmap_2. }
    apply elem_of_cons in Hin as [[= ->]|Hin]; [done|]. exfalso. apply Hk. by apply (list_elem_of_fmap_2 fst) in Hin.
  - apply elem_of_cons in Hin as [[= -> ->]|Hin]; [done|]. by apply IH.
Qed.

Lemma map_insert_filter (key : string) (b : Bucket) rows : NoDup rows.*1 ->
  <[key := b]> (list_to_map rows) =@{BucketTable} list_to_map (filter (fun row => row.1 <> key) rows ++ [(key, b)]).
Proof.
  intros Hn. induction rows as [|[k c] rows IH]; [done|]. apply NoDup_cons in Hn as [Hk Hn]. rewrite filter_cons. simpl.
  case_decide as Hd; simpl.
  - rewrite insert_insert_ne by done. by rewrite IH.
  - subst k. rewrite insert_insert_eq. by apply IH.
Qed.

Lemma rows_move table lru rows key b b' : rows_of table lru rows -> (key, b) ∈ rows -> b_recency b' = b_recency b ->
  rows_of (<[key := b']> table) (lru_splice_back (b_recency b) lru) (filter (fun row => row.1 <> key) rows ++ [(key, b')]).
Proof.
  intros Hrows Hin Hb. pose proof (fun row Hr => rows_same _ _ _ row (key, b) Hrows Hr Hin) as Hsame. simpl in Hsame.
  destruct Hrows as [Hk -> Hn Hm Ho]. rewrite Forall_forall in Ho. split; simpl.
  - rewrite fmap_app. apply NoDup_app. split_and!; [| |apply NoDup_singleton].
    + eapply sublist_NoDup; [exact Hk|]. apply fmap_sublist, sublist_filter.
    + intros k Hin1 Hk'. simpl in Hk'. apply list_elem_of_singleton in Hk' as ->.
      apply list_elem_of_fmap in Hin1 as (row & He & [Hd _]%list_elem_of_filter). done.
  - by apply map_insert_filter.
  - rewrite Hn, fmap_app. f_equal.
    + apply filter_map. intros row Hr. simpl. by rewrite <- (Hsame row Hr).
    + rewrite (filter_map row_node _ (fun row => row.1 = key)) by (intros row Hr; simpl; by apply Hsame).
      rewrite (filter_own_key key b) by done. unfold row_node. simpl. by rewrite Hb.
  - rewrite fmap_app. apply NoDup_app. split_and!; [| |apply NoDup_singleton].
    + eapply sublist_NoDup; [exact Hm|]. apply fmap_sublist, sublist_filter.
    + intros n Hin1 Hn'. simpl in Hn'. apply list_elem_of_singleton in Hn' as ->.
      apply list_elem_of_fmap in Hin1 as (row & He & [Hd Hr]%list_elem_of_filter). apply Hd, Hsame; [done|]. congruence.
  - apply Forall_app. split.
    + apply Forall_forall. intros row [_ Hr]%list_elem_of_filter. by apply Ho.
    + apply Forall_singleton. simpl. rewrite Hb. by apply (Ho (key, b)).
Qed.

Definition policy_in_range (policy : RateLimitPolicy) : Prop := 0 <= max_requests policy < 2 ^ 32.

(** The eviction gives up the first row, and only of a full table. *)
Lemma evict_rows MaxBuckets table lru rows : (0 < MaxBuckets)%nat -> rows_of table lru rows ->
  let '(table', lru') := evict_to_make_room MaxBuckets table lru in
  lru_next lru' = lru_next lru /\
  rows_of table' lru' (if (MaxBuckets <=? length rows)%nat then tail rows else rows).
Proof.
  intros Hpos Hrows. unfold evict_to_make_room. rewrite (rows_size _ _ _ Hrows).
  destruct (Nat.leb_spec MaxBuckets (length rows)); [|done].
  destruct rows as [|[k b] rows]; [simpl in *; lia|]. pose proof (rows_drop _ _ _ _ _ Hrows) as Hd.
  rewrite (rows_nodes _ _ _ Hrows) in *. by simpl in *.
Qed.

Lemma Forall_tail {A} (P : A -> Prop) l : Forall P l -> Forall P (tail l).
Proof. destruct 1; [apply Forall_nil_2|done]. Qed.

Lemma check_bucket_refines MaxBuckets table lru counters key policy now : (0 < MaxBuckets)%nat ->
  represents MaxBuckets table lru counters -> (forall p, policy = Some p -> policy_in_range p) ->
  let '(decision, (table', lru')) := check_bucket MaxBuckets table key lru policy now in
  exists counters', spec_check_bucket MaxBuckets key policy now counters = (decision, counters') /\
    represents MaxBuckets table' lru' counters'.
Proof.
  intros Hpos Hrep Hpol. unfold check_bucket, spec_check_bucket. destruct policy as [policy|]; [|by eexists].
  destruct (empty key); [by eexists|]. specialize (Hpol _ eq_refl). destruct Hrep as (rows & Hrows & -> & Hcount & Hlen).
  unfold spec_bucket. rewrite counter_rows, (rows_lookup _ _ _ key Hrows).
  destruct (snd <$> List.find _ rows) as [b|] eqn:Hf; simpl.
  - apply find_row in Hf. rewrite others_rows.
    assert (forall b', b_recency b' = b_recency b -> 0 <= b_count b' < 2 ^ 32 ->
      represents MaxBuckets (<[key := b']> table) (lru_splice_back (b_recency b) lru)
        ((row_counter <$> filter (fun row => row.1 <> key) rows) ++ [row_counter (key, b')])) as Hmove.
    { intros b' Hb Hc. exists (filter (fun row => row.1 <> key) rows ++ [(key, b')]).
      split; [by apply rows_move|]. split; [by rewrite fmap_app|]. split.
      - apply Forall_app. split; [|by apply Forall_singleton]. apply Forall_forall. intros row [_ Hr]%list_elem_of_filter.
        rewrite Forall_forall in Hcount. by apply Hcount.
      - rewrite length_app. simpl.
        pose proof (length_filter_lt (fun row : string * Bucket => row.1 <> key) rows (key, b) Hf ltac:(by intros [])). lia. }
    assert (0 <= b_count b < 2 ^ 32) as Hb by (rewrite Forall_forall in Hcount; by apply (Hcount (key, b))).
    set (count := if _ <=? _ then 0 else b_count b). set (start := if _ <=? _ then now else b_window_start b).
    assert (0 <= count < 2 ^ 32) as Hc by (unfold count; case_match; lia). clearbody count start. unfold policy_in_range in Hpol.
    destruct (max_requests policy <=? count) eqn:Hfull; [|rewrite u32_small by lia]; eexists; (split; [reflexivity|]); apply Hmove; simpl; lia || done.
  - apply find_no_row in Hf. pose proof (evict_rows MaxBuckets table lru rows Hpos Hrows) as He.
    destruct (evict_to_make_room _ _ _) as [table' lru']. destruct He as [Hnext He].
    eexists. split; [reflexivity|]. rewrite length_fmap.
    set (kept := if (_ <=? _)%nat then tail rows else rows) in *.
    assert ((if (MaxBuckets <=? length rows)%nat then tail (row_counter <$> rows) else row_counter <$> rows) = row_counter <$> kept) as ->.
    { unfold kept. case_match; [by destruct rows|done]. }
    exists (kept ++ [(key, {| b_count := 1; b_window_seconds := window_seconds policy; b_window_start := now; b_recency := lru_next lru' |})]). split; [|split; [by rewrite fmap_app|split]].
    + apply rows_append; [done| |done]. intros Hin. apply Hf. unfold kept in Hin. case_match; [|done].
      destruct rows; [done|]. by right.
    + apply Forall_app. split; [unfold kept; case_match; [by apply Forall_tail|done]|]. apply Forall_singleton. simpl. lia.
    + rewrite length_app. unfold kept. simpl. destruct (Nat.leb_spec MaxBuckets (length rows)); [|lia]. destruct rows; simpl in *; lia.
Qed.

(** * One window after the other *)

Definition window_ns (policy : RateLimitPolicy) : Z := window_seconds policy * 1000000000.

(** The requests of a history let in at a time from [from] on and before [until]. *)
Definition let_in (from until : Z) (history : list (Z * RateLimitDecision)) : Z :=
  Z.of_nat (length (filter (fun x => allowed x.2 = true /\ from <= x.1 < until) history)).

Lemma let_in_app from until h h' : let_in from until (h ++ h') = let_in from until h + let_in from until h'.
Proof. unfold let_in. rewrite filter_app, length_app. lia. Qed.

Lemma let_in_one from until t d : let_in from until [(t, d)] =
  if decide (allowed d = true /\ from <= t < until) then 1 else 0.
Proof. unfold let_in. rewrite filter_cons. simpl. by case_decide. Qed.

Lemma let_in_none from until h : Forall (fun x => ~ (from <= x.1 < until)) h -> let_in from until h = 0.
Proof.
  intros Hh. unfold let_in. assert (filter (fun x : Z * RateLimitDecision => allowed x.2 = true /\ from <= x.1 < until) h = []) as ->; [|done].
  apply elem_of_nil_inv. intros x [[_ Hx] Hin]%list_elem_of_filter. rewrite Forall_forall in Hh. by apply (Hh x).
Qed.

Lemma let_in_mono from until from' until' h :
  Forall (fun x => from <= x.1 < until -> from' <= x.1 < until') h -> let_in from until h <= let_in from' until' h.
Proof.
  unfold let_in. intros Hh. apply inj_le. induction Hh as [|x h Hx Hh IH]; [done|]. rewrite !filter_cons.
  repeat case_decide; simpl; naive_solver lia.
Qed.

(** A key with a history of answers, [count] of them given in its window from [start] on. *)
Record windowed (policy : RateLimitPolicy) (history : list (Z * RateLimitDecision)) (count start : Z) : Prop := {
  windowed_split : exists old cur, history = old ++ cur /\ cur <> [] /\
    Forall (fun x => x.1 < start) old /\ Forall (fun x => start <= x.1 < start + window_ns policy) cur /\
    count = let_in start (start + window_ns policy) cur /\
    (forall from, start - window_ns policy < from -> let_in from start old <= max_requests policy);
  windowed_full : count <= max_requests policy;
  windowed_bound : forall from, let_in from (from + window_ns policy) history <= 2 * max_requests policy;
  windowed_retry : forall t d, last history = Some (t, d) -> allowed d = false ->
    0 < retry_after_ms d <= window_seconds policy * 1000 /\ start + window_ns policy <= t + retry_after_ms d * 1000000
}.

Lemma valid_policy policy : rate_limit_policy_is_valid policy = true ->
  0 < max_requests policy /\ 0 < window_seconds policy <= 3600.
Proof. unfold rate_limit_policy_is_valid. intros H. apply andb_true_iff in H as [[H1 H2]%andb_true_iff H3]. lia. Qed.

Lemma remaining_ms policy start now : 0 < window_seconds policy <= 3600 -> 0 <= now - start < window_ns policy ->
  0 < remaining_window_ms start policy now <= window_seconds policy * 1000 /\
  start + window_ns policy <= now + remaining_window_ms start policy now * 1000000.
Proof.
  intros Hw Ht. unfold remaining_window_ms, window_ns in *. rewrite Z.quot_div_nonneg by lia.
  pose proof (Z.div_mod (now - start) 1000000 ltac:(lia)) as Hd. pose proof (Z.mod_pos_bound (now - start) 1000000 ltac:(lia)).
  assert (0 <= (now - start) / 1000000 < window_seconds policy * 1000) as Hq.
  { split; [apply Z.div_pos; lia|apply Z.div_lt_upper_bound; lia]. }
  rewrite Z.max_r, u32_small by lia. lia.
Qed.

Lemma windowed_start policy old t d : rate_limit_policy_is_valid policy = true -> allowed d = true ->
  Forall (fun x => x.1 < t) old ->
  (forall from, t - window_ns policy < from -> let_in from t old <= max_requests policy) ->
  (forall from, let_in from (from + window_ns policy) old <= 2 * max_requests policy) ->
  windowed policy (old ++ [(t, d)]) 1 t.
Proof.
  intros [Hm Hw]%valid_policy Hd Hold Hprev Hbound. assert (0 < window_ns policy) as Hpos by (unfold window_ns; lia). split.
  - exists old, [(t, d)]. split_and!; [done|done|done|by apply Forall_singleton; simpl; lia| |done].
    rewrite let_in_one. case_decide as Hc; [done|]. exfalso. apply Hc. split; [done|lia].
  - lia.
  - intros from. rewrite let_in_app, let_in_one. specialize (Hbound from). case_decide as Hc; [|lia].
    assert (let_in from (from + window_ns policy) old <= let_in from t old) as Hle.
    { apply let_in_mono. eapply Forall_impl; [exact Hold|]. simpl. lia. }
    specialize (Hprev from ltac:(lia)). lia.
  - intros t0 d0 Hl Hd0. rewrite last_snoc in Hl. simplify_eq. congruence.
Qed.

Lemma windowed_first policy t : rate_limit_policy_is_valid policy = true ->
  let '(d, (count, start)) := window_step policy t None in windowed policy [(t, d)] count start /\ allowed d = true.
Proof.
  intros Hv. simpl. split; [|done]. pose proof (valid_policy _ Hv). apply (windowed_start policy [] t); try done; intros; unfold let_in; simpl; lia.
Qed.

(** A request in the running window. *)
Lemma windowed_more policy h count start t d : rate_limit_policy_is_valid policy = true ->
  windowed policy h count start -> start <= t < start + window_ns policy ->
  (if allowed d then count < max_requests policy
   else 0 < retry_after_ms d <= window_seconds policy * 1000 /\ start + window_ns policy <= t + retry_after_ms d * 1000000) ->
  windowed policy (h ++ [(t, d)]) (if allowed d then count + 1 else count) start.
Proof.
  intros [Hm Hw]%valid_policy [(old & cur & -> & Hne & Hold & Hcur & -> & Hprev) Hfull Hbound _] Ht Hd. split.
  - exists old, (cur ++ [(t, d)]). split_and!; [by rewrite app_assoc|by destruct cur|done| | |done].
    + apply Forall_app. split; [done|by apply Forall_singleton].
    + rewrite let_in_app, let_in_one. destruct (allowed d); case_decide; naive_solver lia.
  - destruct (allowed d); lia.
  - intros from. rewrite let_in_app, let_in_one. specialize (Hbound from). case_decide as Hc; [|lia].
    destruct Hc as [Ha Hc]. rewrite Ha in Hd. rewrite let_in_app.
    assert (let_in from (from + window_ns policy) old <= let_in from start old) as H1.
    { apply let_in_mono. eapply Forall_impl; [exact Hold|]. simpl. lia. }
    assert (let_in from (from + window_ns policy) cur <= let_in start (start + window_ns policy) cur) as H2.
    { apply let_in_mono. eapply Forall_impl; [exact Hcur|]. simpl. lia. }
    specialize (Hprev from ltac:(lia)). lia.
  - intros t0 d0 Hl Ha. rewrite last_snoc in Hl. simplify_eq. by rewrite Ha in Hd.
Qed.

Lemma windowed_next policy h count start t : rate_limit_policy_is_valid policy = true ->
  windowed policy h count start -> Forall (fun x => x.1 <= t) h ->
  let '(d, (count', start')) := window_step policy t (Some (count, start)) in
  windowed policy (h ++ [(t, d)]) count' start' /\
  (allowed d = false -> max_requests policy <= let_in (t - window_ns policy + 1) (t + 1) h) /\
  (forall t0 d0, last h = Some (t0, d0) -> allowed d0 = false -> t0 + retry_after_ms d0 * 1000000 <= t -> allowed d = true).
Proof.
  intros Hv Hw Ht. pose proof (valid_policy _ Hv) as [Hm Hs]. pose proof Hw as [(old & cur & -> & Hne & Hold & Hcur & Hc & Hprev) Hfull Hbound Hretry].
  assert (0 < window_ns policy) as Hpos by (unfold window_ns; lia).
  simpl. fold (window_ns policy). destruct (Z.leb_spec (window_ns policy) (t - start)) as [Hexp|Hrun].
  - rewrite (proj2 (Z.leb_gt _ _)) by lia. split; [|by split]. change (0 + 1) with 1. apply windowed_start; [done|done| | |done].
    + apply Forall_app. split; [eapply Forall_impl; [exact Hold|]|eapply Forall_impl; [exact Hcur|]]; simpl; lia.
    + intros from Hf. rewrite let_in_app, (let_in_none _ _ old) by (eapply Forall_impl; [exact Hold|]; simpl; lia).
      assert (let_in from t cur <= let_in start (start + window_ns policy) cur) by (apply let_in_mono; eapply Forall_impl; [exact Hcur|]; simpl; lia). lia.
  - assert (start <= t) as Hst.
    { destruct cur as [|x cur]; [done|]. rewrite Forall_app, !Forall_cons in *. destruct Ht as (_ & Ht & _), Hcur as [Hx _]. lia. }
    destruct (Z.leb_spec (max_requests policy) count) as [Hmax|Hless].
    + pose proof (remaining_ms policy start t Hs ltac:(lia)) as Hr. split_and!.
      * apply (windowed_more policy _ count start t (Decision_ false _ _ _ _ _ _ _ _)); [done|done|lia|exact Hr].
      * intros _. rewrite let_in_app. assert (0 <= let_in (t - window_ns policy + 1) (t + 1) old) by (unfold let_in; lia).
        assert (let_in start (start + window_ns policy) cur <= let_in (t - window_ns policy + 1) (t + 1) cur); [|lia].
        apply let_in_mono. apply Forall_app in Ht as [_ Ht]. apply Forall_forall. intros x Hx. rewrite Forall_forall in Ht, Hcur. specialize (Ht x Hx). specialize (Hcur x Hx). simpl in *. lia.
      * intros t0 d0 Hl Ha Hlate. destruct (Hretry t0 d0 Hl Ha) as [_ Hend]. lia.
    + split; [|by split]. apply (windowed_more policy _ count start t (Decision_ true _ _ _ _ _ _ _ _)); [done|done|lia|done].
Qed.

(** * The engine on counters *)

Record Request : Type := {
  rq_now : Z;
  rq_ip_bucket : string;
  rq_target : string;
  rq_user_bucket : string;
  rq_policy_target : string
}.

Inductive EngineCall : Type := call_check (r : Request) | call_reset.

(** The calls of an engine one after the other, with the answers of the checks. *)
Fixpoint engine_run (MaxBuckets : nat) (calls : list EngineCall) (e : RateLimitEngine)
    : list (Request * RateLimitDecision) * RateLimitEngine :=
  match calls with
  | [] => ([], e)
  | call_reset :: calls => engine_run MaxBuckets calls (reset e)
  | call_check r :: calls =>
      let '(d, e) := check MaxBuckets (rq_now r) (rq_ip_bucket r) (rq_target r) (rq_user_bucket r) (rq_policy_target r) e in
      let '(log, e) := engine_run MaxBuckets calls e in
      ((r, d) :: log, e)
  end.

Definition spec_check (MaxBuckets : nat) (config : RateLimitConfig) (r : Request) (st : Counters * Counters)
    : RateLimitDecision * (Counters * Counters) :=
  let per_ip := resolve_per_ip_policy config (rq_target r) (rq_policy_target r) in
  let per_user := resolve_per_user_policy config (rq_target r) (rq_policy_target r) in
  match per_ip with
  | None => (Decision_ false 0 0 0 0 0 0 0 "invalid_policy", st)
  | Some ip_policy =>
      let '(ip_decision, ips) := spec_check_bucket MaxBuckets (rq_ip_bucket r) per_ip (rq_now r) st.1 in
      let '(user_decision, users) := spec_check_bucket MaxBuckets (rq_user_bucket r) per_user (rq_now r) st.2 in
      (combine_decisions ip_policy per_user ip_decision user_decision, (ips, users))
  end.

Fixpoint spec_run (MaxBuckets : nat) (config : RateLimitConfig) (calls : list EngineCall) (st : Counters * Counters)
    : list (Request * RateLimitDecision) * (Counters * Counters) :=
  match calls with
  | [] => ([], st)
  | call_reset :: calls => spec_run MaxBuckets config calls ([], [])
  | call_check r :: calls =>
      let '(d, st) := spec_check MaxBuckets config r st in
      let '(log, st) := spec_run MaxBuckets config calls st in
      ((r, d) :: log, st)
  end.

Definition engine_represents (MaxBuckets : nat) (e : RateLimitEngine) (st : Counters * Counters) : Prop :=
  represents MaxBuckets (m_ip_buckets e) (m_ip_lru e) st.1 /\ represents MaxBuckets (m_user_buckets e) (m_user_lru e) st.2.

(** The policies of a configuration are pairs of [std::uint32_t]. *)
Definition config_in_range (config : RateLimitConfig) : Prop :=
  Forall (Forall (fun entry => policy_in_range entry.2)) [builtin_per_ip config; builtin_per_user config; per_ip config;
    per_user config; tier_overrides config] /\ policy_in_range (default_per_ip config).

Lemma lookup_in_range table target policy_target p : Forall (fun entry => policy_in_range entry.2) table ->
  lookup_policy table target policy_target = Some p -> policy_in_range p.
Proof.
  intros Ht Hl. pose proof (lookup_policy_spec table target policy_target) as Hs. rewrite Hl in Hs.
  destruct Hs as (key & Hin & _). rewrite Forall_forall in Ht. by apply (Ht _ Hin).
Qed.

Lemma find_in_range table name p : Forall (fun entry => policy_in_range entry.2) table ->
  table_find name table = Some p -> policy_in_range p.
Proof.
  unfold table_find. induction 1 as [|[k q] table Hq _ IH]; [done|]. simpl. destruct (String.eqb k name); simpl; [by intros [= <-]|done].
Qed.

Lemma valid_or_nullopt_some q p : valid_or_nullopt q = Some p -> p = q.
Proof. unfold valid_or_nullopt. case_match; naive_solver. Qed.

Lemma ip_policy_in_range config target policy_target p : config_in_range config ->
  resolve_per_ip_policy config target policy_target = Some p -> policy_in_range p.
Proof.
  unfold config_in_range. rewrite !Forall_cons. intros [(Hb & _ & Hi & _ & Ht & _) Hd]. unfold resolve_per_ip_policy.
  destruct (lookup_policy (per_ip config) _ _) eqn:H1; [intros ->%valid_or_nullopt_some; by eapply lookup_in_range, H1|].
  destruct (table_find _ _) eqn:H2; [intros ->%valid_or_nullopt_some; by eapply find_in_range, H2|].
  destruct (lookup_policy (builtin_per_ip config) _ _) eqn:H3; [intros ->%valid_or_nullopt_some; by eapply lookup_in_range, H3|].
  case_bool_decide; [by intros ->%valid_or_nullopt_some|]. intros [= <-]. unfold policy_in_range. by destruct (rate_limit_tier_for _).
Qed.

Lemma user_policy_in_range config target policy_target p : config_in_range config ->
  resolve_per_user_policy config target policy_target = Some p -> policy_in_range p.
Proof.
  unfold config_in_range. rewrite !Forall_cons. intros [(_ & Hb & _ & Hu & _) _]. unfold resolve_per_user_policy.
  destruct (lookup_policy (per_user config) _ _) eqn:H1.
  - case_match; [done|]. intros [= <-]. by eapply lookup_in_range, H1.
  - destruct (lookup_policy (builtin_per_user config) _ _) eqn:H2; [|done]. case_match; [done|]. intros [= <-]. by eapply lookup_in_range, H2.
Qed.

Lemma check_bucket_empty MaxBuckets table lru policy now :
  check_bucket MaxBuckets table "" lru policy now = (Decision_ true 0 0 0 0 0 0 0 "", (table, lru)).
Proof. by destruct policy. Qed.

Lemma check_refines MaxBuckets r e st : (0 < MaxBuckets)%nat -> config_in_range (m_config e) -> engine_represents MaxBuckets e st ->
  let '(d, e') := check MaxBuckets (rq_now r) (rq_ip_bucket r) (rq_target r) (rq_user_bucket r) (rq_policy_target r) e in
  exists st', spec_check MaxBuckets (m_config e) r st = (d, st') /\ engine_represents MaxBuckets e' st' /\ m_config e' = m_config e.
Proof.
  intros Hpos Hcfg [Hip Huser]. unfold check, spec_check.
  destruct (resolve_per_ip_policy _ _ _) as [p|] eqn:Hp; [|by eexists].
  assert (forall key table lru policy, (if empty key then (Decision_ true 0 0 0 0 0 0 0 "", (table, lru))
      else check_bucket MaxBuckets table key lru policy (rq_now r)) = check_bucket MaxBuckets table key lru policy (rq_now r)) as Hempty.
  { intros key table lru policy. destruct key; simpl; [by rewrite check_bucket_empty|done]. }
  rewrite !Hempty. clear Hempty.
  pose proof (check_bucket_refines _ _ _ _ (rq_ip_bucket r) (Some p) (rq_now r) Hpos Hip) as H1.
  pose proof (check_bucket_refines _ _ _ _ (rq_user_bucket r) (resolve_per_user_policy (m_config e) (rq_target r) (rq_policy_target r))
    (rq_now r) Hpos Huser) as H2.
  destruct (check_bucket _ (m_ip_buckets e) _ _ _ _) as [d1 [t1 l1]].
  destruct (check_bucket _ (m_user_buckets e) _ _ _ _) as [d2 [t2 l2]].
  destruct H1 as (c1 & -> & H1). { intros ? [= <-]. by eapply ip_policy_in_range. }
  destruct H2 as (c2 & -> & H2). { intros q. by apply user_policy_in_range. }
  eexists. split; [reflexivity|]. by split.
Qed.

Lemma engine_run_refines MaxBuckets calls e st : (0 < MaxBuckets)%nat -> config_in_range (m_config e) -> engine_represents MaxBuckets e st ->
  let '(log, e') := engine_run MaxBuckets calls e in
  exists st', spec_run MaxBuckets (m_config e) calls st = (log, st') /\ engine_represents MaxBuckets e' st'.
Proof.
  intros Hpos. revert e st. induction calls as [|[r|] calls IH]; intros e st Hcfg Hrep; simpl; [by exists st| |].
  - pose proof (check_refines MaxBuckets r e st Hpos Hcfg Hrep) as Hc. destruct (check _ _ _ _ _ _ e) as [d e1].
    destruct Hc as (st1 & -> & Hrep1 & He1). rewrite <- He1 in Hcfg. specialize (IH e1 st1 Hcfg Hrep1).
    destruct (engine_run _ _ _) as [log e2]. rewrite He1 in IH. destruct IH as (st2 & -> & H2). by exists st2.
  - apply (IH (reset e)); [done|]. split; apply represents_empty.
Qed.

Lemma new_engine_represents MaxBuckets config : engine_represents MaxBuckets (new_engine config) ([], []).
Proof. split; apply represents_empty. Qed.

(** * The counter of one key *)

Inductive Side : Type := by_ip | by_user.

Definition bucket_of (side : Side) (r : Request) : string :=
  match side with by_ip => rq_ip_bucket r | by_user => rq_user_bucket r end.

Definition side_policy (side : Side) (config : RateLimitConfig) (r : Request) : option RateLimitPolicy :=
  match side with
  | by_ip => resolve_per_ip_policy config (rq_target r) (rq_policy_target r)
  | by_user => resolve_per_user_policy config (rq_target r) (rq_policy_target r)
  end.

Definition cap_reason (side : Side) : string := match side with by_ip => "per_ip_cap" | by_user => "per_user_cap" end.

Definition side_counters (side : Side) (st : Counters * Counters) : Counters := match side with by_ip => st.1 | by_user => st.2 end.

(** What the answer of the engine shows of the answer of the bucket. *)
Definition shows (side : Side) (x : Request * RateLimitDecision) (y : Z * RateLimitDecision) : Prop :=
  y.1 = rq_now x.1 /\ (allowed x.2 = true -> allowed y.2 = true) /\
  (deny_reason x.2 = cap_reason side -> allowed y.2 = false /\ retry_after_ms y.2 = retry_after_ms x.2).

Lemma spec_check_side MaxBuckets config side r st :
  let '(d, st') := spec_check MaxBuckets config r st in
  match resolve_per_ip_policy config (rq_target r) (rq_policy_target r) with
  | None => st' = st /\ d = Decision_ false 0 0 0 0 0 0 0 "invalid_policy"
  | Some _ => exists y, spec_check_bucket MaxBuckets (bucket_of side r) (side_policy side config r) (rq_now r) (side_counters side st)
      = (y, side_counters side st') /\ shows side (r, d) (rq_now r, y)
  end.
Proof.
  unfold spec_check. destruct (resolve_per_ip_policy _ _ _) as [p|] eqn:Hp; [|done].
  destruct (spec_check_bucket _ (rq_ip_bucket r) _ _ _) as [d1 c1] eqn:H1. destruct (spec_check_bucket _ (rq_user_bucket r) _ _ _) as [d2 c2] eqn:H2.
  exists (match side with by_ip => d1 | by_user => d2 end). split; [destruct side; simpl; by rewrite ?Hp|].
  unfold shows, combine_decisions. simpl. split; [done|].
  destruct (allowed d2) eqn:Ha2; simpl; [destruct (allowed d1) eqn:Ha1; simpl|]; destruct side; naive_solver.
Qed.

Definition own (side : Side) (key : string) (log : list (Request * RateLimitDecision)) : list (Request * RateLimitDecision) :=
  filter (fun x => bucket_of side x.1 = key) log.

Definition buckets (side : Side) (rs : list Request) : list string := bucket_of side <$> rs.

(** The counter of the key after a log: where it stands in the list and what it has counted. *)
Definition tracked (MaxBuckets : nat) (side : Side) (key : string) (policy : RateLimitPolicy)
    (log : list (Request * RateLimitDecision)) (counters : Counters) : Prop :=
  NoDup counters.*1 /\
  if bool_decide (own side key log = []) then key ∉ counters.*1
  else exists h count start before after earlier r d later,
    counters = before ++ (key, (count, start)) :: after /\ windowed policy h count start /\ Forall2 (shows side) (own side key log) h /\
    log = earlier ++ (r, d) :: later /\ bucket_of side r = key /\ (key ∉ buckets side (later.*1)) /\ after.*1 ⊆ buckets side (later.*1).

Lemma counter_none key counters : counter key counters = None <-> key ∉ counters.*1.
Proof.
  unfold counter. induction counters as [|[k c] counters IH]; simpl; [split; [intros _; apply not_elem_of_nil|done]|].
  rewrite not_elem_of_cons. destruct (String.eqb_spec k key) as [->|]; simpl; [naive_solver|]. rewrite IH. naive_solver.
Qed.

Lemma counter_at key before c after : NoDup (before ++ (key, c) :: after).*1 ->
  counter key (before ++ (key, c) :: after) = Some c.
Proof.
  intros Hn. unfold counter. induction before as [|[k b] before IH]; simpl in *; [by rewrite String.eqb_refl|].
  apply NoDup_cons in Hn as [Hk Hn]. destruct (String.eqb_spec k key) as [->|]; [|by apply IH].
  exfalso. apply Hk. rewrite fmap_app. set_solver.
Qed.

Lemma others_keys key counters : (others key counters).*1 = filter (fun k => k <> key) counters.*1.
Proof. unfold others. symmetry. by apply filter_map. Qed.

(** Whatever a check does to the list, no key is listed twice and a key is only new when it is asked for. *)
Lemma spec_bucket_keys MaxBuckets key policy now counters : NoDup counters.*1 ->
  NoDup (spec_bucket MaxBuckets key policy now counters).2.*1 /\
  (spec_bucket MaxBuckets key policy now counters).2.*1 ⊆ key :: counters.*1.
Proof.
  intros Hn. unfold spec_bucket. destruct (window_step _ _ _) as [d c]. simpl. rewrite fmap_app. simpl.
  destruct (counter key counters) eqn:Hc.
  - rewrite others_keys. split.
    + apply NoDup_app. split_and!; [by apply NoDup_filter| |apply NoDup_singleton]. intros k [Hk _]%list_elem_of_filter. set_solver.
    + intros k [[_ Hk]%list_elem_of_filter|Hk]%elem_of_app; set_solver.
  - apply counter_none in Hc. case_match.
    + destruct counters as [|x counters]; simpl in *; [split; [apply NoDup_singleton|set_solver]|]. apply NoDup_cons in Hn as [_ Hn].
      split; [|set_solver]. apply NoDup_app. split_and!; [done|set_solver|apply NoDup_singleton].
    + split; [|set_solver]. apply NoDup_app. split_and!; [done|set_solver|apply NoDup_singleton].
Qed.

Lemma own_snoc side key log r d : own side key (log ++ [(r, d)]) =
  own side key log ++ (if decide (bucket_of side r = key) then [(r, d)] else []).
Proof. unfold own. by rewrite filter_app, filter_cons. Qed.

Lemma buckets_snoc side (log : list (Request * RateLimitDecision)) r d :
  buckets side (log ++ [(r, d)]).*1 = buckets side log.*1 ++ [bucket_of side r].
Proof. unfold buckets. by rewrite !fmap_app. Qed.

Lemma distinct_le (l k : list string) : NoDup l -> l ⊆ k -> (length l <= length (remove_dups k))%nat.
Proof. intros Hn Hs. apply submseteq_length, NoDup_submseteq; [done|]. intros x Hx. by apply elem_of_remove_dups, Hs. Qed.

(** A request of another key that leaves the list alone. *)
Lemma tracked_idle MaxBuckets side key policy log counters r d : bucket_of side r <> key ->
  tracked MaxBuckets side key policy log counters -> tracked MaxBuckets side key policy (log ++ [(r, d)]) counters.
Proof.
  intros Hne [Hn Ht]. split; [done|]. rewrite own_snoc, decide_False, app_nil_r by done. case_bool_decide; [done|].
  destruct Ht as (h & count & start & before & after & earlier & r0 & d0 & later & -> & Hw & Hs & -> & Hr & Hk & Ha).
  exists h, count, start, before, after, earlier, r0, d0, (later ++ [(r, d)]). rewrite buckets_snoc. split_and!; try done.
  - by rewrite <- app_assoc.
  - set_solver.
  - set_solver.
Qed.

(** The key keeps its place while fewer than [MaxBuckets] other keys are asked for. *)
Definition recently_used (MaxBuckets : nat) (side : Side) (key : string) (rs : list Request) : Prop :=
  forall earlier r later rest, rs = earlier ++ r :: later ++ rest -> bucket_of side r = key -> key ∉ buckets side later ->
    (length (remove_dups (buckets side later)) < MaxBuckets)%nat.

Lemma tracked_other MaxBuckets side key policy log counters r d p : bucket_of side r <> key ->
  recently_used MaxBuckets side key (log.*1 ++ [r]) ->
  tracked MaxBuckets side key policy log counters ->
  tracked MaxBuckets side key policy (log ++ [(r, d)]) (spec_bucket MaxBuckets (bucket_of side r) p (rq_now r) counters).2.
Proof.
  intros Hne Hused Ht. pose proof (tracked_idle _ _ _ _ _ _ r d Hne Ht) as [Hn Hidle].
  destruct (spec_bucket_keys MaxBuckets (bucket_of side r) p (rq_now r) counters Hn) as [Hn' Hsub].
  split; [done|]. case_bool_decide as Hown; [intros Hin; apply Hsub in Hin; set_solver|].
  destruct Hidle as (h & count & start & before & after & earlier & r0 & d0 & later & -> & Hw & Hs & Hlog & Hr & Hk & Ha).
  assert (exists later', later = later' ++ [(r, d)] /\ log = earlier ++ (r0, d0) :: later') as (later' & -> & ->).
  { destruct (exists_last (l := later)) as (later' & x & ->).
    - intros ->. change ((r0, d0) :: []) with ([] ++ [(r0, d0)]) in Hlog. simpl in Hlog. apply app_inj_tail in Hlog as [_ [= -> _]]. done.
    - exists later'. replace (earlier ++ (r0, d0) :: later' ++ [x]) with ((earlier ++ (r0, d0) :: later') ++ [x]) in Hlog by (by rewrite <- app_assoc).
      apply app_inj_tail in Hlog as [-> ->]. done. }
  rewrite buckets_snoc in *.
  assert (exists before' after', (spec_bucket MaxBuckets (bucket_of side r) p (rq_now r) (before ++ (key, (count, start)) :: after)).2
    = before' ++ (key, (count, start)) :: after' /\ after'.*1 ⊆ buckets side later'.*1 ++ [bucket_of side r]) as (before' & after' & -> & Ha').
  { unfold spec_bucket. destruct (window_step _ _ _) as [y c]. simpl. destruct (counter (bucket_of side r) _) eqn:Hc.
    - unfold others. rewrite filter_app, filter_cons, decide_True by (simpl; congruence). fold (others (bucket_of side r) after).
      exists (others (bucket_of side r) before), (others (bucket_of side r) after ++ [(bucket_of side r, c)]).
      split; [by rewrite <- app_assoc|]. rewrite fmap_app, others_keys. simpl. intros k [[_ Hin]%list_elem_of_filter|Hin]%elem_of_app; set_solver.
    - apply counter_none in Hc. destruct (Nat.leb_spec MaxBuckets (length (before ++ (key, (count, start)) :: after))) as [Hfull|_].
      + destruct before as [|b before]; simpl in *.
        * exfalso. apply NoDup_cons in Hn as [_ Hn].
          specialize (Hused earlier.*1 r0 (later'.*1 ++ [r]) []). 
          assert (length (bucket_of side r :: after.*1) <= length (remove_dups (buckets side later'.*1 ++ [bucket_of side r])))%nat as Hd.
          { apply distinct_le; [apply NoDup_cons; set_solver|set_solver]. }
          unfold buckets in *. rewrite fmap_app in Hused. simpl in *. rewrite length_fmap in Hd.
          rewrite fmap_app, fmap_cons in Hused. simpl in Hused. 
          specialize (Hused ltac:(by rewrite app_nil_r, <- app_assoc) Hr Hk). lia.
        * exists before, (after ++ [(bucket_of side r, c)]). split; [by rewrite <- app_assoc|]. rewrite fmap_app. simpl. set_solver.
      + exists before, (after ++ [(bucket_of side r, c)]). split; [by rewrite <- app_assoc|]. rewrite fmap_app. simpl. set_solver. }
  exists h, count, start, before', after', earlier, r0, d0, (later' ++ [(r, d)]). rewrite buckets_snoc.
  by split_and!.
Qed.

Lemma tracked_own MaxBuckets side key policy log counters r d : bucket_of side r = key ->
  rate_limit_policy_is_valid policy = true -> Forall (fun x => rq_now x.1 <= rq_now r) log ->
  tracked MaxBuckets side key policy log counters ->
  let '(y, counters') := spec_bucket MaxBuckets key policy (rq_now r) counters in
  shows side (r, d) (rq_now r, y) ->
  tracked MaxBuckets side key policy (log ++ [(r, d)]) counters'.
Proof.
  intros Hr Hv Htime [Hn Ht]. pose proof (spec_bucket_keys MaxBuckets key policy (rq_now r) counters Hn) as [Hn' _].
  unfold spec_bucket in *. destruct (window_step policy (rq_now r) (counter key counters)) as [y [count' start']] eqn:Hstep.
  intros Hshow. split; [done|]. rewrite own_snoc, decide_True by done. rewrite bool_decide_false by (by intros [_ ?]%app_eq_nil).
  assert (exists h, windowed policy (h ++ [(rq_now r, y)]) count' start' /\ Forall2 (shows side) (own side key log) h) as (h & Hw & Hs).
  { case_bool_decide as Hown.
    - exists []. apply counter_none in Ht. rewrite Ht in Hstep. pose proof (windowed_first policy (rq_now r) Hv) as Hf.
      rewrite Hstep in Hf. rewrite Hown. split; [by destruct Hf|constructor].
    - destruct Ht as (h & count & start & before & after & earlier & r0 & d0 & later & -> & Hw & Hs & _).
      exists h. split; [|done]. rewrite counter_at in Hstep by done.
      pose proof (windowed_next policy h count start (rq_now r) Hv Hw) as Hnext. rewrite Hstep in Hnext. apply Hnext.
      apply Forall_forall. intros y' Hy. destruct (Forall2_in_r _ _ _ _ Hs Hy) as (x & [_ Hx]%list_elem_of_filter & Hsh & _).
      rewrite Forall_forall in Htime. rewrite Hsh. by apply Htime. }
  eexists (h ++ [(rq_now r, y)]), count', start', _, [], log, r, d, []. split_and!; [reflexivity|done| |done|done|apply not_elem_of_nil|done].
  apply Forall2_app; [done|]. by constructor.
Qed.

(** The requests of a run: in the order of the clock, and those of the key with one policy. *)
Record steady (MaxBuckets : nat) (config : RateLimitConfig) (side : Side) (key : string) (policy : RateLimitPolicy)
    (rs : list Request) : Prop := {
  steady_time : StronglySorted Z.le (rq_now <$> rs);
  steady_policy : forall r, r ∈ rs -> bucket_of side r = key ->
    resolve_per_ip_policy config (rq_target r) (rq_policy_target r) <> None /\ side_policy side config r = Some policy;
  steady_used : recently_used MaxBuckets side key rs
}.

Lemma steady_prefix MaxBuckets config side key policy rs rs' :
  steady MaxBuckets config side key policy (rs ++ rs') -> steady MaxBuckets config side key policy rs.
Proof.
  intros [Ht Hp Hu]. split.
  - rewrite fmap_app in Ht. by eapply StronglySorted_app_1_l.
  - intros r Hr. apply Hp. set_solver.
  - intros earlier r later rest ->. apply (Hu earlier r later (rest ++ rs')). rewrite <- app_assoc. simpl. by rewrite <- app_assoc.
Qed.

Lemma steady_last MaxBuckets config side key policy rs r : steady MaxBuckets config side key policy (rs ++ [r]) ->
  Forall (fun r' => rq_now r' <= rq_now r) rs.
Proof.
  intros [Ht _ _]. rewrite fmap_app in Ht. apply Forall_forall. intros r' Hr.
  eapply (StronglySorted_app_1_elem_of Z.le); [exact Ht|by apply list_elem_of_fmap_2|simpl; set_solver].
Qed.

Definition checks (rs : list Request) : list EngineCall := call_check <$> rs.

Lemma spec_run_snoc MaxBuckets config rs r st :
  spec_run MaxBuckets config (checks (rs ++ [r])) st =
    let '(log, st1) := spec_run MaxBuckets config (checks rs) st in
    let '(d, st2) := spec_check MaxBuckets config r st1 in (log ++ [(r, d)], st2).
Proof.
  revert st. induction rs as [|r0 rs IH]; intros st; simpl; [by destruct (spec_check _ _ _ _)|].
  destruct (spec_check _ _ r0 st) as [d0 st0]. fold (checks (rs ++ [r])). fold (checks rs). rewrite IH.
  destruct (spec_run _ _ _ st0) as [log st1]. by destruct (spec_check _ _ r st1).
Qed.

(** The requests of a key in a log, at a time from [from] on and before [until]: all of them, and those let in. *)
Definition asked (side : Side) (key : string) (from until : Z) (log : list (Request * RateLimitDecision)) : Z :=
  Z.of_nat (length (filter (fun x => bucket_of side x.1 = key /\ from <= rq_now x.1 < until) log)).

Definition let_through (side : Side) (key : string) (from until : Z) (log : list (Request * RateLimitDecision)) : Z :=
  Z.of_nat (length (filter (fun x => bucket_of side x.1 = key /\ allowed x.2 = true /\ from <= rq_now x.1 < until) log)).

Lemma shows_counts side key from until log h : Forall2 (shows side) (own side key log) h ->
  let_through side key from until log <= let_in from until h <= asked side key from until log.
Proof.
  unfold let_through, let_in, asked, own. revert h. induction log as [|[r d] log IH]; intros h.
  { intros Hh. inversion Hh. simpl. lia. }
  rewrite !filter_cons. simpl. destruct (decide (bucket_of side r = key)) as [Hr|Hr].
  - intros Hh. inversion Hh as [|? [t y] ? h' (Ht & Ha & _) Hrest]; subst. simpl in *. subst t. specialize (IH h' Hrest).
    rewrite filter_cons. simpl. repeat case_decide; simpl; naive_solver lia.
  - intros Hh. specialize (IH h Hh). repeat case_decide; naive_solver lia.
Qed.

Lemma own_last side key log r d later : bucket_of side r = key -> key ∉ buckets side later.*1 ->
  own side key (log ++ (r, d) :: later) = own side key log ++ [(r, d)].
Proof.
  intros Hr Hl. unfold own. rewrite filter_app, filter_cons, decide_True by done.
  assert (filter (fun x : Request * RateLimitDecision => bucket_of side x.1 = key) later = []) as ->; [|done].
  apply elem_of_nil_inv. intros x [Hx Hin]%list_elem_of_filter. apply Hl. rewrite <- Hx. unfold buckets.
  by do 2 apply list_elem_of_fmap_2.
Qed.

Lemma Forall2_last {A B} (P : A -> B -> Prop) l x k : Forall2 P (l ++ [x]) k -> exists k' y, k = k' ++ [y] /\ P x y.
Proof.
  intros Hl. apply Forall2_app_inv_l in Hl as (k1 & k2 & _ & H2 & ->). inversion H2 as [|? y ? ? Hy Hn]; subst. inversion Hn; subst. by exists k1, y.
Qed.

Section run.
Context (MaxBuckets : nat) (config : RateLimitConfig) (side : Side) (key : string) (policy : RateLimitPolicy).
Hypothesis Hkey : key <> EmptyString.
Hypothesis Hvalid : rate_limit_policy_is_valid policy = true.

Lemma spec_check_own r st : bucket_of side r = key ->
  resolve_per_ip_policy config (rq_target r) (rq_policy_target r) <> None -> side_policy side config r = Some policy ->
  let '(d, st') := spec_check MaxBuckets config r st in
  exists y, spec_bucket MaxBuckets key policy (rq_now r) (side_counters side st) = (y, side_counters side st') /\ shows side (r, d) (rq_now r, y).
Proof.
  intros Hr Hres Hpol. pose proof (spec_check_side MaxBuckets config side r st) as Hs. destruct (spec_check _ _ _ _) as [d st'].
  destruct (resolve_per_ip_policy _ _ _); [|done]. rewrite Hpol, Hr in Hs. simpl in Hs. apply empty_false in Hkey. by rewrite Hkey in Hs.
Qed.

Lemma run_tracked rs : steady MaxBuckets config side key policy rs ->
  let '(log, st) := spec_run MaxBuckets config (checks rs) ([], []) in
  log.*1 = rs /\ tracked MaxBuckets side key policy log (side_counters side st).
Proof.
  induction rs as [|r rs IH] using rev_ind; intros Hst.
  { simpl. split; [done|]. split; destruct side; simpl; (apply NoDup_nil_2 || apply not_elem_of_nil). }
  rewrite spec_run_snoc. specialize (IH (steady_prefix _ _ _ _ _ _ _ Hst)). pose proof (steady_last _ _ _ _ _ _ _ Hst) as Htime.
  destruct (spec_run _ _ (checks rs) _) as [log st]. destruct IH as [<- Htr].
  destruct (decide (bucket_of side r = key)) as [Hr|Hr].
  - destruct (steady_policy _ _ _ _ _ _ Hst r ltac:(set_solver) Hr) as [Hres Hpol].
    pose proof (spec_check_own r st Hr Hres Hpol) as Hs. destruct (spec_check _ _ r st) as [d st']. destruct Hs as (y & Hb & Hshow).
    split; [by rewrite fmap_app|]. pose proof (tracked_own MaxBuckets side key policy log (side_counters side st) r d Hr Hvalid) as Ho.
    rewrite Forall_fmap in Htime. specialize (Ho Htime Htr). rewrite Hb in Ho. by apply Ho.
  - pose proof (spec_check_side MaxBuckets config side r st) as Hs. destruct (spec_check _ _ r st) as [d st'].
    split; [by rewrite fmap_app|]. destruct (resolve_per_ip_policy _ _ _); [|destruct Hs as [-> _]; by apply tracked_idle].
    destruct Hs as (y & Hb & _). unfold spec_check_bucket in Hb. destruct (side_policy side config r) as [p|].
    + destruct (empty (bucket_of side r)); [injection Hb as _ <-; by apply tracked_idle|].
      pose proof (tracked_other MaxBuckets side key policy log (side_counters side st) r d p Hr (steady_used _ _ _ _ _ _ Hst) Htr) as Ho.
      by rewrite Hb in Ho.
    + injection Hb as _ <-. by apply tracked_idle.
Qed.

(** A refusal for the cap of the key: as many requests as allowed are in the last
    window, and the time to wait ends with the window. *)
Lemma run_refusal rs r : steady MaxBuckets config side key policy (rs ++ [r]) -> bucket_of side r = key ->
  let '(log, st) := spec_run MaxBuckets config (checks rs) ([], []) in
  let '(d, _) := spec_check MaxBuckets config r st in
  deny_reason d = cap_reason side ->
  max_requests policy <= asked side key (rq_now r - window_ns policy + 1) (rq_now r + 1) log /\
  0 < retry_after_ms d <= window_seconds policy * 1000 /\
  forall earlier r0 d0 later, log = earlier ++ (r0, d0) :: later -> bucket_of side r0 = key -> key ∉ buckets side later.*1 ->
    deny_reason d0 = cap_reason side -> rq_now r < rq_now r0 + retry_after_ms d0 * 1000000.
Proof.
  intros Hst Hr. pose proof (run_tracked rs (steady_prefix _ _ _ _ _ _ _ Hst)) as Ht. pose proof (steady_last _ _ _ _ _ _ _ Hst) as Htime.
  destruct (steady_policy _ _ _ _ _ _ Hst r ltac:(set_solver) Hr) as [Hres Hpol].
  destruct (spec_run _ _ _ _) as [log st]. destruct Ht as [<- [Hn Ht]].
  pose proof (spec_check_own r st Hr Hres Hpol) as Hs. destruct (spec_check _ _ r st) as [d st'].
  destruct Hs as (y & Hb & _ & _ & Hshow). intros Hd. destruct (Hshow Hd) as [Hy Hretry]. simpl in Hy, Hretry. clear Hshow.
  unfold spec_bucket in Hb. destruct (window_step _ _ _) as [y' [count' start']] eqn:Hstep. injection Hb as -> _.
  case_bool_decide as Hown.
  { apply counter_none in Ht. rewrite Ht in Hstep. pose proof (windowed_first policy (rq_now r) Hvalid) as Hf. rewrite Hstep in Hf. destruct Hf. congruence. }
  destruct Ht as (h & count & start & before & after & e & r1 & d1 & l & Hc & Hw & Hs & _). rewrite Hc in Hstep, Hn.
  rewrite counter_at in Hstep by done. pose proof (windowed_next policy h count start (rq_now r) Hvalid Hw) as Hnext. rewrite Hstep in Hnext.
  destruct Hnext as (Hw' & Hmax & Hlate).
  { apply Forall_forall. intros z Hz. destruct (Forall2_in_r _ _ _ _ Hs Hz) as (x & [_ Hx]%list_elem_of_filter & -> & _).
    rewrite Forall_fmap, Forall_forall in Htime. by apply Htime. }
  split; [|split].
  - etrans; [by apply Hmax|]. by apply shows_counts.
  - rewrite <- Hretry. apply (windowed_retry _ _ _ _ Hw' (rq_now r)); [apply last_snoc|done].
  - intros earlier r0 d0 later -> Hr0 Hlater Hd0. rewrite own_last in Hs by done.
    apply Forall2_last in Hs as (h' & [t0 y0] & -> & Ht0 & _ & Hsh). simpl in *. destruct (Hsh Hd0) as [Hy0 Hre]. subst t0.
    destruct (Z.lt_ge_cases (rq_now r) (rq_now r0 + retry_after_ms d0 * 1000000)) as [|Hge]; [done|].
    exfalso. rewrite <- Hre in Hge. rewrite (Hlate _ _ (last_snoc _ _) Hy0 Hge) in Hy. done.
Qed.

(** In a time of one window no more than twice the allowance is let in. *)
Lemma run_bound rs from : steady MaxBuckets config side key policy rs ->
  let_through side key from (from + window_ns policy) (spec_run MaxBuckets config (checks rs) ([], [])).1 <= 2 * max_requests policy.
Proof.
  intros Hst. pose proof (run_tracked rs Hst) as Ht. destruct (spec_run _ _ _ _) as [log st]. simpl. destruct Ht as [_ [_ Ht]].
  pose proof (valid_policy _ Hvalid) as [Hm _]. case_bool_decide as Hown.
  - pose proof (shows_counts side key from (from + window_ns policy) log []) as Hs. rewrite Hown in Hs. specialize (Hs ltac:(constructor)).
    change (let_in from (from + window_ns policy) []) with 0 in Hs. lia.
  - destruct Ht as (h & count & start & before & after & e & r & d & l & _ & Hw & Hs & _).
    pose proof (shows_counts side key from (from + window_ns policy) log h Hs). pose proof (windowed_bound _ _ _ _ Hw from). lia.
Qed.
End run.

Lemma spec_run_requests MaxBuckets config rs st : (spec_run MaxBuckets config (checks rs) st).1.*1 = rs.
Proof.
  revert st. induction rs as [|r rs IH]; intros st; [done|]. simpl. destruct (spec_check _ _ r st) as [d st1].
  specialize (IH st1). unfold checks in *. destruct (spec_run _ _ _ st1) as [log st2]. simpl in *.
  f_equal. exact IH.
Qed.

(** A log up to one of its answers is the log of the requests up to it. *)
Lemma spec_run_split MaxBuckets config rs st log1 r d log2 : (spec_run MaxBuckets config (checks rs) st).1 = log1 ++ (r, d) :: log2 ->
  exists st1 st2, spec_run MaxBuckets config (checks log1.*1) st = (log1, st1) /\ spec_check MaxBuckets config r st1 = (d, st2).
Proof.
  revert st rs. induction log1 as [|[r0 d0] log1 IH]; intros st rs; destruct rs as [|r1 rs]; try done; simpl; fold (checks rs).
  - destruct (spec_check _ _ r1 st) as [d1 st1] eqn:Hc. destruct (spec_run _ _ _ st1). simpl. intros [= -> -> _]. by exists st, st1.
  - destruct (spec_check _ _ r1 st) as [d1 st1] eqn:Hc. destruct (spec_run _ _ _ st1) as [l st3] eqn:Hrun.
    simpl. intros [= -> -> Hl]. rewrite Hc. destruct (IH st1 rs) as (sa & sb & Ha & Hb); [by rewrite Hrun|].
    exists sa, sb. split; [|done].
    change (list_fmap _ _ fst log1) with (log1.*1). by rewrite Ha.
Qed.

(** C34. The engine with its two bounded tables behaves as two lists of counters in
    the order of use.  For every sequence of checks and resets, every answer is
    the one the lists give: a known key is counted and moves to the end, a new
    key takes the place of the key unused for longest when [MaxBuckets] keys are
    held, and no counter passes 32 bits.  Every bucket points to the node of its
    own key, the table and the list hold the same keys, and neither table ever
    holds more than [MaxBuckets] of them. *)
Theorem rate_limit_engine_refines MaxBuckets config calls : (0 < MaxBuckets)%nat -> config_in_range config ->
  let '(log, e) := engine_run MaxBuckets calls (new_engine config) in
  exists st, spec_run MaxBuckets config calls ([], []) = (log, st) /\ engine_represents MaxBuckets e st /\
    ip_bucket_count e = length st.1 /\ user_bucket_count e = length st.2 /\
    (ip_bucket_count e <= MaxBuckets)%nat /\ (user_bucket_count e <= MaxBuckets)%nat.
Proof.
  intros Hpos Hcfg.
  pose proof (engine_run_refines MaxBuckets calls (new_engine config) ([], []) Hpos Hcfg (new_engine_represents _ _)) as Hr.
  destruct (engine_run _ _ _) as [log e]. destruct Hr as (st & Hrun & Hip & Huser). exists st. split; [done|]. split; [by split|].
  unfold ip_bucket_count, user_bucket_count.
  destruct (represents_size _ _ _ _ Hip) as [-> ?], (represents_size _ _ _ _ Huser) as [-> ?]. done.
Qed.

Lemma engine_log MaxBuckets config calls : (0 < MaxBuckets)%nat -> config_in_range config ->
  (engine_run MaxBuckets calls (new_engine config)).1 = (spec_run MaxBuckets config calls ([], [])).1.
Proof.
  intros Hpos Hcfg.
  pose proof (engine_run_refines MaxBuckets calls (new_engine config) ([], []) Hpos Hcfg (new_engine_represents _ _)) as Hr.
  destruct (engine_run _ _ _) as [log e]. destruct Hr as (st & Hrun & _). simpl in Hrun. by rewrite Hrun.
Qed.

(** C33. What a limit means to a client and to the server.  Take a bucket of a
    client or of a user whose requests all fall under one policy of so many
    requests in a window, with fewer than [MaxBuckets] other keys asked for
    between two of its requests.  In any stretch of time as long as the window
    the engine lets in at most twice the allowance of the bucket; it refuses for
    the cap of the bucket only when that many requests came within the last
    window; the answer then names a wait, no longer than the window; and the
    next request of the bucket, when it comes after that wait, is not refused
    for this cap. *)
Theorem rate_limits_hold MaxBuckets config side key policy rs : (0 < MaxBuckets)%nat -> config_in_range config ->
  key <> EmptyString -> rate_limit_policy_is_valid policy = true -> steady MaxBuckets config side key policy rs ->
  let log := (engine_run MaxBuckets (checks rs) (new_engine config)).1 in
  (forall from, let_through side key from (from + window_ns policy) log <= 2 * max_requests policy) /\
  (forall log1 r d log2, log = log1 ++ (r, d) :: log2 -> bucket_of side r = key -> deny_reason d = cap_reason side ->
     max_requests policy <= asked side key (rq_now r - window_ns policy + 1) (rq_now r + 1) log1 /\
     0 < retry_after_ms d <= window_seconds policy * 1000 /\
     forall log3 r0 d0 log4, log1 = log3 ++ (r0, d0) :: log4 -> bucket_of side r0 = key -> key ∉ buckets side log4.*1 ->
       deny_reason d0 = cap_reason side -> rq_now r < rq_now r0 + retry_after_ms d0 * 1000000).
Proof.
  intros Hpos Hcfg Hkey Hv Hst log. unfold log. rewrite engine_log by done. split; [intros from; by apply run_bound|].
  intros log1 r d log2 Hlog Hr Hd. destruct (spec_run_split _ _ _ _ _ _ _ _ Hlog) as (st1 & st2 & H1 & H2).
  pose proof (spec_run_requests MaxBuckets config rs ([], [])) as Hrs. rewrite Hlog in Hrs. rewrite fmap_app, fmap_cons in Hrs. simpl in Hrs.
  assert (steady MaxBuckets config side key policy (log1.*1 ++ [r])) as Hst'.
  { apply (steady_prefix _ _ _ _ _ _ log2.*1). rewrite <- app_assoc. simpl. by rewrite Hrs. }
  pose proof (run_refusal MaxBuckets config side key policy Hkey Hv log1.*1 r Hst' Hr) as Href. rewrite H1, H2 in Href. by apply Href.
Qed.

Lemma few_keys MaxBuckets side key rs : (length (remove_dups (buckets side rs)) <= MaxBuckets)%nat -> recently_used MaxBuckets side key rs.
Proof.
  intros Hfew earlier r later rest -> Hr Hlater.
  assert (length (key :: remove_dups (buckets side later)) <= length (remove_dups (buckets side (earlier ++ r :: later ++ rest))))%nat; [|simpl in *; lia].
  apply distinct_le.
  - apply NoDup_cons. split; [by rewrite elem_of_remove_dups|apply NoDup_remove_dups].
  - intros k Hk. unfold buckets in *. rewrite fmap_app, fmap_cons, fmap_app, Hr.
    rewrite elem_of_app, elem_of_cons, elem_of_app. apply elem_of_cons in Hk as [->|Hk]; [tauto|]. rewrite elem_of_remove_dups in Hk. tauto.
Qed.

(** Three requests of a client that may make two in a minute, and one more when the wait is over. *)
Definition sample_config : RateLimitConfig := to_http_rate_limit_config
  {| in_per_ip := [("/_matrix/client/v3/rooms", Policy 2 60)]; in_per_user := []; in_tier := []; in_default_per_ip := Policy 600 60 |}.

Definition sample_request (seconds : Z) (client : string) : Request :=
  {| rq_now := seconds * 1000000000; rq_ip_bucket := client; rq_target := "/_matrix/client/v3/rooms/{roomId}/send";
     rq_user_bucket := ""; rq_policy_target := "/_matrix/client/v3/rooms/!a:b/send" |}.

Definition sample_requests : list Request :=
  [sample_request 1 "10.0.0.1|send"; sample_request 2 "10.0.0.2|send"; sample_request 3 "10.0.0.1|send";
   sample_request 11 "10.0.0.1|send"; sample_request 61 "10.0.0.1|send"].

Lemma sample_in_range : config_in_range sample_config.
Proof. unfold config_in_range, policy_in_range. split; [|done]. cbn. by repeat (apply Forall_cons_2 || apply Forall_nil_2). Qed.

Lemma sample_steady : steady 2 sample_config by_ip "10.0.0.1|send" (Policy 2 60) sample_requests.
Proof.
  split.
  - repeat constructor; simpl; lia.
  - intros r Hr _. revert r Hr. apply Forall_forall. by repeat constructor.
  - apply few_keys. vm_compute. lia.
Qed.

Lemma rate_limits_hold_witness :
  let log := (engine_run 2 (checks sample_requests) (new_engine sample_config)).1 in
  (fun x => allowed x.2) <$> log = [true; true; true; false; true] /\
  let_through by_ip "10.0.0.1|send" 1000000000 61000000000 log <= 2 * 2.
Proof.
  intros log. split; [vm_compute; reflexivity|].
  apply (proj1 (rate_limits_hold 2 sample_config by_ip "10.0.0.1|send" (Policy 2 60) sample_requests ltac:(lia)
    sample_in_range ltac:(done) eq_refl sample_steady) 1000000000).
Defined.

Lemma rate_limit_engine_refines_witness :
  let calls := [call_reset] ++ checks sample_requests in
  (engine_run 1 calls (new_engine sample_config)).1 = (spec_run 1 sample_config calls ([], [])).1 /\
  ip_bucket_count (engine_run 1 calls (new_engine sample_config)).2 = 1%nat.
Proof.
  intros calls. split; [|vm_compute; reflexivity].
  pose proof (rate_limit_engine_refines 1 sample_config calls ltac:(lia) sample_in_range) as Hr.
  destruct (engine_run 1 calls (new_engine sample_config)) as [log e]. by destruct Hr as (st & -> & _).
Defined.
