(* ===== verification/Limiters.v ===== *)
(** Bounded numbers of operations in flight: http/InFlightBudget.cpp,
    http/ConnectionLimiter.cpp and push/GatewayInFlightLimiter.cpp.

    Each hands out slots that count until they are destroyed.  A program holds
    slots by name and makes one call after the other: every call runs under the
    mutex of its object, so the calls of many threads are one sequence.  The
    theorems say that the counts are those of the slots held, whatever the
    program does, and that no cap is passed. *)
From S2P Require Import Prelude CppStd.
Open Scope Z_scope.

(** * Counts by key *)

Abbreviation Counts := (gmap string Z).

(** A count is dropped with its last holder: [erase], or a decrement. *)
Definition count_down (key : string) (counts : Counts) : Counts :=
  match counts !! key with
  | None => counts
  | Some n => if n <=? 1 then delete key counts else <[key := n - 1]> counts
  end.

(** The counts are those of a list of keys: no more entries, and no entry of zero. *)
Definition tallied (counts : Counts) (keys : list string) : Prop :=
  forall k, counts !! k = match cnt k keys with O => None | S n => Some (Z.of_nat (S n)) end.

#[export] Instance cnt_perm (k : string) : Proper ((≡ₚ) ==> (=)) (cnt k).
Proof. intros l l' Hl. unfold cnt. by rewrite Hl. Qed.

#[export] Instance tallied_perm (counts : Counts) : Proper ((≡ₚ) ==> iff) (tallied counts).
Proof. intros l l' Hl. unfold tallied. split; intros H k; [rewrite <- Hl|rewrite Hl]; apply H. Qed.

Lemma tallied_nil : tallied ∅ [].
Proof. intros k. by rewrite lookup_empty. Qed.

Lemma tallied_none counts : tallied counts [] -> counts = ∅.
Proof. intros H. apply map_eq. intros k. rewrite (H k), lookup_empty. done. Qed.

Lemma tallied_count counts keys k : tallied counts keys -> default 0 (counts !! k) = Z.of_nat (cnt k keys).
Proof. intros H. rewrite (H k). by destruct (cnt k keys). Qed.

Lemma tallied_up counts keys key n : tallied counts keys -> n = Z.of_nat (cnt key keys) + 1 ->
  tallied (<[key := n]> counts) (key :: keys).
Proof.
  intros H -> k. rewrite cnt_cons. destruct (decide (key = k)) as [->|Hne].
  - rewrite lookup_insert_eq. simpl. f_equal. lia.
  - rewrite lookup_insert_ne by done. apply H.
Qed.

Lemma tallied_down counts keys key : tallied counts (key :: keys) -> tallied (count_down key counts) keys.
Proof.
  intros H k. unfold count_down. pose proof (H key) as Hk. rewrite cnt_cons, decide_True in Hk by done. simpl in Hk. rewrite Hk.
  assert (key <> k -> counts !! k = match cnt k keys with O => None | S n => Some (Z.of_nat (S n)) end) as Hother.
  { intros Hne. rewrite (H k), cnt_cons, decide_False by done. done. }
  destruct (cnt key keys) as [|n] eqn:Hn; simpl.
  - destruct (decide (key = k)) as [->|Hne]; [by rewrite lookup_delete_eq, Hn|by rewrite lookup_delete_ne; auto].
  - rewrite (proj2 (Z.leb_gt _ _)) by lia. destruct (decide (key = k)) as [->|Hne].
    + rewrite lookup_insert_eq, Hn. f_equal. lia.
    + rewrite lookup_insert_ne by done. auto.
Qed.

Lemma tallied_size counts keys : tallied counts keys -> size counts = length (remove_dups keys).
Proof.
  intros H. rewrite <- size_dom. assert (dom counts = list_to_set (remove_dups keys)) as ->.
  { apply set_eq. intros k. rewrite elem_of_dom, elem_of_list_to_set, elem_of_remove_dups, (H k), <- cnt_pos.
    destruct (cnt k keys); split; intros Hk; (done || by destruct Hk || by eexists). }
  apply size_list_to_set, NoDup_remove_dups.
Qed.

(** * Slots held by name *)

(** What a handle keeps while it is alive. *)
Class Holds (S A : Type) := holds : S -> list A.

Section Handles.
Context {S A : Type} `{Holds S A}.

Definition in_flight (slots : gmap nat S) : list A := map_to_list slots ≫= (fun p => holds p.2).

Lemma in_flight_empty : in_flight ∅ = [].
Proof. unfold in_flight. by rewrite map_to_list_empty. Qed.

Lemma in_flight_insert slots h s : slots !! h = None -> in_flight (<[h := s]> slots) ≡ₚ holds s ++ in_flight slots.
Proof. intros Hh. unfold in_flight. by rewrite map_to_list_insert. Qed.

Lemma in_flight_delete slots h s : slots !! h = Some s -> in_flight slots ≡ₚ holds s ++ in_flight (delete h slots).
Proof.
  intros Hh. rewrite <- in_flight_insert by apply lookup_delete_eq. by rewrite insert_delete_id.
Qed.

Lemma in_flight_replace slots h s s' : slots !! h = Some s ->
  in_flight (<[h := s']> slots) ≡ₚ holds s' ++ in_flight (delete h slots).
Proof. intros Hh. rewrite <- insert_delete_eq. apply in_flight_insert, lookup_delete_eq. Qed.

(** A move: the new handle has what the old one had, and the old one nothing. *)
Lemma in_flight_move slots h h' s s0 s' : slots !! h = Some s -> slots !! h' = None ->
  holds s' = holds s -> holds s0 = [] ->
  in_flight (<[h' := s']> (<[h := s0]> slots)) ≡ₚ in_flight slots.
Proof.
  intros Hh Hh' Hs' Hs0. assert (h <> h') as Hne by congruence.
  rewrite in_flight_insert by (by rewrite lookup_insert_ne). rewrite (in_flight_replace _ _ s) by done.
  rewrite Hs', Hs0. simpl. by rewrite <- in_flight_delete.
Qed.
End Handles.

(** [std::optional]: a handle is only there when one was given. *)
Definition put {S} (h : nat) (s : option S) (slots : gmap nat S) : gmap nat S :=
  match s with Some s => <[h := s]> slots | None => slots end.

(** * http/InFlightBudget.cpp *)
Module InFlight.

Record InFlightBudget : Type := { m_counts : Counts; m_total : Z; m_waiting : Z }.

Record Slot : Type := { s_key : string; s_held : bool }.
Record Waiter : Type := { w_held : bool }.

Definition new_budget : InFlightBudget := {| m_counts := ∅; m_total := 0; m_waiting := 0 |}.

(** The count of the key goes up with the total. *)
Definition count_up (key : string) (b : InFlightBudget) : InFlightBudget :=
  {| m_counts := <[key := u32 (default 0 (m_counts b !! key) + 1)]> (m_counts b);
     m_total := u32 (m_total b + 1);
     m_waiting := m_waiting b |}.

Definition held_by_key (key : string) (b : InFlightBudget) : Z :=
  match m_counts b !! key with None => 0 | Some n => n end.

Definition try_acquire (key : string) (global_cap per_key_cap : Z) (b : InFlightBudget) : option Slot * InFlightBudget :=
  if global_cap <=? u32 (m_total b + m_waiting b) then (None, b)
  else if per_key_cap <=? held_by_key key b then (None, b)
  else (Some {| s_key := key; s_held := true |}, count_up key b).

Definition try_reserve_wait (global_cap : Z) (b : InFlightBudget) : option Waiter * InFlightBudget :=
  if global_cap <=? u32 (m_total b + m_waiting b) then (None, b)
  else (Some {| w_held := true |},
        {| m_counts := m_counts b; m_total := m_total b; m_waiting := u32 (m_waiting b + 1) |}).

Definition try_acquire_waiting (waiter : Waiter) (key : string) (per_key_cap : Z) (b : InFlightBudget)
    : option Slot * Waiter * InFlightBudget :=
  if negb (w_held waiter) then (None, waiter, b)
  else if per_key_cap <=? held_by_key key b then (None, waiter, b)
  else (Some {| s_key := key; s_held := true |}, {| w_held := false |},
        count_up key {| m_counts := m_counts b; m_total := m_total b; m_waiting := u32 (m_waiting b - 1) |}).

Definition release_wait (b : InFlightBudget) : InFlightBudget :=
  {| m_counts := m_counts b; m_total := m_total b;
     m_waiting := if 0 <? m_waiting b then u32 (m_waiting b - 1) else m_waiting b |}.

Definition release (key : string) (b : InFlightBudget) : InFlightBudget :=
  match m_counts b !! key with
  | None => b
  | Some _ => {| m_counts := count_down key (m_counts b);
                 m_total := if 0 <? m_total b then u32 (m_total b - 1) else m_total b;
                 m_waiting := m_waiting b |}
  end.

Definition waiting (b : InFlightBudget) : Z := m_waiting b.
Definition active (b : InFlightBudget) : Z := m_total b.
Definition active_under (key : string) (b : InFlightBudget) : Z := held_by_key key b.
Definition tracked_keys (b : InFlightBudget) : nat := size (m_counts b).

(** The move constructors: the new object, and the one moved from, whose text is
    unspecified and no longer read. *)
Definition move_slot (other : Slot) : Slot * Slot :=
  ({| s_key := s_key other; s_held := s_held other |}, {| s_key := ""; s_held := false |}).
Definition move_waiter (other : Waiter) : Waiter * Waiter := ({| w_held := w_held other |}, {| w_held := false |}).

(** The destructors. *)
Definition destroy_slot (s : Slot) (b : InFlightBudget) : InFlightBudget := if s_held s then release (s_key s) b else b.
Definition destroy_waiter (w : Waiter) (b : InFlightBudget) : InFlightBudget := if w_held w then release_wait b else b.

#[export] Instance slot_holds : Holds Slot string := fun s => if s_held s then [s_key s] else [].
#[export] Instance waiter_holds : Holds Waiter unit := fun w => if w_held w then [tt] else [].

(** A budget and the handles of the program that uses it. *)
Record Program : Type := { p_budget : InFlightBudget; p_slots : gmap nat Slot; p_waiters : gmap nat Waiter }.

Definition new_program : Program := {| p_budget := new_budget; p_slots := ∅; p_waiters := ∅ |}.

(** A call of the program, with caps of at most [G] in all and [K] for a key. *)
Inductive step (G K : Z) : Program -> Program -> Prop :=
  | step_acquire h key g k b slots waiters : slots !! h = None -> 0 <= g <= G -> 0 <= k <= K ->
      step G K {| p_budget := b; p_slots := slots; p_waiters := waiters |}
        {| p_budget := (try_acquire key g k b).2; p_slots := put h (try_acquire key g k b).1 slots; p_waiters := waiters |}
  | step_reserve w g b slots waiters : waiters !! w = None -> 0 <= g <= G ->
      step G K {| p_budget := b; p_slots := slots; p_waiters := waiters |}
        {| p_budget := (try_reserve_wait g b).2; p_slots := slots; p_waiters := put w (try_reserve_wait g b).1 waiters |}
  | step_acquire_waiting w waiter h key k b slots waiters : waiters !! w = Some waiter -> slots !! h = None -> 0 <= k <= K ->
      step G K {| p_budget := b; p_slots := slots; p_waiters := waiters |}
        {| p_budget := (try_acquire_waiting waiter key k b).2;
           p_slots := put h (try_acquire_waiting waiter key k b).1.1 slots;
           p_waiters := <[w := (try_acquire_waiting waiter key k b).1.2]> waiters |}
  | step_move_slot h h' s b slots waiters : slots !! h = Some s -> slots !! h' = None ->
      step G K {| p_budget := b; p_slots := slots; p_waiters := waiters |}
        {| p_budget := b; p_slots := <[h' := (move_slot s).1]> (<[h := (move_slot s).2]> slots); p_waiters := waiters |}
  | step_move_waiter w w' s b slots waiters : waiters !! w = Some s -> waiters !! w' = None ->
      step G K {| p_budget := b; p_slots := slots; p_waiters := waiters |}
        {| p_budget := b; p_slots := slots; p_waiters := <[w' := (move_waiter s).1]> (<[w := (move_waiter s).2]> waiters) |}
  | step_destroy_slot h s b slots waiters : slots !! h = Some s ->
      step G K {| p_budget := b; p_slots := slots; p_waiters := waiters |}
        {| p_budget := destroy_slot s b; p_slots := delete h slots; p_waiters := waiters |}
  | step_destroy_waiter w s b slots waiters : waiters !! w = Some s ->
      step G K {| p_budget := b; p_slots := slots; p_waiters := waiters |}
        {| p_budget := destroy_waiter s b; p_slots := slots; p_waiters := delete w waiters |}.

(** The counts of a budget are those of the handles, within the caps. *)
Record counted (G K : Z) (b : InFlightBudget) (keys : list string) (waiters : list unit) : Prop := {
  counted_keys : tallied (m_counts b) keys;
  counted_total : m_total b = Z.of_nat (length keys);
  counted_waiting : m_waiting b = Z.of_nat (length waiters);
  counted_global : Z.of_nat (length keys) + Z.of_nat (length waiters) <= G;
  counted_per_key : forall key, Z.of_nat (cnt key keys) <= K
}.

Section Steps.
Context (G K : Z).
Hypothesis HG : 0 <= G < 2 ^ 32.
Hypothesis HK : 0 <= K < 2 ^ 32.

#[global] Instance counted_perm b : Proper ((≡ₚ) ==> (≡ₚ) ==> iff) (counted G K b).
Proof.
  assert (forall k k' w w', k ≡ₚ k' -> w ≡ₚ w' -> counted G K b k w -> counted G K b k' w') as Himp.
  { intros k k' w w' Hk Hw [H1 H2 H3 H4 H5]. split; rewrite <- ?Hk, <- ?Hw; try done. intros key. rewrite <- Hk. apply H5. }
  intros k k' Hk w w' Hw. split; apply Himp; done.
Qed.

Lemma held_count b keys waiters key : counted G K b keys waiters -> held_by_key key b = Z.of_nat (cnt key keys).
Proof. intros Hc. rewrite <- (tallied_count _ _ _ (counted_keys _ _ _ _ _ Hc)). unfold held_by_key. by destruct (m_counts b !! key). Qed.

Lemma population b keys waiters : counted G K b keys waiters ->
  u32 (m_total b + m_waiting b) = Z.of_nat (length keys) + Z.of_nat (length waiters).
Proof. intros [_ -> -> Hg _]. apply u32_small. lia. Qed.

Lemma count_up_counted b keys waiters key : counted G K b keys waiters ->
  Z.of_nat (length keys) + Z.of_nat (length waiters) < G -> Z.of_nat (cnt key keys) < K ->
  counted G K (count_up key b) (key :: keys) waiters.
Proof.
  intros [Hk Ht Hw Hg Hp] Hroom Hkey. split; simpl; [| |done|lia|].
  - apply tallied_up; [done|]. rewrite (tallied_count _ _ _ Hk). apply u32_small. lia.
  - rewrite Ht, u32_small by lia. lia.
  - intros k. rewrite cnt_cons. specialize (Hp k). destruct (decide (key = k)) as [->|]; lia.
Qed.

(** What [try_acquire] answers is decided by the handles alone. *)
Lemma try_acquire_counted b keys waiters key g k : counted G K b keys waiters -> 0 <= g <= G -> 0 <= k <= K ->
  let '(slot, b') := try_acquire key g k b in
  if bool_decide (Z.of_nat (length keys) + Z.of_nat (length waiters) < g /\ Z.of_nat (cnt key keys) < k)
  then slot = Some {| s_key := key; s_held := true |} /\ counted G K b' (key :: keys) waiters
  else slot = None /\ b' = b.
Proof.
  intros Hc Hg Hk. unfold try_acquire. rewrite (population _ _ _ Hc), (held_count _ _ _ key Hc).
  destruct (Z.leb_spec g (Z.of_nat (length keys) + Z.of_nat (length waiters))); [rewrite bool_decide_false by lia; done|].
  destruct (Z.leb_spec k (Z.of_nat (cnt key keys))); [rewrite bool_decide_false by lia; done|].
  rewrite bool_decide_true by lia. split; [done|]. apply count_up_counted; [done|lia|lia].
Qed.

Lemma try_reserve_counted b keys waiters g : counted G K b keys waiters -> 0 <= g <= G ->
  let '(waiter, b') := try_reserve_wait g b in
  if bool_decide (Z.of_nat (length keys) + Z.of_nat (length waiters) < g)
  then waiter = Some {| w_held := true |} /\ counted G K b' keys (tt :: waiters)
  else waiter = None /\ b' = b.
Proof.
  intros Hc Hg. unfold try_reserve_wait. rewrite (population _ _ _ Hc).
  destruct (Z.leb_spec g (Z.of_nat (length keys) + Z.of_nat (length waiters))); [rewrite bool_decide_false by lia; done|].
  rewrite bool_decide_true by lia. split; [done|]. destruct Hc as [Hk Ht Hw Hgl Hp]. split; simpl; try done; [|lia].
  rewrite Hw, u32_small by lia. lia.
Qed.

(** A place held while waiting is enough: only the cap of the key is asked again. *)
Lemma try_acquire_waiting_counted b keys waiters key k : counted G K b keys (tt :: waiters) -> 0 <= k <= K ->
  let '(slot, waiter, b') := try_acquire_waiting {| w_held := true |} key k b in
  if bool_decide (Z.of_nat (cnt key keys) < k)
  then slot = Some {| s_key := key; s_held := true |} /\ waiter = {| w_held := false |} /\ counted G K b' (key :: keys) waiters
  else slot = None /\ waiter = {| w_held := true |} /\ b' = b.
Proof.
  intros Hc Hk. unfold try_acquire_waiting. simpl. rewrite (held_count _ _ _ key Hc).
  destruct (Z.leb_spec k (Z.of_nat (cnt key keys))); [rewrite bool_decide_false by lia; done|].
  rewrite bool_decide_true by lia. do 2 (split; [done|]). destruct Hc as [Hkeys Ht Hw Hgl Hp]. simpl in *.
  apply count_up_counted; [|lia|lia]. split; simpl; try done; [|lia]. rewrite Hw, u32_small by lia. lia.
Qed.

Lemma release_counted b keys waiters key : counted G K b (key :: keys) waiters -> counted G K (release key b) keys waiters.
Proof.
  intros [Hk Ht Hw Hg Hp]. unfold release. rewrite (Hk key), cnt_cons, decide_True by done. simpl in *. split; simpl; [| |done|lia|].
  - by apply tallied_down.
  - rewrite (proj2 (Z.ltb_lt _ _)), u32_small by lia. lia.
  - intros k. specialize (Hp k). rewrite cnt_cons in Hp. lia.
Qed.

Lemma release_wait_counted b keys waiters : counted G K b keys (tt :: waiters) -> counted G K (release_wait b) keys waiters.
Proof.
  intros [Hk Ht Hw Hg Hp]. simpl in *. split; simpl; try done; [|lia]. rewrite (proj2 (Z.ltb_lt _ _)), u32_small by lia. lia.
Qed.

Definition program_ok (p : Program) : Prop :=
  counted G K (p_budget p) (in_flight (p_slots p)) (in_flight (p_waiters p)).

Lemma new_program_ok : program_ok new_program.
Proof.
  unfold program_ok. simpl. rewrite !in_flight_empty. split; simpl; [apply tallied_nil|done|done|lia|intros key; change (cnt key []) with 0%nat; lia].
Qed.

Lemma budget_step_ok p p' : program_ok p -> step G K p p' -> program_ok p'.
Proof.
  unfold program_ok. intros Hp Hstep.
  destruct Hstep as [h key g k b slots waiters Hh Hg Hk|w g b slots waiters Hw Hg|w waiter h key k b slots waiters Hw Hh Hk
    |h h' s b slots waiters Hh Hh'|w w' s b slots waiters Hw Hw'|h s b slots waiters Hh|w s b slots waiters Hw]; simpl in *.
  - pose proof (try_acquire_counted b _ _ key g k Hp Hg Hk) as Ht. destruct (try_acquire key g k b) as [slot b'].
    case_bool_decide; destruct Ht as [-> Ht]; simpl; [by rewrite in_flight_insert|by subst b'].
  - pose proof (try_reserve_counted b _ _ g Hp Hg) as Ht. destruct (try_reserve_wait g b) as [waiter b'].
    case_bool_decide; destruct Ht as [-> Ht]; simpl; [by rewrite in_flight_insert|by subst b'].
  - destruct waiter as [[]]; [|simpl; by rewrite (in_flight_replace _ _ {| w_held := false |}), <- in_flight_delete].
    rewrite (in_flight_delete waiters w) in Hp by done. simpl in Hp.
    pose proof (try_acquire_waiting_counted b _ _ key k Hp Hk) as Ht.
    destruct (try_acquire_waiting _ key k b) as [[slot waiter'] b']. simpl.
    case_bool_decide; destruct Ht as (-> & -> & Ht); simpl; rewrite (in_flight_replace waiters w {| w_held := true |}) by done.
    + by rewrite in_flight_insert.
    + by subst b'.
  - by rewrite in_flight_move.
  - by rewrite in_flight_move.
  - rewrite (in_flight_delete slots h) in Hp by done. destruct s as [key []]; simpl in *; [by apply release_counted|done].
  - rewrite (in_flight_delete waiters w) in Hp by done. destruct s as [[]]; simpl in *; [by apply release_wait_counted|done].
Qed.

Lemma budget_steps_ok p : rtc (step G K) new_program p -> program_ok p.
Proof. apply (rtc_ind_r program_ok); [apply new_program_ok|]. intros p1 p2 _ Hs Hp. by eapply budget_step_ok. Qed.
End Steps.

(** C36. The budget of operations in flight.  Whatever a program does with the
    slots and the waiting places it is given, moving, keeping and destroying
    them in any order, the budget knows exactly those it still holds: the total,
    the count of every key and the places kept by waiters, with an entry for
    every key in flight and no other.  When all caps asked for are at most [G]
    and [K], slots and waiters together are never more than [G] and no key has
    more than [K].  A slot is given exactly when there is room under both caps of
    the call, a waiter gets its slot exactly when its key has room, and when every
    handle is gone the budget is as new. *)
Theorem in_flight_budget_exact G K p : 0 <= G < 2 ^ 32 -> 0 <= K < 2 ^ 32 -> rtc (step G K) new_program p ->
  let held := in_flight (p_slots p) in
  let waiters : list unit := in_flight (p_waiters p) in
  let b := p_budget p in
  active b = Z.of_nat (length held) /\ waiting b = Z.of_nat (length waiters) /\ active b + waiting b <= G /\
  tracked_keys b = length (remove_dups held) /\
  (forall key, active_under key b = Z.of_nat (cnt key held) /\ active_under key b <= K) /\
  (forall key g k, 0 <= g <= G -> 0 <= k <= K ->
     is_Some (try_acquire key g k b).1 <-> active b + waiting b < g /\ active_under key b < k) /\
  (forall w key k, 0 <= k <= K -> p_waiters p !! w = Some {| w_held := true |} ->
     is_Some (try_acquire_waiting {| w_held := true |} key k b).1.1 <-> active_under key b < k) /\
  (p_slots p = ∅ -> p_waiters p = ∅ -> b = new_budget).
Proof.
  intros HG HK Hrun held waiters b. pose proof (budget_steps_ok G K HG HK p Hrun) as Hp. unfold program_ok in Hp. fold held waiters b in Hp.
  pose proof (fun key => held_count G K b held waiters key Hp) as Hcount. pose proof (counted_per_key _ _ _ _ _ Hp) as Hper.
  pose proof Hp as [Hk Ht Hw Hg _]. unfold active, waiting, tracked_keys, active_under. rewrite Ht, Hw.
  split_and!; [done|done|done|by apply tallied_size| | | |].
  - intros key. rewrite Hcount. by split.
  - intros key g k Hgc Hkc. rewrite Hcount. pose proof (try_acquire_counted G K HG HK b held waiters key g k Hp Hgc Hkc) as Ha.
    destruct (try_acquire key g k b) as [slot b']. case_bool_decide; destruct Ha as [-> _]; simpl; [done|]. by rewrite is_Some_alt.
  - intros w key k Hkc Hwait. rewrite Hcount. unfold waiters in Hp. rewrite (in_flight_delete (p_waiters p) w) in Hp by done. simpl in Hp.
    pose proof (try_acquire_waiting_counted G K HG HK b held _ key k Hp Hkc) as Ha.
    destruct (try_acquire_waiting _ key k b) as [[slot waiter'] b']. case_bool_decide; destruct Ha as (-> & _); simpl; [done|]. by rewrite is_Some_alt.
  - intros Hs Hws. unfold held, waiters in *. rewrite Hs, Hws, !in_flight_empty in *. destruct b as [m t w]. simpl in *. subst.
    by rewrite (tallied_none _ Hk).
Qed.

(** One client has a slot and another waits; the budget of two is then full. *)
Definition sample_program : Program :=
  {| p_budget := {| m_counts := {["10.0.0.1" := 1]}; m_total := 1; m_waiting := 1 |};
     p_slots := {[0%nat := {| s_key := "10.0.0.1"; s_held := true |}]};
     p_waiters := {[0%nat := {| w_held := true |}]} |}.

Lemma sample_program_runs : rtc (step 2 1) new_program sample_program.
Proof.
  eapply rtc_l; [by apply (step_acquire 2 1 0 "10.0.0.1" 2 1)|].
  eapply rtc_l; [by apply (step_reserve 2 1 0 2)|]. vm_compute. apply rtc_refl.
Qed.

Lemma in_flight_budget_exact_witness :
  active (p_budget sample_program) = 1 /\ (try_acquire "10.0.0.2" 2 1 (p_budget sample_program)).1 = None /\
  is_Some (try_acquire_waiting {| w_held := true |} "10.0.0.2" 1 (p_budget sample_program)).1.1.
Proof.
  destruct (in_flight_budget_exact 2 1 sample_program ltac:(lia) ltac:(lia) sample_program_runs) as (Ha & _ & _ & _ & _ & _ & Hw & _).
  split; [exact Ha|]. split; [vm_compute; reflexivity|]. apply (Hw 0%nat "10.0.0.2" 1); vm_compute; done.
Defined.
End InFlight.

(** * http/ConnectionLimiter.cpp *)
Module Connection.

Record Slot : Type := { s_key : string; s_held : bool }.

Definition try_acquire (key : string) (cap : Z) (m_counts : Counts) : option Slot * Counts :=
  let counts := match m_counts !! key with None => <[key := 0]> m_counts | Some _ => m_counts end in
  let count := default 0 (counts !! key) in
  if cap <=? count
  then (None, if count =? 0 then delete key counts else counts)
  else (Some {| s_key := key; s_held := true |}, <[key := u32 (count + 1)]> counts).

Definition active (key : string) (m_counts : Counts) : Z := match m_counts !! key with None => 0 | Some n => n end.
Definition tracked_keys (m_counts : Counts) : nat := size m_counts.

Definition release (key : string) (m_counts : Counts) : Counts := count_down key m_counts.

Definition move_slot (other : Slot) : Slot * Slot :=
  ({| s_key := s_key other; s_held := s_held other |}, {| s_key := ""; s_held := false |}).

Definition destroy_slot (s : Slot) (m_counts : Counts) : Counts := if s_held s then release (s_key s) m_counts else m_counts.

#[export] Instance slot_holds : Holds Slot string := fun s => if s_held s then [s_key s] else [].

Record Program : Type := { p_counts : Counts; p_slots : gmap nat Slot }.
Definition new_program : Program := {| p_counts := ∅; p_slots := ∅ |}.

(** A call of the program, with caps of at most [C]. *)
Inductive step (C : Z) : Program -> Program -> Prop :=
  | step_acquire h key cap counts slots : slots !! h = None -> 0 <= cap <= C ->
      step C {| p_counts := counts; p_slots := slots |}
        {| p_counts := (try_acquire key cap counts).2; p_slots := put h (try_acquire key cap counts).1 slots |}
  | step_move h h' s counts slots : slots !! h = Some s -> slots !! h' = None ->
      step C {| p_counts := counts; p_slots := slots |}
        {| p_counts := counts; p_slots := <[h' := (move_slot s).1]> (<[h := (move_slot s).2]> slots) |}
  | step_destroy h s counts slots : slots !! h = Some s ->
      step C {| p_counts := counts; p_slots := slots |}
        {| p_counts := destroy_slot s counts; p_slots := delete h slots |}.

Definition within (C : Z) (counts : Counts) (keys : list string) : Prop :=
  tallied counts keys /\ forall key, Z.of_nat (cnt key keys) <= C.

#[export] Instance within_perm C counts : Proper ((≡ₚ) ==> iff) (within C counts).
Proof.
  intros k k' Hk. unfold within. rewrite Hk. split; intros [Ht Hc]; (split; [done|]); intros key; [rewrite <- Hk|rewrite Hk]; apply Hc.
Qed.

Lemma connection_acquire_within C counts keys key cap : 0 <= C < 2 ^ 32 -> within C counts keys -> 0 <= cap <= C ->
  let '(slot, counts') := try_acquire key cap counts in
  if bool_decide (Z.of_nat (cnt key keys) < cap)
  then slot = Some {| s_key := key; s_held := true |} /\ within C counts' (key :: keys)
  else slot = None /\ counts' = counts.
Proof.
  intros HC [Ht Hc] Hcap. unfold try_acquire.
  set (counts1 := match counts !! key with None => <[key := 0]> counts | Some _ => counts end).
  assert (default 0 (counts1 !! key) = Z.of_nat (cnt key keys)) as Hcount.
  { rewrite <- (tallied_count _ _ _ Ht). unfold counts1. destruct (counts !! key) eqn:E; [by rewrite E|by rewrite lookup_insert_eq]. }
  rewrite Hcount. destruct (Z.leb_spec cap (Z.of_nat (cnt key keys))); [rewrite bool_decide_false by lia|rewrite bool_decide_true by lia].
  - split; [done|]. pose proof (Ht key) as Hk. unfold counts1. rewrite Hk. destruct (cnt key keys) eqn:Hn; simpl; [|done].
    rewrite delete_insert_id; done.
  - split; [done|]. specialize (Hc key) as Hkey. rewrite u32_small by lia. split.
    + assert (<[key := Z.of_nat (cnt key keys) + 1]> counts1 = <[key := Z.of_nat (cnt key keys) + 1]> counts) as ->.
      { unfold counts1. destruct (counts !! key); [done|]. apply insert_insert_eq. }
      by apply tallied_up.
    + intros k. rewrite cnt_cons. specialize (Hc k). destruct (decide (key = k)) as [->|]; lia.
Qed.

Lemma connection_step_ok C p p' : 0 <= C < 2 ^ 32 -> within C (p_counts p) (in_flight (p_slots p)) -> step C p p' ->
  within C (p_counts p') (in_flight (p_slots p')).
Proof.
  intros HC Hp Hstep. destruct Hstep as [h key cap counts slots Hh Hcap|h h' s counts slots Hh Hh'|h s counts slots Hh]; simpl in *.
  - pose proof (connection_acquire_within C counts _ key cap HC Hp Hcap) as Ht. destruct (try_acquire key cap counts) as [slot counts'].
    case_bool_decide; destruct Ht as [-> Ht]; simpl; [by rewrite in_flight_insert|by subst counts'].
  - by rewrite in_flight_move.
  - rewrite (in_flight_delete slots h) in Hp by done. destruct s as [key []]; simpl in *; [|done]. destruct Hp as [Ht Hc]. split.
    + by apply tallied_down.
    + intros k. specialize (Hc k). rewrite cnt_cons in Hc. lia.
Qed.

(** Connections of a client: the count of a key is that of the slots held, at
    most the cap, a refused connection leaves no entry behind, and a slot is
    given exactly below the cap. *)
Theorem connection_limiter_exact C p : 0 <= C < 2 ^ 32 -> rtc (step C) new_program p ->
  tracked_keys (p_counts p) = length (remove_dups (in_flight (p_slots p))) /\
  forall key, active key (p_counts p) = Z.of_nat (cnt key (in_flight (p_slots p))) /\ active key (p_counts p) <= C /\
    forall cap, 0 <= cap <= C -> is_Some (try_acquire key cap (p_counts p)).1 <-> active key (p_counts p) < cap.
Proof.
  intros HC Hrun. assert (within C (p_counts p) (in_flight (p_slots p))) as Hp.
  { revert p Hrun. apply (rtc_ind_r (fun p => within C (p_counts p) (in_flight (p_slots p)))).
    - simpl. rewrite in_flight_empty. split; [apply tallied_nil|]. intros key. change (cnt key []) with 0%nat. lia.
    - intros p1 p2 _ Hs Hp. by eapply connection_step_ok. }
  pose proof Hp as [Ht Hc]. split; [by apply tallied_size|]. intros key.
  assert (active key (p_counts p) = Z.of_nat (cnt key (in_flight (p_slots p)))) as Ha.
  { rewrite <- (tallied_count _ _ _ Ht). unfold active. by destruct (p_counts p !! key). }
  rewrite Ha. split_and!; [done|apply Hc|]. intros cap Hcap. pose proof (connection_acquire_within C _ _ key cap HC Hp Hcap) as Hacq.
  destruct (try_acquire key cap (p_counts p)) as [slot counts']. case_bool_decide; destruct Hacq as [-> _]; simpl; [done|]. by rewrite is_Some_alt.
Qed.
End Connection.

(** * push/GatewayInFlightLimiter.cpp *)
Module Gateway.

(** [limiter_] is a reference to the limiter or nothing. *)
Record Slot : Type := { limiter_ : bool; keys_ : list string }.

(** [Slot() = default]. *)
Definition no_slot : Slot := {| limiter_ := false; keys_ := [] |}.

(** [std::ranges::unique] and the erasure after it: one of every run of equal keys. *)
Fixpoint erase_repeats (keys : list string) : list string :=
  match keys with
  | [] => []
  | key :: rest =>
      match rest with
      | [] => [key]
      | next :: _ => if String.eqb key next then erase_repeats rest else key :: erase_repeats rest
      end
  end.

Definition distinct (keys : list string) : list string := erase_repeats (sort_by String.ltb keys).

Definition try_acquire (keys : list string) (cap : Z) (counts_ : Counts) : option Slot * Counts :=
  let distinct := distinct keys in
  let limit := Z.max cap 1 in
  if existsb (fun key => match counts_ !! key with Some n => limit <=? n | None => false end) distinct
  then (None, counts_)
  else (Some {| limiter_ := true; keys_ := distinct |},
        foldl (fun counts key => <[key := u64 (default 0 (counts !! key) + 1)]> counts) counts_ distinct).

(** [Slot::release]: the counts, and the slot after it. *)
Definition release (s : Slot) (counts_ : Counts) : Counts * Slot :=
  if limiter_ s then (foldl (fun counts key => count_down key counts) counts_ (keys_ s), no_slot) else (counts_, s).

(** The move constructor: the new slot, and the one moved from. *)
Definition move_slot (other : Slot) : Slot * Slot := ({| limiter_ := limiter_ other; keys_ := keys_ other |}, no_slot).

(** The move assignment to another slot: the counts, this slot and the other. *)
Definition move_assign (this other : Slot) (counts_ : Counts) : Counts * Slot * Slot :=
  ((release this counts_).1, {| limiter_ := limiter_ other; keys_ := keys_ other |}, no_slot).

Definition requests_in_flight (key : string) (counts_ : Counts) : Z := match counts_ !! key with None => 0 | Some n => n end.
Definition tracked_keys (counts_ : Counts) : nat := size counts_.

#[export] Instance slot_holds : Holds Slot string := fun s => if limiter_ s then keys_ s else [].

Record Program : Type := { p_counts : Counts; p_slots : gmap nat Slot }.
Definition new_program : Program := {| p_counts := ∅; p_slots := ∅ |}.

(** A call of the program, with caps of at most [C]. *)
Inductive step (C : Z) : Program -> Program -> Prop :=
  | step_default h counts slots : slots !! h = None ->
      step C {| p_counts := counts; p_slots := slots |} {| p_counts := counts; p_slots := <[h := no_slot]> slots |}
  | step_acquire h keys cap counts slots : slots !! h = None -> 0 <= cap <= C ->
      step C {| p_counts := counts; p_slots := slots |}
        {| p_counts := (try_acquire keys cap counts).2; p_slots := put h (try_acquire keys cap counts).1 slots |}
  | step_move h h' s counts slots : slots !! h = Some s -> slots !! h' = None ->
      step C {| p_counts := counts; p_slots := slots |}
        {| p_counts := counts; p_slots := <[h' := (move_slot s).1]> (<[h := (move_slot s).2]> slots) |}
  | step_assign h h' this other counts slots : slots !! h = Some this -> slots !! h' = Some other -> h <> h' ->
      step C {| p_counts := counts; p_slots := slots |}
        {| p_counts := (move_assign this other counts).1.1;
           p_slots := <[h := (move_assign this other counts).1.2]> (<[h' := (move_assign this other counts).2]> slots) |}
  | step_destroy h s counts slots : slots !! h = Some s ->
      step C {| p_counts := counts; p_slots := slots |}
        {| p_counts := (release s counts).1; p_slots := delete h slots |}.

Lemma elem_of_erase_repeats key keys : key ∈ erase_repeats keys <-> key ∈ keys.
Proof.
  induction keys as [|x rest IH]; [done|]. cbn [erase_repeats]. destruct rest as [|y rest]; [done|].
  destruct (String.eqb_spec x y) as [->|Hne]; rewrite ?elem_of_cons, IH; set_solver.
Qed.

Lemma NoDup_erase_repeats keys : StronglySorted (not_after String.ltb) keys -> NoDup (erase_repeats keys).
Proof.
  induction keys as [|x rest IH]; intros Hs; [apply NoDup_nil_2|]. apply StronglySorted_inv in Hs as [Hs Hx]. cbn [erase_repeats].
  destruct rest as [|y rest]; [apply NoDup_singleton|]. destruct (String.eqb_spec x y) as [->|Hne]; [by apply IH|].
  apply NoDup_cons. split; [|by apply IH]. rewrite elem_of_erase_repeats. intros [->|Hin]%elem_of_cons; [done|].
  apply StronglySorted_inv in Hs as [_ Hy]. apply Forall_cons in Hx as [Hxy _]. rewrite Forall_forall in Hy. apply Hne.
  apply string_ltb_total; [by apply Hy|done].
Qed.

Lemma distinct_spec keys : NoDup (distinct keys) /\ forall key, key ∈ distinct keys <-> key ∈ keys.
Proof.
  split; [|intros key; unfold distinct; by rewrite elem_of_erase_repeats, elem_of_sort_by].
  apply NoDup_erase_repeats, (sort_by_sorted String.ltb (fun _ => True)); [|  |by apply Forall_true].
  - intros x y _ _. apply string_ltb_asym.
  - intros x y z _ _ _. unfold not_after. intros Hxy Hyz. by eapply string_ltb_false_trans.
Qed.

Lemma tallied_up_all counts held keys : NoDup keys -> tallied counts held -> (forall key, key ∈ keys -> Z.of_nat (cnt key held) + 1 < 2 ^ 64) ->
  tallied (foldl (fun counts key => <[key := u64 (default 0 (counts !! key) + 1)]> counts) counts keys) (keys ++ held).
Proof.
  revert counts held. induction keys as [|key keys IH]; intros counts held Hn Ht Hroom; [done|]. apply NoDup_cons in Hn as [Hk Hn]. simpl.
  assert (key :: keys ++ held ≡ₚ keys ++ key :: held) as -> by apply Permutation_middle. apply IH; [done| |].
  - apply tallied_up; [done|]. rewrite (tallied_count _ _ _ Ht). apply u64_small. specialize (Hroom key ltac:(by left)). lia.
  - intros k Hin. rewrite cnt_cons, decide_False by set_solver. apply Hroom. by right.
Qed.

Lemma tallied_down_all counts held keys : tallied counts (keys ++ held) -> tallied (foldl (fun counts key => count_down key counts) counts keys) held.
Proof. revert counts. induction keys as [|key keys IH]; intros counts Ht; [done|]. simpl in *. by apply IH, tallied_down. Qed.

Lemma release_tallied s counts held : tallied counts (holds s ++ held) -> tallied (release s counts).1 held.
Proof. unfold release, holds, slot_holds. destruct (limiter_ s); simpl; [apply tallied_down_all|done]. Qed.

Definition within (C : Z) (counts : Counts) (held : list string) : Prop :=
  tallied counts held /\ forall key, Z.of_nat (cnt key held) <= C.

#[export] Instance within_perm C counts : Proper ((≡ₚ) ==> iff) (within C counts).
Proof.
  intros k k' Hk. unfold within. rewrite Hk. split; intros [Ht Hc]; (split; [done|]); intros key; [rewrite <- Hk|rewrite Hk]; apply Hc.
Qed.

Lemma within_less C counts counts' held more : within C counts (more ++ held) -> tallied counts' held -> within C counts' held.
Proof. intros [_ Hc] Ht. split; [done|]. intros key. specialize (Hc key). rewrite cnt_app in Hc. lia. Qed.

Lemma count_in_flight counts held key : tallied counts held -> requests_in_flight key counts = Z.of_nat (cnt key held).
Proof. intros Ht. rewrite <- (tallied_count _ _ _ Ht). unfold requests_in_flight. by destruct (counts !! key). Qed.

Lemma cnt_distinct (key : string) keys : NoDup keys -> cnt key keys = if decide (key ∈ keys) then 1%nat else 0%nat.
Proof.
  induction 1 as [|x keys Hx Hn IH]; [done|]. rewrite cnt_cons, IH. destruct (decide (x = key)) as [->|Hne].
  - rewrite decide_False, decide_True by set_solver. done.
  - destruct (decide (key ∈ keys)); [by rewrite decide_True by set_solver|by rewrite decide_False by set_solver].
Qed.

(** Every key below the cap, and then one count on each; or none. *)
Lemma gateway_acquire_within C counts held keys cap : 1 <= C < 2 ^ 64 - 1 -> within C counts held -> 0 <= cap <= C ->
  let '(slot, counts') := try_acquire keys cap counts in
  if bool_decide (Forall (fun key => requests_in_flight key counts < Z.max cap 1) keys)
  then slot = Some {| limiter_ := true; keys_ := distinct keys |} /\ within C counts' (distinct keys ++ held)
  else slot = None /\ counts' = counts.
Proof.
  intros HC [Ht Hc] Hcap. unfold try_acquire. destruct (distinct_spec keys) as [Hn Hin].
  destruct (existsb _ (distinct keys)) eqn:Hfull.
  - rewrite bool_decide_false; [done|]. apply existsb_exists in Hfull as (key & Hk%list_elem_of_In & Hlim). rewrite Forall_forall. intros Hall.
    apply Hin in Hk. apply Hall in Hk. unfold requests_in_flight in Hk. destruct (counts !! key); [lia|done].
  - assert (forall key, key ∈ keys -> Z.of_nat (cnt key held) < Z.max cap 1) as Hlow.
    { intros key Hk. rewrite <- (count_in_flight _ _ _ Ht). apply Hin in Hk. unfold requests_in_flight.
      destruct (counts !! key) as [n|] eqn:He; [|lia]. destruct (Z.lt_ge_cases n (Z.max cap 1)) as [|Hge]; [done|]. exfalso.
      apply not_true_iff_false in Hfull. apply Hfull, existsb_exists. exists key. split; [by apply list_elem_of_In|]. rewrite He. lia. }
    rewrite bool_decide_true by (apply Forall_forall; intros key Hk; rewrite (count_in_flight _ _ _ Ht); by apply Hlow).
    split; [done|]. split.
    + apply tallied_up_all; [done|done|]. intros key Hk%Hin. specialize (Hlow key Hk). lia.
    + intros key. rewrite cnt_app, cnt_distinct by done. specialize (Hc key). case_decide as Hd; [|lia]. apply Hin, Hlow in Hd. lia.
Qed.

Definition program_ok (C : Z) (p : Program) : Prop :=
  within C (p_counts p) (in_flight (p_slots p)) /\ map_Forall (fun _ s => NoDup (holds s)) (p_slots p).

Lemma gateway_step_ok C p p' : 1 <= C < 2 ^ 64 - 1 -> program_ok C p -> step C p p' -> program_ok C p'.
Proof.
  intros HC [Hp Hd] Hstep.
  destruct Hstep as [h counts slots Hh|h keys cap counts slots Hh Hcap|h h' s counts slots Hh Hh'|h h' this other counts slots Hh Hh' Hne
    |h s counts slots Hh]; simpl in *; unfold program_ok; simpl.
  - rewrite in_flight_insert by done. split; [done|]. apply map_Forall_insert_2; [apply NoDup_nil_2|done].
  - pose proof (gateway_acquire_within C counts _ keys cap HC Hp Hcap) as Ht. destruct (try_acquire keys cap counts) as [slot counts'].
    case_bool_decide; destruct Ht as [-> Ht]; simpl; [rewrite in_flight_insert by done|by subst counts'].
    split; [done|]. apply map_Forall_insert_2; [apply distinct_spec|done].
  - rewrite (in_flight_move slots h h' s) by (done || by destruct s as [[]]). split; [done|].
    pose proof (Hd _ _ Hh) as Hs. do 2 (apply map_Forall_insert_2; [by (apply NoDup_nil_2 || destruct s as [[]])|]). done.
  - rewrite (in_flight_delete slots h this) in Hp by done.
    assert (delete h slots !! h' = Some other) as Hdel by (by rewrite lookup_delete_ne).
    assert (in_flight (<[h := {| limiter_ := limiter_ other; keys_ := keys_ other |}]> (<[h' := no_slot]> slots)) ≡ₚ in_flight (delete h slots)) as ->.
    { rewrite (in_flight_replace _ _ this) by (by rewrite lookup_insert_ne). rewrite delete_insert_ne by done.
      rewrite (in_flight_replace _ _ other) by done. simpl. rewrite (in_flight_delete (delete h slots) h' other) by done. done. }
    split; [eapply within_less; [exact Hp|apply release_tallied, Hp]|].
    pose proof (Hd _ _ Hh') as Hs. apply map_Forall_insert_2; [by destruct other|]. apply map_Forall_insert_2; [apply NoDup_nil_2|done].
  - rewrite (in_flight_delete slots h s) in Hp by done. split; [eapply within_less; [exact Hp|apply release_tallied, Hp]|].
    by apply map_Forall_delete.
Qed.

Lemma gateway_steps_ok C p : 1 <= C < 2 ^ 64 - 1 -> rtc (step C) new_program p -> program_ok C p.
Proof.
  intros HC. apply (rtc_ind_r (program_ok C)); [|intros p1 p2 _ Hs Hp; by eapply gateway_step_ok].
  split; [|apply map_Forall_empty]. simpl. rewrite in_flight_empty. split; [apply tallied_nil|]. intros key. change (cnt key []) with 0%nat. lia.
Qed.

(** The slots that count on a key. *)
Definition holders (key : string) (slots : gmap nat Slot) : list (nat * Slot) := filter (fun p => key ∈ holds p.2) (map_to_list slots).

Lemma cnt_holders key slots : map_Forall (fun _ s => NoDup (holds s)) slots -> cnt key (in_flight slots) = length (holders key slots).
Proof.
  rewrite map_Forall_to_list. unfold in_flight, holders. generalize (map_to_list slots). intros l.
  induction 1 as [|[h s] l Hs _ IH]; [done|]. rewrite bind_cons, cnt_app, IH, filter_cons, (cnt_distinct _ _ Hs). simpl. by case_decide.
Qed.

(** Requests in flight to push gateways.  Whatever a program does with its
    slots, default-constructing, moving, assigning and destroying them, the
    count of a host or address is the number of slots that hold it, at most the
    largest cap given, with an entry for every key held and no other.  A slot on
    several keys is given exactly when each of them is below the cap (a cap of
    zero is one), and then it counts once on every key, a repeated key included;
    otherwise no count changes.  When every slot is gone nothing is left behind. *)
Theorem gateway_slots_exact C p : 1 <= C < 2 ^ 64 - 1 -> rtc (step C) new_program p ->
  (forall key, requests_in_flight key (p_counts p) = Z.of_nat (length (holders key (p_slots p))) /\
     requests_in_flight key (p_counts p) <= C) /\
  tracked_keys (p_counts p) = length (remove_dups (in_flight (p_slots p))) /\
  (forall keys cap, 0 <= cap <= C ->
     let '(slot, counts) := try_acquire keys cap (p_counts p) in
     if bool_decide (Forall (fun key => requests_in_flight key (p_counts p) < Z.max cap 1) keys)
     then is_Some slot /\ forall key, requests_in_flight key counts =
            requests_in_flight key (p_counts p) + if decide (key ∈ keys) then 1 else 0
     else slot = None /\ counts = p_counts p) /\
  (p_slots p = ∅ -> p_counts p = ∅).
Proof.
  intros HC Hrun. destruct (gateway_steps_ok C p HC Hrun) as [Hp Hd]. pose proof Hp as [Ht Hc]. split_and!.
  - intros key. rewrite (count_in_flight _ _ key Ht), <- cnt_holders by done. by split.
  - by apply tallied_size.
  - intros keys cap Hcap. pose proof (gateway_acquire_within C _ _ keys cap HC Hp Hcap) as Ha.
    destruct (try_acquire keys cap (p_counts p)) as [slot counts]. case_bool_decide; destruct Ha as [-> Ha]; [|done].
    split; [done|]. intros key. destruct Ha as [Ha _]. rewrite (count_in_flight _ _ key Ha), (count_in_flight _ _ key Ht), cnt_app.
    destruct (distinct_spec keys) as [Hn Hin]. rewrite cnt_distinct by done.
    destruct (decide (key ∈ keys)) as [Hk|Hk]; rewrite <- Hin in Hk; [rewrite decide_True by done|rewrite decide_False by done]; lia.
  - intros Hs. rewrite Hs, in_flight_empty in Ht. by apply tallied_none.
Qed.

(** One request on a host and its address, given a cap of one. *)
Definition sample_program : Program :=
  {| p_counts := {["10.1.1.1" := 1; "push.example.org" := 1]};
     p_slots := {[0%nat := {| limiter_ := true; keys_ := ["10.1.1.1"; "push.example.org"] |}]} |}.

Lemma gateway_slots_exact_witness :
  requests_in_flight "10.1.1.1" (p_counts sample_program) = 1 /\
  try_acquire ["other.example.org"; "10.1.1.1"] 1 (p_counts sample_program) = (None, p_counts sample_program).
Proof.
  assert (rtc (step 1) new_program sample_program) as Hrun.
  { eapply rtc_l; [by apply (step_acquire 1 0 ["push.example.org"; "10.1.1.1"; "push.example.org"] 1)|]. vm_compute. apply rtc_refl. }
  destruct (gateway_slots_exact 1 sample_program ltac:(lia) Hrun) as (Hk & _ & Hacq & _). split; [exact (proj1 (Hk "10.1.1.1"))|].
  specialize (Hacq ["other.example.org"; "10.1.1.1"] 1 ltac:(lia)). destruct (try_acquire _ _ _) as [slot counts].
  rewrite bool_decide_false in Hacq; [by destruct Hacq as [-> ->]|].
  rewrite !Forall_cons. intros (_ & Hlt & _). revert Hlt. vm_compute. done.
Defined.
End Gateway.
