(* ===== verification/PushText.v ===== *)
(** How push rules match text (push/push_rules.cpp): the full glob match, the search
    for a pattern or a literal between word boundaries, and the budget of steps that
    every search of a message body is charged to. *)
From S2P Require Import Prelude CppStd Glob.
Open Scope Z_scope.

Definition max_push_glob_body_bytes : nat := 4096.
Definition max_push_glob_steps_per_evaluation : Z := 2 ^ 21.

(** * The budget *)

Record GlobBudget : Type := { remaining : Z; glob_spent : Z; exhausted : bool }.

Definition new_budget : GlobBudget := {| remaining := max_push_glob_steps_per_evaluation; glob_spent := 0; exhausted := false |}.

Definition charge (steps : Z) (b : GlobBudget) : bool * GlobBudget :=
  if remaining b <? steps then (false, {| remaining := remaining b; glob_spent := glob_spent b; exhausted := true |})
  else (true, {| remaining := remaining b - steps; glob_spent := glob_spent b + steps; exhausted := exhausted b |}).

(** * Matching a whole value *)

Definition ascii_lower (value : list ascii) : list ascii := to_lower_ascii <$> value.

Definition is_question (c : ascii) : bool := Ascii.eqb c "?".

Definition has_glob_wildcard (pattern : list ascii) : bool := existsb (fun c => is_star c || is_question c) pattern.

(** The loop of [glob_matches_full]. An index is the rest of the text from it: [star] is the pattern after the last star
    seen and the value from [star_value_index] on. *)
Fixpoint glob_loop (rounds : nat) (value pattern : list ascii) (star : option (list ascii * list ascii)) : bool :=
  match value with
  | [] => forallb is_star pattern
  | v :: value' =>
      match rounds with
      | O => false
      | S rounds =>
          let retry :=
            match star with
            | Some (after_star, _ :: from) => glob_loop rounds from after_star (Some (after_star, from))
            | _ => false
            end in
          match pattern with
          | p :: pattern' =>
              if is_star p then glob_loop rounds value pattern' (Some (pattern', value))
              else if is_question p || Ascii.eqb p v then glob_loop rounds value' pattern' star
              else retry
          | [] => retry
          end
      end
  end.

(** After a star, at most the rest of the value and of the pattern is walked before the star takes one more character. *)
Definition glob_rounds (value pattern : list ascii) : nat := (S (length value) * S (length value + length pattern))%nat.

Definition glob_matches_full (value pattern : list ascii) : bool :=
  if negb (has_glob_wildcard pattern) then bool_decide (value = pattern)
  else glob_loop (glob_rounds value pattern) value pattern None.

(** * Searching between word boundaries *)

Definition is_word_character (c : ascii) : bool :=
  ((65 <=? byte_of c) && (byte_of c <=? 90)) || ((97 <=? byte_of c) && (byte_of c <=? 122)) ||
  ((48 <=? byte_of c) && (byte_of c <=? 57)) || (byte_of c =? 95).

(** [is_start] given the character before the index, [is_end] given the value from the index on. *)
Definition is_start (before : option ascii) : bool := match before with None => true | Some c => negb (is_word_character c) end.
Definition is_end (rest : list ascii) : bool := match rest with [] => true | c :: _ => negb (is_word_character c) end.

(** A star may match nothing: who stands before it also stands after it. *)
Fixpoint close_stars (pattern : list ascii) (active : list bool) : list bool :=
  match pattern, active with
  | p :: pattern, a :: b :: active => a :: close_stars pattern ((b || (a && is_star p)) :: active)
  | _, _ => active
  end.

(** The candidates after one more character; [arrived] says whether the entry before moved here. *)
Fixpoint advance (pattern : list ascii) (active : list bool) (v : ascii) (arrived : bool) : list bool :=
  match pattern, active with
  | p :: pattern, a :: active =>
      (arrived || (a && is_star p)) :: advance pattern active v (a && negb (is_star p) && (is_question p || Ascii.eqb p v))
  | _, _ => [arrived]
  end.

Definition set_first (active : list bool) : list bool := match active with [] => [] | _ :: active => true :: active end.

(** One turn of the loop per index; [to_limit] is the distance to the limit. *)
Fixpoint boundary_loop (pattern : list ascii) (to_limit : nat) (before : option ascii) (rest : list ascii) (active : list bool)
    (any_active : bool) (b : GlobBudget) : bool * GlobBudget :=
  let pattern_length := Z.of_nat (length pattern) in
  let '(paid, b) := charge 1 b in
  if negb paid then (false, b)
  else
    let active := if is_start before then set_first active else active in
    let any_active := is_start before || any_active in
    let '(paid, b) := if any_active then charge pattern_length b else (true, b) in
    if negb paid then (false, b)
    else
      let active := if any_active then close_stars pattern active else active in
      if any_active && List.last active false && is_end rest then (true, b)
      else
        match to_limit, rest with
        | S to_limit, v :: rest =>
            if negb any_active then boundary_loop pattern to_limit (Some v) rest active any_active b
            else
              let '(paid, b) := charge pattern_length b in
              if negb paid then (false, b)
              else
                let next := advance pattern active v false in
                boundary_loop pattern to_limit (Some v) rest next (existsb id next) b
        | _, _ => (false, b)
        end.

Definition glob_matches_word_boundary_substring (value pattern : list ascii) (b : GlobBudget) : bool * GlobBudget :=
  let length_ := length value in
  let limit := Nat.min length_ max_push_glob_body_bytes in
  let lowered_value := ascii_lower (take (Nat.min length_ (limit + 1)) value) in
  let lowered_pattern := ascii_lower pattern in
  boundary_loop lowered_pattern limit None lowered_value (replicate (S (length lowered_pattern)) false) false b.

(** The search of [contains_literal_word_boundary_substring] from an index on; [to_limit] is the distance to the limit. *)
Fixpoint literal_loop (rounds : nat) (literal : list ascii) (to_limit : nat) (before : option ascii) (rest : list ascii) : bool :=
  match rounds with
  | O => false
  | S rounds =>
      match find_run literal rest with
      | None => false
      | Some found =>
          if (to_limit <? found + length literal)%nat then false
          else
            let before' := match found with O => before | S i => rest !! i end in
            if is_start before' && is_end (drop (found + length literal) rest) then true
            else literal_loop rounds literal (to_limit - (found + 1)) (rest !! found) (drop (found + 1) rest)
      end
  end.

Definition contains_literal_word_boundary_substring (value literal : list ascii) (b : GlobBudget) : bool * GlobBudget :=
  match literal with
  | [] => (false, b)
  | _ =>
      let full_length := length value in
      let limit := Nat.min full_length max_push_glob_body_bytes in
      let '(paid, b) := charge (Z.of_nat (limit + 1) * Z.of_nat (length literal)) b in
      if negb paid then (false, b)
      else
        let lowered_value := ascii_lower (take (Nat.min full_length (limit + 1)) value) in
        (literal_loop (S (length lowered_value)) (ascii_lower literal) limit None lowered_value, b)
  end.

(** * What the patterns mean *)

(** A piece that fits a pattern character, letter case included. *)
Definition exact_fits (c : ascii) (piece : list ascii) : Prop :=
  if is_star c then True else exists d, piece = [d] /\ (is_question c || Ascii.eqb c d) = true.

Abbreviation exact_matches := (pattern_matches exact_fits).

Lemma pattern_cons fits c p t : pattern_matches fits (c :: p) t <-> exists x u, t = x ++ u /\ fits c x /\ pattern_matches fits p u.
Proof. rewrite (pattern_app fits [c] p). by setoid_rewrite pattern_single. Qed.

Lemma exact_star c p t : is_star c = true -> exact_matches (c :: p) t <-> exists x u, t = x ++ u /\ exact_matches p u.
Proof. intros Hc. rewrite pattern_cons. unfold exact_fits at 1. rewrite Hc. naive_solver. Qed.

Lemma exact_char c p t : is_star c = false ->
  exact_matches (c :: p) t <-> exists d u, t = d :: u /\ (is_question c || Ascii.eqb c d) = true /\ exact_matches p u.
Proof.
  intros Hc. rewrite pattern_cons. unfold exact_fits at 1. rewrite Hc. split.
  - intros (x & u & -> & (d & -> & Hd) & Hu). by exists d, u.
  - intros (d & u & -> & Hd & Hu). exists [d], u. split; [done|]. split; [by exists d|done].
Qed.

Lemma exact_nil_text p : exact_matches p [] <-> forallb is_star p = true.
Proof.
  induction p as [|c p IH]; [split; [done|by intros _; apply pattern_nil]|]. simpl. destruct (is_star c) eqn:Hc; simpl.
  - rewrite exact_star by done. rewrite <- IH. split; [|by exists [], []]. intros (x & u & Hx & Hu). symmetry in Hx.
    by apply app_nil in Hx as [_ ->].
  - rewrite exact_char by done. split; [by intros (d & u & ? & _)|done].
Qed.

Lemma plain_length q y : no_star q -> exact_matches q y -> length y = length q.
Proof.
  intros Hq. revert y. induction Hq as [|c q Hc Hq IH]; intros y; [by rewrite pattern_nil; intros ->|].
  rewrite exact_char by done. intros (d & u & -> & _ & Hu). simpl. by rewrite (IH u).
Qed.

Lemma lower_star c : is_star (to_lower_ascii c) = is_star c.
Proof. destruct c as [[] [] [] [] [] [] [] []]; reflexivity. Qed.

Lemma lower_question c : is_question (to_lower_ascii c) = is_question c.
Proof. destruct c as [[] [] [] [] [] [] [] []]; reflexivity. Qed.

Lemma lower_word c : is_word_character (to_lower_ascii c) = is_word_character c.
Proof. destruct c as [[] [] [] [] [] [] [] []]; reflexivity. Qed.

Lemma glob_fits_lower c x : glob_fits c x <-> exact_fits (to_lower_ascii c) (ascii_lower x).
Proof.
  unfold glob_fits, exact_fits. rewrite lower_star, lower_question. unfold is_star, is_question, case_insensitive_equal.
  destruct (Ascii.eqb c "*"); [done|]. destruct (Ascii.eqb c "?"); simpl.
  - split; [|intros (d & Hx & _)]; destruct x as [|e [|]]; try done. by exists (to_lower_ascii e).
  - split; [intros (d & -> & Hd); by exists (to_lower_ascii d)|]. intros (d & Hx & Hd). destruct x as [|e [|]]; try done.
    injection Hx as <-. by exists e.
Qed.

(** Lowering both sides is matching without regard to letter case. *)
Lemma lower_matches p t : exact_matches (ascii_lower p) (ascii_lower t) <-> pattern_matches glob_fits p t.
Proof.
  revert t. induction p as [|c p IH]; intros t; simpl.
  { rewrite !pattern_nil. split; [by intros ?%fmap_nil_inv|by intros ->]. }
  rewrite !pattern_cons. split.
  - intros (x' & u' & Ht & Hx & Hu). apply fmap_app_inv in Ht as (x & u & -> & -> & ->). exists x, u.
    split; [done|]. by rewrite glob_fits_lower, <- IH.
  - intros (x & u & -> & Hx & Hu). exists (ascii_lower x), (ascii_lower u). unfold ascii_lower at 1. rewrite fmap_app.
    split; [done|]. by rewrite <- glob_fits_lower, IH.
Qed.

(** * The whole-value matcher is exact *)

(** What is left to try once the last star takes more characters. *)
Definition later_matches (star : option (list ascii * list ascii)) : Prop :=
  exists ps vs x u, star = Some (ps, vs) /\ vs = x ++ u /\ x <> [] /\ exact_matches ps u.

(** The star's texts lie before the current ones, a run without stars apart. *)
Definition star_ok (value pattern : list ascii) (star : option (list ascii * list ascii)) : Prop :=
  forall ps vs, star = Some (ps, vs) -> exists q y, ps = q ++ pattern /\ vs = y ++ value /\ no_star q /\ length y = length q.

Definition star_length (value : list ascii) (star : option (list ascii * list ascii)) : nat :=
  match star with Some (_, vs) => length vs | None => length value end.

Lemma later_cut value pattern star : star_ok value pattern star -> later_matches star ->
  exists x u, value = x ++ u /\ x <> [] /\ exact_matches pattern u.
Proof.
  intros Hok (ps & vs & x & u & -> & Hvs & Hx & Hm). destruct (Hok ps vs eq_refl) as (q & y & -> & -> & Hq & Hlen).
  apply pattern_app in Hm as (t & w & -> & Ht & Hw). apply plain_length in Ht; [|done].
  rewrite (app_assoc x) in Hvs. pose proof Hvs as Hvs'. apply (f_equal (drop (length y))) in Hvs'. rewrite drop_app_length in Hvs'.
  exists (drop (length y) (x ++ t)), w. rewrite Hvs', drop_app_le; [|rewrite length_app; lia]. split; [done|]. split; [|done].
  intros Hn. apply (f_equal length) in Hn. rewrite length_drop, length_app in Hn. destruct x; [done|]. simpl in Hn. lia.
Qed.

Lemma later_step ps v vs : later_matches (Some (ps, v :: vs)) <-> exact_matches ps vs \/ later_matches (Some (ps, vs)).
Proof.
  split.
  - intros (ps' & vs' & x & u & [= <- <-] & Hvs & Hx & Hm). destruct x as [|e x]; [done|]. injection Hvs as <- ->.
    destruct x as [|e' x]; [by left|]. right. by exists ps, ((e' :: x) ++ u), (e' :: x), u.
  - intros [Hm|(ps' & vs' & x & u & [= <- <-] & -> & Hx & Hm)].
    + by exists ps, (v :: vs), [v], vs.
    + by exists ps, (v :: x ++ u), (v :: x), u.
Qed.

Lemma star_step_ok c value pattern : star_ok value pattern (Some (pattern, value)) /\
  (is_star c = true -> (exact_matches pattern value \/ later_matches (Some (pattern, value)) <-> exact_matches (c :: pattern) value)).
Proof.
  split; [intros ps vs [= <- <-]; exists [], []; repeat split; constructor|]. intros Hc. rewrite exact_star by done. split.
  - intros [Hm|(ps & vs & x & u & [= <- <-] & -> & _ & Hm)]; [by exists [], value|by exists x, u].
  - intros (x & u & -> & Hm). destruct x as [|e x]; [by left|]. right. by exists pattern, ((e :: x) ++ u), (e :: x), u.
Qed.

Lemma glob_loop_spec K rounds value pattern star : star_ok value pattern star ->
  (length value + length pattern < K)%nat -> (forall ps vs, star = Some (ps, vs) -> (length vs + length ps < K)%nat) ->
  (length value + length pattern + star_length value star * K <= rounds)%nat ->
  glob_loop rounds value pattern star = true <-> exact_matches pattern value \/ later_matches star.
Proof.
  revert value pattern star. induction rounds as [|rounds IH]; intros value pattern star Hok HK HKs Hr.
  { assert (value = []) as -> by (destruct value; [done|simpl in Hr; lia]). simpl. rewrite <- exact_nil_text. split; [by left|].
    intros [?|Hl]; [done|]. destruct (later_cut _ _ _ Hok Hl) as (x & u & Hx & Hne & _). by destruct x. }
  destruct value as [|v value].
  { simpl. rewrite <- exact_nil_text. split; [by left|]. intros [?|Hl]; [done|].
    destruct (later_cut _ _ _ Hok Hl) as (x & u & Hx & Hne & _). by destruct x. }
  assert (forall R : bool, R = match star with Some (ps, _ :: from) => glob_loop rounds from ps (Some (ps, from)) | _ => false end ->
    ~ exact_matches pattern (v :: value) -> R = true <-> exact_matches pattern (v :: value) \/ later_matches star) as Hretry.
  { intros R -> Hno. destruct star as [[ps [|w vs]]|].
    - exfalso. destruct (Hok ps [] eq_refl) as (q & y & _ & Hy & _). by destruct y.
    - rewrite later_step, IH; [naive_solver|..].
      + intros ps' vs' [= <- <-]. exists [], []. repeat split. constructor.
      + specialize (HKs _ _ eq_refl). simpl in HKs. lia.
      + intros ps' vs' [= <- <-]. specialize (HKs _ _ eq_refl). simpl in HKs. lia.
      + specialize (HKs _ _ eq_refl). simpl in *. lia.
    - split; [done|]. intros [?|(? & ? & ? & ? & ? & _)]; done. }
  simpl. destruct pattern as [|p pattern].
  { apply Hretry; [done|]. by rewrite pattern_nil. }
  destruct (is_star p) eqn:Hp.
  - destruct (star_step_ok p (v :: value) pattern) as [Hok' Heq]. rewrite IH; [rewrite Heq by done|exact Hok'|..].
    + split; [by left|]. intros [?|Hl]; [done|]. destruct (later_cut _ _ _ Hok Hl) as (x & u & -> & _ & Hm).
      rewrite exact_star in Hm |- * by done. destruct Hm as (y & w & -> & Hw). exists (x ++ y), w. by rewrite app_assoc.
    + simpl in *. lia.
    + intros ps vs [= <- <-]. simpl in *. lia.
    + assert (length (v :: value) <= star_length (v :: value) star)%nat.
      { destruct star as [[ps vs]|]; [|done]. destruct (Hok _ _ eq_refl) as (q & y & _ & -> & _). simpl. rewrite length_app. simpl. lia. }
      simpl in *. nia.
  - destruct (is_question p || Ascii.eqb p v) eqn:Hfit.
    + rewrite exact_char by done. rewrite IH.
      * split; (intros [Hm|Hl]; [left|by right]); [by exists v, value|]. by destruct Hm as (d & u & [= <- <-] & _ & Hm).
      * intros ps vs ->. destruct (Hok _ _ eq_refl) as (q & y & -> & -> & Hq & Hlen). exists (q ++ [p]), (y ++ [v]).
        rewrite <- !app_assoc, !length_app. split; [done|]. split; [done|]. split; [|simpl; lia]. apply Forall_app. split; [done|]. by repeat constructor.
      * simpl in *. lia.
      * done.
      * destruct star as [[ps vs]|]; simpl in *; nia.
    + apply Hretry; [done|]. rewrite exact_char by done. intros (d & u & [= <- <-] & Hd & _). congruence.
Qed.

Lemma no_wildcard_matches p t : has_glob_wildcard p = false -> exact_matches p t <-> t = p.
Proof.
  revert t. induction p as [|c p IH]; intros t; simpl; [by rewrite pattern_nil|].
  intros [[Hs Hq]%orb_false_iff Hp]%orb_false_iff. rewrite exact_char, Hq by done. setoid_rewrite IH; [|done]. simpl.
  setoid_rewrite Ascii.eqb_eq. naive_solver.
Qed.

Lemma glob_matches_full_exact value pattern : glob_matches_full value pattern = true <-> exact_matches pattern value.
Proof.
  unfold glob_matches_full. destruct (has_glob_wildcard pattern) eqn:Hw; cbn [negb].
  - rewrite (glob_loop_spec (S (length value + length pattern))).
    + split; [|by left]. intros [?|(? & ? & ? & ? & ? & _)]; done.
    + done.
    + lia.
    + done.
    + unfold glob_rounds. simpl. lia.
  - rewrite bool_decide_eq_true, no_wildcard_matches by done. done.
Qed.

(** * The search between word boundaries is exact *)

Definition starts_at (pre : list ascii) : bool := is_start (last pre).

(** The stars a candidate standing before [p2] has already entered. *)
Definition entered (p2 : list ascii) : list ascii := match p2 with c :: _ => if is_star c then [c] else [] | [] => [] end.

(** Some text begun at a word boundary and ending here matches the pattern up to this place. *)
Definition stands (p1 p2 pre : list ascii) : Prop :=
  exists a mid, pre = a ++ mid /\ starts_at a = true /\ exact_matches (p1 ++ entered p2) mid.

(** A candidate that came to this place with the last character. *)
Definition came (p1 p2 pre : list ascii) (v : ascii) : Prop :=
  exists p1' c, p1 = p1' ++ [c] /\ is_star c = false /\ (is_question c || Ascii.eqb c v) = true /\ stands p1' (c :: p2) pre.

Definition arrives (p1 p2 pre : list ascii) : Prop :=
  exists pre' v, pre = pre' ++ [v] /\ ((entered p2 <> [] /\ stands p1 p2 pre') \/ came p1 p2 pre' v).

Lemma entered_empty p2 : exact_matches (entered p2) [].
Proof. apply exact_nil_text. destruct p2 as [|c p2]; simpl; [done|]. destruct (is_star c) eqn:E; simpl; [by rewrite E|done]. Qed.

Lemma entered_any p2 x : entered p2 <> [] -> exact_matches (entered p2) x.
Proof.
  destruct p2 as [|c p2]; simpl; [done|]. destruct (is_star c) eqn:E; [|done]. intros _. rewrite exact_star by done.
  exists x, []. split; [by rewrite app_nil_r|by apply pattern_nil].
Qed.

Lemma exact_snoc p t x : exact_matches p t -> forall q, exact_matches q x -> exact_matches (p ++ q) (t ++ x).
Proof. intros Hp q Hq. apply pattern_app. by exists t, x. Qed.

Lemma stands_plain p1 p2 pre a mid : pre = a ++ mid -> starts_at a = true -> exact_matches p1 mid -> stands p1 p2 pre.
Proof.
  intros -> Ha Hm. exists a, mid. split; [done|]. split; [done|]. rewrite <- (app_nil_r mid). apply exact_snoc; [done|apply entered_empty].
Qed.

Lemma stands_step p1 p2 pre : stands p1 p2 pre <->
  (p1 = [] /\ starts_at pre = true) \/ (exists p1' c, p1 = p1' ++ [c] /\ is_star c = true /\ stands p1' (c :: p2) pre) \/ arrives p1 p2 pre.
Proof.
  split.
  - assert (forall a mid, pre = a ++ mid -> starts_at a = true -> exact_matches p1 mid ->
      (p1 = [] /\ starts_at pre = true) \/ (exists p1' c, p1 = p1' ++ [c] /\ is_star c = true /\ stands p1' (c :: p2) pre) \/ arrives p1 p2 pre) as Hplain.
    { intros a mid -> Ha Hm. destruct p1 as [|c p1 _] using rev_ind.
      { apply pattern_nil in Hm as ->. rewrite app_nil_r. by left. }
      right. destruct (is_star c) eqn:Hc; [left|right].
      - exists p1, c. split; [done|]. split; [done|]. exists a, mid. simpl. by rewrite Hc.
      - apply pattern_app in Hm as (m & x & -> & Hm & Hx). apply exact_char in Hx as (d & u & -> & Hd & ->%pattern_nil); [|done].
        exists (a ++ m), d. rewrite <- app_assoc. split; [done|]. right. exists p1, c. repeat split; try done. by apply (stands_plain _ _ _ a m). }
    intros (a & mid & -> & Ha & Hm). apply pattern_app in Hm as (m & x & -> & Hm & Hx).
    destruct x as [|v x _] using rev_ind; [rewrite app_nil_r in *; by apply (Hplain a m)|].
    right. right. exists (a ++ m ++ x), v. rewrite <- !app_assoc. split; [done|]. left.
    assert (entered p2 <> []) as Hne by (intros Hn; rewrite Hn in Hx; apply pattern_nil in Hx; by destruct x). split; [done|].
    exists a, (m ++ x). split; [by rewrite app_assoc|]. split; [done|]. apply exact_snoc; [done|by apply entered_any].
  - intros [[-> Hs]|[(p1' & c & -> & Hc & (a & mid & -> & Ha & Hm))|(pre' & v & -> & [[Hne (a & mid & -> & Ha & Hm)]|(p1' & c & -> & Hc & Hv & (a & mid & -> & Ha & Hm))])]].
    + apply (stands_plain _ _ _ pre []); [by rewrite app_nil_r|done|by apply pattern_nil].
    + simpl in Hm. rewrite Hc in Hm. by apply (stands_plain _ _ _ a mid).
    + exists a, (mid ++ [v]). split; [by rewrite app_assoc|]. split; [done|]. apply pattern_app in Hm as (m & x & -> & Hm & _).
      rewrite <- app_assoc. apply exact_snoc; [done|by apply entered_any].
    + simpl in Hm. rewrite Hc, app_nil_r in Hm. apply (stands_plain _ _ _ a (mid ++ [v])); [by rewrite app_assoc|done|].
      apply exact_snoc; [done|]. rewrite exact_char by done. exists v, []. split; [done|]. split; [done|by apply pattern_nil].
Qed.

(** Each entry of the buffer says whether a predicate holds of its place in the pattern. *)
Fixpoint entries_say (P : list ascii -> list ascii -> Prop) (p1 p2 : list ascii) (active : list bool) {struct active} : Prop :=
  match active with
  | [] => False
  | a :: active =>
      (a = true <-> P p1 p2) /\ match p2 with [] => active = [] | c :: p2 => entries_say P (p1 ++ [c]) p2 active end
  end.

Lemma close_stars_say p1 p2 pre a active :
  (a = true <-> stands p1 p2 pre) -> match p2 with [] => active = [] | c :: p2 => entries_say (fun p1 p2 => arrives p1 p2 pre) (p1 ++ [c]) p2 active end ->
  entries_say (fun p1 p2 => stands p1 p2 pre) p1 p2 (close_stars p2 (a :: active)).
Proof.
  revert p1 a active. induction p2 as [|c p2 IH]; intros p1 a active Ha Hr; [by simpl; subst|].
  destruct active as [|b active]; [done|]. destruct Hr as [Hb Hr]. simpl. split; [done|]. apply IH; [|done].
  rewrite stands_step, orb_true_iff, andb_true_iff, Hb, Ha. split.
  - intros [Harr|[Hs Hc]]; [by right; right|]. right. left. by exists p1, c.
  - intros [[Hn _]|[(p1' & c' & [-> ->]%app_inj_tail & Hc & Hs)|Harr]]; [by destruct p1|by right|by left].
Qed.

Lemma advance_say p1 p2 pre v active arrived :
  (arrived = true <-> came p1 p2 pre v) -> entries_say (fun p1 p2 => stands p1 p2 pre) p1 p2 active ->
  entries_say (fun p1 p2 => arrives p1 p2 (pre ++ [v])) p1 p2 (advance p2 active v arrived).
Proof.
  assert (forall p1 p2, arrives p1 p2 (pre ++ [v]) <-> (entered p2 <> [] /\ stands p1 p2 pre) \/ came p1 p2 pre v) as Harr.
  { intros q1 q2. split; [|by exists pre, v]. by intros (pre' & v' & [-> ->]%app_inj_tail & ?). }
  revert p1 active arrived. induction p2 as [|c p2 IH]; intros p1 [|a active] arrived Hcame Hsay; try done.
  - destruct Hsay as [Ha ->]. simpl. split; [|done]. rewrite Harr, Hcame. simpl. naive_solver.
  - destruct Hsay as [Ha Hsay]. simpl. split.
    + rewrite Harr, orb_true_iff, andb_true_iff, Hcame, Ha. simpl. destruct (is_star c); naive_solver.
    + apply IH; [|done]. rewrite !andb_true_iff, negb_true_iff, Ha. split.
      * intros [[Hs Hc] Hv]. by exists p1, c.
      * by intros (p1' & c' & [-> ->]%app_inj_tail & Hc & Hv & Hs).
Qed.

Lemma entries_say_length P p1 p2 active : entries_say P p1 p2 active -> length active = S (length p2).
Proof.
  revert p1 p2. induction active as [|a active IH]; intros p1 [|c p2]; simpl; try done; [by intros [_ ->]|].
  intros [_ Hr]. by rewrite (IH _ _ Hr).
Qed.

Lemma entries_say_last P p1 p2 active : entries_say P p1 p2 active -> List.last active false = true <-> P (p1 ++ p2) [].
Proof.
  revert p1 p2. induction active as [|a active IH]; intros p1 p2; [done|]. destruct p2 as [|c p2].
  - intros [Ha ->]. by rewrite app_nil_r.
  - intros [_ Hr]. pose proof (entries_say_length _ _ _ _ Hr). destruct active; [done|].
    rewrite (IH _ _ Hr), <- app_assoc. done.
Qed.

Lemma entries_say_start p pre active : entries_say (fun p1 p2 => arrives p1 p2 pre) [] p active ->
  entries_say (fun p1 p2 => stands p1 p2 pre) [] p (close_stars p (if starts_at pre then set_first active else active)).
Proof.
  destruct active as [|a active]; [done|]. intros [Ha Hr]. destruct (starts_at pre) eqn:Hs; apply close_stars_say; try done; rewrite stands_step.
  - split; [by left|done].
  - rewrite Ha. split; [by right; right|]. intros [[_ ?]|[(p1' & c & Hn & _)|?]]; [congruence|by destruct p1'|done].
Qed.

Lemma none_active active : existsb id active = false -> active = replicate (length active) false.
Proof. induction active as [|[] active IH]; simpl; [done|done|]. intros Hn. by rewrite <- IH. Qed.

Lemma close_stars_none p n : close_stars p (replicate n false) = replicate n false.
Proof. revert n. induction p as [|c p IH]; intros [|[|n]]; try done. simpl. f_equal. apply (IH (S n)). Qed.

Lemma advance_none p v : advance p (replicate (S (length p)) false) v false = replicate (S (length p)) false.
Proof. induction p as [|c p IH]; [done|]. simpl. f_equal. apply IH. Qed.

(** What a search may do to the budget. *)
Record charged (most : Z) (b b' : GlobBudget) : Prop := {
  ch_total : remaining b' + glob_spent b' = remaining b + glob_spent b;
  ch_spent : 0 <= glob_spent b' - glob_spent b <= most;
  ch_left : 0 <= remaining b -> 0 <= remaining b';
  ch_kept : exhausted b = true -> exhausted b' = true;
  ch_why : exhausted b' = true -> exhausted b = true \/ remaining b < most
}.

Lemma charge_charged steps b : 0 <= steps -> charged steps b (charge steps b).2.
Proof. intros Hs. unfold charge. destruct (Z.ltb_spec (remaining b) steps); split; simpl; try lia; auto. Qed.

Lemma charge_unpaid steps b : (charge steps b).1 = false -> exhausted (charge steps b).2 = true.
Proof. unfold charge. by destruct (_ <? _). Qed.

Lemma charged_refl b : charged 0 b b.
Proof. split; lia || auto. Qed.

Lemma charged_trans m1 m2 b1 b2 b3 : charged m1 b1 b2 -> charged m2 b2 b3 -> charged (m1 + m2) b1 b3.
Proof.
  intros [T1 S1 L1 K1 W1] [T2 S2 L2 K2 W2]. split; [lia|lia|auto|auto|]. intros H3. destruct (W2 H3) as [H2|?]; [|right; lia].
  destruct (W1 H2); [by left|right; lia].
Qed.

Lemma charged_weaken m m' b b' : m <= m' -> charged m b b' -> charged m' b b'.
Proof. intros Hm [T S L K W]. split; [done|lia|done|done|]. intros He. destruct (W He); [by left|right; lia]. Qed.

(** The rest of the search finds what ends after [x]. *)
Definition ends_in (p pre : list ascii) (to_limit : nat) (rest : list ascii) : Prop :=
  exists x y, rest = x ++ y /\ (length x <= to_limit)%nat /\ is_end y = true /\ stands p [] (pre ++ x).

Lemma ends_in_here p pre rest : ends_in p pre 0 rest <-> is_end rest = true /\ stands p [] pre.
Proof.
  split.
  - intros (x & y & -> & Hx & He & Hs). destruct x; [|simpl in Hx; lia]. by rewrite app_nil_r in Hs.
  - intros [He Hs]. exists [], rest. by rewrite app_nil_r.
Qed.

Lemma ends_in_step p pre to_limit v rest :
  ends_in p pre (S to_limit) (v :: rest) <-> (is_end (v :: rest) = true /\ stands p [] pre) \/ ends_in p (pre ++ [v]) to_limit rest.
Proof.
  split.
  - intros (x & y & Hx & Hl & He & Hs). destruct x as [|w x]; simpl in Hx.
    + subst y. rewrite app_nil_r in Hs. by left.
    + injection Hx as <- ->. right. exists x, y. rewrite <- app_assoc. simpl in Hl. split; [done|]. split; [lia|done].
  - intros [[He Hs]|(x & y & -> & Hl & He & Hs)].
    + exists [], (v :: rest). rewrite app_nil_r. split; [done|]. split; [simpl; lia|done].
    + exists (v :: x), y. rewrite <- app_assoc in Hs. split; [done|]. split; [simpl; lia|done].
Qed.

Definition search_exact (most : Z) (matches : Prop) (b : GlobBudget) (result : bool * GlobBudget) : Prop :=
  charged most b result.2 /\ (result.1 = true -> matches) /\ (exhausted result.2 = false -> matches -> result.1 = true).

Lemma search_unpaid most matches b b' : charged most b b' -> exhausted b' = true -> search_exact most matches b (false, b').
Proof. intros Hc He. split; [done|]. split; [done|]. simpl. congruence. Qed.

(** A search that reads on after paying [cost]. *)
Lemma search_later cost most matches matches' b b1 result : charged cost b b1 -> (matches <-> matches') -> 
  search_exact most matches' b1 result -> search_exact (cost + most) matches b result.
Proof. intros Hc Hm (H1 & H2 & H3). rewrite <- Hm in H2, H3. split; [|done]. by eapply charged_trans. Qed.

Lemma search_answer cost matches b b1 (found : bool) : charged cost b b1 -> (found = true <-> matches) -> search_exact cost matches b (found, b1).
Proof. intros Hc Hm. split; [done|]. split; [by apply Hm|intros _; by apply Hm]. Qed.

Lemma search_weaken m m' matches b result : m <= m' -> search_exact m matches b result -> search_exact m' matches b result.
Proof. intros Hm (H1 & H2). split; [by apply (charged_weaken m)|done]. Qed.

Lemma boundary_turn p to_limit before rest active any_active b : boundary_loop p to_limit before rest active any_active b =
  let '(paid, b) := charge 1 b in
  if negb paid then (false, b)
  else
    let active := if is_start before then set_first active else active in
    let any_active := is_start before || any_active in
    let '(paid, b) := if any_active then charge (Z.of_nat (length p)) b else (true, b) in
    if negb paid then (false, b)
    else
      let active := if any_active then close_stars p active else active in
      if any_active && List.last active false && is_end rest then (true, b)
      else
        match to_limit, rest with
        | S to_limit, v :: rest =>
            if negb any_active then boundary_loop p to_limit (Some v) rest active any_active b
            else
              let '(paid, b) := charge (Z.of_nat (length p)) b in
              if negb paid then (false, b)
              else boundary_loop p to_limit (Some v) rest (advance p active v false) (existsb id (advance p active v false)) b
        | _, _ => (false, b)
        end.
Proof. by destruct to_limit. Qed.

Lemma boundary_loop_exact p to_limit pre rest active b : entries_say (fun p1 p2 => arrives p1 p2 pre) [] p active ->
  (to_limit <= length rest)%nat ->
  search_exact (Z.of_nat (S to_limit) * (1 + 2 * Z.of_nat (length p))) (ends_in p pre to_limit rest) b
    (boundary_loop p to_limit (last pre) rest active (existsb id active) b).
Proof.
  revert pre rest active b. induction to_limit as [to_limit IH] using lt_wf_ind. intros pre rest active b Hsay Hlen.
  pose proof (entries_say_start _ _ _ Hsay) as Hrow. rewrite boundary_turn. change (is_start (last pre)) with (starts_at pre).
  pose proof (charge_charged 1 b ltac:(lia)) as Hc1. pose proof (charge_unpaid 1 b) as Hu1.
  destruct (charge 1 b) as [[] b1]; cbn [negb]; [|apply search_unpaid; [eapply charged_weaken; [|exact Hc1]; nia|by apply Hu1]].
  simpl snd in Hc1. clear Hu1. destruct (starts_at pre || existsb id active) eqn:Hany; cbn [negb andb].
  - pose proof (charge_charged (Z.of_nat (length p)) b1 ltac:(lia)) as Hc2. pose proof (charge_unpaid (Z.of_nat (length p)) b1) as Hu2.
    destruct (charge _ b1) as [[] b2]; cbn [negb]; simpl snd in Hc2; pose proof (charged_trans _ _ _ _ _ Hc1 Hc2) as Hc12;
      [|apply search_unpaid; [eapply charged_weaken; [|exact Hc12]; nia|by apply Hu2]].
    set (active2 := close_stars p _) in *. pose proof (entries_say_last _ _ _ _ Hrow) as Hlast. simpl in Hlast.
    destruct (List.last active2 false && is_end rest) eqn:Hacc.
    + apply andb_true_iff in Hacc as [Hl He]. apply search_weaken with (m := 1 + Z.of_nat (length p)); [nia|].
      apply search_answer; [done|]. split; [|done]. intros _. exists [], rest. rewrite app_nil_r. split; [done|]. split; [simpl; lia|].
      split; [done|by apply Hlast].
    + assert (~ (is_end rest = true /\ stands p [] pre)) as Hno.
      { intros [He Hs]. apply Hlast in Hs. by rewrite Hs, He in Hacc. }
      destruct to_limit as [|to_limit].
      { apply search_weaken with (m := 1 + Z.of_nat (length p)); [nia|]. apply search_answer; [done|]. by rewrite ends_in_here. }
      destruct rest as [|v rest]; [simpl in Hlen; lia|].
      pose proof (charge_charged (Z.of_nat (length p)) b2 ltac:(lia)) as Hc3. pose proof (charge_unpaid (Z.of_nat (length p)) b2) as Hu3.
      destruct (charge _ b2) as [[] b3]; cbn [negb]; simpl snd in Hc3; pose proof (charged_trans _ _ _ _ _ Hc12 Hc3) as Hc;
        [|apply search_unpaid; [eapply charged_weaken; [|exact Hc]; nia|by apply Hu3]].
      replace (Some v) with (last (pre ++ [v])) by apply last_snoc.
      eapply search_weaken; [|eapply search_later; [exact Hc| |apply (IH to_limit); [lia| |simpl in Hlen; lia]]]; [nia| |].
      * rewrite ends_in_step. naive_solver.
      * apply advance_say; [|done]. split; [done|]. by intros (p1' & c & Hn & _); destruct p1'.
  - apply orb_false_iff in Hany as [Hs Hn]. rewrite Hs in *. pose proof (none_active _ Hn) as Hrep.
    rewrite (entries_say_length _ _ _ _ Hsay) in Hrep. rewrite Hrep, close_stars_none, <- Hrep in Hrow.
    assert (~ stands p [] pre) as Hno.
    { rewrite <- (entries_say_last _ _ _ _ Hrow). rewrite Hrep. clear. induction (length p) as [|n IHn]; [done|]. simpl in *. by destruct n. }
    destruct to_limit as [|to_limit].
    { apply search_weaken with (m := 1); [nia|]. apply search_answer; [done|]. rewrite ends_in_here. naive_solver. }
    destruct rest as [|v rest]; [simpl in Hlen; lia|]. replace (Some v) with (last (pre ++ [v])) by apply last_snoc.
    replace (boundary_loop p to_limit (last (pre ++ [v])) rest active false b1)
      with (boundary_loop p to_limit (last (pre ++ [v])) rest active (existsb id active) b1) by (by rewrite Hn).
    eapply search_weaken; [|eapply search_later; [exact Hc1| |apply (IH to_limit); [lia| |simpl in Hlen; lia]]]; [nia| |].
    + rewrite ends_in_step. naive_solver.
    + rewrite Hrep, <- (advance_none p v), <- Hrep. apply advance_say; [|done]. split; [done|]. by intros (p1' & c & Hn' & _); destruct p1'.
Qed.

(** * Over the value as it was sent *)

(** A piece within the first 4096 bytes, a word boundary on either side. *)
Definition between_boundaries (P : list ascii -> Prop) (value : list ascii) : Prop :=
  exists pre mid post, value = pre ++ mid ++ post /\ (length pre + length mid <= max_push_glob_body_bytes)%nat /\
    starts_at pre = true /\ is_end post = true /\ P mid.

Definition searched_length (value : list ascii) : nat := Nat.min (length value) max_push_glob_body_bytes.

Lemma lower_starts pre : starts_at (ascii_lower pre) = starts_at pre.
Proof. unfold starts_at, ascii_lower. rewrite fmap_last. destruct (last pre); simpl; [by rewrite lower_word|done]. Qed.

Lemma lower_ends post : is_end (ascii_lower post) = is_end post.
Proof. destruct post; simpl; [done|by rewrite lower_word]. Qed.

Lemma take_post n (value pre post : list ascii) : value = pre ++ post -> (length pre <= n)%nat -> take n value = pre ++ take (n - length pre) post.
Proof. intros -> Hn. rewrite take_app_ge by lia. done. Qed.

(** Searching the lowered window is searching the value. *)
Lemma window P value limit : limit = searched_length value ->
  (exists a mid y, ascii_lower (take (Nat.min (length value) (limit + 1)) value) = a ++ mid ++ y /\ (length a + length mid <= limit)%nat /\
    starts_at a = true /\ is_end y = true /\ P mid) <-> between_boundaries (fun mid => P (ascii_lower mid)) value.
Proof.
  unfold searched_length. intros ->. set (k := Nat.min (length value) _). split.
  - intros (a' & mid' & y' & Heq & Hlen & Ha & Hy & HP). apply fmap_app_inv in Heq as (a & z & -> & Hz & Htake).
    symmetry in Hz. apply fmap_app_inv in Hz as (mid & y & -> & -> & ->). fold (ascii_lower a) (ascii_lower mid) (ascii_lower y) in *.
    rewrite lower_starts in Ha. rewrite lower_ends in Hy. unfold ascii_lower in Hlen. rewrite !length_fmap in Hlen.
    exists a, mid, (y ++ drop k value). rewrite <- (take_drop k value) at 1. rewrite Htake, <- !app_assoc.
    split; [done|]. split; [lia|]. split; [done|]. split; [|done]. destruct y as [|c y]; [|done].
    apply (f_equal length) in Htake. rewrite length_take, !length_app in Htake. simpl in Htake. rewrite drop_ge; [done|lia].
  - intros (pre & mid & post & Hv & Hlen & Ha & Hy & HP). assert (length value = length pre + length mid + length post)%nat as Hl
      by (rewrite Hv, !length_app; lia).
    exists (ascii_lower pre), (ascii_lower mid), (ascii_lower (take (k - length (pre ++ mid)) post)).
    rewrite (take_post k value (pre ++ mid) post); [|by rewrite <- app_assoc|rewrite length_app; lia].
    unfold ascii_lower at 1. rewrite !fmap_app, <- app_assoc. split; [done|].
    split; [unfold ascii_lower; rewrite !length_fmap; lia|]. rewrite lower_starts, lower_ends. split; [done|]. split; [|done].
    destruct post as [|c post]; [by rewrite take_nil|]. rewrite length_app. simpl in Hl.
    destruct (k - _)%nat eqn:E; [|done]. lia.
Qed.

(** The steps a search of the body may take. *)
Definition glob_cost (value pattern : list ascii) : Z := Z.of_nat (S (searched_length value)) * (1 + 2 * Z.of_nat (length pattern)).

Lemma stands_whole p x : stands p [] x <-> exists a mid, x = a ++ mid /\ starts_at a = true /\ exact_matches p mid.
Proof. unfold stands. simpl. by rewrite app_nil_r. Qed.

Lemma nothing_arrived p1 p2 : entries_say (fun p1 p2 => arrives p1 p2 []) p1 p2 (replicate (S (length p2)) false).
Proof.
  revert p1. induction p2 as [|c p2 IH]; intros p1; simpl; (split; [|done || apply IH]); split; try done; by intros (pre & v & Hn & _); destruct pre.
Qed.

Lemma existsb_none n : existsb id (replicate n false) = false.
Proof. by induction n. Qed.

Lemma glob_boundary_exact value pattern b :
  search_exact (glob_cost value pattern) (between_boundaries (pattern_matches glob_fits pattern) value) b
    (glob_matches_word_boundary_substring value pattern b).
Proof.
  unfold glob_matches_word_boundary_substring, glob_cost. fold (searched_length value). set (limit := searched_length value).
  set (lowered := ascii_lower (take _ value)). set (p := ascii_lower pattern).
  replace (length pattern) with (length p) by apply length_fmap.
  assert (length lowered = Nat.min (length value) (limit + 1)) as Hl by (unfold lowered, ascii_lower; rewrite length_fmap, length_take; lia).
  pose proof (boundary_loop_exact p limit [] lowered _ b (nothing_arrived [] p)) as (H1 & H2 & H3);
    [rewrite Hl; unfold limit, searched_length; lia|].
  rewrite existsb_none in H1, H2, H3. assert (ends_in p [] limit lowered <-> between_boundaries (pattern_matches glob_fits pattern) value) as Heq.
  { transitivity (between_boundaries (fun mid => exact_matches p (ascii_lower mid)) value).
    - rewrite <- (window _ value limit eq_refl). unfold ends_in. setoid_rewrite stands_whole. fold lowered. simpl. split.
      + intros (x & y & Hx & Hlen & Hy & a & mid & -> & Ha & Hm). exists a, mid, y. rewrite length_app in Hlen. by rewrite app_assoc.
      + intros (a & mid & y & Hx & Hlen & Ha & Hy & Hm). exists (a ++ mid), y. rewrite <- app_assoc, length_app. repeat split; try done. by exists a, mid.
    - unfold between_boundaries, p. by setoid_rewrite lower_matches. }
  rewrite Heq in H2, H3. done.
Qed.

(** * The search for a literal *)

Lemma literal_loop_exact literal rounds to_limit pre rest : literal <> [] -> (length rest < rounds)%nat ->
  literal_loop rounds literal to_limit (last pre) rest = true <->
  exists a y, rest = a ++ literal ++ y /\ (length a + length literal <= to_limit)%nat /\ starts_at (pre ++ a) = true /\ is_end y = true.
Proof.
  intros Hne. revert to_limit pre rest. induction rounds as [|rounds IH]; intros to_limit pre rest Hr; [lia|].
  simpl. destruct (find_run literal rest) as [found|] eqn:Hf.
  2:{ split; [done|]. intros (a & y & -> & _). exfalso. apply (find_run_None _ _ Hf). by exists a, y. }
  destruct (find_run_Some _ _ _ Hf) as (a & w & -> & Ha & Hfirst).
  destruct (Nat.ltb_spec to_limit (found + length literal)) as [Hlim|Hlim].
  { split; [done|]. intros (a' & y & Heq & Hlen & _). specialize (Hfirst a' y Heq). lia. }
  assert (match found with O => last pre | S i => (a ++ literal ++ w) !! i end = last (pre ++ a)) as ->.
  { subst found. destruct a as [|c a _] using rev_ind; [by rewrite app_nil_r|]. rewrite length_app. simpl.
    replace (length a + 1)%nat with (S (length a)) by lia. rewrite (app_assoc pre), last_snoc, <- app_assoc. by apply list_lookup_middle. }
  rewrite <- Ha, <- length_app, app_assoc, drop_app_length, <- app_assoc. change (is_start (last (pre ++ a))) with (starts_at (pre ++ a)).
  destruct (starts_at (pre ++ a) && is_end w) eqn:Hb.
  { split; [|done]. intros _. apply andb_true_iff in Hb as [Hs He]. exists a, w. split; [done|]. split; [lia|done]. }
  destruct literal as [|l literal]; [done|].
  assert (exists c t, a ++ (l :: literal) ++ w = (a ++ [c]) ++ t /\ (a ++ (l :: literal) ++ w) !! length a = Some c) as (c & t & Heq & Hc).
  { exists l, (literal ++ w). rewrite <- app_assoc. split; [done|]. by apply list_lookup_middle. }
  rewrite Hc. replace (length a + 1)%nat with (length (a ++ [c])) by (rewrite length_app; done).
  rewrite Heq at 1. rewrite drop_app_length. replace (Some c) with (last (pre ++ a ++ [c])) by (by rewrite app_assoc, last_snoc).
  rewrite IH by (rewrite Heq, !length_app in Hr; simpl in Hr; lia). rewrite Heq in *. split.
  - intros (a' & y & -> & Hlen & Hs & He). exists ((a ++ [c]) ++ a'), y. rewrite <- !app_assoc in *. split; [done|]. rewrite !length_app in *. simpl in *.
    split; [lia|done].
  - intros (a' & y & Heq' & Hlen & Hs & He). specialize (Hfirst a' y Heq').
    assert (length a <> length a') as Hlen'.
    { intros Hl. assert (a' = a) as -> by (apply (f_equal (take (length a))) in Heq'; rewrite <- app_assoc in Heq'; rewrite Hl in Heq' at 2; by rewrite !take_app_length in Heq').
      rewrite <- Heq in Heq'. apply app_inv_head, app_inv_head in Heq'. subst y. by rewrite Hs, He in Hb. }
    exists (drop (length (a ++ [c])) a'), y. assert (a' = (a ++ [c]) ++ drop (length (a ++ [c])) a') as Ha'.
    { rewrite <- (take_drop (length (a ++ [c])) a') at 1. f_equal. apply (f_equal (take (length (a ++ [c])))) in Heq'.
      rewrite take_app_length, take_app_le in Heq' by (rewrite length_app; simpl; lia). done. }
    rewrite Ha' in Heq', Hs, Hlen. rewrite <- (app_assoc (a ++ [c]) (drop _ _)) in Heq'. apply app_inv_head in Heq'. split; [done|]. rewrite !length_app in *. simpl in *.
    split; [lia|]. by rewrite <- !app_assoc in *.
Qed.

Definition literal_cost (value literal : list ascii) : Z := Z.of_nat (searched_length value + 1) * Z.of_nat (length literal).

Lemma literal_boundary_exact value literal b : literal <> [] ->
  search_exact (literal_cost value literal) (between_boundaries (fun mid => ascii_lower mid = ascii_lower literal) value) b
    (contains_literal_word_boundary_substring value literal b).
Proof.
  intros Hne. unfold contains_literal_word_boundary_substring, literal_cost. fold (searched_length value). set (limit := searched_length value).
  assert (forall A (x y : A), match literal with [] => x | _ => y end = y) as -> by (by destruct literal).
  set (cost := _ * Z.of_nat (length literal)). pose proof (charge_charged cost b ltac:(lia)) as Hc. pose proof (charge_unpaid cost b) as Hu.
  destruct (charge cost b) as [[] b1]; cbn [negb]; [|apply search_unpaid; [done|by apply Hu]]. apply search_answer; [done|].
  set (lowered := ascii_lower (take _ value)). change None with (last ([] : list ascii)).
  rewrite literal_loop_exact; [|by destruct literal|lia]. rewrite <- (window (fun mid => mid = ascii_lower literal) value limit eq_refl).
  fold lowered. simpl. split.
  - intros (a & y & Hx & Hlen & Ha & Hy). by exists a, (ascii_lower literal), y.
  - intros (a & mid & y & Hx & Hlen & Ha & Hy & ->). by exists a, y.
Qed.

(** * Property *)

(** A search answers what it looks for unless it runs out of steps, is never wrong to answer yes, and pays for its
    steps within what is left. *)
Definition bounded_search (most : Z) (matches : Prop) (b : GlobBudget) (result : bool * GlobBudget) : Prop :=
  (result.1 = true -> matches) /\ (exhausted result.2 = false -> matches -> result.1 = true) /\
  0 <= glob_spent result.2 - glob_spent b <= most /\ 0 <= remaining result.2 /\
  remaining result.2 + glob_spent result.2 = remaining b + glob_spent b /\
  (exhausted b = false -> most <= remaining b -> exhausted result.2 = false).

Lemma search_bounded most matches b result : 0 <= remaining b -> search_exact most matches b result -> bounded_search most matches b result.
Proof.
  intros Hb ([T S L K W] & H1 & H2). split; [done|]. split; [done|]. split; [done|]. split; [auto|]. split; [done|].
  intros He Hm. destruct (exhausted result.2) eqn:E; [|done]. destruct (W eq_refl); [congruence|lia].
Qed.

(** C29. The text matching of push rules is exact and bounded. A value matches a pattern as a whole if and only if it
    can be cut into pieces that fit the pattern's characters, letter case aside. In a message body, a pattern is found
    if and only if such a piece lies in the first 4096 bytes between two word boundaries, and a display name if and
    only if it stands there itself, its stars and question marks meaning nothing. An answer yes is right even when the
    budget runs out; an answer no is right unless it ran out. With n the length of what is searched, at most 4096, a
    search for a pattern of m characters takes at most (n + 1) * (1 + 2 m) steps and a search for a display name of m
    characters at most (n + 1) * m, and never more than are left; with that many left it does not run out. *)
Theorem push_text_searches_exact value text b : 0 <= remaining b ->
  (glob_matches_full (ascii_lower value) (ascii_lower text) = true <-> pattern_matches glob_fits text value) /\
  bounded_search (Z.of_nat (S (searched_length value)) * (1 + 2 * Z.of_nat (length text)))
    (between_boundaries (pattern_matches glob_fits text) value) b (glob_matches_word_boundary_substring value text b) /\
  bounded_search (Z.of_nat (S (searched_length value)) * Z.of_nat (length text))
    (text <> [] /\ between_boundaries (fun piece => ascii_lower piece = ascii_lower text) value) b
    (contains_literal_word_boundary_substring value text b).
Proof.
  intros Hb. split; [by rewrite glob_matches_full_exact, lower_matches|]. split; [apply search_bounded, glob_boundary_exact; done|].
  apply search_bounded; [done|]. destruct text as [|c text]; [apply (search_weaken 0); [lia|]; apply search_answer; [apply charged_refl|naive_solver]|].
  destruct (literal_boundary_exact value (c :: text) b) as (H1 & H2 & H3); [done|]. unfold literal_cost in H1.
  replace (searched_length value + 1)%nat with (S (searched_length value)) in H1 by lia. split; [done|]. naive_solver.
Qed.

Lemma push_text_searches_exact_witness :
  let value := String.list_ascii_of_string "Hi ALICE*, see foobar" in let text := String.list_ascii_of_string "alice*" in
  (contains_literal_word_boundary_substring value text new_budget).1 = true /\
  text <> [] /\ between_boundaries (fun piece => ascii_lower piece = ascii_lower text) value.
Proof.
  intros value text. destruct (push_text_searches_exact value text new_budget) as (_ & _ & Hl & _); [done|].
  assert ((contains_literal_word_boundary_substring value text new_budget).1 = true) as Hf by (vm_compute; reflexivity).
  split; [exact Hf|exact (Hl Hf)].
Defined.
