(* ===== verification/PushRules.v ===== *)
(** Push rules (push/push_rules.cpp): parsing of a ruleset, its conditions, and the
    evaluation of an event for one recipient within the budget of matching steps. *)
From S2P Require Import Prelude CppStd JsonValue Glob PushText.
Open Scope Z_scope.

(** * Data *)

Inductive PushRuleKind : Type := override_kind | content_kind | room_kind | sender_kind | underride_kind.

#[global] Instance PushRuleKind_eq_dec : EqDecision PushRuleKind.
Proof. solve_decision. Defined.

Inductive PushConditionKind : Type :=
  | event_match | contains_display_name | room_member_count_kind | sender_notification_permission
  | event_property_is | event_property_contains | unknown_condition.

Record PushCondition : Type := {
  pc_kind : PushConditionKind;
  pc_key : string;
  pc_pattern : string;
  pc_is : string;
  pc_value : option Value
}.

Record PushRule : Type := {
  pr_rule_id : string;
  pr_kind : PushRuleKind;
  pr_enabled : bool;
  pr_is_default : bool;
  pr_conditions : list PushCondition;
  pr_content_pattern : string;
  pr_notify : bool;
  pr_tweak_sound : option string;
  pr_tweak_highlight : bool
}.

Record PushRuleset : Type := {
  override_rules : list PushRule;
  content_rules : list PushRule;
  room_rules : list PushRule;
  sender_rules : list PushRule;
  underride_rules : list PushRule
}.

Record PushEvaluationContext : Type := {
  receiving_user_id : string;
  receiving_user_display_name : string;
  room_member_count : Z;
  sender_power_level : Z;
  notification_power_levels : gmap string Z;
  default_notification_power_level : Z
}.

Record PushEvaluationResult : Type := {
  res_notify : bool;
  res_tweak_sound : option string;
  res_tweak_highlight : bool;
  matched_rule_id : string;
  glob_steps_used : Z;
  glob_budget_exhausted : bool
}.

Abbreviation bytes := String.list_ascii_of_string.

(** * Property paths *)

Definition is_escapable (c : ascii) : bool := Ascii.eqb c "." || Ascii.eqb c "\".

(** The loop of [split_property_path] from an index on. *)
Fixpoint split_path (current key : list ascii) : list (list ascii) :=
  match key with
  | [] => [current]
  | c :: rest =>
      let plain := if Ascii.eqb c "." then current :: split_path [] rest else split_path (current ++ [c]) rest in
      match rest with
      | d :: rest' => if Ascii.eqb c "\" && is_escapable d then split_path (current ++ [d]) rest' else plain
      | [] => plain
      end
  end.

Definition split_property_path (key : string) : list string := String.string_of_list_ascii <$> split_path [] (bytes key).

Fixpoint resolve_segments (current : Value) (segments : list string) : option Value :=
  match segments with
  | [] => Some current
  | segment :: segments =>
      match value_is_object current with
      | None => None
      | Some object => match object_member object segment with None => None | Some member => resolve_segments member segments end
      end
  end.

Definition resolve_event_property (event : Value) (key : string) : option Value :=
  resolve_segments event (split_property_path key).

Definition event_property_as_string (event : Value) (key : string) : option string :=
  resolve_event_property event key ≫= as_string.

Definition scalar_values_equal (lhs rhs : Value) : bool :=
  match lhs, rhs with
  | VNull, VNull => true
  | VBool a, VBool b => Bool.eqb a b
  | VInt a, VInt b => a =? b
  | VString a, VString b => a =s b
  | _, _ => false
  end.

(** * Member counts *)

(** [std::from_chars] for [std::uint64_t]: digits only. *)
Definition from_chars_uint64 (s : string) : from_chars_result :=
  let '(ds, rest) := span_digits s in
  if empty ds then FromChars ec_invalid_argument 0 s
  else if digits_value 0 ds <? 2 ^ 64 then FromChars ec_none (digits_value 0 ds) rest
  else FromChars ec_result_out_of_range 0 rest.

Record RoomMemberCountComparison : Type := { rmc_op : string; rmc_value : Z }.

Definition parse_room_member_count (comparison_text : string) : option RoomMemberCountComparison :=
  let '(op, digits) :=
    if String.prefix "<=" comparison_text || String.prefix ">=" comparison_text then (take_str 2 comparison_text, drop_str 2 comparison_text)
    else if String.prefix "==" comparison_text then ("==", drop_str 2 comparison_text)
    else if String.prefix "<" comparison_text || String.prefix ">" comparison_text then (take_str 1 comparison_text, drop_str 1 comparison_text)
    else ("==", comparison_text) in
  if empty digits then None
  else
    let result := from_chars_uint64 digits in
    match fc_ec result with
    | ec_none => if empty (fc_rest result) then Some {| rmc_op := op; rmc_value := fc_value result |} else None
    | _ => None
    end.

Definition room_member_count_matches (comparison_text : string) (actual : Z) : bool :=
  match parse_room_member_count comparison_text with
  | None => false
  | Some comparison =>
      if rmc_op comparison =s "<=" then actual <=? rmc_value comparison
      else if rmc_op comparison =s ">=" then rmc_value comparison <=? actual
      else if rmc_op comparison =s "<" then actual <? rmc_value comparison
      else if rmc_op comparison =s ">" then rmc_value comparison <? actual
      else actual =? rmc_value comparison
  end.

(** * Conditions *)

Definition condition_matches (condition : PushCondition) (event : Value) (context : PushEvaluationContext) (budget : GlobBudget)
    : bool * GlobBudget :=
  match pc_kind condition with
  | event_match =>
      match event_property_as_string event (pc_key condition) with
      | None => (false, budget)
      | Some value =>
          if pc_key condition =s "content.body"
          then glob_matches_word_boundary_substring (bytes value) (bytes (pc_pattern condition)) budget
          else (glob_matches_full (ascii_lower (bytes value)) (ascii_lower (bytes (pc_pattern condition))), budget)
      end
  | contains_display_name =>
      if empty (receiving_user_display_name context) then (false, budget)
      else
        match event_property_as_string event "content.body" with
        | None => (false, budget)
        | Some body => contains_literal_word_boundary_substring (bytes body) (bytes (receiving_user_display_name context)) budget
        end
  | room_member_count_kind => (room_member_count_matches (pc_is condition) (room_member_count context), budget)
  | sender_notification_permission =>
      let required := default (default_notification_power_level context) (notification_power_levels context !! pc_key condition) in
      (required <=? sender_power_level context, budget)
  | event_property_is =>
      match pc_value condition with
      | None => (false, budget)
      | Some value =>
          (match resolve_event_property event (pc_key condition) with None => false | Some actual => scalar_values_equal actual value end,
           budget)
      end
  | event_property_contains =>
      match pc_value condition with
      | None => (false, budget)
      | Some value =>
          (match resolve_event_property event (pc_key condition) ≫= as_array with
           | None => false
           | Some array => existsb (fun element => scalar_values_equal element value) array
           end, budget)
      end
  | unknown_condition => (false, budget)
  end.

(** [std::ranges::all_of] over the conditions, the budget passed along. *)
Fixpoint conditions_match (conditions : list PushCondition) (event : Value) (context : PushEvaluationContext) (budget : GlobBudget)
    : bool * GlobBudget :=
  match conditions with
  | [] => (true, budget)
  | condition :: conditions =>
      let '(matched, budget) := condition_matches condition event context budget in
      if matched then conditions_match conditions event context budget else (false, budget)
  end.

Definition rule_conditions_match (rule : PushRule) (event : Value) (context : PushEvaluationContext) (budget : GlobBudget)
    : bool * GlobBudget :=
  conditions_match (pr_conditions rule) event context budget.

Definition rule_matches_content (rule : PushRule) (event : Value) (budget : GlobBudget) : bool * GlobBudget :=
  if empty (pr_content_pattern rule) then (false, budget)
  else
    match event_property_as_string event "content.body" with
    | None => (false, budget)
    | Some body => glob_matches_word_boundary_substring (bytes body) (bytes (pr_content_pattern rule)) budget
    end.

(** * Parsing *)

Definition parse_condition_kind (kind : string) : PushConditionKind :=
  if kind =s "event_match" then event_match
  else if kind =s "contains_display_name" then contains_display_name
  else if kind =s "room_member_count" then room_member_count_kind
  else if kind =s "sender_notification_permission" then sender_notification_permission
  else if kind =s "event_property_is" then event_property_is
  else if kind =s "event_property_contains" then event_property_contains
  else unknown_condition.

Definition parse_condition (object : Object) : PushCondition := {|
  pc_kind := match string_member object "kind" with Some kind => parse_condition_kind kind | None => unknown_condition end;
  pc_key := default EmptyString (string_member object "key");
  pc_pattern := default EmptyString (string_member object "pattern");
  pc_is := default EmptyString (string_member object "is");
  pc_value := object_member object "value" |}.

Definition set_notify (rule : PushRule) : PushRule := {|
  pr_rule_id := pr_rule_id rule; pr_kind := pr_kind rule; pr_enabled := pr_enabled rule; pr_is_default := pr_is_default rule;
  pr_conditions := pr_conditions rule; pr_content_pattern := pr_content_pattern rule; pr_notify := true;
  pr_tweak_sound := pr_tweak_sound rule; pr_tweak_highlight := pr_tweak_highlight rule |}.

Definition set_sound (sound : string) (rule : PushRule) : PushRule := {|
  pr_rule_id := pr_rule_id rule; pr_kind := pr_kind rule; pr_enabled := pr_enabled rule; pr_is_default := pr_is_default rule;
  pr_conditions := pr_conditions rule; pr_content_pattern := pr_content_pattern rule; pr_notify := pr_notify rule;
  pr_tweak_sound := Some sound; pr_tweak_highlight := pr_tweak_highlight rule |}.

Definition set_highlight (highlight : bool) (rule : PushRule) : PushRule := {|
  pr_rule_id := pr_rule_id rule; pr_kind := pr_kind rule; pr_enabled := pr_enabled rule; pr_is_default := pr_is_default rule;
  pr_conditions := pr_conditions rule; pr_content_pattern := pr_content_pattern rule; pr_notify := pr_notify rule;
  pr_tweak_sound := pr_tweak_sound rule; pr_tweak_highlight := highlight |}.

(** One round of [apply_actions]. *)
Definition apply_action (rule : PushRule) (action : Value) : PushRule :=
  match action with
  | VString action_string => if action_string =s "notify" then set_notify rule else rule
  | VObject action_object =>
      match string_member action_object "set_tweak" with
      | None => rule
      | Some tweak_name =>
          let value_member := object_member action_object "value" in
          if tweak_name =s "sound" then
            match value_member ≫= as_string with Some sound => set_sound sound rule | None => rule end
          else if tweak_name =s "highlight" then
            match value_member with
            | None => set_highlight true rule
            | Some value => match as_bool value with Some highlight => set_highlight highlight rule | None => rule end
            end
          else rule
      end
  | _ => rule
  end.

Definition apply_actions (actions : Array) (rule : PushRule) : PushRule := foldl apply_action rule actions.

Definition has_conditions (kind : PushRuleKind) : bool := match kind with override_kind | underride_kind => true | _ => false end.
Definition has_pattern (kind : PushRuleKind) : bool := match kind with content_kind => true | _ => false end.

Definition parse_rule (object : Object) (kind : PushRuleKind) : option PushRule :=
  match string_member object "rule_id" with
  | None => None
  | Some rule_id =>
      if empty rule_id then None
      else
        let rule := {|
          pr_rule_id := rule_id; pr_kind := kind;
          pr_enabled := default true (object_member object "enabled" ≫= as_bool);
          pr_is_default := default false (object_member object "default" ≫= as_bool);
          pr_conditions :=
            if has_conditions kind then parse_condition <$> omap value_is_object (default [] (array_member object "conditions")) else [];
          pr_content_pattern := if has_pattern kind then default EmptyString (string_member object "pattern") else EmptyString;
          pr_notify := false; pr_tweak_sound := None; pr_tweak_highlight := false |} in
        Some (match array_member object "actions" with Some actions => apply_actions actions rule | None => rule end)
  end.

Definition parse_rule_array (ruleset : Object) (member_name : string) (kind : PushRuleKind) : list PushRule :=
  omap (fun entry => value_is_object entry ≫= fun object => parse_rule object kind) (default [] (array_member ruleset member_name)).

Definition parse_push_ruleset (ruleset : Object) : PushRuleset := {|
  override_rules := parse_rule_array ruleset "override" override_kind;
  content_rules := parse_rule_array ruleset "content" content_kind;
  room_rules := parse_rule_array ruleset "room" room_kind;
  sender_rules := parse_rule_array ruleset "sender" sender_kind;
  underride_rules := parse_rule_array ruleset "underride" underride_kind |}.

(** * Evaluation *)

Definition no_match : PushEvaluationResult := {|
  res_notify := false; res_tweak_sound := None; res_tweak_highlight := false; matched_rule_id := EmptyString;
  glob_steps_used := 0; glob_budget_exhausted := false |}.

Definition make_result (rule : PushRule) : PushEvaluationResult := {|
  res_notify := pr_notify rule; res_tweak_sound := pr_tweak_sound rule; res_tweak_highlight := pr_tweak_highlight rule;
  matched_rule_id := pr_rule_id rule; glob_steps_used := 0; glob_budget_exhausted := false |}.

Definition is_master (rule : PushRule) : bool := pr_rule_id rule =s ".m.rule.master".

(** A loop over the rules of one kind that returns at the first match. *)
Fixpoint first_match (test : PushRule -> GlobBudget -> bool * GlobBudget) (rules : list PushRule) (budget : GlobBudget)
    : option PushRule * GlobBudget :=
  match rules with
  | [] => (None, budget)
  | rule :: rules =>
      let '(matched, budget) := test rule budget in
      if matched then (Some rule, budget) else first_match test rules budget
  end.

(** The body of each of the five loops. *)
Definition override_test (event : Value) (context : PushEvaluationContext) (rule : PushRule) (budget : GlobBudget) : bool * GlobBudget :=
  if is_master rule || negb (pr_enabled rule) then (false, budget) else rule_conditions_match rule event context budget.

Definition content_test (event : Value) (rule : PushRule) (budget : GlobBudget) : bool * GlobBudget :=
  if pr_enabled rule then rule_matches_content rule event budget else (false, budget).

Definition room_test (event : Value) (rule : PushRule) (budget : GlobBudget) : bool * GlobBudget :=
  if negb (pr_enabled rule) then (false, budget)
  else (match event_property_as_string event "room_id" with Some room_id => room_id =s pr_rule_id rule | None => false end, budget).

Definition sender_test (sender : string) (rule : PushRule) (budget : GlobBudget) : bool * GlobBudget :=
  (pr_enabled rule && (sender =s pr_rule_id rule), budget).

Definition underride_test (event : Value) (context : PushEvaluationContext) (rule : PushRule) (budget : GlobBudget) : bool * GlobBudget :=
  if pr_enabled rule then rule_conditions_match rule event context budget else (false, budget).

(** The loops in their order. *)
Definition evaluate_rules (ruleset : PushRuleset) (event : Value) (context : PushEvaluationContext) (sender : string)
    (budget : GlobBudget) : PushEvaluationResult * GlobBudget :=
  let '(rule, budget) := first_match (override_test event context) (override_rules ruleset) budget in
  match rule with Some rule => (make_result rule, budget) | None =>
  let '(rule, budget) := first_match (content_test event) (content_rules ruleset) budget in
  match rule with Some rule => (make_result rule, budget) | None =>
  let '(rule, budget) := first_match (room_test event) (room_rules ruleset) budget in
  match rule with Some rule => (make_result rule, budget) | None =>
  let '(rule, budget) := first_match (sender_test sender) (sender_rules ruleset) budget in
  match rule with Some rule => (make_result rule, budget) | None =>
  let '(rule, budget) := first_match (underride_test event context) (underride_rules ruleset) budget in
  match rule with Some rule => (make_result rule, budget) | None => (no_match, budget)
  end end end end end.

Definition evaluate_within_budget (ruleset : PushRuleset) (event : Value) (context : PushEvaluationContext) (budget : GlobBudget)
    : PushEvaluationResult * GlobBudget :=
  let sender := default EmptyString (event_property_as_string event "sender") in
  if negb (empty sender) && (sender =s receiving_user_id context) then (no_match, budget)
  else
    match List.find is_master (override_rules ruleset) with
    | Some master =>
        if pr_enabled master then (make_result master, budget) else evaluate_rules ruleset event context sender budget
    | None => evaluate_rules ruleset event context sender budget
    end.

Definition evaluate_push_rules (ruleset : PushRuleset) (event : Value) (context : PushEvaluationContext) : PushEvaluationResult :=
  let '(result, budget) := evaluate_within_budget ruleset event context new_budget in {|
    res_notify := res_notify result; res_tweak_sound := res_tweak_sound result; res_tweak_highlight := res_tweak_highlight result;
    matched_rule_id := matched_rule_id result; glob_steps_used := glob_spent budget; glob_budget_exhausted := exhausted budget |}.

(** * What a ruleset means *)

(** The recipient and the event are fixed from here on. *)
Section Meaning.
Context (event : Value) (context : PushEvaluationContext).

Definition condition_holds (c : PushCondition) : Prop :=
  match pc_kind c with
  | event_match => exists value, event_property_as_string event (pc_key c) = Some value /\
      if pc_key c =s "content.body"
      then between_boundaries (pattern_matches glob_fits (bytes (pc_pattern c))) (bytes value)
      else pattern_matches glob_fits (bytes (pc_pattern c)) (bytes value)
  | contains_display_name => receiving_user_display_name context <> EmptyString /\
      exists body, event_property_as_string event "content.body" = Some body /\
        between_boundaries (fun mid => ascii_lower mid = ascii_lower (bytes (receiving_user_display_name context))) (bytes body)
  | room_member_count_kind => room_member_count_matches (pc_is c) (room_member_count context) = true
  | sender_notification_permission =>
      default (default_notification_power_level context) (notification_power_levels context !! pc_key c) <= sender_power_level context
  | event_property_is => exists value actual, pc_value c = Some value /\ resolve_event_property event (pc_key c) = Some actual /\
      scalar_values_equal actual value = true
  | event_property_contains => exists value array, pc_value c = Some value /\
      resolve_event_property event (pc_key c) = Some (VArray array) /\ Exists (fun x => scalar_values_equal x value = true) array
  | unknown_condition => False
  end.

Definition event_sender : string := default EmptyString (event_property_as_string event "sender").

Definition rule_applies (candidate : PushRuleKind * PushRule) : Prop :=
  let rule := candidate.2 in
  pr_enabled rule = true /\
  match candidate.1 with
  | override_kind => is_master rule = false /\ Forall condition_holds (pr_conditions rule)
  | content_kind => pr_content_pattern rule <> EmptyString /\
      exists body, event_property_as_string event "content.body" = Some body /\
        between_boundaries (pattern_matches glob_fits (bytes (pr_content_pattern rule))) (bytes body)
  | room_kind => event_property_as_string event "room_id" = Some (pr_rule_id rule)
  | sender_kind => event_sender = pr_rule_id rule
  | underride_kind => Forall condition_holds (pr_conditions rule)
  end.

(** The rules in their order of precedence. *)
Definition in_order (ruleset : PushRuleset) : list (PushRuleKind * PushRule) :=
  (pair override_kind <$> override_rules ruleset) ++ (pair content_kind <$> content_rules ruleset) ++
  (pair room_kind <$> room_rules ruleset) ++ (pair sender_kind <$> sender_rules ruleset) ++ (pair underride_kind <$> underride_rules ruleset).

(** A test that never errs but by running out of its budget. *)
Definition fair (matches : Prop) (b : GlobBudget) (result : bool * GlobBudget) : Prop := exists most, search_exact most matches b result.

Lemma fair_pure (matches : Prop) b (found : bool) : (found = true <-> matches) -> fair matches b (found, b).
Proof. intros Hm. exists 0. apply search_answer; [apply charged_refl|done]. Qed.

Lemma fair_iff P Q b result : (P <-> Q) -> fair P b result -> fair Q b result.
Proof. intros HPQ (most & H1 & H2 & H3). exists most. rewrite HPQ in H2, H3. done. Qed.

Lemma bytes_nil s : bytes s = [] <-> s = EmptyString.
Proof. by destruct s. Qed.

Lemma body_search_fair pattern b : fair (exists body, event_property_as_string event "content.body" = Some body /\
    between_boundaries (pattern_matches glob_fits pattern) (bytes body)) b
  match event_property_as_string event "content.body" with
  | None => (false, b) | Some body => glob_matches_word_boundary_substring (bytes body) pattern b end.
Proof.
  destruct (event_property_as_string _ _) as [body|]; [|apply fair_pure; split; [done|by intros (? & ? & _)]].
  eapply fair_iff; [|eexists; apply glob_boundary_exact]. naive_solver.
Qed.

Lemma condition_fair c b : fair (condition_holds c) b (condition_matches c event context b).
Proof.
  unfold condition_holds, condition_matches. destruct (pc_kind c).
  - destruct (event_property_as_string event (pc_key c)) as [value|] eqn:E; [|apply fair_pure; split; [done|by intros (? & ? & _)]].
    destruct (pc_key c =s "content.body").
    + eapply fair_iff; [|eexists; apply glob_boundary_exact]. naive_solver.
    + apply fair_pure. rewrite glob_matches_full_exact, lower_matches. naive_solver.
  - destruct (empty _) eqn:Ee; [apply fair_pure; split; [done|]; intros [Hn _]; by apply empty_false in Hn; rewrite Hn in Ee|].
    apply empty_false in Ee. destruct (event_property_as_string _ _) as [body|]; [|apply fair_pure; split; [done|by intros (_ & ? & ? & _)]].
    eapply fair_iff; [|eexists; apply literal_boundary_exact; by rewrite bytes_nil]. naive_solver.
  - by apply fair_pure.
  - apply fair_pure. by rewrite Z.leb_le.
  - destruct (pc_value c) as [value|]; [|apply fair_pure; split; [done|by intros (? & ? & ? & _)]]. apply fair_pure.
    destruct (resolve_event_property _ _) as [actual|]; [|split; [done|by intros (? & ? & ? & ? & _)]]. naive_solver.
  - destruct (pc_value c) as [value|]; [|apply fair_pure; split; [done|by intros (? & ? & ? & _)]]. apply fair_pure.
    destruct (resolve_event_property _ _) as [[]|]; simpl; try (split; [done|by intros (? & ? & ? & ? & _)]).
    rewrite existsb_exists. setoid_rewrite Exists_exists. setoid_rewrite list_elem_of_In. naive_solver.
  - by apply fair_pure.
Qed.

Lemma conditions_fair cs b : fair (Forall condition_holds cs) b (conditions_match cs event context b).
Proof.
  revert b. induction cs as [|c cs IH]; intros b; simpl; [by apply fair_pure|].
  destruct (condition_fair c b) as (m1 & H1 & S1 & C1). destruct (condition_matches c event context b) as [[] b1]; simpl in *.
  - destruct (IH b1) as (m2 & H2 & S2 & C2). exists (m1 + m2). split; [by eapply charged_trans|]. rewrite Forall_cons. split; [by auto|].
    intros He [_ Hcs]. by apply C2.
  - exists m1. split; [done|]. split; [done|]. simpl. rewrite Forall_cons. intros He [Hc _]. by apply C1.
Qed.

(** * The choice of a rule *)

Definition chosen (candidates : list (PushRuleKind * PushRule)) (complete : Prop) (rule : option PushRule) : Prop :=
  match rule with
  | Some rule => exists l1 kind l2, candidates = l1 ++ (kind, rule) :: l2 /\ rule_applies (kind, rule) /\
      (complete -> Forall (fun candidate => ~ rule_applies candidate) l1)
  | None => complete -> Forall (fun candidate => ~ rule_applies candidate) candidates
  end.

Definition choice (candidates : list (PushRuleKind * PushRule)) (b : GlobBudget) (result : option PushRule * GlobBudget) : Prop :=
  (exists most, charged most b result.2) /\ chosen candidates (exhausted result.2 = false) result.1.

Lemma first_match_choice kind test rules b : (forall rule b, fair (rule_applies (kind, rule)) b (test rule b)) ->
  choice (pair kind <$> rules) b (first_match test rules b).
Proof.
  intros Htest. revert b. induction rules as [|rule rules IH]; intros b; simpl.
  { split; [exists 0; apply charged_refl|]. simpl. by constructor. }
  destruct (Htest rule b) as (m1 & H1 & S1 & C1). destruct (test rule b) as [[] b1]; simpl in *.
  - split; [by exists m1|]. exists [], kind, (pair kind <$> rules). split; [done|]. split; [by apply S1|]. by constructor.
  - destruct (IH b1) as [(m2 & H2) Hch]. split; [exists (m1 + m2); by eapply charged_trans|].
    assert (exhausted (first_match test rules b1).2 = false -> ~ rule_applies (kind, rule)) as Hno.
    { intros He Hr. destruct (exhausted b1) eqn:E; [by rewrite (ch_kept _ _ _ H2 E) in He|]. by apply C1 in Hr. }
    destruct (first_match test rules b1) as [[r|] b2]; simpl in *.
    + destruct Hch as (l1 & k & l2 & Heq & Hr & Hl). exists ((kind, rule) :: l1), k, l2. split; [exact (f_equal (cons (kind, rule)) Heq)|]. split; [done|].
      intros He. constructor; auto.
    + intros He. constructor; auto.
Qed.

Lemma choice_found l1 l2 b b1 rule : choice l1 b (Some rule, b1) -> choice (l1 ++ l2) b (Some rule, b1).
Proof. intros [Hc (a & k & z & -> & Hr & Ha)]. split; [done|]. exists a, k, (z ++ l2). by rewrite <- app_assoc. Qed.

Lemma choice_next l1 l2 b b1 result : choice l1 b (None, b1) -> choice l2 b1 result -> choice (l1 ++ l2) b result.
Proof.
  intros [(m1 & H1) C1] [(m2 & H2) C2]. simpl in *. split; [exists (m1 + m2); by eapply charged_trans|].
  assert (exhausted result.2 = false -> Forall (fun candidate => ~ rule_applies candidate) l1) as Hl.
  { intros He. apply C1. destruct (exhausted b1) eqn:E; [|done]. by rewrite (ch_kept _ _ _ H2 E) in He. }
  destruct result as [[rule|] b2]; simpl in *.
  - destruct C2 as (a & k & z & -> & Hr & Ha). exists (l1 ++ a), k, z. rewrite <- app_assoc. split; [done|]. split; [done|].
    intros He. apply Forall_app. auto.
  - intros He. apply Forall_app. auto.
Qed.

Definition outcome_of (rule : option PushRule) : PushEvaluationResult := match rule with Some rule => make_result rule | None => no_match end.

Lemma evaluate_rules_choice ruleset b : exists rule b',
  evaluate_rules ruleset event context event_sender b = (outcome_of rule, b') /\ choice (in_order ruleset) b (rule, b').
Proof.
  assert (forall rule b, fair (rule_applies (override_kind, rule)) b (override_test event context rule b)) as T1.
  { intros rule b0. unfold override_test, rule_applies. simpl. destruct (is_master rule), (pr_enabled rule); simpl;
      try (apply fair_pure; naive_solver). eapply fair_iff; [|apply conditions_fair]. naive_solver. }
  assert (forall rule b, fair (rule_applies (content_kind, rule)) b (content_test event rule b)) as T2.
  { intros rule b0. unfold content_test, rule_applies, rule_matches_content. simpl. destruct (pr_enabled rule); [|apply fair_pure; naive_solver].
    destruct (empty (pr_content_pattern rule)) eqn:Ee.
    - apply fair_pure. split; [done|]. intros (_ & Hn & _). by apply empty_false in Hn; rewrite Hn in Ee.
    - apply empty_false in Ee. eapply fair_iff; [|apply body_search_fair]. naive_solver. }
  assert (forall rule b, fair (rule_applies (room_kind, rule)) b (room_test event rule b)) as T3.
  { intros rule b0. unfold room_test, rule_applies. simpl. destruct (pr_enabled rule); simpl; [|apply fair_pure; naive_solver]. apply fair_pure.
    destruct (event_property_as_string _ _); [rewrite string_eqb_true|]; naive_solver. }
  assert (forall rule b, fair (rule_applies (sender_kind, rule)) b (sender_test event_sender rule b)) as T4.
  { intros rule b0. unfold sender_test, rule_applies. simpl. apply fair_pure. rewrite andb_true_iff, string_eqb_true. naive_solver. }
  assert (forall rule b, fair (rule_applies (underride_kind, rule)) b (underride_test event context rule b)) as T5.
  { intros rule b0. unfold underride_test, rule_applies. simpl. destruct (pr_enabled rule); [|apply fair_pure; naive_solver].
    eapply fair_iff; [|apply conditions_fair]. naive_solver. }
  unfold evaluate_rules, in_order.
  pose proof (first_match_choice _ _ (override_rules ruleset) b T1) as C1. destruct (first_match _ _ b) as [[r|] b1]; [exists (Some r), b1; split; [done|by apply choice_found]|].
  pose proof (first_match_choice _ _ (content_rules ruleset) b1 T2) as C2. destruct (first_match _ _ b1) as [[r|] b2];
    [exists (Some r), b2; split; [done|]; eapply choice_next; [done|by apply choice_found]|].
  pose proof (first_match_choice _ _ (room_rules ruleset) b2 T3) as C3. destruct (first_match _ _ b2) as [[r|] b3];
    [exists (Some r), b3; split; [done|]; do 2 (eapply choice_next; [done|]); by apply choice_found|].
  pose proof (first_match_choice _ _ (sender_rules ruleset) b3 T4) as C4. destruct (first_match _ _ b3) as [[r|] b4];
    [exists (Some r), b4; split; [done|]; do 3 (eapply choice_next; [done|]); by apply choice_found|].
  pose proof (first_match_choice _ _ (underride_rules ruleset) b4 T5) as C5. destruct (first_match _ _ b4) as [[r|] b5].
  - exists (Some r), b5. split; [done|]. do 4 (eapply choice_next; [done|]). done.
  - exists None, b5. split; [done|]. do 4 (eapply choice_next; [done|]). done.
Qed.
End Meaning.

(** * Property *)

(** C28. What a recipient is notified of. Evaluating an event against a ruleset gives the outcome of one rule or none.
    Events of the recipient give none. Otherwise an enabled first master rule decides. Otherwise it is the first rule
    in the order of the kinds and of the lists that is enabled and applies: whose conditions all hold, whose pattern
    is in the message body, or whose ID is the event's room or sender; without one there is no notification. A rule
    that is chosen applies in any case; an earlier one can only be missed when the budget of matching steps ran out,
    which the result then says, and no more steps are spent than the budget. *)
Theorem push_rules_evaluated ruleset event context :
  let result := evaluate_push_rules ruleset event context in
  0 <= glob_steps_used result <= max_push_glob_steps_per_evaluation /\
  exists rule,
    (res_notify result, res_tweak_sound result, res_tweak_highlight result, matched_rule_id result) =
      match rule with
      | Some rule => (pr_notify rule, pr_tweak_sound rule, pr_tweak_highlight rule, pr_rule_id rule)
      | None => (false, None, false, EmptyString)
      end /\
    let master := List.find is_master (override_rules ruleset) in
    if bool_decide (event_sender event <> EmptyString /\ event_sender event = receiving_user_id context) then rule = None
    else if from_option pr_enabled false master then rule = master
    else chosen event context (in_order ruleset) (glob_budget_exhausted result = false) rule.
Proof.
  unfold evaluate_push_rules, evaluate_within_budget. fold (event_sender event).
  assert (negb (empty (event_sender event)) && (event_sender event =s receiving_user_id context) =
    bool_decide (event_sender event <> EmptyString /\ event_sender event = receiving_user_id context)) as ->.
  { apply Bool.eq_iff_eq_true. rewrite andb_true_iff, negb_true_iff, empty_false, string_eqb_true, bool_decide_eq_true. done. }
  case_bool_decide as Hown; [split; [simpl; unfold max_push_glob_steps_per_evaluation; lia|]; by exists None|].
  destruct (evaluate_rules_choice event context ruleset new_budget) as (rule & b & Heq & [(most & Hc) Hch]). simpl in Hc, Hch.
  assert (0 <= glob_spent b <= max_push_glob_steps_per_evaluation) as Hspent.
  { destruct Hc as [T S L _ _]. assert (0 <= remaining b) by (apply L; done). simpl in *. lia. }
  destruct (List.find is_master (override_rules ruleset)) as [master|] eqn:Em; simpl; [destruct (pr_enabled master)|].
  - split; [simpl; unfold max_push_glob_steps_per_evaluation; lia|]. by exists (Some master).
  - rewrite Heq. split; [done|]. exists rule. split; [by destruct rule|done].
  - rewrite Heq. split; [done|]. exists rule. split; [by destruct rule|done].
Qed.
