(* ===== verification/UserPushRules.v ===== *)
(** The push rules of a user (push/UserPushRules.cpp): the server's defaults with the
    user's own rules and changes applied, the edits of the push rule endpoints, the
    ruleset object that is stored and served, and the default ruleset itself
    (homeserver/default_push_ruleset.cpp). *)
From S2P Require Import Prelude CppStd JsonValue JsonSerializer Glob PushText PushRules.
Open Scope Z_scope.

(** * Data *)

Definition max_push_rule_id_bytes : nat := 255.
Definition max_push_rule_pattern_bytes : nat := 512.
Definition max_push_rule_conditions : nat := 16.
Definition max_push_rule_actions : nat := 16.
Definition max_push_rule_bytes : nat := 4096.

Record PushRuleEntry : Type := {
  pe_rule_id : string;
  pe_is_default : bool;
  pe_enabled : bool;
  pe_actions : Array;
  pe_conditions : option Array;
  pe_pattern : option string
}.

Record PushRulePlacement : Type := { pp_before : option string; pp_after : option string }.

Inductive PushRuleEditOutcome : Type :=
  | edit_applied | edit_not_found | edit_invalid_rule_id | edit_invalid_rule | edit_server_default_rule | edit_unknown_relative_rule
  | edit_relative_to_server_default | edit_too_many_rules.

(** The five lists of [kinds_] and the cap. *)
Record UserPushRules : Type := {
  up_override : list PushRuleEntry;
  up_content : list PushRuleEntry;
  up_room : list PushRuleEntry;
  up_sender : list PushRuleEntry;
  up_underride : list PushRuleEntry;
  max_user_rules : nat
}.

Definition rules_of (kind : PushRuleKind) (u : UserPushRules) : list PushRuleEntry :=
  match kind with
  | override_kind => up_override u
  | content_kind => up_content u
  | room_kind => up_room u
  | sender_kind => up_sender u
  | underride_kind => up_underride u
  end.

(** Writing through the reference [rules_of] returns. *)
Definition with_rules (kind : PushRuleKind) (rules : list PushRuleEntry) (u : UserPushRules) : UserPushRules :=
  let pick k old := match kind, k with
    | override_kind, override_kind | content_kind, content_kind | room_kind, room_kind | sender_kind, sender_kind
    | underride_kind, underride_kind => rules
    | _, _ => old
    end in {|
    up_override := pick override_kind (up_override u); up_content := pick content_kind (up_content u);
    up_room := pick room_kind (up_room u); up_sender := pick sender_kind (up_sender u);
    up_underride := pick underride_kind (up_underride u); max_user_rules := max_user_rules u |}.

Definition all_kinds : list PushRuleKind := [override_kind; content_kind; room_kind; sender_kind; underride_kind].

Definition push_rule_kind_name (kind : PushRuleKind) : string :=
  match kind with
  | override_kind => "override"
  | content_kind => "content"
  | room_kind => "room"
  | sender_kind => "sender"
  | underride_kind => "underride"
  end.

Definition parse_push_rule_kind (name : string) : option PushRuleKind :=
  List.find (fun kind => push_rule_kind_name kind =s name) all_kinds.

Definition master_rule_id : string := ".m.rule.master".

(** * Validation *)

Definition is_server_default_id (rule_id : string) : bool := starts_with "."%char rule_id.

Definition user_rule_id_is_valid (kind : PushRuleKind) (rule_id : string) : bool :=
  if empty rule_id || (max_push_rule_id_bytes <? String.length rule_id)%nat || is_server_default_id rule_id ||
     any_char (fun c => Ascii.eqb c "/" || Ascii.eqb c "\") rule_id
  then false
  else
    match kind with
    | room_kind => starts_with "!"%char rule_id
    | sender_kind => starts_with "@"%char rule_id
    | _ => true
    end.

Definition bounded_string (value : option Value) : option string :=
  match value ≫= as_string with
  | Some text => if (String.length text <=? max_push_rule_pattern_bytes)%nat then Some text else None
  | None => None
  end.

(** The loop over the prefixes that stops at the first one found. *)
Fixpoint remove_first_prefix (prefixes : list string) (text : string) : string :=
  match prefixes with
  | [] => text
  | prefix :: prefixes => if String.prefix prefix text then drop_str (String.length prefix) text else remove_first_prefix prefixes text
  end.

Definition member_count_is_valid (text : string) : bool :=
  let digits := remove_first_prefix ["=="; "<="; ">="; "<"; ">"] text in
  negb (empty digits) && (String.length digits <=? 20)%nat && all_char is_digit digits.

Definition is_bounded (value : option Value) : bool := bool_decide (is_Some (bounded_string value)).

Definition condition_is_valid (condition : Value) : bool :=
  match value_is_object condition with
  | None => false
  | Some object =>
      match bounded_string (object_member object "kind") with
      | None => false
      | Some kind =>
          if kind =s "event_match" then is_bounded (object_member object "key") && is_bounded (object_member object "pattern")
          else if (kind =s "event_property_is") || (kind =s "event_property_contains") then
            let non_compound :=
              match object_member object "value" with
              | Some VNull | Some (VBool _) | Some (VInt _) => true
              | value => is_bounded value
              end in
            is_bounded (object_member object "key") && non_compound
          else if kind =s "room_member_count" then
            match bounded_string (object_member object "is") with Some text => member_count_is_valid text | None => false end
          else if kind =s "sender_notification_permission" then is_bounded (object_member object "key")
          else true
      end
  end.

(** A tweak whose value has the type the tweak needs. *)
Definition tweak_is_valid (action : Value) : bool :=
  match value_is_object action with
  | None => false
  | Some object =>
      match bounded_string (object_member object "set_tweak") with
      | None => false
      | Some tweak =>
          negb (empty tweak) &&
          match object_member object "value" with
          | None => true
          | Some value =>
              negb (((tweak =s "highlight") && bool_decide (as_bool value = None)) ||
                    ((tweak =s "sound") && bool_decide (as_string value = None)))
          end
      end
  end.

(** The loop of [validated_actions]. *)
Fixpoint keep_actions (actions : Array) : option Array :=
  match actions with
  | [] => Some []
  | action :: actions =>
      match as_string action with
      | Some name =>
          if name =s "notify" then cons action <$> keep_actions actions
          else if (name =s "dont_notify") || (name =s "coalesce") then keep_actions actions
          else None
      | None => if tweak_is_valid action then cons action <$> keep_actions actions else None
      end
  end.

Definition validated_actions (actions : Value) : option Array :=
  match as_array actions with
  | None => None
  | Some array => if (max_push_rule_actions <? length array)%nat then None else keep_actions array
  end.

(** * Rules as objects *)

Definition entry_object (entry : PushRuleEntry) : Object :=
  [("actions", VArray (pe_actions entry))] ++
  match pe_conditions entry with Some conditions => [("conditions", VArray conditions)] | None => [] end ++
  [("default", VBool (pe_is_default entry)); ("enabled", VBool (pe_enabled entry))] ++
  match pe_pattern entry with Some pattern => [("pattern", VString pattern)] | None => [] end ++
  [("rule_id", VString (pe_rule_id entry))].

(** [entry.conditions] of a rule body: [None] is the refusal. *)
Definition body_conditions (kind : PushRuleKind) (object : Object) : option (option Array) :=
  if has_conditions kind then
    match object_member object "conditions" with
    | None => Some (Some [])
    | Some value =>
        match as_array value with
        | None => None
        | Some conditions =>
            if (max_push_rule_conditions <? length conditions)%nat || negb (forallb condition_is_valid conditions) then None
            else Some (Some conditions)
        end
    end
  else Some None.

Definition body_pattern (kind : PushRuleKind) (object : Object) : option (option string) :=
  if has_pattern kind then
    match bounded_string (object_member object "pattern") with
    | None => None
    | Some pattern => if empty pattern then None else Some (Some pattern)
    end
  else Some None.

Section Rules.
Context `{Libc}.

Definition fits_rule_bytes (entry : PushRuleEntry) : bool :=
  match serialize_canonical (VObject (entry_object entry)) with
  | SOk output => (String.length output <=? max_push_rule_bytes)%nat
  | SErr _ => false
  end.

Definition user_rule_from (kind : PushRuleKind) (rule_id : string) (body : Value) : option PushRuleEntry :=
  match value_is_object body with
  | None => None
  | Some object =>
      match object_member object "actions" ≫= validated_actions with
      | None => None
      | Some actions =>
          match body_conditions kind object with
          | None => None
          | Some conditions =>
              match body_pattern kind object with
              | None => None
              | Some pattern =>
                  let entry := {| pe_rule_id := rule_id; pe_is_default := false; pe_enabled := true; pe_actions := actions;
                                  pe_conditions := conditions; pe_pattern := pattern |} in
                  if fits_rule_bytes entry then Some entry else None
              end
          end
      end
  end.

Definition default_rule_from (object : Object) : option PushRuleEntry :=
  match string_member object "rule_id", array_member object "actions" with
  | Some rule_id, Some actions => Some {|
      pe_rule_id := rule_id; pe_is_default := true; pe_enabled := default true (object_member object "enabled" ≫= as_bool);
      pe_actions := actions; pe_conditions := array_member object "conditions"; pe_pattern := string_member object "pattern" |}
  | _, _ => None
  end.

Definition rule_array (ruleset : Object) (kind : PushRuleKind) : Array := default [] (array_member ruleset (push_rule_kind_name kind)).

Definition has_id (rule_id : string) (rule : PushRuleEntry) : bool := pe_rule_id rule =s rule_id.

(** [find_rule] as an iterator: the first rule of the ID, read or written through it. *)
Definition find_rule (rule_id : string) (rules : list PushRuleEntry) : option PushRuleEntry := List.find (has_id rule_id) rules.

Fixpoint update_rule (rule_id : string) (f : PushRuleEntry -> PushRuleEntry) (rules : list PushRuleEntry) : list PushRuleEntry :=
  match rules with
  | [] => []
  | rule :: rules => if has_id rule_id rule then f rule :: rules else rule :: update_rule rule_id f rules
  end.

Fixpoint erase_rule (rule_id : string) (rules : list PushRuleEntry) : list PushRuleEntry :=
  match rules with
  | [] => []
  | rule :: rules => if has_id rule_id rule then rules else rule :: erase_rule rule_id rules
  end.

(** [std::distance(rules.begin(), find_rule(rules, id))]. *)
Fixpoint rule_index (rule_id : string) (rules : list PushRuleEntry) : nat :=
  match rules with
  | [] => 0
  | rule :: rules => if has_id rule_id rule then 0 else S (rule_index rule_id rules)
  end.

Fixpoint first_user_slot (rules : list PushRuleEntry) : nat :=
  match rules with
  | [] => 0
  | rule :: rules => if pe_is_default rule && has_id master_rule_id rule then S (first_user_slot rules) else 0
  end.

Definition entry_enabled (enabled : bool) (e : PushRuleEntry) : PushRuleEntry := {|
  pe_rule_id := pe_rule_id e; pe_is_default := pe_is_default e; pe_enabled := enabled; pe_actions := pe_actions e;
  pe_conditions := pe_conditions e; pe_pattern := pe_pattern e |}.

Definition entry_actions (actions : Array) (e : PushRuleEntry) : PushRuleEntry := {|
  pe_rule_id := pe_rule_id e; pe_is_default := pe_is_default e; pe_enabled := pe_enabled e; pe_actions := actions;
  pe_conditions := pe_conditions e; pe_pattern := pe_pattern e |}.

(** * Reading the stored rules *)

(** The user's changes to a default rule. *)
Definition changed_default (object : Object) (target : PushRuleEntry) : PushRuleEntry :=
  let target := match object_member object "enabled" ≫= as_bool with Some enabled => entry_enabled enabled target | None => target end in
  match object_member object "actions" ≫= validated_actions with Some actions => entry_actions actions target | None => target end.

(** One stored rule: the defaults, the user's rules so far and how many of them over all kinds. *)
Definition read_stored (kind : PushRuleKind) (max_user_rules : nat) (state : list PushRuleEntry * list PushRuleEntry * nat) (value : Value)
    : list PushRuleEntry * list PushRuleEntry * nat :=
  let '(defaults, users, user_rules) := state in
  match value_is_object value with
  | None => state
  | Some object =>
      match string_member object "rule_id" with
      | None => state
      | Some rule_id =>
          if is_server_default_id rule_id then (update_rule rule_id (changed_default object) defaults, users, user_rules)
          else if (max_user_rules <=? user_rules)%nat || negb (user_rule_id_is_valid kind rule_id) || existsb (has_id rule_id) users then state
          else
            match user_rule_from kind rule_id value with
            | Some entry =>
                (defaults, users ++ [entry_enabled (default true (object_member object "enabled" ≫= as_bool)) entry], S user_rules)
            | None => state
            end
      end
  end.

Definition default_rules (server_defaults : Object) (kind : PushRuleKind) : list PushRuleEntry :=
  omap (fun value => value_is_object value ≫= default_rule_from) (rule_array server_defaults kind).

Definition merged_rules (defaults users : list PushRuleEntry) : list PushRuleEntry :=
  match find_rule master_rule_id defaults with
  | Some master => master :: users ++ erase_rule master_rule_id defaults
  | None => users ++ defaults
  end.

(** One round of the constructor's loop over the kinds. *)
Definition read_kind (server_defaults stored : Object) (u : UserPushRules * nat) (kind : PushRuleKind) : UserPushRules * nat :=
  let '(rules, user_rules) := u in
  let '(defaults, users, user_rules) :=
    foldl (read_stored kind (max_user_rules rules)) (default_rules server_defaults kind, [], user_rules) (rule_array stored kind) in
  (with_rules kind (merged_rules defaults users) rules, user_rules).

Definition no_rules (max_user_rules : nat) : UserPushRules := {|
  up_override := []; up_content := []; up_room := []; up_sender := []; up_underride := []; max_user_rules := max_user_rules |}.

Definition user_push_rules (server_defaults stored : Object) (max_user_rules : nat) : UserPushRules :=
  (foldl (read_kind server_defaults stored) (no_rules max_user_rules, 0%nat) all_kinds).1.

(** * Reading and editing *)

Definition ruleset (u : UserPushRules) : Object :=
  (fun kind => (push_rule_kind_name kind, VArray ((VObject ∘ entry_object) <$> rules_of kind u))) <$>
    [content_kind; override_kind; room_kind; sender_kind; underride_kind].

Definition rule (kind : PushRuleKind) (rule_id : string) (u : UserPushRules) : option Object := entry_object <$> find_rule rule_id (rules_of kind u).

Definition user_rule_count (u : UserPushRules) : nat :=
  foldr (fun kind n => (length (filter (fun e => pe_is_default e = false) (rules_of kind u)) + n)%nat) 0%nat all_kinds.

Definition insert_at (position : nat) (entry : PushRuleEntry) (rules : list PushRuleEntry) : list PushRuleEntry :=
  take position rules ++ entry :: drop position rules.

(** The placement that decides, when it names another rule. *)
Definition relative_id (rule_id : string) (placement : PushRulePlacement) : option string :=
  match (match pp_before placement with Some before => Some before | None => pp_after placement end) with
  | Some relative => if relative =s rule_id then None else Some relative
  | None => None
  end.

Definition check_relative (relative : option string) (rules : list PushRuleEntry) : PushRuleEditOutcome :=
  match relative with
  | None => edit_applied
  | Some relative =>
      match find_rule relative rules with
      | None => edit_unknown_relative_rule
      | Some other => if pe_is_default other then edit_relative_to_server_default else edit_applied
      end
  end.

(** The list with the rule created, updated in place or moved. *)
Definition placed_rules (rule_id : string) (entry : PushRuleEntry) (placement : PushRulePlacement) (rules : list PushRuleEntry)
    : list PushRuleEntry :=
  let existing := find_rule rule_id rules in
  let entry := match existing with Some old => entry_enabled (pe_enabled old) entry | None => entry end in
  match relative_id rule_id placement, existing with
  | None, Some _ => update_rule rule_id (fun _ => entry) rules
  | None, None => insert_at (first_user_slot rules) entry rules
  | Some relative, _ =>
      let rules := match existing with Some _ => erase_rule rule_id rules | None => rules end in
      let position := rule_index relative rules in
      insert_at (match pp_before placement with Some _ => position | None => S position end) entry rules
  end.

Definition put_rule (kind : PushRuleKind) (rule_id : string) (body : Value) (placement : PushRulePlacement) (u : UserPushRules)
    : PushRuleEditOutcome * UserPushRules :=
  if is_server_default_id rule_id then (edit_server_default_rule, u)
  else if negb (user_rule_id_is_valid kind rule_id) then (edit_invalid_rule_id, u)
  else
    match user_rule_from kind rule_id body with
    | None => (edit_invalid_rule, u)
    | Some entry =>
        let rules := rules_of kind u in
        match check_relative (relative_id rule_id placement) rules with
        | edit_applied =>
            if negb (existsb (has_id rule_id) rules) && (max_user_rules u <=? user_rule_count u)%nat then (edit_too_many_rules, u)
            else (edit_applied, with_rules kind (placed_rules rule_id entry placement rules) u)
        | refusal => (refusal, u)
        end
    end.

Definition delete_rule (kind : PushRuleKind) (rule_id : string) (u : UserPushRules) : PushRuleEditOutcome * UserPushRules :=
  match find_rule rule_id (rules_of kind u) with
  | None => (edit_not_found, u)
  | Some found =>
      if pe_is_default found then (edit_server_default_rule, u)
      else (edit_applied, with_rules kind (erase_rule rule_id (rules_of kind u)) u)
  end.

Definition set_enabled (kind : PushRuleKind) (rule_id : string) (enabled : bool) (u : UserPushRules) : PushRuleEditOutcome * UserPushRules :=
  match find_rule rule_id (rules_of kind u) with
  | None => (edit_not_found, u)
  | Some _ => (edit_applied, with_rules kind (update_rule rule_id (entry_enabled enabled) (rules_of kind u)) u)
  end.

Definition set_actions (kind : PushRuleKind) (rule_id : string) (actions : Value) (u : UserPushRules) : PushRuleEditOutcome * UserPushRules :=
  match find_rule rule_id (rules_of kind u) with
  | None => (edit_not_found, u)
  | Some _ =>
      match validated_actions actions with
      | None => (edit_invalid_rule, u)
      | Some validated => (edit_applied, with_rules kind (update_rule rule_id (entry_actions validated) (rules_of kind u)) u)
      end
  end.
End Rules.

(** * The default ruleset *)

Module Defaults.
Definition push_action_set_tweak (tweak : string) (value : option Value) : Value :=
  VObject (("set_tweak", VString tweak) :: match value with Some value => [("value", value)] | None => [] end).

Definition push_condition_event_match (key pattern : string) : Value :=
  VObject [("key", VString key); ("kind", VString "event_match"); ("pattern", VString pattern)].

Definition push_condition_event_property_is (key : string) (value : Value) : Value :=
  VObject [("key", VString key); ("kind", VString "event_property_is"); ("value", value)].

Definition push_condition_event_property_contains (key value : string) : Value :=
  VObject [("key", VString key); ("kind", VString "event_property_contains"); ("value", VString value)].

Definition push_condition_room_member_count (member_count : string) : Value :=
  VObject [("is", VString member_count); ("kind", VString "room_member_count")].

Definition push_condition_sender_notification_permission (key : string) : Value :=
  VObject [("key", VString key); ("kind", VString "sender_notification_permission")].

Definition push_rule (rule_id : string) (enabled : bool) (conditions actions : Array) : Value :=
  VObject [("actions", VArray actions); ("conditions", VArray conditions); ("default", VBool true); ("enabled", VBool enabled);
           ("rule_id", VString rule_id)].

Definition notify : Value := VString "notify".
Definition sound (name : string) : Value := push_action_set_tweak "sound" (Some (VString name)).
Definition no_highlight : Value := push_action_set_tweak "highlight" (Some (VBool false)).
Definition highlight : Value := push_action_set_tweak "highlight" None.

Definition override_defaults (user_id : string) : Array := [
  push_rule ".m.rule.master" false [] [];
  push_rule ".m.rule.suppress_notices" true [push_condition_event_match "content.msgtype" "m.notice"] [];
  push_rule ".m.rule.invite_for_me" true
    [push_condition_event_match "type" "m.room.member"; push_condition_event_match "content.membership" "invite";
     push_condition_event_match "state_key" user_id] [notify; sound "default"; no_highlight];
  push_rule ".m.rule.member_event" true [push_condition_event_match "type" "m.room.member"] [];
  push_rule ".m.rule.is_user_mention" true [push_condition_event_property_contains "content.m\.mentions.user_ids" user_id]
    [notify; sound "default"; highlight];
  push_rule ".m.rule.is_room_mention" true
    [push_condition_event_property_is "content.m\.mentions.room" (VBool true); push_condition_sender_notification_permission "room"]
    [notify; highlight];
  push_rule ".m.rule.tombstone" true [push_condition_event_match "type" "m.room.tombstone"; push_condition_event_match "state_key" ""]
    [notify; highlight];
  push_rule ".m.rule.reaction" true [push_condition_event_match "type" "m.reaction"] [];
  push_rule ".m.rule.room.server_acl" true
    [push_condition_event_match "type" "m.room.server_acl"; push_condition_event_match "state_key" ""] [];
  push_rule ".m.rule.suppress_edits" true
    [push_condition_event_property_is "content.m\.relates_to.rel_type" (VString "m.replace")] []].

Definition underride_defaults : Array := [
  push_rule ".m.rule.call" true [push_condition_event_match "type" "m.call.invite"] [notify; sound "ring"; no_highlight];
  push_rule ".m.rule.encrypted_room_one_to_one" true
    [push_condition_room_member_count "2"; push_condition_event_match "type" "m.room.encrypted"] [notify; sound "default"; no_highlight];
  push_rule ".m.rule.room_one_to_one" true
    [push_condition_room_member_count "2"; push_condition_event_match "type" "m.room.message"] [notify; sound "default"; no_highlight];
  push_rule ".m.rule.message" true [push_condition_event_match "type" "m.room.message"] [notify; no_highlight];
  push_rule ".m.rule.encrypted" true [push_condition_event_match "type" "m.room.encrypted"] [notify; no_highlight]].

Definition default_push_ruleset (user_id : string) : Object :=
  [("content", VArray []); ("override", VArray (override_defaults user_id)); ("room", VArray []); ("sender", VArray []);
   ("underride", VArray underride_defaults)].
End Defaults.
Export Defaults (default_push_ruleset).
