(* ===== verification/UserPushRulesSpec.v ===== *)
(** What edits keep of a user's push rules, and that storing them loses nothing. *)
From S2P Require Import Prelude CppStd JsonValue JsonSerializer Glob PushText PushRules UserPushRules.
Open Scope Z_scope.

(** * Lists of rules by ID *)

Abbreviation ids := (fmap (M := list) pe_rule_id).

Lemma has_id_true rid e : has_id rid e = true <-> pe_rule_id e = rid.
Proof. unfold has_id. apply string_eqb_true. Qed.

Lemma has_id_false rid e : has_id rid e = false <-> pe_rule_id e <> rid.
Proof. unfold has_id. apply string_eqb_false. Qed.

Lemma existsb_id rid l : existsb (has_id rid) l = true <-> rid ∈ ids l.
Proof.
  rewrite existsb_exists, list_elem_of_fmap. setoid_rewrite <- list_elem_of_In. setoid_rewrite has_id_true. naive_solver.
Qed.

Lemma existsb_id_false rid l : rid ∉ ids l -> existsb (has_id rid) l = false.
Proof. intros Hn. destruct (existsb _ l) eqn:E; [|done]. by apply existsb_id in E. Qed.

Lemma find_rule_Some rid l e : find_rule rid l = Some e -> e ∈ l /\ pe_rule_id e = rid.
Proof. intros Hf. apply find_some in Hf as [Hin Hid]. by rewrite has_id_true, <- list_elem_of_In in *. Qed.

Lemma find_rule_None rid l : find_rule rid l = None <-> rid ∉ ids l.
Proof.
  unfold find_rule. induction l as [|x l IH]; csimpl; [split; [intros _ ?%elem_of_nil; done|done]|].
  destruct (has_id rid x) eqn:E; [apply has_id_true in E|apply has_id_false in E]; rewrite elem_of_cons; [naive_solver|]. rewrite IH. naive_solver.
Qed.

Lemma find_rule_unique rid l e : NoDup (ids l) -> e ∈ l -> pe_rule_id e = rid -> find_rule rid l = Some e.
Proof.
  unfold find_rule. induction l as [|x l IH]; csimpl; [by intros _ ?%elem_of_nil|]. intros [Hx Hn]%NoDup_cons Hin Hid.
  destruct (has_id rid x) eqn:E; [apply has_id_true in E|apply has_id_false in E].
  - apply elem_of_cons in Hin as [->|Hin]; [done|]. exfalso. apply Hx. rewrite E, <- Hid. by apply list_elem_of_fmap_2.
  - apply elem_of_cons in Hin as [->|Hin]; [done|]. auto.
Qed.

Lemma find_rule_app rid a b : find_rule rid (a ++ b) = match find_rule rid a with Some e => Some e | None => find_rule rid b end.
Proof. unfold find_rule. induction a as [|x a IH]; [done|]. simpl. by destruct (has_id rid x). Qed.

Lemma update_absent rid f l : rid ∉ ids l -> update_rule rid f l = l.
Proof.
  induction l as [|x l IH]; [done|]. csimpl. rewrite not_elem_of_cons. intros [Hx Hl]. rewrite (proj2 (has_id_false rid x)) by done. by rewrite IH.
Qed.

Lemma update_app rid f a b : update_rule rid f (a ++ b) = if existsb (has_id rid) a then update_rule rid f a ++ b else a ++ update_rule rid f b.
Proof. induction a as [|x a IH]; [done|]. simpl. destruct (has_id rid x); [done|]. rewrite IH. simpl. by destruct (existsb _ a). Qed.

Lemma update_ids rid f l : (forall e, pe_rule_id (f e) = pe_rule_id e \/ pe_rule_id e <> rid) -> ids (update_rule rid f l) = ids l.
Proof.
  intros Hf. induction l as [|x l IH]; [done|]. simpl. destruct (has_id rid x) eqn:E; csimpl; [|by rewrite IH].
  apply has_id_true in E. destruct (Hf x); [by f_equal|done].
Qed.

Lemma erase_app rid a b : rid ∉ ids b -> erase_rule rid (a ++ b) = erase_rule rid a ++ b.
Proof.
  intros Hb. induction a as [|x a IH]; simpl; [|destruct (has_id rid x); [done|]; by rewrite IH].
  clear -Hb. induction b as [|x b IH]; [done|]. csimpl in Hb. simpl. rewrite not_elem_of_cons in Hb. destruct Hb as [Hx Hb].
  rewrite (proj2 (has_id_false rid x)) by done. by rewrite IH.
Qed.

Lemma erase_skip rid a b : rid ∉ ids a -> erase_rule rid (a ++ b) = a ++ erase_rule rid b.
Proof.
  induction a as [|x a IH]; [done|]. csimpl. rewrite not_elem_of_cons. intros [Hx Ha]. rewrite (proj2 (has_id_false rid x)) by done. by rewrite IH.
Qed.

Lemma erase_sublist rid l : erase_rule rid l `sublist_of` l.
Proof. induction l as [|x l IH]; simpl; [done|]. destruct (has_id rid x); [by apply sublist_cons|by apply sublist_skip]. Qed.

Lemma erase_Forall P rid l : Forall P l -> Forall P (erase_rule rid l).
Proof. induction 1 as [|x l Hx Hl IH]; simpl; [constructor|]. destruct (has_id rid x); [done|by constructor]. Qed.

Lemma erase_perm rid l e : find_rule rid l = Some e -> l ≡ₚ e :: erase_rule rid l.
Proof.
  unfold find_rule. induction l as [|x l IH]; simpl; [done|]. destruct (has_id rid x); [by intros [= ->]|]. intros Hf. rewrite (IH Hf) at 1. apply Permutation_swap.
Qed.

Lemma index_lookup rid l e : find_rule rid l = Some e -> exists a b, l = a ++ e :: b /\ length a = rule_index rid l /\ rid ∉ ids a.
Proof.
  unfold find_rule. induction l as [|x l IH]; simpl; [done|]. destruct (has_id rid x) eqn:E.
  - intros [= ->]. exists [], l. split; [done|]. split; [done|]. by intros ?%elem_of_nil.
  - intros (a & b & -> & Ha & Hn)%IH. exists (x :: a), b. simpl. rewrite Ha. split; [done|]. split; [done|]. csimpl.
    apply has_id_false in E. rewrite not_elem_of_cons. naive_solver.
Qed.

Lemma index_app rid a b : rid ∉ ids a -> rule_index rid (a ++ b) = (length a + rule_index rid b)%nat.
Proof.
  induction a as [|x a IH]; [done|]. csimpl. rewrite not_elem_of_cons. intros [Hx Ha]. rewrite (proj2 (has_id_false rid x)) by done. by rewrite IH.
Qed.

Lemma index_first rid a b : rid ∈ ids a -> rule_index rid (a ++ b) = rule_index rid a /\ (rule_index rid a < length a)%nat.
Proof.
  induction a as [|x a IH]; [by intros ?%elem_of_nil|]. csimpl. intros Hin. destruct (has_id rid x) eqn:E; [simpl; lia|].
  apply has_id_false in E. apply elem_of_cons in Hin as [?|Hin]; [done|]. destruct (IH Hin). simpl. lia.
Qed.

Lemma insert_at_app n e a b : (n <= length a)%nat -> insert_at n e (a ++ b) = insert_at n e a ++ b.
Proof.
  intros Hn. unfold insert_at. rewrite take_app_le, drop_app_le by done. by rewrite <- app_assoc.
Qed.

Lemma insert_at_skip n e a b : insert_at (length a + n) e (a ++ b) = a ++ insert_at n e b.
Proof. unfold insert_at. rewrite take_app_add, drop_app_add. by rewrite app_assoc. Qed.

Lemma insert_at_perm n e l : insert_at n e l ≡ₚ e :: l.
Proof. unfold insert_at. rewrite <- (take_drop n l) at 3. symmetry. apply Permutation_middle. Qed.

(** * How the rules of a kind are laid out *)

Definition settled (actions : Array) : Prop := validated_actions (VArray actions) = Some actions.

(** A default rule with the user's changes. *)
Record variant (e e' : PushRuleEntry) : Prop := {
  va_id : pe_rule_id e' = pe_rule_id e;
  va_default : pe_is_default e' = pe_is_default e;
  va_conditions : pe_conditions e' = pe_conditions e;
  va_pattern : pe_pattern e' = pe_pattern e;
  va_actions : settled (pe_actions e')
}.

(** Default rules whose IDs are the server's and differ, with actions the server accepts. *)
Record default_list (ds : list PushRuleEntry) : Prop := {
  dl_marked : Forall (fun e => is_server_default_id (pe_rule_id e) = true /\ pe_is_default e = true) ds;
  dl_ids : NoDup (ids ds);
  dl_actions : Forall (fun e => settled (pe_actions e)) ds
}.

Record user_list (kind : PushRuleKind) (users : list PushRuleEntry) : Prop := {
  ul_marked : Forall (fun e => user_rule_id_is_valid kind (pe_rule_id e) = true /\ pe_is_default e = false) users;
  ul_ids : NoDup (ids users)
}.

Definition lead (ds : list PushRuleEntry) : list PushRuleEntry := option_list (find_rule master_rule_id ds).
Definition rest (ds : list PushRuleEntry) : list PushRuleEntry :=
  match find_rule master_rule_id ds with Some _ => erase_rule master_rule_id ds | None => ds end.

Lemma merged_layout ds users : merged_rules ds users = lead ds ++ users ++ rest ds.
Proof. unfold merged_rules, lead, rest. by destruct (find_rule _ ds). Qed.

Lemma lead_rest_perm ds : lead ds ++ rest ds ≡ₚ ds.
Proof. unfold lead, rest. destruct (find_rule _ ds) eqn:E; [|done]. simpl. symmetry. by apply erase_perm. Qed.

Lemma valid_not_default kind rid : user_rule_id_is_valid kind rid = true -> is_server_default_id rid = false.
Proof. unfold user_rule_id_is_valid. intros Hv. destruct (is_server_default_id rid); [|done]. by rewrite !orb_true_r in Hv. Qed.

Lemma default_list_In ds e : default_list ds -> e ∈ lead ds \/ e ∈ rest ds -> is_server_default_id (pe_rule_id e) = true /\ pe_is_default e = true.
Proof.
  intros Hd Hin. assert (e ∈ ds) as He by (rewrite <- lead_rest_perm; apply elem_of_app; tauto).
  pose proof (dl_marked ds Hd) as Hm. rewrite Forall_forall in Hm. by apply Hm.
Qed.

Lemma user_id_elsewhere kind ds rid : default_list ds -> user_rule_id_is_valid kind rid = true -> rid ∉ ids (lead ds) /\ rid ∉ ids (rest ds).
Proof.
  intros Hd Hv%valid_not_default. split; intros (e & -> & He)%list_elem_of_fmap; destruct (default_list_In ds e Hd); auto; congruence.
Qed.

Lemma default_id_elsewhere kind users rid : user_list kind users -> is_server_default_id rid = true -> rid ∉ ids users.
Proof.
  intros Hu Hv (e & -> & He)%list_elem_of_fmap. pose proof (ul_marked kind users Hu) as Hm. rewrite Forall_forall in Hm.
  destruct (Hm e He) as [Hv' _]. apply valid_not_default in Hv'. congruence.
Qed.

(** Updating a default rule keeps the layout. *)
Lemma update_find_other rid f rid' l : rid <> rid' -> (forall e, pe_rule_id (f e) = pe_rule_id e) -> find_rule rid' (update_rule rid f l) = find_rule rid' l.
Proof.
  unfold find_rule. intros Hne Hf. induction l as [|x l IH]; [done|]. simpl. destruct (has_id rid x) eqn:E; simpl; [|by rewrite IH].
  apply has_id_true in E. unfold has_id. rewrite Hf, E. by rewrite (proj2 (string_eqb_false rid rid')).
Qed.

Lemma update_erase_other rid f rid' l : rid <> rid' -> (forall e, pe_rule_id (f e) = pe_rule_id e) ->
  erase_rule rid' (update_rule rid f l) = update_rule rid f (erase_rule rid' l).
Proof.
  intros Hne Hf. induction l as [|x l IH]; [done|]. simpl. destruct (has_id rid x) eqn:E; simpl.
  - apply has_id_true in E. unfold has_id at 1. rewrite Hf, E, (proj2 (string_eqb_false rid rid')) by done.
    rewrite (proj2 (has_id_false rid' x)) by congruence. simpl. by rewrite (proj2 (has_id_true rid x)).
  - destruct (has_id rid' x); [done|]. simpl. rewrite E. by rewrite IH.
Qed.

Lemma update_find_self rid f l e : (forall e, pe_rule_id (f e) = pe_rule_id e) -> find_rule rid l = Some e ->
  find_rule rid (update_rule rid f l) = Some (f e) /\ erase_rule rid (update_rule rid f l) = erase_rule rid l.
Proof.
  unfold find_rule. intros Hf. induction l as [|x l IH]; simpl; [done|]. destruct (has_id rid x) eqn:E; simpl.
  - intros [= ->]. unfold has_id in *. rewrite Hf, E. done.
  - intros He. rewrite E. destruct (IH He) as [-> ->]. done.
Qed.

Lemma update_layout rid f ds users : (forall e, pe_rule_id (f e) = pe_rule_id e) -> NoDup (ids ds) -> rid ∉ ids users ->
  update_rule rid f (lead ds ++ users ++ rest ds) = lead (update_rule rid f ds) ++ users ++ rest (update_rule rid f ds).
Proof.
  intros Hf Hn Hu. unfold lead, rest. destruct (decide (rid = master_rule_id)) as [->|Hne].
  - destruct (find_rule master_rule_id ds) as [m|] eqn:E.
    + destruct (update_find_self _ f _ _ Hf E) as [-> ->]. apply find_rule_Some in E as [_ Hm]. simpl. by rewrite (proj2 (has_id_true _ m)).
    + rewrite (update_absent _ f ds) by (by apply find_rule_None). rewrite E. simpl. apply find_rule_None in E.
      apply update_absent. rewrite fmap_app. rewrite elem_of_app. tauto.
  - rewrite update_find_other by done. destruct (find_rule master_rule_id ds) as [m|] eqn:E.
    + apply find_rule_Some in E as [_ Hm]. simpl. rewrite (proj2 (has_id_false rid m)) by congruence. rewrite update_app.
      rewrite existsb_id_false by done. by rewrite update_erase_other.
    + simpl. by rewrite update_app, existsb_id_false.
Qed.

Lemma update_user_layout kind rid f ds users : default_list ds -> user_rule_id_is_valid kind rid = true ->
  update_rule rid f (lead ds ++ users ++ rest ds) = lead ds ++ update_rule rid f users ++ rest ds.
Proof.
  intros Hd Hv. destruct (user_id_elsewhere kind ds rid Hd Hv) as [H1 H2].
  rewrite update_app, existsb_id_false by done. rewrite update_app. f_equal.
  destruct (existsb (has_id rid) users) eqn:E; [done|]. rewrite !update_absent; [done| |done].
  rewrite <- existsb_id. by rewrite E.
Qed.

Lemma erase_user_layout kind rid ds users : default_list ds -> user_rule_id_is_valid kind rid = true ->
  erase_rule rid (lead ds ++ users ++ rest ds) = lead ds ++ erase_rule rid users ++ rest ds.
Proof. intros Hd Hv. destruct (user_id_elsewhere kind ds rid Hd Hv) as [H1 H2]. by rewrite erase_skip, erase_app. Qed.

Lemma find_user_layout kind rid ds users : default_list ds -> user_rule_id_is_valid kind rid = true ->
  find_rule rid (lead ds ++ users ++ rest ds) = find_rule rid users.
Proof.
  intros Hd Hv. destruct (user_id_elsewhere kind ds rid Hd Hv) as [H1 H2]. rewrite !find_rule_app.
  rewrite (proj2 (find_rule_None rid (lead ds))) by done. rewrite (proj2 (find_rule_None rid (rest ds))) by done. by destruct (find_rule rid users).
Qed.

(** * Placing a rule *)

Lemma first_user_slot_layout kind ds users : default_list ds -> user_list kind users ->
  first_user_slot (lead ds ++ users ++ rest ds) = length (lead ds).
Proof.
  intros Hd Hu. assert (first_user_slot (users ++ rest ds) = 0%nat) as Hzero.
  { destruct users as [|e users].
    - simpl. destruct (rest ds) as [|x l] eqn:Er; [done|]. simpl. destruct (pe_is_default x); [|done]. simpl.
      destruct (has_id master_rule_id x) eqn:Ex; [|done]. exfalso. apply has_id_true in Ex.
      pose proof (dl_ids ds Hd) as Hn. rewrite <- lead_rest_perm, Er in Hn. unfold lead in Hn. unfold rest in Er.
      destruct (find_rule master_rule_id ds) as [m|] eqn:Em.
      + apply find_rule_Some in Em as [_ Hm]. csimpl in Hn. rewrite NoDup_cons, elem_of_cons in Hn. destruct Hn as [Hn _]. apply Hn. left. congruence.
      + apply find_rule_None in Em. apply Em. rewrite Er. csimpl. rewrite Ex. by left.
    - simpl. pose proof (ul_marked kind _ Hu) as Hm. apply Forall_cons in Hm as [[_ ->] _]. done. }
  unfold lead. destruct (find_rule master_rule_id ds) as [m|] eqn:Em; simpl; [|done]. apply find_rule_Some in Em as [Hin Hid].
  pose proof (dl_marked ds Hd) as Hm. rewrite Forall_forall in Hm. destruct (Hm m Hin) as [_ ->]. rewrite (proj2 (has_id_true _ m)) by done. simpl. by rewrite Hzero.
Qed.

(** What placing does among the user's own rules. *)
Definition placed_users (rid : string) (entry : PushRuleEntry) (placement : PushRulePlacement) (users : list PushRuleEntry) : list PushRuleEntry :=
  let existing := find_rule rid users in
  let entry := match existing with Some old => entry_enabled (pe_enabled old) entry | None => entry end in
  match relative_id rid placement with
  | None => match existing with Some _ => update_rule rid (fun _ => entry) users | None => entry :: users end
  | Some relative =>
      let others := match existing with Some _ => erase_rule rid users | None => users end in
      insert_at (match pp_before placement with Some _ => rule_index relative others | None => S (rule_index relative others) end) entry others
  end.

Lemma relative_id_other rid placement relative : relative_id rid placement = Some relative -> relative <> rid.
Proof. unfold relative_id. destruct (match pp_before placement with Some _ => _ | None => _ end); [|done]. destruct (_ =s _) eqn:E; [done|]. intros [= <-]. by apply string_eqb_false. Qed.

Lemma relative_is_user kind ds users relative : default_list ds -> user_list kind users ->
  check_relative (Some relative) (lead ds ++ users ++ rest ds) = edit_applied -> user_rule_id_is_valid kind relative = true /\ relative ∈ ids users.
Proof.
  intros Hd Hu. simpl. destruct (find_rule relative _) as [e|] eqn:E; [|done]. destruct (pe_is_default e) eqn:Ee; [done|]. intros _.
  apply find_rule_Some in E as [Hin <-]. assert (e ∈ users) as He.
  { rewrite !elem_of_app in Hin. destruct Hin as [Hin|[Hin|Hin]]; [|done|]; destruct (default_list_In ds e Hd); auto; congruence. }
  pose proof (ul_marked kind users Hu) as Hm. rewrite Forall_forall in Hm. split; [by apply Hm|]. by apply list_elem_of_fmap_2.
Qed.

Lemma erase_id_other rid rid' l : rid' <> rid -> rid' ∈ ids l -> rid' ∈ ids (erase_rule rid l).
Proof.
  intros Hne. induction l as [|x l IH]; [done|]. csimpl. rewrite elem_of_cons. destruct (has_id rid x) eqn:E; csimpl.
  - apply has_id_true in E. intros [->|?]; [done|done].
  - rewrite elem_of_cons. naive_solver.
Qed.

Lemma placed_layout kind rid entry placement ds users : default_list ds -> user_list kind users -> user_rule_id_is_valid kind rid = true ->
  check_relative (relative_id rid placement) (lead ds ++ users ++ rest ds) = edit_applied ->
  placed_rules rid entry placement (lead ds ++ users ++ rest ds) = lead ds ++ placed_users rid entry placement users ++ rest ds.
Proof.
  intros Hd Hu Hv Hc. unfold placed_rules, placed_users. rewrite (find_user_layout kind) by done.
  destruct (relative_id rid placement) as [relative|] eqn:Er.
  - destruct (relative_is_user kind ds users relative Hd Hu Hc) as [Hrv Hrin]. pose proof (relative_id_other _ _ _ Er) as Hne.
    destruct (user_id_elsewhere kind ds relative Hd Hrv) as [H1 _].
    set (others := match find_rule rid users with Some _ => erase_rule rid users | None => users end).
    assert (match find_rule rid users with Some _ => erase_rule rid (lead ds ++ users ++ rest ds) | None => lead ds ++ users ++ rest ds end =
      lead ds ++ others ++ rest ds) as -> by (unfold others; destruct (find_rule rid users); [by rewrite (erase_user_layout kind)|done]).
    assert (relative ∈ ids others) as Hin by (unfold others; destruct (find_rule rid users); [by apply erase_id_other|done]).
    rewrite index_app by done. destruct (index_first relative others (rest ds) Hin) as [-> Hlt].
    destruct (pp_before placement); [|rewrite <- Nat.add_succ_r]; rewrite insert_at_skip, insert_at_app by lia; done.
  - destruct (find_rule rid users) as [old|] eqn:Ef; [by rewrite (update_user_layout kind)|].
    rewrite (first_user_slot_layout kind) by done. rewrite <- (Nat.add_0_r (length (lead ds))), insert_at_skip. done.
Qed.

Lemma update_perm rid f l e : find_rule rid l = Some e -> update_rule rid f l ≡ₚ f e :: erase_rule rid l.
Proof.
  unfold find_rule. induction l as [|x l IH]; simpl; [done|]. destruct (has_id rid x); [by intros [= ->]|]. intros Hf. rewrite (IH Hf). apply Permutation_swap.
Qed.

(** Placing a rule replaces the one of its ID, or adds it. *)
Lemma placed_users_perm rid entry placement users : exists e, (forall b, entry_enabled b e = entry_enabled b entry) /\
  placed_users rid entry placement users ≡ₚ e :: erase_rule rid users /\
  (find_rule rid users = None -> e = entry /\ erase_rule rid users = users).
Proof.
  assert (find_rule rid users = None -> erase_rule rid users = users) as Hnone.
  { intros Hn%find_rule_None. pose proof (erase_skip rid users []) as He. rewrite !app_nil_r in He. auto. }
  unfold placed_users. destruct (find_rule rid users) as [old|] eqn:Ef.
  - exists (entry_enabled (pe_enabled old) entry). split; [done|]. split; [|done]. destruct (relative_id rid placement); [by rewrite insert_at_perm|].
    by rewrite update_perm.
  - exists entry. split; [done|]. rewrite Hnone by done. split; [|done]. destruct (relative_id rid placement); [by rewrite insert_at_perm|done].
Qed.

Lemma placed_user_list kind rid entry placement users : user_list kind users -> pe_rule_id entry = rid -> pe_is_default entry = false ->
  user_rule_id_is_valid kind rid = true -> user_list kind (placed_users rid entry placement users) /\
  length (placed_users rid entry placement users) = (if existsb (has_id rid) users then length users else S (length users)).
Proof.
  intros [Hm Hn] Hid Hdef Hv. destruct (placed_users_perm rid entry placement users) as (e & He & Hp & Hnone).
  assert (pe_rule_id e = rid /\ pe_is_default e = false) as [Hid' Hdef'].
  { specialize (He true). apply (f_equal (fun x => (pe_rule_id x, pe_is_default x))) in He. injection He as -> ->. by split. }
  assert (rid ∉ ids (erase_rule rid users)) as Hout.
  { destruct (find_rule rid users) as [old|] eqn:Ef; [|destruct (Hnone eq_refl) as [_ ->]; by apply find_rule_None].
    rewrite (erase_perm _ _ _ Ef) in Hn. apply find_rule_Some in Ef as [_ Ho]. csimpl in Hn. rewrite Ho in Hn. by apply NoDup_cons in Hn as [? _]. }
  split; [split|].
  - rewrite Hp. constructor; [rewrite Hid'; by split|]. by apply erase_Forall.
  - rewrite Hp. csimpl. rewrite Hid'. apply NoDup_cons. split; [done|]. eapply sublist_NoDup; [exact Hn|]. apply fmap_sublist, erase_sublist.
  - rewrite Hp. simpl. destruct (find_rule rid users) as [old|] eqn:Ef.
    + assert (rid ∈ ids users) as Hin by (apply find_rule_Some in Ef as [? <-]; by apply list_elem_of_fmap_2).
      rewrite (proj2 (existsb_id rid users)) by done. rewrite (Permutation_length (erase_perm _ _ _ Ef)). done.
    + destruct (Hnone eq_refl) as [_ ->]. apply find_rule_None in Ef. by rewrite existsb_id_false.
Qed.

(** * Entries that read back *)

Lemma keep_actions_settled actions kept : keep_actions actions = Some kept -> keep_actions kept = Some kept /\ (length kept <= length actions)%nat.
Proof.
  revert kept. induction actions as [|a actions IH]; intros kept; simpl; [by intros [= <-]|].
  destruct (as_string a) as [name|] eqn:Ea; [destruct (name =s "notify") eqn:En; [|destruct (_ || _)]|destruct (tweak_is_valid a) eqn:Et]; try done.
  - intros (k & Hk & ->)%fmap_Some. destruct (IH k Hk) as [H1 H2]. simpl. rewrite Ea, En, H1. simpl. split; [done|lia].
  - intros Hk. destruct (IH kept Hk). split; [done|lia].
  - intros (k & Hk & ->)%fmap_Some. destruct (IH k Hk) as [H1 H2]. simpl. rewrite Ea, Et, H1. simpl. split; [done|lia].
Qed.

Lemma validated_settled value actions : validated_actions value = Some actions -> settled actions.
Proof.
  unfold settled, validated_actions. destruct (as_array value) as [array|]; [|done]. simpl.
  destruct (Nat.ltb_spec max_push_rule_actions (length array)); [done|]. intros Hk. destruct (keep_actions_settled _ _ Hk) as [H1 H2].
  destruct (Nat.ltb_spec max_push_rule_actions (length actions)); [lia|done].
Qed.

Section Layout.
Context `{Libc}.

(** Reading the rule's own object gives the rule. *)
Definition readable (kind : PushRuleKind) (e : PushRuleEntry) : Prop :=
  user_rule_from kind (pe_rule_id e) (VObject (entry_object e)) = Some (entry_enabled true e).

Lemma entry_object_members e :
  object_member (entry_object e) "actions" = Some (VArray (pe_actions e)) /\
  object_member (entry_object e) "conditions" = VArray <$> pe_conditions e /\
  object_member (entry_object e) "default" = Some (VBool (pe_is_default e)) /\
  object_member (entry_object e) "enabled" = Some (VBool (pe_enabled e)) /\
  object_member (entry_object e) "pattern" = VString <$> pe_pattern e /\
  object_member (entry_object e) "rule_id" = Some (VString (pe_rule_id e)).
Proof. unfold entry_object. by destruct (pe_conditions e), (pe_pattern e). Qed.

Lemma user_rule_facts kind rid body e : user_rule_from kind rid body = Some e ->
  pe_rule_id e = rid /\ pe_is_default e = false /\ forall b, readable kind (entry_enabled b e).
Proof.
  unfold user_rule_from. destruct (value_is_object body) as [object|]; [|done].
  destruct (object_member object "actions" ≫= validated_actions) as [actions|] eqn:Ea; [|done].
  apply bind_Some in Ea as (value & _ & Ha%validated_settled).
  destruct (body_conditions kind object) as [conditions|] eqn:Ec; [|done]. destruct (body_pattern kind object) as [pattern|] eqn:Ep; [|done].
  set (entry := {| pe_rule_id := rid |}). destruct (fits_rule_bytes entry) eqn:Ef; [|done]. intros [= <-]. split; [done|]. split; [done|].
  intros b. unfold readable, user_rule_from. cbn [value_is_object].
  destruct (entry_object_members (entry_enabled b entry)) as (-> & Hc & _ & _ & Hp & _). cbn [option_bind mbind pe_actions entry_enabled entry].
  rewrite Ha. unfold body_conditions in *. unfold body_pattern in *. rewrite Hc, Hp. clear Hc Hp.
  cbn [entry_enabled pe_conditions pe_pattern entry pe_rule_id].
  assert ((if has_conditions kind then match VArray <$> conditions with
      | None => Some (Some []) | Some value => match as_array value with None => None | Some cs =>
        if (max_push_rule_conditions <? length cs)%nat || negb (forallb condition_is_valid cs) then None else Some (Some cs) end end
      else Some None) = Some conditions) as ->.
  { destruct (has_conditions kind); [|done]. destruct (object_member object "conditions") as [v|]; [|by injection Ec as <-].
    destruct (as_array v) as [cs|]; [|done]. destruct (_ || _) eqn:E; [done|]. injection Ec as <-. simpl. by rewrite E. }
  assert ((if has_pattern kind then match bounded_string (VString <$> pattern) with
      | None => None | Some p => if empty p then None else Some (Some p) end else Some None) = Some pattern) as ->.
  { destruct (has_pattern kind); [|done]. destruct (bounded_string (object_member object "pattern")) as [p|] eqn:E; [|done].
    destruct (empty p) eqn:E'; [done|]. injection Ep as <-. unfold bounded_string in *. simpl.
    destruct (object_member object "pattern" ≫= as_string); [|done]. destruct (_ <=? _)%nat eqn:El; [|done]. injection E as ->. by rewrite El, E'. }
  fold entry. by rewrite Ef.
Qed.

(** A rule of the user, its size apart. *)
Record well_formed (kind : PushRuleKind) (e : PushRuleEntry) : Prop := {
  wf_default : pe_is_default e = false;
  wf_actions : settled (pe_actions e);
  wf_conditions : body_conditions kind (entry_object e) = Some (pe_conditions e);
  wf_pattern : body_pattern kind (entry_object e) = Some (pe_pattern e)
}.

Lemma well_formed_static kind e e' : pe_is_default e' = pe_is_default e -> pe_conditions e' = pe_conditions e -> pe_pattern e' = pe_pattern e ->
  settled (pe_actions e') -> well_formed kind e -> well_formed kind e'.
Proof.
  intros Hd Hc Hp Ha [W1 W2 W3 W4]. unfold body_conditions, body_pattern in *. destruct (entry_object_members e) as (_ & Oc & _ & _ & Op & _).
  destruct (entry_object_members e') as (_ & Oc' & _ & _ & Op' & _). split; [congruence|done|..]; unfold body_conditions, body_pattern.
  - by rewrite Oc', Hc, <- Oc.
  - by rewrite Op', Hp, <- Op.
Qed.

Lemma readable_spec kind e : readable kind e <-> well_formed kind e /\ fits_rule_bytes (entry_enabled true e) = true.
Proof.
  unfold readable, user_rule_from. cbn [value_is_object]. pose proof (entry_object_members e) as (Ha & _). split.
  - rewrite Ha. cbn [option_bind mbind]. destruct (validated_actions _) as [actions|] eqn:Ea; [|done].
    destruct (body_conditions kind (entry_object e)) as [conditions|] eqn:Ec; [|done]. destruct (body_pattern kind (entry_object e)) as [pattern|] eqn:Ep; [|done].
    destruct (fits_rule_bytes _) eqn:Ef; [|done]. intros [= Hd Hact Hc Hp]. subst. split; [by split|]. unfold entry_enabled. by rewrite <- Hd.
  - intros [[W1 W2 W3 W4] Hf]. rewrite Ha. cbn [option_bind mbind]. rewrite W2, W3, W4. unfold entry_enabled in *. rewrite W1 in *. by rewrite Hf.
Qed.

(** * Reading stored rules *)

Lemma variant_refl ds : default_list ds -> Forall2 variant ds ds.
Proof. intros [_ _ Ha]. induction Ha; constructor; done. Qed.

Lemma variants_ids ds ds' : Forall2 variant ds ds' -> ids ds' = ids ds.
Proof. induction 1 as [|e e' ds ds' [] _ IH]; [done|]. csimpl. by f_equal. Qed.

Lemma variants_default_list ds ds' : default_list ds -> Forall2 variant ds ds' -> default_list ds'.
Proof.
  intros [Hm Hn _] Hv. pose proof (variants_ids _ _ Hv) as Hids. split; [|by rewrite Hids|]; clear Hn Hids; induction Hv as [|e e' ds ds' [] _ IH]; try constructor.
  - apply Forall_cons in Hm as [Hm _]. rewrite va_id0, va_default0. done.
  - apply IH. by apply Forall_cons in Hm as [_ ?].
  - done.
  - apply IH. by apply Forall_cons in Hm as [_ ?].
Qed.

Lemma variants_update rid f ds ds' : (forall e e', variant e e' -> variant e (f e')) -> Forall2 variant ds ds' -> Forall2 variant ds (update_rule rid f ds').
Proof. intros Hf. induction 1; simpl; [constructor|]. destruct (has_id rid _); constructor; auto. Qed.

Lemma variant_enabled b e e' : variant e e' -> variant e (entry_enabled b e').
Proof. by intros []. Qed.

Lemma variant_actions actions e e' : settled actions -> variant e e' -> variant e (entry_actions actions e').
Proof. by intros Ha []. Qed.

Lemma variant_changed object e e' : variant e e' -> variant e (changed_default object e').
Proof.
  intros Hv. unfold changed_default. destruct (object_member object "enabled" ≫= as_bool), (object_member object "actions" ≫= validated_actions) as [actions|] eqn:Ea;
    try apply variant_actions; try apply variant_enabled; try done; apply bind_Some in Ea as (v & _ & Ha); by eapply validated_settled.
Qed.

Lemma read_stored_layout kind cap ds stored : forall ds' users n ds2 users2 n2,
  Forall2 variant ds ds' -> user_list kind users -> Forall (readable kind) users ->
  foldl (read_stored kind cap) (ds', users, n) stored = (ds2, users2, n2) ->
  Forall2 variant ds ds2 /\ user_list kind users2 /\ Forall (readable kind) users2 /\
  (n2 + length users = n + length users2)%nat /\ (n <= n2)%nat /\ (n2 <= Nat.max n cap)%nat.
Proof.
  induction stored as [|value stored IH]; intros ds' users n ds2 users2 n2 Hv Hu Hr; simpl.
  { intros [= <- <- <-]. repeat split; try apply Hu; try done; lia. }
  destruct (value_is_object value) as [object|]; [|by apply IH]. destruct (string_member object "rule_id") as [rid|]; [|by apply IH].
  destruct (is_server_default_id rid) eqn:Ed.
  { apply IH; [|done|done]. apply variants_update; [|done]. intros e e'. apply variant_changed. }
  destruct (Nat.leb_spec cap n) as [|Hn]; [by apply IH|]. simpl. destruct (user_rule_id_is_valid kind rid) eqn:Ev; [|by apply IH]. simpl.
  destruct (existsb (has_id rid) users) eqn:Ex; [by apply IH|]. destruct (user_rule_from kind rid value) as [e|] eqn:Ee; [|by apply IH].
  destruct (user_rule_facts _ _ _ _ Ee) as (Hid & Hdef & Hread). intros Hf.
  apply IH in Hf as (H1 & H2 & H3 & H4 & H5 & H6); [|done| |].
  - rewrite length_app in H4. simpl in H4. split; [done|]. split; [done|]. split; [done|]. lia.
  - destruct Hu as [Hm Hd]. split.
    + apply Forall_app. split; [done|]. repeat constructor; simpl; [by rewrite Hid|done].
    + rewrite fmap_app. apply NoDup_app. split; [done|]. split; [|apply NoDup_singleton]. simpl.
      intros x Hx ->%list_elem_of_singleton. rewrite Hid in Hx. by rewrite (proj2 (existsb_id rid users)) in Ex.
  - apply Forall_app. split; [done|]. repeat constructor. apply Hread.
Qed.

(** * Edits *)

Lemma rules_of_same kind l u : rules_of kind (with_rules kind l u) = l.
Proof. by destruct kind. Qed.

Lemma rules_of_other kind kind' l u : kind' <> kind -> rules_of kind' (with_rules kind l u) = rules_of kind' u.
Proof. by destruct kind, kind'. Qed.

Definition users_in (rules : list PushRuleEntry) : list PushRuleEntry := filter (fun e => pe_is_default e = false) rules.

Lemma count_with_rules kind l u : (user_rule_count (with_rules kind l u) + length (users_in (rules_of kind u)) = user_rule_count u + length (users_in l))%nat.
Proof. unfold user_rule_count, users_in. destruct kind; simpl; lia. Qed.

Lemma users_in_layout kind ds users : default_list ds -> user_list kind users -> users_in (lead ds ++ users ++ rest ds) = users.
Proof.
  intros Hd [Hm _]. unfold users_in. rewrite !filter_app.
  assert (forall l, (forall e, e ∈ l -> pe_is_default e = true) -> filter (fun e => pe_is_default e = false) l = []) as Hnone.
  { intros l Hl. induction l as [|e l IH]; [done|]. rewrite filter_cons_False; [apply IH; intros x Hx; apply Hl; by right|]. rewrite Hl; [done|by left]. }
  rewrite (Hnone (lead ds)) by (intros e He; by apply (default_list_In ds e Hd); left).
  rewrite (Hnone (rest ds)) by (intros e He; by apply (default_list_In ds e Hd); right). rewrite app_nil_r. simpl.
  clear -Hm. induction Hm as [|e l [_ He] _ IH]; [done|]. rewrite filter_cons_True by done. by rewrite IH.
Qed.

Context (server_defaults : Object).
Hypothesis defaults_ok : forall kind, default_list (default_rules server_defaults kind).

(** The rules of a kind: the server's master rule, the user's rules, the server's other rules. *)
Definition kind_ok (kind : PushRuleKind) (ds users rules : list PushRuleEntry) : Prop :=
  rules = lead ds ++ users ++ rest ds /\ Forall2 variant (default_rules server_defaults kind) ds /\ user_list kind users.

Record kept (u : UserPushRules) : Prop := {
  kp_kinds : forall kind, exists ds users, kind_ok kind ds users (rules_of kind u);
  kp_count : (user_rule_count u <= max_user_rules u)%nat
}.

Definition all_well_formed (u : UserPushRules) : Prop := forall kind, Forall (well_formed kind) (users_in (rules_of kind u)).

Lemma kind_ok_defaults kind ds users rules : kind_ok kind ds users rules -> default_list ds.
Proof. intros (_ & Hv & _). by eapply variants_default_list. Qed.

Lemma kind_ok_users kind ds users rules : kind_ok kind ds users rules -> users_in rules = users.
Proof. intros Hk. pose proof (kind_ok_defaults _ _ _ _ Hk). destruct Hk as (-> & _ & Hu). by apply (users_in_layout kind). Qed.

(** Replacing the rules of one kind. *)
Lemma with_rules_kept kind ds users rules u : kept u -> kind_ok kind ds users rules ->
  (length users <= length (users_in (rules_of kind u)) \/ user_rule_count u < max_user_rules u /\ length users <= S (length (users_in (rules_of kind u))))%nat ->
  kept (with_rules kind rules u).
Proof.
  intros [K C] Hk Hlen. split.
  - intros kind'. destruct (decide (kind' = kind)) as [->|Hne]; [rewrite rules_of_same; by exists ds, users|rewrite rules_of_other by done; apply K].
  - pose proof (count_with_rules kind rules u) as Hc. rewrite (kind_ok_users _ _ _ _ Hk) in Hc.
    assert (max_user_rules (with_rules kind rules u) = max_user_rules u) as -> by done. lia.
Qed.

Lemma with_rules_well_formed kind rules u : all_well_formed u -> Forall (well_formed kind) (users_in rules) -> all_well_formed (with_rules kind rules u).
Proof.
  intros Ha Hr kind'. destruct (decide (kind' = kind)) as [->|Hne]; [by rewrite rules_of_same|by rewrite rules_of_other].
Qed.

Lemma update_length rid f l : length (update_rule rid f l) = length l.
Proof. induction l as [|x l IH]; [done|]. simpl. destruct (has_id rid x); simpl; [done|by rewrite IH]. Qed.

Lemma update_Forall P rid f l : Forall P l -> (forall e, P e -> P (f e)) -> Forall P (update_rule rid f l).
Proof. intros Hl Hf. induction Hl as [|x l Hx Hl IH]; simpl; [constructor|]. destruct (has_id rid x); constructor; auto. Qed.

(** A change of a rule that leaves its identity alone. *)
Lemma update_kept kind rid f u : kept u -> (forall e, pe_rule_id (f e) = pe_rule_id e /\ pe_is_default (f e) = pe_is_default e) ->
  (forall e e', variant e e' -> variant e (f e')) -> kept (with_rules kind (update_rule rid f (rules_of kind u)) u).
Proof.
  intros K Hf Hv. destruct (kp_kinds u K kind) as (ds & users & Hk). pose proof (kind_ok_defaults _ _ _ _ Hk) as Hd.
  pose proof (kind_ok_users _ _ _ _ Hk) as Hin. destruct Hk as (Heq & Hvs & Hu). destruct (decide (rid ∈ ids users)) as [Hrid|Hrid].
  - assert (user_rule_id_is_valid kind rid = true) as Hvalid.
    { apply list_elem_of_fmap in Hrid as (e & -> & He). pose proof (ul_marked _ _ Hu) as Hm. rewrite Forall_forall in Hm. by apply Hm. }
    apply (with_rules_kept kind ds (update_rule rid f users)); [done| |left; rewrite Hin, update_length; lia].
    split; [by rewrite Heq, (update_user_layout kind)|]. split; [done|]. destruct Hu as [Hm Hn]. split.
    + apply update_Forall; [done|]. intros e He. destruct (Hf e) as [-> ->]. done.
    + rewrite update_ids; [done|]. intros e. left. apply Hf.
  - apply (with_rules_kept kind (update_rule rid f ds) users); [done| |left; rewrite Hin; lia].
    split; [rewrite Heq; apply update_layout; [apply Hf|apply Hd|done]|]. split; [by apply variants_update|done].
Qed.

(** An applied PUT puts the rule among the user's rules. *)
Lemma put_result kind rid body placement u : kept u -> (put_rule kind rid body placement u).1 = edit_applied ->
  exists ds users e, kind_ok kind ds users (rules_of kind u) /\ user_rule_from kind rid body = Some e /\ user_rule_id_is_valid kind rid = true /\
    (existsb (has_id rid) users = true \/ user_rule_count u < max_user_rules u)%nat /\
    let rules := lead ds ++ placed_users rid e placement users ++ rest ds in
    kind_ok kind ds (placed_users rid e placement users) rules /\ (put_rule kind rid body placement u).2 = with_rules kind rules u /\
    length (placed_users rid e placement users) = (if existsb (has_id rid) users then length users else S (length users)) /\
    (forall relative, relative_id rid placement = Some relative -> relative ∈ ids users /\ relative <> rid).
Proof.
  intros K. unfold put_rule. destruct (is_server_default_id rid); [done|]. destruct (user_rule_id_is_valid kind rid) eqn:Hv; [|done]. simpl.
  destruct (user_rule_from kind rid body) as [e|] eqn:He; [|done]. destruct (check_relative _ _) eqn:Hc; try done.
  destruct (negb _ && _) eqn:Hfull; [done|]. intros _. simpl. destruct (user_rule_facts _ _ _ _ He) as (Hid & Hdef & _).
  destruct (kp_kinds u K kind) as (ds & users & Hk). pose proof (kind_ok_defaults _ _ _ _ Hk) as Hd. exists ds, users, e.
  split; [done|]. split; [done|]. split; [done|].
  destruct Hk as (Heq & Hvs & Hu). destruct (placed_user_list kind rid e placement users Hu Hid Hdef Hv) as [Hpu Hlen].
  assert (existsb (has_id rid) (rules_of kind u) = existsb (has_id rid) users) as Hex.
  { apply Bool.eq_iff_eq_true. rewrite !existsb_id, Heq, !fmap_app, !elem_of_app. destruct (user_id_elsewhere kind ds rid Hd Hv). tauto. }
  split; [rewrite Hex in Hfull; destruct (existsb (has_id rid) users); [by left|]; simpl in Hfull; apply Nat.leb_gt in Hfull; by right|].
  split; [by split|]. rewrite Heq in Hc |- *. split; [by rewrite (placed_layout kind)|]. split; [done|].
  intros relative Hrel. rewrite Hrel in Hc. split; [by eapply relative_is_user|by eapply relative_id_other].
Qed.

Lemma refused_put kind rid body placement u : (put_rule kind rid body placement u).1 <> edit_applied -> (put_rule kind rid body placement u).2 = u.
Proof.
  unfold put_rule. destruct (is_server_default_id rid); [done|]. destruct (negb _); [done|]. destruct (user_rule_from kind rid body); [|done].
  destruct (check_relative _ _); try done. by destruct (_ && _).
Qed.

Lemma put_outcome kind rid body placement u : (put_rule kind rid body placement u).1 = edit_applied \/ (put_rule kind rid body placement u).2 = u.
Proof. destruct (put_rule kind rid body placement u).1 eqn:E; [by left|right; apply refused_put; by rewrite E..]. Qed.

Lemma put_kept kind rid body placement u : kept u -> kept (put_rule kind rid body placement u).2.
Proof.
  intros K. destruct (put_outcome kind rid body placement u) as [Ha| ->]; [|done].
  destruct (put_result kind rid body placement u K Ha) as (ds & users & e & Hk & _ & _ & Hroom & Hk' & -> & Hlen & _).
  apply (with_rules_kept kind ds (placed_users rid e placement users)); [done|done|]. rewrite (kind_ok_users _ _ _ _ Hk), Hlen.
  destruct (existsb (has_id rid) users); [left; lia|]. destruct Hroom as [?|Hroom]; [done|]. right. lia.
Qed.

Lemma put_well_formed kind rid body placement u : kept u -> all_well_formed u -> all_well_formed (put_rule kind rid body placement u).2.
Proof.
  intros K Hr. destruct (put_outcome kind rid body placement u) as [Ha| ->]; [|done].
  destruct (put_result kind rid body placement u K Ha) as (ds & users & e & Hk & He & _ & _ & Hk' & -> & _). apply with_rules_well_formed; [done|].
  rewrite (kind_ok_users _ _ _ _ Hk'). specialize (Hr kind). rewrite (kind_ok_users _ _ _ _ Hk) in Hr.
  destruct (placed_users_perm rid e placement users) as (e' & He' & -> & _). constructor; [|by apply erase_Forall].
  destruct (user_rule_facts _ _ _ _ He) as (_ & _ & Hread). replace e' with (entry_enabled (pe_enabled e') e); [by apply readable_spec|]. rewrite <- He'. by destruct e'.
Qed.

Lemma delete_kept kind rid u : kept u -> kept (delete_rule kind rid u).2.
Proof.
  intros K. unfold delete_rule. destruct (find_rule rid (rules_of kind u)) as [e|] eqn:Hf; [|done]. destruct (pe_is_default e) eqn:He; [done|]. simpl.
  destruct (kp_kinds u K kind) as (ds & users & Hk). pose proof (kind_ok_defaults _ _ _ _ Hk) as Hd. pose proof (kind_ok_users _ _ _ _ Hk) as Hin.
  destruct Hk as (Heq & Hvs & Hu). apply find_rule_Some in Hf as [Hmem Hid].
  assert (e ∈ users) as Hmem' by (rewrite <- Hin; apply list_elem_of_filter; done).
  assert (user_rule_id_is_valid kind rid = true) as Hv by (pose proof (ul_marked _ _ Hu) as Hm; rewrite Forall_forall in Hm; rewrite <- Hid; by apply Hm).
  apply (with_rules_kept kind ds (erase_rule rid users)); [done| |left; rewrite Hin; apply sublist_length, erase_sublist].
  split; [by rewrite Heq, (erase_user_layout kind)|]. split; [done|]. destruct Hu as [Hm Hn]. split; [by apply erase_Forall|].
  eapply sublist_NoDup; [exact Hn|]. apply fmap_sublist, erase_sublist.
Qed.

Lemma set_enabled_kept kind rid b u : kept u -> kept (set_enabled kind rid b u).2.
Proof. intros K. unfold set_enabled. destruct (find_rule rid _); [|done]. apply update_kept; [done|done|]. intros e e'. apply variant_enabled. Qed.

Lemma set_actions_kept kind rid value u : kept u -> kept (set_actions kind rid value u).2.
Proof.
  intros K. unfold set_actions. destruct (find_rule rid _); [|done]. destruct (validated_actions value) as [actions|] eqn:Ha; [|done].
  apply update_kept; [done|done|]. intros e e'. apply variant_actions. by eapply validated_settled.
Qed.

Lemma users_in_Forall P rules : Forall P (users_in rules) <-> forall e, e ∈ rules -> pe_is_default e = false -> P e.
Proof. unfold users_in. rewrite Forall_forall. setoid_rewrite list_elem_of_filter. naive_solver. Qed.

Lemma update_elem rid f l e : e ∈ update_rule rid f l -> e ∈ l \/ exists e', e' ∈ l /\ e = f e' /\ pe_rule_id e' = rid.
Proof.
  induction l as [|x l IH]; simpl; [by left|]. destruct (has_id rid x) eqn:E; rewrite elem_of_cons.
  - apply has_id_true in E. intros [->|?]; [right; exists x; split; [by left|done]|left; by right].
  - intros [->|Hin]; [left; by left|]. destruct (IH Hin) as [?|(e' & ? & ?)]; [left; by right|right; exists e'; split; [by right|done]].
Qed.

Lemma delete_well_formed kind rid u : all_well_formed u -> all_well_formed (delete_rule kind rid u).2.
Proof.
  intros Hr. unfold delete_rule. destruct (find_rule rid _) as [e|]; [|done]. destruct (pe_is_default e); [done|]. apply with_rules_well_formed; [done|].
  apply users_in_Forall. intros x Hx. specialize (Hr kind). rewrite users_in_Forall in Hr. apply Hr. eapply elem_of_submseteq; [exact Hx|].
  apply sublist_submseteq, erase_sublist.
Qed.

Lemma set_enabled_well_formed kind rid b u : all_well_formed u -> all_well_formed (set_enabled kind rid b u).2.
Proof.
  intros Hr. unfold set_enabled. destruct (find_rule rid _); [|done]. apply with_rules_well_formed; [done|]. specialize (Hr kind).
  rewrite users_in_Forall in *. intros x Hx Hdef. destruct (update_elem _ _ _ _ Hx) as [?|(e & He & -> & _)]; [by apply Hr|].
  eapply well_formed_static; [..|apply Hr; [exact He|exact Hdef]]; try done. exact (wf_actions kind e (Hr e He Hdef)).
Qed.

Lemma set_actions_well_formed kind rid value u : all_well_formed u -> all_well_formed (set_actions kind rid value u).2.
Proof.
  intros Hr. unfold set_actions. destruct (find_rule rid _); [|done]. destruct (validated_actions value) as [actions|] eqn:Ha; [|done].
  apply with_rules_well_formed; [done|]. specialize (Hr kind). rewrite users_in_Forall in *. intros x Hx Hdef.
  destruct (update_elem _ _ _ _ Hx) as [?|(e & He & -> & _)]; [by apply Hr|].
  eapply well_formed_static; [..|apply Hr; [exact He|exact Hdef]]; try done. by eapply validated_settled.
Qed.

(** * Storing loses nothing *)

Lemma changed_to d e : variant d e -> changed_default (entry_object e) d = e.
Proof.
  intros [Hid Hdef Hc Hp Ha]. unfold changed_default. destruct (entry_object_members e) as (-> & _ & _ & -> & _ & _). simpl. rewrite Ha.
  destruct d, e. unfold entry_actions, entry_enabled. simpl in *. by subst.
Qed.

(** Default rules of a stored list are written over the server's. *)
Lemma read_defaults kind cap l ds users n : Forall (fun e => is_server_default_id (pe_rule_id e) = true) l ->
  foldl (read_stored kind cap) (ds, users, n) ((VObject ∘ entry_object) <$> l) =
  (foldl (fun ds e => update_rule (pe_rule_id e) (changed_default (entry_object e)) ds) ds l, users, n).
Proof.
  intros Hl. revert ds. induction Hl as [|e l He Hl IH]; intros ds; [done|]. rewrite fmap_cons. simpl. unfold string_member.
  destruct (entry_object_members e) as (_ & _ & _ & _ & _ & ->). simpl. rewrite He. by rewrite IH.
Qed.

Definition overlay (l : list PushRuleEntry) (d : PushRuleEntry) : PushRuleEntry := default d (find_rule (pe_rule_id d) l).

Lemma write_over l ds : NoDup (ids l) -> NoDup (ids ds) -> (forall d e, d ∈ ds -> e ∈ l -> pe_rule_id e = pe_rule_id d -> variant d e) ->
  foldl (fun ds e => update_rule (pe_rule_id e) (changed_default (entry_object e)) ds) ds l = overlay l <$> ds.
Proof.
  revert ds. induction l as [|e l IH]; intros ds Hl Hd Hv.
  { simpl. symmetry. rewrite <- (list_fmap_id ds) at 2. by apply list_fmap_ext. }
  csimpl in Hl. apply NoDup_cons in Hl as [He Hl]. simpl.
  assert (update_rule (pe_rule_id e) (changed_default (entry_object e)) ds = (fun d => if has_id (pe_rule_id e) d then e else d) <$> ds) as Heq.
  { clear IH. induction ds as [|d ds IHd]; [done|]. csimpl in *. apply NoDup_cons in Hd as [Hnd Hd]. destruct (has_id (pe_rule_id e) d) eqn:Ed.
    - apply has_id_true in Ed. rewrite changed_to by (apply Hv; [by left|by left|done]). f_equal.
      rewrite <- (list_fmap_id ds) at 1. apply list_fmap_ext. intros i x Hx. simpl. rewrite (proj2 (has_id_false _ x)); [done|].
      intros Hid. apply Hnd. rewrite Ed, <- Hid. apply list_elem_of_fmap_2. by eapply list_elem_of_lookup_2.
    - f_equal. apply IHd; [done|]. intros d' e' Hd' He'. apply Hv; [by right|done]. }
  rewrite Heq, IH; [| done | |].
  - rewrite <- list_fmap_compose. apply list_fmap_ext. intros i d _. unfold compose, overlay. simpl.
    destruct (has_id (pe_rule_id e) d) eqn:Ed.
    + apply has_id_true in Ed. unfold find_rule at 2. simpl. rewrite (proj2 (has_id_true (pe_rule_id d) e)) by done. simpl.
      by rewrite (proj2 (find_rule_None (pe_rule_id e) l)).
    + apply has_id_false in Ed. unfold find_rule at 2. simpl. by rewrite (proj2 (has_id_false (pe_rule_id d) e)) by done.
  - rewrite <- list_fmap_compose. erewrite list_fmap_ext; [exact Hd|]. intros i d _. simpl. destruct (has_id (pe_rule_id e) d) eqn:Ed; [|done].
    by apply has_id_true in Ed.
  - intros d e' Hin He' Hid. apply list_elem_of_fmap in Hin as (d0 & -> & Hd0). destruct (has_id (pe_rule_id e) d0) eqn:Ed.
    + exfalso. apply He. rewrite <- Hid. by apply list_elem_of_fmap_2.
    + apply Hv; [done|by right|done].
Qed.

Lemma overlay_all ds ds' l : Forall2 variant ds ds' -> NoDup (ids l) -> (forall e, e ∈ ds' -> e ∈ l) -> overlay l <$> ds = ds'.
Proof.
  intros Hv Hl. induction Hv as [|d e ds ds' Hde Hv IH]; intros Hin; [done|]. csimpl. f_equal; [|apply IH; intros x Hx; apply Hin; by right].
  unfold overlay. rewrite (find_rule_unique _ l e); [done|done|apply Hin; by left|]. apply Hde.
Qed.

Lemma read_users kind cap ds users users' n : user_list kind (users ++ users') -> Forall (readable kind) users' -> (n + length users' <= cap)%nat ->
  foldl (read_stored kind cap) (ds, users, n) ((VObject ∘ entry_object) <$> users') = (ds, users ++ users', (n + length users')%nat).
Proof.
  intros Hu Hr. revert users n Hu. induction Hr as [|e users' He Hr IH]; intros users n Hu Hn; [simpl; by rewrite app_nil_r, Nat.add_0_r|].
  assert (read_stored kind cap (ds, users, n) (VObject (entry_object e)) = (ds, users ++ [e], S n)) as Hstep.
  { unfold read_stored, string_member. cbn [value_is_object]. destruct (entry_object_members e) as (_ & _ & _ & -> & _ & ->). simpl in Hn |- *.
    destruct Hu as [Hm Hd]. apply Forall_app in Hm as [_ Hm]. apply Forall_cons in Hm as [[Hv _] _].
    rewrite (valid_not_default kind) by done. rewrite (proj2 (Nat.leb_gt cap n)) by lia. rewrite Hv. simpl. rewrite existsb_id_false.
    - unfold readable in He. rewrite He. by destruct e.
    - rewrite fmap_app in Hd. apply NoDup_app in Hd as (_ & Hd & _). intros Hin. apply (Hd _ Hin). csimpl. by left. }
  rewrite fmap_cons. cbn [foldl]. unfold compose at 1. rewrite Hstep. simpl in Hn.
  rewrite IH; [|by rewrite <- app_assoc|lia]. rewrite <- app_assoc. simpl. repeat f_equal. lia.
Qed.

Lemma ruleset_array kind u : rule_array (ruleset u) kind = (VObject ∘ entry_object) <$> rules_of kind u.
Proof. by destruct kind. Qed.

Definition all_fit (u : UserPushRules) : Prop :=
  forall kind e, e ∈ rules_of kind u -> pe_is_default e = false -> fits_rule_bytes (entry_enabled true e) = true.

Lemma read_kind_back kind u acc n : kept u -> all_well_formed u -> all_fit u -> max_user_rules acc = max_user_rules u ->
  (n + length (users_in (rules_of kind u)) <= max_user_rules u)%nat ->
  read_kind server_defaults (ruleset u) (acc, n) kind = (with_rules kind (rules_of kind u) acc, (n + length (users_in (rules_of kind u)))%nat).
Proof.
  intros K W F Hmax Hn. destruct (kp_kinds u K kind) as (ds & users & Hk). pose proof (kind_ok_defaults _ _ _ _ Hk) as Hd.
  pose proof (kind_ok_users _ _ _ _ Hk) as Hin. assert (Forall (readable kind) users) as Hr.
  { specialize (W kind). specialize (F kind). rewrite users_in_Forall in W. rewrite <- Hin. apply users_in_Forall. intros e He Hdef. apply readable_spec. auto. }
  rewrite Hin in *. destruct Hk as (Heq & Hvs & Hu). unfold read_kind. rewrite ruleset_array, Heq, !fmap_app, !foldl_app, Hmax.
  assert (forall l, (forall e, e ∈ l -> e ∈ lead ds \/ e ∈ rest ds) -> Forall (fun e => is_server_default_id (pe_rule_id e) = true) l) as Hdot.
  { intros l Hl. apply Forall_forall. intros e He. by apply (default_list_In ds e Hd), Hl. }
  rewrite read_defaults by (apply Hdot; by left). rewrite read_users by done. rewrite read_defaults by (apply Hdot; by right). rewrite <- foldl_app.
  assert (NoDup (ids (lead ds ++ rest ds))) as Hn' by (rewrite lead_rest_perm; apply Hd).
  rewrite write_over, (overlay_all _ ds); [by rewrite merged_layout|done|done|..].
  - intros e He. by rewrite lead_rest_perm.
  - done.
  - apply defaults_ok.
  - intros d e Hdin He Hid. rewrite lead_rest_perm in He. apply list_elem_of_lookup in Hdin as [i Hi]. destruct (Forall2_lookup_l _ _ _ _ _ Hvs Hi) as (e' & Hi' & Hv).
    replace e with e'; [done|]. assert (find_rule (pe_rule_id e) ds = Some e) as He1 by (apply find_rule_unique; [apply Hd|done|done]).
    assert (find_rule (pe_rule_id e) ds = Some e') as He2; [|congruence]. apply find_rule_unique; [apply Hd|by eapply list_elem_of_lookup_2|].
    rewrite Hid. apply Hv.
Qed.

Lemma stored_rules_back u : kept u -> all_well_formed u -> all_fit u -> user_push_rules server_defaults (ruleset u) (max_user_rules u) = u.
Proof.
  intros K W F. pose proof (kp_count u K) as Hc. unfold user_rule_count in Hc. cbn [foldr all_kinds] in Hc.
  repeat change (filter _ (rules_of ?k u)) with (users_in (rules_of k u)) in Hc. unfold user_push_rules. cbn [foldl all_kinds].
  rewrite !read_kind_back; try done; [by destruct u|lia..].
Qed.

(** Reading any stored object gives rules that are laid out like this. *)
Record reading (read : PushRuleKind -> Prop) (cap : nat) (u : UserPushRules) (n : nat) : Prop := {
  rd_read : forall kind, read kind -> exists ds users, kind_ok kind ds users (rules_of kind u) /\ Forall (readable kind) users;
  rd_empty : forall kind, ~ read kind -> rules_of kind u = [];
  rd_count : user_rule_count u = n;
  rd_cap : (n <= cap)%nat;
  rd_max : max_user_rules u = cap
}.

Lemma read_kind_reading stored read cap u n kind : reading read cap u n -> ~ read kind ->
  reading (fun k => read k \/ k = kind) cap (read_kind server_defaults stored (u, n) kind).1 (read_kind server_defaults stored (u, n) kind).2.
Proof.
  intros [R E C Cap M] Hnew. unfold read_kind. rewrite M.
  destruct (foldl _ _ (rule_array stored kind)) as [[ds users] n2] eqn:Hf.
  destruct (read_stored_layout kind cap (default_rules server_defaults kind) _ _ _ _ _ _ _ (variant_refl _ (defaults_ok kind))
    (Build_user_list kind [] (List.Forall_nil _) (NoDup_nil_2)) (List.Forall_nil _) Hf) as (Hv & Hu & Hr & Hlen & _ & Hcap).
  simpl in *. assert (kind_ok kind ds users (merged_rules ds users)) as Hk by (split; [apply merged_layout|done]). split; simpl.
  - intros k [Hk'| ->]; [rewrite rules_of_other by congruence; by apply R|]. rewrite rules_of_same. by exists ds, users.
  - intros k Hno. rewrite rules_of_other by tauto. apply E. tauto.
  - pose proof (count_with_rules kind (merged_rules ds users) u) as Hc. rewrite (E kind Hnew), (kind_ok_users _ _ _ _ Hk) in Hc. unfold users_in in Hc. simpl in Hc. lia.
  - lia.
  - done.
Qed.

Lemma loaded_kept stored cap : let u := user_push_rules server_defaults stored cap in
  kept u /\ all_well_formed u /\ all_fit u /\ max_user_rules u = cap.
Proof.
  simpl. assert (exists n, reading (fun _ => True) cap (user_push_rules server_defaults stored cap) n) as (n & [R _ C Cap M]).
  { unfold user_push_rules, all_kinds. cbn [foldl].
    assert (reading (fun _ => False) cap (no_rules cap) 0) as R0 by (split; [done|by intros []|done|lia|done]).
    pose proof (read_kind_reading stored _ _ _ _ override_kind R0 ltac:(tauto)) as R1. destruct (read_kind _ _ _ override_kind) as [u1 n1].
    pose proof (read_kind_reading stored _ _ _ _ content_kind R1 ltac:(naive_solver)) as R2. cbn [fst snd] in R2. destruct (read_kind _ _ _ content_kind) as [u2 n2].
    pose proof (read_kind_reading stored _ _ _ _ room_kind R2 ltac:(naive_solver)) as R3. cbn [fst snd] in R3. destruct (read_kind _ _ _ room_kind) as [u3 n3].
    pose proof (read_kind_reading stored _ _ _ _ sender_kind R3 ltac:(naive_solver)) as R4. cbn [fst snd] in R4. destruct (read_kind _ _ _ sender_kind) as [u4 n4].
    pose proof (read_kind_reading stored _ _ _ _ underride_kind R4 ltac:(naive_solver)) as R5. cbn [fst snd] in R5. destruct (read_kind _ _ _ underride_kind) as [u5 n5].
    cbn [fst snd] in *. exists n5. destruct R5 as [R _ C Cap M]. split; [|intros k Hno; by destruct (Hno I)|exact C|exact Cap|exact M]. intros k _. apply R. destruct k; tauto. }
  split; [split; [intros kind; destruct (R kind) as (ds & users & Hk & _); [done|]; by exists ds, users|by rewrite C, M]|].
  assert (forall kind e, e ∈ rules_of kind (user_push_rules server_defaults stored cap) -> pe_is_default e = false -> readable kind e) as Hr.
  { intros kind e He Hdef. destruct (R kind) as (ds & users & Hk & Hr); [done|]. rewrite Forall_forall in Hr. apply Hr.
    rewrite <- (kind_ok_users _ _ _ _ Hk). by apply list_elem_of_filter. }
  split; [intros kind; apply users_in_Forall; intros e He Hdef; by apply readable_spec, Hr|]. split; [|done].
  intros kind e He Hdef. by apply readable_spec with kind, Hr.
Qed.

(** * Sequences of edits *)

Inductive Edit : Type :=
  | put_edit (kind : PushRuleKind) (rule_id : string) (body : Value) (placement : PushRulePlacement)
  | delete_edit (kind : PushRuleKind) (rule_id : string)
  | enabled_edit (kind : PushRuleKind) (rule_id : string) (enabled : bool)
  | actions_edit (kind : PushRuleKind) (rule_id : string) (actions : Value).

Definition apply_edit (u : UserPushRules) (edit : Edit) : UserPushRules :=
  match edit with
  | put_edit kind rule_id body placement => (put_rule kind rule_id body placement u).2
  | delete_edit kind rule_id => (delete_rule kind rule_id u).2
  | enabled_edit kind rule_id enabled => (set_enabled kind rule_id enabled u).2
  | actions_edit kind rule_id actions => (set_actions kind rule_id actions u).2
  end.

Definition edited_rules (stored : Object) (cap : nat) (edits : list Edit) : UserPushRules :=
  foldl apply_edit (user_push_rules server_defaults stored cap) edits.

Lemma edits_kept stored cap edits : let u := edited_rules stored cap edits in kept u /\ all_well_formed u /\ max_user_rules u = cap.
Proof.
  simpl. unfold edited_rules. induction edits as [|edit edits IH] using rev_ind; simpl.
  { destruct (loaded_kept stored cap) as (? & ? & _ & ?). by split_and!. }
  rewrite foldl_app. simpl. destruct IH as (K & W & M). destruct edit as [kind rid body placement|kind rid|kind rid b|kind rid actions]; simpl.
  - split; [by apply put_kept|]. split; [by apply put_well_formed|]. destruct (put_outcome kind rid body placement (foldl apply_edit (user_push_rules server_defaults stored cap) edits)) as [Ha| ->]; [|done].
    destruct (put_result kind rid body placement _ K Ha) as (ds & users & e & _ & _ & _ & _ & _ & -> & _). done.
  - split; [by apply delete_kept|]. split; [by apply delete_well_formed|]. unfold delete_rule. destruct (find_rule _ _) as [e|]; [|done]. by destruct (pe_is_default e).
  - split; [by apply set_enabled_kept|]. split; [by apply set_enabled_well_formed|]. unfold set_enabled. by destruct (find_rule _ _).
  - split; [by apply set_actions_kept|]. split; [by apply set_actions_well_formed|]. unfold set_actions. destruct (find_rule _ _); [|done]. by destruct (validated_actions _).
Qed.
End Layout.

(** * Properties *)

Lemma default_ruleset_ok user kind : default_list (default_rules (default_push_ruleset user) kind).
Proof.
  split; destruct kind; try (by repeat constructor); apply (bool_decide_unpack _); vm_compute; exact I.
Qed.

Section Properties.
Context `{Libc}.

Definition rules_for (kind : PushRuleKind) (rules : PushRuleset) : list PushRule :=
  match kind with
  | override_kind => override_rules rules
  | content_kind => content_rules rules
  | room_kind => room_rules rules
  | sender_kind => sender_rules rules
  | underride_kind => underride_rules rules
  end.

(** What the evaluator reads of an entry. *)
Lemma apply_actions_static actions r : pr_rule_id (apply_actions actions r) = pr_rule_id r /\ pr_enabled (apply_actions actions r) = pr_enabled r /\
  pr_is_default (apply_actions actions r) = pr_is_default r.
Proof.
  unfold apply_actions. revert r. induction actions as [|a actions IH]; intros r; [done|]. simpl. destruct (IH (apply_action r a)) as (-> & -> & ->).
  unfold apply_action. destruct a; try done; repeat case_match; done.
Qed.

Lemma parse_entry kind e : pe_rule_id e <> EmptyString -> exists r, parse_rule (entry_object e) kind = Some r /\
  (pr_rule_id r, pr_enabled r, pr_is_default r) = (pe_rule_id e, pe_enabled e, pe_is_default e).
Proof.
  intros Hne. unfold parse_rule, string_member, array_member. destruct (entry_object_members e) as (-> & Hc & -> & -> & Hp & ->). simpl.
  rewrite (proj2 (empty_false _)) by done. eexists. split; [done|]. set (r := {| pr_rule_id := pe_rule_id e |}).
  destruct (apply_actions_static (pe_actions e) r) as (-> & -> & ->). done.
Qed.

Lemma parse_entries kind l : Forall (fun e => pe_rule_id e <> EmptyString) l ->
  (fun r => (pr_rule_id r, pr_enabled r, pr_is_default r)) <$>
    omap (fun entry => value_is_object entry ≫= fun object => parse_rule object kind) ((VObject ∘ entry_object) <$> l) =
  (fun e => (pe_rule_id e, pe_enabled e, pe_is_default e)) <$> l.
Proof.
  induction 1 as [|e l He _ IH]; [done|]. rewrite fmap_cons. cbn [omap list_omap]. unfold compose at 1. cbn [value_is_object option_bind mbind].
  destruct (parse_entry kind e He) as (r & -> & Hr). rewrite !fmap_cons, Hr. f_equal. exact IH.
Qed.

Lemma kept_ids sd kind ds users rules : (forall kind, default_list (default_rules sd kind)) -> kind_ok sd kind ds users rules ->
  Forall (fun e => pe_rule_id e <> EmptyString) rules.
Proof.
  intros Hsd Hk. pose proof (kind_ok_defaults sd Hsd _ _ _ _ Hk) as Hd. destruct Hk as (-> & _ & Hu). apply Forall_forall. intros e He Hnil.
  rewrite !elem_of_app in He. assert (e ∈ users \/ e ∈ lead ds \/ e ∈ rest ds) as [Hin|Hin] by tauto.
  - pose proof (ul_marked _ _ Hu) as Hm. rewrite Forall_forall in Hm. destruct (Hm e Hin) as [Hv _]. unfold user_rule_id_is_valid in Hv. by rewrite Hnil in Hv.
  - destruct (default_list_In ds e Hd Hin) as [Hv _]. by rewrite Hnil in Hv.
Qed.

(** C30. The order of a user's push rules. Whatever was stored and however the user edits: in each kind come the
    server's master rule, where the server has it, then the user's own rules, each with a valid ID of its own, then
    the server's other rules; the server's rules are all there, their conditions and patterns unchanged; and the user
    has no more rules than the cap. The ruleset that is stored and served parses back to rules of the same IDs in the
    same order, each as enabled as the user left it, so that the user's rules are evaluated before the server's. *)
Theorem user_push_rules_laid_out user stored cap edits :
  let u := edited_rules (default_push_ruleset user) stored cap edits in
  (user_rule_count u <= cap)%nat /\
  forall kind, exists master users others server,
    rules_of kind u = master ++ users ++ others /\
    Forall (fun e => pe_rule_id e = master_rule_id) master /\ Forall (fun e => pe_rule_id e <> master_rule_id) others /\
    Forall (fun e => user_rule_id_is_valid kind (pe_rule_id e) = true /\ pe_is_default e = false) users /\ NoDup (ids users) /\
    master ++ others ≡ₚ server /\ Forall2 variant (default_rules (default_push_ruleset user) kind) server /\
    (fun r => (pr_rule_id r, pr_enabled r, pr_is_default r)) <$> rules_for kind (parse_push_ruleset (ruleset u)) =
      (fun e => (pe_rule_id e, pe_enabled e, pe_is_default e)) <$> rules_of kind u.
Proof.
  simpl. pose proof (default_ruleset_ok user) as Hsd. destruct (edits_kept _ Hsd stored cap edits) as ([K C] & _ & M).
  split; [by rewrite M in C|]. intros kind. destruct (K kind) as (ds & users & Hk). pose proof (kind_ok_defaults _ Hsd _ _ _ _ Hk) as Hd.
  exists (lead ds), users, (rest ds), ds. pose proof (kept_ids _ _ _ _ _ Hsd Hk) as Hne. destruct Hk as (Heq & Hv & [Hm Hn]).
  split; [done|]. split; [unfold lead; destruct (find_rule _ ds) eqn:E; simpl; [apply find_rule_Some in E as [_ ?]; by repeat constructor|constructor]|].
  split.
  { unfold rest. destruct (find_rule _ ds) as [m|] eqn:E.
    - pose proof (dl_ids ds Hd) as Hids. rewrite (erase_perm _ _ _ E) in Hids. apply find_rule_Some in E as [_ Hid]. csimpl in Hids.
      apply NoDup_cons in Hids as [Hids _]. apply Forall_forall. intros e He Hx. apply Hids. rewrite Hid. apply list_elem_of_fmap. by exists e.
    - apply find_rule_None in E. apply Forall_forall. intros e He Hx. apply E. apply list_elem_of_fmap. by exists e. }
  split; [done|]. split; [done|]. split; [apply lead_rest_perm|]. split; [done|]. rewrite <- (parse_entries kind) by done.
  by destruct kind.
Qed.

(** * Sizes *)

Lemma with_rules_fit kind rules u : all_fit u -> (forall e, e ∈ rules -> pe_is_default e = false -> fits_rule_bytes (entry_enabled true e) = true) ->
  all_fit (with_rules kind rules u).
Proof.
  intros Hf Hr kind' e. destruct (decide (kind' = kind)) as [->|Hne]; [rewrite rules_of_same; apply Hr|rewrite rules_of_other by done; apply Hf].
Qed.

Lemma put_fit sd kind rid body placement u : (forall kind, default_list (default_rules sd kind)) -> kept sd u -> all_fit u ->
  all_fit (put_rule kind rid body placement u).2.
Proof.
  intros Hsd K Hf. destruct (put_outcome kind rid body placement u) as [Ha| ->]; [|done].
  destruct (put_result sd Hsd kind rid body placement u K Ha) as (ds & users & e & Hk & He & _ & _ & Hk' & -> & _). apply with_rules_fit; [done|].
  destruct Hk as (Heq & _ & _). intros x Hx Hdef. assert (x ∈ rules_of kind u \/ x ∈ placed_users rid e placement users) as [Hin|Hin].
  { rewrite Heq, !elem_of_app in *. tauto. } 1: by apply (Hf kind).
  destruct (placed_users_perm rid e placement users) as (e' & He' & Hp & _). rewrite Hp in Hin. apply elem_of_cons in Hin as [->|Hin].
  - rewrite He'. destruct (user_rule_facts _ _ _ _ He) as (_ & _ & Hread). by apply (readable_spec kind (entry_enabled true e)).
  - apply (Hf kind); [|done]. rewrite Heq, !elem_of_app. right. left. eapply elem_of_submseteq; [exact Hin|]. apply sublist_submseteq, erase_sublist.
Qed.

Lemma edit_fit sd u edit : (forall kind, default_list (default_rules sd kind)) -> kept sd u -> all_fit u ->
  match edit with actions_edit _ rid _ => is_server_default_id rid = true | _ => True end -> all_fit (apply_edit u edit).
Proof.
  intros Hsd K Hf He. destruct edit as [kind rid body placement|kind rid|kind rid b|kind rid actions]; simpl.
  - by eapply put_fit.
  - unfold delete_rule. destruct (find_rule rid _) as [e|]; [|done]. destruct (pe_is_default e); [done|]. apply with_rules_fit; [done|].
    intros x Hx. apply (Hf kind). eapply elem_of_submseteq; [exact Hx|]. apply sublist_submseteq, erase_sublist.
  - unfold set_enabled. destruct (find_rule rid _); [|done]. apply with_rules_fit; [done|]. intros x Hx Hdef.
    destruct (update_elem _ _ _ _ Hx) as [?|(e & Hin & -> & _)]; [by apply (Hf kind)|]. by apply (Hf kind e).
  - unfold set_actions. destruct (find_rule rid _); [|done]. destruct (validated_actions actions); [|done]. apply with_rules_fit; [done|].
    intros x Hx Hdef. destruct (update_elem _ _ _ _ Hx) as [?|(e & Hin & -> & Hid)]; [by apply (Hf kind)|]. exfalso. simpl in Hdef.
    destruct (kp_kinds sd u K kind) as (ds & users & Hk). pose proof (kind_ok_users sd Hsd _ _ _ _ Hk) as Hin'. destruct Hk as (_ & _ & Hu).
    assert (e ∈ users) as Heu by (rewrite <- Hin'; by apply list_elem_of_filter). apply (default_id_elsewhere kind users rid Hu He).
    rewrite <- Hid. by apply list_elem_of_fmap_2.
Qed.

Lemma edits_fit sd stored cap edits : (forall kind, default_list (default_rules sd kind)) ->
  Forall (fun edit => match edit with actions_edit _ rid _ => is_server_default_id rid = true | _ => True end) edits ->
  all_fit (edited_rules sd stored cap edits).
Proof.
  intros Hsd. unfold edited_rules. induction edits as [|edit edits IH] using rev_ind; intros He; [by apply (loaded_kept sd Hsd)|].
  apply Forall_app in He as [He1 He2]. apply Forall_cons in He2 as [He2 _]. rewrite foldl_app. simpl. eapply edit_fit; [done| |by apply IH|done].
  by apply (edits_kept sd Hsd stored cap edits).
Qed.

(** C31. Storing a user's push rules loses nothing. Whatever was stored before and however the user edits: as long as
    every rule of the user fits the size limit of a rule, reading the ruleset that was stored gives the same rules
    again, the user's in their order with their switches, the server's with the user's changes. Every sequence of
    edits in which no new actions are given to a rule of the user keeps the rules within that limit. *)
Theorem user_push_rules_round_trip user stored cap edits :
  let u := edited_rules (default_push_ruleset user) stored cap edits in
  (Forall (fun edit => match edit with actions_edit _ rule_id _ => is_server_default_id rule_id = true | _ => True end) edits -> all_fit u) /\
  (all_fit u -> user_push_rules (default_push_ruleset user) (ruleset u) cap = u).
Proof.
  simpl. pose proof (default_ruleset_ok user) as Hsd. split; [by apply edits_fit|]. intros Hf.
  destruct (edits_kept _ Hsd stored cap edits) as (K & W & M). rewrite <- M at 2. by apply stored_rules_back.
Qed.

(** * Where a rule is put *)

Lemma in_place rid l old f : find_rule rid l = Some old -> exists a b, l = a ++ old :: b /\ update_rule rid f l = a ++ f old :: b /\ erase_rule rid l = a ++ b.
Proof.
  unfold find_rule. induction l as [|x l IH]; simpl; [done|]. destruct (has_id rid x).
  - intros [= ->]. by exists [], l.
  - intros (a & b & -> & -> & ->)%IH. by exists (x :: a), b.
Qed.

Lemma index_split rid l : rid ∈ ids l -> exists a x b, l = a ++ x :: b /\ pe_rule_id x = rid /\ length a = rule_index rid l.
Proof.
  intros Hin. destruct (find_rule rid l) as [e|] eqn:E; [|by apply find_rule_None in E]. pose proof (find_rule_Some _ _ _ E) as [_ Hid].
  destruct (index_lookup _ _ _ E) as (a & b & -> & Ha & _). by exists a, e, b.
Qed.

(** The place among the user's rules that a PUT asks for: directly before the rule [before] names; without [before],
    directly after the one [after] names; and when the one that counts is absent or names the rule itself, where the rule
    stood, or ahead of the others when it is new. *)
Record asked_place (rid : string) (placement : PushRulePlacement) (users ahead behind : list PushRuleEntry) : Prop := {
  ap_before : forall before, pp_before placement = Some before -> before <> rid ->
    exists x behind', behind = x :: behind' /\ pe_rule_id x = before;
  ap_after : forall after, pp_before placement = None -> pp_after placement = Some after -> after <> rid ->
    exists ahead' x, ahead = ahead' ++ [x] /\ pe_rule_id x = after;
  ap_kept : pp_before placement = Some rid \/ pp_before placement = None /\ (pp_after placement = None \/ pp_after placement = Some rid) ->
    match find_rule rid users with Some old => users = ahead ++ old :: behind | None => ahead = [] end
}.

(** The place by the placement that decides. *)
Definition decided_place (rid : string) (placement : PushRulePlacement) (users ahead behind : list PushRuleEntry) : Prop :=
  match relative_id rid placement, pp_before placement with
  | Some relative, Some _ => exists x behind', behind = x :: behind' /\ pe_rule_id x = relative
  | Some relative, None => exists ahead' x, ahead = ahead' ++ [x] /\ pe_rule_id x = relative
  | None, _ => match find_rule rid users with Some old => users = ahead ++ old :: behind | None => ahead = [] end
  end.

Lemma decided_as_asked rid placement users ahead behind :
  decided_place rid placement users ahead behind -> asked_place rid placement users ahead behind.
Proof.
  unfold decided_place, relative_id. intros Hp. split.
  - intros before Hb Hne. rewrite Hb in Hp. by rewrite (proj2 (string_eqb_false _ _) Hne) in Hp.
  - intros after Hb Ha Hne. rewrite Hb, Ha in Hp. by rewrite (proj2 (string_eqb_false _ _) Hne) in Hp.
  - intros [Hb|[Hb [Ha|Ha]]]; rewrite Hb, ?Ha in Hp; by rewrite ?String.eqb_refl in Hp.
Qed.

Lemma placed_users_place rid entry placement users : (forall relative, relative_id rid placement = Some relative -> relative ∈ ids users /\ relative <> rid) ->
  exists e ahead behind, placed_users rid entry placement users = ahead ++ e :: behind /\ ahead ++ behind = erase_rule rid users /\
    e = match find_rule rid users with Some old => entry_enabled (pe_enabled old) entry | None => entry end /\ decided_place rid placement users ahead behind.
Proof.
  intros Hrel. unfold placed_users, decided_place. cbv zeta. set (e := match find_rule rid users with Some old => entry_enabled (pe_enabled old) entry | None => entry end).
  assert (match find_rule rid users with Some _ => erase_rule rid users | None => users end = erase_rule rid users) as ->.
  { destruct (find_rule rid users) eqn:E; [done|]. apply find_rule_None in E. pose proof (erase_skip rid users [] E) as Hs. by rewrite !app_nil_r in Hs. }
  exists e. destruct (relative_id rid placement) as [relative|].
  - destruct (Hrel relative eq_refl) as [Hin Hne]. destruct (index_split relative (erase_rule rid users) (erase_id_other _ _ _ Hne Hin)) as (a & x & b & Heq & Hx & <-).
    rewrite Heq. destruct (pp_before placement).
    + exists a, (x :: b). unfold insert_at. rewrite take_app_length, drop_app_length. split_and!; try done. by exists x, b.
    + exists (a ++ [x]), b. rewrite cons_middle, app_assoc. unfold insert_at. replace (S (length a)) with (length (a ++ [x])) by (rewrite length_app; simpl; lia).
      rewrite take_app_length, drop_app_length. split_and!; try done. by exists a, x.
  - destruct (find_rule rid users) as [old|] eqn:E.
    + destruct (in_place rid users old (fun _ => e) E) as (a & b & Hu & -> & ->). by exists a, b.
    + exists [], users. apply find_rule_None in E. pose proof (erase_skip rid users [] E) as Hs. rewrite !app_nil_r in Hs. by rewrite Hs.
Qed.

(** C32. What a PUT of a push rule does. A refused one changes nothing. An applied one leaves the other kinds and the
    server's rules as they are, and the user's other rules of the kind in their order; the rule put is the one the body
    describes, as enabled as it was or enabled when it is new, and is what is read under its ID from then on. It stands
    directly before the rule [before] names; without [before], directly after the one [after] names; and when the one
    that counts is absent or names the rule itself, where it stood, or ahead of the user's rules when it is new. *)
Theorem put_rule_places user stored cap edits kind rid body placement :
  let u := edited_rules (default_push_ruleset user) stored cap edits in
  let '(outcome, u') := put_rule kind rid body placement u in
  (outcome <> edit_applied -> u' = u) /\
  (outcome = edit_applied -> exists e ahead behind master users others,
    rules_of kind u = master ++ users ++ others /\ rules_of kind u' = master ++ (ahead ++ e :: behind) ++ others /\
    Forall (fun x => pe_is_default x = true) (master ++ others) /\ Forall (fun x => pe_is_default x = false) users /\
    ahead ++ behind = erase_rule rid users /\ (forall kind', kind' <> kind -> rules_of kind' u' = rules_of kind' u) /\
    user_rule_from kind rid body = Some (entry_enabled true e) /\ pe_enabled e = from_option pe_enabled true (find_rule rid users) /\
    rule kind rid u' = Some (entry_object e) /\ asked_place rid placement users ahead behind).
Proof.
  intros u. destruct (put_rule kind rid body placement u) as [outcome u'] eqn:Hput. split.
  { intros Hno. pose proof (refused_put kind rid body placement u) as Hr. rewrite Hput in Hr. by apply Hr. }
  intros ->. pose proof (default_ruleset_ok user) as Hsd. destruct (edits_kept _ Hsd stored cap edits) as (K & _ & _). fold u in K.
  destruct (put_result _ Hsd kind rid body placement u K) as (ds & users & entry & Hk & He & Hv & _ & Hk' & Hu' & _ & Hrel); [by rewrite Hput|].
  rewrite Hput in Hu'. simpl in Hu'. destruct (placed_users_place rid entry placement users Hrel) as (e & ahead & behind & Hpl & Hothers & Hee & Hplace).
  pose proof (kind_ok_defaults _ Hsd _ _ _ _ Hk) as Hd. destruct Hk as (Heq & _ & Hu). destruct Hk' as (_ & _ & Hul). rewrite Hpl in Hu', Hul.
  assert (entry_enabled true e = entry /\ pe_rule_id e = rid /\ pe_enabled e = from_option pe_enabled true (find_rule rid users)) as (He1 & He2 & He3).
  { destruct (user_rule_facts _ _ _ _ He) as (Hid & _ & _). assert (pe_enabled entry = true) as Hen.
    { revert He. unfold user_rule_from. repeat case_match; try done; by intros [= <-]. }
    subst e. destruct (find_rule rid users); simpl; [|split; [|done]]; destruct entry; simpl in *; by subst. }
  exists e, ahead, behind, (lead ds), users, (rest ds). rewrite Hu', rules_of_same. split; [done|]. split; [done|].
  split; [apply Forall_forall; intros x Hx; rewrite elem_of_app in Hx; by apply (default_list_In ds x Hd)|].
  split; [eapply Forall_impl; [exact (ul_marked _ _ Hu)|by intros ? [_ ?]]|]. split; [done|]. split; [intros kind' Hne; by rewrite rules_of_other|].
  split; [by rewrite He, He1|]. split; [done|]. split; [|by apply decided_as_asked]. unfold rule. rewrite rules_of_same, (find_user_layout kind) by done.
  rewrite (find_rule_unique _ _ e); [done|apply Hul| |done]. apply elem_of_app. right. by left.
Qed.
End Properties.

(** * Instances *)

#[local] Existing Instance no_libc.

Definition cat_body : Value := VObject [("actions", VArray [VString "notify"; VString "coalesce"]); ("pattern", VString "cat*")].
Definition dog_body : Value := VObject [("actions", VArray []); ("pattern", VString "dog")].

Definition demo_edits : list Edit := [
  put_edit content_kind "cat" cat_body {| pp_before := None; pp_after := None |};
  put_edit content_kind "dog" dog_body {| pp_before := None; pp_after := Some "cat" |};
  enabled_edit content_kind "dog" false; enabled_edit override_kind ".m.rule.reaction" false;
  actions_edit underride_kind ".m.rule.message" (VArray [])].

Definition demo_rules : UserPushRules := edited_rules (default_push_ruleset "@alice:a") [] 10 demo_edits.

Lemma user_push_rules_round_trip_witness : ids (rules_of content_kind demo_rules) = ["cat"; "dog"] /\
  user_push_rules (default_push_ruleset "@alice:a") (ruleset demo_rules) 10 = demo_rules.
Proof.
  destruct (user_push_rules_round_trip "@alice:a" [] 10 demo_edits) as [Hfit Hback]. split; [vm_compute; reflexivity|].
  apply Hback, Hfit. repeat constructor.
Defined.

Definition before_dog : PushRulePlacement := {| pp_before := Some "dog"; pp_after := None |}.

Lemma put_rule_places_witness : let u' := (put_rule content_kind "cow" cat_body before_dog demo_rules).2 in
  ids (rules_of content_kind u') = ["cat"; "cow"; "dog"] /\
  exists e ahead behind users, rule content_kind "cow" u' = Some (entry_object e) /\ pe_enabled e = from_option pe_enabled true (find_rule "cow" users) /\
    asked_place "cow" before_dog users ahead behind.
Proof.
  split; [vm_compute; reflexivity|]. pose proof (put_rule_places "@alice:a" [] 10 demo_edits content_kind "cow" cat_body before_dog) as Hput.
  fold demo_rules in Hput. cbv zeta in Hput. destruct (put_rule content_kind "cow" cat_body before_dog demo_rules) as [outcome u'] eqn:E.
  destruct Hput as [_ Hput]. destruct Hput as (e & ahead & behind & master & users & others & _ & _ & _ & _ & _ & _ & _ & Hen & Hget & Hplace);
    [vm_compute in E; by injection E as <- _|].
  exists e, ahead, behind, users. split; [exact Hget|]. split; [exact Hen|exact Hplace].
Defined.

(** New actions are not held against the size limit of a rule, which reading the stored rules enforces: a rule given
    long actions is there until the ruleset is read back, and then gone. *)
Definition long_sound : Value :=
  VArray [VObject [("set_tweak", VString "sound"); ("value", VString (String.string_of_list_ascii (replicate 4096 "x"%char)))]].

Lemma oversized_actions_lose_rule : let '(outcome, u) := set_actions content_kind "cat" long_sound demo_rules in
  outcome = edit_applied /\ rule content_kind "cat" u <> None /\
  rule content_kind "cat" (user_push_rules (default_push_ruleset "@alice:a") (ruleset u) 10) = None.
Proof. vm_compute. split; [reflexivity|]. split; [discriminate|reflexivity]. Qed.
