(* ===== verification/StateTables.v ===== *)
(** The mirrors of the state-group tables: database/StateGroupTable.cpp,
    StateGroupEntryTable.cpp, EventStateGroupTable.cpp and
    state_group_table_support.hpp.  Each keeps its rows in the order they were
    added and an index of positions over them. *)
From S2P Require Import Prelude CppStd EventTable EventTableInv EventTableErase.
Open Scope Z_scope.

(** * Rows *)

Record PersistentStateGroup : Type := {
  sg_state_group_id : string;
  sg_room_id : string;
  sg_parent_state_group_id : option string;
  sg_delta_depth : Z
}.

Record PersistentStateGroupStateEntry : Type := {
  ge_state_group_id : string;
  ge_event_type : string;
  ge_state_key : string;
  ge_event_id : string
}.

Record PersistentEventStateGroup : Type := {
  eg_event_id : string;
  eg_state_group_id : string
}.

(** [detail::compact_unmarked]: the rows left and the new positions. *)
Definition compact_unmarked {Row} (rs : list Row) (removed : list bool) : list Row * list (option nat) :=
  (kept_rows rs removed, build_remap 0 removed).

(** * State groups *)

Module StateGroupTable.
Record t : Type := {
  rows : list PersistentStateGroup;
  by_id : gmap string nat
}.

Definition empty : t := {| rows := []; by_id := ∅ |}.

Definition find (state_group_id : string) (tb : t) : option PersistentStateGroup :=
  by_id tb !! state_group_id ≫= fun position => rows tb !! position.

Definition contains (state_group_id : string) (tb : t) : bool :=
  match by_id tb !! state_group_id with Some _ => true | None => false end.

Definition insert (group : PersistentStateGroup) (tb : t) : bool * t :=
  match by_id tb !! sg_state_group_id group with
  | Some _ => (false, tb)
  | None => (true, {| rows := rows tb ++ [group]; by_id := <[sg_state_group_id group := length (rows tb)]> (by_id tb) |})
  end.

Definition insert_all (groups : list PersistentStateGroup) (tb : t) : nat * t :=
  foldl (fun acc group => let '(added, tb) := insert group acc.2 in
    ((acc.1 + if added then 1 else 0)%nat, tb)) (0%nat, tb) groups.

Definition erase_marked (removed : list bool) (tb : t) : nat * t :=
  let '(rs, remap) := compact_unmarked (rows tb) removed in
  ((length (rows tb) - length rs)%nat, {| rows := rs; by_id := omap (remapped remap) (by_id tb) |}).

Definition erase_if (predicate : PersistentStateGroup -> bool) (tb : t) : nat * t :=
  let removed := predicate <$> rows tb in
  if existsb id removed then erase_marked removed tb else (0%nat, tb).

Definition clear (tb : t) : t := empty.
End StateGroupTable.

(** * Entries of state groups *)

Module StateGroupEntryTable.
Record t : Type := {
  rows : list PersistentStateGroupStateEntry;
  by_group : gmap string (list nat)
}.

Definition empty : t := {| rows := []; by_group := ∅ |}.

Definition entries_of (state_group_id : string) (tb : t) : list PersistentStateGroupStateEntry :=
  omap (fun position => rows tb !! position) (default [] (by_group tb !! state_group_id)).

Definition count_of (state_group_id : string) (tb : t) : nat :=
  match by_group tb !! state_group_id with Some positions => length positions | None => 0 end.

Definition insert (entry : PersistentStateGroupStateEntry) (tb : t) : t :=
  let position := length (rows tb) in
  {| rows := rows tb ++ [entry];
     by_group :=
       match by_group tb !! ge_state_group_id entry with
       | Some positions => <[ge_state_group_id entry := positions ++ [position]]> (by_group tb)
       | None => <[ge_state_group_id entry := [position]]> (by_group tb)
       end |}.

Definition insert_all (entries : list PersistentStateGroupStateEntry) (tb : t) : t :=
  foldl (fun tb entry => insert entry tb) tb entries.

Definition erase_marked (removed : list bool) (tb : t) : nat * t :=
  let '(rs, remap) := compact_unmarked (rows tb) removed in
  ((length (rows tb) - length rs)%nat,
   {| rows := rs; by_group := omap (fun positions => non_empty (omap (remapped remap) positions)) (by_group tb) |}).

Definition erase_if (predicate : PersistentStateGroupStateEntry -> bool) (tb : t) : nat * t :=
  let removed := predicate <$> rows tb in
  if existsb id removed then erase_marked removed tb else (0%nat, tb).

Definition clear (tb : t) : t := empty.
End StateGroupEntryTable.

(** * The state group of an event *)

Module EventStateGroupTable.
Record t : Type := {
  rows : list PersistentEventStateGroup;
  by_event : gmap string nat
}.

Definition empty : t := {| rows := []; by_event := ∅ |}.

Definition state_group_of (event_id : string) (tb : t) : option string :=
  by_event tb !! event_id ≫= fun position => eg_state_group_id <$> rows tb !! position.

Definition contains (event_id : string) (tb : t) : bool :=
  match by_event tb !! event_id with Some _ => true | None => false end.

Definition assign (event_id state_group_id : string) (tb : t) : t :=
  match by_event tb !! event_id with
  | Some position =>
      {| rows := alter (fun row => {| eg_event_id := eg_event_id row; eg_state_group_id := state_group_id |}) position (rows tb);
         by_event := by_event tb |}
  | None =>
      {| rows := rows tb ++ [{| eg_event_id := event_id; eg_state_group_id := state_group_id |}];
         by_event := <[event_id := length (rows tb)]> (by_event tb) |}
  end.

Definition insert_all (mappings : list PersistentEventStateGroup) (tb : t) : t :=
  foldl (fun tb mapping => assign (eg_event_id mapping) (eg_state_group_id mapping) tb) tb mappings.

Definition erase_marked (removed : list bool) (tb : t) : nat * t :=
  let '(rs, remap) := compact_unmarked (rows tb) removed in
  ((length (rows tb) - length rs)%nat, {| rows := rs; by_event := omap (remapped remap) (by_event tb) |}).

Definition erase_if (predicate : PersistentEventStateGroup -> bool) (tb : t) : nat * t :=
  let removed := predicate <$> rows tb in
  if existsb id removed then erase_marked removed tb else (0%nat, tb).

Definition clear (tb : t) : t := empty.
End EventStateGroupTable.

(** * Indexes by key *)

Section Keyed.
Context {Row : Type} (key : Row -> string).

(** One row per key: the index has the position of each key's row. *)
Definition unique_index (rs : list Row) (index : gmap string nat) : Prop :=
  forall k p, index !! k = Some p <-> exists r, rs !! p = Some r /\ key r = k.

Lemma unique_snoc rs index r : unique_index rs index -> index !! key r = None ->
  unique_index (rs ++ [r]) (<[key r := length rs]> index).
Proof.
  intros Hok Hn k p. destruct (decide (k = key r)) as [->|Hne].
  - rewrite lookup_insert_eq. split.
    + intros [= <-]. exists r. by rewrite list_lookup_middle.
    + intros (x & [Hx|[Hge [Hz _]%list_lookup_singleton_Some]]%lookup_app_Some & Hk); [|f_equal; lia].
      exfalso. assert (index !! key r = Some p) by (apply Hok; by exists x). congruence.
  - rewrite lookup_insert_ne by done. rewrite (Hok k p). split.
    + intros (x & Hx & Hk). exists x. split; [by apply lookup_app_l_Some|done].
    + intros (x & [Hx|[_ [_ ->]%list_lookup_singleton_Some]]%lookup_app_Some & Hk); [by exists x|congruence].
Qed.

Lemma unique_erase rs index removed : length removed = length rs -> unique_index rs index ->
  unique_index (kept_rows rs removed) (omap (remapped (build_remap 0 removed)) index).
Proof.
  intros Hlen Hok k q. rewrite lookup_omap, bind_Some. setoid_rewrite (Hok k).
  setoid_rewrite (fun q e => kept_rows_iff rs removed q e Hlen). naive_solver.
Qed.

Lemma unique_alter rs index p f : unique_index rs index -> (forall r, key (f r) = key r) -> unique_index (alter f p rs) index.
Proof.
  intros Hok Hf k q. rewrite (Hok k q). destruct (decide (q = p)) as [->|Hne].
  - rewrite list_lookup_alter_eq. split.
    + intros (r & Hr & Hk). exists (f r). rewrite Hr. split; [done|]. by rewrite Hf.
    + intros (r & (x & Hx & ->)%fmap_Some_1 & Hk). exists x. by rewrite <- Hf.
  - by rewrite list_lookup_alter_ne.
Qed.

Lemma unique_lookup rs index k r : unique_index rs index ->
  index !! k ≫= (fun p => rs !! p) = Some r <-> r ∈ rs /\ key r = k.
Proof.
  intros Hok. rewrite bind_Some, list_elem_of_lookup. split.
  - intros (p & (x & Hx & Hk)%Hok & Hr). simplify_eq. eauto.
  - intros [[p Hp] Hk]. exists p. split; [apply Hok; eauto|done].
Qed.

(** Rows by key: the index has the ascending positions of each key's rows. *)
Definition multi_index (rs : list Row) (index : gmap string (list nat)) : Prop :=
  room_index_ok lt (fun k p => exists r, rs !! p = Some r /\ key r = k) index.

Lemma multi_snoc rs index r : multi_index rs index ->
  multi_index (rs ++ [r]) (<[key r := default [] (index !! key r) ++ [length rs]]> index).
Proof.
  intros Hok k. destruct (Hok k) as (Hn & Hs & Hin).
  assert (forall p x, (rs ++ [r]) !! p = Some x <-> rs !! p = Some x \/ (p = length rs /\ x = r)) as Hl.
  { intros p x. rewrite lookup_app_Some, list_lookup_singleton_Some. split.
    - intros [?|[? [? ?]]]; [by left|right; split; [lia|done]].
    - intros [?|[-> ->]]; [by left|right]. split; [done|]. split; [lia|done]. }
  setoid_rewrite Hl. destruct (decide (k = key r)) as [->|Hne].
  - rewrite lookup_insert_eq. simpl. split; [intros [= Hnil]; by apply app_nil in Hnil as [_ ?]|]. split.
    + apply snoc_sorted; [|done]. intros p (x & Hx & _)%Hin. by eapply lookup_lt_Some.
    + intros p. rewrite elem_of_app, list_elem_of_singleton, Hin. naive_solver.
  - rewrite lookup_insert_ne by done. split; [done|]. split; [done|]. intros p. rewrite Hin. naive_solver.
Qed.

Lemma multi_erase rs index removed : length removed = length rs -> multi_index rs index ->
  multi_index (kept_rows rs removed) (omap (fun l => non_empty (omap (remapped (build_remap 0 removed)) l)) index).
Proof.
  intros Hlen Hok. eapply room_index_omap; [exact Hok| |].
  - intros k x y a b _ _ Hxy Ha Hb. by eapply remap_mono.
  - intros k q. setoid_rewrite (fun q e => kept_rows_iff rs removed q e Hlen). naive_solver.
Qed.

Lemma multi_lookup rs index k : multi_index rs index ->
  omap (fun p => rs !! p) (default [] (index !! k)) = filter (fun r => key r = k) rs.
Proof.
  intros Hok. destruct (Hok k) as (_ & Hs & Hin).
  assert (default [] (index !! k) = filter (fun p => key <$> rs !! p = Some k) (seq 0 (length rs))) as ->.
  { apply (sorted_unique lt); [lia|done| |].
    - apply StronglySorted_filter. clear. generalize 0%nat. induction (length rs) as [|n IH]; intros m; simpl; constructor; [done|].
      apply Forall_forall. intros x Hx%elem_of_seq. lia.
    - intros p. rewrite Hin, list_elem_of_filter, fmap_Some, elem_of_seq. split; [|naive_solver].
      intros (r & Hr & <-). split; [naive_solver|]. apply lookup_lt_Some in Hr. lia. }
  clear. cut (forall pre, omap (fun p => (pre ++ rs) !! p)
    (filter (fun p => key <$> (pre ++ rs) !! p = Some k) (seq (length pre) (length rs))) = filter (fun r => key r = k) rs);
    [intros Hc; apply (Hc [])|].
  induction rs as [|r rs IH]; intros pre; [done|]. specialize (IH (pre ++ [r])).
  rewrite <- app_assoc, length_app, Nat.add_1_r in IH. simpl. rewrite !filter_cons, list_lookup_middle by done. simpl.
  destruct (decide (key r = k)) as [Hk|Hk].
  - rewrite decide_True by congruence. csimpl. rewrite list_lookup_middle by done. f_equal. exact IH.
  - rewrite decide_False by congruence. exact IH.
Qed.
End Keyed.

(** * The operations as steps *)

Inductive group_step : StateGroupTable.t -> StateGroupTable.t -> Prop :=
  | group_insert g tb : group_step tb (StateGroupTable.insert g tb).2
  | group_insert_all gs tb : group_step tb (StateGroupTable.insert_all gs tb).2
  | group_erase_if predicate tb : group_step tb (StateGroupTable.erase_if predicate tb).2
  | group_clear tb : group_step tb (StateGroupTable.clear tb).

Inductive entry_step : StateGroupEntryTable.t -> StateGroupEntryTable.t -> Prop :=
  | entry_insert e tb : entry_step tb (StateGroupEntryTable.insert e tb)
  | entry_insert_all es tb : entry_step tb (StateGroupEntryTable.insert_all es tb)
  | entry_erase_if predicate tb : entry_step tb (StateGroupEntryTable.erase_if predicate tb).2
  | entry_clear tb : entry_step tb (StateGroupEntryTable.clear tb).

Inductive mapping_step : EventStateGroupTable.t -> EventStateGroupTable.t -> Prop :=
  | mapping_assign id g tb : mapping_step tb (EventStateGroupTable.assign id g tb)
  | mapping_insert_all ms tb : mapping_step tb (EventStateGroupTable.insert_all ms tb)
  | mapping_erase_if predicate tb : mapping_step tb (EventStateGroupTable.erase_if predicate tb).2
  | mapping_clear tb : mapping_step tb (EventStateGroupTable.clear tb).

Definition groups_ok (tb : StateGroupTable.t) : Prop :=
  unique_index sg_state_group_id (StateGroupTable.rows tb) (StateGroupTable.by_id tb).
Definition entries_ok (tb : StateGroupEntryTable.t) : Prop :=
  multi_index ge_state_group_id (StateGroupEntryTable.rows tb) (StateGroupEntryTable.by_group tb).
Definition mappings_ok (tb : EventStateGroupTable.t) : Prop :=
  unique_index eg_event_id (EventStateGroupTable.rows tb) (EventStateGroupTable.by_event tb).

Lemma group_insert_ok g tb : groups_ok tb -> groups_ok (StateGroupTable.insert g tb).2.
Proof.
  intros Hok. unfold StateGroupTable.insert. destruct (_ !! _) eqn:E; [done|]. by apply unique_snoc.
Qed.

Lemma entry_insert_ok e tb : entries_ok tb -> entries_ok (StateGroupEntryTable.insert e tb).
Proof.
  intros Hok. unfold entries_ok, StateGroupEntryTable.insert. simpl. pose proof (multi_snoc _ _ _ e Hok) as Hs.
  by destruct (StateGroupEntryTable.by_group tb !! ge_state_group_id e).
Qed.

Lemma assign_ok id g tb : mappings_ok tb -> mappings_ok (EventStateGroupTable.assign id g tb).
Proof.
  intros Hok. unfold mappings_ok, EventStateGroupTable.assign. destruct (_ !! _) as [p|] eqn:E; simpl.
  - by apply unique_alter.
  - by apply (unique_snoc eg_event_id _ _ {| eg_event_id := id; eg_state_group_id := g |}).
Qed.

Lemma group_step_ok tb tb' : group_step tb tb' -> groups_ok tb -> groups_ok tb'.
Proof.
  intros Hstep Hok. destruct Hstep as [g tb|gs tb|predicate tb|tb].
  - by apply group_insert_ok.
  - unfold StateGroupTable.insert_all. set (add := fun _ _ => _).
    cut (forall n, groups_ok (foldl add (n, tb) gs).2); [intros Hc; apply Hc|].
    revert tb Hok. induction gs as [|g gs IH]; intros tb Hok n; [done|]. simpl. pose proof (group_insert_ok g tb Hok) as Hg.
    unfold add at 2. simpl. destruct (StateGroupTable.insert g tb) as [b tb']. by apply IH.
  - unfold StateGroupTable.erase_if. destruct (existsb _ _); [|done]. apply unique_erase; [apply length_fmap|done].
  - intros k p. simpl. rewrite lookup_empty. split; [done|]. by intros (r & Hr & _).
Qed.

Lemma entry_step_ok tb tb' : entry_step tb tb' -> entries_ok tb -> entries_ok tb'.
Proof.
  intros Hstep Hok. destruct Hstep as [e tb|es tb|predicate tb|tb].
  - by apply entry_insert_ok.
  - unfold StateGroupEntryTable.insert_all. revert tb Hok. induction es as [|e es IH]; intros tb Hok; [done|].
    simpl. by apply IH, entry_insert_ok.
  - unfold StateGroupEntryTable.erase_if. destruct (existsb _ _); [|done]. apply multi_erase; [apply length_fmap|done].
  - intros k. simpl. rewrite lookup_empty. split; [done|]. split; [constructor|]. intros p. split; [set_solver|]. by intros (r & Hr & _).
Qed.

Lemma mapping_step_ok tb tb' : mapping_step tb tb' -> mappings_ok tb -> mappings_ok tb'.
Proof.
  intros Hstep Hok. destruct Hstep as [id g tb|ms tb|predicate tb|tb].
  - by apply assign_ok.
  - unfold EventStateGroupTable.insert_all. revert tb Hok. induction ms as [|m ms IH]; intros tb Hok; [done|].
    simpl. by apply IH, assign_ok.
  - unfold EventStateGroupTable.erase_if. destruct (existsb _ _); [|done]. apply unique_erase; [apply length_fmap|done].
  - intros k p. simpl. rewrite lookup_empty. split; [done|]. by intros (r & Hr & _).
Qed.

Lemma rtc_invariant {A} (R : A -> A -> Prop) (P : A -> Prop) x y :
  (forall a b, R a b -> P a -> P b) -> P x -> rtc R x y -> P y.
Proof. intros Hstep Hx Hr. induction Hr; eauto. Qed.

Lemma groups_reachable tb : rtc group_step StateGroupTable.empty tb -> groups_ok tb.
Proof. apply (rtc_invariant _ groups_ok); [apply group_step_ok|]. intros k p. simpl. rewrite lookup_empty. split; [done|]. by intros (r & Hr & _). Qed.

Lemma entries_reachable tb : rtc entry_step StateGroupEntryTable.empty tb -> entries_ok tb.
Proof.
  apply (rtc_invariant _ entries_ok); [apply entry_step_ok|]. intros k. simpl. rewrite lookup_empty.
  split; [done|]. split; [constructor|]. intros p. split; [set_solver|]. by intros (r & Hr & _).
Qed.

Lemma mappings_reachable tb : rtc mapping_step EventStateGroupTable.empty tb -> mappings_ok tb.
Proof. apply (rtc_invariant _ mappings_ok); [apply mapping_step_ok|]. intros k p. simpl. rewrite lookup_empty. split; [done|]. by intros (r & Hr & _). Qed.

(** The lookups of tables with their indexes in step. *)
Lemma find_group tb id g : groups_ok tb ->
  StateGroupTable.find id tb = Some g <-> g ∈ StateGroupTable.rows tb /\ sg_state_group_id g = id.
Proof. apply unique_lookup. Qed.

Lemma entries_of_group tb id : entries_ok tb ->
  StateGroupEntryTable.entries_of id tb = filter (fun e => ge_state_group_id e = id) (StateGroupEntryTable.rows tb).
Proof. apply multi_lookup. Qed.

Lemma state_group_of_event tb id g : mappings_ok tb ->
  EventStateGroupTable.state_group_of id tb = Some g <->
  {| eg_event_id := id; eg_state_group_id := g |} ∈ EventStateGroupTable.rows tb.
Proof.
  intros Hok. unfold EventStateGroupTable.state_group_of. rewrite bind_Some, list_elem_of_lookup. split.
  - intros (p & (r & Hr & Hk)%Hok & Hg). rewrite Hr in Hg. simplify_eq/=. exists p. by destruct r.
  - intros [p Hp]. exists p. split; [apply Hok; eauto|]. by rewrite Hp.
Qed.

Lemma state_group_of_assigned tb id g other : mappings_ok tb ->
  EventStateGroupTable.state_group_of other (EventStateGroupTable.assign id g tb) =
  if decide (other = id) then Some g else EventStateGroupTable.state_group_of other tb.
Proof.
  intros Hm. unfold EventStateGroupTable.state_group_of, EventStateGroupTable.assign.
  destruct (EventStateGroupTable.by_event tb !! id) as [p|] eqn:E; simpl.
  - destruct (decide (other = id)) as [->|Hne].
    + rewrite E. simpl. apply Hm in E as (r & Hr & _). by rewrite list_lookup_alter_eq, Hr.
    + destruct (EventStateGroupTable.by_event tb !! other) as [q|] eqn:Eq; [|done]. simpl.
      rewrite list_lookup_alter_ne; [done|]. intros ->. apply Hm in E as (r & Hr & Hk), Eq as (r' & Hr' & Hk'). simplify_eq.
  - destruct (decide (other = id)) as [->|Hne].
    + rewrite lookup_insert_eq. simpl. by rewrite list_lookup_middle.
    + rewrite lookup_insert_ne by done. destruct (EventStateGroupTable.by_event tb !! other) as [q|] eqn:Eq; [|done].
      simpl. apply Hm in Eq as (r & Hr & _). rewrite lookup_app_l; [done|]. by eapply lookup_lt_Some.
Qed.

(** Every state-group table the operations build answers from its index what a
    scan of its rows answers: a group's row by its ID, the entries of a group in
    the order they were added, and the state group of an event, one at most each.
    Recording a group for an event is what later lookups of that event find, and
    changes no other event's. *)
Theorem state_tables_exact groups entries mappings :
  rtc group_step StateGroupTable.empty groups -> rtc entry_step StateGroupEntryTable.empty entries ->
  rtc mapping_step EventStateGroupTable.empty mappings ->
  (forall id g, StateGroupTable.find id groups = Some g <->
     g ∈ StateGroupTable.rows groups /\ sg_state_group_id g = id)
  /\ (forall id, StateGroupEntryTable.entries_of id entries =
        filter (fun e => ge_state_group_id e = id) (StateGroupEntryTable.rows entries)
      /\ StateGroupEntryTable.count_of id entries = length (StateGroupEntryTable.entries_of id entries))
  /\ (forall id g, EventStateGroupTable.state_group_of id mappings = Some g <->
        {| eg_event_id := id; eg_state_group_id := g |} ∈ EventStateGroupTable.rows mappings)
  /\ (forall id g other, EventStateGroupTable.state_group_of other (EventStateGroupTable.assign id g mappings) =
        if decide (other = id) then Some g else EventStateGroupTable.state_group_of other mappings).
Proof.
  intros Hg%groups_reachable He%entries_reachable Hm%mappings_reachable. split; [intros; by apply find_group|]. split; [|split].
  - intros id. split; [by apply entries_of_group|]. unfold StateGroupEntryTable.count_of, StateGroupEntryTable.entries_of.
    destruct (He id) as (_ & _ & Hin). destruct (StateGroupEntryTable.by_group entries !! id) as [l|]; [|done]. simpl in *.
    assert (forall p, p ∈ l -> is_Some (StateGroupEntryTable.rows entries !! p)) as Hl by (intros p (r & Hr & _)%Hin; eauto).
    clear Hin. induction l as [|p l IH]; [done|]. csimpl. destruct (Hl p ltac:(by left)) as [r ->]. simpl. f_equal. apply IH.
    intros q Hq. apply Hl. by right.
  - intros id g. by apply state_group_of_event.
  - intros id g other. by apply state_group_of_assigned.
Qed.

Lemma state_tables_exact_witness :
  EventStateGroupTable.state_group_of "$1" (EventStateGroupTable.assign "$1" "g2"
    (EventStateGroupTable.assign "$1" "g1" EventStateGroupTable.empty)) = Some "g2".
Proof.
  refine (proj2 (proj2 (proj2 (state_tables_exact StateGroupTable.empty StateGroupEntryTable.empty
    (EventStateGroupTable.assign "$1" "g1" EventStateGroupTable.empty) _ _ _))) "$1" "g2" "$1");
    [apply rtc_refl|apply rtc_refl|apply rtc_once; constructor].
Defined.
