(* ===== verification/Store.v ===== *)
(** The in-memory mirror of the database: the rows of database/PersistentStore.hpp
    that events, room state and memberships live in, their indexes, and the writers
    and lookups of PersistentStore.cpp over them.  The SQL statements a writer
    prepares are in StoreWrites.v. *)
From S2P Require Import Prelude CppStd JsonValue JsonParser EventShape EventId EventTable EventTableErase StateTables.
Open Scope Z_scope.

(** * Rows *)

Record PersistentStateEvent : Type := {
  st_room_id : string;
  st_event_type : string;
  st_state_key : string;
  st_event_id : string
}.

Record PersistentStateTransition : Type := {
  tr_room_id : string;
  tr_event_type : string;
  tr_state_key : string;
  tr_event_id : string;
  tr_previous_event_id : string
}.

Record PersistentMembership : Type := {
  mb_room_id : string;
  mb_user_id : string;
  mb_membership : string;
  mb_stream_ordering : Z
}.

Record PersistentInvite : Type := {
  iv_room_id : string;
  iv_user_id : string;
  iv_sender_user_id : string;
  iv_event_id : string;
  iv_signed_event_json : string;
  iv_invite_state_events_json : list string;
  iv_stream_ordering : Z;
  iv_resident_server : string
}.

Record MembershipProjection : Type := {
  mp_user_id : string;
  mp_membership : string;
  mp_stream_ordering : Z;
  mp_invite : option PersistentInvite
}.

Record RedactionState : Type := {
  by_target : gmap string (list string);
  withheld : gset string;
  applied_by_target : gmap string string
}.

(** * Current state *)

(** [state] with [state_position_index], [state_room_index] and
    [state_indexed_rows]. *)
Record CurrentState : Type := {
  state : list PersistentStateEvent;
  state_position_index : gmap string nat;
  state_room_index : gmap string (list nat);
  state_indexed_rows : nat
}.

Definition nul_text : string := String (chr 0) EmptyString.

Definition state_position_key (room_id event_type state_key : string) : string :=
  room_id +:+ nul_text +:+ event_type +:+ nul_text +:+ state_key.

Definition state_row_is (row : PersistentStateEvent) (room_id event_type state_key : string) : bool :=
  (st_room_id row =s room_id) && (st_event_type row =s event_type) && (st_state_key row =s state_key).

Definition row_position_key (row : PersistentStateEvent) : string :=
  state_position_key (st_room_id row) (st_event_type row) (st_state_key row).

(** [unordered_map::emplace]: the first position of a key stays. *)
Definition emplace {A} (k : string) (v : A) (m : gmap string A) : gmap string A :=
  match m !! k with Some _ => m | None => <[k := v]> m end.

(** [m[k].push_back(v)]. *)
Definition append_at {A} (k : string) (v : A) (m : gmap string (list A)) : gmap string (list A) :=
  <[k := default [] (m !! k) ++ [v]]> m.

Definition index_state_row (cs : CurrentState) (position : nat) : CurrentState :=
  match state cs !! position with
  | None => cs
  | Some row =>
      {| state := state cs;
         state_position_index := emplace (row_position_key row) position (state_position_index cs);
         state_room_index := append_at (st_room_id row) position (state_room_index cs);
         state_indexed_rows := state_indexed_rows cs |}
  end.

Definition set_indexed_rows (cs : CurrentState) (n : nat) : CurrentState :=
  {| state := state cs; state_position_index := state_position_index cs; state_room_index := state_room_index cs;
     state_indexed_rows := n |}.

Definition note_state_row_appended (cs : CurrentState) : CurrentState :=
  if (length (state cs) =? 0)%nat || negb (state_indexed_rows cs + 1 =? length (state cs))%nat then cs
  else set_indexed_rows (index_state_row cs (length (state cs) - 1)) (length (state cs)).

Definition rebuild_state_index (cs : CurrentState) : CurrentState :=
  let cleared := {| state := state cs; state_position_index := ∅; state_room_index := ∅;
                    state_indexed_rows := state_indexed_rows cs |} in
  set_indexed_rows (foldl index_state_row cleared (seq 0 (length (state cs)))) (length (state cs)).

Definition push_state_row (row : PersistentStateEvent) (cs : CurrentState) : CurrentState :=
  {| state := state cs ++ [row]; state_position_index := state_position_index cs;
     state_room_index := state_room_index cs; state_indexed_rows := state_indexed_rows cs |}.

(** The scan that finds the first row of a key. *)
Definition scan_state (rows : list PersistentStateEvent) (room_id event_type state_key : string) : option string :=
  st_event_id <$> List.find (fun row => state_row_is row room_id event_type state_key) rows.

Definition find_current_state_event_id (cs : CurrentState) (room_id event_type state_key : string) : option string :=
  if (state_indexed_rows cs =? length (state cs))%nat then
    match state_position_index cs !! state_position_key room_id event_type state_key with
    | None => None
    | Some position =>
        match state cs !! position with
        | Some row => if state_row_is row room_id event_type state_key then Some (st_event_id row)
                      else scan_state (state cs) room_id event_type state_key
        | None => scan_state (state cs) room_id event_type state_key
        end
    end
  else scan_state (state cs) room_id event_type state_key.

(** The rows [for_each_room_state_row] visits. *)
Definition room_state_rows (cs : CurrentState) (room_id : string) : list PersistentStateEvent :=
  let scanned := filter (fun row => st_room_id row = room_id) (state cs) in
  if (state_indexed_rows cs =? length (state cs))%nat then
    match state_room_index cs !! room_id with
    | None => []
    | Some positions =>
        if forallb (fun position => match state cs !! position with
                                    | Some row => st_room_id row =s room_id
                                    | None => false
                                    end) positions
        then omap (fun position => state cs !! position) positions
        else scanned
    end
  else scanned.

(** Update the row of a key in place, or append one. *)
Fixpoint set_event_id (new : PersistentStateEvent) (rows : list PersistentStateEvent) : option (list PersistentStateEvent) :=
  match rows with
  | [] => None
  | row :: rest =>
      if state_row_is row (st_room_id new) (st_event_type new) (st_state_key new)
      then Some ({| st_room_id := st_room_id row; st_event_type := st_event_type row; st_state_key := st_state_key row;
                    st_event_id := st_event_id new |} :: rest)
      else cons row <$> set_event_id new rest
  end.

Definition put_state_row (new : PersistentStateEvent) (cs : CurrentState) : CurrentState :=
  match set_event_id new (state cs) with
  | Some rows => {| state := rows; state_position_index := state_position_index cs;
                    state_room_index := state_room_index cs; state_indexed_rows := state_indexed_rows cs |}
  | None => note_state_row_appended (push_state_row new cs)
  end.

(** * State transitions *)

(** [state_transitions] with [state_transition_index]. *)
Record Transitions : Type := {
  state_transitions : list PersistentStateTransition;
  state_transition_index : gmap string nat
}.

Definition state_transition_index_key (room_id event_type state_key event_id : string) : string :=
  room_id +:+ nul_text +:+ event_type +:+ nul_text +:+ state_key +:+ nul_text +:+ event_id.

Definition transition_key (tr : PersistentStateTransition) : string :=
  state_transition_index_key (tr_room_id tr) (tr_event_type tr) (tr_state_key tr) (tr_event_id tr).

Definition rebuild_state_transition_index (ts : Transitions) : Transitions :=
  {| state_transitions := state_transitions ts;
     state_transition_index := foldl (fun index position =>
       match state_transitions ts !! position with
       | Some tr => emplace (transition_key tr) position index
       | None => index
       end) ∅ (seq 0 (length (state_transitions ts))) |}.

Definition find_state_transition (ts : Transitions) (room_id event_type state_key event_id : string)
    : option PersistentStateTransition :=
  state_transition_index ts !! state_transition_index_key room_id event_type state_key event_id
    ≫= fun position => state_transitions ts !! position.

Definition push_transition (tr : PersistentStateTransition) (ts : Transitions) : Transitions :=
  {| state_transitions := state_transitions ts ++ [tr];
     state_transition_index := emplace (transition_key tr) (length (state_transitions ts)) (state_transition_index ts) |}.

Definition with_previous (previous_event_id : string) (tr : PersistentStateTransition) : PersistentStateTransition :=
  {| tr_room_id := tr_room_id tr; tr_event_type := tr_event_type tr; tr_state_key := tr_state_key tr;
     tr_event_id := tr_event_id tr; tr_previous_event_id := previous_event_id |}.

Definition transition_of (st : PersistentStateEvent) (previous_event_id : string) : PersistentStateTransition :=
  {| tr_room_id := st_room_id st; tr_event_type := st_event_type st; tr_state_key := st_state_key st;
     tr_event_id := st_event_id st; tr_previous_event_id := previous_event_id |}.

(** The upsert of [apply_current_state]. *)
Definition upsert_transition (st : PersistentStateEvent) (previous_event_id : string) (ts : Transitions) : Transitions :=
  let push := push_transition (transition_of st previous_event_id) ts in
  match state_transition_index ts !!
        state_transition_index_key (st_room_id st) (st_event_type st) (st_state_key st) (st_event_id st) with
  | Some position =>
      if (position <? length (state_transitions ts))%nat
      then {| state_transitions := alter (with_previous previous_event_id) position (state_transitions ts);
              state_transition_index := state_transition_index ts |}
      else push
  | None => push
  end.

(** * Memberships *)

(** [memberships] with [membership_room_index] and [membership_indexed_rows]. *)
Record Memberships : Type := {
  memberships : list PersistentMembership;
  membership_room_index : gmap string (list nat);
  membership_indexed_rows : nat
}.

Definition index_membership_row (ms : Memberships) (position : nat) : Memberships :=
  match memberships ms !! position with
  | None => ms
  | Some row => {| memberships := memberships ms;
                   membership_room_index := append_at (mb_room_id row) position (membership_room_index ms);
                   membership_indexed_rows := membership_indexed_rows ms |}
  end.

Definition set_membership_rows (ms : Memberships) (n : nat) : Memberships :=
  {| memberships := memberships ms; membership_room_index := membership_room_index ms; membership_indexed_rows := n |}.

Definition note_membership_row_appended (ms : Memberships) : Memberships :=
  if (length (memberships ms) =? 0)%nat || negb (membership_indexed_rows ms + 1 =? length (memberships ms))%nat then ms
  else set_membership_rows (index_membership_row ms (length (memberships ms) - 1)) (length (memberships ms)).

Definition rebuild_membership_index (ms : Memberships) : Memberships :=
  let cleared := {| memberships := memberships ms; membership_room_index := ∅;
                    membership_indexed_rows := membership_indexed_rows ms |} in
  set_membership_rows (foldl index_membership_row cleared (seq 0 (length (memberships ms)))) (length (memberships ms)).

(** The rows [for_each_room_membership_row] visits. *)
Definition room_membership_rows (ms : Memberships) (room_id : string) : list PersistentMembership :=
  let scanned := filter (fun row => mb_room_id row = room_id) (memberships ms) in
  if (membership_indexed_rows ms =? length (memberships ms))%nat then
    match membership_room_index ms !! room_id with
    | None => []
    | Some positions =>
        if forallb (fun position => match memberships ms !! position with
                                    | Some row => mb_room_id row =s room_id
                                    | None => false
                                    end) positions
        then omap (fun position => memberships ms !! position) positions
        else scanned
    end
  else scanned.

Definition membership_ends_invite (membership : string) : bool :=
  (membership =s "join") || (membership =s "leave") || (membership =s "ban").

Definition membership_records_invite (membership : string) : bool := (membership =s "invite") || (membership =s "knock").

Definition membership_row_is (room_id user_id : string) (row : PersistentMembership) : bool :=
  (mb_room_id row =s room_id) && (mb_user_id row =s user_id).

Definition invite_is (room_id user_id : string) (row : PersistentInvite) : bool :=
  (iv_room_id row =s room_id) && (iv_user_id row =s user_id).

(** Change the first row the condition holds of: [None] when there is none. *)
Fixpoint change_first {A} (here : A -> bool) (f : A -> list A) (rows : list A) : option (list A) :=
  match rows with
  | [] => None
  | row :: rest => if here row then Some (f row ++ rest) else cons row <$> change_first here f rest
  end.

Definition project_membership_row (room_id : string) (p : MembershipProjection) (ms : Memberships) : Memberships :=
  match change_first (membership_row_is room_id (mp_user_id p))
          (fun row => [{| mb_room_id := mb_room_id row; mb_user_id := mb_user_id row; mb_membership := mp_membership p;
                          mb_stream_ordering := mp_stream_ordering p |}]) (memberships ms) with
  | Some rows => {| memberships := rows; membership_room_index := membership_room_index ms;
                    membership_indexed_rows := membership_indexed_rows ms |}
  | None => note_membership_row_appended
      {| memberships := memberships ms ++ [{| mb_room_id := room_id; mb_user_id := mp_user_id p;
                                              mb_membership := mp_membership p; mb_stream_ordering := mp_stream_ordering p |}];
         membership_room_index := membership_room_index ms; membership_indexed_rows := membership_indexed_rows ms |}
  end.

Definition project_invite (room_id : string) (p : MembershipProjection) (invites : list PersistentInvite)
    : list PersistentInvite :=
  let here := invite_is room_id (mp_user_id p) in
  if membership_records_invite (mp_membership p) && match mp_invite p with Some _ => true | None => false end then
    match mp_invite p with
    | None => invites
    | Some iv =>
        let written := {| iv_room_id := room_id; iv_user_id := mp_user_id p; iv_sender_user_id := iv_sender_user_id iv;
                          iv_event_id := iv_event_id iv; iv_signed_event_json := iv_signed_event_json iv;
                          iv_invite_state_events_json := iv_invite_state_events_json iv;
                          iv_stream_ordering := iv_stream_ordering iv; iv_resident_server := iv_resident_server iv |} in
        match change_first here (fun _ => [written]) invites with Some rows => rows | None => invites ++ [written] end
    end
  else if membership_ends_invite (mp_membership p)
  then match change_first here (fun _ => []) invites with Some rows => rows | None => invites end
  else invites.

(** * Redactions *)

Record RedactionShape : Type := {
  is_redaction : bool;
  targets : list string
}.

Section Redactions.
Context `{Yyjson}.

(** The targets a [content] member names, at most one; an object with several
    [content] members adds those of each. *)
Definition content_target (value : Value) (found : list string) : list string :=
  match value_is_object value ≫= fun content => string_member content "redacts" with
  | Some target => if empty target || bool_decide (target ∈ found) then found else found ++ [target]
  | None => found
  end.

Definition redaction_shape_of (json : string) : RedactionShape :=
  let none := {| is_redaction := false; targets := [] |} in
  if negb (contains_text "m.room.redaction" json) then none
  else
    match parse_lossless json with
    | POk value =>
        match value_is_object value with
        | None => none
        | Some object =>
            match string_member object "type" with
            | Some "m.room.redaction" =>
                let top := match string_member object "redacts" with
                           | Some target => if empty target then [] else [target]
                           | None => []
                           end in
                {| is_redaction := true;
                   targets := foldl (fun found member => if member.1 =s "content" then content_target member.2 found else found)
                     top object |}
            | _ => none
            end
        end
    | _ => none
    end.

Definition note_event_for_redactions (event : PersistentEvent) (rd : RedactionState) : RedactionState :=
  let shape := redaction_shape_of (ev_json event) in
  if negb (is_redaction shape) then rd
  else
    {| by_target := foldl (fun m target =>
         let ids := default [] (m !! target) in
         <[target := if bool_decide (ev_event_id event ∈ ids) then ids else ids ++ [ev_event_id event]]> m)
         (by_target rd) (targets shape);
       withheld := withheld rd ∪ {[ev_event_id event]};
       applied_by_target := applied_by_target rd |}.

Definition rebuild_redaction_state (rows : list PersistentEvent) : RedactionState :=
  foldl (fun rd event => note_event_for_redactions event rd)
    {| by_target := ∅; withheld := ∅; applied_by_target := ∅ |} rows.
End Redactions.

Definition redactions_naming (rd : RedactionState) (target_event_id : string) : list string :=
  default [] (by_target rd !! target_event_id).

Definition redaction_is_withheld (rd : RedactionState) (event_id : string) : bool := bool_decide (event_id ∈ withheld rd).

Definition applied_redaction_of (rd : RedactionState) (target_event_id : string) : option string :=
  applied_by_target rd !! target_event_id.

Definition mark_redaction_applied (redaction_event_id target_event_id : string) (rd : RedactionState) : RedactionState :=
  {| by_target := by_target rd; withheld := withheld rd ∖ {[redaction_event_id]};
     applied_by_target := emplace target_event_id redaction_event_id (applied_by_target rd) |}.

(** * The store *)

Record EventGraph : Type := {
  event_edges : list (string * string);
  event_auth : list (string * string);
  event_signatures : list (string * EventSignature)
}.

Record PersistentForwardExtremity : Type := {
  fe_room_id : string;
  fe_event_id : string
}.

Record PersistentDeferredPdu : Type := {
  dp_event_id : string;
  dp_room_id : string;
  dp_origin : string;
  dp_pdu_json : string;
  dp_received_at_ms : Z;
  dp_attempts : Z
}.

Record PersistentStore : Type := {
  events : EventTable;
  redactions : RedactionState;
  current : CurrentState;
  transitions : Transitions;
  graph : EventGraph;
  members : Memberships;
  invites : list PersistentInvite;
  state_groups : StateGroupTable.t;
  state_group_state : StateGroupEntryTable.t;
  event_state_groups : EventStateGroupTable.t;
  forward_extremities : list PersistentForwardExtremity;
  next_sync_stream_id : Z
}.

Definition with_events (s : PersistentStore) (t : EventTable) : PersistentStore :=
  {| events := t; redactions := redactions s; current := current s; transitions := transitions s; graph := graph s;
     members := members s; invites := invites s; state_groups := state_groups s;
     state_group_state := state_group_state s; event_state_groups := event_state_groups s;
     forward_extremities := forward_extremities s; next_sync_stream_id := next_sync_stream_id s |}.

Definition with_redactions (s : PersistentStore) (rd : RedactionState) : PersistentStore :=
  {| events := events s; redactions := rd; current := current s; transitions := transitions s; graph := graph s;
     members := members s; invites := invites s; state_groups := state_groups s;
     state_group_state := state_group_state s; event_state_groups := event_state_groups s;
     forward_extremities := forward_extremities s; next_sync_stream_id := next_sync_stream_id s |}.

Definition append_event_graph_rows (event : PersistentEvent) (g : EventGraph) : EventGraph :=
  {| event_edges := event_edges g ++ ((fun id => (ev_event_id event, id)) <$> ev_prev_event_ids event);
     event_auth := event_auth g ++ ((fun id => (ev_event_id event, id)) <$> ev_auth_event_ids event);
     event_signatures := event_signatures g ++ ((fun s => (ev_event_id event, s)) <$> ev_signatures event) |}.

Definition apply_current_state (st : PersistentStateEvent) (previous_event_id : string) (s : PersistentStore) : PersistentStore :=
  {| events := events s; redactions := redactions s; current := put_state_row st (current s);
     transitions := upsert_transition st previous_event_id (transitions s); graph := graph s; members := members s;
     invites := invites s; state_groups := state_groups s; state_group_state := state_group_state s;
     event_state_groups := event_state_groups s;
     forward_extremities := forward_extremities s; next_sync_stream_id := next_sync_stream_id s |}.

Definition apply_membership_projection (room_id : string) (p : MembershipProjection) (s : PersistentStore) : PersistentStore :=
  {| events := events s; redactions := redactions s; current := current s; transitions := transitions s; graph := graph s;
     members := project_membership_row room_id p (members s); invites := project_invite room_id p (invites s);
     state_groups := state_groups s; state_group_state := state_group_state s; event_state_groups := event_state_groups s;
     forward_extremities := forward_extremities s; next_sync_stream_id := next_sync_stream_id s |}.

(** The update [prepare_store_event_with_state] made, without its statements. *)
Record PreparedStateUpdate : Type := {
  pu_event : PersistentEvent;
  pu_state : option PersistentStateEvent;
  pu_previous_event_id : string;
  pu_membership : option MembershipProjection
}.

Section Writers.
Context `{Yyjson}.
(** [redaction_observer]: what the owner of the store does when an event is stored. *)
Context (observer : string -> PersistentStore -> PersistentStore).

Definition mirror_event (event : PersistentEvent) (s : PersistentStore) : PersistentStore :=
  {| events := (insert event (events s)).2; redactions := note_event_for_redactions event (redactions s);
     current := current s; transitions := transitions s; graph := append_event_graph_rows event (graph s);
     members := members s; invites := invites s; state_groups := state_groups s;
     state_group_state := state_group_state s; event_state_groups := event_state_groups s;
     forward_extremities := forward_extremities s; next_sync_stream_id := next_sync_stream_id s |}.

Definition apply_store_event_with_state (u : PreparedStateUpdate) (s : PersistentStore) : PersistentStore :=
  if contains (ev_event_id (pu_event u)) (events s) then s
  else
    let s := mirror_event (pu_event u) s in
    let s :=
      match pu_state u with
      | None => s
      | Some st =>
          {| events := events s; redactions := redactions s; current := put_state_row st (current s);
             transitions := push_transition (transition_of st (pu_previous_event_id u)) (transitions s);
             graph := graph s; members := members s; invites := invites s; state_groups := state_groups s;
             state_group_state := state_group_state s; event_state_groups := event_state_groups s;
     forward_extremities := forward_extremities s; next_sync_stream_id := next_sync_stream_id s |}
      end in
    let s := match pu_membership u with
             | None => s
             | Some p => apply_membership_projection (ev_room_id (pu_event u)) p s
             end in
    observer (ev_event_id (pu_event u)) s.
End Writers.
