(* ===== verification/StoreLookup.v ===== *)
(** Lookups in the current state and in the state transitions: the indexes answer
    what a scan of the rows answers, and a write is what later lookups find. *)
From S2P Require Import Prelude CppStd JsonValue JsonParser EventShape EventId EventTable EventTableInv EventTableErase.
From S2P Require Import StateTables Store EduWindow.
Open Scope Z_scope.

(** * Keys *)

Definition no_nul (s : string) : Prop := find_char nul s = None.

Lemma nul_split a b x y : no_nul a -> no_nul b -> a +:+ nul_text +:+ x = b +:+ nul_text +:+ y -> a = b /\ x = y.
Proof. intros Ha Hb Heq. by apply kind_split in Heq. Qed.

Lemma transition_key_inj r t k e r' t' k' e' : no_nul r -> no_nul t -> no_nul k -> no_nul r' -> no_nul t' -> no_nul k' ->
  state_transition_index_key r t k e = state_transition_index_key r' t' k' e' -> r = r' /\ t = t' /\ k = k' /\ e = e'.
Proof.
  unfold state_transition_index_key. intros ? ? ? ? ? ? Heq. apply nul_split in Heq as [-> Heq]; [|done|done].
  apply nul_split in Heq as [-> Heq]; [|done|done]. by apply nul_split in Heq as [-> ->].
Qed.

(** * The first row of each key *)

Section First.
Context {Row : Type} (key : Row -> string).

(** The index has the position of the first row of each key. *)
Definition first_index (rs : list Row) (index : gmap string nat) : Prop :=
  forall k, index !! k = fst <$> list_find (fun r => key r = k) rs.

Lemma first_nil : first_index [] ∅.
Proof. intros k. by rewrite lookup_empty. Qed.

Lemma first_snoc rs index r : first_index rs index -> first_index (rs ++ [r]) (emplace (key r) (length rs) index).
Proof.
  intros Hok k. unfold emplace. rewrite (Hok (key r)).
  assert (fst <$> list_find (fun r0 => key r0 = k) (rs ++ [r]) =
    match fst <$> list_find (fun r0 => key r0 = k) rs with
    | Some p => Some p
    | None => if decide (key r = k) then Some (length rs) else None
    end) as ->.
  { destruct (list_find (fun r0 => key r0 = k) rs) as [[q y]|] eqn:Ek; simpl.
    - by rewrite (list_find_app_l _ _ _ _ _ Ek).
    - rewrite list_find_app_r by done. simpl. by destruct (decide (key r = k)). }
  rewrite <- (Hok k). rewrite <- (Hok (key r)). destruct (index !! key r) as [p|] eqn:E.
  - destruct (index !! k) eqn:Ek; [done|]. destruct (decide (key r = k)) as [<-|]; [congruence|done].
  - destruct (decide (key r = k)) as [<-|Hne]; [by rewrite lookup_insert_eq, E|]. rewrite lookup_insert_ne by done.
    by destruct (index !! k).
Qed.

(** The index does not change while every row keeps its key. *)
Lemma first_keys rs rs' index : key <$> rs = key <$> rs' -> first_index rs index -> first_index rs' index.
Proof.
  intros Hkeys Hok k. rewrite (Hok k). clear Hok. revert rs' Hkeys. induction rs as [|r rs IH]; intros [|r' rs'] Hkeys; try done.
  injection Hkeys as Hr Hrs. simpl. rewrite Hr. destruct (decide (key r' = k)); [done|]. specialize (IH rs' Hrs).
  destruct (list_find _ rs) as [[p x]|], (list_find _ rs') as [[q y]|]; simpl in *; by simplify_eq.
Qed.
End First.

(** * The current state *)

Definition empty_state : CurrentState :=
  {| state := []; state_position_index := ∅; state_room_index := ∅; state_indexed_rows := 0 |}.

Definition indexes_ok (rows : list PersistentStateEvent) (cs : CurrentState) : Prop :=
  first_index row_position_key rows (state_position_index cs) /\ multi_index st_room_id rows (state_room_index cs).

Definition state_ok (cs : CurrentState) : Prop :=
  state_indexed_rows cs = length (state cs) /\ indexes_ok (state cs) cs.

Lemma index_row_ok cs p row : indexes_ok (take p (state cs)) cs -> state cs !! p = Some row ->
  indexes_ok (take (S p) (state cs)) (index_state_row cs p).
Proof.
  intros [Hf Hm] Hp. unfold index_state_row. rewrite Hp. rewrite (take_S_r _ _ _ Hp).
  assert (length (take p (state cs)) = p) as Hlen by (rewrite length_take; apply lookup_lt_Some in Hp; lia).
  split; simpl.
  - pose proof (first_snoc _ _ _ row Hf) as Hs. by rewrite Hlen in Hs.
  - pose proof (multi_snoc _ _ _ row Hm) as Hs. by rewrite Hlen in Hs.
Qed.

Lemma index_row_state cs p : state (index_state_row cs p) = state cs.
Proof. unfold index_state_row. by destruct (state cs !! p). Qed.

Lemma multi_nil {Row} (key : Row -> string) : multi_index key [] ∅.
Proof.
  intros k. rewrite lookup_empty. split; [done|]. split; [constructor|]. intros p. simpl. split; [set_solver|].
  by intros (r & Hr & _).
Qed.

Lemma rebuild_ok cs : state_ok (rebuild_state_index cs) /\ state (rebuild_state_index cs) = state cs.
Proof.
  unfold rebuild_state_index. set (cleared := {| state := state cs; state_position_index := ∅; state_room_index := ∅;
    state_indexed_rows := state_indexed_rows cs |}).
  assert (forall n, (n <= length (state cs))%nat -> let cs' := foldl index_state_row cleared (seq 0 n) in
    state cs' = state cs /\ indexes_ok (take n (state cs)) cs') as Hn.
  { induction n as [|n IH]; intros Hle cs'; subst cs'.
    - split; [done|]. split; [apply first_nil|apply multi_nil].
    - rewrite seq_S, foldl_app. simpl. destruct (IH ltac:(lia)) as [Hst Hok]. rewrite index_row_state. split; [done|].
      destruct (lookup_lt_is_Some_2 (state cs) n) as [row Hrow]; [lia|]. rewrite <- Hst. rewrite <- Hst in Hok, Hrow.
      by eapply index_row_ok. }
  destruct (Hn (length (state cs)) ltac:(lia)) as [Hst Hok]. rewrite firstn_all in Hok. unfold state_ok, indexes_ok. simpl.
  rewrite Hst. split; [|done]. by split.
Qed.

Lemma set_event_id_keys new rows rows' : set_event_id new rows = Some rows' ->
  row_position_key <$> rows = row_position_key <$> rows' /\ st_room_id <$> rows = st_room_id <$> rows'.
Proof.
  revert rows'. induction rows as [|row rows IH]; intros rows'; csimpl; [done|]. destruct (state_row_is _ _ _ _).
  - by intros [= <-].
  - intros (rest & Hr & ->)%fmap_Some_1. destruct (IH rest Hr) as [Hk Hm]. rewrite !fmap_cons, Hk, Hm. done.
Qed.

Lemma multi_keys {Row} (key : Row -> string) rs rs' index : key <$> rs = key <$> rs' -> multi_index key rs index -> multi_index key rs' index.
Proof.
  intros Hkeys Hok. eapply room_index_ext; [exact Hok| |done]. intros k p.
  assert (forall l : list Row, (exists r, l !! p = Some r /\ key r = k) <-> (key <$> l) !! p = Some k) as Hl.
  { intros l. rewrite list_lookup_fmap, fmap_Some. naive_solver. }
  by rewrite !Hl, Hkeys.
Qed.

Lemma put_state_row_ok new cs : state_ok cs -> state_ok (put_state_row new cs).
Proof.
  intros (Hlen & Hf & Hm). unfold put_state_row. destruct (set_event_id new (state cs)) as [rows|] eqn:E.
  - apply set_event_id_keys in E as [Hk Hr]. split; simpl.
    + apply (f_equal length) in Hk. rewrite !length_fmap in Hk. lia.
    + split; [by eapply first_keys|by eapply multi_keys].
  - unfold note_state_row_appended. simpl. rewrite length_app, Nat.add_1_r. simpl. rewrite Hlen, Nat.add_1_r, Nat.eqb_refl. simpl.
    rewrite Nat.sub_0_r. unfold index_state_row, push_state_row. simpl. rewrite list_lookup_middle by done. simpl.
    split; simpl; [by rewrite length_app, Nat.add_1_r|]. split; simpl; [by apply first_snoc|by apply multi_snoc].
Qed.

(** * Index and scan *)

Definition row_key_is (r t k : string) (row : PersistentStateEvent) : Prop :=
  st_room_id row = r /\ st_event_type row = t /\ st_state_key row = k.

Lemma state_row_is_spec row r t k : state_row_is row r t k = true <-> row_key_is r t k row.
Proof. unfold state_row_is, row_key_is. rewrite !andb_true_iff, !String.eqb_eq. tauto. Qed.

Lemma scan_first rows r t k p row : rows !! p = Some row -> row_key_is r t k row ->
  (forall q row', (q < p)%nat -> rows !! q = Some row' -> ~ row_key_is r t k row') -> scan_state rows r t k = Some (st_event_id row).
Proof.
  revert p. induction rows as [|x rows IH]; intros [|p] Hp Hrow Hfirst; simplify_eq/=; unfold scan_state in *; simpl.
  - by rewrite (proj2 (state_row_is_spec _ _ _ _) Hrow).
  - destruct (state_row_is x r t k) eqn:E.
    + apply state_row_is_spec in E. exfalso. apply (Hfirst 0%nat x); [lia|done|done].
    + apply (IH p); [done|done|]. intros q row' Hq. apply (Hfirst (S q)). lia.
Qed.

Lemma scan_none rows r t k : (forall q row, rows !! q = Some row -> ~ row_key_is r t k row) -> scan_state rows r t k = None.
Proof.
  induction rows as [|x rows IH]; intros Hn; [done|]. unfold scan_state in *. simpl. destruct (state_row_is x r t k) eqn:E.
  - apply state_row_is_spec in E. exfalso. by apply (Hn 0%nat x).
  - apply IH. intros q row. apply (Hn (S q)).
Qed.

Lemma row_key_position r t k row : row_key_is r t k row -> row_position_key row = state_position_key r t k.
Proof. by intros (<- & <- & <-). Qed.

Lemma find_is_scan cs r t k : state_ok cs -> find_current_state_event_id cs r t k = scan_state (state cs) r t k.
Proof.
  intros (Hlen & Hf & _). unfold find_current_state_event_id. rewrite Hlen, Nat.eqb_refl, (Hf (state_position_key r t k)).
  destruct (list_find _ (state cs)) as [[p row]|] eqn:E; simpl.
  - apply list_find_Some in E as (Hp & Hk & Hfirst). rewrite Hp. destruct (state_row_is row r t k) eqn:Er; [|done].
    apply state_row_is_spec in Er. symmetry. apply (scan_first _ _ _ _ p); [done|done|].
    intros q row' Hq Hrow' Hkey. apply (Hfirst q row'); [done|done|]. by apply row_key_position.
  - symmetry. apply scan_none. intros q row Hq Hkey. apply list_find_None in E. rewrite Forall_forall in E.
    apply (E row); [by eapply list_elem_of_lookup_2|]. by apply row_key_position.
Qed.

Lemma room_rows_are_scan cs room : state_ok cs -> room_state_rows cs room = filter (fun row => st_room_id row = room) (state cs).
Proof.
  intros (Hlen & _ & Hm). unfold room_state_rows. rewrite Hlen, Nat.eqb_refl. pose proof (multi_lookup _ _ _ room Hm) as Hl.
  destruct (state_room_index cs !! room) as [positions|] eqn:E; simpl in Hl; [|done].
  destruct (forallb _ positions); [done|done].
Qed.

Lemma scan_set new rows rows' r t k : set_event_id new rows = Some rows' ->
  scan_state rows' r t k = if state_row_is new r t k then Some (st_event_id new) else scan_state rows r t k.
Proof.
  revert rows'. induction rows as [|row rows IH]; intros rows'; simpl; [done|]. unfold scan_state in *.
  destruct (state_row_is row (st_room_id new) (st_event_type new) (st_state_key new)) eqn:E.
  - intros [= <-]. simpl. unfold state_row_is in *. simpl. breflect. rewrite H, H1, H0. simpl. by destruct (_ && _).
  - intros (rest & Hr & ->)%fmap_Some_1. simpl. specialize (IH rest Hr). destruct (state_row_is row r t k) eqn:Er; [|done].
    destruct (state_row_is new r t k) eqn:En; [|done]. exfalso. apply state_row_is_spec in Er, En.
    destruct Er as (<- & <- & <-), En as (H1 & H2 & H3). rewrite H1, H2, H3 in E.
    assert (state_row_is row (st_room_id row) (st_event_type row) (st_state_key row) = true) by (by apply state_row_is_spec). congruence.
Qed.

Lemma scan_append new rows r t k : set_event_id new rows = None ->
  scan_state (rows ++ [new]) r t k = if state_row_is new r t k then Some (st_event_id new) else scan_state rows r t k.
Proof.
  induction rows as [|row rows IH]; unfold scan_state in *; simpl.
  - intros _. by destruct (state_row_is new r t k).
  - destruct (state_row_is row (st_room_id new) (st_event_type new) (st_state_key new)) eqn:E; [done|].
    intros Hn. apply fmap_None in Hn. specialize (IH Hn). destruct (state_row_is row r t k) eqn:Er; [|done].
    destruct (state_row_is new r t k) eqn:En; [|done]. exfalso. apply state_row_is_spec in Er, En.
    destruct Er as (<- & <- & <-), En as (H1 & H2 & H3). rewrite H1, H2, H3 in E.
    assert (state_row_is row (st_room_id row) (st_event_type row) (st_state_key row) = true) by (by apply state_row_is_spec). congruence.
Qed.

Lemma find_put new cs r t k : state_ok cs -> find_current_state_event_id (put_state_row new cs) r t k =
  if state_row_is new r t k then Some (st_event_id new) else find_current_state_event_id cs r t k.
Proof.
  intros Hok. rewrite !find_is_scan by (try apply put_state_row_ok; done). unfold put_state_row.
  destruct (set_event_id new (state cs)) as [rows|] eqn:E; [by apply scan_set|].
  assert (state (note_state_row_appended (push_state_row new cs)) = state cs ++ [new]) as ->; [|by apply scan_append].
  unfold note_state_row_appended. destruct (_ || _); [done|]. simpl. by rewrite index_row_state.
Qed.

(** * Transitions *)

Definition transitions_ok (ts : Transitions) : Prop :=
  first_index transition_key (state_transitions ts) (state_transition_index ts).

Lemma push_transition_ok tr ts : transitions_ok ts -> transitions_ok (push_transition tr ts).
Proof. intros Hok. by apply first_snoc. Qed.

Lemma upsert_transition_ok st prev ts : transitions_ok ts -> transitions_ok (upsert_transition st prev ts).
Proof.
  intros Hok. unfold upsert_transition. destruct (_ !! _) as [p|]; [destruct (_ <? _)%nat|]; try (by apply push_transition_ok).
  unfold transitions_ok. simpl. eapply first_keys; [|exact Hok]. apply list_eq. intros q. rewrite !list_lookup_fmap.
  destruct (decide (q = p)) as [->|Hne]; [|by rewrite list_lookup_alter_ne].
  rewrite list_lookup_alter_eq. by destruct (state_transitions ts !! p).
Qed.

Lemma rebuild_transitions_ok ts : transitions_ok (rebuild_state_transition_index ts).
Proof.
  unfold transitions_ok, rebuild_state_transition_index. simpl. set (l := state_transitions ts). set (f := fun index position => _).
  assert (forall n, (n <= length l)%nat -> first_index transition_key (take n l) (foldl f ∅ (seq 0 n))) as Hn.
  { induction n as [|n IH]; intros Hle; [apply first_nil|]. rewrite seq_S, foldl_app. simpl.
    destruct (lookup_lt_is_Some_2 l n) as [tr Htr]; [lia|]. rewrite (take_S_r _ _ _ Htr). unfold f at 1. rewrite Htr.
    pose proof (first_snoc transition_key _ _ tr (IH ltac:(lia))) as Hs. by rewrite length_take, Nat.min_l in Hs by lia. }
  specialize (Hn (length l) ltac:(lia)). by rewrite firstn_all in Hn.
Qed.

Lemma find_transition_key ts r t k e tr : transitions_ok ts -> find_state_transition ts r t k e = Some tr ->
  tr ∈ state_transitions ts /\ transition_key tr = state_transition_index_key r t k e.
Proof.
  intros Hok. unfold find_state_transition. rewrite (Hok (state_transition_index_key r t k e)).
  destruct (list_find _ _) as [[p x]|] eqn:E; simpl; [|done]. apply list_find_Some in E as (Hp & Hk & _). rewrite Hp.
  intros [= <-]. split; [by eapply list_elem_of_lookup_2|done].
Qed.

Lemma find_upsert_transition st prev ts : transitions_ok ts ->
  find_state_transition (upsert_transition st prev ts) (st_room_id st) (st_event_type st) (st_state_key st) (st_event_id st)
  = Some (with_previous prev (default (transition_of st prev)
      (find_state_transition ts (st_room_id st) (st_event_type st) (st_state_key st) (st_event_id st)))).
Proof.
  intros Hok. unfold upsert_transition, find_state_transition.
  set (key := state_transition_index_key _ _ _ _). destruct (state_transition_index ts !! key) as [p|] eqn:E; simpl.
  - pose proof E as Ef. rewrite (Hok key) in Ef. destruct (list_find _ _) as [[q x]|] eqn:El; simplify_eq/=.
    apply list_find_Some in El as (Hp & _ & _). rewrite Hp. rewrite (proj2 (Nat.ltb_lt _ _)) by (by eapply lookup_lt_Some).
    simpl. rewrite E. simpl. by rewrite list_lookup_alter_eq, Hp.
  - unfold emplace. change (transition_key (transition_of st prev)) with key. rewrite E, lookup_insert_eq. simpl.
    by rewrite list_lookup_middle.
Qed.

(** * Memberships *)

Definition members_ok (ms : Memberships) : Prop :=
  membership_indexed_rows ms = length (memberships ms) /\ multi_index mb_room_id (memberships ms) (membership_room_index ms).

Lemma room_members_are_scan ms room : members_ok ms ->
  room_membership_rows ms room = filter (fun row => mb_room_id row = room) (memberships ms).
Proof.
  intros (Hlen & Hm). unfold room_membership_rows. rewrite Hlen, Nat.eqb_refl. pose proof (multi_lookup _ _ _ room Hm) as Hl.
  destruct (membership_room_index ms !! room) as [positions|] eqn:E; simpl in Hl; [|done].
  destruct (forallb _ positions); [done|done].
Qed.

Lemma change_first_keys {A B} (key : A -> B) here f rows rows' : (forall r, here r = true -> key <$> f r = [key r]) ->
  change_first here f rows = Some rows' -> key <$> rows = key <$> rows'.
Proof.
  intros Hf. revert rows'. induction rows as [|r rows IH]; intros rows'; csimpl; [done|]. destruct (here r) eqn:E.
  - intros [= <-]. rewrite fmap_app, (Hf r E). done.
  - intros (rest & Hr & ->)%fmap_Some_1. by rewrite fmap_cons, (IH rest Hr).
Qed.

Lemma project_membership_ok room p ms : members_ok ms -> members_ok (project_membership_row room p ms).
Proof.
  intros (Hlen & Hm). unfold project_membership_row. destruct (change_first _ _ _) as [rows|] eqn:E.
  - apply (change_first_keys mb_room_id) in E; [|done]. split; simpl.
    + apply (f_equal length) in E. rewrite !length_fmap in E. lia.
    + by eapply multi_keys.
  - unfold note_membership_row_appended. simpl. rewrite length_app, Nat.add_1_r. simpl. rewrite Hlen, Nat.add_1_r, Nat.eqb_refl.
    simpl. rewrite Nat.sub_0_r. unfold index_membership_row. simpl. rewrite list_lookup_middle by done. simpl.
    split; simpl; [by rewrite length_app, Nat.add_1_r|by apply (multi_snoc mb_room_id)].
Qed.

(** * The store *)

Record store_ok (s : PersistentStore) : Prop := {
  ok_current : state_ok (current s);
  ok_transitions : transitions_ok (transitions s);
  ok_members : members_ok (members s)
}.

Definition empty_store : PersistentStore := {|
  events := empty_table; redactions := {| by_target := ∅; withheld := ∅; applied_by_target := ∅ |};
  current := empty_state; transitions := {| state_transitions := []; state_transition_index := ∅ |};
  graph := {| event_edges := []; event_auth := []; event_signatures := [] |};
  members := {| memberships := []; membership_room_index := ∅; membership_indexed_rows := 0 |};
  invites := []; state_groups := StateGroupTable.empty; state_group_state := StateGroupEntryTable.empty;
  event_state_groups := EventStateGroupTable.empty;
  forward_extremities := []; next_sync_stream_id := 0 |}.

(** Hydration and a room reload replace the rows and rebuild the indexes. *)
Definition reload (rows : list PersistentStateEvent) (trs : list PersistentStateTransition) (mbs : list PersistentMembership)
    (s : PersistentStore) : PersistentStore := {|
  events := events s; redactions := redactions s;
  current := rebuild_state_index {| state := rows; state_position_index := state_position_index (current s);
    state_room_index := state_room_index (current s); state_indexed_rows := state_indexed_rows (current s) |};
  transitions := rebuild_state_transition_index
    {| state_transitions := trs; state_transition_index := state_transition_index (transitions s) |};
  graph := graph s;
  members := rebuild_membership_index {| memberships := mbs; membership_room_index := membership_room_index (members s);
    membership_indexed_rows := membership_indexed_rows (members s) |};
  invites := invites s; state_groups := state_groups s; state_group_state := state_group_state s;
  event_state_groups := event_state_groups s;
     forward_extremities := forward_extremities s; next_sync_stream_id := next_sync_stream_id s |}.

Lemma rebuild_members_ok ms : members_ok (rebuild_membership_index ms).
Proof.
  unfold rebuild_membership_index. set (cleared := {| memberships := memberships ms; membership_room_index := ∅;
    membership_indexed_rows := membership_indexed_rows ms |}).
  assert (forall n, (n <= length (memberships ms))%nat -> let ms' := foldl index_membership_row cleared (seq 0 n) in
    memberships ms' = memberships ms /\ multi_index mb_room_id (take n (memberships ms)) (membership_room_index ms')) as Hn.
  { induction n as [|n IH]; intros Hle ms'; subst ms'; [split; [done|apply multi_nil]|].
    rewrite seq_S, foldl_app. simpl. destruct (IH ltac:(lia)) as [Hst Hok].
    destruct (lookup_lt_is_Some_2 (memberships ms) n) as [row Hrow]; [lia|]. unfold index_membership_row at 1 3. rewrite Hst, Hrow.
    split; [done|]. simpl. rewrite (take_S_r _ _ _ Hrow). pose proof (multi_snoc _ _ _ row Hok) as Hs.
    by rewrite length_take, Nat.min_l in Hs by lia. }
  destruct (Hn (length (memberships ms)) ltac:(lia)) as [Hst Hok]. rewrite firstn_all in Hok. unfold members_ok. simpl.
  by rewrite Hst.
Qed.

Section StoreSteps.
Context `{Yyjson} (observer : string -> PersistentStore -> PersistentStore).

(** The observer works on the store through the store's own operations. *)
Definition observer_ok : Prop := forall id s, store_ok s -> store_ok (observer id s).

Inductive store_step : PersistentStore -> PersistentStore -> Prop :=
  | step_current st prev s : store_step s (apply_current_state st prev s)
  | step_event u s : store_step s (apply_store_event_with_state observer u s)
  | step_projection room p s : store_step s (apply_membership_projection room p s)
  | step_reload rows trs mbs s : store_step s (reload rows trs mbs s).

Lemma store_step_ok s s' : observer_ok -> store_step s s' -> store_ok s -> store_ok s'.
Proof.
  intros Hobs Hstep Hok. destruct Hstep as [st prev s|u s|room p s|rows trs mbs s]; destruct Hok as [Hc Ht Hm].
  - constructor; simpl; [by apply put_state_row_ok|by apply upsert_transition_ok|done].
  - unfold apply_store_event_with_state. destruct (contains _ _); [done|]. apply Hobs.
    assert (store_ok (mirror_event (pu_event u) s)) as Hs by (by constructor).
    assert (store_ok match pu_state u with
      | None => mirror_event (pu_event u) s
      | Some st => {| events := events (mirror_event (pu_event u) s); redactions := redactions (mirror_event (pu_event u) s);
          current := put_state_row st (current (mirror_event (pu_event u) s));
          transitions := push_transition (transition_of st (pu_previous_event_id u)) (transitions (mirror_event (pu_event u) s));
          graph := graph (mirror_event (pu_event u) s); members := members (mirror_event (pu_event u) s);
          invites := invites (mirror_event (pu_event u) s); state_groups := state_groups (mirror_event (pu_event u) s);
          state_group_state := state_group_state (mirror_event (pu_event u) s);
          event_state_groups := event_state_groups (mirror_event (pu_event u) s);
          forward_extremities := forward_extremities (mirror_event (pu_event u) s);
          next_sync_stream_id := next_sync_stream_id (mirror_event (pu_event u) s) |} end) as Hs'.
    { destruct (pu_state u); [|done]. constructor; simpl; [by apply put_state_row_ok|by apply push_transition_ok|done]. }
    destruct (pu_membership u) as [p|]; [|done]. destruct Hs' as [Hc' Ht' Hm'].
    constructor; simpl; [done|done|by apply project_membership_ok].
  - constructor; simpl; [done|done|by apply project_membership_ok].
  - constructor; simpl; [apply rebuild_ok|apply rebuild_transitions_ok|apply rebuild_members_ok].
Qed.

Lemma empty_store_ok : store_ok empty_store.
Proof.
  constructor; simpl; [split; [done|]; split; [apply first_nil|apply multi_nil]|apply first_nil|].
  split; [done|apply multi_nil].
Qed.

(** In every store its writers and reloads build, the indexes answer what a scan
    of the rows answers: the current event of a state key (whatever bytes the key
    has), the state rows and the membership rows of a room.  Making an event current
    is what later lookups of its key find, leaves every other key alone, and its
    transition names the event it replaced; a transition found for a key without
    NULs, among rows without NULs, is one of that key. *)
Theorem store_lookups_exact s : observer_ok -> rtc store_step empty_store s ->
  (forall r t k, find_current_state_event_id (current s) r t k = scan_state (state (current s)) r t k)
  /\ (forall room, room_state_rows (current s) room = filter (fun row => st_room_id row = room) (state (current s)))
  /\ (forall room, room_membership_rows (members s) room = filter (fun row => mb_room_id row = room) (memberships (members s)))
  /\ (forall st prev r t k, let s' := apply_current_state st prev s in
        find_current_state_event_id (current s') r t k =
        (if state_row_is st r t k then Some (st_event_id st) else find_current_state_event_id (current s) r t k)
        /\ option_map tr_previous_event_id
             (find_state_transition (transitions s') (st_room_id st) (st_event_type st) (st_state_key st) (st_event_id st))
           = Some prev)
  /\ (forall r t k e tr, find_state_transition (transitions s) r t k e = Some tr ->
        no_nul r -> no_nul t -> no_nul k -> no_nul (tr_room_id tr) -> no_nul (tr_event_type tr) -> no_nul (tr_state_key tr) ->
        tr_room_id tr = r /\ tr_event_type tr = t /\ tr_state_key tr = k /\ tr_event_id tr = e).
Proof.
  intros Hobs Hr. assert (store_ok s) as [Hc Ht Hm]
    by (eapply (rtc_invariant _ store_ok); [intros a b Hab; by apply store_step_ok|apply empty_store_ok|exact Hr]).
  split; [intros; by apply find_is_scan|]. split; [intros; by apply room_rows_are_scan|].
  split; [intros; by apply room_members_are_scan|]. split.
  - intros st prev r t k s'. split; [by apply find_put|]. simpl. by rewrite find_upsert_transition.
  - intros r t k e tr Hf. apply find_transition_key in Hf as [_ Hk]; [|done]. intros. unfold transition_key in Hk.
    by apply transition_key_inj in Hk.
Qed.
End StoreSteps.

Definition no_observer : string -> PersistentStore -> PersistentStore := fun _ s => s.

Definition name_row (id : string) : PersistentStateEvent :=
  {| st_room_id := "!r"; st_event_type := "m.room.name"; st_state_key := EmptyString; st_event_id := id |}.

Lemma store_lookups_exact_witness :
  let s := apply_current_state (name_row "$1") EmptyString empty_store in
  find_current_state_event_id (current (apply_current_state (name_row "$2") "$1" s)) "!r" "m.room.name" EmptyString = Some "$2".
Proof.
  intros s. refine (eq_trans (proj1 (proj1 (proj2 (proj2 (proj2 (@store_lookups_exact
    {| read_raw_numbers := fun _ => inl read_json_structure; read_numbers := fun _ => inl read_json_structure |}
    no_observer s _ _)))) (name_row "$2") "$1" "!r" "m.room.name" EmptyString)) _).
  - intros id u Hu. exact Hu.
  - apply rtc_once. constructor.
  - reflexivity.
Defined.

(** An edit of the rows that keeps their number is not noticed: the row put in has
    no entry in the index, and the lookup does not fall back to the scan. *)
Example unnoticed_edit :
  let cs := put_state_row (name_row "$1") empty_state in
  let topic := {| st_room_id := "!r"; st_event_type := "m.room.topic"; st_state_key := EmptyString; st_event_id := "$2" |} in
  let edited := {| state := [topic]; state_position_index := state_position_index cs;
                   state_room_index := state_room_index cs; state_indexed_rows := state_indexed_rows cs |} in
  find_current_state_event_id edited "!r" "m.room.topic" EmptyString = None
  /\ scan_state (state edited) "!r" "m.room.topic" EmptyString = Some "$2".
Proof. split; reflexivity. Qed.
