(* ===== verification/ServerAcl.v ===== *)
(** Server access control lists of rooms: federation/server_acl.cpp, with
    [ip_address_is_valid] of federation/security.cpp. *)
From S2P Require Import Prelude CppStd JsonNumbers JsonValue JsonParser EventTable Store StoreLookup Glob.
Open Scope Z_scope.

(** [inet_pton(family, text) == 1], for a text without NULs. *)
Class InetPton : Type := {
  inet_pton_v4 : string -> bool;
  inet_pton_v6 : string -> bool
}.

Record ServerAclEvent : Type := {
  acl_allow : list string;
  acl_deny : list string;
  acl_allow_ip_literals : bool
}.

Inductive ServerAclDecision : Type := acl_decision_allow | acl_decision_deny.

Record ServerAclEvaluation : Type := {
  decision : ServerAclDecision;
  rule : string;
  reason : string
}.

(** * Server names *)

(** [s.rfind(c)]. *)
Fixpoint rfind_char (c : ascii) (s : string) : option nat :=
  match s with
  | EmptyString => None
  | String d s' =>
      match rfind_char c s' with
      | Some n => Some (S n)
      | None => if Ascii.eqb d c then Some 0%nat else None
      end
  end.

Definition strip_server_port (server_name : string) : string :=
  if empty server_name then EmptyString
  else if starts_with "[" server_name then
    match find_char "]" server_name with
    | None => server_name
    | Some close => take_str (close + 1) server_name
    end
  else
    match rfind_char ":" server_name with
    | None => server_name
    | Some colon =>
        if (colon =? 0)%nat then server_name
        else if negb (all_char is_digit (drop_str (colon + 1) server_name)) then server_name
        else take_str colon server_name
    end.

Fixpoint last_char (s : string) : option ascii :=
  match s with
  | EmptyString => None
  | String c EmptyString => Some c
  | String _ s' => last_char s'
  end.

Definition host_without_brackets (host : string) : string :=
  if (2 <=? String.length host)%nat && starts_with "[" host
     && match last_char host with Some c => Ascii.eqb c "]" | None => false end
  then take_str (String.length host - 2) (drop_str 1 host)
  else host.

(** [text.c_str()]: up to the first NUL. *)
Fixpoint c_str (s : string) : string :=
  match s with
  | EmptyString => EmptyString
  | String c s' => if byte_of c =? 0 then EmptyString else String c (c_str s')
  end.

Section Acl.
Context `{InetPton}.

Definition ip_address_is_valid (address : string) : bool := inet_pton_v4 (c_str address) || inet_pton_v6 (c_str address).

Definition server_name_is_ip_literal (server_name : string) : bool :=
  let host := strip_server_port server_name in
  if empty host then false else ip_address_is_valid (host_without_brackets host).

(** * The list *)

Definition bool_member (object : Object) (key : string) : option bool :=
  match object_member object key with Some (VBool b) => Some b | _ => None end.

Definition string_array_member (object : Object) (key : string) : list string :=
  match object_member object key with
  | Some (VArray elements) => omap as_string elements
  | _ => []
  end.

Definition parse_server_acl (content : Value) : ServerAclEvent :=
  match value_is_object content with
  | None => {| acl_allow := []; acl_deny := []; acl_allow_ip_literals := true |}
  | Some object =>
      {| acl_allow := string_array_member object "allow"; acl_deny := string_array_member object "deny";
         acl_allow_ip_literals := default true (bool_member object "allow_ip_literals") |}
  end.

Definition evaluate_server_acl (server_name : string) (acl : ServerAclEvent) : ServerAclEvaluation :=
  let host := strip_server_port server_name in
  if empty host
  then {| decision := acl_decision_deny; rule := "empty_server_name"; reason := "server name is empty after port stripping" |}
  else if negb (acl_allow_ip_literals acl) && server_name_is_ip_literal host
  then {| decision := acl_decision_deny; rule := "allow_ip_literals";
          reason := "server name is an IP literal and allow_ip_literals is false" |}
  else
    match List.find (fun pattern => glob_match pattern host) (acl_deny acl) with
    | Some pattern => {| decision := acl_decision_deny; rule := "deny";
                         reason := "server name matches deny list entry: " +:+ pattern |}
    | None =>
        match List.find (fun pattern => glob_match pattern host) (acl_allow acl) with
        | Some pattern => {| decision := acl_decision_allow; rule := "allow";
                             reason := "server name matches allow list entry: " +:+ pattern |}
        | None => {| decision := acl_decision_deny; rule := "allow";
                     reason := "server name did not match any allow list entry" |}
        end
    end.

Definition load_room_server_acl `{Yyjson} (store : PersistentStore) (room_id : string) : option ServerAclEvent :=
  acl_event_id ← find_current_state_event_id (current store) room_id "m.room.server_acl" EmptyString;
  if empty acl_event_id then None
  else
    event ← find acl_event_id (events store);
    match parse_lossless (ev_json event) with
    | POk parsed =>
        object ← value_is_object parsed;
        content ← object_member object "content";
        Some (parse_server_acl content)
    | _ => None
    end.

Definition room_server_acl_allows `{Yyjson} (store : PersistentStore) (room_id server_name : string) : bool :=
  match load_room_server_acl store room_id with
  | None => true
  | Some acl => match decision (evaluate_server_acl server_name acl) with acl_decision_allow => true | acl_decision_deny => false end
  end.

(** * Who is allowed *)

Definition listed (host : string) (patterns : list string) : Prop :=
  exists p, p ∈ patterns /\ pattern_matches glob_fits (String.list_ascii_of_string p) (String.list_ascii_of_string host).

Lemma find_listed host patterns :
  match List.find (fun pattern => glob_match pattern host) patterns with
  | Some _ => listed host patterns
  | None => ~ listed host patterns
  end.
Proof.
  destruct (List.find _ _) as [p|] eqn:E.
  - apply List.find_some in E as [Hin Hm]. exists p. split; [by apply list_elem_of_In|]. by apply glob_match_spec.
  - intros (p & Hin & Hm). apply list_elem_of_In in Hin. pose proof (List.find_none _ _ E p Hin) as Hf. simpl in Hf.
    apply glob_match_spec in Hm. congruence.
Qed.

Lemma acl_allows_iff server_name acl : decision (evaluate_server_acl server_name acl) = acl_decision_allow <->
  let host := strip_server_port server_name in
  host <> EmptyString /\ (acl_allow_ip_literals acl = true \/ server_name_is_ip_literal host = false)
  /\ ~ listed host (acl_deny acl) /\ listed host (acl_allow acl).
Proof.
  unfold evaluate_server_acl. simpl. set (host := strip_server_port server_name).
  destruct (empty host) eqn:Ee; simpl.
  - split; [done|]. intros (Hne & _). by destruct host.
  - destruct (negb (acl_allow_ip_literals acl) && server_name_is_ip_literal host) eqn:Ei; simpl.
    + breflect. split; [done|]. intros (_ & [?|?] & _); congruence.
    + assert (acl_allow_ip_literals acl = true \/ server_name_is_ip_literal host = false) as Hip
        by (destruct (acl_allow_ip_literals acl); [by left|by right]).
      pose proof (find_listed host (acl_deny acl)) as Hd. destruct (List.find _ (acl_deny acl)); simpl; [split; [done|tauto]|].
      pose proof (find_listed host (acl_allow acl)) as Ha. destruct (List.find _ (acl_allow acl)); simpl; [|split; [done|tauto]].
      split; [|done]. intros _. split; [by destruct host|]. auto.
Qed.

Lemma rfind_port h ds : all_digits ds = true -> rfind_char ":" (h +:+ String ":" ds) = Some (String.length h).
Proof.
  intros Hd. assert (rfind_char ":" ds = None) as Hn.
  { induction ds as [|c ds IH]; simpl in *; [done|]. breflect. rewrite IH by done. rewrite (digit_not c ":"); done. }
  induction h as [|c h IH]; simpl; [by rewrite Hn|]. by rewrite IH.
Qed.

Lemma take_append (a b : string) : take_str (String.length a) (a +:+ b) = a /\ drop_str (String.length a) (a +:+ b) = b.
Proof. induction a as [|c a [IH1 IH2]]; simpl; [by destruct b|]. rewrite IH1, IH2. done. Qed.

Lemma rfind_none c s : find_char c s = None -> rfind_char c s = None.
Proof.
  induction s as [|d s IH]; simpl; [done|]. destruct (Ascii.eqb d c); [done|]. intros Hn.
  rewrite IH; [done|]. by destruct (find_char c s).
Qed.

(** ** Host names *)

Lemma find_char_cut c s n : find_char c s = Some n ->
  exists a b, s = a +:+ String c b /\ find_char c a = None /\ String.length a = n.
Proof.
  revert n. induction s as [|d s IH]; intros n; simpl; [done|]. destruct (Ascii.eqb d c) eqn:E.
  - intros [= <-]. apply Ascii.eqb_eq in E as ->. by exists EmptyString, s.
  - intros (m & Hm & ->)%fmap_Some. destruct (IH m Hm) as (a & b & -> & Ha & <-). exists (String d a), b. simpl. by rewrite E, Ha.
Qed.

Lemma find_char_first c a b : find_char c a = None -> find_char c (a +:+ String c b) = Some (String.length a).
Proof.
  induction a as [|d a IH]; simpl; [by rewrite Ascii.eqb_refl|]. destruct (Ascii.eqb d c); [done|].
  intros Hn. rewrite IH; [done|]. by destruct (find_char c a).
Qed.

Lemma rfind_char_split c s n : rfind_char c s = Some n -> exists a b, s = a +:+ String c b /\ String.length a = n.
Proof.
  revert n. induction s as [|d s IH]; intros n; simpl; [done|]. destruct (rfind_char c s) as [m|].
  - intros [= <-]. destruct (IH m eq_refl) as (a & b & -> & <-). by exists (String d a), b.
  - destruct (Ascii.eqb d c) eqn:E; [|done]. intros [= <-]. apply Ascii.eqb_eq in E as ->. by exists EmptyString, s.
Qed.

Lemma take_bracketed x rest : take_str (String.length (String "[" x) + 1) (String "[" x +:+ String "]" rest) = String "[" x +:+ "]".
Proof. generalize (String "[" x). intros y. induction y as [|c y IH]; simpl; [by destruct rest|]. by rewrite IH. Qed.

Lemma drop_after h c port : drop_str (String.length h + 1) (h +:+ String c port) = port.
Proof. induction h as [|d h IH]; simpl; [done|]. exact IH. Qed.

(** The host of a server name: a bracketed address with what follows it cut off, the name before a port of digits, or
    the name itself. *)
Inductive host_of : string -> string -> Prop :=
  | host_bracketed x rest : find_char "]" x = None -> host_of (String "[" x +:+ String "]" rest) (String "[" x +:+ "]")
  | host_unclosed x : find_char "]" x = None -> host_of (String "[" x) (String "[" x)
  | host_and_port h port : h <> EmptyString -> starts_with "[" h = false -> all_digits port = true -> host_of (h +:+ String ":" port) h
  | host_alone s : starts_with "[" s = false -> (forall h port, s = h +:+ String ":" port -> all_digits port = true -> h = EmptyString) ->
      host_of s s.

Lemma host_stripped s h : host_of s h -> strip_server_port s = h.
Proof.
  intros Hh. destruct Hh as [x rest Hx|x Hx|h port Hne Hb Hd|s Hb Hno].
  - unfold strip_server_port. change (empty (String "[" x +:+ String "]" rest)) with false.
    change (starts_with "[" (String "[" x +:+ String "]" rest)) with true. cbv iota.
    rewrite find_char_first by (simpl; by rewrite Hx). apply take_bracketed.
  - unfold strip_server_port. simpl. by rewrite Hx.
  - unfold strip_server_port. rewrite rfind_port, drop_after by done.
    assert (empty (h +:+ String ":" port) = false) as -> by (by destruct h).
    assert (starts_with "[" (h +:+ String ":" port) = starts_with "[" h) as -> by (by destruct h).
    assert ((String.length h =? 0)%nat = false) as -> by (by destruct h).
    rewrite Hb, all_digits_all_char, Hd. simpl. apply take_append.
  - unfold strip_server_port. rewrite Hb. destruct (empty s) eqn:Ee; [by destruct s|].
    destruct (rfind_char ":" s) as [colon|] eqn:Er; [|done]. apply rfind_char_split in Er as (h & port & -> & <-).
    rewrite drop_after, all_digits_all_char. destruct (all_digits port) eqn:Ed; [|by destruct (_ =? _)%nat].
    by rewrite (Hno h port eq_refl Ed).
Qed.

Lemma stripped_host s : host_of s (strip_server_port s).
Proof.
  destruct (starts_with "[" s) eqn:Eb.
  - assert (exists x, s = String "[" x) as [x ->].
    { destruct s as [|c x]; [done|]. exists x. simpl in Eb. apply Ascii.eqb_eq in Eb. by subst. }
    destruct (find_char "]" x) as [n|] eqn:Ex.
    + apply find_char_cut in Ex as (y & rest & -> & Hy & _).
      change (String "[" (y +:+ String "]" rest)) with (String "[" y +:+ String "]" rest). rewrite (host_stripped _ _ (host_bracketed y rest Hy)). by constructor.
    + rewrite (host_stripped _ _ (host_unclosed x Ex)). by constructor.
  - destruct (rfind_char ":" s) as [colon|] eqn:Er.
    + pose proof Er as (h & port & Hs & Hl)%rfind_char_split. destruct (decide (h <> EmptyString /\ all_digits port = true)) as [[Hne Hd]|Hno].
      * subst s. assert (starts_with "[" h = false) as Hb by (by destruct h). rewrite (host_stripped _ _ (host_and_port h port Hne Hb Hd)). by constructor.
      * assert (host_of s s) as Hself; [|by rewrite (host_stripped _ _ Hself)]. apply host_alone; [done|]. intros h' port' Hs' Hd'.
        rewrite Hs', (rfind_port h' port' Hd') in Er. injection Er as Er. rewrite Hs' in Hs.
        assert (h' = h) as ->.
        { pose proof (proj1 (take_append h' (String ":" port'))) as Ht. rewrite Er, Hs, <- Hl, (proj1 (take_append h _)) in Ht. done. }
        assert (port' = port) as ->.
        { pose proof (drop_after h ":" port') as Ht. rewrite Hs, drop_after in Ht. done. }
        destruct (decide (h = EmptyString)); [done|]. by destruct Hno.
    + assert (host_of s s) as Hself; [|by rewrite (host_stripped _ _ Hself)]. apply host_alone; [done|]. intros h' port' Hs' Hd'.
      by rewrite Hs', (rfind_port h' port' Hd') in Er.
Qed.

Lemma host_of_strip s h : host_of s h <-> h = strip_server_port s.
Proof. split; [by intros ->%host_stripped|intros ->; apply stripped_host]. Qed.

(** An IP literal: the host, out of its brackets if it has them, is an IPv4 or an IPv6 address. *)
Definition ip_literal (server_name : string) : Prop :=
  exists host, host_of server_name host /\ host <> EmptyString
    /\ ((exists x, host = String "[" x +:+ "]" /\ ip_address_is_valid x = true)
        \/ (~ exists x, host = String "[" x +:+ "]") /\ ip_address_is_valid host = true).

Lemma last_char_bracket x : last_char (x +:+ "]") = Some "]"%char.
Proof.
  induction x as [|c x IH]; [done|]. simpl. destruct (x +:+ "]") as [|d y] eqn:E; [by destruct x|exact IH].
Qed.

Lemma brackets_dropped x : host_without_brackets (String "[" x +:+ "]") = x.
Proof.
  unfold host_without_brackets. change (last_char (String "[" x +:+ "]")) with (last_char (String "[" (x +:+ "]"))).
  change (String "[" (x +:+ "]")) with (String "[" x +:+ "]"). rewrite last_char_bracket.
  assert (String.length (String "[" x +:+ "]") = S (S (String.length x))) as Hl.
  { simpl. f_equal. clear. induction x as [|c x IH]; simpl; [done|]. by rewrite IH. }
  rewrite Hl. simpl. rewrite Nat.sub_0_r. apply (proj1 (take_append x "]")).
Qed.

Lemma last_char_split s c : last_char s = Some c -> exists a, s = a +:+ String c EmptyString.
Proof.
  induction s as [|d s IH]; [done|]. destruct s as [|e s]; simpl in *; [intros [= ->]; by exists EmptyString|].
  intros Hl. destruct (IH Hl) as [a Ha]. exists (String d a). by rewrite Ha.
Qed.

Lemma brackets_kept host : (~ exists x, host = String "[" x +:+ "]") -> host_without_brackets host = host.
Proof.
  intros Hno. unfold host_without_brackets. destruct (_ && _) eqn:E; [|done]. exfalso. apply andb_true_iff in E as [E Hc].
  apply andb_true_iff in E as [Hl Hb]. destruct (last_char host) as [c|] eqn:El; [|done]. apply Ascii.eqb_eq in Hc as ->.
  apply last_char_split in El as [a ->]. destruct a as [|d a]; [done|]. apply Hno. exists a. simpl in Hb. apply Ascii.eqb_eq in Hb as ->. done.
Qed.

Lemma ip_literal_iff server_name : server_name_is_ip_literal server_name = true <-> ip_literal server_name.
Proof.
  unfold server_name_is_ip_literal, ip_literal. set (host := strip_server_port server_name). split.
  - destruct (empty host) eqn:Ee; [done|]. intros Hv. exists host. split; [apply stripped_host|]. split; [by destruct host|].
    assert (Decision (exists x, host = String "[" x +:+ "]")) as Hdec.
    { destruct (decide (host = String "[" (host_without_brackets host) +:+ "]")) as [He|He]; [left; eauto|right].
      intros [x Hx]. apply He. by rewrite Hx, brackets_dropped. }
    destruct Hdec as [[x Hx]|Hno]; [left; exists x|right]; (split; [done|]); [by rewrite Hx, brackets_dropped in Hv|by rewrite brackets_kept in Hv].
  - intros (h & ->%host_of_strip & Hne & Hv). fold host in Hne, Hv. destruct (empty host) eqn:Ee; [by destruct host|].
    destruct Hv as [(x & -> & Hv)|[Hno Hv]]; [by rewrite brackets_dropped|by rewrite brackets_kept].
Qed.

(** ** The list of a room *)

(** The content of the room's ACL event, when it has one that can be read. *)
Definition acl_content `{Yyjson} (store : PersistentStore) (room_id : string) (content : Value) : Prop :=
  exists id event o, find_current_state_event_id (current store) room_id "m.room.server_acl" EmptyString = Some id /\ id <> EmptyString
    /\ find id (events store) = Some event /\ parse_lossless (ev_json event) = POk (VObject o) /\ object_member o "content" = Some content.

(** The content names a pattern under the key that fits the host. *)
Definition names_host (content : Value) (key host : string) : Prop :=
  exists o patterns p, content = VObject o /\ object_member o key = Some (VArray patterns) /\ VString p ∈ patterns
    /\ pattern_matches glob_fits (String.list_ascii_of_string p) (String.list_ascii_of_string host).

Definition refuses_ip_literals (content : Value) : Prop :=
  exists o, content = VObject o /\ object_member o "allow_ip_literals" = Some (VBool false).

Lemma acl_loaded `{Yyjson} store room_id :
  match load_room_server_acl store room_id with
  | Some acl => exists content, acl_content store room_id content /\ acl = parse_server_acl content
      /\ forall other, acl_content store room_id other -> other = content
  | None => forall content, ~ acl_content store room_id content
  end.
Proof.
  unfold load_room_server_acl, acl_content.
  destruct (find_current_state_event_id _ _ _ _) as [id|] eqn:Ei; simpl; [|by intros content (? & ? & ? & ? & _)].
  destruct (empty id) eqn:Ee; [destruct id; [|done]; by intros content (? & ? & ? & [= <-] & ? & _)|].
  destruct (find id (events store)) as [event|] eqn:Ef; simpl; [|intros content (? & ? & ? & [= <-] & _ & ? & _); congruence].
  destruct (parse_lossless (ev_json event)) as [parsed|] eqn:Ep; [|intros content (? & ? & ? & [= <-] & _ & ? & ? & _); congruence].
  destruct (value_is_object parsed) as [o|] eqn:Eo; simpl.
  2:{ intros content (? & ? & ? & [= <-] & _ & Hf & Hp & _). rewrite Ef in Hf. injection Hf as <-. rewrite Ep in Hp. by injection Hp as ->. }
  assert (parsed = VObject o) as -> by (destruct parsed; simpl in Eo; congruence).
  assert (forall content, (exists id' event' o', Some id = Some id' /\ id' <> EmptyString /\ find id' (events store) = Some event'
    /\ parse_lossless (ev_json event') = POk (VObject o') /\ object_member o' "content" = Some content) ->
    object_member o "content" = Some content) as Hone.
  { intros content (? & ? & ? & [= <-] & _ & Hf & Hp & Hc). rewrite Ef in Hf. injection Hf as <-. rewrite Ep in Hp. by injection Hp as <-. }
  destruct (object_member o "content") as [content|] eqn:Ec; simpl; [|by intros content Hc%Hone].
  exists content. split; [|split; [done|intros other Ho%Hone; congruence]].
  exists id, event, o. split; [done|]. split; [by destruct id|]. done.
Qed.

Lemma listed_names content key host :
  listed host (match value_is_object content with Some o => string_array_member o key | None => [] end) <-> names_host content key host.
Proof.
  unfold listed, names_host, string_array_member. split.
  - intros (p & Hin & Hm). destruct (value_is_object content) as [o|] eqn:Eo; [|by apply not_elem_of_nil in Hin].
    assert (content = VObject o) as -> by (destruct content; naive_solver).
    destruct (object_member o key) as [[| | | | |patterns| |]|] eqn:Ek; try by apply not_elem_of_nil in Hin.
    apply list_elem_of_omap in Hin as (v & Hv & Hp). exists o, patterns, p. destruct v; simplify_eq/=. done.
  - intros (o & patterns & p & -> & Hk & Hin & Hm). exists p. simpl. rewrite Hk. split; [|done].
    apply list_elem_of_omap. by exists (VString p).
Qed.

Lemma parsed_acl content :
  (acl_allow (parse_server_acl content) = match value_is_object content with Some o => string_array_member o "allow" | None => [] end)
  /\ (acl_deny (parse_server_acl content) = match value_is_object content with Some o => string_array_member o "deny" | None => [] end)
  /\ (acl_allow_ip_literals (parse_server_acl content) = false <-> refuses_ip_literals content).
Proof.
  unfold parse_server_acl, refuses_ip_literals, bool_member. destruct (value_is_object content) as [o|] eqn:Eo; simpl.
  - assert (content = VObject o) as -> by (destruct content; naive_solver). split; [done|]. split; [done|].
    destruct (object_member o "allow_ip_literals") as [[|b| | | | | |]|] eqn:Ek; simpl; naive_solver.
  - split; [done|]. split; [done|]. split; [done|]. intros (o & -> & _). done.
Qed.

(** C39. A server may take part in a room exactly when the room has no readable ACL
    (no current m.room.server_acl event that is held, is JSON and has content), or
    its host, the server name without the port, is not empty, matches no entry of the
    content's "deny" list and some entry of its "allow" list, in the meaning of the
    glob patterns, and is no IP literal if the content says allow_ip_literals is
    false: a deny entry always wins, and what no list names is refused.  Every
    server name has exactly one host, and a numeric port makes no difference to a
    name without colons or to a bracketed address. *)
Theorem server_acl_decides `{Yyjson} store room_id server_name :
  (room_server_acl_allows store room_id server_name = true <->
   forall content, acl_content store room_id content -> exists host, host_of server_name host /\ host <> EmptyString
     /\ (refuses_ip_literals content -> ~ ip_literal host)
     /\ ~ names_host content "deny" host /\ names_host content "allow" host)
  /\ (exists host, host_of server_name host /\ forall other, host_of server_name other -> other = host)
  /\ (forall h port, (h <> EmptyString /\ find_char ":" h = None /\ starts_with "[" h = false)
        \/ (exists x, h = String "[" x +:+ "]" /\ find_char "]" x = None) -> all_digits port = true ->
        room_server_acl_allows store room_id (h +:+ String ":" port) = room_server_acl_allows store room_id h).
Proof.
  split; [|split].
  - unfold room_server_acl_allows. pose proof (acl_loaded store room_id) as Hl.
    destruct (load_room_server_acl store room_id) as [acl|]; [|split; [intros _ content Hc; by destruct (Hl content)|done]].
    destruct Hl as (content & Hc & -> & Hone). destruct (parsed_acl content) as (Ha & Hd & Hip).
    pose proof (acl_allows_iff server_name (parse_server_acl content)) as Hiff. cbv zeta in Hiff.
    rewrite Ha, Hd, !listed_names in Hiff. set (host := strip_server_port server_name) in *.
    assert (acl_allow_ip_literals (parse_server_acl content) = true \/ server_name_is_ip_literal host = false
      <-> (refuses_ip_literals content -> ~ ip_literal host)) as Hlit.
    { rewrite <- Hip, <- ip_literal_iff. destruct (acl_allow_ip_literals _), (server_name_is_ip_literal _); naive_solver. }
    rewrite Hlit in Hiff. split.
    + intros Hb other ->%Hone. exists host. split; [by apply host_of_strip|]. apply Hiff. by destruct (decision _).
    + intros Hall. destruct (Hall content Hc) as (h & ->%host_of_strip & Hrest). by rewrite (proj2 Hiff Hrest).
  - exists (strip_server_port server_name). split; [apply stripped_host|]. by intros other ->%host_of_strip.
  - intros h port Hh Hd. assert (strip_server_port (h +:+ String ":" port) = strip_server_port h) as Hs.
    { destruct Hh as [(Hne & Hc & Hb)|(x & -> & Hx)].
      - rewrite (host_stripped _ _ (host_and_port h port Hne Hb Hd)). symmetry. apply host_stripped, host_alone; [done|].
        intros h' port' -> Hd'. apply rfind_none in Hc. by rewrite rfind_port in Hc.
      - assert ((String "[" x +:+ "]") +:+ String ":" port = String "[" x +:+ String "]" (String ":" port)) as ->.
        { generalize (String "[" x). intros y. induction y as [|c y IH]; [done|]. exact (f_equal (String c) IH). }
        by rewrite (host_stripped _ _ (host_bracketed x (String ":" port) Hx)), (host_stripped _ _ (host_bracketed x EmptyString Hx)). }
    unfold room_server_acl_allows, evaluate_server_acl. by rewrite Hs.
Qed.
End Acl.

Example server_acl_examples :
  let acl := {| acl_allow := ["*"]; acl_deny := ["*.evil.org"; "Evil.org"]; acl_allow_ip_literals := false |} in
  let pton := {| inet_pton_v4 := fun s => s =s "1.2.3.4"; inet_pton_v6 := fun s => s =s "::1" |} in
  decision (@evaluate_server_acl pton "good.org:8448" acl) = acl_decision_allow
  /\ rule (@evaluate_server_acl pton "a.EVIL.org" acl) = "deny" /\ rule (@evaluate_server_acl pton "evil.org:1" acl) = "deny"
  /\ rule (@evaluate_server_acl pton "[::1]:8448" acl) = "allow_ip_literals".
Proof. vm_compute. repeat split. Qed.
