(* ===== verification/HistoryVisibility.v ===== *)
(** Who may see which event: sync/HistoryVisibility.cpp and
    sync/state_group_lookup.cpp.

    The class keeps caches of what it has read from a store it does not change;
    the functions here are what the caches hold.  The order in which an
    [unordered_set] is visited is a parameter. *)
From S2P Require Import Prelude CppStd JsonValue JsonParser EventTable StateTables Store.
Open Scope Z_scope.

(** * Reading events *)

Inductive HistoryVisibilityValue : Type := hv_world_readable | hv_shared | hv_invited | hv_joined.

#[export] Instance HistoryVisibilityValue_eq_dec : EqDecision HistoryVisibilityValue.
Proof. solve_decision. Defined.

Definition history_visibility_type : string := "m.room.history_visibility".
Definition member_type : string := "m.room.member".

Definition parse_history_visibility (value : string) : HistoryVisibilityValue :=
  if value =s "world_readable" then hv_world_readable
  else if value =s "invited" then hv_invited
  else if value =s "joined" then hv_joined
  else hv_shared.

Section Reading.
Context `{Yyjson}.

(** The members are visited in order, so of two with one key the last counts. *)
Definition is_membership_of (event_json user_id : string) : bool :=
  match parse_lossless event_json with
  | POk parsed =>
      match value_is_object parsed with
      | None => false
      | Some event =>
          let '(type_matches, key_matches) := foldl (fun acc member =>
            if member.1 =s "type" then
              (match as_string member.2 with Some text => text =s member_type | None => false end, acc.2)
            else if member.1 =s "state_key" then
              (acc.1, match as_string member.2 with Some text => text =s user_id | None => false end)
            else acc) (false, false) event in
          type_matches && key_matches
      end
  | _ => false
  end.

Definition content_string_of (event_json key : string) : option string :=
  match parse_lossless event_json with
  | POk parsed =>
      event ← value_is_object parsed;
      content ← object_member_as_object event "content";
      string_member content key
  | _ => None
  end.
End Reading.

Definition event_is_withheld (event : PersistentEvent) : bool :=
  (ev_status event =s "rejected") || (ev_status event =s "soft_failed").

(** * State at an event *)

Inductive GroupLookupResult : Type :=
  | group_found (event_id : string)
  | group_absent
  | group_broken.

Definition max_state_group_delta_depth : nat := 100.

(** The loop over a group and its parents; [hops] are those that remain. *)
Fixpoint lookup_from (hops : nat) (store : PersistentStore) (visited : gset string) (group_id event_type state_key : string)
    : GroupLookupResult :=
  if bool_decide (group_id ∈ visited) then group_broken
  else
    match hops with
    | O => group_broken
    | S hops' =>
        match StateGroupTable.find group_id (state_groups store) with
        | None => group_broken
        | Some group =>
            match List.find (fun entry => (ge_event_type entry =s event_type) && (ge_state_key entry =s state_key))
                    (StateGroupEntryTable.entries_of group_id (state_group_state store)) with
            | Some entry => group_found (ge_event_id entry)
            | None =>
                match sg_parent_state_group_id group with
                | None => group_absent
                | Some parent => lookup_from hops' store (visited ∪ {[group_id]}) parent event_type state_key
                end
            end
        end
    end.

(** Hops 0 to the maximum depth are made. *)
Definition lookup_state_in_group (store : PersistentStore) (group_id event_type state_key : string) : GroupLookupResult :=
  lookup_from (S max_state_group_delta_depth) store ∅ group_id event_type state_key.

Definition state_rows (store : PersistentStore) : list PersistentStateEvent := state (current store).

Definition current_history_visibility `{Yyjson} (store : PersistentStore) (room_id : string) : HistoryVisibilityValue :=
  match List.find (fun row => negb (negb (st_room_id row =s room_id) || negb (st_event_type row =s history_visibility_type)
                             || negb (empty (st_state_key row)))) (state_rows store) with
  | None => hv_shared
  | Some row =>
      match find (st_event_id row) (events store) with
      | None => hv_shared
      | Some event =>
          match content_string_of (ev_json event) "history_visibility" with
          | Some value => parse_history_visibility value
          | None => hv_shared
          end
      end
  end.

Definition room_is_world_readable `{Yyjson} (store : PersistentStore) (room_id : string) : bool :=
  bool_decide (current_history_visibility store room_id = hv_world_readable).

(** * One requesting user *)

Record GroupView : Type := {
  gv_valid : bool;
  gv_visibility : HistoryVisibilityValue;
  gv_membership : string
}.

Record MembershipStep : Type := {
  ms_ordering : Z;
  ms_membership : string
}.

Record Departure : Type := {
  dp_ordering : Z;
  dp_event_id : option string
}.

(** [std::ranges::sort] on the ordering of the steps: the result is sorted, the
    order of steps with the same ordering is not specified. *)
Class TimelineSort : Type := {
  sort_timeline : list MembershipStep -> list MembershipStep;
  sort_timeline_perm l : sort_timeline l ≡ₚ l;
  sort_timeline_sorted l : StronglySorted (fun a b => ms_ordering a <= ms_ordering b) (sort_timeline l)
}.

Section Visibility.
Context `{Yyjson} `{TimelineSort} (store : PersistentStore) (user_id : string).
(** The order in which an [unordered_set] of event IDs is visited. *)
Context (iterate : gset string -> list string).

Definition find_event (event_id : string) : option PersistentEvent := find event_id (events store).

Definition state_group_of (event_id : string) : option string :=
  EventStateGroupTable.state_group_of event_id (event_state_groups store).

Definition has_state_group (event_id : string) : bool := match state_group_of event_id with Some _ => true | None => false end.

Definition content_string (event_id key : string) : option string :=
  event ← find_event event_id; content_string_of (ev_json event) key.

Definition invalid_view : GroupView := {| gv_valid := false; gv_visibility := hv_shared; gv_membership := EmptyString |}.

(** The visibility a found event states; [None] when the event is not held. *)
Definition stated_visibility (lookup : GroupLookupResult) : option HistoryVisibilityValue :=
  match lookup with
  | group_found id =>
      match find_event id with
      | None => None
      | Some _ => Some (match content_string id "history_visibility" with Some v => parse_history_visibility v | None => hv_shared end)
      end
  | _ => Some hv_shared
  end.

Definition stated_membership (lookup : GroupLookupResult) : option string :=
  match lookup with
  | group_found id =>
      match find_event id with
      | None => None
      | Some _ => Some (default EmptyString (content_string id "membership"))
      end
  | _ => Some EmptyString
  end.

(** The lines that fill a view.  A view that is not valid is never read further. *)
Definition view_of_group (group_id : string) : GroupView :=
  let visibility_event := lookup_state_in_group store group_id history_visibility_type EmptyString in
  let member_event := lookup_state_in_group store group_id member_type user_id in
  match visibility_event, member_event with
  | group_broken, _ | _, group_broken => invalid_view
  | _, _ =>
      match stated_visibility visibility_event with
      | None => invalid_view
      | Some visibility =>
          match stated_membership member_event with
          | None => {| gv_valid := false; gv_visibility := visibility; gv_membership := EmptyString |}
          | Some membership => {| gv_valid := true; gv_visibility := visibility; gv_membership := membership |}
          end
      end
  end.

(** ** Joins *)

Definition join_candidates (room_id : string) : gset string :=
  list_to_set (ge_event_id <$> filter (fun e => ge_event_type e = member_type /\ ge_state_key e = user_id)
    (StateGroupEntryTable.rows (state_group_state store)))
  ∪ list_to_set (st_event_id <$> filter (fun s => st_room_id s = room_id /\ st_event_type s = member_type /\ st_state_key s = user_id)
    (state_rows store)).

Definition accepted_join (room_id event_id : string) : option PersistentEvent :=
  event ← find_event event_id;
  if negb (ev_room_id event =s room_id) || event_is_withheld event then None
  else if bool_decide (content_string event_id "membership" = Some "join") then Some event else None.

(** The greatest depth so far and the candidates that have it. *)
Fixpoint newest_joins (room_id : string) (candidates : list string) (newest : option Z) (ids : list string)
    : option Z * list string :=
  match candidates with
  | [] => (newest, ids)
  | candidate :: rest =>
      match accepted_join room_id candidate with
      | None => newest_joins room_id rest newest ids
      | Some event =>
          let '(newest, ids) :=
            match newest with
            | Some depth => if depth <? ev_depth event then (ev_depth event, []) else (depth, ids)
            | None => (ev_depth event, [])
            end in
          newest_joins room_id rest (Some newest) (if ev_depth event =? newest then ids ++ [candidate] else ids)
      end
  end.

Definition max_join_depth (room_id : string) : option Z := (newest_joins room_id (iterate (join_candidates room_id)) None []).1.
Definition newest_join_ids (room_id : string) : list string := (newest_joins room_id (iterate (join_candidates room_id)) None []).2.

Definition max_join_ancestor_walk : nat := 500.

(** The walk back from the newest joins; [pending] is the stack, its top first, and
    [budget] the events that may still be walked. *)
Fixpoint walk_join_ancestors (budget : nat) (room_id : string) (join_depth : Z) : list string -> gset string -> gset string :=
  match budget with
  | O => fun _ ancestors => ancestors
  | S budget' => fix walk (pending : list string) (ancestors : gset string) : gset string :=
      match pending with
      | [] => ancestors
      | id :: rest =>
          match find_event id with
          | None => walk rest ancestors
          | Some ancestor =>
              if negb (ev_room_id ancestor =s room_id) || (ev_depth ancestor <? join_depth)
                 || bool_decide (ev_event_id ancestor ∈ ancestors)
              then walk rest ancestors
              else walk_join_ancestors budget' room_id join_depth (rev (ev_prev_event_ids ancestor) ++ rest)
                     (ancestors ∪ {[ev_event_id ancestor]})
          end
      end
  end.

Definition ancestors_of_newest_joins (room_id : string) : gset string :=
  let pending := mjoin ((fun id => match find_event id with Some join => ev_prev_event_ids join | None => [] end) <$> newest_join_ids room_id) in
  walk_join_ancestors max_join_ancestor_walk room_id (default 0 (max_join_depth room_id)) (rev pending) ∅.

(** ** Departures *)

Definition departure_of (room_id : string) : option Departure :=
  match List.find (fun row => (mb_room_id row =s room_id) && (mb_user_id row =s user_id)) (memberships (members store)) with
  | None => None
  | Some row =>
      if (mb_membership row =s "leave") || (mb_membership row =s "ban") then
        let leave :=
          match List.find (fun entry => (st_room_id entry =s room_id) && (st_event_type entry =s member_type)
                                        && (st_state_key entry =s user_id)) (state_rows store) with
          | None => None
          | Some entry =>
              match content_string (st_event_id entry) "membership" with
              | Some m => if (m =s "leave") || (m =s "ban") then Some (st_event_id entry) else None
              | None => None
              end
          end in
        Some {| dp_ordering := mb_stream_ordering row; dp_event_id := leave |}
      else None
  end.

Definition max_departure_walk : nat := 500.

(** The walk back from an event: whether it may reach the leave. *)
Fixpoint walk_to_departure (budget : nat) (room_id leave : string) (ordering : Z) : list string -> gset string -> bool :=
  fix walk (pending : list string) (visited : gset string) : bool :=
    match pending with
    | [] => false
    | id :: rest =>
        if id =s leave then true
        else if bool_decide (id ∈ visited) then walk rest visited
        else
          let visited := visited ∪ {[id]} in
          match find_event id with
          | None => walk rest visited
          | Some prev =>
              if negb (ev_room_id prev =s room_id) || (ev_stream_ordering prev <? ordering) then walk rest visited
              else
                match budget with
                | O => true
                | S budget' => walk_to_departure budget' room_id leave ordering (rev (ev_prev_event_ids prev) ++ rest) visited
                end
          end
    end.

Definition may_descend_from_departure (event : PersistentEvent) (departure : Departure) : bool :=
  if ev_stream_ordering event <? dp_ordering departure then false
  else
    match dp_event_id departure with
    | None => true
    | Some leave =>
        if ev_event_id event =s leave then false
        else walk_to_departure max_departure_walk (ev_room_id event) leave (dp_ordering departure)
               (rev (ev_prev_event_ids event)) ∅
    end.

(** ** The rules *)

Definition allows (visibility : HistoryVisibilityValue) (membership : string) (event : PersistentEvent) : bool :=
  if bool_decide (visibility = hv_world_readable) then true
  else if membership =s "join" then true
  else if bool_decide (visibility = hv_shared) then
    match max_join_depth (ev_room_id event) with
    | None => false
    | Some joined =>
        if joined <? ev_depth event then false
        else if (joined =? ev_depth event) && negb (bool_decide (ev_event_id event ∈ ancestors_of_newest_joins (ev_room_id event)))
        then false
        else
          match departure_of (ev_room_id event) with
          | None => true
          | Some departure => negb (may_descend_from_departure event departure)
          end
    end
  else (membership =s "invite") && bool_decide (visibility = hv_invited).

(** ** Events without recorded state *)

Definition max_chain : nat := 4096.

(** The user's membership events back from [current]; [None] when they cannot be
    followed.  [steps] are those that remain. *)
Fixpoint membership_chain (steps : nat) (room_id current : string) : option (list MembershipStep) :=
  if empty current then Some []
  else
    match find_event current, steps with
    | Some event, S steps' =>
        if negb (ev_room_id event =s room_id) then None
        else
          match (if event_is_withheld event then Some []
                 else m ← content_string current "membership"; Some [{| ms_ordering := ev_stream_ordering event; ms_membership := m |}]) with
          | None => None
          | Some here =>
              match find_state_transition (transitions store) room_id member_type user_id current with
              | None => Some here
              | Some transition => rest ← membership_chain steps' room_id (tr_previous_event_id transition); Some (here ++ rest)
              end
          end
    | _, _ => None
    end.

Definition membership_timeline (room_id : string) : option (list MembershipStep) :=
  let current := match List.find (fun s => (st_room_id s =s room_id) && (st_event_type s =s member_type)
                                           && (st_state_key s =s user_id)) (state_rows store) with
                 | Some s => st_event_id s
                 | None => EmptyString
                 end in
  timeline ← membership_chain max_chain room_id current;
  Some (sort_timeline timeline).

(** The last membership at or before an ordering. *)
Fixpoint latest_membership (ordering : Z) (latest : string) (timeline : list MembershipStep) : string :=
  match timeline with
  | [] => latest
  | step :: rest => if ordering <? ms_ordering step then latest else latest_membership ordering (ms_membership step) rest
  end.

Definition joined_when_sent (event : PersistentEvent) : bool :=
  match membership_timeline (ev_room_id event) with
  | None => false
  | Some timeline => latest_membership (ev_stream_ordering event) EmptyString timeline =s "join"
  end.

Definition membership_at (event : PersistentEvent) : option string :=
  match state_group_of (ev_event_id event) with
  | Some group_id =>
      let view := view_of_group group_id in
      if negb (gv_valid view) then None
      else Some (if empty (gv_membership view) then "leave" else gv_membership view)
  | None =>
      match membership_timeline (ev_room_id event) with
      | None => None
      | Some timeline => Some (latest_membership (ev_stream_ordering event) "leave" timeline)
      end
  end.

(** What a transition says stood before its event; [None] when it names an event
    that is not held. *)
Definition before_transition (transition : PersistentStateTransition) (key : string) : option (option string) :=
  if empty (tr_previous_event_id transition) then Some None
  else
    match find_event (tr_previous_event_id transition) with
    | None => None
    | Some _ => Some (content_string (tr_previous_event_id transition) key)
    end.

Definition visible_by_previous_visibility (view : GroupView) (event : PersistentEvent) : bool :=
  match find_state_transition (transitions store) (ev_room_id event) history_visibility_type EmptyString (ev_event_id event) with
  | None => false
  | Some transition =>
      match before_transition transition "history_visibility" with
      | None => false
      | Some value =>
          allows (match value with Some v => parse_history_visibility v | None => hv_shared end) (gv_membership view) event
      end
  end.

Definition visible_by_previous_membership (view : GroupView) (event : PersistentEvent) : bool :=
  match find_state_transition (transitions store) (ev_room_id event) member_type user_id (ev_event_id event) with
  | None => false
  | Some transition =>
      match before_transition transition "membership" with
      | None => false
      | Some value => allows (gv_visibility view) (default EmptyString value) event
      end
  end.

Definition can_see (event : PersistentEvent) : bool :=
  if event_is_withheld event then false
  else if redaction_is_withheld (redactions store) (ev_event_id event) then false
  else
    match state_group_of (ev_event_id event) with
    | None =>
        if (ev_status event =s "outlier") && is_membership_of (ev_json event) user_id then true
        else if ev_status event =s "outlier" then false
        else joined_when_sent event
    | Some group_id =>
        let view := view_of_group group_id in
        if negb (gv_valid view) then false
        else if allows (gv_visibility view) (gv_membership view) event then true
        else if visible_by_previous_visibility view event then true
        else visible_by_previous_membership view event
    end.

Definition can_see_event_id (event_id : string) : bool :=
  match find_event event_id with Some event => can_see event | None => false end.
End Visibility.
