(* ===== verification/HistoryPrivacy.v ===== *)
(** What history visibility guarantees: an event is shown only for one of the
    reasons the rules give, judged on the state recorded for it. *)
From S2P Require Import Prelude CppStd JsonValue JsonParser EventTable EventTableInv EventTableErase EventTableSpec.
From S2P Require Import StateTables Store HistoryVisibility.
Open Scope Z_scope.

(** * State at a group *)

Section Groups.
Context (store : PersistentStore) (event_type state_key : string).

Definition entry_in (group_id : string) : option string :=
  ge_event_id <$> List.find (fun entry => (ge_event_type entry =s event_type) && (ge_state_key entry =s state_key))
    (StateGroupEntryTable.entries_of group_id (state_group_state store)).

(** The event a group's full state has for the key: its own entry, or else its
    parent's. *)
Inductive state_in_group : string -> option string -> Prop :=
  | state_here g group id : StateGroupTable.find g (state_groups store) = Some group -> entry_in g = Some id ->
      state_in_group g (Some id)
  | state_inherited g group parent r : StateGroupTable.find g (state_groups store) = Some group -> entry_in g = None ->
      sg_parent_state_group_id group = Some parent -> state_in_group parent r -> state_in_group g r
  | state_nowhere g group : StateGroupTable.find g (state_groups store) = Some group -> entry_in g = None ->
      sg_parent_state_group_id group = None -> state_in_group g None.

Lemma lookup_from_state hops : forall visited g,
  match lookup_from hops store visited g event_type state_key with
  | group_found id => state_in_group g (Some id)
  | group_absent => state_in_group g None
  | group_broken => True
  end.
Proof.
  induction hops as [|hops IH]; intros visited g; simpl; (case_bool_decide; [done|]); [done|].
  destruct (StateGroupTable.find g (state_groups store)) as [group|] eqn:Eg; [|done].
  destruct (List.find _ _) as [entry|] eqn:Ee.
  - eapply state_here; [exact Eg|]. unfold entry_in. by rewrite Ee.
  - assert (entry_in g = None) as Hn by (unfold entry_in; by rewrite Ee).
    destruct (sg_parent_state_group_id group) as [parent|] eqn:Ep; [|by eapply state_nowhere].
    specialize (IH (visited ∪ {[g]}) parent). destruct (lookup_from hops _ _ parent _ _); [| |done];
      by eapply state_inherited.
Qed.

End Groups.

(** * Walks *)

Section Walks.
Context `{Yyjson} (store : PersistentStore).

(** A step of the departure walk: from an event of the room stored since the
    departure to one of its predecessors. *)
Definition departure_step (room_id : string) (ordering : Z) (x y : string) : Prop :=
  exists e, find_event store x = Some e /\ ev_room_id e = room_id /\ ordering <= ev_stream_ordering e /\ y ∈ ev_prev_event_ids e.

Definition expandable (room_id : string) (ordering : Z) (id : string) : option PersistentEvent :=
  prev ← find_event store id;
  if negb (ev_room_id prev =s room_id) || (ev_stream_ordering prev <? ordering) then None else Some prev.

Lemma departure_step_iff room ordering x y : departure_step room ordering x y <->
  exists e, expandable room ordering x = Some e /\ y ∈ ev_prev_event_ids e.
Proof.
  unfold departure_step, expandable. destruct (find_event store x) as [e|]; simpl; [|naive_solver].
  destruct (ev_room_id e =s room) eqn:Er; simpl; breflect; [|naive_solver].
  destruct (ev_stream_ordering e <? ordering) eqn:Eo; breflect; [|naive_solver]. split; [|naive_solver].
  intros (x' & [= <-] & _ & Ho & _). lia.
Qed.

Lemma walk_cons budget room leave ordering id rest visited :
  walk_to_departure store budget room leave ordering (id :: rest) visited =
  if id =s leave then true
  else if bool_decide (id ∈ visited) then walk_to_departure store budget room leave ordering rest visited
  else
    match expandable room ordering id, budget with
    | None, _ => walk_to_departure store budget room leave ordering rest (visited ∪ {[id]})
    | Some _, O => true
    | Some prev, S budget' =>
        walk_to_departure store budget' room leave ordering (rev (ev_prev_event_ids prev) ++ rest) (visited ∪ {[id]})
    end.
Proof.
  unfold expandable. destruct budget; simpl; destruct (id =s leave); [done| |done|]; case_bool_decide; [done| |done|];
    destruct (find_event store id) as [prev|]; simpl; try done; destruct (_ || _); done.
Qed.

(** A walk that ends without reaching the leave has seen everything that can be
    reached from where it started. *)
Lemma walk_closed room leave ordering budget : forall pending visited,
  leave ∉ visited ->
  (forall x y, x ∈ visited -> departure_step room ordering x y -> y ∈ visited \/ y ∈ pending) ->
  walk_to_departure store budget room leave ordering pending visited = false ->
  exists closed : gset string, visited ⊆ closed /\ (forall p, p ∈ pending -> p ∈ closed) /\ (leave ∉ closed)
    /\ forall x y, x ∈ closed -> departure_step room ordering x y -> y ∈ closed.
Proof.
  induction budget as [budget IHb] using lt_wf_ind. induction pending as [|id rest IHp]; intros visited Hleave Hinv.
  { intros _. exists visited. split; [done|]. split; [set_solver|]. split; [done|]. intros x y Hx Hs.
    destruct (Hinv x y Hx Hs); [done|set_solver]. }
  rewrite walk_cons. destruct (id =s leave) eqn:El; [done|]. breflect. case_bool_decide as Hv.
  - intros Hw. destruct (IHp visited Hleave) as (closed & Hsub & Hp & Hl & Hc); [|done|].
    { intros x y Hx Hs. destruct (Hinv x y Hx Hs) as [?|[->|?]%elem_of_cons]; auto. }
    exists closed. split; [done|]. split; [|done]. intros p [->|Hin]%elem_of_cons; [by apply Hsub|auto].
  - destruct (expandable room ordering id) as [prev|] eqn:Ex.
    + destruct budget as [|budget]; [done|]. intros Hw.
      destruct (IHb budget ltac:(lia) (rev (ev_prev_event_ids prev) ++ rest) (visited ∪ {[id]})) as (closed & Hsub & Hp & Hl & Hc);
        [set_solver| |done|].
      { intros x y [Hx|Hx]%elem_of_union Hs.
        - destruct (Hinv x y Hx Hs) as [?|[->|?]%elem_of_cons]; [set_solver|set_solver|]. right. apply elem_of_app. by right.
        - apply elem_of_singleton in Hx as ->. apply departure_step_iff in Hs as (e & He & Hy). right. apply elem_of_app. left.
          rewrite Ex in He. injection He as <-. rewrite list_elem_of_In, <- in_rev, <- list_elem_of_In. done. }
      exists closed. split; [set_solver|]. split; [|done]. intros p [->|Hin]%elem_of_cons; [set_solver|].
      apply Hp, elem_of_app. by right.
    + intros Hw. destruct (IHp (visited ∪ {[id]})) as (closed & Hsub & Hp & Hl & Hc); [set_solver| |done|].
      { intros x y [Hx|Hx]%elem_of_union Hs.
        - destruct (Hinv x y Hx Hs) as [?|[->|?]%elem_of_cons]; [set_solver|set_solver|by right].
        - apply elem_of_singleton in Hx as ->. apply departure_step_iff in Hs as (e & He & _). congruence. }
      exists closed. split; [set_solver|]. split; [|done]. intros p [->|Hin]%elem_of_cons; [set_solver|auto].
Qed.

Lemma walk_unreachable room leave ordering budget start :
  walk_to_departure store budget room leave ordering (rev start) ∅ = false ->
  forall p, p ∈ start -> ~ rtc (departure_step room ordering) p leave.
Proof.
  intros Hw p Hp Hr. destruct (walk_closed room leave ordering budget (rev start) ∅) as (closed & _ & Hsub & Hl & Hc);
    [set_solver|set_solver|done|].
  assert (p ∈ closed) as Hin by (apply Hsub; rewrite list_elem_of_In, <- in_rev, <- list_elem_of_In; done).
  apply Hl. clear Hw Hp Hsub. induction Hr; eauto.
Qed.

(** A step back from a held event to one of its predecessors. *)
Definition prev_step (x y : string) : Prop := exists e, find_event store x = Some e /\ y ∈ ev_prev_event_ids e.

Lemma walk_ancestors_sound room depth budget : forall pending ancestors x,
  (forall id e, find_event store id = Some e -> ev_event_id e = id) ->
  x ∈ walk_join_ancestors store budget room depth pending ancestors ->
  x ∈ ancestors \/ exists p, p ∈ pending /\ rtc prev_step p x.
Proof.
  induction budget as [|budget IHb]; intros pending ancestors x Hids; [by left|].
  revert ancestors. induction pending as [|id rest IHp]; intros ancestors; [by left|]. simpl.
  destruct (find_event store id) as [e|] eqn:Ee.
  - destruct (negb (ev_room_id e =s room) || (ev_depth e <? depth) || bool_decide (ev_event_id e ∈ ancestors)) eqn:Ec.
    + intros Hx. destruct (IHp ancestors Hx) as [?|(p & Hp & Hr)]; [by left|right]. exists p. split; [by right|done].
    + intros Hx. apply IHb in Hx as [[Hx|Hx]%elem_of_union|(p & [Hp|Hp]%elem_of_app & Hr)]; [by left|right|right|right|done].
      * apply elem_of_singleton in Hx as ->. rewrite (Hids id e Ee). exists id. split; [by left|done].
      * exists id. split; [by left|]. eapply rtc_l; [|exact Hr]. exists e. split; [done|].
        by rewrite list_elem_of_In, <- in_rev, <- list_elem_of_In in Hp.
      * exists p. split; [by right|done].
  - intros Hx. destruct (IHp ancestors Hx) as [?|(p & Hp & Hr)]; [by left|right]. exists p. split; [by right|done].
Qed.
End Walks.

(** * The rules, declared *)

Section Rules.
Context `{Yyjson} (store : PersistentStore) (user_id : string) (iterate : gset string -> list string).
Hypothesis iterates : forall s x, x ∈ iterate s <-> x ∈ s.
Hypothesis ids_name : forall id e, find_event store id = Some e -> ev_event_id e = id.

(** An accepted join of the user in a room, named by the state of some group or by
    the current state. *)
Definition user_join (room_id id : string) (e : PersistentEvent) : Prop :=
  id ∈ join_candidates store user_id room_id /\ accepted_join store room_id id = Some e.

(** The user joined after the event: a join deeper than it, or of its depth and
    descending from it. *)
Definition joined_after (event : PersistentEvent) : Prop :=
  exists id join, user_join (ev_room_id event) id join
    /\ (ev_depth event < ev_depth join
        \/ ev_depth event = ev_depth join /\ exists p, p ∈ ev_prev_event_ids join /\ rtc (prev_step store) p (ev_event_id event)).

(** A user who left is not shown what was built on their leave. *)
Definition not_since_departure (event : PersistentEvent) : Prop :=
  forall d, departure_of store user_id (ev_room_id event) = Some d ->
    ev_stream_ordering event < dp_ordering d
    \/ exists leave, dp_event_id d = Some leave /\ (ev_event_id event = leave
         \/ forall p, p ∈ ev_prev_event_ids event -> ~ rtc (departure_step store (ev_room_id event) (dp_ordering d)) p leave).

Definition rule_allows (visibility : HistoryVisibilityValue) (membership : string) (event : PersistentEvent) : Prop :=
  visibility = hv_world_readable \/ membership = "join" \/ (membership = "invite" /\ visibility = hv_invited)
  \/ (visibility = hv_shared /\ joined_after event /\ not_since_departure event).

Definition joins_sound (room_id : string) (newest : option Z) (ids : list string) : Prop :=
  match newest with
  | None => True
  | Some d => (exists id e, user_join room_id id e /\ ev_depth e = d)
      /\ forall id, id ∈ ids -> exists e, user_join room_id id e /\ ev_depth e = d
  end.

Lemma newest_joins_sound room_id candidates : (forall c, c ∈ candidates -> c ∈ join_candidates store user_id room_id) ->
  forall newest ids, joins_sound room_id newest ids ->
  joins_sound room_id (newest_joins store room_id candidates newest ids).1 (newest_joins store room_id candidates newest ids).2.
Proof.
  induction candidates as [|c candidates IH]; intros Hc newest ids Hs; [done|]. simpl.
  assert (forall x, x ∈ candidates -> x ∈ join_candidates store user_id room_id) as Hc' by (intros x Hx; apply Hc; by right).
  destruct (accepted_join store room_id c) as [e|] eqn:Ea; [|by apply IH].
  assert (user_join room_id c e) as Hj by (split; [apply Hc; by left|done]).
  assert (forall d l, joins_sound room_id (Some d) l -> joins_sound room_id (Some d) (if ev_depth e =? d then l ++ [c] else l)) as Hadd.
  { intros d l [Hex Hall]. destruct (ev_depth e =? d) eqn:Ed; breflect; [|done]. split; [done|].
    intros id [Hin| ->%list_elem_of_singleton]%elem_of_app; [auto|by exists e]. }
  assert (joins_sound room_id (Some (ev_depth e)) []) as Hnew by (split; [by exists c, e|set_solver]).
  pose proof (Hadd (ev_depth e) [] Hnew) as Hfirst.
  destruct newest as [d|]; simpl; [destruct (d <? ev_depth e)|]; apply IH; try done; by apply (Hadd d ids).
Qed.

Lemma joins_are_sound room_id :
  joins_sound room_id (max_join_depth store user_id iterate room_id) (newest_join_ids store user_id iterate room_id).
Proof. apply newest_joins_sound; [|done]. intros c Hc. by apply iterates. Qed.

Lemma find_accepted room_id id e : accepted_join store room_id id = Some e -> find_event store id = Some e.
Proof.
  unfold accepted_join. destruct (find_event store id) as [x|]; simpl; [|done]. destruct (_ || _); [done|].
  case_bool_decide; [|done]. by intros [= ->].
Qed.

Lemma departure_respected event d : may_descend_from_departure store event d = false ->
  ev_stream_ordering event < dp_ordering d
  \/ exists leave, dp_event_id d = Some leave /\ (ev_event_id event = leave
       \/ forall p, p ∈ ev_prev_event_ids event -> ~ rtc (departure_step store (ev_room_id event) (dp_ordering d)) p leave).
Proof.
  unfold may_descend_from_departure. destruct (ev_stream_ordering event <? dp_ordering d) eqn:Eo; breflect; [by left|].
  destruct (dp_event_id d) as [leave|]; [|done]. intros Hw. right. exists leave. split; [done|].
  destruct (ev_event_id event =s leave) eqn:El; breflect; [by left|right]. by eapply walk_unreachable.
Qed.

Lemma allows_sound visibility membership event :
  allows store user_id iterate visibility membership event = true -> rule_allows visibility membership event.
Proof.
  unfold allows, rule_allows. case_bool_decide; [by left|]. destruct (membership =s "join") eqn:Ej; breflect; [auto|].
  case_bool_decide as Es; [|intros Hb; breflect; case_bool_decide; [auto|done]].
  pose proof (joins_are_sound (ev_room_id event)) as Hjoins.
  destruct (max_join_depth _ _ _ _) as [joined|] eqn:Ed; [|done]. destruct Hjoins as [(id & e & Hj & He) Hids].
  destruct (joined <? ev_depth event) eqn:Elt; breflect; [done|].
  assert ((joined =? ev_depth event) && negb (bool_decide (ev_event_id event ∈ ancestors_of_newest_joins store user_id iterate (ev_room_id event))) = false
    -> joined_after event) as Hafter.
  { intros Hb. destruct (joined =? ev_depth event) eqn:Eq; breflect; [|exists id, e; split; [done|left; lia]]. simpl in Hb.
    apply negb_false_iff, bool_decide_eq_true in Hb. unfold ancestors_of_newest_joins in Hb. rewrite Ed in Hb.
    apply walk_ancestors_sound in Hb as [?|(p & Hp & Hr)]; [set_solver| |done].
    rewrite list_elem_of_In, <- in_rev, <- list_elem_of_In in Hp. apply list_elem_of_join in Hp as (l & Hl & Hin).
    apply list_elem_of_fmap in Hin as (jid & -> & Hjid). destruct (Hids jid Hjid) as (je & Hje & Hdepth).
    destruct Hje as [Hcand Hacc]. rewrite (find_accepted _ _ _ Hacc) in Hl. exists jid, je. split; [done|].
    right. split; [congruence|]. by exists p. }
  destruct (_ && _); [done|]. specialize (Hafter eq_refl). intros Hd. right. right. right. split; [done|]. split; [done|].
  intros d Hdep. rewrite Hdep in Hd. apply negb_true_iff in Hd. by apply departure_respected.
Qed.

(** What a group's full state says of the visibility and of the user. *)
Definition visibility_at (group_id : string) (visibility : HistoryVisibilityValue) : Prop :=
  exists r, state_in_group store history_visibility_type EmptyString group_id r
    /\ match r with
       | None => visibility = hv_shared
       | Some id => is_Some (find_event store id)
           /\ visibility = match content_string store id "history_visibility" with Some v => parse_history_visibility v | None => hv_shared end
       end.

Definition membership_in (group_id membership : string) : Prop :=
  exists r, state_in_group store member_type user_id group_id r
    /\ match r with
       | None => membership = EmptyString
       | Some id => is_Some (find_event store id) /\ membership = default EmptyString (content_string store id "membership")
       end.

Lemma view_states group_id : let view := view_of_group store user_id group_id in gv_valid view = true ->
  visibility_at group_id (gv_visibility view) /\ membership_in group_id (gv_membership view).
Proof.
  unfold view_of_group, visibility_at, membership_in. simpl.
  pose proof (lookup_from_state store history_visibility_type EmptyString (S max_state_group_delta_depth) ∅ group_id) as Hv.
  pose proof (lookup_from_state store member_type user_id (S max_state_group_delta_depth) ∅ group_id) as Hm.
  fold (lookup_state_in_group store group_id history_visibility_type EmptyString) in Hv.
  fold (lookup_state_in_group store group_id member_type user_id) in Hm.
  destruct (lookup_state_in_group store group_id history_visibility_type EmptyString) as [vid| |]; [| |done];
    destruct (lookup_state_in_group store group_id member_type user_id) as [mid| |]; simpl; try done;
    try (destruct (find_event store vid) as [ve|] eqn:Ev; simpl; [|done]);
    try (destruct (find_event store mid) as [me|] eqn:Em; simpl; [|done]); intros _; split;
    (eexists; split; [eassumption|]); simpl; rewrite ?Ev, ?Em; eauto.
Qed.
End Rules.

(** The membership a sorted timeline gives for an ordering is that of a last step
    at or before it. *)
Lemma latest_membership_spec ordering timeline latest :
  StronglySorted (fun a b => ms_ordering a <= ms_ordering b) timeline ->
  ((forall step, step ∈ timeline -> ordering < ms_ordering step) /\ latest_membership ordering latest timeline = latest)
  \/ exists step, step ∈ timeline /\ ms_ordering step <= ordering /\ latest_membership ordering latest timeline = ms_membership step
     /\ forall other, other ∈ timeline -> ms_ordering other <= ordering -> ms_ordering other <= ms_ordering step.
Proof.
  intros Hs. revert latest. induction Hs as [|x l Hs IH Hx]; intros latest; [left; split; [set_solver|done]|]. simpl.
  rewrite Forall_forall in Hx. destruct (ordering <? ms_ordering x) eqn:E; breflect.
  - left. split; [|done]. intros step [->|Hin]%elem_of_cons; [done|]. specialize (Hx _ Hin). lia.
  - right. destruct (IH (ms_membership x)) as [[Hnone Hl]|(step & Hin & Hle & Hm & Hlast)].
    + exists x. split; [by left|]. split; [done|]. split; [done|]. intros other [->|Hin]%elem_of_cons Ho; [done|].
      specialize (Hnone _ Hin). lia.
    + exists step. split; [by right|]. split; [done|]. split; [done|]. intros other [->|Ho]%elem_of_cons; auto.
Qed.

(** The user's last membership by the time of the event was a join. *)
Definition joined_by_then `{Yyjson} `{TimelineSort} (store : PersistentStore) (user_id : string) (event : PersistentEvent) : Prop :=
  exists timeline step, membership_timeline store user_id (ev_room_id event) = Some timeline /\ step ∈ timeline
    /\ ms_membership step = "join" /\ ms_ordering step <= ev_stream_ordering event
    /\ forall other, other ∈ timeline -> ms_ordering other <= ev_stream_ordering event -> ms_ordering other <= ms_ordering step.

Lemma joined_when_sent_sound `{Yyjson} `{TimelineSort} store user_id event :
  joined_when_sent store user_id event = true -> joined_by_then store user_id event.
Proof.
  unfold joined_when_sent, joined_by_then, membership_timeline.
  destruct (membership_chain _ _ _ _ _) as [chain|]; [|done]. simpl. intros Hj. breflect.
  destruct (latest_membership_spec (ev_stream_ordering event) (sort_timeline chain) EmptyString (sort_timeline_sorted chain))
    as [[_ Hl]|(step & Hin & Hle & Hm & Hlast)]; [congruence|].
  exists (sort_timeline chain), step. split; [done|]. split; [done|]. split; [congruence|done].
Qed.

#[local] Opaque membership_timeline may_descend_from_departure ancestors_of_newest_joins lookup_state_in_group.

(** C4. History visibility.  An event is shown to a user only when it is not
    rejected, soft-failed or a redaction that does not apply, and: it has no
    recorded state and is the user's own membership outlier, or is no outlier and
    the user's last membership by then was a join; or, by the full state of the
    group recorded for it, the visibility and the user's membership allow it (the
    visibility before it when it changes the visibility, the membership before it
    when it changes the user's).  Shared history needs an accepted join of the user
    that is after the event; and if the user has left, the event was stored before
    the leave, or is the leave, or the leave is not reached from the events it cites
    by going back through events of the room that were stored since the leave (the
    walk does not go through older events).  In the other direction, an
    event that is not withheld, with a recorded state whose visibility and membership
    of the user can be read, is seen by a user who was joined at it, by a user invited
    to a room that shows its history to the invited, and by everybody when it is
    world-readable.  All this for a consistent event table. *)
Theorem history_visibility_sound `{Yyjson} `{TimelineSort} store user_id iterate event :
  table_ok (events store) -> (forall s x, x ∈ iterate s <-> x ∈ s) ->
  (can_see store user_id iterate event = true ->
     event_is_withheld event = false /\ redaction_is_withheld (redactions store) (ev_event_id event) = false
     /\ match state_group_of store (ev_event_id event) with
        | None => (ev_status event = "outlier" /\ is_membership_of (ev_json event) user_id = true)
            \/ (ev_status event <> "outlier" /\ joined_by_then store user_id event)
        | Some g => exists visibility membership, visibility_at store g visibility /\ membership_in store user_id g membership
            /\ (rule_allows store user_id visibility membership event
                \/ (exists tr before, find_state_transition (transitions store) (ev_room_id event) history_visibility_type
                       EmptyString (ev_event_id event) = Some tr
                     /\ before_transition store tr "history_visibility" = Some before
                     /\ rule_allows store user_id (match before with Some v => parse_history_visibility v | None => hv_shared end)
                          membership event)
                \/ (exists tr before, find_state_transition (transitions store) (ev_room_id event) member_type user_id
                       (ev_event_id event) = Some tr
                     /\ before_transition store tr "membership" = Some before
                     /\ rule_allows store user_id visibility (default EmptyString before) event))
        end)
  /\ (forall g, event_is_withheld event = false -> redaction_is_withheld (redactions store) (ev_event_id event) = false ->
        state_group_of store (ev_event_id event) = Some g -> gv_valid (view_of_group store user_id g) = true ->
        gv_visibility (view_of_group store user_id g) = hv_world_readable \/ gv_membership (view_of_group store user_id g) = "join"
        \/ (gv_membership (view_of_group store user_id g) = "invite" /\ gv_visibility (view_of_group store user_id g) = hv_invited) ->
        can_see store user_id iterate event = true).
Proof.
  intros Htable Hit.
  assert (forall id e, find_event store id = Some e -> ev_event_id e = id) as Hids
    by (intros id e He; by apply (find_spec _ Htable) in He as [_ ?]).
  unfold can_see. split.
  - destruct (event_is_withheld event); [done|]. destruct (redaction_is_withheld _ _); [done|]. intros Hsee.
    split; [done|]. split; [done|]. destruct (state_group_of store (ev_event_id event)) as [g|].
    + destruct (gv_valid (view_of_group store user_id g)) eqn:Ev; [|done]. simpl in Hsee.
      destruct (view_states store user_id g Ev) as [Hvis Hmem]. eexists _, _. split; [exact Hvis|]. split; [exact Hmem|].
      destruct (allows store user_id iterate _ _ event) eqn:Ea; [left; by eapply allows_sound|right].
      destruct (visible_by_previous_visibility _ _ _ _ _) eqn:Ep; [left|right].
      * unfold visible_by_previous_visibility in Ep. destruct (find_state_transition _ _ _ _ _) as [tr|]; [|done].
        destruct (before_transition store tr _) as [before|] eqn:Eb; [|done]. exists tr, before. split; [done|]. split; [done|].
        by eapply allows_sound.
      * unfold visible_by_previous_membership in Hsee. destruct (find_state_transition _ _ _ _ _) as [tr|]; [|done].
        destruct (before_transition store tr _) as [before|] eqn:Eb; [|done]. exists tr, before. split; [done|]. split; [done|].
        by eapply allows_sound.
    + destruct (ev_status event =s "outlier") eqn:Eo; simpl in Hsee; breflect.
      * destruct (is_membership_of _ _); [by left|done].
      * right. split; [done|]. by apply joined_when_sent_sound.
  - intros g -> -> -> -> Hrule. simpl. assert (allows store user_id iterate (gv_visibility (view_of_group store user_id g))
      (gv_membership (view_of_group store user_id g)) event = true) as ->; [|done].
    unfold allows. destruct Hrule as [->|[->|[-> ->]]]; [done| |done]. by case_bool_decide.
Qed.
