(* ===== verification/RedactionService.v ===== *)
(** What the server reads of a room from its store: the declared room version
    (homeserver/stored_room_version.cpp) and whether a user may send a state event
    by the current power levels (homeserver/room_power.cpp).

    Applying redactions (homeserver/redaction_service.cpp): the reconciler that
    the store calls after each stored event, the pass over all withheld
    redactions, and the check of a redaction a local user is about to send.
    Persisting an update is a parameter: whether the database took it, given the
    store at the time and the statement. *)
From S2P Require Import Prelude CppStd JsonValue JsonSerializer JsonParser RoomVersion Signing EventAuth EventShape Redaction EventTable StateTables Store.
Open Scope Z_scope.

Section StoredRoom.
Context `{Yyjson}.

(** * The room version *)

Definition declared_room_version (create_event : Object) : string :=
  match object_member_as_object create_event "content" with
  | None => "1"
  | Some content =>
      match string_member content "room_version" with
      | None => "1"
      | Some version => if empty version then "1" else version
      end
  end.

Definition stored_create_room_version (create_event_json : string) : string :=
  match parse_lossless create_event_json with
  | POk (VObject object) => declared_room_version object
  | _ => "1"
  end.

Definition stored_room_version (s : PersistentStore) (room_id : string) : option string :=
  match find_current_state_event_id (current s) room_id "m.room.create" EmptyString with
  | None => None
  | Some create_id =>
      match find create_id (events s) with
      | None => Some "1"
      | Some event => Some (stored_create_room_version (ev_json event))
      end
  end.

Definition stored_room_version_policy (s : PersistentStore) (room_id : string) : option RoomVersionPolicy :=
  stored_room_version s room_id ≫= find_room_version_policy.

(** * Power *)

(** The current state event of the type with the empty state key, parsed; null
    when the room has none or it cannot be read. *)
Definition current_state_value (s : PersistentStore) (room_id event_type : string) : Value :=
  match scan_state (state (current s)) room_id event_type EmptyString with
  | None => VNull
  | Some event_id =>
      match find event_id (events s) with
      | None => VNull
      | Some event => match parse_lossless (ev_json event) with POk v => v | _ => VNull end
      end
  end.

Definition room_version_of (create_event : Value) : string :=
  match value_is_object create_event with Some root => declared_room_version root | None => EmptyString end.

Definition may_send_state_event (s : PersistentStore) (room_id user_id event_type : string) : bool :=
  let create_event := current_state_value s room_id "m.room.create" in
  match find_room_version_policy (room_version_of create_event) with
  | None => false
  | Some policy =>
      let power_levels := current_state_value s room_id "m.room.power_levels" in
      required_state_event_power power_levels event_type policy
      <=? effective_sender_power power_levels user_id create_event policy
  end.
End StoredRoom.

Inductive LocalRedactionCheck : Type := lrc_permitted | lrc_target_unknown | lrc_forbidden.

#[export] Instance RedactionVerdict_eq_dec : EqDecision RedactionVerdict.
Proof. solve_decision. Defined.

Definition set_json (json : string) (e : PersistentEvent) : PersistentEvent := {|
  ev_event_id := ev_event_id e; ev_room_id := ev_room_id e; ev_sender_user_id := ev_sender_user_id e;
  ev_json := json; ev_depth := ev_depth e; ev_stream_ordering := ev_stream_ordering e;
  ev_prev_event_ids := ev_prev_event_ids e; ev_auth_event_ids := ev_auth_event_ids e;
  ev_signatures := ev_signatures e; ev_status := ev_status e |}.

Section Service.
Context `{Yyjson} `{Libc}.
(** Whether [record_and_persist] takes the update of an event's JSON. *)
Context (persist : PersistentStore -> string -> string -> bool).

Definition replace_event_json (event_id json : string) (s : PersistentStore) : bool * PersistentStore :=
  match by_id (events s) !! event_id with
  | None => (false, s)
  | Some existing =>
      if negb (persist s event_id json) then (false, s)
      else (true, with_events s (modify existing (set_json json) (events s)))
  end.

Definition parse_event (json : string) : option Value :=
  match parse_lossless json with POk (VObject o) => Some (VObject o) | _ => None end.

Definition member_of (value : Value) (key : string) : option Value :=
  value_is_object value ≫= fun object => object_member object key.

Definition string_of (value : Value) (key : string) : option string :=
  match member_of value key with Some (VString text) => Some text | _ => None end.

Definition create_event_of (s : PersistentStore) (room_id : string) : option PersistentEvent :=
  scan_state (state (current s)) room_id "m.room.create" EmptyString ≫= fun id => find id (events s).

Definition policy_of (s : PersistentStore) (room_id : string) : option RoomVersionPolicy :=
  stored_room_version_policy s room_id.

(** The first of the listed events that is held and is a power-levels event. *)
Fixpoint first_power_levels (s : PersistentStore) (ids : list Value) : Value :=
  match ids with
  | [] => VNull
  | id :: rest =>
      match (match id with VString text => find text (events s) | _ => None end) with
      | None => first_power_levels s rest
      | Some stored =>
          match parse_event (ev_json stored) with
          | Some parsed =>
              if bool_decide (string_of parsed "type" = Some "m.room.power_levels") then parsed
              else first_power_levels s rest
          | None => first_power_levels s rest
          end
      end
  end.

Definition context_of (s : PersistentStore) (redaction : Value) (room_id : string) : RedactionContext := {|
  context_create := default VNull (create_event_of s room_id ≫= fun create => parse_event (ev_json create));
  context_power_levels :=
    match member_of redaction "auth_events" with
    | Some (VArray ids) => first_power_levels s ids
    | _ => VNull
    end |}.

(** The guards of [reconcile_redaction] after the first: the target's row and
    its redacted JSON, when the redaction applies. *)
Definition application (s : PersistentStore) (redaction_id : string) : option (PersistentEvent * string) :=
  redaction_event ← find redaction_id (events s);
  if (ev_status redaction_event =s "rejected") || (ev_status redaction_event =s "soft_failed") then None
  else
    policy ← policy_of s (ev_room_id redaction_event);
    redaction ← parse_event (ev_json redaction_event);
    target_event ← redaction_target redaction policy ≫= (fun id => find id (events s));
    if ev_room_id target_event <>s ev_room_id redaction_event then None
    else
      target ← parse_event (ev_json target_event);
      if negb (bool_decide (judge_redaction redaction target (context_of s redaction (ev_room_id redaction_event))
                              policy = applies)) then None
      else
        match redact_event target policy with
        | RedactionError _ => None
        | Redacted redacted =>
            match serialize_canonical redacted with
            | SErr _ => None
            | SOk output => Some (target_event, output)
            end
        end.

Definition reconcile_redaction (redaction_id : string) (s : PersistentStore) : PersistentStore :=
  if negb (redaction_is_withheld (redactions s) redaction_id) then s
  else
    match application s redaction_id with
    | None => s
    | Some (target_event, output) =>
        let mark s := with_redactions s (mark_redaction_applied redaction_id (ev_event_id target_event) (redactions s)) in
        if output <>s ev_json target_event
        then let '(replaced, s') := replace_event_json (ev_event_id target_event) output s in
             if replaced then mark s' else s
        else mark s
    end.

Definition reconcile_redactions_for_event (event_id : string) (s : PersistentStore) : PersistentStore :=
  let s := reconcile_redaction event_id s in
  foldl (fun s redaction_id => reconcile_redaction redaction_id s) s (redactions_naming (redactions s) event_id).

(** [iterate] is the order in which the set of withheld redactions is copied. *)
Definition reconcile_all_redactions (iterate : gset string -> list string) (s : PersistentStore) : nat * PersistentStore :=
  foldl (fun '(applied, s) redaction_id =>
           let s := reconcile_redaction redaction_id s in
           (if redaction_is_withheld (redactions s) redaction_id then applied else S applied, s))
    (O, s) (iterate (withheld (redactions s))).

(** [store_event] of the persistent store with the reconciler installed;
    [commit] is whether the transaction with the event's rows is taken. *)
Definition store_event (commit : PersistentStore -> PersistentEvent -> bool) (event : PersistentEvent)
    (s : PersistentStore) : bool * PersistentStore :=
  if contains (ev_event_id event) (events s) then (false, s)
  else if negb (commit s event) then (false, s)
  else (true, reconcile_redactions_for_event (ev_event_id event) (mirror_event event s)).

Definition check_local_redaction (s : PersistentStore) (room_id composed_redaction_json : string)
    (sender_is_server_admin : bool) (local_server_name : string) : LocalRedactionCheck :=
  match policy_of s room_id, parse_event composed_redaction_json with
  | Some policy, Some redaction =>
      let target_id := redaction_target redaction policy in
      let context := context_of s redaction room_id in
      match target_id ≫= (fun id => find id (events s)) with
      | None =>
          if match target_id with Some id => negb (empty id) | None => false end
             && sender_meets_redact_level redaction context policy
          then lrc_permitted else lrc_forbidden
      | Some target_event =>
          if ev_room_id target_event <>s room_id then lrc_target_unknown
          else
            match parse_event (ev_json target_event), string_of redaction "sender" with
            | Some target, Some sender =>
                let target_sender := string_of target "sender" in
                let own_event := bool_decide (target_sender = Some sender) in
                let server_admin_over_local_user :=
                  sender_is_server_admin
                  && match target_sender with Some u => domain_of u =s local_server_name | None => false end in
                if negb own_event && negb server_admin_over_local_user
                   && negb (sender_meets_redact_level redaction context policy)
                then lrc_forbidden
                else if bool_decide (judge_redaction redaction target context policy = applies)
                then lrc_permitted else lrc_forbidden
            | _, _ => lrc_forbidden
            end
      end
  | _, _ => lrc_forbidden
  end.
End Service.
