(* ===== verification/RedactionFlow.v ===== *)
(** What the redaction reconciler guarantees: it refines a machine whose steps
    are judged redactions of events held in the same room, so a redaction is
    shown only after its target was rewritten, and the order in which an event
    and its redaction arrive does not matter. *)
From S2P Require Import Prelude CppStd JsonValue JsonSerializer JsonParser RoomVersion Signing EventAuth EventShape Redaction EventTable EventTableInv EventTableAdd EventTableErase EventTableSpec StateTables Store StoreLookup RedactionService.
Open Scope Z_scope.

Section Flow.
Context `{Yyjson} `{Libc}.

(** * Lookups after a change of the table *)

Lemma set_json_in_order p json t : modification_in_order p (set_json json) t.
Proof. intros old Hold. by left. Qed.

Lemma find_position t id p : table_ok t -> by_id t !! id = Some p <-> exists e, rows t !! p = Some e /\ ev_event_id e = id.
Proof. intros Hok. rewrite (ok_ids t Hok id p). naive_solver. Qed.

Lemma find_modified t id p row json i : table_ok t -> by_id t !! id = Some p -> find id t = Some row ->
  find i (modify p (set_json json) t) = if decide (i = id) then Some (set_json json row) else find i t.
Proof.
  intros Hok Hp Hrow. pose proof (modify_ok p (set_json json) t (set_json_in_order p json t) Hok) as Hok'.
  apply (find_position t id p Hok) in Hp as (e & He & Hid).
  assert (e = row) as ->.
  { assert (find id t = Some e) as Hf by (apply (find_spec t Hok); split; [by eapply list_elem_of_lookup_2|done]). congruence. }
  apply option_eq. intros x. rewrite (find_spec _ Hok'), modify_rows. destruct (decide (i = id)) as [->|Hne].
  - split.
    + intros [(q & Hq)%list_elem_of_lookup Hx]. destruct (decide (q = p)) as [->|Hqp].
      * rewrite list_lookup_alter_eq, He in Hq. simpl in Hq. by simplify_eq.
      * rewrite list_lookup_alter_ne in Hq by done. exfalso. apply Hqp.
        assert (by_id t !! id = Some q) by (apply (find_position t id q Hok); eauto).
        assert (by_id t !! id = Some p) by (apply (find_position t id p Hok); eauto). congruence.
    + intros [= <-]. split; [|done]. apply list_elem_of_lookup. exists p. rewrite list_lookup_alter_eq, He. by destruct row.
  - rewrite (find_spec t Hok). split; intros [(q & Hq)%list_elem_of_lookup Hx]; (split; [|done]); apply list_elem_of_lookup.
    + destruct (decide (q = p)) as [->|Hqp]; [|exists q; by rewrite list_lookup_alter_ne in Hq].
      rewrite list_lookup_alter_eq, He in Hq. simpl in Hq. by simplify_eq.
    + exists q. destruct (decide (q = p)) as [->|Hqp]; [|by rewrite list_lookup_alter_ne]. congruence.
Qed.

Lemma find_inserted t e i : table_ok t -> find (ev_event_id e) t = None ->
  find i (insert e t).2 = if decide (i = ev_event_id e) then Some e else find i t.
Proof.
  intros Hok Hnew. pose proof (insert_ok e t Hok) as Hok'.
  assert (existsb (fun x => ev_event_id x =s ev_event_id e) (rows t) = false) as Hadd.
  { apply not_true_iff_false. intros (x & Hx & Hid)%existsb_exists. breflect. apply list_elem_of_In in Hx.
    assert (find (ev_event_id e) t = Some x) by (by apply (find_spec t Hok)). congruence. }
  apply option_eq. intros x. rewrite (find_spec _ Hok'), insert_rows by done. unfold add_row. rewrite Hadd.
  rewrite elem_of_app, list_elem_of_singleton. destruct (decide (i = ev_event_id e)) as [->|Hne].
  - split; [intros [[Hx| ->] Hid]; [|done]|intros [= <-]; auto].
    assert (find (ev_event_id e) t = Some x) by (by apply (find_spec t Hok)). congruence.
  - rewrite (find_spec t Hok). naive_solver.
Qed.

(** * The machine of redactions *)

(** A text that is the canonical JSON of a redacted event. *)
Definition redacted_text (policy : RoomVersionPolicy) (text : string) : Prop :=
  exists v redacted, redact_event v policy = Redacted redacted /\ serialize_canonical redacted = SOk text.

(** The redaction [r] is held, not refused, and by the room's version names the
    held event [t] of the same room, which it may redact: [output] is what is
    then left of [t]. *)
Inductive redacts (s : PersistentStore) (r t : PersistentEvent) (output : string) : Prop :=
  | redacts_intro policy redaction target redacted :
      find (ev_event_id r) (events s) = Some r ->
      ev_status r <> "rejected" -> ev_status r <> "soft_failed" ->
      policy_of s (ev_room_id r) = Some policy -> parse_event (ev_json r) = Some redaction ->
      redaction_target redaction policy = Some (ev_event_id t) ->
      find (ev_event_id t) (events s) = Some t -> ev_room_id t = ev_room_id r ->
      parse_event (ev_json t) = Some target ->
      judge_redaction redaction target (context_of s redaction (ev_room_id r)) policy = applies ->
      redact_event target policy = Redacted redacted -> serialize_canonical redacted = SOk output ->
      redacts s r t output.

Lemma find_own_id t id e : table_ok t -> find id t = Some e -> ev_event_id e = id.
Proof. intros Hok Hf. by apply (find_spec t Hok) in Hf as [_ ?]. Qed.

Lemma application_iff s id t output : table_ok (events s) ->
  application s id = Some (t, output) <-> exists r, ev_event_id r = id /\ redacts s r t output.
Proof.
  intros Hok. unfold application. split.
  - destruct (find id (events s)) as [r|] eqn:Er; simpl; [|done]. pose proof (find_own_id _ _ _ Hok Er) as Hid.
    destruct (ev_status r =s "rejected") eqn:E1; [done|]. destruct (ev_status r =s "soft_failed") eqn:E2; [done|]. simpl.
    destruct (policy_of s (ev_room_id r)) as [policy|] eqn:Ep; simpl; [|done].
    destruct (parse_event (ev_json r)) as [redaction|] eqn:Ej; simpl; [|done].
    destruct (redaction_target redaction policy) as [tid|] eqn:Et; simpl; [|done].
    destruct (find tid (events s)) as [t'|] eqn:Ef; simpl; [|done]. pose proof (find_own_id _ _ _ Hok Ef) as Htid.
    destruct (ev_room_id t' =s ev_room_id r) eqn:E3; simpl; [|done].
    destruct (parse_event (ev_json t')) as [target|] eqn:Ej'; simpl; [|done].
    destruct (bool_decide _) eqn:E4; simpl; [|done]. apply bool_decide_eq_true in E4.
    destruct (redact_event target policy) as [redacted|] eqn:E5; [|done].
    destruct (serialize_canonical redacted) as [text|] eqn:E6; [|done]. intros [= -> ->]. breflect.
    exists r. split; [done|]. subst. by econstructor.
  - intros (r & <- & [policy redaction target redacted Hr Hs1 Hs2 Hp Hj Ht Hf Hroom Hj' Hjudge Hred Hser]).
    rewrite Hr. simpl. rewrite (proj2 (string_eqb_false _ _) Hs1), (proj2 (string_eqb_false _ _) Hs2). simpl.
    rewrite Hp. simpl. rewrite Hj. simpl. rewrite Ht. simpl. rewrite Hf. simpl. rewrite Hroom, String.eqb_refl. simpl.
    rewrite Hj'. simpl. rewrite (bool_decide_eq_true_2 _ Hjudge). simpl. by rewrite Hred, Hser.
Qed.

(** One redaction takes effect: the target's JSON is what the redaction leaves of
    it, the redaction is no longer withheld, nothing else changes. *)
Inductive redaction_step (id : string) (s s' : PersistentStore) : Prop :=
  | redaction_step_intro r t output :
      ev_event_id r = id -> redaction_is_withheld (redactions s) id = true -> redacts s r t output ->
      table_ok (events s') ->
      (forall i, find i (events s') = if decide (i = ev_event_id t) then Some (set_json output t) else find i (events s)) ->
      redactions s' = mark_redaction_applied id (ev_event_id t) (redactions s) ->
      s' = with_redactions (with_events s (events s')) (redactions s') ->
      redaction_step id s s'.

Section Reconcile.
Context (persist : PersistentStore -> string -> string -> bool).

Lemma set_same_json e : set_json (ev_json e) e = e.
Proof. by destruct e. Qed.

Lemma reconcile_applies id s t output : table_ok (events s) -> redaction_is_withheld (redactions s) id = true ->
  application s id = Some (t, output) -> output = ev_json t \/ persist s (ev_event_id t) output = true ->
  redaction_step id s (reconcile_redaction persist id s).
Proof.
  intros Hok Hw Ha Hp. pose proof (proj1 (application_iff s id t output Hok) Ha) as (r & Hid & Hr).
  pose proof Hr as [policy redaction target redacted _ _ _ _ _ _ Hf _ _ _ _ _].
  unfold reconcile_redaction. rewrite Hw. simpl. rewrite Ha. destruct (output =s ev_json t) eqn:Eo; simpl; breflect.
  - econstructor; simpl; [exact Hid|exact Hw|exact Hr|done| |done|by destruct s].
    intros i. destruct (decide (i = ev_event_id t)) as [->|]; [|done]. by rewrite Hf, Eo, set_same_json.
  - destruct Hp as [->|Hp]; [done|]. unfold replace_event_json.
    destruct (by_id (events s) !! ev_event_id t) as [p|] eqn:Epos.
    + rewrite Hp. simpl. econstructor; simpl; [exact Hid|exact Hw|exact Hr| | |done|by destruct s].
      * apply modify_ok; [apply set_json_in_order|done].
      * intros i. by apply find_modified.
    + exfalso. unfold find in Hf. by rewrite Epos in Hf.
Qed.

Lemma reconcile_cases id s : table_ok (events s) ->
  reconcile_redaction persist id s = s \/ redaction_step id s (reconcile_redaction persist id s).
Proof.
  intros Hok. destruct (redaction_is_withheld (redactions s) id) eqn:Ew; [|left; unfold reconcile_redaction; by rewrite Ew].
  destruct (application s id) as [[t output]|] eqn:Ea; [|left; unfold reconcile_redaction; by rewrite Ew, Ea].
  destruct (decide (output = ev_json t)) as [He|He]; [right; eapply reconcile_applies; eauto|].
  destruct (persist s (ev_event_id t) output) eqn:Ep; [right; eapply reconcile_applies; eauto|].
  left. unfold reconcile_redaction. rewrite Ew, Ea. simpl. rewrite (proj2 (string_eqb_false _ _) He). simpl.
  unfold replace_event_json. destruct (by_id _ !! _); [|done]. by rewrite Ep.
Qed.

Definition some_redaction (ids : list string) (s s' : PersistentStore) : Prop := exists id, id ∈ ids /\ redaction_step id s s'.

Lemma step_table_ok id s s' : redaction_step id s s' -> table_ok (events s').
Proof. by intros []. Qed.

Lemma steps_table_ok ids s s' : rtc (some_redaction ids) s s' -> table_ok (events s) -> table_ok (events s').
Proof. induction 1 as [|s s1 s' (id & _ & Hs) _ IH]; [done|]. intros _. apply IH. by eapply step_table_ok. Qed.

Lemma reconcile_steps ids : forall s, table_ok (events s) ->
  rtc (some_redaction ids) s (foldl (fun s id => reconcile_redaction persist id s) s ids).
Proof.
  enough (forall all s, ids ⊆ all -> table_ok (events s) ->
    rtc (some_redaction all) s (foldl (fun s id => reconcile_redaction persist id s) s ids)) by eauto.
  intros all. induction ids as [|id ids IH]; intros s Hsub Hok; simpl; [reflexivity|].
  destruct (reconcile_cases id s Hok) as [->|Hs]; [apply IH; [set_solver|done]|].
  eapply rtc_l; [exists id; split; [set_solver|exact Hs]|]. apply IH; [set_solver|by eapply step_table_ok].
Qed.

Lemma some_redaction_mono ids ids' s s' : ids ⊆ ids' -> rtc (some_redaction ids) s s' -> rtc (some_redaction ids') s s'.
Proof. intros Hsub. apply rtc_subrel. intros a b (id & Hid & Hs). exists id. auto. Qed.

Lemma reconcile_event_steps id s : table_ok (events s) ->
  rtc (some_redaction (id :: redactions_naming (redactions s) id)) s (reconcile_redactions_for_event persist id s).
Proof.
  intros Hok. unfold reconcile_redactions_for_event.
  assert (redactions_naming (redactions (reconcile_redaction persist id s)) id = redactions_naming (redactions s) id) as Hn
    by (destruct (reconcile_cases id s Hok) as [->|[r t output _ _ _ _ _ -> _]]; done).
  rewrite Hn. pose proof (reconcile_steps [id] s Hok) as H1. simpl in H1.
  etrans; [eapply some_redaction_mono; [|exact H1]; set_solver|].
  eapply some_redaction_mono; [|apply reconcile_steps; by eapply steps_table_ok]. set_solver.
Qed.

(** * What every reachable store guarantees *)

Inductive service_step : PersistentStore -> PersistentStore -> Prop :=
  | serve_store s s' : store_step (reconcile_redactions_for_event persist) s s' -> service_step s s'
  | serve_event commit e s : service_step s (store_event persist commit e s).2
  | serve_all iterate s : service_step s (reconcile_all_redactions persist iterate s).2.

Record honoured (s : PersistentStore) : Prop := {
  h_table : table_ok (events s);
  h_store : store_ok s;
  h_withheld : forall r, r ∈ withheld (redactions s) -> is_Some (find r (events s));
  h_rows : forall target ids r, by_target (redactions s) !! target = Some ids -> r ∈ ids -> is_Some (find r (events s));
  h_applied : forall t r, applied_by_target (redactions s) !! t = Some r ->
    exists row policy, find t (events s) = Some row /\ redacted_text policy (ev_json row);
  h_shown : forall target ids r, by_target (redactions s) !! target = Some ids -> r ∈ ids -> r ∉ withheld (redactions s) ->
    exists t rr rt, find r (events s) = Some rr /\ find t (events s) = Some rt /\ ev_room_id rr = ev_room_id rt
      /\ is_Some (applied_by_target (redactions s) !! t)
}.

Lemma redacts_text s r t output : redacts s r t output -> exists policy, redacted_text policy output.
Proof. intros [policy redaction target redacted]. exists policy, target, redacted. done. Qed.

Lemma step_honoured id s s' : redaction_step id s s' -> honoured s -> honoured s'.
Proof.
  intros [r t output Hid Hw Hr Hok Hf Hrd Hrest] [_ Hstore Hheld Hrows Happ Hshown].
  subst id. pose proof Hr as [_ _ _ _ Hfr _ _ _ _ _ Hft Hroom _ _ _ _].
  assert (forall i row, find i (events s) = Some row -> exists row', find i (events s') = Some row' /\ ev_room_id row' = ev_room_id row)
    as Hkeep.
  { intros i row Hrow. rewrite Hf. destruct (decide (i = ev_event_id t)) as [->|]; [|eauto].
    rewrite Hft in Hrow. simplify_eq. eauto. }
  split; [done| | | | |].
  - rewrite Hrest. by destruct Hstore.
  - intros r' Hr'. rewrite Hrd in Hr'. simpl in Hr'. destruct (Hheld r') as [row Hrow]; [set_solver|].
    destruct (Hkeep r' row Hrow) as (row' & Hrow' & _). eauto.
  - intros target ids r' Hb Hin. rewrite Hrd in Hb. destruct (Hrows target ids r' Hb Hin) as [row Hrow].
    destruct (Hkeep r' row Hrow) as (row' & Hrow' & _). eauto.
  - intros t' r' Ht'. rewrite Hf. rewrite Hrd in Ht'. simpl in Ht'. destruct (decide (t' = ev_event_id t)) as [->|Hne].
    + destruct (redacts_text _ _ _ _ Hr) as [policy Hp]. eauto.
    + unfold emplace in Ht'. destruct (applied_by_target (redactions s) !! ev_event_id t); [by eapply Happ|].
      rewrite lookup_insert_ne in Ht' by done. by eapply Happ.
  - intros target ids r' Hb Hin Hnw. rewrite Hrd in Hb, Hnw |- *. simpl in *.
    assert (forall x, is_Some (applied_by_target (redactions s) !! x) \/ x = ev_event_id t ->
      is_Some (emplace (ev_event_id t) (ev_event_id r) (applied_by_target (redactions s)) !! x)) as Hemp.
    { unfold emplace. intros x Hx. destruct (applied_by_target (redactions s) !! ev_event_id t) eqn:E.
      - destruct Hx as [Hx| ->]; [done|]. by rewrite E.
      - destruct (decide (x = ev_event_id t)) as [->|]; [by rewrite lookup_insert_eq|].
        rewrite lookup_insert_ne by done. naive_solver. }
    destruct (decide (r' = ev_event_id r)) as [->|Hne].
    + destruct (Hkeep _ _ Hfr) as (rr & Hrr & Hroomr), (Hkeep _ _ Hft) as (rt & Hrt & Hroomt).
      exists (ev_event_id t), rr, rt. repeat split; [done|done|congruence|]. apply Hemp. by right.
    + destruct (Hshown target ids r' Hb Hin) as (t' & rr & rt & Hfr' & Hft' & Hroom' & Happl); [set_solver|].
      destruct (Hkeep _ _ Hfr') as (rr' & Hrr & Hroomr), (Hkeep _ _ Hft') as (rt' & Hrt & Hroomt).
      exists t', rr', rt'. repeat split; [done|done|congruence|]. apply Hemp. by left.
Qed.

Lemma steps_honoured ids s s' : rtc (some_redaction ids) s s' -> honoured s -> honoured s'.
Proof. induction 1 as [|a b c (id & _ & Hs) _ IH]; [done|]. intros Ha. apply IH. by eapply step_honoured. Qed.

Lemma noted_ids e rd target ids r : by_target (note_event_for_redactions e rd) !! target = Some ids -> r ∈ ids ->
  (exists ids0, by_target rd !! target = Some ids0 /\ r ∈ ids0)
  \/ (r = ev_event_id e /\ r ∈ withheld (note_event_for_redactions e rd)).
Proof.
  unfold note_event_for_redactions. destruct (is_redaction _); simpl; [|eauto]. generalize (targets (redaction_shape_of (ev_json e))).
  generalize (by_target rd). intros m ts. revert m. induction ts as [|x ts IH]; intros m; simpl; [eauto|].
  intros Hl Hin. destruct (IH _ Hl Hin) as [(ids0 & Hids & Hin0)|[-> Hw]]; [|right; set_solver].
  destruct (decide (target = x)) as [->|Hne].
  - rewrite lookup_insert_eq in Hids. simplify_eq. destruct (m !! x) as [old|] eqn:Ex; simpl in Hin0.
    + destruct (bool_decide _); [eauto|]. apply elem_of_app in Hin0 as [?| ->%list_elem_of_singleton]; [eauto|]. right. set_solver.
    + assert (r = ev_event_id e) as -> by (revert Hin0; case_bool_decide; set_solver). right. set_solver.
  - rewrite lookup_insert_ne in Hids by done. eauto.
Qed.

Lemma noted_withheld e rd r : r ∈ withheld rd -> r ∈ withheld (note_event_for_redactions e rd).
Proof. unfold note_event_for_redactions. destruct (is_redaction _); simpl; set_solver. Qed.

Lemma noted_applied e rd : applied_by_target (note_event_for_redactions e rd) = applied_by_target rd.
Proof. unfold note_event_for_redactions. by destruct (is_redaction _). Qed.

Lemma not_contained i t : contains i t = false -> find i t = None.
Proof. unfold contains, find. by destruct (by_id t !! i). Qed.

Lemma mirror_honoured e s : contains (ev_event_id e) (events s) = false -> honoured s -> honoured (mirror_event e s).
Proof.
  intros Hnew%not_contained [Hok Hstore Hheld Hrows Happ Hshown].
  assert (forall i row, find i (events s) = Some row -> find i (events (mirror_event e s)) = Some row) as Hkeep.
  { intros i row Hrow. simpl. rewrite find_inserted by done. destruct (decide _) as [->|]; [congruence|done]. }
  split; simpl.
  - by apply insert_ok.
  - by destruct Hstore.
  - intros r Hr. assert (r ∈ withheld (redactions s) \/ r = ev_event_id e) as [Hr'| ->]
      by (revert Hr; unfold note_event_for_redactions; destruct (is_redaction _); simpl; set_solver).
    + destruct (Hheld r Hr') as [row Hrow]. exists row. by apply Hkeep.
    + rewrite find_inserted by done. rewrite decide_True by done. eauto.
  - intros target ids r Hb Hin. destruct (noted_ids _ _ _ _ _ Hb Hin) as [(ids0 & Hb0 & Hin0)|[-> _]].
    + destruct (Hrows _ _ _ Hb0 Hin0) as [row Hrow]. exists row. by apply Hkeep.
    + rewrite find_inserted by done. rewrite decide_True by done. eauto.
  - intros t r Ht. rewrite noted_applied in Ht. destruct (Happ t r Ht) as (row & policy & Hrow & Hp). exists row, policy.
    split; [by apply Hkeep|done].
  - intros target ids r Hb Hin Hnw. rewrite noted_applied. destruct (noted_ids _ _ _ _ _ Hb Hin) as [(ids0 & Hb0 & Hin0)|[_ ?]]; [|done].
    destruct (Hshown target ids0 r Hb0 Hin0) as (t & rr & rt & Hr & Ht & Hroom & Ha).
    { intros Hw. apply Hnw. by apply noted_withheld. }
    exists t, rr, rt. auto.
Qed.

(** Steps that leave the events and the redactions alone. *)
Lemma frame_honoured s s' : events s' = events s -> redactions s' = redactions s -> store_ok s' -> honoured s -> honoured s'.
Proof. intros He Hr Hok [Ht _ H0' H1 H2 H3]. split; rewrite ?He, ?Hr; done. Qed.

Lemma reconcile_honoured id s : honoured s -> honoured (reconcile_redactions_for_event persist id s).
Proof. intros Hs. eapply steps_honoured; [apply reconcile_event_steps|done]. by destruct Hs. Qed.

Lemma reconcile_all_honoured iterate s : honoured s -> honoured (reconcile_all_redactions persist iterate s).2.
Proof.
  unfold reconcile_all_redactions. generalize (iterate (withheld (redactions s))), O. intros ids. revert s.
  induction ids as [|id ids IH]; intros s n Hs; simpl; [done|]. apply IH.
  destruct (reconcile_cases id s) as [->|Hstep]; [by destruct Hs|done|by eapply step_honoured].
Qed.

(** A stored event keeps everything but its JSON, which changes only to the text
    of a redacted event. *)
Definition evolves (s s' : PersistentStore) : Prop := forall id e, find id (events s) = Some e ->
  exists json, find id (events s') = Some (set_json json e) /\ (json = ev_json e \/ exists policy, redacted_text policy json).

Lemma evolves_refl s : evolves s s.
Proof. intros id e He. exists (ev_json e). rewrite set_same_json. auto. Qed.

Lemma evolves_trans a b c : evolves a b -> evolves b c -> evolves a c.
Proof.
  intros Hab Hbc id e He. destruct (Hab id e He) as (j & Hj & Hj'), (Hbc id _ Hj) as (k & Hk & Hk').
  exists k. split; [exact Hk|]. simpl in Hk'. naive_solver.
Qed.

Lemma evolves_events s s' : events s' = events s -> evolves s s'.
Proof. intros He. pose proof (evolves_refl s) as Hr. unfold evolves in *. by rewrite He. Qed.

Lemma mirror_evolves e s : table_ok (events s) -> contains (ev_event_id e) (events s) = false -> evolves s (mirror_event e s).
Proof.
  intros Hok Hnew%not_contained id x Hx. exists (ev_json x). split; [|by left]. rewrite set_same_json. simpl.
  rewrite find_inserted by done. destruct (decide _) as [->|]; [congruence|done].
Qed.

Lemma step_evolves id s s' : redaction_step id s s' -> evolves s s'.
Proof.
  intros [r t output _ _ Hr _ Hf _ _] i e He. pose proof Hr as [_ _ _ _ _ _ _ _ _ _ Hft _ _ _ _ _]. rewrite Hf.
  destruct (decide (i = ev_event_id t)) as [->|]; [|exists (ev_json e); rewrite set_same_json; auto].
  rewrite Hft in He. simplify_eq. exists output. split; [done|]. right. by eapply redacts_text.
Qed.

Lemma steps_evolve ids s s' : rtc (some_redaction ids) s s' -> evolves s s'.
Proof.
  induction 1 as [|a b c (id & _ & Hs) _ IH]; [apply evolves_refl|]. eapply evolves_trans; [by eapply step_evolves|done].
Qed.

Lemma reconcile_all_evolves iterate s : table_ok (events s) -> evolves s (reconcile_all_redactions persist iterate s).2.
Proof.
  unfold reconcile_all_redactions. generalize (iterate (withheld (redactions s))), O. intros ids. revert s.
  induction ids as [|id ids IH]; intros s n Hs; simpl; [apply evolves_refl|].
  destruct (reconcile_cases id s Hs) as [->|Hstep]; [by apply IH|].
  eapply evolves_trans; [by eapply step_evolves|]. apply IH. by eapply step_table_ok.
Qed.

Lemma stored_event_honoured u s : contains (ev_event_id (pu_event u)) (events s) = false -> honoured s ->
  let s' := apply_store_event_with_state no_observer u s in honoured s' /\ evolves s s'.
Proof.
  intros Hnew Hs s'. assert (events s' = events (mirror_event (pu_event u) s) /\ redactions s' = redactions (mirror_event (pu_event u) s))
    as [He Hr].
  { subst s'. unfold apply_store_event_with_state. rewrite Hnew. by destruct (pu_state u), (pu_membership u). }
  split.
  - eapply frame_honoured; [exact He|exact Hr| |by apply mirror_honoured].
    apply (store_step_ok no_observer s); [by intros ? ?|by apply step_event|by destruct Hs].
  - eapply evolves_trans; [apply mirror_evolves; [by destruct Hs|done]|by apply evolves_events].
Qed.

Lemma service_step_honoured s s' : service_step s s' -> honoured s -> honoured s' /\ evolves s s'.
Proof.
  intros Hstep Hs. pose proof (h_table s Hs) as Hok. destruct Hstep as [s s' Hst|commit e s|iterate s].
  - destruct Hst as [st prev s|u s|room p s|rows trs mbs s].
    + split; [|by apply evolves_events]. apply (frame_honoured s); [done|done| |done].
      apply (store_step_ok no_observer s); [by intros ? ?|by apply step_current|by destruct Hs].
    + destruct (contains (ev_event_id (pu_event u)) (events s)) eqn:Ec.
      * unfold apply_store_event_with_state. rewrite Ec. split; [done|apply evolves_refl].
      * destruct (stored_event_honoured u s Ec Hs) as [Hs' He].
        assert (apply_store_event_with_state (reconcile_redactions_for_event persist) u s =
          reconcile_redactions_for_event persist (ev_event_id (pu_event u)) (apply_store_event_with_state no_observer u s)) as ->
          by (unfold apply_store_event_with_state; by rewrite Ec).
        split; [by apply reconcile_honoured|]. eapply evolves_trans; [exact He|]. eapply steps_evolve, reconcile_event_steps.
        by destruct Hs'.
    + split; [|by apply evolves_events]. apply (frame_honoured s); [done|done| |done].
      apply (store_step_ok no_observer s); [by intros ? ?|by apply step_projection|by destruct Hs].
    + split; [|by apply evolves_events]. apply (frame_honoured s); [done|done| |done].
      apply (store_step_ok no_observer s); [by intros ? ?|by apply step_reload|by destruct Hs].
  - unfold store_event. destruct (contains _ _) eqn:Ec; [split; [done|apply evolves_refl]|].
    destruct (commit s e); simpl; [|split; [done|apply evolves_refl]]. pose proof (mirror_honoured e s Ec Hs) as Hm.
    split; [by apply reconcile_honoured|]. eapply evolves_trans; [by apply mirror_evolves|].
    eapply steps_evolve, reconcile_event_steps. by destruct Hm.
  - split; [by apply reconcile_all_honoured|by apply reconcile_all_evolves].
Qed.

Lemma empty_store_honoured : honoured empty_store.
Proof. split; [apply empty_table_ok|apply empty_store_ok|done..]. Qed.

Lemma service_honoured s s' : rtc service_step s s' -> honoured s -> honoured s' /\ evolves s s'.
Proof.
  induction 1 as [s|a b c Hs _ IH]; intros Ha; [split; [done|apply evolves_refl]|].
  destruct (service_step_honoured a b Hs Ha) as [Hb Hab]. destruct (IH Hb) as [Hc Hbc].
  split; [done|]. by eapply evolves_trans.
Qed.

(** C10. In every store the server builds by storing events with the reconciler
    installed, updating room state and reconciling all redactions, whatever the
    database refuses: an event whose redaction was applied holds the JSON of a
    redacted event; a redaction that names an event is withheld from clients
    unless an event of its own room has been redacted; the state, transition and
    membership indexes stay exact; and from then on a stored event keeps its
    identity, room, sender, position and status, and its JSON changes only to
    that of a redacted event. *)
Theorem redactions_are_honoured s s' : rtc service_step empty_store s -> rtc service_step s s' ->
  (forall t r, applied_redaction_of (redactions s) t = Some r ->
     exists row policy, find t (events s) = Some row /\ redacted_text policy (ev_json row))
  /\ (forall target r, r ∈ redactions_naming (redactions s) target ->
       redaction_is_withheld (redactions s) r = false ->
       exists t rr rt, find r (events s) = Some rr /\ find t (events s) = Some rt /\ ev_room_id rr = ev_room_id rt
         /\ is_Some (applied_redaction_of (redactions s) t))
  /\ store_ok s /\ evolves s s'.
Proof.
  intros Hs Hs'. destruct (service_honoured _ _ Hs empty_store_honoured) as [Hh _].
  destruct (service_honoured _ _ Hs' Hh) as [_ He]. destruct Hh as [_ Hok _ _ Happ Hshown].
  split; [exact Happ|]. split; [|by split]. intros target r Hr Hw. unfold redactions_naming in Hr.
  destruct (by_target (redactions s) !! target) as [ids|] eqn:Eb; simpl in Hr; [|by apply not_elem_of_nil in Hr].
  apply (Hshown target ids r Eb Hr). by apply bool_decide_eq_false in Hw.
Qed.
End Reconcile.
End Flow.
