(* ===== verification/RedactionOrder.v ===== *)
(** The order in which an event and its redaction arrive does not matter, and a
    redaction a local user may send takes effect when it is stored. *)
From S2P Require Import Prelude CppStd JsonValue JsonSerializer JsonParser RoomVersion Signing JsonCanonical EventAuth EventShape Redaction EventId RedactionSafety EventTable EventTableInv EventTableAdd EventTableErase EventTableSpec StateTables Store StoreLookup RedactionService RedactionFlow.
Open Scope Z_scope.

(** * A redacted event can be written *)

Section Writable.
Context `{Libc}.

Lemma lossy_of_strict v out : serialize_canonical_strict v = SOk out -> serialize_canonical v = SOk out.
Proof.
  revert out. unfold serialize_canonical, serialize_canonical_strict.
  induction v as [| | | | |l IH|o IH|] using Value_nested_ind; intros out; simpl; try done.
  - unfold serialize_array. destruct (serialize_items (serialize_value true) l) as [outs|] eqn:E; [|done].
    apply serialize_items_ok in E. intros <-.
    assert (serialize_items (serialize_value false) l = inl outs) as ->; [|done]. apply serialize_items_ok.
    clear out. induction E as [|v l out outs Hv _ IHl]; [constructor|]. inversion_clear IH as [|? ? Hv' Hl'].
    constructor; [by apply Hv'|by apply IHl].
  - unfold serialize_object. destruct (object_has_duplicate_keys o); [done|].
    destruct (serialize_members (serialize_value true) o) as [ms|] eqn:E; [|done]. apply serialize_members_ok in E. intros <-.
    assert (serialize_members (serialize_value false) o = inl ms) as ->; [|done]. apply serialize_members_ok.
    clear out. induction E as [|m o r ms (Hk & Hv & Hm) _ IHo]; [constructor|]. inversion_clear IH as [|? ? Hm' Ho'].
    constructor; [split; [done|]; split; [done|]; by apply Hm'|by apply IHo].
Qed.

(** Either mode of the serializer writes it. *)
Context (reject_floats : bool).

Definition writable (v : Value) : Prop := exists out, serialize_value reject_floats v = SOk out.

Lemma writable_object o : writable (VObject o) <->
  NoDup (object_keys o) /\ Forall (fun m => string_is_valid_for_json m.1 = true /\ writable m.2) o.
Proof.
  unfold writable. change (serialize_value reject_floats (VObject o)) with (serialize_object (serialize_value reject_floats) o).
  unfold serialize_object. split.
  - intros [out Hout]. destruct (object_has_duplicate_keys o) eqn:Ed; [done|]. apply no_duplicate_keys in Ed. split; [done|].
    destruct (serialize_members _ o) as [ms|] eqn:E; [|done]. apply serialize_members_ok in E.
    clear Hout Ed. induction E as [|m r o ms (_ & Hv & Hm) _ IH]; constructor; eauto.
  - intros [Hd Ho]. apply no_duplicate_keys in Hd. rewrite Hd.
    assert (exists ms, Forall2 (member_out (serialize_value reject_floats)) o ms) as [ms Hms].
    { clear Hd. induction Ho as [|m o [Hv [out Hm]] _ [ms IH]]; [by exists []; constructor|].
      exists ((m.1, out) :: ms). by constructor. }
    apply serialize_members_ok in Hms. rewrite Hms. eauto.
Qed.

Lemma writable_empty : writable (VObject []).
Proof. apply writable_object. split; constructor. Qed.

Lemma redact_third_party_invite_writable v : writable v -> writable (redact_third_party_invite v).
Proof.
  unfold redact_third_party_invite. destruct v as [| | | | | |o|]; simpl; try (intros _; apply writable_empty).
  intros [_ Ho]%writable_object. destruct (object_member o "signed") as [w|] eqn:E; [|apply writable_empty].
  apply writable_object. split; [apply (NoDup_singleton "signed")|]. constructor; [|constructor].
  apply object_member_In in E. rewrite Forall_forall in Ho. apply Ho in E. by destruct E.
Qed.

Lemma redact_content_writable v t p : writable v -> writable (redact_content v t p).
Proof.
  unfold redact_content. destruct v as [| | | | | |o|]; simpl; try (intros _; apply writable_empty).
  rewrite !writable_object. intros [Hd Ho]. split.
  - unfold object_keys in *. rewrite <- list_fmap_compose.
    assert (((fst ∘ redact_content_member) <$> List.filter (fun m => content_key_allowed t m.1 p) o) =
            (List.filter (fun m => content_key_allowed t m.1 p) o).*1) as ->.
    { apply list_fmap_ext. intros i [k w] _. unfold redact_content_member. simpl. by destruct (k =s "third_party_invite"). }
    clear Ho. induction o as [|m o IH]; simpl; [constructor|]. inversion Hd as [|? ? Hm Ho]; subst. specialize (IH Ho).
    destruct (content_key_allowed t m.1 p); [|done]. simpl. constructor; [|done].
    intros (x & Hx & Hin)%list_elem_of_fmap. apply Hm. apply list_elem_of_fmap. exists x. split; [done|].
    apply list_elem_of_In, filter_In in Hin as [Hin _]. by apply list_elem_of_In.
  - apply Forall_fmap. apply Forall_forall. intros m Hm. apply list_elem_of_In, filter_In in Hm as [Hm _].
    apply list_elem_of_In in Hm. rewrite Forall_forall in Ho. destruct (Ho m Hm) as [Hk Hv]. unfold redact_content_member. simpl.
    destruct (m.1 =s "third_party_invite"); [|done]. split; [done|]. by apply redact_third_party_invite_writable.
Qed.

Lemma redact_event_writable v p redacted : writable v -> redact_event v p = Redacted redacted -> writable redacted.
Proof.
  unfold redact_event. destruct v as [| | | | | |o|]; simpl; try done. intros Hw [= <-]. revert Hw. rewrite !writable_object.
  intros [Hd Ho]. generalize (string_member o "type"). intros t. unfold object_keys in *. split.
  - clear Ho. induction o as [|m o IH]; simpl; [constructor|]. inversion Hd as [|? ? Hm Ho]; subst. specialize (IH Ho).
    destruct (redact_member t p m) as [m'|] eqn:E; [|done]. simpl. apply redact_member_key in E. rewrite E.
    constructor; [|done]. intros (x & Hx & Hin)%list_elem_of_fmap. apply Hm.
    apply list_elem_of_omap in Hin as (y & Hy & E'). apply redact_member_key in E'.
    apply list_elem_of_fmap. exists y. split; [congruence|done].
  - apply Forall_forall. intros m' (m & Hm & E)%list_elem_of_omap. rewrite Forall_forall in Ho. destruct (Ho m Hm) as [Hk Hv].
    revert E. unfold redact_member. destruct (_ && _); [done|]. destruct (key_is_allowed _ _); [|done].
    destruct t as [t|]; [|by intros [= <-]]. destruct (m.1 =s "content"); [|by intros [= <-]]. intros [= <-].
    split; [done|]. by apply redact_content_writable.
Qed.
End Writable.

(** * Stores that answer alike *)

Section Order.
Context `{Yyjson} `{Libc}.

Record store_equiv (a b : PersistentStore) : Prop := {
  eq_find : forall id, find id (events a) = find id (events b);
  eq_redactions : redactions a = redactions b;
  eq_current : current a = current b
}.

#[local] Instance store_equiv_equivalence : Equivalence store_equiv.
Proof.
  split.
  - by intros s.
  - intros a b [H1 H2 H3]. by split.
  - intros a b c [H1 H2 H3] [H4 H5 H6]. split; [intros id; by rewrite H1|congruence|congruence].
Qed.

#[local] Instance policy_of_proper : Proper (store_equiv ==> eq ==> eq) policy_of.
Proof.
  intros a b Hab ? room ->. unfold policy_of, stored_room_version_policy, stored_room_version. rewrite (eq_current a b Hab).
  destruct (find_current_state_event_id _ _ _ _) as [id|]; [|done]. by rewrite (eq_find a b Hab).
Qed.

#[local] Instance first_power_levels_proper : Proper (store_equiv ==> eq ==> eq) first_power_levels.
Proof.
  intros a b Hab ? ids ->. induction ids as [|id ids IH]; simpl; [done|].
  assert (match id with VString text => find text (events a) | _ => None end =
          match id with VString text => find text (events b) | _ => None end) as ->
    by (destruct id; try done; by rewrite (eq_find a b Hab)).
  by rewrite IH.
Qed.

#[local] Instance context_of_proper : Proper (store_equiv ==> eq ==> eq ==> eq) context_of.
Proof.
  intros a b Hab ? v -> ? room ->. unfold context_of, create_event_of. rewrite (eq_current a b Hab). f_equal.
  - destruct (member_of v "auth_events") as [[]|]; try done. by rewrite Hab.
  - destruct (scan_state _ _ _ _); simpl; [|done]. by rewrite (eq_find a b Hab).
Qed.

#[local] Instance application_proper : Proper (store_equiv ==> eq ==> eq) application.
Proof.
  intros a b Hab ? id ->. unfold application. rewrite (eq_find a b Hab). destruct (find id (events b)) as [r|]; simpl; [|done].
  destruct (_ || _); [done|]. rewrite Hab. destruct (policy_of b _) as [policy|]; simpl; [|done].
  destruct (parse_event (ev_json r)) as [redaction|]; simpl; [|done].
  destruct (redaction_target redaction policy) as [tid|]; simpl; [|done]. rewrite (eq_find a b Hab).
  destruct (find tid (events b)) as [t|]; simpl; [|done].
  by rewrite (context_of_proper a b Hab redaction redaction eq_refl _ _ eq_refl).
Qed.

(** The database takes every write. *)
Context (persist : PersistentStore -> string -> string -> bool) (commit : PersistentStore -> PersistentEvent -> bool).
Hypothesis persists : forall s id json, persist s id json = true.
Hypothesis commits : forall s e, commit s e = true.

Lemma reconcile_applied id s t output : table_ok (events s) -> redaction_is_withheld (redactions s) id = true ->
  application s id = Some (t, output) -> let s' := reconcile_redaction persist id s in
  table_ok (events s')
  /\ (forall i, find i (events s') = if decide (i = ev_event_id t) then Some (set_json output t) else find i (events s))
  /\ redactions s' = mark_redaction_applied id (ev_event_id t) (redactions s) /\ current s' = current s.
Proof.
  intros Hok Hw Ha s'. assert (redaction_step id s s') as [r t' output' Hid _ Hr Hok' Hf Hrd Hrest].
  { eapply reconcile_applies; [done|done|exact Ha|]. right. apply persists. }
  assert (application s id = Some (t', output')) as Ha' by (apply application_iff; eauto). rewrite Ha in Ha'. simplify_eq.
  split; [done|]. split; [done|]. split; [done|]. by rewrite Hrest.
Qed.

Lemma reconcile_equiv id a b : table_ok (events a) -> table_ok (events b) -> store_equiv a b ->
  store_equiv (reconcile_redaction persist id a) (reconcile_redaction persist id b).
Proof.
  intros Ha Hb Hab. pose proof (eq_redactions a b Hab) as Hrd.
  destruct (redaction_is_withheld (redactions a) id) eqn:Ew.
  2:{ unfold reconcile_redaction. by rewrite <- Hrd, Ew. }
  destruct (application a id) as [[t output]|] eqn:Ea.
  2:{ unfold reconcile_redaction. rewrite <- Hrd, Ew, Ea. simpl. by rewrite <- Hab, Ea. }
  assert (application b id = Some (t, output)) as Eb by (by rewrite <- Hab).
  destruct (reconcile_applied id a t output Ha Ew Ea) as (_ & F1 & R1 & C1).
  destruct (reconcile_applied id b t output Hb) as (_ & F2 & R2 & C2); [by rewrite <- Hrd|done|].
  split.
  - intros i. rewrite F1, F2. destruct (decide _); [done|]. apply Hab.
  - by rewrite R1, R2, Hrd.
  - rewrite C1, C2. apply Hab.
Qed.

(** * The bookkeeping knows the target *)

Definition content_step (found : list string) (member : string * Value) : list string :=
  if member.1 =s "content" then content_target member.2 found else found.

Lemma content_step_keeps m found id : id ∈ found -> id ∈ content_step found m.
Proof.
  intros Hin. unfold content_step, content_target. destruct (m.1 =s "content"); [|done].
  destruct (_ ≫= _) as [x|]; [|done]. destruct (_ || _); [done|]. set_solver.
Qed.

Lemma content_steps_keep o found id : id ∈ found -> id ∈ foldl content_step found o.
Proof. revert found. induction o as [|m o IH]; intros found Hin; simpl; [done|]. apply IH. by apply content_step_keeps. Qed.

Lemma content_steps_find o c id found : ("content", VObject c) ∈ o -> string_member c "redacts" = Some id -> id <> EmptyString ->
  id ∈ foldl content_step found o.
Proof.
  intros Hin Hid Hne. revert found. induction o as [|m o IH]; intros found; [by apply not_elem_of_nil in Hin|].
  simpl. apply elem_of_cons in Hin as [<-|Hin]; [|by apply IH]. apply content_steps_keep. unfold content_step, content_target.
  simpl. rewrite Hid. simpl. destruct id as [|ch id]; [done|]. simpl. case_bool_decide; set_solver.
Qed.

Lemma shape_names_target json v policy id : is_redaction (redaction_shape_of json) = true -> parse_event json = Some v ->
  redaction_target v policy = Some id -> id ∈ targets (redaction_shape_of json).
Proof.
  unfold redaction_shape_of, parse_event. destruct (contains_text _ json); simpl; [|done].
  destruct (parse_lossless json) as [w|]; [|done]. destruct w as [| | | | | |o|]; try done. intros Hr [= <-].
  unfold redaction_target. simpl in *. destruct (string_member o "type") as [t|] eqn:Et; [|done].
  destruct (t =s "m.room.redaction") eqn:E; simpl; [|done]. breflect. subst t.
  change (foldl _ ?top o) with (foldl content_step top o). simpl.
  case_bool_decide; simpl.
  - destruct (object_member_as_object o "content") as [c|] eqn:Ec; simpl; [|done].
    destruct (string_member c "redacts") as [x|] eqn:Ex; [|done]. destruct (empty x) eqn:Ee; [done|]. intros [= ->].
    apply (content_steps_find o c); [|done|by intros ->].
    apply object_member_as_object_Some in Ec. by apply object_member_In.
  - destruct (string_member o "redacts") as [x|]; [|done]. destruct (empty x); [done|]. intros [= ->].
    apply content_steps_keep. by left.
Qed.

(** * Arrivals *)

Definition arrives (e : PersistentEvent) (s : PersistentStore) : PersistentStore := (store_event persist commit e s).2.

Lemma arrives_new e s : contains (ev_event_id e) (events s) = false ->
  arrives e s = reconcile_redactions_for_event persist (ev_event_id e) (mirror_event e s).
Proof. intros Hc. unfold arrives, store_event. by rewrite Hc, commits. Qed.

Lemma reconcile_unwithheld id s : redaction_is_withheld (redactions s) id = false -> reconcile_redaction persist id s = s.
Proof. intros Hw. unfold reconcile_redaction. by rewrite Hw. Qed.

Lemma reconcile_waiting id s : application s id = None -> reconcile_redaction persist id s = s.
Proof. intros Ha. unfold reconcile_redaction. destruct (redaction_is_withheld _ _); simpl; [by rewrite Ha|done]. Qed.

Lemma reconcile_naming id s i : table_ok (events s) ->
  redactions_naming (redactions (reconcile_redaction persist id s)) i = redactions_naming (redactions s) i.
Proof. intros Hok. by destruct (reconcile_cases persist id s Hok) as [->|[r t output _ _ _ _ _ -> _]]. Qed.

Lemma note_plain e rd : is_redaction (redaction_shape_of (ev_json e)) = false -> note_event_for_redactions e rd = rd.
Proof. intros Hn. unfold note_event_for_redactions. by rewrite Hn. Qed.

Lemma mirror_find e s i : table_ok (events s) -> contains (ev_event_id e) (events s) = false ->
  find i (events (mirror_event e s)) = if decide (i = ev_event_id e) then Some e else find i (events s).
Proof. intros Hok Hc%not_contained. by apply find_inserted. Qed.

Lemma not_contained_iff i t : table_ok t -> contains i t = false <-> find i t = None.
Proof.
  intros Hok. split; [apply not_contained|]. intros Hf. apply not_true_iff_false. intros (e & He & Hid)%contains_spec; [|done].
  assert (find i t = Some e) by (by apply (find_spec t Hok)). congruence.
Qed.

Section TwoEvents.
Context (s : PersistentStore) (et er : PersistentEvent).
Hypothesis s_reached : rtc (service_step persist) empty_store s.
Hypothesis et_new : contains (ev_event_id et) (events s) = false.
Hypothesis er_new : contains (ev_event_id er) (events s) = false.
Hypothesis ids_differ : ev_event_id et <> ev_event_id er.
Hypothesis et_plain : is_redaction (redaction_shape_of (ev_json et)) = false.
Hypothesis er_redacts : redaction_shape_of (ev_json er) = {| is_redaction := true; targets := [ev_event_id et] |}.
Hypothesis et_unnamed : redactions_naming (redactions s) (ev_event_id et) = [].
Hypothesis er_unnamed : redactions_naming (redactions s) (ev_event_id er) = [].

Lemma s_honoured : honoured s.
Proof. by apply (service_honoured persist empty_store), empty_store_honoured. Qed.

Lemma new_not_withheld e : contains (ev_event_id e) (events s) = false -> redaction_is_withheld (redactions s) (ev_event_id e) = false.
Proof.
  intros Hc%not_contained. apply bool_decide_eq_false. intros Hw. destruct (h_withheld s s_honoured _ Hw). congruence.
Qed.

Lemma er_noted : note_event_for_redactions er (redactions s) =
  {| by_target := <[ev_event_id et := [ev_event_id er]]> (by_target (redactions s));
     withheld := withheld (redactions s) ∪ {[ev_event_id er]};
     applied_by_target := applied_by_target (redactions s) |}.
Proof.
  unfold note_event_for_redactions. rewrite er_redacts. simpl. unfold redactions_naming in et_unnamed. by rewrite et_unnamed.
Qed.

Lemma er_mirrored_new e : ev_event_id e <> ev_event_id er -> contains (ev_event_id e) (events s) = false ->
  contains (ev_event_id e) (events (mirror_event er s)) = false.
Proof.
  intros Hne Hc. pose proof (h_table s s_honoured) as Hok. apply not_contained_iff; [by apply insert_ok|].
  rewrite mirror_find by done. rewrite decide_False by done. by apply not_contained.
Qed.

(** The event first: it is stored as it is, then the redaction is judged. *)
Lemma event_first : arrives er (arrives et s) = reconcile_redaction persist (ev_event_id er) (mirror_event er (mirror_event et s)).
Proof.
  pose proof (h_table s s_honoured) as Hok.
  assert (arrives et s = mirror_event et s) as ->.
  { rewrite arrives_new by done. unfold reconcile_redactions_for_event.
    rewrite reconcile_unwithheld by (simpl; rewrite (note_plain et) by done; by apply new_not_withheld).
    simpl. rewrite (note_plain et) by done. by rewrite et_unnamed. }
  assert (contains (ev_event_id er) (events (mirror_event et s)) = false) as Hc.
  { apply not_contained_iff; [by apply insert_ok|]. rewrite mirror_find by done. rewrite decide_False by done. by apply not_contained. }
  rewrite arrives_new by done. unfold reconcile_redactions_for_event.
  rewrite reconcile_naming by (by apply insert_ok, insert_ok). simpl. rewrite (note_plain et) by done. rewrite er_noted.
  unfold redactions_naming in *. simpl. by rewrite lookup_insert_ne, er_unnamed.
Qed.

(** The redaction first: it waits, and is judged when the event is stored. *)
Lemma redaction_first : arrives et (arrives er s) = reconcile_redaction persist (ev_event_id er) (mirror_event et (mirror_event er s)).
Proof.
  pose proof (h_table s s_honoured) as Hok. assert (table_ok (events (mirror_event er s))) as Hok1 by (by apply insert_ok).
  assert (application (mirror_event er s) (ev_event_id er) = None) as Hwait.
  { destruct (application _ _) as [[t output]|] eqn:Ea; [|done]. apply application_iff in Ea as (r & Hid & Hr); [|done].
    destruct Hr as [policy redaction target redacted Hfr _ _ _ Hj Ht Hft _ _ _ _ _].
    rewrite Hid, mirror_find, decide_True in Hfr by done. simplify_eq.
    pose proof (shape_names_target (ev_json r) redaction policy (ev_event_id t)) as Hs. rewrite er_redacts in Hs.
    specialize (Hs eq_refl Hj Ht). apply list_elem_of_singleton in Hs. rewrite Hs, mirror_find, decide_False in Hft by done.
    by rewrite not_contained in Hft. }
  assert (arrives er s = mirror_event er s) as ->.
  { rewrite arrives_new by done. unfold reconcile_redactions_for_event. rewrite reconcile_waiting by done. simpl. rewrite er_noted.
    unfold redactions_naming in *. simpl. by rewrite lookup_insert_ne, er_unnamed. }
  rewrite arrives_new by (by apply er_mirrored_new). unfold reconcile_redactions_for_event.
  rewrite reconcile_unwithheld.
  - simpl. rewrite (note_plain et) by done. rewrite er_noted. unfold redactions_naming. simpl. by rewrite lookup_insert_eq.
  - simpl. rewrite (note_plain et) by done. rewrite er_noted. apply bool_decide_eq_false. simpl.
    pose proof (new_not_withheld et et_new) as Hw. apply bool_decide_eq_false in Hw. set_solver.
Qed.

Lemma mirrors_commute : store_equiv (mirror_event er (mirror_event et s)) (mirror_event et (mirror_event er s)).
Proof.
  pose proof (h_table s s_honoured) as Hok. split; [|simpl; by rewrite !(note_plain et)|done].
  intros i. rewrite mirror_find; [|by apply insert_ok|].
  2:{ apply not_contained_iff; [by apply insert_ok|]. rewrite mirror_find, decide_False by done. by apply not_contained. }
  rewrite mirror_find by done. rewrite mirror_find; [|by apply insert_ok|by apply er_mirrored_new].
  rewrite mirror_find by done. destruct (decide (i = ev_event_id er)), (decide (i = ev_event_id et)); congruence.
Qed.
End TwoEvents.

(** C19. An event and its redaction give the same store in whichever order they
    arrive: the same event for every ID, the same redaction bookkeeping and the
    same room state. If the redaction applies once both are held, the event is
    left with its redacted JSON and the redaction is shown; if not, the event is
    untouched and the redaction stays withheld. This is for a database that takes
    every write, a store the service has reached, two events that are both new to it,
    the first no redaction itself, the second a redaction that names the first and
    nothing else, when no stored redaction names either of them. *)
Theorem redaction_order_irrelevant s et er : rtc (service_step persist) empty_store s ->
  contains (ev_event_id et) (events s) = false -> contains (ev_event_id er) (events s) = false ->
  ev_event_id et <> ev_event_id er ->
  is_redaction (redaction_shape_of (ev_json et)) = false ->
  redaction_shape_of (ev_json er) = {| is_redaction := true; targets := [ev_event_id et] |} ->
  redactions_naming (redactions s) (ev_event_id et) = [] -> redactions_naming (redactions s) (ev_event_id er) = [] ->
  let event_first := arrives er (arrives et s) in
  let redaction_first := arrives et (arrives er s) in
  store_equiv event_first redaction_first
  /\ match application (mirror_event er (mirror_event et s)) (ev_event_id er) with
     | Some (t, output) => t = et /\ find (ev_event_id et) (events event_first) = Some (set_json output et)
         /\ redaction_is_withheld (redactions event_first) (ev_event_id er) = false
     | None => find (ev_event_id et) (events event_first) = Some et
         /\ redaction_is_withheld (redactions event_first) (ev_event_id er) = true
     end.
Proof.
  intros Hs Het Her Hne Hplain Hshape Hn1 Hn2 a b. subst a b.
  rewrite (event_first s et er), (redaction_first s et er) by done.
  pose proof (h_table s (s_honoured s Hs)) as Hok. set (both := mirror_event er (mirror_event et s)).
  assert (table_ok (events both)) as Hokb by (by apply insert_ok, insert_ok).
  split; [apply reconcile_equiv; [done|by apply insert_ok, insert_ok|by apply mirrors_commute]|].
  assert (contains (ev_event_id er) (events (mirror_event et s)) = false) as Hc.
  { apply not_contained_iff; [by apply insert_ok|]. rewrite mirror_find, decide_False by done. by apply not_contained. }
  assert (find (ev_event_id et) (events both) = Some et) as Hft.
  { subst both. rewrite mirror_find; [|by apply insert_ok|done]. rewrite decide_False by done.
    rewrite mirror_find by done. by rewrite decide_True. }
  assert (redaction_is_withheld (redactions both) (ev_event_id er) = true) as Hw.
  { simpl. rewrite (note_plain et), (er_noted s et er) by done. apply bool_decide_eq_true. simpl. set_solver. }
  destruct (application both (ev_event_id er)) as [[t output]|] eqn:Ea.
  - destruct (reconcile_applied _ both t output Hokb Hw Ea) as (_ & Hf & Hrd & _).
    apply application_iff in Ea as (r & Hid & [policy redaction target redacted Hfr _ _ _ Hj Ht Hft' _ _ _ _ _]); [|done].
    assert (r = er) as ->.
    { rewrite Hid in Hfr. subst both. rewrite mirror_find in Hfr; [|by apply insert_ok|done].
      rewrite decide_True in Hfr by done. congruence. }
    pose proof (shape_names_target (ev_json er) redaction policy (ev_event_id t)) as Hsh. rewrite Hshape in Hsh.
    specialize (Hsh eq_refl Hj Ht). apply list_elem_of_singleton in Hsh. rewrite Hsh, Hft in Hft'. simplify_eq.
    split; [done|]. rewrite Hf, decide_True by done. split; [done|]. rewrite Hrd. apply bool_decide_eq_false. simpl. set_solver.
  - rewrite reconcile_waiting by done. done.
Qed.

(** * Local redactions *)

Section LocalRedaction.
Context (s : PersistentStore) (er : PersistentEvent).
Hypothesis s_ok : honoured s.
Hypothesis er_new : contains (ev_event_id er) (events s) = false.

Lemma mirror_keeps i e : find i (events s) = Some e -> find i (events (mirror_event er s)) = Some e.
Proof.
  intros Hf. rewrite mirror_find; [|by destruct s_ok|done]. destruct (decide _) as [->|]; [|done].
  apply not_contained in er_new. congruence.
Qed.

(** The room's version is known, so its create event is held. *)
Lemma policy_create_held room policy : policy_of s room = Some policy ->
  exists id e, scan_state (state (current s)) room "m.room.create" EmptyString = Some id /\ find id (events s) = Some e.
Proof.
  unfold policy_of, stored_room_version_policy, stored_room_version. rewrite find_is_scan by (by destruct s_ok as [_ []]).
  destruct (scan_state _ _ _ _) as [id|]; simpl; [|done]. destruct (find id (events s)) as [e|] eqn:Ef; simpl; [eauto|].
  by vm_compute.
Qed.

Lemma mirror_policy room policy : policy_of s room = Some policy -> policy_of (mirror_event er s) room = Some policy.
Proof.
  intros Hp. destruct (policy_create_held room policy Hp) as (id & e & Hid & Hf). revert Hp.
  unfold policy_of, stored_room_version_policy, stored_room_version. simpl current.
  rewrite find_is_scan by (by destruct s_ok as [_ []]). rewrite Hid. pose proof (mirror_keeps id e Hf) as Hm. simpl in Hm |- *. by rewrite Hf, Hm.
Qed.

Lemma mirror_first_power_levels ids : VString (ev_event_id er) ∉ ids ->
  first_power_levels (mirror_event er s) ids = first_power_levels s ids.
Proof.
  induction ids as [|id ids IH]; intros Hn; simpl; [done|]. apply not_elem_of_cons in Hn as [Hid Hn]. rewrite IH by done.
  destruct id as [| | | |text| | |]; try done. pose proof (mirror_find er s text (h_table s s_ok) er_new) as Hm. simpl in Hm.
  rewrite Hm. by rewrite decide_False by congruence.
Qed.

Lemma mirror_context redaction room policy : policy_of s room = Some policy ->
  (forall ids, member_of redaction "auth_events" = Some (VArray ids) -> VString (ev_event_id er) ∉ ids) ->
  context_of (mirror_event er s) redaction room = context_of s redaction room.
Proof.
  intros Hp Hauth. destruct (policy_create_held room policy Hp) as (id & e & Hid & Hf). unfold context_of, create_event_of.
  simpl current. rewrite Hid. pose proof (mirror_keeps id e Hf) as Hm. simpl in Hm |- *. rewrite Hf, Hm. f_equal.
  destruct (member_of redaction "auth_events") as [[]|]; try done. apply mirror_first_power_levels. by apply Hauth.
Qed.
End LocalRedaction.

Lemma steps_unwithheld ids a b r : rtc (some_redaction ids) a b -> redaction_is_withheld (redactions a) r = false ->
  redaction_is_withheld (redactions b) r = false.
Proof.
  induction 1 as [|a b c (id & _ & [r' t output _ _ _ _ _ Hrd _]) _ IH]; [done|]. intros Hw. apply IH. rewrite Hrd.
  apply bool_decide_eq_false. simpl. apply bool_decide_eq_false in Hw. set_solver.
Qed.

(** A redaction that the local check permits takes effect when it is stored:
    if the event it names is held, then after the redaction arrives it is no longer
    withheld and the event's JSON is that of a redacted event, with everything
    else of the event unchanged. *)
Theorem permitted_redactions_apply s er redaction policy target_id target sender_is_server_admin local_server_name :
  raw_reads -> rtc (service_step persist) empty_store s -> contains (ev_event_id er) (events s) = false ->
  check_local_redaction s (ev_room_id er) (ev_json er) sender_is_server_admin local_server_name = lrc_permitted ->
  ev_status er <> "rejected" -> ev_status er <> "soft_failed" ->
  is_redaction (redaction_shape_of (ev_json er)) = true ->
  policy_of s (ev_room_id er) = Some policy -> parse_event (ev_json er) = Some redaction ->
  redaction_target redaction policy = Some target_id -> find target_id (events s) = Some target ->
  (forall ids, member_of redaction "auth_events" = Some (VArray ids) -> VString (ev_event_id er) ∉ ids) ->
  redaction_is_withheld (redactions (arrives er s)) (ev_event_id er) = false
  /\ exists text policy', find target_id (events (arrives er s)) = Some (set_json text target) /\ redacted_text policy' text.
Proof.
  intros Hraw Hs Hnew Hcheck Hst1 Hst2 Hshape Hp Hj Ht Hf Hauth.
  pose proof (s_honoured s Hs) as Hh. pose proof (h_table s Hh) as Hok. pose proof (find_own_id _ _ _ Hok Hf) as Htid.
  unfold check_local_redaction in Hcheck. rewrite Hp, Hj in Hcheck. rewrite Ht in Hcheck. simpl in Hcheck. rewrite Hf in Hcheck.
  destruct (ev_room_id target =s ev_room_id er) eqn:Eroom; simpl in Hcheck; [|done]. breflect.
  destruct (parse_event (ev_json target)) as [v|] eqn:Ev; [|done]. destruct (string_of redaction "sender"); [|done].
  destruct (_ && _); [done|]. destruct (bool_decide _) eqn:Ejudge; [|done]. apply bool_decide_eq_true in Ejudge.
  assert (exists redacted output, redact_event v policy = Redacted redacted /\ serialize_canonical redacted = SOk output)
    as (redacted & output & Hred & Hout).
  { unfold parse_event in Ev. destruct (parse_lossless (ev_json target)) as [w|] eqn:Epl; [|done].
    destruct w as [| | | | | |o|]; try done. simplify_eq. destruct (parsed_values_serialize _ _ Hraw Epl) as [out Ho].
    eexists _. pose proof (redact_event_writable false (VObject o) policy _ (ex_intro _ out (lossy_of_strict _ _ Ho)) eq_refl) as [output Hw].
    exists output. by split. }
  assert (redaction_is_withheld (redactions (mirror_event er s)) (ev_event_id er) = true) as Hw.
  { simpl. unfold note_event_for_redactions. rewrite Hshape. apply bool_decide_eq_true. simpl. set_solver. }
  assert (application (mirror_event er s) (ev_event_id er) = Some (target, output)) as Happ.
  { apply application_iff; [by apply insert_ok|]. exists er. split; [done|].
    apply (redacts_intro _ _ _ _ policy redaction v redacted); try done.
    - rewrite mirror_find by done. by rewrite decide_True.
    - by apply mirror_policy.
    - by rewrite Ht, Htid.
    - rewrite Htid. by apply mirror_keeps.
    - by rewrite (mirror_context s er Hh Hnew redaction _ policy). }
  destruct (reconcile_applied _ (mirror_event er s) _ _ (insert_ok er _ Hok) Hw Happ) as (Hok' & Hfind & Hrd & _).
  rewrite arrives_new by done. unfold reconcile_redactions_for_event.
  set (s1 := reconcile_redaction persist (ev_event_id er) (mirror_event er s)) in *.
  pose proof (reconcile_steps persist (redactions_naming (redactions s1) (ev_event_id er)) s1 Hok') as Hsteps. split.
  - eapply steps_unwithheld; [exact Hsteps|]. rewrite Hrd. apply bool_decide_eq_false. simpl. set_solver.
  - specialize (Hfind target_id). rewrite decide_True in Hfind by done.
    destruct (steps_evolve persist _ _ _ Hsteps target_id _ Hfind) as (text & Htext & [->|[policy' Hr]]).
    + exists output, policy. split; [exact Htext|]. exists v, redacted. done.
    + exists text, policy'. split; [exact Htext|done].
Qed.
End Order.
