(* ===== verification/StoreWitness.v ===== *)
(** The theorems on redactions, history visibility and the event table applied to
    rooms of a few events and to small tables. *)
From S2P Require Import Prelude CppStd JsonValue JsonSerializer JsonParser RoomVersion Signing JsonCanonical EventAuth EventShape Redaction EventId EventWitness EventTable EventTableInv EventTableAdd EventTableSpec StateTables Store StoreLookup RedactionService RedactionFlow RedactionOrder.
From S2P Require Import StateTables Store StoreLookup HistoryVisibility HistoryPrivacy.
Open Scope Z_scope.

(** A reader that knows the JSON of one join. *)
Definition join_reader : Yyjson := {|
  read_raw_numbers := fun s =>
    if s =s "J" then inr {| doc_root := Some (YObject [(Some "content", YObject [(Some "membership", YString (Some "join"))])]);
                            doc_bytes_read := 1 |}
    else inl read_json_structure;
  read_numbers := fun _ => inl read_json_structure |}.

#[local] Existing Instance join_reader.

Definition event_row (id json : string) (ordering : Z) : PersistentEvent := {|
  ev_event_id := id; ev_room_id := "!r"; ev_sender_user_id := "@u:a.org"; ev_json := json; ev_depth := ordering;
  ev_stream_ordering := ordering; ev_prev_event_ids := []; ev_auth_event_ids := []; ev_signatures := [];
  ev_status := "accepted" |}.

Definition join_event := event_row "$join" "J" 1.
Definition message_event := event_row "$msg" "M" 2.

Definition sample_store : PersistentStore := {|
  events := (insert_all [join_event; message_event] empty_table).2; redactions := redactions empty_store;
  current := current empty_store; transitions := transitions empty_store; graph := graph empty_store;
  members := members empty_store; invites := [];
  state_groups := (StateGroupTable.insert {| sg_state_group_id := "g"; sg_room_id := "!r"; sg_parent_state_group_id := None;
    sg_delta_depth := 0 |} StateGroupTable.empty).2;
  state_group_state := StateGroupEntryTable.insert {| ge_state_group_id := "g"; ge_event_type := member_type;
    ge_state_key := "@u:a.org"; ge_event_id := "$join" |} StateGroupEntryTable.empty;
  event_state_groups := EventStateGroupTable.assign "$msg" "g" EventStateGroupTable.empty;
  forward_extremities := []; next_sync_stream_id := 0 |}.

Definition earlier : relation MembershipStep := fun a b => ms_ordering a <= ms_ordering b.

#[local] Instance earlier_dec : RelDecision earlier.
Proof. intros a b. unfold earlier. apply _. Defined.

#[local] Instance earlier_trans : Transitive earlier.
Proof. intros a b c. unfold earlier. lia. Qed.

#[local] Instance earlier_total : Total earlier.
Proof. intros a b. unfold earlier. lia. Qed.

#[local] Instance merging_timeline : TimelineSort := {|
  sort_timeline := merge_sort earlier;
  sort_timeline_perm := merge_sort_Permutation earlier;
  sort_timeline_sorted := StronglySorted_merge_sort earlier |}.

Lemma history_visibility_sound_witness :
  can_see sample_store "@u:a.org" elements message_event = true
  /\ exists visibility, visibility_at sample_store "g" visibility.
Proof.
  assert (table_ok (events sample_store)) as Htable by (apply insert_all_ok, empty_table_ok).
  destruct (history_visibility_sound sample_store "@u:a.org" elements message_event Htable (fun s x => elem_of_elements s x))
    as [Hsound Hcomplete].
  assert (can_see sample_store "@u:a.org" elements message_event = true) as Hsee.
  { apply (Hcomplete "g"); [reflexivity|reflexivity|reflexivity|vm_compute; reflexivity|right; left; vm_compute; reflexivity]. }
  split; [exact Hsee|]. destruct (Hsound Hsee) as (_ & _ & Hg). simpl in Hg.
  change (state_group_of sample_store (ev_event_id message_event)) with (Some "g") in Hg.
  destruct Hg as (visibility & _ & Hv & _). exists visibility. exact Hv.
Defined.

From S2P Require Import EventTableInv EventTableAdd EventTableErase EventTableSpec.

#[local] Existing Instance toy_reader.

Definition timed_json (ts : string) : string := "{" +:+ quote +:+ "origin_server_ts" +:+ quote +:+ ":" +:+ ts +:+ "}".

Definition sample_row (id room : string) (ordering : Z) (ts : string) : PersistentEvent := {|
  ev_event_id := id; ev_room_id := room; ev_sender_user_id := "@a:b.org"; ev_json := timed_json ts; ev_depth := 1;
  ev_stream_ordering := ordering; ev_prev_event_ids := []; ev_auth_event_ids := []; ev_signatures := [];
  ev_status := "accepted" |}.

Definition row_1 := sample_row "$1" "!r" 2 "30".
Definition row_2 := sample_row "$2" "!r" 1 "10".
Definition row_3 := sample_row "$3" "!q" 1 "20".

Definition sample_table : EventTable := (insert_all [row_2; row_3] (insert row_1 empty_table).2).2.

Lemma sample_reachable : rtc table_step empty_table sample_table.
Proof.
  eapply rtc_l; [apply (step_insert row_1)|]. eapply rtc_l; [apply (step_insert_all [row_2; row_3])|]. apply rtc_refl.
Qed.

Lemma event_table_simulates_list_witness : rows sample_table = [row_1; row_2; row_3]
  /\ rows (erase_if (fun e => ev_room_id e =s "!r") sample_table).2 = [row_3].
Proof.
  split; [vm_compute; reflexivity|].
  pose proof (proj1 (proj2 (proj2 (event_table_simulates_list sample_table sample_reachable)))) as He.
  rewrite (proj1 (He (fun e => ev_room_id e =s "!r"))). vm_compute. reflexivity.
Defined.

Lemma event_table_queries_exact_witness : in_stream_order sample_table = [row_2; row_3; row_1]
  /\ room_latest_origin_server_ts "!r" sample_table = 30.
Proof.
  destruct (event_table_queries_exact sample_table sample_reachable) as (_ & _ & _ & _ & Hs & _ & Hl & _ & _).
  rewrite Hs, Hl. vm_compute. split; reflexivity.
Defined.

(** * A row moved to another room *)

Definition move_to (room : string) (e : PersistentEvent) : PersistentEvent := {|
  ev_event_id := ev_event_id e; ev_room_id := room; ev_sender_user_id := ev_sender_user_id e; ev_json := ev_json e;
  ev_depth := ev_depth e; ev_stream_ordering := ev_stream_ordering e; ev_prev_event_ids := ev_prev_event_ids e;
  ev_auth_event_ids := ev_auth_event_ids e; ev_signatures := ev_signatures e; ev_status := ev_status e |}.

Definition moved_table : EventTable :=
  modify 0 (move_to "!r") (insert_all [row_3; row_2] empty_table).2.

(** A row moved to a room that holds a later row of the same stream ordering comes
    after it there, but before it in the order of all rows. *)
Example moved_row_leaves_stream_order :
  ev_event_id <$> room_in_stream_order "!r" moved_table = ["$2"; "$3"]
  /\ ev_event_id <$> in_stream_order moved_table = ["$3"; "$2"].
Proof. vm_compute. split; reflexivity. Qed.

#[local] Existing Instance no_libc.

Definition text_value (s : string) : YValue := YString (Some s).

(** The events of the room by the names that stand for their JSON texts. *)
Definition room_events : list (string * YValue) :=
  [("C", YObject [(Some "type", text_value "m.room.create"); (Some "sender", text_value "@u:a.org");
                  (Some "content", YObject [(Some "room_version", text_value "11")])]);
   ("M", YObject [(Some "type", text_value "m.room.message"); (Some "sender", text_value "@u:a.org");
                  (Some "content", YObject [(Some "body", text_value "hello")])]);
   ("R m.room.redaction", YObject [(Some "type", text_value "m.room.redaction"); (Some "sender", text_value "@u:a.org");
                  (Some "content", YObject [(Some "redacts", text_value "$m")])])].

Definition room_reader : Yyjson := {|
  read_raw_numbers := fun s =>
    match List.find (fun e => e.1 =s s) room_events with
    | Some e => inr {| doc_root := Some e.2; doc_bytes_read := String.length s |}
    | None => inl read_json_structure
    end;
  read_numbers := fun _ => inl read_json_structure |}.

#[local] Existing Instance room_reader.

Lemma room_raw_reads : raw_reads.
Proof.
  intros input document root Hread Hroot. cbn [read_raw_numbers room_reader] in Hread.
  destruct (List.find _ room_events) as [e|] eqn:E; [|done]. injection Hread as <-. simpl in Hroot. injection Hroot as <-.
  apply List.find_some in E as [Hin _]. simpl in Hin. destruct Hin as [<-|[<-|[<-|[]]]]; reflexivity.
Qed.

Definition room_event (id json : string) (ordering : Z) : PersistentEvent := {|
  ev_event_id := id; ev_room_id := "!r"; ev_sender_user_id := "@u:a.org"; ev_json := json; ev_depth := ordering;
  ev_stream_ordering := ordering; ev_prev_event_ids := []; ev_auth_event_ids := []; ev_signatures := [];
  ev_status := "accepted" |}.

Definition taken_json : PersistentStore -> string -> string -> bool := fun _ _ _ => true.
Definition taken_event : PersistentStore -> PersistentEvent -> bool := fun _ _ => true.

Definition create_row : PersistentStateEvent :=
  {| st_room_id := "!r"; st_event_type := "m.room.create"; st_state_key := EmptyString; st_event_id := "$c" |}.

Definition created_room : PersistentStore :=
  apply_current_state create_row EmptyString (arrives taken_json taken_event (room_event "$c" "C" 1) empty_store).

Definition the_message : PersistentEvent := room_event "$m" "M" 2.
Definition the_redaction : PersistentEvent := room_event "$x" "R m.room.redaction" 3.

Lemma created_room_reached : rtc (service_step taken_json) empty_store created_room.
Proof.
  eapply rtc_l; [apply (serve_event taken_json taken_event (room_event "$c" "C" 1))|].
  apply rtc_once. apply serve_store. apply (step_current _ create_row EmptyString).
Qed.

(** The store that receives the message and then its redaction. *)
Definition both_arrived : PersistentStore :=
  arrives taken_json taken_event the_redaction (arrives taken_json taken_event the_message created_room).

Lemma redaction_order_irrelevant_witness :
  find "$m" (events (arrives taken_json taken_event the_message (arrives taken_json taken_event the_redaction created_room)))
  = find "$m" (events both_arrived)
  /\ find "$m" (events both_arrived) <> Some the_message.
Proof.
  destruct (redaction_order_irrelevant taken_json taken_event (fun _ _ _ => eq_refl) (fun _ _ => eq_refl)
              created_room the_message the_redaction created_room_reached) as [Heq Hmatch];
    [vm_compute; reflexivity|vm_compute; reflexivity|discriminate|vm_compute; reflexivity..|].
  split; [symmetry; exact (eq_find _ _ Heq "$m")|]. vm_compute. discriminate.
Defined.

Lemma message_reached : rtc (service_step taken_json) empty_store (arrives taken_json taken_event the_message created_room).
Proof. eapply rtc_r; [apply created_room_reached|]. apply serve_event. Qed.

Lemma redactions_are_honoured_witness :
  exists row policy, find "$m" (events both_arrived) = Some row /\ redacted_text policy (ev_json row).
Proof.
  refine (proj1 (redactions_are_honoured taken_json both_arrived both_arrived _ (rtc_refl _ _)) "$m" "$x" _).
  - eapply rtc_r; [apply message_reached|]. apply serve_event.
  - vm_compute. reflexivity.
Defined.

Lemma permitted_redactions_apply_witness :
  redaction_is_withheld (redactions both_arrived) "$x" = false.
Proof.
  refine (proj1 (permitted_redactions_apply taken_json taken_event (fun _ _ _ => eq_refl) (fun _ _ => eq_refl)
    (arrives taken_json taken_event the_message created_room) the_redaction
    (default VNull (parse_event "R m.room.redaction")) policy_v11 "$m" the_message false "a.org"
    room_raw_reads message_reached _ _ _ _ _ _ _ _ _ _));
    [vm_compute; reflexivity|vm_compute; reflexivity|discriminate|discriminate|vm_compute; reflexivity..|].
  vm_compute. discriminate.
Defined.
