(* ===== verification/StoreWrites.v ===== *)
(** The writes of database/PersistentStore.cpp that store an event or a row of
    current state: the statements they prepare, the checks before them and the
    order of statement, commit and mirror.

    A prepared statement has a fixed text; [Statement] has one constructor per
    text with its parameters.  Whether the backend takes a transaction is a
    parameter: it depends on the database, which the mirror stands for. *)
From S2P Require Import Prelude CppStd JsonValue JsonSerializer JsonParser EventShape EventTable StateTables Store.
Open Scope Z_scope.

(** * Statements *)

Inductive Statement : Type :=
  | insert_event (event : PersistentEvent)
  | insert_event_edge (event_id prev_event_id : string)
  | insert_event_auth (event_id auth_event_id : string)
  | insert_event_signature (event_id : string) (signature : EventSignature)
  | upsert_state (row : PersistentStateEvent)
  | insert_state (row : PersistentStateEvent)
  | insert_state_transition (row : PersistentStateTransition)
  | upsert_state_transition (row : PersistentStateTransition)
  | upsert_membership (room_id user_id membership : string) (stream_ordering : Z)
  | upsert_invite (room_id user_id : string) (invite : PersistentInvite) (invite_state_json : string)
  | delete_invite (room_id user_id : string)
  | insert_state_group (group : PersistentStateGroup)
  | insert_state_group_state (row : PersistentStateGroupStateEntry)
  | upsert_event_state_group (event_id state_group_id : string)
  | delete_forward_extremity (room_id event_id : string)
  | insert_forward_extremity (room_id event_id : string)
  | update_event_status (event_id status : string)
  | update_event_json (event_id json : string)
  | upsert_deferred_pdu_row (row : PersistentDeferredPdu)
  | delete_deferred_pdu_row (event_id : string).

Section Commit.
(** [persist_transaction_to_backend]. *)
Context (backend : PersistentStore -> list Statement -> bool).

Definition commit_persistent_transaction (s : PersistentStore) (statements : list Statement) : bool :=
  match statements with [] => true | _ => backend s statements end.
End Commit.

(** * Checks *)

(** Values of [std::uint64_t]. *)
Definition max_sync_stream_id : Z := 2 ^ 63 - 1.
Definition sync_stream_write_reserve : Z := 2 ^ 20.

Definition sync_stream_has_write_reserve (s : PersistentStore) : bool :=
  next_sync_stream_id s <? max_sync_stream_id - sync_stream_write_reserve.

Definition membership_projection_is_valid (projection : MembershipProjection) : bool :=
  negb (empty (mp_user_id projection)) && negb (empty (mp_membership projection))
  && match mp_invite projection with None => true | Some _ => membership_records_invite (mp_membership projection) end.

Section Writes.
Context `{Yyjson} `{Libc}.

Definition top_level_json_string_field (json field_name : string) : option string :=
  match parse_lossless json with
  | POk value => value_is_object value ≫= fun object => string_member object field_name
  | _ => None
  end.

Definition state_matches_event (event : PersistentEvent) (row : PersistentStateEvent) : bool :=
  (ev_event_id event =s st_event_id row) && (ev_room_id event =s st_room_id row)
  && bool_decide (top_level_json_string_field (ev_json event) "type" = Some (st_event_type row))
  && bool_decide (top_level_json_string_field (ev_json event) "state_key" = Some (st_state_key row)).

Definition state_matches_persisted_event (s : PersistentStore) (row : PersistentStateEvent) : bool :=
  match find (st_event_id row) (events s) with Some event => state_matches_event event row | None => false end.

Fixpoint parse_all (texts : list string) : option (list Value) :=
  match texts with
  | [] => Some []
  | text :: rest => match parse_lossless text with POk value => cons value <$> parse_all rest | _ => None end
  end.

Definition serialize_invite_state_events_json (event_json : list string) : option string :=
  match parse_all event_json with
  | None => None
  | Some values => match serialize_canonical (VArray values) with SOk output => Some output | SErr _ => None end
  end.

Definition append_membership_projection_statements (room_id : string) (p : MembershipProjection)
    : option (list Statement) :=
  let upsert := upsert_membership room_id (mp_user_id p) (mp_membership p) (mp_stream_ordering p) in
  match mp_invite p with
  | Some invite =>
      if membership_records_invite (mp_membership p) then
        match serialize_invite_state_events_json (iv_invite_state_events_json invite) with
        | None => None
        | Some text => Some [upsert; upsert_invite room_id (mp_user_id p) invite text]
        end
      else if membership_ends_invite (mp_membership p) then Some [upsert; delete_invite room_id (mp_user_id p)]
      else Some [upsert]
  | None =>
      if membership_ends_invite (mp_membership p) then Some [upsert; delete_invite room_id (mp_user_id p)] else Some [upsert]
  end.

Definition append_event_graph_statements (event : PersistentEvent) : list Statement :=
  (insert_event_edge (ev_event_id event) <$> ev_prev_event_ids event)
  ++ (insert_event_auth (ev_event_id event) <$> ev_auth_event_ids event)
  ++ (insert_event_signature (ev_event_id event) <$> ev_signatures event).

(** * The predecessor of a state event *)

Section Predecessor.
Context (s : PersistentStore) (room_id event_type state_key : string).

Definition was_current (id : string) : bool :=
  match find_state_transition (transitions s) room_id event_type state_key id with Some _ => true | None => false end.

(** Push the IDs that are visited for the first time. *)
Definition push_unvisited (ids : list string) (visited : gset string) (queue : list string) : gset string * list string :=
  foldl (fun '(visited, queue) id =>
           if bool_decide (id ∈ visited) then (visited, queue) else (visited ∪ {[id]}, queue ++ [id]))
    (visited, queue) ids.

(** One level of the queue; the parents found form the next. *)
Fixpoint predecessor_level (level : list string) (visited : gset string) (next : list string)
    : string + (gset string * list string) :=
  match level with
  | [] => inr (visited, next)
  | id :: rest =>
      if was_current id then inl id
      else
        match find id (events s) with
        | None => predecessor_level rest visited next
        | Some event =>
            let '(visited, next) := push_unvisited (ev_prev_event_ids event) visited next in
            predecessor_level rest visited next
        end
  end.

Fixpoint predecessor_walk (depth : nat) (queue : list string) (visited : gset string) : string :=
  match depth, queue with
  | O, _ | _, [] => EmptyString
  | S depth', _ =>
      match predecessor_level queue visited [] with
      | inl id => id
      | inr (visited, next) => predecessor_walk depth' next visited
      end
  end.

Definition find_predecessor_state_event_id (prev_event_ids auth_event_ids : list string) : string :=
  match List.find was_current auth_event_ids with
  | Some id => id
  | None => let '(visited, queue) := push_unvisited prev_event_ids ∅ [] in predecessor_walk 50 queue visited
  end.
End Predecessor.

(** * Storing an event with its state row *)

Definition prepare_store_event_with_state (s : PersistentStore) (event : PersistentEvent)
    (row : option PersistentStateEvent) (membership : option MembershipProjection)
    : option (PreparedStateUpdate * list Statement) :=
  if negb (sync_stream_has_write_reserve s) then None
  else if match membership with
          | None => false
          | Some p =>
              match row with
              | None => true
              | Some st => (st_event_type st <>s "m.room.member") || (st_state_key st <>s mp_user_id p)
                           || negb (membership_projection_is_valid p)
              end
          end then None
  else if contains (ev_event_id event) (events s)
          || match row with Some st => negb (state_matches_event event st) | None => false end then None
  else
    let state_already_existed :=
      match row with
      | Some st => existsb (fun r => state_row_is r (st_room_id st) (st_event_type st) (st_state_key st)) (state (current s))
      | None => false
      end in
    let previous_event_id :=
      match row with
      | Some st => find_predecessor_state_event_id s (st_room_id st) (st_event_type st) (st_state_key st)
                     (ev_prev_event_ids event) (ev_auth_event_ids event)
      | None => EmptyString
      end in
    let state_statements :=
      match row with
      | Some st => [if state_already_existed then upsert_state st else insert_state st;
                    insert_state_transition (transition_of st previous_event_id)]
      | None => []
      end in
    let update := {| pu_event := event; pu_state := row; pu_previous_event_id := previous_event_id;
                     pu_membership := membership |} in
    let statements := insert_event event :: append_event_graph_statements event ++ state_statements in
    match membership with
    | None => Some (update, statements)
    | Some p =>
        match append_membership_projection_statements (ev_room_id event) p with
        | None => None
        | Some more => Some (update, statements ++ more)
        end
    end.

(** * Writing a row of current state *)

Definition prepare_current_state (row : PersistentStateEvent) (previous_event_id : string) : list Statement :=
  [if empty previous_event_id then insert_state row else upsert_state row;
   upsert_state_transition (transition_of row previous_event_id)].

Section Backend.
Context (backend : PersistentStore -> list Statement -> bool).
Context (observer : string -> PersistentStore -> PersistentStore).

Definition store_event_with_state (event : PersistentEvent) (row : option PersistentStateEvent)
    (membership : option MembershipProjection) (s : PersistentStore) : bool * PersistentStore :=
  match prepare_store_event_with_state s event row membership with
  | None => (false, s)
  | Some (update, statements) =>
      if negb (commit_persistent_transaction backend s statements) then (false, s)
      else (true, apply_store_event_with_state observer update s)
  end.

Definition store_state (row : PersistentStateEvent) (s : PersistentStore) : bool * PersistentStore :=
  if negb (state_matches_persisted_event s row) then (false, s)
  else
    let existing := scan_state (state (current s)) (st_room_id row) (st_event_type row) (st_state_key row) in
    if bool_decide (existing = Some (st_event_id row)) then (true, s)
    else
      let previous_event_id := default EmptyString existing in
      if negb (commit_persistent_transaction backend s (prepare_current_state row previous_event_id)) then (false, s)
      else (true, apply_current_state row previous_event_id s).

Definition event_status_is_valid (status : string) : bool :=
  (status =s "accepted") || (status =s "soft_failed") || (status =s "rejected") || (status =s "outlier").

Definition set_status (status : string) (e : PersistentEvent) : PersistentEvent := {|
  ev_event_id := ev_event_id e; ev_room_id := ev_room_id e; ev_sender_user_id := ev_sender_user_id e;
  ev_json := ev_json e; ev_depth := ev_depth e; ev_stream_ordering := ev_stream_ordering e;
  ev_prev_event_ids := ev_prev_event_ids e; ev_auth_event_ids := ev_auth_event_ids e;
  ev_signatures := ev_signatures e; ev_status := status |}.

Definition set_event_status (event_id status : string) (s : PersistentStore) : bool * PersistentStore :=
  if negb (event_status_is_valid status) then (false, s)
  else
    match by_id (events s) !! event_id with
    | None => (false, s)
    | Some existing =>
        if negb (commit_persistent_transaction backend s [update_event_status event_id status]) then (false, s)
        else (true, with_events s (modify existing (set_status status) (events s)))
    end.
End Backend.
End Writes.
