(* ===== verification/StateGroups.v ===== *)
(** State groups and forward extremities of database/PersistentStore.cpp.

    The state after an event is kept as a state group: a snapshot, or the
    entries that differ from a parent group.  Reading a group merges the chain
    from it to its snapshot; writing one decides between reusing the parent, a
    delta and a snapshot.  Then what reading amounts to: every group of a
    well-formed store can be read, and the lookup of one entry agrees with the
    full read. *)
From S2P Require Import Prelude CppStd JsonValue JsonParser EventShape EventTable StateTables Store StoreLookup HistoryVisibility StoreWrites.
Open Scope Z_scope.

(** * Reading *)

Definition state_group_entry_key (event_type state_key : string) : string := event_type +:+ nul_text +:+ state_key.

Definition entry_key (entry : PersistentStateGroupStateEntry) : string :=
  state_group_entry_key (ge_event_type entry) (ge_state_key entry).

Definition to_state_group_map (entries : list PersistentStateGroupStateEntry) : gmap string string :=
  foldl (fun m entry => emplace (entry_key entry) (ge_event_id entry) m) ∅ entries.

Definition find_persistent_state_group (s : PersistentStore) (id : string) : option PersistentStateGroup :=
  StateGroupTable.find id (state_groups s).

Definition find_state_group (s : PersistentStore) (id : string) : option PersistentStateGroup :=
  find_persistent_state_group s id.

(** The loop of [read_state_group_full_state] over the parent links: [budget] is
    how many more groups may have a parent. *)
Fixpoint group_chain (budget : nat) (s : PersistentStore) (visited : gset string) (id : string)
    : option (list PersistentStateGroup) :=
  if bool_decide (id ∈ visited) then None
  else
    match find_persistent_state_group s id with
    | None => None
    | Some group =>
        match sg_parent_state_group_id group with
        | None => Some [group]
        | Some parent =>
            match budget with
            | O => None
            | S budget' => cons group <$> group_chain budget' s (visited ∪ {[id]}) parent
            end
        end
    end.

(** The first entry of each key. *)
Definition merge_entries (entries : list PersistentStateGroupStateEntry) : list PersistentStateGroupStateEntry :=
  (foldl (fun '(seen, result) entry =>
            if bool_decide (entry_key entry ∈ seen) then (seen, result)
            else (seen ∪ {[entry_key entry]}, result ++ [entry]))
     ((∅ : gset string), []) entries).2.

Definition read_state_group_full_state (s : PersistentStore) (id : string)
    : option (list PersistentStateGroupStateEntry) :=
  (fun chain => merge_entries
     (chain ≫= fun group => StateGroupEntryTable.entries_of (sg_state_group_id group) (state_group_state s)))
  <$> group_chain max_state_group_delta_depth s ∅ id.

(** * Writing *)

Record PreparedStateGroup : Type := {
  pg_state_group_id : string;
  pg_group : option PersistentStateGroup;
  pg_rows : list PersistentStateGroupStateEntry;
  pg_statements : list Statement
}.

Definition with_group_id (id : string) (row : PersistentStateGroupStateEntry) : PersistentStateGroupStateEntry :=
  {| ge_state_group_id := id; ge_event_type := ge_event_type row; ge_state_key := ge_state_key row;
     ge_event_id := ge_event_id row |}.

(** The lines from the choice of the new group's depth on. *)
Definition new_state_group (room_id new_id : string) (parent : option (string * Z))
    (rows_to_persist : list PersistentStateGroupStateEntry) : PreparedStateGroup :=
  let group := {| sg_state_group_id := new_id; sg_room_id := room_id;
                  sg_parent_state_group_id := fst <$> parent;
                  sg_delta_depth := match parent with Some (_, depth) => (depth + 1) mod 2 ^ 32 | None => 0 end |} in
  let rows := with_group_id new_id <$> rows_to_persist in
  {| pg_state_group_id := new_id; pg_group := Some group; pg_rows := rows;
     pg_statements := insert_state_group group :: (insert_state_group_state <$> rows) |}.

Definition changed_entries (parent_map : gmap string string) (full_state : list PersistentStateGroupStateEntry)
    : list PersistentStateGroupStateEntry :=
  filter (fun entry => parent_map !! entry_key entry <> Some (ge_event_id entry)) full_state.

Definition prepare_state_group (s : PersistentStore) (room_id new_id : string) (parent : option string)
    (full_state : list PersistentStateGroupStateEntry) : option PreparedStateGroup :=
  let requested_map := to_state_group_map full_state in
  match parent with
  | None => Some (new_state_group room_id new_id None full_state)
  | Some parent_id =>
      match find_persistent_state_group s parent_id, read_state_group_full_state s parent_id with
      | Some parent_group, Some parent_full =>
          let parent_map := to_state_group_map parent_full in
          if bool_decide (requested_map = parent_map) then
            Some {| pg_state_group_id := parent_id; pg_group := None; pg_rows := []; pg_statements := [] |}
          else if (Z.of_nat max_state_group_delta_depth <? (sg_delta_depth parent_group + 1) mod 2 ^ 32)
                  || negb (bool_decide (dom parent_map ⊆ dom requested_map))
          then Some (new_state_group room_id new_id None full_state)
          else Some (new_state_group room_id new_id (Some (parent_id, sg_delta_depth parent_group))
                       (changed_entries parent_map full_state))
      | _, _ => None
      end
  end.

Definition with_groups (s : PersistentStore) (groups : StateGroupTable.t) (entries : StateGroupEntryTable.t)
    : PersistentStore :=
  {| events := events s; redactions := redactions s; current := current s; transitions := transitions s; graph := graph s;
     members := members s; invites := invites s; state_groups := groups; state_group_state := entries;
     event_state_groups := event_state_groups s;
     forward_extremities := forward_extremities s; next_sync_stream_id := next_sync_stream_id s |}.

Definition apply_state_group (prepared : PreparedStateGroup) (s : PersistentStore) : PersistentStore :=
  match pg_group prepared with
  | None => s
  | Some group => with_groups s (StateGroupTable.insert group (state_groups s)).2
                    (StateGroupEntryTable.insert_all (pg_rows prepared) (state_group_state s))
  end.

(** * Events and their groups *)

Definition find_event_state_group (s : PersistentStore) (event_id : string) : option string :=
  EventStateGroupTable.state_group_of event_id (event_state_groups s).

Definition prepare_event_state_group (event_id state_group_id : string) : option Statement :=
  if empty event_id || empty state_group_id then None else Some (upsert_event_state_group event_id state_group_id).

Definition apply_event_state_group (event_id state_group_id : string) (s : PersistentStore) : PersistentStore :=
  {| events := events s; redactions := redactions s; current := current s; transitions := transitions s; graph := graph s;
     members := members s; invites := invites s; state_groups := state_groups s; state_group_state := state_group_state s;
     event_state_groups := EventStateGroupTable.assign event_id state_group_id (event_state_groups s);
     forward_extremities := forward_extremities s; next_sync_stream_id := next_sync_stream_id s |}.

(** * Forward extremities *)

Definition extremity_is (room_id event_id : string) (e : PersistentForwardExtremity) : bool :=
  (fe_room_id e =s room_id) && (fe_event_id e =s event_id).

Definition prepare_forward_extremities_update (room_id event_id : string) (replaced : list string) : list Statement :=
  if empty room_id || empty event_id then []
  else (delete_forward_extremity room_id <$> replaced) ++ [insert_forward_extremity room_id event_id].

Definition update_extremities (room_id event_id : string) (replaced : list string)
    (extremities : list PersistentForwardExtremity) : list PersistentForwardExtremity :=
  let kept := foldl (fun l id => filter (fun e => extremity_is room_id id e = false) l) extremities replaced in
  if existsb (extremity_is room_id event_id) kept then kept
  else kept ++ [{| fe_room_id := room_id; fe_event_id := event_id |}].

Definition apply_forward_extremities_update (room_id event_id : string) (replaced : list string) (s : PersistentStore)
    : PersistentStore :=
  {| events := events s; redactions := redactions s; current := current s; transitions := transitions s; graph := graph s;
     members := members s; invites := invites s; state_groups := state_groups s; state_group_state := state_group_state s;
     event_state_groups := event_state_groups s;
     forward_extremities := update_extremities room_id event_id replaced (forward_extremities s);
     next_sync_stream_id := next_sync_stream_id s |}.

Definition find_forward_extremities (s : PersistentStore) (room_id : string) : list string :=
  fe_event_id <$> filter (fun e => fe_room_id e = room_id) (forward_extremities s).

(** * The operations with their commits *)

Section Backend.
Context (backend : PersistentStore -> list Statement -> bool).

Definition create_or_reuse_state_group (room_id new_id : string) (parent : option string)
    (full_state : list PersistentStateGroupStateEntry) (s : PersistentStore) : option string * PersistentStore :=
  match prepare_state_group s room_id new_id parent full_state with
  | None => (None, s)
  | Some prepared =>
      if negb (commit_persistent_transaction backend s (pg_statements prepared)) then (None, s)
      else (Some (pg_state_group_id prepared), apply_state_group prepared s)
  end.

Definition set_event_state_group (event_id state_group_id : string) (s : PersistentStore) : bool * PersistentStore :=
  match prepare_event_state_group event_id state_group_id with
  | None => (false, s)
  | Some statement =>
      if negb (commit_persistent_transaction backend s [statement]) then (false, s)
      else (true, apply_event_state_group event_id state_group_id s)
  end.

Definition update_forward_extremities (room_id event_id : string) (prev_event_ids : list string) (accepted : bool)
    (s : PersistentStore) : bool * PersistentStore :=
  if negb accepted then (true, s)
  else if empty room_id || empty event_id then (false, s)
  else if negb (commit_persistent_transaction backend s (prepare_forward_extremities_update room_id event_id prev_event_ids))
  then (false, s)
  else (true, apply_forward_extremities_update room_id event_id prev_event_ids s).
End Backend.

(** * Entries as a map *)

Abbreviation Entry := PersistentStateGroupStateEntry.

Definition has_key (k : string) (e : Entry) : bool := entry_key e =s k.

(** The entry of a list that counts for a key. *)
Definition first_entry (l : list Entry) (k : string) : option string := ge_event_id <$> List.find (has_key k) l.

Lemma emplace_lookup {A} k (v : A) m i :
  emplace k v m !! i = match m !! i with Some x => Some x | None => if decide (i = k) then Some v else None end.
Proof.
  unfold emplace. destruct (m !! k) as [x|] eqn:E; destruct (decide (i = k)) as [->|Hne].
  - by rewrite E.
  - by destruct (m !! i).
  - by rewrite E, lookup_insert_eq.
  - rewrite lookup_insert_ne by done. by destruct (m !! i).
Qed.

Lemma first_entry_cons e l k :
  first_entry (e :: l) k = if decide (k = entry_key e) then Some (ge_event_id e) else first_entry l k.
Proof.
  unfold first_entry, has_key. simpl. destruct (entry_key e =s k) eqn:E; breflect; [by rewrite decide_True|].
  by rewrite decide_False.
Qed.

Lemma first_entry_app l1 l2 k :
  first_entry (l1 ++ l2) k = match first_entry l1 k with Some x => Some x | None => first_entry l2 k end.
Proof.
  induction l1 as [|e l1 IH]; [done|]. simpl. rewrite !first_entry_cons. destruct (decide _); [done|]. apply IH.
Qed.

Lemma state_group_map_from l m k :
  foldl (fun m entry => emplace (entry_key entry) (ge_event_id entry) m) m l !! k =
  match m !! k with Some x => Some x | None => first_entry l k end.
Proof.
  revert m. induction l as [|e l IH]; intros m; simpl; [by destruct (m !! k)|].
  rewrite IH, emplace_lookup, first_entry_cons. destruct (m !! k); [done|]. by destruct (decide _).
Qed.

Lemma state_group_map_lookup l k : to_state_group_map l !! k = first_entry l k.
Proof. unfold to_state_group_map. by rewrite state_group_map_from, lookup_empty. Qed.

Lemma state_group_map_eq l1 l2 : (forall k, first_entry l1 k = first_entry l2 k) -> to_state_group_map l1 = to_state_group_map l2.
Proof. intros Hk. apply map_eq. intros k. by rewrite !state_group_map_lookup. Qed.

Lemma first_entry_None l k : first_entry l k = None <-> k ∉ entry_key <$> l.
Proof.
  induction l as [|e l IH]; [split; [set_solver|done]|]. rewrite first_entry_cons. simpl.
  destruct (decide (k = entry_key e)) as [->|Hne]; set_solver.
Qed.

Lemma first_entry_unique l e : NoDup (entry_key <$> l) -> e ∈ l -> first_entry l (entry_key e) = Some (ge_event_id e).
Proof.
  induction l as [|x l IH]; [set_solver|]. simpl. rewrite NoDup_cons. intros [Hx Hl] [->|He]%elem_of_cons.
  - by rewrite first_entry_cons, decide_True.
  - rewrite first_entry_cons, decide_False; [by apply IH|]. intros Heq. apply Hx. rewrite <- Heq. by apply list_elem_of_fmap_2.
Qed.

Lemma first_entry_member l k id : first_entry l k = Some id -> exists e, e ∈ l /\ entry_key e = k /\ ge_event_id e = id.
Proof.
  unfold first_entry. intros (e & He & ->)%fmap_Some. apply List.find_some in He as [Hin Hk]. unfold has_key in Hk. breflect.
  exists e. by rewrite list_elem_of_In.
Qed.

Lemma first_entry_retagged id l k : first_entry (with_group_id id <$> l) k = first_entry l k.
Proof. induction l as [|e l IH]; [done|]. csimpl. rewrite !first_entry_cons, IH. done. Qed.

(** * Merging *)

Lemma merge_from seen done_ l :
  let '(seen', result) := foldl (fun '(seen, result) entry =>
      if bool_decide (entry_key entry ∈ seen) then (seen, result)
      else (seen ∪ {[entry_key entry]}, result ++ [entry])) ((seen : gset string), done_) l in
  (forall k, k ∈ seen <-> k ∈ entry_key <$> done_) -> NoDup (entry_key <$> done_) ->
  NoDup (entry_key <$> result) /\ (forall k, first_entry result k = first_entry (done_ ++ l) k)
  /\ (forall e, e ∈ result -> e ∈ done_ ++ l).
Proof.
  revert seen done_. induction l as [|e l IH]; intros seen done_; simpl.
  { intros Hs Hn. rewrite app_nil_r. done. }
  destruct (bool_decide (entry_key e ∈ seen)) eqn:E.
  - apply bool_decide_eq_true in E. specialize (IH seen done_). destruct (foldl _ _ _) as [seen' result].
    intros Hs Hn. destruct (IH Hs Hn) as (H1 & H2 & H3). split; [done|]. split; [|intros x Hx%H3; set_solver].
    intros k. rewrite H2, !first_entry_app. destruct (first_entry done_ k) eqn:Ek; [done|].
    rewrite first_entry_cons, decide_False; [done|]. intros ->. apply first_entry_None in Ek. by apply Ek, Hs.
  - apply bool_decide_eq_false in E. specialize (IH (seen ∪ {[entry_key e]}) (done_ ++ [e])).
    destruct (foldl _ _ _) as [seen' result]. intros Hs Hn. rewrite <- app_assoc in IH. apply IH.
    + intros k. rewrite fmap_app. simpl. rewrite elem_of_union, elem_of_app, Hs. set_solver.
    + rewrite fmap_app. simpl. apply NoDup_app. split; [done|]. split; [|apply NoDup_singleton].
      intros k Hk ->%list_elem_of_singleton. by apply E, Hs.
Qed.

Lemma merge_entries_spec l :
  NoDup (entry_key <$> merge_entries l) /\ (forall k, first_entry (merge_entries l) k = first_entry l k)
  /\ (forall e, e ∈ merge_entries l -> e ∈ l).
Proof.
  unfold merge_entries. pose proof (merge_from ∅ [] l) as Hm. destruct (foldl _ _ _) as [seen result]. apply Hm; [set_solver|constructor].
Qed.

(** * Well-formed groups *)

(** Every group is a snapshot of depth 0 or one deeper than a group that is
    there, within the depth limit; entries belong to groups. *)
Record well_grouped (s : PersistentStore) : Prop := {
  wg_groups : groups_ok (state_groups s);
  wg_entries : entries_ok (state_group_state s);
  wg_depth : forall id g, find_persistent_state_group s id = Some g ->
    match sg_parent_state_group_id g with
    | None => sg_delta_depth g = 0
    | Some p => 0 < sg_delta_depth g <= Z.of_nat max_state_group_delta_depth
                /\ exists pg, find_persistent_state_group s p = Some pg /\ sg_delta_depth pg = sg_delta_depth g - 1
    end;
  wg_owner : forall e, e ∈ StateGroupEntryTable.rows (state_group_state s) ->
    is_Some (find_persistent_state_group s (ge_state_group_id e))
}.

Lemma group_own_id s id g : well_grouped s -> find_persistent_state_group s id = Some g -> sg_state_group_id g = id.
Proof. intros Hwf Hg. by apply (find_group _ _ _ (wg_groups s Hwf)) in Hg as [_ ?]. Qed.

Lemma group_depth_bounds s id g : well_grouped s -> find_persistent_state_group s id = Some g ->
  0 <= sg_delta_depth g <= Z.of_nat max_state_group_delta_depth.
Proof. intros Hwf Hg. pose proof (wg_depth s Hwf id g Hg) as Hd. destruct (sg_parent_state_group_id g); lia. Qed.

(** A chain reaches its snapshot: the depth falls at each link, so no group is
    met twice and the budget suffices. *)
Lemma group_chain_exists s budget visited id g : well_grouped s ->
  find_persistent_state_group s id = Some g -> sg_delta_depth g <= Z.of_nat budget ->
  (forall v, v ∈ visited -> exists vg, find_persistent_state_group s v = Some vg /\ sg_delta_depth g < sg_delta_depth vg) ->
  exists chain, group_chain budget s visited id = Some chain.
Proof.
  intros Hwf. revert visited id g. induction budget as [|budget IH]; intros visited id g Hg Hd Hv; simpl;
    (rewrite bool_decide_eq_false_2; [|intros Hin; apply Hv in Hin as (vg & Hvg & Hlt); simplify_eq; lia]);
    rewrite Hg; pose proof (wg_depth s Hwf id g Hg) as Hdepth; destruct (sg_parent_state_group_id g) as [p|]; eauto.
  - lia.
  - destruct Hdepth as (Hpos & pg & Hpg & Heq). destruct (IH (visited ∪ {[id]}) p pg) as [chain ->]; [done|lia| |by eexists].
    intros v [Hin| ->%elem_of_singleton]%elem_of_union; [|exists g; split; [done|lia]].
    apply Hv in Hin as (vg & Hvg & Hlt). exists vg. split; [done|lia].
Qed.

Lemma group_chain_members s budget visited id chain : group_chain budget s visited id = Some chain ->
  forall g, g ∈ chain -> exists i, find_persistent_state_group s i = Some g.
Proof.
  revert visited id chain. induction budget as [|budget IH]; intros visited id chain; simpl; destruct (bool_decide _); try done;
    destruct (find_persistent_state_group s id) as [g|] eqn:Eg; try done; destruct (sg_parent_state_group_id g) as [p|]; try done.
  1,3: intros [= <-] x ->%list_elem_of_singleton; by eexists.
  intros (c & Hc & ->)%fmap_Some x [->|Hx]%elem_of_cons; [by eexists|]. by eapply IH.
Qed.

(** A chain does not notice groups that are added. *)
Lemma group_chain_mono s s' budget visited id chain :
  (forall i g, find_persistent_state_group s i = Some g -> find_persistent_state_group s' i = Some g) ->
  group_chain budget s visited id = Some chain -> group_chain budget s' visited id = Some chain.
Proof.
  intros Hsub. revert visited id chain. induction budget as [|budget IH]; intros visited id chain; simpl; destruct (bool_decide _); try done;
    destruct (find_persistent_state_group s id) as [g|] eqn:Eg; try done; rewrite (Hsub _ _ Eg);
    destruct (sg_parent_state_group_id g) as [p|]; try done.
  intros (c & Hc & ->)%fmap_Some. by rewrite (IH _ _ _ Hc).
Qed.

(** A chain from a group is the group and its parent's chain. *)
Lemma group_chain_visited s budget visited id chain : group_chain budget s visited id = Some chain ->
  forall visited', visited' ⊆ visited -> group_chain budget s visited' id = Some chain.
Proof.
  revert visited id chain. induction budget as [|budget IH]; intros visited id chain; simpl; destruct (bool_decide (id ∈ visited)) eqn:E; try done;
    intros Hc visited' Hsub; apply bool_decide_eq_false in E; (rewrite bool_decide_eq_false_2; [|set_solver]);
    destruct (find_persistent_state_group s id) as [g|]; try done; destruct (sg_parent_state_group_id g) as [p|]; try done.
  apply fmap_Some in Hc as (c & Hc & ->). rewrite (IH _ _ _ Hc); [done|set_solver].
Qed.

Lemma group_chain_budget s budget budget' visited id chain : (budget <= budget')%nat ->
  group_chain budget s visited id = Some chain -> group_chain budget' s visited id = Some chain.
Proof.
  revert budget' visited id chain. induction budget as [|budget IH]; intros [|budget'] visited id chain Hle; try lia; try done; simpl;
    destruct (bool_decide _); try done; destruct (find_persistent_state_group s id) as [g|]; try done;
    destruct (sg_parent_state_group_id g) as [p|]; try done.
  intros (c & Hc & ->)%fmap_Some. by rewrite (IH budget' _ _ c) by (done || lia).
Qed.

(** The entries of a group and of what it is a delta of, nearest first. *)
Definition chain_entries (s : PersistentStore) (chain : list PersistentStateGroup) : list Entry :=
  chain ≫= fun group => StateGroupEntryTable.entries_of (sg_state_group_id group) (state_group_state s).

Definition group_entries (s : PersistentStore) (id : string) : option (list Entry) :=
  chain_entries s <$> group_chain max_state_group_delta_depth s ∅ id.

Lemma read_group_entries s id : read_state_group_full_state s id = merge_entries <$> group_entries s id.
Proof. unfold read_state_group_full_state, group_entries. rewrite <- option_fmap_compose. done. Qed.

(** The state a group stands for. *)
Definition group_map (s : PersistentStore) (id : string) : option (gmap string string) :=
  to_state_group_map <$> read_state_group_full_state s id.

Lemma group_map_entries s id : group_map s id = to_state_group_map <$> group_entries s id.
Proof.
  unfold group_map. rewrite read_group_entries. destruct (group_entries s id) as [l|]; [|done]. simpl. f_equal.
  apply state_group_map_eq. apply merge_entries_spec.
Qed.

Lemma group_readable s id g : well_grouped s -> find_persistent_state_group s id = Some g ->
  exists full, read_state_group_full_state s id = Some full.
Proof.
  intros Hwf Hg. pose proof (group_depth_bounds s id g Hwf Hg) as Hd.
  destruct (group_chain_exists s max_state_group_delta_depth ∅ id g) as [chain Hc]; [done|done|lia|set_solver|].
  unfold read_state_group_full_state. rewrite Hc. by eexists.
Qed.

Lemma read_names_group s id full : read_state_group_full_state s id = Some full -> is_Some (find_persistent_state_group s id).
Proof.
  unfold read_state_group_full_state. generalize max_state_group_delta_depth as budget. intros budget (chain & Hc & _)%fmap_Some.
  destruct (find_persistent_state_group s id) eqn:E; [by eexists|]. exfalso.
  destruct budget; simpl in Hc; destruct (bool_decide _); by rewrite ?E in Hc.
Qed.

Lemma group_chain_link s budget id g p : find_persistent_state_group s id = Some g -> sg_parent_state_group_id g = Some p ->
  group_chain (S budget) s ∅ id = cons g <$> group_chain budget s (∅ ∪ {[id]}) p.
Proof. intros Hg Hp. simpl. by rewrite Hg, Hp. Qed.

Lemma delta_group_chain s budget id g p pg chain : well_grouped s ->
  find_persistent_state_group s id = Some g -> sg_parent_state_group_id g = Some p ->
  find_persistent_state_group s p = Some pg -> sg_delta_depth g <= Z.of_nat (S budget) ->
  group_chain (S budget) s ∅ p = Some chain -> group_chain (S budget) s ∅ id = Some (g :: chain).
Proof.
  intros Hwf Hg Hp Hpg Hd Hc. pose proof (wg_depth s Hwf id g Hg) as Hdepth. rewrite Hp in Hdepth.
  destruct Hdepth as (_ & pg' & Hpg' & Heq). simplify_eq.
  destruct (group_chain_exists s budget (∅ ∪ {[id]}) p pg) as [c Hc']; [done|done|lia| |].
  { intros v [[]%not_elem_of_empty| ->%elem_of_singleton]%elem_of_union. exists g. split; [done|lia]. }
  rewrite (group_chain_link s _ id g p Hg Hp), Hc'. simpl. f_equal. f_equal.
  apply (group_chain_budget _ _ (S budget)) in Hc'; [|lia].
  pose proof (group_chain_visited _ _ _ _ _ Hc' ∅ (empty_subseteq _)). congruence.
Qed.

Lemma delta_group_entries s id g p pg l : well_grouped s ->
  find_persistent_state_group s id = Some g -> sg_parent_state_group_id g = Some p ->
  find_persistent_state_group s p = Some pg -> group_entries s p = Some l ->
  group_entries s id = Some (StateGroupEntryTable.entries_of id (state_group_state s) ++ l).
Proof.
  intros Hwf Hg Hp Hpg. unfold group_entries. intros (chain & Hc & ->)%fmap_Some.
  pose proof (proj2 (group_depth_bounds s id g Hwf Hg)) as Hd.
  assert (exists budget, max_state_group_delta_depth = S budget) as [budget Hb] by (by eexists).
  rewrite Hb in *. rewrite (delta_group_chain s budget id g p pg chain) by done. simpl.
  by rewrite (group_own_id s id g Hwf Hg).
Qed.
