(* ===== verification/StateGroupsWrite.v ===== *)
(** Writing a state group: what is written reads back as the state it was
    written for, whether the code chose a snapshot, a delta or the parent
    itself, and no other group changes. *)
From S2P Require Import Prelude CppStd JsonValue JsonParser EventShape EventTable StateTables Store StoreLookup StoreWrites HistoryVisibility StateGroups.
Open Scope Z_scope.

Lemma filter_none {A} (P : A -> Prop) `{!forall x, Decision (P x)} (l : list A) : (forall x, x ∈ l -> ~ P x) -> filter P l = [].
Proof. induction l as [|x l IH]; intros Hl; [done|]. rewrite filter_cons, decide_False by (apply Hl; by left). apply IH. set_solver. Qed.

Lemma filter_every {A} (P : A -> Prop) `{!forall x, Decision (P x)} (l : list A) : (forall x, x ∈ l -> P x) -> filter P l = l.
Proof. induction l as [|x l IH]; intros Hl; [done|]. rewrite filter_cons, decide_True by (apply Hl; by left). f_equal. apply IH. set_solver. Qed.

(** * The tables after a write *)

Lemma find_inserted_group tb g i : groups_ok tb -> StateGroupTable.find (sg_state_group_id g) tb = None ->
  StateGroupTable.find i (StateGroupTable.insert g tb).2 =
  if decide (i = sg_state_group_id g) then Some g else StateGroupTable.find i tb.
Proof.
  intros Hok Hnew. pose proof (group_insert_ok g tb Hok) as Hok'. apply option_eq. intros x. rewrite (find_group _ _ _ Hok').
  assert (StateGroupTable.by_id tb !! sg_state_group_id g = None) as Hidx.
  { destruct (_ !! _) as [p|] eqn:E; [|done]. exfalso. apply Hok in E as (r & Hr & Hk).
    assert (StateGroupTable.find (sg_state_group_id g) tb = Some r); [|congruence].
    apply (find_group _ _ _ Hok). split; [by eapply list_elem_of_lookup_2|done]. }
  assert (StateGroupTable.rows (StateGroupTable.insert g tb).2 = StateGroupTable.rows tb ++ [g]) as ->
    by (unfold StateGroupTable.insert; by rewrite Hidx).
  rewrite elem_of_app, list_elem_of_singleton. destruct (decide (i = sg_state_group_id g)) as [->|Hne].
  - split; [intros [[Hx| ->] Hid]; [|done]|intros [= <-]; auto]. exfalso.
    assert (StateGroupTable.find (sg_state_group_id g) tb = Some x) by (by apply (find_group _ _ _ Hok)). congruence.
  - rewrite (find_group _ _ _ Hok). naive_solver.
Qed.

Lemma insert_all_entries es tb : StateGroupEntryTable.rows (StateGroupEntryTable.insert_all es tb)
  = StateGroupEntryTable.rows tb ++ es.
Proof.
  unfold StateGroupEntryTable.insert_all. revert tb. induction es as [|e es IH]; intros tb; simpl; [by rewrite app_nil_r|].
  rewrite IH. simpl. by rewrite <- app_assoc.
Qed.

Lemma entries_of_inserted es tb i : entries_ok tb ->
  StateGroupEntryTable.entries_of i (StateGroupEntryTable.insert_all es tb) =
  StateGroupEntryTable.entries_of i tb ++ filter (fun e => ge_state_group_id e = i) es.
Proof.
  intros Hok. pose proof (entry_step_ok _ _ (entry_insert_all es tb) Hok) as Hok'.
  by rewrite (entries_of_group _ _ Hok'), (entries_of_group _ _ Hok), insert_all_entries, filter_app.
Qed.

(** * Adding a group *)

Section AddGroup.
Context (s : PersistentStore) (g : PersistentStateGroup) (rows : list Entry).
Hypothesis Hwf : well_grouped s.
Hypothesis Hnew : find_persistent_state_group s (sg_state_group_id g) = None.
Hypothesis Hrows : Forall (fun e => ge_state_group_id e = sg_state_group_id g) rows.

Let s' : PersistentStore := with_groups s (StateGroupTable.insert g (state_groups s)).2
  (StateGroupEntryTable.insert_all rows (state_group_state s)).

Lemma added_find i : find_persistent_state_group s' i =
  if decide (i = sg_state_group_id g) then Some g else find_persistent_state_group s i.
Proof. apply (find_inserted_group _ _ _ (wg_groups s Hwf) Hnew). Qed.

Lemma added_find_old i x : find_persistent_state_group s i = Some x -> find_persistent_state_group s' i = Some x.
Proof. rewrite added_find. destruct (decide _) as [->|_]; [|done]. by rewrite Hnew. Qed.

Lemma added_entries_new : StateGroupEntryTable.entries_of (sg_state_group_id g) (state_group_state s') = rows.
Proof.
  simpl. rewrite (entries_of_inserted _ _ _ (wg_entries s Hwf)), (entries_of_group _ _ (wg_entries s Hwf)).
  assert (filter (fun e => ge_state_group_id e = sg_state_group_id g)
            (StateGroupEntryTable.rows (state_group_state s)) = []) as ->.
  { apply filter_none. intros e He Hid. apply (wg_owner s Hwf) in He as [x Hx]. congruence. }
  rewrite app_nil_l. apply filter_every. by apply Forall_forall.
Qed.

Lemma added_entries_old i : i <> sg_state_group_id g ->
  StateGroupEntryTable.entries_of i (state_group_state s') = StateGroupEntryTable.entries_of i (state_group_state s).
Proof.
  intros Hi. simpl. rewrite (entries_of_inserted _ _ _ (wg_entries s Hwf)).
  rewrite (filter_none _ rows); [by rewrite app_nil_r|]. intros e He Hid. rewrite Forall_forall in Hrows.
  apply Hrows in He. congruence.
Qed.

Lemma added_group_entries i l : group_entries s i = Some l -> group_entries s' i = Some l.
Proof.
  unfold group_entries. intros (chain & Hc & ->)%fmap_Some.
  rewrite (group_chain_mono s s' _ _ _ chain added_find_old Hc). simpl. f_equal. unfold chain_entries.
  pose proof (group_chain_members _ _ _ _ _ Hc) as Hm. clear Hc. induction chain as [|x chain IH]; [done|].
  rewrite !bind_cons, IH by (intros y Hy; apply Hm; by right). f_equal. apply added_entries_old. intros Heq.
  destruct (Hm x ltac:(by left)) as [j Hj]. pose proof (group_own_id s j x Hwf Hj) as Hid. congruence.
Qed.

(** The new group is a snapshot, or one deeper than a group that is there. *)
Hypothesis Hdepth :
  match sg_parent_state_group_id g with
  | None => sg_delta_depth g = 0
  | Some p => 0 < sg_delta_depth g <= Z.of_nat max_state_group_delta_depth
              /\ exists pg, find_persistent_state_group s p = Some pg /\ sg_delta_depth pg = sg_delta_depth g - 1
  end.

Lemma added_well_grouped : well_grouped s'.
Proof.
  constructor.
  - apply (group_insert_ok g _ (wg_groups s Hwf)).
  - apply (entry_step_ok _ _ (entry_insert_all rows _) (wg_entries s Hwf)).
  - assert (forall x, match sg_parent_state_group_id x with
      | None => sg_delta_depth x = 0
      | Some p => 0 < sg_delta_depth x <= Z.of_nat max_state_group_delta_depth
                  /\ exists pg, find_persistent_state_group s p = Some pg /\ sg_delta_depth pg = sg_delta_depth x - 1
      end -> match sg_parent_state_group_id x with
      | None => sg_delta_depth x = 0
      | Some p => 0 < sg_delta_depth x <= Z.of_nat max_state_group_delta_depth
                  /\ exists pg, find_persistent_state_group s' p = Some pg /\ sg_delta_depth pg = sg_delta_depth x - 1
      end) as Hmono.
    { intros x. destruct (sg_parent_state_group_id x) as [p|]; [|done]. intros (Hb & pg & Hpg & Heq). split; [done|].
      exists pg. split; [by apply added_find_old|done]. }
    intros i x. rewrite added_find. destruct (decide _) as [->|_]; [intros [= <-]|intros Hx]; apply Hmono; [done|].
    by apply (wg_depth s Hwf i).
  - intros e. simpl. rewrite insert_all_entries, elem_of_app, added_find. intros [He|He].
    + apply (wg_owner s Hwf) in He as [x Hx]. destruct (decide _); eauto.
    + rewrite Forall_forall in Hrows. apply Hrows in He. rewrite He, decide_True by done. by eexists.
Qed.

(** A snapshot's own entries are its state; a delta's come before its parent's. *)
Lemma added_snapshot : sg_parent_state_group_id g = None -> group_entries s' (sg_state_group_id g) = Some rows.
Proof.
  intros Hp. unfold group_entries. assert (find_persistent_state_group s' (sg_state_group_id g) = Some g) as Hg
    by (by rewrite added_find, decide_True). generalize max_state_group_delta_depth as budget. intros budget.
  assert (group_chain budget s' ∅ (sg_state_group_id g) = Some [g]) as -> by (destruct budget; simpl; by rewrite Hg, Hp).
  change (Some (chain_entries s' [g]) = Some rows). unfold chain_entries. rewrite bind_cons, added_entries_new. simpl.
  by rewrite app_nil_r.
Qed.

Lemma added_delta p l : sg_parent_state_group_id g = Some p -> group_entries s p = Some l ->
  group_entries s' (sg_state_group_id g) = Some (rows ++ l).
Proof.
  intros Hp Hl. pose proof Hdepth as Hd. rewrite Hp in Hd. destruct Hd as (_ & pg & Hpg & _).
  rewrite (delta_group_entries s' _ g p pg l added_well_grouped); [by rewrite added_entries_new| | | |].
  - by rewrite added_find, decide_True.
  - done.
  - by apply added_find_old.
  - by apply added_group_entries.
Qed.
End AddGroup.

(** * The choice between reuse, delta and snapshot *)

(** The entries that differ, before the parent's, give the requested state when
    the parent has no key that the request lacks. *)
Lemma delta_restores full parent_full : NoDup (entry_key <$> full) ->
  dom (to_state_group_map parent_full) ⊆ dom (to_state_group_map full) ->
  forall k, first_entry (changed_entries (to_state_group_map parent_full) full ++ parent_full) k = first_entry full k.
Proof.
  intros Hn Hdom k. rewrite first_entry_app. unfold changed_entries.
  set (P := fun e => to_state_group_map parent_full !! entry_key e <> Some (ge_event_id e)).
  destruct (first_entry full k) as [id|] eqn:Ek.
  - apply first_entry_member in Ek as (e & He & <- & <-). destruct (first_entry (filter P full) (entry_key e)) as [id|] eqn:Ef.
    + apply first_entry_member in Ef as (e' & [_ He']%list_elem_of_filter & Hk & <-).
      pose proof (first_entry_unique full e Hn He) as H1. pose proof (first_entry_unique full e' Hn He') as H2. congruence.
    + apply first_entry_None in Ef. rewrite <- state_group_map_lookup. apply dec_stable. intros Hne. apply Ef.
      apply list_elem_of_fmap_2, list_elem_of_filter. done.
  - assert (k ∉ dom (to_state_group_map parent_full)) as Hp
      by (intros Hin%Hdom; apply elem_of_dom in Hin as [x Hx]; rewrite state_group_map_lookup in Hx; congruence).
    apply not_elem_of_dom in Hp. rewrite state_group_map_lookup in Hp. rewrite Hp.
    apply first_entry_None in Ek. assert (first_entry (filter P full) k = None) as ->; [|done].
    apply first_entry_None. intros (e & -> & [_ He]%list_elem_of_filter)%list_elem_of_fmap. apply Ek. by apply list_elem_of_fmap_2.
Qed.

Lemma new_group_rows room new parent rows :
  Forall (fun e => ge_state_group_id e = new) (pg_rows (new_state_group room new parent rows)).
Proof. simpl. apply Forall_forall. by intros e (x & -> & _)%list_elem_of_fmap. Qed.

Section RoundTrip.
Context (s : PersistentStore) (room new : string) (full : list Entry).
Hypothesis Hwf : well_grouped s.
Hypothesis Hnew : find_persistent_state_group s new = None.
Hypothesis Hfull : NoDup (entry_key <$> full).

(** The prepared group stands for [full] once applied, and nothing else moves. *)
Definition holds_state (prepared : PreparedStateGroup) : Prop :=
  let s' := apply_state_group prepared s in
  well_grouped s' /\ group_map s' (pg_state_group_id prepared) = Some (to_state_group_map full)
  /\ (forall id l, group_entries s id = Some l -> group_entries s' id = Some l).

Lemma snapshot_holds : holds_state (new_state_group room new None full).
Proof.
  unfold holds_state, apply_state_group. set (p := new_state_group room new None full). simpl pg_group. cbv iota.
  set (g := {| sg_state_group_id := new; sg_room_id := room; sg_parent_state_group_id := None; sg_delta_depth := 0 |}).
  change (fst <$> None) with (@None string).
  split; [|split].
  - by apply (added_well_grouped s g (pg_rows p) Hwf Hnew (new_group_rows room new None full)).
  - rewrite group_map_entries. etransitivity;
      [by apply (f_equal (fmap to_state_group_map)), (added_snapshot s g (pg_rows p) Hwf Hnew (new_group_rows room new None full))|].
    simpl. f_equal. apply state_group_map_eq. intros k. apply first_entry_retagged.
  - intros id l. apply (added_group_entries s g (pg_rows p) Hwf Hnew (new_group_rows room new None full)).
Qed.

Lemma delta_holds parent_id parent parent_full :
  find_persistent_state_group s parent_id = Some parent -> read_state_group_full_state s parent_id = Some parent_full ->
  sg_delta_depth parent + 1 <= Z.of_nat max_state_group_delta_depth ->
  dom (to_state_group_map parent_full) ⊆ dom (to_state_group_map full) ->
  holds_state (new_state_group room new (Some (parent_id, sg_delta_depth parent))
                 (changed_entries (to_state_group_map parent_full) full)).
Proof.
  intros Hp Hread Hdepth Hdom. pose proof (group_depth_bounds s _ _ Hwf Hp) as Hb.
  unfold holds_state, apply_state_group. set (rows := changed_entries _ full). set (p := new_state_group _ _ _ _).
  simpl pg_group. cbv iota. unfold max_state_group_delta_depth in Hdepth, Hb. rewrite Z.mod_small by lia.
  set (g := {| sg_state_group_id := new; sg_room_id := room; sg_parent_state_group_id := Some parent_id;
               sg_delta_depth := sg_delta_depth parent + 1 |}).
  change (fst <$> Some (parent_id, sg_delta_depth parent)) with (Some parent_id).
  assert (0 < sg_delta_depth g <= Z.of_nat max_state_group_delta_depth
    /\ exists pg, find_persistent_state_group s parent_id = Some pg /\ sg_delta_depth pg = sg_delta_depth g - 1) as Hok.
  { unfold max_state_group_delta_depth. simpl sg_delta_depth. split; [lia|]. exists parent. split; [done|lia]. }
  pose proof (new_group_rows room new (Some (parent_id, sg_delta_depth parent)) rows) as Hrows. fold p in Hrows.
  rewrite read_group_entries in Hread. apply fmap_Some in Hread as (l & Hl & ->).
  split; [|split].
  - by apply (added_well_grouped s g (pg_rows p) Hwf Hnew Hrows).
  - rewrite group_map_entries. etransitivity;
      [by apply (f_equal (fmap to_state_group_map)), (added_delta s g (pg_rows p) Hwf Hnew Hrows Hok parent_id l)|]. simpl. f_equal. apply state_group_map_eq. intros k. rewrite <- (delta_restores full (merge_entries l) Hfull Hdom k).
    rewrite !first_entry_app. simpl. rewrite first_entry_retagged. unfold rows. destruct (first_entry _ _); [done|].
    symmetry. apply merge_entries_spec.
  - intros id k. apply (added_group_entries s g (pg_rows p) Hwf Hnew Hrows).
Qed.

Lemma reuse_holds parent_id parent_full : read_state_group_full_state s parent_id = Some parent_full ->
  to_state_group_map full = to_state_group_map parent_full ->
  holds_state {| pg_state_group_id := parent_id; pg_group := None; pg_rows := []; pg_statements := [] |}.
Proof.
  intros Hread Heq. split; [done|]. split; [|done].
  change (to_state_group_map <$> read_state_group_full_state s parent_id = Some (to_state_group_map full)).
  by rewrite Hread, Heq.
Qed.

Lemma prepared_holds parent : (forall p, parent = Some p -> is_Some (find_persistent_state_group s p)) ->
  exists prepared, prepare_state_group s room new parent full = Some prepared /\ holds_state prepared
    /\ (pg_state_group_id prepared = new \/ Some (pg_state_group_id prepared) = parent /\ pg_group prepared = None).
Proof.
  intros Hparent. unfold prepare_state_group. destruct parent as [p|]; [|eauto using snapshot_holds].
  destruct (Hparent p eq_refl) as [g Hg]. destruct (group_readable s p g Hwf Hg) as [parent_full Hread].
  rewrite Hg, Hread. pose proof (group_depth_bounds s p g Hwf Hg) as Hb.
  destruct (bool_decide _) eqn:E1; [apply bool_decide_eq_true in E1; eauto 10 using reuse_holds|].
  destruct (_ || _) eqn:E2; [eauto using snapshot_holds|]. eexists. split; [done|]. split; [|by left]. breflect.
  apply bool_decide_eq_true in H0. unfold max_state_group_delta_depth in *. rewrite Z.mod_small in H by lia.
  by apply delta_holds.
Qed.
End RoundTrip.

(** * Properties *)

(** The primary key of [state_groups]: a transaction that would add a group
    whose ID is there is not taken. *)
Definition keeps_group_keys (backend : PersistentStore -> list Statement -> bool) : Prop :=
  forall s statements g, backend s statements = true -> insert_state_group g ∈ statements ->
    find_persistent_state_group s (sg_state_group_id g) = None.

Definition known_parent (s : PersistentStore) (parent : option string) : Prop :=
  match parent with None => True | Some p => is_Some (find_persistent_state_group s p) end.

#[export] Instance known_parent_dec s parent : Decision (known_parent s parent).
Proof. destruct parent; apply _. Defined.

Lemma prepare_unknown s room new parent full :
  ~ known_parent s parent -> prepare_state_group s room new parent full = None.
Proof.
  destruct parent as [p|]; simpl; [|done]. intros Hp. destruct (find_persistent_state_group s p) eqn:E; [|done].
  destruct Hp. by eexists.
Qed.

Lemma prepared_new_statement s room new parent full prepared g :
  prepare_state_group s room new parent full = Some prepared -> pg_group prepared = Some g ->
  sg_state_group_id g = new /\ insert_state_group g ∈ pg_statements prepared.
Proof.
  unfold prepare_state_group. destruct parent as [p|].
  - destruct (find_persistent_state_group s p) as [pg|]; [|done]. destruct (read_state_group_full_state s p); [|done].
    destruct (bool_decide _); [by intros [= <-]|]. destruct (_ || _); intros [= <-]; simpl; intros [= <-]; split; (done || by left).
  - intros [= <-]. simpl. intros [= <-]. split; [done|by left].
Qed.

(** A read does not depend on whether the group to be written is new when the
    parent is reused. *)
Lemma prepared_reuse s room new parent full prepared : well_grouped s ->
  prepare_state_group s room new parent full = Some prepared -> pg_group prepared = None ->
  holds_state s full prepared.
Proof.
  intros Hwf. unfold prepare_state_group. destruct parent as [p|]; [|by intros [= <-]].
  destruct (find_persistent_state_group s p) as [pg|]; [|done].
  destruct (read_state_group_full_state s p) as [parent_full|] eqn:Er; [|done].
  destruct (bool_decide _) eqn:E; [|by destruct (_ || _); intros [= <-]].
  apply bool_decide_eq_true in E. intros [= <-] _. by eapply reuse_holds.
Qed.

Lemma prepared_committed s room new parent full prepared : well_grouped s -> NoDup (entry_key <$> full) ->
  prepare_state_group s room new parent full = Some prepared ->
  (forall g, pg_group prepared = Some g -> find_persistent_state_group s (sg_state_group_id g) = None) ->
  holds_state s full prepared.
Proof.
  intros Hwf Hfull Hp Hfresh. destruct (pg_group prepared) as [g|] eqn:Eg; [|by eapply prepared_reuse].
  destruct (prepared_new_statement _ _ _ _ _ _ _ Hp Eg) as [Hid _]. pose proof (Hfresh g eq_refl) as Hnew. rewrite Hid in Hnew.
  destruct (prepared_holds s room new full Hwf Hnew Hfull parent) as (prepared' & Hp' & Hh & _); [|congruence].
  intros p ->. simpl in Hp. destruct (find_persistent_state_group s p); [by eexists|done].
Qed.

Lemma group_written backend s room new parent full :
  keeps_group_keys backend \/ find_persistent_state_group s new = None -> well_grouped s -> NoDup (entry_key <$> full) ->
  match create_or_reuse_state_group backend room new parent full s with
  | (Some id, s') =>
      known_parent s parent /\ well_grouped s' /\ group_map s' id = Some (to_state_group_map full)
      /\ (forall other state, read_state_group_full_state s other = Some state -> read_state_group_full_state s' other = Some state)
      /\ (forall other g, find_persistent_state_group s' other = Some g -> is_Some (read_state_group_full_state s' other))
  | (None, s') => s' = s /\ (~ known_parent s parent \/ exists statements, statements <> [] /\ backend s statements = false)
  end.
Proof.
  intros Hkeys Hwf Hfull. unfold create_or_reuse_state_group.
  destruct (prepare_state_group s room new parent full) as [prepared|] eqn:Ep.
  - destruct (commit_persistent_transaction _ _ _) eqn:Ec; simpl.
    + destruct (prepared_committed s room new parent full prepared Hwf Hfull Ep) as (Hwf' & Hmap & Hother).
      { intros g Hg. destruct (prepared_new_statement _ _ _ _ _ _ _ Ep Hg) as [<- Hin].
        destruct Hkeys as [Hkeys|Hnew]; [|done]. eapply Hkeys; [|exact Hin]. by destruct (pg_statements prepared); [set_solver|]. }
      split. { apply dec_stable. intros Hn. by rewrite prepare_unknown in Ep. }
      split; [done|]. split; [done|]. split; [|intros; by eapply group_readable].
      intros other state. rewrite !read_group_entries. intros (l & Hl & ->)%fmap_Some. by rewrite (Hother _ _ Hl).
    + split; [done|]. right. exists (pg_statements prepared). by destruct (pg_statements prepared).
  - simpl. split; [done|]. left. intros Hknown. destruct parent as [p|]; [|done]. simpl in Hknown, Ep. destruct Hknown as [g Hg].
    destruct (group_readable s p g Hwf Hg) as [f Hf]. rewrite Hg, Hf in Ep. destruct (bool_decide _); [done|]. by destruct (_ || _).
Qed.

(** The parent reads as the requested state, so that nothing is to be written. *)
Definition already_held (s : PersistentStore) (parent : option string) (full : list PersistentStateGroupStateEntry) : Prop :=
  exists p state, parent = Some p /\ read_state_group_full_state s p = Some state
    /\ to_state_group_map state = to_state_group_map full.

(** What is prepared for a known parent: the parent itself and no statement when it
    holds the state, a new group and the statement that writes it when not. *)
Lemma prepared_for_known s room new parent full : well_grouped s -> known_parent s parent ->
  exists prepared, prepare_state_group s room new parent full = Some prepared
    /\ (already_held s parent full /\ pg_statements prepared = [] /\ parent = Some (pg_state_group_id prepared)
          /\ pg_group prepared = None
        \/ ~ already_held s parent full /\ pg_state_group_id prepared = new
          /\ exists g, insert_state_group g ∈ pg_statements prepared /\ sg_state_group_id g = new).
Proof.
  intros Hwf Hknown. destruct parent as [p|]; simpl in *.
  - destruct Hknown as [g Hg]. destruct (group_readable s p g Hwf Hg) as [state Hr]. rewrite Hg, Hr.
    assert (already_held s (Some p) full <-> to_state_group_map full = to_state_group_map state) as Hheld.
    { split; [by intros (? & ? & [= <-] & ? & ?); congruence|]. intros Hm. by exists p, state. }
    case_bool_decide as Hm; [eexists; split; [done|]; left; by split; [apply Hheld|]|].
    destruct (_ || _); eexists; (split; [done|]); right; (split; [by rewrite Hheld|]); (split; [done|]); eexists; (split; [by left|done]).
  - eexists. split; [done|]. right. split; [by intros (? & ? & ? & _)|]. split; [done|]. eexists. by split; [left|].
Qed.

(** C9. Creating or reusing a state group on a well-formed store, for a state that
    names each key once.  It succeeds if and only if the parent, when one is named,
    is known and either the parent already has the requested state or the database
    takes the transaction that was prepared.  In the first case it returns the
    parent and writes nothing; otherwise the transaction writes a group under the
    new ID, which is what it returns.  The group it returns then reads as exactly
    the requested state, whether it is a snapshot, a delta or the parent itself;
    every other group reads as before; and the store stays well formed, with every
    group readable within the depth limit.  A failure changes nothing.  This
    supposes that the new ID is free or that the database refuses to write a group
    under an ID that is taken, as the primary key of both SQL backends does (the
    in-memory backend does not, so there the ID has to be free). *)
Theorem state_groups_round_trip backend s room new parent full :
  keeps_group_keys backend \/ find_persistent_state_group s new = None -> well_grouped s -> NoDup (entry_key <$> full) ->
  let '(group, s') := create_or_reuse_state_group backend room new parent full s in
  (is_Some group <-> known_parent s parent /\ (already_held s parent full
     \/ exists prepared, prepare_state_group s room new parent full = Some prepared /\ backend s (pg_statements prepared) = true))
  /\ (already_held s parent full -> group = parent /\ s' = s)
  /\ (~ already_held s parent full -> forall prepared, prepare_state_group s room new parent full = Some prepared ->
        exists g, insert_state_group g ∈ pg_statements prepared /\ sg_state_group_id g = new)
  /\ match group with
     | Some id =>
         (id = new \/ already_held s parent full) /\ well_grouped s' /\ group_map s' id = Some (to_state_group_map full)
         /\ (forall other state, read_state_group_full_state s other = Some state -> read_state_group_full_state s' other = Some state)
         /\ (forall other g, find_persistent_state_group s' other = Some g -> is_Some (read_state_group_full_state s' other))
     | None => s' = s
     end.
Proof.
  intros Hkeys Hwf Hfull. pose proof (group_written backend s room new parent full Hkeys Hwf Hfull) as Hw.
  assert (already_held s parent full -> known_parent s parent) as Hhk.
  { intros (p & state & -> & Hr & _). by eapply read_names_group. }
  destruct (decide (known_parent s parent)) as [Hknown|Hno]; cycle 1.
  { assert (create_or_reuse_state_group backend room new parent full s = (None, s)) as ->
      by (unfold create_or_reuse_state_group; by rewrite prepare_unknown).
    rewrite (prepare_unknown s room new parent full Hno). split; [split; [by intros []|by intros []]|].
    split; [by intros Hh%Hhk|]. by split. }
  destruct (prepared_for_known s room new parent full Hwf Hknown) as (prepared & Hp & Hcase).
  unfold create_or_reuse_state_group in *. rewrite Hp in Hw |- *.
  destruct Hcase as [(Hheld & Hst & Hpar & Hg)|(Hheld & Hid & Hin)].
  - rewrite Hst in Hw |- *. simpl in Hw |- *. assert (apply_state_group prepared s = s) as Ha by (unfold apply_state_group; by rewrite Hg).
    split; [split; [by auto|by eexists]|]. split; [done|]. split; [done|]. split; [by right|]. by destruct Hw as (_ & ?).
  - assert (commit_persistent_transaction backend s (pg_statements prepared) = backend s (pg_statements prepared)) as Hc.
    { destruct Hin as (g & Hin & _). by destruct (pg_statements prepared); [set_solver|]. }
    rewrite Hc in Hw |- *. assert (forall prepared', Some prepared = Some prepared' ->
      exists g, insert_state_group g ∈ pg_statements prepared' /\ sg_state_group_id g = new) as Hall by (by intros ? [= <-]).
    destruct (backend s (pg_statements prepared)) eqn:Eb; simpl in Hw |- *.
    + split; [split; [by eauto|by eexists]|]. split; [done|]. split; [done|]. split; [by left|]. by destruct Hw as (_ & ?).
    + split; [split; [by intros []|by intros (_ & [?|(? & [= <-] & ?)]); [|congruence]]|]. split; [done|]. by split.
Qed.

(** ** One entry of a group *)

Definition is_entry (event_type state_key : string) (e : Entry) : bool :=
  (ge_event_type e =s event_type) && (ge_state_key e =s state_key).

Lemma find_app {A} (f : A -> bool) (l1 l2 : list A) :
  List.find f (l1 ++ l2) = match List.find f l1 with Some x => Some x | None => List.find f l2 end.
Proof. induction l1 as [|x l1 IH]; [done|]. simpl. by destruct (f x). Qed.

Lemma lookup_from_chain s budget visited id chain event_type state_key : well_grouped s ->
  group_chain budget s visited id = Some chain ->
  lookup_from (S budget) s visited id event_type state_key =
  match List.find (is_entry event_type state_key) (chain_entries s chain) with
  | Some e => group_found (ge_event_id e)
  | None => group_absent
  end.
Proof.
  intros Hwf. revert visited id chain. induction budget as [|budget IH]; intros visited id chain Hc; simpl in Hc;
    cbn [lookup_from]; destruct (bool_decide _); try done;
    (destruct (find_persistent_state_group s id) as [g|] eqn:Eg; [|done]);
    pose proof (group_own_id s id g Hwf Eg) as Hid; unfold find_persistent_state_group in Eg; rewrite Eg;
    destruct (sg_parent_state_group_id g) as [p|] eqn:Ep; try done.
  1,3: injection Hc as <-; unfold chain_entries; simpl; rewrite app_nil_r, Hid; fold (is_entry event_type state_key);
       destruct (List.find _ _); done.
  apply fmap_Some in Hc as (c & Hc & ->). unfold chain_entries. rewrite bind_cons, find_app, Hid. fold (is_entry event_type state_key).
  destruct (List.find (is_entry _ _) (StateGroupEntryTable.entries_of _ _)); [done|]. by apply IH.
Qed.

Definition plain_types (s : PersistentStore) : Prop :=
  Forall (fun e => no_nul (ge_event_type e)) (StateGroupEntryTable.rows (state_group_state s)).

Lemma chain_entries_stored s chain e : well_grouped s -> e ∈ chain_entries s chain ->
  e ∈ StateGroupEntryTable.rows (state_group_state s).
Proof.
  intros Hwf (g & Hg & _)%list_elem_of_bind. rewrite (entries_of_group _ _ (wg_entries s Hwf)) in Hg.
  by apply list_elem_of_filter in Hg as [_ ?].
Qed.

Lemma find_by_key l event_type state_key : no_nul event_type -> Forall (fun e => no_nul (ge_event_type e)) l ->
  List.find (is_entry event_type state_key) l = List.find (has_key (state_group_entry_key event_type state_key)) l.
Proof.
  intros Ht. induction 1 as [|e l He Hl IH]; [done|]. simpl. rewrite IH.
  enough (is_entry event_type state_key e = has_key (state_group_entry_key event_type state_key) e) as -> by done.
  unfold is_entry, has_key. apply eq_true_iff_eq. split; intros Hb; breflect.
  - subst. apply String.eqb_refl.
  - unfold entry_key, state_group_entry_key in Hb. apply nul_split in Hb as [-> ->]; [|done|done]. by rewrite !String.eqb_refl.
Qed.

(** The two readers of state groups agree.  For a group of a well-formed store
    whose event types hold no NUL, the lookup of one entry that history visibility
    makes is never broken, and it answers what the full read of the group has for
    that type and state key. *)
Theorem state_group_lookups_agree s id event_type state_key :
  well_grouped s -> plain_types s -> no_nul event_type -> is_Some (find_persistent_state_group s id) ->
  exists full, read_state_group_full_state s id = Some full /\ NoDup (entry_key <$> full)
    /\ lookup_state_in_group s id event_type state_key =
       match to_state_group_map full !! state_group_entry_key event_type state_key with
       | Some event_id => group_found event_id
       | None => group_absent
       end.
Proof.
  intros Hwf Hplain Ht [g Hg]. destruct (group_readable s id g Hwf Hg) as [full Hread]. exists full. split; [done|].
  unfold lookup_state_in_group. revert Hread. unfold read_state_group_full_state.
  generalize max_state_group_delta_depth as budget. intros budget (chain & Hc & ->)%fmap_Some.
  fold (chain_entries s chain). destruct (merge_entries_spec (chain_entries s chain)) as (Hn & Hf & _). split; [done|].
  rewrite (lookup_from_chain s budget ∅ id chain _ _ Hwf Hc), state_group_map_lookup, Hf, find_by_key; [|done|].
  - unfold first_entry. by destruct (List.find _ _).
  - apply Forall_forall. intros e He%chain_entries_stored; [|done]. unfold plain_types in Hplain. rewrite Forall_forall in Hplain. auto.
Qed.
