(* ===== verification/EventSource.v ===== *)
(** The data of state resolution (StateKey.hpp, StateEventReference.hpp,
    StateGroup.hpp, StateResolutionLimits.hpp, StateResolutionRequest.hpp,
    StateResolutionResult.hpp and limits.hpp of include/merovingian/events, with
    the small helpers of state_resolution.cpp), its event source and the walks
    over auth chains: AuthChainEventSource, power_levels_auth_ancestor,
    walk_auth_chain, full_auth_chain_of_group and compute_auth_difference.

    [std::unordered_map] keyed by StateKey or event ID is a [gmap]; the order in
    which such a container is iterated is a parameter ([IterationOrder]), since
    the C++ standard leaves it unspecified.  The source is threaded through
    explicitly: it caches what it fetched, counts the calls it makes to the
    caller's lookup against a budget, and remembers whether a required event was
    missing. *)
From S2P Require Import Prelude CppStd JsonValue JsonSerializer RoomVersion Signing EventAuth.
Open Scope Z_scope.

Record StateKey : Type := mkStateKey { sk_event_type : string; sk_state_key : string }.

#[export] Instance StateKey_eq_dec : EqDecision StateKey.
Proof. solve_decision. Defined.

#[export] Program Instance StateKey_countable : Countable StateKey :=
  inj_countable' (fun k => (sk_event_type k, sk_state_key k)) (fun p => mkStateKey p.1 p.2) _.
Next Obligation. by intros []. Qed.

Record StateEventReference : Type := {
  ref_key : StateKey;
  ref_event_id : string;
  ref_sender : string;
  ref_origin_server_ts : Z;
  ref_depth : Z;
  ref_event_json : Value;
  ref_rejected : bool
}.

Record StateGroup : Type := { group_id : string; state : list StateEventReference }.

Record StateResolutionLimits : Type := {
  max_state_groups : nat;
  max_events_per_state_group : nat;
  max_conflicted_state_keys : nat;
  max_mainline_auth_chain_depth : nat;
  max_auth_chain_walk_events : nat;
  max_total_state_events : nat
}.

(** The configured defaults of limits.hpp. *)
Definition default_limits : StateResolutionLimits := {|
  max_state_groups := Z.to_nat 1000; max_events_per_state_group := Z.to_nat 65536;
  max_conflicted_state_keys := Z.to_nat 65536; max_mainline_auth_chain_depth := Z.to_nat 10000;
  max_auth_chain_walk_events := Z.to_nat 131072; max_total_state_events := Z.to_nat 131072 |}.

Definition max_auth_events_per_event : nat := 10.

(** An empty [std::function] is [None]. *)
Abbreviation EventLookupFn := (option (string -> option StateEventReference)).

Record StateResolutionRequest : Type := {
  room_version : string;
  state_groups : list StateGroup;
  event_lookup : EventLookupFn;
  req_room_id : string;
  limits : StateResolutionLimits
}.

Inductive StateResolutionResult : Type :=
| Resolved (resolved_state : list StateEventReference)
| Failed (why : string).

Abbreviation StateMap := (gmap StateKey StateEventReference).
Abbreviation EventJsonIndex := (gmap string Value).
Abbreviation RefMap := (gmap string StateEventReference).

(** What the standard promises of iterating an unordered container: every
    element once, in some order. *)
Class IterationOrder : Type := {
  iter_state_map : StateMap -> list (StateKey * StateEventReference);
  iter_map : forall {V : Type}, gmap string V -> list (string * V);
  iter_set : gset string -> list string;
  iter_state_map_perm m : iter_state_map m ≡ₚ map_to_list m;
  iter_map_perm {V : Type} (m : gmap string V) : iter_map m ≡ₚ map_to_list m;
  iter_set_perm s : iter_set s ≡ₚ elements s
}.

(** One such order, for running the model. *)
Program Definition map_order : IterationOrder := {|
  iter_state_map := map_to_list; iter_map := fun V => map_to_list; iter_set := elements |}.
Solve All Obligations with done.

(** * Helpers *)

Definition auth_entry_event_id (entry : Value) : option string :=
  match entry with
  | VString id => Some id
  | VArray (VString id :: _) => Some id
  | _ => None
  end.

Definition state_key_matches (left right : StateKey) : bool :=
  (sk_event_type left =s sk_event_type right) && (sk_state_key left =s sk_state_key right).

Definition state_group_event (group : StateGroup) (key : StateKey) : option StateEventReference :=
  List.find (fun event => state_key_matches (ref_key event) key) (state group).

Definition state_group_contains (group : StateGroup) (key : StateKey) : bool :=
  match state_group_event group key with Some _ => true | None => false end.

Definition build_event_json_index (groups : list StateGroup) : EventJsonIndex :=
  foldl (fun index group =>
    foldl (fun index event =>
      if negb (empty (ref_event_id event)) && value_has_content (ref_event_json event)
      then match index !! ref_event_id event with
           | Some _ => index
           | None => <[ref_event_id event := ref_event_json event]> index
           end
      else index) index (state group)) ∅ groups.

Lemma state_key_matches_eq a b : state_key_matches a b = true <-> a = b.
Proof.
  unfold state_key_matches. rewrite andb_true_iff, !string_eqb_true. destruct a, b; simpl.
  split; [by intros [-> ->]|by intros [=]].
Qed.

Lemma state_group_event_In group key event :
  state_group_event group key = Some event -> event ∈ state group /\ ref_key event = key.
Proof.
  unfold state_group_event. intros [Hin Hm]%find_some.
  rewrite state_key_matches_eq in Hm. by rewrite <- list_elem_of_In in Hin.
Qed.

Open Scope nat_scope.

(** * AuthChainEventSource *)

Record Source : Type := mkSource {
  src_known : EventJsonIndex;
  src_lookup : EventLookupFn;
  src_budget : nat;
  src_used : nat;
  src_missing : bool;
  (** [fetched_] and [fetched_index_]: [Some None] is a remembered miss. *)
  src_fetched : gmap string (option StateEventReference);
  src_rejected : gset string
}.

Definition new_source (known : EventJsonIndex) (lookup : EventLookupFn) (budget : nat)
    (rejected : gset string) : Source := mkSource known lookup budget 0 false ∅ rejected.

(** The source after the index records what an ID resolved to. *)
Definition src_note (src : Source) (id : string) (r : option StateEventReference) (used : nat)
    (rejected : gset string) : Source :=
  mkSource (src_known src) (src_lookup src) (src_budget src) used (src_missing src)
    (<[id := r]> (src_fetched src)) rejected.

Definition src_set_missing (src : Source) : Source :=
  mkSource (src_known src) (src_lookup src) (src_budget src) (src_used src) true
    (src_fetched src) (src_rejected src).

Definition fetch (id : string) (src : Source) : option Value * Source :=
  match src_known src !! id with
  | Some json => (Some json, src)
  | None =>
      match src_fetched src !! id with
      | Some None => (None, src)
      | Some (Some r) => (Some (ref_event_json r), src)
      | None =>
          match src_lookup src with
          | None => (None, src_note src id None (src_used src) (src_rejected src))
          | Some lookup =>
              if src_budget src <=? src_used src
              then (None, src_note src id None (src_used src) (src_rejected src))
              else
                let used := S (src_used src) in
                match lookup id with
                | None => (None, src_note src id None used (src_rejected src))
                | Some r =>
                    let rejected := if ref_rejected r then {[id]} ∪ src_rejected src else src_rejected src in
                    (Some (ref_event_json r), src_note src id (Some r) used rejected)
                end
          end
      end
  end.

Definition find_required (id : string) (src : Source) : option Value * Source :=
  match fetch id src with
  | (None, src') => (None, src_set_missing src')
  | found => found
  end.

Definition find_optional (id : string) (src : Source) : option Value * Source := fetch id src.

Definition is_rejected (id : string) (src : Source) : bool := bool_decide (id ∈ src_rejected src).

(** * Power-level ancestors *)

(** The loop over [auth_events]; the accumulator is [result.event_id].  [None]
    is an invalid result. *)
Fixpoint power_levels_entries (entries : Array) (found : option string) (src : Source)
    : option (option string) * Source :=
  match entries with
  | [] => (Some found, src)
  | entry :: rest =>
      match auth_entry_event_id entry with
      | None => (None, src)
      | Some id =>
          if empty id then (None, src)
          else
            let '(json, src) := find_required id src in
            match json ≫= value_is_object with
            | None => (None, src)
            | Some object =>
                match string_member object "type", string_member object "state_key" with
                | Some type, Some state_key =>
                    if type =s "m.room.power_levels" then
                      match found with
                      | Some _ => (None, src)
                      | None => if empty state_key then power_levels_entries rest (Some id) src
                                else (None, src)
                      end
                    else power_levels_entries rest found src
                | _, _ => (None, src)
                end
            end
      end
  end.

Definition power_levels_auth_ancestor (event_json : Object) (src : Source)
    : option (option string) * Source :=
  match array_member event_json "auth_events" with
  | None => (None, src)
  | Some auth =>
      if max_auth_events_per_event <? length auth then (None, src)
      else power_levels_entries auth None src
  end.

(** * The auth chain of an event *)

(** The IDs of the entries that name an event, and of the ancestors to visit. *)
Definition auth_event_ids (event : Value) : list string :=
  match value_is_object event with
  | None => []
  | Some obj => match array_member obj "auth_events" with
                | None => []
                | Some auth => omap auth_entry_event_id auth
                end
  end.

(** [frontier.back()] is the head of the list: pop until an unvisited ID. *)
Fixpoint pop_unvisited (chain : gset string) (frontier : list string) : option (string * list string) :=
  match frontier with
  | [] => None
  | id :: rest => if bool_decide (id ∈ chain) then pop_unvisited chain rest else Some (id, rest)
  end.

(** [frontier.push_back] of each ID that is not in the chain yet. *)
Definition push_ancestors (chain : gset string) (ids frontier : list string) : list string :=
  rev (filter (fun id => id ∉ chain) ids) ++ frontier.

Fixpoint walk_loop (fuel cap : nat) (frontier : list string) (chain : gset string) (src : Source)
    : option (gset string) * Source :=
  match pop_unvisited chain frontier with
  | None => (Some chain, src)
  | Some (id, rest) =>
      let chain := {[id]} ∪ chain in
      if cap <? size chain then (None, src)
      else
        let '(json, src) := find_required id src in
        match json with
        | None => (None, src)
        | Some v =>
            match fuel with
            | O => (None, src)
            | S fuel' => walk_loop fuel' cap (push_ancestors chain (auth_event_ids v) rest) chain src
            end
        end
  end.

(** Every round adds an ID to the chain and a chain larger than the cap stops
    the walk, so [S cap] rounds are enough (see [walk_loop_fuel]). *)
Definition walk_auth_chain (start_json : Value) (src : Source) (cap : nat) : option (gset string) * Source :=
  walk_loop (S cap) cap (rev (auth_event_ids start_json)) ∅ src.

Fixpoint group_chain_loop (events : list StateEventReference) (result : gset string) (src : Source)
    (cap : nat) : option (gset string) * Source :=
  match events with
  | [] => (Some result, src)
  | event :: rest =>
      if negb (value_has_content (ref_event_json event)) then group_chain_loop rest result src cap
      else
        let '(chain, src) := walk_auth_chain (ref_event_json event) src cap in
        match chain with
        | None => (None, src)
        | Some chain =>
            let result := result ∪ chain in
            if cap <? size result then (None, src) else group_chain_loop rest result src cap
        end
  end.

Definition full_auth_chain_of_group (group : StateGroup) (src : Source) (cap : nat)
    : option (gset string) * Source := group_chain_loop (state group) ∅ src cap.

Fixpoint group_chains (groups : list StateGroup) (src : Source) (cap : nat)
    : option (list (gset string)) * Source :=
  match groups with
  | [] => (Some [], src)
  | group :: rest =>
      let '(chain, src) := full_auth_chain_of_group group src cap in
      match chain with
      | None => (None, src)
      | Some chain =>
          let '(chains, src) := group_chains rest src cap in
          match chains with
          | None => (None, src)
          | Some chains => (Some (chain :: chains), src)
          end
      end
  end.

Definition difference_of_chains (chains : list (gset string)) : gset string :=
  match chains with
  | [] => ∅
  | first :: rest =>
      let union_set := foldl (fun acc chain => acc ∪ chain) ∅ chains in
      let intersection := foldl (fun acc chain => filter (fun id => id ∈ chain) acc) first rest in
      union_set ∖ intersection
  end.

Definition compute_auth_difference (groups : list StateGroup) (src : Source) (cap : nat)
    : option (gset string) * Source :=
  let '(chains, src) := group_chains groups src cap in
  match chains with
  | None => (None, src)
  | Some chains => (Some (difference_of_chains chains), src)
  end.
