(* ===== verification/StateGraph.v ===== *)
(** The conflicted state subgraph of room version 12:
    compute_conflicted_state_subgraph of state_resolution.cpp. *)
From S2P Require Import Prelude CppStd JsonValue JsonSerializer RoomVersion Signing EventAuth EventSource.
Open Scope nat_scope.

Abbreviation Graph := (gmap string (list string)).

(** The neighbours of one event: the IDs of its auth_events, all present,
    non-empty and distinct. *)
Fixpoint neighbour_ids (entries : Array) (unique_neighbours : gset string) : option (list string) :=
  match entries with
  | [] => Some []
  | entry :: rest =>
      match auth_entry_event_id entry with
      | None => None
      | Some id =>
          if empty id || bool_decide (id ∈ unique_neighbours) then None
          else match neighbour_ids rest ({[id]} ∪ unique_neighbours) with
               | None => None
               | Some ids => Some (id :: ids)
               end
      end
  end.

Definition event_neighbours (json : option Value) : option (list string) :=
  match json ≫= value_is_object with
  | None => None
  | Some object =>
      match array_member object "auth_events" with
      | None => None
      | Some auth =>
          if max_auth_events_per_event <? length auth then None else neighbour_ids auth ∅
      end
  end.

(** [pending.front()] is the head of the list. *)
Fixpoint pop_new (graph : Graph) (pending : list string) : option (string * list string) :=
  match pending with
  | [] => None
  | id :: rest => match graph !! id with Some _ => pop_new graph rest | None => Some (id, rest) end
  end.

(** Each round adds a vertex and a graph of [cap] vertices stops the walk. *)
Fixpoint explore (fuel cap : nat) (pending : list string) (graph : Graph) (src : Source)
    : option Graph * Source :=
  match pop_new graph pending with
  | None => (Some graph, src)
  | Some (id, rest) =>
      if cap <=? size graph then (None, src)
      else
        let '(json, src) := find_required id src in
        match event_neighbours json with
        | None => (None, src)
        | Some neighbours =>
            match fuel with
            | O => (None, src)
            | S fuel' => explore fuel' cap (rest ++ neighbours) (<[id := neighbours]> graph) src
            end
        end
  end.

Section Subgraph.
Context `{IterationOrder}.

(** ** Kahn's algorithm: reject cycles *)

Definition bump (m : gmap string nat) (id : string) : gmap string nat :=
  <[id := S (default 0 (m !! id))]> m.

(** [indegree.try_emplace(id, 0)] then [++indegree[ancestor]] for each edge. *)
Definition indegrees (graph : Graph) : gmap string nat :=
  foldl (fun m '(id, ancestors) =>
    foldl bump (match m !! id with Some _ => m | None => <[id := 0]> m end) ancestors) ∅ (iter_map graph).

Definition reverse_edges (graph : Graph) : Graph :=
  foldl (fun m '(id, ancestors) =>
    foldl (fun m ancestor => <[ancestor := default [] (m !! ancestor) ++ [id]]> m) m ancestors) ∅ (iter_map graph).

(** The inner loop: decrement and queue the ancestors that reach zero. *)
Fixpoint release (ancestors : list string) (indegree : gmap string nat) (ready : list string)
    : gmap string nat * list string :=
  match ancestors with
  | [] => (indegree, ready)
  | a :: rest =>
      let degree := default 0 (indegree !! a) - 1 in
      release rest (<[a := degree]> indegree) (if degree =? 0 then ready ++ [a] else ready)
  end.

Fixpoint kahn_count (fuel : nat) (graph : Graph) (indegree : gmap string nat) (ready : list string)
    (processed : nat) : nat :=
  match ready with
  | [] => processed
  | id :: rest =>
      match fuel with
      | O => processed
      | S fuel' =>
          let '(indegree, ready) := release (default [] (graph !! id)) indegree rest in
          kahn_count fuel' graph indegree ready (S processed)
      end
  end.

Definition graph_has_no_cycle (graph : Graph) : bool :=
  let indegree := indegrees graph in
  let ready := (filter (fun p => p.2 = 0) (iter_map indegree)).*1 in
  kahn_count (size graph) graph indegree ready 0 =? size graph.

(** ** The vertices that reach a conflicted event *)

(** The inner loop over the predecessors of one vertex. *)
Fixpoint mark_new (predecessors : list string) (subgraph : gset string) (queue : list string)
    : gset string * list string :=
  match predecessors with
  | [] => (subgraph, queue)
  | p :: rest =>
      if bool_decide (p ∈ subgraph) then mark_new rest subgraph queue
      else mark_new rest ({[p]} ∪ subgraph) (queue ++ [p])
  end.

Fixpoint reach_back (fuel : nat) (reverse : Graph) (subgraph : gset string) (queue : list string)
    : gset string :=
  match queue with
  | [] => subgraph
  | id :: rest =>
      match fuel with
      | O => subgraph
      | S fuel' =>
          let '(subgraph, queue) := mark_new (default [] (reverse !! id)) subgraph rest in
          reach_back fuel' reverse subgraph queue
      end
  end.

(** The vertices queued are conflicted events and vertices of the graph, each
    once, so their number is enough fuel. *)
Definition compute_conflicted_state_subgraph (conflicted_ids : gset string) (src : Source) (cap : nat)
    : option (gset string) * Source :=
  let pending := iter_set conflicted_ids in
  if existsb empty pending then (None, src)
  else
    let '(graph, src) := explore (S cap) cap pending ∅ src in
    match graph with
    | None => (None, src)
    | Some graph =>
        if negb (forallb (fun '(_, ancestors) =>
                   forallb (fun a => bool_decide (is_Some (graph !! a))) ancestors) (iter_map graph))
        then (None, src)
        else if negb (graph_has_no_cycle graph) then (None, src)
        else
          (Some (reach_back (size conflicted_ids + size graph) (reverse_edges graph) conflicted_ids
                   (iter_set conflicted_ids)), src)
    end.
End Subgraph.
