(* ===== verification/StateAuth.v ===== *)
(** Authorization inside state resolution: materialize_ref,
    find_auth_ancestor_context, power_level_from_event, find_own_auth_event and
    build_auth_event_map_from_state of state_resolution.cpp, and the iterative
    auth checks of resolve_state_v2. *)
From S2P Require Import Prelude CppStd JsonValue JsonSerializer RoomVersion Signing EventAuth EventSource.
Open Scope Z_scope.

Definition origin_server_ts_of (obj : Object) : Z :=
  match object_member obj "origin_server_ts" with Some (VInt ts) => ts | _ => 0 end.

Definition materialize_ref (event_id : string) (src : Source) : option StateEventReference * Source :=
  let '(json, src) := find_required event_id src in
  match json with
  | None => (None, src)
  | Some json =>
      match value_is_object json with
      | None => (None, src)
      | Some obj =>
          match string_member obj "type", string_member obj "state_key" with
          | Some type, Some state_key =>
              (Some {| ref_key := mkStateKey type state_key; ref_event_id := event_id;
                       ref_sender := default EmptyString (string_member obj "sender");
                       ref_origin_server_ts := origin_server_ts_of obj; ref_depth := 0;
                       ref_event_json := json; ref_rejected := is_rejected event_id src |}, src)
          | _, _ => (None, src)
          end
      end
  end.

(** * The power of a candidate's sender *)

Record AuthAncestorContext : Type := mkContext { ctx_power_levels : Value; ctx_create : Value }.

(** Room version 12: the create event the room ID names.  The outer option is
    the early return; the inner one is absent without a room_id. *)
Definition implicit_create (obj : Object) (src : Source) : option (option Value) * Source :=
  match string_member obj "room_id" with
  | None => (Some None, src)
  | Some room_id =>
      if (String.length room_id <? 2)%nat || negb (starts_with "!"%char room_id) then (None, src)
      else
        let '(create, src) := find_required (String "$"%char (drop_str 1 room_id)) src in
        match create with
        | None => (None, src)
        | Some create =>
            match value_is_object create with
            | None => (None, src)
            | Some create_obj =>
                match string_member create_obj "type", string_member create_obj "state_key" with
                | Some type, Some state_key =>
                    if (type =s "m.room.create") && empty state_key
                    then (Some (Some create), src) else (None, src)
                | _, _ => (None, src)
                end
            end
        end
  end.

(** The entry fills the first free slot of its type. *)
Definition fill_context (ctx : AuthAncestorContext) (fetched : Value) : AuthAncestorContext :=
  match value_is_object fetched ≫= (fun o => string_member o "type") with
  | None => ctx
  | Some type =>
      if (type =s "m.room.power_levels") && negb (value_has_content (ctx_power_levels ctx))
      then mkContext fetched (ctx_create ctx)
      else if (type =s "m.room.create") && negb (value_has_content (ctx_create ctx))
      then mkContext (ctx_power_levels ctx) fetched
      else ctx
  end.

Fixpoint context_entries (entries : Array) (ctx : AuthAncestorContext) (src : Source)
    : option AuthAncestorContext * Source :=
  match entries with
  | [] => (Some ctx, src)
  | entry :: rest =>
      match auth_entry_event_id entry with
      | None => context_entries rest ctx src
      | Some id =>
          let '(fetched, src) := find_required id src in
          match fetched with
          | None => (None, src)
          | Some fetched => context_entries rest (fill_context ctx fetched) src
          end
      end
  end.

Definition find_auth_ancestor_context (event_json : Value) (src : Source) (policy : RoomVersionPolicy)
    : option AuthAncestorContext * Source :=
  match value_is_object event_json with
  | None => (Some (mkContext VNull VNull), src)
  | Some obj =>
      let '(implicit, src) :=
        if create_event_is_room_id policy then implicit_create obj src else (Some None, src) in
      match implicit with
      | None => (None, src)
      | Some implicit =>
          let ctx := mkContext VNull (default VNull implicit) in
          match array_member obj "auth_events" with
          | None => (Some ctx, src)
          | Some auth => context_entries auth ctx src
          end
      end
  end.

Definition power_level_from_event (event : StateEventReference) (src : Source) (policy : RoomVersionPolicy)
    : option Z * Source :=
  let '(ctx, src) := find_auth_ancestor_context (ref_event_json event) src policy in
  match ctx with
  | None => (None, src)
  | Some ctx =>
      (Some (effective_sender_power (ctx_power_levels ctx) (ref_sender event) (ctx_create ctx) policy), src)
  end.

(** * The events an auth check reads *)

Fixpoint own_auth_entries (entries : Array) (wanted : StateKey) (src : Source)
    : (Value * string) * Source :=
  match entries with
  | [] => ((VNull, EmptyString), src)
  | entry :: rest =>
      match auth_entry_event_id entry with
      | None => own_auth_entries rest wanted src
      | Some id =>
          let '(candidate, src) := find_optional id src in
          match candidate with
          | None => own_auth_entries rest wanted src
          | Some candidate =>
              if is_rejected id src then own_auth_entries rest wanted src
              else
                match value_is_object candidate with
                | None => own_auth_entries rest wanted src
                | Some obj =>
                    let key := mkStateKey (default EmptyString (string_member obj "type"))
                                          (default EmptyString (string_member obj "state_key")) in
                    if state_key_matches key wanted then ((candidate, id), src)
                    else own_auth_entries rest wanted src
                end
          end
      end
  end.

(** The event and its ID; both empty when there is none. *)
Definition find_own_auth_event (event_obj : Object) (src : Source) (wanted : StateKey)
    : (Value * string) * Source :=
  match array_member event_obj "auth_events" with
  | None => ((VNull, EmptyString), src)
  | Some auth => own_auth_entries auth wanted src
  end.

(** [current_state.find(key)], and the event's own auth events when absent. *)
Definition slot_event (event_obj : Object) (current_state : StateMap) (wanted : StateKey) (src : Source)
    : (Value * string) * Source :=
  match current_state !! wanted with
  | Some event => ((ref_event_json event, ref_event_id event), src)
  | None => find_own_auth_event event_obj src wanted
  end.

(** [signed.token] of a third-party invite, when it is a string. *)
Definition invite_token (content : option Object) : option string :=
  c ← content; i ← object_member_as_object c "third_party_invite";
  s ← object_member_as_object i "signed"; string_member s "token".

(** The user a restricted join names to vouch for it. *)
Definition restricted_join_authoriser (content : option Object) : option string :=
  match content with
  | None => None
  | Some c =>
      match string_member c "membership", string_member c "join_authorised_via_users_server" with
      | Some membership, Some user =>
          if (membership =s "join") && negb (empty user) then Some user else None
      | _, _ => None
      end
  end.

(** The slot of an optional state key. *)
Definition optional_slot (event_obj : Object) (current_state : StateMap) (type : string)
    (state_key : option string) (src : Source) : Value * Source :=
  match state_key with
  | None => (VNull, src)
  | Some k => let '((v, _), src) := slot_event event_obj current_state (mkStateKey type k) src in (v, src)
  end.

Definition build_auth_event_map_from_state (event : Value) (current_state : StateMap) (src : Source)
    : AuthEventMap * Source :=
  match value_is_object event with
  | None => (empty_auth_event_map, src)
  | Some obj =>
      let sender := string_member obj "sender" in
      let is_member := match string_member obj "type" with Some t => t =s "m.room.member" | None => false end in
      (** The target's state key, present only on membership events. *)
      let target := if is_member then string_member obj "state_key" else None in
      let content := match target with None => None | Some _ => object_member_as_object obj "content" end in
      let '((v_create, create_id), src) := slot_event obj current_state (mkStateKey "m.room.create" EmptyString) src in
      let '((v_levels, _), src) := slot_event obj current_state (mkStateKey "m.room.power_levels" EmptyString) src in
      let '((v_rules, _), src) := slot_event obj current_state (mkStateKey "m.room.join_rules" EmptyString) src in
      let '(v_sender, src) := optional_slot obj current_state "m.room.member" sender src in
      let '(v_target, src) := optional_slot obj current_state "m.room.member" target src in
      let '(v_invite, src) :=
        optional_slot obj current_state "m.room.third_party_invite" (invite_token content) src in
      let '(v_authoriser, src) :=
        optional_slot obj current_state "m.room.member" (restricted_join_authoriser content) src in
      ({| create := v_create; create_event_id := create_id; power_levels := v_levels; join_rules := v_rules;
          sender_member := v_sender; target_member := v_target; authorising_user_member := v_authoriser;
          third_party_invite := v_invite |}, src)
  end.

(** * Iterative auth checks *)

Section Checks.
Context `{Libc} `{Sodium}.

(** One iteration of [apply_iterative_auth_checks]. *)
Definition auth_check_step (policy : RoomVersionPolicy) (event : StateEventReference)
    (st : StateMap * Source) : StateMap * Source :=
  let '(resolved, src) := st in
  if negb (value_has_content (ref_event_json event)) then (resolved, src)
  else
    let '(auth_map, src) := build_auth_event_map_from_state (ref_event_json event) resolved src in
    if allowed (authorize_event_against_auth_events (ref_event_json event) policy auth_map)
    then (<[ref_key event := event]> resolved, src) else (resolved, src).

Definition apply_iterative_auth_checks (policy : RoomVersionPolicy) (sorted : list StateEventReference)
    (st : StateMap * Source) : StateMap * Source :=
  foldl (fun st event => auth_check_step policy event st) st sorted.
End Checks.
