(* ===== verification/PowerSort.v ===== *)
(** The two orderings of state_resolution.cpp: reverse topological power ordering
    (reverse_topological_power_sort, is_power_event) and mainline ordering
    (collect_mainline_power_events, mainline_order_with_source, mainline_order). *)
From S2P Require Import Prelude CppStd JsonValue JsonSerializer RoomVersion Signing EventAuth EventSource StateAuth.
Open Scope Z_scope.

(** The powers of all candidates, computed before sorting. *)
Fixpoint powers_of (events : list StateEventReference) (src : Source) (policy : RoomVersionPolicy)
    : option (list Z) * Source :=
  match events with
  | [] => (Some [], src)
  | event :: rest =>
      let '(power, src) := power_level_from_event event src policy in
      match power with
      | None => (None, src)
      | Some power =>
          let '(powers, src) := powers_of rest src policy in
          match powers with
          | None => (None, src)
          | Some powers => (Some (power :: powers), src)
          end
      end
  end.

(** A candidate with its sender's power ([power_by_id]). *)
Record Candidate : Type := mkCandidate { cand_event : StateEventReference; cand_power : Z }.

Definition cand_id (c : Candidate) : string := ref_event_id (cand_event c).

(** The comparison relation of the ordering. *)
Definition precedes (a b : Candidate) : bool :=
  if negb (cand_power a =? cand_power b) then cand_power b <? cand_power a
  else if negb (ref_origin_server_ts (cand_event a) =? ref_origin_server_ts (cand_event b))
  then ref_origin_server_ts (cand_event a) <? ref_origin_server_ts (cand_event b)
  else cand_id a <s cand_id b.

(** [index_by_id]; [None] when two candidates share an ID. *)
Fixpoint index_candidates (i : nat) (cs : list Candidate) (index : gmap string nat)
    : option (gmap string nat) :=
  match cs with
  | [] => Some index
  | c :: rest =>
      match index !! cand_id c with
      | Some _ => None
      | None => index_candidates (S i) rest (<[cand_id c := i]> index)
      end
  end.

(** The auth_events of a candidate that are candidates themselves, as indices,
    one per occurrence. *)
Definition auth_indices (index : gmap string nat) (c : Candidate) : list nat :=
  omap (fun id => index !! id) (auth_event_ids (ref_event_json (cand_event c))).

(** [unmet_auth_events] and [dependants] after the loop over all candidates. *)
Definition unmet_auth_events (index : gmap string nat) (cs : list Candidate) : list nat :=
  (fun c => length (auth_indices index c)) <$> cs.

Definition dependants (index : gmap string nat) (cs : list Candidate) (j : nat) : list nat :=
  concat (imap (fun i c => (fun _ => i) <$> filter (fun k => k = j) (auth_indices index c)) cs).

Section Kahn.
Context (index : gmap string nat) (cs : list Candidate).

(** [ready] is a [std::set] ordered by [precedes]: a sorted list of indices. *)
Definition index_precedes (x y : nat) : bool :=
  match cs !! x, cs !! y with
  | Some a, Some b => precedes a b
  | _, _ => false
  end.

Definition ready_insert (i : nat) (ready : list nat) : list nat :=
  if existsb (Nat.eqb i) ready then ready else insert_by index_precedes i ready.

(** The inner loop over the dependants of the emitted candidate. *)
Fixpoint satisfy (deps : list nat) (unmet : list nat) (ready : list nat) : list nat * list nat :=
  match deps with
  | [] => (unmet, ready)
  | d :: rest =>
      let left := (default 0%nat (unmet !! d) - 1)%nat in
      satisfy rest (<[d := left]> unmet) (if (left =? 0)%nat then ready_insert d ready else ready)
  end.

(** Each candidate is emitted at most once, so their number is enough fuel. *)
Fixpoint kahn_loop (fuel : nat) (unmet : list nat) (ready : list nat) (sorted : list nat) : list nat :=
  match ready with
  | [] => sorted
  | next :: rest =>
      match fuel with
      | O => sorted
      | S fuel' =>
          let '(unmet, ready) := satisfy (dependants index cs next) unmet rest in
          kahn_loop fuel' unmet ready (sorted ++ [next])
      end
  end.

Definition initial_ready : list nat :=
  foldl (fun ready i => if (default 0%nat (unmet_auth_events index cs !! i) =? 0)%nat
                        then ready_insert i ready else ready) [] (seq 0 (length cs)).

Definition kahn_order : list nat :=
  kahn_loop (length cs) (unmet_auth_events index cs) initial_ready [].
End Kahn.

Definition sort_candidates (cs : list Candidate) : option (list StateEventReference) :=
  match index_candidates 0 cs ∅ with
  | None => None
  | Some index =>
      let order := kahn_order index cs in
      if (length order =? length cs)%nat then Some (cand_event <$> omap (fun i => cs !! i) order) else None
  end.

Definition reverse_topological_power_sort (conflicted : list StateEventReference) (known_events : EventJsonIndex)
    (lookup : EventLookupFn) (policy : RoomVersionPolicy) (limits : StateResolutionLimits)
    : option (list StateEventReference) :=
  if (max_conflicted_state_keys limits <? length conflicted)%nat then None
  else
    let src := new_source known_events lookup (max_auth_chain_walk_events limits) ∅ in
    match fst (powers_of conflicted src policy) with
    | None => None
    | Some powers => sort_candidates (zip_with mkCandidate conflicted powers)
    end.

Definition is_power_event (event : StateEventReference) : bool :=
  let type := sk_event_type (ref_key event) in
  let state_key := sk_state_key (ref_key event) in
  if (type =s "m.room.power_levels") || (type =s "m.room.join_rules") then empty state_key
  else if type <>s "m.room.member" then false
  else
    match event_content (ref_event_json event) with
    | None => false
    | Some content =>
        match string_member content "membership" with
        | None => false
        | Some membership =>
            ((membership =s "leave") || (membership =s "ban")) && (ref_sender event <>s state_key)
        end
    end.

Open Scope nat_scope.

(** An ancestor must resolve to an m.room.power_levels state event. *)
Definition power_levels_object (json : option Value) : option Object :=
  match json ≫= value_is_object with
  | None => None
  | Some object =>
      match string_member object "type", string_member object "state_key" with
      | Some type, Some state_key =>
          if (type =s "m.room.power_levels") && empty state_key then Some object else None
      | _, _ => None
      end
  end.

(** [fuel] is [max_depth - result.size()]. *)
Fixpoint collect_loop (fuel : nat) (current_id : string) (current : Object) (visited : gset string)
    (src : Source) : option (list string) * Source :=
  match fuel with
  | O => (None, src)
  | S fuel' =>
      if bool_decide (current_id ∈ visited) then (None, src)
      else
        let visited := {[current_id]} ∪ visited in
        let '(ancestor, src) := power_levels_auth_ancestor current src in
        match ancestor with
        | None => (None, src)
        | Some None => (Some [current_id], src)
        | Some (Some next_id) =>
            if fuel' =? 0 then (None, src)
            else
              let '(json, src) := find_required next_id src in
              match power_levels_object json with
              | None => (None, src)
              | Some next =>
                  let '(rest, src) := collect_loop fuel' next_id next visited src in
                  match rest with
                  | None => (None, src)
                  | Some ids => (Some (current_id :: ids), src)
                  end
              end
        end
  end.

Definition collect_mainline_power_events (head_event_id : string) (power_levels_event : Value)
    (src : Source) (max_depth : nat) : option (list string) * Source :=
  match value_is_object power_levels_event with
  | None => (None, src)
  | Some current =>
      if empty head_event_id then (None, src) else collect_loop max_depth head_event_id current ∅ src
  end.

(** [mainline_depth]: the position of an ID on the mainline. *)
Fixpoint mainline_depth (mainline : list string) (id : string) : option nat :=
  match mainline with
  | [] => None
  | p :: rest => if p =s id then Some 0 else S <$> mainline_depth rest id
  end.

(** The loop over hops: [Some infinity] is no mainline ancestor, [None] failure. *)
Fixpoint position_loop (hops : nat) (mainline : list string) (current : Object) (visited : gset string)
    (src : Source) : option Z * Source :=
  match hops with
  | O => (None, src)
  | S hops' =>
      let '(ancestor, src) := power_levels_auth_ancestor current src in
      match ancestor with
      | None => (None, src)
      | Some None => (Some size_max, src)
      | Some (Some id) =>
          match mainline_depth mainline id with
          | Some position => (Some (Z.of_nat position), src)
          | None =>
              if bool_decide (id ∈ visited) then (None, src)
              else
                let '(json, src) := find_required id src in
                match power_levels_object json with
                | None => (None, src)
                | Some object => position_loop hops' mainline object ({[id]} ∪ visited) src
                end
          end
      end
  end.

Definition event_position (limits : StateResolutionLimits) (mainline : list string)
    (event : StateEventReference) (src : Source) : option Z * Source :=
  match mainline with
  | [] => (Some size_max, src)
  | _ =>
      match value_is_object (ref_event_json event) with
      | None => (None, src)
      | Some current => position_loop (max_mainline_auth_chain_depth limits) mainline current ∅ src
      end
  end.

(** [position_by_event_id]: an ID keeps its first position. *)
Fixpoint positions (limits : StateResolutionLimits) (mainline : list string)
    (events : list StateEventReference) (table : gmap string Z) (src : Source)
    : option (gmap string Z) * Source :=
  match events with
  | [] => (Some table, src)
  | event :: rest =>
      let '(position, src) := event_position limits mainline event src in
      match position with
      | None => (None, src)
      | Some position =>
          let table := match table !! ref_event_id event with
                       | Some _ => table | None => <[ref_event_id event := position]> table end in
          positions limits mainline rest table src
      end
  end.

(** The comparator of the stable sort. *)
Definition mainline_before (table : gmap string Z) (a b : StateEventReference) : bool :=
  let pos_a := default size_max (table !! ref_event_id a) in
  let pos_b := default size_max (table !! ref_event_id b) in
  if negb (pos_a =? pos_b)%Z then (pos_b <? pos_a)%Z
  else if negb (ref_origin_server_ts a =? ref_origin_server_ts b)%Z
  then (ref_origin_server_ts a <? ref_origin_server_ts b)%Z
  else ref_event_id a <s ref_event_id b.

Definition power_levels_key : StateKey := mkStateKey "m.room.power_levels" EmptyString.

Definition resolved_mainline (resolved : StateMap) (src : Source) (limits : StateResolutionLimits)
    : option (list string) * Source :=
  match resolved !! power_levels_key with
  | Some event =>
      if value_has_content (ref_event_json event)
      then collect_mainline_power_events (ref_event_id event) (ref_event_json event) src
             (max_mainline_auth_chain_depth limits)
      else (Some [], src)
  | None => (Some [], src)
  end.

(** [Some sorted] is the [true] return with the events sorted in place. *)
Definition mainline_order_with_source (events : list StateEventReference) (resolved : StateMap)
    (src : Source) (limits : StateResolutionLimits) : option (list StateEventReference) * Source :=
  let '(mainline, src) := resolved_mainline resolved src limits in
  match mainline with
  | None => (None, src)
  | Some mainline =>
      let '(table, src) := positions limits mainline events ∅ src in
      match table with
      | None => (None, src)
      | Some table =>
          if src_missing src then (None, src)
          else (Some (sort_by (mainline_before table) events), src)
      end
  end.
