(* ===== verification/StateRes.v ===== *)
(** State resolution: select_v1_winner, validate_state_resolution_request,
    resolve_state, partition_conflicted_state, mainline_order,
    resolve_state_v2 and state_resolution_summary of state_resolution.cpp.

    An early return of resolve_state_v2 is the left of a sum carrying its
    reason; the event source is threaded through the stages. *)
From S2P Require Import Prelude CppStd JsonValue JsonSerializer RoomVersion Signing EventAuth EventSource StateGraph StateAuth PowerSort.
Open Scope nat_scope.

(** * Resource limits *)

(** The loop over the groups; [total] is [total_events]. *)
Fixpoint validate_groups (limits : StateResolutionLimits) (groups : list StateGroup) (total : nat)
    : option string :=
  match groups with
  | [] => None
  | group :: rest =>
      if max_events_per_state_group limits <? length (state group)
      then Some "too many events in state group"
      else if (max_total_state_events limits <? total)
              || (max_total_state_events limits - total <? length (state group))
      then Some "too many total state events"
      else validate_groups limits rest (total + length (state group))
  end.

Definition validate_state_resolution_request (request : StateResolutionRequest) : option string :=
  if max_state_groups (limits request) <? length (state_groups request) then Some "too many state groups"
  else validate_groups (limits request) (state_groups request) 0.

(** * Version 1 *)

Definition select_v1_winner (existing candidate : StateEventReference) : StateEventReference :=
  if negb (ref_depth candidate =? ref_depth existing)%Z
  then if (ref_depth existing <? ref_depth candidate)%Z then candidate else existing
  else if ref_event_id candidate <s ref_event_id existing then candidate else existing.

(** One event of the loop; [None] is the missing event ID. *)
Definition v1_step (resolved : option StateMap) (event : StateEventReference) : option StateMap :=
  match resolved with
  | None => None
  | Some resolved =>
      if empty (ref_event_id event) then None
      else match resolved !! ref_key event with
           | None => Some (<[ref_key event := event]> resolved)
           | Some existing =>
               if ref_event_id existing =s ref_event_id event then Some resolved
               else Some (<[ref_key event := select_v1_winner existing event]> resolved)
           end
  end.

Section Resolution.
Context `{IterationOrder} `{Libc} `{Sodium}.

Definition state_values (m : StateMap) : list StateEventReference := (iter_state_map m).*2.

Definition resolve_state (request : StateResolutionRequest) : StateResolutionResult :=
  if empty (room_version request) then Failed "room version is required"
  else match validate_state_resolution_request request with
       | Some error => Failed error
       | None =>
           match state_groups request with
           | [] => Resolved []
           | groups =>
               match foldl v1_step (Some ∅) (groups ≫= state) with
               | None => Failed "state event id is required"
               | Some resolved => Resolved (state_values resolved)
               end
           end
       end.

(** * Conflicted and unconflicted state *)

Record KeyTally : Type := mkTally {
  first_event : StateEventReference;
  event_ids : gset string;
  groups_containing : nat;
  last_group_counted : nat
}.

Definition tally_event (group_index : nat) (event : StateEventReference) (tallies : gmap StateKey KeyTally)
    : gmap StateKey KeyTally :=
  <[ref_key event :=
      match tallies !! ref_key event with
      | None => mkTally event {[ref_event_id event]} 1 group_index
      | Some t =>
          let counted := negb (last_group_counted t =? group_index) in
          mkTally (first_event t) ({[ref_event_id event]} ∪ event_ids t)
            (if counted then S (groups_containing t) else groups_containing t)
            (if counted then group_index else last_group_counted t)
      end]> tallies.

(** The loop over one group; [None] is too many distinct keys. *)
Fixpoint tally_group (limits : StateResolutionLimits) (group_index : nat) (events : list StateEventReference)
    (tallies : gmap StateKey KeyTally) : option (gmap StateKey KeyTally) :=
  match events with
  | [] => Some tallies
  | event :: rest =>
      let tallies := tally_event group_index event tallies in
      if max_conflicted_state_keys limits <? size tallies then None
      else tally_group limits group_index rest tallies
  end.

Fixpoint tally_groups (limits : StateResolutionLimits) (group_index : nat) (groups : list StateGroup)
    (tallies : gmap StateKey KeyTally) : option (gmap StateKey KeyTally) :=
  match groups with
  | [] => Some tallies
  | group :: rest =>
      match tally_group limits group_index (state group) tallies with
      | None => None
      | Some tallies => tally_groups limits (S group_index) rest tallies
      end
  end.

Definition agreed (groups : nat) (t : KeyTally) : bool :=
  (groups_containing t =? groups) && (size (event_ids t) =? 1).

(** The unconflicted map and the index of conflicted keys. *)
Definition partition_conflicted_state (groups : list StateGroup) (limits : StateResolutionLimits)
    : StateMap * StateMap :=
  if max_state_groups limits <? length groups then (∅, ∅)
  else if bool_decide (is_Some (validate_groups limits groups 0)) then (∅, ∅)
  else match tally_groups limits 0 groups ∅ with
       | None => (∅, ∅)
       | Some tallies =>
           (first_event <$> filter (fun p => agreed (length groups) p.2 = true) tallies,
            first_event <$> filter (fun p => agreed (length groups) p.2 = false) tallies)
       end.

(** * The full conflicted set *)

(** The loop over all events; the second component is [seen_conflicted_ids].
    [None] is too many conflicted events. *)
Fixpoint collect_conflicted (limits : StateResolutionLimits) (conflicted : StateMap)
    (events : list StateEventReference) (seen : gmap StateKey (gset string))
    (all_conflicted : list StateEventReference) : option (list StateEventReference) :=
  match events with
  | [] => Some all_conflicted
  | event :: rest =>
      match conflicted !! ref_key event with
      | None => collect_conflicted limits conflicted rest seen all_conflicted
      | Some _ =>
          let ids := default ∅ (seen !! ref_key event) in
          let seen := <[ref_key event := {[ref_event_id event]} ∪ ids]> seen in
          if bool_decide (ref_event_id event ∈ ids)
          then collect_conflicted limits conflicted rest seen all_conflicted
          else
            let all_conflicted := all_conflicted ++ [event] in
            if max_conflicted_state_keys limits <? length all_conflicted then None
            else collect_conflicted limits conflicted rest seen all_conflicted
      end
  end.

Definition rejected_of_groups (groups : list StateGroup) : gset string :=
  list_to_set (ref_event_id <$> filter (fun e => ref_rejected e = true) (groups ≫= state)).

(** [full_conflicted_by_id.emplace]: the first event of an ID stays. *)
Definition emplace_ref (full : RefMap) (event : StateEventReference) : RefMap :=
  match full !! ref_event_id event with
  | Some _ => full
  | None => <[ref_event_id event := event]> full
  end.

Fixpoint materialize_all (ids : list string) (full : RefMap) (src : Source) : option RefMap * Source :=
  match ids with
  | [] => (Some full, src)
  | id :: rest =>
      match full !! id with
      | Some _ => materialize_all rest full src
      | None =>
          let '(ref, src) := materialize_ref id src in
          match ref with
          | None => (None, src)
          | Some ref => materialize_all rest (<[id := ref]> full) src
          end
      end
  end.

Definition full_conflicted_set (request : StateResolutionRequest) (all_conflicted : list StateEventReference)
    (src : Source) : (string + RefMap) * Source :=
  let cap := max_auth_chain_walk_events (limits request) in
  let '(difference, src) := compute_auth_difference (state_groups request) src cap in
  match difference with
  | None => (inl "state-res v2: missing or unreachable event during auth-chain walk", src)
  | Some difference =>
      if src_missing src
      then (inl "state-res v2: missing or unreachable event during auth-chain walk", src)
      else
        let '(full, src) := materialize_all (iter_set difference) (foldl emplace_ref ∅ all_conflicted) src in
        match full with
        | None => (inl "state-res v2: auth difference event could not be read", src)
        | Some full => (inr full, src)
        end
  end.

(** Room version 12 adds the conflicted state subgraph. *)
Definition add_conflicted_subgraph (request : StateResolutionRequest) (all_conflicted : list StateEventReference)
    (full : RefMap) (src : Source) : (string + RefMap) * Source :=
  let cap := max_auth_chain_walk_events (limits request) in
  let conflicted_ids := list_to_set (ref_event_id <$> all_conflicted) : gset string in
  let '(subgraph, src) := compute_conflicted_state_subgraph conflicted_ids src cap in
  match subgraph with
  | None => (inl "state-res v2: conflicted state subgraph walk failed", src)
  | Some subgraph =>
      if src_missing src then (inl "state-res v2: conflicted state subgraph walk failed", src)
      else
        let '(full, src) := materialize_all (iter_set subgraph) full src in
        match full with
        | None => (inl "state-res v2: conflicted subgraph event could not be read", src)
        | Some full => (inr full, src)
        end
  end.

(** * The starting map of the auth checks *)

Definition create_key : StateKey := mkStateKey "m.room.create" EmptyString.

(** Room version 12: empty but for the create event. *)
Definition seed_create (request : StateResolutionRequest) (unconflicted : StateMap) (src : Source)
    : (string + StateMap) * Source :=
  let room_id := req_room_id request in
  if (2 <=? String.length room_id) && starts_with "!"%char room_id then
    let why := "state-res v2: room v12 create event (derived from room_id) could not be fetched" in
    let '(create_ref, src) := materialize_ref (String "$"%char (drop_str 1 room_id)) src in
    match create_ref with
    | None => (inl why, src)
    | Some ref =>
        if src_missing src || (sk_event_type (ref_key ref) <>s "m.room.create")
           || negb (empty (sk_state_key (ref_key ref)))
        then (inl why, src)
        else (inr {[ref_key ref := ref]}, src)
    end
  else match unconflicted !! create_key with
       | Some event => (inr {[create_key := event]}, src)
       | None => (inr ∅, src)
       end.

(** * The power events *)

(** The loop over the chain of one power event. *)
Definition enlarge_step (full : RefMap) (st : list StateEventReference * gset string * list string)
    (ancestor_id : string) : list StateEventReference * gset string * list string :=
  let '(power_events, selected, queue) := st in
  match full !! ancestor_id with
  | None => st
  | Some event =>
      if bool_decide (ancestor_id ∈ selected) then st
      else (power_events ++ [event], {[ancestor_id]} ∪ selected, ancestor_id :: queue)
  end.

(** [enlarge_queue.back()] is the head.  [None] is a failed walk (or
    [full.at] of an absent ID, which [enlarge_queue] never holds). *)
Fixpoint enlarge (fuel cap : nat) (full : RefMap) (power_events : list StateEventReference)
    (selected : gset string) (queue : list string) (src : Source)
    : option (list StateEventReference * gset string) * Source :=
  match queue with
  | [] => (Some (power_events, selected), src)
  | id :: rest =>
      match fuel, full !! id with
      | S fuel', Some event =>
          let '(chain, src) := walk_auth_chain (ref_event_json event) src cap in
          match chain with
          | None => (None, src)
          | Some chain =>
              if src_missing src then (None, src)
              else
                let '(power_events, selected, queue) :=
                  foldl (enlarge_step full) (power_events, selected, rest) (iter_set chain) in
                enlarge fuel' cap full power_events selected queue src
          end
      | _, _ => (None, src)
      end
  end.

(** An ID enters the queue when it enters [selected], a subset of the keys of
    [full]: its size is enough fuel. *)
Definition select_power_events (full : RefMap) (src : Source) (cap : nat)
    : option (list StateEventReference * gset string) * Source :=
  let chosen := filter (fun p => is_power_event p.2 = true) (iter_map full) in
  let selected := list_to_set chosen.*1 : gset string in
  enlarge (size full) cap full chosen.*2 selected (rev (iter_set selected)) src.

Definition remaining_events (full : RefMap) (selected : gset string) : list StateEventReference :=
  (filter (fun p => p.1 ∉ selected) (iter_map full)).*2.

(** * resolve_state_v2 *)

(** The algorithm proper, from the full conflicted set on. *)
Definition resolve_full (request : StateResolutionRequest) (policy : RoomVersionPolicy)
    (unconflicted : StateMap) (full : RefMap) (resolved : StateMap) (src : Source) : StateResolutionResult :=
  let cap := max_auth_chain_walk_events (limits request) in
  let '(power, src) := select_power_events full src cap in
  match power with
  | None => Failed "state-res v2: enlarge-X auth chain walk failed"
  | Some (power_events, selected) =>
      match reverse_topological_power_sort power_events (build_event_json_index (state_groups request))
              (event_lookup request) policy (limits request) with
      | None => Failed "state-res v2: reverse topological power sort failed closed"
      | Some sorted_power =>
          let '(resolved, src) := apply_iterative_auth_checks policy sorted_power (resolved, src) in
          let '(ordered, src) :=
            mainline_order_with_source (remaining_events full selected) resolved src (limits request) in
          match ordered with
          | None => Failed "state-res v2: mainline ordering auth-chain walk failed"
          | Some ordered =>
              if src_missing src then Failed "state-res v2: mainline ordering auth-chain walk failed"
              else
                let '(resolved, src) := apply_iterative_auth_checks policy ordered (resolved, src) in
                Resolved (state_values (unconflicted ∪ resolved))
          end
      end
  end.

Definition is_v2_1 (policy : RoomVersionPolicy) : bool :=
  match state_resolution policy with sr_v2_1 => true | sr_v2 => false end.

(** The conflicted case: build the full conflicted set and the starting map. *)
Definition resolve_conflicted (request : StateResolutionRequest) (policy : RoomVersionPolicy)
    (unconflicted : StateMap) (all_conflicted : list StateEventReference) : StateResolutionResult :=
  let src := new_source (build_event_json_index (state_groups request)) (event_lookup request)
               (max_auth_chain_walk_events (limits request)) (rejected_of_groups (state_groups request)) in
  let '(full, src) := full_conflicted_set request all_conflicted src in
  match full with
  | inl why => Failed why
  | inr full =>
      if is_v2_1 policy then
        let '(full, src) := add_conflicted_subgraph request all_conflicted full src in
        match full with
        | inl why => Failed why
        | inr full =>
            let '(start, src) := seed_create request unconflicted src in
            match start with
            | inl why => Failed why
            | inr start => resolve_full request policy unconflicted full start src
            end
        end
      else resolve_full request policy unconflicted full unconflicted src
  end.

Definition resolve_state_v2 (request : StateResolutionRequest) (policy : RoomVersionPolicy)
    : StateResolutionResult :=
  match validate_state_resolution_request request with
  | Some error => Failed error
  | None =>
      match state_groups request with
      | [] => Resolved []
      | groups =>
          let '(unconflicted, conflicted_events) := partition_conflicted_state groups (limits request) in
          if (size unconflicted =? 0) && (size conflicted_events =? 0) then Failed "too many state keys"
          else
            match collect_conflicted (limits request) conflicted_events (groups ≫= state) ∅ [] with
            | None => Failed "too many conflicted events"
            | Some [] => Resolved (state_values unconflicted)
            | Some all_conflicted => resolve_conflicted request policy unconflicted all_conflicted
            end
      end
  end.

(** The events after the call: unchanged when the ordering fails. *)
Definition mainline_order (events : list StateEventReference) (resolved : StateMap)
    (events_by_id : EventJsonIndex) (limits : StateResolutionLimits) : list StateEventReference :=
  let src := new_source events_by_id None (max_auth_chain_walk_events limits) ∅ in
  default events (fst (mainline_order_with_source events resolved src limits)).
End Resolution.

Definition state_resolution_summary (result : StateResolutionResult) : string :=
  match result with
  | Resolved events =>
      "state resolution: resolved=true events=" +:+ to_string (Z.of_nat (length events)) +:+ " reason="
  | Failed why => "state resolution: resolved=false events=0 reason=" +:+ why
  end.
