(* ===== verification/AuthChain.v ===== *)
(** Auth chains: what the event source and the walks of EventSource return.

    [resolves] is the abstract content of a source, [ancestor] the
    specification of an auth chain.  A walk that returns yields exactly the
    ancestors ([walk_auth_chain_correct]); a walk over a chain that resolves
    within the cap and the lookup budget does return
    ([walk_auth_chain_complete]). *)
From S2P Require Import Prelude CppStd JsonValue JsonSerializer RoomVersion Signing EventAuth EventSource.
Open Scope nat_scope.

(** * The content of a source *)

Definition resolves (src : Source) (id : string) : option Value :=
  match src_known src !! id with
  | Some json => Some json
  | None => lookup ← src_lookup src; ref_event_json <$> lookup id
  end.

(** The events fetched so far. *)
Definition hits (src : Source) : gset string := dom (omap id (src_fetched src)).

(** The cache only holds what the lookup returned, every hit cost a lookup, and
    the lookups made stay within the budget. *)
Record src_ok (src : Source) : Prop := {
  ok_fetched : forall id r, src_fetched src !! id = Some (Some r) ->
    exists lookup, src_lookup src = Some lookup /\ lookup id = Some r;
  ok_unknown : forall id r, src_fetched src !! id = Some (Some r) -> src_known src !! id = None;
  ok_hits : size (hits src) <= src_used src;
  ok_budget : src_used src <= src_budget src
}.

(** Later in the same resolution. *)
Record extends (src src' : Source) : Prop := {
  ext_known : src_known src' = src_known src;
  ext_lookup : src_lookup src' = src_lookup src;
  ext_budget : src_budget src' = src_budget src;
  ext_used : src_used src <= src_used src';
  ext_fetched : forall id r, src_fetched src !! id = Some r -> src_fetched src' !! id = Some r;
  ext_ok : src_ok src -> src_ok src';
  ext_missing : src_missing src = true -> src_missing src' = true;
  ext_rejected : forall id, id ∈ src_rejected src' <-> id ∈ src_rejected src
    \/ exists r, src_fetched src !! id = None /\ src_fetched src' !! id = Some (Some r) /\ ref_rejected r = true
}.

#[export] Instance extends_preorder : PreOrder extends.
Proof.
  split.
  - intros src. split; try done. intros id. split; [by left|]. intros [?|(r & Hn & Hr & _)]; [done|congruence].
  - intros a b c [A1 A2 A3 A4 A5 A6 A7 A8] [B1 B2 B3 B4 B5 B6 B7 B8]. split; try congruence; [lia|auto..|].
    intros id. rewrite B8, A8. split.
    + intros [[?|(r & Hn & Hr & Hj)]|(r & Hn & Hr & Hj)]; [by left|right; exists r; by auto|right; exists r].
      split; [|done]. destruct (src_fetched a !! id) as [x|] eqn:E; [|done]. by rewrite (A5 _ _ E) in Hn.
    + intros [?|(r & Hn & Hr & Hj)]; [by auto|]. destruct (src_fetched b !! id) as [x|] eqn:E; [|right; by exists r].
      left. right. exists r. split; [done|]. split; [|done]. pose proof (B5 _ _ E). congruence.
Qed.

Lemma resolves_extends src src' id : extends src src' -> resolves src' id = resolves src id.
Proof. intros []. unfold resolves. by rewrite ext_known0, ext_lookup0. Qed.

Lemma new_source_ok known lookup budget rejected : src_ok (new_source known lookup budget rejected).
Proof.
  split; simpl; [done|done| |lia]. unfold hits. simpl. by rewrite omap_empty, dom_empty_L, size_empty.
Qed.

(** Set [missing_]: nothing else changes. *)
Lemma set_missing_extends src : extends src (src_set_missing src).
Proof.
  split; try done; [intros []; by split|]. intros id. simpl. split; [by left|]. intros [?|(r & Hn & Hr & _)]; [done|congruence].
Qed.

Lemma note_extends src id r used rejected :
  src_fetched src !! id = None ->
  match r with Some _ => src_used src < used | None => src_used src <= used end ->
  (src_ok src -> used <= src_budget src) ->
  (forall e, r = Some e -> src_known src !! id = None /\ exists lookup, src_lookup src = Some lookup /\ lookup id = Some e) ->
  (forall x, x ∈ rejected <-> x ∈ src_rejected src \/ exists e, x = id /\ r = Some e /\ ref_rejected e = true) ->
  extends src (src_note src id r used rejected).
Proof.
  intros Hid Hused Hbudget Hr Hrej.
  assert (src_used src <= used) by (destruct r; lia). split; try done.
  - intros id' r' Hr'. simpl. rewrite lookup_insert_ne; [done|congruence].
  - intros Hok. split; simpl; [| | |auto].
    + intros id' e. destruct (decide (id' = id)) as [->|Hne].
      * rewrite lookup_insert_eq. intros [= ->]. by apply Hr.
      * rewrite lookup_insert_ne by done. by apply ok_fetched.
    + intros id' e. destruct (decide (id' = id)) as [->|Hne].
      * rewrite lookup_insert_eq. intros [= ->]. by apply (Hr e).
      * rewrite lookup_insert_ne by done. by apply ok_unknown.
    + pose proof (ok_hits _ Hok) as Hh. revert Hh. unfold hits. simpl. destruct r as [e|].
      * rewrite (omap_insert_Some _ _ _ _ e) by done. rewrite dom_insert_L.
        pose proof (size_union_alt {[id]} (dom (omap Datatypes.id (src_fetched src)))) as Hs.
        rewrite size_singleton in Hs.
        pose proof (subseteq_size (dom (omap Datatypes.id (src_fetched src)) ∖ {[id]})
                      (dom (omap Datatypes.id (src_fetched src))) ltac:(set_solver)). lia.
      * rewrite omap_insert_None by done. rewrite delete_id; [lia|].
        rewrite lookup_omap, Hid. done.
  - intros x. simpl. rewrite Hrej. split; intros [?|(e & He)]; [by left| |by left|]; right; exists e.
    + destruct He as (-> & -> & He). by rewrite lookup_insert_eq.
    + destruct He as (Hn & Hx & He). destruct (decide (x = id)) as [->|Hne]; [|by rewrite lookup_insert_ne, Hn in Hx].
      rewrite lookup_insert_eq in Hx. by simplify_eq.
Qed.

Lemma fetch_extends id src : extends src (snd (fetch id src)).
Proof.
  unfold fetch. destruct (src_known src !! id) eqn:Ek; [reflexivity|].
  destruct (src_fetched src !! id) as [[r|]|] eqn:Ef; [reflexivity..|].
  assert (forall x, x ∈ src_rejected src <-> x ∈ src_rejected src
    \/ exists e, x = id /\ None = Some e /\ ref_rejected e = true) as Hsame
    by (intros x; split; [by left|by intros [?|(? & _ & ? & _)]]).
  destruct (src_lookup src) as [lookup|] eqn:El.
  2: { simpl. apply note_extends; [done|lia|by intros []|done|done]. }
  destruct (src_budget src <=? src_used src) eqn:Eb.
  { simpl. apply note_extends; [done|lia|by intros []|done|done]. }
  apply Nat.leb_gt in Eb.
  destruct (lookup id) as [r|] eqn:Er; simpl; apply note_extends; try lia; try done.
  - intros e [= <-]. eauto.
  - intros x. destruct (ref_rejected r) eqn:Ej.
    + rewrite elem_of_union, elem_of_singleton. split; [intros [->|?]; [right; by exists r|by left]|].
      intros [?|(e & -> & _)]; [by right|by left].
    + split; [by left|]. intros [?|(e & _ & [= <-] & ?)]; [done|congruence].
Qed.

(** The event needs no further lookup. *)
Definition in_memory (src : Source) (id : string) : Prop :=
  id ∈ dom (src_known src) ∪ hits src.

Lemma in_memory_extends src src' id : extends src src' -> in_memory src id -> in_memory src' id.
Proof.
  intros He. unfold in_memory, hits. rewrite (ext_known _ _ He), !elem_of_union, !elem_of_dom, !lookup_omap.
  intros [|[r Hr]]; [by left|right]. destruct (src_fetched src !! id) as [x|] eqn:E; [|done].
  rewrite (ext_fetched _ _ He _ _ E). by eexists.
Qed.

Lemma fetch_in_memory id src v : fst (fetch id src) = Some v -> in_memory (snd (fetch id src)) id.
Proof.
  unfold fetch, in_memory, hits. destruct (src_known src !! id) eqn:Ek.
  { intros _. simpl. rewrite elem_of_union, elem_of_dom, Ek. by left. }
  destruct (src_fetched src !! id) as [[r|]|] eqn:Ef; simpl; [|done|].
  { intros _. rewrite elem_of_union, !elem_of_dom, lookup_omap, Ef. by right. }
  destruct (src_lookup src) as [lookup|]; [|done]. destruct (_ <=? _); [done|].
  destruct (lookup id) as [r|]; [|done]. simpl. intros _.
  rewrite elem_of_union, !elem_of_dom, lookup_omap, lookup_insert_eq. right. by eexists.
Qed.

Lemma fetch_resolves id src v : src_ok src -> fst (fetch id src) = Some v -> resolves src id = Some v.
Proof.
  intros Hok. unfold fetch, resolves. destruct (src_known src !! id); [done|].
  destruct (src_fetched src !! id) as [[r|]|] eqn:Ef; simpl; [|done|].
  { intros [= <-]. destruct (ok_fetched _ Hok _ _ Ef) as (lookup & -> & Hl). simpl. by rewrite Hl. }
  destruct (src_lookup src) as [lookup|]; [|done]. simpl.
  destruct (_ <=? _); [done|]. by destruct (lookup id); intros [= <-].
Qed.

Lemma fetch_missing id src : src_missing (snd (fetch id src)) = src_missing src.
Proof. unfold fetch. repeat (case_match; try done). Qed.

Lemma find_required_extends id src : extends src (snd (find_required id src)).
Proof.
  pose proof (fetch_extends id src) as He. unfold find_required.
  destruct (fetch id src) as [[v|] src']; simpl in *; [done|].
  etrans; [exact He|apply set_missing_extends].
Qed.

Lemma find_required_resolves id src v :
  src_ok src -> fst (find_required id src) = Some v -> resolves src id = Some v.
Proof.
  intros Hok. pose proof (fetch_resolves id src v Hok) as Hf. unfold find_required.
  by destruct (fetch id src) as [[v'|] src'].
Qed.

(** A miss is remembered for the whole resolution. *)
Lemma find_required_missing id src :
  fst (find_required id src) = None -> src_missing (snd (find_required id src)) = true.
Proof. unfold find_required. by destruct (fetch id src) as [[v'|] src']. Qed.

Lemma find_required_in_memory id src v :
  fst (find_required id src) = Some v -> in_memory (snd (find_required id src)) id.
Proof.
  pose proof (fetch_in_memory id src) as Hf. unfold find_required.
  destruct (fetch id src) as [[w|] src']; simpl in *; [eauto|done].
Qed.

(** * Sources that can serve a set of events *)

(** Every ID of [R] resolves, none was missed before, and the budget left
    covers the ones not in memory yet. *)
Record serves (src : Source) (R : gset string) : Prop := {
  srv_ok : src_ok src;
  srv_resolves : forall id, id ∈ R -> is_Some (resolves src id);
  srv_no_miss : forall id, id ∈ R -> src_fetched src !! id <> Some None;
  srv_budget : src_used src + size (R ∖ (dom (src_known src) ∪ dom (src_fetched src))) <= src_budget src
}.

Lemma size_remove_one (X Y : gset string) id : id ∈ X -> id ∉ Y ->
  size (X ∖ Y) = S (size (X ∖ ({[id]} ∪ Y))).
Proof.
  intros Hx Hy. change (S ?n) with (1 + n).
  rewrite <- (size_singleton (C := gset string) id), <- size_union by set_solver.
  f_equal. apply set_eq. intros x. destruct (decide (x = id)); set_solver.
Qed.

(** The budget still covers [R] after a first lookup of one of its members. *)
Lemma serves_note src R id r rejected :
  let src' := src_note src id (Some r) (S (src_used src)) rejected in
  serves src R -> src_ok src' -> id ∈ R ->
  src_known src !! id = None -> src_fetched src !! id = None -> serves src' R.
Proof.
  intros src' [Hok Hres Hmiss Hbud] Hok' Hid Hk Hf. subst src'. split; simpl; [done|done|..].
  - intros id' Hid'. destruct (decide (id' = id)) as [->|Hne].
    + rewrite lookup_insert, decide_True by done. congruence.
    + rewrite lookup_insert_ne by done. auto.
  - apply not_elem_of_dom in Hk, Hf.
    rewrite dom_insert_L. rewrite (size_remove_one _ _ id) in Hbud by set_solver.
    replace (dom (src_known src) ∪ ({[id]} ∪ dom (src_fetched src)))
      with ({[id]} ∪ (dom (src_known src) ∪ dom (src_fetched src))) by set_solver.
    lia.
Qed.

Lemma serves_fetch src R id : serves src R -> id ∈ R ->
  fst (fetch id src) = resolves src id /\ serves (snd (fetch id src)) R.
Proof.
  intros Hs Hid. destruct (srv_resolves _ _ Hs id Hid) as [v Hv].
  pose proof (srv_no_miss _ _ Hs id Hid) as Hm.
  pose proof (ext_ok _ _ (fetch_extends id src) (srv_ok _ _ Hs)) as Hok'.
  pose proof (fetch_resolves id src) as Hf. revert Hok' Hf.
  unfold fetch. destruct (src_known src !! id) as [json|] eqn:Ek.
  { intros _ Hf. by rewrite (Hf json (srv_ok _ _ Hs) eq_refl). }
  destruct (src_fetched src !! id) as [[r|]|] eqn:Ef; [|done|].
  { intros _ Hf. by rewrite (Hf _ (srv_ok _ _ Hs) eq_refl). }
  unfold resolves in Hv |- *. rewrite Ek in Hv |- *.
  destruct (src_lookup src) as [lookup|] eqn:El; [|done]. simpl in Hv |- *.
  destruct (src_budget src <=? src_used src) eqn:Eb.
  - apply Nat.leb_le in Eb. pose proof (srv_budget _ _ Hs) as Hb.
    apply not_elem_of_dom in Ek, Ef. rewrite (size_remove_one _ _ id) in Hb by set_solver. lia.
  - destruct (lookup id) as [r|] eqn:Er; [|done]. simpl. intros Hok' _.
    split; [done|]. by apply serves_note.
Qed.

Lemma serves_subset src R R' : serves src R -> R' ⊆ R -> serves src R'.
Proof.
  intros [H1 H2 H3 H4] Hsub. split; [done|auto..|]. etrans; [|exact H4]. apply Nat.add_le_mono_l.
  apply subseteq_size. set_solver.
Qed.

Lemma serves_find_required src R id : serves src R -> id ∈ R ->
  exists v src', find_required id src = (Some v, src') /\ resolves src id = Some v
    /\ serves src' R /\ src_missing src' = src_missing src.
Proof.
  intros Hs Hid. destruct (serves_fetch src R id Hs Hid) as [Hv Hs'].
  destruct (srv_resolves _ _ Hs id Hid) as [v Hr]. rewrite Hr in Hv.
  pose proof (fetch_missing id src) as Hm. unfold find_required.
  destruct (fetch id src) as [w src'] eqn:E. simpl in *. subst w. eauto 10.
Qed.

(** What a resolution read from a fresh source, a fresh source can serve. *)
Lemma memory_serves known lookup budget rejected src' R :
  let src := new_source known lookup budget rejected in
  extends src src' -> (forall id, id ∈ R -> in_memory src' id) -> serves src R.
Proof.
  intros src He Hmem. pose proof (ext_ok _ _ He (new_source_ok _ _ _ _)) as Hok.
  assert (forall id, id ∈ R -> id ∈ dom known \/ id ∈ hits src') as Hin.
  { intros id Hid%Hmem. unfold in_memory in Hid. rewrite (ext_known _ _ He) in Hid. by apply elem_of_union. }
  split; [apply new_source_ok| |done|].
  - intros id Hid. rewrite <- (resolves_extends _ _ _ He). unfold resolves. rewrite (ext_known _ _ He). simpl.
    destruct (Hin id Hid) as [[v ->]%elem_of_dom|Hh]; [by eexists|].
    unfold hits in Hh. rewrite elem_of_dom, lookup_omap in Hh.
    destruct (src_fetched src' !! id) as [[r|]|] eqn:E; [|by destruct Hh..].
    destruct (ok_fetched _ Hok _ _ E) as (f & -> & Hf). simpl. rewrite Hf.
    destruct (known !! id); by eexists.
  - simpl. rewrite dom_empty_L.
    pose proof (ok_hits _ Hok) as Hh. pose proof (ok_budget _ Hok) as Hb. rewrite (ext_budget _ _ He) in Hb. simpl in Hb.
    etrans; [|exact Hb]. etrans; [|exact Hh]. apply subseteq_size.
    intros id [Hid Hn]%elem_of_difference. destruct (Hin id Hid); set_solver.
Qed.

(** * Auth chains *)

(** The specification of the auth chain of an event: the events its
    auth_events name, and those theirs name, and so on. *)
Inductive ancestor (content : string -> option Value) (start : Value) : string -> Prop :=
| ancestor_direct id : id ∈ auth_event_ids start -> ancestor content start id
| ancestor_step id v id' : ancestor content start id -> content id = Some v ->
    id' ∈ auth_event_ids v -> ancestor content start id'.

(** The frontier and the chain between two rounds of the walk. *)
Record walk_inv (content : string -> option Value) (start : Value) (frontier : list string)
    (chain : gset string) : Prop := {
  inv_chain : forall id, id ∈ chain -> ancestor content start id /\ is_Some (content id);
  inv_frontier : forall id, id ∈ frontier -> ancestor content start id;
  inv_start : forall id, id ∈ auth_event_ids start -> id ∈ chain \/ id ∈ frontier;
  inv_closed : forall id v id', id ∈ chain -> content id = Some v -> id' ∈ auth_event_ids v ->
    id' ∈ chain \/ id' ∈ frontier
}.

Lemma pop_unvisited_Some chain frontier id rest :
  pop_unvisited chain frontier = Some (id, rest) ->
  (id ∉ chain) /\ (exists skipped, frontier = skipped ++ id :: rest /\ Forall (fun x => x ∈ chain) skipped).
Proof.
  revert id rest. induction frontier as [|x frontier IH]; simpl; intros id rest; [done|].
  case_bool_decide as Hx.
  - intros H. destruct (IH _ _ H) as (Hn & sk & -> & Hsk). split; [done|].
    exists (x :: sk). split; [done|]. by constructor.
  - intros [= -> ->]. split; [done|]. exists []. split; [done|constructor].
Qed.

Lemma pop_unvisited_None chain frontier :
  pop_unvisited chain frontier = None -> forall id, id ∈ frontier -> id ∈ chain.
Proof.
  induction frontier as [|x frontier IH]; simpl; [set_solver|].
  case_bool_decide; [|done]. set_solver.
Qed.

Lemma elem_of_push_ancestors chain ids frontier id :
  id ∈ push_ancestors chain ids frontier <-> (id ∈ ids /\ id ∉ chain) \/ id ∈ frontier.
Proof.
  unfold push_ancestors. rewrite elem_of_app, list_elem_of_In, <- in_rev, <- list_elem_of_In.
  rewrite list_elem_of_filter. tauto.
Qed.

Lemma walk_inv_step content start frontier chain id rest v :
  walk_inv content start frontier chain -> pop_unvisited chain frontier = Some (id, rest) ->
  content id = Some v ->
  walk_inv content start (push_ancestors ({[id]} ∪ chain) (auth_event_ids v) rest) ({[id]} ∪ chain).
Proof.
  intros [Hc Hf Hs Hcl] (Hn & sk & -> & Hsk)%pop_unvisited_Some Hv.
  rewrite Forall_forall in Hsk.
  assert (ancestor content start id) as Hid by (apply Hf; set_solver).
  split; intros id'.
  - rewrite elem_of_union, elem_of_singleton. intros [->|Hid']; [|auto]. split; [done|by eexists].
  - rewrite elem_of_push_ancestors. intros [[Hid' _]|Hid']; [by eapply ancestor_step|]. apply Hf. set_solver.
  - intros Hid'. rewrite elem_of_push_ancestors. specialize (Hs id' Hid'). set_solver.
  - intros w id''. rewrite elem_of_push_ancestors, elem_of_union, elem_of_singleton.
    intros [->|Hid'] Hw Hid''.
    + rewrite Hv in Hw. simplify_eq. destruct (decide (id'' ∈ {[id]} ∪ chain)); set_solver.
    + specialize (Hcl _ _ _ Hid' Hw Hid''). set_solver.
Qed.

Lemma walk_inv_done content start frontier chain :
  walk_inv content start frontier chain -> pop_unvisited chain frontier = None ->
  forall id, id ∈ chain <-> ancestor content start id.
Proof.
  intros [Hc Hf Hs Hcl] Hpop id. pose proof (pop_unvisited_None _ _ Hpop) as Hin.
  split; [intros; by apply Hc|].
  induction 1 as [id Hid|id v id' _ IH Hv Hid'].
  - destruct (Hs id Hid); auto.
  - destruct (Hcl id v id' IH Hv Hid'); auto.
Qed.

(** * The walk *)

Lemma walk_loop_extends fuel cap frontier chain src :
  extends src (snd (walk_loop fuel cap frontier chain src)).
Proof.
  revert frontier chain src. induction fuel as [|fuel IH]; intros frontier chain src; simpl;
    destruct (pop_unvisited chain frontier) as [[id rest]|]; try reflexivity;
    destruct (cap <? _); try reflexivity;
    pose proof (find_required_extends id src) as He;
    destruct (find_required id src) as [[v|] src']; simpl in *; try done.
  etrans; [exact He|apply IH].
Qed.

(** What a source holds, as a function that does not change during a
    resolution. *)
Definition holds (src : Source) (content : string -> option Value) : Prop :=
  src_ok src /\ forall id, resolves src id = content id.

Lemma holds_self src : src_ok src -> holds src (resolves src).
Proof. by split. Qed.

Lemma holds_extends src src' content : extends src src' -> holds src content -> holds src' content.
Proof.
  intros He [Hok Hc]. split; [by apply (ext_ok _ _ He)|].
  intros id. rewrite (resolves_extends _ _ _ He). apply Hc.
Qed.

Lemma holds_find_required src content id v :
  holds src content -> fst (find_required id src) = Some v -> content id = Some v.
Proof. intros [Hok <-]. by apply find_required_resolves. Qed.

Lemma walk_loop_correct content fuel cap start frontier chain src chain' :
  holds src content -> walk_inv content start frontier chain -> size chain <= cap ->
  fst (walk_loop fuel cap frontier chain src) = Some chain' ->
  (forall id, id ∈ chain' <-> ancestor content start id)
  /\ (forall id, id ∈ chain' -> is_Some (content id)) /\ size chain' <= cap.
Proof.
  revert frontier chain src. induction fuel as [|fuel IH]; intros frontier chain src Hh Hinv Hsz; simpl;
    destruct (pop_unvisited chain frontier) as [[id rest]|] eqn:Hpop;
    try (intros [= <-]; split; [by apply (walk_inv_done _ _ frontier)|split; [apply Hinv|done]]);
    destruct (cap <? _) eqn:Ecap; try done;
    pose proof (find_required_extends id src) as He;
    pose proof (holds_find_required src content id) as Hr;
    destruct (find_required id src) as [[v|] src']; simpl in *; try done.
  apply Nat.ltb_ge in Ecap. apply IH; [by apply (holds_extends src)| |done].
  by apply (walk_inv_step _ _ frontier); [..|apply Hr].
Qed.

Lemma walk_loop_complete content R fuel cap start frontier chain src :
  holds src content -> serves src R -> walk_inv content start frontier chain ->
  (forall id, ancestor content start id -> id ∈ R) -> size R <= cap -> cap < fuel + size chain ->
  exists chain' src', walk_loop fuel cap frontier chain src = (Some chain', src')
    /\ serves src' R /\ src_missing src' = src_missing src.
Proof.
  intros Hh Hs Hinv HR Hcap. revert frontier chain src Hh Hs Hinv.
  induction fuel as [|fuel IH]; intros frontier chain src Hh Hs Hinv Hf; simpl;
    destruct (pop_unvisited chain frontier) as [[id rest]|] eqn:Hpop; eauto;
    pose proof (pop_unvisited_Some _ _ _ _ Hpop) as (Hn & sk & Hfr & _);
    assert (ancestor content start id) as Hid by (apply (inv_frontier _ _ _ _ Hinv); set_solver);
    assert (size ({[id]} ∪ chain) <= cap) as Hsz
      by (etrans; [apply (subseteq_size _ R)|done]; intros x [->%elem_of_singleton|Hx]%elem_of_union; auto;
          apply HR, Hinv; done);
    rewrite size_union, size_singleton in Hsz by set_solver; [lia|].
  rewrite size_union, size_singleton by set_solver.
  assert ((cap <? 1 + size chain) = false) as -> by (apply Nat.ltb_ge; lia).
  destruct (serves_find_required src R id Hs (HR id Hid)) as (v & src' & Hfind & Hv & Hs' & Hm).
  pose proof (find_required_extends id src) as He. rewrite Hfind in He |- *. simpl in He.
  pose proof (holds_extends _ _ _ He Hh) as Hh'.
  assert (content id = Some v) as Hcv by (destruct Hh as [_ <-]; done).
  destruct (IH (push_ancestors ({[id]} ∪ chain) (auth_event_ids v) rest) ({[id]} ∪ chain) src' Hh' Hs')
    as (chain' & src'' & -> & Hs'' & Hm'').
  - by apply (walk_inv_step _ _ frontier).
  - rewrite size_union, size_singleton by set_solver. lia.
  - exists chain', src''. split; [done|]. split; [done|congruence].
Qed.

Lemma walk_inv_init content start : walk_inv content start (rev (auth_event_ids start)) ∅.
Proof.
  assert (forall id, id ∈ rev (auth_event_ids start) <-> id ∈ auth_event_ids start) as Hrev.
  { intros id. by rewrite !list_elem_of_In, <- in_rev. }
  split; intros id; rewrite ?Hrev; try set_solver. by constructor.
Qed.

Lemma walk_auth_chain_extends start src cap : extends src (snd (walk_auth_chain start src cap)).
Proof. apply walk_loop_extends. Qed.

Lemma walk_auth_chain_sound content start src cap chain :
  holds src content -> fst (walk_auth_chain start src cap) = Some chain ->
  (forall id, id ∈ chain <-> ancestor content start id)
  /\ (forall id, id ∈ chain -> is_Some (content id)) /\ size chain <= cap.
Proof.
  intros Hh. apply walk_loop_correct; [done|apply walk_inv_init|]. rewrite size_empty. lia.
Qed.

(** The fuel of the walk is enough: it returns whenever the whole chain
    resolves within the cap and the budget. *)
Lemma walk_loop_fuel content R start src cap :
  holds src content -> serves src R -> (forall id, ancestor content start id -> id ∈ R) -> size R <= cap ->
  exists chain src', walk_auth_chain start src cap = (Some chain, src')
    /\ serves src' R /\ src_missing src' = src_missing src.
Proof.
  intros Hh Hs HR Hcap. eapply walk_loop_complete; eauto using walk_inv_init. lia.
Qed.

(** * Groups *)

(** The ancestors of a list of events. *)
Definition events_ancestor (content : string -> option Value) (events : list StateEventReference)
    (id : string) : Prop :=
  exists event, event ∈ events /\ value_has_content (ref_event_json event) = true
    /\ ancestor content (ref_event_json event) id.

(** The auth chain of a state group. *)
Definition group_ancestor (content : string -> option Value) (group : StateGroup) : string -> Prop :=
  events_ancestor content (state group).

Lemma events_ancestor_cons content event events id :
  events_ancestor content (event :: events) id <->
  (value_has_content (ref_event_json event) = true /\ ancestor content (ref_event_json event) id)
  \/ events_ancestor content events id.
Proof. unfold events_ancestor. set_solver. Qed.

Lemma group_chain_loop_sound content events result src cap chain :
  holds src content -> fst (group_chain_loop events result src cap) = Some chain ->
  forall id, id ∈ chain <-> id ∈ result \/ events_ancestor content events id.
Proof.
  revert result src. induction events as [|event events IH]; intros result src Hh; simpl.
  { intros [= <-] id. unfold events_ancestor. set_solver. }
  intros Hr id. rewrite events_ancestor_cons. revert Hr.
  destruct (value_has_content (ref_event_json event)) eqn:Ec; simpl.
  2: { intros Hr. rewrite (IH _ _ Hh Hr). naive_solver. }
  pose proof (walk_auth_chain_extends (ref_event_json event) src cap) as He.
  pose proof (walk_auth_chain_sound content (ref_event_json event) src cap) as Hw.
  destruct (walk_auth_chain _ src cap) as [[c|] src']; simpl in *; [|done].
  destruct (cap <? _); [done|]. intros Hr.
  destruct (Hw c Hh eq_refl) as [Hc _].
  rewrite (IH _ _ (holds_extends _ _ _ He Hh) Hr), elem_of_union, Hc. naive_solver.
Qed.

Lemma group_chain_loop_extends events result src cap :
  extends src (snd (group_chain_loop events result src cap)).
Proof.
  revert result src. induction events as [|event events IH]; intros result src; simpl; [reflexivity|].
  destruct (negb _); [apply IH|].
  pose proof (walk_auth_chain_extends (ref_event_json event) src cap) as He.
  destruct (walk_auth_chain _ src cap) as [[c|] src']; simpl in *; [|done].
  destruct (cap <? _); [done|]. etrans; [exact He|apply IH].
Qed.

Lemma group_chain_loop_complete content R events result src cap :
  holds src content -> serves src R -> (forall id, events_ancestor content events id -> id ∈ R) ->
  result ⊆ R -> size R <= cap ->
  exists chain src', group_chain_loop events result src cap = (Some chain, src')
    /\ serves src' R /\ src_missing src' = src_missing src.
Proof.
  intros Hh Hs HR Hres Hcap. revert result src Hh Hs HR Hres.
  induction events as [|event events IH]; intros result src Hh Hs HR Hres; simpl; [eauto|].
  setoid_rewrite events_ancestor_cons in HR.
  destruct (value_has_content (ref_event_json event)) eqn:Ec; simpl; [|naive_solver].
  destruct (walk_loop_fuel content R (ref_event_json event) src cap) as (c & src' & Hw & Hs' & Hm);
    [done..|naive_solver|done|].
  pose proof (walk_auth_chain_extends (ref_event_json event) src cap) as He.
  pose proof (walk_auth_chain_sound content (ref_event_json event) src cap) as Hsound.
  rewrite Hw in He, Hsound |- *. simpl in He, Hsound. destruct (Hsound c Hh eq_refl) as [Hc _].
  assert (result ∪ c ⊆ R) as Hsub by (intros x [Hx|Hx%Hc]%elem_of_union; naive_solver).
  assert ((cap <? size (result ∪ c)) = false) as ->.
  { apply Nat.ltb_ge. etrans; [|exact Hcap]. by apply subseteq_size. }
  destruct (IH (result ∪ c) src') as (chain & src'' & -> & ? & ?);
    [by apply (holds_extends src)|done|naive_solver|done|].
  exists chain, src''. split; [done|]. split; [done|congruence].
Qed.

Lemma group_chains_sound content groups src cap chains :
  holds src content -> fst (group_chains groups src cap) = Some chains ->
  Forall2 (fun group chain => forall id, id ∈ chain <-> group_ancestor content group id) groups chains.
Proof.
  revert src chains. induction groups as [|group groups IH]; intros src chains Hh; simpl.
  { intros [= <-]. constructor. }
  unfold full_auth_chain_of_group.
  pose proof (group_chain_loop_extends (state group) ∅ src cap) as He.
  pose proof (group_chain_loop_sound content (state group) ∅ src cap) as Hs.
  destruct (group_chain_loop _ ∅ src cap) as [[c|] src']; simpl in *; [|done].
  specialize (IH src'). destruct (group_chains groups src' cap) as [[cs|] src'']; simpl in *; [|done].
  intros [= <-]. constructor; [|apply IH; [by apply (holds_extends src)|done]].
  intros id. rewrite (Hs c Hh eq_refl id). unfold group_ancestor. set_solver.
Qed.

Lemma group_chains_extends groups src cap : extends src (snd (group_chains groups src cap)).
Proof.
  revert src. induction groups as [|group groups IH]; intros src; simpl; [reflexivity|].
  unfold full_auth_chain_of_group.
  pose proof (group_chain_loop_extends (state group) ∅ src cap) as He.
  destruct (group_chain_loop _ ∅ src cap) as [[c|] src']; simpl in *; [|done].
  specialize (IH src'). destruct (group_chains groups src' cap) as [[cs|] src'']; simpl in *;
    by etrans.
Qed.

Lemma group_chains_complete content R groups src cap :
  holds src content -> serves src R ->
  (forall group id, group ∈ groups -> group_ancestor content group id -> id ∈ R) -> size R <= cap ->
  exists chains src', group_chains groups src cap = (Some chains, src')
    /\ serves src' R /\ src_missing src' = src_missing src.
Proof.
  intros Hh Hs HR Hcap. revert src Hh Hs HR.
  induction groups as [|group groups IH]; intros src Hh Hs HR; simpl; [eauto|].
  unfold full_auth_chain_of_group.
  destruct (group_chain_loop_complete content R (state group) ∅ src cap) as (c & src' & Hw & Hs' & Hm);
    [done..|intros id Hid; eapply (HR group); [left|exact Hid]|set_solver|done|].
  pose proof (group_chain_loop_extends (state group) ∅ src cap) as He. rewrite Hw in He |- *. simpl in He.
  destruct (IH src') as (chains & src'' & -> & ? & ?);
    [by apply (holds_extends src)|done|intros g id Hg; apply HR; by right|].
  eexists _, src''. split; [done|]. split; [done|congruence].
Qed.

(** Every event of the chains resolved. *)
Lemma group_chain_loop_resolves content events result src cap chain :
  holds src content -> fst (group_chain_loop events result src cap) = Some chain ->
  (forall id, id ∈ result -> is_Some (content id)) -> forall id, id ∈ chain -> is_Some (content id).
Proof.
  revert result src. induction events as [|event events IH]; intros result src Hh; simpl; [by intros [= <-]|].
  destruct (negb _); [by apply IH|].
  pose proof (walk_auth_chain_extends (ref_event_json event) src cap) as He.
  pose proof (walk_auth_chain_sound content (ref_event_json event) src cap) as Hw.
  destruct (walk_auth_chain _ src cap) as [[c|] src']; simpl in *; [|done].
  destruct (cap <? _); [done|]. destruct (Hw c Hh eq_refl) as (_ & Hc & _).
  intros Hr Hres. eapply IH; [by apply (holds_extends src)|done|]. set_solver.
Qed.

Lemma group_chains_resolve content groups src cap chains :
  holds src content -> fst (group_chains groups src cap) = Some chains ->
  forall chain id, chain ∈ chains -> id ∈ chain -> is_Some (content id).
Proof.
  revert src chains. induction groups as [|group groups IH]; intros src chains Hh; simpl.
  { intros [= <-]. set_solver. }
  unfold full_auth_chain_of_group.
  pose proof (group_chain_loop_extends (state group) ∅ src cap) as He.
  pose proof (group_chain_loop_resolves content (state group) ∅ src cap) as Hs.
  destruct (group_chain_loop _ ∅ src cap) as [[c|] src']; simpl in *; [|done].
  specialize (IH src'). destruct (group_chains groups src' cap) as [[cs|] src'']; simpl in *; [|done].
  intros [= <-] chain id [->|Hin]%elem_of_cons Hid.
  - by eapply Hs.
  - by eapply (IH cs (holds_extends _ _ _ He Hh) eq_refl).
Qed.

Lemma auth_difference_resolves content groups src cap difference :
  holds src content -> fst (compute_auth_difference groups src cap) = Some difference ->
  forall g id, g ∈ groups -> group_ancestor content g id -> is_Some (content id).
Proof.
  intros Hh. unfold compute_auth_difference.
  pose proof (group_chains_sound content groups src cap) as Hs.
  pose proof (group_chains_resolve content groups src cap) as Hr.
  destruct (group_chains groups src cap) as [[cs|] src']; simpl in *; [|done].
  intros _ g id Hg Ha. destruct (Forall2_in_l _ _ _ _ (Hs cs Hh eq_refl) Hg) as (c & Hc & Hid).
  eapply (Hr cs Hh eq_refl c); [done|]. by apply Hid.
Qed.

(** What was walked is in memory. *)
Lemma walk_loop_memory fuel cap frontier chain src chain' : (forall id, id ∈ chain -> in_memory src id) ->
  fst (walk_loop fuel cap frontier chain src) = Some chain' ->
  forall id, id ∈ chain' -> in_memory (snd (walk_loop fuel cap frontier chain src)) id.
Proof.
  revert frontier chain src. induction fuel as [|fuel IH]; intros frontier chain src Hmem; simpl;
    destruct (pop_unvisited chain frontier) as [[id rest]|]; try (by intros [= <-]);
    destruct (cap <? _); try done;
    pose proof (find_required_extends id src) as He; pose proof (find_required_in_memory id src) as Hm;
    destruct (find_required id src) as [[v|] src']; simpl in *; try done.
  apply IH. intros x [->%elem_of_singleton|Hx]%elem_of_union; [by eapply Hm|]. by eapply in_memory_extends, Hmem.
Qed.

Lemma group_chain_loop_memory events result src cap chain : (forall id, id ∈ result -> in_memory src id) ->
  fst (group_chain_loop events result src cap) = Some chain ->
  forall id, id ∈ chain -> in_memory (snd (group_chain_loop events result src cap)) id.
Proof.
  revert result src. induction events as [|event events IH]; intros result src Hmem; simpl; [by intros [= <-]|].
  destruct (negb _); [by apply IH|].
  pose proof (walk_auth_chain_extends (ref_event_json event) src cap) as He.
  pose proof (walk_loop_memory (S cap) cap (rev (auth_event_ids (ref_event_json event))) ∅ src) as Hm.
  fold (walk_auth_chain (ref_event_json event) src cap) in Hm.
  destruct (walk_auth_chain _ src cap) as [[c|] src']; simpl in *; [|done].
  destruct (cap <? _); [done|]. apply IH. intros x [Hx|Hx]%elem_of_union; [by eapply in_memory_extends, Hmem|].
  apply (Hm c); [set_solver|done|done].
Qed.

Lemma group_chains_memory groups src cap chains :
  fst (group_chains groups src cap) = Some chains ->
  forall chain id, chain ∈ chains -> id ∈ chain -> in_memory (snd (group_chains groups src cap)) id.
Proof.
  revert src chains. induction groups as [|group groups IH]; intros src chains; simpl.
  { intros [= <-]. set_solver. }
  unfold full_auth_chain_of_group.
  pose proof (group_chain_loop_memory (state group) ∅ src cap) as Hm.
  destruct (group_chain_loop _ ∅ src cap) as [[c|] src']; simpl in *; [|done].
  specialize (IH src'). pose proof (group_chains_extends groups src' cap) as He.
  destruct (group_chains groups src' cap) as [[cs|] src'']; simpl in *; [|done].
  intros [= <-] chain id [->|Hin]%elem_of_cons Hid; [|by eapply IH].
  eapply in_memory_extends; [exact He|]. apply (Hm c); [set_solver|done|done].
Qed.

Lemma auth_difference_memory content groups src cap difference :
  holds src content -> fst (compute_auth_difference groups src cap) = Some difference ->
  forall g id, g ∈ groups -> group_ancestor content g id -> in_memory (snd (compute_auth_difference groups src cap)) id.
Proof.
  intros Hh. unfold compute_auth_difference.
  pose proof (group_chains_sound content groups src cap) as Hs.
  pose proof (group_chains_memory groups src cap) as Hr.
  destruct (group_chains groups src cap) as [[cs|] src']; simpl in *; [|done].
  intros _ g id Hg Ha. destruct (Forall2_in_l _ _ _ _ (Hs cs Hh eq_refl) Hg) as (c & Hc & Hid).
  eapply (Hr cs eq_refl c); [done|]. by apply Hid.
Qed.

(** An event in memory is read without touching the source. *)
Lemma fetch_memory id src : src_ok src -> in_memory src id ->
  exists v, fetch id src = (Some v, src) /\ resolves src id = Some v.
Proof.
  intros Hok Hm. assert (exists v, fetch id src = (Some v, src)) as [v Hv].
  { unfold in_memory, hits in Hm. unfold fetch. rewrite elem_of_union, !elem_of_dom, lookup_omap in Hm.
    destruct (src_known src !! id); [by eexists|]. destruct Hm as [[]|Hm]; [done|].
    destruct (src_fetched src !! id) as [[r|]|]; [by eexists|by destruct Hm..]. }
  exists v. split; [done|]. apply fetch_resolves; [done|]. by rewrite Hv.
Qed.

(** The rejected events of a source that started afresh, as far as they are in memory. *)
Lemma rejected_in_memory known lookup budget rejected src id :
  extends (new_source known lookup budget rejected) src ->
  id ∈ src_rejected src -> id ∈ rejected
    \/ known !! id = None /\ exists f r, lookup = Some f /\ f id = Some r /\ ref_rejected r = true.
Proof.
  intros He Hid. pose proof (ext_ok _ _ He (new_source_ok _ _ _ _)) as Hok.
  apply (ext_rejected _ _ He) in Hid as [?|(r & _ & Hf & Hj)]; [by left|right].
  pose proof (ok_unknown _ Hok _ _ Hf) as Hk. destruct (ok_fetched _ Hok _ _ Hf) as (f & Hl & Hr).
  rewrite (ext_known _ _ He) in Hk. rewrite (ext_lookup _ _ He) in Hl. simpl in *. split; [done|]. by exists f, r.
Qed.

Lemma memory_rejected known lookup budget rejected src id :
  extends (new_source known lookup budget rejected) src -> in_memory src id ->
  id ∈ rejected \/ (known !! id = None /\ exists f r, lookup = Some f /\ f id = Some r /\ ref_rejected r = true) ->
  id ∈ src_rejected src.
Proof.
  intros He Hm Hr. apply (ext_rejected _ _ He). destruct Hr as [?|(Hk & f & r & Hl & Hf & Hj)]; [by left|right].
  unfold in_memory, hits in Hm. rewrite (ext_known _ _ He), elem_of_union, !elem_of_dom, lookup_omap in Hm. simpl in Hm.
  rewrite Hk in Hm. destruct Hm as [[]|Hm]; [done|].
  destruct (src_fetched src !! id) as [[r'|]|] eqn:E; [|by destruct Hm..].
  exists r'. split; [done|]. split; [done|].
  destruct (ok_fetched _ (ext_ok _ _ He (new_source_ok _ _ _ _)) _ _ E) as (f' & Hl' & Hf').
  rewrite (ext_lookup _ _ He) in Hl'. simpl in Hl'. congruence.
Qed.

(** * The auth difference *)

Lemma elem_of_fold_union (chains : list (gset string)) acc id :
  id ∈ foldl (fun acc chain => acc ∪ chain) acc chains <-> id ∈ acc \/ exists c, c ∈ chains /\ id ∈ c.
Proof.
  revert acc. induction chains as [|c chains IH]; intros acc; simpl; [set_solver|].
  rewrite IH. set_solver.
Qed.

Lemma elem_of_fold_intersection (chains : list (gset string)) (acc : gset string) id :
  id ∈ foldl (fun acc chain => filter (fun id => id ∈ chain) acc) acc chains
  <-> id ∈ acc /\ forall c, c ∈ chains -> id ∈ c.
Proof.
  revert acc. induction chains as [|c chains IH]; intros acc; simpl; [set_solver|].
  rewrite IH, elem_of_filter. set_solver.
Qed.

Lemma elem_of_difference_of_chains chains id :
  id ∈ difference_of_chains chains <->
  (exists c, c ∈ chains /\ id ∈ c) /\ exists c, c ∈ chains /\ id ∉ c.
Proof.
  destruct chains as [|first rest]; simpl; [set_solver|].
  rewrite elem_of_difference, elem_of_fold_union, elem_of_fold_intersection.
  split.
  - intros [Hu Hi]. split; [set_solver|].
    destruct (decide (id ∈ first)) as [Hf|Hf]; [|exists first; set_solver].
    destruct (decide (Exists (fun c => id ∉ c) rest)) as [He|He].
    + apply Exists_exists in He as (c & ? & ?). exists c. set_solver.
    + exfalso. apply Hi. split; [done|]. intros c Hc.
      destruct (decide (id ∈ c)); [done|]. exfalso. apply He, Exists_exists. eauto.
  - intros [Hu (c & Hc & Hn)]. set_solver.
Qed.

Lemma compute_auth_difference_extends groups src cap :
  extends src (snd (compute_auth_difference groups src cap)).
Proof.
  pose proof (group_chains_extends groups src cap) as He. unfold compute_auth_difference.
  by destruct (group_chains groups src cap) as [[cs|] src'].
Qed.

(** * Properties *)

(** A walk over an auth chain that returns yields exactly the events
    reachable through auth_events, every one of which resolved, and no more
    than the cap: a chain with a missing event makes the walk fail. *)
Lemma auth_chain_walk_correct src start cap chain :
  src_ok src -> fst (walk_auth_chain start src cap) = Some chain ->
  (forall id, id ∈ chain <-> ancestor (resolves src) start id)
  /\ (forall id, id ∈ chain -> is_Some (resolves src id)) /\ size chain <= cap.
Proof. intros Hok. by apply walk_auth_chain_sound, holds_self. Qed.

(** A walk returns whenever the whole chain resolves and is within the cap
    and the lookups left in the budget, however deep, branching or cyclic the
    auth_events are; it then leaves the source able to serve the same events. *)
Lemma auth_chain_walk_returns src start cap R :
  serves src R -> (forall id, ancestor (resolves src) start id -> id ∈ R) -> size R <= cap ->
  exists chain src', walk_auth_chain start src cap = (Some chain, src')
    /\ serves src' R /\ src_missing src' = src_missing src.
Proof. intros Hs. apply walk_loop_fuel; [|done]. by apply holds_self, (srv_ok _ R). Qed.

(** The auth difference is the union of the groups' full auth chains minus
    their intersection: an ID is in it exactly when some group's chain has it
    and another's has not. *)
Lemma auth_difference_correct groups src cap difference :
  src_ok src -> fst (compute_auth_difference groups src cap) = Some difference ->
  forall id, id ∈ difference <->
    (exists g, g ∈ groups /\ group_ancestor (resolves src) g id)
    /\ (exists g, g ∈ groups /\ ~ group_ancestor (resolves src) g id).
Proof.
  intros Hok. unfold compute_auth_difference.
  pose proof (group_chains_sound (resolves src) groups src cap) as Hc.
  destruct (group_chains groups src cap) as [[cs|] src']; simpl in *; [|done].
  intros [= <-] id. specialize (Hc cs (holds_self _ Hok) eq_refl).
  rewrite elem_of_difference_of_chains. clear Hok. split.
  - intros [(c1 & Hc1 & H1) (c2 & Hc2 & H2)].
    destruct (Forall2_in_r _ _ _ _ Hc Hc1) as (g1 & ? & Hg1).
    destruct (Forall2_in_r _ _ _ _ Hc Hc2) as (g2 & ? & Hg2). naive_solver.
  - intros [(g1 & Hc1 & H1) (g2 & Hc2 & H2)].
    destruct (Forall2_in_l _ _ _ _ Hc Hc1) as (c1 & ? & Hg1).
    destruct (Forall2_in_l _ _ _ _ Hc Hc2) as (c2 & ? & Hg2). naive_solver.
Qed.

(** The auth difference is computed, without a miss, whenever every event
    of the groups' auth chains resolves within the cap and the budget. *)
Lemma auth_difference_returns groups src cap R :
  serves src R ->
  (forall g id, g ∈ groups -> group_ancestor (resolves src) g id -> id ∈ R) -> size R <= cap ->
  exists difference src', compute_auth_difference groups src cap = (Some difference, src')
    /\ src_missing src' = src_missing src.
Proof.
  intros Hs HR Hcap. unfold compute_auth_difference.
  destruct (group_chains_complete (resolves src) R groups src cap) as (cs & src' & -> & _ & Hm); [|done..|].
  - by apply holds_self, (srv_ok _ R).
  - eauto.
Qed.

(** C27. The walk of an auth chain and the auth difference are exact. What a
    walk returns is the set of ancestors, all of them present and no more than
    the cap; what the difference returns is the events in the full auth chain of
    some state group but not of every one. And both do return, without marking
    an event missing, whenever the source serves a set of events that holds all
    the ancestors and is no larger than the cap. *)
Theorem auth_chains_exact src start groups cap :
  src_ok src ->
  (forall chain, fst (walk_auth_chain start src cap) = Some chain ->
     (forall id, id ∈ chain <-> ancestor (resolves src) start id)
     /\ (forall id, id ∈ chain -> is_Some (resolves src id)) /\ size chain <= cap)
  /\ (forall difference, fst (compute_auth_difference groups src cap) = Some difference ->
        forall id, id ∈ difference <->
          (exists g, g ∈ groups /\ group_ancestor (resolves src) g id)
          /\ (exists g, g ∈ groups /\ ~ group_ancestor (resolves src) g id))
  /\ (forall R, serves src R -> size R <= cap ->
        ((forall id, ancestor (resolves src) start id -> id ∈ R) ->
           exists chain src', walk_auth_chain start src cap = (Some chain, src')
             /\ src_missing src' = src_missing src)
        /\ ((forall g id, g ∈ groups -> group_ancestor (resolves src) g id -> id ∈ R) ->
           exists difference src', compute_auth_difference groups src cap = (Some difference, src')
             /\ src_missing src' = src_missing src)).
Proof.
  intros Hok. split; [|split].
  - intros chain. by apply auth_chain_walk_correct.
  - intros difference. by apply auth_difference_correct.
  - intros R Hs Hcap. split; intros HR.
    + destruct (auth_chain_walk_returns src start cap R) as (chain & src' & ? & _ & ?); eauto.
    + by apply (auth_difference_returns groups src cap R).
Qed.
