(* ===== verification/PowerOrder.v ===== *)
(** The reverse topological power ordering is the lexicographically least
    topological order of the candidates, and the only one.

    [power_ordered] is the specification; [sort_candidates] meets it, returns
    whenever the candidates have distinct IDs and no cycle, and does not depend
    on the order in which they arrive. *)
From S2P Require Import Prelude CppStd JsonValue JsonSerializer RoomVersion Signing EventAuth EventSource StateAuth PowerSort.
Open Scope nat_scope.

(** * The comparison relation *)

Lemma precedes_irrefl a : precedes a a = false.
Proof. unfold precedes. rewrite !Z.eqb_refl. simpl. apply string_ltb_irrefl. Qed.

(** [precedes] as a proposition: lexicographic on descending power, ascending
    timestamp and ascending ID. *)
Lemma precedes_spec a b : precedes a b = true <->
  (cand_power b < cand_power a)%Z \/
  cand_power a = cand_power b /\
    ((ref_origin_server_ts (cand_event a) < ref_origin_server_ts (cand_event b))%Z \/
     ref_origin_server_ts (cand_event a) = ref_origin_server_ts (cand_event b) /\ (cand_id a <s cand_id b) = true).
Proof.
  unfold precedes.
  destruct (Z.eqb_spec (cand_power a) (cand_power b)); simpl; [|rewrite Z.ltb_lt; lia].
  destruct (Z.eqb_spec (ref_origin_server_ts (cand_event a)) (ref_origin_server_ts (cand_event b))); simpl;
    [|rewrite Z.ltb_lt; lia].
  destruct (cand_id a <s cand_id b); intuition (lia || done).
Qed.

Lemma precedes_trans a b c : precedes a b = true -> precedes b c = true -> precedes a c = true.
Proof.
  rewrite !precedes_spec. intros Hab Hbc.
  destruct Hab as [|[? [|[? H1]]]], Hbc as [|[? [|[? H2]]]]; try (by left; lia);
    right; (split; [lia|]); try (by left; lia).
  right. split; [lia|]. by eapply string_ltb_trans.
Qed.

Lemma precedes_asym a b : precedes a b = true -> precedes b a = false.
Proof.
  intros H1. destruct (precedes b a) eqn:H2; [|done].
  pose proof (precedes_trans _ _ _ H1 H2) as H. by rewrite precedes_irrefl in H.
Qed.

Lemma precedes_split a b c : precedes c a = true -> precedes c b = true \/ precedes b a = true.
Proof.
  rewrite !precedes_spec. intros Hca.
  assert ((cand_id c <s cand_id a) = true -> (cand_id c <s cand_id b) = true \/ (cand_id b <s cand_id a) = true)
    as Hs.
  { intros Hlt. destruct (cand_id b <s cand_id a) eqn:E1; [by right|].
    destruct (cand_id c <s cand_id b) eqn:E2; [by left|].
    by rewrite (string_ltb_false_trans _ _ _ E1 E2) in Hlt. }
  destruct (Z.lt_total (cand_power b) (cand_power c)) as [|[|]]; [by auto| |right; left; lia].
  destruct (Z.lt_total (ref_origin_server_ts (cand_event c)) (ref_origin_server_ts (cand_event b))) as [|[|]];
    [left; right; lia| |right; destruct Hca as [|[? [|[]]]]; [left|right..]; lia].
  destruct Hca as [|[? [|[? Hlt]]]]; [right; left; lia|right; right; lia|].
  destruct (Hs Hlt); [left; right|right; right]; (split; [lia|right; split; [lia|done]]).
Qed.

Lemma precedes_total a b : cand_id a <> cand_id b -> precedes a b = true \/ precedes b a = true.
Proof.
  rewrite !precedes_spec. intros Hne.
  destruct (cand_id a <s cand_id b) eqn:E1; [intuition lia|].
  destruct (cand_id b <s cand_id a) eqn:E2; [intuition lia|].
  by pose proof (string_ltb_total _ _ E1 E2).
Qed.

(** * Counting edges *)

Lemma cnt_const {A} (i k : nat) (l : list A) : cnt i ((fun _ => k) <$> l) = if decide (k = i) then length l else 0.
Proof.
  induction l as [|x l IH]; csimpl; [by destruct (decide _)|].
  rewrite cnt_cons, IH. by destruct (decide (k = i)).
Qed.

(** One entry per edge into [i]. *)
Lemma cnt_edges {A B} (g : A -> list B) (l : list A) i :
  cnt i (concat (imap (fun k c => (fun _ => k) <$> g c) l))
  = match l !! i with Some c => length (g c) | None => 0 end.
Proof.
  induction l as [|c l IH] using rev_ind; [done|].
  rewrite imap_app, concat_app, cnt_app, IH. csimpl. rewrite app_nil_r, cnt_const, Nat.add_0_r.
  destruct (decide (length l = i)) as [<-|Hne].
  - rewrite lookup_ge_None_2 by done. by rewrite list_lookup_middle.
  - rewrite Nat.add_0_r. destruct (decide (i < length l)).
    + by rewrite lookup_app_l.
    + rewrite (lookup_ge_None_2 l) by lia. rewrite lookup_ge_None_2; [done|].
      rewrite length_app. simpl. lia.
Qed.

Section Kahn.
Context (index : gmap string nat) (cs : list Candidate).
Let n := length cs.

Definition parents (i : nat) : list nat :=
  match cs !! i with Some c => auth_indices index c | None => [] end.

(** Distinct IDs, indexed by position. *)
Hypothesis ids_distinct : forall i j a b,
  cs !! i = Some a -> cs !! j = Some b -> cand_id a = cand_id b -> i = j.
Hypothesis index_bounded : forall id j, index !! id = Some j -> j < n.

Lemma parents_bounded i j : j ∈ parents i -> j < n.
Proof.
  unfold parents, auth_indices. destruct (cs !! i); [|set_solver].
  rewrite list_elem_of_omap. intros (id & _ & H). by eapply index_bounded.
Qed.

Lemma cnt_dependants i j : cnt i (dependants index cs j) = cnt j (parents i).
Proof.
  unfold dependants, parents. rewrite cnt_edges. by destruct (cs !! i).
Qed.

Lemma dependants_bounded i j : i ∈ dependants index cs j -> i < n.
Proof.
  rewrite <- cnt_pos, cnt_dependants. unfold parents. destruct (cs !! i) eqn:E; [|done].
  intros _. by eapply lookup_lt_Some.
Qed.

(** ** The ready set *)

Lemma index_precedes_asym x y : index_precedes cs x y = true -> index_precedes cs y x = false.
Proof.
  unfold index_precedes. destruct (cs !! x), (cs !! y); try done. apply precedes_asym.
Qed.

Lemma index_precedes_total x y : x < n -> y < n -> x <> y ->
  index_precedes cs x y = true \/ index_precedes cs y x = true.
Proof.
  intros [a Ha]%lookup_lt_is_Some_2 [b Hb]%lookup_lt_is_Some_2 Hne.
  unfold index_precedes. rewrite Ha, Hb. apply precedes_total. eauto.
Qed.

Lemma not_after_trans_idx x y z : x < n -> y < n -> z < n ->
  not_after (index_precedes cs) x y -> not_after (index_precedes cs) y z ->
  not_after (index_precedes cs) x z.
Proof.
  unfold not_after. intros Hx Hy Hz H1 H2. destruct (index_precedes cs z x) eqn:H3; [|done].
  destruct (decide (x = y)) as [->|Hxy]; [congruence|].
  destruct (decide (y = z)) as [->|Hyz]; [congruence|].
  assert (index_precedes cs x y = true) as H4 by (destruct (index_precedes_total x y Hx Hy Hxy); congruence).
  assert (index_precedes cs y z = true) as H5 by (destruct (index_precedes_total y z Hy Hz Hyz); congruence).
  revert H3 H4 H5 H2. unfold index_precedes. repeat case_match; try done.
  intros H6 H7 H8. pose proof (precedes_trans _ _ _ H6 H7). congruence.
Qed.

Definition ready_ok (ready : list nat) : Prop :=
  NoDup ready /\ Forall (fun i => i < n) ready /\ StronglySorted (not_after (index_precedes cs)) ready.

Lemma ready_insert_elem i ready x : x ∈ ready_insert cs i ready <-> x = i \/ x ∈ ready.
Proof.
  unfold ready_insert. destruct (existsb (Nat.eqb i) ready) eqn:E.
  - apply existsb_exists in E as (y & Hy & ->%Nat.eqb_eq). rewrite <- list_elem_of_In in Hy. naive_solver.
  - rewrite insert_by_perm. set_solver.
Qed.

Lemma ready_insert_ok i ready : i < n -> ready_ok ready -> ready_ok (ready_insert cs i ready).
Proof.
  intros Hi (Hnd & Hb & Hs). unfold ready_insert. destruct (existsb (Nat.eqb i) ready) eqn:E; [done|].
  split; [|split].
  - rewrite insert_by_perm. constructor; [|done]. intros Hin.
    enough (existsb (Nat.eqb i) ready = true) by congruence.
    apply existsb_exists. exists i. by rewrite <- list_elem_of_In, Nat.eqb_refl.
  - rewrite insert_by_perm. by constructor.
  - apply (insert_by_sorted _ (fun i => i < n)); auto using index_precedes_asym.
    intros x y z. apply not_after_trans_idx.
Qed.

Lemma ready_head x ready y : ready_ok (x :: ready) -> y ∈ ready -> index_precedes cs x y = true.
Proof.
  intros (Hnd & Hb & Hs) Hy. apply NoDup_cons in Hnd as [Hx _]. apply Forall_cons in Hb as [Hxn Hb].
  apply StronglySorted_inv in Hs as [_ Hall]. rewrite Forall_forall in Hall, Hb.
  specialize (Hall y Hy). unfold not_after in Hall.
  destruct (index_precedes_total x y); auto; [congruence..].
Qed.

(** ** The inner loop *)

Lemma satisfy_spec deps unmet ready :
  (forall i, i ∈ deps -> i < n) -> length unmet = n ->
  (forall i u, unmet !! i = Some u -> cnt i deps <= u) -> ready_ok ready ->
  forall unmet' ready', satisfy cs deps unmet ready = (unmet', ready') ->
  length unmet' = n
  /\ (forall i u, unmet !! i = Some u -> unmet' !! i = Some (u - cnt i deps))
  /\ ready_ok ready'
  /\ (forall i, i ∈ ready' <-> i ∈ ready \/ (i ∈ deps /\ unmet' !! i = Some 0)).
Proof.
  revert unmet ready. induction deps as [|d deps IH]; intros unmet ready Hd Hlen Hcnt Hok unmet' ready'; simpl.
  { intros [= <- <-]. repeat split; try apply Hok; try set_solver.
    intros i u Hu. by rewrite Nat.sub_0_r. }
  assert (d < n) as Hdn by (apply Hd; set_solver).
  destruct (lookup_lt_is_Some_2 unmet d ltac:(lia)) as [ud Hud]. rewrite Hud. simpl.
  pose proof (Hcnt d ud Hud) as Hc. rewrite cnt_cons, decide_True in Hc by done.
  set (ready1 := if ud - 1 =? 0 then ready_insert cs d ready else ready). intros Hsat.
  edestruct (IH (<[d:=ud - 1]> unmet) ready1) as (H1 & H2 & H3 & H4);
    [set_solver|by rewrite length_insert| | |exact Hsat|].
  - intros i u. destruct (decide (i = d)) as [->|Hne].
    + rewrite list_lookup_insert_eq by lia. intros [= <-]. lia.
    + rewrite list_lookup_insert_ne by done. intros Hu. specialize (Hcnt i u Hu).
      rewrite cnt_cons, decide_False in Hcnt by done. lia.
  - subst ready1. destruct (ud - 1 =? 0); [by apply ready_insert_ok|done].
  - pose proof (H2 d (ud - 1)) as Hd'. rewrite list_lookup_insert_eq in Hd' by lia.
    specialize (Hd' eq_refl). split; [done|]. split; [|split; [done|]].
    + intros i u Hu. rewrite cnt_cons. destruct (decide (d = i)) as [->|Hne].
      * simplify_eq. rewrite Hd'. f_equal. lia.
      * rewrite (H2 i u); [done|]. by rewrite list_lookup_insert_ne.
    + intros i. rewrite H4, elem_of_cons. subst ready1.
      destruct (Nat.eqb_spec (ud - 1) 0) as [E|E].
      * rewrite ready_insert_elem. assert (unmet' !! d = Some 0) by (rewrite Hd'; f_equal; lia).
        split; [intros [[->|]|[]]|intros [|[[->|] ?]]]; auto.
      * split; [intros [|[]]; auto|]. intros [|[[->|] Hz]]; [by auto| |by auto].
        right. split; [|done]. rewrite <- cnt_pos. rewrite Hd' in Hz. simplify_eq. lia.
Qed.

(** ** The loop *)

(** Every auth event of [i] that is a candidate is in [l]. *)
Definition avail (i : nat) (l : list nat) : Prop := forall p, p ∈ parents i -> p ∈ l.

(** Auth events of [i] still to emit. *)
Definition open_edges (i : nat) (l : list nat) : nat := length (filter (fun p => p ∉ l) (parents i)).

Lemma open_edges_zero i l : open_edges i l = 0 <-> avail i l.
Proof.
  unfold open_edges, avail. induction (parents i) as [|p ps IH]; [set_solver|].
  rewrite filter_cons. destruct (decide (p ∉ l)) as [Hp|Hp]; simpl.
  - split; [done|]. intros H. exfalso. apply Hp, H. by left.
  - apply dec_stable in Hp. rewrite IH. set_solver.
Qed.

Lemma open_edges_snoc i l x : x ∉ l -> open_edges i (l ++ [x]) = open_edges i l - cnt x (parents i).
Proof.
  intros Hx. unfold open_edges.
  enough (length (filter (fun p => p ∉ l) (parents i))
          = length (filter (fun p => p ∉ l ++ [x]) (parents i)) + cnt x (parents i)) by lia.
  induction (parents i) as [|p ps IH]; [done|]. rewrite !filter_cons, cnt_cons.
  destruct (decide (p = x)) as [->|Hne].
  - rewrite decide_True by done. rewrite decide_False by set_solver. simpl. lia.
  - destruct (decide (p ∉ l)); [rewrite decide_True by set_solver; simpl; lia|].
    rewrite decide_False by set_solver. lia.
Qed.

Lemma cnt_le_open i l x : x ∉ l -> cnt x (parents i) <= open_edges i l.
Proof.
  intros Hx. unfold open_edges. induction (parents i) as [|p ps IH]; [done|].
  rewrite filter_cons, cnt_cons. destruct (decide (p = x)) as [->|Hne].
  - rewrite decide_True by done. simpl. lia.
  - destruct (decide (p ∉ l)); simpl; lia.
Qed.

(** Each element follows its auth events, and comes before every other element
    that could have been emitted in its place. *)
Definition greedy (l : list nat) : Prop := forall pre x post, l = pre ++ x :: post ->
  avail x pre /\ forall y, y < n -> y ∉ pre -> y <> x -> avail y pre -> index_precedes cs x y = true.

Lemma greedy_snoc l x : greedy l -> avail x l ->
  (forall y, y < n -> y ∉ l -> y <> x -> avail y l -> index_precedes cs x y = true) -> greedy (l ++ [x]).
Proof.
  intros Hg Ha Hx pre z post. destruct post as [|w post _] using rev_ind.
  - intros [-> [= ->]]%app_inj_tail. auto.
  - rewrite app_comm_cons, app_assoc. intros [-> [= ->]]%app_inj_tail. by apply (Hg _ _ post).
Qed.

Record kahn_inv (unmet ready sorted : list nat) : Prop := {
  kahn_unmet_length : length unmet = n;
  kahn_unmet : forall i, i < n -> unmet !! i = Some (open_edges i sorted);
  kahn_ready : ready_ok ready;
  kahn_sorted : NoDup sorted /\ Forall (fun i => i < n) sorted;
  kahn_disjoint : forall i, i ∈ ready -> i ∉ sorted;
  kahn_avail : forall i, i < n -> i ∈ sorted \/ i ∈ ready <-> avail i sorted;
  kahn_greedy : greedy sorted
}.

Lemma kahn_inv_step unmet next rest sorted unmet' ready' :
  kahn_inv unmet (next :: rest) sorted ->
  satisfy cs (dependants index cs next) unmet rest = (unmet', ready') ->
  kahn_inv unmet' ready' (sorted ++ [next]).
Proof.
  intros [Hlen Hun Hr [Hnd Hb] Hdis Hav Hgr] Hsat.
  assert (next ∉ sorted) as Hnx by (apply Hdis; set_solver).
  pose proof Hr as (Hrnd & Hrb & Hrs). apply NoDup_cons in Hrnd as [Hnr Hrnd'].
  apply Forall_cons in Hrb as [Hnn Hrb']. apply StronglySorted_inv in Hrs as [Hrs' _].
  assert (avail next sorted) as Hna by (apply Hav; set_solver).
  edestruct (satisfy_spec (dependants index cs next) unmet rest) as (H1 & H2 & H3 & H4);
    [intros i; by apply dependants_bounded|done| |done|exact Hsat|].
  { intros i u Hu. rewrite cnt_dependants. assert (i < n) as Hi by (rewrite <- Hlen; by eapply lookup_lt_Some).
    rewrite (Hun i Hi) in Hu. simplify_eq. by apply cnt_le_open. }
  assert (forall i, i < n -> unmet' !! i = Some (open_edges i (sorted ++ [next]))) as Hun'.
  { intros i Hi. rewrite (H2 i _ (Hun i Hi)), cnt_dependants. by rewrite open_edges_snoc. }
  assert (forall i, i ∈ dependants index cs next <-> i < n /\ next ∈ parents i) as Hdep.
  { intros i. split; [intros Hi; split; [by eapply dependants_bounded|]|intros [_ Hi]]; revert Hi;
      rewrite <- !cnt_pos, cnt_dependants; done. }
  assert (forall i, i ∈ ready' <-> i ∈ rest \/ (i < n /\ next ∈ parents i /\ avail i (sorted ++ [next]))) as Hr'.
  { intros i. rewrite H4, Hdep. split; (intros [|]; [by left|right]).
    - destruct H as [[Hi Hp] Hz]. rewrite (Hun' i Hi) in Hz. simplify_eq. by rewrite <- open_edges_zero.
    - destruct H as (Hi & Hp & Hz). rewrite (Hun' i Hi). apply open_edges_zero in Hz. by rewrite Hz. }
  split; [done|done|done| | | |].
  - split; [|apply Forall_app; by repeat constructor].
    apply NoDup_app. split; [done|]. split; [set_solver|apply NoDup_singleton].
  - intros i [Hi|(Hi & Hp & _)]%Hr'.
    + specialize (Hdis i ltac:(by right)). set_solver.
    + intros [Hs| ->%list_elem_of_singleton]%elem_of_app.
      * apply Hnx. by apply (proj1 (Hav i Hi)); [left|].
      * apply Hnx. by apply Hna.
  - intros i Hi. rewrite Hr', elem_of_app, list_elem_of_singleton. pose proof (Hav i Hi) as Hai. split.
    + assert (avail i sorted -> avail i (sorted ++ [next])) as Hmono
        by (intros Ha p Hp; apply elem_of_app; left; by apply Ha).
      intros [[Hs| ->]|[Hs|(_ & _ & Ha)]]; [|by auto..| |done]; apply Hmono, Hai; set_solver.
    + intros Ha. destruct (decide (next ∈ parents i)) as [Hp|Hp]; [by eauto|].
      assert (avail i sorted) as [Hs|Hs]%Hai; [|set_solver..].
      intros p Hpp. specialize (Ha p Hpp). apply elem_of_app in Ha as [?| ->%list_elem_of_singleton]; [done|].
      done.
  - apply greedy_snoc; [done..|]. intros y Hy Hys Hne [Hs|Hs]%(Hav y Hy); [done|].
    apply (ready_head next rest); [done|set_solver].
Qed.

Lemma kahn_bound unmet ready sorted : kahn_inv unmet ready sorted -> length sorted + length ready <= n.
Proof.
  intros [_ _ (Hrnd & Hrb & _) [Hnd Hb] Hdis _ _].
  rewrite <- length_app, <- (length_seq n 0). apply submseteq_length, NoDup_submseteq.
  - apply NoDup_app. repeat split; [done| |done]. intros i Hs Hr. by apply (Hdis i).
  - intros i Hi. apply list_elem_of_In, in_seq. rewrite Forall_forall in Hrb, Hb.
    apply elem_of_app in Hi as [Hi|Hi]; [apply Hb in Hi|apply Hrb in Hi]; simpl in Hi; lia.
Qed.

Lemma kahn_loop_spec fuel unmet ready sorted :
  kahn_inv unmet ready sorted -> n <= fuel + length sorted ->
  exists unmet', kahn_inv unmet' [] (kahn_loop index cs fuel unmet ready sorted).
Proof.
  revert unmet ready sorted. induction fuel as [|fuel IH]; intros unmet [|next rest] sorted Hinv Hf;
    simpl; try (by eauto).
  - pose proof (kahn_bound _ _ _ Hinv) as Hb. simpl in *. lia.
  - destruct (satisfy cs _ unmet rest) as [unmet' ready'] eqn:Hs.
    apply (IH unmet'); [by eapply kahn_inv_step|]. rewrite length_app. simpl. lia.
Qed.

Lemma unmet_lookup i : i < n -> unmet_auth_events index cs !! i = Some (length (parents i)).
Proof.
  intros [c Hc]%lookup_lt_is_Some_2. unfold unmet_auth_events, parents.
  by rewrite list_lookup_fmap, Hc.
Qed.

Lemma open_edges_nil i : open_edges i [] = length (parents i).
Proof.
  unfold open_edges. induction (parents i) as [|p ps IH]; [done|].
  rewrite filter_cons, decide_True by set_solver. cbn [length]. f_equal. exact IH.
Qed.

Lemma initial_ready_spec l ready :
  Forall (fun i => i < n) l -> ready_ok ready ->
  let out := foldl (fun ready i => if default 0 (unmet_auth_events index cs !! i) =? 0
                                   then ready_insert cs i ready else ready) ready l in
  ready_ok out /\ forall i, i ∈ out <-> i ∈ ready \/ (i ∈ l /\ parents i = []).
Proof.
  revert ready. induction l as [|x l IH]; intros ready Hl Hr; simpl; [set_solver|].
  apply Forall_cons in Hl as [Hx Hl]. rewrite unmet_lookup by done. simpl.
  destruct (parents x) as [|p ps] eqn:E; simpl.
  - destruct (IH (ready_insert cs x ready) Hl) as [H1 H2]; [by apply ready_insert_ok|].
    split; [done|]. intros i. rewrite H2, ready_insert_elem, elem_of_cons. clear -E.
    split; [intros [[->|]|[]]|intros [|[[->|] ?]]]; auto.
  - destruct (IH ready Hl Hr) as [H1 H2]. split; [done|]. intros i. rewrite H2, elem_of_cons. clear -E.
    split; [intros [|[]]; auto|]. intros [|[[->|] Hz]]; auto. congruence.
Qed.

Lemma kahn_inv_init : kahn_inv (unmet_auth_events index cs) (initial_ready index cs) [].
Proof.
  destruct (initial_ready_spec (seq 0 n) []) as [H1 H2].
  { apply Forall_forall. intros i Hi%list_elem_of_In%in_seq. lia. }
  { split; [constructor|]. split; constructor. }
  change (foldl _ [] (seq 0 n)) with (initial_ready index cs) in H1, H2. split.
  - unfold unmet_auth_events. by rewrite length_fmap.
  - intros i Hi. rewrite unmet_lookup by done. by rewrite open_edges_nil.
  - exact H1.
  - split; constructor.
  - set_solver.
  - intros i Hi. rewrite H2, <- open_edges_zero, open_edges_nil.
    assert (i ∈ seq 0 n) by (apply list_elem_of_In, in_seq; lia).
    destruct (parents i); simpl; [|set_solver]. split; [done|]. auto.
  - by intros [|] ? ? ?.
Qed.

Lemma kahn_order_spec : exists unmet, kahn_inv unmet [] (kahn_order index cs).
Proof. unfold kahn_order. apply kahn_loop_spec; [apply kahn_inv_init|]. simpl. lia. Qed.

Lemma kahn_order_perm : length (kahn_order index cs) = n -> kahn_order index cs ≡ₚ seq 0 n.
Proof.
  intros Hlen. destruct kahn_order_spec as [unmet [_ _ _ [Hnd Hb] _ _ _]].
  apply submseteq_length_Permutation; [|by rewrite length_seq, Hlen].
  apply NoDup_submseteq; [done|]. intros i Hi. apply list_elem_of_In, in_seq.
  rewrite Forall_forall in Hb. specialize (Hb i Hi). simpl in Hb. lia.
Qed.

(** The order stops short only when the candidates left depend on one
    another. *)
Lemma kahn_order_complete l : l ≡ₚ seq 0 n ->
  (forall pre x post, l = pre ++ x :: post -> avail x pre) -> length (kahn_order index cs) = n.
Proof.
  intros Hp Htop. destruct kahn_order_spec as [unmet [_ _ _ [Hnd Hb] _ Hav _]].
  assert (forall pre post, l = pre ++ post -> forall x, x ∈ pre -> x ∈ kahn_order index cs) as Hall.
  { induction pre as [|y pre IH] using rev_ind; [set_solver|]. intros post E x.
    rewrite <- app_assoc in E. pose proof (IH _ E) as Hpre. rewrite elem_of_app, list_elem_of_singleton.
    intros [| ->]; [auto|]. assert (y ∈ l) as Hy by (rewrite E; set_solver).
    rewrite Hp in Hy. apply list_elem_of_In, in_seq in Hy.
    destruct (Hav y ltac:(lia)) as [_ [?|?%not_elem_of_nil]]; [|done..].
    intros p Hpp. apply Hpre. by apply (Htop pre y post). }
  assert (forall x, x ∈ seq 0 n -> x ∈ kahn_order index cs) as Hseq.
  { intros x. rewrite <- Hp. apply (Hall l []). by rewrite app_nil_r. }
  apply Nat.le_antisymm; [pose proof (kahn_bound unmet [] (kahn_order index cs)) as Hk|].
  - destruct kahn_order_spec as [u Hu]. pose proof (kahn_bound _ _ _ Hu). simpl in *. lia.
  - rewrite <- (length_seq n 0). apply submseteq_length, NoDup_submseteq; [|done].
    apply NoDup_seq.
Qed.
End Kahn.

(** * The index *)

Lemma index_candidates_Some i cs index index' :
  index_candidates i cs index = Some index' ->
  (forall id j, index' !! id = Some j <->
     index !! id = Some j \/ exists k a, cs !! k = Some a /\ cand_id a = id /\ j = i + k)
  /\ NoDup (cand_id <$> cs) /\ (forall a, a ∈ cs -> index !! cand_id a = None).
Proof.
  revert i index. induction cs as [|c cs IH]; intros i index; csimpl.
  { intros [= <-]. split; [|split; [constructor|set_solver]]. intros id j. split; [by left|].
    intros [|(k & a & Hk & _)]; [done|]. by rewrite lookup_nil in Hk. }
  destruct (index !! cand_id c) eqn:Ec; [done|]. intros Hi. destruct (IH _ _ Hi) as (H1 & H2 & H3).
  assert (cand_id c ∉ cand_id <$> cs) as Hc.
  { intros (a & E & Ha)%list_elem_of_fmap. specialize (H3 a Ha). rewrite <- E in H3.
    by rewrite lookup_insert_eq in H3. }
  split; [|split].
  - intros id j. rewrite H1. split.
    + intros [Hj|(k & a & Hk & <- & ->)].
      * destruct (decide (id = cand_id c)) as [->|Hne].
        { rewrite lookup_insert_eq in Hj. simplify_eq. right. exists 0, c. simpl. auto. }
        rewrite lookup_insert_ne in Hj by done. by left.
      * right. exists (S k), a. simpl. split; [done|]. split; [done|lia].
    + intros [Hj|(k & a & Hk & <- & ->)].
      * left. rewrite lookup_insert_ne; [done|]. intros E. congruence.
      * destruct k as [|k]; simpl in Hk.
        { simplify_eq. left. rewrite lookup_insert_eq. f_equal. lia. }
        right. exists k, a. split; [done|]. split; [done|lia].
  - by constructor.
  - intros a [->|Ha]%elem_of_cons; [done|]. specialize (H3 a Ha).
    destruct (decide (cand_id a = cand_id c)) as [E|Hne]; [congruence|]. by rewrite lookup_insert_ne in H3.
Qed.

Lemma index_candidates_total i cs index :
  NoDup (cand_id <$> cs) -> (forall a, a ∈ cs -> index !! cand_id a = None) ->
  is_Some (index_candidates i cs index).
Proof.
  revert i index. induction cs as [|c cs IH]; intros i index; csimpl; [by eauto|].
  intros [Hc Hnd]%NoDup_cons Hn. rewrite Hn by set_solver. apply IH; [done|].
  intros a Ha. rewrite lookup_insert_ne; [apply Hn; by right|].
  intros E. apply Hc, list_elem_of_fmap. eauto.
Qed.

(** * The specification, on candidates *)

(** Every candidate that [x] names as an auth event is in [pre]. *)
Definition cand_avail (cs : list Candidate) (x : Candidate) (pre : list Candidate) : Prop :=
  forall z, z ∈ cs -> cand_id z ∈ auth_event_ids (ref_event_json (cand_event x)) -> z ∈ pre.

Definition topological (cs l : list Candidate) : Prop :=
  forall pre x post, l = pre ++ x :: post -> cand_avail cs x pre.

(** The candidates in an order that respects auth_events and, wherever several
    could come next, takes the one that [precedes] the others. *)
Record power_ordered (cs l : list Candidate) : Prop := {
  po_perm : l ≡ₚ cs;
  po_topological : topological cs l;
  po_least : forall pre x post y, l = pre ++ x :: post -> y ∈ post -> cand_avail cs y pre ->
    precedes x y = true
}.

Lemma cand_avail_perm cs1 cs2 x pre : cs1 ≡ₚ cs2 -> cand_avail cs1 x pre -> cand_avail cs2 x pre.
Proof. intros Hp Ha z Hz. apply Ha. by rewrite Hp. Qed.

Lemma power_ordered_perm cs1 cs2 l : cs1 ≡ₚ cs2 -> power_ordered cs1 l -> power_ordered cs2 l.
Proof.
  intros Hp [H1 H2 H3]. split.
  - by rewrite H1.
  - intros pre x post E. eapply cand_avail_perm; [exact Hp|eauto].
  - intros pre x post y E Hy Ha. eapply H3; [eauto..|]. by apply (cand_avail_perm cs2).
Qed.

(** The specification has at most one solution. *)
Lemma power_ordered_unique cs l1 l2 : power_ordered cs l1 -> power_ordered cs l2 -> l1 = l2.
Proof.
  intros [P1 T1 L1] [P2 T2 L2].
  enough (forall s1 s2 pre, l1 = pre ++ s1 -> l2 = pre ++ s2 -> s1 = s2) as H by (apply (H l1 l2 []); done).
  induction s1 as [|x s1 IH]; intros s2 pre E1 E2;
    assert (Hs : pre ++ s2 ≡ₚ pre ++ _) by (rewrite <- E1, <- E2, P1, P2; done);
    apply Permutation_app_inv_l in Hs.
  { by apply Permutation_nil_r in Hs. }
  destruct s2 as [|y s2]; [by apply Permutation_nil_cons in Hs|].
  assert (y ∈ x :: s1) as Hy by (rewrite <- Hs; by left).
  assert (x ∈ y :: s2) as Hx by (rewrite Hs; by left).
  assert (x = y -> x :: s1 = y :: s2) as Heq.
  { intros <-. f_equal. apply (IH s2 (pre ++ [x])); by rewrite <- app_assoc. }
  apply elem_of_cons in Hy. apply elem_of_cons in Hx.
  destruct Hy as [E|Hy]; [by apply Heq|]. destruct Hx as [E|Hx]; [by apply Heq|].
  pose proof (L1 pre x s1 y E1 Hy (T2 _ _ _ E2)) as A.
  pose proof (L2 pre y s2 x E2 Hx (T1 _ _ _ E1)) as B.
  apply precedes_asym in A. congruence.
Qed.

(** ** From indices to candidates *)

Section Candidates.
Context (cs : list Candidate) (index : gmap string nat).
Hypothesis Hindex : index_candidates 0 cs ∅ = Some index.

Lemma index_spec id j : index !! id = Some j <-> exists a, cs !! j = Some a /\ cand_id a = id.
Proof.
  destruct (index_candidates_Some _ _ _ _ Hindex) as (H1 & _ & _). rewrite H1, lookup_empty.
  split; [|naive_solver]. intros [|(k & a & ? & ? & ->)]; [done|eauto].
Qed.

Lemma index_ids_distinct i j a b : cs !! i = Some a -> cs !! j = Some b -> cand_id a = cand_id b -> i = j.
Proof.
  intros Ha Hb E. assert (index !! cand_id a = Some i) as Hi by (apply index_spec; eauto).
  assert (index !! cand_id a = Some j) as Hj by (apply index_spec; eauto). congruence.
Qed.

Lemma index_in_bounds id j : index !! id = Some j -> j < length cs.
Proof. intros (a & Ha & _)%index_spec. by eapply lookup_lt_Some. Qed.

Lemma elem_of_parents i j x : cs !! i = Some x -> j ∈ parents index cs i <->
  exists z, cs !! j = Some z /\ cand_id z ∈ auth_event_ids (ref_event_json (cand_event x)).
Proof.
  intros Hi. unfold parents, auth_indices. rewrite Hi, list_elem_of_omap. split.
  - intros (id & Hid & (a & Ha & <-)%index_spec). eauto.
  - intros (z & Hz & Hid). exists (cand_id z). split; [done|]. apply index_spec. eauto.
Qed.

(** Positions and the candidates at them. *)
Definition at_positions (order : list nat) (l : list Candidate) : Prop :=
  Forall2 (fun i c => cs !! i = Some c) order l.

Lemma at_positions_in order l i c : at_positions order l -> cs !! i = Some c -> i ∈ order <-> c ∈ l.
Proof.
  intros Hat Hc. split.
  - induction Hat as [|j d order l Hj _ IH]; [set_solver|]. rewrite !elem_of_cons.
    intros [->|]; [left; congruence|auto].
  - induction Hat as [|j d order l Hj _ IH]; [set_solver|]. rewrite !elem_of_cons.
    intros [->|]; [left; by eapply index_ids_distinct|auto].
Qed.

Lemma at_positions_avail order l i x : at_positions order l -> cs !! i = Some x ->
  avail index cs i order <-> cand_avail cs x l.
Proof.
  intros Hat Hx. split.
  - intros Ha z Hz Hid. apply list_elem_of_lookup in Hz as [j Hj].
    apply (at_positions_in order l j z); [done..|]. apply Ha, (elem_of_parents i j x Hx). eauto.
  - intros Ha p (z & Hz & Hid)%(elem_of_parents i p x Hx).
    apply (at_positions_in order l p z); [done..|]. apply Ha; [|done]. by eapply list_elem_of_lookup_2.
Qed.

Lemma at_positions_omap order : Forall (fun i => i < length cs) order ->
  at_positions order (omap (fun i => cs !! i) order).
Proof.
  induction 1 as [|i order Hi _ IH]; csimpl; [constructor|].
  destruct (lookup_lt_is_Some_2 cs i Hi) as [c Hc]. rewrite Hc. by constructor.
Qed.

Lemma omap_seq {A} (g : nat -> option A) l off :
  (forall k c, l !! k = Some c -> g (off + k) = Some c) -> omap g (seq off (length l)) = l.
Proof.
  revert off. induction l as [|c l IH]; intros off Hg; csimpl; [done|].
  pose proof (Hg 0 c eq_refl) as H0. rewrite Nat.add_0_r in H0. rewrite H0. f_equal.
  apply IH. intros k d Hk. rewrite Nat.add_succ_comm. by apply Hg.
Qed.

Lemma omap_index {A} (f : A -> option nat) l off :
  (forall k c, l !! k = Some c -> f c = Some (off + k)) -> omap f l = seq off (length l).
Proof.
  revert off. induction l as [|c l IH]; intros off Hf; csimpl; [done|].
  rewrite (Hf 0 c eq_refl), Nat.add_0_r. f_equal.
  apply IH. intros k d Hk. rewrite Nat.add_succ_comm. by apply (Hf (S k)).
Qed.

Lemma at_positions_of l : l ≡ₚ cs -> exists order, order ≡ₚ seq 0 (length cs) /\ at_positions order l.
Proof.
  intros Hp. exists (omap (fun c => index !! cand_id c) l). split.
  - rewrite Hp. rewrite (omap_index _ _ 0); [done|]. intros k c Hk. apply index_spec. eauto.
  - assert (Forall (fun c => c ∈ cs) l) as Hall by (apply Forall_forall; intros c; by rewrite Hp).
    clear Hp. induction Hall as [|c l [i Hi]%list_elem_of_lookup _ IH]; csimpl; [constructor|].
    assert (index !! cand_id c = Some i) as -> by (apply index_spec; eauto). by constructor.
Qed.
End Candidates.

Lemma sort_candidates_index cs : NoDup (cand_id <$> cs) -> is_Some (index_candidates 0 cs ∅).
Proof. intros Hnd. by apply index_candidates_total. Qed.

Lemma sort_candidates_sound cs out : sort_candidates cs = Some out ->
  NoDup (cand_id <$> cs) /\ exists l, out = cand_event <$> l /\ power_ordered cs l.
Proof.
  unfold sort_candidates. destruct (index_candidates 0 cs ∅) as [index|] eqn:Hi; [|done].
  destruct (Nat.eqb_spec (length (kahn_order index cs)) (length cs)) as [Hlen|]; [|done]. intros [= <-].
  split; [by apply (index_candidates_Some _ _ _ _ Hi)|].
  eexists; split; [reflexivity|].
  pose proof (index_ids_distinct cs index Hi) as Hd. pose proof (index_in_bounds cs index Hi) as Hb.
  pose proof (kahn_order_perm index cs Hd Hb Hlen) as Hp.
  destruct (kahn_order_spec index cs Hd Hb) as [unmet [_ _ _ [Hnd Hbs] _ _ Hg]].
  set (order := kahn_order index cs) in *.
  pose proof (at_positions_omap cs order Hbs) as Hat.
  set (l := omap _ order) in *.
  assert (forall pre x post, l = pre ++ x :: post -> exists pre' i post',
    order = pre' ++ i :: post' /\ at_positions cs pre' pre /\ cs !! i = Some x /\ at_positions cs post' post)
    as Hsplit.
  { intros pre x post E. rewrite E in Hat.
    apply Forall2_app_inv_r in Hat as (pre' & rest & Hpre & Hrest & ->).
    apply Forall2_cons_inv_r in Hrest as (i & post' & Hx & Hpost & ->). eauto 10. }
  split.
  - subst l. rewrite Hp. rewrite (omap_seq _ cs 0); [done|]. done.
  - intros pre x post (pre' & i & post' & E & Hpre & Hx & _)%Hsplit.
    apply (at_positions_avail cs index Hi pre' pre i x); [done..|]. by eapply Hg.
  - intros pre x post y E Hy Ha. destruct (Hsplit _ _ _ E) as (pre' & i & post' & E' & Hpre & Hx & Hpost).
    destruct (Forall2_in_r _ _ _ _ Hpost Hy) as (j & Hj & Hcy).
    destruct (Hg _ _ _ E') as [_ Hleast]. rewrite E' in Hnd.
    apply NoDup_app in Hnd as (_ & Hdis & [Hni _]%NoDup_cons).
    specialize (Hleast j). unfold index_precedes in Hleast. rewrite Hx, Hcy in Hleast.
    apply Hleast; [by eapply lookup_lt_Some| | |].
    + intros Hjp. apply (Hdis j Hjp). by right.
    + intros ->. done.
    + by apply (at_positions_avail cs index Hi pre' pre j y).
Qed.

Lemma sort_candidates_complete cs l :
  NoDup (cand_id <$> cs) -> l ≡ₚ cs -> topological cs l -> is_Some (sort_candidates cs).
Proof.
  intros Hnd Hp Ht. unfold sort_candidates.
  destruct (sort_candidates_index cs Hnd) as [index Hi]. rewrite Hi.
  pose proof (index_ids_distinct cs index Hi) as Hd. pose proof (index_in_bounds cs index Hi) as Hb.
  destruct (at_positions_of cs index Hi l Hp) as (order & Hop & Hat).
  rewrite (kahn_order_complete index cs Hd Hb order Hop); [rewrite Nat.eqb_refl; eauto|].
  intros pre' i post' ->.
  apply Forall2_app_inv_l in Hat as (pre & rest & Hpre & Hrest & ->).
  apply Forall2_cons_inv_l in Hrest as (x & post & Hx & _ & ->).
  apply (at_positions_avail cs index Hi pre' pre i x); [done..|]. by eapply Ht.
Qed.

Lemma sort_candidates_perm cs1 cs2 : cs1 ≡ₚ cs2 -> sort_candidates cs1 = sort_candidates cs2.
Proof.
  assert (forall cs1 cs2 out, cs1 ≡ₚ cs2 -> sort_candidates cs1 = Some out -> sort_candidates cs2 = Some out)
    as Hone.
  { intros a b out Hp Ha. destruct (sort_candidates_sound a out Ha) as (Hnd & l & -> & Hl).
    destruct (sort_candidates_complete b l) as [out' Hb].
    - by rewrite <- Hp.
    - rewrite <- Hp. apply Hl.
    - by apply (power_ordered_perm a).
    - rewrite Hb. destruct (sort_candidates_sound b out' Hb) as (_ & l' & -> & Hl').
      by rewrite (power_ordered_unique a l' l) by (done || by apply (power_ordered_perm b)). }
  intros Hp. destruct (sort_candidates cs1) as [out|] eqn:E1.
  - symmetry. by apply (Hone cs1).
  - destruct (sort_candidates cs2) as [out|] eqn:E2; [|done].
    rewrite (Hone cs2 cs1 out) in E1 by done. done.
Qed.
