(* ===== verification/PowerRank.v ===== *)
(** The power by which candidates are ranked: find_auth_ancestor_context and
    power_level_from_event against a specification that reads the events
    without a cache or a budget, and the ordering of reverse_topological_power_sort
    as a whole. *)
From S2P Require Import Prelude CppStd JsonValue JsonSerializer RoomVersion Signing EventAuth EventSource StateAuth PowerSort AuthChain PowerOrder.
Open Scope nat_scope.

(** * Specification *)

Section Spec.
Context (content : string -> option Value).

Definition has_type (type : string) (v : Value) : bool :=
  match value_is_object v ≫= (fun o => string_member o "type") with
  | Some t => t =s type
  | None => false
  end.

(** The first event of a type among the ones [ids] name. *)
Definition first_of_type (type : string) (ids : list string) : Value :=
  default VNull (head (List.filter (has_type type) (omap content ids))).

Definition is_create_event (v : Value) : bool :=
  match value_is_object v with
  | None => false
  | Some o => match string_member o "type", string_member o "state_key" with
              | Some t, Some k => (t =s "m.room.create") && empty k
              | _, _ => false
              end
  end.

(** The create event a room ID names: [Some None] without a room ID. *)
Definition room_create (json : Value) : option (option Value) :=
  match value_is_object json ≫= (fun o => string_member o "room_id") with
  | None => Some None
  | Some room_id =>
      if (String.length room_id <? 2) || negb (starts_with "!"%char room_id) then None
      else match content (String "$"%char (drop_str 1 room_id)) with
           | Some create => if is_create_event create then Some (Some create) else None
           | None => None
           end
  end.

Definition ids_resolve (ids : list string) : bool := forallb (fun id => bool_decide (is_Some (content id))) ids.

Definition context_spec (policy : RoomVersionPolicy) (json : Value) : option AuthAncestorContext :=
  implicit ← (if create_event_is_room_id policy then room_create json else Some None);
  if ids_resolve (auth_event_ids json)
  then Some (mkContext (first_of_type "m.room.power_levels" (auth_event_ids json))
               (default (first_of_type "m.room.create" (auth_event_ids json)) implicit))
  else None.

Definition power_spec (policy : RoomVersionPolicy) (event : StateEventReference) : option Z :=
  ctx ← context_spec policy (ref_event_json event);
  Some (effective_sender_power (ctx_power_levels ctx) (ref_sender event) (ctx_create ctx) policy).

(** The events the power of a candidate depends on. *)
Definition context_reads (policy : RoomVersionPolicy) (json : Value) : list string :=
  (if create_event_is_room_id policy then
     match value_is_object json ≫= (fun o => string_member o "room_id") with
     | Some room_id => [String "$"%char (drop_str 1 room_id)]
     | None => []
     end
   else []) ++ auth_event_ids json.
End Spec.

(** * The context *)

(** Entries that name no event are skipped. *)
Lemma context_entries_ids entries ctx src :
  context_entries entries ctx src = context_entries (VString <$> omap auth_entry_event_id entries) ctx src.
Proof.
  revert ctx src. induction entries as [|entry entries IH]; intros ctx src; csimpl; [done|].
  destruct (auth_entry_event_id entry) as [id|]; csimpl; [|done].
  destruct (find_required id src) as [[v|] src']; auto.
Qed.

Lemma has_type_content type v : has_type type v = true -> value_has_content v = true.
Proof. by destruct v. Qed.

(** Filling the slots with a list of events, in order. *)
Lemma fill_context_fold vs ctx :
  foldl fill_context ctx vs =
  mkContext
    (if value_has_content (ctx_power_levels ctx) then ctx_power_levels ctx
     else default (ctx_power_levels ctx) (head (List.filter (has_type "m.room.power_levels") vs)))
    (if value_has_content (ctx_create ctx) then ctx_create ctx
     else default (ctx_create ctx) (head (List.filter (has_type "m.room.create") vs))).
Proof.
  revert ctx. induction vs as [|v vs IH]; intros [pl cr]; simpl.
  { by destruct (value_has_content pl), (value_has_content cr). }
  rewrite IH. unfold fill_context. simpl.
  pose proof (has_type_content "m.room.power_levels" v) as Hpl.
  pose proof (has_type_content "m.room.create" v) as Hcr. revert Hpl Hcr. unfold has_type.
  destruct (value_is_object v ≫= _) as [t|]; simpl; [|done].
  destruct (t =s "m.room.power_levels") eqn:E1; destruct (t =s "m.room.create") eqn:E2; breflect; subst;
    simpl; try done; intros H1 H2;
    destruct (value_has_content pl) eqn:E3, (value_has_content cr) eqn:E4; simpl;
    rewrite ?E3, ?E4, ?H1, ?H2 by done; done.
Qed.

Lemma context_entries_extends ids ctx src :
  extends src (snd (context_entries (VString <$> ids) ctx src)).
Proof.
  revert ctx src. induction ids as [|id ids IH]; intros ctx src; csimpl; [reflexivity|].
  pose proof (find_required_extends id src) as He.
  destruct (find_required id src) as [[v|] src']; csimpl; [|done]. etrans; [exact He|apply IH].
Qed.

Lemma context_entries_sound content ids ctx src ctx' :
  holds src content -> fst (context_entries (VString <$> ids) ctx src) = Some ctx' ->
  ids_resolve content ids = true /\ ctx' = foldl fill_context ctx (omap content ids)
  /\ forall id, id ∈ ids -> in_memory (snd (context_entries (VString <$> ids) ctx src)) id.
Proof.
  revert ctx src. induction ids as [|id ids IH]; intros ctx src Hh; csimpl.
  { intros [= <-]. set_solver. }
  pose proof (find_required_extends id src) as He.
  pose proof (holds_find_required src content id) as Hr.
  pose proof (find_required_in_memory id src) as Hm.
  destruct (find_required id src) as [[v|] src']; csimpl; [|done]. intros Hc. simpl in *.
  specialize (Hr v Hh eq_refl). specialize (Hm v eq_refl).
  destruct (IH _ _ (holds_extends _ _ _ He Hh) Hc) as (H1 & H2 & H3). rewrite Hr. simpl.
  split; [done|]. split; [done|].
  intros id' [->|Hid']%elem_of_cons; [|auto].
  apply (in_memory_extends src'); [apply context_entries_extends|done].
Qed.

Lemma context_entries_complete content R ids ctx src :
  holds src content -> serves src R -> (forall id, id ∈ ids -> id ∈ R) ->
  exists src', context_entries (VString <$> ids) ctx src = (Some (foldl fill_context ctx (omap content ids)), src')
    /\ serves src' R.
Proof.
  revert ctx src. induction ids as [|id ids IH]; intros ctx src Hh Hs HR; csimpl; [eauto|].
  pose proof (find_required_extends id src) as He.
  destruct (serves_find_required src R id Hs) as (v & src' & Hf & Hv & Hs' & _); [set_solver|].
  rewrite Hf in He |- *. rewrite (proj2 Hh id) in Hv. rewrite Hv. csimpl.
  apply IH; [by apply (holds_extends src)|done|set_solver].
Qed.

Lemma is_create_event_content v : is_create_event v = true -> value_has_content v = true.
Proof. by destruct v. Qed.

Definition room_id_of (json : Value) : option string :=
  value_is_object json ≫= (fun o => string_member o "room_id").

Lemma implicit_create_extends obj src : extends src (snd (implicit_create obj src)).
Proof.
  unfold implicit_create. destruct (string_member obj "room_id") as [room_id|]; [|reflexivity].
  destruct (_ || _); [reflexivity|].
  pose proof (find_required_extends (String "$"%char (drop_str 1 room_id)) src) as He.
  destruct (find_required _ src) as [[v|] src']; [|done]. repeat (case_match; try done).
Qed.

Lemma implicit_create_sound content obj src implicit :
  holds src content -> fst (implicit_create obj src) = Some implicit ->
  room_create content (VObject obj) = Some implicit
  /\ forall room_id, string_member obj "room_id" = Some room_id ->
       in_memory (snd (implicit_create obj src)) (String "$"%char (drop_str 1 room_id)).
Proof.
  intros Hh. unfold implicit_create, room_create. simpl.
  destruct (string_member obj "room_id") as [room_id|]; simpl; [|by intros [= <-]].
  destruct (_ || _); [done|]. set (id := String _ _).
  pose proof (holds_find_required src content id) as Hr.
  pose proof (find_required_in_memory id src) as Hm.
  destruct (find_required id src) as [[v|] src']; [|done]. simpl in *.
  rewrite (Hr v Hh eq_refl). specialize (Hm v eq_refl). unfold is_create_event.
  destruct (value_is_object v) as [o|]; [|done].
  destruct (string_member o "type"), (string_member o "state_key"); try done.
  destruct (_ && _); [|done]. intros [= <-]. split; [done|]. by intros ? [= <-].
Qed.

Lemma implicit_create_complete content R obj src implicit :
  holds src content -> serves src R -> room_create content (VObject obj) = Some implicit ->
  (forall room_id, string_member obj "room_id" = Some room_id -> String "$"%char (drop_str 1 room_id) ∈ R) ->
  exists src', implicit_create obj src = (Some implicit, src') /\ serves src' R.
Proof.
  intros Hh Hs. unfold implicit_create, room_create. simpl.
  destruct (string_member obj "room_id") as [room_id|]; simpl; [|intros [= <-]; eauto].
  destruct (_ || _); [done|]. intros Hc HR. specialize (HR room_id eq_refl). set (id := String _ _) in *.
  destruct (serves_find_required src R id Hs HR) as (v & src' & -> & Hv & Hs' & _).
  rewrite (proj2 Hh id) in Hv. rewrite Hv in Hc. revert Hc. unfold is_create_event.
  destruct (value_is_object v) as [o|]; [|done].
  destruct (string_member o "type"), (string_member o "state_key"); try done.
  destruct (_ && _); [|done]. intros [= <-]. eauto.
Qed.

(** The slots filled from nothing but an implicit create event. *)
Lemma fill_context_init content ids implicit :
  (forall c, implicit = Some c -> value_has_content c = true) ->
  foldl fill_context (mkContext VNull (default VNull implicit)) (omap content ids)
  = mkContext (first_of_type content "m.room.power_levels" ids)
      (default (first_of_type content "m.room.create" ids) implicit).
Proof.
  intros Hi. rewrite fill_context_fold. unfold first_of_type. simpl.
  destruct implicit as [c|]; simpl; [|done]. by rewrite Hi.
Qed.

Lemma room_create_content content json c : room_create content json = Some (Some c) -> value_has_content c = true.
Proof.
  unfold room_create. destruct (_ ≫= _); [|done]. destruct (_ || _); [done|].
  destruct (content _) as [v|]; [|done]. destruct (is_create_event v) eqn:E; [|done].
  intros [= <-]. by apply is_create_event_content.
Qed.

(** The two halves of the context, uniformly in the room version. *)
Definition implicit_step (policy : RoomVersionPolicy) (obj : Object) (src : Source) :=
  if create_event_is_room_id policy then implicit_create obj src else (Some None, src).

Lemma context_as_ids obj src policy :
  find_auth_ancestor_context (VObject obj) src policy =
  let '(implicit, src) := implicit_step policy obj src in
  match implicit with
  | None => (None, src)
  | Some implicit =>
      context_entries (VString <$> auth_event_ids (VObject obj)) (mkContext VNull (default VNull implicit)) src
  end.
Proof.
  unfold find_auth_ancestor_context, implicit_step, auth_event_ids. simpl.
  destruct (if create_event_is_room_id policy then _ else _) as [[implicit|] src']; [|done].
  destruct (array_member obj "auth_events") as [auth|]; [|done].
  apply context_entries_ids.
Qed.

Lemma context_reads_object policy obj id : id ∈ context_reads policy (VObject obj) <->
  (create_event_is_room_id policy = true /\ exists room_id,
     string_member obj "room_id" = Some room_id /\ id = String "$"%char (drop_str 1 room_id))
  \/ id ∈ auth_event_ids (VObject obj).
Proof.
  unfold context_reads. rewrite elem_of_app. simpl.
  destruct (create_event_is_room_id policy), (string_member obj "room_id"); set_solver.
Qed.

Lemma implicit_step_sound content policy obj src implicit :
  holds src content -> fst (implicit_step policy obj src) = Some implicit ->
  (if create_event_is_room_id policy then room_create content (VObject obj) else Some None) = Some implicit
  /\ (forall c, implicit = Some c -> value_has_content c = true)
  /\ extends src (snd (implicit_step policy obj src))
  /\ forall room_id, create_event_is_room_id policy = true -> string_member obj "room_id" = Some room_id ->
       in_memory (snd (implicit_step policy obj src)) (String "$"%char (drop_str 1 room_id)).
Proof.
  intros Hh. unfold implicit_step. destruct (create_event_is_room_id policy).
  - intros Hi. destruct (implicit_create_sound content obj src implicit Hh Hi) as [H1 H2].
    split; [done|]. split; [intros c ->; by eapply room_create_content|].
    split; [apply implicit_create_extends|auto].
  - intros [= <-]. split; [done|]. split; [done|]. split; [reflexivity|done].
Qed.

Lemma context_sound content json src policy ctx :
  holds src content -> fst (find_auth_ancestor_context json src policy) = Some ctx ->
  context_spec content policy json = Some ctx
  /\ extends src (snd (find_auth_ancestor_context json src policy))
  /\ forall id, id ∈ context_reads policy json ->
       in_memory (snd (find_auth_ancestor_context json src policy)) id.
Proof.
  intros Hh. destruct (value_is_object json) as [obj|] eqn:Eo.
  2: { unfold find_auth_ancestor_context, context_spec, context_reads, room_create, auth_event_ids.
       rewrite Eo. simpl. intros [= <-]. destruct (create_event_is_room_id policy); simpl;
         (split; [done|split; [reflexivity|set_solver]]). }
  destruct json; try done. simpl in Eo. simplify_eq. rewrite context_as_ids.
  pose proof (implicit_step_sound content policy obj src) as Hi.
  destruct (implicit_step policy obj src) as [[implicit|] src1]; simpl in Hi |- *; [|done].
  destruct (Hi implicit Hh eq_refl) as (H1 & H2 & H3 & H4). intros Hc.
  set (ids := auth_event_ids (VObject obj)) in *.
  destruct (context_entries_sound content ids _ _ _ (holds_extends _ _ _ H3 Hh) Hc) as (H5 & -> & H7).
  pose proof (context_entries_extends ids (mkContext VNull (default VNull implicit)) src1) as H8.
  split; [|split].
  - unfold context_spec. rewrite H1. simpl. fold ids. rewrite H5. by rewrite fill_context_init.
  - by etrans.
  - intros id [(Hp & room_id & Hr & ->)|Hid]%context_reads_object; [|by apply H7].
    apply (in_memory_extends src1); [done|]. by apply H4.
Qed.

Lemma context_complete content R json src policy ctx :
  holds src content -> serves src R -> context_spec content policy json = Some ctx ->
  (forall id, id ∈ context_reads policy json -> id ∈ R) ->
  exists src', find_auth_ancestor_context json src policy = (Some ctx, src')
    /\ extends src src' /\ serves src' R.
Proof.
  intros Hh Hs Hc HR.
  assert (forall c src', find_auth_ancestor_context json src policy = (Some c, src') -> serves src' R ->
    exists src', find_auth_ancestor_context json src policy = (Some ctx, src')
      /\ extends src src' /\ serves src' R) as Hfinish.
  { intros c src' E Hs'. pose proof (context_sound content json src policy c Hh) as Hsound.
    rewrite E in Hsound |- *. destruct (Hsound eq_refl) as (Hc' & He & _).
    exists src'. split; [by f_equal; congruence|]. done. }
  destruct (value_is_object json) as [obj|] eqn:Eo.
  2: { eapply Hfinish; [|exact Hs]. unfold find_auth_ancestor_context. by rewrite Eo. }
  destruct json; try done. simpl in Eo. simplify_eq. unfold context_spec in Hc.
  destruct (if create_event_is_room_id policy then _ else _) as [implicit|] eqn:Ei; [|done].
  assert (exists src1, implicit_step policy obj src = (Some implicit, src1) /\ serves src1 R)
    as (src1 & E1 & Hs1).
  { unfold implicit_step. destruct (create_event_is_room_id policy) eqn:Ep.
    - eapply implicit_create_complete; [done..|]. intros room_id Hr. apply HR, context_reads_object. eauto 10.
    - simplify_eq. eauto. }
  pose proof (implicit_step_sound content policy obj src) as Hi. rewrite E1 in Hi.
  destruct (Hi implicit Hh eq_refl) as (_ & _ & He & _). simpl in He.
  edestruct (context_entries_complete content R (auth_event_ids (VObject obj))) as (src2 & E2 & Hs2);
    [by apply (holds_extends src src1)|done| |].
  { intros id Hid. apply HR, context_reads_object. by right. }
  eapply Hfinish; [|exact Hs2]. rewrite context_as_ids, E1. apply E2.
Qed.

(** * The powers of all candidates *)

Lemma power_sound content event src policy p :
  holds src content -> fst (power_level_from_event event src policy) = Some p ->
  power_spec content policy event = Some p
  /\ extends src (snd (power_level_from_event event src policy))
  /\ forall id, id ∈ context_reads policy (ref_event_json event) ->
       in_memory (snd (power_level_from_event event src policy)) id.
Proof.
  intros Hh. unfold power_level_from_event, power_spec.
  pose proof (context_sound content (ref_event_json event) src policy) as Hc.
  destruct (find_auth_ancestor_context _ src policy) as [[ctx|] src']; simpl in *; [|done].
  intros [= <-]. destruct (Hc ctx Hh eq_refl) as (-> & He & Hm). done.
Qed.

Definition ranked (content : string -> option Value) (policy : RoomVersionPolicy)
    (events : list StateEventReference) (powers : list Z) : Prop :=
  Forall2 (fun event p => power_spec content policy event = Some p) events powers.

Lemma powers_extends events src policy powers :
  src_ok src -> fst (powers_of events src policy) = Some powers -> extends src (snd (powers_of events src policy)).
Proof.
  revert src powers. induction events as [|event events IH]; intros src powers Hok; simpl; [reflexivity|].
  pose proof (power_sound (resolves src) event src policy) as Hp.
  destruct (power_level_from_event event src policy) as [[p|] src1]; simpl in *; [|done].
  destruct (Hp p (holds_self _ Hok) eq_refl) as (_ & He & _). specialize (IH src1).
  destruct (powers_of events src1 policy) as [[ps|] src2]; simpl in *; [|done].
  intros _. etrans; [exact He|]. eapply IH; [|done]. by apply (ext_ok _ _ He).
Qed.

Lemma powers_sound content events src policy powers :
  holds src content -> fst (powers_of events src policy) = Some powers ->
  ranked content policy events powers
  /\ forall event id, event ∈ events -> id ∈ context_reads policy (ref_event_json event) ->
       in_memory (snd (powers_of events src policy)) id.
Proof.
  revert src powers. induction events as [|event events IH]; intros src powers Hh; simpl.
  { intros [= <-]. split; [constructor|set_solver]. }
  pose proof (power_sound content event src policy) as Hp.
  destruct (power_level_from_event event src policy) as [[p|] src1]; simpl in *; [|done].
  destruct (Hp p Hh eq_refl) as (Hpow & He & Hm).
  pose proof (holds_extends _ _ _ He Hh) as Hh1. specialize (IH src1).
  pose proof (powers_extends events src1 policy) as Hex.
  destruct (powers_of events src1 policy) as [[ps|] src2]; simpl in *; [|done]. intros [= <-].
  destruct (IH ps Hh1 eq_refl) as [H1 H2]. split; [by constructor|].
  intros e id [->|He']%elem_of_cons Hid; [|by eapply H2].
  apply (in_memory_extends src1); [|by apply Hm]. eapply Hex; [apply Hh1|done].
Qed.

Lemma powers_complete content R events src policy powers :
  holds src content -> serves src R -> ranked content policy events powers ->
  (forall event id, event ∈ events -> id ∈ context_reads policy (ref_event_json event) -> id ∈ R) ->
  fst (powers_of events src policy) = Some powers.
Proof.
  intros Hh Hs Hr. revert src Hh Hs.
  induction Hr as [|event p events powers Hp Hr IH]; intros src Hh Hs HR; simpl; [done|].
  unfold power_spec in Hp. destruct (context_spec _ _ _) as [ctx|] eqn:Ec; [|done]. simpl in Hp. simplify_eq.
  destruct (context_complete content R (ref_event_json event) src policy ctx) as (src1 & E1 & He & Hs1);
    [done..|intros id; apply HR; by left|].
  unfold power_level_from_event. rewrite E1.
  assert (fst (powers_of events src1 policy) = Some powers) as IH1.
  { apply IH; [by apply (holds_extends src)|done|]. intros e id He'. apply HR. by right. }
  destruct (powers_of events src1 policy) as [[ps|] src2]; simpl in *; congruence.
Qed.

(** * The ordering as a whole *)

(** What the sort's source resolves. *)
Definition resolves_in (known : EventJsonIndex) (lookup : EventLookupFn) : string -> option Value :=
  resolves (new_source known lookup 0 ∅).

Lemma new_source_holds known lookup budget rejected :
  holds (new_source known lookup budget rejected) (resolves_in known lookup).
Proof. split; [apply new_source_ok|done]. Qed.

(** The candidates with the powers the specification gives them. *)
Definition candidates_of (content : string -> option Value) (policy : RoomVersionPolicy)
    (events : list StateEventReference) (cs : list Candidate) : Prop :=
  Forall2 (fun event c => cand_event c = event /\ power_spec content policy event = Some (cand_power c)) events cs.

Lemma ranked_candidates content policy events powers : ranked content policy events powers ->
  candidates_of content policy events (zip_with mkCandidate events powers).
Proof. induction 1; simpl; constructor; auto. Qed.

Lemma candidates_of_ids content policy events cs : candidates_of content policy events cs ->
  cand_id <$> cs = ref_event_id <$> events.
Proof. induction 1 as [|e c events cs [<- _] _ IH]; csimpl; [done|]. by f_equal. Qed.

Lemma candidates_of_ranked content policy events cs : candidates_of content policy events cs ->
  ranked content policy events (cand_power <$> cs) /\ zip_with mkCandidate events (cand_power <$> cs) = cs.
Proof.
  induction 1 as [|e [e' p] events cs [<- Hp] _ [IH1 IH2]]; csimpl; [by split; [constructor|]|].
  split; [by constructor|]. by f_equal.
Qed.

Lemma candidates_of_perm content policy events1 events2 cs1 : events1 ≡ₚ events2 ->
  candidates_of content policy events1 cs1 -> exists cs2, cs1 ≡ₚ cs2 /\ candidates_of content policy events2 cs2.
Proof.
  intros Hp Hc. by apply (Permutation_Forall2 Hp Hc).
Qed.

(** The IDs all powers depend on. *)
Definition all_reads (policy : RoomVersionPolicy) (events : list StateEventReference) : gset string :=
  list_to_set (events ≫= fun event => context_reads policy (ref_event_json event)).

Lemma elem_of_all_reads policy events id : id ∈ all_reads policy events <->
  exists event, event ∈ events /\ id ∈ context_reads policy (ref_event_json event).
Proof. unfold all_reads. rewrite elem_of_list_to_set, list_elem_of_bind. naive_solver. Qed.

Lemma power_sort_inv conflicted known lookup policy limits sorted :
  reverse_topological_power_sort conflicted known lookup policy limits = Some sorted ->
  exists cs, candidates_of (resolves_in known lookup) policy conflicted cs
    /\ sort_candidates cs = Some sorted
    /\ serves (new_source known lookup (max_auth_chain_walk_events limits) ∅) (all_reads policy conflicted)
    /\ length conflicted <= max_conflicted_state_keys limits.
Proof.
  unfold reverse_topological_power_sort. destruct (_ <? _) eqn:El; [done|]. apply Nat.ltb_ge in El.
  set (src := new_source _ _ _ _).
  pose proof (powers_sound (resolves_in known lookup) conflicted src policy) as Hs.
  pose proof (powers_extends conflicted src policy) as He.
  destruct (powers_of conflicted src policy) as [[ps|] src'] eqn:Ep; simpl in *; [|done].
  destruct (Hs ps) as [H1 H2]; [apply new_source_holds|done|]. intros Hsort.
  exists (zip_with mkCandidate conflicted ps). split; [by apply ranked_candidates|]. split; [done|].
  split; [|done]. apply (memory_serves _ _ _ _ src').
  - eapply He; [apply new_source_ok|done].
  - intros id (event & Hev & Hid)%elem_of_all_reads. by eapply H2.
Qed.

Lemma power_sort_intro conflicted known lookup policy limits cs :
  candidates_of (resolves_in known lookup) policy conflicted cs ->
  serves (new_source known lookup (max_auth_chain_walk_events limits) ∅) (all_reads policy conflicted) ->
  length conflicted <= max_conflicted_state_keys limits ->
  reverse_topological_power_sort conflicted known lookup policy limits = sort_candidates cs.
Proof.
  intros Hc Hs Hl. unfold reverse_topological_power_sort.
  assert ((max_conflicted_state_keys limits <? length conflicted) = false) as -> by (by apply Nat.ltb_ge).
  destruct (candidates_of_ranked _ _ _ _ Hc) as [Hr Hz].
  rewrite (powers_complete (resolves_in known lookup) (all_reads policy conflicted) _ _ _ _
             (new_source_holds _ _ _ _) Hs Hr).
  - by rewrite Hz.
  - intros event id Hev Hid. apply elem_of_all_reads. eauto.
Qed.

(** * Properties *)

(** The power sort returns the candidates, all of them once, in the one order
    that puts every auth event before the events that name it and, among the
    candidates that could come next, always takes the one of greatest sender
    power, then earliest timestamp, then least event ID; the power is the one
    computed from the candidate's own auth events. *)
Lemma power_sort_correct conflicted known lookup policy limits sorted :
  reverse_topological_power_sort conflicted known lookup policy limits = Some sorted ->
  exists cs l, candidates_of (resolves_in known lookup) policy conflicted cs
    /\ NoDup (cand_id <$> cs) /\ sorted = cand_event <$> l /\ power_ordered cs l
    /\ (forall l', power_ordered cs l' -> l' = l).
Proof.
  intros (cs & Hc & Hs & _)%power_sort_inv.
  destruct (sort_candidates_sound cs sorted Hs) as (Hnd & l & -> & Hl).
  exists cs, l. repeat split; try done; try apply Hl. intros l' Hl'. by apply (power_ordered_unique cs).
Qed.

(** The power sort does not depend on the order in which the candidates are
    handed to it, the lookups and the budget included. *)
Lemma power_sort_order_independent events1 events2 known lookup policy limits :
  events1 ≡ₚ events2 ->
  reverse_topological_power_sort events1 known lookup policy limits
  = reverse_topological_power_sort events2 known lookup policy limits.
Proof.
  assert (forall a b sorted, a ≡ₚ b ->
    reverse_topological_power_sort a known lookup policy limits = Some sorted ->
    reverse_topological_power_sort b known lookup policy limits = Some sorted) as Hone.
  { intros a b sorted Hp (cs & Hc & Hs & Hsrv & Hl)%power_sort_inv.
    destruct (candidates_of_perm _ _ a b cs Hp Hc) as (cs' & Hp' & Hc').
    rewrite (power_sort_intro b known lookup policy limits cs' Hc').
    - by rewrite <- (sort_candidates_perm cs).
    - replace (all_reads policy b) with (all_reads policy a); [done|].
      apply set_eq. intros id. rewrite !elem_of_all_reads. by setoid_rewrite Hp.
    - by rewrite <- Hp. }
  intros Hp. destruct (reverse_topological_power_sort events1 _ _ _ _) as [s|] eqn:E1.
  - symmetry. by apply (Hone events1).
  - destruct (reverse_topological_power_sort events2 _ _ _ _) as [s|] eqn:E2; [|done].
    rewrite (Hone events2 events1 s) in E1 by done. done.
Qed.

(** The power sort succeeds on candidates with distinct IDs whose auth_events
    have no cycle, whose ranking can be computed from events that resolve within
    the lookup budget, and whose number is within the limit. *)
Lemma power_sort_returns conflicted known lookup policy limits cs l :
  length conflicted <= max_conflicted_state_keys limits ->
  candidates_of (resolves_in known lookup) policy conflicted cs ->
  serves (new_source known lookup (max_auth_chain_walk_events limits) ∅) (all_reads policy conflicted) ->
  NoDup (cand_id <$> cs) -> l ≡ₚ cs -> topological cs l ->
  is_Some (reverse_topological_power_sort conflicted known lookup policy limits).
Proof.
  intros Hl Hc Hs Hnd Hp Ht. rewrite (power_sort_intro _ _ _ _ _ cs) by done.
  by apply (sort_candidates_complete cs l).
Qed.

(** C13. The reverse topological power sort is exact. What it returns is the
    unique order of the candidates in which every event follows the auth events
    among them and, of the events free to come next, the one of greatest power,
    then earliest timestamp, then least ID comes first; the result does not
    depend on the order in which the events arrive; and it returns whenever the
    events are within the limit, their auth events can be read, their IDs are
    distinct and some order of them respects the auth events. *)
Theorem power_sort_exact conflicted known lookup policy limits :
  (forall sorted, reverse_topological_power_sort conflicted known lookup policy limits = Some sorted ->
     exists cs l, candidates_of (resolves_in known lookup) policy conflicted cs
       /\ NoDup (cand_id <$> cs) /\ sorted = cand_event <$> l /\ power_ordered cs l
       /\ (forall l', power_ordered cs l' -> l' = l))
  /\ (forall permuted, conflicted ≡ₚ permuted ->
        reverse_topological_power_sort conflicted known lookup policy limits
        = reverse_topological_power_sort permuted known lookup policy limits)
  /\ (forall cs l, length conflicted <= max_conflicted_state_keys limits ->
        candidates_of (resolves_in known lookup) policy conflicted cs ->
        serves (new_source known lookup (max_auth_chain_walk_events limits) ∅) (all_reads policy conflicted) ->
        NoDup (cand_id <$> cs) -> l ≡ₚ cs -> topological cs l ->
        is_Some (reverse_topological_power_sort conflicted known lookup policy limits)).
Proof.
  split; [|split].
  - intros sorted. apply power_sort_correct.
  - intros permuted. apply power_sort_order_independent.
  - intros cs l. apply power_sort_returns.
Qed.
