(* ===== verification/ConflictedSubgraph.v ===== *)
(** The conflicted state subgraph holds exactly the events on paths of
    auth_events from a conflicted event to a conflicted event, and the walk
    that computes it rejects cycles. *)
From S2P Require Import Prelude CppStd JsonValue JsonSerializer RoomVersion Signing EventAuth EventSource StateGraph AuthChain.
Open Scope nat_scope.

(** * Neighbours *)

Lemma neighbour_ids_spec entries seen ids : neighbour_ids entries seen = Some ids ->
  ids = omap auth_entry_event_id entries.
Proof.
  revert seen ids. induction entries as [|entry entries IH]; intros seen ids; csimpl; [by intros [= <-]|].
  destruct (auth_entry_event_id entry) as [id|]; [|done]. destruct (_ || _); [done|].
  destruct (neighbour_ids entries _) as [rest|] eqn:E; [|done]. intros [= <-]. f_equal. by eapply IH.
Qed.

Lemma event_neighbours_spec json ids : event_neighbours json = Some ids ->
  exists v, json = Some v /\ ids = auth_event_ids v.
Proof.
  unfold event_neighbours, auth_event_ids. destruct json as [v|]; [|done]. simpl.
  destruct (value_is_object v) as [o|] eqn:E; [|done]. simpl.
  destruct (array_member o "auth_events") as [auth|] eqn:E'; [|done].
  destruct (_ <? _); [done|]. intros ->%neighbour_ids_spec. exists v. by rewrite E, E'.
Qed.

(** * Exploration *)

(** One event names another as an auth event. *)
Definition edge (content : string -> option Value) (x y : string) : Prop :=
  exists v, content x = Some v /\ y ∈ auth_event_ids v.

(** Every vertex has the neighbours its event names. *)
Definition graph_of (content : string -> option Value) (graph : Graph) : Prop :=
  forall x ns, graph !! x = Some ns -> event_neighbours (content x) = Some ns.

Lemma graph_of_edge content graph x ns y : graph_of content graph -> graph !! x = Some ns ->
  y ∈ ns <-> edge content x y.
Proof.
  intros Hg Hx. destruct (event_neighbours_spec _ _ (Hg x ns Hx)) as (v & Hv & ->).
  unfold edge. rewrite Hv. naive_solver.
Qed.

Section Explore.
Context (content : string -> option Value) (roots : gset string).

(** Reachable from a root along edges. *)
Definition reachable (x : string) : Prop := exists r, r ∈ roots /\ rtc (edge content) r x.

Lemma reachable_edge x y : reachable x -> edge content x y -> reachable y.
Proof. intros (r & Hr & Hx) Hy. exists r. split; [done|]. by eapply rtc_r. Qed.

Record explore_inv (pending : list string) (graph : Graph) : Prop := {
  exp_graph : graph_of content graph;
  exp_reach : forall x, x ∈ pending \/ x ∈ dom graph -> reachable x;
  exp_roots : forall x, x ∈ roots -> x ∈ pending \/ x ∈ dom graph;
  exp_closed : forall x y, x ∈ dom graph -> edge content x y -> y ∈ pending \/ y ∈ dom graph
}.

Lemma pop_new_Some graph pending id rest : pop_new graph pending = Some (id, rest) ->
  graph !! id = None /\ exists skipped, pending = skipped ++ id :: rest /\ (forall x, x ∈ skipped -> x ∈ dom graph).
Proof.
  induction pending as [|x pending IH]; simpl; [done|].
  destruct (graph !! x) as [ns|] eqn:E.
  - intros H. destruct (IH H) as (Hn & sk & -> & Hsk). split; [done|]. exists (x :: sk). split; [done|].
    intros y [->|Hy]%elem_of_cons; [by apply elem_of_dom_2 in E|auto].
  - intros [= -> ->]. split; [done|]. exists []. split; [done|]. set_solver.
Qed.

Lemma pop_new_None graph pending : pop_new graph pending = None -> forall x, x ∈ pending -> x ∈ dom graph.
Proof.
  induction pending as [|x pending IH]; simpl; [set_solver|]. destruct (graph !! x) eqn:E; [|done].
  intros H y [->|Hy]%elem_of_cons; [by apply elem_of_dom_2 in E|auto].
Qed.

Lemma explore_inv_step pending graph id rest ns :
  explore_inv pending graph -> pop_new graph pending = Some (id, rest) ->
  event_neighbours (content id) = Some ns -> explore_inv (rest ++ ns) (<[id := ns]> graph).
Proof.
  intros [Hg Hr Hroots Hc] (Hn & sk & -> & Hsk)%pop_new_Some Hns.
  destruct (event_neighbours_spec _ _ Hns) as (v & Hv & Hids).
  assert (reachable id) as Hid by (apply Hr; set_solver).
  split.
  - intros x ns'. destruct (decide (x = id)) as [->|Hne].
    + rewrite lookup_insert_eq. by intros [= <-].
    + rewrite lookup_insert_ne by done. apply Hg.
  - intros x. rewrite elem_of_app, dom_insert_L, elem_of_union, elem_of_singleton.
    intros [[Hx|Hx]|[->|Hx]]; [apply Hr; set_solver| |done|apply Hr; by right].
    apply (reachable_edge id); [done|]. exists v. by subst.
  - intros x Hx. rewrite elem_of_app, dom_insert_L. destruct (Hroots x Hx); set_solver.
  - intros x y. rewrite elem_of_app, dom_insert_L, elem_of_union, elem_of_singleton.
    intros [->|Hx] Hy.
    + destruct Hy as (w & Hw & Hy). simplify_eq. set_solver.
    + destruct (Hc x y Hx Hy); set_solver.
Qed.

Lemma explore_extends fuel cap pending graph src : extends src (snd (explore fuel cap pending graph src)).
Proof.
  revert pending graph src. induction fuel as [|fuel IH]; intros pending graph src; simpl;
    destruct (pop_new graph pending) as [[id rest]|]; try reflexivity;
    destruct (_ <=? _); try reflexivity;
    pose proof (find_required_extends id src) as He; destruct (find_required id src) as [json src'];
    destruct (event_neighbours json); simpl in *; try done.
  etrans; [exact He|apply IH].
Qed.

Lemma explore_memory fuel cap pending graph src graph' : (forall x, x ∈ dom graph -> in_memory src x) ->
  fst (explore fuel cap pending graph src) = Some graph' ->
  forall x, x ∈ dom graph' -> in_memory (snd (explore fuel cap pending graph src)) x.
Proof.
  revert pending graph src. induction fuel as [|fuel IH]; intros pending graph src Hmem; simpl;
    (destruct (pop_new graph pending) as [[id rest]|]; [|by intros [= <-]]);
    destruct (_ <=? _); try done;
    pose proof (find_required_extends id src) as He; pose proof (find_required_in_memory id src) as Hm;
    destruct (find_required id src) as [[v|] src']; simpl in *; try done;
    destruct (event_neighbours _) as [ns|]; try done.
  apply IH. intros x. rewrite dom_insert_L, elem_of_union, elem_of_singleton. intros [->|Hx]; [by eapply Hm|].
  by eapply in_memory_extends, Hmem.
Qed.

Definition explored (graph : Graph) : Prop :=
  graph_of content graph /\ (forall x, x ∈ dom graph <-> reachable x)
  /\ (forall x y, x ∈ dom graph -> edge content x y -> y ∈ dom graph).

Lemma explore_inv_done pending graph :
  explore_inv pending graph -> pop_new graph pending = None -> explored graph.
Proof.
  intros [Hg Hr Hroots Hc] Hpop. pose proof (pop_new_None _ _ Hpop) as Hin.
  assert (forall x, reachable x -> x ∈ dom graph) as Hall.
  { intros x (r & Hroot & Hpath). assert (r ∈ dom graph) as Hrd by (destruct (Hroots r Hroot); auto).
    clear Hroot. induction Hpath as [|x y z Hxy _ IHp]; [done|]. apply IHp.
    destruct (Hc x y Hrd Hxy); auto. }
  split; [done|]. split; [naive_solver|]. intros x y Hx Hy. destruct (Hc x y Hx Hy); auto.
Qed.

Lemma explore_sound fuel cap pending graph src graph' :
  holds src content -> explore_inv pending graph ->
  fst (explore fuel cap pending graph src) = Some graph' -> explored graph'.
Proof.
  revert pending graph src. induction fuel as [|fuel IH]; intros pending graph src Hh Hinv; simpl;
    (destruct (pop_new graph pending) as [[id rest]|] eqn:Hpop;
     [|intros [= <-]; by apply (explore_inv_done pending)]);
    destruct (_ <=? _); try done;
    pose proof (find_required_extends id src) as He;
    pose proof (holds_find_required src content id) as Hr;
    destruct (find_required id src) as [[v|] src']; simpl in *; try done;
    destruct (event_neighbours _) as [ns|] eqn:Ens; try done.
  intros Hex. eapply IH; [by apply (holds_extends src)| |exact Hex].
  apply (explore_inv_step pending graph); [done..|]. by rewrite (Hr v Hh eq_refl).
Qed.

Lemma size_fresh (graph : Graph) (R : gset string) id :
  graph !! id = None -> id ∈ R -> dom graph ⊆ R -> S (size graph) <= size R.
Proof.
  intros Hn Hid Hsub. rewrite <- (size_dom (D := gset string) graph). change (S ?k) with (1 + k).
  apply not_elem_of_dom in Hn.
  rewrite <- (size_singleton (C := gset string) id), <- size_union by set_solver.
  apply subseteq_size. set_solver.
Qed.

Lemma explore_complete R fuel cap pending graph src :
  holds src content -> serves src R -> explore_inv pending graph ->
  (forall x, reachable x -> x ∈ R /\ is_Some (event_neighbours (content x))) ->
  size R <= cap -> cap < fuel + size graph ->
  exists graph' src', explore fuel cap pending graph src = (Some graph', src')
    /\ src_missing src' = src_missing src.
Proof.
  intros Hh Hs Hinv HR Hcap. revert pending graph src Hh Hs Hinv.
  induction fuel as [|fuel IH]; intros pending graph src Hh Hs Hinv Hf; simpl;
    destruct (pop_new graph pending) as [[id rest]|] eqn:Hpop; eauto;
    pose proof (pop_new_Some _ _ _ _ Hpop) as (Hn & sk & Hp & _);
    assert (reachable id) as Hid by (apply (exp_reach _ _ Hinv); set_solver);
    destruct (HR id Hid) as [HidR [ns Hns]];
    assert (S (size graph) <= size R) as Hsz
      by (apply (size_fresh graph R id); [done..|]; intros x Hx; apply HR, (exp_reach _ _ Hinv); by right);
    [lia|].
  assert ((cap <=? size graph) = false) as -> by (apply Nat.leb_gt; lia).
  destruct (serves_find_required src R id Hs HidR) as (v & src' & Hfind & Hv & Hs' & Hm).
  pose proof (find_required_extends id src) as He. rewrite Hfind in He |- *. simpl in He.
  rewrite (proj2 Hh id) in Hv. rewrite <- Hv, Hns.
  destruct (IH (rest ++ ns) (<[id:=ns]> graph) src') as (graph' & src'' & -> & Hm');
    [by apply (holds_extends src)|done|by apply (explore_inv_step pending)| |].
  - rewrite map_size_insert_None by done. lia.
  - exists graph', src''. split; [done|congruence].
Qed.
End Explore.

(** * Cycle detection *)

Section Acyclic.
Context `{IterationOrder} (graph : Graph).

Definition nb (x : string) : list string := default [] (graph !! x).

(** [x] names [y]. *)
Definition gedge (x y : string) : Prop := y ∈ nb x.

Hypothesis graph_closed : forall x y, gedge x y -> y ∈ dom graph.

Definition verts : list string := (iter_map graph).*1.

Lemma elem_of_verts x : x ∈ verts <-> x ∈ dom graph.
Proof.
  unfold verts. rewrite elem_of_dom. rewrite list_elem_of_fmap. setoid_rewrite iter_map_perm.
  split.
  - intros ([k v] & -> & Hk%elem_of_map_to_list). by eexists.
  - intros [v Hv]. exists (x, v). split; [done|]. by apply elem_of_map_to_list.
Qed.

Lemma NoDup_verts : NoDup verts.
Proof. unfold verts. rewrite iter_map_perm. apply NoDup_fst_map_to_list. Qed.

Lemma length_verts : length verts = size graph.
Proof. unfold verts. rewrite iter_map_perm, length_fmap. apply length_map_to_list. Qed.

Lemma gedge_dom x y : gedge x y -> x ∈ dom graph.
Proof.
  unfold gedge, nb. intros Hy. apply elem_of_dom. destruct (graph !! x); [by eexists|].
  by apply not_elem_of_nil in Hy.
Qed.

(** Edges into [a] from the vertices of [l], with multiplicity. *)
Definition inc (l : list string) (a : string) : nat := sum_list ((fun x => cnt a (nb x)) <$> l).

Lemma inc_perm l k a : l ≡ₚ k -> inc l a = inc k a.
Proof. unfold inc. induction 1; csimpl; lia. Qed.

Lemma inc_zero l a : inc l a = 0 <-> forall x, x ∈ l -> ~ gedge x a.
Proof.
  unfold inc, gedge. induction l as [|x l IH]; csimpl; [set_solver|].
  assert (cnt a (nb x) = 0 <-> a ∉ nb x) as Hx by (rewrite <- cnt_pos; destruct (cnt a (nb x)); split; lia).
  split.
  - intros Hz y [->|Hy]%elem_of_cons; [apply Hx; lia|]. apply IH; [lia|done].
  - intros Hall. assert (cnt a (nb x) = 0) by (apply Hx, Hall; by left).
    assert (sum_list ((λ x, cnt a (nb x)) <$> l) = 0) by (apply IH; intros y Hy; apply Hall; by right). lia.
Qed.

Lemma inc_cons_le x l a : cnt a (nb x) <= inc (x :: l) a.
Proof. unfold inc. csimpl. lia. Qed.

Definition deg (m : gmap string nat) (a : string) : nat := default 0 (m !! a).

Lemma deg_bump_fold ancestors m a :
  deg (foldl bump m ancestors) a = deg m a + cnt a ancestors
  /\ (is_Some (foldl bump m ancestors !! a) <-> is_Some (m !! a) \/ a ∈ ancestors).
Proof.
  revert m. induction ancestors as [|x l IH]; intros m; simpl.
  { split; [unfold cnt; simpl; lia|set_solver]. }
  destruct (IH (bump m x)) as [-> ->]. rewrite cnt_cons, elem_of_cons. unfold deg, bump.
  destruct (decide (x = a)) as [->|Hne].
  - rewrite lookup_insert_eq. simpl. split; [lia|]. naive_solver.
  - rewrite lookup_insert_ne by done. split; [lia|]. naive_solver.
Qed.

Lemma indegrees_fold (l : list (string * list string)) m a :
  let m' := foldl (fun m '(id, ancestors) =>
    foldl bump (match m !! id with Some _ => m | None => <[id := 0]> m end) ancestors) m l in
  deg m' a = deg m a + sum_list ((fun p => cnt a p.2) <$> l)
  /\ (is_Some (m' !! a) <-> is_Some (m !! a) \/ exists p, p ∈ l /\ (p.1 = a \/ a ∈ p.2)).
Proof.
  revert m. induction l as [|[id ancestors] l IH]; intros m; csimpl; [split; [lia|set_solver]|].
  set (m0 := match m !! id with Some _ => m | None => <[id:=0]> m end).
  assert (deg m0 a = deg m a /\ (is_Some (m0 !! a) <-> is_Some (m !! a) \/ id = a)) as [Hd Hs].
  { subst m0. unfold deg. destruct (m !! id) eqn:E.
    - split; [done|]. split; [by left|]. intros [|<-]; [done|by eexists].
    - destruct (decide (id = a)) as [->|Hne].
      + rewrite lookup_insert_eq, E. split; [done|]. naive_solver.
      + rewrite lookup_insert_ne by done. naive_solver. }
  destruct (IH (foldl bump m0 ancestors)) as [-> ->].
  destruct (deg_bump_fold ancestors m0 a) as [-> ->]. rewrite Hd, Hs. split; [lia|].
  setoid_rewrite elem_of_cons. naive_solver.
Qed.

Lemma deg_indegrees a : deg (indegrees graph) a = inc verts a.
Proof.
  unfold indegrees. rewrite (proj1 (indegrees_fold (iter_map graph) ∅ a)).
  unfold deg at 1. rewrite lookup_empty. simpl. unfold inc, verts. rewrite <- list_fmap_compose. f_equal.
  apply list_fmap_ext. intros i [x ns] Hi. simpl. unfold nb.
  assert (graph !! x = Some ns) as ->; [|done].
  apply elem_of_map_to_list. rewrite <- iter_map_perm. by eapply list_elem_of_lookup_2.
Qed.

Lemma indegrees_dom a : is_Some (indegrees graph !! a) <-> a ∈ dom graph.
Proof.
  unfold indegrees. rewrite (proj2 (indegrees_fold (iter_map graph) ∅ a)), lookup_empty.
  setoid_rewrite iter_map_perm. split.
  - intros [[]|([x ns] & Hx%elem_of_map_to_list & [Ha|Ha])]; [done| |]; simpl in Ha.
    + subst. by apply elem_of_dom_2 in Hx.
    + apply (graph_closed x). unfold gedge, nb. by rewrite Hx.
  - intros [ns Hns]%elem_of_dom. right. exists (a, ns). split; [by apply elem_of_map_to_list|by left].
Qed.

(** The inner loop. *)
Lemma release_spec ancestors m ready m' ready' :
  release ancestors m ready = (m', ready') -> (forall a, cnt a ancestors <= deg m a) ->
  (forall a, deg m' a = deg m a - cnt a ancestors)
  /\ exists new, ready' = ready ++ new /\ NoDup new /\ forall a, a ∈ new <-> a ∈ ancestors /\ deg m' a = 0.
Proof.
  revert m ready. induction ancestors as [|x l IH]; intros m ready; simpl.
  { intros [= <- <-] _. split; [intros a; unfold cnt; simpl; lia|]. exists []. rewrite app_nil_r.
    split; [done|]. split; [constructor|set_solver]. }
  intros Hr Hc. fold (deg m x) in Hr. set (m1 := <[x:=deg m x - 1]> m) in Hr.
  assert (forall a, deg m1 a = deg m a - (if decide (x = a) then 1 else 0)) as Hm1.
  { intros a. unfold m1, deg. destruct (decide (x = a)) as [->|Hne];
      [by rewrite lookup_insert_eq|rewrite lookup_insert_ne by done; simpl; lia]. }
  pose proof (Hc x) as Hcx. rewrite cnt_cons, decide_True in Hcx by done.
  destruct (IH _ _ Hr) as (H1 & new & Hready & Hnd & Hnew).
  { intros a. specialize (Hc a). rewrite cnt_cons in Hc. rewrite Hm1. destruct (decide (x = a)); lia. }
  split.
  { intros a. rewrite H1, Hm1, cnt_cons. lia. }
  pose proof (H1 x) as Hx. rewrite Hm1, decide_True in Hx by done.
  destruct (Nat.eqb_spec (deg m x - 1) 0) as [E|E].
  - exists (x :: new). rewrite Hready, <- app_assoc. split; [done|]. split.
    + constructor; [|done]. rewrite Hnew, <- cnt_pos. lia.
    + intros a. rewrite !elem_of_cons, Hnew. assert (deg m' x = 0) by lia. naive_solver.
  - exists new. split; [done|]. split; [done|]. intros a. rewrite Hnew, elem_of_cons.
    split; [naive_solver|]. intros [[->|] Hz]; [|done]. split; [|done]. rewrite <- cnt_pos. lia.
Qed.

(** Each vertex comes after the ones that name it. *)
Definition ordered (l : list string) : Prop :=
  forall pre x post, l = pre ++ x :: post -> forall y, gedge y x -> y ∈ pre.

Record count_inv (m : gmap string nat) (ready emitted rest : list string) : Prop := {
  count_perm : emitted ++ rest ≡ₚ verts;
  count_deg : forall a, deg m a = inc rest a;
  count_nodup : NoDup ready;
  count_ready : forall a, a ∈ ready <-> a ∈ rest /\ deg m a = 0;
  count_ordered : ordered emitted
}.

Lemma ordered_in l x y : ordered l -> x ∈ l -> gedge y x -> y ∈ l.
Proof.
  intros Ho (pre & post & ->)%list_elem_of_split Hy. apply elem_of_app. left. by apply (Ho pre x post).
Qed.

Lemma ordered_snoc l x : ordered l -> (forall y, gedge y x -> y ∈ l) -> ordered (l ++ [x]).
Proof.
  intros Ho Hx pre z post. destruct post as [|w post _] using rev_ind.
  - intros [-> [= ->]]%app_inj_tail. done.
  - rewrite app_comm_cons, app_assoc. intros [-> [= ->]]%app_inj_tail. by apply (Ho pre z post).
Qed.

Lemma count_inv_step m id ready emitted rest m' ready' :
  count_inv m (id :: ready) emitted rest -> release (nb id) m ready = (m', ready') ->
  exists rest', rest ≡ₚ id :: rest' /\ count_inv m' ready' (emitted ++ [id]) rest'.
Proof.
  intros [Hp Hd Hnd Hr Ho] Hrel.
  destruct (proj1 (Hr id) ltac:(by left)) as [Hid Hz].
  destruct (proj1 (elem_of_Permutation _ _) Hid) as [rest' Hrest].
  apply NoDup_cons in Hnd as [Hidr Hnd].
  assert (forall a, inc rest a = cnt a (nb id) + inc rest' a) as Hinc
    by (intros a; rewrite (inc_perm _ _ _ Hrest); done).
  destruct (release_spec _ _ _ _ _ Hrel) as (Hm' & new & -> & Hnew & Hin).
  { intros a. rewrite Hd, Hinc. lia. }
  assert (forall a, deg m' a = inc rest' a) as Hd' by (intros a; rewrite Hm', Hd, Hinc; lia).
  assert (NoDup (emitted ++ rest)) as Hall by (rewrite Hp; apply NoDup_verts).
  apply NoDup_app in Hall as (_ & Hdis & Hndr). rewrite Hrest in Hndr. apply NoDup_cons in Hndr as [Hidn _].
  assert (forall y, gedge y id -> y ∈ emitted) as Hpred.
  { intros y Hy. rewrite Hd, inc_zero in Hz. assert (y ∈ emitted ++ rest) as Hv
      by (rewrite Hp; apply elem_of_verts; by eapply gedge_dom).
    apply elem_of_app in Hv as [|Hv]; [done|]. by destruct (Hz y Hv). }
  assert (forall a, a ∈ nb id -> a ∈ rest' /\ deg m a <> 0) as Hnb.
  { intros a Ha. split; [|rewrite Hd, inc_zero; intros Hn; by apply (Hn id)].
    assert (a ∈ emitted ++ rest) as Hv by (rewrite Hp; apply elem_of_verts; by apply (graph_closed id)).
    apply elem_of_app in Hv as [Hv|Hv].
    - destruct (Hdis id); [by apply (ordered_in emitted a)|done].
    - rewrite Hrest in Hv. apply elem_of_cons in Hv as [->|]; [|done].
      destruct (Hdis id); [by apply Hpred|done]. }
  exists rest'. split; [done|]. split; [|done| | |by apply ordered_snoc].
  - rewrite <- app_assoc. simpl. by rewrite <- Hrest.
  - apply NoDup_app. split; [done|]. split; [|done]. intros a Ha [Han _]%Hin.
    destruct (Hnb a Han) as [_ Hnz]. apply Hnz, Hr. by right.
  - intros a. rewrite elem_of_app, Hin. split.
    + intros [Ha|[Ha Hz']]; [|split; [by apply Hnb|done]].
      destruct (proj1 (Hr a) ltac:(by right)) as [Har Haz].
      rewrite Hrest in Har. apply elem_of_cons in Har as [->|Har]; [done|].
      split; [done|]. rewrite Hd' . rewrite Hd, Hinc in Haz. lia.
    + intros [Ha Hz']. destruct (decide (a ∈ nb id)) as [Hn|Hn]; [by right|left].
      assert (a ∈ id :: ready) as [->|]%elem_of_cons; [|done..].
      apply Hr. rewrite Hrest. split; [by right|].
      rewrite Hd, Hinc, <- Hd', Hz'. rewrite <- cnt_pos in Hn. lia.
Qed.

Lemma kahn_count_spec fuel m ready emitted rest :
  count_inv m ready emitted rest -> length rest <= fuel ->
  exists m' emitted' rest', count_inv m' [] emitted' rest'
    /\ kahn_count fuel graph m ready (length emitted) = length emitted'.
Proof.
  revert m ready emitted rest. induction fuel as [|fuel IH]; intros m [|id ready] emitted rest Hinv Hf; simpl; eauto 10.
  - destruct (proj1 (count_ready _ _ _ _ Hinv id) ltac:(by left)) as [Hid _].
    destruct rest; [set_solver|simpl in Hf; lia].
  - fold (nb id). destruct (release (nb id) m ready) as [m' ready'] eqn:E.
    destruct (count_inv_step _ _ _ _ _ _ _ Hinv E) as (rest' & Hrest & Hinv').
    rewrite Hrest in Hf. simpl in Hf.
    destruct (IH _ _ _ _ Hinv' ltac:(lia)) as (m'' & e'' & r'' & Hinv'' & Hk).
    exists m'', e'', r''. split; [done|]. rewrite <- Hk, length_app. simpl. by rewrite Nat.add_1_r.
Qed.

Lemma count_inv_init :
  count_inv (indegrees graph) (filter (fun p => p.2 = 0) (iter_map (indegrees graph))).*1 [] verts.
Proof.
  split; [done|apply deg_indegrees| | |by intros [|] ? ? ?].
  - assert (forall (l : list (string * nat)), NoDup l.*1 -> NoDup (filter (fun p => p.2 = 0) l).*1) as Hf.
    { intros l. induction l as [|[k v] l IH]; csimpl; [done|]. intros [Hk Hl]%NoDup_cons.
      rewrite filter_cons. destruct (decide _); [|auto]. csimpl. constructor; [|auto].
      intros ([k' v'] & Hkk & [_ Hin]%list_elem_of_filter)%list_elem_of_fmap. apply Hk, list_elem_of_fmap. eauto. }
    apply Hf. rewrite iter_map_perm. apply NoDup_fst_map_to_list.
  - intros a. rewrite list_elem_of_fmap, elem_of_verts, <- indegrees_dom. unfold deg.
    setoid_rewrite list_elem_of_filter. setoid_rewrite iter_map_perm. split.
    + intros ([k v] & -> & Hv & Hk%elem_of_map_to_list). simpl in *. rewrite Hk. split; [by eexists|done].
    + intros [[v Hv] Hz]. rewrite Hv in Hz. simpl in Hz. exists (a, v). split; [done|]. split; [done|].
      by apply elem_of_map_to_list.
Qed.

Lemma graph_has_no_cycle_spec :
  graph_has_no_cycle graph = true <-> exists l, l ≡ₚ verts /\ ordered l.
Proof.
  unfold graph_has_no_cycle.
  destruct (kahn_count_spec (size graph) _ _ _ _ count_inv_init) as (m & emitted & rest & Hinv & Hk).
  { by rewrite length_verts. }
  simpl in Hk. rewrite Hk. destruct Hinv as [Hp Hd _ Hr Ho]. rewrite Nat.eqb_eq, <- length_verts, <- Hp, length_app.
  split.
  - intros Hl. assert (rest = []) as -> by (destruct rest; [done|simpl in Hl; lia]).
    exists emitted. by rewrite app_nil_r in Hp.
  - intros (l & Hlp & Hlo). enough (rest = []) as -> by (simpl; lia).
    assert (forall pre post, l = pre ++ post -> forall x, x ∈ pre -> x ∈ emitted) as Hall.
    { induction pre as [|x pre IH] using rev_ind; [set_solver|]. intros post E y.
      rewrite <- app_assoc in E. specialize (IH _ E). rewrite elem_of_app, list_elem_of_singleton.
      intros [| ->]; [auto|].
      assert (x ∈ emitted ++ rest) as [|Hx]%elem_of_app; [rewrite Hp, <- Hlp, E; set_solver|done|].
      assert (x ∈ []) as Hbad%not_elem_of_nil; [|done]. apply Hr. split; [done|].
      rewrite Hd, inc_zero. intros y Hy He. assert (y ∈ emitted) as Hye by (apply IH, (Hlo pre x post); done).
      assert (NoDup (emitted ++ rest)) as (_ & Hdis & _)%NoDup_app by (rewrite Hp; apply NoDup_verts).
      by apply (Hdis y). }
    destruct rest as [|x rest]; [done|]. exfalso.
    assert (x ∈ emitted) as Hx.
    { apply (Hall l []); [by rewrite app_nil_r|]. rewrite Hlp, <- Hp. set_solver. }
    assert (NoDup (emitted ++ x :: rest)) as (_ & Hdis & _)%NoDup_app by (rewrite Hp; apply NoDup_verts).
    apply (Hdis x Hx). by left.
Qed.

Lemma NoDup_split_unique {A} (x : A) p1 s1 p2 s2 :
  NoDup (p1 ++ x :: s1) -> p1 ++ x :: s1 = p2 ++ x :: s2 -> p1 = p2.
Proof.
  revert p2. induction p1 as [|a p1 IH]; intros [|b p2]; simpl; intros Hnd E; [done|..].
  - simplify_eq. exfalso. apply NoDup_cons in Hnd as [Hn _]. set_solver.
  - simplify_eq. exfalso. apply NoDup_cons in Hnd as [Hn _]. set_solver.
  - simplify_eq. f_equal. apply IH; [|done]. by apply NoDup_cons in Hnd as [_ ?].
Qed.

(** Vertices of an ordered list reach only later ones. *)
Lemma ordered_tc l x y : NoDup l -> ordered l -> (forall v, v ∈ dom graph -> v ∈ l) ->
  tc gedge x y -> exists pre post, l = pre ++ y :: post /\ x ∈ pre.
Proof.
  intros Hnd Ho Hall. assert (forall a b, gedge a b -> exists pre post, l = pre ++ b :: post /\ a ∈ pre) as Hone.
  { intros a b Hab. destruct (list_elem_of_split l b) as (pre & post & E); [by apply Hall, (graph_closed a)|].
    exists pre, post. split; [done|]. by apply (Ho pre b post). }
  induction 1 as [x y Hxy|x y z Hxy _ (pre & post & E & Hy)]; [auto|].
  exists pre, post. split; [done|].
  destruct (Hone x y Hxy) as (pre' & post' & E' & Hx).
  apply list_elem_of_split in Hy as (p1 & p2 & ->).
  rewrite E in E', Hnd. rewrite <- app_assoc in E'. simpl in E'.
  rewrite <- app_assoc in Hnd. simpl in Hnd.
  by rewrite <- (NoDup_split_unique _ _ _ _ _ Hnd E') in Hx; set_solver.
Qed.

Lemma graph_has_no_cycle_acyclic x : graph_has_no_cycle graph = true -> ~ tc gedge x x.
Proof.
  intros (l & Hp & Ho)%graph_has_no_cycle_spec Hx.
  assert (NoDup l) as Hnd by (rewrite Hp; apply NoDup_verts).
  destruct (ordered_tc l x x Hnd Ho) as (pre & post & -> & Hin); [|done|].
  - intros v Hv. rewrite Hp. by apply elem_of_verts.
  - apply NoDup_app in Hnd as (_ & Hdis & _). apply (Hdis x Hin). by left.
Qed.
End Acyclic.

(** * The backward search *)

Section Backward.
Context `{IterationOrder} (graph : Graph) (roots : gset string).

Definition preds (reverse : Graph) (a : string) : list string := default [] (reverse !! a).

Lemma reverse_inner ancestors id (m : Graph) x a :
  x ∈ preds (foldl (fun m ancestor => <[ancestor := default [] (m !! ancestor) ++ [id]]> m) m ancestors) a
  <-> x ∈ preds m a \/ (x = id /\ a ∈ ancestors).
Proof.
  revert m. induction ancestors as [|b l IH]; intros m; simpl; [set_solver|].
  rewrite IH. unfold preds. destruct (decide (a = b)) as [->|Hne].
  - rewrite lookup_insert_eq. simpl. set_solver.
  - rewrite lookup_insert_ne by done. set_solver.
Qed.

Lemma reverse_edges_spec x a : x ∈ preds (reverse_edges graph) a <-> gedge graph x a.
Proof.
  assert (forall (l : list (string * list string)) m,
    x ∈ preds (foldl (fun m '(id, ancestors) =>
      foldl (fun m ancestor => <[ancestor := default [] (m !! ancestor) ++ [id]]> m) m ancestors) m l) a
    <-> x ∈ preds m a \/ exists ns, (x, ns) ∈ l /\ a ∈ ns) as Hfold.
  { induction l as [|[id ns] l IH]; intros m; simpl; [set_solver|].
    rewrite IH, reverse_inner. setoid_rewrite elem_of_cons. naive_solver. }
  unfold reverse_edges. rewrite Hfold. unfold preds at 1. rewrite lookup_empty. simpl.
  unfold gedge, nb. setoid_rewrite iter_map_perm. setoid_rewrite elem_of_map_to_list.
  destruct (graph !! x) as [ns|]; simpl; split; set_solver.
Qed.

Lemma mark_new_spec (U : gset string) ps sub queue sub' queue' :
  mark_new ps sub queue = (sub', queue') -> (forall p, p ∈ ps -> p ∈ U) ->
  (forall x, x ∈ sub' <-> x ∈ sub \/ x ∈ ps)
  /\ (forall x, x ∈ queue' <-> x ∈ queue \/ (x ∈ ps /\ x ∉ sub))
  /\ length queue' + size (U ∖ sub') = length queue + size (U ∖ sub).
Proof.
  revert sub queue. induction ps as [|p ps IH]; intros sub queue; simpl.
  { intros [= <- <-] _. split; [set_solver|]. split; [set_solver|done]. }
  intros Hm HU. case_bool_decide as Hp.
  - destruct (IH _ _ Hm) as (H1 & H2 & H3); [set_solver|]. split; [set_solver|]. split; [set_solver|done].
  - destruct (IH _ _ Hm) as (H1 & H2 & H3); [set_solver|]. split; [set_solver|]. split.
    + intros x. rewrite H2, elem_of_app, list_elem_of_singleton, elem_of_cons, elem_of_union, elem_of_singleton.
      destruct (decide (x = p)) as [->|]; naive_solver.
    + rewrite H3, length_app. rewrite (size_remove_one U sub p) by set_solver. simpl. lia.
Qed.

(** [x] reaches a root. *)
Definition leads (x : string) : Prop := exists r, r ∈ roots /\ rtc (gedge graph) x r.

Lemma reach_back_spec fuel sub queue :
  (forall x, x ∈ sub -> leads x) -> (forall x, x ∈ queue -> x ∈ sub) -> roots ⊆ sub ->
  (forall x y, y ∈ sub -> y ∉ queue -> gedge graph x y -> x ∈ sub) ->
  length queue + size ((roots ∪ dom graph) ∖ sub) <= fuel ->
  forall x, x ∈ reach_back fuel (reverse_edges graph) sub queue <-> leads x.
Proof.
  assert (forall sub, (forall x, x ∈ sub -> leads x) -> roots ⊆ sub ->
    (forall x y, y ∈ sub -> gedge graph x y -> x ∈ sub) -> forall x, x ∈ sub <-> leads x) as Hdone.
  { intros s Hs Hr Hc x. split; [auto|]. intros (r & Hroot & Hp).
    induction Hp as [|x y z Hxy _ IH]; [by apply Hr|]. apply (Hc x y); [by apply IH|done]. }
  revert sub queue. induction fuel as [|fuel IH]; intros sub [|id rest] Hs Hq Hr Hc Hf; simpl.
  1,3: apply Hdone; [done..|]; intros x y Hy Hxy; apply (Hc x y); [done|set_solver|done].
  - simpl in Hf. lia.
  - fold (preds (reverse_edges graph) id).
    destruct (mark_new (preds (reverse_edges graph) id) sub rest) as [sub' queue'] eqn:E.
    destruct (mark_new_spec (roots ∪ dom graph) _ _ _ _ _ E) as (H1 & H2 & H3).
    { intros p Hp%reverse_edges_spec. apply elem_of_union. right. exact (gedge_dom _ _ _ Hp). }
    assert (id ∈ sub) as Hid by (apply Hq; by left).
    apply IH.
    + intros x [Hx|Hx%reverse_edges_spec]%H1; [auto|]. destruct (Hs id Hid) as (r & ? & ?).
      exists r. split; [done|]. by eapply rtc_l.
    + intros x [Hx|[Hx _]]%H2; apply H1; [left; apply Hq; by right|by right].
    + intros x Hx. apply H1. left. by apply Hr.
    + intros x y Hy Hyq Hxy. apply H1. destruct (decide (y = id)) as [->|Hne].
      { right. by apply reverse_edges_spec. }
      left. apply H1 in Hy as [Hy|Hy].
      * apply (Hc x y); [done| |done]. intros [->|Hyr]%elem_of_cons; [done|]. apply Hyq, H2. by left.
      * destruct (decide (y ∈ sub)) as [Hys|Hys].
        -- apply (Hc x y); [done| |done]. intros [->|Hyr]%elem_of_cons; [done|]. apply Hyq, H2. by left.
        -- destruct Hyq. apply H2. by right.
    + simpl in Hf. lia.
Qed.
End Backward.

Section Subgraph.
Context `{IterationOrder}.

Lemma elem_of_iter_set s x : x ∈ iter_set s <-> x ∈ s.
Proof. rewrite iter_set_perm. apply elem_of_elements. Qed.

Lemma explore_inv_init content roots : explore_inv content roots (iter_set roots) ∅.
Proof.
  split.
  - done.
  - intros x [Hx%elem_of_iter_set|Hx]; [|set_solver]. exists x. split; [done|reflexivity].
  - intros x Hx. left. by apply elem_of_iter_set.
  - set_solver.
Qed.

Lemma explored_gedge content roots graph x y : explored content roots graph -> x ∈ dom graph ->
  gedge graph x y <-> edge content x y.
Proof.
  intros (Hg & _ & _) [ns Hns]%elem_of_dom. unfold gedge, nb. rewrite Hns. simpl.
  by apply (graph_of_edge content graph).
Qed.

Lemma explored_gedge_any content roots graph x y : explored content roots graph ->
  gedge graph x y -> edge content x y /\ x ∈ dom graph /\ y ∈ dom graph.
Proof.
  intros He Hxy. pose proof (gedge_dom _ _ _ Hxy) as Hx.
  apply (explored_gedge _ _ _ _ _ He Hx) in Hxy. split; [done|]. split; [done|]. by eapply He.
Qed.

Lemma explored_rtc content roots graph x y : explored content roots graph -> x ∈ dom graph ->
  rtc (edge content) x y -> rtc (gedge graph) x y.
Proof.
  intros He Hx Hp. induction Hp as [|x y z Hxy _ IH]; [done|]. eapply rtc_l.
  - by apply (explored_gedge _ _ _ _ _ He Hx).
  - apply IH. by eapply He.
Qed.

Lemma explored_tc content roots graph x y : explored content roots graph -> x ∈ dom graph ->
  tc (edge content) x y -> tc (gedge graph) x y.
Proof.
  intros He Hx Hp. induction Hp as [x y Hxy|x y z Hxy _ IH].
  - apply tc_once. by apply (explored_gedge _ _ _ _ _ He Hx).
  - eapply tc_l; [by apply (explored_gedge _ _ _ _ _ He Hx)|]. apply IH. by eapply He.
Qed.

(** Every vertex a walk reaches is a vertex: the check after the walk passes. *)
Lemma explored_check content roots graph : explored content roots graph ->
  forallb (fun '(_, ancestors) => forallb (fun a => bool_decide (is_Some (graph !! a))) ancestors) (iter_map graph) = true.
Proof.
  intros He. apply forallb_forall. intros [x ns] Hx. apply list_elem_of_In in Hx.
  rewrite iter_map_perm in Hx. apply elem_of_map_to_list in Hx.
  apply forallb_forall. intros a Ha. apply list_elem_of_In in Ha. apply bool_decide_eq_true, elem_of_dom.
  apply (explored_gedge_any content roots graph x a He). unfold gedge, nb. by rewrite Hx.
Qed.
End Subgraph.

(** * Properties *)

Section Properties.
Context `{IterationOrder}.

(** When the conflicted state subgraph is computed it holds exactly the
    events on a path of auth_events that starts and ends in the conflicted set,
    endpoints included, and no event reachable from the conflicted set reaches
    itself. *)
Lemma conflicted_subgraph_correct conflicted_ids src cap subgraph :
  src_ok src -> fst (compute_conflicted_state_subgraph conflicted_ids src cap) = Some subgraph ->
  (forall id, id ∈ subgraph <-> exists a b, a ∈ conflicted_ids /\ b ∈ conflicted_ids
     /\ rtc (edge (resolves src)) a id /\ rtc (edge (resolves src)) id b)
  /\ (forall a id, a ∈ conflicted_ids -> rtc (edge (resolves src)) a id -> ~ tc (edge (resolves src)) id id).
Proof.
  intros Hok. unfold compute_conflicted_state_subgraph. destruct (existsb _ _); [done|].
  pose proof (explore_sound (resolves src) conflicted_ids (S cap) cap (iter_set conflicted_ids) ∅ src) as Hex.
  destruct (explore _ _ _ _ src) as [[graph|] src']; simpl in *; [|done].
  specialize (Hex graph (holds_self _ Hok) (explore_inv_init _ _) eq_refl).
  rewrite (explored_check _ _ _ Hex). simpl.
  destruct (graph_has_no_cycle graph) eqn:Ec; [|done]. simpl. intros [= <-].
  assert (forall x y, gedge graph x y -> y ∈ dom graph) as Hcl
    by (intros x y Hxy; by destruct (explored_gedge_any _ _ _ _ _ Hex Hxy) as (? & ? & ?)).
  assert (forall x y, rtc (gedge graph) x y -> rtc (edge (resolves src)) x y) as Hback.
  { intros x y. apply rtc_subrel. intros a b Hab. by destruct (explored_gedge_any _ _ _ _ _ Hex Hab) as (? & ? & ?). }
  split.
  - intros id. rewrite reach_back_spec; [| | | | |].
    + split.
      * intros (r & Hr & Hp). 
        assert (id ∈ dom graph) as Hid.
        { destruct Hp as [x|x y z Hxy _]; [|by eapply gedge_dom]. apply Hex. exists x. by split. }
        apply Hex in Hid as (a & Ha & Hpa). exists a, r. auto.
      * intros (a & b & Ha & Hb & Hpa & Hpb). exists b. split; [done|].
        apply (explored_rtc _ _ _ _ _ Hex); [|done]. apply Hex. by exists a.
    + intros x Hx. exists x. by split.
    + intros x. by rewrite elem_of_iter_set.
    + done.
    + intros x y Hy Hn. by rewrite elem_of_iter_set in Hn.
    + rewrite (Permutation_length (iter_set_perm conflicted_ids)). change (length (elements ?s)) with (size s).
      apply Nat.add_le_mono_l. rewrite <- (size_dom (D := gset string)). apply subseteq_size. set_solver.
  - intros a id Ha Hp Hc. apply (graph_has_no_cycle_acyclic graph Hcl id Ec).
    assert (id ∈ dom graph) as Hid by (apply Hex; by exists a).
    by apply (explored_tc _ _ _ _ _ Hex).
Qed.

(** The conflicted state subgraph is computed, without a miss, when every
    event reachable from the conflicted set resolves within the budget and the
    cap, has well-formed auth_events, and the events can be arranged so that
    each comes after all those that name it. *)
Lemma conflicted_subgraph_returns conflicted_ids src cap R l :
  serves src R -> size R <= cap -> EmptyString ∉ conflicted_ids ->
  (forall id, reachable (resolves src) conflicted_ids id ->
     id ∈ R /\ id ∈ l /\ is_Some (event_neighbours (resolves src id))) ->
  NoDup l -> (forall id, id ∈ l -> reachable (resolves src) conflicted_ids id) ->
  (forall pre x post y, l = pre ++ x :: post -> reachable (resolves src) conflicted_ids y ->
     edge (resolves src) y x -> y ∈ pre) ->
  exists subgraph src', compute_conflicted_state_subgraph conflicted_ids src cap = (Some subgraph, src')
    /\ src_missing src' = src_missing src.
Proof.
  intros Hs Hcap Hempty HR Hnd Hl Hord. unfold compute_conflicted_state_subgraph.
  pose proof (holds_self _ (srv_ok _ _ Hs)) as Hh.
  assert (existsb empty (iter_set conflicted_ids) = false) as ->.
  { apply not_true_iff_false. intros (x & Hx & He)%existsb_exists. apply list_elem_of_In in Hx.
    apply elem_of_iter_set in Hx. by destruct x. }
  pose proof (explore_sound (resolves src) conflicted_ids (S cap) cap (iter_set conflicted_ids) ∅ src) as Hex.
  destruct (explore_complete (resolves src) conflicted_ids R (S cap) cap (iter_set conflicted_ids) ∅ src)
    as (graph & src' & E & Hm); [done|done|apply explore_inv_init|naive_solver|done|rewrite map_size_empty; lia|].
  rewrite E in Hex |- *. specialize (Hex graph Hh (explore_inv_init _ _) eq_refl).
  rewrite (explored_check _ _ _ Hex). simpl.
  assert (graph_has_no_cycle graph = true) as ->; [|simpl; eauto].
  apply graph_has_no_cycle_spec.
  { intros x y Hxy. by destruct (explored_gedge_any _ _ _ _ _ Hex Hxy) as (? & ? & ?). }
  exists l. split.
  - apply NoDup_Permutation; [done|apply NoDup_verts|]. intros x. rewrite elem_of_verts.
    rewrite (proj1 (proj2 Hex)). naive_solver.
  - intros pre x post E' y Hyx. destruct (explored_gedge_any _ _ _ _ _ Hex Hyx) as (He & Hy & _).
    apply (Hord pre x post y); [done|by apply Hex|done].
Qed.

(** C25. The conflicted subgraph of room version 12 is exact. What is returned is
    the events on some path of auth events between two conflicted ones, and it
    is returned only when no event reachable from them is its own ancestor. And
    it is returned when the source serves every reachable event within the cap,
    each names its auth events properly, and the reachable events can be listed
    with each one after those that name it. *)
Theorem conflicted_subgraph_exact conflicted_ids src cap :
  src_ok src ->
  (forall subgraph, fst (compute_conflicted_state_subgraph conflicted_ids src cap) = Some subgraph ->
     (forall id, id ∈ subgraph <-> exists a b, a ∈ conflicted_ids /\ b ∈ conflicted_ids
        /\ rtc (edge (resolves src)) a id /\ rtc (edge (resolves src)) id b)
     /\ (forall a id, a ∈ conflicted_ids -> rtc (edge (resolves src)) a id ->
           ~ tc (edge (resolves src)) id id))
  /\ (forall R l, serves src R -> size R <= cap -> EmptyString ∉ conflicted_ids ->
        (forall id, reachable (resolves src) conflicted_ids id ->
           id ∈ R /\ id ∈ l /\ is_Some (event_neighbours (resolves src id))) ->
        NoDup l -> (forall id, id ∈ l -> reachable (resolves src) conflicted_ids id) ->
        (forall pre x post y, l = pre ++ x :: post -> reachable (resolves src) conflicted_ids y ->
           edge (resolves src) y x -> y ∈ pre) ->
        exists subgraph src', compute_conflicted_state_subgraph conflicted_ids src cap = (Some subgraph, src')
          /\ src_missing src' = src_missing src).
Proof.
  intros Hok. split.
  - intros subgraph. by apply conflicted_subgraph_correct.
  - intros R l. apply conflicted_subgraph_returns.
Qed.
End Properties.
