(* ===== verification/MainlineOrder.v ===== *)
(** Mainline ordering against its specification: the mainline is the chain of
    power-levels events behind the resolved one, the position of an event is
    that of its closest mainline ancestor, and events are sorted by position
    (farthest first), timestamp and event ID. *)
From S2P Require Import Prelude CppStd JsonValue JsonSerializer RoomVersion Signing EventAuth EventSource StateAuth PowerSort AuthChain PowerOrder.
Open Scope nat_scope.

(** * Specification *)

Section Spec.
Context (content : string -> option Value).

(** The power-levels event among the auth_events: [Some None] when there is
    none, [None] when the event is malformed or an auth event is unknown. *)
Fixpoint pl_entries (entries : Array) (found : option string) : option (option string) :=
  match entries with
  | [] => Some found
  | entry :: rest =>
      id ← auth_entry_event_id entry;
      if empty id then None
      else
        object ← content id ≫= value_is_object;
        type ← string_member object "type";
        state_key ← string_member object "state_key";
        if type =s "m.room.power_levels" then
          match found with
          | Some _ => None
          | None => if empty state_key then pl_entries rest (Some id) else None
          end
        else pl_entries rest found
  end.

Definition pl_parent (event : Object) : option (option string) :=
  auth ← array_member event "auth_events";
  if max_auth_events_per_event <? length auth then None else pl_entries auth None.

(** The chain of power-levels events from one of them back to the first. *)
Inductive pl_chain : string -> Object -> list string -> Prop :=
| chain_last id event : pl_parent event = Some None -> pl_chain id event [id]
| chain_next id event next event' rest : pl_parent event = Some (Some next) ->
    power_levels_object (content next) = Some event' -> pl_chain next event' rest ->
    pl_chain id event (id :: rest).

(** The index on the mainline of the closest power-levels ancestor that is on
    it; [None] when the chain ends without one. *)
Inductive mainline_position (mainline : list string) : Object -> option nat -> Prop :=
| position_on event id i : pl_parent event = Some (Some id) -> mainline_depth mainline id = Some i ->
    mainline_position mainline event (Some i)
| position_off event : pl_parent event = Some None -> mainline_position mainline event None
| position_step event id event' r : pl_parent event = Some (Some id) -> id ∉ mainline ->
    power_levels_object (content id) = Some event' -> mainline_position mainline event' r ->
    mainline_position mainline event r.

(** The mainline of a partially resolved state. *)
Definition mainline_of (resolved : StateMap) (mainline : list string) : Prop :=
  match resolved !! power_levels_key with
  | Some event =>
      if value_has_content (ref_event_json event)
      then exists obj, value_is_object (ref_event_json event) = Some obj
             /\ pl_chain (ref_event_id event) obj mainline
      else mainline = []
  | None => mainline = []
  end.

(** An event and its position; without a mainline every position is infinite. *)
Definition positioned (mainline : list string) (event : StateEventReference) (r : option nat) : Prop :=
  match mainline with
  | [] => r = None
  | _ => exists obj, value_is_object (ref_event_json event) = Some obj /\ mainline_position mainline obj r
  end.

Definition rank (r : option nat) : Z := match r with Some i => Z.of_nat i | None => size_max end.
End Spec.

(** The specification is a function. *)
Lemma mainline_depth_In mainline id i : mainline_depth mainline id = Some i -> mainline !! i = Some id.
Proof.
  revert i. induction mainline as [|p mainline IH]; intros i; simpl; [done|].
  destruct (p =s id) eqn:E; breflect.
  - intros [= <-]. by subst.
  - destruct (mainline_depth mainline id) as [j|]; [|done]. intros [= <-]. simpl. auto.
Qed.

Lemma mainline_depth_None mainline id : mainline_depth mainline id = None -> id ∉ mainline.
Proof.
  induction mainline as [|p mainline IH]; simpl; [set_solver|].
  destruct (p =s id) eqn:E; breflect; [done|]. destruct (mainline_depth mainline id); [done|].
  intros _. rewrite not_elem_of_cons. split; [done|]. by apply IH.
Qed.

Lemma mainline_position_fun content mainline event r r' :
  mainline_position content mainline event r -> mainline_position content mainline event r' -> r = r'.
Proof.
  intros H1. revert r'. induction H1 as [event id i Hp Hd|event Hp|event id event' r Hp Hn Ho _ IH];
    intros r' H2; destruct H2 as [event id2 i2 Hp2 Hd2|event Hp2|event id2 e2 r2 Hp2 Hn2 Ho2 H2];
    simplify_eq; try done.
  - by apply mainline_depth_In, list_elem_of_lookup_2 in Hd.
  - by apply mainline_depth_In, list_elem_of_lookup_2 in Hd2.
  - by apply IH.
Qed.

(** * The walk over power-levels ancestors *)

Lemma pl_entries_sound content entries found src r :
  holds src content -> fst (power_levels_entries entries found src) = Some r ->
  pl_entries content entries found = Some r.
Proof.
  revert found src. induction entries as [|entry entries IH]; intros found src Hh; simpl; [done|].
  destruct (auth_entry_event_id entry) as [id|]; [|done]. simpl. destruct (empty id); [done|].
  pose proof (find_required_extends id src) as He.
  pose proof (holds_find_required src content id) as Hr.
  destruct (find_required id src) as [[v|] src']; simpl in *; [|done].
  rewrite (Hr v Hh eq_refl). simpl. pose proof (holds_extends _ _ _ He Hh) as Hh'.
  destruct (value_is_object v) as [o|]; [|done]. simpl.
  destruct (string_member o "type") as [t|]; [|done].
  destruct (string_member o "state_key") as [k|]; [|done]. simpl.
  destruct (t =s "m.room.power_levels"); [|by apply IH].
  destruct found; [done|]. destruct (empty k); [|done]. by apply IH.
Qed.

Lemma power_levels_entries_extends entries found src :
  extends src (snd (power_levels_entries entries found src)).
Proof.
  revert found src. induction entries as [|entry entries IH]; intros found src; simpl; [reflexivity|].
  destruct (auth_entry_event_id entry) as [id|]; [|reflexivity]. destruct (empty id); [reflexivity|].
  pose proof (find_required_extends id src) as He.
  destruct (find_required id src) as [json src']; simpl in *.
  repeat (case_match; try done); (etrans; [exact He|apply IH]).
Qed.

Lemma pl_parent_sound content event src r :
  holds src content -> fst (power_levels_auth_ancestor event src) = Some r -> pl_parent content event = Some r.
Proof.
  intros Hh. unfold power_levels_auth_ancestor, pl_parent.
  destruct (array_member event "auth_events") as [auth|]; [|done]. simpl.
  destruct (_ <? _); [done|]. by apply pl_entries_sound.
Qed.

Lemma pl_ancestor_extends event src : extends src (snd (power_levels_auth_ancestor event src)).
Proof.
  unfold power_levels_auth_ancestor. destruct (array_member event "auth_events") as [auth|]; [|reflexivity].
  destruct (_ <? _); [reflexivity|]. apply power_levels_entries_extends.
Qed.

Lemma collect_loop_extends fuel id current visited src : extends src (snd (collect_loop fuel id current visited src)).
Proof.
  revert id current visited src. induction fuel as [|fuel IH]; intros id current visited src; simpl; [reflexivity|].
  case_bool_decide; [reflexivity|].
  pose proof (pl_ancestor_extends current src) as He.
  destruct (power_levels_auth_ancestor current src) as [[[next|]|] src1]; simpl in *; [|done..].
  destruct (fuel =? 0); [done|].
  pose proof (find_required_extends next src1) as He1.
  destruct (find_required next src1) as [json src2]; simpl in *.
  destruct (power_levels_object json) as [nxt|]; [|by etrans].
  specialize (IH next nxt ({[id]} ∪ visited) src2).
  destruct (collect_loop _ _ _ _ src2) as [[ids|] src3]; simpl in *; by do 2 (etrans; [eassumption|]).
Qed.

Lemma collect_loop_sound content fuel id current visited src ids :
  holds src content -> fst (collect_loop fuel id current visited src) = Some ids ->
  pl_chain content id current ids /\ NoDup ids /\ (forall x, x ∈ ids -> x ∉ visited) /\ length ids <= fuel.
Proof.
  revert id current visited src ids. induction fuel as [|fuel IH]; intros id current visited src ids Hh; simpl; [done|].
  case_bool_decide as Hv; [done|].
  pose proof (pl_ancestor_extends current src) as He.
  pose proof (pl_parent_sound content current src) as Hp.
  destruct (power_levels_auth_ancestor current src) as [[[next|]|] src1]; simpl in *; [| |done].
  2: { intros [= <-]. split; [constructor; by apply Hp|]. split; [apply NoDup_singleton|].
       split; [set_solver|simpl; lia]. }
  specialize (Hp _ Hh eq_refl). pose proof (holds_extends _ _ _ He Hh) as Hh1.
  destruct (fuel =? 0); [done|].
  pose proof (find_required_extends next src1) as He1.
  pose proof (holds_find_required src1 content next) as Hf.
  destruct (find_required next src1) as [json src2]; simpl in *.
  destruct (power_levels_object json) as [nxt|] eqn:Eo; [|done].
  assert (power_levels_object (content next) = Some nxt) as Ho.
  { destruct json as [v|]; [|done]. by rewrite (Hf v Hh1 eq_refl). }
  specialize (IH next nxt ({[id]} ∪ visited) src2).
  destruct (collect_loop _ _ _ _ src2) as [[rest|] src3]; simpl in *; [|done]. intros [= <-].
  destruct (IH rest (holds_extends _ _ _ He1 Hh1) eq_refl) as (H1 & H2 & H3 & H4).
  split; [by eapply chain_next|]. split; [constructor; set_solver|].
  split; [intros x [->|Hx]%elem_of_cons; set_solver|simpl; lia].
Qed.

Lemma position_loop_extends hops mainline current visited src :
  extends src (snd (position_loop hops mainline current visited src)).
Proof.
  revert current visited src. induction hops as [|hops IH]; intros current visited src; simpl; [reflexivity|].
  pose proof (pl_ancestor_extends current src) as He.
  destruct (power_levels_auth_ancestor current src) as [[[id|]|] src1]; simpl in *; [|done..].
  destruct (mainline_depth mainline id); [done|]. case_bool_decide; [done|].
  pose proof (find_required_extends id src1) as He1.
  destruct (find_required id src1) as [json src2]; simpl in *.
  destruct (power_levels_object json) as [o|]; [|by etrans].
  do 2 (etrans; [eassumption|]). apply IH.
Qed.

Lemma position_loop_sound content hops mainline current visited src p :
  holds src content -> fst (position_loop hops mainline current visited src) = Some p ->
  exists r, mainline_position content mainline current r /\ p = rank r.
Proof.
  revert current visited src. induction hops as [|hops IH]; intros current visited src Hh; simpl; [done|].
  pose proof (pl_ancestor_extends current src) as He.
  pose proof (pl_parent_sound content current src) as Hp.
  destruct (power_levels_auth_ancestor current src) as [[[id|]|] src1]; simpl in *; [| |done].
  2: { intros [= <-]. exists None. split; [constructor; by apply Hp|done]. }
  specialize (Hp _ Hh eq_refl). pose proof (holds_extends _ _ _ He Hh) as Hh1.
  destruct (mainline_depth mainline id) as [i|] eqn:Ed.
  { intros [= <-]. exists (Some i). split; [by eapply position_on|done]. }
  case_bool_decide; [done|].
  pose proof (find_required_extends id src1) as He1.
  pose proof (holds_find_required src1 content id) as Hf.
  destruct (find_required id src1) as [json src2]; simpl in *.
  destruct (power_levels_object json) as [o|] eqn:Eo; [|done].
  intros (r & Hr & ->)%IH; [|by apply (holds_extends src1)]. exists r. split; [|done].
  eapply position_step; [done|by apply mainline_depth_None| |done].
  destruct json as [v|]; [|done]. by rewrite (Hf v Hh1 eq_refl).
Qed.

(** * Positions *)

Lemma event_position_extends limits mainline event src :
  extends src (snd (event_position limits mainline event src)).
Proof.
  unfold event_position. destruct mainline; [reflexivity|].
  destruct (value_is_object _); [|reflexivity]. apply position_loop_extends.
Qed.

Lemma event_position_sound content limits mainline event src p :
  holds src content -> fst (event_position limits mainline event src) = Some p ->
  exists r, positioned content mainline event r /\ p = rank r.
Proof.
  intros Hh. unfold event_position, positioned. destruct mainline as [|m mainline].
  { intros [= <-]. by exists None. }
  destruct (value_is_object _) as [obj|]; [|done].
  intros (r & Hr & ->)%(position_loop_sound content); [|done]. exists r. eauto.
Qed.

(** Every event's entry of the table is the rank of its position. *)
Definition table_ok (content : string -> option Value) (mainline : list string) (table : gmap string Z)
    (event : StateEventReference) : Prop :=
  exists r, positioned content mainline event r /\ table !! ref_event_id event = Some (rank r).

Lemma positions_sound content limits mainline events table src table' :
  holds src content -> NoDup (ref_event_id <$> events) ->
  (forall event, event ∈ events -> table !! ref_event_id event = None) ->
  fst (positions limits mainline events table src) = Some table' ->
  (forall id p, table !! id = Some p -> table' !! id = Some p)
  /\ Forall (table_ok content mainline table') events.
Proof.
  revert table src. induction events as [|event events IH]; intros table src Hh Hnd Hfresh; csimpl.
  { intros [= <-]. by split; [|constructor]. }
  csimpl in Hnd. apply NoDup_cons in Hnd as [Hid Hnd].
  pose proof (event_position_extends limits mainline event src) as He.
  pose proof (event_position_sound content limits mainline event src) as Hs.
  destruct (event_position limits mainline event src) as [[p|] src']; simpl in *; [|done].
  destruct (Hs p Hh eq_refl) as (r & Hr & ->). rewrite Hfresh by set_solver. intros Hp.
  edestruct (IH (<[ref_event_id event := rank r]> table) src') as [H1 H2];
    [by apply (holds_extends src)|done| |exact Hp|].
  - intros e Hee. rewrite lookup_insert_ne; [apply Hfresh; by right|].
    intros E. apply Hid, list_elem_of_fmap. eauto.
  - split.
    + intros id q Hq. apply H1. rewrite lookup_insert_ne; [done|]. intros <-.
      rewrite Hfresh in Hq by set_solver. done.
    + constructor; [|done]. exists r. split; [done|]. apply H1. apply lookup_insert_eq.
Qed.

Lemma pl_chain_fun content id event l l' : pl_chain content id event l -> pl_chain content id event l' -> l = l'.
Proof.
  intros H1. revert l'. induction H1 as [id event Hp|id event next event' rest Hp Ho _ IH];
    intros l' H2; destruct H2 as [id event Hp2|id event next2 e2 rest2 Hp2 Ho2 H2]; simplify_eq; [done|].
  f_equal. by apply IH.
Qed.

Lemma mainline_of_fun content resolved m m' : mainline_of content resolved m -> mainline_of content resolved m' -> m = m'.
Proof.
  unfold mainline_of. destruct (resolved !! power_levels_key) as [event|]; [|congruence].
  destruct (value_has_content _); [|congruence].
  intros (o & Ho & H1) (o' & Ho' & H2). simplify_eq. by eapply pl_chain_fun.
Qed.

Lemma positioned_fun content mainline event r r' :
  positioned content mainline event r -> positioned content mainline event r' -> r = r'.
Proof.
  unfold positioned. destruct mainline; [congruence|].
  intros (o & Ho & H1) (o' & Ho' & H2). simplify_eq. by eapply mainline_position_fun.
Qed.

Lemma resolved_mainline_sound content resolved src limits mainline :
  holds src content -> fst (resolved_mainline resolved src limits) = Some mainline ->
  mainline_of content resolved mainline /\ NoDup mainline
  /\ length mainline <= max_mainline_auth_chain_depth limits
  /\ extends src (snd (resolved_mainline resolved src limits)).
Proof.
  intros Hh. unfold resolved_mainline, mainline_of.
  assert (NoDup (A := string) [] /\ length (A := string) [] <= max_mainline_auth_chain_depth limits) as [Hn Hl]
    by (split; [constructor|simpl; lia]).
  destruct (resolved !! power_levels_key) as [event|]; [|by intros [= <-]].
  destruct (value_has_content _); [|by intros [= <-]]. unfold collect_mainline_power_events.
  destruct (value_is_object _) as [obj|]; [|done]. destruct (empty _); [done|].
  intros Hc. destruct (collect_loop_sound content _ _ _ _ _ _ Hh Hc) as (H1 & H2 & _ & H4).
  split; [eauto|]. split; [done|]. split; [done|]. apply collect_loop_extends.
Qed.

(** * The order *)

(** A candidate whose power is the position: the two comparators agree. *)
Definition at_position (table : gmap string Z) (event : StateEventReference) : Candidate :=
  mkCandidate event (default size_max (table !! ref_event_id event)).

Lemma mainline_before_precedes table a b :
  mainline_before table a b = precedes (at_position table a) (at_position table b).
Proof. reflexivity. Qed.

(** Not after: farther on the mainline, or as far and earlier, or as early and
    with an ID no greater. *)
Definition mainline_le (content : string -> option Value) (mainline : list string)
    (a b : StateEventReference) : Prop :=
  exists ra rb, positioned content mainline a ra /\ positioned content mainline b rb /\
    ((rank rb < rank ra)%Z \/ rank ra = rank rb /\
      ((ref_origin_server_ts a < ref_origin_server_ts b)%Z \/
       ref_origin_server_ts a = ref_origin_server_ts b /\ (ref_event_id b <s ref_event_id a) = false)).

Lemma not_after_mainline_le content mainline table a b :
  table_ok content mainline table a -> table_ok content mainline table b ->
  not_after (mainline_before table) a b <-> mainline_le content mainline a b.
Proof.
  intros (ra & Ha & Ta) (rb & Hb & Tb). unfold not_after, mainline_le. rewrite mainline_before_precedes.
  rewrite <- not_true_iff_false, precedes_spec. unfold at_position, cand_id. simpl. rewrite Ta, Tb. simpl.
  split.
  - intros Hn. exists ra, rb. split; [done|]. split; [done|].
    destruct (ref_event_id b <s ref_event_id a); [|lia].
    assert (rank rb = rank ra -> ref_origin_server_ts b <> ref_origin_server_ts a) by naive_solver. lia.
  - intros (ra' & rb' & Ha' & Hb' & Hle).
    rewrite <- (positioned_fun _ _ _ _ _ Ha Ha'), <- (positioned_fun _ _ _ _ _ Hb Hb') in Hle.
    destruct (ref_event_id b <s ref_event_id a); [|lia].
    intros [|[? [|[]]]]; destruct Hle as [|[? [|[]]]]; try lia; done.
Qed.

Lemma mainline_sort_sorted table events :
  StronglySorted (not_after (mainline_before table)) (sort_by (mainline_before table) events).
Proof.
  apply (sort_by_sorted _ (fun _ => True)).
  - intros a b _ _. rewrite !mainline_before_precedes. apply precedes_asym.
  - intros a b c _ _ _. unfold not_after. rewrite !mainline_before_precedes. intros H1 H2.
    apply not_true_iff_false. intros [H|H]%(precedes_split _ (at_position table b)); congruence.
  - by apply Forall_forall.
Qed.

Lemma mainline_le_antisym content mainline a b :
  mainline_le content mainline a b -> mainline_le content mainline b a -> ref_event_id a = ref_event_id b.
Proof.
  intros (ra & rb & Ha & Hb & Hab) (rb' & ra' & Hb' & Ha' & Hba).
  rewrite <- (positioned_fun _ _ _ _ _ Ha Ha'), <- (positioned_fun _ _ _ _ _ Hb Hb') in Hba.
  destruct Hab as [|[? [|[? H1]]]], Hba as [|[? [|[? H2]]]]; try lia. by apply string_ltb_total.
Qed.

Lemma NoDup_ids_inj (events : list StateEventReference) a b :
  NoDup (ref_event_id <$> events) -> a ∈ events -> b ∈ events -> ref_event_id a = ref_event_id b -> a = b.
Proof.
  intros Hnd [i Hi]%list_elem_of_lookup [j Hj]%list_elem_of_lookup E.
  enough (i = j) by congruence. apply (NoDup_lookup _ _ _ (ref_event_id a) Hnd).
  - by rewrite list_lookup_fmap, Hi.
  - by rewrite list_lookup_fmap, Hj, E.
Qed.

Lemma mainline_order_sound content events resolved src limits sorted :
  holds src content -> NoDup (ref_event_id <$> events) ->
  fst (mainline_order_with_source events resolved src limits) = Some sorted ->
  exists mainline, mainline_of content resolved mainline /\ NoDup mainline
    /\ length mainline <= max_mainline_auth_chain_depth limits
    /\ sorted ≡ₚ events /\ StronglySorted (mainline_le content mainline) sorted.
Proof.
  intros Hh Hnd. unfold mainline_order_with_source.
  pose proof (resolved_mainline_sound content resolved src limits) as Hm.
  destruct (resolved_mainline resolved src limits) as [[mainline|] src1]; simpl in *; [|done].
  destruct (Hm mainline Hh eq_refl) as (H1 & H2 & H3 & He).
  pose proof (positions_sound content limits mainline events ∅ src1) as Hp.
  destruct (positions limits mainline events ∅ src1) as [[table|] src2]; simpl in *; [|done].
  destruct (Hp table (holds_extends _ _ _ He Hh) Hnd) as [_ Hok]; [done|done|].
  destruct (src_missing src2); [done|]. intros [= <-].
  exists mainline. do 3 (split; [done|]). split; [apply sort_by_perm|].
  assert (Forall (table_ok content mainline table) (sort_by (mainline_before table) events)) as Hok'
    by (by rewrite sort_by_perm).
  pose proof (mainline_sort_sorted table events) as Hs. revert Hok' Hs.
  generalize (sort_by (mainline_before table) events) as l. clear -content. intros l Hl Hs.
  induction Hs as [|a l Hs IH Ha]; [constructor|]. apply Forall_cons in Hl as [Hok Hl].
  constructor; [by apply IH|]. rewrite Forall_forall in Ha, Hl |- *.
  intros b Hb. by apply (not_after_mainline_le _ _ table); auto.
Qed.

(** * Properties *)

(** When the mainline ordering succeeds it returns the events it was given,
    all of them once, ordered by the position of their closest mainline ancestor
    (farthest first, no ancestor before all), then timestamp, then event ID,
    where the mainline is the duplicate-free chain of power-levels events behind
    the resolved one, no longer than the configured depth. *)
Lemma mainline_order_correct events resolved src limits sorted :
  src_ok src -> NoDup (ref_event_id <$> events) ->
  fst (mainline_order_with_source events resolved src limits) = Some sorted ->
  exists mainline, mainline_of (resolves src) resolved mainline /\ NoDup mainline
    /\ length mainline <= max_mainline_auth_chain_depth limits
    /\ sorted ≡ₚ events /\ StronglySorted (mainline_le (resolves src) mainline) sorted.
Proof. intros Hok. by apply mainline_order_sound, holds_self. Qed.

(** The mainline ordering is a function of the events, the resolved state and
    what the source can resolve: neither the order of the events nor the lookups
    already made change it. *)
Lemma mainline_order_unique events1 events2 resolved src1 src2 limits sorted1 sorted2 :
  src_ok src1 -> src_ok src2 -> (forall id, resolves src1 id = resolves src2 id) ->
  NoDup (ref_event_id <$> events1) -> events1 ≡ₚ events2 ->
  fst (mainline_order_with_source events1 resolved src1 limits) = Some sorted1 ->
  fst (mainline_order_with_source events2 resolved src2 limits) = Some sorted2 -> sorted1 = sorted2.
Proof.
  intros Hok1 Hok2 Hsame Hnd Hp H1 H2.
  destruct (mainline_order_sound (resolves src2) _ _ _ _ _ (conj Hok1 Hsame) Hnd H1)
    as (m1 & M1 & _ & _ & P1 & S1).
  destruct (mainline_order_sound (resolves src2) events2 resolved src2 limits sorted2)
    as (m2 & M2 & _ & _ & P2 & S2); [by split|by rewrite <- Hp|done|].
  rewrite (mainline_of_fun _ _ _ _ M2 M1) in S2.
  apply (StronglySorted_unique_strong (mainline_le (resolves src2) m1)); [|done..|by rewrite P1, P2].
  intros a b Ha Hb Hab Hba. apply (NoDup_ids_inj events1); [done|by rewrite <- P1|by rewrite Hp, <- P2|].
  by eapply mainline_le_antisym.
Qed.

(** C26. The mainline ordering is exact. What it returns is the events sorted by
    how deep in the mainline of the resolved power levels they are rooted, then
    by timestamp, then by ID; the mainline has no event twice and no more than
    the limit; and two runs whose sources resolve the same IDs agree, whatever
    the order of their input and whatever their sources have cached. *)
Theorem mainline_order_exact events resolved src limits sorted :
  src_ok src -> NoDup (ref_event_id <$> events) ->
  fst (mainline_order_with_source events resolved src limits) = Some sorted ->
  (exists mainline, mainline_of (resolves src) resolved mainline /\ NoDup mainline
     /\ length mainline <= max_mainline_auth_chain_depth limits
     /\ sorted ≡ₚ events /\ StronglySorted (mainline_le (resolves src) mainline) sorted)
  /\ (forall permuted src' sorted', events ≡ₚ permuted -> src_ok src' ->
        (forall id, resolves src id = resolves src' id) ->
        fst (mainline_order_with_source permuted resolved src' limits) = Some sorted' ->
        sorted = sorted').
Proof.
  intros Hok Hnd Hs. split; [by apply mainline_order_correct|].
  intros permuted src' sorted' Hp Hok' Hsame Hs'. by apply (mainline_order_unique events permuted resolved src src' limits).
Qed.
