(* ===== verification/Partition.v ===== *)
(** The partition of the submitted state into unconflicted and conflicted keys,
    the request limits and the version 1 winner, against their specifications. *)
From S2P Require Import Prelude CppStd JsonValue JsonSerializer RoomVersion Signing EventAuth EventSource StateGraph StateAuth PowerSort StateRes.
Open Scope nat_scope.

(** * Limits *)

Definition total_events (groups : list StateGroup) : nat := sum_list ((fun g => length (state g)) <$> groups).

Lemma validate_groups_None limits groups total : total <= max_total_state_events limits ->
  validate_groups limits groups total = None <->
  Forall (fun g => length (state g) <= max_events_per_state_group limits) groups
  /\ total + total_events groups <= max_total_state_events limits.
Proof.
  revert total. induction groups as [|g groups IH]; intros total Ht; unfold total_events; csimpl.
  { split; [intros _; split; [constructor|lia]|done]. }
  fold (total_events groups). rewrite Forall_cons.
  destruct (Nat.ltb_spec (max_events_per_state_group limits) (length (state g))); [split; [done|lia]|].
  destruct (Nat.ltb_spec (max_total_state_events limits) total); [lia|]. simpl.
  destruct (Nat.ltb_spec (max_total_state_events limits - total) (length (state g))); [split; [done|lia]|].
  rewrite IH by lia. split; intros [? ?]; (split; [tauto|lia]).
Qed.

(** * The tally *)

(** The events in the order they are visited, with the index of their group. *)
Definition numbered (start : nat) (groups : list StateGroup) : list (nat * StateEventReference) :=
  concat (imap (fun i g => pair (start + i) <$> state g) groups).

Lemma numbered_cons start g groups :
  numbered start (g :: groups) = (pair start <$> state g) ++ numbered (S start) groups.
Proof.
  unfold numbered. csimpl. rewrite Nat.add_0_r. f_equal. f_equal. apply imap_ext. intros i x _. simpl.
  by rewrite Nat.add_succ_r.
Qed.

Lemma elem_of_numbered start groups i e :
  (i, e) ∈ numbered start groups <-> start <= i /\ exists g, groups !! (i - start) = Some g /\ e ∈ state g.
Proof.
  revert start. induction groups as [|g groups IH]; intros start.
  { split; [by intros ?%not_elem_of_nil|]. intros (_ & g & Hg & _). by rewrite lookup_nil in Hg. }
  rewrite numbered_cons, elem_of_app, IH, list_elem_of_fmap. split.
  - intros [(e' & [= -> ->] & He)|(Hi & g' & Hg & He)].
    + split; [lia|]. exists g. by rewrite Nat.sub_diag.
    + split; [lia|]. exists g'. replace (i - start) with (S (i - S start)) by lia. done.
  - intros (Hi & g' & Hg & He). destruct (decide (i = start)) as [->|Hne].
    + rewrite Nat.sub_diag in Hg. simpl in Hg. simplify_eq. left. eauto.
    + right. split; [lia|]. exists g'. replace (i - start) with (S (i - S start)) in Hg by lia. done.
Qed.

Definition tally_pair (tallies : gmap StateKey KeyTally) (p : nat * StateEventReference) : gmap StateKey KeyTally :=
  tally_event p.1 p.2 tallies.

(** When the limit is not hit the loops are a fold over the numbered events. *)
Lemma tally_group_fold limits i events tallies tallies' :
  tally_group limits i events tallies = Some tallies' ->
  tallies' = foldl tally_pair tallies (pair i <$> events).
Proof.
  revert tallies. induction events as [|e events IH]; intros tallies; csimpl; [by intros [= ->]|].
  destruct (_ <? _); [done|]. apply IH.
Qed.

Lemma tally_groups_fold limits i groups tallies tallies' :
  tally_groups limits i groups tallies = Some tallies' ->
  tallies' = foldl tally_pair tallies (numbered i groups).
Proof.
  revert i tallies. induction groups as [|g groups IH]; intros i tallies; simpl; [by intros [= ->]|].
  destruct (tally_group limits i (state g) tallies) as [t|] eqn:E; [|done].
  intros ->%IH. rewrite numbered_cons, foldl_app. by rewrite (tally_group_fold _ _ _ _ _ E).
Qed.

(** The pairs of a key, the groups that hold it and the IDs they hold. *)
Definition of_key (k : StateKey) (l : list (nat * StateEventReference)) : list (nat * StateEventReference) :=
  filter (fun p => ref_key p.2 = k) l.
Definition group_set (k : StateKey) (l : list (nat * StateEventReference)) : gset nat :=
  list_to_set (of_key k l).*1.
Definition id_set (k : StateKey) (l : list (nat * StateEventReference)) : gset string :=
  list_to_set ((fun p => ref_event_id p.2) <$> of_key k l).

Lemma of_key_snoc k l p : of_key k (l ++ [p]) = of_key k l ++ (if decide (ref_key p.2 = k) then [p] else []).
Proof. unfold of_key. rewrite filter_app, filter_cons. by destruct (decide _). Qed.

Record tally_ok (k : StateKey) (l : list (nat * StateEventReference)) (t : KeyTally) : Prop := {
  t_first : snd <$> head (of_key k l) = Some (first_event t);
  t_ids : event_ids t = id_set k l;
  t_groups : groups_containing t = size (group_set k l);
  t_last : last_group_counted t ∈ group_set k l /\ forall i, i ∈ group_set k l -> i <= last_group_counted t
}.

Definition tallies_ok (l : list (nat * StateEventReference)) (tallies : gmap StateKey KeyTally) : Prop :=
  forall k, match tallies !! k with
            | None => of_key k l = []
            | Some t => tally_ok k l t
            end.

Lemma tally_pair_ok l tallies i e :
  tallies_ok l tallies -> (forall j e', (j, e') ∈ l -> j <= i) ->
  tallies_ok (l ++ [(i, e)]) (tally_event i e tallies).
Proof.
  intros Hok Hmono k. unfold tally_event. destruct (decide (ref_key e = k)) as [<-|Hne].
  2: { rewrite lookup_insert_ne by done. specialize (Hok k). destruct (tallies !! k).
       - destruct Hok as [H1 H2 H3 H4]. unfold id_set, group_set in *.
         split; unfold id_set, group_set; rewrite of_key_snoc, decide_False, app_nil_r by done; done.
       - rewrite of_key_snoc, decide_False by done. by rewrite Hok. }
  rewrite lookup_insert_eq. specialize (Hok (ref_key e)).
  assert (of_key (ref_key e) (l ++ [(i, e)]) = of_key (ref_key e) l ++ [(i, e)]) as Hsnoc
    by (by rewrite of_key_snoc, decide_True).
  assert (group_set (ref_key e) (l ++ [(i, e)]) = {[i]} ∪ group_set (ref_key e) l) as Hg.
  { unfold group_set. rewrite Hsnoc, fmap_app, list_to_set_app_L. csimpl. set_solver. }
  assert (id_set (ref_key e) (l ++ [(i, e)]) = {[ref_event_id e]} ∪ id_set (ref_key e) l) as Hi.
  { unfold id_set. rewrite Hsnoc, fmap_app, list_to_set_app_L. csimpl. set_solver. }
  assert (forall j, j ∈ group_set (ref_key e) l -> j <= i) as Hle.
  { intros j. unfold group_set. rewrite elem_of_list_to_set, list_elem_of_fmap.
    intros ([j' e'] & -> & [_ Hin]%list_elem_of_filter). by eapply Hmono. }
  destruct (tallies !! ref_key e) as [t|] eqn:Et.
  - destruct Hok as [H1 H2 H3 [H4 H5]].
    assert (head (of_key (ref_key e) l ++ [(i, e)]) = head (of_key (ref_key e) l)) as Hhd
      by (destruct (of_key (ref_key e) l); [done|done]).
    split; simpl.
    + rewrite Hsnoc, Hhd. done.
    + by rewrite Hi, H2.
    + rewrite Hg. destruct (Nat.eqb_spec (last_group_counted t) i) as [<-|Hne]; simpl.
      * rewrite H3. f_equal. set_solver.
      * rewrite size_union, size_singleton by (apply disjoint_singleton_l; intros Hin%H5;
          specialize (Hle _ H4); lia). by rewrite H3.
    + rewrite Hg. destruct (Nat.eqb_spec (last_group_counted t) i) as [<-|Hne]; simpl; set_solver.
  - assert (group_set (ref_key e) l = ∅) as He1 by (unfold group_set; by rewrite Hok).
    assert (id_set (ref_key e) l = ∅) as He2 by (unfold id_set; by rewrite Hok).
    split; simpl.
    + by rewrite Hsnoc, Hok.
    + rewrite Hi, He2. set_solver.
    + rewrite Hg, He1, union_empty_r_L. by rewrite size_singleton.
    + rewrite Hg, He1. set_solver.
Qed.

(** Group indices never decrease along the list. *)
Definition ascending (l : list (nat * StateEventReference)) : Prop :=
  forall pre i e post j e', l = pre ++ (i, e) :: post -> (j, e') ∈ pre -> j <= i.

Lemma numbered_ascending start groups : ascending (numbered start groups).
Proof.
  intros pre i e post j e' E Hj.
  enough (forall l start, l = numbered start groups -> StronglySorted (fun p q => p.1 <= q.1) l) as Hs.
  { specialize (Hs _ start eq_refl). rewrite E in Hs.
    by apply (StronglySorted_app_1_elem_of _ _ _ (j, e') (i, e) Hs Hj); left. }
  clear. induction groups as [|g groups IH]; intros l start ->; [constructor|].
  rewrite numbered_cons. specialize (IH _ (S start) eq_refl).
  induction (state g) as [|x xs IHx]; csimpl; [done|]. constructor; [done|].
  apply Forall_forall. intros [j y] [Hj|Hj]%elem_of_app; simpl.
  - apply list_elem_of_fmap in Hj as (? & [= -> ->] & _). done.
  - apply elem_of_numbered in Hj as [? _]. lia.
Qed.

Lemma tallies_fold_ok l : ascending l -> tallies_ok l (foldl tally_pair ∅ l).
Proof.
  induction l as [|[i e] l IH] using rev_ind; intros Ha.
  { intros k. simpl. done. }
  rewrite foldl_app. simpl. apply tally_pair_ok.
  - apply IH. intros pre j e' post j' e'' E Hin. eapply (Ha pre j e' (post ++ [(i, e)])); [|done].
    by rewrite E, <- app_assoc.
  - intros j e' Hin. by apply (Ha l i e [] j e').
Qed.

(** * Specification *)

(** An event some group holds for a key. *)
Definition entry (groups : list StateGroup) (k : StateKey) (e : StateEventReference) : Prop :=
  exists g, g ∈ groups /\ e ∈ state g /\ ref_key e = k.

(** Every group holds the key, and always the same event. *)
Definition unanimous (groups : list StateGroup) (k : StateKey) (id : string) : Prop :=
  (forall g, g ∈ groups -> exists e, e ∈ state g /\ ref_key e = k)
  /\ forall e, entry groups k e -> ref_event_id e = id.

Lemma entry_numbered groups k e : entry groups k e <-> exists i, (i, e) ∈ of_key k (numbered 0 groups).
Proof.
  unfold entry, of_key. setoid_rewrite list_elem_of_filter. setoid_rewrite elem_of_numbered.
  setoid_rewrite Nat.sub_0_r. split.
  - intros (g & [i Hi]%list_elem_of_lookup & He & Hk). exists i. split; [done|]. split; [lia|eauto].
  - intros (i & Hk & _ & g & Hg & He). exists g. split; [by eapply list_elem_of_lookup_2|done].
Qed.

Lemma elem_of_group_set groups k i :
  i ∈ group_set k (numbered 0 groups) <-> exists g e, groups !! i = Some g /\ e ∈ state g /\ ref_key e = k.
Proof.
  unfold group_set, of_key. rewrite elem_of_list_to_set, list_elem_of_fmap.
  setoid_rewrite list_elem_of_filter. split.
  - intros ([j e] & -> & Hk & (_ & g & Hg & He)%elem_of_numbered). rewrite Nat.sub_0_r in Hg. eauto.
  - intros (g & e & Hg & He & Hk). exists (i, e). split; [done|]. split; [done|].
    apply elem_of_numbered. rewrite Nat.sub_0_r. split; [lia|eauto].
Qed.

(** A set of indices below [n] has [n] members exactly when it has them all. *)
Lemma full_index_set (s : gset nat) n : (forall i, i ∈ s -> i < n) -> size s = n <-> forall i, i < n -> i ∈ s.
Proof.
  intros Hb. assert (s ⊆ set_seq 0 n) as Hsub by (intros i Hi; apply elem_of_set_seq; specialize (Hb i Hi); lia).
  assert (size (set_seq (C := gset nat) 0 n) = n) as Hn by apply size_set_seq.
  split.
  - intros Hs i Hi. rewrite (set_subseteq_size_eq _ _ Hsub) by lia. apply elem_of_set_seq. lia.
  - intros Hall. rewrite <- Hn. f_equal. apply set_eq. intros i. split; [apply Hsub|].
    intros Hi%elem_of_set_seq. apply Hall. lia.
Qed.

Lemma agreed_spec groups k t : tally_ok k (numbered 0 groups) t ->
  agreed (length groups) t = true <-> unanimous groups k (ref_event_id (first_event t)).
Proof.
  intros [Hf Hi Hg _]. unfold agreed. rewrite andb_true_iff, !Nat.eqb_eq, Hg, Hi.
  rewrite full_index_set.
  2: { intros i (g & e & Hg' & _)%elem_of_group_set. by eapply lookup_lt_Some. }
  assert (exists i, (i, first_event t) ∈ of_key k (numbered 0 groups)) as [i0 Hfirst].
  { destruct (of_key k (numbered 0 groups)) as [|[i e] l]; [done|]. simpl in Hf. simplify_eq. exists i. by left. }
  assert (forall id, id ∈ id_set k (numbered 0 groups) <-> exists e, entry groups k e /\ ref_event_id e = id) as Hid.
  { intros id. unfold id_set. rewrite elem_of_list_to_set, list_elem_of_fmap.
    setoid_rewrite entry_numbered. split; [intros ([i e] & -> & Hin); eauto|].
    intros (e & [i Hin] & <-). by exists (i, e). }
  unfold unanimous. split.
  - intros [Hall [x Hx]%size_1_elem_of]. split.
    + intros g [i Hgi]%list_elem_of_lookup. destruct (proj1 (elem_of_group_set groups k i)) as (g' & e & ? & ? & ?);
        [apply Hall; by eapply lookup_lt_Some|]. simplify_eq. eauto.
    + assert (forall e, entry groups k e -> ref_event_id e = x) as Hone.
      { intros e He. assert (ref_event_id e ∈ id_set k (numbered 0 groups)) as Hin by (apply Hid; eauto).
        rewrite Hx in Hin. by apply elem_of_singleton in Hin. }
      intros e He. rewrite (Hone e He). symmetry. apply Hone, entry_numbered. eauto.
  - intros [Hall Hone]. split.
    + intros i [g Hg']%lookup_lt_is_Some_2. apply elem_of_group_set.
      destruct (Hall g) as (e & ? & ?); [by eapply list_elem_of_lookup_2|]. eauto.
    + assert (id_set k (numbered 0 groups) = {[ref_event_id (first_event t)]}) as ->; [|apply size_singleton].
      apply set_eq. intros id. rewrite Hid, elem_of_singleton. split.
      * intros (e & He & <-). by apply Hone.
      * intros ->. exists (first_event t). split; [|done]. apply entry_numbered. eauto.
Qed.

(** * The partition *)

Definition split_tallies (n : nat) (tallies : gmap StateKey KeyTally) : StateMap * StateMap :=
  (first_event <$> filter (fun p => agreed n p.2 = true) tallies,
   first_event <$> filter (fun p => agreed n p.2 = false) tallies).

(** The tally of all groups. *)
Definition full_tally (groups : list StateGroup) : gmap StateKey KeyTally :=
  foldl tally_pair ∅ (numbered 0 groups).

Lemma full_tally_ok groups : tallies_ok (numbered 0 groups) (full_tally groups).
Proof. apply tallies_fold_ok, numbered_ascending. Qed.

(** What the two maps hold. *)
Record partitions (groups : list StateGroup) (unconflicted conflicted : StateMap) : Prop := {
  part_unconflicted : forall k e, unconflicted !! k = Some e ->
    entry groups k e /\ unanimous groups k (ref_event_id e);
  part_conflicted : forall k e, conflicted !! k = Some e ->
    entry groups k e /\ forall id, ~ unanimous groups k id;
  part_covers : forall k e, entry groups k e -> is_Some (unconflicted !! k) \/ is_Some (conflicted !! k)
}.

Lemma split_tallies_partitions groups :
  partitions groups (fst (split_tallies (length groups) (full_tally groups)))
    (snd (split_tallies (length groups) (full_tally groups))).
Proof.
  pose proof (full_tally_ok groups) as Hok.
  assert (forall k t, tally_ok k (numbered 0 groups) t -> entry groups k (first_event t)) as Hentry.
  { intros k t Ht. apply entry_numbered. pose proof (t_first _ _ _ Ht) as Hf.
    destruct (of_key k (numbered 0 groups)) as [|[i e] l]; [done|]. simpl in Hf. simplify_eq. exists i. by left. }
  split; simpl.
  - intros k e. rewrite lookup_fmap, fmap_Some. intros (t & [Ht Ha]%map_lookup_filter_Some & ->).
    specialize (Hok k). rewrite Ht in Hok. split; [by apply Hentry|]. by apply (agreed_spec groups k t).
  - intros k e. rewrite lookup_fmap, fmap_Some. intros (t & [Ht Ha]%map_lookup_filter_Some & ->).
    specialize (Hok k). rewrite Ht in Hok. split; [by apply Hentry|]. intros id Hu. simpl in Ha.
    rewrite (proj2 (agreed_spec groups k t Hok)) in Ha; [done|].
    rewrite (proj2 Hu (first_event t)) by auto. done.
  - intros k e [i Hin]%entry_numbered. specialize (Hok k).
    destruct (full_tally groups !! k) as [t|] eqn:Et; [|rewrite Hok in Hin; set_solver].
    destruct (agreed (length groups) t) eqn:Ea; [left|right]; rewrite lookup_fmap, fmap_is_Some;
      exists t; by apply map_lookup_filter_Some.
Qed.

Lemma partition_inv groups limits unconflicted conflicted :
  partition_conflicted_state groups limits = (unconflicted, conflicted) ->
  (size unconflicted <> 0 \/ size conflicted <> 0) ->
  (unconflicted, conflicted) = split_tallies (length groups) (full_tally groups).
Proof.
  unfold partition_conflicted_state.
  destruct (_ <? _); [intros [= <- <-]; rewrite map_size_empty; naive_solver|].
  case_bool_decide; [intros [= <- <-]; rewrite map_size_empty; naive_solver|].
  destruct (tally_groups limits 0 groups ∅) as [t|] eqn:E;
    [|intros [= <- <-]; rewrite map_size_empty; naive_solver].
  apply tally_groups_fold in E. subst t. by intros [= <- <-].
Qed.

(** The distinct keys of the groups. *)
Definition all_keys (groups : list StateGroup) : gset StateKey :=
  list_to_set ((fun p => ref_key p.2) <$> numbered 0 groups).

Lemma dom_tally_event i e tallies : dom (tally_event i e tallies) = {[ref_key e]} ∪ dom tallies.
Proof. unfold tally_event. by rewrite dom_insert_L. Qed.

Lemma dom_tally_fold l tallies :
  dom (foldl tally_pair tallies l) = list_to_set ((fun p => ref_key p.2) <$> l) ∪ dom tallies.
Proof.
  revert tallies. induction l as [|[i e] l IH]; intros tallies; csimpl; [set_solver|].
  rewrite IH. unfold tally_pair. rewrite dom_tally_event. simpl. set_solver.
Qed.

(** A tally whose keys stay within the limit is completed. *)
Lemma tally_groups_complete limits i groups tallies :
  size (dom (foldl tally_pair tallies (numbered i groups))) <= max_conflicted_state_keys limits ->
  is_Some (tally_groups limits i groups tallies).
Proof.
  revert i tallies. induction groups as [|g groups IH]; intros i tallies; simpl; [by eexists|].
  rewrite numbered_cons, foldl_app. intros Hsz.
  assert (forall events t rest, size (dom (foldl tally_pair (foldl tally_pair t (pair i <$> events)) rest))
            <= max_conflicted_state_keys limits -> is_Some (tally_group limits i events t)) as Hg.
  { clear. induction events as [|e events IH]; intros t rest Hsz; csimpl; [by eexists|]. csimpl in Hsz.
    assert ((max_conflicted_state_keys limits <? size (tally_event i e t)) = false) as ->; [|by eapply IH].
    apply Nat.ltb_ge. etrans; [|exact Hsz]. rewrite <- (size_dom (D := gset StateKey)). apply subseteq_size.
    rewrite !dom_tally_fold. unfold tally_pair. simpl. set_solver. }
  destruct (Hg _ _ _ Hsz) as [t Ht]. rewrite Ht. apply IH. by rewrite (tally_group_fold _ _ _ _ _ Ht).
Qed.

(** * Version 1 *)

(** [a] is preferred to [b] by the version 1 rule, or is as good. *)
Definition v1_beats (a b : StateEventReference) : Prop :=
  (ref_depth b < ref_depth a)%Z
  \/ ref_depth a = ref_depth b /\ (ref_event_id b <s ref_event_id a) = false.

Lemma v1_beats_refl a : v1_beats a a.
Proof. right. split; [done|]. apply string_ltb_irrefl. Qed.

Lemma v1_beats_trans a b c : v1_beats a b -> v1_beats b c -> v1_beats a c.
Proof.
  intros [|[? H1]] [|[? H2]]; [left; lia..|]. right. split; [lia|]. by eapply string_ltb_false_trans.
Qed.

Lemma select_v1_winner_beats a b :
  v1_beats (select_v1_winner a b) a /\ v1_beats (select_v1_winner a b) b
  /\ (select_v1_winner a b = a \/ select_v1_winner a b = b).
Proof.
  unfold select_v1_winner. pose proof (v1_beats_refl a). pose proof (v1_beats_refl b).
  destruct (Z.eqb_spec (ref_depth b) (ref_depth a)) as [E|E]; simpl.
  - destruct (ref_event_id b <s ref_event_id a) eqn:Es.
    + split; [right; split; [done|by apply string_ltb_asym]|]. auto.
    + split; [done|]. split; [by right|auto].
  - destruct (Z.ltb_spec (ref_depth a) (ref_depth b)).
    + split; [left; lia|]. auto.
    + split; [done|]. split; [left; lia|auto].
Qed.

(** Two entries with one ID are one event. *)
Definition ids_consistent (events : list StateEventReference) : Prop :=
  forall a b, a ∈ events -> b ∈ events -> ref_event_id a = ref_event_id b -> ref_depth a = ref_depth b.

(** The map holds, for each key of the events, one of them that beats the
    others. *)
Definition v1_winners (events : list StateEventReference) (resolved : StateMap) : Prop :=
  (forall e, e ∈ events -> is_Some (resolved !! ref_key e))
  /\ forall k e, resolved !! k = Some e ->
       e ∈ events /\ ref_key e = k /\ forall e', e' ∈ events -> ref_key e' = k -> v1_beats e e'.

Lemma v1_step_winners events resolved event resolved' :
  v1_winners events resolved -> ids_consistent (events ++ [event]) ->
  v1_step (Some resolved) event = Some resolved' -> v1_winners (events ++ [event]) resolved'.
Proof.
  intros [Hc Hw] Hids. simpl. destruct (empty (ref_event_id event)); [done|].
  destruct (resolved !! ref_key event) as [ex|] eqn:Ex.
  - destruct (Hw _ _ Ex) as (Hin & Hk & Hbeat).
    destruct (ref_event_id ex =s ref_event_id event) eqn:Eid; breflect; intros [= <-].
    + split.
      * intros e [He| ->%list_elem_of_singleton]%elem_of_app; [auto|by eexists].
      * intros k e He. destruct (Hw k e He) as (H1 & H2 & H3). split; [set_solver|]. split; [done|].
        intros e' [He'| ->%list_elem_of_singleton]%elem_of_app Hk'; [auto|]. subst k.
        assert (e = ex) as -> by congruence. right.
        assert (ref_depth ex = ref_depth event) as -> by (apply Hids; [set_solver..|done]).
        rewrite Eid. split; [done|apply string_ltb_irrefl].
    + destruct (select_v1_winner_beats ex event) as (B1 & B2 & B3).
      set (w := select_v1_winner ex event) in *.
      assert (w ∈ events ++ [event] /\ ref_key w = ref_key event) as [Hwin Hwk]
        by (destruct B3 as [-> | ->]; set_solver).
      split.
      * intros e He. destruct (decide (ref_key e = ref_key event)) as [->|Hne];
          [rewrite lookup_insert_eq; by eexists|]. rewrite lookup_insert_ne by done. apply Hc. set_solver.
      * intros k e. destruct (decide (k = ref_key event)) as [->|Hne].
        -- rewrite lookup_insert_eq. intros [= <-]. split; [done|]. split; [done|].
           intros e' [He'| ->%list_elem_of_singleton]%elem_of_app Hk'; [|done].
           eapply v1_beats_trans; [exact B1|]. by apply Hbeat.
        -- rewrite lookup_insert_ne by done. intros He. destruct (Hw k e He) as (H1 & H2 & H3).
           split; [set_solver|]. split; [done|]. intros e' He' Hk'. apply H3; [set_solver|done].
  - intros [= <-]. assert (forall e, e ∈ events -> ref_key e <> ref_key event) as Hnone.
    { intros e He E. destruct (Hc e He) as [x Hx]. rewrite E in Hx. congruence. }
    split.
    * intros e He. destruct (decide (ref_key e = ref_key event)) as [->|Hne];
        [rewrite lookup_insert_eq; by eexists|]. rewrite lookup_insert_ne by done. apply Hc. set_solver.
    * intros k e. destruct (decide (k = ref_key event)) as [->|Hne].
      -- rewrite lookup_insert_eq. intros [= <-]. split; [set_solver|]. split; [done|].
         intros e' [He'| ->%list_elem_of_singleton]%elem_of_app Hk'; [by destruct (Hnone e' He')|apply v1_beats_refl].
      -- rewrite lookup_insert_ne by done. intros He. destruct (Hw k e He) as (H1 & H2 & H3).
         split; [set_solver|]. split; [done|]. intros e' He' Hk'. apply H3; [set_solver|done].
Qed.

Lemma v1_fold_None events : foldl v1_step None events = None.
Proof. by induction events. Qed.

Lemma v1_fold_winners events resolved : ids_consistent events ->
  foldl v1_step (Some ∅) events = Some resolved -> v1_winners events resolved.
Proof.
  revert resolved. induction events as [|event events IH] using rev_ind; intros resolved Hids.
  { intros [= <-]. split; [set_solver|done]. }
  rewrite foldl_app. simpl. destruct (foldl v1_step (Some ∅) events) as [m|] eqn:E; [|done].
  apply v1_step_winners; [|done]. apply IH; [|done]. intros a b Ha Hb. apply Hids; set_solver.
Qed.

Lemma v1_fold_total events : (forall e, e ∈ events -> ref_event_id e <> EmptyString) ->
  is_Some (foldl v1_step (Some ∅) events).
Proof.
  induction events as [|event events IH] using rev_ind; intros Hne; [by eexists|].
  rewrite foldl_app. destruct IH as [m ->]; [set_solver|]. simpl.
  assert (empty (ref_event_id event) = false) as ->.
  { pose proof (Hne event ltac:(set_solver)). by destruct (ref_event_id event). }
  repeat case_match; by eexists.
Qed.

Section Values.
Context `{IterationOrder}.

(** Every entry is stored under its own key. *)
Definition keyed (m : StateMap) : Prop := forall k e, m !! k = Some e -> ref_key e = k.

Lemma elem_of_state_values m e : e ∈ state_values m <-> exists k, m !! k = Some e.
Proof.
  unfold state_values. rewrite list_elem_of_fmap. setoid_rewrite iter_state_map_perm. split.
  - intros ([k e'] & -> & Hk%elem_of_map_to_list). eauto.
  - intros [k Hk]. exists (k, e). split; [done|]. by apply elem_of_map_to_list.
Qed.

Lemma state_values_keys m : keyed m -> NoDup (ref_key <$> state_values m).
Proof.
  intros Hk. unfold state_values. rewrite <- list_fmap_compose, iter_state_map_perm.
  replace ((ref_key ∘ snd) <$> map_to_list m) with (map_to_list m).*1; [apply NoDup_fst_map_to_list|].
  apply list_fmap_ext. intros i [k e] Hi. simpl. symmetry. apply Hk.
  apply elem_of_map_to_list. by eapply list_elem_of_lookup_2.
Qed.

Lemma partition_within_limits groups limits :
  length groups <= max_state_groups limits -> validate_groups limits groups 0 = None ->
  size (all_keys groups) <= max_conflicted_state_keys limits ->
  partitions groups (fst (partition_conflicted_state groups limits))
    (snd (partition_conflicted_state groups limits)).
Proof.
  intros Hn Hv Hk. unfold partition_conflicted_state.
  assert ((max_state_groups limits <? length groups) = false) as -> by (by apply Nat.ltb_ge).
  rewrite Hv, bool_decide_eq_false_2 by (by intros []).
  destruct (tally_groups_complete limits 0 groups ∅) as [t Ht].
  { rewrite dom_tally_fold, dom_empty_L, union_empty_r_L. done. }
  rewrite Ht. apply tally_groups_fold in Ht as ->. apply split_tallies_partitions.
Qed.

Lemma request_validation_exact_1 request : validate_state_resolution_request request = None ->
  length (state_groups request) <= max_state_groups (limits request)
  /\ validate_groups (limits request) (state_groups request) 0 = None.
Proof.
  unfold validate_state_resolution_request.
  destruct (Nat.ltb_spec (max_state_groups (limits request)) (length (state_groups request))); [done|].
  by split.
Qed.

(** * Properties *)

(** Within the configured limits, a key is unconflicted exactly when every
    submitted state group holds it and every entry for it is the same event; all
    other keys of the groups are in the conflicted index, and the event recorded
    for a key is one a group submitted. *)
Lemma partition_correct groups limits :
  length groups <= max_state_groups limits -> validate_groups limits groups 0 = None ->
  size (all_keys groups) <= max_conflicted_state_keys limits ->
  partitions groups (fst (partition_conflicted_state groups limits))
    (snd (partition_conflicted_state groups limits)).
Proof. apply partition_within_limits. Qed.

(** Version 1 resolution of a valid request returns, for every state key the
    groups hold, exactly one of the events held for it: the one of greatest
    depth and, among those, of least event ID. *)
Theorem resolve_state_v1_correct request :
  room_version request <> EmptyString -> validate_state_resolution_request request = None ->
  let events := state_groups request ≫= state in
  (forall e, e ∈ events -> ref_event_id e <> EmptyString) -> ids_consistent events ->
  exists l, resolve_state request = Resolved l /\ NoDup (ref_key <$> l)
    /\ (forall e, e ∈ events -> exists w, w ∈ l /\ ref_key w = ref_key e)
    /\ (forall w e, w ∈ l -> e ∈ events -> ref_key e = ref_key w -> w ∈ events /\ v1_beats w e).
Proof.
  intros Hver Hval events Hne Hids. unfold resolve_state.
  assert (empty (room_version request) = false) as -> by (by destruct (room_version request)).
  rewrite Hval. destruct (v1_fold_total events Hne) as [m Hm].
  destruct (v1_fold_winners events m Hids Hm) as [Hc Hw].
  assert (keyed m) as Hk by (intros k e He; by apply Hw).
  assert (exists l, Resolved (state_values m) = Resolved l /\ NoDup (ref_key <$> l)
    /\ (forall e, e ∈ events -> exists w, w ∈ l /\ ref_key w = ref_key e)
    /\ (forall w e, w ∈ l -> e ∈ events -> ref_key e = ref_key w -> w ∈ events /\ v1_beats w e)) as Hl.
  { exists (state_values m). split; [done|]. split; [by apply state_values_keys|]. split.
    - intros e He. destruct (Hc e He) as [w Hx]. exists w. split; [|by apply Hk].
      apply elem_of_state_values. eauto.
    - intros w e [k Hkw]%elem_of_state_values He Hkey. destruct (Hw k w Hkw) as (H1 & H2 & H3).
      split; [done|]. apply H3; [done|]. by rewrite Hkey. }
  subst events. destruct (state_groups request) as [|g groups]; [|by rewrite Hm].
  simpl in Hm. simplify_eq. exists []. split; [done|]. split; [constructor|]. set_solver.
Qed.

(** A request passes validation exactly when the number of groups, the size
    of every group and the total number of events are within the limits. *)
Lemma request_validation_exact request :
  validate_state_resolution_request request = None <->
  length (state_groups request) <= max_state_groups (limits request)
  /\ Forall (fun g => length (state g) <= max_events_per_state_group (limits request)) (state_groups request)
  /\ total_events (state_groups request) <= max_total_state_events (limits request).
Proof.
  unfold validate_state_resolution_request.
  destruct (Nat.ltb_spec (max_state_groups (limits request)) (length (state_groups request))).
  - split; [done|lia].
  - rewrite validate_groups_None by lia. intuition lia.
Qed.

(** Validation and partition of a request. A request passes validation
    exactly when its groups, each group's events and all events together are
    within their limits; and then, with no more keys than the limit, the
    partition sends every key that some group holds to one side: to unconflicted,
    with that event, when every group holds the same event for it, and to
    conflicted, with one of its events, when not. *)
Theorem request_partition_exact request :
  (validate_state_resolution_request request = None <->
   length (state_groups request) <= max_state_groups (limits request)
   /\ Forall (fun g => length (state g) <= max_events_per_state_group (limits request)) (state_groups request)
   /\ total_events (state_groups request) <= max_total_state_events (limits request))
  /\ (validate_state_resolution_request request = None ->
      size (all_keys (state_groups request)) <= max_conflicted_state_keys (limits request) ->
      partitions (state_groups request)
        (fst (partition_conflicted_state (state_groups request) (limits request)))
        (snd (partition_conflicted_state (state_groups request) (limits request)))).
Proof.
  split; [apply request_validation_exact|]. intros Hv Hk.
  apply request_validation_exact_1 in Hv as [? ?]. by apply partition_correct.
Qed.
End Values.
