(* ===== verification/Resolution.v ===== *)
(** State resolution as a whole: what resolve_state_v2 promises about its
    result, from the stages it is composed of. *)
From S2P Require Import Prelude CppStd JsonValue JsonSerializer RoomVersion Signing EventAuth EventSource StateGraph StateAuth PowerSort StateRes AuthChain PowerOrder PowerRank MainlineOrder ConflictedSubgraph Partition.
Open Scope nat_scope.

Section Resolution.
Context `{Order : IterationOrder} `{Clib : Libc} `{Crypto : Sodium}.

(** * The full conflicted set *)

Definition text_member (o : Object) (key text : string) : Prop := object_member o key = Some (VString text).

(** A reference made from the JSON its ID resolves to, under the key the JSON gives. *)
Definition read_from (content : string -> option Value) (e : StateEventReference) : Prop :=
  exists o type state_key, content (ref_event_id e) = Some (VObject o) /\ ref_event_json e = VObject o
    /\ text_member o "type" type /\ text_member o "state_key" state_key /\ ref_key e = mkStateKey type state_key.

Lemma materialize_extends id src : extends src (snd (materialize_ref id src)).
Proof.
  unfold materialize_ref. pose proof (find_required_extends id src) as He.
  destruct (find_required id src) as [[v|] src']; [|done]. repeat (case_match; try done).
Qed.

Lemma materialize_sound content id src ref :
  holds src content -> fst (materialize_ref id src) = Some ref -> ref_event_id ref = id /\ read_from content ref.
Proof.
  intros Hh. unfold materialize_ref. pose proof (holds_find_required src content id) as Hr.
  destruct (find_required id src) as [[v|] src']; [|done]. simpl in *.
  destruct (value_is_object v) as [o|] eqn:Eo; [|done]. assert (v = VObject o) as -> by (destruct v; naive_solver).
  destruct (string_member o "type") as [type|] eqn:Et, (string_member o "state_key") as [key|] eqn:Ek; try done.
  intros [= <-]. split; [done|]. exists o, type, key. simpl. apply string_member_Some in Et, Ek. specialize (Hr _ Hh eq_refl). done.
Qed.

Lemma materialize_all_extends ids full src : extends src (snd (materialize_all ids full src)).
Proof.
  revert full src. induction ids as [|id ids IH]; intros full src; simpl; [reflexivity|].
  destruct (full !! id); [apply IH|]. pose proof (materialize_extends id src) as He.
  destruct (materialize_ref id src) as [[r|] src']; simpl in *; [|done]. etrans; [exact He|apply IH].
Qed.

(** The IDs that were there keep their events, the new ones get what they resolve to. *)
Lemma materialize_all_spec content ids full src full' :
  holds src content -> fst (materialize_all ids full src) = Some full' ->
  (forall id, is_Some (full' !! id) <-> is_Some (full !! id) \/ id ∈ ids)
  /\ forall id e, full' !! id = Some e -> full !! id = Some e
       \/ (full !! id = None /\ id ∈ ids /\ ref_event_id e = id /\ read_from content e).
Proof.
  revert full src. induction ids as [|id ids IH]; intros full src Hh; simpl.
  { intros [= <-]. split; [set_solver|by left]. }
  destruct (full !! id) as [x|] eqn:E.
  { intros Hm. destruct (IH _ _ Hh Hm) as [H1 H2]. split.
    - intros y. rewrite H1, elem_of_cons. split; [naive_solver|]. intros [?|[->|?]]; [by left|left; by eexists|by right].
    - intros y e He. destruct (H2 y e He) as [?|(? & ? & ?)]; [by left|right]. split; [done|]. split; [by right|done]. }
  pose proof (materialize_extends id src) as He. pose proof (materialize_sound content id src) as Hm.
  destruct (materialize_ref id src) as [[r|] src']; simpl in *; [|done].
  destruct (Hm r Hh eq_refl) as [Hid Hj]. intros Hf. destruct (IH _ _ (holds_extends _ _ _ He Hh) Hf) as [H1 H2]. split.
  - intros y. rewrite H1, elem_of_cons. destruct (decide (y = id)) as [->|Hne].
    + rewrite lookup_insert_eq. split; [by right; left|left; by eexists].
    + rewrite lookup_insert_ne by done. naive_solver.
  - intros y e Hy. destruct (H2 y e Hy) as [Hi|(Hn & Hin & ? & ?)]; (destruct (decide (y = id)) as [->|Hne];
      [rewrite lookup_insert_eq in *|rewrite lookup_insert_ne in * by done]); [|by left|done|].
    + simplify_eq. right. split; [done|]. split; [by left|done].
    + right. split; [done|]. split; [by right|done].
Qed.

Lemma emplace_all_spec events full id :
  foldl emplace_ref full events !! id =
  match full !! id with Some e => Some e | None => List.find (fun e => ref_event_id e =s id) events end.
Proof.
  revert full. induction events as [|e events IH]; intros full; simpl; [by destruct (full !! id)|]. rewrite IH. unfold emplace_ref.
  destruct (ref_event_id e =s id) eqn:E; breflect.
  - subst id. destruct (full !! ref_event_id e) eqn:Ef; [by rewrite Ef|]. by rewrite lookup_insert_eq.
  - destruct (full !! ref_event_id e); [done|]. by rewrite lookup_insert_ne.
Qed.

Lemma collect_conflicted_in limits conflicted events seen acc l :
  collect_conflicted limits conflicted events seen acc = Some l ->
  forall e, e ∈ l -> e ∈ acc \/ (e ∈ events /\ is_Some (conflicted !! ref_key e)).
Proof.
  revert seen acc. induction events as [|x events IH]; intros seen acc; simpl.
  { intros [= <-]. auto. }
  destruct (conflicted !! ref_key x) as [c|] eqn:Ec.
  2: { intros Hc e He. destruct (IH _ _ Hc e He) as [|[]]; [by left|right; set_solver]. }
  case_bool_decide.
  { intros Hc e He. destruct (IH _ _ Hc e He) as [|[]]; [by left|right; set_solver]. }
  destruct (_ <? _); [done|]. intros Hc e He.
  destruct (IH _ _ Hc e He) as [[| ->%list_elem_of_singleton]%elem_of_app|[]]; [by left| |right; set_solver].
  right. split; [by left|by eexists].
Qed.

(** Nothing is collected only when no submitted event has a conflicted key. *)
Lemma collect_conflicted_nil limits conflicted events seen acc :
  collect_conflicted limits conflicted events seen acc = Some [] -> acc = [] /\
  forall e, e ∈ events -> ref_event_id e ∉ default ∅ (seen !! ref_key e) -> conflicted !! ref_key e = None.
Proof.
  revert seen acc. induction events as [|x events IH]; intros seen acc; simpl.
  { intros [= ->]. split; [done|set_solver]. }
  destruct (conflicted !! ref_key x) as [c|] eqn:Ec.
  2: { intros Hc. destruct (IH _ _ Hc) as [-> H2]. split; [done|].
       intros e [->|He]%elem_of_cons Hn; [done|auto]. }
  case_bool_decide as Hb.
  { intros Hc. destruct (IH _ _ Hc) as [-> H2]. split; [done|].
    intros e [->|He]%elem_of_cons Hn; [done|]. apply H2; [done|].
    destruct (decide (ref_key e = ref_key x)) as [E|E]; [|by rewrite lookup_insert_ne].
    rewrite E in Hn |- *. rewrite lookup_insert_eq. simpl.
    intros [Hx%elem_of_singleton|Hx]%elem_of_union; [|done]. apply Hn. by rewrite Hx. }
  destruct (_ <? _); [done|]. intros Hc. destruct (IH _ _ Hc) as [Ha _]. by destruct acc.
Qed.

Definition submitted_events (request : StateResolutionRequest) : list StateEventReference :=
  state_groups request ≫= state.

(** The events a request can resolve. *)
Definition request_content (request : StateResolutionRequest) : string -> option Value :=
  resolves_in (build_event_json_index (state_groups request)) (event_lookup request).

(** The IDs the groups submit for the keys they do not agree on. *)
Definition disputed (request : StateResolutionRequest) (id : string) : Prop :=
  exists e, e ∈ submitted_events request /\ ref_event_id e = id
    /\ forall other, ~ unanimous (state_groups request) (ref_key e) other.

(** In the auth chain of one group and not of another. *)
Definition in_auth_difference (request : StateResolutionRequest) (id : string) : Prop :=
  (exists g, g ∈ state_groups request /\ group_ancestor (request_content request) g id)
  /\ exists g, g ∈ state_groups request /\ ~ group_ancestor (request_content request) g id.

(** On a path of auth events from one disputed event to another. *)
Definition between_disputed (request : StateResolutionRequest) (id : string) : Prop :=
  exists a b, disputed request a /\ disputed request b
    /\ rtc (edge (request_content request)) a id /\ rtc (edge (request_content request)) id b.

(** The full conflicted set: its IDs are the disputed ones, the auth difference and, for room version 12, the conflicted
    subgraph; the disputed IDs have an event a group submitted, the others what they resolve to. *)
Record full_set (request : StateResolutionRequest) (subgraph : bool) (full : RefMap) : Prop := {
  fs_ids : forall id, is_Some (full !! id)
    <-> disputed request id \/ in_auth_difference request id \/ (subgraph = true /\ between_disputed request id);
  fs_events : forall id e, full !! id = Some e -> ref_event_id e = id
    /\ ((e ∈ submitted_events request /\ forall other, ~ unanimous (state_groups request) (ref_key e) other)
        \/ (~ disputed request id /\ read_from (request_content request) e))
}.

(** The list of conflicted events names the disputed IDs. *)
Definition lists_disputed (request : StateResolutionRequest) (events : list StateEventReference) : Prop :=
  (forall e, e ∈ events -> e ∈ submitted_events request /\ forall other, ~ unanimous (state_groups request) (ref_key e) other)
  /\ forall id, id ∈ ref_event_id <$> events <-> disputed request id.

Lemma collect_conflicted_covers limits conflicted events seen acc l :
  (forall k id, id ∈ default ∅ (seen !! k) -> id ∈ ref_event_id <$> acc) ->
  collect_conflicted limits conflicted events seen acc = Some l ->
  (forall id, id ∈ ref_event_id <$> acc -> id ∈ ref_event_id <$> l)
  /\ forall e, e ∈ events -> is_Some (conflicted !! ref_key e) -> ref_event_id e ∈ ref_event_id <$> l.
Proof.
  revert seen acc. induction events as [|x events IH]; intros seen acc Hseen; simpl; [intros [= <-]; set_solver|].
  destruct (conflicted !! ref_key x) as [c|] eqn:Ec.
  2: { intros Hc. destruct (IH _ _ Hseen Hc) as [H1 H2]. split; [done|].
       intros e [->|He]%elem_of_cons Hk; [rewrite Ec in Hk; by destruct Hk|auto]. }
  set (seen' := <[ref_key x := _]> seen).
  assert (forall more, ref_event_id x ∈ ref_event_id <$> (acc ++ more) ->
    forall k id, id ∈ default ∅ (seen' !! k) -> id ∈ ref_event_id <$> (acc ++ more)) as Hseen'.
  { intros more Hx k id. unfold seen'. destruct (decide (k = ref_key x)) as [->|Hne].
    - rewrite lookup_insert_eq. simpl. intros [->%elem_of_singleton|Hid]%elem_of_union; [done|]. rewrite fmap_app. apply elem_of_app. left. by eapply Hseen.
    - rewrite lookup_insert_ne by done. intros Hid. rewrite fmap_app. apply elem_of_app. left. by eapply Hseen. }
  case_bool_decide as Hb.
  - intros Hc. pose proof (Hseen _ _ Hb) as Hx. specialize (Hseen' []). rewrite app_nil_r in Hseen'.
    destruct (IH _ _ (Hseen' Hx) Hc) as [H1 H2]. split; [done|]. intros e [->|He]%elem_of_cons Hk; auto.
  - destruct (_ <? _); [done|]. intros Hc.
    assert (ref_event_id x ∈ ref_event_id <$> (acc ++ [x])) as Hx by (rewrite fmap_app; set_solver).
    destruct (IH _ _ (Hseen' [x] Hx) Hc) as [H1 H2]. split.
    + intros id Hid. apply H1. rewrite fmap_app. set_solver.
    + intros e [->|He]%elem_of_cons Hk; auto.
Qed.

Lemma elem_of_submitted request e : e ∈ submitted_events request <->
  entry (state_groups request) (ref_key e) e.
Proof. unfold submitted_events, entry. rewrite list_elem_of_bind. naive_solver. Qed.

Lemma collect_lists_disputed request u c l : partitions (state_groups request) u c ->
  collect_conflicted (limits request) c (submitted_events request) ∅ [] = Some l -> lists_disputed request l.
Proof.
  intros Hp Hc. assert (forall e, is_Some (c !! ref_key e) -> forall other, ~ unanimous (state_groups request) (ref_key e) other) as Hno.
  { intros e [x Hx]. by apply (part_conflicted _ _ _ Hp _ _ Hx). }
  assert (forall e, e ∈ l -> e ∈ submitted_events request /\ forall other, ~ unanimous (state_groups request) (ref_key e) other) as Hl.
  { intros e He. destruct (collect_conflicted_in _ _ _ _ _ _ Hc e He) as [?%not_elem_of_nil|[Hin Hk]]; [done|]. auto. }
  split; [done|]. intros id. split.
  - intros (e & -> & He)%list_elem_of_fmap. exists e. destruct (Hl e He). done.
  - intros (e & He & <- & Hun). eapply collect_conflicted_covers; [|exact Hc|exact He|].
    { intros k x. rewrite lookup_empty. set_solver. }
    destruct (part_covers _ _ _ Hp (ref_key e) e) as [[w Hw]|?]; [by apply elem_of_submitted| |done].
    destruct (Hun (ref_event_id w)). by apply (part_unconflicted _ _ _ Hp).
Qed.

(** Every check of the set's events finds its auth events in memory. *)
Definition recalled (src : Source) (full : RefMap) : Prop :=
  forall id e x, full !! id = Some e -> value_has_content (ref_event_json e) = true ->
    x ∈ auth_event_ids (ref_event_json e) -> in_memory src x.

Lemma request_difference request src cap difference : holds src (request_content request) ->
  fst (compute_auth_difference (state_groups request) src cap) = Some difference ->
  forall id, id ∈ difference <-> in_auth_difference request id.
Proof.
  intros Hh Hd id. rewrite (auth_difference_correct _ _ _ _ (proj1 Hh) Hd). unfold in_auth_difference, group_ancestor, events_ancestor.
  assert (forall v x, ancestor (resolves src) v x <-> ancestor (request_content request) v x) as Ha.
  { intros v x. split; (induction 1 as [y Hy|y w z _ IH Hw Hz]; [by apply ancestor_direct|eapply ancestor_step; [exact IH| |exact Hz]]);
      [by rewrite <- (proj2 Hh)|by rewrite (proj2 Hh)]. }
  setoid_rewrite Ha. done.
Qed.

Lemma find_disputed request events : lists_disputed request events ->
  forall id, is_Some (List.find (fun e => ref_event_id e =s id) events) <-> disputed request id.
Proof.
  intros [_ Hids] id. rewrite <- Hids, list_elem_of_fmap. split.
  - intros [e [Hin Heq]%List.find_some]. breflect. exists e. split; [done|]. by apply list_elem_of_In.
  - intros (e & -> & Hin). destruct (List.find _ _) as [x|] eqn:E; [by eexists|].
    apply list_elem_of_In in Hin. pose proof (List.find_none _ _ E e Hin) as Hn. simpl in Hn. by rewrite String.eqb_refl in Hn.
Qed.

Lemma full_set_ids request subgraph full : full_set request subgraph full -> NoDup (ref_event_id <$> (map_to_list full).*2).
Proof.
  intros [_ Fev]. assert (ref_event_id <$> (map_to_list full).*2 = (map_to_list full).*1) as ->; [|apply NoDup_fst_map_to_list].
  rewrite <- list_fmap_compose. apply list_fmap_ext. intros i [id e] Hi. simpl.
  apply list_elem_of_lookup_2, elem_of_map_to_list in Hi. by apply Fev in Hi as [? _].
Qed.

Lemma full_conflicted_run request all_conflicted src full src' :
  holds src (request_content request) -> lists_disputed request all_conflicted ->
  full_conflicted_set request all_conflicted src = (inr full, src') ->
  full_set request false full /\ recalled src' full /\ extends src src'
  /\ exists difference, fst (compute_auth_difference (state_groups request) src
                               (max_auth_chain_walk_events (limits request))) = Some difference.
Proof.
  intros Hh [Hl Hids]. unfold full_conflicted_set. set (cap := max_auth_chain_walk_events (limits request)).
  pose proof (compute_auth_difference_extends (state_groups request) src cap) as He.
  pose proof (request_difference request src cap) as Hdiff.
  pose proof (auth_difference_memory (request_content request) (state_groups request) src cap) as Hmem.
  destruct (compute_auth_difference _ src _) as [[d|] src1]; simpl in *; [|done].
  destruct (src_missing src1); [done|]. specialize (Hdiff d Hh eq_refl). specialize (Hmem d Hh eq_refl).
  pose proof (materialize_all_extends (iter_set d) (foldl emplace_ref ∅ all_conflicted) src1) as He1.
  pose proof (materialize_all_spec (request_content request) (iter_set d) (foldl emplace_ref ∅ all_conflicted) src1) as Hm.
  destruct (materialize_all _ _ src1) as [[f|] src2]; simpl in *; [|done]. intros [= <- <-].
  destruct (Hm f (holds_extends _ _ _ He Hh) eq_refl) as [M1 M2]. setoid_rewrite emplace_all_spec in M1. setoid_rewrite emplace_all_spec in M2.
  setoid_rewrite lookup_empty in M1. setoid_rewrite lookup_empty in M2. setoid_rewrite elem_of_iter_set in M1. setoid_rewrite elem_of_iter_set in M2.
  pose proof (find_disputed request all_conflicted (conj Hl Hids)) as Hfind.
  assert (forall id e, f !! id = Some e -> ref_event_id e = id
    /\ ((e ∈ submitted_events request /\ forall other, ~ unanimous (state_groups request) (ref_key e) other)
        \/ (~ disputed request id /\ id ∈ d /\ read_from (request_content request) e))) as Hev.
  { intros id e Hf. destruct (M2 id e Hf) as [[Hin Heq]%List.find_some|(Hn & Hin & Hid & Hr)].
    - breflect. split; [done|]. left. apply Hl. by apply list_elem_of_In.
    - split; [done|]. right. split; [|done]. rewrite <- Hfind, Hn. by intros []. }
  split; [split|split; [|split; [by etrans|eauto]]].
  - intros id. rewrite M1, Hfind, Hdiff. split; [|naive_solver]. intros [?|?]; auto.
  - intros id e Hf. destruct (Hev id e Hf) as [? [?|(? & _ & ?)]]; auto.
  - intros id e x Hf Hc Hx. eapply in_memory_extends; [exact He1|]. destruct (Hev id e Hf) as [Hid [[Hin _]|(_ & Hid' & Hr)]].
    + apply elem_of_submitted in Hin as (g & Hg & Heg & _). apply (Hmem g); [done|]. exists e. split; [done|]. split; [done|].
      by apply ancestor_direct.
    + apply Hdiff in Hid' as [(g & Hg & y & Hy & Hyc & Ha) _]. destruct Hr as (o & _ & _ & Hcont & Hj & _). rewrite Hid in Hcont.
      apply (Hmem g); [done|]. exists y. split; [done|]. split; [done|]. eapply ancestor_step; [exact Ha|exact Hcont|]. by rewrite <- Hj.
Qed.

Lemma compute_subgraph_extends ids src cap : extends src (snd (compute_conflicted_state_subgraph ids src cap)).
Proof.
  unfold compute_conflicted_state_subgraph. destruct (existsb _ _); [reflexivity|].
  pose proof (explore_extends (S cap) cap (iter_set ids) ∅ src) as He.
  destruct (explore _ _ _ _ src) as [[g|] src']; simpl in *; [|done].
  destruct (negb _); [done|]. by destruct (negb _).
Qed.

(** What the subgraph walk explored is in memory. *)
Lemma subgraph_memory content ids src cap sub : holds src content ->
  fst (compute_conflicted_state_subgraph ids src cap) = Some sub ->
  forall x, reachable content ids x -> in_memory (snd (compute_conflicted_state_subgraph ids src cap)) x.
Proof.
  intros Hh. unfold compute_conflicted_state_subgraph. destruct (existsb _ _); [done|].
  pose proof (explore_sound content ids (S cap) cap (iter_set ids) ∅ src) as Hex.
  pose proof (explore_memory (S cap) cap (iter_set ids) ∅ src) as Hm.
  destruct (explore _ _ _ _ src) as [[graph|] src']; simpl in *; [|done].
  destruct (Hex graph Hh (explore_inv_init _ _) eq_refl) as (_ & Hdom & _).
  destruct (negb _); [done|]. destruct (negb _); [done|]. intros _ x Hx. apply (Hm graph); [set_solver|done|]. by apply Hdom.
Qed.

Lemma subgraph_run request all_conflicted full src full' src' :
  holds src (request_content request) -> lists_disputed request all_conflicted ->
  full_set request false full -> recalled src full ->
  add_conflicted_subgraph request all_conflicted full src = (inr full', src') ->
  full_set request true full' /\ recalled src' full' /\ extends src src'.
Proof.
  intros Hh [Hl Hids] [Fids Fev] Hrec. unfold add_conflicted_subgraph.
  set (ids := list_to_set _). set (cap := max_auth_chain_walk_events _).
  pose proof (compute_subgraph_extends ids src cap) as He.
  pose proof (conflicted_subgraph_correct ids src cap) as Hc.
  pose proof (subgraph_memory (request_content request) ids src cap) as Hmem.
  destruct (compute_conflicted_state_subgraph ids src cap) as [[sub|] src1]; simpl in *; [|done].
  destruct (src_missing src1); [done|]. destruct (Hc sub (proj1 Hh) eq_refl) as [Hsub _]. specialize (Hmem sub Hh eq_refl).
  assert (forall id, id ∈ ids <-> disputed request id) as Hids' by (intros id; unfold ids; by rewrite elem_of_list_to_set).
  assert (forall x y, rtc (edge (resolves src)) x y <-> rtc (edge (request_content request)) x y) as Hedge.
  { intros x y. split; apply rtc_subrel; intros a b (v & Hv & Hb); exists v; [by rewrite <- (proj2 Hh)|by rewrite (proj2 Hh)]. }
  assert (forall id, id ∈ sub <-> between_disputed request id) as Hbetween.
  { intros id. rewrite Hsub. unfold between_disputed. setoid_rewrite Hids'. setoid_rewrite Hedge. done. }
  pose proof (materialize_all_extends (iter_set sub) full src1) as He1.
  pose proof (materialize_all_spec (request_content request) (iter_set sub) full src1) as Hm.
  destruct (materialize_all _ _ src1) as [[f|] src2]; simpl in *; [|done]. intros [= <- <-].
  destruct (Hm f (holds_extends _ _ _ He Hh) eq_refl) as [M1 M2]. setoid_rewrite elem_of_iter_set in M1. setoid_rewrite elem_of_iter_set in M2.
  split; [split|split; [|by etrans]].
  - intros id. rewrite M1, Fids, Hbetween. split; [|naive_solver]. intros [[?|[?|[? _]]]|?]; auto; done.
  - intros id e Hf. destruct (M2 id e Hf) as [?|(Hn & Hin & Hid & Hr)]; [by apply Fev|]. split; [done|]. right. split; [|done].
    intros Hdis. assert (is_Some (full !! id)) as [x Hx] by (apply Fids; by left). congruence.
  - intros id e x Hf Hcont Hx. eapply in_memory_extends; [exact He1|]. destruct (M2 id e Hf) as [Hold|(Hn & Hin & Hid & Hr)].
    + eapply in_memory_extends; [exact He|]. by eapply Hrec.
    + apply Hmem. apply Hbetween in Hin as (a & _ & Ha & _ & Hpath & _). exists a. split; [by apply Hids'|].
      eapply rtc_r; [exact Hpath|]. destruct Hr as (o & _ & _ & Hc' & Hj & _). rewrite Hid in Hc'. exists (VObject o). split; [done|by rewrite <- Hj].
Qed.

(** * The power events and what they draw in *)

(** The least set that holds the power events of the full conflicted set and,
    with each of its members, the ancestors that are in the full conflicted
    set. *)
Inductive drawn (content : string -> option Value) (full : RefMap) : string -> Prop :=
| drawn_power id e : full !! id = Some e -> is_power_event e = true -> drawn content full id
| drawn_ancestor id e id' e' : drawn content full id -> full !! id = Some e ->
    ancestor content (ref_event_json e) id' -> full !! id' = Some e' -> drawn content full id'.

(** The events listed are those of the selected IDs, each once. *)
Definition lists_selected (full : RefMap) (events : list StateEventReference) (selected : gset string) : Prop :=
  exists ids, NoDup ids /\ (forall id, id ∈ ids <-> id ∈ selected)
    /\ Forall2 (fun id e => full !! id = Some e) ids events.

Lemma enlarge_fold full ids pe sel q pe' sel' q' :
  foldl (enlarge_step full) (pe, sel, q) ids = (pe', sel', q') -> lists_selected full pe sel ->
  lists_selected full pe' sel'
  /\ (forall x, x ∈ sel' <-> x ∈ sel \/ (x ∈ ids /\ is_Some (full !! x)))
  /\ (forall x, x ∈ q' <-> x ∈ q \/ (x ∈ ids /\ is_Some (full !! x) /\ x ∉ sel))
  /\ length q' + size (dom full ∖ sel') = length q + size (dom full ∖ sel).
Proof.
  revert pe sel q. induction ids as [|a ids IH]; intros pe sel q; simpl.
  { intros [= <- <- <-] Hl. split; [done|]. split; [set_solver|]. split; [set_solver|done]. }
  destruct (full !! a) as [e|] eqn:Ea.
  2: { intros Hf Hl. destruct (IH _ _ _ Hf Hl) as (H1 & H2 & H3 & H4). split; [done|].
       assert (~ is_Some (full !! a)) as Hna by (rewrite Ea; by intros []).
       split; [|split; [|done]]; intros x; rewrite ?H2, ?H3, elem_of_cons;
         destruct (decide (x = a)) as [->|]; naive_solver. }
  assert (is_Some (full !! a)) as Hsa by (by eexists).
  case_bool_decide as Hs.
  { intros Hf Hl. destruct (IH _ _ _ Hf Hl) as (H1 & H2 & H3 & H4). split; [done|].
    split; [|split; [|done]]; intros x; rewrite ?H2, ?H3, elem_of_cons;
      destruct (decide (x = a)) as [->|]; naive_solver. }
  intros Hf (l & Hnd & Hl & Hall). edestruct (IH _ _ _ Hf) as (H1 & H2 & H3 & H4).
  { exists (l ++ [a]). split; [|split].
    - apply NoDup_app. split; [done|]. split; [set_solver|apply NoDup_singleton].
    - intros x. rewrite elem_of_app, Hl. set_solver.
    - apply Forall2_app; [done|]. by repeat constructor. }
  split; [done|]. split; [|split].
  - intros x. rewrite H2, elem_of_cons, elem_of_union, elem_of_singleton.
    destruct (decide (x = a)) as [->|]; naive_solver.
  - intros x. rewrite H3, !elem_of_cons, not_elem_of_union, elem_of_singleton.
    destruct (decide (x = a)) as [->|]; naive_solver.
  - rewrite H4. simpl. rewrite (size_remove_one (dom full) sel a); [lia| |done]. by apply elem_of_dom.
Qed.

Record enlarge_inv (content : string -> option Value) (full : RefMap) (pe : list StateEventReference)
    (sel : gset string) (q : list string) : Prop := {
  enl_lists : lists_selected full pe sel;
  enl_sound : forall id, id ∈ sel -> drawn content full id;
  enl_queue : forall id, id ∈ q -> id ∈ sel;
  enl_power : forall id e, full !! id = Some e -> is_power_event e = true -> id ∈ sel;
  enl_closed : forall id e id', id ∈ sel -> id ∉ q -> full !! id = Some e ->
    ancestor content (ref_event_json e) id' -> is_Some (full !! id') -> id' ∈ sel
}.

Lemma enlarge_inv_step content full pe sel id rest e chain pe' sel' q' :
  enlarge_inv content full pe sel (id :: rest) -> full !! id = Some e ->
  (forall x, x ∈ chain <-> ancestor content (ref_event_json e) x) ->
  foldl (enlarge_step full) (pe, sel, rest) (iter_set chain) = (pe', sel', q') ->
  enlarge_inv content full pe' sel' q'.
Proof.
  intros [Hl Hs Hq Hp Hc] He Hch Hf.
  destruct (enlarge_fold _ _ _ _ _ _ _ _ Hf Hl) as (H1 & H2 & H3 & _).
  setoid_rewrite elem_of_iter_set in H2. setoid_rewrite elem_of_iter_set in H3.
  assert (id ∈ sel) as Hid by (apply Hq; by left).
  split; [done|..].
  - intros x [Hx|[Hx%Hch [e' He']]]%H2; [auto|]. eapply drawn_ancestor; [by apply Hs|done..].
  - intros x [Hx|(Hx & Hx' & _)]%H3; apply H2; [left; apply Hq; by right|by right].
  - intros x e' Hx Hpow. apply H2. left. by eapply Hp.
  - intros x e' y Hx Hnq He' Ha Hy. apply H2. destruct (decide (x = id)) as [->|Hne].
    { simplify_eq. right. split; [by apply Hch|done]. }
    apply H2 in Hx as [Hx|[Hx Hx']].
    + left. apply (Hc x e' y); [done| |done..]. intros [->|Hr]%elem_of_cons; [done|]. apply Hnq, H3. by left.
    + destruct (decide (x ∈ sel)) as [Hxs|Hxs].
      * left. apply (Hc x e' y); [done| |done..]. intros [->|Hr]%elem_of_cons; [done|]. apply Hnq, H3. by left.
      * destruct Hnq. apply H3. by right.
Qed.

Lemma enlarge_inv_done content full pe sel : enlarge_inv content full pe sel [] ->
  forall id, id ∈ sel <-> drawn content full id.
Proof.
  intros [Hl Hs _ Hp Hc] id. split; [auto|].
  induction 1 as [id e He Hpow|id e id' e' _ IH He Ha He']; [by eapply Hp|].
  apply (Hc id e id'); [done|set_solver|done|done|by eexists].
Qed.

Lemma enlarge_sound content fuel cap full pe sel q src pe' sel' :
  holds src content -> enlarge_inv content full pe sel q ->
  fst (enlarge fuel cap full pe sel q src) = Some (pe', sel') ->
  lists_selected full pe' sel' /\ (forall id, id ∈ sel' <-> drawn content full id)
  /\ extends src (snd (enlarge fuel cap full pe sel q src)).
Proof.
  revert pe sel q src. induction fuel as [|fuel IH]; intros pe sel [|id rest] src Hh Hinv; simpl.
  1,3: intros [= <- <-]; split; [apply Hinv|]; split; [by apply (enlarge_inv_done _ _ pe)|reflexivity].
  { done. }
  destruct (full !! id) as [e|] eqn:Ee; [|done].
  pose proof (walk_auth_chain_extends (ref_event_json e) src cap) as Hx.
  pose proof (walk_auth_chain_sound content (ref_event_json e) src cap) as Hw.
  destruct (walk_auth_chain _ src cap) as [[chain|] src']; simpl in *; [|done].
  destruct (src_missing src'); [done|].
  destruct (foldl (enlarge_step full) (pe, sel, rest) (iter_set chain)) as [[pe1 sel1] q1] eqn:Ef.
  destruct (Hw chain Hh eq_refl) as [Hch _]. intros He.
  destruct (IH pe1 sel1 q1 src') as (H1 & H2 & H3); [by apply (holds_extends src)| |done|].
  { by eapply enlarge_inv_step. }
  split; [done|]. split; [done|]. by etrans.
Qed.

(** The queue only holds IDs of the full conflicted set, so the walks are the
    only way to fail. *)
Lemma enlarge_complete content R fuel cap full pe sel q src :
  holds src content -> serves src R -> enlarge_inv content full pe sel q -> size R <= cap ->
  (forall id e id', full !! id = Some e -> ancestor content (ref_event_json e) id' -> id' ∈ R) ->
  src_missing src = false -> length q + size (dom full ∖ sel) <= fuel ->
  is_Some (fst (enlarge fuel cap full pe sel q src)).
Proof.
  intros Hh Hs Hinv Hcap HR. revert pe sel q src Hh Hs Hinv.
  induction fuel as [|fuel IH]; intros pe sel [|id rest] src Hh Hs Hinv Hm Hf; simpl; try (by eexists).
  { simpl in Hf. lia. }
  assert (is_Some (full !! id)) as [e Ee].
  { destruct (enl_lists _ _ _ _ _ Hinv) as (ids & _ & Hids & Hall).
    assert (id ∈ ids) as Hin by (apply Hids, (enl_queue _ _ _ _ _ Hinv); by left).
    destruct (Forall2_in_l _ _ _ _ Hall Hin) as (e & _ & He). by eexists. }
  rewrite Ee.
  destruct (walk_loop_fuel content R (ref_event_json e) src cap) as (chain & src' & Hw & Hs' & Hm');
    [done..|by eauto|done|].
  pose proof (walk_auth_chain_extends (ref_event_json e) src cap) as Hx.
  pose proof (walk_auth_chain_sound content (ref_event_json e) src cap) as Hsound.
  rewrite Hw in Hx, Hsound |- *. simpl in Hx, Hsound. destruct (Hsound chain Hh eq_refl) as [Hch _].
  rewrite Hm', Hm.
  destruct (foldl (enlarge_step full) (pe, sel, rest) (iter_set chain)) as [[pe1 sel1] q1] eqn:Ef.
  destruct (enlarge_fold _ _ _ _ _ _ _ _ Ef (enl_lists _ _ _ _ _ Hinv)) as (_ & _ & _ & Hlen).
  apply IH; [by apply (holds_extends src)|done|by eapply enlarge_inv_step|congruence|]. simpl in Hf. lia.
Qed.

Lemma chosen_spec (full : RefMap) id e :
  (id, e) ∈ filter (fun p => is_power_event p.2 = true) (iter_map full)
  <-> full !! id = Some e /\ is_power_event e = true.
Proof. rewrite list_elem_of_filter, iter_map_perm, elem_of_map_to_list. simpl. tauto. Qed.

Lemma enlarge_inv_init content (full : RefMap) :
  let chosen := filter (fun p => is_power_event p.2 = true) (iter_map full) in
  enlarge_inv content full chosen.*2 (list_to_set chosen.*1) (rev (iter_set (list_to_set chosen.*1))).
Proof.
  intros chosen.
  assert (forall id, id ∈ (list_to_set chosen.*1 : gset string)
    <-> exists e, full !! id = Some e /\ is_power_event e = true) as Hsel.
  { intros id. rewrite elem_of_list_to_set, list_elem_of_fmap. split.
    - intros ([k e] & -> & Hk%chosen_spec). eauto.
    - intros (e & He). exists (id, e). split; [done|]. by apply chosen_spec. }
  split.
  - exists chosen.*1. split; [|split].
    + apply NoDup_fmap_fst.
      * intros x a b Ha%chosen_spec Hb%chosen_spec. naive_solver.
      * apply NoDup_filter. rewrite iter_map_perm. apply NoDup_map_to_list.
    + intros id. by rewrite elem_of_list_to_set.
    + assert (forall l, (forall k e, (k, e) ∈ l -> full !! k = Some e) ->
        Forall2 (fun id e => full !! id = Some e) l.*1 l.*2) as Hl.
      { induction l as [|[k e] l IH]; csimpl; constructor; set_solver. }
      apply Hl. intros k e Hk%chosen_spec. naive_solver.
  - intros id (e & He & Hp)%Hsel. by eapply drawn_power.
  - intros id. rewrite list_elem_of_In, <- in_rev, <- list_elem_of_In. by rewrite elem_of_iter_set.
  - intros id e He Hp. apply Hsel. eauto.
  - intros id e id' Hid Hn. exfalso. apply Hn.
    rewrite list_elem_of_In, <- in_rev, <- list_elem_of_In. by apply elem_of_iter_set.
Qed.

(** * The auth checks *)

(** The user a membership event is about. *)
Definition target_of (o : Object) (user : string) : Prop := text_member o "type" "m.room.member" /\ text_member o "state_key" user.

(** The token of the third-party invite a membership event carries. *)
Definition token_of (o : Object) (token : string) : Prop :=
  (exists user, target_of o user) /\ exists c i s, object_member o "content" = Some (VObject c)
    /\ object_member c "third_party_invite" = Some (VObject i) /\ object_member i "signed" = Some (VObject s) /\ text_member s "token" token.

(** The user a membership event names to vouch for a restricted join. *)
Definition authoriser_of (o : Object) (user : string) : Prop :=
  (exists target, target_of o target) /\ exists c, object_member o "content" = Some (VObject c)
    /\ text_member c "membership" "join" /\ text_member c "join_authorised_via_users_server" user /\ user <> EmptyString.

(** The type and state key an event has in its JSON. *)
Definition event_key (v : Value) : option StateKey :=
  (fun o => mkStateKey (default EmptyString (string_member o "type")) (default EmptyString (string_member o "state_key")))
    <$> value_is_object v.

Section Judging.
Context (content : string -> option Value) (rejected : string -> Prop) (policy : RoomVersionPolicy).

Definition eligible (k : StateKey) (id : string) (v : Value) : Prop :=
  content id = Some v /\ ~ rejected id /\ event_key v = Some k.

(** The first of an event's own auth events that has the key and was not rejected, with its ID; empty when there is
    none. *)
Inductive named_auth (k : StateKey) : list string -> Value * string -> Prop :=
| named_none : named_auth k [] (VNull, EmptyString)
| named_here id ids v : eligible k id v -> named_auth k (id :: ids) (v, id)
| named_later id ids p : (forall v, ~ eligible k id v) -> named_auth k ids p -> named_auth k (id :: ids) p.

(** What the check of [event] against the state [st] reads under a key: the state's event, and without one the event's
    own auth event. *)
Definition reads (st : StateMap) (event : Value) (k : StateKey) (p : Value * string) : Prop :=
  match st !! k with
  | Some e => p = (ref_event_json e, ref_event_id e)
  | None => named_auth k (auth_event_ids event) p
  end.

(** What is read for the state key that [names] gives, if any. *)
Definition reads_for (st : StateMap) (event : Value) (type : string) (names : string -> Prop) (v : Value) : Prop :=
  (forall k, names k -> exists id, reads st event (mkStateKey type k) (v, id)) /\ ((forall k, ~ names k) -> v = VNull).

(** The events that [event] is judged by against [st]. *)
Definition auth_view (st : StateMap) (event : Value) (am : AuthEventMap) : Prop :=
  match value_is_object event with
  | None => am = empty_auth_event_map
  | Some o =>
      reads st event (mkStateKey "m.room.create" EmptyString) (create am, create_event_id am)
      /\ (exists id, reads st event (mkStateKey "m.room.power_levels" EmptyString) (power_levels am, id))
      /\ (exists id, reads st event (mkStateKey "m.room.join_rules" EmptyString) (join_rules am, id))
      /\ reads_for st event "m.room.member" (text_member o "sender") (sender_member am)
      /\ reads_for st event "m.room.member" (target_of o) (target_member am)
      /\ reads_for st event "m.room.third_party_invite" (token_of o) (third_party_invite am)
      /\ reads_for st event "m.room.member" (authoriser_of o) (authorising_user_member am)
  end.

(** The events in turn, each judged by the authorization rules against the state that those before it left: one that is
    allowed takes its key, one that is refused or has no content changes nothing. *)
Inductive judged : StateMap -> list StateEventReference -> StateMap -> Prop :=
| judged_all st : judged st [] st
| judged_allowed st e es st' am : value_has_content (ref_event_json e) = true -> auth_view st (ref_event_json e) am ->
    allowed (authorize_event_against_auth_events (ref_event_json e) policy am) = true ->
    judged (<[ref_key e := e]> st) es st' -> judged st (e :: es) st'
| judged_refused st e es st' am : value_has_content (ref_event_json e) = true -> auth_view st (ref_event_json e) am ->
    allowed (authorize_event_against_auth_events (ref_event_json e) policy am) = false ->
    judged st es st' -> judged st (e :: es) st'
| judged_unread st e es st' : value_has_content (ref_event_json e) = false -> judged st es st' -> judged st (e :: es) st'.

(** ** What the code reads *)

(** A source that reads the auth events of [event] from memory. *)
Definition recalls (src : Source) (event : Value) : Prop :=
  forall id, id ∈ auth_event_ids event -> in_memory src id.

Section Reading.
Context (src : Source) (Hheld : holds src content).
Context (Hrejected : forall id, in_memory src id -> id ∈ src_rejected src <-> rejected id).

Lemma own_auth_reads entries k : (forall id, id ∈ omap auth_entry_event_id entries -> in_memory src id) ->
  exists p, own_auth_entries entries k src = (p, src) /\ named_auth k (omap auth_entry_event_id entries) p.
Proof.
  induction entries as [|entry entries IH]; intros Hmem; simpl in *; [eexists; split; [done|constructor]|].
  destruct (auth_entry_event_id entry) as [id|]; [|by apply IH].
  destruct IH as (p & Hp & Hn); [intros x Hx; apply Hmem; by right|].
  assert (in_memory src id) as Hid by (apply Hmem; by left).
  destruct (fetch_memory id src (proj1 Hheld) Hid) as (v & Hf & Hv). rewrite (proj2 Hheld) in Hv. unfold find_optional. rewrite Hf.
  pose proof (Hrejected id Hid) as Hrej. unfold is_rejected. case_bool_decide as Hr.
  { exists p. split; [done|]. apply named_later; [|done]. intros w (_ & Hno & _). by apply Hno, Hrej. }
  assert (~ rejected id) as Hok by (by rewrite <- Hrej).
  assert (forall w, eligible k id w <-> w = v /\ event_key v = Some k) as Hel.
  { intros w. unfold eligible. rewrite Hv. naive_solver. }
  unfold event_key in Hel. destruct (value_is_object v) as [o|]; simpl in Hel.
  2: { exists p. split; [done|]. apply named_later; [|done]. intros w [_ ?]%Hel. done. }
  destruct (state_key_matches _ k) eqn:Ek.
  - apply state_key_matches_eq in Ek. exists (v, id). split; [done|]. apply named_here. apply Hel. by rewrite Ek.
  - exists p. split; [done|]. apply named_later; [|done]. intros w [_ [= Hk]]%Hel. by rewrite (proj2 (state_key_matches_eq _ _) Hk) in Ek.
Qed.

Lemma slot_reads o st k : recalls src (VObject o) ->
  exists p, slot_event o st k src = (p, src) /\ reads st (VObject o) k p.
Proof.
  intros Hmem. unfold slot_event, reads. destruct (st !! k) as [e|]; [by eexists|].
  unfold find_own_auth_event, recalls, auth_event_ids in *. simpl in *.
  destruct (array_member o "auth_events") as [auth|]; [by apply own_auth_reads|]. eexists. split; [done|constructor].
Qed.

Lemma optional_slot_reads o st type key (names : string -> Prop) : recalls src (VObject o) -> (forall k, key = Some k <-> names k) ->
  exists v, optional_slot o st type key src = (v, src) /\ reads_for st (VObject o) type names v.
Proof.
  intros Hmem Hkey. unfold optional_slot, reads_for. destruct key as [k|].
  - destruct (slot_reads o st (mkStateKey type k) Hmem) as ([v id] & -> & Hr). exists v. split; [done|]. split.
    + intros k' Hk'%Hkey. simplify_eq. by exists id.
    + intros Hno. destruct (Hno k). by apply Hkey.
  - exists VNull. split; [done|]. split; [|done]. by intros k Hk%Hkey.
Qed.

Lemma object_text o key text : string_member o key = Some text <-> text_member o key text.
Proof. apply string_member_Some. Qed.

Lemma object_object o key c : object_member_as_object o key = Some c <-> object_member o key = Some (VObject c).
Proof. unfold object_member_as_object. destruct (object_member o key) as [[]|]; simpl; naive_solver. Qed.

(** The key of the membership slot of the event's target. *)
Lemma target_key o k :
  (if match string_member o "type" with Some t => t =s "m.room.member" | None => false end
   then string_member o "state_key" else None) = Some k <-> target_of o k.
Proof.
  unfold target_of. rewrite <- !object_text. destruct (string_member o "type") as [t|]; [|by split; [|intros []]].
  destruct (t =s "m.room.member") eqn:E; breflect; [subst t; by split; [|intros []]|]. split; [done|]. intros [[= ?] _]. done.
Qed.

Lemma token_key o target k : (forall u, target = Some u <-> target_of o u) ->
  invite_token (match target with None => None | Some _ => object_member_as_object o "content" end) = Some k <-> token_of o k.
Proof.
  intros Ht. unfold token_of, invite_token. destruct target as [u|]; simpl.
  - assert (exists user, target_of o user) as Hu by (exists u; by apply Ht). split.
    + intros (c & Hc%object_object & (i & Hi%object_object & (x & Hx%object_object & Hk%object_text)%bind_Some)%bind_Some)%bind_Some.
      split; [done|]. by exists c, i, x.
    + intros (_ & c & i & x & Hc%object_object & Hi%object_object & Hx%object_object & Hk%object_text). by rewrite Hc; simpl; rewrite Hi; simpl; rewrite Hx.
  - split; [done|]. intros [[u Hu%Ht] _]. done.
Qed.

Lemma authoriser_key o target k : (forall u, target = Some u <-> target_of o u) ->
  restricted_join_authoriser (match target with None => None | Some _ => object_member_as_object o "content" end) = Some k
  <-> authoriser_of o k.
Proof.
  intros Ht. unfold authoriser_of, restricted_join_authoriser. destruct target as [u|].
  - assert (exists user, target_of o user) as Hu by (exists u; by apply Ht).
    setoid_rewrite <- object_object. setoid_rewrite <- object_text.
    destruct (object_member_as_object o "content") as [c|]; [|split; [done|by intros (_ & c & ? & _)]]. split.
    + destruct (string_member c "membership") as [m|] eqn:Em; [|done].
      destruct (string_member c "join_authorised_via_users_server") as [a|] eqn:Ea; [|done].
      destruct (m =s "join") eqn:E; breflect; simpl; [|done]. destruct (empty a) eqn:Ee; simpl; [done|]. intros [= <-].
      split; [done|]. exists c. split; [done|]. split; [congruence|]. split; [done|]. by destruct a.
    + intros (_ & c' & [= <-] & -> & -> & Hne). simpl. by destruct k.
  - split; [done|]. intros [[u Hu%Ht] _]. done.
Qed.

(** The auth events of a check are read as specified, and from memory. *)
Lemma build_reads event st : recalls src event ->
  exists am, build_auth_event_map_from_state event st src = (am, src) /\ auth_view st event am.
Proof.
  intros Hmem. unfold build_auth_event_map_from_state, auth_view. destruct (value_is_object event) as [o|] eqn:Eo; [|by eexists].
  assert (event = VObject o) as -> by (destruct event; naive_solver). clear Eo.
  cbv zeta. set (target := if match string_member o "type" with Some t => t =s "m.room.member" | None => false end
                then string_member o "state_key" else None).
  pose proof (target_key o : forall u, target = Some u <-> target_of o u) as Ht.
  destruct (slot_reads o st (mkStateKey "m.room.create" EmptyString) Hmem) as ([v1 id1] & -> & R1).
  destruct (slot_reads o st (mkStateKey "m.room.power_levels" EmptyString) Hmem) as ([v2 id2] & -> & R2).
  destruct (slot_reads o st (mkStateKey "m.room.join_rules" EmptyString) Hmem) as ([v3 id3] & -> & R3).
  destruct (optional_slot_reads o st "m.room.member" (string_member o "sender") (text_member o "sender") Hmem (object_text o "sender"))
    as (v4 & -> & R4).
  destruct (optional_slot_reads o st "m.room.member" target (target_of o) Hmem Ht) as (v5 & -> & R5).
  destruct (optional_slot_reads o st "m.room.third_party_invite" _ (token_of o) Hmem (fun k => token_key o target k Ht)) as (v6 & -> & R6).
  destruct (optional_slot_reads o st "m.room.member" _ (authoriser_of o) Hmem (fun k => authoriser_key o target k Ht)) as (v7 & -> & R7).
  eexists. split; [done|]. simpl. eauto 10.
Qed.

(** The iterative auth checks judge the events in turn. *)
Lemma checks_judged sorted st :
  (forall e, e ∈ sorted -> value_has_content (ref_event_json e) = true -> recalls src (ref_event_json e)) ->
  exists st', apply_iterative_auth_checks policy sorted (st, src) = (st', src) /\ judged st sorted st'.
Proof.
  revert st. induction sorted as [|e sorted IH]; intros st Hmem; [eexists; split; [done|constructor]|].
  unfold apply_iterative_auth_checks in *. simpl. destruct (value_has_content (ref_event_json e)) eqn:Ec; simpl.
  - destruct (build_reads (ref_event_json e) st) as (am & -> & Hv); [apply Hmem; [by left|done]|].
    destruct (allowed _) eqn:Ea.
    + destruct (IH (<[ref_key e := e]> st)) as (st' & Hs & Hj); [intros x Hx; apply Hmem; by right|].
      exists st'. split; [done|]. by eapply judged_allowed.
    + destruct (IH st) as (st' & Hs & Hj); [intros x Hx; apply Hmem; by right|]. exists st'. split; [done|]. by eapply judged_refused.
  - destruct (IH st) as (st' & Hs & Hj); [intros x Hx; apply Hmem; by right|]. exists st'. split; [done|]. by apply judged_unread.
Qed.
End Reading.

(** Whoever is in the state at the end was there at the start or was allowed in. *)
Lemma judged_result st sorted st' k e : judged st sorted st' -> st' !! k = Some e ->
  st !! k = Some e \/ (e ∈ sorted /\ ref_key e = k).
Proof.
  induction 1 as [st|st x es st' am Hc Hv Ha Hj IH|st x es st' am Hc Hv Ha Hj IH|st x es st' Hc Hj IH]; intros He; [by left|..].
  2,3: destruct (IH He) as [?|[??]]; [by left|right; split; [by right|done]].
  destruct (IH He) as [Hi|[??]]; [|right; split; [by right|done]].
  destruct (decide (k = ref_key x)) as [->|Hne]; [|by rewrite lookup_insert_ne in Hi; [left|]].
  rewrite lookup_insert_eq in Hi. simplify_eq. right. split; [by left|done].
Qed.
End Judging.


(** Selected and remaining events together are the full conflicted set. *)
Lemma selection_splits full events selected : lists_selected full events selected ->
  events ++ remaining_events full selected ≡ₚ (map_to_list full).*2.
Proof.
  intros (ids & Hnd & Hids & Hall).
  assert (zip ids events ≡ₚ filter (fun p => p.1 ∈ selected) (map_to_list full)) as Hz.
  { assert ((zip ids events).*1 = ids) as Hfst by (apply fst_zip; by rewrite (Forall2_length _ _ _ Hall)).
    apply NoDup_Permutation.
    - apply (NoDup_fmap_1 fst). by rewrite Hfst.
    - apply NoDup_filter, NoDup_map_to_list.
    - intros [id e]. rewrite list_elem_of_filter, elem_of_map_to_list. simpl. split.
      + intros Hin. split.
        * apply Hids. rewrite <- Hfst. by apply (list_elem_of_fmap_2 fst _ (id, e)).
        * clear -Hall Hin. induction Hall as [|i x ids events Hi _ IH]; [set_solver|].
          csimpl in Hin. apply elem_of_cons in Hin as [[= -> ->]|]; auto.
      + intros [Hin He]. apply Hids in Hin. clear -Hall Hin He.
        induction Hall as [|i x ids events Hi _ IH]; [set_solver|]. csimpl.
        apply elem_of_cons in Hin as [->|]; apply elem_of_cons; [left; congruence|right; auto]. }
  assert (events = (zip ids events).*2) as Hsnd by (by rewrite snd_zip by (by rewrite (Forall2_length _ _ _ Hall))).
  rewrite Hsnd. unfold remaining_events. rewrite Hz, iter_map_perm, <- fmap_app.
  by rewrite (filter_app_complement (fun p => p.1 ∈ selected)).
Qed.

Lemma power_sort_perm conflicted known lookup policy limits sorted :
  reverse_topological_power_sort conflicted known lookup policy limits = Some sorted -> sorted ≡ₚ conflicted.
Proof.
  intros (cs & Hc & Hs & _)%power_sort_inv.
  destruct (sort_candidates_sound cs sorted Hs) as (_ & l & -> & Hl).
  rewrite (po_perm _ _ Hl). clear -Hc. induction Hc as [|e c events cs [<- _] _ IH]; csimpl; [done|]. by rewrite IH.
Qed.

Lemma positions_extends limits mainline events table src : extends src (snd (positions limits mainline events table src)).
Proof.
  revert table src. induction events as [|event events IH]; intros table src; simpl; [reflexivity|].
  assert (extends src (snd (event_position limits mainline event src))) as He.
  { unfold event_position. destruct mainline; [reflexivity|]. destruct (value_is_object _); [apply position_loop_extends|reflexivity]. }
  destruct (event_position limits mainline event src) as [[position|] src']; simpl in *; [|done]. etrans; [exact He|apply IH].
Qed.

Lemma mainline_order_extends content events resolved src limits sorted : holds src content ->
  fst (mainline_order_with_source events resolved src limits) = Some sorted ->
  extends src (snd (mainline_order_with_source events resolved src limits)).
Proof.
  intros Hh. unfold mainline_order_with_source. pose proof (resolved_mainline_sound content resolved src limits) as Hm.
  destruct (resolved_mainline resolved src limits) as [[mainline|] src1]; simpl in *; [|done].
  destruct (Hm mainline Hh eq_refl) as (_ & _ & _ & He). pose proof (positions_extends limits mainline events ∅ src1) as Hp.
  destruct (positions limits mainline events ∅ src1) as [[table|] src2]; simpl in *; [|done].
  destruct (src_missing src2); [done|]. intros _. by etrans.
Qed.

(** * The resolved state *)

(** The events that a submitted copy or the lookup marks as rejected. *)
Definition rejected_event (request : StateResolutionRequest) (id : string) : Prop :=
  (exists e, e ∈ submitted_events request /\ ref_event_id e = id /\ ref_rejected e = true)
  \/ (build_event_json_index (state_groups request) !! id = None
      /\ exists lookup r, event_lookup request = Some lookup /\ lookup id = Some r /\ ref_rejected r = true).

(** The state the auth checks start from: the unconflicted state; for room version 12 the create event alone, the one the
    room ID names, or else the unconflicted one. *)
Definition start_state (request : StateResolutionRequest) (policy : RoomVersionPolicy) (unconflicted start : StateMap) : Prop :=
  if is_v2_1 policy then
    if (2 <=? String.length (req_room_id request)) && starts_with "!" (req_room_id request)
    then exists c, ref_event_id c = String "$" (drop_str 1 (req_room_id request)) /\ read_from (request_content request) c
           /\ ref_key c = create_key /\ start = {[create_key := c]}
    else start = match unconflicted !! create_key with Some c => {[create_key := c]} | None => ∅ end
  else start = unconflicted.

(** The two rounds of auth checks over the full conflicted set.  First the power events and what they draw in, in the
    reverse topological power order, from the starting state; then all the others, in the mainline order of the power
    levels the first round left.  Each event is judged against the state left by those before it. *)
Definition checked (request : StateResolutionRequest) (policy : RoomVersionPolicy) (full : RefMap) (start final : StateMap) : Prop :=
  let content := request_content request in
  let judges := judged content (rejected_event request) policy in
  exists power candidates ordered rest middle mainline,
    (forall e, e ∈ power <-> exists id, full !! id = Some e /\ drawn content full id)
    /\ candidates_of content policy power candidates /\ power_ordered candidates ordered
    /\ judges start (cand_event <$> ordered) middle
    /\ power ++ rest ≡ₚ (map_to_list full).*2
    /\ mainline_of content middle mainline /\ StronglySorted (mainline_le content mainline) rest
    /\ judges middle rest final.

Section Run.
Context (request : StateResolutionRequest) (policy : RoomVersionPolicy).

Let fresh : Source := new_source (build_event_json_index (state_groups request)) (event_lookup request)
  (max_auth_chain_walk_events (limits request)) (rejected_of_groups (state_groups request)).

Lemma rejections src id : extends fresh src -> in_memory src id -> id ∈ src_rejected src <-> rejected_event request id.
Proof.
  intros He Hm. assert (id ∈ rejected_of_groups (state_groups request)
    <-> exists e, e ∈ submitted_events request /\ ref_event_id e = id /\ ref_rejected e = true) as Hgroups.
  { unfold rejected_of_groups. rewrite elem_of_list_to_set, list_elem_of_fmap. setoid_rewrite list_elem_of_filter.
    unfold submitted_events. split; intros (e & H); exists e; naive_solver. }
  unfold rejected_event. rewrite <- Hgroups. split; [by eapply rejected_in_memory|by eapply memory_rejected].
Qed.

Lemma resolve_full_run subgraph unconflicted full start src l :
  extends fresh src -> full_set request subgraph full -> recalled src full ->
  resolve_full request policy unconflicted full start src = Resolved l ->
  exists final, l = state_values (unconflicted ∪ final) /\ checked request policy full start final.
Proof.
  intros Hext Hfull Hrec. pose proof (holds_extends _ _ _ Hext (new_source_holds _ _ _ _)) as Hh.
  fold (request_content request) in Hh. unfold resolve_full, select_power_events.
  set (cap := max_auth_chain_walk_events (limits request)). set (chosen := filter _ (iter_map full)).
  pose proof (enlarge_sound (request_content request) (size full) cap full chosen.*2 (list_to_set chosen.*1)
    (rev (iter_set (list_to_set chosen.*1))) src) as He.
  destruct (enlarge _ _ _ _ _ _ src) as [[[pe sel]|] src1]; simpl in *; [|done].
  destruct (He pe sel Hh (enlarge_inv_init _ full) eq_refl) as (Hlists & Hsel & He1).
  pose proof (selection_splits full pe sel Hlists) as Hsplit. destruct Hlists as (ids & _ & Hids & Hall).
  destruct (reverse_topological_power_sort _ _ _ _ _) as [sp|] eqn:Es; [|done].
  destruct (power_sort_correct _ _ _ _ _ _ Es) as (cs & ordered & Hcs & _ & -> & Hord & _). fold (request_content request) in Hcs.
  pose proof (power_sort_perm _ _ _ _ _ _ Es) as Hperm.
  assert (forall e, e ∈ pe ++ remaining_events full sel -> exists id, full !! id = Some e) as Hin.
  { intros e. rewrite Hsplit. intros ([id x] & -> & Hx)%list_elem_of_fmap. exists id. by apply elem_of_map_to_list. }
  assert (forall src', extends src src' -> forall e, e ∈ pe ++ remaining_events full sel ->
    value_has_content (ref_event_json e) = true -> recalls src' (ref_event_json e)) as Hmem.
  { intros src' Hx e [id Hid]%Hin Hc x Hxin. eapply in_memory_extends; [exact Hx|]. by eapply Hrec. }
  destruct (checks_judged (request_content request) (rejected_event request) policy src1 (holds_extends _ _ _ He1 Hh)
    (fun id => rejections src1 id (transitivity Hext He1)) (cand_event <$> ordered) start) as (middle & -> & Hj1).
  { intros e Hein. apply (Hmem src1 He1). apply elem_of_app. left. by rewrite <- Hperm. }
  assert (NoDup (ref_event_id <$> remaining_events full sel)) as Hnd.
  { pose proof (full_set_ids _ _ _ Hfull) as Hn.
    rewrite <- Hsplit, fmap_app in Hn. by apply NoDup_app in Hn as (_ & _ & ?). }
  pose proof (mainline_order_sound (request_content request) (remaining_events full sel) middle src1 (limits request)) as Hm.
  pose proof (mainline_order_extends (request_content request) (remaining_events full sel) middle src1 (limits request)) as Hmx.
  destruct (mainline_order_with_source _ middle src1 _) as [[rest|] src3]; simpl in *; [|done].
  destruct (Hm rest (holds_extends _ _ _ He1 Hh) Hnd eq_refl) as (mainline & Hml & _ & _ & Hrest & Hsorted).
  specialize (Hmx rest (holds_extends _ _ _ He1 Hh) eq_refl). destruct (src_missing src3); [done|].
  pose proof (transitivity He1 Hmx) as He3.
  destruct (checks_judged (request_content request) (rejected_event request) policy src3 (holds_extends _ _ _ He3 Hh)
    (fun id => rejections src3 id (transitivity Hext He3)) rest middle) as (final & -> & Hj2).
  { intros e Hein. apply (Hmem src3 He3). apply elem_of_app. right. by rewrite <- Hrest. }
  intros [= <-]. exists final. split; [done|]. exists pe, cs, ordered, rest, middle, mainline.
  split; [|split; [done|]; split; [done|]; split; [done|]; split; [by rewrite Hrest|done]].
  intros e. split.
  - intros Hein. destruct (Forall2_in_r _ _ _ _ Hall Hein) as (id & Hid & Hf). exists id. split; [done|]. by apply Hsel, Hids.
  - intros (id & Hf & Hd). apply Hsel, Hids in Hd. destruct (Forall2_in_l _ _ _ _ Hall Hd) as (e' & He' & Hf'). simpl in Hf'. congruence.
Qed.

Lemma seed_create_run unconflicted src start src' : is_v2_1 policy = true -> holds src (request_content request) ->
  seed_create request unconflicted src = (inr start, src') -> extends src src' /\ start_state request policy unconflicted start.
Proof.
  intros Hv Hh. unfold seed_create, start_state. rewrite Hv. destruct (_ && _).
  - set (id := String _ _). pose proof (materialize_extends id src) as He.
    pose proof (materialize_sound (request_content request) id src) as Hm.
    destruct (materialize_ref id src) as [[r|] src1]; simpl in *; [|done].
    destruct (src_missing src1); [done|]. simpl.
    destruct (sk_event_type (ref_key r) <>s "m.room.create") eqn:Et; [done|]. simpl.
    destruct (empty (sk_state_key (ref_key r))) eqn:Ek; [|done]. simpl. intros [= <- <-]. breflect.
    destruct (Hm r Hh eq_refl) as [Hid Hj].
    assert (ref_key r = create_key) as Hkey.
    { destruct (ref_key r) as [t k]; simpl in *. subst. unfold create_key. by destruct k. }
    split; [done|]. exists r. by rewrite <- Hkey.
  - destruct (unconflicted !! create_key); by intros [= <- <-].
Qed.

Lemma resolve_conflicted_run unconflicted all_conflicted l : lists_disputed request all_conflicted ->
  resolve_conflicted request policy unconflicted all_conflicted = Resolved l ->
  exists full start final, full_set request (is_v2_1 policy) full /\ start_state request policy unconflicted start
    /\ checked request policy full start final /\ l = state_values (unconflicted ∪ final).
Proof.
  intros Hl. unfold resolve_conflicted. fold fresh.
  assert (holds fresh (request_content request)) as Hh by apply new_source_holds.
  destruct (full_conflicted_set request all_conflicted fresh) as [[why|full] src1] eqn:Ef; [done|].
  destruct (full_conflicted_run _ _ _ _ _ Hh Hl Ef) as (Hfull & Hrec & He1 & _).
  pose proof (holds_extends _ _ _ He1 Hh) as Hh1. destruct (is_v2_1 policy) eqn:Ev.
  - destruct (add_conflicted_subgraph request all_conflicted full src1) as [[why|full2] src2] eqn:Es; [done|].
    destruct (subgraph_run _ _ _ _ _ _ Hh1 Hl Hfull Hrec Es) as (Hfull2 & Hrec2 & He2).
    pose proof (holds_extends _ _ _ He2 Hh1) as Hh2.
    destruct (seed_create request unconflicted src2) as [[why|start] src3] eqn:Ec; [done|].
    destruct (seed_create_run _ _ _ _ Ev Hh2 Ec) as [He3 Hstart].
    intros Hr. destruct (resolve_full_run true unconflicted full2 start src3 l) as (final & -> & Hfin); [| | |exact Hr|].
    + etrans; [exact He1|]. by etrans.
    + done.
    + intros id e x Hf Hc Hx. eapply in_memory_extends; [exact He3|]. by eapply Hrec2.
    + by exists full2, start, final.
  - intros Hr. destruct (resolve_full_run false unconflicted full unconflicted src1 l) as (final & -> & Hfin); [done..|].
    exists full, unconflicted, final. split; [done|]. split; [|done]. unfold start_state. by rewrite Ev.
Qed.
End Run.

(** The unconflicted map of a request. *)
Definition unconflicted_state (request : StateResolutionRequest) : StateMap :=
  fst (partition_conflicted_state (state_groups request) (limits request)).

Lemma partition_nil limits : partition_conflicted_state [] limits = (∅, ∅).
Proof.
  unfold partition_conflicted_state. rewrite bool_decide_eq_false_2 by (simpl; by intros []).
  simpl. by rewrite !map_filter_empty, !fmap_empty.
Qed.

(** Unconflicted entries are stored under their keys. *)
Lemma unconflicted_keyed request : keyed (unconflicted_state request).
Proof.
  unfold unconflicted_state. intros k e.
  destruct (partition_conflicted_state (state_groups request) (limits request)) as [u c] eqn:Ep. simpl.
  intros He. assert (size u <> 0) as Hsz.
  { rewrite map_size_ne_0_lookup. eauto. }
  apply partition_inv in Ep; [|by left].
  assert (u = fst (split_tallies (length (state_groups request)) (full_tally (state_groups request)))) as Hu
    by (by rewrite <- Ep).
  rewrite Hu in He. apply (part_unconflicted _ _ _ (split_tallies_partitions (state_groups request))) in He.
  by destruct He as [(g & _ & _ & ?) _].
Qed.

(** What the groups agree on. *)
Lemma unconflicted_partition request u c : partition_conflicted_state (state_groups request) (limits request) = (u, c) ->
  (size u =? 0) && (size c =? 0) = false -> partitions (state_groups request) u c.
Proof.
  intros Ep Ez. apply partition_inv in Ep.
  2: { apply andb_false_iff in Ez as [Ez|Ez]; apply Nat.eqb_neq in Ez; auto. }
  pose proof (split_tallies_partitions (state_groups request)) as Hp. by rewrite <- Ep in Hp.
Qed.

(** The unconflicted state is exactly the agreement of the groups. *)
Definition agreement (request : StateResolutionRequest) : Prop :=
  (forall k e, unconflicted_state request !! k = Some e -> e ∈ submitted_events request /\ ref_key e = k
     /\ unanimous (state_groups request) k (ref_event_id e))
  /\ forall e id, e ∈ submitted_events request -> unanimous (state_groups request) (ref_key e) id ->
       is_Some (unconflicted_state request !! ref_key e).

Lemma partition_agreement request u c : unconflicted_state request = u -> partitions (state_groups request) u c -> agreement request.
Proof.
  intros Hu Hp. unfold agreement. rewrite Hu. split.
  - intros k e [(g & Hg & Hin & Hk) Hun]%(part_unconflicted _ _ _ Hp). split; [|done].
    apply elem_of_submitted. by exists g.
  - intros e id He%elem_of_submitted Hun. destruct (part_covers _ _ _ Hp _ _ He) as [?|[x Hx]]; [done|].
    by apply (part_conflicted _ _ _ Hp) in Hx as [_ []%(fun H => H id)].
Qed.

(** A resolution of disputed state, from the full conflicted set to the state the auth checks end with. *)
Definition resolution (request : StateResolutionRequest) (policy : RoomVersionPolicy) (final : StateMap) : Prop :=
  exists full start, full_set request (is_v2_1 policy) full /\ start_state request policy (unconflicted_state request) start
    /\ checked request policy full start final.

Lemma resolve_v2_run request policy l : resolve_state_v2 request policy = Resolved l ->
  agreement request
  /\ (((forall id, ~ disputed request id) /\ l = state_values (unconflicted_state request))
      \/ exists final, resolution request policy final /\ l = state_values (unconflicted_state request ∪ final)).
Proof.
  unfold resolve_state_v2. destruct (validate_state_resolution_request request); [done|].
  destruct (state_groups request) as [|g gs] eqn:Eg.
  { intros [= <-]. assert (unconflicted_state request = ∅) as Hu by (unfold unconflicted_state; by rewrite Eg, partition_nil).
    unfold agreement, disputed, submitted_events. rewrite Hu, Eg. split; [split; [done|set_solver]|]. left. split; [set_solver|].
    unfold state_values. pose proof (iter_state_map_perm ∅) as Hp. rewrite map_to_list_empty in Hp.
    by apply Permutation_nil_r in Hp as ->. }
  rewrite <- Eg. clear Eg. unfold resolution, agreement, unconflicted_state. fold (unconflicted_state request).
  destruct (partition_conflicted_state (state_groups request) (limits request)) as [u c] eqn:Ep.
  assert (unconflicted_state request = u) as Hu by (unfold unconflicted_state; by rewrite Ep).
  destruct (_ && _) eqn:Ez; [done|]. pose proof (unconflicted_partition request u c Ep Ez) as Hp.
  pose proof (partition_agreement request u c Hu Hp) as Hagree. unfold agreement in Hagree. rewrite Hu in *. cbn [fst].
  destruct (collect_conflicted _ c _ ∅ []) as [[|x all]|] eqn:Ec; [| |done].
  - intros [= <-]. split; [done|]. left. split; [|done]. pose proof (collect_lists_disputed request u c [] Hp Ec) as [_ Hd].
    intros id Hid%Hd. by apply not_elem_of_nil in Hid.
  - pose proof (collect_lists_disputed request u c _ Hp Ec) as Hd. intros Hr. split; [done|]. right.
    destruct (resolve_conflicted_run request policy u (x :: all) l Hd Hr) as (full & start & final & ? & ? & ? & ->).
    exists final. split; [by exists full, start|done].
Qed.

(** The state the checks end with is stored under its keys. *)
Lemma checked_keyed request policy full start final : keyed start -> checked request policy full start final -> keyed final.
Proof.
  intros Hs (power & cs & ordered & rest & middle & mainline & _ & _ & _ & H1 & _ & _ & _ & H2) k e He.
  destruct (judged_result _ _ _ _ _ _ _ _ H2 He) as [Hm|[_ ?]]; [|done].
  destruct (judged_result _ _ _ _ _ _ _ _ H1 Hm) as [Hst|[_ ?]]; [by apply Hs|done].
Qed.

Lemma resolution_keyed request policy final : resolution request policy final -> keyed (unconflicted_state request ∪ final).
Proof.
  intros (full & start & _ & Hstart & Hc). pose proof (unconflicted_keyed request) as Hu.
  assert (keyed start) as Hs.
  { unfold start_state in Hstart. destruct (is_v2_1 policy); [|by subst]. destruct (_ && _).
    - destruct Hstart as (c & _ & _ & Hk & ->). by intros k e [<- <-]%lookup_singleton_Some.
    - destruct (unconflicted_state request !! create_key) as [c|] eqn:E; subst start; [|done].
      intros k e [<- <-]%lookup_singleton_Some. by apply Hu. }
  intros k e [Hk|[_ Hk]]%lookup_union_Some_raw; [by apply Hu|]. by eapply checked_keyed.
Qed.

Lemma resolve_v2_keys request policy l : resolve_state_v2 request policy = Resolved l -> NoDup (ref_key <$> l).
Proof.
  intros [_ [[_ ->]|(final & Hres & ->)]]%resolve_v2_run; apply state_values_keys; [apply unconflicted_keyed|by eapply resolution_keyed].
Qed.

(** Without a conflicted key no event is collected. *)
Lemma collect_conflicted_none limits conflicted events seen acc :
  (forall e, e ∈ events -> conflicted !! ref_key e = None) ->
  collect_conflicted limits conflicted events seen acc = Some acc.
Proof.
  revert seen acc. induction events as [|x events IH]; intros seen acc Hn; simpl; [done|].
  rewrite Hn by set_solver. apply IH. set_solver.
Qed.

(** * Properties *)

(** C3. What version 2 of state resolution returns.  A resolved state has one event
    per state key, and the state that all groups agree on is in it: neither the
    auth checks nor an auth-chain event with the same key can displace it.  When
    nothing is disputed, that is all.  Otherwise the rest is what the run of the
    algorithm that the specification describes leaves: the full conflicted set is the
    disputed events, the auth difference of the groups and, for room version 12, the
    events between disputed ones; the checks start from the unconflicted state, for
    room version 12 from the create event alone; the power events and what their auth
    chains draw in come first, in reverse topological power order, then all the others
    in the mainline order of the power levels the first ones leave; and each event is
    judged by the authorization rules of the room version against the state that the
    events before it left, with its own auth events (the first that is not
    rejected) under the keys this state has no event for: it takes its key when it is
    allowed, and changes nothing when it is refused. *)
Theorem resolved_events_are_justified request policy l :
  resolve_state_v2 request policy = Resolved l ->
  agreement request /\ NoDup (ref_key <$> l)
  /\ (forall k e, unconflicted_state request !! k = Some e -> e ∈ l)
  /\ (((forall id, ~ disputed request id) /\ forall e, e ∈ l -> unconflicted_state request !! ref_key e = Some e)
      \/ exists final, resolution request policy final
          /\ forall e, e ∈ l <-> (unconflicted_state request ∪ final) !! ref_key e = Some e).
Proof.
  intros Hr. pose proof (resolve_v2_keys _ _ _ Hr) as Hkeys. apply resolve_v2_run in Hr as [Hagree Hrun].
  split; [done|]. split; [done|]. pose proof (unconflicted_keyed request) as Hu.
  destruct Hrun as [[Hno ->]|(final & Hres & ->)].
  - split; [intros k e He; apply elem_of_state_values; eauto|]. left. split; [done|].
    intros e [k Hk]%elem_of_state_values. by rewrite (Hu k e Hk).
  - pose proof (resolution_keyed request policy final Hres) as Hk. split.
    + intros k e He. apply elem_of_state_values. exists k. by apply lookup_union_Some_l.
    + right. exists final. split; [done|]. intros e. rewrite elem_of_state_values. split; [|by eauto].
      intros [k He]. by rewrite (Hk k e He).
Qed.

(** When the groups agree on every key they hold, resolution succeeds for any
    room version and event lookup, and the resolved state is exactly what the
    groups agree on. *)
Theorem undisputed_state_resolves request policy :
  validate_state_resolution_request request = None ->
  size (all_keys (state_groups request)) <= max_conflicted_state_keys (limits request) ->
  submitted_events request <> [] ->
  (forall e, e ∈ submitted_events request -> exists id, unanimous (state_groups request) (ref_key e) id) ->
  exists l, resolve_state_v2 request policy = Resolved l /\ NoDup (ref_key <$> l)
    /\ (forall w, w ∈ l -> w ∈ submitted_events request)
    /\ (forall e, e ∈ submitted_events request -> exists w, w ∈ l /\ ref_key w = ref_key e
          /\ ref_event_id w = ref_event_id e).
Proof.
  intros Hval Hkeys Hne Hun.
  pose proof (request_validation_exact_1 request Hval) as (Hn & Hv).
  pose proof (partition_within_limits (state_groups request) (limits request) Hn Hv Hkeys) as Hpart.
  pose proof (unconflicted_keyed request) as Hkeyed. unfold unconflicted_state in Hkeyed.
  unfold resolve_state_v2. rewrite Hval.
  destruct (state_groups request) as [|g gs] eqn:Eg.
  { unfold submitted_events in Hne. by rewrite Eg in Hne. }
  rewrite <- Eg in *.
  destruct (partition_conflicted_state (state_groups request) (limits request)) as [u c] eqn:Ep.
  simpl in Hpart, Hkeyed.
  assert (forall e, e ∈ submitted_events request -> c !! ref_key e = None) as Hc.
  { intros e He. destruct (c !! ref_key e) as [x|] eqn:Ex; [|done]. destruct (Hun e He) as [id Hid].
    by destruct (proj2 (part_conflicted _ _ _ Hpart _ _ Ex) id). }
  assert (forall e, e ∈ submitted_events request -> is_Some (u !! ref_key e)) as Hu.
  { intros e He. destruct (part_covers _ _ _ Hpart (ref_key e) e) as [|[x Hx]]; [by apply elem_of_submitted|done|].
    rewrite Hc in Hx; done. }
  assert ((size u =? 0) = false) as ->.
  { apply Nat.eqb_neq, map_size_ne_0_lookup. destruct (submitted_events request) as [|e es] eqn:Es; [done|].
    exists (ref_key e). apply Hu. by left. }
  simpl. rewrite collect_conflicted_none by exact Hc.
  exists (state_values u). split; [done|]. split; [by apply state_values_keys|]. split.
  - intros w [k Hk]%elem_of_state_values. apply elem_of_submitted.
    rewrite (Hkeyed k w Hk). by apply (part_unconflicted _ _ _ Hpart).
  - intros e He. destruct (Hu e He) as [w Hw]. exists w. split; [apply elem_of_state_values; eauto|].
    split; [by apply Hkeyed|]. symmetry. apply (part_unconflicted _ _ _ Hpart) in Hw as [_ [_ Hid]].
    apply Hid. by apply elem_of_submitted.
Qed.

(** C14. Resolution of disputed state fails closed: if it returns a state, either
    the groups agreed on everything, or every event of every group's auth chain
    was available. *)
Theorem resolution_fails_closed request policy l :
  resolve_state_v2 request policy = Resolved l ->
  (forall e, e ∈ submitted_events request -> exists id, unanimous (state_groups request) (ref_key e) id)
  \/ (forall g id, g ∈ state_groups request -> group_ancestor (request_content request) g id ->
        is_Some (request_content request id)).
Proof.
  unfold resolve_state_v2. destruct (validate_state_resolution_request request); [done|].
  destruct (state_groups request) as [|g gs] eqn:Eg.
  { intros _. left. unfold submitted_events. rewrite Eg. set_solver. }
  rewrite <- Eg. clear Eg.
  destruct (partition_conflicted_state (state_groups request) (limits request)) as [u c] eqn:Ep.
  destruct ((size u =? 0) && (size c =? 0)) eqn:Ez; [done|]. pose proof (unconflicted_partition request u c Ep Ez) as Hp.
  destruct (collect_conflicted _ c _ ∅ []) as [[|x all]|] eqn:Ec; [| |done].
  - intros _. left. intros e He. destruct (collect_conflicted_nil _ _ _ _ _ Ec) as [_ Hn].
    destruct (part_covers _ _ _ Hp (ref_key e) e) as [[w Hw]|[w Hw]].
    + by apply elem_of_submitted.
    + eexists. apply (part_unconflicted _ _ _ Hp _ _ Hw).
    + rewrite Hn in Hw; [done|exact He|]. rewrite lookup_empty. set_solver.
  - intros Hr. right. revert Hr. unfold resolve_conflicted. set (src := new_source _ _ _ _).
    assert (holds src (request_content request)) as Hh by apply new_source_holds.
    destruct (full_conflicted_set request (x :: all) src) as [[why|full] src1] eqn:Ef; [done|]. intros _.
    pose proof (collect_lists_disputed request u c _ Hp Ec) as Hd'.
    destruct (full_conflicted_run request (x :: all) src full src1 Hh Hd' Ef) as (_ & _ & _ & d & Hd).
    by eapply auth_difference_resolves.
Qed.

(** The power events that are ordered first are those of the full conflicted
    set together with, transitively, the ancestors in the full conflicted set of
    each of them, every one once; the remaining events are all the others. *)
Lemma power_event_selection_correct full src cap events selected src' :
  src_ok src -> select_power_events full src cap = (Some (events, selected), src') ->
  (forall id, id ∈ selected <-> drawn (resolves src) full id)
  /\ lists_selected full events selected
  /\ events ++ remaining_events full selected ≡ₚ (map_to_list full).*2.
Proof.
  intros Hok. unfold select_power_events. set (chosen := filter _ (iter_map full)). intros E.
  pose proof (enlarge_sound (resolves src) (size full) cap full chosen.*2 (list_to_set chosen.*1)
    (rev (iter_set (list_to_set chosen.*1))) src events selected) as He.
  rewrite E in He. destruct (He (holds_self _ Hok) (enlarge_inv_init _ full) eq_refl) as (Hl & Hd & _).
  split; [done|]. split; [done|]. by apply selection_splits.
Qed.

(** The selection returns whenever the ancestors of the full conflicted set
    resolve within the cap and the budget. *)
Lemma power_event_selection_returns full src cap R :
  serves src R -> size R <= cap -> src_missing src = false ->
  (forall id e id', full !! id = Some e -> ancestor (resolves src) (ref_event_json e) id' -> id' ∈ R) ->
  is_Some (fst (select_power_events full src cap)).
Proof.
  intros Hs Hcap Hm HR. unfold select_power_events. set (chosen := filter _ (iter_map full)).
  apply (enlarge_complete (resolves src) R); [by apply holds_self, (srv_ok _ R)|done|apply enlarge_inv_init|done..|].
  rewrite length_rev, (Permutation_length (iter_set_perm _)). change (length (elements ?s)) with (size s).
  rewrite <- size_union by set_solver. rewrite <- (size_dom (D := gset string)).
  apply subseteq_size. intros x [Hx|Hx]%elem_of_union; [|set_solver].
  apply elem_of_list_to_set, list_elem_of_fmap in Hx as ([k e] & -> & [Hk _]%chosen_spec).
  by apply elem_of_dom_2 in Hk.
Qed.

(** Groups that hold no event at all are refused by version 2 with the reason
    meant for too many state keys, whatever the limits, although version 1
    resolves the same request to the empty state. *)
Lemma eventless_groups_are_refused request policy :
  validate_state_resolution_request request = None -> room_version request <> EmptyString ->
  state_groups request <> [] -> submitted_events request = [] ->
  resolve_state_v2 request policy = Failed "too many state keys" /\ resolve_state request = Resolved [].
Proof.
  intros Hval Hver Hne Hnone. split.
  - unfold resolve_state_v2. rewrite Hval. destruct (state_groups request) as [|g gs] eqn:Eg; [done|].
    rewrite <- Eg. clear Hne.
    destruct (partition_conflicted_state (state_groups request) (limits request)) as [u c] eqn:Ep.
    destruct ((size u =? 0) && (size c =? 0)) eqn:Ez; [done|]. exfalso.
    apply partition_inv in Ep.
    2: { apply andb_false_iff in Ez as [Ez|Ez]; apply Nat.eqb_neq in Ez; auto. }
    pose proof (split_tallies_partitions (state_groups request)) as Hp. rewrite <- Ep in Hp. simpl in Hp.
    assert (forall k e, ~ entry (state_groups request) k e) as Hno.
    { intros k e He. assert (e ∈ submitted_events request) as Hin.
      { apply elem_of_submitted. destruct He as (g' & ? & ? & ?). exists g'. done. }
      rewrite Hnone in Hin. by apply not_elem_of_nil in Hin. }
    apply andb_false_iff in Ez as [Ez|Ez]; apply Nat.eqb_neq, map_size_ne_0_lookup in Ez as (k & e & He).
    + by destruct (Hno k e (proj1 (part_unconflicted _ _ _ Hp k e He))).
    + by destruct (Hno k e (proj1 (part_conflicted _ _ _ Hp k e He))).
  - unfold resolve_state. assert (empty (room_version request) = false) as -> by (by destruct (room_version request)).
    rewrite Hval. unfold submitted_events in Hnone. destruct (state_groups request) as [|g gs]; [done|].
    rewrite Hnone. simpl. unfold state_values.
    pose proof (iter_state_map_perm ∅) as Hp. rewrite map_to_list_empty in Hp. by apply Permutation_nil_r in Hp as ->.
Qed.

(** The power event selection is exact: the selected events are the power
    events of the full conflicted set and the members of it that their auth
    chains draw in, each listed once, and together with the remaining events
    they are the whole set; and the selection returns when the source serves
    every ancestor of the set within the cap. *)
Theorem power_event_selection_exact full src cap :
  src_ok src ->
  (forall events selected src', select_power_events full src cap = (Some (events, selected), src') ->
     (forall id, id ∈ selected <-> drawn (resolves src) full id)
     /\ lists_selected full events selected
     /\ events ++ remaining_events full selected ≡ₚ (map_to_list full).*2)
  /\ (forall R, serves src R -> size R <= cap -> src_missing src = false ->
        (forall id e id', full !! id = Some e -> ancestor (resolves src) (ref_event_json e) id' -> id' ∈ R) ->
        is_Some (fst (select_power_events full src cap))).
Proof.
  intros Hok. split.
  - intros events selected src'. by apply power_event_selection_correct.
  - intros R. apply power_event_selection_returns.
Qed.
End Resolution.
