(* ===== verification/StateWitness.v ===== *)
(** The theorems on authorization applied to the events of a sample room, and those
    on state resolution to a fork of a version 11 room: two state groups that
    disagree on the power levels and the topic. *)
From S2P Require Import Prelude CppStd JsonValue JsonSerializer RoomVersion Signing EventAuth EventAuthBase EventAuthSafety Membership EventSource StateGraph StateAuth PowerSort StateRes AuthChain PowerOrder PowerRank ConflictedSubgraph MainlineOrder Partition Resolution.
Open Scope Z_scope.

#[local] Existing Instance no_libc.
#[local] Existing Instance no_sodium.

Definition obj_of (v : Value) : Object := default [] (value_is_object v).

(** The moderator gives Bob level 10 and lowers the ban level. *)
Definition mod_levels : Value :=
  mk_event "m.room.power_levels" "@mod:a.org" (Some EmptyString)
    [("users", VObject [("@alice:a.org", VInt 100); ("@mod:a.org", VInt 50); ("@bob:a.org", VInt 10)]);
     ("ban", VInt 40); ("events", VObject [("m.room.name", VInt 40)])].

Definition room_j : AuthEventMap := sample_room "join" "leave".

Lemma mod_levels_event : is_event mod_levels (obj_of mod_levels) "m.room.power_levels" "@mod:a.org".
Proof. repeat split; done. Qed.

Lemma power_levels_no_escalation_witness :
  extract_user_power_level mod_levels "@bob:a.org" integers = 10 /\ 10 <= 50.
Proof.
  split; [reflexivity|].
  pose proof (power_levels_no_escalation mod_levels _ "@mod:a.org" policy_v11 room_j _ "@bob:a.org"
                mod_levels_event eq_refl eq_refl) as Hb.
  exact Hb.
Defined.

Lemma power_levels_changes_respect_rank_witness :
  extract_user_power_level mod_levels "@alice:a.org" integers = 100
  /\ change_bounded 50 (Some 50) (Some 40).
Proof.
  destruct (power_levels_changes_respect_rank mod_levels _ "@mod:a.org" policy_v11 room_j _
              mod_levels_event eq_refl eq_refl) as ((content & Hc & Hscalar & _) & Hsup & _).
  split.
  - refine (proj1 (Hsup "@alice:a.org" 100 _ eq_refl _)); [discriminate|]. vm_compute. discriminate.
  - injection Hc as <-. refine (Hscalar "ban" _). apply (bool_decide_unpack _). vm_compute. exact I.
Defined.

(** A version 12 room created by Alice, with Carol as an additional creator. *)
Definition create_v12 : Value :=
  mk_event "m.room.create" "@alice:a.org" (Some EmptyString)
    [("additional_creators", VArray [VString "@carol:a.org"])].

Definition room_v12_ : AuthEventMap := {|
  create := create_v12; create_event_id := "$c";
  power_levels := sample_levels [("@mod:a.org", VInt 50)] 50; join_rules := VNull;
  sender_member := mk_member "@mod:a.org" "@mod:a.org" "join"; target_member := VNull;
  authorising_user_member := VNull; third_party_invite := VNull |}.

Definition mod_levels_v12 : Value :=
  mk_event "m.room.power_levels" "@mod:a.org" (Some EmptyString)
    [("users", VObject [("@mod:a.org", VInt 50); ("@bob:a.org", VInt 10)]);
     ("ban", VInt 50); ("events", VObject [("m.room.name", VInt 40)])].

Example creators_unlisted :
  allowed (authorize_event_against_auth_events mod_levels_v12 policy_v12 room_v12_) = true.
Proof. reflexivity. Qed.

Lemma effective_power_in_int64_witness :
  int64_min <= effective_sender_power (power_levels room_j) "@mod:a.org" (create room_j) policy_v11 <= int64_max.
Proof. exact (effective_power_in_int64 (power_levels room_j) "@mod:a.org" (create room_j) policy_v11 eq_refl). Defined.

Definition ban_carol : Value := mk_member "@alice:a.org" "@carol:a.org" "ban".

Example creator_ban_denied : ~ authorized ban_carol policy_v12 room_v12_.
Proof.
  refine (creators_cannot_be_removed ban_carol (obj_of ban_carol) "@alice:a.org" "@carol:a.org" policy_v12
            room_v12_ ms_ban _ eq_refl eq_refl eq_refl eq_refl (or_introl eq_refl)).
  repeat split; done.
Qed.

Definition own_state : Value := mk_event "org.custom" "@mod:a.org" (Some "@mod:a.org") [].

Lemma accepted_events_sender_rules_witness :
  authorized own_state policy_v11 room_j /\ sender_current_membership room_j = ms_join
  /\ domain_of "@mod:a.org" = domain_of "@alice:a.org".
Proof.
  destruct (accepted_events_sender_rules own_state (obj_of own_state) "org.custom" "@mod:a.org" policy_v11 room_j)
    as (_ & Hfed & Hjoin); [repeat split; done|reflexivity|].
  split; [reflexivity|]. split.
  - refine (proj1 (Hjoin _ _ _)); [discriminate|discriminate|intros [? _]; discriminate].
  - refine (Hfed _ (obj_of sample_create) "@alice:a.org" eq_refl eq_refl eq_refl). discriminate.
Defined.

Definition foreign_event : Value := mk_event "m.room.message" "@eve:evil.org" None [].

Example foreign_sender_denied : ~ authorized foreign_event policy_v11 room_j.
Proof.
  refine (non_federated_rooms_reject_foreign_senders foreign_event (obj_of foreign_event) "m.room.message"
            "@eve:evil.org" policy_v11 room_j (obj_of sample_create) "@alice:a.org"
            _ _ eq_refl eq_refl eq_refl _); [repeat split; done|discriminate|discriminate].
Qed.

(** Membership. *)
Definition kick_bob : Value := mk_member "@mod:a.org" "@bob:a.org" "leave".
Definition room_banned : AuthEventMap := sample_room "join" "ban".

Lemma kick_bob_shape : is_event kick_bob (obj_of kick_bob) "m.room.member" "@mod:a.org".
Proof. repeat split; done. Qed.

Lemma membership_rules_refine_machine_witness :
  exists requested, permitted kick_bob (obj_of kick_bob) "@mod:a.org" "@bob:a.org" policy_v11 room_banned
                      ms_ban requested.
Proof.
  destruct (proj1 (membership_rules_refine_machine kick_bob _ "@mod:a.org" "@bob:a.org" policy_v11 room_banned
                     kick_bob_shape eq_refl ltac:(discriminate)) eq_refl) as (_ & r & _ & Hp).
  exists r. exact Hp.
Defined.

Lemma membership_changes_need_standing_witness :
  level_or_default room_banned policy_v11 "ban" 50 <= power_of policy_v11 room_banned "@mod:a.org"
  /\ power_of policy_v11 room_banned "@bob:a.org" < power_of policy_v11 room_banned "@mod:a.org".
Proof.
  destruct (membership_changes_need_standing kick_bob _ "@mod:a.org" "@bob:a.org" policy_v11 room_banned ms_leave
              kick_bob_shape eq_refl eq_refl eq_refl) as (Hban & Hrank & _).
  split.
  - destruct (Hban eq_refl eq_refl) as [Hr|(_ & _ & _ & Hb & _)]; [discriminate Hr|exact Hb].
  - refine (proj1 (proj2 (Hrank (or_introl eq_refl) _))). discriminate.
Defined.

Open Scope nat_scope.

#[local] Existing Instance no_libc.
#[local] Existing Instance no_sodium.
#[local] Existing Instance map_order.

(** * The fork *)

Definition state_event (event_type sender state_key : string) (content : Object) (auth : list string) (ts : Z) : Value :=
  VObject [("type", VString event_type); ("sender", VString sender); ("room_id", VString "!r:a.org");
           ("state_key", VString state_key); ("content", VObject content);
           ("auth_events", VArray (VString <$> auth)); ("origin_server_ts", VInt ts)].

Definition ev_create : Value := state_event "m.room.create" "@alice:a.org" EmptyString [] [] 1.
Definition ev_alice : Value :=
  state_event "m.room.member" "@alice:a.org" "@alice:a.org" [("membership", VString "join")] ["$c"] 2.
Definition ev_levels (state_default : Z) (auth : list string) (ts : Z) : Value :=
  state_event "m.room.power_levels" "@alice:a.org" EmptyString
    [("users", VObject [("@alice:a.org", VInt 100)]); ("state_default", VInt state_default)] auth ts.
Definition ev_topic (topic : string) (auth : list string) (ts : Z) : Value :=
  state_event "m.room.topic" "@alice:a.org" EmptyString [("topic", VString topic)] auth ts.

Definition mk_ref (event_type state_key id : string) (ts depth : Z) (json : Value) : StateEventReference :=
  {| ref_key := mkStateKey event_type state_key; ref_event_id := id; ref_sender := "@alice:a.org";
     ref_origin_server_ts := ts; ref_depth := depth; ref_event_json := json; ref_rejected := false |}.

Definition r_create := mk_ref "m.room.create" EmptyString "$c" 1 1 ev_create.
Definition r_alice := mk_ref "m.room.member" "@alice:a.org" "$a" 2 2 ev_alice.
Definition r_levels := mk_ref "m.room.power_levels" EmptyString "$p" 3 3 (ev_levels 50 ["$c"; "$a"] 3).
Definition r_levels2 := mk_ref "m.room.power_levels" EmptyString "$q" 4 4 (ev_levels 60 ["$c"; "$a"; "$p"] 4).
Definition r_topic := mk_ref "m.room.topic" EmptyString "$t" 5 5 (ev_topic "one" ["$c"; "$a"; "$p"] 5).
Definition r_topic2 := mk_ref "m.room.topic" EmptyString "$u" 6 5 (ev_topic "two" ["$c"; "$a"; "$q"] 6).

Definition group1 : StateGroup := {| group_id := "1"; state := [r_create; r_alice; r_levels; r_topic] |}.
Definition group2 : StateGroup := {| group_id := "2"; state := [r_create; r_alice; r_levels2; r_topic2] |}.

Definition small_limits : StateResolutionLimits := {|
  max_state_groups := 10; max_events_per_state_group := 20; max_conflicted_state_keys := 20;
  max_mainline_auth_chain_depth := 10; max_auth_chain_walk_events := 20; max_total_state_events := 40 |}.

Definition fork_request (groups : list StateGroup) : StateResolutionRequest := {|
  room_version := "11"; state_groups := groups; event_lookup := None;
  req_room_id := "!r:a.org"; limits := small_limits |}.

Definition fork : list StateGroup := [group1; group2].
Definition known : EventJsonIndex := build_event_json_index fork.
Definition src0 : Source := new_source known None 20 ∅.
Definition room_ids : gset string := {["$c"; "$a"; "$p"; "$q"; "$t"; "$u"]}.

(** Both power-levels events and both topics are in dispute; the later topic was
    authorized by the later levels and wins. *)
Example fork_resolves :
  match resolve_state_v2 (fork_request fork) policy_v11 with
  | Resolved l => sort_by String.ltb (ref_event_id <$> l) = ["$a"; "$c"; "$q"; "$u"]
  | Failed _ => False
  end.
Proof. vm_compute. reflexivity. Qed.

(** Everything an event of the room names is an event of the room. *)
Lemma room_closed x v y : x ∈ room_ids -> resolves src0 x = Some v -> y ∈ auth_event_ids v -> y ∈ room_ids.
Proof.
  intros Hx. unfold room_ids in Hx.
  repeat (apply elem_of_union in Hx as [Hx|Hx]); apply elem_of_singleton in Hx; subst x;
    vm_compute; intros [= <-] Hy; vm_compute in Hy;
    repeat (apply elem_of_cons in Hy as [->|Hy]; [vm_compute; reflexivity|]); by apply not_elem_of_nil in Hy.
Qed.

Lemma ancestor_in_room json id : (forall y, y ∈ auth_event_ids json -> y ∈ room_ids) ->
  ancestor (resolves src0) json id -> id ∈ room_ids.
Proof.
  intros Hstart. induction 1 as [id Hid|id v id' _ IH Hv Hid']; [auto|]. by eapply room_closed.
Qed.

Lemma fork_ancestors g id : g ∈ fork -> group_ancestor (resolves src0) g id -> id ∈ room_ids.
Proof.
  intros Hg (event & Hin & _ & Ha). eapply ancestor_in_room; [|exact Ha]. intros y Hy.
  unfold fork in Hg. repeat (apply elem_of_cons in Hg as [->|Hg]); [..|by apply not_elem_of_nil in Hg];
    simpl in Hin; repeat (apply elem_of_cons in Hin as [->|Hin]; [vm_compute in Hy;
      repeat (apply elem_of_cons in Hy as [->|Hy]; [vm_compute; reflexivity|]); by apply not_elem_of_nil in Hy|]);
    by apply not_elem_of_nil in Hin.
Qed.

Lemma src0_serves : serves src0 room_ids.
Proof.
  split; [apply new_source_ok| |done|].
  - intros id Hid. unfold room_ids in Hid.
    repeat (apply elem_of_union in Hid as [Hid|Hid]); apply elem_of_singleton in Hid; subst id;
      vm_compute; by eexists.
  - vm_compute. repeat constructor.
Qed.

(** * Auth chains *)

Lemma auth_chains_exact_witness :
  ancestor (resolves src0) (ref_event_json r_topic2) "$c"
  /\ (exists g, g ∈ fork /\ ~ group_ancestor (resolves src0) g "$q")
  /\ (exists difference src', compute_auth_difference fork src0 20 = (Some difference, src')).
Proof.
  destruct (auth_chains_exact src0 (ref_event_json r_topic2) fork 20 (new_source_ok _ _ _ _))
    as (Hwalk & Hdiff & Hret).
  destruct (Hret room_ids src0_serves) as [_ Hd]; [vm_compute; repeat constructor|].
  split; [|split].
  - refine (proj1 (proj1 (Hwalk (default ∅ (fst (walk_auth_chain (ref_event_json r_topic2) src0 20))) _) "$c") _);
      vm_compute; reflexivity.
  - refine (proj2 (proj1 (Hdiff (default ∅ (fst (compute_auth_difference fork src0 20))) _ "$q") _));
      vm_compute; reflexivity.
  - destruct (Hd fork_ancestors) as (d & src' & E & _). exists d, src'. exact E.
Defined.

(** * The conflicted subgraph *)

Definition disputed_ids : gset string := {["$p"; "$q"; "$t"; "$u"]}.

Lemma reachable_in_room id : reachable (resolves src0) disputed_ids id -> id ∈ room_ids.
Proof.
  intros (r & Hr & Hp).
  assert (r ∈ room_ids) as Hroom.
  { unfold disputed_ids in Hr. repeat (apply elem_of_union in Hr as [Hr|Hr]); apply elem_of_singleton in Hr;
      subst r; vm_compute; reflexivity. }
  clear Hr. induction Hp as [|x y z (v & Hv & Hy) _ IH]; [done|]. apply IH. by eapply room_closed.
Qed.

(** The disputed events and their ancestors, each after those that name it. *)
Definition room_order : list string := ["$t"; "$u"; "$q"; "$p"; "$a"; "$c"].

Lemma room_order_reachable id : id ∈ room_order -> reachable (resolves src0) disputed_ids id.
Proof.
  assert (forall x y v, reachable (resolves src0) disputed_ids x -> resolves src0 x = Some v ->
    y ∈ auth_event_ids v -> reachable (resolves src0) disputed_ids y) as Hstep.
  { intros x y v Hx Hv Hy. eapply reachable_edge; [exact Hx|]. exists v. done. }
  assert (forall x, x ∈ disputed_ids -> reachable (resolves src0) disputed_ids x) as Hroot
    by (intros x Hx; exists x; split; [done|reflexivity]).
  assert (reachable (resolves src0) disputed_ids "$p") as Hp by (apply Hroot; vm_compute; reflexivity).
  intros Hid. unfold room_order in Hid.
  repeat (apply elem_of_cons in Hid as [->|Hid]); [..|by apply not_elem_of_nil in Hid];
    try (apply Hroot; vm_compute; reflexivity).
  - eapply Hstep; [exact Hp|vm_compute; reflexivity|]. right. left.
  - eapply Hstep; [exact Hp|vm_compute; reflexivity|]. left.
Qed.

(** Prove or refute membership in a concrete list. *)
Ltac in_list :=
  repeat first [ left; reflexivity | apply elem_of_cons; left; reflexivity | apply elem_of_cons; right ].
Ltac not_in_list H :=
  exfalso; vm_compute in H;
  repeat (apply elem_of_cons in H as [H|H]; [discriminate H|]); by apply not_elem_of_nil in H.

Lemma room_order_ordered pre x post y : room_order = pre ++ x :: post ->
  reachable (resolves src0) disputed_ids y -> edge (resolves src0) y x -> y ∈ pre.
Proof.
  intros E Hy%reachable_in_room (v & Hv & Hx). unfold room_ids in Hy.
  repeat (apply elem_of_union in Hy as [Hy|Hy]); apply elem_of_singleton in Hy; subst y;
    vm_compute in Hv; injection Hv as <-;
    do 6 (destruct pre as [|? pre]; simpl in E;
          [injection E as <- <-; not_in_list Hx|injection E as <- E];
          try (in_list; fail));
    by destruct pre.
Qed.

Lemma conflicted_subgraph_exact_witness :
  (exists a b, a ∈ disputed_ids /\ b ∈ disputed_ids /\ rtc (edge (resolves src0)) a "$q"
     /\ rtc (edge (resolves src0)) "$q" b)
  /\ exists subgraph src', compute_conflicted_state_subgraph disputed_ids src0 20 = (Some subgraph, src').
Proof.
  destruct (conflicted_subgraph_exact disputed_ids src0 20 (new_source_ok _ _ _ _)) as (Hsound & Hret). split.
  { refine (proj1 (proj1 (Hsound (default ∅ (fst (compute_conflicted_state_subgraph disputed_ids src0 20))) _) "$q") _);
      vm_compute; reflexivity. }
  destruct (Hret room_ids room_order src0_serves) as (s & src' & E & _).
  - vm_compute. repeat constructor.
  - vm_compute. discriminate.
  - intros id Hid%reachable_in_room. split; [done|]. unfold room_ids in Hid.
    repeat (apply elem_of_union in Hid as [Hid|Hid]); apply elem_of_singleton in Hid; subst id;
      (split; [in_list|vm_compute; by eexists]).
  - apply (bool_decide_unpack (NoDup room_order)). vm_compute. exact I.
  - exact room_order_reachable.
  - exact room_order_ordered.
  - exists s, src'. exact E.
Defined.

(** * The orders *)

Definition levels_cs : list Candidate := [mkCandidate r_levels2 100; mkCandidate r_levels 100].

Lemma levels_candidates : candidates_of (resolves_in known None) policy_v11 [r_levels2; r_levels] levels_cs.
Proof. repeat constructor; vm_compute; reflexivity. Qed.

Lemma levels_reads : all_reads policy_v11 [r_levels2; r_levels] ⊆ room_ids.
Proof. apply (bool_decide_unpack (_ ⊆ _)). vm_compute. exact I. Qed.

Lemma levels_topological : topological levels_cs (reverse levels_cs).
Proof.
  intros pre x post E z Hz Hid.
  destruct pre as [|a pre]; [|destruct pre as [|b pre]; [|destruct pre; discriminate E]];
    simpl in E; injection E as <-; subst; simplify_eq/=.
  - unfold levels_cs in Hz. repeat (apply elem_of_cons in Hz as [->|Hz]); [not_in_list Hid..|].
    by apply not_elem_of_nil in Hz.
  - unfold levels_cs in Hz. apply elem_of_cons in Hz as [->|Hz]; [not_in_list Hid|]. exact Hz.
Qed.

Lemma power_sort_exact_witness :
  is_Some (reverse_topological_power_sort [r_levels2; r_levels] known None policy_v11 small_limits)
  /\ reverse_topological_power_sort [r_levels2; r_levels] known None policy_v11 small_limits
    = reverse_topological_power_sort [r_levels; r_levels2] known None policy_v11 small_limits
  /\ exists cs l, candidates_of (resolves_in known None) policy_v11 [r_levels2; r_levels] cs
       /\ [r_levels; r_levels2] = cand_event <$> l.
Proof.
  destruct (power_sort_exact [r_levels2; r_levels] known None policy_v11 small_limits) as (Hsound & Hperm & Hret).
  split; [|split].
  - apply (Hret levels_cs (reverse levels_cs)).
    + vm_compute. repeat constructor.
    + exact levels_candidates.
    + exact (serves_subset src0 room_ids _ src0_serves levels_reads).
    + apply (bool_decide_unpack (NoDup (cand_id <$> levels_cs))). vm_compute. exact I.
    + apply reverse_Permutation.
    + exact levels_topological.
  - apply Hperm. apply Permutation_swap.
  - destruct (Hsound [r_levels; r_levels2]) as (cs & l & Hc & _ & Hl & _); [vm_compute; reflexivity|].
    exists cs, l. exact (conj Hc Hl).
Defined.

Definition resolved_levels : StateMap := {[ power_levels_key := r_levels2 ]}.

Lemma topics_distinct : NoDup (ref_event_id <$> [r_topic2; r_topic]).
Proof. apply (bool_decide_unpack (NoDup _)). vm_compute. exact I. Qed.

Lemma mainline_order_exact_witness :
  (exists mainline, mainline_of (resolves src0) resolved_levels mainline)
  /\ [r_topic; r_topic2]
     = default [] (fst (mainline_order_with_source [r_topic; r_topic2] resolved_levels src0 small_limits)).
Proof.
  destruct (mainline_order_exact [r_topic2; r_topic] resolved_levels src0 small_limits [r_topic; r_topic2]
              (new_source_ok _ _ _ _) topics_distinct) as ((m & Hm & _) & Hsame); [vm_compute; reflexivity|].
  split; [exists m; exact Hm|].
  apply (Hsame [r_topic; r_topic2] src0); [apply Permutation_swap|apply new_source_ok|reflexivity|].
  vm_compute. reflexivity.
Defined.

(** * Partition and resolution *)

Lemma request_partition_exact_witness : unanimous fork create_key "$c".
Proof.
  refine (proj2 (part_unconflicted _ _ _ (proj2 (request_partition_exact (fork_request fork)) _ _)
            create_key r_create _)).
  - vm_compute. reflexivity.
  - vm_compute. repeat constructor.
  - vm_compute. reflexivity.
Defined.

Lemma fork_events : forall e, e ∈ [r_create; r_alice; r_levels; r_topic; r_create; r_alice; r_levels2; r_topic2] ->
  ref_event_id e <> EmptyString.
Proof.
  intros e He. repeat (apply elem_of_cons in He as [->|He]; [discriminate|]). by apply not_elem_of_nil in He.
Qed.

Lemma fork_consistent :
  ids_consistent [r_create; r_alice; r_levels; r_topic; r_create; r_alice; r_levels2; r_topic2].
Proof.
  intros a b Ha Hb. repeat (apply elem_of_cons in Ha as [->|Ha]); [..|by apply not_elem_of_nil in Ha];
    (repeat (apply elem_of_cons in Hb as [->|Hb]); [..|by apply not_elem_of_nil in Hb]);
    first [reflexivity | discriminate].
Qed.

Lemma resolve_state_v1_correct_witness :
  exists l, resolve_state (fork_request fork) = Resolved l /\ NoDup (ref_key <$> l).
Proof.
  destruct (resolve_state_v1_correct (fork_request fork)) as (l & E & Hnd & _).
  - discriminate.
  - vm_compute. reflexivity.
  - exact fork_events.
  - exact fork_consistent.
  - exists l. exact (conj E Hnd).
Defined.

Definition fork_result : list StateEventReference :=
  match resolve_state_v2 (fork_request fork) policy_v11 with Resolved l => l | Failed _ => [] end.

(** The groups of the fork have different topics. *)
Lemma fork_disputed : disputed (fork_request fork) (ref_event_id r_topic2).
Proof.
  exists r_topic2. split; [vm_compute; repeat first [left | right]|]. split; [reflexivity|]. intros other [_ Hone].
  assert (entry fork (ref_key r_topic2) r_topic) as H1.
  { exists group1. split; [left|]. split; [vm_compute; repeat first [left | right]|reflexivity]. }
  assert (entry fork (ref_key r_topic2) r_topic2) as H2.
  { exists group2. split; [right; left|]. split; [vm_compute; repeat first [left | right]|reflexivity]. }
  pose proof (Hone _ H1) as E1. pose proof (Hone _ H2) as E2. rewrite <- E1 in E2. vm_compute in E2. discriminate E2.
Qed.

Lemma resolved_events_are_justified_witness : r_create ∈ fork_result
  /\ exists final, resolution (fork_request fork) policy_v11 final
      /\ (unconflicted_state (fork_request fork) ∪ final) !! ref_key r_topic2 = Some r_topic2.
Proof.
  destruct (resolved_events_are_justified (fork_request fork) policy_v11 fork_result) as (_ & _ & Hkept & Hrun); [vm_compute; reflexivity|].
  split.
  - apply (Hkept create_key). vm_compute. reflexivity.
  - destruct Hrun as [[Hno _]|(final & Hres & Hl)]; [destruct (Hno _ fork_disputed)|].
    exists final. split; [exact Hres|]. apply Hl. vm_compute. repeat first [left | right].
Defined.

Lemma undisputed_events e : e ∈ submitted_events (fork_request [group1; group1]) ->
  exists id, unanimous [group1; group1] (ref_key e) id.
Proof.
  intros He. assert (e ∈ [r_create; r_alice; r_levels; r_topic]) as Hin by (vm_compute in He |- *; set_solver).
  exists (ref_event_id e). clear He. split.
  - intros g Hg. exists e. split; [|done]. apply elem_of_cons in Hg as [->|Hg]; [done|].
    apply list_elem_of_singleton in Hg as ->. done.
  - intros e' (g & Hg & He' & Hk).
    assert (e' ∈ [r_create; r_alice; r_levels; r_topic]) as Hin'
      by (apply elem_of_cons in Hg as [->|Hg]; [done|]; by apply list_elem_of_singleton in Hg as ->).
    clear g Hg He'. revert Hk.
    repeat (apply elem_of_cons in Hin as [->|Hin]); [..|by apply not_elem_of_nil in Hin];
    (repeat (apply elem_of_cons in Hin' as [->|Hin']); [..|by apply not_elem_of_nil in Hin']);
    first [reflexivity | discriminate].
Qed.

Lemma undisputed_state_resolves_witness :
  exists l, resolve_state_v2 (fork_request [group1; group1]) policy_v11 = Resolved l.
Proof.
  destruct (undisputed_state_resolves (fork_request [group1; group1]) policy_v11) as (l & E & _).
  - vm_compute. reflexivity.
  - vm_compute. repeat constructor.
  - discriminate.
  - exact undisputed_events.
  - exists l. exact E.
Defined.

Lemma resolution_fails_closed_witness :
  (forall e, e ∈ submitted_events (fork_request fork) -> exists id, unanimous fork (ref_key e) id)
  \/ (forall g id, g ∈ fork -> group_ancestor (request_content (fork_request fork)) g id ->
        is_Some (request_content (fork_request fork) id)).
Proof.
  apply (resolution_fails_closed (fork_request fork) policy_v11 fork_result). vm_compute. reflexivity.
Defined.

(** The full conflicted set of the fork. *)
Definition fork_full : RefMap := foldl emplace_ref ∅ [r_levels; r_topic; r_levels2; r_topic2].

Definition fork_selection : list StateEventReference * gset string :=
  default ([], ∅) (fst (select_power_events fork_full src0 20)).

Lemma fork_full_ancestors id e id' : fork_full !! id = Some e ->
  ancestor (resolves src0) (ref_event_json e) id' -> id' ∈ room_ids.
Proof.
  intros He. apply ancestor_in_room. intros y Hy.
  assert (e ∈ [r_levels; r_topic; r_levels2; r_topic2]) as Hin.
  { apply elem_of_map_to_list in He. vm_compute in He |- *. set_solver. }
  repeat (apply elem_of_cons in Hin as [->|Hin]; [vm_compute in Hy;
    repeat (apply elem_of_cons in Hy as [->|Hy]; [vm_compute; reflexivity|]); by apply not_elem_of_nil in Hy|]).
  by apply not_elem_of_nil in Hin.
Qed.

Lemma power_event_selection_exact_witness :
  drawn (resolves src0) fork_full "$p" /\ is_Some (fst (select_power_events fork_full src0 20)).
Proof.
  destruct (power_event_selection_exact fork_full src0 20 (new_source_ok _ _ _ _)) as (Hsound & Hret). split.
  - refine (proj1 (proj1 (Hsound (fst fork_selection) (snd fork_selection)
      (snd (select_power_events fork_full src0 20)) _) "$p") _); vm_compute; reflexivity.
  - apply (Hret room_ids src0_serves).
    + vm_compute. repeat constructor.
    + reflexivity.
    + exact fork_full_ancestors.
Defined.

Definition eventless : StateResolutionRequest := fork_request [{| group_id := "1"; state := [] |}].

Example eventless_refused :
  resolve_state_v2 eventless policy_v11 = Failed "too many state keys" /\ resolve_state eventless = Resolved [].
Proof.
  apply (eventless_groups_are_refused eventless policy_v11).
  - vm_compute. reflexivity.
  - discriminate.
  - discriminate.
  - reflexivity.
Qed.
