(* ===== verification/Bookkeeping.v ===== *)
(** Bookkeeping of room state (homeserver/state_bookkeeping.cpp): the state
    before and after an event, the groups that record it, the forward
    extremities and the current state as the resolution over them.

    Whether the backend takes a transaction is a parameter, as is the order in
    which [std::ranges::sort] leaves equal elements.  Redactions are reconciled
    by the service that the server installs on the store.  Logging is left out. *)
From S2P Require Import Prelude CppStd JsonValue JsonSerializer JsonParser RoomVersion Signing EventAuth EventShape EventTable StateTables Store StoreWrites HistoryVisibility RedactionService Redaction StateGroups EventSource StateAuth StateRes.
Open Scope Z_scope.

Abbreviation Entry := PersistentStateGroupStateEntry.

(** * Events as the resolver reads them *)

Section Lookup.
Context `{Yyjson}.

Definition parse_state_event_reference (event_id json : string) (depth : Z) : option StateEventReference :=
  match parse_lossless json with
  | POk value =>
      match value_is_object value with
      | None => None
      | Some obj =>
          match string_member obj "type", string_member obj "state_key" with
          | Some type, Some state_key =>
              Some {| ref_key := mkStateKey type state_key; ref_event_id := event_id;
                      ref_sender := default EmptyString (string_member obj "sender");
                      ref_origin_server_ts := default 0 (object_member obj "origin_server_ts" ≫= as_int);
                      ref_depth := depth; ref_event_json := value; ref_rejected := false |}
          | _, _ => None
          end
      end
  | _ => None
  end.

Definition set_rejected (rejected : bool) (r : StateEventReference) : StateEventReference :=
  {| ref_key := ref_key r; ref_event_id := ref_event_id r; ref_sender := ref_sender r;
     ref_origin_server_ts := ref_origin_server_ts r; ref_depth := ref_depth r; ref_event_json := ref_event_json r;
     ref_rejected := rejected |}.

Definition make_store_event_lookup (s : PersistentStore) (event_id : string) : option StateEventReference :=
  match find event_id (events s) with
  | None => None
  | Some found =>
      set_rejected (ev_status found =s "rejected")
        <$> parse_state_event_reference (ev_event_id found) (ev_json found) (ev_depth found)
  end.
End Lookup.

Definition to_state_event_references (entries : list Entry) (lookup : string -> option StateEventReference)
    : option (list StateEventReference) :=
  foldr (fun entry refs => r ← lookup (ge_event_id entry); cons r <$> refs) (Some []) entries.

Definition to_state_group_entries (refs : list StateEventReference) : list Entry :=
  (fun r => {| ge_state_group_id := EmptyString; ge_event_type := sk_event_type (ref_key r);
               ge_state_key := sk_state_key (ref_key r); ge_event_id := ref_event_id r |}) <$> refs.

(** The total after a group of [state_size] events, unless a limit is passed. *)
Definition add_state_group_budget (state_size : nat) (limits : StateResolutionLimits) (total : nat) : option nat :=
  if (max_events_per_state_group limits <? state_size)%nat || (max_total_state_events limits <? total)%nat
     || (max_total_state_events limits - total <? state_size)%nat
  then None else Some (total + state_size)%nat.

(** * State after an event *)

Fixpoint replace_entry (event_id event_type state_key : string) (entries : list Entry) : option (list Entry) :=
  match entries with
  | [] => None
  | entry :: rest =>
      if (ge_event_type entry =s event_type) && (ge_state_key entry =s state_key)
      then Some ({| ge_state_group_id := ge_state_group_id entry; ge_event_type := ge_event_type entry;
                    ge_state_key := ge_state_key entry; ge_event_id := event_id |} :: rest)
      else cons entry <$> replace_entry event_id event_type state_key rest
  end.

Definition compute_state_after (state_before : list Entry) (event_id event_type : string) (state_key : option string)
    : list Entry :=
  match state_key with
  | None => state_before
  | Some key =>
      match replace_entry event_id event_type key state_before with
      | Some after => after
      | None => state_before ++ [{| ge_state_group_id := EmptyString; ge_event_type := event_type; ge_state_key := key;
                                    ge_event_id := event_id |}]
      end
  end.

(** * Extremities and depths *)

Definition max_prev_events_per_event : nat := 20.
Definition max_event_depth : Z := 9007199254740991.

(** [std::ranges::sort] with [std::greater] on the first component: the result is
    sorted, the order of equal elements is not specified. *)
Class UnstableSort : Type := {
  sort_greatest_first : list (Z * string) -> list (Z * string);
  sort_greatest_perm l : sort_greatest_first l ≡ₚ l;
  sort_greatest_sorted l : StronglySorted (fun a b => b.1 <= a.1) (sort_greatest_first l)
}.

Definition forward_extremities_stay_bounded (s : PersistentStore) (room_id : string) (prev_event_ids : list string)
    (limits : StateResolutionLimits) : bool :=
  let extremities := find_forward_extremities s room_id in
  let replaced := length (filter (fun id => id ∈ extremities) prev_event_ids) in
  (0 <? replaced)%nat || (length extremities <? max_state_groups limits)%nat.

Definition depth_of (s : PersistentStore) (id : string) : Z :=
  match find id (events s) with Some event => ev_depth event | None => 0 end.

Definition stream_ordering_of (s : PersistentStore) (id : string) : Z :=
  match find id (events s) with Some event => ev_stream_ordering event | None => 0 end.

Definition forward_extremities_for_new_event `{UnstableSort} (s : PersistentStore) (room_id : string) : list string :=
  let extremities := find_forward_extremities s room_id in
  if (length extremities <=? max_prev_events_per_event)%nat then extremities
  else snd <$> take max_prev_events_per_event (sort_greatest_first ((fun id => (depth_of s id, id)) <$> extremities)).

Definition depth_after_prev_events (s : PersistentStore) (prev_event_ids : list string) : Z :=
  let deepest := foldl (fun deepest id =>
    match find id (events s) with Some event => Z.max deepest (ev_depth event) | None => deepest end) 0 prev_event_ids in
  if max_event_depth <=? deepest then max_event_depth else (deepest + 1) mod 2 ^ 64.

(** * State before an event *)

Inductive StateBeforeResult : Type :=
  | before_ok (state : list Entry)
  | before_failed (reason : string).

Section Resolve.
Context `{Yyjson} `{Libc} `{Sodium} `{IterationOrder}.

Definition resolution_request (policy : RoomVersionPolicy) (room_id : string) (limits : StateResolutionLimits)
    (lookup : string -> option StateEventReference) (groups : list StateGroup) : StateResolutionRequest :=
  {| room_version := policy_id policy; EventSource.state_groups := groups; event_lookup := Some lookup;
     req_room_id := room_id; EventSource.limits := limits |}.

(** The loop over [prev_event_ids]. *)
Fixpoint prev_state_groups (s : PersistentStore) (limits : StateResolutionLimits) (total : nat) (ids : list string)
    : string + list StateGroup :=
  match ids with
  | [] => inr []
  | prev_event_id :: rest =>
      match find_event_state_group s prev_event_id with
      | None => inl ("prev_event " +:+ prev_event_id +:+ " has no recorded state")
      | Some group_id =>
          match read_state_group_full_state s group_id with
          | None => inl ("state group " +:+ group_id +:+ " could not be read")
          | Some full_state =>
              match add_state_group_budget (length full_state) limits total with
              | None => inl "state groups exceed the state-resolution budget"
              | Some total =>
                  match to_state_event_references full_state (make_store_event_lookup s) with
                  | None => inl ("state group " +:+ group_id +:+ " names an event missing from the store")
                  | Some refs =>
                      match prev_state_groups s limits total rest with
                      | inl reason => inl reason
                      | inr groups => inr ({| group_id := group_id; state := refs |} :: groups)
                      end
                  end
              end
          end
      end
  end.

Definition single_state_before (s : PersistentStore) (prev_event_id : string) : StateBeforeResult :=
  match find_event_state_group s prev_event_id with
  | None => before_failed ("prev_event " +:+ prev_event_id +:+ " has no recorded state")
  | Some group_id =>
      match read_state_group_full_state s group_id with
      | None => before_failed ("state group " +:+ group_id +:+ " could not be read")
      | Some full_state => before_ok full_state
      end
  end.

Definition compute_state_before (s : PersistentStore) (room_id : string) (policy : RoomVersionPolicy)
    (prev_event_ids : list string) (limits : StateResolutionLimits) : StateBeforeResult :=
  match prev_event_ids with
  | [] => before_ok []
  | [prev_event_id] => single_state_before s prev_event_id
  | _ =>
      if (max_state_groups limits <? length prev_event_ids)%nat
      then before_failed "more prev_events than the state-resolution budget allows"
      else
        match prev_state_groups s limits 0 prev_event_ids with
        | inl reason => before_failed reason
        | inr groups =>
            match resolve_state_v2 (resolution_request policy room_id limits (make_store_event_lookup s) groups) policy with
            | Failed reason => before_failed ("state resolution failed: " +:+ reason)
            | Resolved resolved_state => before_ok (to_state_group_entries resolved_state)
            end
        end
  end.

(** * Resolving the extremities *)

Record ExtremityState : Type := { es_state_group_id : string; es_entries : list Entry }.

Definition recorded_extremity_state (s : PersistentStore) (extremity : string) : option ExtremityState :=
  group_id ← find_event_state_group s extremity;
  full_state ← read_state_group_full_state s group_id;
  Some {| es_state_group_id := group_id; es_entries := full_state |}.

(** [ExtremityResolution]: the left is a refusal. *)
Abbreviation ExtremityResolution := (sum string (list Entry)).

Section Extremities.
Context (group_of : string -> option string) (state_of : string -> option ExtremityState).
Context (lookup : string -> option StateEventReference).

Definition no_readable_state (extremity : string) : string := "extremity " +:+ extremity +:+ " has no readable state".

(** The first extremity of each group. *)
Fixpoint distinct_extremities (seen : gset string) (extremities : list string) : string + list string :=
  match extremities with
  | [] => inr []
  | extremity :: rest =>
      match group_of extremity with
      | None => inl (no_readable_state extremity)
      | Some group_id =>
          match distinct_extremities (seen ∪ {[group_id]}) rest with
          | inl reason => inl reason
          | inr distinct => inr (if bool_decide (group_id ∈ seen) then distinct else extremity :: distinct)
          end
      end
  end.

Fixpoint extremity_groups (limits : StateResolutionLimits) (total : nat) (distinct : list string)
    : string + list StateGroup :=
  match distinct with
  | [] => inr []
  | extremity :: rest =>
      match state_of extremity with
      | None => inl (no_readable_state extremity)
      | Some st =>
          match add_state_group_budget (length (es_entries st)) limits total with
          | None => inl "the extremities' states exceed the state-resolution budget"
          | Some total =>
              match to_state_event_references (es_entries st) lookup with
              | None => inl ("the state of extremity " +:+ extremity +:+ " names an event missing from the store")
              | Some refs =>
                  match extremity_groups limits total rest with
                  | inl reason => inl reason
                  | inr groups => inr ({| group_id := es_state_group_id st; state := refs |} :: groups)
                  end
              end
          end
      end
  end.

Definition resolve_extremity_states (room_id : string) (policy : RoomVersionPolicy) (limits : StateResolutionLimits)
    (extremities : list string) : ExtremityResolution :=
  match distinct_extremities ∅ extremities with
  | inl reason => inl reason
  | inr [] => inr []
  | inr [extremity] =>
      match state_of extremity with
      | None => inl (no_readable_state extremity)
      | Some st => inr (es_entries st)
      end
  | inr distinct =>
      if (max_state_groups limits <? length distinct)%nat then
        inl (to_string (Z.of_nat (length distinct)) +:+ " distinct extremity states, more than the "
             +:+ to_string (Z.of_nat (max_state_groups limits)) +:+ " that can be resolved")
      else
        match extremity_groups limits 0 distinct with
        | inl reason => inl reason
        | inr groups =>
            match resolve_state_v2 (resolution_request policy room_id limits lookup groups) policy with
            | Failed reason => inl ("state resolution failed: " +:+ reason)
            | Resolved resolved_state => inr (to_state_group_entries resolved_state)
            end
        end
  end.
End Extremities.

(** * Current state as the resolution over the extremities *)

Definition current_state_entries (s : PersistentStore) (room_id : string) : list Entry :=
  (fun row => {| ge_state_group_id := EmptyString; ge_event_type := st_event_type row; ge_state_key := st_state_key row;
                 ge_event_id := st_event_id row |}) <$> room_state_rows (current s) room_id.

Definition state_entry_key (event_type state_key : string) : string := event_type +:+ nul_text +:+ state_key.

Definition current_state_map (s : PersistentStore) (room_id : string) : gmap string string :=
  foldl (fun m row => <[state_entry_key (st_event_type row) (st_state_key row) := st_event_id row]> m) ∅
    (room_state_rows (current s) room_id).

Definition state_row (room_id : string) (entry : Entry) : PersistentStateEvent :=
  {| st_room_id := room_id; st_event_type := ge_event_type entry; st_state_key := ge_state_key entry;
     st_event_id := ge_event_id entry |}.

Definition unchanged (current : gmap string string) (entry : Entry) : bool :=
  bool_decide (current !! state_entry_key (ge_event_type entry) (ge_state_key entry) = Some (ge_event_id entry)).

Inductive CurrentStateRecompute : Type :=
  | recompute_resolved
  | recompute_refused (reason : string)
  | recompute_write_failed.

Section Recompute.
Context (backend : PersistentStore -> list Statement -> bool).

Fixpoint write_resolved (room_id : string) (current : gmap string string) (entries : list Entry) (s : PersistentStore)
    : CurrentStateRecompute * PersistentStore :=
  match entries with
  | [] => (recompute_resolved, s)
  | entry :: rest =>
      if unchanged current entry then write_resolved room_id current rest s
      else
        let '(stored, s) := store_state backend (state_row room_id entry) s in
        if stored then write_resolved room_id current rest s else (recompute_write_failed, s)
  end.

Definition store_resolution (room_id : string) (policy : RoomVersionPolicy) (limits : StateResolutionLimits)
    (s : PersistentStore) : ExtremityResolution :=
  resolve_extremity_states (find_event_state_group s) (recorded_extremity_state s) (make_store_event_lookup s)
    room_id policy limits (find_forward_extremities s room_id).

Definition recompute_current_state (room_id : string) (policy : RoomVersionPolicy) (limits : StateResolutionLimits)
    (s : PersistentStore) : CurrentStateRecompute * PersistentStore :=
  match store_resolution room_id policy limits s with
  | inl reason => (recompute_refused reason, s)
  | inr entries => write_resolved room_id (current_state_map s room_id) entries s
  end.

(** * Recording an event's state *)

Definition record_event_state_with_parent (room_id event_id : string) (prev_event_ids : list string)
    (parent : option string) (state_after : list Entry) (accepted : bool) (s : PersistentStore)
    : option string * PersistentStore :=
  let '(group_id, s) := create_or_reuse_state_group backend room_id ("sg:" +:+ event_id) parent state_after s in
  match group_id with
  | None => (None, s)
  | Some group_id =>
      let '(mapped, s) := set_event_state_group backend event_id group_id s in
      if negb mapped then (None, s)
      else
        let '(updated, s) := update_forward_extremities backend room_id event_id prev_event_ids accepted s in
        if negb updated then (None, s) else (Some group_id, s)
  end.

Definition record_event_state (room_id event_id : string) (prev_event_ids : list string) (state_after : list Entry)
    (accepted : bool) (s : PersistentStore) : option string * PersistentStore :=
  let parent := head prev_event_ids ≫= find_event_state_group s in
  record_event_state_with_parent room_id event_id prev_event_ids parent state_after accepted s.
End Recompute.

(** * What a new event is built on *)

Record NewEventBasis : Type := {
  nb_ok : bool;
  nb_prev_event_ids : list string;
  nb_state_before : list Entry;
  nb_retired_extremities : list string;
  nb_reason : string
}.

Section Basis.
Context `{UnstableSort}.
Context (s : PersistentStore) (room_id : string) (policy : RoomVersionPolicy) (limits : StateResolutionLimits).

(** The first candidate whose state can be computed alone. *)
Fixpoint fallback_basis (newest_first : list (Z * string)) : option NewEventBasis :=
  match newest_first with
  | [] => None
  | (_, candidate) :: rest =>
      match compute_state_before s room_id policy [candidate] limits with
      | before_failed _ => fallback_basis rest
      | before_ok alone =>
          let cached := current_state_entries s room_id in
          Some {| nb_ok := true; nb_prev_event_ids := [candidate];
                  nb_state_before := match cached with [] => alone | _ => cached end;
                  nb_retired_extremities := filter (fun id => id <> candidate) (find_forward_extremities s room_id);
                  nb_reason := EmptyString |}
      end
  end.

Definition basis_for_new_event : NewEventBasis :=
  let extremities := forward_extremities_for_new_event s room_id in
  match compute_state_before s room_id policy extremities limits with
  | before_ok all => {| nb_ok := true; nb_prev_event_ids := extremities; nb_state_before := all;
                        nb_retired_extremities := []; nb_reason := EmptyString |}
  | before_failed reason =>
      let unresolvable := {| nb_ok := false; nb_prev_event_ids := extremities; nb_state_before := [];
                             nb_retired_extremities := []; nb_reason := reason |} in
      if (1 <? length extremities)%nat
      then default unresolvable
             (fallback_basis (sort_greatest_first ((fun id => (stream_ordering_of s id, id)) <$> extremities)))
      else unresolvable
  end.
End Basis.

(** * Storing an event with its bookkeeping *)

Record EventBookkeeping : Type := {
  bk_state_after : list Entry;
  bk_parent_state_group_id : option string;
  bk_replaced_extremities : list string
}.

Record StoredWithBookkeeping : Type := {
  sb_ok : bool;
  sb_step : string;
  sb_reason : string;
  sb_resolution_refused : bool;
  sb_resolution_refusal : string
}.

Definition not_stored (step reason : string) : StoredWithBookkeeping :=
  {| sb_ok := false; sb_step := step; sb_reason := reason; sb_resolution_refused := false;
     sb_resolution_refusal := EmptyString |}.

(** What the call prepares before its one commit. *)
Record BookkeepingPlan : Type := {
  bp_event : PreparedStateUpdate;
  bp_event_statements : list Statement;
  bp_group : PreparedStateGroup;
  bp_mapping : Statement;
  bp_resolution : ExtremityResolution;
  bp_changes : list (PersistentStateEvent * string)
}.

(** The extremities once the event is stored. *)
Definition extremities_after (s : PersistentStore) (room_id event_id : string) (replaced : list string) : list string :=
  let kept := filter (fun id => id ∉ replaced) (find_forward_extremities s room_id) in
  if bool_decide (event_id ∈ kept) then kept else kept ++ [event_id].

(** The resolution of those extremities, with the event standing in for itself. *)
Definition pending_resolution (s : PersistentStore) (policy : RoomVersionPolicy) (limits : StateResolutionLimits)
    (pending : PersistentEvent) (group_id : string) (bk : EventBookkeeping) : ExtremityResolution :=
  resolve_extremity_states
    (fun extremity => if extremity =s ev_event_id pending then Some group_id else find_event_state_group s extremity)
    (fun extremity => if extremity =s ev_event_id pending
                      then Some {| es_state_group_id := group_id; es_entries := bk_state_after bk |}
                      else recorded_extremity_state s extremity)
    (fun id => if id =s ev_event_id pending
               then parse_state_event_reference (ev_event_id pending) (ev_json pending) (ev_depth pending)
               else make_store_event_lookup s id)
    (ev_room_id pending) policy limits
    (extremities_after s (ev_room_id pending) (ev_event_id pending) (bk_replaced_extremities bk)).

(** The rows that differ from what current state will hold: each with the event
    it displaces.  The left is an event that is not stored. *)
Fixpoint plan_changes (s : PersistentStore) (room_id event_id : string) (current : gmap string string)
    (entries : list Entry) : string + list (PersistentStateEvent * string) :=
  match entries with
  | [] => inr []
  | entry :: rest =>
      let key := state_entry_key (ge_event_type entry) (ge_state_key entry) in
      if unchanged current entry then plan_changes s room_id event_id current rest
      else if (ge_event_id entry <>s event_id) && negb (state_matches_persisted_event s (state_row room_id entry))
      then inl (ge_event_id entry)
      else
        match plan_changes s room_id event_id (<[key := ge_event_id entry]> current) rest with
        | inl id => inl id
        | inr changes => inr ((state_row room_id entry, default EmptyString (current !! key)) :: changes)
        end
  end.

(** Current state once the event's own row is written. *)
Definition current_with_own_row (s : PersistentStore) (event : PersistentEvent) (row : option PersistentStateEvent)
    : gmap string string :=
  let cached := current_state_map s (ev_room_id event) in
  match row with
  | None => cached
  | Some st => <[state_entry_key (st_event_type st) (st_state_key st) := ev_event_id event]> cached
  end.

Definition plan_bookkeeping (s : PersistentStore) (policy : RoomVersionPolicy) (event : PersistentEvent)
    (row : option PersistentStateEvent) (membership : option MembershipProjection) (bk : EventBookkeeping)
    (limits : StateResolutionLimits) : StoredWithBookkeeping + BookkeepingPlan :=
  match prepare_store_event_with_state s event row membership with
  | None => inl (not_stored "event" "the event, its state row or its membership was refused")
  | Some (update, statements) =>
      match prepare_state_group s (ev_room_id event) ("sg:" +:+ ev_event_id event) (bk_parent_state_group_id bk)
              (bk_state_after bk) with
      | None => inl (not_stored "state_group" "the parent of the event's after-state group could not be read")
      | Some group =>
          match prepare_event_state_group (ev_event_id event) (pg_state_group_id group) with
          | None => inl (not_stored "state_group" "the event could not be mapped to its after-state group")
          | Some mapping =>
              let resolution := pending_resolution s policy limits event (pg_state_group_id group) bk in
              match plan_changes s (ev_room_id event) (ev_event_id event) (current_with_own_row s event row)
                      (match resolution with inr entries => entries | inl _ => [] end) with
              | inl id => inl (not_stored "current_state" ("the resolved state names " +:+ id +:+ ", which is not stored"))
              | inr changes => inr {| bp_event := update; bp_event_statements := statements; bp_group := group;
                                      bp_mapping := mapping; bp_resolution := resolution; bp_changes := changes |}
              end
          end
      end
  end.

Definition plan_statements (event : PersistentEvent) (bk : EventBookkeeping) (plan : BookkeepingPlan) : list Statement :=
  bp_event_statements plan ++ pg_statements (bp_group plan) ++ [bp_mapping plan]
  ++ prepare_forward_extremities_update (ev_room_id event) (ev_event_id event) (bk_replaced_extremities bk)
  ++ (bp_changes plan ≫= fun change => prepare_current_state change.1 change.2).

Section Store.
Context (backend : PersistentStore -> list Statement -> bool).

(** The reconciler writes redacted events through the same backend. *)
Definition redaction_observer (event_id : string) (s : PersistentStore) : PersistentStore :=
  reconcile_redactions_for_event (fun s id json => commit_persistent_transaction backend s [update_event_json id json])
    event_id s.

Definition apply_changes (changes : list (PersistentStateEvent * string)) (s : PersistentStore) : PersistentStore :=
  foldl (fun s change => apply_current_state change.1 change.2 s) s changes.

Definition apply_plan (event : PersistentEvent) (bk : EventBookkeeping) (plan : BookkeepingPlan) (s : PersistentStore)
    : PersistentStore :=
  let s := apply_store_event_with_state redaction_observer (bp_event plan) s in
  let s := apply_state_group (bp_group plan) s in
  let s := apply_event_state_group (ev_event_id event) (pg_state_group_id (bp_group plan)) s in
  let s := apply_forward_extremities_update (ev_room_id event) (ev_event_id event) (bk_replaced_extremities bk) s in
  apply_changes (bp_changes plan) s.

Definition store_event_with_bookkeeping (policy : RoomVersionPolicy) (event : PersistentEvent)
    (row : option PersistentStateEvent) (membership : option MembershipProjection) (bk : EventBookkeeping)
    (limits : StateResolutionLimits) (s : PersistentStore) : StoredWithBookkeeping * PersistentStore :=
  match plan_bookkeeping s policy event row membership bk limits with
  | inl refusal => (refusal, s)
  | inr plan =>
      if negb (commit_persistent_transaction backend s (plan_statements event bk plan))
      then (not_stored "commit" "the event and its bookkeeping were not committed", s)
      else
        ({| sb_ok := true; sb_step := EmptyString; sb_reason := EmptyString;
            sb_resolution_refused := match bp_resolution plan with inl _ => true | inr _ => false end;
            sb_resolution_refusal := match bp_resolution plan with inl reason => reason | inr _ => EmptyString end |},
         apply_plan event bk plan s)
  end.

Definition local_bookkeeping (s : PersistentStore) (event_id : string) (row : option PersistentStateEvent)
    (basis : NewEventBasis) : EventBookkeeping :=
  {| bk_state_after := compute_state_after (nb_state_before basis) event_id
       (match row with Some st => st_event_type st | None => EmptyString end) (st_state_key <$> row);
     bk_parent_state_group_id := head (nb_prev_event_ids basis) ≫= find_event_state_group s;
     bk_replaced_extremities := nb_prev_event_ids basis ++ nb_retired_extremities basis |}.

Definition store_local_event (policy : RoomVersionPolicy) (event : PersistentEvent) (row : option PersistentStateEvent)
    (basis : NewEventBasis) (limits : StateResolutionLimits) (membership : option MembershipProjection)
    (s : PersistentStore) : bool * PersistentStore :=
  if negb (nb_ok basis) then (false, s)
  else if negb (bool_decide (ev_prev_event_ids event = nb_prev_event_ids basis)) then (false, s)
  else
    let '(stored, s) := store_event_with_bookkeeping policy event row membership
      (local_bookkeeping s (ev_event_id event) row basis) limits s in
    (sb_ok stored, s).
End Store.
End Resolve.
