(* ===== verification/BookkeepingBase.v ===== *)
(** The parts of the bookkeeping: the state after an event as a map update, the
    forward extremities under an update, the prev_events and depth of a new event,
    and current state as it is read and written: the map built from a room's rows
    is what lookups answer, and the planned changes leave exactly the resolved
    entries over what was there. *)
From S2P Require Import Prelude CppStd JsonValue JsonSerializer JsonParser RoomVersion Signing EventAuth EventShape Redaction EventTable StateTables Store StoreLookup HistoryVisibility RedactionService StoreWrites StateGroups EventSource StateAuth StateRes Bookkeeping.
Open Scope Z_scope.

(** * The state after an event *)

Definition plain_entries (l : list Entry) : Prop := Forall (fun e => no_nul (ge_event_type e)) l.

Lemma entry_key_inj t k t' k' : no_nul t -> no_nul t' ->
  state_group_entry_key t k = state_group_entry_key t' k' -> t = t' /\ k = k'.
Proof. intros Ht Ht' Heq. by apply nul_split in Heq. Qed.

Lemma replace_entry_keys id t k l l' : replace_entry id t k l = Some l' -> entry_key <$> l' = entry_key <$> l.
Proof.
  revert l'. induction l as [|e l IH]; intros l'; simpl; [done|]. destruct (_ && _); [by intros [= <-]|].
  intros (r & Hr & ->)%fmap_Some. csimpl. by rewrite (IH r Hr).
Qed.

Lemma replace_entry_plain id t k l l' : replace_entry id t k l = Some l' -> plain_entries l -> plain_entries l'.
Proof.
  revert l'. induction l as [|e l IH]; intros l'; simpl; [done|]. destruct (_ && _).
  - intros [= <-] [He Hl]%Forall_cons. by apply Forall_cons.
  - intros (r & Hr & ->)%fmap_Some [He Hl]%Forall_cons. apply Forall_cons. split; [done|]. by apply IH.
Qed.

Lemma replace_entry_lookup id t k l i : no_nul t -> plain_entries l ->
  match replace_entry id t k l with
  | Some l' => first_entry l' i = if decide (i = state_group_entry_key t k) then Some id else first_entry l i
  | None => first_entry l (state_group_entry_key t k) = None
  end.
Proof.
  intros Ht. induction 1 as [|e l He Hl IH]; [done|]. simpl. destruct (_ && _) eqn:E.
  - breflect. subst. rewrite !first_entry_cons. unfold entry_key. simpl. by destruct (decide _).
  - assert (state_group_entry_key t k <> entry_key e) as Hne.
    { intros Hk. apply entry_key_inj in Hk as [-> ->]; [|done|done]. by rewrite !String.eqb_refl in E. }
    destruct (replace_entry id t k l) as [r|]; simpl.
    + rewrite !first_entry_cons, IH. destruct (decide (i = entry_key e)) as [->|]; [|done]. by rewrite decide_False.
    + by rewrite first_entry_cons, decide_False.
Qed.

(** The state after a state event is the state before with the event at its key;
    it still names each key once. *)
Lemma state_after_update before id t k : no_nul t -> plain_entries before ->
  to_state_group_map (compute_state_after before id t (Some k)) =
    <[state_group_entry_key t k := id]> (to_state_group_map before)
  /\ plain_entries (compute_state_after before id t (Some k))
  /\ (NoDup (entry_key <$> before) -> NoDup (entry_key <$> compute_state_after before id t (Some k))).
Proof.
  intros Ht Hp. unfold compute_state_after. destruct (replace_entry id t k before) as [after|] eqn:E.
  - split; [|split; [by eapply replace_entry_plain|by rewrite (replace_entry_keys _ _ _ _ _ E)]].
    apply map_eq. intros i. pose proof (replace_entry_lookup id t k before i Ht Hp) as Hi. rewrite E in Hi.
    rewrite state_group_map_lookup, Hi. destruct (decide _) as [->|Hne]; [by rewrite lookup_insert_eq|].
    by rewrite lookup_insert_ne, state_group_map_lookup.
  - pose proof (replace_entry_lookup id t k before EmptyString Ht Hp) as Hi. rewrite E in Hi. split; [|split].
    + apply map_eq. intros i. rewrite state_group_map_lookup, first_entry_app, first_entry_cons. unfold entry_key. simpl.
      destruct (decide (i = state_group_entry_key t k)) as [->|Hne]; [by rewrite Hi, lookup_insert_eq|].
      rewrite lookup_insert_ne, state_group_map_lookup by done. by destruct (first_entry before i).
    + apply Forall_app. split; [done|]. by apply Forall_singleton.
    + intros Hn. rewrite fmap_app. simpl. apply NoDup_app. split; [done|]. split; [|apply NoDup_singleton].
      intros x Hx ->%list_elem_of_singleton. by apply first_entry_None in Hi.
Qed.

(** * Forward extremities *)

Lemma kept_extremities room replaced (l : list PersistentForwardExtremity) :
  foldl (fun l id => filter (fun e => extremity_is room id e = false) l) l replaced =
  filter (fun e => fe_room_id e <> room \/ fe_event_id e ∉ replaced) l.
Proof.
  revert l. induction replaced as [|id replaced IH]; intros l; simpl.
  - symmetry. induction l as [|e l IHl]; [done|]. rewrite filter_cons, decide_True, IHl by (right; set_solver). done.
  - rewrite IH, list_filter_filter. apply list_filter_iff. intros e. unfold extremity_is.
    rewrite andb_false_iff, string_eqb_false, string_eqb_false, not_elem_of_cons. naive_solver.
Qed.

Lemma extremity_listed room id (l : list PersistentForwardExtremity) :
  existsb (extremity_is room id) l = true <-> id ∈ fe_event_id <$> filter (fun e => fe_room_id e = room) l.
Proof.
  rewrite existsb_exists, list_elem_of_fmap. setoid_rewrite list_elem_of_filter. setoid_rewrite <- list_elem_of_In.
  unfold extremity_is. split.
  - intros (e & He & Hb). breflect. eauto.
  - intros (e & -> & <- & He). exists e. split; [done|]. by rewrite !String.eqb_refl.
Qed.

Lemma extremity_filters room (l : list PersistentForwardExtremity) (replaced : list string) :
  fe_event_id <$> filter (fun e => fe_room_id e = room) (filter (fun e => fe_room_id e <> room \/ fe_event_id e ∉ replaced) l)
  = filter (fun id => id ∉ replaced) (fe_event_id <$> filter (fun e => fe_room_id e = room) l).
Proof.
  rewrite list_filter_filter. induction l as [|e l IH]; [done|]. rewrite !filter_cons.
  destruct (decide (fe_room_id e = room)) as [Hr|Hr].
  - csimpl. rewrite filter_cons. destruct (decide (fe_event_id e ∉ replaced)).
    + rewrite decide_True by auto. csimpl. by rewrite IH.
    + rewrite decide_False by naive_solver. apply IH.
  - rewrite decide_False by naive_solver. apply IH.
Qed.

(** The mirror's update of a room's extremities is the one the bookkeeping
    predicts; other rooms keep theirs. *)
Lemma extremities_updated room id replaced s other :
  find_forward_extremities (apply_forward_extremities_update room id replaced s) other =
  if decide (other = room) then extremities_after s room id replaced else find_forward_extremities s other.
Proof.
  unfold find_forward_extremities, apply_forward_extremities_update, update_extremities, extremities_after. simpl.
  rewrite kept_extremities. set (kept := filter _ (forward_extremities s)).
  destruct (decide (other = room)) as [->|Hne].
  - pose proof (extremity_listed room id kept) as Hin. subst kept. rewrite extremity_filters in Hin.
    unfold find_forward_extremities. destruct (existsb _ _).
    + rewrite bool_decide_eq_true_2 by (by apply Hin). apply extremity_filters.
    + rewrite bool_decide_eq_false_2 by (intros Hx; by apply Hin in Hx).
      rewrite filter_app, fmap_app, extremity_filters, filter_cons, decide_True by done. done.
  - assert (forall l : list PersistentForwardExtremity, filter (fun e => fe_room_id e = other) (filter (fun e => fe_room_id e <> room \/ fe_event_id e ∉ replaced) l)
      = filter (fun e => fe_room_id e = other) l) as Hf.
    { intros l. rewrite list_filter_filter. apply list_filter_iff. intros e. split; [tauto|]. intros <-. auto. }
    subst kept. destruct (existsb _ _); rewrite ?filter_app, ?Hf; [done|]. rewrite filter_cons, decide_False by (simpl; congruence).
    by rewrite filter_nil, app_nil_r.
Qed.

Lemma extremities_after_nodup s room id replaced : NoDup (find_forward_extremities s room) ->
  NoDup (extremities_after s room id replaced).
Proof.
  intros Hn. unfold extremities_after. pose proof (NoDup_filter (fun x => x ∉ replaced) _ Hn) as Hf. destruct (bool_decide _) eqn:E; [done|].
  apply bool_decide_eq_false in E. apply NoDup_app. split; [done|]. split; [|apply NoDup_singleton].
  by intros x Hx ->%list_elem_of_singleton.
Qed.

Lemma extremities_after_length s room id replaced :
  (length (extremities_after s room id replaced) <= S (length (filter (fun x => x ∉ replaced) (find_forward_extremities s room))))%nat.
Proof. unfold extremities_after. destruct (bool_decide _); [lia|]. rewrite length_app. simpl. lia. Qed.

(** A tip that an event cites makes room for it. *)
Lemma cited_tip_replaced (l replaced : list string) :
  filter (fun x => x ∈ l) replaced <> [] -> (length (filter (fun x => x ∉ replaced) l) < length l)%nat.
Proof.
  intros Hne. destruct (filter (fun x => x ∈ l) replaced) as [|x r] eqn:E; [done|].
  assert (x ∈ replaced /\ x ∈ l) as [Hx Hl].
  { assert (x ∈ filter (fun x => x ∈ l) replaced) as [? ?]%list_elem_of_filter by (rewrite E; by left). done. }
  apply list_elem_of_split in Hl as (l1 & l2 & ->). rewrite filter_app, filter_cons, decide_False by (by intros []).
  rewrite !length_app. simpl. pose proof (length_filter (fun x => x ∉ replaced) l1).
  pose proof (length_filter (fun x => x ∉ replaced) l2). lia.
Qed.

(** Forward extremities.  Storing an event makes the room's tips the old ones
    less those it replaces, plus itself, once each, and leaves other rooms alone;
    this is also what [store_event_with_bookkeeping] resolves before the write.
    An event that [forward_extremities_stay_bounded] lets become a tip never takes
    their number past the limit, or past what it was. *)
Theorem extremities_follow_graph room id replaced limits s :
  NoDup (find_forward_extremities s room) ->
  let s' := apply_forward_extremities_update room id replaced s in
  find_forward_extremities s' room = extremities_after s room id replaced
  /\ NoDup (find_forward_extremities s' room)
  /\ (forall x, x ∈ find_forward_extremities s' room <->
        x = id \/ x ∈ find_forward_extremities s room /\ x ∉ replaced)
  /\ (forall other, other <> room -> find_forward_extremities s' other = find_forward_extremities s other)
  /\ (forward_extremities_stay_bounded s room replaced limits = true ->
      (length (find_forward_extremities s' room) <= Nat.max (length (find_forward_extremities s room)) (max_state_groups limits))%nat).
Proof.
  intros Hn s'. assert (find_forward_extremities s' room = extremities_after s room id replaced) as Heq
    by (subst s'; by rewrite extremities_updated, decide_True).
  split; [done|]. rewrite Heq. split; [by apply extremities_after_nodup|]. split; [|split].
  - intros x. unfold extremities_after. destruct (bool_decide _) eqn:E.
    + apply bool_decide_eq_true, list_elem_of_filter in E as [Ei Ein]. rewrite list_elem_of_filter.
      split; [tauto|]. intros [->|[? ?]]; tauto.
    + rewrite elem_of_app, list_elem_of_filter, list_elem_of_singleton. tauto.
  - intros other Hne. subst s'. by rewrite extremities_updated, decide_False.
  - unfold forward_extremities_stay_bounded. intros Hb. pose proof (extremities_after_length s room id replaced) as Hlen.
    pose proof (length_filter (fun x => x ∉ replaced) (find_forward_extremities s room)) as Hf.
    apply orb_true_iff in Hb as [Hb%Nat.ltb_lt|Hb%Nat.ltb_lt]; [|lia].
    pose proof (cited_tip_replaced (find_forward_extremities s room) replaced) as Hc.
    destruct (filter (fun x => x ∈ _) replaced); [simpl in Hb; lia|]. specialize (Hc ltac:(done)). lia.
Qed.

(** * Depth *)

Definition deepest_prev (s : PersistentStore) (start : Z) (ids : list string) : Z :=
  foldl (fun deepest id =>
    match find id (events s) with Some event => Z.max deepest (ev_depth event) | None => deepest end) start ids.

Lemma deepest_prev_spec s start ids :
  start <= deepest_prev s start ids
  /\ (forall id e, id ∈ ids -> find id (events s) = Some e -> ev_depth e <= deepest_prev s start ids)
  /\ (deepest_prev s start ids = start \/ exists id e, id ∈ ids /\ find id (events s) = Some e /\ ev_depth e = deepest_prev s start ids).
Proof.
  unfold deepest_prev. revert start. induction ids as [|x ids IH]; intros start; simpl; [split; [lia|]; split; [set_solver|by left]|].
  set (next := match find x (events s) with Some event => Z.max start (ev_depth event) | None => start end).
  destruct (IH next) as (H1 & H2 & H3). fold (deepest_prev s next ids) in *.
  assert (start <= next) as Hs by (unfold next; destruct (find x (events s)); lia). split; [lia|]. split.
  - intros id e [->|Hid]%elem_of_cons He; [|by eapply H2]. assert (ev_depth e <= next) by (unfold next; rewrite He; lia). lia.
  - destruct H3 as [H3|(id & e & Hid & He & Hd)]; [|right; exists id, e; split; [by right|done]].
    rewrite H3. unfold next. destruct (find x (events s)) as [e|] eqn:Ex; [|by left].
    destruct (Z.max_spec start (ev_depth e)) as [[_ ->]|[_ ->]]; [|by left]. right. exists x, e. split; [by left|done].
Qed.

Lemma depth_spec s ids : (forall id e, find id (events s) = Some e -> 0 <= ev_depth e) ->
  1 <= depth_after_prev_events s ids <= max_event_depth
  /\ (forall id e, id ∈ ids -> find id (events s) = Some e ->
        ev_depth e < depth_after_prev_events s ids \/ depth_after_prev_events s ids = max_event_depth).
Proof.
  intros Hd. unfold depth_after_prev_events. fold (deepest_prev s 0 ids). destruct (deepest_prev_spec s 0 ids) as (H1 & H2 & _).
  unfold max_event_depth in *. destruct (Z.leb_spec 9007199254740991 (deepest_prev s 0 ids)).
  - split; [lia|]. by right.
  - rewrite Z.mod_small by lia. split; [lia|]. intros id e Hid He. left. specialize (H2 id e Hid He). lia.
Qed.

(** * The tips a new event cites *)

Section Basis.
Context `{Yyjson} `{Libc} `{Sodium} `{IterationOrder} `{UnstableSort}.

Lemma sorted_split {A} (R : A -> A -> Prop) (l : list A) n a b : StronglySorted R l -> a ∈ take n l -> b ∈ drop n l -> R a b.
Proof.
  intros Hs. revert n. induction Hs as [|x l Hl IH Hx]; intros [|n]; simpl; try set_solver.
  intros [->|Ha]%elem_of_cons Hb; [|by eapply IH]. rewrite Forall_forall in Hx. apply Hx. rewrite <- (take_drop n l).
  apply elem_of_app. by right.
Qed.

Lemma cited_tips s room :
  let tips := find_forward_extremities s room in
  let cited := forward_extremities_for_new_event s room in
  (length cited <= max_prev_events_per_event)%nat
  /\ (exists omitted, cited ++ omitted ≡ₚ tips
      /\ forall c o, c ∈ cited -> o ∈ omitted -> depth_of s o <= depth_of s c).
Proof.
  intros tips cited. subst cited. unfold forward_extremities_for_new_event. fold tips.
  destruct (Nat.leb_spec (length tips) max_prev_events_per_event) as [Hle|Hgt].
  - split; [done|]. exists []. rewrite app_nil_r. split; [done|set_solver].
  - set (l := (fun id => (depth_of s id, id)) <$> tips). set (sorted := sort_greatest_first l).
    split; [rewrite length_fmap, length_take; lia|]. exists (snd <$> drop max_prev_events_per_event sorted). split.
    + rewrite <- fmap_app, take_drop. unfold sorted. rewrite sort_greatest_perm. unfold l. rewrite <- list_fmap_compose.
      by rewrite list_fmap_id.
    + assert (forall p, p ∈ sorted -> p.1 = depth_of s p.2) as Hdepth.
      { intros p. unfold sorted. rewrite sort_greatest_perm. unfold l. by intros (id & -> & _)%list_elem_of_fmap. }
      intros c o (pc & -> & Hc)%list_elem_of_fmap (po & -> & Ho)%list_elem_of_fmap.
      rewrite <- (Hdepth pc), <- (Hdepth po); [by eapply (sorted_split (fun a b => b.1 <= a.1)); [apply sort_greatest_sorted|exact Hc|]| |];
        rewrite <- (take_drop max_prev_events_per_event sorted); apply elem_of_app; auto.
Qed.

Lemma fallback_spec s room policy limits l :
  match fallback_basis s room policy limits l with
  | Some b => exists d c alone, (d, c) ∈ l /\ single_state_before s c = before_ok alone
      /\ nb_ok b = true /\ nb_prev_event_ids b = [c]
      /\ nb_retired_extremities b = filter (fun id => id <> c) (find_forward_extremities s room)
      /\ nb_state_before b = match current_state_entries s room with [] => alone | cached => cached end
  | None => forall d c, (d, c) ∈ l -> exists reason, single_state_before s c = before_failed reason
  end.
Proof.
  induction l as [|[d c] l IH]; simpl; [set_solver|]. destruct (single_state_before s c) as [alone|reason] eqn:E.
  - exists d, c, alone. repeat (split; [by left || done|]). simpl. by destruct (current_state_entries s room).
  - destruct (fallback_basis s room policy limits l) as [b|].
    + destruct IH as (d' & c' & alone & Hin & Hrest). exists d', c', alone. split; [by right|done].
    + intros d' c' [[= -> ->]|Hin]%elem_of_cons; [by exists reason|by eapply IH].
Qed.

(** What a new local event is built on.  It cites at most twenty tips of the
    room, and no tip it leaves out is deeper than one it cites; its depth is
    positive, at most the limit, and above that of every cited event unless it is
    at the limit.  A usable basis either has the state resolved over all it cites,
    or cites one tip whose state can be read, retires every other tip and builds on
    the cached current state.  A basis is unusable only when none of the tips it
    would cite has a state of its own that can be read. *)
Theorem new_event_basis_sound s room policy limits :
  (forall id e, find id (events s) = Some e -> 0 <= ev_depth e) ->
  let tips := find_forward_extremities s room in
  let cited := forward_extremities_for_new_event s room in
  let b := basis_for_new_event s room policy limits in
  let depth := depth_after_prev_events s (nb_prev_event_ids b) in
  (length (nb_prev_event_ids b) <= max_prev_events_per_event)%nat
  /\ (forall x, x ∈ nb_prev_event_ids b -> x ∈ tips)
  /\ (forall c o, c ∈ cited -> o ∈ tips -> o ∈ cited \/ depth_of s o <= depth_of s c)
  /\ 1 <= depth <= max_event_depth
  /\ (forall id e, id ∈ nb_prev_event_ids b -> find id (events s) = Some e -> ev_depth e < depth \/ depth = max_event_depth)
  /\ (nb_ok b = true ->
      (nb_prev_event_ids b = cited /\ nb_retired_extremities b = []
       /\ compute_state_before s room policy cited limits = before_ok (nb_state_before b))
      \/ (exists c alone, nb_prev_event_ids b = [c] /\ single_state_before s c = before_ok alone
          /\ (forall x, x ∈ tips <-> x = c \/ x ∈ nb_retired_extremities b)
          /\ nb_state_before b = match current_state_entries s room with [] => alone | cached => cached end))
  /\ (nb_ok b = false -> nb_prev_event_ids b = cited
      /\ forall x, x ∈ cited -> exists reason, single_state_before s x = before_failed reason).
Proof.
  intros Hdepth tips cited b depth. destruct (cited_tips s room) as (Hlen & omitted & Hperm & Hom). fold tips in Hperm. fold cited in Hlen, Hperm, Hom.
  assert (forall x, x ∈ cited -> x ∈ tips) as Hsub by (intros x Hx; rewrite <- Hperm; apply elem_of_app; by left).
  destruct (depth_spec s (nb_prev_event_ids b) Hdepth) as [Hd1 Hd2].
  cut ((nb_prev_event_ids b = cited \/ exists c, c ∈ cited /\ nb_prev_event_ids b = [c])
    /\ (nb_ok b = true ->
      (nb_prev_event_ids b = cited /\ nb_retired_extremities b = []
       /\ compute_state_before s room policy cited limits = before_ok (nb_state_before b))
      \/ (exists c alone, nb_prev_event_ids b = [c] /\ single_state_before s c = before_ok alone
          /\ (forall x, x ∈ tips <-> x = c \/ x ∈ nb_retired_extremities b)
          /\ nb_state_before b = match current_state_entries s room with [] => alone | cached => cached end))
    /\ (nb_ok b = false -> nb_prev_event_ids b = cited
      /\ forall x, x ∈ cited -> exists reason, single_state_before s x = before_failed reason)).
  { intros (Hprev & Hok & Hno). split; [|split; [|split; [|split; [done|split; [done|split; done]]]]].
    - destruct Hprev as [->|(c & Hc & ->)]; [done|]. unfold max_prev_events_per_event. simpl. lia.
    - intros x Hx. destruct Hprev as [Hp|(c & Hc & Hp)]; rewrite Hp in Hx; [auto|]. apply list_elem_of_singleton in Hx as ->. auto.
    - intros c o Hc Ho. rewrite <- Hperm in Ho. apply elem_of_app in Ho as [Ho|Ho]; [by left|right; auto]. }
  subst b. unfold basis_for_new_event. fold cited. destruct (compute_state_before s room policy cited limits) as [all|reason] eqn:E; simpl.
  { split; [by left|]. split; [by left|done]. }
  destruct (Nat.ltb_spec 1 (length cited)) as [Hlt|Hge].
  - set (l := sort_greatest_first _). pose proof (fallback_spec s room policy limits l) as Hf.
    assert (forall d c, (d, c) ∈ l -> c ∈ cited) as Hl.
    { intros d c. unfold l. rewrite sort_greatest_perm. by intros (id & [= -> ->] & Hid)%list_elem_of_fmap. }
    destruct (fallback_basis s room policy limits l) as [b|]; simpl.
    + destruct Hf as (d & c & alone & Hin & Hc & Hok & Hprev & Hret & Hst). apply Hl in Hin. rewrite Hprev, Hret, Hok, Hst.
      split; [right; eauto|]. split; [|done]. intros _. right. exists c, alone. repeat (split; [done|]). split; [|done].
      intros x. rewrite list_elem_of_filter. fold tips. split; [|intros [->|[_ ?]]; auto].
      intros Hx. destruct (decide (x = c)); auto.
    + split; [by left|]. split; [done|]. intros _. split; [done|]. intros x Hx. apply (Hf (stream_ordering_of s x)).
      unfold l. rewrite sort_greatest_perm. apply list_elem_of_fmap. eauto.
  - simpl. split; [by left|]. split; [done|]. intros _. split; [done|]. destruct cited as [|c [|c' rest]]; [done| |simpl in Hge; lia].
    intros x ->%list_elem_of_singleton. simpl in E. eauto.
Qed.
End Basis.

Abbreviation current_event s := (find_current_state_event_id (current s)).

(** * Rows that name each key once *)

Definition row_key (row : PersistentStateEvent) : string * string * string :=
  (st_room_id row, st_event_type row, st_state_key row).

Record rows_ok (cs : CurrentState) : Prop := {
  ro_indexes : state_ok cs;
  ro_unique : NoDup (row_key <$> Store.state cs);
  ro_plain : Forall (fun row => no_nul (st_event_type row)) (Store.state cs)
}.

Lemma set_event_id_rows new rows rows' : set_event_id new rows = Some rows' -> row_key <$> rows' = row_key <$> rows.
Proof.
  revert rows'. induction rows as [|row rows IH]; intros rows'; csimpl; [done|]. destruct (state_row_is _ _ _ _).
  - by intros [= <-].
  - intros (rest & Hr & ->)%fmap_Some_1. by rewrite fmap_cons, (IH rest Hr).
Qed.

Lemma set_event_id_none new rows : set_event_id new rows = None -> row_key new ∉ row_key <$> rows.
Proof.
  induction rows as [|row rows IH]; csimpl; [set_solver|]. destruct (state_row_is _ _ _ _) eqn:E; [done|]. intros Hn%fmap_None.
  rewrite not_elem_of_cons. split; [|by apply IH]. unfold row_key. intros [= H1 H2 H3].
  assert (state_row_is row (st_room_id new) (st_event_type new) (st_state_key new) = true); [|congruence].
  by apply state_row_is_spec.
Qed.

Lemma put_rows new cs : Store.state (put_state_row new cs) = default (Store.state cs ++ [new]) (set_event_id new (Store.state cs)).
Proof.
  unfold put_state_row. destruct (set_event_id new (Store.state cs)); [done|]. unfold note_state_row_appended.
  destruct (_ || _); [done|]. simpl. by rewrite index_row_state.
Qed.

Lemma plain_keys rows rows' : row_key <$> rows' = row_key <$> rows ->
  Forall (fun row => no_nul (st_event_type row)) rows -> Forall (fun row => no_nul (st_event_type row)) rows'.
Proof.
  revert rows'. induction rows as [|r rows IH]; intros [|r' rows']; try done. csimpl. intros [= H1 H2 H3 Hk] [Hr Hrows]%Forall_cons.
  apply Forall_cons. split; [by rewrite H2|by apply IH].
Qed.

Lemma put_rows_ok new cs : no_nul (st_event_type new) -> rows_ok cs -> rows_ok (put_state_row new cs).
Proof.
  intros Hnew [Hok Hn Hp]. split; [by apply put_state_row_ok| |]; rewrite put_rows; destruct (set_event_id new _) as [rows|] eqn:E; simpl.
  - by rewrite (set_event_id_rows _ _ _ E).
  - rewrite fmap_app. apply NoDup_app. split; [done|]. split; [|apply NoDup_singleton].
    intros x Hx ->%list_elem_of_singleton. by apply set_event_id_none in E.
  - eapply plain_keys; [by eapply set_event_id_rows|done].
  - apply Forall_app. split; [done|]. by apply Forall_singleton.
Qed.

(** * The map of a room's current state *)

Lemma insert_rows_lookup rows (m : gmap string string) i :
  foldl (fun m row => <[state_entry_key (st_event_type row) (st_state_key row) := st_event_id row]> m) m rows !! i =
  match List.find (fun row => state_entry_key (st_event_type row) (st_state_key row) =s i) (reverse rows) with
  | Some row => Some (st_event_id row)
  | None => m !! i
  end.
Proof.
  induction rows as [|row rows IH] using rev_ind; [done|]. rewrite foldl_app, reverse_app. simpl.
  destruct (_ =s i) eqn:E; breflect; [by rewrite <- E, lookup_insert_eq|]. by rewrite lookup_insert_ne.
Qed.

Lemma current_map_lookup s room t k : rows_ok (current s) -> no_nul t ->
  current_state_map s room !! state_entry_key t k = current_event s room t k.
Proof.
  intros [Hok Hn Hp] Ht. unfold current_state_map. rewrite insert_rows_lookup, room_rows_are_scan, find_is_scan by done.
  set (rows := Store.state (current s)) in *.
  assert (forall row, row ∈ rows -> state_entry_key (st_event_type row) (st_state_key row) = state_entry_key t k ->
    st_event_type row = t /\ st_state_key row = k) as Hinj.
  { intros row Hrow Heq. rewrite Forall_forall in Hp. apply nul_split in Heq; auto. }
  destruct (List.find _ _) as [row|] eqn:E.
  - apply List.find_some in E as [Hin Hkey]. breflect. rewrite <- list_elem_of_In, elem_of_reverse, list_elem_of_filter in Hin.
    destruct Hin as [Hroom Hrow]. destruct (Hinj row Hrow Hkey) as [Htype Hsk]. apply list_elem_of_lookup in Hrow as [p Hp'].
    symmetry. apply (scan_first _ _ _ _ p); [done|done|]. intros q row' Hq Hrow' (H1 & H2 & H3).
    assert (q = p); [|lia]. eapply (NoDup_lookup _ q p (row_key row) Hn); rewrite list_lookup_fmap.
    + rewrite Hrow'. unfold row_key. simpl. congruence.
    + by rewrite Hp'.
  - rewrite lookup_empty. symmetry. apply scan_none. intros q row Hq (H1 & H2 & H3).
    pose proof (List.find_none _ _ E row) as Hnone. rewrite <- list_elem_of_In, elem_of_reverse, list_elem_of_filter in Hnone.
    assert (row ∈ rows) as Hin by (by eapply list_elem_of_lookup_2). specialize (Hnone (conj H1 Hin)). breflect. congruence.
Qed.

Lemma current_after_put s row prev r t k : rows_ok (current s) ->
  current_event (apply_current_state row prev s) r t k =
  if decide (row_key row = (r, t, k)) then Some (st_event_id row) else current_event s r t k.
Proof.
  intros [Hok _ _]. simpl. rewrite find_put by done. destruct (state_row_is row r t k) eqn:E.
  - apply state_row_is_spec in E as (<- & <- & <-). by rewrite decide_True.
  - rewrite decide_False; [done|]. intros [= <- <- <-].
    assert (state_row_is row (st_room_id row) (st_event_type row) (st_state_key row) = true) by (by apply state_row_is_spec). congruence.
Qed.

(** * Planned changes *)

Section Changes.
Context `{Yyjson}.

(** What [entries] leave of a room's current state. *)
Definition overlay (entries : list Entry) (before : string -> string -> option string) (t k : string) : option string :=
  match first_entry entries (state_group_entry_key t k) with Some id => Some id | None => before t k end.

Lemma overlay_unchanged entry entries before t k : no_nul (ge_event_type entry) -> no_nul t ->
  before (ge_event_type entry) (ge_state_key entry) = Some (ge_event_id entry) ->
  overlay (entry :: entries) before t k = overlay entries before t k \/ entry_key entry ∈ entry_key <$> entries.
Proof.
  intros He Ht Hb. destruct (decide (entry_key entry ∈ entry_key <$> entries)); [by right|left]. unfold overlay.
  rewrite first_entry_cons. destruct (decide _) as [Heq|]; [|done]. unfold entry_key in Heq. apply entry_key_inj in Heq as [-> ->]; [|done|done].
  fold (entry_key entry). rewrite (proj2 (first_entry_None entries (entry_key entry))) by done. by rewrite Hb.
Qed.

Lemma plan_changes_applied s room event_id entries : forall cur changes s0,
  plan_changes s room event_id cur entries = inr changes ->
  rows_ok (current s0) -> plain_entries entries -> NoDup (entry_key <$> entries) ->
  (forall t k, no_nul t -> cur !! state_entry_key t k = current_event s0 room t k) ->
  let s1 := apply_changes changes s0 in
  rows_ok (current s1)
  /\ (forall t k, no_nul t -> current_event s1 room t k = overlay entries (current_event s0 room) t k)
  /\ (forall other t k, other <> room -> current_event s1 other t k = current_event s0 other t k).
Proof.
  induction entries as [|entry entries IH]; intros cur changes s0 Hplan Hok Hp Hn Hcur; simpl in Hplan.
  { simplify_eq. done. }
  apply Forall_cons in Hp as [He Hp]. csimpl in Hn. apply NoDup_cons in Hn as [Hfresh Hn].
  destruct (unchanged cur entry) eqn:Eu.
  - apply bool_decide_eq_true in Eu. rewrite Hcur in Eu by done.
    destruct (IH cur changes s0 Hplan Hok Hp Hn Hcur) as (H1 & H2 & H3). split; [done|]. split; [|done].
    intros t k Ht. rewrite H2 by done. by destruct (overlay_unchanged entry entries (current_event s0 room) t k He Ht Eu) as [->|].
  - destruct (_ && _); [done|]. destruct (plan_changes s room event_id _ entries) as [|rest] eqn:Er; [done|]. simplify_eq/=.
    set (row := state_row room entry). set (s0' := apply_current_state row _ s0).
    destruct (IH _ rest s0' Er) as (H1 & H2 & H3); [by apply put_rows_ok|done|done| |].
    { intros t k Ht. unfold s0'. rewrite current_after_put by done.
      destruct (decide (state_entry_key t k = state_entry_key (ge_event_type entry) (ge_state_key entry))) as [Heq|Hne].
      - apply nul_split in Heq as [-> ->]; [|done|done]. by rewrite lookup_insert_eq, decide_True.
      - rewrite lookup_insert_ne by done. rewrite decide_False; [by apply Hcur|]. unfold row, state_row, row_key. simpl. congruence. }
    split; [done|]. split.
    + intros t k Ht. rewrite H2 by done. unfold overlay. rewrite first_entry_cons. unfold s0'. rewrite current_after_put by done.
      destruct (decide (state_group_entry_key t k = entry_key entry)) as [Heq|Hne].
      * rewrite (proj2 (first_entry_None entries _)) by (by rewrite Heq).
        unfold entry_key in Heq. apply entry_key_inj in Heq as [-> ->]; [|done|done]. by rewrite decide_True.
      * destruct (first_entry entries _); [done|]. rewrite decide_False; [done|]. unfold row, state_row, row_key. simpl.
        intros [= H5 H6]. apply Hne. unfold entry_key. congruence.
    + intros other t k Hne. rewrite H3 by done. unfold s0'. rewrite current_after_put by done. rewrite decide_False; [done|].
      unfold row, state_row, row_key. simpl. congruence.
Qed.
End Changes.
