(* ===== verification/BookkeepingStore.v ===== *)
(** Storing an event with its bookkeeping: nothing is written unless all of it
    is; then the event, the state after it, the tips and the current state agree,
    and the invariant of the books is kept. *)
From S2P Require Import Prelude CppStd JsonValue JsonSerializer JsonParser RoomVersion Signing EventAuth EventShape EventTable EventTableInv EventTableAdd StateTables Store StoreLookup StoreWrites HistoryVisibility RedactionService Redaction RedactionFlow StateGroups StateGroupsWrite EventSource StateAuth StateRes Partition Resolution Bookkeeping BookkeepingBase.
Open Scope Z_scope.

(** * Frames *)

(** Groups are read from two tables only. *)
Lemma group_chain_frame s s' : Store.state_groups s' = Store.state_groups s ->
  forall budget visited id, group_chain budget s' visited id = group_chain budget s visited id.
Proof.
  intros Hg. assert (forall id, find_persistent_state_group s' id = find_persistent_state_group s id) as Hf
    by (intros id; unfold find_persistent_state_group; by rewrite Hg).
  induction budget as [|budget IH]; intros visited id; simpl; rewrite Hf; [done|]. destruct (bool_decide _); [done|].
  destruct (find_persistent_state_group s id) as [g|]; [|done]. destruct (sg_parent_state_group_id g); [|done]. by rewrite IH.
Qed.

Lemma group_entries_frame s s' id : Store.state_groups s' = Store.state_groups s ->
  state_group_state s' = state_group_state s -> group_entries s' id = group_entries s id.
Proof. intros Hg He. unfold group_entries, chain_entries. by rewrite (group_chain_frame s s' Hg), He. Qed.

Lemma well_grouped_frame s s' : Store.state_groups s' = Store.state_groups s -> state_group_state s' = state_group_state s ->
  well_grouped s -> well_grouped s'.
Proof.
  intros Hg He [H1 H2 H3 H4]. unfold find_persistent_state_group in *.
  constructor; unfold find_persistent_state_group; rewrite ?Hg, ?He; done.
Qed.

(** Everything but the events and the redactions. *)
Definition only_events (s s' : PersistentStore) : Prop := s' = with_redactions (with_events s (events s')) (redactions s').

Lemma only_events_refl s : only_events s s.
Proof. by destruct s. Qed.

Lemma only_events_trans a b c : only_events a b -> only_events b c -> only_events a c.
Proof. unfold only_events. intros Hb Hc. rewrite Hc, Hb. simpl. by destruct c. Qed.

Section Frames.
Context `{Yyjson} `{Libc} `{Sodium} `{IterationOrder}.
Context (backend : PersistentStore -> list Statement -> bool).

Lemma reconcile_frame persist id s : only_events s (reconcile_redaction persist id s).
Proof.
  unfold reconcile_redaction. destruct (negb _); [apply only_events_refl|]. destruct (application s id) as [[t output]|]; [|apply only_events_refl].
  destruct (_ <>s _); [|by destruct s]. unfold replace_event_json. destruct (_ !! _); [|apply only_events_refl].
  destruct (negb _); [apply only_events_refl|]. by destruct s.
Qed.

Lemma observer_frame id s : only_events s (redaction_observer backend id s).
Proof.
  unfold redaction_observer, reconcile_redactions_for_event. set (persist := fun _ _ _ => _). set (s1 := reconcile_redaction persist id s).
  assert (only_events s s1) as Hs1 by apply reconcile_frame. generalize (redactions_naming (redactions s1) id). intros ids.
  clearbody s1. revert s1 Hs1. induction ids as [|x ids IH]; intros s1 Hs1; [done|]. apply IH. eapply only_events_trans; [exact Hs1|apply reconcile_frame].
Qed.

Lemma observer_evolves id s : table_ok (events s) ->
  table_ok (events (redaction_observer backend id s)) /\ evolves s (redaction_observer backend id s).
Proof.
  intros Hok. unfold redaction_observer. set (persist := fun _ _ _ => _). pose proof (reconcile_event_steps persist id s Hok) as Hs.
  split; [by eapply steps_table_ok|by eapply steps_evolve].
Qed.

(** The event table and the rest after an event is stored. *)
Lemma stored_event_frame u s : contains (ev_event_id (pu_event u)) (events s) = false ->
  let s' := apply_store_event_with_state (redaction_observer backend) u s in
  current s' = match pu_state u with Some st => put_state_row st (current s) | None => current s end
  /\ Store.state_groups s' = Store.state_groups s /\ state_group_state s' = state_group_state s
  /\ event_state_groups s' = event_state_groups s /\ forward_extremities s' = forward_extremities s.
Proof.
  intros Hnew. unfold apply_store_event_with_state. rewrite Hnew. cbv zeta.
  match goal with |- context [redaction_observer backend ?id ?st] => rewrite (observer_frame id st) end. simpl.
  by destruct (pu_state u), (pu_membership u).
Qed.

Lemma stored_event_rows u s : table_ok (events s) -> contains (ev_event_id (pu_event u)) (events s) = false ->
  let s' := apply_store_event_with_state (redaction_observer backend) u s in
  table_ok (events s') /\ evolves s s' /\ exists json, find (ev_event_id (pu_event u)) (events s') = Some (set_json json (pu_event u)).
Proof.
  intros Hok Hnew. unfold apply_store_event_with_state. rewrite Hnew. cbv zeta.
  match goal with |- context [redaction_observer backend ?id ?st] => set (s1 := st) end.
  assert (events s1 = events (mirror_event (pu_event u) s)) as He1 by (subst s1; by destruct (pu_state u), (pu_membership u)).
  assert (table_ok (events s1)) as Hok1 by (rewrite He1; simpl; by apply insert_ok).
  destruct (observer_evolves (ev_event_id (pu_event u)) s1 Hok1) as [Hok2 Hev]. split; [done|]. split.
  - eapply (evolves_trans (fun _ _ _ => true)); [exact (mirror_evolves (pu_event u) s Hok Hnew)|].
    eapply (evolves_trans (fun _ _ _ => true)); [exact (evolves_events _ _ He1)|exact Hev].
  - destruct (Hev (ev_event_id (pu_event u)) (pu_event u)) as (json & Hj & _); [|eauto].
    rewrite He1. simpl. rewrite find_inserted by (done || by apply not_contained). by rewrite decide_True.
Qed.
End Frames.

(** * The invariant of the books *)

Section Invariant.
Context `{Yyjson}.

Record books_ok (s : PersistentStore) : Prop := {
  bo_table : table_ok (events s);
  bo_rows : rows_ok (current s);
  bo_groups : well_grouped s;
  bo_maps : mappings_ok (event_state_groups s);
  bo_mapped : forall e g, find_event_state_group s e = Some g -> is_Some (find_persistent_state_group s g);
  bo_tips : forall room, NoDup (find_forward_extremities s room)
}.

(** In sound books every recorded state can be read, and names each key once. *)
Lemma recorded_state_readable s e g : books_ok s -> find_event_state_group s e = Some g ->
  exists full, read_state_group_full_state s g = Some full /\ NoDup (entry_key <$> full).
Proof.
  intros Hok Hg. destruct (bo_mapped s Hok e g Hg) as [x Hx]. destruct (group_readable s g x (bo_groups s Hok) Hx) as [full Hf].
  exists full. split; [done|]. rewrite read_group_entries in Hf. apply fmap_Some in Hf as (l & _ & ->). apply merge_entries_spec.
Qed.

End Invariant.

(** * Keys of a resolution *)

Section Books.
Context `{Yyjson} `{Libc} `{Sodium} `{IterationOrder}.
Context (backend : PersistentStore -> list Statement -> bool).

Lemma resolved_keys request policy l : resolve_state_v2 request policy = Resolved l -> NoDup (ref_key <$> l).
Proof. apply resolve_v2_keys. Qed.

Lemma resolved_entries_keys l : NoDup (ref_key <$> l) -> plain_entries (to_state_group_entries l) ->
  NoDup (entry_key <$> to_state_group_entries l).
Proof.
  induction l as [|r l IH]; [intros; constructor|]. csimpl. rewrite !NoDup_cons. intros [Hr Hl] [Hp Hpl]%Forall_cons. split; [|by apply IH].
  intros (e & He & Hin)%list_elem_of_fmap. pose proof Hin as Hin'. apply list_elem_of_fmap in Hin as (r' & -> & Hr'). apply Hr.
  unfold plain_entries in Hpl. rewrite Forall_forall in Hpl. specialize (Hpl _ Hin'). unfold entry_key in He. simpl in He.
  apply entry_key_inj in He as [Hty Hsk]; [|done|done]. apply list_elem_of_fmap. exists r'. split; [|done].
  by destruct (ref_key r), (ref_key r'); simpl in *; subst.
Qed.

Lemma resolution_keys group_of state_of lookup room policy limits extremities entries :
  (forall x st, state_of x = Some st -> NoDup (entry_key <$> es_entries st)) ->
  resolve_extremity_states group_of state_of lookup room policy limits extremities = inr entries ->
  plain_entries entries -> NoDup (entry_key <$> entries).
Proof.
  intros Hst. unfold resolve_extremity_states. destruct (distinct_extremities _ _ _) as [|[|x [|y distinct]]]; try done.
  - intros [= <-] _. constructor.
  - destruct (state_of x) as [st|] eqn:E; [|done]. intros [= <-] _. by eapply Hst.
  - destruct (_ <? _)%nat; [done|]. destruct (extremity_groups _ _ _ _ _); [done|].
    destruct (resolve_state_v2 _ _) as [resolved|] eqn:E; [|done]. intros [= <-] Hp. apply resolved_entries_keys; [|done]. by eapply resolved_keys.
Qed.

Lemma recorded_keys s x st : recorded_extremity_state s x = Some st -> NoDup (entry_key <$> es_entries st).
Proof.
  unfold recorded_extremity_state. destruct (find_event_state_group s x) as [g|]; simpl; [|done].
  destruct (read_state_group_full_state s g) as [full|] eqn:E; simpl; [|done]. intros [= <-]. simpl.
  rewrite read_group_entries in E. apply fmap_Some in E as (l & _ & ->). apply merge_entries_spec.
Qed.

Lemma pending_keys s policy limits event g bk entries : NoDup (entry_key <$> bk_state_after bk) ->
  pending_resolution s policy limits event g bk = inr entries -> plain_entries entries -> NoDup (entry_key <$> entries).
Proof.
  intros Hn. apply resolution_keys. intros x st. destruct (_ =s _); [by intros [= <-]|apply recorded_keys].
Qed.
(** * The plan *)

Lemma prepared_event_facts s event row membership u statements :
  prepare_store_event_with_state s event row membership = Some (u, statements) ->
  contains (ev_event_id event) (events s) = false /\ pu_event u = event /\ pu_state u = row
  /\ (forall st, row = Some st -> st_event_id st = ev_event_id event /\ st_room_id st = ev_room_id event).
Proof.
  unfold prepare_store_event_with_state. destruct (negb (sync_stream_has_write_reserve s)); [done|].
  destruct (match membership with None => _ | Some _ => _ end); [done|].
  destruct (contains _ _) eqn:Ec; [done|]. simpl. destruct (match row with Some _ => _ | None => _ end) eqn:Em; [done|].
  assert (forall st, row = Some st -> st_event_id st = ev_event_id event /\ st_room_id st = ev_room_id event) as Hst.
  { intros st ->. unfold state_matches_event in Em. breflect. done. }
  destruct membership as [p|]; [destruct (append_membership_projection_statements _ _); [|done]|]; intros [= <- _]; done.
Qed.

Section Plan.
Context (s : PersistentStore) (policy : RoomVersionPolicy) (event : PersistentEvent) (row : option PersistentStateEvent).
Context (membership : option MembershipProjection) (bk : EventBookkeeping) (limits : StateResolutionLimits) (plan : BookkeepingPlan).
Hypothesis Hplan : plan_bookkeeping s policy event row membership bk limits = inr plan.

Lemma plan_facts :
  prepare_store_event_with_state s event row membership = Some (bp_event plan, bp_event_statements plan)
  /\ prepare_state_group s (ev_room_id event) ("sg:" +:+ ev_event_id event) (bk_parent_state_group_id bk) (bk_state_after bk)
     = Some (bp_group plan)
  /\ bp_resolution plan = pending_resolution s policy limits event (pg_state_group_id (bp_group plan)) bk
  /\ plan_changes s (ev_room_id event) (ev_event_id event) (current_with_own_row s event row)
       (match bp_resolution plan with inr entries => entries | inl _ => [] end) = inr (bp_changes plan).
Proof.
  revert Hplan. unfold plan_bookkeeping. destruct (prepare_store_event_with_state _ _ _ _) as [[u st]|]; [|done].
  destruct (prepare_state_group _ _ _ _ _) as [g|]; [|done]. destruct (prepare_event_state_group _ _); [|done].
  destruct (plan_changes _ _ _ _ _) as [|changes] eqn:E; [done|]. intros [= <-]. done.
Qed.
End Plan.

(** The event's own row over the cached current state. *)
Definition own_row (s : PersistentStore) (event : PersistentEvent) (row : option PersistentStateEvent) (t k : string) : option string :=
  match row with
  | Some st => if decide ((st_event_type st, st_state_key st) = (t, k)) then Some (ev_event_id event)
               else current_event s (ev_room_id event) t k
  | None => current_event s (ev_room_id event) t k
  end.

(** The books after an event was stored, in one piece. *)
Record booked (s s' : PersistentStore) (policy : RoomVersionPolicy) (limits : StateResolutionLimits) (event : PersistentEvent)
    (row : option PersistentStateEvent) (bk : EventBookkeeping) (group : string) : Prop := {
  bd_stored : exists json, find (ev_event_id event) (events s') = Some (set_json json event);
  bd_events : evolves s s';
  bd_group : find_event_state_group s' (ev_event_id event) = Some group;
  bd_state : group_map s' group = Some (to_state_group_map (bk_state_after bk));
  bd_other_groups : forall other, other <> ev_event_id event -> find_event_state_group s' other = find_event_state_group s other;
  bd_other_states : forall other full, read_state_group_full_state s other = Some full -> read_state_group_full_state s' other = Some full;
  bd_tips : forall room, find_forward_extremities s' room =
    if decide (room = ev_room_id event) then extremities_after s room (ev_event_id event) (bk_replaced_extremities bk)
    else find_forward_extremities s room;
  bd_current : forall t k, no_nul t -> current_event s' (ev_room_id event) t k =
    overlay (match pending_resolution s policy limits event group bk with inr entries => entries | inl _ => [] end)
      (own_row s event row) t k;
  bd_other_rooms : forall room t k, room <> ev_room_id event -> current_event s' room t k = current_event s room t k
}.

Lemma changes_frame changes s : let s' := apply_changes changes s in
  events s' = events s /\ Store.state_groups s' = Store.state_groups s /\ state_group_state s' = state_group_state s
  /\ event_state_groups s' = event_state_groups s /\ forward_extremities s' = forward_extremities s.
Proof. revert s. induction changes as [|c changes IH]; intros s; [done|]. apply (IH (apply_current_state c.1 c.2 s)). Qed.

Lemma apply_group_frame p s : let s' := apply_state_group p s in
  events s' = events s /\ current s' = current s /\ event_state_groups s' = event_state_groups s
  /\ forward_extremities s' = forward_extremities s.
Proof. unfold apply_state_group. by destruct (pg_group p). Qed.

Lemma apply_group_tables p a b : Store.state_groups a = Store.state_groups b -> state_group_state a = state_group_state b ->
  Store.state_groups (apply_state_group p a) = Store.state_groups (apply_state_group p b)
  /\ state_group_state (apply_state_group p a) = state_group_state (apply_state_group p b).
Proof. intros Hg He. unfold apply_state_group. destruct (pg_group p); simpl; by rewrite Hg, He. Qed.

Lemma own_row_map s event row t k : rows_ok (current s) -> no_nul t ->
  (forall st, row = Some st -> no_nul (st_event_type st)) ->
  current_with_own_row s event row !! state_entry_key t k = own_row s event row t k.
Proof.
  intros Hok Ht Hrow. unfold current_with_own_row, own_row. destruct row as [st|]; [|by apply current_map_lookup].
  destruct (decide (state_entry_key (st_event_type st) (st_state_key st) = state_entry_key t k)) as [Heq|Hne].
  - apply nul_split in Heq as [<- <-]; [|by apply Hrow|done]. by rewrite lookup_insert_eq, decide_True.
  - rewrite lookup_insert_ne, current_map_lookup by done. rewrite decide_False; [done|]. congruence.
Qed.

Lemma own_row_stored s event row cs : rows_ok (current s) ->
  (forall st, row = Some st -> st_event_id st = ev_event_id event /\ st_room_id st = ev_room_id event) ->
  cs = match row with Some st => put_state_row st (current s) | None => current s end ->
  (forall t k, find_current_state_event_id cs (ev_room_id event) t k = own_row s event row t k)
  /\ (forall room t k, room <> ev_room_id event -> find_current_state_event_id cs room t k = current_event s room t k).
Proof.
  intros Hok Hrow ->. destruct row as [st|]; [|done]. destruct (Hrow st eq_refl) as [Hid Hroom].
  pose proof (current_after_put s st EmptyString) as Hput. simpl in Hput. split.
  - intros t k. rewrite (Hput _ _ _ Hok). simpl. unfold row_key. rewrite Hid, Hroom.
    destruct (decide ((st_event_type st, st_state_key st) = (t, k))) as [[= <- <-]|Hne]; [by rewrite decide_True|].
    rewrite decide_False; congruence.
  - intros room t k Hne. rewrite (Hput _ _ _ Hok), decide_False; [done|]. unfold row_key. congruence.
Qed.
(** ** Applying the plan *)

Section Apply.
Context (s : PersistentStore) (policy : RoomVersionPolicy) (event : PersistentEvent) (row : option PersistentStateEvent).
Context (membership : option MembershipProjection) (bk : EventBookkeeping) (limits : StateResolutionLimits) (plan : BookkeepingPlan).
Hypothesis Hbooks : books_ok s.
Hypothesis Hplan : plan_bookkeeping s policy event row membership bk limits = inr plan.
Hypothesis Hafter : NoDup (entry_key <$> bk_state_after bk).
Hypothesis Hrow : forall st, row = Some st -> no_nul (st_event_type st).
Hypothesis Hplain : forall entries, bp_resolution plan = inr entries -> plain_entries entries.
Hypothesis Hfresh : forall g, pg_group (bp_group plan) = Some g -> find_persistent_state_group s (sg_state_group_id g) = None.

Let s' : PersistentStore := apply_plan backend event bk plan s.
Let group : string := pg_state_group_id (bp_group plan).

Lemma applied_holds : holds_state s (bk_state_after bk) (bp_group plan).
Proof.
  destruct (plan_facts _ _ _ _ _ _ _ _ Hplan) as (_ & Hg & _). eapply prepared_committed; [by apply bo_groups|done|exact Hg|exact Hfresh].
Qed.

Lemma applied_tables :
  Store.state_groups s' = Store.state_groups (apply_state_group (bp_group plan) s)
  /\ state_group_state s' = state_group_state (apply_state_group (bp_group plan) s)
  /\ event_state_groups s' = EventStateGroupTable.assign (ev_event_id event) group (event_state_groups s)
  /\ forward_extremities s' = update_extremities (ev_room_id event) (ev_event_id event) (bk_replaced_extremities bk) (forward_extremities s).
Proof.
  destruct (plan_facts _ _ _ _ _ _ _ _ Hplan) as (He & _). apply prepared_event_facts in He as (Hnew & Hev & _).
  unfold s', apply_plan. cbv zeta. set (s1 := apply_store_event_with_state _ _ _).
  assert (contains (ev_event_id (pu_event (bp_event plan))) (events s) = false) as Hnew' by (by rewrite Hev).
  destruct (stored_event_frame backend (bp_event plan) s Hnew') as (_ & F1 & F2 & F3 & F4). fold s1 in F1, F2, F3, F4.
  destruct (changes_frame (bp_changes plan) (apply_forward_extremities_update (ev_room_id event) (ev_event_id event)
    (bk_replaced_extremities bk) (apply_event_state_group (ev_event_id event) (pg_state_group_id (bp_group plan)) (apply_state_group (bp_group plan) s1))))
    as (_ & G1 & G2 & G3 & G4).
  rewrite G1, G2, G3, G4. simpl. destruct (apply_group_frame (bp_group plan) s1) as (_ & _ & A3 & A4). rewrite A3, A4, F3, F4.
  destruct (apply_group_tables (bp_group plan) s1 s F1 F2) as [-> ->]. done.
Qed.

Lemma applied_groups id : find_event_state_group s' id = if decide (id = ev_event_id event) then Some group else find_event_state_group s id.
Proof.
  unfold find_event_state_group. destruct applied_tables as (_ & _ & -> & _). apply state_group_of_assigned. by apply bo_maps.
Qed.

Lemma applied_tips room : find_forward_extremities s' room =
  if decide (room = ev_room_id event) then extremities_after s room (ev_event_id event) (bk_replaced_extremities bk)
  else find_forward_extremities s room.
Proof.
  destruct applied_tables as (_ & _ & _ & Hf).
  pose proof (extremities_updated (ev_room_id event) (ev_event_id event) (bk_replaced_extremities bk) s room) as Hu.
  unfold find_forward_extremities in Hu at 1. simpl in Hu. unfold find_forward_extremities at 1. rewrite Hf, Hu.
  by destruct (decide _) as [->|].
Qed.

Lemma applied_current : rows_ok (current s')
  /\ (forall t k, no_nul t -> current_event s' (ev_room_id event) t k =
        overlay (match bp_resolution plan with inr entries => entries | inl _ => [] end) (own_row s event row) t k)
  /\ (forall room t k, room <> ev_room_id event -> current_event s' room t k = current_event s room t k).
Proof.
  destruct (plan_facts _ _ _ _ _ _ _ _ Hplan) as (He & _ & Hres & Hch). apply prepared_event_facts in He as (Hnew & Hev & Hst & Hown).
  unfold s', apply_plan. cbv zeta. set (s1 := apply_store_event_with_state _ _ _).
  assert (contains (ev_event_id (pu_event (bp_event plan))) (events s) = false) as Hnew' by (by rewrite Hev).
  destruct (stored_event_frame backend (bp_event plan) s Hnew') as (F0 & _). fold s1 in F0. rewrite Hst in F0.
  set (s4 := apply_forward_extremities_update _ _ _ _).
  assert (current s4 = current s1) as Hc4 by (unfold s4; simpl; apply (apply_group_frame (bp_group plan) s1)).
  destruct (own_row_stored s event row (current s1) (bo_rows s Hbooks) Hown F0) as [Ho Hother].
  destruct (plan_changes_applied _ _ _ _ _ _ s4 Hch) as (R1 & R2 & R3).
  - rewrite Hc4, F0. pose proof (bo_rows s Hbooks). destruct row as [st|]; [|done]. by apply put_rows_ok; [apply Hrow|].
  - destruct (bp_resolution plan) eqn:E; [by constructor|by apply Hplain].
  - destruct (bp_resolution plan) as [|entries] eqn:E; [by constructor|]. eapply pending_keys; [exact Hafter|by rewrite <- Hres|by apply Hplain].
  - intros t k Ht. rewrite Hc4, Ho. apply own_row_map; [by apply bo_rows|done|done].
  - split; [done|]. split.
    + intros t k Ht. rewrite R2 by done. unfold overlay. destruct (first_entry _ _); [done|]. by rewrite Hc4, Ho.
    + intros room t k Hne. rewrite R3 by done. by rewrite Hc4, Hother.
Qed.

Lemma applied_events : table_ok (events s') /\ evolves s s'
  /\ exists json, find (ev_event_id event) (events s') = Some (set_json json event).
Proof.
  destruct (plan_facts _ _ _ _ _ _ _ _ Hplan) as (He & _). apply prepared_event_facts in He as (Hnew & Hev & _).
  unfold s', apply_plan. cbv zeta. set (s1 := apply_store_event_with_state _ _ _). unfold evolves.
  rewrite (proj1 (changes_frame _ _)). simpl. rewrite (proj1 (apply_group_frame _ _)).
  pose proof (stored_event_rows backend (bp_event plan) s (bo_table s Hbooks)) as Hs. rewrite Hev in Hs. by apply Hs.
Qed.

Lemma applied_booked : books_ok s' /\ booked s s' policy limits event row bk group.
Proof.
  destruct applied_holds as (Hwf & Hmap & Hother). destruct applied_tables as (T1 & T2 & T3 & T4).
  destruct applied_current as (C1 & C2 & C3). destruct applied_events as (E1 & E2 & E3).
  destruct (plan_facts _ _ _ _ _ _ _ _ Hplan) as (_ & _ & Hres & _).
  assert (forall id, group_entries s' id = group_entries (apply_state_group (bp_group plan) s) id) as Hent
    by (intros id; by apply group_entries_frame).
  assert (group_map s' group = Some (to_state_group_map (bk_state_after bk))) as Hgm
    by (rewrite group_map_entries, Hent, <- group_map_entries; exact Hmap).
  assert (well_grouped s') as Hwf' by (by apply (well_grouped_frame (apply_state_group (bp_group plan) s))).
  assert (forall other full, read_state_group_full_state s other = Some full -> read_state_group_full_state s' other = Some full) as Hreads.
  { intros other full. rewrite !read_group_entries. intros (l & Hl & ->)%fmap_Some. by rewrite Hent, (Hother _ _ Hl). }
  split.
  - split; [done|done|done| | |].
    + rewrite T3. apply assign_ok. by apply bo_maps.
    + intros e g. rewrite applied_groups. destruct (decide _) as [->|_].
      * intros [= <-]. unfold group_map in Hgm. apply fmap_Some in Hgm as (full & Hf & _). by eapply read_names_group.
      * intros Hg. destruct (recorded_state_readable s e g Hbooks Hg) as (full & Hf & _). eapply read_names_group. by apply Hreads.
    + intros room. rewrite applied_tips. destruct (decide _); [by apply extremities_after_nodup, bo_tips|by apply bo_tips].
  - split; try done.
    + by rewrite applied_groups, decide_True.
    + intros other Hne. by rewrite applied_groups, decide_False.
    + apply applied_tips.
    + intros t k Ht. rewrite C2 by done. by rewrite Hres.
Qed.
End Apply.

Lemma plan_inserts_group event bk plan g : insert_state_group g ∈ pg_statements (bp_group plan) ->
  insert_state_group g ∈ plan_statements event bk plan.
Proof. intros Hin. unfold plan_statements. rewrite !elem_of_app. auto. Qed.

(** The types of the entries that the resolution of a plan names. *)
Definition plain_resolution (s : PersistentStore) (policy : RoomVersionPolicy) (event : PersistentEvent)
    (row : option PersistentStateEvent) (membership : option MembershipProjection) (bk : EventBookkeeping)
    (limits : StateResolutionLimits) : Prop :=
  forall plan entries, plan_bookkeeping s policy event row membership bk limits = inr plan ->
    bp_resolution plan = inr entries -> plain_entries entries.

Lemma bookkeeping_stored policy event row membership bk limits s :
  keeps_group_keys backend -> books_ok s -> NoDup (entry_key <$> bk_state_after bk) ->
  (forall st, row = Some st -> no_nul (st_event_type st)) -> plain_resolution s policy event row membership bk limits ->
  let '(result, s') := store_event_with_bookkeeping backend policy event row membership bk limits s in
  (sb_ok result = false -> s' = s)
  /\ (sb_ok result = true -> books_ok s' /\ exists group,
        booked s s' policy limits event row bk group
        /\ (sb_resolution_refused result = true <-> exists reason, pending_resolution s policy limits event group bk = inl reason)).
Proof.
  intros Hkeys Hbooks Hafter Hrow Hplain. unfold store_event_with_bookkeeping.
  destruct (plan_bookkeeping s policy event row membership bk limits) as [refusal|plan] eqn:Ep.
  { split; [done|]. intros Hok. exfalso. revert Ep Hok. unfold plan_bookkeeping.
    destruct (prepare_store_event_with_state _ _ _ _) as [[u st]|]; [|by intros [= <-]].
    destruct (prepare_state_group _ _ _ _ _) as [g|]; [|by intros [= <-]]. destruct (prepare_event_state_group _ _); [|by intros [= <-]].
    destruct (plan_changes _ _ _ _ _); by intros [= <-]. }
  destruct (commit_persistent_transaction _ _ _) eqn:Ec; simpl; [|done]. split; [done|]. intros _.
  destruct (plan_facts _ _ _ _ _ _ _ _ Ep) as (_ & Hg & Hres & _).
  destruct (applied_booked s policy event row membership bk limits plan Hbooks Ep Hafter Hrow) as [Hb Hbd].
  - intros entries He. by eapply Hplain.
  - intros g Hgg. destruct (prepared_new_statement _ _ _ _ _ _ _ Hg Hgg) as [_ Hin]. apply (plan_inserts_group event bk plan) in Hin.
    eapply Hkeys; [|exact Hin]. by destruct (plan_statements event bk plan); [set_solver|].
  - split; [done|]. eexists. split; [exact Hbd|]. rewrite <- Hres. destruct (bp_resolution plan); simpl; [naive_solver|]. split; [done|by intros []].
Qed.

(** C8. Storing an event with its bookkeeping is one piece.  Refused at any step, it
    leaves the store as it was.  Stored: the event is there; its group reads as
    exactly the state after it, and every other recorded state as before; the
    room's tips are the old ones less those replaced, plus the event; and current
    state is what the resolution over those tips says wherever it says anything,
    then the event's own row, then what it was.  Other rooms do not change, and
    the invariant of the books is kept.  It assumes that the backend enforces the
    primary key of state groups and that event types hold no NUL. *)
Theorem bookkeeping_is_atomic policy event row membership bk limits s :
  keeps_group_keys backend -> books_ok s -> NoDup (entry_key <$> bk_state_after bk) ->
  (forall st, row = Some st -> no_nul (st_event_type st)) -> plain_resolution s policy event row membership bk limits ->
  let '(result, s') := store_event_with_bookkeeping backend policy event row membership bk limits s in
  (sb_ok result = false -> s' = s)
  /\ (sb_ok result = true -> books_ok s' /\ exists group,
        booked s s' policy limits event row bk group
        /\ (sb_resolution_refused result = true <-> exists reason, pending_resolution s policy limits event group bk = inl reason)).
Proof. intros. by apply bookkeeping_stored. Qed.
End Books.
