(* ===== verification/BookkeepingLocal.v ===== *)
(** Recomputing current state from the tips, and the life of a local event: the
    state the next event builds on is the state its basis had with the event
    added. *)
From S2P Require Import Prelude CppStd JsonValue JsonSerializer JsonParser RoomVersion Signing EventAuth EventShape EventTable EventTableInv EventTableAdd StateTables Store StoreLookup StoreWrites HistoryVisibility RedactionService Redaction RedactionFlow StateGroups StateGroupsWrite EventSource StateAuth StateRes Partition Resolution Bookkeeping BookkeepingBase BookkeepingStore.
Open Scope Z_scope.

Section Local.
Context `{Yyjson} `{Libc} `{Sodium} `{IterationOrder}.
Context (backend : PersistentStore -> list Statement -> bool).

(** * Writes of current state *)

(** Everything but current state and its transitions. *)
Record same_books (s s' : PersistentStore) : Prop := {
  sb_events : events s' = events s;
  sb_groups : Store.state_groups s' = Store.state_groups s;
  sb_entries : state_group_state s' = state_group_state s;
  sb_maps : event_state_groups s' = event_state_groups s;
  sb_tips : forward_extremities s' = forward_extremities s
}.

#[local] Instance same_books_preorder : PreOrder same_books.
Proof.
  split; [by split|]. intros a b c [H1' H2' H3' H4' H5'] [K1 K2 K3 K4 K5]. split; congruence.
Qed.

Lemma same_books_ok s s' : same_books s s' -> rows_ok (current s') -> books_ok s -> books_ok s'.
Proof.
  intros [He Hg Hn Hm Ht] Hrows [B1 B2 B3 B4 B5 B6]. split.
  - by rewrite He.
  - done.
  - by apply (well_grouped_frame s).
  - by rewrite Hm.
  - intros e g. unfold find_event_state_group, find_persistent_state_group. rewrite Hm, Hg. apply B5.
  - intros room. unfold find_forward_extremities. rewrite Ht. apply B6.
Qed.

Lemma store_state_spec row s : rows_ok (current s) -> no_nul (st_event_type row) ->
  let '(stored, s') := store_state backend row s in
  same_books s s' /\ rows_ok (current s')
  /\ (stored = true -> forall r t k, current_event s' r t k =
        if decide (row_key row = (r, t, k)) then Some (st_event_id row) else current_event s r t k).
Proof.
  intros Hok Hrow. unfold store_state. destruct (negb (state_matches_persisted_event s row)); [done|].
  destruct (bool_decide _) eqn:E.
  - apply bool_decide_eq_true in E. split; [done|]. split; [done|]. intros _ r t k. destruct (decide _) as [[= <- <- <-]|]; [|done].
    rewrite find_is_scan by apply Hok. exact E.
  - destruct (negb _); [done|]. split; [done|]. split; [by apply put_rows_ok|]. intros _ r t k. by apply current_after_put.
Qed.

Lemma write_resolved_spec room cur entries : forall s,
  rows_ok (current s) -> plain_entries entries -> NoDup (entry_key <$> entries) ->
  (forall e, e ∈ entries -> cur !! entry_key e = current_event s room (ge_event_type e) (ge_state_key e)) ->
  let '(result, s') := write_resolved backend room cur entries s in
  same_books s s' /\ rows_ok (current s')
  /\ (forall reason, result <> recompute_refused reason)
  /\ (result = recompute_resolved ->
      (forall t k, no_nul t -> current_event s' room t k = overlay entries (current_event s room) t k)
      /\ (forall other t k, other <> room -> current_event s' other t k = current_event s other t k)).
Proof.
  induction entries as [|e entries IH]; intros s Hok Hp Hn Hcur; [done|].
  apply Forall_cons in Hp as [He Hp]. csimpl in Hn. apply NoDup_cons in Hn as [Hfresh Hn]. cbn [write_resolved].
  destruct (unchanged cur e) eqn:Eu.
  - apply bool_decide_eq_true in Eu. change (state_entry_key (ge_event_type e) (ge_state_key e)) with (entry_key e) in Eu.
    rewrite Hcur in Eu by (by left). specialize (IH s Hok Hp Hn (fun x Hx => Hcur x ltac:(by right))).
    destruct (write_resolved backend room cur entries s) as [result s']. destruct IH as (S1 & S2 & S3 & S4).
    split; [done|]. split; [done|]. split; [done|]. intros Hr. destruct (S4 Hr) as [C1 C2]. split; [|done].
    intros t k Ht. rewrite C1 by done. by destruct (overlay_unchanged e entries (current_event s room) t k He Ht Eu) as [->|].
  - pose proof (store_state_spec (state_row room e) s Hok He) as Hs. destruct (store_state backend (state_row room e) s) as [stored s1].
    destruct Hs as (T1 & T2 & T3). destruct stored; [|split; [done|split; [done|split; [done|done]]]]. specialize (T3 eq_refl).
    assert (forall x, x ∈ entries -> cur !! entry_key x = current_event s1 room (ge_event_type x) (ge_state_key x)) as Hcur1.
    { intros x Hx. rewrite T3, decide_False; [apply Hcur; by right|]. unfold row_key, state_row. simpl. intros [= Ht Hk].
      apply Hfresh. apply list_elem_of_fmap. exists x. split; [|done]. unfold entry_key. congruence. }
    specialize (IH s1 T2 Hp Hn Hcur1). destruct (write_resolved backend room cur entries s1) as [result s']. destruct IH as (S1 & S2 & S3 & S4).
    split; [by etrans|]. split; [done|]. split; [done|]. intros Hr. destruct (S4 Hr) as [C1 C2]. split.
    + intros t k Ht. rewrite C1 by done. unfold overlay. rewrite first_entry_cons, T3.
      destruct (decide (state_group_entry_key t k = entry_key e)) as [Heq|Hne].
      * rewrite (proj2 (first_entry_None entries _)) by (by rewrite Heq). unfold entry_key in Heq.
        apply entry_key_inj in Heq as [-> ->]; [|done|done]. by rewrite decide_True.
      * destruct (first_entry entries _); [done|]. rewrite decide_False; [done|]. unfold row_key, state_row. simpl.
        intros [= Ht' Hk']. apply Hne. unfold entry_key. congruence.
    + intros other t k Hne. rewrite C2, T3, decide_False; [done| |done]. unfold row_key, state_row. simpl. congruence.
Qed.

(** * The resolution does not read current state *)

Lemma distinct_ext group_of group_of' seen l : (forall x, group_of x = group_of' x) ->
  distinct_extremities group_of seen l = distinct_extremities group_of' seen l.
Proof. intros Hg. revert seen. induction l as [|x l IH]; intros seen; simpl; [done|]. rewrite Hg. destruct (group_of' x); [|done]. by rewrite IH. Qed.

Lemma extremity_groups_ext state_of state_of' lookup limits l total : (forall x, state_of x = state_of' x) ->
  extremity_groups state_of lookup limits total l = extremity_groups state_of' lookup limits total l.
Proof.
  intros Hs. revert total. induction l as [|x l IH]; intros total; simpl; [done|]. rewrite Hs. destruct (state_of' x); [|done].
  destruct (add_state_group_budget _ _ _); [|done]. destruct (to_state_event_references _ _); [|done]. by rewrite IH.
Qed.

Lemma resolve_ext group_of group_of' state_of state_of' lookup room policy limits l :
  (forall x, group_of x = group_of' x) -> (forall x, state_of x = state_of' x) ->
  resolve_extremity_states group_of state_of lookup room policy limits l =
  resolve_extremity_states group_of' state_of' lookup room policy limits l.
Proof.
  intros Hg Hs. unfold resolve_extremity_states. rewrite (distinct_ext _ group_of') by done.
  destruct (distinct_extremities group_of' ∅ l) as [|[|x [|y d]]]; [done|done|by rewrite Hs|].
  by rewrite (extremity_groups_ext _ state_of').
Qed.

Lemma same_books_resolution s s' room policy limits : same_books s s' ->
  store_resolution room policy limits s' = store_resolution room policy limits s.
Proof.
  intros [He Hg Hn Hm Ht]. unfold store_resolution.
  assert (find_forward_extremities s' room = find_forward_extremities s room) as -> by (unfold find_forward_extremities; by rewrite Ht).
  assert (make_store_event_lookup s' = make_store_event_lookup s) as -> by (unfold make_store_event_lookup; by rewrite He).
  assert (forall x, find_event_state_group s' x = find_event_state_group s x) as Hf by (intros x; unfold find_event_state_group; by rewrite Hm).
  apply resolve_ext; [done|]. intros x. unfold recorded_extremity_state. rewrite Hf. destruct (find_event_state_group s x) as [g|]; [|done].
  simpl. by rewrite !read_group_entries, (group_entries_frame s s').
Qed.

(** Whatever a recomputation reports, it writes nothing but entries of the
    resolution into the room's current state. *)
Lemma write_resolved_partial room cur entries : forall s, rows_ok (current s) -> plain_entries entries ->
  let '(_, s') := write_resolved backend room cur entries s in
  (forall t k, current_event s' room t k = current_event s room t k
     \/ exists e, e ∈ entries /\ ge_event_type e = t /\ ge_state_key e = k /\ current_event s' room t k = Some (ge_event_id e))
  /\ (forall other t k, other <> room -> current_event s' other t k = current_event s other t k).
Proof.
  induction entries as [|e entries IH]; intros s Hok Hp; [split; auto|]. apply Forall_cons in Hp as [He Hp]. cbn [write_resolved].
  assert (forall s0 : PersistentStore, rows_ok (current s0) ->
    let '(_, s') := write_resolved backend room cur entries s0 in
    (forall t k, current_event s' room t k = current_event s0 room t k
       \/ exists x, x ∈ e :: entries /\ ge_event_type x = t /\ ge_state_key x = k /\ current_event s' room t k = Some (ge_event_id x))
    /\ (forall other t k, other <> room -> current_event s' other t k = current_event s0 other t k)) as IH'.
  { intros s0 Hs0. specialize (IH s0 Hs0 Hp). destruct (write_resolved backend room cur entries s0) as [r s']. destruct IH as [I1 I2].
    split; [|done]. intros t k. destruct (I1 t k) as [|(x & Hx & ?)]; [by left|right]. exists x. split; [by right|done]. }
  destruct (unchanged cur e); [by apply IH'|].
  pose proof (store_state_spec (state_row room e) s Hok He) as Hs. destruct (store_state backend (state_row room e) s) as [stored s1] eqn:Es.
  destruct Hs as (_ & Hok1 & Hcur). destruct stored.
  - specialize (IH' s1 Hok1). destruct (write_resolved backend room cur entries s1) as [r s']. destruct IH' as [I1 I2]. specialize (Hcur eq_refl).
    split.
    + intros t k. destruct (I1 t k) as [Heq|]; [|by right]. rewrite Heq, Hcur. destruct (decide _) as [Hk|]; [right|by left].
      pose proof Hk as [= Ht Hsk]. exists e. split; [by left|]. done.
    + intros other t k Hne. rewrite I2, Hcur, decide_False; [done| |done]. unfold row_key, state_row. simpl. congruence.
  - assert (s1 = s) as ->; [|split; auto]. revert Es. unfold store_state. destruct (negb (state_matches_persisted_event _ _)); [by intros [= <-]|].
    destruct (bool_decide _); [done|]. destruct (negb _); [by intros [= <-]|done].
Qed.

Lemma recompute_spec room policy limits s :
  books_ok s -> (forall entries, store_resolution room policy limits s = inr entries -> plain_entries entries) ->
  let '(result, s') := recompute_current_state backend room policy limits s in
  books_ok s' /\ same_books s s'
  /\ (forall reason, result = recompute_refused reason <-> store_resolution room policy limits s = inl reason)
  /\ (forall reason, result = recompute_refused reason -> s' = s)
  /\ (result = recompute_resolved -> exists entries, store_resolution room policy limits s = inr entries
      /\ (forall t k, no_nul t -> current_event s' room t k = overlay entries (current_event s room) t k)
      /\ (forall other t k, other <> room -> current_event s' other t k = current_event s other t k)
      /\ recompute_current_state backend room policy limits s' = (recompute_resolved, s')).
Proof.
  intros Hbooks Hplain. unfold recompute_current_state at 1. destruct (store_resolution room policy limits s) as [reason|entries] eqn:E.
  { split; [done|]. split; [done|]. split; [naive_solver|]. split; [done|done]. }
  specialize (Hplain entries eq_refl).
  assert (NoDup (entry_key <$> entries)) as Hn by (eapply resolution_keys; [apply recorded_keys|exact E|done]).
  pose proof (write_resolved_spec room (current_state_map s room) entries s (bo_rows s Hbooks) Hplain Hn) as Hw.
  destruct (write_resolved _ _ _ _ _) as [result s'] eqn:Ew. destruct Hw as (S1 & S2 & S3 & S4).
  { intros e He. unfold plain_entries in Hplain. rewrite Forall_forall in Hplain.
    apply (current_map_lookup s room _ _ (bo_rows s Hbooks)). by apply Hplain. }
  split; [by eapply same_books_ok|]. split; [done|]. split; [intros reason; split; [by intros []%S3|done]|].
  split; [by intros reason []%S3|]. intros Hr. destruct (S4 Hr) as [C1 C2]. exists entries. split; [done|]. split; [done|].
  split; [done|]. unfold recompute_current_state. rewrite (same_books_resolution s s' room policy limits S1), E.
  assert (forall e, e ∈ entries -> unchanged (current_state_map s' room) e = true) as Hun.
  { intros e He. apply bool_decide_eq_true. assert (no_nul (ge_event_type e)) as Ht.
    { unfold plain_entries in Hplain. rewrite Forall_forall in Hplain. by apply Hplain. }
    rewrite current_map_lookup, C1 by done. unfold overlay. fold (entry_key e). by rewrite (first_entry_unique entries e Hn He). }
  clear -Hun. induction entries as [|e entries IH]; [done|]. cbn [write_resolved]. rewrite Hun by (by left). apply IH.
  intros x Hx. apply Hun. by right.
Qed.

Lemma recompute_partial room policy limits s : books_ok s ->
  (forall entries, store_resolution room policy limits s = inr entries -> plain_entries entries) ->
  let s' := (recompute_current_state backend room policy limits s).2 in
  (forall t k, current_event s' room t k = current_event s room t k
     \/ exists entries e, store_resolution room policy limits s = inr entries /\ e ∈ entries /\ ge_event_type e = t
        /\ ge_state_key e = k /\ current_event s' room t k = Some (ge_event_id e))
  /\ (forall other t k, other <> room -> current_event s' other t k = current_event s other t k).
Proof.
  intros Hbooks Hplain. unfold recompute_current_state. destruct (store_resolution room policy limits s) as [reason|entries] eqn:E; [split; auto|].
  pose proof (write_resolved_partial room (current_state_map s room) entries s (bo_rows s Hbooks) (Hplain entries eq_refl)) as Hw.
  destruct (write_resolved _ _ _ _ _) as [r s']. destruct Hw as [W1 W2]. split; [|done]. intros t k.
  destruct (W1 t k) as [|(e & ? & ? & ? & ?)]; [by left|right]. by exists entries, e.
Qed.

(** Recomputing current state.  A refusal leaves the store alone.  When it reports
    success, current state of the room is the resolution over the room's tips
    wherever that has an entry, and what it was elsewhere; other rooms, events,
    groups and tips do not change; and recomputing again changes nothing.  Whatever
    it reports, the invariant of the books is kept. *)
Theorem recompute_reaches_resolution room policy limits s :
  books_ok s -> (forall entries, store_resolution room policy limits s = inr entries -> plain_entries entries) ->
  let '(result, s') := recompute_current_state backend room policy limits s in
  books_ok s' /\ same_books s s'
  /\ (forall reason, result = recompute_refused reason <-> store_resolution room policy limits s = inl reason)
  /\ (forall reason, result = recompute_refused reason -> s' = s)
  /\ (result = recompute_resolved -> exists entries, store_resolution room policy limits s = inr entries
      /\ (forall t k, no_nul t -> current_event s' room t k = overlay entries (current_event s room) t k)
      /\ (forall other t k, other <> room -> current_event s' other t k = current_event s other t k)
      /\ recompute_current_state backend room policy limits s' = (recompute_resolved, s')).
Proof. apply recompute_spec. Qed.

(** * Local events *)

Lemma cached_entries_keys s room : rows_ok (current s) -> NoDup (entry_key <$> current_state_entries s room).
Proof.
  intros [Hok Hn Hp]. unfold current_state_entries. rewrite room_rows_are_scan by done. rewrite <- list_fmap_compose.
  clear Hok. induction (Store.state (current s)) as [|r rows IH]; [constructor|]. csimpl in Hn. apply NoDup_cons in Hn as [Hr Hn].
  apply Forall_cons in Hp as [Hpr Hp]. rewrite filter_cons. destruct (decide (st_room_id r = room)) as [<-|_]; [|by apply IH].
  csimpl. apply NoDup_cons. split; [|by apply IH]. intros (r' & Hk & [Hroom Hr']%list_elem_of_filter)%list_elem_of_fmap. apply Hr.
  apply list_elem_of_fmap. exists r'. split; [|done]. rewrite Forall_forall in Hp. unfold entry_key in Hk. simpl in Hk.
  apply entry_key_inj in Hk as [Ht Hsk]; [|done|by apply Hp]. unfold row_key. congruence.
Qed.

Lemma state_before_keys s room policy ids limits before : books_ok s -> plain_entries before ->
  compute_state_before s room policy ids limits = before_ok before -> NoDup (entry_key <$> before).
Proof.
  intros Hbooks Hp. unfold compute_state_before. destruct ids as [|x [|y ids]].
  - intros [= <-]. constructor.
  - unfold single_state_before. destruct (find_event_state_group s x) as [g|] eqn:Eg; [|done].
    destruct (recorded_state_readable s x g Hbooks Eg) as (full & -> & Hn). by intros [= <-].
  - destruct (_ <? _)%nat; [done|]. destruct (prev_state_groups _ _ _ _); [done|].
    destruct (resolve_state_v2 _ _) as [resolved|] eqn:E; [|done]. intros [= <-]. apply resolved_entries_keys; [|done]. by eapply resolved_keys.
Qed.

Section Basis.
Context `{UnstableSort}.

Lemma basis_keys s room policy limits : books_ok s -> plain_entries (nb_state_before (basis_for_new_event s room policy limits)) ->
  NoDup (entry_key <$> nb_state_before (basis_for_new_event s room policy limits)).
Proof.
  intros Hbooks. unfold basis_for_new_event.
  destruct (compute_state_before s room policy (forward_extremities_for_new_event s room) limits) as [all|reason] eqn:E.
  - simpl. intros Hp. by eapply state_before_keys.
  - destruct (_ <? _)%nat; [|intros; constructor]. match goal with |- context [fallback_basis s room policy limits ?l] =>
      pose proof (fallback_spec s room policy limits l) as Hf; destruct (fallback_basis s room policy limits l) as [b|] end;
      [|intros; constructor]. simpl. destruct Hf as (d & c & alone & _ & Hc & _ & _ & _ & ->).
    pose proof (cached_entries_keys s room (bo_rows s Hbooks)) as Hn. destruct (current_state_entries s room) as [|e l]; [|done].
    intros Hp. by eapply (state_before_keys s room policy [c] limits).
Qed.

(** C11. The life of a local event built by [basis_for_new_event] and stored by
    [store_local_event], over a database that refuses to write a state group under an
    ID that is taken, from a store that satisfies the invariant of the books, with no
    NUL character in the event types of the basis's state, of the event's own state
    row and of what the resolution over the new tips yields.  Refused, it leaves the
    store as it was.  Stored: it cites the basis's tips; the state before the next
    event built on it alone is the state its basis had, with the event at its key
    when it is a state event; the tips are the event and the old tips it neither
    cites nor retires; and the invariant of the books is kept. *)
Theorem local_events_carry_state policy event row membership limits s :
  keeps_group_keys backend -> books_ok s ->
  let room := ev_room_id event in
  let basis := basis_for_new_event s room policy limits in
  plain_entries (nb_state_before basis) -> (forall st, row = Some st -> no_nul (st_event_type st)) ->
  plain_resolution s policy event row membership (local_bookkeeping s (ev_event_id event) row basis) limits ->
  match store_local_event backend policy event row basis limits membership s with
  | (false, s') => s' = s
  | (true, s') =>
      books_ok s' /\ ev_prev_event_ids event = nb_prev_event_ids basis
      /\ (exists full, compute_state_before s' room policy [ev_event_id event] limits = before_ok full
          /\ to_state_group_map full =
             match row with
             | Some st => <[state_group_entry_key (st_event_type st) (st_state_key st) := ev_event_id event]>
                            (to_state_group_map (nb_state_before basis))
             | None => to_state_group_map (nb_state_before basis)
             end)
      /\ (forall x, x ∈ find_forward_extremities s' room <-> x = ev_event_id event
            \/ x ∈ find_forward_extremities s room /\ (x ∉ nb_prev_event_ids basis) /\ (x ∉ nb_retired_extremities basis))
  end.
Proof.
  intros Hkeys Hbooks room basis Hp Hrow Hres. unfold store_local_event. destruct (negb (nb_ok basis)); [done|].
  destruct (bool_decide _) eqn:Eprev; simpl; [|done]. apply bool_decide_eq_true in Eprev.
  pose proof (basis_keys s room policy limits Hbooks Hp) as Hn. fold basis in Hn.
  set (bk := local_bookkeeping s (ev_event_id event) row basis) in *.
  assert (NoDup (entry_key <$> bk_state_after bk) /\ to_state_group_map (bk_state_after bk) =
    match row with
    | Some st => <[state_group_entry_key (st_event_type st) (st_state_key st) := ev_event_id event]> (to_state_group_map (nb_state_before basis))
    | None => to_state_group_map (nb_state_before basis)
    end) as [Hafter Hmap].
  { unfold bk, local_bookkeeping. simpl. destruct row as [st|]; simpl; [|done].
    destruct (state_after_update (nb_state_before basis) (ev_event_id event) (st_event_type st) (st_state_key st) (Hrow st eq_refl) Hp)
      as (Hm & _ & Hk). split; [by apply Hk|exact Hm]. }
  pose proof (bookkeeping_stored backend policy event row membership bk limits s Hkeys Hbooks Hafter Hrow Hres) as Hstored.
  destruct (store_event_with_bookkeeping backend policy event row membership bk limits s) as [result s']. destruct Hstored as [Hno Hyes].
  destruct (sb_ok result); [|by apply Hno]. destruct (Hyes eq_refl) as (Hb & group & [D1 D2 D3 D4 D5 D6 D7 D8 D9] & _).
  split; [done|]. split; [done|]. split.
  - unfold group_map in D4. apply fmap_Some in D4 as (full & Hf & Hfm). exists full. split; [|congruence].
    simpl. unfold single_state_before. by rewrite D3, Hf.
  - intros x. rewrite D7, decide_True by done. unfold extremities_after.
    assert (forall y, y ∉ bk_replaced_extremities bk <-> (y ∉ nb_prev_event_ids basis) /\ (y ∉ nb_retired_extremities basis)) as Hrep
      by (intros y; unfold bk, local_bookkeeping; simpl; rewrite elem_of_app; tauto).
    destruct (bool_decide _) eqn:Ein.
    + apply bool_decide_eq_true, list_elem_of_filter in Ein as [Hi1 Hi2]. rewrite list_elem_of_filter, <- Hrep. fold room in Hi2.
      split; [tauto|]. intros [->|[? ?]]; tauto.
    + rewrite elem_of_app, list_elem_of_filter, list_elem_of_singleton, <- Hrep. tauto.
Qed.
End Basis.
End Local.
