(* ===== verification/BookkeepingWitness.v ===== *)
(** The theorems on state groups and bookkeeping applied to a version 11 room as
    its server creates it: the create event, then the creator's membership. *)
From S2P Require Import Prelude CppStd JsonValue JsonSerializer JsonParser RoomVersion Signing JsonCanonical EventAuth EventAuthBase EventShape EventTable EventTableInv EventTableAdd EventTableErase EventTableSpec StateTables Store StoreLookup StoreWrites HistoryVisibility RedactionService Redaction RedactionFlow StateGroups StateGroupsWrite EventSource StateAuth StateRes Partition Resolution Bookkeeping BookkeepingBase BookkeepingStore BookkeepingLocal.
Open Scope Z_scope.

#[local] Existing Instance no_libc.
#[local] Existing Instance no_sodium.
#[local] Existing Instance map_order.

(** * The parameters *)

Definition json_text (s : string) : YValue := YString (Some s).

(** The events of the room by the names that stand for their JSON texts. *)
Definition room_texts : list (string * YValue) :=
  [("C", YObject [(Some "type", json_text "m.room.create"); (Some "state_key", json_text EmptyString);
                  (Some "sender", json_text "@u:a.org");
                  (Some "content", YObject [(Some "room_version", json_text "11")])]);
   ("J", YObject [(Some "type", json_text "m.room.member"); (Some "state_key", json_text "@u:a.org");
                  (Some "sender", json_text "@u:a.org");
                  (Some "content", YObject [(Some "membership", json_text "join")])]);
   ("M", YObject [(Some "type", json_text "m.room.message"); (Some "sender", json_text "@u:a.org");
                  (Some "content", YObject [(Some "body", json_text "hi")]);
                  (Some "prev_events", YArray [json_text "$j"]); (Some "auth_events", YArray [json_text "$c"; json_text "$j"])])].

Definition text_reader : Yyjson := {|
  read_raw_numbers := fun s =>
    match List.find (fun e => e.1 =s s) room_texts with
    | Some e => inr {| doc_root := Some e.2; doc_bytes_read := String.length s |}
    | None => inl read_json_structure
    end;
  read_numbers := fun _ => inl read_json_structure |}.

#[local] Existing Instance text_reader.

(** A backend that takes everything but a second group of the same ID. *)
Definition keyed_backend (s : PersistentStore) (statements : list Statement) : bool :=
  forallb (fun st => match st with
    | insert_state_group g => match find_persistent_state_group s (sg_state_group_id g) with Some _ => false | None => true end
    | _ => true
    end) statements.

Lemma keyed_backend_keeps : keeps_group_keys keyed_backend.
Proof.
  intros s statements g Hb Hin. unfold keyed_backend in Hb. rewrite forallb_forall in Hb.
  specialize (Hb _ (proj1 (list_elem_of_In _ _) Hin)). simpl in Hb. by destruct (find_persistent_state_group s (sg_state_group_id g)).
Qed.

Definition greatest_first : relation (Z * string) := fun a b => b.1 <= a.1.

#[local] Instance greatest_first_dec : RelDecision greatest_first.
Proof. intros a b. unfold greatest_first. apply _. Defined.

#[local] Instance greatest_first_trans : Transitive greatest_first.
Proof. intros a b c. unfold greatest_first. lia. Qed.

#[local] Instance greatest_first_total : Total greatest_first.
Proof. intros a b. unfold greatest_first. lia. Qed.

Definition merge_sorter : UnstableSort := {|
  sort_greatest_first := merge_sort greatest_first;
  sort_greatest_perm := merge_sort_Permutation greatest_first;
  sort_greatest_sorted := StronglySorted_merge_sort greatest_first |}.

#[local] Existing Instance merge_sorter.

(** * The room *)

Lemma empty_books_ok : books_ok empty_store.
Proof.
  split.
  - apply empty_table_ok.
  - split; [apply empty_store_ok|constructor|constructor].
  - split; simpl; [apply groups_reachable, rtc_refl|apply entries_reachable, rtc_refl|done|set_solver].
  - apply mappings_reachable, rtc_refl.
  - done.
  - intros room. constructor.
Qed.

Definition texted (id json : string) (depth : Z) (prev : list string) : PersistentEvent := {|
  ev_event_id := id; ev_room_id := "!r"; ev_sender_user_id := "@u:a.org"; ev_json := json; ev_depth := depth;
  ev_stream_ordering := depth; ev_prev_event_ids := prev; ev_auth_event_ids := []; ev_signatures := [];
  ev_status := "accepted" |}.

Definition the_create : PersistentEvent := texted "$c" "C" 1 [].
Definition the_join : PersistentEvent := texted "$j" "J" 2 ["$c"].

Definition row_of (event_type state_key id : string) : PersistentStateEvent :=
  {| st_room_id := "!r"; st_event_type := event_type; st_state_key := state_key; st_event_id := id |}.

Definition the_create_row : PersistentStateEvent := row_of "m.room.create" EmptyString "$c".
Definition the_join_row : PersistentStateEvent := row_of "m.room.member" "@u:a.org" "$j".

Definition few : StateResolutionLimits := {|
  max_state_groups := 10; max_events_per_state_group := 20; max_conflicted_state_keys := 20;
  max_mainline_auth_chain_depth := 10; max_auth_chain_walk_events := 20; max_total_state_events := 40 |}.

Definition basis (s : PersistentStore) : NewEventBasis := basis_for_new_event s "!r" policy_v11 few.

Definition create_books : EventBookkeeping := local_bookkeeping empty_store "$c" (Some the_create_row) (basis empty_store).

Definition create_stored : StoredWithBookkeeping * PersistentStore :=
  store_event_with_bookkeeping keyed_backend policy_v11 the_create (Some the_create_row) None create_books few empty_store.

Example create_is_stored : sb_ok (fst create_stored) = true
  /\ find_forward_extremities (snd create_stored) "!r" = ["$c"]
  /\ current_event (snd create_stored) "!r" "m.room.create" EmptyString = Some "$c".
Proof. vm_compute. done. Qed.

Lemma create_plain : plain_resolution empty_store policy_v11 the_create (Some the_create_row) None create_books few.
Proof.
  intros plan entries Hp He. vm_compute in Hp. injection Hp as <-. cbn [bp_resolution] in He. injection He as <-.
  repeat constructor.
Qed.

Lemma plain_row t k id : no_nul t -> forall st, Some (row_of t k id) = Some st -> no_nul (st_event_type st).
Proof. by intros Ht st [= <-]. Qed.

Definition created : PersistentStore := snd create_stored.

Lemma created_books_ok : books_ok created.
Proof.
  assert (NoDup (entry_key <$> bk_state_after create_books)) as Hn by (vm_compute; repeat constructor; set_solver).
  pose proof (bookkeeping_stored keyed_backend policy_v11 the_create (Some the_create_row) None create_books few empty_store
    keyed_backend_keeps empty_books_ok Hn (plain_row "m.room.create" EmptyString "$c" eq_refl) create_plain) as Hs.
  pose proof (proj1 create_is_stored) as Hok. unfold created, create_stored in *.
  destruct (store_event_with_bookkeeping _ _ _ _ _ _ _ _) as [result s']. by apply Hs.
Qed.

(** * Witnesses *)

Definition create_entry : Bookkeeping.Entry :=
  {| ge_state_group_id := EmptyString; ge_event_type := "m.room.create"; ge_state_key := EmptyString; ge_event_id := "$c" |}.
Definition join_entry : Bookkeeping.Entry :=
  {| ge_state_group_id := EmptyString; ge_event_type := "m.room.member"; ge_state_key := "@u:a.org"; ge_event_id := "$j" |}.

(** A delta over the group of the create event. *)
Lemma state_groups_round_trip_witness :
  let result := create_or_reuse_state_group keyed_backend "!r" "sg:$j" (Some "sg:$c") [create_entry; join_entry] created in
  fst result = Some "sg:$j"
  /\ group_map (snd result) "sg:$j" = Some (to_state_group_map [create_entry; join_entry]).
Proof.
  intros result. assert (fst result = Some "sg:$j") as Hr by (vm_compute; reflexivity). split; [exact Hr|].
  assert (NoDup (entry_key <$> [create_entry; join_entry])) as Hn by (apply (bool_decide_unpack _); vm_compute; exact I).
  pose proof (state_groups_round_trip keyed_backend created "!r" "sg:$j" (Some "sg:$c") [create_entry; join_entry]
    (or_introl keyed_backend_keeps) (bo_groups created created_books_ok) Hn) as Ht.
  unfold result in *. destruct (create_or_reuse_state_group _ _ _ _ _ _) as [id s']. simpl in Hr. subst id.
  destruct Ht as (_ & _ & _ & _ & _ & Ht & _). exact Ht.
Defined.

Lemma state_group_lookups_agree_witness :
  lookup_state_in_group created "sg:$c" "m.room.create" EmptyString = group_found "$c"
  /\ exists full, read_state_group_full_state created "sg:$c" = Some full /\ NoDup (entry_key <$> full).
Proof.
  split; [vm_compute; reflexivity|].
  destruct (state_group_lookups_agree created "sg:$c" "m.room.create" EmptyString (bo_groups created created_books_ok))
    as (full & Hf & Hn & _).
  - vm_compute. repeat constructor.
  - reflexivity.
  - vm_compute. eexists. reflexivity.
  - exists full. split; [exact Hf|exact Hn].
Defined.

Lemma extremities_follow_graph_witness :
  find_forward_extremities (apply_forward_extremities_update "!r" "$j" ["$c"] created) "!r" = ["$j"]
  /\ NoDup (find_forward_extremities (apply_forward_extremities_update "!r" "$j" ["$c"] created) "!r").
Proof.
  split; [vm_compute; reflexivity|].
  exact (proj1 (proj2 (extremities_follow_graph "!r" "$j" ["$c"] few created (bo_tips created created_books_ok "!r")))).
Defined.

Lemma new_event_basis_sound_witness :
  nb_prev_event_ids (basis created) = ["$c"] /\ 1 <= depth_after_prev_events created (nb_prev_event_ids (basis created)) <= max_event_depth.
Proof.
  split; [vm_compute; reflexivity|].
  refine (proj1 (proj2 (proj2 (proj2 (new_event_basis_sound created "!r" policy_v11 few _))))).
  intros id e. unfold created, create_stored. intros He.
  assert (id = "$c" -> 0 <= ev_depth e) as Hc by (intros ->; vm_compute in He; injection He as <-; vm_compute; discriminate).
  destruct (decide (id = "$c")) as [->|Hne]; [exact (Hc eq_refl)|]. exfalso.
  apply (find_spec _ (bo_table created created_books_ok)) in He as [Hin Hid]. vm_compute in Hin.
  apply list_elem_of_singleton in Hin as ->. exact (Hne (eq_sym Hid)).
Defined.

Lemma bookkeeping_is_atomic_witness :
  sb_ok (fst create_stored) = true /\ exists group, find_event_state_group created "$c" = Some group
    /\ group_map created group = Some (to_state_group_map [create_entry]).
Proof.
  split; [vm_compute; reflexivity|].
  assert (NoDup (entry_key <$> bk_state_after create_books)) as Hn by (apply (bool_decide_unpack _); vm_compute; exact I).
  pose proof (bookkeeping_is_atomic keyed_backend policy_v11 the_create (Some the_create_row) None create_books few empty_store
    keyed_backend_keeps empty_books_ok Hn (plain_row "m.room.create" EmptyString "$c" eq_refl) create_plain) as Hs.
  assert (sb_ok (fst create_stored) = true) as Hok by (vm_compute; reflexivity). unfold created, create_stored in *.
  destruct (store_event_with_bookkeeping _ _ _ _ _ _ _ _) as [result s']. destruct (proj2 Hs Hok) as (_ & group & Hb & _).
  exists group. split; [exact (bd_group _ _ _ _ _ _ _ _ Hb)|exact (bd_state _ _ _ _ _ _ _ _ Hb)].
Defined.

Lemma recompute_reaches_resolution_witness :
  let result := recompute_current_state keyed_backend "!r" policy_v11 few created in
  fst result = recompute_resolved
  /\ recompute_current_state keyed_backend "!r" policy_v11 few (snd result) = (recompute_resolved, snd result).
Proof.
  intros result. assert (fst result = recompute_resolved) as Hr by (vm_compute; reflexivity). split; [exact Hr|].
  assert (forall entries, store_resolution "!r" policy_v11 few created = inr entries -> plain_entries entries) as Hp
    by (intros entries He; vm_compute in He; injection He as <-; repeat constructor).
  pose proof (recompute_reaches_resolution keyed_backend "!r" policy_v11 few created created_books_ok Hp) as Ht.
  unfold result in *. destruct (recompute_current_state keyed_backend "!r" policy_v11 few created) as [r s']. simpl in Hr |- *.
  destruct Ht as (_ & _ & _ & _ & Hres). destruct (Hres Hr) as (entries & _ & _ & _ & Hagain). exact Hagain.
Defined.

Lemma local_events_carry_state_witness :
  let result := store_local_event keyed_backend policy_v11 the_join (Some the_join_row) (basis created) few None created in
  fst result = true /\ exists full, compute_state_before (snd result) "!r" policy_v11 ["$j"] few = before_ok full
    /\ to_state_group_map full = <[state_group_entry_key "m.room.member" "@u:a.org" := "$j"]>
         (to_state_group_map (nb_state_before (basis created))).
Proof.
  intros result. assert (fst result = true) as Hr by (vm_compute; reflexivity). split; [exact Hr|].
  pose proof (local_events_carry_state keyed_backend policy_v11 the_join (Some the_join_row) None few created
    keyed_backend_keeps created_books_ok) as Ht. cbv zeta in Ht. change (ev_room_id the_join) with "!r" in Ht. fold (basis created) in Ht.
  unfold result in *. destruct (store_local_event _ _ _ _ _ _ _ _) as [ok s']. simpl in Hr. subst ok. apply Ht.
  - vm_compute. repeat constructor.
  - apply plain_row. reflexivity.
  - intros plan entries Hp He. vm_compute in Hp. injection Hp as <-. cbn [bp_resolution] in He. injection He as <-. repeat constructor.
Defined.
