(* ===== verification/Inbound.v ===== *)
(** Events and EDUs as they arrive from other servers
    (federation/inbound_ingestion.cpp): the format checks of a received event, the
    envelope that ingestion works on, the shape of EDU contents, and what a parsed
    event satisfies. *)
From S2P Require Import Prelude CppStd Utf8 JsonValue JsonSerializer JsonParser RoomVersion Signing EventAuth EventAuthBase EventShape Redaction EventId EduWindow StoreWrites EventSource Bookkeeping.
Open Scope Z_scope.

(** * Limits *)

Definition max_event_size_bytes : nat := Z.to_nat 65536.
Definition max_raw_pdu_bytes : nat := 4 * max_event_size_bytes.

(** * Data *)

Record InboundPduEnvelope : Type := {
  in_event_id : string;
  in_room_id : string;
  in_room_version : string;
  in_sender : string;
  in_event_type : string;
  in_state_key : option string;
  in_origin_server_ts : Z;
  in_depth : Z;
  in_prev_event_ids : list string;
  in_auth_event_ids : list string;
  in_signatures : list EventSignature;
  in_json : string;
  in_origin : string;
  in_omit_members : bool
}.

Inductive EduType : Type :=
  | edu_unknown | edu_typing | edu_receipt | edu_presence | edu_direct_to_device | edu_device_list_update
  | edu_signing_key_update.

Record InboundEduEnvelope : Type := {
  ie_type : EduType;
  ie_edu_type : string;
  ie_content_json : string;
  ie_origin : string
}.

Definition extract_string_array (value : Value) : list string :=
  match as_array value with None => [] | Some entries => omap as_string entries end.

(** * The format of a received event *)

(** A reason, or the empty string. *)
Definition pdu_depth_violation (event : Value) : string :=
  match value_is_object event with
  | None => "PDU root is not an object"
  | Some root =>
      match object_member root "depth" with
      | None => "depth is missing"
      | Some depth_value =>
          match as_int depth_value with
          | None => "depth is not an integer between 0 and 2^53 - 1"
          | Some depth =>
              if (depth <? 0) || (max_event_depth <? depth) then "depth is not an integer between 0 and 2^53 - 1"
              else EmptyString
          end
      end
  end.

Definition room_id_for_received_event (room_id event_type event_id : string) : string :=
  if empty room_id && (event_type =s "m.room.create") && (1 <? String.length event_id)%nat
  then String "!" (drop_str 1 event_id) else room_id.

Definition reference_hash_ids (policy : RoomVersionPolicy) : bool :=
  match event_id_format policy with reference_hash => true end.

Definition reference_list_violation (root : Object) (policy : RoomVersionPolicy) (name : string) (limit : nat) : string :=
  match array_member root name with
  | None => name +:+ " is not an array"
  | Some entries =>
      if (limit <? length entries)%nat then name +:+ " exceeds " +:+ to_string (Z.of_nat limit) +:+ " event limit"
      else if reference_hash_ids policy
              && negb (forallb (fun entry => match as_string entry with Some _ => true | None => false end) entries)
      then name +:+ " holds an entry that is not an event ID"
      else EmptyString
  end.

Section Inbound.
Context `{Libc} `{Sodium} `{Yyjson}.

Definition pdu_format_violation (event : Value) (policy : RoomVersionPolicy) : string :=
  match value_is_object event with
  | None => "PDU root is not an object"
  | Some root =>
      let serialized_ok :=
        match serialize_canonical (without_unsigned event) with
        | SErr _ => false
        | SOk output => (String.length output <=? max_event_size_bytes)%nat
        end in
      if negb serialized_ok then "PDU exceeds 65536 byte size limit"
      else
        let depth_violation := pdu_depth_violation event in
        if negb (empty depth_violation) then depth_violation
        else if reference_hash_ids policy && match object_member root "event_id" with Some _ => true | None => false end
        then "PDU carries event_id"
        else
          let violation := reference_list_violation root policy "prev_events" max_prev_events_per_event in
          if negb (empty violation) then violation
          else reference_list_violation root policy "auth_events" max_auth_events_per_event
  end.

(** * The envelope *)

(** From room version 12 on, the create event of the room is named by no event. *)
Definition names_create_of_room (event_type room_id : string) (auth_event_ids : list string) : bool :=
  (event_type <>s "m.room.create") && negb (empty room_id)
  && match find_char ":" room_id with None => true | Some _ => false end
  && existsb (fun auth_id => auth_id =s String "$" (drop_str 1 room_id)) auth_event_ids.

Definition parse_inbound_pdu_envelope (pdu_json room_version : string) : option InboundPduEnvelope :=
  if empty pdu_json || negb (starts_with "{" pdu_json) then None
  else if (max_raw_pdu_bytes <? String.length pdu_json)%nat then None
  else
    match parse_lossless pdu_json with
    | PErr _ => None
    | POk value =>
        match value_is_object value, parse_event_envelope value with
        | Some root, EnvelopeParsed envelope =>
            let resolved_ver := if empty room_version then "12" else room_version in
            match find_room_version_policy resolved_ver with
            | None => None
            | Some policy =>
                if negb (empty (pdu_format_violation value policy)) then None
                else
                  match make_reference_hash_event_id value policy with
                  | HashError _ => None
                  | Hashed event_id =>
                      let room_id := room_id_for_received_event (env_room_id envelope) (env_event_type envelope) event_id in
                      let prev_event_ids := from_option extract_string_array [] (object_member root "prev_events") in
                      let auth_event_ids := from_option extract_string_array [] (object_member root "auth_events") in
                      match without_unsigned_json pdu_json with
                      | None => None
                      | Some stripped_json =>
                          if names_create_of_room (env_event_type envelope) room_id auth_event_ids then None
                          else
                            Some {| in_event_id := event_id; in_room_id := room_id; in_room_version := resolved_ver;
                                    in_sender := env_sender envelope; in_event_type := env_event_type envelope;
                                    in_state_key := match object_member root "state_key" with
                                                    | Some _ => Some (env_state_key envelope) | None => None end;
                                    in_origin_server_ts := env_origin_server_ts envelope;
                                    in_depth := default 0 (object_member root "depth" ≫= as_int);
                                    in_prev_event_ids := prev_event_ids; in_auth_event_ids := auth_event_ids;
                                    in_signatures := env_signatures envelope; in_json := stripped_json;
                                    in_origin := EmptyString; in_omit_members := false |}
                      end
                  end
            end
        | _, _ => None
        end
    end.

Definition with_origin (origin : string) (e : InboundPduEnvelope) : InboundPduEnvelope :=
  {| in_event_id := in_event_id e; in_room_id := in_room_id e; in_room_version := in_room_version e;
     in_sender := in_sender e; in_event_type := in_event_type e; in_state_key := in_state_key e;
     in_origin_server_ts := in_origin_server_ts e; in_depth := in_depth e; in_prev_event_ids := in_prev_event_ids e;
     in_auth_event_ids := in_auth_event_ids e; in_signatures := in_signatures e; in_json := in_json e;
     in_origin := origin; in_omit_members := in_omit_members e |}.

Definition rebuild_inbound_pdu_envelope (pdu_json room_version origin : string) : option InboundPduEnvelope :=
  with_origin origin <$> parse_inbound_pdu_envelope pdu_json room_version.

(** * EDUs *)

Definition classify_edu_type (edu_type : string) : EduType :=
  if edu_type =s "m.typing" then edu_typing
  else if edu_type =s "m.receipt" then edu_receipt
  else if edu_type =s "m.presence" then edu_presence
  else if edu_type =s "m.direct_to_device" then edu_direct_to_device
  else if edu_type =s "m.device_list_update" then edu_device_list_update
  else if edu_type =s "m.signing_key_update" then edu_signing_key_update
  else edu_unknown.

Definition has_member (root : Object) (key : string) : bool :=
  match object_member root key with Some _ => true | None => false end.

Definition key_is_object_or_absent (root : Object) (key : string) : bool :=
  match object_member root key with None => true | Some (VObject _) => true | Some _ => false end.

Definition edu_content_is_valid (type : EduType) (content_json : string) : bool :=
  if empty content_json then false
  else
    match parse_lossless content_json with
    | POk (VObject root) =>
        match type with
        | edu_typing => has_member root "room_id" && has_member root "user_id" && has_member root "typing"
        | edu_receipt => match root with [] => false | _ => true end
        | edu_presence => has_member root "push"
        | edu_direct_to_device => has_member root "sender" && has_member root "type" && has_member root "messages"
        | edu_device_list_update => has_member root "user_id" && has_member root "device_id" && has_member root "stream_id"
        | edu_signing_key_update =>
            match string_member root "user_id" with
            | None => false
            | Some _ => key_is_object_or_absent root "master_key" && key_is_object_or_absent root "self_signing_key"
            end
        | edu_unknown => false
        end
    | _ => false
    end.

Definition parse_inbound_edu_envelope (edu_type origin content_json : string) : option InboundEduEnvelope :=
  if empty edu_type || empty origin then None
  else
    match classify_edu_type edu_type with
    | edu_unknown => None
    | type =>
        if negb (edu_content_is_valid type content_json) then None
        else Some {| ie_type := type; ie_edu_type := edu_type; ie_content_json := content_json; ie_origin := origin |}
    end.
End Inbound.

(** [sodium_bin2hex]: two digits per byte. *)
Class BinToHex : Type := { sodium_bin2hex : string -> string }.

Section Digest.
Context `{Sodium} `{GenericHash} `{BinToHex}.

Definition generic_hash (pieces : list string) (key : string) : option string :=
  sodium_bin2hex <$> generic_hash_bytes pieces key.

Definition edu_relay_digest (edu_type content_json : string) : option string :=
  generic_hash [to_string (Z.of_nat (String.length edu_type)); ":"; edu_type; content_json] EmptyString.
End Digest.

Section Checks.
Context `{Libc} `{Sodium} `{Yyjson}.

Lemma all_strings entries : forallb (fun entry => match as_string entry with Some _ => true | None => false end) entries = true ->
  entries = VString <$> omap as_string entries.
Proof.
  induction entries as [|v l IH]; simpl; [done|]. intros [Hv Hl]%andb_true_iff. destruct v; try done. csimpl. by rewrite <- IH.
Qed.

(** A reference list that passes is an array of event IDs within its limit. *)
Lemma reference_list_ok root policy name limit : name <> EmptyString ->
  reference_list_violation root policy name limit = EmptyString ->
  exists ids, object_member root name = Some (VArray (VString <$> ids)) /\ (length ids <= limit)%nat
    /\ from_option extract_string_array [] (object_member root name) = ids.
Proof.
  intros Hname. unfold reference_list_violation, array_member. destruct (object_member root name) as [v|] eqn:Ev; simpl; [|by destruct name].
  destruct v as [| | | | |entries| |]; simpl; try (by destruct name). destruct (limit <? length entries)%nat eqn:El; [by destruct name|].
  unfold reference_hash_ids. destruct (event_id_format policy). simpl.
  destruct (forallb _ entries) eqn:Ef; simpl; [|by destruct name]. intros _. apply Nat.ltb_ge in El.
  exists (omap as_string entries). pose proof (all_strings _ Ef) as Hs. split; [by rewrite <- Hs|]. split; [|done].
  rewrite Hs, length_fmap in El. done.
Qed.

Lemma depth_ok root : pdu_depth_violation (VObject root) = EmptyString ->
  exists depth, object_member root "depth" = Some (VInt depth) /\ 0 <= depth <= 9007199254740991.
Proof.
  unfold pdu_depth_violation. simpl. destruct (object_member root "depth") as [v|]; [|done]. destruct v; simpl; try done.
  destruct ((_ <? _) || _) eqn:E; [done|]. breflect. unfold max_event_depth in *. intros _. eexists. split; [done|]. lia.
Qed.

Lemma pdu_format_ok root policy : pdu_format_violation (VObject root) policy = EmptyString ->
  (exists text, serialize_canonical (without_unsigned (VObject root)) = SOk text /\ (String.length text <= max_event_size_bytes)%nat)
  /\ (exists depth, object_member root "depth" = Some (VInt depth) /\ 0 <= depth <= 9007199254740991)
  /\ object_member root "event_id" = None
  /\ (exists ids, object_member root "prev_events" = Some (VArray (VString <$> ids)) /\ (length ids <= 20)%nat
        /\ from_option extract_string_array [] (object_member root "prev_events") = ids)
  /\ (exists ids, object_member root "auth_events" = Some (VArray (VString <$> ids)) /\ (length ids <= 10)%nat
        /\ from_option extract_string_array [] (object_member root "auth_events") = ids).
Proof.
  unfold pdu_format_violation. cbn [value_is_object]. destruct (serialize_canonical (without_unsigned (VObject root))) as [text|e]; simpl; [|done].
  destruct (String.length text <=? max_event_size_bytes)%nat eqn:El; simpl; [|done]. apply Nat.leb_le in El.
  destruct (empty (pdu_depth_violation (VObject root))) eqn:Ed; cbn [negb]; [|intros Hd; by rewrite Hd in Ed].
  apply empty_true, depth_ok in Ed. unfold reference_hash_ids at 1. destruct (event_id_format policy). simpl.
  destruct (object_member root "event_id"); [done|]. destruct (empty (reference_list_violation root policy "prev_events" max_prev_events_per_event)) eqn:Ep; cbn [negb];
    [|intros Hp; by rewrite Hp in Ep].
  apply empty_true, reference_list_ok in Ep; [|done]. intros Ea%reference_list_ok; [|done]. split; [by exists text|]. done.
Qed.

(** The text that is kept: the one received, or the event without its unsigned
    data. *)
Lemma stripped_text json root text : parse_lossless json = POk (VObject root) -> without_unsigned_json json = Some text ->
  (text = json /\ (contains_text unsigned_key json = false \/ existsb is_unsigned root = false))
  \/ serialize_canonical (without_unsigned (VObject root)) = SOk text.
Proof.
  intros Hp. unfold without_unsigned_json. destruct (contains_text unsigned_key json); simpl; [|intros [= <-]; auto].
  rewrite Hp. destruct (existsb is_unsigned root) eqn:E; cbn [negb]; [|intros [= <-]; auto].
  destruct (serialize_canonical _) as [output|]; [|done]. intros [= <-]. by right.
Qed.

(** C24. A received event that becomes an envelope is what its JSON says and within
    every limit: type, sender, timestamp, room and depth are the members of those
    names, identifiers are printable, carry their sigil and have at most 255 bytes,
    the depth is from 0 to 2^53 - 1; it cites at most 20 previous and 10 auth events,
    all of them strings, and carries no event_id; its ID is its reference hash
    under the named room version, and a create event without a room ID has the room
    of that ID, which no other event of such a room cites; the event without
    its unsigned data has a canonical form of at most 65536 bytes, its signatures are
    the string entries of the signatures object, at most 5000 of them; and the JSON
    kept is the text received or that canonical form. *)
Theorem inbound_pdus_well_formed json version e : parse_inbound_pdu_envelope json version = Some e ->
  exists root policy, parse_lossless json = POk (VObject root)
  /\ in_room_version e = (if empty version then "12" else version)
  /\ find_room_version_policy (in_room_version e) = Some policy
  /\ make_reference_hash_event_id (VObject root) policy = Hashed (in_event_id e)
  /\ object_member root "type" = Some (VString (in_event_type e)) /\ printable_id (in_event_type e)
  /\ object_member root "sender" = Some (VString (in_sender e)) /\ printable_id (in_sender e)
  /\ front (in_sender e) = Some "@"%char
  /\ object_member root "origin_server_ts" = Some (VInt (in_origin_server_ts e)) /\ 0 <= in_origin_server_ts e
  /\ (object_member root "room_id" = Some (VString (in_room_id e)) /\ printable_id (in_room_id e)
        /\ front (in_room_id e) = Some "!"%char
      \/ string_member root "room_id" = None /\ in_event_type e = "m.room.create"
         /\ in_room_id e = room_id_for_received_event EmptyString "m.room.create" (in_event_id e))
  /\ (in_event_type e <> "m.room.create" -> find_char ":" (in_room_id e) = None -> forall id,
        id ∈ in_auth_event_ids e -> id <> String "$" (drop_str 1 (in_room_id e)))
  /\ (forall key, in_state_key e = Some key -> (String.length key <= 255)%nat /\ find_char (chr 0) key = None)
  /\ (is_Some (in_state_key e) <-> is_Some (object_member root "state_key"))
  /\ (forall key, string_member root "state_key" = Some key -> in_state_key e = Some key)
  /\ object_member root "depth" = Some (VInt (in_depth e)) /\ 0 <= in_depth e <= 9007199254740991
  /\ object_member root "event_id" = None
  /\ object_member root "prev_events" = Some (VArray (VString <$> in_prev_event_ids e)) /\ (length (in_prev_event_ids e) <= 20)%nat
  /\ object_member root "auth_events" = Some (VArray (VString <$> in_auth_event_ids e)) /\ (length (in_auth_event_ids e) <= 10)%nat
  /\ (length (in_signatures e) <= 5000)%nat
  /\ (forall x, x ∈ in_signatures e <-> exists servers, object_member root "signatures" = Some (VObject servers) /\ signature_in servers x)
  /\ (exists text, serialize_canonical (without_unsigned (VObject root)) = SOk text /\ (String.length text <= max_event_size_bytes)%nat
      /\ (in_json e = text
          \/ in_json e = json /\ (contains_text unsigned_key json = false \/ existsb is_unsigned root = false))).
Proof.
  unfold parse_inbound_pdu_envelope. destruct (_ || _); [done|]. destruct (_ <? _)%nat; [done|].
  destruct (parse_lossless json) as [value|] eqn:Ep; [|done]. destruct (value_is_object value) as [root|] eqn:Eo; [|done].
  destruct value; simplify_eq/=. destruct (parse_event_envelope (VObject root)) as [env|] eqn:Ee; [|done].
  destruct (find_room_version_policy (if empty version then "12" else version)) as [policy|] eqn:Epol; [|done].
  destruct (empty (pdu_format_violation (VObject root) policy)) eqn:Ef; simpl; [|done]. apply empty_true, pdu_format_ok in Ef.
  destruct (make_reference_hash_event_id (VObject root) policy) as [id|] eqn:Eid; [|done].
  destruct (without_unsigned_json json) as [text|] eqn:Et; [|done]. destruct (names_create_of_room _ _ _) eqn:En; [done|]. intros [= <-].
  destruct (envelope_facts _ _ Ee) as (o & [= <-] & _ & F1 & F2 & F3 & F4 & F5 & F6 & F7 & F8 & F9 & F10 & F11 & F12 & F13).
  destruct Ef as ((canon & G1 & G1') & (depth & G2 & G2') & G3 & (prev & G4 & G4' & G4'') & (auth & G5 & G5' & G5'')).
  exists root, policy. simpl in *. rewrite G2, G4'', G5'' in *. simpl.
  repeat (split; [done|]). split.
  { destruct F8 as [(Hr & Ht & Hrid)|(Hr & Hpr & Hfr)].
    - right. split; [done|]. split; [done|]. by rewrite Hrid, Ht.
    - left. assert (room_id_for_received_event (env_room_id env) (env_event_type env) id = env_room_id env) as ->; [|done].
      unfold room_id_for_received_event. destruct Hpr as [Hl _]. destruct (env_room_id env); [simpl in Hl; lia|done]. }
  split.
  { intros Hc Hcolon x Hx ->. unfold names_create_of_room in En. rewrite Hcolon in En. rewrite andb_true_r in En.
    apply not_true_iff_false in En. apply En. rewrite andb_true_iff, andb_true_iff. split; [split; [by apply string_neqb_true|]|].
    - apply negb_true_iff, empty_false. destruct F8 as [(_ & Ht & _)|(_ & [Hl _] & _)]; [done|]. unfold room_id_for_received_event.
      destruct (env_room_id env); [simpl in Hl; lia|done].
    - apply existsb_exists. eexists. split; [by apply list_elem_of_In|]. apply String.eqb_refl. }
  split; [intros key; destruct (object_member root "state_key"); [intros [= <-]; by split|done]|].
  split; [destruct (object_member root "state_key"); split; by intros []|].
  split.
  { intros key Hk. rewrite F9, Hk. unfold string_member in Hk. by destruct (object_member root "state_key"). }
  repeat (split; [done|]). exists canon. split; [done|]. split; [done|].
  destruct (stripped_text _ _ _ Ep Et) as [[-> Hu]|Hs]; [by right|left]. rewrite G1 in Hs. by simplify_eq.
Qed.
End Checks.
