(* ===== verification/DeferredWake.v ===== *)
(** Received events that wait for history: the retained PDUs of
    database/PersistentStore.cpp and the index of what they wait for
    (DeferredPduAwaits.hpp).

    [DeferredPdus] holds the members [deferred_pdus] and [deferred_pdu_awaits] of
    the store; the rest of the store is read only, and other operations change it
    between the calls.  Then what the operations keep: the index agrees with the
    rows after every one of them, a wait lasts until it is taken, and the
    retained set stays within its bounds. *)
From S2P Require Import Prelude CppStd JsonValue JsonParser EventTable StateTables Store StoreWrites EventSource.
Open Scope Z_scope.

(** * Data *)

Definition max_deferred_pdus_per_room : nat := 100.
Definition max_deferred_pdus_total : nat := 1000.
Definition max_deferred_pdu_json_bytes : Z := 16 * 1024 * 1024.

Record DeferredPduAwaits : Type := {
  rows_by_awaited : gmap string (gmap string string);
  awaited_by_row : gmap string (list string);
  indexed_rows : nat
}.

Record DeferredPdus : Type := {
  deferred_pdus : list PersistentDeferredPdu;
  awaits : DeferredPduAwaits
}.

Inductive DeferredPduUpsert : Type :=
  | upsert_inserted | upsert_updated | upsert_refused_full | upsert_persistence_failed.

(** * What a retained event is missing *)

Record MissingEventReferences : Type := { missing_auth : list string; missing_prev : list string }.

Definition find_missing_event_references (s : PersistentStore) (auth_event_ids prev_event_ids : list string)
    : MissingEventReferences :=
  {| missing_auth := List.filter (fun id => negb (contains id (events s))) auth_event_ids;
     missing_prev := List.filter (fun id => negb (contains id (events s))
                                            || negb (EventStateGroupTable.contains id (event_state_groups s)))
                       prev_event_ids |}.

Definition top_level_string_array (pdu : Value) (key : string) : list string :=
  match value_is_object pdu ≫= fun object => array_member object key with
  | None => []
  | Some entries => omap as_string entries
  end.

(** [std::ranges::unique] on sorted IDs. *)
Fixpoint unique (l : list string) : list string :=
  match l with
  | [] => []
  | x :: l' => match unique l' with
               | [] => [x]
               | (y :: _) as rest => if x =s y then rest else x :: rest
               end
  end.

Section Awaits.
Context `{Yyjson}.

Definition awaited_event_ids (s : PersistentStore) (pdu_json : string) : list string :=
  match parse_lossless pdu_json with
  | PErr _ => []
  | POk value =>
      let auth := top_level_string_array value "auth_events" in
      let prev := top_level_string_array value "prev_events" in
      let missing := find_missing_event_references s auth prev in
      let awaited := missing_auth missing ++ missing_prev missing in
      unique (sort_by String.ltb (match awaited with [] => auth ++ prev | _ => awaited end))
  end.

(** * The index *)

(** One awaited event no longer awaited by [event_id]. *)
Definition unawait (event_id awaited : string) (m : gmap string (gmap string string)) : gmap string (gmap string string) :=
  match m !! awaited with
  | None => m
  | Some waiting =>
      let waiting := delete event_id waiting in
      if bool_decide (waiting = ∅) then delete awaited m else <[awaited := waiting]> m
  end.

Definition unindex_deferred_pdu (event_id : string) (a : DeferredPduAwaits) : DeferredPduAwaits :=
  match awaited_by_row a !! event_id with
  | None => a
  | Some awaited =>
      {| rows_by_awaited := foldl (fun m id => unawait event_id id m) (rows_by_awaited a) awaited;
         awaited_by_row := delete event_id (awaited_by_row a); indexed_rows := indexed_rows a |}
  end.

Definition await (row : PersistentDeferredPdu) (awaited : string) (m : gmap string (gmap string string))
    : gmap string (gmap string string) :=
  <[awaited := <[dp_event_id row := dp_room_id row]> (default ∅ (m !! awaited))]> m.

Definition index_deferred_pdu (s : PersistentStore) (row : PersistentDeferredPdu) (a : DeferredPduAwaits)
    : DeferredPduAwaits :=
  let a := unindex_deferred_pdu (dp_event_id row) a in
  let awaited := awaited_event_ids s (dp_pdu_json row) in
  {| rows_by_awaited := foldl (fun m id => await row id m) (rows_by_awaited a) awaited;
     awaited_by_row := <[dp_event_id row := awaited]> (awaited_by_row a); indexed_rows := indexed_rows a |}.

Definition set_indexed (n : nat) (a : DeferredPduAwaits) : DeferredPduAwaits :=
  {| rows_by_awaited := rows_by_awaited a; awaited_by_row := awaited_by_row a; indexed_rows := n |}.

Definition no_awaits : DeferredPduAwaits := {| rows_by_awaited := ∅; awaited_by_row := ∅; indexed_rows := 0 |}.

Definition rebuild_deferred_pdu_awaits (s : PersistentStore) (d : DeferredPdus) : DeferredPdus :=
  {| deferred_pdus := deferred_pdus d;
     awaits := set_indexed (length (deferred_pdus d))
                 (foldl (fun a row => index_deferred_pdu s row a) no_awaits (deferred_pdus d)) |}.

Definition index_is_current (d : DeferredPdus) : bool := (indexed_rows (awaits d) =? length (deferred_pdus d))%nat.

(** * Taking what waits for an event *)

(** The loop over the rows that wait for [event_id]: the rows woken, the rows
    that stay, and [awaited_by_row]. *)
Definition wake_row (room_id event_id : string) (acc : list string * gmap string string * gmap string (list string))
    (entry : string * string) : list string * gmap string string * gmap string (list string) :=
  let '(woken, waiting, by_row) := acc in
  if (entry.2 <>s room_id) || (entry.1 =s event_id) then acc
  else (woken ++ [entry.1], delete entry.1 waiting,
        alter (List.filter (fun id => id <>s event_id)) entry.1 by_row).

Definition take_deferred_pdus_awaiting `{IterationOrder} (s : PersistentStore) (room_id event_id : string) (d : DeferredPdus)
    : list string * DeferredPdus :=
  let d := if index_is_current d then d else rebuild_deferred_pdu_awaits s d in
  match rows_by_awaited (awaits d) !! event_id with
  | None => ([], d)
  | Some waiting =>
      let '(woken, rest, by_row) := foldl (wake_row room_id event_id) ([], waiting, awaited_by_row (awaits d)) (iter_map waiting) in
      (woken, {| deferred_pdus := deferred_pdus d;
                 awaits := {| rows_by_awaited := if bool_decide (rest = ∅) then delete event_id (rows_by_awaited (awaits d))
                                                 else <[event_id := rest]> (rows_by_awaited (awaits d));
                              awaited_by_row := by_row; indexed_rows := indexed_rows (awaits d) |} |})
  end.

(** * Retaining and removing *)

Definition find_row (event_id : string) (d : DeferredPdus) : option PersistentDeferredPdu :=
  List.find (fun row => dp_event_id row =s event_id) (deferred_pdus d).

Definition in_room (room_id : string) (rows : list PersistentDeferredPdu) : nat :=
  length (List.filter (fun row => dp_room_id row =s room_id) rows).

Definition json_bytes (rows : list PersistentDeferredPdu) : Z :=
  foldr (fun row n => Z.of_nat (String.length (dp_pdu_json row)) + n) 0 rows.

Definition retained_set_full (pdu : PersistentDeferredPdu) (rows : list PersistentDeferredPdu) : bool :=
  let size := Z.of_nat (String.length (dp_pdu_json pdu)) in
  (max_deferred_pdus_per_room <=? in_room (dp_room_id pdu) rows)%nat || (max_deferred_pdus_total <=? length rows)%nat
  || (max_deferred_pdu_json_bytes <? size) || (max_deferred_pdu_json_bytes - size <? json_bytes rows).

Section Backend.
Context (backend : PersistentStore -> list Statement -> bool).

(** The first row of the event with the new origin and attempt count. *)
Fixpoint update_row (pdu : PersistentDeferredPdu) (rows : list PersistentDeferredPdu) : list PersistentDeferredPdu :=
  match rows with
  | [] => []
  | row :: rest =>
      if dp_event_id row =s dp_event_id pdu
      then {| dp_event_id := dp_event_id row; dp_room_id := dp_room_id row; dp_origin := dp_origin pdu;
              dp_pdu_json := dp_pdu_json row; dp_received_at_ms := dp_received_at_ms row;
              dp_attempts := dp_attempts pdu |} :: rest
      else row :: update_row pdu rest
  end.

Definition upsert_deferred_pdu (s : PersistentStore) (pdu : PersistentDeferredPdu) (d : DeferredPdus)
    : DeferredPduUpsert * DeferredPdus :=
  if empty (dp_event_id pdu) || empty (dp_room_id pdu) then (upsert_persistence_failed, d)
  else
    let existing := find_row (dp_event_id pdu) d in
    if match existing with None => retained_set_full pdu (deferred_pdus d) | Some _ => false end
    then (upsert_refused_full, d)
    else if negb (commit_persistent_transaction backend s [upsert_deferred_pdu_row pdu])
    then (upsert_persistence_failed, d)
    else
      match existing with
      | Some row =>
          let rows := update_row pdu (deferred_pdus d) in
          (upsert_updated,
           if index_is_current d
           then {| deferred_pdus := rows; awaits := index_deferred_pdu s row (awaits d) |}
           else rebuild_deferred_pdu_awaits s {| deferred_pdus := rows; awaits := awaits d |})
      | None =>
          let rows := deferred_pdus d ++ [pdu] in
          (upsert_inserted,
           if index_is_current d
           then {| deferred_pdus := rows; awaits := set_indexed (length rows) (index_deferred_pdu s pdu (awaits d)) |}
           else rebuild_deferred_pdu_awaits s {| deferred_pdus := rows; awaits := awaits d |})
      end.

Fixpoint erase_row (event_id : string) (rows : list PersistentDeferredPdu) : list PersistentDeferredPdu :=
  match rows with
  | [] => []
  | row :: rest => if dp_event_id row =s event_id then rest else row :: erase_row event_id rest
  end.

Definition remove_deferred_pdu (s : PersistentStore) (event_id : string) (d : DeferredPdus) : bool * DeferredPdus :=
  match find_row event_id d with
  | None => (false, d)
  | Some _ =>
      if negb (commit_persistent_transaction backend s [delete_deferred_pdu_row event_id]) then (false, d)
      else
        let rows := erase_row event_id (deferred_pdus d) in
        let a := unindex_deferred_pdu event_id (awaits d) in
        (true, {| deferred_pdus := rows; awaits := if index_is_current d then set_indexed (length rows) a else a |})
  end.
End Backend.

Definition deferred_pdus_for_room (room_id : string) (d : DeferredPdus) : list PersistentDeferredPdu :=
  List.filter (fun row => dp_room_id row =s room_id) (deferred_pdus d).
End Awaits.

(** * The index as a relation *)

(** [id] waits for [w]; the room it is filed under. *)
Definition waits (a : DeferredPduAwaits) (w id : string) : option string := rows_by_awaited a !! w ≫= fun m => m !! id.

(** No awaited event is kept with nothing waiting. *)
Definition no_empty (m : gmap string (gmap string string)) : Prop := forall w, m !! w <> Some ∅.

Lemma unawait_waits id w m : no_empty m ->
  no_empty (unawait id w m) /\ forall w' id', (unawait id w m !! w' ≫= fun x => x !! id')
    = if decide (w' = w /\ id' = id) then None else m !! w' ≫= fun x => x !! id'.
Proof.
  intros Hn. unfold unawait. destruct (m !! w) as [waiting|] eqn:Ew.
  - case_bool_decide as He.
    + split; [intros w'; destruct (decide (w' = w)) as [->|]; [by rewrite lookup_delete_eq|by rewrite lookup_delete_ne]|].
      intros w' id'. destruct (decide (w' = w)) as [->|Hw].
      * rewrite lookup_delete_eq, Ew. simpl. destruct (decide _) as [|Hne]; [done|].
        assert (delete id waiting !! id' = None) as Hd by (by rewrite He). rewrite lookup_delete_ne in Hd by naive_solver. done.
      * rewrite lookup_delete_ne by done. by rewrite decide_False by naive_solver.
    + split; [intros w'; destruct (decide (w' = w)) as [->|]; [rewrite lookup_insert_eq; naive_solver|by rewrite lookup_insert_ne]|].
      intros w' id'. destruct (decide (w' = w)) as [->|Hw].
      * rewrite lookup_insert_eq, Ew. simpl. destruct (decide (id' = id)) as [->|]; [by rewrite lookup_delete_eq, decide_True|].
        by rewrite lookup_delete_ne, decide_False by naive_solver.
      * rewrite lookup_insert_ne by done. by rewrite decide_False by naive_solver.
  - split; [done|]. intros w' id'. destruct (decide _) as [[-> ->]|]; [by rewrite Ew|done].
Qed.

Lemma unawaits_waits id l : forall m, no_empty m ->
  no_empty (foldl (fun m w => unawait id w m) m l)
  /\ forall w' id', (foldl (fun m w => unawait id w m) m l !! w' ≫= fun x => x !! id')
    = if decide (id' = id /\ w' ∈ l) then None else m !! w' ≫= fun x => x !! id'.
Proof.
  induction l as [|w l IH]; intros m Hn; simpl.
  { split; [done|]. intros. by rewrite decide_False by set_solver. }
  destruct (unawait_waits id w m Hn) as [Hn' Hw]. destruct (IH _ Hn') as [Hn'' Hl]. split; [done|].
  intros w' id'. rewrite Hl, Hw. repeat case_decide; set_solver.
Qed.

Lemma await_waits row w m : no_empty m ->
  no_empty (await row w m) /\ forall w' id', (await row w m !! w' ≫= fun x => x !! id')
    = if decide (w' = w /\ id' = dp_event_id row) then Some (dp_room_id row) else m !! w' ≫= fun x => x !! id'.
Proof.
  intros Hn. unfold await. split.
  - intros w'. destruct (decide (w' = w)) as [->|]; [|by rewrite lookup_insert_ne].
    rewrite lookup_insert_eq. intros [= He]. by apply insert_non_empty in He.
  - intros w' id'. destruct (decide (w' = w)) as [->|]; [|rewrite lookup_insert_ne by done; by rewrite decide_False by naive_solver].
    rewrite lookup_insert_eq. simpl. destruct (decide (id' = dp_event_id row)) as [->|]; [by rewrite lookup_insert_eq, decide_True|].
    rewrite lookup_insert_ne, decide_False by naive_solver. by destruct (m !! w).
Qed.

Lemma awaiting_waits row l : forall m, no_empty m ->
  no_empty (foldl (fun m w => await row w m) m l)
  /\ forall w' id', (foldl (fun m w => await row w m) m l !! w' ≫= fun x => x !! id')
    = if decide (id' = dp_event_id row /\ w' ∈ l) then Some (dp_room_id row) else m !! w' ≫= fun x => x !! id'.
Proof.
  induction l as [|w l IH]; intros m Hn; simpl.
  { split; [done|]. intros. by rewrite decide_False by set_solver. }
  destruct (await_waits row w m Hn) as [Hn' Hw]. destruct (IH _ Hn') as [Hn'' Hl]. split; [done|].
  intros w' id'. rewrite Hl, Hw. repeat case_decide; set_solver.
Qed.

(** * The invariant *)

(** The index files exactly the rows of [ids], each under the room it has. *)
Record filed (rows : list PersistentDeferredPdu) (a : DeferredPduAwaits) : Prop := {
  fi_ids : NoDup (dp_event_id <$> rows);
  fi_empty : no_empty (rows_by_awaited a);
  fi_rows : forall id, is_Some (awaited_by_row a !! id) <-> id ∈ dp_event_id <$> rows;
  fi_waits : forall w id room, waits a w id = Some room <->
    exists row awaited, row ∈ rows /\ dp_event_id row = id /\ dp_room_id row = room
      /\ awaited_by_row a !! id = Some awaited /\ w ∈ awaited
}.

Definition index_ok (d : DeferredPdus) : Prop := filed (deferred_pdus d) (awaits d) /\ index_is_current d = true.

(** The bounds of the retained set. *)
Record bounded (rows : list PersistentDeferredPdu) : Prop := {
  bd_total : (length rows <= 1000)%nat;
  bd_room : forall room, (in_room room rows <= 100)%nat;
  bd_bytes : json_bytes rows <= 16 * 1024 * 1024
}.

Lemma rows_unique rows r r' : NoDup (dp_event_id <$> rows) -> r ∈ rows -> r' ∈ rows -> dp_event_id r = dp_event_id r' -> r = r'.
Proof.
  intros Hn Hr Hr' He. apply list_elem_of_lookup in Hr as [i Hi], Hr' as [j Hj].
  assert (i = j) as ->; [|congruence]. eapply (NoDup_lookup (dp_event_id <$> rows)); [done| |]; rewrite list_lookup_fmap.
  - by rewrite Hi.
  - rewrite Hj. simpl. by rewrite He.
Qed.

Lemma find_row_spec id d : match find_row id d with
  | Some row => row ∈ deferred_pdus d /\ dp_event_id row = id
  | None => id ∉ dp_event_id <$> deferred_pdus d
  end.
Proof.
  unfold find_row. destruct (List.find _ _) as [row|] eqn:E.
  - apply find_some in E as [Hin He]. breflect. by rewrite list_elem_of_In.
  - intros (row & -> & Hin)%list_elem_of_fmap. rewrite list_elem_of_In in Hin. pose proof (find_none _ _ E _ Hin) as Hf. simpl in Hf.
    by breflect.
Qed.

(** Removing one row from the index. *)
Lemma unindex_filed rows rows' id a : filed rows a -> NoDup (dp_event_id <$> rows') ->
  (forall r, r ∈ rows' <-> r ∈ rows /\ dp_event_id r <> id) ->
  filed rows' (unindex_deferred_pdu id a)
  /\ (forall w id', waits (unindex_deferred_pdu id a) w id' = if decide (id' = id) then None else waits a w id').
Proof.
  intros [F1 F2 F3 F4] Hn Hrows. unfold unindex_deferred_pdu. destruct (awaited_by_row a !! id) as [awaited|] eqn:E.
  - destruct (unawaits_waits id awaited _ F2) as [Hne Hw].
    assert (forall w id', waits (unindex_deferred_pdu id a) w id' = if decide (id' = id) then None else waits a w id') as Hwaits.
    { intros w id'. unfold waits at 1, unindex_deferred_pdu. rewrite E. simpl. rewrite Hw. fold (waits a w id').
      destruct (decide (id' = id)) as [->|]; [|by rewrite decide_False by naive_solver].
      case_decide; [done|]. apply eq_None_not_Some. intros [room (r & aw & _ & _ & _ & Haw & Hin)%F4]. naive_solver. }
    unfold unindex_deferred_pdu in Hwaits. rewrite E in Hwaits. split; [|done]. split; simpl; [done|done| |].
    + intros id'. destruct (decide (id' = id)) as [->|Hid].
      * rewrite lookup_delete_eq. split; [by intros []|]. intros (r & Hr & Hin)%list_elem_of_fmap. apply Hrows in Hin. naive_solver.
      * rewrite lookup_delete_ne by done. rewrite F3, !list_elem_of_fmap. setoid_rewrite Hrows. naive_solver.
    + intros w id' room. rewrite Hwaits. destruct (decide (id' = id)) as [->|Hid].
      * split; [done|]. intros (r & aw & Hr & ? & _ & Haw & _). rewrite lookup_delete_eq in Haw. done.
      * rewrite F4, lookup_delete_ne by done. setoid_rewrite Hrows. naive_solver.
  - assert (id ∉ dp_event_id <$> rows) as Hout by (rewrite <- F3, E; by intros []).
    assert (forall r, r ∈ rows' <-> r ∈ rows) as Hsame.
    { intros r. rewrite Hrows. split; [by intros []|]. intros Hr. split; [done|]. intros <-. apply Hout. by apply list_elem_of_fmap_2. }
    split.
    + split; [done|done| |].
      * intros id'. rewrite F3, !list_elem_of_fmap. setoid_rewrite Hsame. done.
      * intros w id' room. rewrite F4. setoid_rewrite Hsame. done.
    + intros w id'. destruct (decide (id' = id)) as [->|]; [|done]. apply eq_None_not_Some.
      intros [room (r & aw & Hr & <- & _)%F4]. apply Hout. by apply list_elem_of_fmap_2.
Qed.

Section Wake.
Context `{Yyjson}.

(** Filing one row, new or not. *)
Lemma index_filed s rows rows' row a : filed rows a -> NoDup (dp_event_id <$> rows') ->
  (forall r, r ∈ rows' <-> (r ∈ rows /\ dp_event_id r <> dp_event_id row) \/ (dp_event_id r = dp_event_id row /\ r ∈ rows')) ->
  (exists r, r ∈ rows' /\ dp_event_id r = dp_event_id row /\ dp_room_id r = dp_room_id row) ->
  filed rows' (index_deferred_pdu s row a)
  /\ (forall w id, waits (index_deferred_pdu s row a) w id =
        if decide (id = dp_event_id row)
        then if decide (w ∈ awaited_event_ids s (dp_pdu_json row)) then Some (dp_room_id row) else None
        else waits a w id).
Proof.
  intros Hf Hn Hrows (own & Hown & Hid & Hroom).
  set (others := filter (fun r => dp_event_id r <> dp_event_id row) rows).
  assert (forall r, r ∈ others <-> r ∈ rows /\ dp_event_id r <> dp_event_id row) as Hoth by (intros r; unfold others; rewrite list_elem_of_filter; naive_solver).
  assert (NoDup (dp_event_id <$> others)) as Hno.
  { destruct Hf as [F1 _ _ _]. unfold others. clear -F1. induction rows as [|r rows IH]; [constructor|].
    apply NoDup_cons in F1 as [Hr Hn]. rewrite filter_cons. case_decide; [|by apply IH]. csimpl. apply NoDup_cons. split; [|by apply IH].
    intros (x & Hx & [_ Hin]%list_elem_of_filter)%list_elem_of_fmap. apply Hr. rewrite Hx. by apply list_elem_of_fmap_2. }
  destruct (unindex_filed rows others (dp_event_id row) a Hf Hno Hoth) as [[F1 F2 F3 F4] Hu].
  unfold index_deferred_pdu. set (a1 := unindex_deferred_pdu (dp_event_id row) a) in *.
  set (awaited := awaited_event_ids s (dp_pdu_json row)).
  destruct (awaiting_waits row awaited _ F2) as [Hne Hw].
  assert (forall w id, waits {| rows_by_awaited := foldl (fun m id => await row id m) (rows_by_awaited a1) awaited;
       awaited_by_row := <[dp_event_id row:=awaited]> (awaited_by_row a1); indexed_rows := indexed_rows a1 |} w id =
     if decide (id = dp_event_id row) then if decide (w ∈ awaited) then Some (dp_room_id row) else None else waits a w id) as Hwaits.
  { intros w id. unfold waits at 1. simpl. rewrite Hw. fold (waits a1 w id). rewrite Hu.
    destruct (decide (id = dp_event_id row)) as [->|]; [|by rewrite decide_False by naive_solver].
    destruct (decide (w ∈ awaited)); [by rewrite decide_True|by rewrite decide_False by naive_solver]. }
  split; [|done]. split; simpl; [done|done| |].
  - intros id. destruct (decide (id = dp_event_id row)) as [->|Hne'].
    + rewrite lookup_insert_eq. split; [|done]. intros _. rewrite <- Hid. by apply list_elem_of_fmap_2.
    + rewrite lookup_insert_ne by done. rewrite F3, !list_elem_of_fmap. split; intros (r & -> & Hr); exists r; (split; [done|]).
      * apply Hrows. left. by apply Hoth.
      * apply Hoth. apply Hrows in Hr. naive_solver.
  - intros w id room. rewrite Hwaits. destruct (decide (id = dp_event_id row)) as [->|Hne'].
    + rewrite lookup_insert_eq. split.
      * case_decide; [|done]. intros [= <-]. exists own, awaited. done.
      * intros (r & aw & Hr & Hrid & <- & [= <-] & Hin). rewrite decide_True by done. f_equal.
        rewrite <- Hroom. f_equal. apply (rows_unique rows'); congruence.
    + rewrite lookup_insert_ne by done.
      specialize (F4 w id room). rewrite Hu, decide_False in F4 by done. rewrite F4.
      split; intros (r & aw & Hr & Hrest); exists r, aw; (split; [|done]).
      * apply Hrows. left. by apply Hoth.
      * apply Hoth. apply Hrows in Hr. naive_solver.
Qed.

(** * Operations *)

Lemma awaits_rebuild_ok s d : NoDup (dp_event_id <$> deferred_pdus d) ->
  index_ok (rebuild_deferred_pdu_awaits s d)
  /\ (forall w id, waits (awaits (rebuild_deferred_pdu_awaits s d)) w id =
        match find_row id d with
        | Some row => if decide (w ∈ awaited_event_ids s (dp_pdu_json row)) then Some (dp_room_id row) else None
        | None => None
        end).
Proof.
  intros Hn. assert (forall rows seen a, NoDup (dp_event_id <$> seen ++ rows) -> filed seen a ->
    filed (seen ++ rows) (foldl (fun a row => index_deferred_pdu s row a) a rows)
    /\ forall w id, waits (foldl (fun a row => index_deferred_pdu s row a) a rows) w id =
        match List.find (fun row => dp_event_id row =s id) rows with
        | Some row => if decide (w ∈ awaited_event_ids s (dp_pdu_json row)) then Some (dp_room_id row) else None
        | None => waits a w id
        end) as Hfold.
  { induction rows as [|row rows IH]; intros seen a Hnd Hf; simpl; [by rewrite app_nil_r|].
    replace (seen ++ row :: rows) with ((seen ++ [row]) ++ rows) in * by (by rewrite <- app_assoc). assert (NoDup (dp_event_id <$> seen ++ [row])) as Hnd'.
    { rewrite fmap_app in Hnd. by apply NoDup_app in Hnd as [? _]. }
    destruct (index_filed s seen (seen ++ [row]) row a Hf Hnd') as [Hf' Hw].
    - intros r. rewrite elem_of_app, list_elem_of_singleton. rewrite fmap_app, NoDup_app in Hnd'. destruct Hnd' as (_ & Hd & _). split.
      + intros [Hr| ->]; [|naive_solver]. left. split; [done|]. intros He. apply (Hd (dp_event_id r)); [by apply list_elem_of_fmap_2|].
        rewrite He. by left.
      + naive_solver.
    - exists row. split; [|done]. set_solver.
    - destruct (IH _ _ Hnd Hf') as [Hf'' Hw']. split; [done|]. intros w id. rewrite Hw', Hw.
      destruct (dp_event_id row =s id) eqn:E; breflect.
      + subst id. destruct (List.find _ rows) as [r|] eqn:Er; [|by rewrite decide_True].
        exfalso. apply find_some in Er as [Hin He]. breflect. rewrite fmap_app, NoDup_app in Hnd. destruct Hnd as (_ & Hd & _).
        apply (Hd (dp_event_id row)); [rewrite fmap_app; set_solver|]. rewrite <- He. apply list_elem_of_fmap_2. by apply list_elem_of_In.
      + destruct (List.find _ rows); [done|]. by rewrite decide_False. }
  destruct (Hfold (deferred_pdus d) [] no_awaits Hn) as [Hf Hw].
  { split; [constructor|intros w; simpl; by rewrite lookup_empty| |].
    - intros id. simpl. rewrite lookup_empty. split; [by intros []|set_solver].
    - intros w id room. unfold waits. simpl. rewrite lookup_empty. split; [done|]. intros (r & ? & Hr & _). set_solver. }
  simpl in *. split; [|intros w id; unfold waits, find_row in *; simpl; rewrite Hw; by destruct (List.find _ _)].
  split; [|unfold index_is_current, rebuild_deferred_pdu_awaits; simpl; apply Nat.eqb_refl].
  destruct Hf as [F1 F2 F3 F4]. by split.
Qed.

Lemma update_row_ids pdu rows : dp_event_id <$> update_row pdu rows = dp_event_id <$> rows.
Proof. induction rows as [|r rows IH]; simpl; [done|]. destruct (dp_event_id r =s dp_event_id pdu); csimpl; congruence. Qed.

Lemma update_row_shape pdu rows : (dp_room_id <$> update_row pdu rows = dp_room_id <$> rows)
  /\ (dp_pdu_json <$> update_row pdu rows = dp_pdu_json <$> rows).
Proof.
  induction rows as [|r rows [IH1 IH2]]; simpl; [done|]. destruct (dp_event_id r =s dp_event_id pdu); csimpl; split; congruence.
Qed.

Lemma in_room_fmap room rows : in_room room rows = length (List.filter (fun r => r =s room) (dp_room_id <$> rows)).
Proof. unfold in_room. induction rows as [|r rows IH]; csimpl; [done|]. destruct (dp_room_id r =s room); simpl; congruence. Qed.

Lemma json_bytes_fmap rows : json_bytes rows = foldr (fun j n => Z.of_nat (String.length j) + n) 0 (dp_pdu_json <$> rows).
Proof. induction rows as [|r rows IH]; csimpl; [done|]. unfold json_bytes in *. simpl. by rewrite IH. Qed.

Lemma json_bytes_app a b : json_bytes (a ++ b) = json_bytes a + json_bytes b.
Proof. unfold json_bytes. induction a as [|r a IH]; simpl; [done|]. rewrite IH. lia. Qed.

Lemma in_room_app room a b : in_room room (a ++ b) = (in_room room a + in_room room b)%nat.
Proof. unfold in_room. by rewrite List.filter_app, length_app. Qed.

Lemma updated_bounded pdu rows : bounded rows -> bounded (update_row pdu rows).
Proof.
  intros [B1 B2 B3]. destruct (update_row_shape pdu rows) as [Hr Hj]. split.
  - rewrite <- (length_fmap dp_event_id (update_row pdu rows)), update_row_ids. by rewrite length_fmap.
  - intros room. by rewrite in_room_fmap, Hr, <- in_room_fmap.
  - by rewrite json_bytes_fmap, Hj, <- json_bytes_fmap.
Qed.

Lemma inserted_bounded pdu rows : retained_set_full pdu rows = false -> bounded rows -> bounded (rows ++ [pdu]).
Proof.
  unfold retained_set_full, max_deferred_pdus_per_room, max_deferred_pdus_total, max_deferred_pdu_json_bytes.
  intros Hf [B1 B2 B3]. breflect. apply Nat.leb_gt in H0, H3. split.
  - rewrite length_app. simpl. lia.
  - intros room. rewrite in_room_app. unfold in_room at 2. simpl. destruct (dp_room_id pdu =s room) eqn:E; simpl.
    + breflect. subst room. lia.
    + specialize (B2 room). lia.
  - rewrite json_bytes_app. unfold json_bytes at 2. simpl. lia.
Qed.

Lemma erase_row_spec id rows : NoDup (dp_event_id <$> rows) ->
  (forall r, r ∈ erase_row id rows <-> r ∈ rows /\ dp_event_id r <> id) /\ NoDup (dp_event_id <$> erase_row id rows).
Proof.
  induction rows as [|r rows IH]; intros Hn; csimpl; [split; [set_solver|constructor]|].
  csimpl in Hn. apply NoDup_cons in Hn as [Hr Hn]. destruct (IH Hn) as [Hin Hnd].
  assert (forall x, x ∈ rows -> dp_event_id x <> dp_event_id r) as Hother by (intros x Hx He; apply Hr; rewrite <- He; by apply list_elem_of_fmap_2).
  destruct (dp_event_id r =s id) eqn:E; breflect.
  - split; [|done]. intros x. rewrite elem_of_cons. subst id. split; [naive_solver|]. by intros [[->|Hx] Hne].
  - split.
    + intros x. rewrite !elem_of_cons, Hin. naive_solver.
    + csimpl. apply NoDup_cons. split; [|done]. intros (x & Hx & [Hxr _]%Hin)%list_elem_of_fmap. apply Hr. rewrite Hx. by apply list_elem_of_fmap_2.
Qed.

Lemma erased_bounded id rows : bounded rows -> bounded (erase_row id rows).
Proof.
  intros [B1 B2 B3]. assert (sublist (erase_row id rows) rows) as Hs.
  { induction rows as [|r rows IH]; simpl; [constructor|]. destruct (dp_event_id r =s id); [by apply sublist_cons|].
    constructor. apply IH; [simpl in *; lia| |].
    - intros room. specialize (B2 room). unfold in_room in *. simpl in B2. destruct (dp_room_id r =s room); simpl in *; lia.
    - unfold json_bytes in *. simpl in B3. lia. }
  split.
  - apply sublist_length in Hs. lia.
  - intros room. specialize (B2 room). etrans; [|exact B2]. unfold in_room. clear -Hs.
    induction Hs as [|x l k _ IH|x l k _ IH]; simpl; [done| |]; destruct (dp_room_id x =s room); simpl; lia.
  - etrans; [|exact B3]. unfold json_bytes. clear -Hs. induction Hs as [|x l k _ IH|x l k _ IH]; simpl; lia.
Qed.

Section Operations.
Context (backend : PersistentStore -> list Statement -> bool).

Local Ltac unchanged_case := split; [by split|]; split; [done|]; split; [done|]; split; [done|naive_solver].

(** What retaining an event does, whichever way it goes. *)
Lemma upsert_spec s pdu d : index_ok d ->
  let '(result, d') := upsert_deferred_pdu backend s pdu d in
  index_ok d' /\ (bounded (deferred_pdus d) -> bounded (deferred_pdus d'))
  /\ ((result = upsert_refused_full \/ result = upsert_persistence_failed) -> d' = d)
  /\ (forall w id, id <> dp_event_id pdu -> waits (awaits d') w id = waits (awaits d) w id)
  /\ ((result = upsert_inserted \/ result = upsert_updated) ->
      exists row, row ∈ deferred_pdus d' /\ dp_event_id row = dp_event_id pdu
      /\ (result = upsert_inserted -> row = pdu)
      /\ forall w, waits (awaits d') w (dp_event_id pdu) =
           if decide (w ∈ awaited_event_ids s (dp_pdu_json row)) then Some (dp_room_id row) else None).
Proof.
  intros [Hf Hc]. unfold upsert_deferred_pdu. rewrite Hc.
  destruct (empty (dp_event_id pdu) || empty (dp_room_id pdu)); [unchanged_case|].
  pose proof (find_row_spec (dp_event_id pdu) d) as Hrow. destruct (find_row (dp_event_id pdu) d) as [row|] eqn:Ef.
  - destruct (negb _); [unchanged_case|]. destruct Hrow as [Hin Hid].
    assert (NoDup (dp_event_id <$> update_row pdu (deferred_pdus d))) as Hn by (rewrite update_row_ids; apply Hf).
    assert (exists r, r ∈ update_row pdu (deferred_pdus d) /\ dp_event_id r = dp_event_id row /\ dp_room_id r = dp_room_id row
              /\ dp_pdu_json r = dp_pdu_json row) as (own & Hown & Hoid & Horoom & Hojson).
    { destruct Hf as [F1 _ _ _]. clear -F1 Hin Hid. revert F1 Hin. induction (deferred_pdus d) as [|r rows IH]; [set_solver|].
      csimpl. rewrite NoDup_cons. intros [Hr Hn] Hin. destruct (dp_event_id r =s dp_event_id pdu) eqn:E; breflect.
      - eexists. split; [by left|]. simpl. assert (r = row) as ->; [|done]. apply elem_of_cons in Hin as [|Hin]; [done|].
        exfalso. apply Hr. rewrite E, <- Hid. by apply list_elem_of_fmap_2.
      - apply elem_of_cons in Hin as [->|Hin]; [done|]. destruct (IH Hn Hin) as (o & Ho & ?). exists o. split; [by right|done]. }
    destruct (index_filed s (deferred_pdus d) (update_row pdu (deferred_pdus d)) row (awaits d) Hf Hn) as [Hf' Hw]; [|by eauto|].
    { intros r. split; [|].
      - intros Hr. destruct (decide (dp_event_id r = dp_event_id row)) as [|Hne]; [by right|left]. split; [|done].
        clear -Hr Hne Hid. induction (deferred_pdus d) as [|x rows IH]; simpl in *; [done|].
        destruct (dp_event_id x =s dp_event_id pdu) eqn:E; breflect; apply elem_of_cons in Hr as [->|Hr]; try (by left); try (right; auto; fail).
        simpl in Hne. congruence.
      - intros [[Hr Hne]|[_ Hr]]; [|done]. clear -Hr Hne Hid. induction (deferred_pdus d) as [|x rows IH]; simpl in *; [done|].
        destruct (dp_event_id x =s dp_event_id pdu) eqn:E; breflect; apply elem_of_cons in Hr as [->|Hr]; try (by left); try (right; auto; fail).
        congruence. }
    split; [split; [done|]|].
    { unfold index_is_current in *. simpl. unfold index_deferred_pdu, unindex_deferred_pdu. simpl.
      rewrite <- (length_fmap dp_event_id (update_row pdu (deferred_pdus d))), update_row_ids, length_fmap. by destruct (awaited_by_row _ !! _). }
    split; [apply updated_bounded|]. split; [naive_solver|]. split.
    + intros w id Hne. simpl. by rewrite Hw, decide_False by congruence.
    + intros _. exists own. split; [done|]. split; [congruence|]. split; [done|]. intros w. simpl. rewrite Hw, decide_True by done.
      by rewrite Hojson, Horoom.
  - destruct (retained_set_full pdu (deferred_pdus d)) eqn:Efull; [unchanged_case|].
    destruct (negb _); [unchanged_case|].
    assert (NoDup (dp_event_id <$> deferred_pdus d ++ [pdu])) as Hn.
    { rewrite fmap_app, NoDup_app. split; [apply Hf|]. split; [set_solver|]. apply NoDup_singleton. }
    destruct (index_filed s (deferred_pdus d) (deferred_pdus d ++ [pdu]) pdu (awaits d) Hf Hn) as [Hf' Hw].
    { intros r. rewrite elem_of_app, list_elem_of_singleton. split; [|naive_solver]. intros [Hr| ->]; [left; split; [done|]|naive_solver].
      intros He. apply Hrow. rewrite <- He. by apply list_elem_of_fmap_2. }
    { exists pdu. set_solver. }
    split; [split; [by destruct Hf'; split|unfold index_is_current; simpl; apply Nat.eqb_refl]|].
    split; [by apply inserted_bounded|]. split; [naive_solver|]. split.
    + intros w id Hne. change (waits (index_deferred_pdu s pdu (awaits d)) w id = waits (awaits d) w id). by rewrite Hw, decide_False.
    + intros _. exists pdu. split; [set_solver|]. split; [done|]. split; [done|]. intros w.
      change (waits (index_deferred_pdu s pdu (awaits d)) w (dp_event_id pdu) = if decide (w ∈ awaited_event_ids s (dp_pdu_json pdu)) then Some (dp_room_id pdu) else None).
      by rewrite Hw, decide_True.
Qed.

Lemma remove_spec s id d : index_ok d ->
  let '(removed, d') := remove_deferred_pdu backend s id d in
  index_ok d' /\ (bounded (deferred_pdus d) -> bounded (deferred_pdus d'))
  /\ (forall w id', id' <> id -> waits (awaits d') w id' = waits (awaits d) w id')
  /\ (removed = true -> id ∉ dp_event_id <$> deferred_pdus d').
Proof.
  intros [Hf Hc]. unfold remove_deferred_pdu. rewrite Hc. destruct (find_row id d); [|done]. destruct (negb _); [done|].
  destruct (erase_row_spec id (deferred_pdus d)) as [Hin Hn]; [apply Hf|].
  destruct (unindex_filed _ _ id _ Hf Hn Hin) as [Hf' Hw]. split; [|split; [apply erased_bounded|split]].
  - split; [by destruct Hf'; split|unfold index_is_current; simpl; apply Nat.eqb_refl].
  - intros w id' Hne. change (waits (unindex_deferred_pdu id (awaits d)) w id' = waits (awaits d) w id'). by rewrite Hw, decide_False.
  - intros _ (r & -> & Hr)%list_elem_of_fmap. simpl in Hr. apply Hin in Hr as [_ Hne]. done.
Qed.

(** The rows woken by the loop, and what it leaves. *)
Lemma wake_fold room w l : forall woken waiting by_row, NoDup l.*1 ->
  let '(woken', waiting', by_row') := foldl (wake_row room w) (woken, waiting, by_row) l in
  woken' = woken ++ (filter (fun e => e.2 = room /\ e.1 <> w) l).*1
  /\ (forall id, waiting' !! id = if decide (id ∈ (filter (fun e => e.2 = room /\ e.1 <> w) l).*1) then None else waiting !! id)
  /\ (forall id, by_row' !! id = if decide (id ∈ (filter (fun e => e.2 = room /\ e.1 <> w) l).*1)
                               then List.filter (fun x => x <>s w) <$> by_row !! id else by_row !! id).
Proof.
  induction l as [|[id r] l IH]; intros woken waiting by_row Hn; [by rewrite app_nil_r|].
  csimpl in Hn. apply NoDup_cons in Hn as [Hid Hn]. cbn [foldl]. unfold wake_row at 2. cbn [fst snd].
  assert (id ∉ (filter (fun e => e.2 = room /\ e.1 <> w) l).*1) as Hout.
  { intros (e & -> & [_ He]%list_elem_of_filter)%list_elem_of_fmap. apply Hid. by apply list_elem_of_fmap_2. }
  rewrite filter_cons. cbn [fst snd]. destruct ((r <>s room) || (id =s w)) eqn:E.
  - rewrite decide_False; [by apply IH|]. intros [-> Hne]. apply orb_true_iff in E as [E|E]; breflect; done.
  - breflect. rewrite decide_True by done. csimpl.
    specialize (IH (woken ++ [id]) (delete id waiting) (alter (List.filter (fun x => x <>s w)) id by_row) Hn).
    destruct (foldl _ _ l) as [[woken' waiting'] by_row']. destruct IH as (-> & Hw & Hb).
    split; [by rewrite <- app_assoc|]. split; intros x; [rewrite Hw|rewrite Hb].
    + destruct (decide (x = id)) as [->|Hne]; [by rewrite decide_False, lookup_delete_eq, decide_True by (done || by left)|].
      rewrite lookup_delete_ne by done. by repeat case_decide; set_solver.
    + destruct (decide (x = id)) as [->|Hne]; [by rewrite decide_False, lookup_alter_eq, decide_True by (done || by left)|].
      rewrite lookup_alter_ne by done. by repeat case_decide; set_solver.
Qed.

Lemma take_spec `{IterationOrder} s room w d : index_ok d ->
  let '(woken, d') := take_deferred_pdus_awaiting s room w d in
  index_ok d' /\ deferred_pdus d' = deferred_pdus d /\ NoDup woken
  /\ (forall id, id ∈ woken <-> waits (awaits d) w id = Some room /\ id <> w)
  /\ (forall w' id, waits (awaits d') w' id = if decide (w' = w /\ id ∈ woken) then None else waits (awaits d) w' id).
Proof.
  intros [[F1 F2 F3 F4] Hc]. unfold take_deferred_pdus_awaiting. rewrite Hc.
  destruct (rows_by_awaited (awaits d) !! w) as [waiting|] eqn:Ew.
  2:{ split; [by split|]. split; [done|]. split; [constructor|]. split.
      - intros id. unfold waits. rewrite Ew. set_solver.
      - intros w' id. by rewrite decide_False by set_solver. }
  assert (NoDup (iter_map waiting).*1) as Hn by (rewrite iter_map_perm; apply NoDup_fst_map_to_list).
  pose proof (wake_fold room w (iter_map waiting) [] waiting (awaited_by_row (awaits d)) Hn) as Hfold.
  destruct (foldl _ _ _) as [[woken rest] by_row]. destruct Hfold as (-> & Hrest & Hrow). simpl in *.
  set (woken := (filter (fun e => e.2 = room /\ e.1 <> w) (iter_map waiting)).*1) in *.
  assert (forall id, id ∈ woken <-> waits (awaits d) w id = Some room /\ id <> w) as Hwoken.
  { intros id. unfold woken, waits. rewrite Ew. simpl. rewrite list_elem_of_fmap. split.
    - intros ([id' r] & -> & [[Hr Hne] Hin]%list_elem_of_filter). simpl in *. rewrite iter_map_perm in Hin.
      apply elem_of_map_to_list in Hin. by subst.
    - intros [Hr Hne]. exists (id, room). split; [done|]. apply list_elem_of_filter. split; [done|].
      rewrite iter_map_perm. by apply elem_of_map_to_list. }
  set (a' := {| rows_by_awaited := if bool_decide (rest = ∅) then delete w (rows_by_awaited (awaits d)) else <[w:=rest]> (rows_by_awaited (awaits d));
                awaited_by_row := by_row; indexed_rows := indexed_rows (awaits d) |}).
  assert (forall w' id, waits a' w' id = if decide (w' = w /\ id ∈ woken) then None else waits (awaits d) w' id) as Hwaits.
  { intros w' id. unfold waits, a'. simpl. destruct (decide (w' = w)) as [->|Hne].
    - rewrite Ew. simpl. assert ((if bool_decide (rest = ∅) then delete w (rows_by_awaited (awaits d)) else <[w:=rest]> (rows_by_awaited (awaits d))) !! w ≫= (fun m => m !! id) = rest !! id) as ->.
      { case_bool_decide as He; [rewrite lookup_delete_eq; subst rest; by rewrite lookup_empty|by rewrite lookup_insert_eq]. }
      rewrite Hrest. repeat case_decide; naive_solver.
    - rewrite decide_False by naive_solver. case_bool_decide; [by rewrite lookup_delete_ne|by rewrite lookup_insert_ne]. }
  split; [|split; [done|split; [|done]]].
  - split; [|done]. split; [done| | |].
    + intros w'. unfold a'. simpl. destruct (decide (w' = w)) as [->|Hne]; case_bool_decide.
      * by rewrite lookup_delete_eq.
      * rewrite lookup_insert_eq. naive_solver.
      * by rewrite lookup_delete_ne.
      * by rewrite lookup_insert_ne.
    + intros id. simpl. rewrite Hrow, <- F3. case_decide; [by rewrite fmap_is_Some|done].
    + intros w' id r. rewrite Hwaits. simpl. setoid_rewrite Hrow. destruct (decide (id ∈ woken)) as [Hid|Hid].
      * destruct (decide (w' = w)) as [->|Hne].
        -- rewrite decide_True by done. split; [done|]. intros (row & aw & _ & _ & _ & Haw & Hin).
           apply fmap_Some in Haw as (aw0 & _ & ->). rewrite list_elem_of_In, filter_In in Hin. destruct Hin as [_ Hin]. by breflect.
        -- rewrite decide_False by naive_solver. rewrite F4. split; intros (row & aw & ? & ? & ? & Haw & Hin).
           ++ exists row, (List.filter (fun x => x <>s w) aw). rewrite Haw. repeat (split; [done|]).
              rewrite list_elem_of_In, filter_In, <- list_elem_of_In. split; [done|]. by apply string_neqb_true.
           ++ apply fmap_Some in Haw as (aw0 & Haw & ->). exists row, aw0. repeat (split; [done|]).
              rewrite list_elem_of_In, filter_In, <- list_elem_of_In in Hin. naive_solver.
      * rewrite decide_False by naive_solver. by rewrite F4.
  - unfold woken. eapply sublist_NoDup; [exact Hn|]. apply fmap_sublist, sublist_filter.
Qed.

(** * What an event waits for *)

Lemma unique_elem l x : x ∈ unique l <-> x ∈ l.
Proof.
  induction l as [|y l IH]; simpl; [done|]. rewrite (elem_of_cons l), <- IH.
  destruct (unique l) as [|z rest]; [by rewrite elem_of_cons|]. destruct (y =s z) eqn:Ey; [|apply (elem_of_cons (z :: rest))].
  breflect. subst z. split; [by right|]. intros [->|]; [by left|done].
Qed.

(** An event this store cannot build on: a missing auth event, or a previous
    event that is missing or has no recorded state. *)
Definition missing_for (s : PersistentStore) (pdu : Value) (w : string) : Prop :=
  (w ∈ top_level_string_array pdu "auth_events" /\ contains w (events s) = false)
  \/ (w ∈ top_level_string_array pdu "prev_events"
      /\ (contains w (events s) = false \/ EventStateGroupTable.contains w (event_state_groups s) = false)).

Lemma missing_for_spec s pdu w :
  let missing := find_missing_event_references s (top_level_string_array pdu "auth_events") (top_level_string_array pdu "prev_events") in
  w ∈ missing_auth missing ++ missing_prev missing <-> missing_for s pdu w.
Proof.
  unfold find_missing_event_references, missing_for. simpl.
  rewrite elem_of_app, !list_elem_of_In, !filter_In, negb_true_iff, orb_true_iff, !negb_true_iff, <- !list_elem_of_In. naive_solver.
Qed.

Lemma awaited_spec s json pdu : parse_lossless json = POk pdu ->
  (forall w, missing_for s pdu w -> w ∈ awaited_event_ids s json)
  /\ ((exists w, missing_for s pdu w) -> forall w, w ∈ awaited_event_ids s json -> missing_for s pdu w)
  /\ ((forall w, ~ missing_for s pdu w) -> forall w, w ∈ awaited_event_ids s json <->
        w ∈ top_level_string_array pdu "auth_events" \/ w ∈ top_level_string_array pdu "prev_events").
Proof.
  intros Hp. unfold awaited_event_ids. rewrite Hp. pose proof (missing_for_spec s pdu) as Hm. simpl in *.
  setoid_rewrite unique_elem. setoid_rewrite elem_of_sort_by. destruct (_ ++ _) as [|x l] eqn:E in Hm |- *.
  - split; [|split].
    + intros w Hw. apply Hm in Hw. set_solver.
    + intros [w Hw]. apply Hm in Hw. set_solver.
    + intros _ w. by rewrite elem_of_app.
  - split; [|split].
    + intros w Hw. by apply Hm.
    + intros _ w Hw. by apply Hm.
    + intros Hnone. exfalso. apply (Hnone x), Hm. by left.
Qed.

(** * Every retained set the server builds *)

(** The store is whatever it is at each call. *)
Inductive Op : Type :=
  | op_upsert (s : PersistentStore) (pdu : PersistentDeferredPdu)
  | op_remove (s : PersistentStore) (event_id : string)
  | op_take (s : PersistentStore) (room_id event_id : string).

Definition run `{IterationOrder} (d : DeferredPdus) (op : Op) : DeferredPdus :=
  match op with
  | op_upsert s pdu => (upsert_deferred_pdu backend s pdu d).2
  | op_remove s event_id => (remove_deferred_pdu backend s event_id d).2
  | op_take s room_id event_id => (take_deferred_pdus_awaiting s room_id event_id d).2
  end.

(** The call neither retains, removes nor takes this wait. *)
Definition leaves (room id w : string) (op : Op) : Prop :=
  match op with
  | op_upsert _ pdu => dp_event_id pdu <> id
  | op_remove _ event_id => event_id <> id
  | op_take _ room_id event_id => room_id <> room \/ event_id <> w
  end.

(** Rows as loaded from the database: IDs are its primary key. *)
Definition loaded (s : PersistentStore) (rows : list PersistentDeferredPdu) : DeferredPdus :=
  rebuild_deferred_pdu_awaits s {| deferred_pdus := rows; awaits := no_awaits |}.

Lemma run_spec `{IterationOrder} d op : index_ok d -> bounded (deferred_pdus d) ->
  index_ok (run d op) /\ bounded (deferred_pdus (run d op))
  /\ forall room id w, waits (awaits d) w id = Some room -> leaves room id w op -> waits (awaits (run d op)) w id = Some room.
Proof.
  intros Hok Hb. destruct op as [s pdu|s x|s r x]; simpl.
  - pose proof (upsert_spec s pdu d Hok) as Hs. destruct (upsert_deferred_pdu _ _ _ _) as [result d']. simpl.
    destruct Hs as (S1 & S2 & _ & S4 & _). split; [done|]. split; [auto|]. intros room id w Hw Hl. by rewrite S4.
  - pose proof (remove_spec s x d Hok) as Hs. destruct (remove_deferred_pdu _ _ _ _) as [result d']. simpl.
    destruct Hs as (S1 & S2 & S3 & _). split; [done|]. split; [auto|]. intros room id w Hw Hl. by rewrite S3.
  - pose proof (take_spec s r x d Hok) as Hs. destruct (take_deferred_pdus_awaiting _ _ _ _) as [woken d']. simpl.
    destruct Hs as (S1 & S2 & _ & S4 & S5). split; [done|]. split; [by rewrite S2|]. intros room id w Hw Hl.
    rewrite S5, decide_False; [done|]. intros [-> [Hin _]%S4]. rewrite Hw in Hin. destruct Hl; congruence.
Qed.

Lemma runs_spec `{IterationOrder} ops : forall d, index_ok d -> bounded (deferred_pdus d) ->
  index_ok (foldl run d ops) /\ bounded (deferred_pdus (foldl run d ops))
  /\ forall room id w, waits (awaits d) w id = Some room -> Forall (leaves room id w) ops ->
       waits (awaits (foldl run d ops)) w id = Some room.
Proof.
  induction ops as [|op ops IH]; intros d Hok Hb; [done|]. destruct (run_spec d op Hok Hb) as (R1 & R2 & R3).
  destruct (IH _ R1 R2) as (I1 & I2 & I3). split; [done|]. split; [done|]. intros room id w Hw [Hl Hls]%Forall_cons.
  simpl. apply I3; [by apply R3|done].
Qed.

(** C16. Retained events are not forgotten.  In every retained set the server builds,
    from rows loaded within the bounds and whatever happens to the store between
    the calls: at most 1000 events, 100 of a room and 16 MiB of JSON are kept; an
    event that is retained, or retained again, waits for each event it cannot do
    without, and for nothing else as long as it misses anything; a wait lasts
    through all calls except those that retain or remove that event or take that
    wait; and when an event is stored, exactly the events of its room that wait
    for it are woken. *)
Theorem retained_pdus_wake `{IterationOrder} s0 rows ops :
  NoDup (dp_event_id <$> rows) -> bounded rows ->
  let d := foldl run (loaded s0 rows) ops in
  bounded (deferred_pdus d)
  /\ (forall s pdu result d', upsert_deferred_pdu backend s pdu d = (result, d') ->
      result = upsert_inserted \/ result = upsert_updated ->
      exists row, row ∈ deferred_pdus d' /\ dp_event_id row = dp_event_id pdu
      /\ forall value, parse_lossless (dp_pdu_json row) = POk value ->
          (forall w, missing_for s value w -> waits (awaits d') w (dp_event_id pdu) = Some (dp_room_id row))
          /\ forall w room, waits (awaits d') w (dp_event_id pdu) = Some room ->
               missing_for s value w \/ forall w', ~ missing_for s value w')
  /\ (forall room id w later, waits (awaits d) w id = Some room -> Forall (leaves room id w) later ->
      waits (awaits (foldl run d later)) w id = Some room)
  /\ (forall s room w woken d', take_deferred_pdus_awaiting s room w d = (woken, d') ->
      forall id, id ∈ woken <-> waits (awaits d) w id = Some room /\ id <> w).
Proof.
  intros Hn Hb d. destruct (awaits_rebuild_ok s0 {| deferred_pdus := rows; awaits := no_awaits |} Hn) as [Hok _].
  destruct (runs_spec ops (loaded s0 rows) Hok Hb) as (R1 & R2 & _). fold d in R1, R2. split; [done|]. split; [|split].
  - intros s pdu result d' Hu Hr. pose proof (upsert_spec s pdu d R1) as Hs. rewrite Hu in Hs.
    destruct Hs as (_ & _ & _ & _ & S5). destruct (S5 Hr) as (row & Hrow & Hid & _ & Hw). exists row. split; [done|]. split; [done|].
    intros value Hv. destruct (awaited_spec s _ value Hv) as (A1 & A2 & A3). split.
    + intros w Hm. by rewrite Hw, decide_True by auto.
    + intros w room. rewrite Hw. case_decide as Hin; [|done]. intros _.
      destruct (missing_auth (find_missing_event_references s (top_level_string_array value "auth_events") (top_level_string_array value "prev_events"))
                ++ missing_prev (find_missing_event_references s (top_level_string_array value "auth_events") (top_level_string_array value "prev_events"))) as [|x l] eqn:E.
      * right. intros w' Hm. apply missing_for_spec in Hm. rewrite E in Hm. set_solver.
      * left. apply A2; [|done]. exists x. apply missing_for_spec. rewrite E. by left.
  - intros room id w later Hw Hl. by apply (runs_spec later d R1 R2).
  - intros s room w woken d' Ht. pose proof (take_spec s room w d R1) as Hs. rewrite Ht in Hs. by destruct Hs as (_ & _ & _ & S4 & _).
Qed.
End Operations.
End Wake.
