(* ===== verification/ReceiptChecks.v ===== *)
(** The checks on a received event against the store: the auth events it names
    (homeserver/local_http_router.cpp), the auth map of a state, and what the
    store says of its room (homeserver/room_residency.cpp, auth/identity.cpp). *)
From S2P Require Import Prelude CppStd JsonValue JsonSerializer JsonParser RoomVersion Signing EventAuth EventShape EventTable StateTables Store RedactionService StateGroups Bookkeeping Inbound.
Open Scope Z_scope.

(** * Names *)

Definition identifier_server_name (identifier : string) : string :=
  if (String.length identifier <? 2)%nat
     || negb (match front identifier with
              | Some c => Ascii.eqb c "@" || Ascii.eqb c "!" || Ascii.eqb c "#"
              | None => false
              end) then EmptyString
  else
    match find_char ":" identifier with
    | None => EmptyString
    | Some separator =>
        if (String.length identifier <=? separator + 1)%nat then EmptyString else drop_str (separator + 1) identifier
    end.

Definition user_id_server_name (user_id : string) : string :=
  if starts_with "@" user_id then identifier_server_name user_id else EmptyString.

Definition server_name_from_user_id (user_id : string) : string := user_id_server_name user_id.

Definition content_membership (event : Object) : option string :=
  object_member_as_object event "content" ≫= fun content => string_member content "membership".

(** * Membership rows *)

Definition find_invite (s : PersistentStore) (room_id user_id : string) : option PersistentInvite :=
  List.find (invite_is room_id user_id) (invites s).

Definition room_has_current_local_interest (s : PersistentStore) (server_name room_id : string) : bool :=
  existsb (fun row =>
    (mb_room_id row =s room_id) && starts_with "@" (mb_user_id row)
    && match find_char ":" (mb_user_id row) with
       | None => false
       | Some colon => (1 <? colon)%nat && (drop_str (colon + 1) (mb_user_id row) =s server_name)
       end
    && ((mb_membership row =s "join") || (mb_membership row =s "invite") || (mb_membership row =s "knock")))
    (memberships (members s)).

Definition concerns_local_member_with_row (s : PersistentStore) (server_name : string) (envelope : InboundPduEnvelope) : bool :=
  let target := default EmptyString (in_state_key envelope) in
  if (in_event_type envelope <>s "m.room.member") || empty target || (server_name_from_user_id target <>s server_name)
  then false
  else existsb (membership_row_is (in_room_id envelope) target) (memberships (members s)).

(** * Stored copies *)

Inductive StoredCopy : Type := copy_none | copy_in_room | copy_in_other_room.

Definition stored_copy_of (s : PersistentStore) (room_id event_id : string) : StoredCopy :=
  match find event_id (events s) with
  | None => copy_none
  | Some existing => if ev_room_id existing =s room_id then copy_in_room else copy_in_other_room
  end.

(** * Auth maps *)

Record AuthEventSlots : Type := {
  slot_sender : string;
  slot_target_state_key : string;
  slot_event_type : string;
  slot_third_party_invite_token : string;
  slot_authorising_user : string
}.

Definition fill_auth_event_slot (load : string -> Value) (slots : AuthEventSlots) (type state_key event_id : string)
    (map : AuthEventMap) : AuthEventMap :=
  let map :=
    if (type =s "m.room.create") && empty state_key then
      {| create := load event_id; create_event_id := event_id; power_levels := power_levels map; join_rules := join_rules map;
         sender_member := sender_member map; target_member := target_member map;
         authorising_user_member := authorising_user_member map; third_party_invite := third_party_invite map |}
    else if (type =s "m.room.power_levels") && empty state_key then
      {| create := create map; create_event_id := create_event_id map; power_levels := load event_id;
         join_rules := join_rules map; sender_member := sender_member map; target_member := target_member map;
         authorising_user_member := authorising_user_member map; third_party_invite := third_party_invite map |}
    else if (type =s "m.room.join_rules") && empty state_key then
      {| create := create map; create_event_id := create_event_id map; power_levels := power_levels map;
         join_rules := load event_id; sender_member := sender_member map; target_member := target_member map;
         authorising_user_member := authorising_user_member map; third_party_invite := third_party_invite map |}
    else if (type =s "m.room.member") && (state_key =s slot_sender slots) then
      {| create := create map; create_event_id := create_event_id map; power_levels := power_levels map;
         join_rules := join_rules map; sender_member := load event_id; target_member := target_member map;
         authorising_user_member := authorising_user_member map; third_party_invite := third_party_invite map |}
    else if (type =s "m.room.member") && (slot_event_type slots =s "m.room.member")
            && (state_key =s slot_target_state_key slots) then
      {| create := create map; create_event_id := create_event_id map; power_levels := power_levels map;
         join_rules := join_rules map; sender_member := sender_member map; target_member := load event_id;
         authorising_user_member := authorising_user_member map; third_party_invite := third_party_invite map |}
    else if (type =s "m.room.third_party_invite") && negb (empty (slot_third_party_invite_token slots))
            && (state_key =s slot_third_party_invite_token slots) then
      {| create := create map; create_event_id := create_event_id map; power_levels := power_levels map;
         join_rules := join_rules map; sender_member := sender_member map; target_member := target_member map;
         authorising_user_member := authorising_user_member map; third_party_invite := load event_id |}
    else map in
  if negb (empty (slot_authorising_user slots)) && (type =s "m.room.member") && (state_key =s slot_authorising_user slots) then
    {| create := create map; create_event_id := create_event_id map; power_levels := power_levels map;
       join_rules := join_rules map; sender_member := sender_member map; target_member := target_member map;
       authorising_user_member := load event_id; third_party_invite := third_party_invite map |}
  else map.

Section Checks.
Context `{Yyjson}.

Definition load_event (s : PersistentStore) (event_id : string) : Value :=
  match find event_id (events s) with
  | None => VNull
  | Some event => match parse_lossless (ev_json event) with POk value => value | PErr _ => VNull end
  end.

Definition build_auth_event_map_from_entries (s : PersistentStore) (entries : list Entry)
    (sender target_state_key event_type token authorising_user : string) : AuthEventMap :=
  let slots := {| slot_sender := sender; slot_target_state_key := target_state_key; slot_event_type := event_type;
                  slot_third_party_invite_token := token; slot_authorising_user := authorising_user |} in
  foldl (fun map entry => fill_auth_event_slot (load_event s) slots (ge_event_type entry) (ge_state_key entry)
                            (ge_event_id entry) map) empty_auth_event_map entries.

(** [state_entries_for_room] is [current_state_entries]. *)
Definition build_pdu_auth_event_map (s : PersistentStore) (room_id sender target_state_key event_type token authorising_user : string)
    : AuthEventMap :=
  build_auth_event_map_from_entries s (current_state_entries s room_id) sender target_state_key event_type token authorising_user.

Definition state_entries_from_named_events (s : PersistentStore) (auth_event_ids : list string) : list Entry :=
  omap (fun id =>
    match find id (events s) with
    | None => None
    | Some event =>
        match parse_lossless (ev_json event) with
        | POk (VObject obj) =>
            match string_member obj "type", string_member obj "state_key" with
            | Some type, Some state_key => Some {| ge_state_group_id := EmptyString; ge_event_type := type;
                                                   ge_state_key := state_key; ge_event_id := id |}
            | _, _ => None
            end
        | _ => None
        end
    end) auth_event_ids.

Definition create_row_of (s : PersistentStore) (room_id : string) : option PersistentStateEvent :=
  List.find (fun row => (st_room_id row =s room_id) && (st_event_type row =s "m.room.create") && empty (st_state_key row))
    (state (current s)).

Definition create_event_json_for_room (s : PersistentStore) (room_id : string) : Value :=
  match create_row_of s room_id with None => VNull | Some row => load_event s (st_event_id row) end.

Definition is_null (v : Value) : bool := match v with VNull => true | _ => false end.

Definition set_create (event : Value) (event_id : string) (map : AuthEventMap) : AuthEventMap :=
  {| create := event; create_event_id := event_id; power_levels := power_levels map; join_rules := join_rules map;
     sender_member := sender_member map; target_member := target_member map;
     authorising_user_member := authorising_user_member map; third_party_invite := third_party_invite map |}.

Definition fill_create_from_room_state (s : PersistentStore) (room_id : string) (map : AuthEventMap) : AuthEventMap :=
  if is_null (create map) then
    match create_row_of s room_id with
    | None => map
    | Some row => set_create (create_event_json_for_room s room_id) (st_event_id row) map
    end
  else map.

(** * Auth events selection *)

Inductive AuthEventsSelectionCheck : Type := selection_ok | selection_unresolvable | selection_disallowed.

Fixpoint check_selection (s : PersistentStore) (room_id : string) (permitted seen : list (string * string))
    (auth_event_ids : list string) : AuthEventsSelectionCheck :=
  match auth_event_ids with
  | [] => selection_ok
  | id :: rest =>
      match find id (events s) with
      | None => selection_unresolvable
      | Some event =>
          if ev_status event =s "rejected" then selection_disallowed
          else if ev_room_id event <>s room_id then selection_disallowed
          else
            match parse_lossless (ev_json event) with
            | POk (VObject obj) =>
                match string_member obj "type", string_member obj "state_key" with
                | Some type, Some named_state_key =>
                    let key := (type, named_state_key) in
                    if bool_decide (key ∈ seen) then selection_disallowed
                    else if negb (bool_decide (key ∈ permitted)) then selection_disallowed
                    else check_selection s room_id permitted (seen ++ [key]) rest
                | _, _ => selection_disallowed
                end
            | _ => selection_disallowed
            end
      end
  end.

Definition validate_auth_events_selection (s : PersistentStore) (room_id : string) (pdu : Value) (policy : RoomVersionPolicy)
    (event_type sender : string) (state_key : option string) (token : string) (auth_event_ids : list string)
    : AuthEventsSelectionCheck :=
  check_selection s room_id (permitted_auth_event_keys pdu policy event_type sender state_key token) [] auth_event_ids.

(** * Residency *)

Definition room_state_is_current (s : PersistentStore) (room_id local_server : string) : bool :=
  match stored_room_version s room_id with
  | None => false
  | Some _ =>
      existsb (fun row => (mb_room_id row =s room_id) && (mb_membership row =s "join")
                          && (user_id_server_name (mb_user_id row) =s local_server)) (memberships (members s))
  end.
End Checks.
