(* ===== verification/Ingestion.v ===== *)
(** Ingestion of a received event (homeserver/local_http_router.cpp, with
    defer_unresolved_pdu and wake_deferred_pdus_waiting_for of
    homeserver/deferred_pdu_retry.cpp).

    The runtime is shared: wherever the code holds no lock, or only the room's,
    [Others] says what the rest of the server does to it meanwhile, the fetching of
    missing history included.  Whether the backend takes a transaction is a
    parameter.  Notifications, audit and logging are left out, as are the roster
    and the device lists but for the stream IDs they take. *)
From S2P Require Import Prelude CppStd JsonValue JsonSerializer JsonParser RoomVersion Signing EventAuth EventShape Redaction EventId EventTable StateTables Store StoreWrites RedactionService StateGroups EventSource Bookkeeping Inbound DeferredWake ReceiptChecks.
Open Scope Z_scope.

(** * Data *)

Inductive PduIngestionStatus : Type :=
  | pdu_accepted | pdu_rejected_auth | pdu_rejected_state_conflict | pdu_rejected_invalid | pdu_internal_error
  | pdu_missing_prev_state | pdu_soft_failed | pdu_main_overloaded | pdu_deferred | pdu_already_stored | pdu_rejected_acl.

Record PduIngestionResult : Type := {
  pr_status : PduIngestionStatus;
  pr_reason : string;
  pr_accepted_stream_ordering : Z;
  pr_accepted_sync_stream_id : Z
}.

Definition answer (status : PduIngestionStatus) (reason : string) : PduIngestionResult :=
  {| pr_status := status; pr_reason := reason; pr_accepted_stream_ordering := 0; pr_accepted_sync_stream_id := 0 |}.

Record PendingFederatedJoin : Type := { pj_pdus : list InboundPduEnvelope; pj_json_bytes : Z }.

Record Runtime : Type := {
  rt_store : PersistentStore;
  rt_deferred : DeferredPdus;
  rt_next_stream_ordering : Z;
  rt_pending_federated_joins : gmap string PendingFederatedJoin;
  rt_deferred_pdu_next_attempt : gmap string Z
}.

Record Config : Type := {
  cfg_server_name : string;
  cfg_state_resolution_limits : StateResolutionLimits;
  cfg_pending_join_max_pdus : nat;
  cfg_pending_join_max_bytes : Z
}.

Definition with_store (s : PersistentStore) (rt : Runtime) : Runtime :=
  {| rt_store := s; rt_deferred := rt_deferred rt; rt_next_stream_ordering := rt_next_stream_ordering rt;
     rt_pending_federated_joins := rt_pending_federated_joins rt;
     rt_deferred_pdu_next_attempt := rt_deferred_pdu_next_attempt rt |}.

Definition with_deferred (d : DeferredPdus) (rt : Runtime) : Runtime :=
  {| rt_store := rt_store rt; rt_deferred := d; rt_next_stream_ordering := rt_next_stream_ordering rt;
     rt_pending_federated_joins := rt_pending_federated_joins rt;
     rt_deferred_pdu_next_attempt := rt_deferred_pdu_next_attempt rt |}.

(** * Counters *)

Definition with_sync_stream_id (id : Z) (s : PersistentStore) : PersistentStore :=
  {| events := events s; redactions := redactions s; current := current s; transitions := transitions s; graph := graph s;
     members := members s; invites := invites s; Store.state_groups := Store.state_groups s;
     state_group_state := state_group_state s; event_state_groups := event_state_groups s;
     forward_extremities := forward_extremities s; next_sync_stream_id := id |}.

(** [None] is the exception of the counter at its ceiling. *)
Definition allocate_sync_stream_id (s : PersistentStore) : option (Z * PersistentStore) :=
  if max_sync_stream_id <=? next_sync_stream_id s then None
  else let id := next_sync_stream_id s + 1 in Some (id, with_sync_stream_id id s).

Definition allocate_stream_ordering (rt : Runtime) : Z * Runtime :=
  (rt_next_stream_ordering rt,
   {| rt_store := rt_store rt; rt_deferred := rt_deferred rt;
      rt_next_stream_ordering := (rt_next_stream_ordering rt + 1) mod 2 ^ 64;
      rt_pending_federated_joins := rt_pending_federated_joins rt;
      rt_deferred_pdu_next_attempt := rt_deferred_pdu_next_attempt rt |}).

(** * Duplicates *)

Definition answer_for_stored_pdu (s : PersistentStore) (envelope : InboundPduEnvelope) : option PduIngestionResult :=
  match stored_copy_of s (in_room_id envelope) (in_event_id envelope) with
  | copy_none => None
  | copy_in_room => Some (answer pdu_already_stored "event already stored")
  | copy_in_other_room => Some (answer pdu_rejected_invalid "event ID is already used by an event in another room")
  end.

(** What the rest of the server does to the runtime while this call holds no
    lock, or only the room's. *)
Record Others : Type := {
  after_duplicate_check : Runtime -> Runtime;
  after_rescission : Runtime -> Runtime;
  after_admission : Runtime -> Runtime;
  during_backfill : Runtime -> Runtime;
  backfill_locally_denied : Runtime -> bool;
  during_commit : Runtime -> Runtime;
  before_wake : Runtime -> Runtime;
  (** The sync stream IDs that the device-list rows of a membership take; [None]
      when the room has no roster.  They stay within the reserve that was checked
      before the event was stored. *)
  roster_stream_ids : Runtime -> option nat
}.

Section Ingestion.
Context `{Yyjson} `{Libc} `{Sodium} `{IterationOrder}.
Context (config : Config) (backend : PersistentStore -> list Statement -> bool) (others : Others).

Let limits : StateResolutionLimits := cfg_state_resolution_limits config.

(** * Retaining *)

Definition defer_unresolved_pdu (now : Z) (envelope : InboundPduEnvelope) (stored_json : string) (rt : Runtime) : bool * Runtime :=
  if empty (in_origin envelope) then (false, rt)
  else
    let existing := find_row (in_event_id envelope) (rt_deferred rt) in
    let row := {| dp_event_id := in_event_id envelope; dp_room_id := in_room_id envelope; dp_origin := in_origin envelope;
                  dp_pdu_json := stored_json; dp_received_at_ms := from_option dp_received_at_ms now existing;
                  dp_attempts := from_option dp_attempts 0 existing |} in
    let '(result, d) := upsert_deferred_pdu backend (rt_store rt) row (rt_deferred rt) in
    (match result with upsert_inserted | upsert_updated => true | _ => false end, with_deferred d rt).

Definition defer_unresolved (now : Z) (envelope : InboundPduEnvelope) (stored_json reason : string) (rt : Runtime)
    : PduIngestionResult * Runtime :=
  let '(kept, rt) := defer_unresolved_pdu now envelope stored_json rt in
  (if kept then answer pdu_deferred (reason +:+ "; retained for retry") else answer pdu_missing_prev_state reason, rt).

(** * The event as it will be stored *)

(** The room version that governs the event; the left is the answer. *)
Definition governing_policy (stored_version : option string) (envelope : InboundPduEnvelope)
    : PduIngestionResult + RoomVersionPolicy :=
  if match stored_version with
     | Some version => negb (empty (in_room_version envelope)) && (in_room_version envelope <>s version)
     | None => false
     end then inl (answer pdu_rejected_invalid "PDU was verified under another room version")
  else
    match find_room_version_policy
            (default (if empty (in_room_version envelope) then "12" else in_room_version envelope) stored_version) with
    | None => inl (answer pdu_rejected_invalid "unknown room version")
    | Some policy => inr policy
    end.

(** The event and its JSON, redacted when the content hash does not match. *)
Definition effective_event (envelope : InboundPduEnvelope) (policy : RoomVersionPolicy) : PduIngestionResult + (Value * string) :=
  match parse_lossless (in_json envelope) with
  | PErr _ => inl (answer pdu_rejected_invalid "invalid PDU JSON")
  | POk value =>
      if verify_pdu_content_hash value then inr (value, in_json envelope)
      else
        match redact_event value policy with
        | RedactionError error =>
            inl (answer pdu_rejected_invalid ("content hash mismatch and event could not be redacted: " +:+ error))
        | Redacted redacted =>
            match serialize_canonical redacted with
            | SErr _ => inl (answer pdu_rejected_invalid "failed to serialize redacted event")
            | SOk output => inr (redacted, output)
            end
        end
  end.

(** * Withdrawn invites *)

(** Stopped by an exception, or an answer when the event withdrew an invite. *)
Definition rescind_invite_from_inviter (envelope : InboundPduEnvelope) (stored_json : string) (rt : Runtime)
    : option (option PduIngestionResult * Runtime) :=
  let target := default EmptyString (in_state_key envelope) in
  if (in_event_type envelope <>s "m.room.member") || empty target || (in_sender envelope =s target) then Some (None, rt)
  else if negb (match parse_lossless stored_json with
                | POk (VObject event) => bool_decide (content_membership event = Some "leave")
                | _ => false
                end) then Some (None, rt)
  else
    let s := rt_store rt in
    if (server_name_from_user_id target <>s cfg_server_name config)
       || room_state_is_current s (in_room_id envelope) (cfg_server_name config) then Some (None, rt)
    else
      match List.find (membership_row_is (in_room_id envelope) target) (memberships (members s)),
            find_invite s (in_room_id envelope) target with
      | Some row, Some invite =>
          if (mb_membership row <>s "invite")
             || (server_name_from_user_id (iv_sender_user_id invite) <>s server_name_from_user_id (in_sender envelope))
             || (negb (empty (in_origin envelope)) && (in_origin envelope <>s server_name_from_user_id (in_sender envelope)))
          then Some (None, rt)
          else
            match allocate_sync_stream_id s with
            | None => None
            | Some (_, s) =>
                let '(stream_ordering, rt) := allocate_stream_ordering (with_store s rt) in
                let leave := {| ev_event_id := in_event_id envelope; ev_room_id := in_room_id envelope;
                                ev_sender_user_id := in_sender envelope; ev_json := stored_json; ev_depth := in_depth envelope;
                                ev_stream_ordering := stream_ordering; ev_prev_event_ids := in_prev_event_ids envelope;
                                ev_auth_event_ids := in_auth_event_ids envelope; ev_signatures := [];
                                ev_status := "outlier" |} in
                let row := {| st_room_id := in_room_id envelope; st_event_type := "m.room.member"; st_state_key := target;
                              st_event_id := in_event_id envelope |} in
                let projection := {| mp_user_id := target; mp_membership := "leave"; mp_stream_ordering := stream_ordering;
                                     mp_invite := None |} in
                let '(stored, s) := store_event_with_state backend (redaction_observer backend) leave (Some row) (Some projection)
                                      (rt_store rt) in
                Some (Some (if stored then answer pdu_accepted EmptyString
                            else answer pdu_internal_error "invite rescission persistence failed"), with_store s rt)
            end
      | _, _ => Some (None, rt)
      end.

(** * Admission *)

Definition queue_for_join (envelope : InboundPduEnvelope) (rt : Runtime) : PduIngestionResult * Runtime :=
  match rt_pending_federated_joins rt !! in_room_id envelope with
  | None => (answer pdu_rejected_invalid "unsolicited PDU for an uninterested room", rt)
  | Some queue =>
      let size := Z.of_nat (String.length (in_json envelope)) in
      if existsb (fun pdu => in_event_id pdu =s in_event_id envelope) (pj_pdus queue)
      then (answer pdu_deferred "PDU already deferred until join commits", rt)
      else if (cfg_pending_join_max_pdus config <=? length (pj_pdus queue))%nat
              || (cfg_pending_join_max_bytes config <? pj_json_bytes queue)
              || (cfg_pending_join_max_bytes config - pj_json_bytes queue <? size)
      then (answer pdu_main_overloaded "pending join PDU capacity exhausted", rt)
      else (answer pdu_deferred "PDU deferred until outbound join commits",
            {| rt_store := rt_store rt; rt_deferred := rt_deferred rt; rt_next_stream_ordering := rt_next_stream_ordering rt;
               rt_pending_federated_joins :=
                 <[in_room_id envelope := {| pj_pdus := pj_pdus queue ++ [envelope];
                                             pj_json_bytes := pj_json_bytes queue + size |}]> (rt_pending_federated_joins rt);
               rt_deferred_pdu_next_attempt := rt_deferred_pdu_next_attempt rt |})
  end.

Definition admitted (envelope : InboundPduEnvelope) (rt : Runtime) : bool :=
  room_has_current_local_interest (rt_store rt) (cfg_server_name config) (in_room_id envelope)
  || concerns_local_member_with_row (rt_store rt) (cfg_server_name config) envelope.

(** * The receipt checks *)

Inductive ReceiptOutcome : Type := receipt_accepted | receipt_rejected | receipt_soft_failed.

Definition auth_map_of_entries (s : PersistentStore) (envelope : InboundPduEnvelope) (pdu : Value) (entries : list Entry)
    : AuthEventMap :=
  build_auth_event_map_from_entries s entries (in_sender envelope) (default EmptyString (in_state_key envelope))
    (in_event_type envelope) (third_party_invite_token pdu) (join_authorising_user pdu).

(** Step 4: the auth events it names. *)
Definition named_auth_map (s : PersistentStore) (envelope : InboundPduEnvelope) (pdu : Value) (policy : RoomVersionPolicy)
    : AuthEventMap :=
  let map := auth_map_of_entries s envelope pdu (state_entries_from_named_events s (in_auth_event_ids envelope)) in
  if create_event_is_room_id policy && is_null (create map)
  then set_create (create_event_json_for_room s (in_room_id envelope)) (create_event_id map) map else map.

(** Step 5: the state before it. *)
Definition state_before_map (s : PersistentStore) (envelope : InboundPduEnvelope) (pdu : Value) (state : list Entry) : AuthEventMap :=
  fill_create_from_room_state s (in_room_id envelope) (auth_map_of_entries s envelope pdu state).

(** Step 6: current state. *)
Definition current_state_auth_map (s : PersistentStore) (envelope : InboundPduEnvelope) (pdu : Value) : AuthEventMap :=
  fill_create_from_room_state s (in_room_id envelope)
    (build_pdu_auth_event_map s (in_room_id envelope) (in_sender envelope) (default EmptyString (in_state_key envelope))
       (in_event_type envelope) (third_party_invite_token pdu) (join_authorising_user pdu)).

(** The left is the reason to wait; the right the outcome, its reason and the
    state before the event. *)
Definition receipt_checks (s : PersistentStore) (envelope : InboundPduEnvelope) (pdu : Value) (policy : RoomVersionPolicy)
    : string + (ReceiptOutcome * string * list Entry) :=
  match validate_auth_events_selection s (in_room_id envelope) pdu policy (in_event_type envelope) (in_sender envelope)
          (in_state_key envelope) (third_party_invite_token pdu) (in_auth_event_ids envelope) with
  | selection_unresolvable => inl "an auth_event this PDU names has no recorded event; awaiting backfill"
  | selection =>
      let '(outcome, why) :=
        match selection with
        | selection_ok =>
            let decision := authorize_event_against_auth_events pdu policy (named_auth_map s envelope pdu policy) in
            if negb (allowed decision)
            then (receipt_rejected, "event auth denied against its own auth_events: " +:+ reason decision)
            else (receipt_accepted, EmptyString)
        | _ => (receipt_rejected, "auth_events selection is not permitted for this event")
        end in
      match compute_state_before s (in_room_id envelope) policy (in_prev_event_ids envelope) limits with
      | before_failed _ => inl "no recorded state group for a prev_event; awaiting backfill"
      | before_ok before =>
          match outcome with
          | receipt_accepted =>
              let decision := authorize_event_against_auth_events pdu policy (state_before_map s envelope pdu before) in
              if negb (allowed decision)
              then inr (receipt_rejected, "event auth denied against state before the event: " +:+ reason decision, before)
              else
                let decision := authorize_event_against_auth_events pdu policy (current_state_auth_map s envelope pdu) in
                if negb (allowed decision)
                then inr (receipt_soft_failed, "event auth denied against current state (soft failure): " +:+ reason decision, before)
                else inr (receipt_accepted, EmptyString, before)
          | _ => inr (outcome, why, before)
          end
      end
  end.

(** * Storing *)

Definition status_of (outcome : ReceiptOutcome) : string :=
  match outcome with receipt_rejected => "rejected" | receipt_soft_failed => "soft_failed" | receipt_accepted => "accepted" end.

Definition ingestion_status_of (outcome : ReceiptOutcome) : PduIngestionStatus :=
  match outcome with
  | receipt_rejected => pdu_rejected_auth | receipt_soft_failed => pdu_soft_failed | receipt_accepted => pdu_accepted
  end.

Definition becomes_forward_extremity (s : PersistentStore) (envelope : InboundPduEnvelope) (outcome : ReceiptOutcome) : bool :=
  match outcome with
  | receipt_accepted =>
      match in_state_key envelope with
      | Some _ => true
      | None => forward_extremities_stay_bounded s (in_room_id envelope) (in_prev_event_ids envelope) limits
      end
  | _ => false
  end.

Definition received_state_row (envelope : InboundPduEnvelope) (outcome : ReceiptOutcome) : option PersistentStateEvent :=
  match outcome, in_state_key envelope with
  | receipt_accepted, Some key => Some {| st_room_id := in_room_id envelope; st_event_type := in_event_type envelope;
                                          st_state_key := key; st_event_id := in_event_id envelope |}
  | _, _ => None
  end.

Definition received_event (envelope : InboundPduEnvelope) (stored_json : string) (outcome : ReceiptOutcome) (stream_ordering : Z)
    : PersistentEvent :=
  {| ev_event_id := in_event_id envelope; ev_room_id := in_room_id envelope; ev_sender_user_id := in_sender envelope;
     ev_json := stored_json; ev_depth := in_depth envelope; ev_stream_ordering := stream_ordering;
     ev_prev_event_ids := in_prev_event_ids envelope; ev_auth_event_ids := in_auth_event_ids envelope;
     ev_signatures := in_signatures envelope; ev_status := status_of outcome |}.

Definition received_membership (envelope : InboundPduEnvelope) (pdu : Value) (outcome : ReceiptOutcome) : string :=
  match outcome, in_state_key envelope with
  | receipt_accepted, Some _ =>
      if in_event_type envelope =s "m.room.member"
      then default EmptyString (value_is_object pdu ≫= content_membership) else EmptyString
  | _, _ => EmptyString
  end.

Definition received_projection (envelope : InboundPduEnvelope) (membership : string) (stream_ordering : Z)
    : option MembershipProjection :=
  if empty membership then None
  else Some {| mp_user_id := default EmptyString (in_state_key envelope); mp_membership := membership;
               mp_stream_ordering := stream_ordering; mp_invite := None |}.

Definition received_state_after (envelope : InboundPduEnvelope) (outcome : ReceiptOutcome) (before : list Entry) : list Entry :=
  match outcome with
  | receipt_rejected => before
  | _ => compute_state_after before (in_event_id envelope) (in_event_type envelope) (in_state_key envelope)
  end.

(** The after-state group, the extremities and current state; a failure of any of
    them is only logged. *)
Definition book_received (envelope : InboundPduEnvelope) (policy : RoomVersionPolicy) (after : list Entry) (tip : bool)
    (s : PersistentStore) : PersistentStore :=
  let '(state_group, s) := record_event_state backend (in_room_id envelope) (in_event_id envelope) (in_prev_event_ids envelope)
                             after tip s in
  match state_group with
  | None => s
  | Some _ => (recompute_current_state backend (in_room_id envelope) policy limits s).2
  end.

(** Device lists take stream IDs when the membership of a room with a roster changes. *)
Definition follow_roster (membership : string) (result : PduIngestionResult) (rt : Runtime) : PduIngestionResult * Runtime :=
  if empty membership then (result, rt)
  else
    match roster_stream_ids others rt with
    | None => (result, rt)
    | Some n =>
        let s := with_sync_stream_id (next_sync_stream_id (rt_store rt) + Z.of_nat n) (rt_store rt) in
        ({| pr_status := pr_status result; pr_reason := pr_reason result;
            pr_accepted_stream_ordering := pr_accepted_stream_ordering result;
            pr_accepted_sync_stream_id := Z.max (pr_accepted_sync_stream_id result) (next_sync_stream_id s) |},
         with_store s rt)
    end.

Definition store_received (envelope : InboundPduEnvelope) (pdu : Value) (stored_json : string) (policy : RoomVersionPolicy)
    (outcome : ReceiptOutcome) (why : string) (before : list Entry) (sync_stream_id : Z) (rt : Runtime)
    : PduIngestionResult * Runtime :=
  let tip := becomes_forward_extremity (rt_store rt) envelope outcome in
  let '(stream_ordering, rt) := allocate_stream_ordering rt in
  let membership := received_membership envelope pdu outcome in
  match prepare_store_event_with_state (rt_store rt) (received_event envelope stored_json outcome stream_ordering)
          (received_state_row envelope outcome) (received_projection envelope membership stream_ordering) with
  | None => (answer pdu_internal_error "event persistence pre-check failed", rt)
  | Some (prepared, statements) =>
      let committed := commit_persistent_transaction backend (rt_store rt) statements in
      let rt := during_commit others rt in
      if negb committed then (answer pdu_internal_error "event persistence backend rejected transaction", rt)
      else
        let s := apply_store_event_with_state (redaction_observer backend) prepared (rt_store rt) in
        let s := book_received envelope policy (received_state_after envelope outcome before) tip s in
        follow_roster membership
          {| pr_status := ingestion_status_of outcome; pr_reason := why; pr_accepted_stream_ordering := stream_ordering;
             pr_accepted_sync_stream_id := sync_stream_id |} (with_store s rt)
  end.

(** * The whole *)

Definition misses_references (rt : Runtime) (envelope : InboundPduEnvelope) : bool :=
  let missing := find_missing_event_references (rt_store rt) (in_auth_event_ids envelope) (in_prev_event_ids envelope) in
  match missing_auth missing, missing_prev missing with [], [] => false | _, _ => true end.

(** Under the room stripe and the runtime mutex, with no history missing. *)
Definition judge_and_store (now : Z) (envelope : InboundPduEnvelope) (pdu : Value) (stored_json : string)
    (policy : RoomVersionPolicy) (sync_stream_id : Z) (rt : Runtime) : PduIngestionResult * Runtime :=
  if misses_references rt envelope
  then defer_unresolved now envelope stored_json "missing PDU references remain after backfill" rt
  else
    match answer_for_stored_pdu (rt_store rt) envelope with
    | Some stored => (stored, rt)
    | None =>
        match receipt_checks (rt_store rt) envelope pdu policy with
        | inl why => defer_unresolved now envelope stored_json why rt
        | inr (outcome, why, before) => store_received envelope pdu stored_json policy outcome why before sync_stream_id rt
        end
    end.

(** Under the room stripe: fetch what is missing, then judge. *)
Definition place (now : Z) (envelope : InboundPduEnvelope) (pdu : Value) (stored_json : string)
    (policy : RoomVersionPolicy) (sync_stream_id : Z) (rt : Runtime) : PduIngestionResult * Runtime :=
  if misses_references rt envelope then
    if empty (in_origin envelope)
    then (answer pdu_missing_prev_state "missing PDU references and no origin to backfill from", rt)
    else if backfill_locally_denied others rt
    then (answer pdu_main_overloaded "backfill key-resolution admission deferred", during_backfill others rt)
    else judge_and_store now envelope pdu stored_json policy sync_stream_id (during_backfill others rt)
  else judge_and_store now envelope pdu stored_json policy sync_stream_id rt.

(** [None] is the exception of an exhausted counter, with the runtime as it then is. *)
Definition ingest_pdu_event_locked (now : Z) (envelope : InboundPduEnvelope) (rt : Runtime)
    : option PduIngestionResult * Runtime :=
  if empty (in_room_id envelope) then (Some (answer pdu_rejected_invalid "missing room_id"), rt)
  else
    match answer_for_stored_pdu (rt_store rt) envelope with
    | Some stored => (Some stored, rt)
    | None =>
        let stored_version := stored_room_version (rt_store rt) (in_room_id envelope) in
        let rt := after_duplicate_check others rt in
        match governing_policy stored_version envelope with
        | inl refusal => (Some refusal, rt)
        | inr policy =>
            match effective_event envelope policy with
            | inl refusal => (Some refusal, rt)
            | inr (pdu, stored_json) =>
                match rescind_invite_from_inviter envelope stored_json rt with
                | None => (None, rt)
                | Some (Some rescinded, rt) => (Some rescinded, rt)
                | Some (None, rt) =>
                    let rt := after_rescission others rt in
                    if negb (admitted envelope rt) then let '(queued, rt) := queue_for_join envelope rt in (Some queued, rt)
                    else
                      match allocate_sync_stream_id (rt_store rt) with
                      | None => (None, rt)
                      | Some (sync_stream_id, s) =>
                          let rt := after_admission others (with_store s rt) in
                          let '(result, rt) := place now envelope pdu stored_json policy sync_stream_id rt in
                          (Some result, rt)
                      end
                end
            end
        end
    end.

(** Wakes what waits for a stored event. *)
Definition wake_deferred_pdus_waiting_for (room_id event_id : string) (rt : Runtime) : Runtime :=
  let '(woken, d) := take_deferred_pdus_awaiting (rt_store rt) room_id event_id (rt_deferred rt) in
  {| rt_store := rt_store rt; rt_deferred := d; rt_next_stream_ordering := rt_next_stream_ordering rt;
     rt_pending_federated_joins := rt_pending_federated_joins rt;
     rt_deferred_pdu_next_attempt := foldl (fun m id => delete id m) (rt_deferred_pdu_next_attempt rt) woken |}.

Definition stores_the_event (status : PduIngestionStatus) : bool :=
  match status with pdu_accepted | pdu_soft_failed | pdu_rejected_auth => true | _ => false end.

Definition ingest_pdu_event (now : Z) (envelope : InboundPduEnvelope) (rt : Runtime) : PduIngestionResult * Runtime :=
  let '(result, rt) := ingest_pdu_event_locked now envelope rt in
  match result with
  | None => (answer pdu_internal_error "sync stream counter exhausted", rt)
  | Some result =>
      (result, if stores_the_event (pr_status result)
               then wake_deferred_pdus_waiting_for (in_room_id envelope) (in_event_id envelope) (before_wake others rt) else rt)
  end.

Definition pdu_event_already_stored (rt : Runtime) (room_id event_id : string) : bool :=
  match stored_copy_of (rt_store rt) room_id event_id with copy_in_room => true | _ => false end.
End Ingestion.
