(* ===== verification/IngestionEffects.v ===== *)
(** What ingesting a received event does to the server: which events it judges how,
    what a judged event leaves in the store, and that every other answer leaves
    the room alone. *)
From S2P Require Import Prelude CppStd JsonValue JsonSerializer JsonParser RoomVersion Signing EventAuth EventShape Redaction EventId EventTable EventTableInv EventTableAdd StateTables Store StoreLookup HistoryVisibility RedactionService RedactionFlow StoreWrites StateGroups StateGroupsWrite EventSource StateAuth StateRes Bookkeeping BookkeepingBase BookkeepingStore BookkeepingLocal Inbound DeferredWake ReceiptChecks Ingestion.
Open Scope Z_scope.

Section Books.
Context `{Yyjson} `{Libc} `{Sodium} `{IterationOrder}.
Context (backend : PersistentStore -> list Statement -> bool).
Hypothesis Hkeys : keeps_group_keys backend.

(** ** Recording the state of an event *)

(** The books before and after the state of [id] was recorded, in part or whole. *)
Record recorded (s s' : PersistentStore) (room id : string) (prev : list string) (after : list Entry) (tip : bool) : Prop := {
  rc_books : books_ok s';
  rc_events : events s' = events s;
  rc_current : current s' = current s;
  rc_other_groups : forall other, other <> id -> find_event_state_group s' other = find_event_state_group s other;
  rc_states : forall g full, read_state_group_full_state s g = Some full -> read_state_group_full_state s' g = Some full;
  rc_group : find_event_state_group s' id = find_event_state_group s id
    \/ exists g, find_event_state_group s' id = Some g /\ group_map s' g = Some (to_state_group_map after);
  rc_tips : forall r, find_forward_extremities s' r = find_forward_extremities s r
    \/ tip = true /\ r = room /\ find_forward_extremities s' r = extremities_after s room id prev
}.

Lemma group_written_frame room new parent full s : let s' := (create_or_reuse_state_group backend room new parent full s).2 in
  events s' = events s /\ current s' = current s /\ event_state_groups s' = event_state_groups s
  /\ forward_extremities s' = forward_extremities s.
Proof.
  unfold create_or_reuse_state_group. destruct (prepare_state_group _ _ _ _ _) as [p|]; [|done].
  destruct (negb _); [done|]. apply apply_group_frame.
Qed.

(** Books survive a new group. *)
Lemma books_with_group room new parent full s : books_ok s -> NoDup (entry_key <$> full) ->
  let '(id, s') := create_or_reuse_state_group backend room new parent full s in
  books_ok s'
  /\ (forall g state, read_state_group_full_state s g = Some state -> read_state_group_full_state s' g = Some state)
  /\ (forall g, id = Some g -> group_map s' g = Some (to_state_group_map full)).
Proof.
  intros Hb Hn. pose proof (group_written backend s room new parent full (or_introl Hkeys) (bo_groups s Hb) Hn) as Hw.
  pose proof (group_written_frame room new parent full s) as Hf. simpl in Hf.
  destruct (create_or_reuse_state_group _ _ _ _ _ _) as [[g|] s']; simpl in Hf.
  - destruct Hw as (_ & Hwf & Hmap & Hreads & _), Hf as (F1 & F2 & F3 & F4). split; [|split; [done|by intros ? [= <-]]].
    split; [by rewrite F1; apply bo_table|by rewrite F2; apply bo_rows|done|by rewrite F3; apply bo_maps| |].
    + intros e x. unfold find_event_state_group. rewrite F3. intros Hx. destruct (recorded_state_readable s e x Hb Hx) as (st & Hst & _).
      eapply read_names_group. by apply Hreads.
    + intros r. unfold find_forward_extremities. rewrite F4. by apply bo_tips.
  - destruct Hw as [-> _]. done.
Qed.

Lemma books_with_mapping id g s : books_ok s -> is_Some (find_persistent_state_group s g) ->
  books_ok (apply_event_state_group id g s)
  /\ forall other, find_event_state_group (apply_event_state_group id g s) other =
       if decide (other = id) then Some g else find_event_state_group s other.
Proof.
  intros Hb Hg. assert (forall other, find_event_state_group (apply_event_state_group id g s) other =
    if decide (other = id) then Some g else find_event_state_group s other) as Hf.
  { intros other. unfold find_event_state_group. simpl. apply state_group_of_assigned. by apply bo_maps. }
  split; [|done]. destruct Hb as [B1 B2 B3 B4 B5 B6]. split; [done|done| |by apply assign_ok| |done].
  - by apply (well_grouped_frame s).
  - intros e x. rewrite Hf. destruct (decide _); [by intros [= <-]|apply B5].
Qed.

Lemma books_with_tip room id prev s : books_ok s -> books_ok (apply_forward_extremities_update room id prev s).
Proof.
  intros [B1 B2 B3 B4 B5 B6]. split; [done|done|by apply (well_grouped_frame s)|done|done|].
  intros r. rewrite extremities_updated. destruct (decide _) as [->|]; [by apply extremities_after_nodup|done].
Qed.

Lemma record_spec room id prev after tip s : books_ok s -> NoDup (entry_key <$> after) ->
  recorded s (record_event_state backend room id prev after tip s).2 room id prev after tip.
Proof.
  intros Hb Hn. unfold record_event_state, record_event_state_with_parent.
  set (parent := head prev ≫= find_event_state_group s).
  pose proof (books_with_group room ("sg:" +:+ id) parent after s Hb Hn) as Hg.
  pose proof (group_written_frame room ("sg:" +:+ id) parent after s) as Hf. simpl in Hf.
  destruct (create_or_reuse_state_group _ _ _ _ _ _) as [group s1]. simpl in Hf. destruct Hg as (G1 & G2 & G3), Hf as (F1 & F2 & F3 & F4).
  assert (forall e, find_event_state_group s1 e = find_event_state_group s e) as Hm by (intros e; unfold find_event_state_group; by rewrite F3).
  assert (forall r, find_forward_extremities s1 r = find_forward_extremities s r) as Ht by (intros r; unfold find_forward_extremities; by rewrite F4).
  assert (recorded s s1 room id prev after tip) as Hpart.
  { split; auto. }
  destruct group as [g|]; [|done]. specialize (G3 g eq_refl). unfold set_event_state_group.
  destruct (prepare_event_state_group id g); [|done]. destruct (commit_persistent_transaction _ _ _); [|done]. simpl.
  assert (is_Some (find_persistent_state_group s1 g)) as Hsome.
  { unfold group_map in G3. apply fmap_Some in G3 as (full & Hfull & _). by eapply read_names_group. }
  destruct (books_with_mapping id g s1 G1 Hsome) as [B2 M2]. set (s2 := apply_event_state_group id g s1) in *.
  assert (forall x full, read_state_group_full_state s x = Some full -> read_state_group_full_state s2 x = Some full) as Hread2.
  { intros x full Hx. rewrite read_group_entries, (group_entries_frame s1 s2), <- read_group_entries by done. by apply G2. }
  assert (group_map s2 g = Some (to_state_group_map after)) as Hmap2.
  { rewrite group_map_entries, (group_entries_frame s1 s2), <- group_map_entries by done. done. }
  assert (recorded s s2 room id prev after tip) as Hpart2.
  { split; [done|done|done| |done| |].
    - intros other Hne. by rewrite M2, decide_False, Hm.
    - right. exists g. by rewrite M2, decide_True.
    - intros r. left. apply Ht. }
  unfold update_forward_extremities. destruct tip; [|done]. simpl. destruct (_ || _); [done|].
  destruct (commit_persistent_transaction _ _ _); [|done]. simpl. set (s3 := apply_forward_extremities_update room id prev s2).
  destruct Hpart2 as [P1 P2 P3 P4 P5 P6 P7]. split; [by apply books_with_tip|done|done|done| | |].
  - intros x full Hx. rewrite read_group_entries, (group_entries_frame s2 s3), <- read_group_entries by done. by apply P5.
  - right. exists g. split; [unfold find_event_state_group in *; simpl; by rewrite M2, decide_True|].
    rewrite group_map_entries, (group_entries_frame s2 s3), <- group_map_entries by done. done.
  - intros r. unfold s3. rewrite extremities_updated. destruct (decide (r = room)) as [->|]; [right|left; apply Ht].
    split; [done|]. split; [done|]. unfold extremities_after. assert (find_forward_extremities s2 room = find_forward_extremities s room) as -> by apply Ht. done.
Qed.
End Books.

(** * Other threads *)

(** What the others leave alone while this call holds the stripe of [room] and is
    about to store the event [id]. *)
Record undisturbed `{Yyjson} `{Libc} (room id : string) (s s' : PersistentStore) : Prop := {
  ud_books : books_ok s -> books_ok s';
  ud_events : evolves s s';
  ud_fresh : contains id (events s) = false -> contains id (events s') = false;
  ud_maps : forall e g, find_event_state_group s e = Some g -> find_event_state_group s' e = Some g;
  ud_own_map : find_event_state_group s' id = find_event_state_group s id;
  ud_states : forall g full, read_state_group_full_state s g = Some full -> read_state_group_full_state s' g = Some full;
  ud_tips : find_forward_extremities s' room = find_forward_extremities s room;
  ud_current : forall t k, current_event s' room t k = current_event s room t k
}.

Section Effects.
Context `{Yyjson} `{Libc} `{Sodium} `{IterationOrder}.
Context (config : Config) (backend : PersistentStore -> list Statement -> bool) (others : Others).
Hypothesis Hkeys : keeps_group_keys backend.

Let limits : StateResolutionLimits := cfg_state_resolution_limits config.

(** * The outcome of the receipt checks *)

Definition passes (pdu : Value) (policy : RoomVersionPolicy) (map : AuthEventMap) : Prop :=
  allowed (authorize_event_against_auth_events pdu policy map) = true.

Lemma receipt_checks_spec s envelope pdu policy outcome why before :
  receipt_checks config s envelope pdu policy = inr (outcome, why, before) ->
  let selected := validate_auth_events_selection s (in_room_id envelope) pdu policy (in_event_type envelope)
                    (in_sender envelope) (in_state_key envelope) (third_party_invite_token pdu) (in_auth_event_ids envelope) in
  compute_state_before s (in_room_id envelope) policy (in_prev_event_ids envelope) limits = before_ok before
  /\ selected <> selection_unresolvable
  /\ (outcome <> receipt_rejected <-> selected = selection_ok /\ passes pdu policy (named_auth_map s envelope pdu policy)
        /\ passes pdu policy (state_before_map s envelope pdu before))
  /\ (outcome = receipt_accepted <-> outcome <> receipt_rejected /\ passes pdu policy (current_state_auth_map s envelope pdu)).
Proof.
  unfold receipt_checks, passes. simpl. set (selected := validate_auth_events_selection _ _ _ _ _ _ _ _ _).
  fold limits. set (named := authorize_event_against_auth_events pdu policy (named_auth_map s envelope pdu policy)).
  destruct selected eqn:Es; [|done|].
  - destruct (allowed named) eqn:En; simpl; destruct (compute_state_before s _ _ _ limits) as [b|] eqn:Eb; try done.
    + destruct (allowed (authorize_event_against_auth_events pdu policy (state_before_map s envelope pdu b))) eqn:E5; simpl.
      * destruct (allowed (authorize_event_against_auth_events pdu policy (current_state_auth_map s envelope pdu))) eqn:E6; simpl;
          intros [= <- <- <-]; split; [done|split; [done|naive_solver]|done|split; [done|naive_solver]].
      * intros [= <- <- <-]. rewrite E5. split; [done|]. split; [done|]. naive_solver.
    + intros [= <- <- <-]. split; [done|]. split; [done|]. naive_solver.
  - destruct (compute_state_before s _ _ _ limits) as [b|] eqn:Eb; [|done]. intros [= <- <- <-]. split; [done|]. split; [done|]. naive_solver.
Qed.

(** An accepted or soft-failed answer is the outcome of the checks. *)
Lemma judged_outcome now envelope pdu stored_json policy sync_stream_id rt result rt' :
  judge_and_store config backend others now envelope pdu stored_json policy sync_stream_id rt = (result, rt') ->
  pr_status result = pdu_accepted \/ pr_status result = pdu_soft_failed ->
  exists outcome why before, receipt_checks config (rt_store rt) envelope pdu policy = inr (outcome, why, before)
    /\ pr_status result = ingestion_status_of outcome.
Proof.
  unfold judge_and_store. assert (forall why, defer_unresolved backend now envelope stored_json why rt = (result, rt') ->
    ~ (pr_status result = pdu_accepted \/ pr_status result = pdu_soft_failed)) as Hdefer.
  { intros why. unfold defer_unresolved. destruct (defer_unresolved_pdu _ _ _ _ _) as [[] ?]; intros [= <- <-]; simpl; naive_solver. }
  destruct (misses_references rt envelope); [intros Hd Hs; by apply Hdefer in Hd|].
  destruct (answer_for_stored_pdu (rt_store rt) envelope) as [stored|] eqn:Es.
  { intros [= <- <-] Hs. exfalso. revert Es. unfold answer_for_stored_pdu. destruct (stored_copy_of _ _ _); intros [= <-]; naive_solver. }
  destruct (receipt_checks config (rt_store rt) envelope pdu policy) as [why|[[outcome why] before]]; [intros Hd Hs; by apply Hdefer in Hd|].
  unfold store_received. destruct (allocate_stream_ordering rt) as [ordering rt1]. cbn zeta. intros Hs Hst. exists outcome, why, before. split; [done|].
  revert Hs. destruct (prepare_store_event_with_state _ _ _ _) as [[prepared statements]|]; [|intros [= <- <-]; naive_solver].
  destruct (commit_persistent_transaction _ _ _); simpl; [|intros [= <- <-]; naive_solver].
  unfold follow_roster. destruct (empty _); [by intros [= <- <-]|]. destruct (roster_stream_ids _ _); by intros [= <- <-].
Qed.

(** * The books *)

(** The store when current state is recomputed. *)
Definition store_to_recompute (envelope : InboundPduEnvelope) (after : list Entry) (tip : bool) (s : PersistentStore) : PersistentStore :=
  (record_event_state backend (in_room_id envelope) (in_event_id envelope) (in_prev_event_ids envelope) after tip s).2.

Definition plain_recompute (envelope : InboundPduEnvelope) (policy : RoomVersionPolicy) (s : PersistentStore) : Prop :=
  forall entries, store_resolution (in_room_id envelope) policy limits s = inr entries -> plain_entries entries.

Lemma book_received_spec envelope policy after tip s : books_ok s -> NoDup (entry_key <$> after) ->
  plain_recompute envelope policy (store_to_recompute envelope after tip s) ->
  let room := in_room_id envelope in
  let id := in_event_id envelope in
  let s2 := store_to_recompute envelope after tip s in
  let s' := book_received config backend envelope policy after tip s in
  recorded s s2 room id (in_prev_event_ids envelope) after tip /\ same_books s2 s' /\ books_ok s'
  /\ (forall t k, current_event s' room t k = current_event s room t k
        \/ exists entries e, store_resolution room policy limits s2 = inr entries /\ e ∈ entries /\ ge_event_type e = t
           /\ ge_state_key e = k /\ current_event s' room t k = Some (ge_event_id e))
  /\ (forall other t k, other <> room -> current_event s' other t k = current_event s other t k).
Proof.
  intros Hb Hn Hplain. pose proof (record_spec backend Hkeys (in_room_id envelope) (in_event_id envelope) (in_prev_event_ids envelope) after tip s Hb Hn) as Hr.
  unfold book_received, plain_recompute, store_to_recompute in *.
  destruct (record_event_state _ _ _ _ _ _ _) as [g s2]; cbn [snd] in *. split; [done|]. destruct Hr as [R1 R2 R3 R4 R5 R6 R7].
  assert (forall r t k, current_event s2 r t k = current_event s r t k) as Hcur by (intros r t k; unfold current_event; by rewrite R3).
  destruct g as [g|]; [|split; [by split|split; [done|split; auto]]].
  pose proof (recompute_spec backend (in_room_id envelope) policy limits s2 R1 Hplain) as Hs.
  pose proof (recompute_partial backend (in_room_id envelope) policy limits s2 R1 Hplain) as Hp. simpl in Hp.
  destruct (recompute_current_state _ _ _ _ _) as [r s']. cbn [snd] in *. destruct Hs as (S1 & S2 & _). split; [done|]. split; [done|].
  destruct Hp as [P1 P2]. split; [intros t k; rewrite <- (Hcur (in_room_id envelope) t k); apply P1|intros other t k Hne; rewrite P2, Hcur; done].
Qed.

(** * A judged event *)

(** What the store holds after the event was judged [outcome] and stored. *)
Record ingested (envelope : InboundPduEnvelope) (stored_json : string) (policy : RoomVersionPolicy) (outcome : ReceiptOutcome)
    (before : list Entry) (ordering : Z) (s s' : PersistentStore) : Prop := {
  ig_books : books_ok s';
  ig_event : exists json, find (in_event_id envelope) (events s')
                          = Some (set_json json (received_event envelope stored_json outcome ordering));
  ig_events : evolves s s';
  ig_states : forall e g full, e <> in_event_id envelope -> find_event_state_group s e = Some g ->
    read_state_group_full_state s g = Some full ->
    find_event_state_group s' e = Some g /\ read_state_group_full_state s' g = Some full;
  ig_group : find_event_state_group s' (in_event_id envelope) = find_event_state_group s (in_event_id envelope)
    \/ exists g, find_event_state_group s' (in_event_id envelope) = Some g
       /\ group_map s' g = Some (to_state_group_map (received_state_after envelope outcome before));
  ig_tips : find_forward_extremities s' (in_room_id envelope) = find_forward_extremities s (in_room_id envelope)
    \/ outcome = receipt_accepted
       /\ find_forward_extremities s' (in_room_id envelope)
          = extremities_after s (in_room_id envelope) (in_event_id envelope) (in_prev_event_ids envelope);
  ig_current : forall t k, current_event s' (in_room_id envelope) t k = current_event s (in_room_id envelope) t k
    \/ outcome = receipt_accepted /\ in_event_type envelope = t /\ in_state_key envelope = Some k
       /\ current_event s' (in_room_id envelope) t k = Some (in_event_id envelope)
    \/ exists entries e, store_resolution (in_room_id envelope) policy limits s' = inr entries /\ e ∈ entries
       /\ ge_event_type e = t /\ ge_state_key e = k
       /\ current_event s' (in_room_id envelope) t k = Some (ge_event_id e)
}.

Lemma books_ok_sync n s : books_ok s -> books_ok (with_sync_stream_id n s).
Proof. intros [B1 B2 B3 B4 B5 B6]. split; [done|done|by apply (well_grouped_frame s)|done|done|done]. Qed.

Lemma ingested_sync envelope json policy outcome before ordering s s' n :
  ingested envelope json policy outcome before ordering s s' ->
  ingested envelope json policy outcome before ordering s (with_sync_stream_id n s').
Proof.
  intros [I1 I2 I3 I4 I5 I6 I7].
  assert (forall g, read_state_group_full_state (with_sync_stream_id n s') g = read_state_group_full_state s' g) as Hr.
  { intros g. by rewrite !read_group_entries, (group_entries_frame s' (with_sync_stream_id n s')). }
  split; [by apply books_ok_sync|exact I2|exact I3| | |exact I6|].
  - intros e g full He Hg Hf. rewrite Hr. by apply I4.
  - destruct I5 as [|(g & Hg & Hm)]; [by left|right]. exists g. split; [done|]. unfold group_map in *. by rewrite Hr.
  - rewrite (same_books_resolution s' (with_sync_stream_id n s')) by (by split). exact I7.
Qed.

(** The store in which a judged event's resolution is computed. *)
Definition recompute_point (envelope : InboundPduEnvelope) (pdu : Value) (stored_json : string) (outcome : ReceiptOutcome)
    (before : list Entry) (rt : Runtime) : PersistentStore :=
  let '(stream_ordering, rt1) := allocate_stream_ordering rt in
  match prepare_store_event_with_state (rt_store rt1) (received_event envelope stored_json outcome stream_ordering)
          (received_state_row envelope outcome)
          (received_projection envelope (received_membership envelope pdu outcome) stream_ordering) with
  | None => rt_store rt
  | Some (prepared, _) =>
      store_to_recompute envelope (received_state_after envelope outcome before)
        (becomes_forward_extremity config (rt_store rt) envelope outcome)
        (apply_store_event_with_state (redaction_observer backend) prepared (rt_store (during_commit others rt1)))
  end.

Section Judged.
Context (envelope : InboundPduEnvelope) (pdu : Value) (stored_json : string) (policy : RoomVersionPolicy) (rt : Runtime).
Hypothesis Hbooks : books_ok (rt_store rt).
Hypothesis Hothers : forall rt0, undisturbed (in_room_id envelope) (in_event_id envelope) (rt_store rt0) (rt_store (during_commit others rt0)).
Hypothesis Htype : no_nul (in_event_type envelope).

Lemma state_after_keys outcome before : plain_entries before -> NoDup (entry_key <$> before) ->
  NoDup (entry_key <$> received_state_after envelope outcome before).
Proof.
  intros Hp Hn. unfold received_state_after. destruct outcome; [|done|]; destruct (in_state_key envelope) as [k|]; try done;
    by apply (state_after_update before (in_event_id envelope) (in_event_type envelope) k Htype Hp).
Qed.

(** The store after the event was applied, for whatever was prepared. *)
Lemma applied_event outcome ordering projection prepared statements rt1 :
  rt_store rt1 = rt_store rt ->
  prepare_store_event_with_state (rt_store rt1) (received_event envelope stored_json outcome ordering)
    (received_state_row envelope outcome) projection = Some (prepared, statements) ->
  let s1 := rt_store (during_commit others rt1) in
  let s' := apply_store_event_with_state (redaction_observer backend) prepared s1 in
  books_ok s' /\ evolves (rt_store rt) s'
  /\ (exists json, find (in_event_id envelope) (events s') = Some (set_json json (received_event envelope stored_json outcome ordering)))
  /\ (forall e, find_event_state_group s' e = find_event_state_group s1 e)
  /\ (forall g, read_state_group_full_state s' g = read_state_group_full_state s1 g)
  /\ (forall r, find_forward_extremities s' r = find_forward_extremities s1 r)
  /\ (forall t k, current_event s' (in_room_id envelope) t k = current_event s1 (in_room_id envelope) t k
       \/ outcome = receipt_accepted /\ in_event_type envelope = t /\ in_state_key envelope = Some k
          /\ current_event s' (in_room_id envelope) t k = Some (in_event_id envelope)).
Proof.
  intros Hrt Hprep s1 s'. destruct (prepared_event_facts _ _ _ _ _ _ Hprep) as (Hnew & Hev & Hst & _). rewrite Hrt in Hnew.
  destruct (Hothers rt1) as [U1 U2 U3 U4 U4' U5 U6 U7]. rewrite Hrt in *. fold s1 in U1, U2, U3, U4, U4', U5, U6, U7.
  specialize (U1 Hbooks). specialize (U3 Hnew).
  assert (contains (ev_event_id (pu_event prepared)) (events s1) = false) as Hnew1 by (by rewrite Hev).
  destruct (stored_event_frame backend prepared s1 Hnew1) as (F1 & F2 & F3 & F4 & F5). fold s' in F1, F2, F3, F4, F5.
  destruct (stored_event_rows backend prepared s1 (bo_table s1 U1) Hnew1) as (T1 & T2 & json & T3). fold s' in T1, T2, T3.
  rewrite Hev in T3. simpl in T3. rewrite Hst in F1.
  assert (forall g, read_state_group_full_state s' g = read_state_group_full_state s1 g) as Hread.
  { intros g. by rewrite !read_group_entries, (group_entries_frame s1 s'). }
  assert (forall e, find_event_state_group s' e = find_event_state_group s1 e) as Hmap by (intros e; unfold find_event_state_group; by rewrite F4).
  assert (forall r, find_forward_extremities s' r = find_forward_extremities s1 r) as Htip by (intros r; unfold find_forward_extremities; by rewrite F5).
  split.
  { destruct U1 as [B1 B2 B3 B4 B5 B6]. split; [done| |by apply (well_grouped_frame s1)|by rewrite F4| |].
    - rewrite F1. unfold received_state_row. destruct outcome, (in_state_key envelope); try done. by apply put_rows_ok.
    - intros e g. rewrite Hmap. unfold find_persistent_state_group. rewrite F2. apply B5.
    - intros r. rewrite Htip. apply B6. }
  split; [by eapply evolves_trans; [exact (fun _ _ _ => true)|exact U2|]|]. split; [by exists json|]. split; [done|]. split; [done|]. split; [done|].
  intros t k. rewrite F1. unfold received_state_row. destruct outcome; [|by left|by left].
  destruct (in_state_key envelope) as [key|] eqn:Ek; [|by left].
  pose proof (current_after_put s1 {| st_room_id := in_room_id envelope; st_event_type := in_event_type envelope; st_state_key := key;
    st_event_id := in_event_id envelope |} EmptyString (in_room_id envelope) t k (bo_rows s1 U1)) as Hput. simpl in Hput.
  rewrite Hput. destruct (decide _) as [Hk|]; [|by left]. right. unfold row_key in Hk. simpl in Hk. simplify_eq. done.
Qed.

Hypothesis Hbefore : forall before, compute_state_before (rt_store rt) (in_room_id envelope) policy (in_prev_event_ids envelope) limits = before_ok before ->
  plain_entries before.
Hypothesis Hplain : forall outcome why before, receipt_checks config (rt_store rt) envelope pdu policy = inr (outcome, why, before) ->
  plain_recompute envelope policy (recompute_point envelope pdu stored_json outcome before rt).

Lemma tip_is_accepted s outcome : becomes_forward_extremity config s envelope outcome = true -> outcome = receipt_accepted.
Proof. by destruct outcome. Qed.

Lemma stored_received outcome why before sync_stream_id result rt' :
  receipt_checks config (rt_store rt) envelope pdu policy = inr (outcome, why, before) ->
  store_received config backend others envelope pdu stored_json policy outcome why before sync_stream_id rt = (result, rt') ->
  stores_the_event (pr_status result) = true ->
  pr_status result = ingestion_status_of outcome
  /\ ingested envelope stored_json policy outcome before (pr_accepted_stream_ordering result) (rt_store rt) (rt_store rt').
Proof.
  intros Hchecks. destruct (receipt_checks_spec _ _ _ _ _ _ _ Hchecks) as (Hb & _).
  pose proof (Hbefore before Hb) as Hpb. pose proof (state_before_keys _ _ _ _ _ _ Hbooks Hpb Hb) as Hnb.
  pose proof (Hplain outcome why before Hchecks) as Hpl. unfold recompute_point in Hpl.
  unfold store_received. destruct (allocate_stream_ordering rt) as [ordering rt1] eqn:Ea. cbn zeta.
  assert (rt_store rt1 = rt_store rt) as Hrt1 by (unfold allocate_stream_ordering in Ea; by simplify_eq/=).
  destruct (prepare_store_event_with_state _ _ _ _) as [[prepared statements]|] eqn:Ep; [|by intros [= <- <-]].
  destruct (commit_persistent_transaction _ _ _); simpl; [|by intros [= <- <-]].
  destruct (applied_event outcome ordering _ _ _ rt1 Hrt1 Ep) as (A1 & A2 & (json & A3) & A4 & A5 & A6 & A7).
  set (s1 := rt_store (during_commit others rt1)) in *. set (sa := apply_store_event_with_state _ prepared s1) in *.
  set (after := received_state_after envelope outcome before) in *. set (tip := becomes_forward_extremity config (rt_store rt) envelope outcome) in *.
  destruct (book_received_spec envelope policy after tip sa A1 (state_after_keys outcome before Hpb Hnb) Hpl) as ([R1 R2 R3 R4 R5 R6 R7] & S & Sb & Sc & _).
  set (s2 := store_to_recompute envelope after tip sa) in *. set (sb := book_received config backend envelope policy after tip sa) in *.
  destruct (Hothers rt1) as [U1 U2 U3 U4 U4' U5 U6 U7]. fold s1 in U1, U2, U3, U4, U4', U5, U6, U7. rewrite Hrt1 in *. destruct S as [S1 S2 S3 S4 S5].
  assert (forall e, find_event_state_group sb e = find_event_state_group s2 e) as Hmap by (intros e; unfold find_event_state_group; by rewrite S4).
  assert (forall g, read_state_group_full_state sb g = read_state_group_full_state s2 g) as Hread
    by (intros g; by rewrite !read_group_entries, (group_entries_frame s2 sb)).
  assert (forall r, find_forward_extremities sb r = find_forward_extremities s2 r) as Htips by (intros r; unfold find_forward_extremities; by rewrite S5).
  assert (ingested envelope stored_json policy outcome before ordering (rt_store rt) sb) as Hing.
  { split; [done| | | | | |].
    - exists json. by rewrite S1, R2.
    - intros x e Hx. destruct (A2 x e Hx) as (j & Hj & ?). exists j. by rewrite S1, R2.
    - intros e g full Hne Hg Hf. rewrite Hmap, Hread, R4, A4 by done. split; [by apply U4|]. apply R5. rewrite A5. by apply U5.
    - destruct R6 as [R6|(g & Hg & Hm)]; [left; by rewrite Hmap, R6, A4|right]. exists g. split; [by rewrite Hmap|].
      unfold group_map in *. by rewrite Hread.
    - destruct (R7 (in_room_id envelope)) as [Ht|(Htip & _ & Ht)]; [left; by rewrite Htips, Ht, A6|right].
      split; [by eapply tip_is_accepted|]. rewrite Htips, Ht. unfold extremities_after. by rewrite A6, U6.
    - intros t k. destruct (Sc t k) as [Hc|(entries & e & ? & ? & ? & ? & ?)]; [|right; right; exists entries, e; by rewrite (same_books_resolution s2 sb) by (by split)].
      rewrite Hc. destruct (A7 t k) as [Hc'|(? & ? & ? & Hc')]; [left; by rewrite Hc'|right; left; by rewrite Hc']. }
  unfold follow_roster. destruct (empty _); [intros [= <- <-]; by destruct outcome|].
  destruct (roster_stream_ids _ _) as [n|]; intros [= <- <-] _; (split; [by destruct outcome|]); [|done]. simpl.
  by apply ingested_sync.
Qed.

(** C6. What judging a received event does, once its history is held and under the
    room's lock, from a store that satisfies the invariant of the books, over a
    database that refuses to write a state group under an ID that is taken.  Other
    threads may store events and states during the call, but keep the books and
    what they hold, leave this room's tips and current state alone and do not store
    this event; and no event type, of the event, of the state before it or of what
    the resolution yields, contains a NUL character.  When the answer says the event
    was stored: its status is the outcome of the receipt checks; the event is
    there with that status; every recorded state stays as it was; its own
    state, if recorded, is the state before it when it was rejected and that state
    with the event at its key when not; only an accepted event becomes a tip, in
    place of the events it cites, or has its own row written to current state;
    what else changes in current state is an entry of the resolution over the tips
    of the resulting store; the invariant of the books is kept; and sent again, it is
    answered as already stored.  Otherwise neither events, state nor tips of the
    store change but by the other threads. *)
Theorem received_event_effects now sync_stream_id result rt' :
  judge_and_store config backend others now envelope pdu stored_json policy sync_stream_id rt = (result, rt') ->
  if stores_the_event (pr_status result) then
    exists outcome why before,
      receipt_checks config (rt_store rt) envelope pdu policy = inr (outcome, why, before)
      /\ pr_status result = ingestion_status_of outcome
      /\ ingested envelope stored_json policy outcome before (pr_accepted_stream_ordering result) (rt_store rt) (rt_store rt')
      /\ answer_for_stored_pdu (rt_store rt') envelope = Some (answer pdu_already_stored "event already stored")
  else rt_store rt' = rt_store rt \/ undisturbed (in_room_id envelope) (in_event_id envelope) (rt_store rt) (rt_store rt').
Proof.
  unfold judge_and_store.
  assert (forall why, defer_unresolved backend now envelope stored_json why rt = (result, rt') ->
    stores_the_event (pr_status result) = false /\ rt_store rt' = rt_store rt) as Hdefer.
  { intros why. unfold defer_unresolved, defer_unresolved_pdu. destruct (empty _); [by intros [= <- <-]|].
    destruct (upsert_deferred_pdu _ _ _ _) as [r d]. intros [= <- <-]. by destruct r. }
  destruct (misses_references rt envelope); [intros Hd; destruct (Hdefer _ Hd) as [-> ->]; by left|].
  destruct (answer_for_stored_pdu (rt_store rt) envelope) as [stored|] eqn:Es.
  { intros [= <- <-]. assert (stores_the_event (pr_status stored) = false) as ->; [|by left].
    revert Es. unfold answer_for_stored_pdu. destruct (stored_copy_of _ _ _); by intros [= <-]. }
  destruct (receipt_checks config (rt_store rt) envelope pdu policy) as [why|[[outcome why] before]] eqn:Ec in |- *;
    [intros Hd; destruct (Hdefer _ Hd) as [-> ->]; by left|].
  intros Hs. destruct (stores_the_event (pr_status result)) eqn:Est.
  - destruct (stored_received outcome why before sync_stream_id result rt' Ec Hs Est) as [Hst Hing].
    exists outcome, why, before. split; [done|]. split; [done|]. split; [done|].
    destruct Hing as [_ [json Hj] _ _ _ _ _]. unfold answer_for_stored_pdu, stored_copy_of. rewrite Hj. simpl. by rewrite String.eqb_refl.
  - revert Hs. unfold store_received. destruct (allocate_stream_ordering rt) as [ordering rt1] eqn:Ea. cbn zeta.
    assert (rt_store rt1 = rt_store rt) as Hrt1 by (unfold allocate_stream_ordering in Ea; by simplify_eq/=).
    destruct (prepare_store_event_with_state _ _ _ _) as [[prepared statements]|]; [|intros [= <- <-]; by left].
    destruct (commit_persistent_transaction _ _ _); simpl; [|intros [= <- <-]; right; rewrite <- Hrt1; apply Hothers].
    unfold follow_roster. destruct (empty _); [intros [= <- <-]; by destruct outcome|].
    destruct (roster_stream_ids _ _); intros [= <- <-]; by destruct outcome.
Qed.
End Judged.
End Effects.
