(* ===== verification/IngestionMembers.v ===== *)
(** Who gets an event accepted from another server: the auth events it names are
    events of its room that were not rejected, and its sender was joined by them,
    by the state before the event and, unless it soft-fails, by current state. *)
From S2P Require Import Prelude CppStd JsonValue JsonSerializer JsonParser RoomVersion Signing EventAuth EventAuthBase EventAuthSafety Membership EventShape EventTable EventTableInv StateTables Store StoreLookup StoreWrites HistoryVisibility RedactionService Redaction RedactionSafety RedactionFlow EventId StateGroups StateGroupsWrite EventSource StateAuth StateRes Bookkeeping BookkeepingBase BookkeepingStore BookkeepingLocal Inbound DeferredWake ReceiptChecks Ingestion IngestionEffects.
Open Scope Z_scope.

(** * Auth events selection *)

Section Members.
Context `{Yyjson} `{Libc} `{Sodium} `{IterationOrder}.
Context (config : Config) (backend : PersistentStore -> list Statement -> bool) (others : Others).

(** An event that another may cite: stored, of the room, not rejected, of the key. *)
Definition citable (s : PersistentStore) (room_id id : string) (key : string * string) : Prop :=
  exists event obj, find id (events s) = Some event /\ ev_status event <> "rejected" /\ ev_room_id event = room_id
    /\ parse_lossless (ev_json event) = POk (VObject obj)
    /\ string_member obj "type" = Some key.1 /\ string_member obj "state_key" = Some key.2.

Lemma check_selection_ok s room_id permitted ids : forall seen,
  check_selection s room_id permitted seen ids = selection_ok -> NoDup seen ->
  exists keys, Forall2 (citable s room_id) ids keys /\ NoDup (seen ++ keys) /\ forall key, key ∈ keys -> key ∈ permitted.
Proof.
  induction ids as [|id ids IH]; intros seen; simpl.
  { intros _ Hn. exists []. split; [constructor|]. by rewrite app_nil_r; split; [|set_solver]. }
  destruct (find id (events s)) as [event|] eqn:Ef; [|done]. destruct (ev_status event =s "rejected") eqn:Er; [done|].
  destruct (ev_room_id event <>s room_id) eqn:Ero; [done|]. destruct (parse_lossless (ev_json event)) as [[| | | | | |obj|]|] eqn:Ep; try done.
  destruct (string_member obj "type") as [type|] eqn:Et; [|done]. destruct (string_member obj "state_key") as [key|] eqn:Ek; [|done].
  destruct (bool_decide ((type, key) ∈ seen)) eqn:Es; [done|]. destruct (bool_decide ((type, key) ∈ permitted)) eqn:Epm; [|done]. simpl.
  apply bool_decide_eq_false in Es. apply bool_decide_eq_true in Epm. breflect. intros Hc Hn.
  destruct (IH (seen ++ [(type, key)]) Hc) as (keys & H1' & H2' & H3').
  { apply NoDup_app. split; [done|]. split; [|apply NoDup_singleton]. by intros x Hx ->%list_elem_of_singleton. }
  exists ((type, key) :: keys). split; [|split].
  - constructor; [|done]. exists event, obj. done.
  - by rewrite <- app_assoc in H2'.
  - set_solver.
Qed.

(** * The sender's slot *)

(** A state lists the user as joined. *)
Definition joined_in (s : PersistentStore) (entries : list Entry) (user : string) : Prop :=
  exists e, e ∈ entries /\ ge_event_type e = "m.room.member" /\ ge_state_key e = user
    /\ membership_of (load_event s (ge_event_id e)) = ms_join.

Lemma sender_slot_step load slots type key id map :
  sender_member (fill_auth_event_slot load slots type key id map) = sender_member map
  \/ type = "m.room.member" /\ key = slot_sender slots
     /\ sender_member (fill_auth_event_slot load slots type key id map) = load id.
Proof.
  unfold fill_auth_event_slot. destruct ((type =s "m.room.member") && (key =s slot_sender slots)) eqn:E.
  - breflect. subst. right. split; [done|]. split; [done|]. simpl. by destruct (negb _ && _ && _).
  - left. repeat match goal with |- context [if ?b then _ else _] => destruct b; simpl; try done end.
Qed.

Lemma sender_slot s entries sender target event_type token authoriser :
  let map := build_auth_event_map_from_entries s entries sender target event_type token authoriser in
  sender_current_membership map = ms_join -> joined_in s entries sender.
Proof.
  unfold build_auth_event_map_from_entries, joined_in. set (slots := Build_AuthEventSlots _ _ _ _ _).
  assert (forall l m0, let m := foldl (fun map entry => fill_auth_event_slot (load_event s) slots (ge_event_type entry) (ge_state_key entry) (ge_event_id entry) map) m0 l in
    sender_member m = sender_member m0 \/ exists e, e ∈ l /\ ge_event_type e = "m.room.member" /\ ge_state_key e = sender
      /\ sender_member m = load_event s (ge_event_id e)) as Hfold.
  { induction l as [|x l IH]; intros m0; [by left|]. cbn [foldl].
    destruct (IH (fill_auth_event_slot (load_event s) slots (ge_event_type x) (ge_state_key x) (ge_event_id x) m0)) as [Heq|(e & He & ?)];
      [|right; exists e; split; [by right|done]].
    cbn zeta in *. rewrite Heq. destruct (sender_slot_step (load_event s) slots (ge_event_type x) (ge_state_key x) (ge_event_id x) m0) as [->|(Ht & Hk & ->)];
      [by left|right]. exists x. split; [by left|]. done. }
  destruct (Hfold entries empty_auth_event_map) as [Heq|(e & He & Ht & Hk & Heq)]; cbn zeta; unfold sender_current_membership; rewrite Heq.
  - done.
  - destruct (value_has_content _); [|done]. intros Hm. by exists e.
Qed.

Lemma set_create_sender v id map : sender_current_membership (set_create v id map) = sender_current_membership map.
Proof. done. Qed.

(** * The views of a room *)

Lemma current_entry s room e : rows_ok (current s) -> e ∈ current_state_entries s room ->
  current_event s room (ge_event_type e) (ge_state_key e) = Some (ge_event_id e).
Proof.
  intros [Hok Hn _] (row & -> & Hrow)%list_elem_of_fmap. simpl. rewrite room_rows_are_scan in Hrow by done.
  apply list_elem_of_filter in Hrow as [<- Hrow]. rewrite find_is_scan by done. unfold scan_state.
  induction (Store.state (current s)) as [|r rows IH]; [set_solver|]. csimpl in Hn. apply NoDup_cons in Hn as [Hr Hn]. simpl.
  destruct (state_row_is r (st_room_id row) (st_event_type row) (st_state_key row)) eqn:E.
  - unfold state_row_is in E. breflect. apply elem_of_cons in Hrow as [->|Hrow]; [done|]. exfalso. apply Hr.
    apply list_elem_of_fmap. exists row. split; [unfold row_key; congruence|done].
  - apply elem_of_cons in Hrow as [->|Hrow]; [|by apply IH]. unfold state_row_is in E. by rewrite !String.eqb_refl in E.
Qed.

Lemma current_row s room t k id : rows_ok (current s) -> current_event s room t k = Some id ->
  exists e, e ∈ current_state_entries s room /\ ge_event_type e = t /\ ge_state_key e = k /\ ge_event_id e = id.
Proof.
  intros [Hok _ _]. rewrite find_is_scan by done. unfold scan_state. intros (row & Hf & ->)%fmap_Some.
  apply find_some in Hf as [Hin Hrow]. unfold state_row_is in Hrow. breflect. rewrite <- list_elem_of_In in Hin.
  eexists. split; [apply list_elem_of_fmap; exists row; split; [reflexivity|]|done].
  rewrite room_rows_are_scan by done. by apply list_elem_of_filter.
Qed.

(** The slot of a sender whom the state names once. *)
Lemma sender_slot_exact s entries e sender target event_type token authoriser :
  e ∈ entries -> ge_event_type e = "m.room.member" -> ge_state_key e = sender ->
  (forall x, x ∈ entries -> ge_event_type x = "m.room.member" -> ge_state_key x = sender -> ge_event_id x = ge_event_id e) ->
  sender_member (build_auth_event_map_from_entries s entries sender target event_type token authoriser) = load_event s (ge_event_id e).
Proof.
  intros He Ht Hk Hu. unfold build_auth_event_map_from_entries. set (slots := Build_AuthEventSlots _ _ _ _ _).
  assert (forall l m0, (forall x, x ∈ l -> ge_event_type x = "m.room.member" -> ge_state_key x = sender -> ge_event_id x = ge_event_id e) ->
    (e ∈ l \/ sender_member m0 = load_event s (ge_event_id e)) ->
    sender_member (foldl (fun map entry => fill_auth_event_slot (load_event s) slots (ge_event_type entry) (ge_state_key entry) (ge_event_id entry) map) m0 l)
    = load_event s (ge_event_id e)) as Hfold; [|apply Hfold; auto].
  induction l as [|x l IH]; intros m0 Hx Hin; cbn [foldl]; [destruct Hin; [set_solver|done]|].
  apply IH; [intros y Hy; apply Hx; by right|].
  destruct (sender_slot_step (load_event s) slots (ge_event_type x) (ge_state_key x) (ge_event_id x) m0) as [Heq|(Htx & Hkx & Heq)].
  - destruct Hin as [[->|Hin]%elem_of_cons|Hm]; [|by left|right; by rewrite Heq]. right. rewrite Heq. revert Heq.
    unfold fill_auth_event_slot, slots. rewrite Ht, Hk. simpl. rewrite String.eqb_refl. simpl.
    match goal with |- context [if ?b then _ else _] => destruct b end; simpl; congruence.
  - right. rewrite Heq. f_equal. apply Hx; [by left|done|done].
Qed.

(** * The event that is judged *)

(** The envelope says what the JSON it carries says, the way
    [parse_inbound_pdu_envelope] reads it: a state key that is no string is read as the
    empty one. *)
Definition envelope_matches (envelope : InboundPduEnvelope) : Prop :=
  exists obj, parse_lossless (in_json envelope) = POk (VObject obj)
  /\ string_member obj "type" = Some (in_event_type envelope) /\ in_event_type envelope <> EmptyString
  /\ string_member obj "sender" = Some (in_sender envelope) /\ in_sender envelope <> EmptyString
  /\ in_state_key envelope = (fun _ => default EmptyString (string_member obj "state_key")) <$> object_member obj "state_key".

Lemma effective_is_event envelope policy pdu stored_json : envelope_matches envelope ->
  effective_event envelope policy = inr (pdu, stored_json) ->
  exists obj, is_event pdu obj (in_event_type envelope) (in_sender envelope)
    /\ forall key, in_state_key envelope = Some key -> key <> EmptyString -> string_member obj "state_key" = Some key.
Proof.
  intros (obj & Hp & Ht & Ht' & Hs & Hs' & Hk).
  assert (forall key, in_state_key envelope = Some key -> key <> EmptyString -> string_member obj "state_key" = Some key) as Hkey.
  { intros key. rewrite Hk. destruct (object_member obj "state_key"); [|done]. intros [= <-]. by destruct (string_member obj "state_key"). }
  unfold effective_event. rewrite Hp. destruct (verify_pdu_content_hash (VObject obj)).
  - intros [= <- <-]. exists obj. split; [split; done|done].
  - unfold redact_event. simpl. destruct (serialize_canonical _) as [output|]; [|done]. intros [= <- <-]. eexists. split; [split; [done|]|].
    + rewrite redacted_type, string_member_kept by (by vm_compute). done.
    + rewrite string_member_kept by (by vm_compute). done.
Qed.

(** C5. Who gets an event accepted.  Take a received event whose envelope has the
    type, sender and state key of its JSON (an empty key when the JSON's is no
    string), and a server whose current state has one row for each key.  When the event is judged and its answer is accepted or
    soft-failed: the auth events it names are stored events of its room that were not
    rejected, no two of the same type and state key, each of a type and key that the
    selection rules permit.  Unless it is a create, a membership or an old aliases
    event, its sender was joined by those auth events and by the state before the
    event and, if accepted, by the current state of the room.  And a user whom the
    room's current state bans gets no join accepted, the one exception being a join
    of the room's creator whose only predecessor is the create event, which the rules
    allow without looking at the ban. *)
Theorem accepted_pdus_from_members now envelope pdu stored_json policy sync_stream_id rt result rt' :
  rows_ok (current (rt_store rt)) -> envelope_matches envelope -> effective_event envelope policy = inr (pdu, stored_json) ->
  judge_and_store config backend others now envelope pdu stored_json policy sync_stream_id rt = (result, rt') ->
  pr_status result = pdu_accepted \/ pr_status result = pdu_soft_failed ->
  let s := rt_store rt in
  (exists keys, Forall2 (citable s (in_room_id envelope)) (in_auth_event_ids envelope) keys /\ NoDup keys
     /\ forall key, key ∈ keys -> key ∈ permitted_auth_event_keys pdu policy (in_event_type envelope) (in_sender envelope)
                                          (in_state_key envelope) (third_party_invite_token pdu))
  /\ (in_event_type envelope <> "m.room.create" -> in_event_type envelope <> "m.room.member" ->
      ~ is_v1_aliases (in_event_type envelope) policy ->
      joined_in s (state_entries_from_named_events s (in_auth_event_ids envelope)) (in_sender envelope)
      /\ (exists before, compute_state_before s (in_room_id envelope) policy (in_prev_event_ids envelope)
                           (cfg_state_resolution_limits config) = before_ok before
           /\ joined_in s before (in_sender envelope))
      /\ (pr_status result = pdu_accepted -> exists id,
           current_event s (in_room_id envelope) "m.room.member" (in_sender envelope) = Some id
           /\ membership_of (load_event s id) = ms_join))
  /\ (pr_status result = pdu_accepted -> in_event_type envelope = "m.room.member" ->
      in_state_key envelope = Some (in_sender envelope) ->
      creator_bootstrap pdu (in_sender envelope) policy (current_state_auth_map s envelope pdu) = false -> forall id,
      current_event s (in_room_id envelope) "m.room.member" (in_sender envelope) = Some id ->
      membership_of (load_event s id) = ms_ban ->
      parse_membership_state (extract_content_membership pdu) <> Some ms_join).
Proof.
  intros Hrows Hmatch Heff Hjudge Hstatus s.
  destruct (effective_is_event _ _ _ _ Hmatch Heff) as (obj & Hev & Hkey).
  destruct (judged_outcome config backend others _ _ _ _ _ _ _ _ _ Hjudge Hstatus) as (outcome & why & before & Hchecks & Hout).
  destruct (receipt_checks_spec config _ _ _ _ _ _ _ Hchecks) as (Hb & _ & Hnr & Hacc). fold s in Hchecks, Hb, Hnr, Hacc.
  destruct (proj1 Hnr) as (Hsel & Hnamed & Hbef); [by destruct Hstatus as [Hs|Hs]; rewrite Hs in Hout; destruct outcome|].
  split; [|split].
  - unfold validate_auth_events_selection in Hsel.
    destruct (check_selection_ok s (in_room_id envelope) _ (in_auth_event_ids envelope) [] Hsel) as (keys & ? & ? & ?); [constructor|].
    by exists keys.
  - intros Hc Hm Hal. assert (forall am, passes pdu policy am -> sender_current_membership am = ms_join) as Hj
      by (intros am Ham; by eapply (only_joined_senders pdu obj _ _ policy am)).
    split; [|split].
    + apply Hj in Hnamed. unfold named_auth_map, auth_map_of_entries in Hnamed.
      destruct (create_event_is_room_id policy && _); rewrite ?set_create_sender in Hnamed; by apply sender_slot in Hnamed.
    + exists before. split; [done|]. apply Hj in Hbef. unfold state_before_map, auth_map_of_entries, fill_create_from_room_state in Hbef.
      destruct (is_null _); [destruct (create_row_of _ _)|]; rewrite ?set_create_sender in Hbef; by apply sender_slot in Hbef.
    + intros Ha. destruct (proj1 Hacc) as [_ Hcur]; [rewrite Ha in Hout; by destruct outcome|]. apply Hj in Hcur.
      assert (joined_in s (current_state_entries s (in_room_id envelope)) (in_sender envelope)) as (e & He & Ht & Hk & Hme).
      { unfold current_state_auth_map, build_pdu_auth_event_map, fill_create_from_room_state in Hcur.
        destruct (is_null _); [destruct (create_row_of _ _)|]; rewrite ?set_create_sender in Hcur; by apply sender_slot in Hcur. }
      exists (ge_event_id e). split; [|done]. rewrite <- Ht, <- Hk. by apply current_entry.
  - intros Ha Htype Hself Hboot id Hid Hban Hjoin. destruct (proj1 Hacc) as [_ Hcur]; [rewrite Ha in Hout; by destruct outcome|].
    rewrite Htype in Hev. apply Hkey in Hself as Hown; [|apply Hev]. set (am := current_state_auth_map s envelope pdu) in *.
    assert (target_current_membership (in_sender envelope =s in_sender envelope) am = ms_ban) as Htarget.
    { assert (sender_member am = load_event s id) as Hslot.
      { destruct (current_row s (in_room_id envelope) _ _ _ Hrows Hid) as (e & He & Het & Hek & <-).
        unfold am, current_state_auth_map, build_pdu_auth_event_map, fill_create_from_room_state.
        assert (sender_member (build_auth_event_map_from_entries s (current_state_entries s (in_room_id envelope)) (in_sender envelope)
          (default EmptyString (in_state_key envelope)) (in_event_type envelope) (third_party_invite_token pdu) (join_authorising_user pdu))
          = load_event s (ge_event_id e)) as Hx.
        { apply sender_slot_exact; [done|done|done|]. intros x Hx Hxt Hxk. pose proof (current_entry s _ x Hrows Hx) as Hcx.
          rewrite Hxt, Hxk in Hcx. pose proof (current_entry s _ e Hrows He) as Hce. rewrite Het, Hek in Hce. congruence. }
        destruct (is_null _); [destruct (create_row_of _ _)|]; exact Hx. }
      unfold target_current_membership. rewrite String.eqb_refl, Hslot. simpl.
      assert (value_has_content (load_event s id) = true) as ->; [|done]. destruct (load_event s id); done. }
    destruct (banned_users_stay_out pdu obj _ _ policy am Hev Hown Hcur Htarget Hboot) as [Hr|(Hr & _)]; congruence.
Qed.
End Members.
