(* ===== verification/IngestionTrace.v ===== *)
(** What an ingestion leaves behind when nothing else runs: an event that is not
    stored leaves no trace in the rooms, an event that is stored was asked for, and
    a second copy of it does nothing. *)
From S2P Require Import Prelude CppStd JsonValue JsonSerializer JsonParser RoomVersion Signing EventAuth EventShape EventTable EventTableInv EventTableAdd StateTables Store StoreLookup StoreWrites HistoryVisibility RedactionService Redaction RedactionFlow EventId StateGroups StateGroupsWrite EventSource StateAuth StateRes Bookkeeping BookkeepingBase BookkeepingStore BookkeepingLocal Inbound DeferredWake ReceiptChecks Ingestion IngestionEffects.
Open Scope Z_scope.

(** Nothing else runs, and no history is fetched. *)
Record quiet (others : Others) : Prop := {
  qu_duplicate : forall rt, after_duplicate_check others rt = rt;
  qu_rescission : forall rt, after_rescission others rt = rt;
  qu_admission : forall rt, after_admission others rt = rt;
  qu_backfill : forall rt, during_backfill others rt = rt;
  qu_commit : forall rt, during_commit others rt = rt;
  qu_wake : forall rt, before_wake others rt = rt
}.

Section Trace.
Context `{Yyjson} `{Libc} `{Sodium} `{IterationOrder}.
Context (config : Config) (backend : PersistentStore -> list Statement -> bool) (others : Others).

(** * Frames *)

Lemma record_events room id prev after tip s : events (record_event_state backend room id prev after tip s).2 = events s.
Proof.
  unfold record_event_state, record_event_state_with_parent.
  match goal with |- context [create_or_reuse_state_group backend ?r ?n ?p ?f s] => destruct (group_written_frame backend r n p f s) as (He & _);
    destruct (create_or_reuse_state_group backend r n p f s) as [[g|] s1] end; [|done].
  unfold set_event_state_group. destruct (prepare_event_state_group id g); [|done]. destruct (negb _); [done|]. simpl.
  unfold update_forward_extremities. destruct (negb tip); [done|]. destruct (_ || _); [done|]. by destruct (negb _).
Qed.

Lemma recompute_events room policy limits s : events (recompute_current_state backend room policy limits s).2 = events s.
Proof.
  unfold recompute_current_state. destruct (store_resolution _ _ _ _) as [|entries]; [done|]. generalize (current_state_map s room). intros cur.
  revert s. induction entries as [|e entries IH]; intros s; [done|]. cbn [write_resolved]. destruct (unchanged cur e); [apply IH|].
  assert (events (store_state backend (state_row room e) s).2 = events s) as Hs.
  { unfold store_state. destruct (negb _); [done|]. destruct (bool_decide _); [done|]. by destruct (negb _). }
  destruct (store_state _ _ _) as [[] s1]; [by rewrite IH|done].
Qed.

Lemma book_received_events envelope policy after tip s : events (book_received config backend envelope policy after tip s) = events s.
Proof.
  unfold book_received. pose proof (record_events (in_room_id envelope) (in_event_id envelope) (in_prev_event_ids envelope) after tip s) as Hr.
  destruct (record_event_state _ _ _ _ _ _ _) as [[g|] s2]; [|done]. by rewrite recompute_events.
Qed.

(** An event of the room is held under this ID. *)
Definition held (s : PersistentStore) (room id : string) : Prop := exists e, find id (events s) = Some e /\ ev_room_id e = room.

(** The store but for its stream counter. *)
Definition only_counter (s s' : PersistentStore) : Prop := exists n, s' = with_sync_stream_id n s.

Lemma only_counter_refl s : only_counter s s.
Proof. exists (next_sync_stream_id s). by destruct s. Qed.

Lemma only_counter_trans a b c : only_counter a b -> only_counter b c -> only_counter a c.
Proof. intros [n ->] [m ->]. by exists m. Qed.

Lemma held_counter s s' room id : only_counter s s' -> held s' room id <-> held s room id.
Proof. by intros [n ->]. Qed.

Lemma stored_is_held prepared statements event row projection s : table_ok (events s) ->
  prepare_store_event_with_state s event row projection = Some (prepared, statements) ->
  held (apply_store_event_with_state (redaction_observer backend) prepared s) (ev_room_id event) (ev_event_id event).
Proof.
  intros Hok Hp. destruct (prepared_event_facts _ _ _ _ _ _ Hp) as (Hnew & <- & _).
  destruct (stored_event_rows backend prepared s Hok Hnew) as (_ & _ & json & Hj). eexists. split; [exact Hj|]. done.
Qed.

(** * The stages *)

(** Either the event is stored and held, or only counters moved. *)
Definition traceless (envelope : InboundPduEnvelope) (s : PersistentStore) (result : PduIngestionResult) (s' : PersistentStore) : Prop :=
  if stores_the_event (pr_status result) then held s' (in_room_id envelope) (in_event_id envelope) else only_counter s s'.

Lemma traceless_counter envelope s s1 result s' : only_counter s s1 -> traceless envelope s1 result s' -> traceless envelope s result s'.
Proof. unfold traceless. destruct (stores_the_event _); [done|]. apply only_counter_trans. Qed.

Lemma defer_traceless now envelope stored_json why rt :
  let '(result, rt') := defer_unresolved backend now envelope stored_json why rt in traceless envelope (rt_store rt) result (rt_store rt').
Proof.
  unfold defer_unresolved, defer_unresolved_pdu, traceless. destruct (empty _); [apply only_counter_refl|].
  destruct (upsert_deferred_pdu _ _ _ _) as [r d]. destruct r; apply only_counter_refl.
Qed.

Lemma stored_answer_traceless envelope s result : answer_for_stored_pdu s envelope = Some result -> traceless envelope s result s.
Proof.
  unfold answer_for_stored_pdu, traceless. destruct (stored_copy_of _ _ _); intros [= <-]; apply only_counter_refl.
Qed.

Hypothesis Hquiet : quiet others.

Lemma store_received_traceless envelope pdu stored_json policy outcome why before sync_stream_id rt : table_ok (events (rt_store rt)) ->
  let '(result, rt') := store_received config backend others envelope pdu stored_json policy outcome why before sync_stream_id rt in
  traceless envelope (rt_store rt) result (rt_store rt').
Proof.
  intros Hok. unfold store_received. destruct (allocate_stream_ordering rt) as [ordering rt1] eqn:Ea. cbn zeta.
  assert (rt_store rt1 = rt_store rt) as Hrt1 by (unfold allocate_stream_ordering in Ea; by simplify_eq/=).
  rewrite (qu_commit others Hquiet). rewrite Hrt1.
  destruct (prepare_store_event_with_state _ _ _ _) as [[prepared statements]|] eqn:Ep; [|unfold traceless; simpl; rewrite Hrt1; apply only_counter_refl].
  destruct (negb _); [unfold traceless; simpl; rewrite Hrt1; apply only_counter_refl|].
  pose proof (stored_is_held _ _ _ _ _ _ Hok Ep) as Hh. simpl in Hh.
  assert (forall s, events s = events (apply_store_event_with_state (redaction_observer backend) prepared (rt_store rt)) ->
    held s (in_room_id envelope) (in_event_id envelope)) as Hheld by (intros s He; unfold held; rewrite He; exact Hh).
  assert (stores_the_event (ingestion_status_of outcome) = true) as Hst by (by destruct outcome).
  unfold follow_roster. destruct (empty _); [unfold traceless; simpl; rewrite Hst; apply Hheld, book_received_events|].
  destruct (roster_stream_ids _ _); unfold traceless; simpl; rewrite Hst; [|apply Hheld, book_received_events].
  apply Hheld. simpl. apply book_received_events.
Qed.

Lemma place_traceless now envelope pdu stored_json policy sync_stream_id rt : table_ok (events (rt_store rt)) ->
  let '(result, rt') := place config backend others now envelope pdu stored_json policy sync_stream_id rt in
  traceless envelope (rt_store rt) result (rt_store rt').
Proof.
  intros Hok. unfold place. rewrite !(qu_backfill others Hquiet).
  assert (let '(result, rt') := judge_and_store config backend others now envelope pdu stored_json policy sync_stream_id rt in
    traceless envelope (rt_store rt) result (rt_store rt')) as Hj.
  { unfold judge_and_store. destruct (misses_references rt envelope); [apply defer_traceless|].
    destruct (answer_for_stored_pdu _ _) as [stored|] eqn:Es; [by apply stored_answer_traceless|].
    destruct (receipt_checks _ _ _ _ _) as [why|[[outcome why] before]]; [apply defer_traceless|]. by apply store_received_traceless. }
  destruct (misses_references rt envelope); [|done]. destruct (empty _); [apply only_counter_refl|].
  destruct (backfill_locally_denied _ _); [apply only_counter_refl|done].
Qed.

(** ** Withdrawn invites *)

Local Ltac next_guard E := match goal with |- context [if ?b then Some (None, ?rt) else _] => destruct b eqn:E; [done|] end.

Lemma rescind_traceless envelope stored_json rt : table_ok (events (rt_store rt)) ->
  match rescind_invite_from_inviter config backend envelope stored_json rt with
  | None => True
  | Some (None, rt') => rt' = rt
  | Some (Some result, rt') => traceless envelope (rt_store rt) result (rt_store rt') /\ admitted config envelope rt = true
  end.
Proof.
  intros Hok. unfold rescind_invite_from_inviter. cbv zeta.
  next_guard E1. next_guard E2. next_guard E3. destruct (List.find _ _) as [row|] eqn:Er; [|done].
  destruct (find_invite _ _ _) as [invite|]; [|done]. next_guard E4.
  assert (admitted config envelope rt = true) as Hadm.
  { unfold admitted, concerns_local_member_with_row. apply orb_false_iff in E1 as [[Et Ee]%orb_false_iff _].
    apply orb_false_iff in E3 as [Es _]. rewrite Et, Ee, Es. apply orb_true_iff. right. apply find_some in Er as [Hin Hrow].
    simpl. apply existsb_exists. by exists row. }
  destruct (allocate_sync_stream_id _) as [[n s1]|] eqn:Ea; [|done].
  assert (only_counter (rt_store rt) s1) as Hc.
  { unfold allocate_sync_stream_id in Ea. destruct (_ <=? _); [done|]. simplify_eq. by eexists. }
  unfold allocate_stream_ordering. simpl. unfold store_event_with_state.
  destruct (prepare_store_event_with_state _ _ _ _) as [[prepared statements]|] eqn:Ep; simpl; [|split; [exact Hc|done]].
  destruct (commit_persistent_transaction _ _ _); simpl; [|split; [exact Hc|done]]. split; [|done]. unfold traceless. simpl.
  eapply (stored_is_held prepared statements _ _ _ s1 _ Ep).
  Unshelve. by destruct Hc as [m ->].
Qed.

(** * The whole *)

Lemma locked_traceless now envelope rt : table_ok (events (rt_store rt)) ->
  let '(result, rt') := ingest_pdu_event_locked config backend others now envelope rt in
  match result with
  | None => only_counter (rt_store rt) (rt_store rt')
  | Some result => traceless envelope (rt_store rt) result (rt_store rt')
      /\ (stores_the_event (pr_status result) = true -> admitted config envelope rt = true)
  end.
Proof.
  intros Hok. unfold ingest_pdu_event_locked. assert (forall reason, traceless envelope (rt_store rt) (answer pdu_rejected_invalid reason) (rt_store rt)) as Hinvalid
    by (intros; apply only_counter_refl).
  destruct (empty (in_room_id envelope)); [by split|].
  destruct (answer_for_stored_pdu (rt_store rt) envelope) as [stored|] eqn:Es.
  { split; [by apply stored_answer_traceless|]. unfold answer_for_stored_pdu in Es. destruct (stored_copy_of _ _ _); by simplify_eq. }
  rewrite (qu_duplicate others Hquiet).
  destruct (governing_policy _ _) as [refusal|policy] eqn:Eg.
  { unfold governing_policy in Eg. destruct (match _ with Some _ => _ | None => _ end) in Eg; [simplify_eq; by split|].
    destruct (find_room_version_policy _); simplify_eq; by split. }
  destruct (effective_event envelope policy) as [refusal|[pdu stored_json]] eqn:Ee.
  { unfold effective_event in Ee. destruct (parse_lossless _) as [v|]; [|simplify_eq; by split].
    destruct (verify_pdu_content_hash v); [done|]. destruct (redact_event v policy); [|simplify_eq; by split].
    destruct (serialize_canonical _); simplify_eq; by split. }
  pose proof (rescind_traceless envelope stored_json rt Hok) as Hr.
  destruct (rescind_invite_from_inviter _ _ _ _ _) as [[[rescinded|] rt1]|]; [by destruct Hr; split| |apply only_counter_refl].
  subst rt1. rewrite (qu_rescission others Hquiet). destruct (admitted config envelope rt) eqn:Ea; simpl.
  - destruct (allocate_sync_stream_id (rt_store rt)) as [[id s1]|] eqn:Eid; [|apply only_counter_refl].
    assert (only_counter (rt_store rt) s1) as Hc.
    { unfold allocate_sync_stream_id in Eid. destruct (_ <=? _); [done|]. simplify_eq. by eexists. }
    rewrite (qu_admission others Hquiet). assert (table_ok (events (rt_store (with_store s1 rt)))) as Hok1 by (by destruct Hc as [m ->]).
    pose proof (place_traceless now envelope pdu stored_json policy id (with_store s1 rt) Hok1) as Hp.
    destruct (place _ _ _ _ _ _ _ _ _ _) as [result rt2]. split; [|done]. eapply traceless_counter; [exact Hc|exact Hp].
  - unfold queue_for_join. destruct (rt_pending_federated_joins rt !! _) as [queue|]; [|by split].
    destruct (existsb _ _); [split; [apply only_counter_refl|done]|]. destruct (_ || _ || _); split; (apply only_counter_refl || done).
Qed.

(** C15. What an ingestion leaves behind when no other thread changes the server
    during it and no missing history is fetched for it (a backfill would store the
    events it brings), from a server whose event table is consistent.  An event whose
    answer says it was stored is held under its ID in its room, and was asked for: a
    local user is joined, invited or knocking in the room, or it is the membership
    of a local user of the room.  With any other answer the store is the same but for its
    stream counter: no event, state, group, tip or membership changes.  And once
    the event is stored, whoever sends it again, under whatever conditions, is
    told so and the server does not change. *)
Theorem ingestion_leaves_no_trace now envelope rt result rt' : table_ok (events (rt_store rt)) ->
  ingest_pdu_event config backend others now envelope rt = (result, rt') ->
  (stores_the_event (pr_status result) = true ->
     held (rt_store rt') (in_room_id envelope) (in_event_id envelope) /\ admitted config envelope rt = true
     /\ forall config' backend' others' now' copy, in_event_id copy = in_event_id envelope ->
          in_room_id copy = in_room_id envelope -> in_room_id copy <> EmptyString ->
          ingest_pdu_event config' backend' others' now' copy rt' = (answer pdu_already_stored "event already stored", rt'))
  /\ (stores_the_event (pr_status result) = false -> only_counter (rt_store rt) (rt_store rt')).
Proof.
  intros Hok. unfold ingest_pdu_event. pose proof (locked_traceless now envelope rt Hok) as Hl.
  destruct (ingest_pdu_event_locked config backend others now envelope rt) as [[r|] rt1]; [|by intros [= <- <-]].
  destruct Hl as [Ht Ha]. unfold traceless in Ht. intros [= <- <-]. destruct (stores_the_event (pr_status r)) eqn:Est; [|by split].
  rewrite (qu_wake others Hquiet).
  assert (rt_store (wake_deferred_pdus_waiting_for (in_room_id envelope) (in_event_id envelope) rt1) = rt_store rt1) as Hw.
  { unfold wake_deferred_pdus_waiting_for. by destruct (take_deferred_pdus_awaiting _ _ _ _). }
  split; [|done]. intros _. rewrite Hw. split; [done|]. split; [by apply Ha|].
  intros config' backend' others' now' copy Hid Hroom Hne. unfold ingest_pdu_event_locked, answer_for_stored_pdu, stored_copy_of.
  destruct (in_room_id copy) as [|c room] eqn:Er; [done|]. simpl. destruct Ht as (e & He & Hr). rewrite Hw, Hid, He, Hr, <- Hroom, String.eqb_refl. done.
Qed.
End Trace.
