(* ===== verification/Rebuild.v ===== *)
(** The envelope of a retained event, rebuilt from the text it was kept as
    ([rebuild_inbound_pdu_envelope] of federation/inbound_ingestion.cpp), is the
    envelope that was received, also when the kept text is the redacted event. *)
From S2P Require Import Prelude CppStd Utf8 JsonValue JsonSerializer JsonParser JsonNumbers RoomVersion Signing JsonCanonical EventAuth EventAuthBase EventShape Redaction RedactionSafety EventId EventSigner SignedEvents RedactionOrder EventSource StoreWrites Bookkeeping Inbound ReceiptChecks Ingestion.
Open Scope Z_scope.

(** * Signatures as a list *)

Definition key_signatures (server : string) (keys : Object) : list EventSignature :=
  omap (fun m => (fun s => {| sig_server_name := server; sig_key_id := m.1; sig_signature := s |}) <$> as_string m.2) keys.

Definition server_signatures (m : string * Value) : list EventSignature :=
  match value_is_object m.2 with Some keys => key_signatures m.1 keys | None => [] end.

Definition few_keys (m : string * Value) : Prop :=
  forall keys, value_is_object m.2 = Some keys -> (length keys <= max_signatures_per_server)%nat.

Lemma parse_keys_exact server keys parsed out : (length parsed <= max_signatures_per_event)%nat ->
  parse_key_signatures server keys parsed = Some out <->
  out = parsed ++ key_signatures server keys /\ (length out <= max_signatures_per_event)%nat.
Proof.
  revert parsed. induction keys as [|[k v] keys IH]; intros parsed Hl; csimpl.
  { rewrite app_nil_r. split; [intros [= <-]; done|by intros [-> _]]. }
  unfold key_signatures. csimpl. fold (key_signatures server keys). destruct (as_string v) as [s|]; csimpl; [|by apply IH].
  set (x := {| sig_server_name := server |}). destruct (max_signatures_per_event <? _)%nat eqn:E.
  - apply Nat.ltb_lt in E. split; [done|]. intros [-> Hlen]. rewrite length_app in E, Hlen. simpl in *. lia.
  - apply Nat.ltb_ge in E. rewrite IH by done. by rewrite <- (assoc_L (++)).
Qed.

Lemma parse_servers_exact servers parsed out : (length parsed <= max_signatures_per_event)%nat ->
  parse_server_signatures servers parsed = Some out <->
  Forall few_keys servers /\ out = parsed ++ (servers ≫= server_signatures) /\ (length out <= max_signatures_per_event)%nat.
Proof.
  revert parsed. induction servers as [|[server v] servers IH]; intros parsed Hl; csimpl.
  { rewrite app_nil_r. split; [intros [= <-]; done|by intros (_ & -> & _)]. }
  rewrite Forall_cons. unfold few_keys at 1. unfold server_signatures at 1. csimpl. destruct (value_is_object v) as [keys|]; csimpl.
  2: { rewrite IH by done. naive_solver. }
  destruct (max_signatures_per_server <? _)%nat eqn:E.
  - apply Nat.ltb_lt in E. split; [done|]. intros ([Hk _] & _). specialize (Hk keys eq_refl). lia.
  - apply Nat.ltb_ge in E. destruct (parse_key_signatures server keys parsed) as [parsed1|] eqn:Ek.
    + apply parse_keys_exact in Ek as [-> Hl1]; [|done]. rewrite IH, (assoc_L (++)) by done. naive_solver lia.
    + split; [done|]. intros (_ & -> & Hlen). exfalso.
      assert (parse_key_signatures server keys parsed = Some (parsed ++ key_signatures server keys)); [|congruence].
      apply parse_keys_exact; [done|]. split; [done|]. rewrite !length_app in *. lia.
Qed.

Lemma equiv_length o o' : json_equiv (VObject o) (VObject o') -> length o = length o'.
Proof. intros (p & o1 & [= <-] & Hp & Ho)%equiv_object_inv. by rewrite Hp, (Forall2_length _ _ _ Ho). Qed.

Lemma key_signatures_equiv server o o' : json_equiv (VObject o) (VObject o') -> key_signatures server o ≡ₚ key_signatures server o'.
Proof.
  intros (p & o1 & [= ->] & Hp & Ho)%equiv_object_inv. etrans; [by apply omap_Permutation|]. fold (key_signatures server p).
  replace (key_signatures server p) with (key_signatures server o1); [done|]. symmetry. clear Hp. unfold key_signatures. induction Ho as [|m m' p o' [Hk Hv] _ IH]; csimpl; [done|].
  rewrite <- Hk, IH. by destruct Hv.
Qed.

Lemma server_signatures_equiv m m' : same_member m m' -> server_signatures m ≡ₚ server_signatures m' /\ (few_keys m -> few_keys m').
Proof.
  intros [Hk Hv]. unfold server_signatures, few_keys. rewrite <- Hk. destruct Hv as [| | | | | | |o p o' Hp Ho]; simpl; try done.
  assert (json_equiv (VObject o) (VObject o')) as He by (by apply (equiv_object o p)). split; [by apply key_signatures_equiv|].
  intros Hf keys [= <-]. rewrite <- (equiv_length _ _ He). by apply Hf.
Qed.

Lemma signatures_carried o o' sigs : option_equiv (object_member o "signatures") (object_member o' "signatures") ->
  parse_event_signatures o = Some sigs -> exists sigs', parse_event_signatures o' = Some sigs' /\ sigs ≡ₚ sigs'.
Proof.
  unfold parse_event_signatures, object_member_as_object. destruct 1 as [v w Hvw|]; [|by eauto]. destruct Hvw as [| | | | | | |s p s' Hp Hs]; simpl;
    try by eauto.
  assert (json_equiv (VObject s) (VObject s')) as He by (by apply (equiv_object s p)). rewrite <- (equiv_length _ _ He).
  destruct (_ <? _)%nat; [done|]. intros (Hf & -> & Hl)%parse_servers_exact; [|simpl; lia]. simpl in *.
  exists (s' ≫= server_signatures). rewrite parse_servers_exact by (simpl; lia). simpl. rewrite Hp in Hf.
  assert ((s ≫= server_signatures) ≡ₚ (s' ≫= server_signatures)) as Hperm.
  { etrans; [by apply bind_Permutation|]. clear -Hs. induction Hs as [|m m' p s' Hm _ IH]; csimpl; [done|].
    apply Permutation_app; [by apply server_signatures_equiv|done]. }
  split; [|done]. split; [|split; [done|by rewrite <- Hperm]].
  clear -Hf Hs. induction Hs as [|m m' p s' Hm _ IH]; [constructor|]. apply Forall_cons in Hf as [Hf1 Hf].
  constructor; [by apply (server_signatures_equiv m m')|by apply IH].
Qed.

(** * The members an envelope is read from *)

Definition carried : list string :=
  ["type"; "sender"; "origin_server_ts"; "room_id"; "state_key"; "depth"; "prev_events"; "auth_events"; "signatures"; "event_id"].

Definition carries (o o' : Object) : Prop := forall k, k ∈ carried -> option_equiv (object_member o k) (object_member o' k).

Lemma carried_string o o' k : carries o o' -> k ∈ carried -> string_member o' k = string_member o k.
Proof. intros Hc Hk. symmetry. by apply option_equiv_string, Hc. Qed.

Lemma option_equiv_int a b : option_equiv a b -> a ≫= as_int = b ≫= as_int.
Proof. destruct 1 as [v w Hvw|]; [|done]. by destruct Hvw. Qed.

Lemma carried_int o o' k : carries o o' -> k ∈ carried -> integer_member o' k = integer_member o k.
Proof. intros Hc Hk. symmetry. by apply option_equiv_int, Hc. Qed.

Lemma carried_none o o' k : carries o o' -> k ∈ carried -> object_member o k = None -> object_member o' k = None.
Proof. intros Hc Hk Hn. specialize (Hc k Hk). rewrite Hn in Hc. by inversion Hc. Qed.

Lemma carried_some o o' k : carries o o' -> k ∈ carried -> is_Some (object_member o' k) <-> is_Some (object_member o k).
Proof. intros Hc Hk. destruct (Hc k Hk); split; intros [? ?]; by eauto. Qed.

Lemma carried_depth o o' k z : carries o o' -> k ∈ carried -> object_member o k = Some (VInt z) -> object_member o' k = Some (VInt z).
Proof. intros Hc Hk Hn. specialize (Hc k Hk). rewrite Hn in Hc. inversion Hc as [v w Hvw|]; subst. by inversion Hvw. Qed.

Lemma carried_ids o o' k ids : carries o o' -> k ∈ carried -> object_member o k = Some (VArray (VString <$> ids)) ->
  object_member o' k = Some (VArray (VString <$> ids)).
Proof.
  intros Hc Hk Hn. specialize (Hc k Hk). rewrite Hn in Hc. inversion Hc as [v w Hvw|]; subst. inversion Hvw as [| | | | | |l l' Hl|]; subst.
  do 2 f_equal. clear -Hl. revert l' Hl. induction ids as [|id ids IH]; intros l' Hl; csimpl in *; inversion Hl as [|? ? ? ? Hx Hl']; subst; [done|].
  inversion Hx; subst. f_equal. by apply IH.
Qed.

(** The fields of two parsed envelopes agree, signatures up to their order. *)
Record same_fields (a b : EventEnvelope) : Prop := {
  sf_room : env_room_id b = env_room_id a;
  sf_type : env_event_type b = env_event_type a;
  sf_sender : env_sender b = env_sender a;
  sf_state_key : env_state_key b = env_state_key a;
  sf_ts : env_origin_server_ts b = env_origin_server_ts a;
  sf_signatures : env_signatures a ≡ₚ env_signatures b
}.

Ltac carried_key := apply (bool_decide_unpack _); vm_compute; exact I.

Lemma envelope_carried o o' a : carries o o' -> parse_event_envelope (VObject o) = EnvelopeParsed a ->
  exists b, parse_event_envelope (VObject o') = EnvelopeParsed b /\ same_fields a b.
Proof.
  intros Hc. unfold parse_event_envelope. cbn [value_is_object].
  rewrite (carried_string o o' "type"), (carried_string o o' "sender"), (carried_string o o' "room_id"),
    (carried_string o o' "state_key"), (carried_int o o' "origin_server_ts") by (done || carried_key).
  destruct (string_member o "type") as [t|]; [|done]. destruct (string_member o "sender") as [u|]; [|done].
  destruct (integer_member o "origin_server_ts") as [ts|]; [|done].
  repeat match goal with |- (if ?b then _ else _) = _ -> _ => destruct b; [done|] end.
  destruct (parse_event_signatures o) as [sigs|] eqn:Es; [|done].
  destruct (signatures_carried o o' sigs) as (sigs' & -> & Hp); [apply Hc; carried_key|done|].
  destruct (string_member o "state_key") as [k|]; [|intros [= <-]; by eexists].
  repeat match goal with |- (if ?b then _ else _) = _ -> _ => destruct b; [done|] end. intros [= <-]. by eexists.
Qed.

(** * Parsing again *)

(** The same event: everything but its text, its origin and the order of its
    signatures. *)
Record same_event (a b : InboundPduEnvelope) : Prop := {
  sv_event_id : in_event_id b = in_event_id a;
  sv_room_id : in_room_id b = in_room_id a;
  sv_room_version : in_room_version b = in_room_version a;
  sv_sender : in_sender b = in_sender a;
  sv_event_type : in_event_type b = in_event_type a;
  sv_state_key : in_state_key b = in_state_key a;
  sv_origin_server_ts : in_origin_server_ts b = in_origin_server_ts a;
  sv_depth : in_depth b = in_depth a;
  sv_prev_event_ids : in_prev_event_ids b = in_prev_event_ids a;
  sv_auth_event_ids : in_auth_event_ids b = in_auth_event_ids a;
  sv_signatures : in_signatures a ≡ₚ in_signatures b;
  sv_omit_members : in_omit_members b = in_omit_members a
}.

Lemma same_event_refl a : same_event a a.
Proof. by split. Qed.

Lemma same_event_trans a b c : same_event a b -> same_event b c -> same_event a c.
Proof. intros [] []. split; try congruence. by etrans. Qed.

Section Rebuild.
Context `{Libc} `{Sodium} `{Yyjson}.

Lemma reference_list_plain root policy name limit ids : object_member root name = Some (VArray (VString <$> ids)) ->
  (length ids <= limit)%nat -> reference_list_violation root policy name limit = EmptyString.
Proof.
  intros Hm Hl. unfold reference_list_violation, array_member. rewrite Hm. simpl. rewrite length_fmap.
  rewrite (proj2 (Nat.ltb_ge _ _) Hl). assert (forallb (fun entry => match as_string entry with Some _ => true | None => false end) (VString <$> ids) = true) as ->.
  { clear. induction ids as [|id ids IH]; csimpl; done. }
  by rewrite andb_false_r.
Qed.

Lemma format_carried o o' policy text : carries o o' -> pdu_format_violation (VObject o) policy = EmptyString ->
  serialize_canonical (without_unsigned (VObject o')) = SOk text -> (String.length text <= max_event_size_bytes)%nat ->
  pdu_format_violation (VObject o') policy = EmptyString.
Proof.
  intros Hc (_ & (depth & Hd & Hdr) & He & (prev & Hp & Hpl & _) & (auth & Ha & Hal & _))%pdu_format_ok Ht Hl.
  unfold pdu_format_violation. cbn [value_is_object]. rewrite Ht, (proj2 (Nat.leb_le _ _) Hl). cbn [negb].
  assert (pdu_depth_violation (VObject o') = EmptyString) as ->.
  { unfold pdu_depth_violation. cbn [value_is_object]. rewrite (carried_depth o o' "depth" depth Hc ltac:(carried_key) Hd). cbn [as_int].
    unfold max_event_depth. destruct (_ || _) eqn:E; [|done]. apply orb_true_iff in E as [E|E]; lia. }
  cbn [empty negb]. rewrite (carried_none o o' "event_id" Hc ltac:(carried_key) He), andb_false_r.
  rewrite (reference_list_plain o' policy "prev_events" max_prev_events_per_event prev (carried_ids o o' "prev_events" prev Hc ltac:(carried_key) Hp) Hpl). cbn [empty negb].
  exact (reference_list_plain o' policy "auth_events" max_auth_events_per_event auth (carried_ids o o' "auth_events" auth Hc ltac:(carried_key) Ha) Hal).
Qed.

Lemma kept_text text o : parse_lossless text = POk (VObject o) -> existsb is_unsigned o = false -> without_unsigned_json text = Some text.
Proof. intros Hp Hu. unfold without_unsigned_json. destruct (negb _); [done|]. by rewrite Hp, Hu. Qed.

Lemma parsed_again text version e o stored o' policy out :
  parse_inbound_pdu_envelope text version = Some e -> parse_lossless text = POk (VObject o) ->
  find_room_version_policy (in_room_version e) = Some policy ->
  carries o o' -> parse_lossless stored = POk (VObject o') -> existsb is_unsigned o' = false ->
  make_reference_hash_event_id (VObject o') policy = make_reference_hash_event_id (VObject o) policy ->
  starts_with "{" stored = true -> (String.length stored <= max_raw_pdu_bytes)%nat ->
  serialize_canonical (without_unsigned (VObject o')) = SOk out -> (String.length out <= max_event_size_bytes)%nat ->
  exists e', parse_inbound_pdu_envelope stored version = Some e' /\ same_event e e' /\ in_json e' = stored.
Proof.
  intros He Hp Hpol Hc Hp' Hu Hh Hs Hraw Ho Hl. unfold parse_inbound_pdu_envelope in He |- *. rewrite Hp', Hs.
  destruct (_ || _); [done|]. destruct (_ <? _)%nat; [done|]. rewrite (proj2 (Nat.ltb_ge _ _) Hraw). rewrite Hp in He. cbn [value_is_object] in He |- *.
  assert (empty stored = false) as -> by (by destruct stored). cbn [orb negb].
  destruct (parse_event_envelope (VObject o)) as [a|] eqn:Ea; [|done]. destruct (envelope_carried o o' a Hc Ea) as (b & -> & []).
  set (resolved := if empty version then "12" else version) in *. destruct (find_room_version_policy resolved) as [policy'|] eqn:Epol; [|done].
  destruct (empty (pdu_format_violation (VObject o) policy')) eqn:Ef; cbn [negb] in He; [|done]. apply empty_true in Ef.
  pose proof (pdu_format_ok o policy' Ef) as (_ & (depth & Hd & _) & _ & (prev & Hprev & _) & (auth & Hauth & _)).
  rewrite (format_carried o o' policy' out Hc Ef Ho Hl). cbn [empty negb].
  destruct (make_reference_hash_event_id (VObject o) policy') as [id|] eqn:Eid; [|done].
  destruct (without_unsigned_json text); [|done]. rewrite (kept_text stored o' Hp' Hu).
  rewrite Hprev, Hauth, Hd in He. rewrite (carried_ids o o' "prev_events" prev Hc ltac:(carried_key) Hprev), (carried_ids o o' "auth_events" auth Hc ltac:(carried_key) Hauth),
    (carried_depth o o' "depth" depth Hc ltac:(carried_key) Hd).
  destruct (names_create_of_room _ _ _) eqn:En; [done|]. injection He as <-. cbn [in_room_version] in Hpol.
  assert (policy' = policy) as -> by congruence. rewrite Hh, Eid, sf_room0, sf_type0, En. eexists. split; [reflexivity|]. split; [|done].
  split; cbn; try done. pose proof (carried_some o o' "state_key" Hc ltac:(carried_key)) as Hk.
  destruct (object_member o' "state_key"), (object_member o "state_key"); try first [done|by rewrite sf_state_key0]; destruct Hk as [K1 K2];
    [by destruct (K1 (mk_is_Some _ _ eq_refl))|by destruct (K2 (mk_is_Some _ _ eq_refl))].
Qed.

(** * Writing and reading back *)

(** The reader gives back, up to the order of members, what was written. *)
Definition reread (v : Value) : Prop :=
  forall text, serialize_canonical v = SOk text -> exists w, parse_lossless text = POk w /\ json_equiv v w.

Lemma hash_carried o od o' policy : serializable (VObject od) -> json_equiv (VObject od) (VObject o') ->
  make_reference_hash_event_id (VObject od) policy = make_reference_hash_event_id (VObject o) policy ->
  (exists id, make_reference_hash_event_id (VObject o) policy = Hashed id) ->
  make_reference_hash_event_id (VObject o') policy = make_reference_hash_event_id (VObject o) policy.
Proof.
  intros Hs He Hd [id Hid]. rewrite Hid in *. unfold make_reference_hash_event_id in *. set (url := event_id_url_safe_base64 policy) in *.
  destruct (encoded_reference_hash (VObject od) policy url) as [h|] eqn:Eh; [|done].
  destruct (reference_hash_part _ _ _ _ Eh) as (out & Hout & Hsha).
  assert (json_equiv (hashed_part policy (VObject od)) (hashed_part policy (VObject o'))) as Hp.
  { destruct (redact_event_equiv (VObject od) (VObject o') policy _ Hs He eq_refl) as (w & Hw & Hwe).
    unfold hashed_part. rewrite Hw. unfold redact_event in *. simpl in *. injection Hw as <-.
    by apply (equiv_filter (fun k => negb (existsb (fun field => k =s field) ["signatures"; "unsigned"]))). }
  by rewrite (reference_hash_of_part _ _ url out o' eq_refl (strict_equiv _ _ _ Hp Hout)), Hsha.
Qed.

Lemma equiv_no_member od o' k : NoDup (object_keys od) -> json_equiv (VObject od) (VObject o') -> object_member od k = None ->
  object_member o' k = None.
Proof. intros Hn He Hk. pose proof (equiv_lookup od o' k Hn He) as Hl. rewrite Hk in Hl. by inversion Hl. Qed.

Lemma no_unsigned o : existsb is_unsigned o = false <-> object_member o "unsigned" = None.
Proof.
  rewrite object_member_None. unfold object_keys. induction o as [|[k v] o IH]; csimpl; [set_solver|].
  unfold is_unsigned at 1. simpl. rewrite not_elem_of_cons, <- IH, orb_false_iff, string_eqb_false. naive_solver.
Qed.

(** An event written as [od] and read again. *)
Lemma written_again text version e o od stored policy :
  parse_inbound_pdu_envelope text version = Some e -> parse_lossless text = POk (VObject o) ->
  find_room_version_policy (in_room_version e) = Some policy ->
  (forall k, k ∈ carried -> object_member od k = object_member o k) -> object_member od "unsigned" = None ->
  make_reference_hash_event_id (VObject od) policy = make_reference_hash_event_id (VObject o) policy ->
  serialize_canonical_strict (VObject od) = SOk stored -> (String.length stored <= max_event_size_bytes)%nat -> reread (VObject od) ->
  exists e' w, parse_inbound_pdu_envelope stored version = Some e' /\ same_event e e' /\ in_json e' = stored
    /\ parse_lossless stored = POk w /\ json_equiv (VObject od) w.
Proof.
  intros He Hp Hpol Hk Hu Hh Hs Hl Hr. destruct (Hr stored (lossy_of_strict _ _ Hs)) as (w & Hw & Heq).
  assert (serializable (VObject od)) as Hser by (by exists stored). pose proof (serializable_keys _ Hser) as Hnd.
  destruct (equiv_object_inv _ _ Heq) as (p & o' & -> & _).
  assert (exists id, make_reference_hash_event_id (VObject o) policy = Hashed id) as Hid.
  { revert He Hpol. unfold parse_inbound_pdu_envelope. rewrite Hp. destruct (_ || _); [done|]. destruct (_ <? _)%nat; [done|]. cbn [value_is_object].
    destruct (parse_event_envelope _) as [a|]; [|done]. destruct (find_room_version_policy _) as [policy'|] eqn:Epol; [|done].
    destruct (negb _); [done|]. destruct (make_reference_hash_event_id (VObject o) policy') as [id|] eqn:Eid; [|done].
    destruct (without_unsigned_json _); [|done]. destruct (names_create_of_room _ _ _); [done|]. intros [= <-]. cbn [in_room_version].
    intros Hpol. assert (policy' = policy) as -> by congruence. by exists id. }
  assert (existsb is_unsigned o' = false) as Hu' by (by apply no_unsigned, (equiv_no_member od)).
  destruct (parsed_again text version e o stored o' policy stored) as (e' & He' & Hsame & Hj); try done.
  - intros k Hin. rewrite <- (Hk k Hin). by apply equiv_lookup.
  - by apply (hash_carried o od).
  - apply strict_object_ok in Hs as (_ & ms & _ & ->). done.
  - unfold max_raw_pdu_bytes. lia.
  - unfold without_unsigned. cbn [value_is_object]. rewrite Hu'. cbn [negb]. by apply lossy_of_strict, (strict_equiv (VObject od)).
  - by exists e', (VObject o').
Qed.

(** * What is kept of a received event *)

Lemma parsed_serializable text v : raw_reads -> parse_lossless text = POk v -> serializable v.
Proof. intros Hr Hp. by eapply well_formed_serializes, parse_lossless_well_formed. Qed.

Lemma filtered_serializable f o : serializable (VObject o) -> serializable (VObject (List.filter f o)).
Proof.
  intros [Hnd Ho]%(writable_object true). apply (writable_object true). unfold object_keys in *.
  induction o as [|m o IH]; cbn; [split; constructor|]. csimpl in Hnd. apply NoDup_cons in Hnd as [Hm Hnd]. apply Forall_cons in Ho as [Hw Ho].
  destruct (IH Hnd Ho) as [I1 I2]. destruct (f m); [|done]. split; [|by constructor]. csimpl. apply NoDup_cons. split; [|done].
  intros (x & Hx & Hin)%list_elem_of_fmap. apply Hm. rewrite Hx. apply list_elem_of_fmap_2. rewrite list_elem_of_In, filter_In in Hin.
  destruct Hin as [Hin _]. by apply list_elem_of_In.
Qed.

Lemma redact_without_unsigned o t policy :
  omap (redact_member t policy) (List.filter (fun m => negb (is_unsigned m)) o) = omap (redact_member t policy) o.
Proof.
  induction o as [|[k v] o IH]; csimpl; [done|]. unfold is_unsigned at 1. simpl. destruct (k =s "unsigned") eqn:E; csimpl; [|by rewrite IH].
  breflect. subst k. assert (redact_member t policy ("unsigned", v) = None) as ->; [|exact IH].
  unfold redact_member, key_is_allowed. simpl. by destruct (_ || _).
Qed.

(** The received text, stripped of unsigned data. *)
Lemma stripped_again text version e o policy : raw_reads ->
  parse_inbound_pdu_envelope text version = Some e -> parse_lossless text = POk (VObject o) ->
  find_room_version_policy (in_room_version e) = Some policy -> reread (without_unsigned (VObject o)) ->
  exists e1, parse_inbound_pdu_envelope (in_json e) version = Some e1 /\ same_event e e1 /\ in_json e1 = in_json e.
Proof.
  intros Hraw He Hp Hpol Hr.
  assert (without_unsigned_json text = Some (in_json e) /\ pdu_format_violation (VObject o) policy = EmptyString) as [Hj Hf].
  { revert He Hpol. unfold parse_inbound_pdu_envelope. rewrite Hp. destruct (_ || _); [done|]. destruct (_ <? _)%nat; [done|]. cbn [value_is_object].
    destruct (parse_event_envelope _) as [a|]; [|done]. destruct (find_room_version_policy _) as [policy'|] eqn:Epol; [|done].
    destruct (empty (pdu_format_violation _ _)) eqn:Ef; cbn [negb]; [|done]. destruct (make_reference_hash_event_id _ _) as [id|]; [|done].
    destruct (without_unsigned_json text); [|done]. destruct (names_create_of_room _ _ _); [done|]. intros [= <-]. cbn [in_room_version in_json].
    intros Hpol. assert (policy' = policy) as -> by congruence. by apply empty_true in Ef. }
  destruct (stripped_text text o _ Hp Hj) as [[Ht _]|Hs].
  { exists e. rewrite Ht. split; [done|]. split; [apply same_event_refl|done]. }
  destruct (pdu_format_ok o policy Hf) as ((out & Hout & Hlen) & _). rewrite Hs in Hout. injection Hout as <-.
  unfold without_unsigned in Hs, Hr. cbn [value_is_object] in Hs, Hr.
  set (od := List.filter (fun m => negb (is_unsigned m)) o) in *.
  assert (forall k, k <> "unsigned" -> object_member od k = object_member o k) as Hk.
  { intros k Hne. apply (object_member_filter (fun k => negb (k =s "unsigned"))). by apply negb_true_iff, string_eqb_false. }
  assert ((if negb (existsb is_unsigned o) then VObject o else VObject od) = VObject od) as Hod.
  { destruct (existsb is_unsigned o) eqn:E; [done|]. cbn. f_equal. unfold od. clear -E. induction o as [|m o IH]; [done|]. cbn in *.
    apply orb_false_iff in E as [-> E]. cbn. by rewrite <- IH. }
  rewrite Hod in Hs, Hr. destruct (filtered_serializable (fun m => negb (is_unsigned m)) o (parsed_serializable text _ Hraw Hp)) as [out Hstrict].
  fold od in Hstrict. pose proof (lossy_of_strict _ _ Hstrict) as Hl. rewrite Hs in Hl. injection Hl as <-.
  destruct (written_again text version e o od (in_json e) policy) as (e1 & w & H1' & H2' & H3' & _); try done; [| | |by exists e1].
  - intros k Hin. apply Hk. intros ->. by vm_compute in Hin; repeat (apply elem_of_cons in Hin as [?|Hin]; [done|]); apply elem_of_nil in Hin.
  - apply (object_member_dropped (fun k => negb (k =s "unsigned"))). done.
  - unfold make_reference_hash_event_id, encoded_reference_hash, redact_event. cbn [value_is_object].
    assert (string_member od "type" = string_member o "type") as -> by (unfold string_member; by rewrite Hk).
    unfold od. by rewrite redact_without_unsigned.
Qed.

(** The create event of a room whose ID it gives has no room ID of its own. *)
Definition plain_room_id (policy : RoomVersionPolicy) (o : Object) : Prop :=
  create_event_is_room_id policy = true -> string_member o "type" = Some "m.room.create" -> object_member o "room_id" = None.

Lemma redacted_carried policy o k : plain_room_id policy o -> k ∈ carried ->
  object_member (omap (redact_member (string_member o "type") policy) o) k = object_member o k.
Proof.
  intros Hc Hk. destruct (decide (k = "room_id")) as [->|Hne].
  - rewrite object_member_redacted. destruct (object_member o "room_id") as [v|] eqn:E; [|done]. cbn [mbind option_bind].
    unfold redact_member. cbn [fst]. destruct (_ && _) eqn:Eo; [exfalso|].
    + rewrite String.eqb_refl in Eo. cbn [andb] in Eo. apply andb_true_iff in Eo as [E1 E2]. destruct (string_member o "type") as [t|] eqn:Et; [|done].
      breflect. subst t. specialize (Hc E1 Et). congruence.
    + rewrite key_is_allowed_base by done. by destruct (string_member o "type").
  - apply object_member_kept. unfold carried in Hk. rewrite !elem_of_cons, elem_of_nil in Hk.
    destruct_or! Hk; try done; subst k; try (by destruct Hne); kept.
Qed.

(** A received text, kept as its redaction. *)
Lemma redacted_again text version e o policy stored : raw_reads ->
  parse_inbound_pdu_envelope text version = Some e -> parse_lossless text = POk (VObject o) ->
  find_room_version_policy (in_room_version e) = Some policy -> plain_room_id policy o ->
  let od := omap (redact_member (string_member o "type") policy) o in
  serialize_canonical (VObject od) = SOk stored -> (String.length stored <= max_event_size_bytes)%nat -> reread (VObject od) ->
  exists e2, parse_inbound_pdu_envelope stored version = Some e2 /\ same_event e e2
    /\ exists w, effective_event e2 policy = inr (w, stored) /\ json_equiv (VObject od) w.
Proof.
  intros Hraw He Hp Hpol Hroom od Hs Hl Hr. assert (redact_event (VObject o) policy = Redacted (VObject od)) as Hred by done.
  pose proof (redact_event_idempotent _ _ _ Hred) as Hi.
  destruct (redact_event_writable true (VObject o) policy _ (parsed_serializable text _ Hraw Hp) Hred) as [out Hstrict].
  change (serialize_canonical_strict (VObject od) = SOk out) in Hstrict. pose proof (lossy_of_strict _ _ Hstrict) as Hl'. rewrite Hs in Hl'. injection Hl' as <-.
  destruct (written_again text version e o od stored policy) as (e2 & w & H1' & H2' & H3' & H4' & H5'); try done.
  - intros k Hk. by apply redacted_carried.
  - unfold od. rewrite object_member_redacted. destruct (object_member o "unsigned") as [v|]; [|done]. cbn [mbind option_bind].
    unfold redact_member, key_is_allowed. cbn. by destruct (_ || _).
  - unfold make_reference_hash_event_id, encoded_reference_hash. by rewrite Hred, Hi.
  - exists e2. split; [done|]. split; [done|]. unfold effective_event. rewrite H3', H4'. destruct (verify_pdu_content_hash w); [by exists w|].
    destruct (redact_event_equiv (VObject od) w policy (VObject od) (ex_intro _ stored Hstrict) H5' Hi) as (w2 & -> & Hw2).
    rewrite (lossy_of_strict _ _ (strict_equiv _ _ _ Hw2 Hstrict)). by exists w2.
Qed.

(** C18. The envelope of a retained event survives the wait.  When the reader gives
    back what the serializer wrote, an event that was received, stripped of its
    unsigned data and, on a content-hash mismatch, redacted is rebuilt from the text
    it was kept as: with the same ID, room, sender, type, state key, timestamp, depth
    and references, the same signatures in some order, and the origin it was kept
    with; and judged again it is the event that was judged before, up to the order of
    its members, under the very same text.  For an event that was redacted this
    supposes that the redacted text is within the size limit and that it is not, in a
    room version that takes the room's ID from the create event, a create event with
    a room_id member of its own (redaction drops that member, and with it the room
    the event was received for). *)
Theorem retained_envelopes_rebuild pdu_json version e root policy pdu stored_json origin : raw_reads ->
  parse_inbound_pdu_envelope pdu_json version = Some e -> find_room_version_policy (in_room_version e) = Some policy ->
  effective_event e policy = inr (pdu, stored_json) ->
  parse_lossless (in_json e) = POk (VObject root) ->
  (verify_pdu_content_hash (VObject root) = false ->
     plain_room_id policy root /\ (String.length stored_json <= max_event_size_bytes)%nat) ->
  (forall v, parse_lossless pdu_json = POk v -> reread (without_unsigned v)) ->
  (forall redacted, redact_event (VObject root) policy = Redacted redacted -> reread redacted) ->
  exists e', rebuild_inbound_pdu_envelope stored_json version origin = Some e' /\ same_event e e' /\ in_origin e' = origin
    /\ exists pdu', effective_event e' policy = inr (pdu', stored_json) /\ json_equiv pdu pdu'.
Proof.
  intros Hraw He Hpol Heff Hroot Hlen Hstrip Hred.
  assert (exists o, parse_lossless pdu_json = POk (VObject o)) as [o Ho].
  { revert He. unfold parse_inbound_pdu_envelope. destruct (_ || _); [done|]. destruct (_ <? _)%nat; [done|].
    destruct (parse_lossless pdu_json) as [v|]; [|done]. destruct v as [| | | | | |o|]; try done. by exists o. }
  destruct (stripped_again pdu_json version e o policy Hraw He Ho Hpol (Hstrip _ Ho)) as (e1 & E1 & S1 & J1).
  assert (find_room_version_policy (in_room_version e1) = Some policy) as Hpol1 by (by rewrite (sv_room_version _ _ S1)).
  unfold rebuild_inbound_pdu_envelope. unfold effective_event in Heff. rewrite Hroot in Heff. destruct (verify_pdu_content_hash (VObject root)) eqn:Ev.
  - injection Heff as <- <-. rewrite E1. cbn. eexists. split; [reflexivity|]. split; [by destruct S1; split|]. split; [done|].
    exists (VObject root). split; [|apply json_equiv_refl]. unfold effective_event. cbn [with_origin in_json]. by rewrite J1, Hroot, Ev.
  - unfold redact_event in Heff. cbn [value_is_object] in Heff. destruct (serialize_canonical _) as [out|] eqn:Es; [|done]. injection Heff as <- <-. destruct (Hlen eq_refl) as [Hroom Hsize].
    assert (serialize_canonical (VObject (omap (redact_member (string_member root "type") policy) root)) = SOk out) as Es' by exact Es.
    destruct (redacted_again (in_json e) version e1 root policy out Hraw E1 Hroot Hpol1 Hroom Es') as (e2 & E2 & S2 & w & Hw & Hequiv).
    + exact Hsize.
    + by apply Hred.
    + rewrite E2. cbn. eexists. split; [reflexivity|]. pose proof (same_event_trans _ _ _ S1 S2) as []. split; [by split|]. split; [done|].
      by exists w.
Qed.
End Rebuild.
