(* ===== verification/Retry.v ===== *)
(** The job that retries retained events (homeserver/deferred_pdu_retry.cpp): one
    pass drops what is over its limits, retries what is due and says when to come
    back.  The sink it calls is [ingest_pdu_event]; what the production sink adds,
    notifications, is part of what other threads do before the row is settled.
    The log and the audit trail are left out. *)
From S2P Require Import Prelude CppStd JsonValue JsonSerializer JsonParser RoomVersion Signing EventAuth EventTable StateTables Store StoreWrites RedactionService EventSource StateAuth Inbound DeferredWake ReceiptChecks Ingestion.
Open Scope Z_scope.

(** * Limits and delays *)

Definition max_deferred_pdu_age : Z := 24 * 3600 * 1000.
Definition max_deferred_pdu_attempts : Z := 10.
Definition deferred_pdu_initial_backoff : Z := 30 * 1000.
Definition deferred_pdu_max_backoff : Z := 3600 * 1000.
Definition deferred_pdu_retry_batch : nat := 32.
Definition deferred_pdu_idle_delay : Z := 5 * 60 * 1000.

(** The steady clock counts nanoseconds, delays are in milliseconds. *)
Definition ticks_per_ms : Z := 1000000.

Definition over_age_or_attempt_limit (row : PersistentDeferredPdu) (now_ms : Z) : bool :=
  (max_deferred_pdu_attempts <=? dp_attempts row) || (max_deferred_pdu_age <? now_ms - dp_received_at_ms row).

Definition retry_is_finished (status : PduIngestionStatus) : bool :=
  match status with
  | pdu_accepted | pdu_soft_failed | pdu_rejected_auth | pdu_rejected_state_conflict | pdu_rejected_invalid
  | pdu_already_stored | pdu_rejected_acl => true
  | pdu_internal_error | pdu_missing_prev_state | pdu_main_overloaded | pdu_deferred => false
  end.

(** The loop runs while the count is below [attempts_so_far] and the delay below
    its cap, so at most as often as the count allows. *)
Fixpoint double_delay (rounds : nat) (delay : Z) : Z :=
  match rounds with
  | O => delay
  | S rounds => if delay <? deferred_pdu_max_backoff then double_delay rounds (delay * 2) else delay
  end.

Definition deferred_pdu_backoff (attempts_so_far : Z) : Z :=
  Z.min (double_delay (Z.to_nat (attempts_so_far - 1)) deferred_pdu_initial_backoff) deferred_pdu_max_backoff.

Definition find_event_status (s : PersistentStore) (event_id : string) : option string :=
  ev_status <$> find event_id (events s).

(** The clock readings of a pass, when it is asked to stop, and what other
    threads do at the points where it holds no lock. *)
Record Surroundings : Type := {
  steady_start : Z;
  wall_start : Z;
  stop_requested : nat -> bool;
  before_retry : nat -> Runtime -> Runtime;
  ingestion_wall : nat -> Z;
  ingestion_others : nat -> Others;
  before_settle : nat -> Runtime -> Runtime;
  steady_at : nat -> Z;
  before_sleep : Runtime -> Runtime;
  steady_end : Z
}.

Section Retry.
Context `{Yyjson} `{Libc} `{Sodium} `{IterationOrder}.
Context (config : Config) (backend : PersistentStore -> list Statement -> bool).

(** * Phase 1 *)

Definition schedule (next : gmap string Z) (rt : Runtime) : Runtime :=
  {| rt_store := rt_store rt; rt_deferred := rt_deferred rt; rt_next_stream_ordering := rt_next_stream_ordering rt;
     rt_pending_federated_joins := rt_pending_federated_joins rt; rt_deferred_pdu_next_attempt := next |}.

(** [drop_deferral] without its log lines, and the removal of a row whose event is
    stored or settled. *)
Definition drop_deferral (event_id : string) (rt : Runtime) : Runtime :=
  with_deferred (remove_deferred_pdu backend (rt_store rt) event_id (rt_deferred rt)).2
    (schedule (delete event_id (rt_deferred_pdu_next_attempt rt)) rt).

Inductive Disposition : Type := row_dropped | row_stored | row_scheduled | row_due.

Definition disposition (now now_ms : Z) (rt : Runtime) (row : PersistentDeferredPdu) : Disposition :=
  if over_age_or_attempt_limit row now_ms then row_dropped
  else
    match find_event_status (rt_store rt) (dp_event_id row) with
    | Some _ => row_stored
    | None =>
        match rt_deferred_pdu_next_attempt rt !! dp_event_id row with
        | Some scheduled => if now <? scheduled then row_scheduled else row_due
        | None => row_due
        end
    end.

Definition rows_with (wanted : Disposition -> bool) (now now_ms : Z) (rt : Runtime) : list PersistentDeferredPdu :=
  List.filter (fun row => wanted (disposition now now_ms rt row)) (deferred_pdus (rt_deferred rt)).

Definition due_rows (now now_ms : Z) (rt : Runtime) : list (PersistentDeferredPdu * string) :=
  (fun row => (row, default EmptyString (stored_room_version (rt_store rt) (dp_room_id row))))
    <$> take deferred_pdu_retry_batch (rows_with (fun d => match d with row_due => true | _ => false end) now now_ms rt).

Definition select_due (now now_ms : Z) (rt : Runtime) : list (PersistentDeferredPdu * string) * Runtime :=
  let dropped := rows_with (fun d => match d with row_dropped => true | _ => false end) now now_ms rt in
  let stored := rows_with (fun d => match d with row_stored => true | _ => false end) now now_ms rt in
  (due_rows now now_ms rt,
   foldl (fun rt row => drop_deferral (dp_event_id row) rt)
     (foldl (fun rt row => drop_deferral (dp_event_id row) rt) rt dropped) stored).

(** * Phase 2 *)

Definition next_attempt (row : PersistentDeferredPdu) : PersistentDeferredPdu :=
  {| dp_event_id := dp_event_id row; dp_room_id := dp_room_id row; dp_origin := dp_origin row; dp_pdu_json := dp_pdu_json row;
     dp_received_at_ms := dp_received_at_ms row; dp_attempts := (dp_attempts row + 1) mod 2 ^ 32 |}.

Definition settle (now : Z) (row : PersistentDeferredPdu) (status : PduIngestionStatus) (rt : Runtime) : Runtime :=
  if retry_is_finished status then drop_deferral (dp_event_id row) rt
  else
    match find_row (dp_event_id row) (rt_deferred rt) with
    | None => schedule (delete (dp_event_id row) (rt_deferred_pdu_next_attempt rt)) rt
    | Some current =>
        let rt := with_deferred (upsert_deferred_pdu backend (rt_store rt) (next_attempt current) (rt_deferred rt)).2 rt in
        schedule (<[dp_event_id row := now + deferred_pdu_backoff ((dp_attempts row + 1) mod 2 ^ 32) * ticks_per_ms]>
                    (rt_deferred_pdu_next_attempt rt)) rt
    end.

(** The envelope of a retained event, when it is still the event it was kept for. *)
Definition kept_envelope (row : PersistentDeferredPdu) (room_version : string) : option InboundPduEnvelope :=
  match rebuild_inbound_pdu_envelope (dp_pdu_json row) room_version (dp_origin row) with
  | Some envelope =>
      if (in_event_id envelope <>s dp_event_id row) || (in_room_id envelope <>s dp_room_id row) then None else Some envelope
  | None => None
  end.

Definition retry_item (around : Surroundings) (i : nat) (item : PersistentDeferredPdu * string) (rt : Runtime) : Runtime :=
  let rt := before_retry around i rt in
  match kept_envelope item.1 item.2 with
  | None => drop_deferral (dp_event_id item.1) rt
  | Some envelope =>
      let '(result, rt) := ingest_pdu_event config backend (ingestion_others around i) (ingestion_wall around i) envelope rt in
      settle (steady_at around i) item.1 (pr_status result) (before_settle around i rt)
  end.

Fixpoint retry_items (around : Surroundings) (i : nat) (due : list (PersistentDeferredPdu * string)) (rt : Runtime) : Runtime :=
  match due with
  | [] => rt
  | item :: due => if stop_requested around i then rt else retry_items around (S i) due (retry_item around i item rt)
  end.

(** * Phase 3 *)

Definition wait_for (now : Z) (rt : Runtime) (row : PersistentDeferredPdu) : Z :=
  match rt_deferred_pdu_next_attempt rt !! dp_event_id row with
  | None => 0
  | Some scheduled => Z.quot (scheduled - now) ticks_per_ms
  end.

Definition sleep_for (now : Z) (rt : Runtime) : Z :=
  Z.max (foldl (fun delay row => Z.min delay (wait_for now rt row)) deferred_pdu_idle_delay (deferred_pdus (rt_deferred rt))) 1000.

Definition retry_deferred_pdus (around : Surroundings) (rt : Runtime) : Z * Runtime :=
  let '(due, rt) := select_due (steady_start around) (wall_start around) rt in
  let rt := before_sleep around (retry_items around 0 due rt) in
  (sleep_for (steady_end around) rt, rt).

(** * Rows *)

#[local] Arguments find_row : simpl never.

Definition retained_row (id : string) (rt : Runtime) : option PersistentDeferredPdu := find_row id (rt_deferred rt).
Definition unique_ids (rt : Runtime) : Prop := NoDup (dp_event_id <$> deferred_pdus (rt_deferred rt)).

(** The row of [id] is as it was; at most its event was woken. *)
Record spared (id : string) (rt rt' : Runtime) : Prop := {
  sp_unique : unique_ids rt -> unique_ids rt';
  sp_row : retained_row id rt' = retained_row id rt;
  sp_next : rt_deferred_pdu_next_attempt rt' !! id = None
            \/ rt_deferred_pdu_next_attempt rt' !! id = rt_deferred_pdu_next_attempt rt !! id
}.
Definition spares (id : string) (f : Runtime -> Runtime) : Prop := forall rt, spared id rt (f rt).

Lemma spared_refl id rt : spared id rt rt.
Proof. by split; auto. Qed.

Lemma spared_trans id rt1 rt2 rt3 : spared id rt1 rt2 -> spared id rt2 rt3 -> spared id rt1 rt3.
Proof.
  intros [U1 R1 N1] [U2 R2 N2]. split; [auto|congruence|]. destruct N2 as [|N2]; [by left|]. rewrite N2. done.
Qed.

Lemma spared_same id rt rt' : rt_deferred rt' = rt_deferred rt ->
  rt_deferred_pdu_next_attempt rt' = rt_deferred_pdu_next_attempt rt -> spared id rt rt'.
Proof. intros Hd Hn. split; unfold unique_ids, retained_row; rewrite ?Hd, ?Hn; auto. Qed.

Lemma find_row_app id rows more a a' : List.find (fun row => dp_event_id row =s id) (rows ++ more) =
  match find_row id {| deferred_pdus := rows; awaits := a |} with
  | Some row => Some row | None => find_row id {| deferred_pdus := more; awaits := a' |} end.
Proof. unfold find_row. simpl. induction rows as [|r rows IH]; simpl; [done|]. by destruct (dp_event_id r =s id). Qed.

Lemma find_row_none id d : find_row id d = None <-> id ∉ dp_event_id <$> deferred_pdus d.
Proof.
  pose proof (find_row_spec id d) as Hs. destruct (find_row id d) as [row|]; [|done]. split; [done|]. intros Hn. exfalso. apply Hn.
  destruct Hs as [Hin <-]. by apply list_elem_of_fmap_2.
Qed.

Lemma remove_rows s x d : let d' := (remove_deferred_pdu backend s x d).2 in
  (NoDup (dp_event_id <$> deferred_pdus d) -> NoDup (dp_event_id <$> deferred_pdus d'))
  /\ (forall id, id <> x -> find_row id d' = find_row id d)
  /\ (NoDup (dp_event_id <$> deferred_pdus d) -> backend s [delete_deferred_pdu_row x] = true -> find_row x d' = None).
Proof.
  unfold remove_deferred_pdu. destruct (find_row x d) as [row|] eqn:E; [|by cbn; rewrite E]. cbn.
  destruct (backend s _) eqn:Eb; cbn; [|split; [done|]; split; [done|congruence]].
  split; [|split].
  - intros Hn. by apply erase_row_spec.
  - intros id Hne. unfold find_row. cbn. clear E. induction (deferred_pdus d) as [|r rows IH]; cbn; [done|].
    destruct (dp_event_id r =s x) eqn:Ex; cbn; breflect.
    + destruct (dp_event_id r =s id) eqn:Ei; [|done]. breflect. congruence.
    + by rewrite IH.
  - intros Hn _. apply find_row_none. cbn. intros (r & Hx & Hr)%list_elem_of_fmap. apply (erase_row_spec x _ Hn) in Hr. naive_solver.
Qed.

(** The row an update leaves. *)
Definition updated (pdu row : PersistentDeferredPdu) : PersistentDeferredPdu :=
  {| dp_event_id := dp_event_id row; dp_room_id := dp_room_id row; dp_origin := dp_origin pdu; dp_pdu_json := dp_pdu_json row;
     dp_received_at_ms := dp_received_at_ms row; dp_attempts := dp_attempts pdu |}.

Lemma rebuild_rows s d : deferred_pdus (rebuild_deferred_pdu_awaits s d) = deferred_pdus d.
Proof. done. Qed.

Lemma upsert_rows s pdu d : let d' := (upsert_deferred_pdu backend s pdu d).2 in
  (NoDup (dp_event_id <$> deferred_pdus d) -> NoDup (dp_event_id <$> deferred_pdus d'))
  /\ (forall id, id <> dp_event_id pdu -> find_row id d' = find_row id d)
  /\ forall row, find_row (dp_event_id pdu) d = Some row ->
       (find_row (dp_event_id pdu) d' = Some row \/ find_row (dp_event_id pdu) d' = Some (updated pdu row))
       /\ (dp_event_id pdu <> EmptyString -> dp_room_id pdu <> EmptyString -> backend s [upsert_deferred_pdu_row pdu] = true ->
           find_row (dp_event_id pdu) d' = Some (updated pdu row)).
Proof.
  unfold upsert_deferred_pdu. destruct (_ || _) eqn:Ee; cbn.
  { split; [done|]. split; [done|]. intros row Hr. split; [by left|]. intros Hi Hr' _. by destruct (dp_event_id pdu), (dp_room_id pdu). } destruct (find_row (dp_event_id pdu) d) as [row|] eqn:E.
  - cbn. destruct (backend s _); cbn; [|by rewrite E; naive_solver]. set (d' := if index_is_current d then _ else _).
    assert (deferred_pdus d' = update_row pdu (deferred_pdus d)) as Hd by (unfold d'; by destruct (index_is_current d)).
    rewrite Hd, update_row_ids. split; [done|]. unfold find_row in *. rewrite Hd. clear d' Hd.
    induction (deferred_pdus d) as [|r rows IH]; cbn in *; [done|]. destruct (dp_event_id r =s dp_event_id pdu) eqn:Er.
    + simplify_eq. cbn. rewrite Er. split; [|naive_solver]. intros id Hne. breflect. by rewrite Er, (proj2 (String.eqb_neq _ _)).
    + cbn. rewrite Er. destruct (IH E) as [I1 I2]. split; [|exact I2]. intros id Hne. by rewrite I1.
  - destruct (retained_set_full _ _); cbn; [by rewrite E|]. destruct (backend s _); cbn; [|by rewrite E].
    set (d' := if index_is_current d then _ else _).
    assert (deferred_pdus d' = deferred_pdus d ++ [pdu]) as Hd by (unfold d'; by destruct (index_is_current d)).
    rewrite Hd. split; [|split; [|done]].
    + intros Hn. rewrite fmap_app. apply NoDup_app. split; [done|]. split; [|apply NoDup_singleton]. cbn. intros x Hx ->%list_elem_of_singleton.
      by apply find_row_none in E.
    + intros id Hne. unfold find_row at 1. rewrite Hd, (find_row_app id _ _ (awaits d) (awaits d)). destruct d as [rows a]. cbn.
      destruct (find_row id _); [done|]. unfold find_row. cbn. by rewrite (proj2 (String.eqb_neq _ _)) by congruence.
Qed.
(** * An ingestion spares the rows *)

Record sparing (id : string) (others : Others) : Prop := {
  so_duplicate : spares id (after_duplicate_check others);
  so_rescission : spares id (after_rescission others);
  so_admission : spares id (after_admission others);
  so_backfill : spares id (during_backfill others);
  so_commit : spares id (during_commit others);
  so_wake : spares id (before_wake others)
}.

(** The event is another one, or the retained one from the same server. *)
Definition own (id : string) (envelope : InboundPduEnvelope) (rt : Runtime) : Prop :=
  in_event_id envelope = id -> exists row, retained_row id rt = Some row /\ dp_origin row = in_origin envelope.

Lemma own_spared id envelope rt rt' : own id envelope rt -> spared id rt rt' -> own id envelope rt'.
Proof. intros Ho [_ Hr _] He. rewrite Hr. by apply Ho. Qed.

Lemma defer_spares id now envelope json why rt : own id envelope rt ->
  spared id rt (defer_unresolved backend now envelope json why rt).2.
Proof.
  intros Ho. unfold defer_unresolved, defer_unresolved_pdu. destruct (empty _); [apply spared_refl|].
  set (pdu := {| dp_event_id := in_event_id envelope |}). pose proof (upsert_rows (rt_store rt) pdu (rt_deferred rt)) as (U1 & U2 & U3).
  destruct (upsert_deferred_pdu _ _ _ _) as [result d]. cbn in *. split; [exact U1| |by right].
  unfold retained_row. cbn. destruct (decide (id = in_event_id envelope)) as [->|Hne]; [|by apply U2].
  destruct (Ho eq_refl) as (row & Hr & Horigin). unfold retained_row in Hr. rewrite Hr.
  assert (updated pdu row = row) as Hu.
  { unfold updated, pdu. cbn. rewrite Hr. cbn. rewrite <- Horigin. by destruct row. }
  destruct (U3 row Hr) as [[-> | ->] _]; [done|by rewrite Hu].
Qed.

Section Spares.
Context (id : string) (others : Others) (Hothers : sparing id others).

Lemma store_received_spares envelope pdu json policy outcome why before n rt :
  spared id rt (store_received config backend others envelope pdu json policy outcome why before n rt).2.
Proof.
  unfold store_received. cbn [allocate_stream_ordering]. set (rt1 := {| rt_store := rt_store rt |}).
  assert (spared id rt rt1) as S1 by (by apply spared_same).
  destruct (prepare_store_event_with_state _ _ _ _) as [[prepared statements]|]; [|exact S1].
  pose proof (spared_trans _ _ _ _ S1 (so_commit id others Hothers rt1)) as S2.
  destruct (negb _); [exact S2|]. eapply spared_trans; [exact S2|]. unfold follow_roster.
  destruct (empty _); [by apply spared_same|]. destruct (roster_stream_ids _ _); by apply spared_same.
Qed.

Lemma judge_spares now envelope pdu json policy n rt : own id envelope rt ->
  spared id rt (judge_and_store config backend others now envelope pdu json policy n rt).2.
Proof.
  intros Ho. unfold judge_and_store. destruct (misses_references _ _); [by apply defer_spares|].
  destruct (answer_for_stored_pdu _ _); [apply spared_refl|].
  destruct (receipt_checks _ _ _ _ _) as [why|[[outcome why] before]]; [by apply defer_spares|apply store_received_spares].
Qed.

Lemma place_spares now envelope pdu json policy n rt : own id envelope rt ->
  spared id rt (place config backend others now envelope pdu json policy n rt).2.
Proof.
  intros Ho. unfold place. destruct (misses_references _ _); [|by apply judge_spares]. destruct (empty _); [apply spared_refl|].
  pose proof (so_backfill id others Hothers rt) as Hb. destruct (backfill_locally_denied _ _); [exact Hb|].
  eapply spared_trans; [exact Hb|]. apply judge_spares. by eapply own_spared.
Qed.

Lemma rescind_spares envelope json rt :
  match rescind_invite_from_inviter config backend envelope json rt with Some (_, rt') => spared id rt rt' | None => True end.
Proof.
  unfold rescind_invite_from_inviter. cbv zeta.
  repeat match goal with
  | |- context [if ?b then Some (None, rt) else _] => destruct b; [apply spared_refl|]
  | |- context [match ?x with Some _ => _ | None => Some (None, rt) end] => destruct x; [|apply spared_refl]
  end.
  destruct (allocate_sync_stream_id _) as [[n s1]|]; [|done]. cbn [allocate_stream_ordering].
  destruct (store_event_with_state _ _ _ _ _ _) as [stored s2]. by apply spared_same.
Qed.

Lemma locked_spares now envelope rt : own id envelope rt ->
  spared id rt (ingest_pdu_event_locked config backend others now envelope rt).2.
Proof.
  intros Ho. unfold ingest_pdu_event_locked. destruct (empty _); [apply spared_refl|].
  destruct (answer_for_stored_pdu _ _); [apply spared_refl|].
  pose proof (so_duplicate id others Hothers rt) as S1. destruct (governing_policy _ _) as [r|policy]; [exact S1|].
  destruct (effective_event _ _) as [r|[pdu json]]; [exact S1|].
  pose proof (rescind_spares envelope json (after_duplicate_check others rt)) as Hr.
  destruct (rescind_invite_from_inviter _ _ _ _ _) as [[[r|] rt2]|]; [by eapply spared_trans| |exact S1].
  pose proof (spared_trans _ _ _ _ (spared_trans _ _ _ _ S1 Hr) (so_rescission id others Hothers rt2)) as S3.
  destruct (negb _).
  { eapply spared_trans; [exact S3|]. unfold queue_for_join. destruct (_ !! _); [|apply spared_refl].
    repeat (destruct (existsb _ _) || destruct (_ || _)); by apply spared_same. }
  destruct (allocate_sync_stream_id _) as [[n s1]|]; [|exact S3].
  pose proof (so_admission id others Hothers (with_store s1 (after_rescission others rt2))) as S4.
  assert (spared id rt (after_admission others (with_store s1 (after_rescission others rt2)))) as S5.
  { eapply spared_trans; [exact S3|]. eapply spared_trans; [|exact S4]. by apply spared_same. }
  pose proof (place_spares now envelope pdu json policy n _ (own_spared _ _ _ _ Ho S5)) as S6.
  destruct (place _ _ _ _ _ _ _ _ _ _) as [result rt3]. by eapply spared_trans.
Qed.

Lemma wake_spares room x rt : spared id rt (wake_deferred_pdus_waiting_for room x rt).
Proof.
  unfold wake_deferred_pdus_waiting_for. assert (deferred_pdus (take_deferred_pdus_awaiting (rt_store rt) room x (rt_deferred rt)).2
    = deferred_pdus (rt_deferred rt)) as Hd.
  { unfold take_deferred_pdus_awaiting. destruct (index_is_current _); cbn; destruct (_ !! _); try done; by destruct (foldl _ _ _) as [[??]?]. }
  destruct (take_deferred_pdus_awaiting _ _ _ _) as [woken d]. cbn in Hd.
  split; unfold unique_ids, retained_row, find_row; cbn; rewrite ?Hd; [done|done|]. generalize (rt_deferred_pdu_next_attempt rt).
  induction woken as [|w woken IH]; intros next; cbn; [by right|]. destruct (IH (delete w next)) as [|Hn]; [by left|].
  rewrite Hn. destruct (decide (w = id)) as [->|Hne]; [left; apply lookup_delete_eq|right; by rewrite lookup_delete_ne].
Qed.

(** An ingestion that nobody disturbs changes neither this row nor its count. *)
Lemma ingest_spares now envelope rt : own id envelope rt ->
  spared id rt (ingest_pdu_event config backend others now envelope rt).2.
Proof.
  intros Ho. unfold ingest_pdu_event. pose proof (locked_spares now envelope rt Ho) as Hl.
  destruct (ingest_pdu_event_locked _ _ _ _ _ _) as [[result|] rt1]; [|exact Hl]. cbn in *. destruct (stores_the_event _); [|exact Hl].
  eapply spared_trans; [exact Hl|]. eapply spared_trans; [apply (so_wake id others Hothers)|apply wake_spares].
Qed.
End Spares.
(** * Dropping rows *)

Lemma drop_spares id x rt : x <> id -> spared id rt (drop_deferral x rt).
Proof.
  intros Hne. destruct (remove_rows (rt_store rt) x (rt_deferred rt)) as (R1 & R2 & _).
  split; unfold unique_ids, retained_row; cbn; [exact R1|by apply R2|]. right. by rewrite lookup_delete_ne.
Qed.

Lemma drop_gone id x rt : retained_row id rt = None -> retained_row id (drop_deferral x rt) = None.
Proof.
  unfold retained_row. cbn. intros Hr. destruct (decide (id = x)) as [->|Hne].
  - unfold remove_deferred_pdu. by rewrite Hr.
  - by rewrite (proj1 (proj2 (remove_rows (rt_store rt) x (rt_deferred rt)))).
Qed.

Lemma drop_unique x rt : unique_ids rt -> unique_ids (drop_deferral x rt).
Proof. apply (remove_rows (rt_store rt) x (rt_deferred rt)). Qed.

Abbreviation drops := (foldl (fun rt row => drop_deferral (dp_event_id row) rt)).

Lemma drops_spare id rows : forall rt, id ∉ dp_event_id <$> rows -> spared id rt (drops rt rows).
Proof.
  induction rows as [|r rows IH]; intros rt Hn; [apply spared_refl|]. csimpl in *. apply not_elem_of_cons in Hn as [Hr Hn].
  eapply spared_trans; [by apply (drop_spares id (dp_event_id r))|by apply IH].
Qed.

Lemma drops_gone id rows : forall rt, retained_row id rt = None -> retained_row id (drops rt rows) = None.
Proof. induction rows as [|r rows IH]; intros rt Hr; [done|]. cbn. by apply IH, drop_gone. Qed.

Lemma drops_unique rows : forall rt, unique_ids rt -> unique_ids (drops rt rows).
Proof. induction rows as [|r rows IH]; intros rt Hr; [done|]. cbn. by apply IH, drop_unique. Qed.

(** The backend takes what is written of this row. *)
Record taken (id : string) : Prop := {
  tk_delete : forall s, backend s [delete_deferred_pdu_row id] = true;
  tk_upsert : forall s pdu, dp_event_id pdu = id -> backend s [upsert_deferred_pdu_row pdu] = true
}.

Lemma drop_removes id rt : taken id -> unique_ids rt -> retained_row id (drop_deferral id rt) = None.
Proof. intros Ht Hu. by apply (remove_rows (rt_store rt) id (rt_deferred rt)); [|apply (tk_delete id Ht)]. Qed.

Lemma drops_remove id rows : taken id -> forall rt, unique_ids rt -> id ∈ dp_event_id <$> rows -> retained_row id (drops rt rows) = None.
Proof.
  intros Ht. induction rows as [|r rows IH]; intros rt Hu Hin; [by apply elem_of_nil in Hin|]. csimpl in Hin. cbn.
  destruct (decide (dp_event_id r = id)) as [->|Hne]; [by apply drops_gone, drop_removes|].
  apply IH; [by apply drop_unique|]. apply elem_of_cons in Hin as [->|]; done.
Qed.

(** * Phase 1 *)

Lemma elem_of_rows_with wanted now now_ms rt row :
  row ∈ rows_with wanted now now_ms rt <-> row ∈ deferred_pdus (rt_deferred rt) /\ wanted (disposition now now_ms rt row) = true.
Proof. unfold rows_with. by rewrite list_elem_of_In, filter_In, <- list_elem_of_In. Qed.

Lemma retained_row_unique rt id row : unique_ids rt -> retained_row id rt = Some row ->
  dp_event_id row = id /\ row ∈ deferred_pdus (rt_deferred rt)
  /\ forall r, r ∈ deferred_pdus (rt_deferred rt) -> dp_event_id r = id -> r = row.
Proof.
  intros Hu Hr. pose proof (find_row_spec id (rt_deferred rt)) as Hs. unfold retained_row in Hr. rewrite Hr in Hs. destruct Hs as [Hin Hid].
  split; [done|]. split; [done|]. intros r Hin' He. apply (rows_unique (deferred_pdus (rt_deferred rt))); [done..|congruence].
Qed.

Lemma in_rows_with wanted now now_ms rt id row : unique_ids rt -> retained_row id rt = Some row ->
  id ∈ dp_event_id <$> rows_with wanted now now_ms rt <-> wanted (disposition now now_ms rt row) = true.
Proof.
  intros Hu Hr. destruct (retained_row_unique rt id row Hu Hr) as (Hid & Hin & Hone). rewrite list_elem_of_fmap. split.
  - intros (r & Hx & [Hin' Hw]%elem_of_rows_with). by rewrite <- (Hone r).
  - intros Hw. exists row. split; [done|]. by apply elem_of_rows_with.
Qed.

Lemma select_spec now now_ms rt id row : taken id -> unique_ids rt -> retained_row id rt = Some row ->
  let rt1 := (select_due now now_ms rt).2 in
  unique_ids rt1
  /\ match disposition now now_ms rt row with
     | row_dropped | row_stored => retained_row id rt1 = None
     | row_scheduled | row_due => spared id rt rt1
     end.
Proof.
  intros Ht Hu Hr. cbn. split; [by apply drops_unique, drops_unique|].
  set (dropped := rows_with (fun d => match d with row_dropped => true | _ => false end) now now_ms rt).
  set (stored := rows_with (fun d => match d with row_stored => true | _ => false end) now now_ms rt).
  pose proof (in_rows_with (fun d => match d with row_dropped => true | _ => false end) now now_ms rt id row Hu Hr) as Hd.
  pose proof (in_rows_with (fun d => match d with row_stored => true | _ => false end) now now_ms rt id row Hu Hr) as Hs.
  fold dropped in Hd. fold stored in Hs. destruct (disposition now now_ms rt row).
  - apply drops_gone, drops_remove; [done|done|by apply Hd].
  - apply drops_remove; [done|by apply drops_unique|by apply Hs].
  - eapply spared_trans; [apply drops_spare|apply drops_spare]; naive_solver.
  - eapply spared_trans; [apply drops_spare|apply drops_spare]; naive_solver.
Qed.

(** * Phase 2 *)

(** Nobody else retains, removes or settles this event during the pass. *)
Record undisturbed_pass (id : string) (around : Surroundings) : Prop := {
  up_retry : forall i, spares id (before_retry around i);
  up_others : forall i, sparing id (ingestion_others around i);
  up_settle : forall i, spares id (before_settle around i);
  up_sleep : spares id (before_sleep around)
}.

Lemma kept_envelope_spec row version envelope : kept_envelope row version = Some envelope ->
  in_event_id envelope = dp_event_id row /\ in_origin envelope = dp_origin row.
Proof.
  unfold kept_envelope, rebuild_inbound_pdu_envelope. destruct (parse_inbound_pdu_envelope _ _) as [e|]; cbn; [|done].
  destruct (_ || _) eqn:E; [done|]. intros [= <-]. apply orb_false_iff in E as [E _]. breflect. done.
Qed.

Lemma settle_spares id now row status rt : dp_event_id row <> id -> spared id rt (settle now row status rt).
Proof.
  intros Hne. unfold settle. destruct (retry_is_finished _); [by apply drop_spares|].
  destruct (find_row (dp_event_id row) (rt_deferred rt)) as [current|] eqn:E.
  - pose proof (find_row_spec (dp_event_id row) (rt_deferred rt)) as Hs. rewrite E in Hs. destruct Hs as [_ Hid].
    destruct (upsert_rows (rt_store rt) (next_attempt current) (rt_deferred rt)) as (U1 & U2 & _).
    split; unfold unique_ids, retained_row; cbn; [exact U1|apply U2; cbn; congruence|]. right. by rewrite lookup_insert_ne.
  - split; [done|done|]. right. cbn. by rewrite lookup_delete_ne.
Qed.

Lemma settle_unique now row status rt : unique_ids rt -> unique_ids (settle now row status rt).
Proof.
  intros Hu. unfold settle. destruct (retry_is_finished _); [by apply drop_unique|]. destruct (find_row _ _) as [current|]; [|done].
  by apply (upsert_rows (rt_store rt) (next_attempt current) (rt_deferred rt)).
Qed.

Section Pass.
Context (id : string) (around : Surroundings) (Hpass : undisturbed_pass id around).

Lemma retry_item_spares i item rt : dp_event_id item.1 <> id -> spared id rt (retry_item around i item rt).
Proof.
  intros Hne. unfold retry_item. pose proof (up_retry id around Hpass i rt) as S1.
  destruct (kept_envelope item.1 item.2) as [envelope|] eqn:E.
  - apply kept_envelope_spec in E as [Hid _].
    pose proof (ingest_spares id (ingestion_others around i) (up_others id around Hpass i) (ingestion_wall around i) envelope
      (before_retry around i rt)) as S2. destruct (ingest_pdu_event _ _ _ _ _ _) as [result rt2]. cbn in S2.
    eapply spared_trans; [exact S1|]. eapply spared_trans; [apply S2; intros ?; congruence|].
    eapply spared_trans; [apply (up_settle id around Hpass i)|by apply settle_spares].
  - eapply spared_trans; [exact S1|by apply drop_spares].
Qed.

Lemma retry_items_spare due : forall i rt, id ∉ (fun item => dp_event_id item.1) <$> due -> spared id rt (retry_items around i due rt).
Proof.
  induction due as [|item due IH]; intros i rt Hn; cbn; [apply spared_refl|]. csimpl in Hn. apply not_elem_of_cons in Hn as [Hi Hn].
  destruct (stop_requested around i); [apply spared_refl|]. eapply spared_trans; [by apply (retry_item_spares i item)|by apply IH].
Qed.

(** What the retry of a row leaves of it. *)
Definition fate (i : nat) (row : PersistentDeferredPdu) (version : string) (rt rt' : Runtime) : Prop :=
  match kept_envelope row version with
  | None => retained_row id rt' = None
  | Some envelope =>
      let '(result, rt_i) := ingest_pdu_event config backend (ingestion_others around i) (ingestion_wall around i) envelope
                               (before_retry around i rt) in
      if retry_is_finished (pr_status result) then retained_row id rt' = None
      else retained_row id rt' = Some (next_attempt row)
           /\ let next := Some (steady_at around i + deferred_pdu_backoff ((dp_attempts row + 1) mod 2 ^ 32) * ticks_per_ms) in
              rt_deferred_pdu_next_attempt (settle (steady_at around i) row (pr_status result) (before_settle around i rt_i)) !! id = next
              /\ (rt_deferred_pdu_next_attempt rt' !! id = next \/ rt_deferred_pdu_next_attempt rt' !! id = None)
  end.

Lemma fate_spared i row version rt rt1 rt2 : fate i row version rt rt1 -> spared id rt1 rt2 -> fate i row version rt rt2.
Proof.
  intros Hf [_ Hr Hn]. unfold fate in *. rewrite Hr. destruct (kept_envelope _ _); [|done]. destruct (ingest_pdu_event _ _ _ _ _ _).
  destruct (retry_is_finished _); [done|]. destruct Hf as (Hf & Hset & Ht). split; [done|]. split; [done|].
  destruct Hn as [Hn|Hn]; [by right|]. by rewrite Hn.
Qed.

Lemma retry_item_unique i item rt : unique_ids rt -> retained_row id rt = Some item.1 -> unique_ids (retry_item around i item rt).
Proof.
  intros Hu Hr. unfold retry_item. destruct (up_retry id around Hpass i rt) as [U1 R1 _].
  destruct (kept_envelope item.1 item.2) as [envelope|] eqn:E; [|by apply drop_unique, U1].
  apply kept_envelope_spec in E as [He Ho].
  pose proof (ingest_spares id (ingestion_others around i) (up_others id around Hpass i) (ingestion_wall around i) envelope
    (before_retry around i rt)) as S2. destruct (ingest_pdu_event _ _ _ _ _ _) as [result rt2]. cbn in S2.
  destruct S2 as [U2 _ _]; [intros _; exists item.1; split; [congruence|done]|].
  by apply settle_unique, (up_settle id around Hpass i), U2, U1.
Qed.

Lemma retry_item_own i row version rt : taken id -> unique_ids rt -> retained_row id rt = Some row ->
  id <> EmptyString -> dp_room_id row <> EmptyString -> fate i row version rt (retry_item around i (row, version) rt).
Proof.
  intros Ht Hu Hr Hid Hroom. destruct (retained_row_unique rt id row Hu Hr) as (Hrid & _).
  destruct (up_retry id around Hpass i rt) as [U1 R1 N1]. unfold fate, retry_item. cbn [fst snd].
  destruct (kept_envelope row version) as [envelope|] eqn:E; [|rewrite Hrid; by apply drop_removes; auto].
  apply kept_envelope_spec in E as [He Ho].
  pose proof (ingest_spares id (ingestion_others around i) (up_others id around Hpass i) (ingestion_wall around i) envelope
    (before_retry around i rt)) as S2. destruct (ingest_pdu_event _ _ _ _ _ _) as [result rt2]. cbn in S2 |- *.
  destruct S2 as [U2 R2 _]; [intros _; exists row; split; [congruence|done]|].
  destruct (up_settle id around Hpass i rt2) as [U3 R3 _]. unfold settle.
  destruct (retry_is_finished _); [rewrite Hrid; by apply drop_removes; auto|].
  assert (retained_row id (before_settle around i rt2) = Some row) as Hrow by congruence. unfold retained_row in Hrow. rewrite Hrid, Hrow.
  destruct (upsert_rows (rt_store (before_settle around i rt2)) (next_attempt row) (rt_deferred (before_settle around i rt2))) as (_ & _ & U).
  cbn in U. rewrite Hrid in U. destruct (U row Hrow) as [_ Hup]. split.
  - unfold retained_row. cbn. rewrite Hup; [by destruct row|done|done|by apply (tk_upsert id Ht)].
  - cbn. rewrite lookup_insert_eq. by split; [|left].
Qed.

Lemma retry_items_at due : forall i k item rt, due !! k = Some item ->
  (forall j, (j <= k)%nat -> stop_requested around (i + j) = false) ->
  retry_items around i due rt =
  retry_items around (S (i + k)) (drop (S k) due) (retry_item around (i + k) item (retry_items around i (take k due) rt)).
Proof.
  induction due as [|x due IH]; intros i k item rt Hk Hs; [done|]. pose proof (Hs 0%nat ltac:(lia)) as H0'. rewrite Nat.add_0_r in H0'.
  destruct k as [|k]; cbn; rewrite H0'.
  - cbn in Hk. simplify_eq. by rewrite Nat.add_0_r, drop_0.
  - rewrite (IH (S i) k item); [|done|]; [|intros j Hj; replace (S i + j)%nat with (i + S j)%nat by lia; apply Hs; lia].
    replace (i + S k)%nat with (S i + k)%nat by lia. done.
Qed.

Lemma retry_items_stop due : forall i j rt, stop_requested around (i + j) = true ->
  retry_items around i due rt = retry_items around i (take j due) rt.
Proof.
  induction due as [|x due IH]; intros i j rt Hs; [by rewrite take_nil|]. destruct j as [|j]; cbn.
  - rewrite Nat.add_0_r in Hs. by rewrite Hs.
  - destruct (stop_requested around i); [done|]. apply IH. by replace (S i + j)%nat with (i + S j)%nat by lia.
Qed.

(** * The whole pass *)

Definition batch_position (due : list (PersistentDeferredPdu * string)) : option nat :=
  fst <$> list_find (fun item => dp_event_id item.1 = id) due.

(** No stop is asked for up to the retry of this position. *)
Definition reached (k : nat) : bool := negb (existsb (stop_requested around) (seq 0 (S k))).

Lemma reached_spec k : if reached k then forall j, (j <= k)%nat -> stop_requested around j = false
  else exists j, (j <= k)%nat /\ stop_requested around j = true.
Proof.
  unfold reached. destruct (existsb _ _) eqn:E; cbn -[seq].
  - apply existsb_exists in E as (j & Hj%in_seq & Hs). exists j. split; [lia|done].
  - intros j Hj. apply Bool.not_true_is_false. intros Hs. rewrite (proj2 (existsb_exists _ _)) in E; [done|].
    exists j. rewrite in_seq. split; [lia|done].
Qed.

Lemma due_nodup now now_ms rt : unique_ids rt -> NoDup ((fun item => dp_event_id item.1) <$> due_rows now now_ms rt).
Proof.
  intros Hu. unfold due_rows. rewrite <- list_fmap_compose.
  change ((fun item => dp_event_id item.1) ∘ _) with (dp_event_id : PersistentDeferredPdu -> string).
  eapply sublist_NoDup; [exact Hu|]. apply fmap_sublist. etrans; [apply sublist_take|]. unfold rows_with.
  generalize (deferred_pdus (rt_deferred rt)). intros rows. induction rows as [|r rows IH]; cbn; [constructor|].
  destruct (match disposition _ _ _ _ with row_due => true | _ => false end); by constructor.
Qed.

Lemma due_row now now_ms rt k item : due_rows now now_ms rt !! k = Some item ->
  item.1 ∈ deferred_pdus (rt_deferred rt) /\ disposition now now_ms rt item.1 = row_due
  /\ item.2 = default EmptyString (stored_room_version (rt_store rt) (dp_room_id item.1)).
Proof.
  unfold due_rows. rewrite list_lookup_fmap. destruct (take _ _ !! k) as [row|] eqn:E; [|done]. cbn. intros [= <-]. cbn.
  apply list_elem_of_lookup_2, (subseteq_take _ _), elem_of_rows_with in E as [Hin Hd]. split; [done|]. split; [|done].
  by destruct (disposition now now_ms rt row).
Qed.

Lemma due_item now now_ms rt row : unique_ids rt -> retained_row id rt = Some row ->
  forall item, item ∈ (select_due now now_ms rt).1 -> dp_event_id item.1 = id ->
  item = (row, default EmptyString (stored_room_version (rt_store rt) (dp_room_id row))) /\ disposition now now_ms rt row = row_due.
Proof.
  intros Hu Hr item [j Hj]%list_elem_of_lookup He. destruct (due_row now now_ms rt j item Hj) as (Hin & Hd & Hv).
  destruct (retained_row_unique rt id row Hu Hr) as (_ & _ & Hone). rewrite (Hone _ Hin He) in Hd, Hv. split; [|done].
  rewrite <- (Hone _ Hin He) at 1. rewrite <- Hv. by destruct item.
Qed.

(** One pass, exactly: what becomes of a retained event that nobody else touches. *)
Lemma pass_spec rt row : taken id -> unique_ids rt -> retained_row id rt = Some row -> id <> EmptyString -> dp_room_id row <> EmptyString ->
  let '(due, rt1) := select_due (steady_start around) (wall_start around) rt in
  let rt' := (retry_deferred_pdus around rt).2 in
  unique_ids rt'
  /\ match disposition (steady_start around) (wall_start around) rt row, batch_position due with
     | row_dropped, _ | row_stored, _ => retained_row id rt' = None
     | row_due, Some k =>
         if reached k
         then fate k row (default EmptyString (stored_room_version (rt_store rt) (dp_room_id row))) (retry_items around 0 (take k due) rt1) rt'
         else retained_row id rt' = Some row
     | _, _ => retained_row id rt' = Some row
     end.
Proof.
  intros Ht Hu Hr Hid Hroom. set (now := steady_start around). set (now_ms := wall_start around).
  destruct (select_spec now now_ms rt id row Ht Hu Hr) as [Hu1 Hsel]. unfold retry_deferred_pdus. fold now now_ms.
  pose proof (due_nodup now now_ms rt Hu) as Hnd. pose proof (due_item now now_ms rt row Hu Hr) as Hrow.
  change (due_rows now now_ms rt) with (select_due now now_ms rt).1 in Hnd.
  destruct (select_due now now_ms rt) as [due rt1]. cbn in Hu1, Hsel, Hnd, Hrow |- *.
  set (version := default EmptyString (stored_room_version (rt_store rt) (dp_room_id row))) in *.
  assert (id ∉ (fun item : PersistentDeferredPdu * string => dp_event_id item.1) <$> due ->
    spared id rt1 (before_sleep around (retry_items around 0 due rt1))) as Hskip.
  { intros Hn. eapply spared_trans; [by apply retry_items_spare|apply (up_sleep id around Hpass)]. }
  assert (disposition now now_ms rt row <> row_due -> id ∉ (fun item : PersistentDeferredPdu * string => dp_event_id item.1) <$> due) as Hout.
  { intros Hd (item & He & Hin)%list_elem_of_fmap. by apply Hd, (Hrow item Hin). }
  unfold batch_position. destruct (list_find _ due) as [[k item]|] eqn:Ef; cbn.
  - apply list_find_Some in Ef as (Hk & Hitem & Hfirst). destruct (Hrow item (list_elem_of_lookup_2 _ _ _ Hk) Hitem) as [-> Hd].
    rewrite Hd in Hsel |- *. clear Hskip Hout. pose proof (reached_spec k) as Hreach.
    assert (forall j, (j <= k)%nat -> id ∉ (fun item : PersistentDeferredPdu * string => dp_event_id item.1) <$> take j due) as Htake.
    { intros j Hj (item & He & (m & Hm & Hlt)%elem_of_take)%list_elem_of_fmap. apply (Hfirst m item); [done|lia|done]. }
    destruct (reached k).
    + rewrite (retry_items_at due 0 k _ rt1 Hk) by (intros j Hj; by apply Hreach). cbn [Nat.add].
      set (rtk := retry_items around 0 (take k due) rt1).
      assert (spared id rt rtk) as Sk by (eapply spared_trans; [exact Hsel|by apply retry_items_spare, Htake]).
      destruct Sk as [Uk Rk _]. specialize (Uk Hu). rewrite Hr in Rk.
      pose proof (retry_item_own k row version rtk Ht Uk Rk Hid Hroom) as Hfate.
      pose proof (retry_item_unique k (row, version) rtk Uk Rk) as Hun.
      assert (id ∉ (fun item : PersistentDeferredPdu * string => dp_event_id item.1) <$> drop (S k) due) as Hrest.
      { intros (item & He & Hin)%list_elem_of_fmap. apply list_elem_of_lookup in Hin as [m Hm]. rewrite lookup_drop in Hm.
        assert (S k + m = k)%nat; [|lia]. eapply (NoDup_lookup _ _ _ id Hnd); rewrite list_lookup_fmap; [by rewrite Hm; cbn; f_equal|].
        rewrite Hk. cbn. f_equal. by apply (retained_row_unique rt id row). }
      pose proof (spared_trans _ _ _ _ (retry_items_spare (drop (S k) due) (S k) (retry_item around k (row, version) rtk) Hrest)
        (up_sleep id around Hpass _)) as Send.
      split; [by apply (sp_unique _ _ _ Send), Hun|]. by eapply fate_spared.
    + destruct Hreach as (j & Hj & Hs). rewrite (retry_items_stop due 0 j rt1 Hs).
      assert (spared id rt (before_sleep around (retry_items around 0 (take j due) rt1))) as [Ue Re _].
      { eapply spared_trans; [exact Hsel|]. eapply spared_trans; [by apply retry_items_spare, Htake|apply (up_sleep id around Hpass)]. }
      split; [by apply Ue|congruence].
  - assert (id ∉ (fun item : PersistentDeferredPdu * string => dp_event_id item.1) <$> due) as Hn.
    { intros (item & He & Hin)%list_elem_of_fmap. apply list_find_None in Ef. rewrite Forall_forall in Ef. by apply (Ef item Hin). }
    destruct (Hskip Hn) as [Ue Re _]. split; [by apply Ue|]. rewrite Re.
    destruct (disposition now now_ms rt row); [done|done|by rewrite (sp_row _ _ _ Hsel)..].
Qed.
End Pass.

(** * Passes in a row *)

Definition tried (id : string) (around : Surroundings) (rt : Runtime) : bool :=
  match batch_position id (select_due (steady_start around) (wall_start around) rt).1 with
  | Some k => reached around k
  | None => false
  end.

(** How often the passes retry this event. *)
Fixpoint tries (id : string) (arounds : list Surroundings) (rt : Runtime) : nat :=
  match arounds with
  | [] => 0
  | around :: arounds => (if tried id around rt then 1 else 0) + tries id arounds (retry_deferred_pdus around rt).2
  end.

Lemma gone_pass id around rt : undisturbed_pass id around -> unique_ids rt -> retained_row id rt = None ->
  tried id around rt = false /\ unique_ids (retry_deferred_pdus around rt).2 /\ retained_row id (retry_deferred_pdus around rt).2 = None.
Proof.
  intros Hpass Hu Hr. unfold tried, retry_deferred_pdus.
  set (now := steady_start around). set (now_ms := wall_start around).
  assert (id ∉ (fun item : PersistentDeferredPdu * string => dp_event_id item.1) <$> due_rows now now_ms rt) as Hn.
  { intros (item & He & [k Hk]%list_elem_of_lookup)%list_elem_of_fmap. destruct (due_row now now_ms rt k item Hk) as [Hin _].
    apply find_row_none in Hr. apply Hr. rewrite He. by apply list_elem_of_fmap_2. }
  assert (unique_ids (select_due now now_ms rt).2) as Hu1 by (by apply drops_unique, drops_unique).
  assert (retained_row id (select_due now now_ms rt).2 = None) as Hr1 by (by apply drops_gone, drops_gone).
  change (due_rows now now_ms rt) with (select_due now now_ms rt).1 in Hn. destruct (select_due now now_ms rt) as [due rt1]. cbn in *.
  destruct (spared_trans _ _ _ _ (retry_items_spare id around Hpass due 0 rt1 Hn) (up_sleep id around Hpass _)) as [U R _].
  split; [|split; [by apply U|congruence]].
  unfold batch_position. destruct (list_find _ _) as [[k item]|] eqn:E; [|done]. apply list_find_Some in E as (Hk & He & _).
  exfalso. apply Hn. rewrite <- He. apply list_elem_of_fmap. exists item. split; [done|]. by eapply list_elem_of_lookup_2.
Qed.

Lemma gone_tries id arounds : forall rt, Forall (undisturbed_pass id) arounds -> unique_ids rt -> retained_row id rt = None -> tries id arounds rt = 0%nat.
Proof.
  induction arounds as [|around arounds IH]; intros rt Hf Hu Hr; [done|]. apply Forall_cons in Hf as [Hp Hf].
  destruct (gone_pass id around rt Hp Hu Hr) as (Ht & Hu' & Hr'). cbn. by rewrite Ht, IH.
Qed.

Lemma due_is_within now now_ms rt row : disposition now now_ms rt row = row_due -> dp_attempts row < max_deferred_pdu_attempts.
Proof.
  unfold disposition. destruct (over_age_or_attempt_limit _ _) eqn:E; [done|]. intros _.
  apply orb_false_iff in E as [E _]. lia.
Qed.

Lemma tries_bounded id arounds : taken id -> id <> EmptyString -> forall rt row, Forall (undisturbed_pass id) arounds ->
  unique_ids rt -> retained_row id rt = Some row -> dp_room_id row <> EmptyString -> 0 <= dp_attempts row <= max_deferred_pdu_attempts ->
  dp_attempts row + Z.of_nat (tries id arounds rt) <= max_deferred_pdu_attempts.
Proof.
  intros Ht Hid. induction arounds as [|around arounds IH]; intros rt row Hf Hu Hr Hroom Ha; cbn [tries]; [lia|].
  apply Forall_cons in Hf as [Hp Hf]. pose proof (pass_spec id around Hp rt row Ht Hu Hr Hid Hroom) as Hs. unfold tried.
  pose proof (due_item id (steady_start around) (wall_start around) rt row Hu Hr) as Hdue.
  destruct (select_due _ _ rt) as [due rt1]. cbn [fst snd] in *. destruct Hs as [Hu' Hs]. set (rt' := (retry_deferred_pdus around rt).2) in *.
  assert (retained_row id rt' = Some row -> dp_attempts row + Z.of_nat (tries id arounds rt') <= max_deferred_pdu_attempts) as Hkept.
  { intros Hr'. by apply IH. }
  assert (retained_row id rt' = None -> tries id arounds rt' = 0%nat) as Hgone by (intros; by apply gone_tries).
  destruct (batch_position id due) as [k|] eqn:Ek.
  - assert (disposition (steady_start around) (wall_start around) rt row = row_due) as Hd.
    { unfold batch_position in Ek. destruct (list_find _ due) as [[j item]|] eqn:Ef; [|done]. apply list_find_Some in Ef as (Hj & He & _).
      by apply (Hdue item); [eapply list_elem_of_lookup_2|]. }
    pose proof (due_is_within _ _ _ _ Hd) as Hlt. rewrite Hd in Hs. destruct (reached around k); [|by apply Hkept]. unfold fate in Hs.
    destruct (kept_envelope _ _) as [envelope|]; [|rewrite (Hgone Hs); lia]. destruct (ingest_pdu_event _ _ _ _ _ _).
    destruct (retry_is_finished _); [rewrite (Hgone Hs); lia|]. destruct Hs as [Hr' _].
    assert (dp_attempts (next_attempt row) = dp_attempts row + 1) as Hn.
    { cbn. apply Z.mod_small. unfold max_deferred_pdu_attempts in *. lia. }
    specialize (IH rt' (next_attempt row) Hf Hu' Hr' Hroom). rewrite Hn in IH. lia.
  - destruct (disposition _ _ _ _); [rewrite (Hgone Hs); lia|rewrite (Hgone Hs); lia|by apply Hkept..].
Qed.

(** * How long to sleep *)

Lemma sleep_spec now rt : 1000 <= sleep_for now rt <= deferred_pdu_idle_delay
  /\ forall row, row ∈ deferred_pdus (rt_deferred rt) -> sleep_for now rt <= Z.max (wait_for now rt row) 1000.
Proof.
  unfold sleep_for. generalize (deferred_pdus (rt_deferred rt)). intros rows.
  assert (forall delay, foldl (fun delay row => Z.min delay (wait_for now rt row)) delay rows <= delay
    /\ forall row, row ∈ rows -> foldl (fun delay row => Z.min delay (wait_for now rt row)) delay rows <= wait_for now rt row) as Hf.
  { induction rows as [|r rows IH]; intros delay; cbn; [split; [lia|]; by intros row ?%elem_of_nil|].
    destruct (IH (Z.min delay (wait_for now rt r))) as [I1 I2]. split; [lia|]. intros row [->|Hr]%elem_of_cons; [lia|by apply I2]. }
  destruct (Hf deferred_pdu_idle_delay) as [F1 F2]. unfold deferred_pdu_idle_delay in *. split; [lia|]. intros row Hr. specialize (F2 row Hr). lia.
Qed.

Lemma sleep_attained now rt : sleep_for now rt = 1000 \/ sleep_for now rt = deferred_pdu_idle_delay
  \/ exists row, row ∈ deferred_pdus (rt_deferred rt) /\ sleep_for now rt = wait_for now rt row.
Proof.
  unfold sleep_for. generalize (deferred_pdus (rt_deferred rt)). intros rows. generalize deferred_pdu_idle_delay. intros most.
  assert (forall delay, foldl (fun delay row => Z.min delay (wait_for now rt row)) delay rows = delay
    \/ exists row, row ∈ rows /\ foldl (fun delay row => Z.min delay (wait_for now rt row)) delay rows = wait_for now rt row) as Hf.
  { induction rows as [|r rows IH]; intros delay; cbn; [by left|]. destruct (IH (Z.min delay (wait_for now rt r))) as [I|(row & Hr & I)].
    - destruct (Z.min_spec delay (wait_for now rt r)) as [[_ Hm]|[_ Hm]]; rewrite Hm in I; rewrite Hm; [by left|].
      right. exists r. split; [by left|done].
    - right. exists row. split; [by right|done]. }
  destruct (Hf most) as [Hm|(row & Hr & Hm)]; rewrite Hm;
    [destruct (Z.max_spec most 1000) as [[_ ->]|[_ ->]]|destruct (Z.max_spec (wait_for now rt row) 1000) as [[_ ->]|[_ ->]]]; eauto.
Qed.

(** * What a pass promises *)

(** A row past its limits: retried ten times, or held for more than a day. *)
Definition expired (now_ms : Z) (row : PersistentDeferredPdu) : Prop :=
  10 <= dp_attempts row \/ 24 * 60 * 60 * 1000 < now_ms - dp_received_at_ms row.

Definition stored_meanwhile (rt : Runtime) (row : PersistentDeferredPdu) : Prop :=
  is_Some (find (dp_event_id row) (events (rt_store rt))).

(** A row whose next attempt lies ahead. *)
Definition resting (now : Z) (rt : Runtime) (row : PersistentDeferredPdu) : Prop :=
  match rt_deferred_pdu_next_attempt rt !! dp_event_id row with Some t => now < t | None => False end.

Definition due_for_retry (now now_ms : Z) (rt : Runtime) (row : PersistentDeferredPdu) : Prop :=
  ~ expired now_ms row /\ ~ stored_meanwhile rt row /\ ~ resting now rt row.

#[export] Instance expired_dec now_ms row : Decision (expired now_ms row).
Proof. unfold expired. apply _. Defined.
#[export] Instance stored_meanwhile_dec rt row : Decision (stored_meanwhile rt row).
Proof. unfold stored_meanwhile. apply _. Defined.
#[export] Instance resting_dec now rt row : Decision (resting now rt row).
Proof. unfold resting. destruct (_ !! _); apply _. Defined.
#[export] Instance due_for_retry_dec now now_ms rt row : Decision (due_for_retry now now_ms rt row).
Proof. unfold due_for_retry. apply _. Defined.

Lemma disposition_spec now now_ms rt row :
  match disposition now now_ms rt row with
  | row_dropped => expired now_ms row
  | row_stored => ~ expired now_ms row /\ stored_meanwhile rt row
  | row_scheduled => ~ expired now_ms row /\ ~ stored_meanwhile rt row /\ resting now rt row
  | row_due => due_for_retry now now_ms rt row
  end.
Proof.
  unfold disposition, over_age_or_attempt_limit, find_event_status, due_for_retry, expired, stored_meanwhile, resting,
    max_deferred_pdu_attempts, max_deferred_pdu_age. destruct (_ || _) eqn:E; breflect; [lia|].
  destruct (find (dp_event_id row) (events (rt_store rt))) as [e|]; cbn; [split; [lia|by eexists]|].
  assert (~ is_Some (None (A := PersistentEvent))) as Hno by (by intros []).
  destruct (_ !! _) as [t|]; [destruct (now <? t) eqn:Et; breflect|]; (split; [lia|]); (split; [exact Hno|]); lia || by intros [].
Qed.

Lemma due_disposition now now_ms rt row : disposition now now_ms rt row = row_due <-> due_for_retry now now_ms rt row.
Proof.
  pose proof (disposition_spec now now_ms rt row) as Hs. unfold due_for_retry in *. destruct (disposition _ _ _ _); naive_solver.
Qed.

Definition selects_due (d : Disposition) : bool := match d with row_due => true | _ => false end.

Lemma rows_due now now_ms rt rows :
  List.filter (fun row => selects_due (disposition now now_ms rt row)) rows = filter (due_for_retry now now_ms rt) rows.
Proof.
  induction rows as [|r rows IH]; [done|]. rewrite filter_cons, <- IH. cbn [List.filter].
  destruct (decide (due_for_retry now now_ms rt r)) as [Hd|Hd]; rewrite <- due_disposition in Hd; [by rewrite Hd|].
  by destruct (disposition now now_ms rt r).
Qed.

(** The place of a due row in the batch: the number of due rows ahead of it, when that is below 32. *)
Lemma batch_place id now now_ms rt row ahead behind : unique_ids rt -> deferred_pdus (rt_deferred rt) = ahead ++ row :: behind ->
  dp_event_id row = id -> due_for_retry now now_ms rt row ->
  let k := length (filter (due_for_retry now now_ms rt) ahead) in
  batch_position id (select_due now now_ms rt).1 = if decide (k < 32)%nat then Some k else None.
Proof.
  intros Hu Hrows Hid Hdue k. unfold batch_position, select_due. cbn [fst]. unfold due_rows, rows_with.
  change (fun row => match disposition now now_ms rt row with row_due => true | _ => false end)
    with (fun row => selects_due (disposition now now_ms rt row)).
  rewrite rows_due, Hrows, filter_app, filter_cons, decide_True by done.
  assert (forall r, r ∈ ahead -> dp_event_id r <> id) as Hahead.
  { intros r Hr He. unfold unique_ids in Hu. rewrite Hrows, fmap_app in Hu. apply NoDup_app in Hu as (_ & Hu & _).
    apply (Hu id); [rewrite <- He; by apply list_elem_of_fmap_2|]. cbn. rewrite Hid. by left. }
  assert (forall j r, filter (due_for_retry now now_ms rt) ahead !! j = Some r -> dp_event_id r <> id) as Hne.
  { intros j r Hj%list_elem_of_lookup_2. apply list_elem_of_filter in Hj as [_ Hj]. by apply Hahead. }
  unfold deferred_pdu_retry_batch. destruct (decide (k < 32)%nat) as [Hk|Hk].
  - set (version := default EmptyString (stored_room_version (rt_store rt) (dp_room_id row))).
    enough (list_find (fun item => dp_event_id item.1 = id) _ = Some (k, (row, version))) as -> by done.
    apply list_find_Some. rewrite list_lookup_fmap, lookup_take_lt, list_lookup_middle by done. split; [done|]. split; [done|].
    intros j [r v] Hj Hlt. rewrite list_lookup_fmap, lookup_take_lt, lookup_app_l in Hj by lia.
    destruct (filter _ ahead !! j) as [r'|] eqn:E; [|done]. cbn in Hj. simplify_eq. by apply (Hne j).
  - rewrite take_app_le by lia. enough (list_find (fun item => dp_event_id item.1 = id) _ = None) as -> by done.
    apply list_find_None, Forall_fmap, Forall_forall. intros r [j Hj]%list_elem_of_lookup. cbn. apply lookup_take_Some in Hj as [Hj _].
    by apply (Hne j).
Qed.

(** The wait after the [n]-th attempt, in milliseconds: thirty seconds, doubled each time, an hour at most. *)
Definition rest_after (n : Z) : Z := Z.min (30000 * 2 ^ (n - 1)) 3600000.

Lemma backoff_is_rest n : 1 <= n <= 10 -> deferred_pdu_backoff n = rest_after n.
Proof.
  intros Hn. assert (n = 1 \/ n = 2 \/ n = 3 \/ n = 4 \/ n = 5 \/ n = 6 \/ n = 7 \/ n = 8 \/ n = 9 \/ n = 10) as Hcases by lia.
  destruct_or! Hcases; subst n; reflexivity.
Qed.

(** The envelope a retained row is retried with. *)
Definition retried_as (rt : Runtime) (row : PersistentDeferredPdu) (envelope : InboundPduEnvelope) : Prop :=
  rebuild_inbound_pdu_envelope (dp_pdu_json row) (default EmptyString (stored_room_version (rt_store rt) (dp_room_id row)))
    (dp_origin row) = Some envelope
  /\ in_event_id envelope = dp_event_id row /\ in_room_id envelope = dp_room_id row.

Lemma retried_as_kept rt row envelope :
  retried_as rt row envelope
  <-> kept_envelope row (default EmptyString (stored_room_version (rt_store rt) (dp_room_id row))) = Some envelope.
Proof.
  unfold retried_as, kept_envelope. destruct (rebuild_inbound_pdu_envelope _ _ _) as [e|]; [|by split; [intros []|]].
  destruct (_ || _) eqn:E; split.
  - intros ([= <-] & He & Hroom). exfalso. rewrite He, Hroom in E. by rewrite !String.eqb_refl in E.
  - done.
  - by intros ([= <-] & _).
  - intros [= <-]. breflect. by split.
Qed.

(** What the [k]-th retry of a pass does with its row: [rt] is the runtime before the pass, [rt_k] before the retry and
    [rt'] after the pass. *)
Definition retried (around : Surroundings) (k : nat) (row : PersistentDeferredPdu) (rt rt_k rt' : Runtime) : Prop :=
  let id := dp_event_id row in
  ((forall envelope, ~ retried_as rt row envelope) -> retained_row id rt' = None)
  /\ forall envelope, retried_as rt row envelope ->
     let '(result, rt_i) := ingest_pdu_event config backend (ingestion_others around k) (ingestion_wall around k) envelope
                              (before_retry around k rt_k) in
     match pr_status result with
     | pdu_internal_error | pdu_missing_prev_state | pdu_main_overloaded | pdu_deferred =>
         retained_row id rt' = Some {| dp_event_id := id; dp_room_id := dp_room_id row; dp_origin := dp_origin row;
                                       dp_pdu_json := dp_pdu_json row; dp_received_at_ms := dp_received_at_ms row;
                                       dp_attempts := dp_attempts row + 1 |}
         /\ let next := Some (steady_at around k + rest_after (dp_attempts row + 1) * 1000000) in
            rt_deferred_pdu_next_attempt (settle (steady_at around k) row (pr_status result) (before_settle around k rt_i)) !! id = next
            /\ (rt_deferred_pdu_next_attempt rt' !! id = next \/ rt_deferred_pdu_next_attempt rt' !! id = None)
     | pdu_accepted | pdu_soft_failed | pdu_rejected_auth | pdu_rejected_state_conflict | pdu_rejected_invalid
     | pdu_already_stored | pdu_rejected_acl => retained_row id rt' = None
     end.

Lemma fate_retried around k row rt rt_k rt' : 0 <= dp_attempts row < 10 ->
  fate (dp_event_id row) around k row (default EmptyString (stored_room_version (rt_store rt) (dp_room_id row))) rt_k rt' ->
  retried around k row rt rt_k rt'.
Proof.
  intros Ha Hf. unfold retried, fate in *. set (version := default EmptyString _) in *.
  pose proof (fun envelope => proj1 (retried_as_kept rt row envelope)) as Hkept.
  pose proof (fun envelope => proj2 (retried_as_kept rt row envelope)) as Hre. fold version in Hkept, Hre.
  split.
  - intros Hno. destruct (kept_envelope row version) as [envelope|] eqn:E; [by destruct (Hno envelope), (Hre envelope)|done].
  - intros envelope He%Hkept. rewrite He in Hf. destruct (ingest_pdu_event _ _ _ _ _ _) as [result rt_i].
    assert (next_attempt row = {| dp_event_id := dp_event_id row; dp_room_id := dp_room_id row; dp_origin := dp_origin row;
      dp_pdu_json := dp_pdu_json row; dp_received_at_ms := dp_received_at_ms row; dp_attempts := dp_attempts row + 1 |}) as Hn.
    { unfold next_attempt. by rewrite Z.mod_small by lia. }
    assert (deferred_pdu_backoff ((dp_attempts row + 1) mod 2 ^ 32) = rest_after (dp_attempts row + 1)) as Hb.
    { rewrite Z.mod_small by lia. apply backoff_is_rest. lia. }
    rewrite Hn, Hb in Hf. destruct (pr_status result); exact Hf.
Qed.

(** C17. Retained events are settled.  Take one pass of the retry job, a retained
    event nobody else retains, removes or settles during the pass, a database that
    takes the writes of its row, and rows that name each event once; the row has an
    event ID, a room and at most ten attempts counted.  The row is
    removed when it was received more than 24 hours ago, was retried ten times, or its
    event is stored meanwhile.  It is kept as it is when its next attempt lies ahead,
    when 32 or more due rows stand before it, or when the job is asked to stop before
    its turn.  Otherwise it is retried, in the runtime the retries before it left: it
    is removed when its text no longer reads as this event of this room, and when the
    event is accepted, soft-failed, rejected, refused by the server ACL, invalid or
    already stored; and when the event stays deferred, misses state, or the server is
    overloaded or fails, it is kept with one more attempt counted and rests for 30
    seconds, doubled with each attempt up to an hour, unless it is woken since.  Over
    any such passes it is retried at most ten times in all.  The job then sleeps
    between one second and five minutes: not past the next attempt of any row, one
    second when a row has none, and for one of these times exactly. *)
Theorem retained_pdus_settle id around rt row : taken id -> undisturbed_pass id around -> unique_ids rt -> retained_row id rt = Some row ->
  id <> EmptyString -> dp_room_id row <> EmptyString -> 0 <= dp_attempts row <= 10 ->
  let now := steady_start around in
  let now_ms := wall_start around in
  let '(due, rt1) := select_due now now_ms rt in
  let '(delay, rt') := retry_deferred_pdus around rt in
  (expired now_ms row \/ stored_meanwhile rt row -> retained_row id rt' = None)
  /\ (~ expired now_ms row -> ~ stored_meanwhile rt row -> resting now rt row -> retained_row id rt' = Some row)
  /\ (due_for_retry now now_ms rt row -> forall ahead behind, deferred_pdus (rt_deferred rt) = ahead ++ row :: behind ->
      let k := length (filter (due_for_retry now now_ms rt) ahead) in
      ((32 <= k)%nat \/ (exists j, (j <= k)%nat /\ stop_requested around j = true) -> retained_row id rt' = Some row)
      /\ ((k < 32)%nat -> (forall j, (j <= k)%nat -> stop_requested around j = false) ->
          retried around k row rt (retry_items around 0 (take k due) rt1) rt'))
  /\ (forall later, Forall (undisturbed_pass id) later -> dp_attempts row + Z.of_nat (tries id (around :: later) rt) <= 10)
  /\ 1000 <= delay <= 300000
  /\ (forall other, other ∈ deferred_pdus (rt_deferred rt') ->
      match rt_deferred_pdu_next_attempt rt' !! dp_event_id other with
      | Some t => delay <= Z.max (Z.quot (t - steady_end around) 1000000) 1000
      | None => delay = 1000
      end)
  /\ (delay = 1000 \/ delay = 300000 \/ exists other t, other ∈ deferred_pdus (rt_deferred rt')
        /\ rt_deferred_pdu_next_attempt rt' !! dp_event_id other = Some t /\ delay = Z.quot (t - steady_end around) 1000000).
Proof.
  intros Ht Hp Hu Hr Hid Hroom Ha now now_ms. pose proof (pass_spec id around Hp rt row Ht Hu Hr Hid Hroom) as Hs.
  assert (forall later, Forall (undisturbed_pass id) later -> dp_attempts row + Z.of_nat (tries id (around :: later) rt) <= 10) as Hb.
  { intros later Hl. apply tries_bounded; [done|done|by constructor|done..]. }
  destruct (retained_row_unique rt id row Hu Hr) as (Hrid & _).
  pose proof (fun ahead behind Hrows => batch_place id now now_ms rt row ahead behind Hu Hrows Hrid) as Hplace.
  pose proof (disposition_spec now now_ms rt row) as Hd. fold now now_ms in Hs.
  revert Hs Hb. generalize (tries id). intros count. unfold retry_deferred_pdus. fold now now_ms.
  destruct (select_due now now_ms rt) as [due rt1]. cbn [fst snd] in *. set (rt' := before_sleep _ _). intros [_ Hs] Hb.
  split; [|split; [|split; [|split; [exact Hb|]]]].
  - intros Hx. destruct (disposition now now_ms rt row); [exact Hs|exact Hs|naive_solver|unfold due_for_retry in Hd; naive_solver].
  - intros H1' H2' H3'. destruct (disposition now now_ms rt row); [done|naive_solver|exact Hs|unfold due_for_retry in Hd; naive_solver].
  - intros Hdue ahead behind Hrows. pose proof (Hplace ahead behind Hrows Hdue) as Hk.
    rewrite (proj2 (due_disposition now now_ms rt row) Hdue), Hk in Hs. set (k := length _) in *. split.
    + intros Hno. destruct (decide (k < 32)%nat) as [Hlt|]; [|exact Hs]. destruct Hno as [|(j & Hj & Hstop)]; [lia|].
      pose proof (reached_spec around k) as Hreach. destruct (reached around k); [|exact Hs]. by rewrite Hreach in Hstop.
    + intros Hlt Hgo. rewrite decide_True in Hs by done. pose proof (reached_spec around k) as Hreach.
      destruct (reached around k); [|destruct Hreach as (j & Hj & Hstop); by rewrite Hgo in Hstop].
      apply fate_retried; [|by rewrite Hrid]. destruct Hdue as [Hne _]. unfold expired in Hne. lia.
  - destruct (sleep_spec (steady_end around) rt') as [Hrange Hwait]. pose proof (sleep_attained (steady_end around) rt') as Hat.
    change deferred_pdu_idle_delay with 300000 in Hrange, Hat. unfold wait_for, ticks_per_ms in Hwait, Hat. split; [exact Hrange|]. split.
    + intros other Ho. specialize (Hwait other Ho). destruct (_ !! _); lia.
    + destruct Hat as [Hat|[Hat|(other & Ho & Hat)]]; [by left|by right; left|]. destruct (_ !! _) as [t|] eqn:Et; [|lia].
      right. right. by exists other, t.
Qed.
End Retry.
