(* ===== verification/IngestionWitness.v ===== *)
(** The theorems on received events applied to a version 11 room whose creator
    sends a message, and to documents that arrive from another server. *)
From S2P Require Import Prelude CppStd JsonValue JsonSerializer JsonParser RoomVersion Signing JsonCanonical EventAuth EventAuthBase EventShape EventTable EventTableInv EventTableAdd EventTableErase EventTableSpec StateTables Store StoreLookup StoreWrites HistoryVisibility RedactionService Redaction RedactionFlow StateGroups StateGroupsWrite EventSource StateAuth StateRes Partition Resolution Bookkeeping BookkeepingBase BookkeepingStore BookkeepingLocal BookkeepingWitness EventId EventSigner SignedEvents Inbound DeferredWake ReceiptChecks Ingestion IngestionEffects IngestionMembers IngestionTrace Rebuild Retry.
Open Scope Z_scope.

#[local] Existing Instance no_libc.
#[local] Existing Instance no_sodium.
#[local] Existing Instance map_order.
#[local] Existing Instance text_reader.
#[local] Existing Instance merge_sorter.

(** * The room with its creator joined *)

Definition creator_joins : MembershipProjection :=
  {| mp_user_id := "@u:a.org"; mp_membership := "join"; mp_stream_ordering := 2; mp_invite := None |}.

Definition join_books : EventBookkeeping := local_bookkeeping created "$j" (Some the_join_row) (basis created).

Definition join_stored : StoredWithBookkeeping * PersistentStore :=
  store_event_with_bookkeeping keyed_backend policy_v11 the_join (Some the_join_row) (Some creator_joins) join_books few created.

Definition joined_room : PersistentStore := snd join_stored.

Lemma joined_room_books : books_ok joined_room.
Proof.
  assert (NoDup (entry_key <$> bk_state_after join_books)) as Hn by (apply (bool_decide_unpack _); vm_compute; exact I).
  assert (plain_resolution created policy_v11 the_join (Some the_join_row) (Some creator_joins) join_books few) as Hp.
  { intros plan entries Hp He. vm_compute in Hp. injection Hp as <-. cbn [bp_resolution] in He. injection He as <-. repeat constructor. }
  pose proof (bookkeeping_stored keyed_backend policy_v11 the_join (Some the_join_row) (Some creator_joins) join_books few created
    keyed_backend_keeps created_books_ok Hn (plain_row "m.room.member" "@u:a.org" "$j" eq_refl) Hp) as Hs.
  assert (sb_ok (fst join_stored) = true) as Hok by (vm_compute; reflexivity). unfold joined_room, join_stored in *.
  destruct (store_event_with_bookkeeping _ _ _ _ _ _ _ _) as [result s']. by apply Hs.
Qed.

(** * The server *)

Definition here : Config := {| cfg_server_name := "a.org"; cfg_state_resolution_limits := few;
  cfg_pending_join_max_pdus := 10; cfg_pending_join_max_bytes := 1000 |}.

Definition nobody_else : Others := {|
  after_duplicate_check := fun rt => rt; after_rescission := fun rt => rt; after_admission := fun rt => rt;
  during_backfill := fun rt => rt; backfill_locally_denied := fun _ => false; during_commit := fun rt => rt;
  before_wake := fun rt => rt; roster_stream_ids := fun _ => None |}.

Lemma nobody_else_quiet : quiet nobody_else.
Proof. by split. Qed.

Lemma undisturbed_refl room id s : undisturbed room id s s.
Proof. split; [done|apply evolves_refl|done|done|done|done|done|done]. Qed.

Definition server : Runtime := {| rt_store := joined_room; rt_deferred := {| deferred_pdus := []; awaits := no_awaits |};
  rt_next_stream_ordering := 3; rt_pending_federated_joins := ∅; rt_deferred_pdu_next_attempt := ∅ |}.

(** A message of the creator, relayed by another server. *)
Definition message : InboundPduEnvelope := {|
  in_event_id := "$m"; in_room_id := "!r"; in_room_version := "11"; in_sender := "@u:a.org";
  in_event_type := "m.room.message"; in_state_key := None; in_origin_server_ts := 5; in_depth := 3;
  in_prev_event_ids := ["$j"]; in_auth_event_ids := ["$c"; "$j"]; in_signatures := []; in_json := "M";
  in_origin := "b.org"; in_omit_members := false |}.

Definition message_pdu : Value * string :=
  match effective_event message policy_v11 with inr found => found | inl _ => (VNull, EmptyString) end.

Definition judged : PduIngestionResult * Runtime :=
  judge_and_store here keyed_backend nobody_else 0 message message_pdu.1 message_pdu.2 policy_v11 7 server.

Example message_is_accepted : pr_status judged.1 = pdu_accepted
  /\ find_forward_extremities (rt_store judged.2) "!r" = ["$m"].
Proof. vm_compute. done. Qed.

(** * Witnesses *)

Lemma received_event_effects_witness : pr_status judged.1 = pdu_accepted
  /\ answer_for_stored_pdu (rt_store judged.2) message = Some (answer pdu_already_stored "event already stored").
Proof.
  assert (pr_status judged.1 = pdu_accepted) as Hs by (vm_compute; reflexivity). split; [exact Hs|].
  pose proof (received_event_effects here keyed_backend nobody_else keyed_backend_keeps message message_pdu.1 message_pdu.2 policy_v11 server
    joined_room_books (fun rt0 => undisturbed_refl "!r" "$m" (rt_store rt0)) eq_refl) as He.
  specialize (fun Hb Hp => He Hb Hp 0 7 judged.1 judged.2). rewrite Hs in He. simpl in He.
  destruct He as (outcome & why & before & _ & _ & _ & Ha); [| |vm_compute; reflexivity|exact Ha].
  - intros before Hb. vm_compute in Hb. injection Hb as <-. repeat constructor.
  - intros outcome why before Hc entries Hr. vm_compute in Hc. injection Hc as <- <- <-. vm_compute in Hr. injection Hr as <-. repeat constructor.
Defined.

Lemma message_matches : envelope_matches message.
Proof. eexists. split; [vm_compute; reflexivity|]. vm_compute. repeat split; discriminate. Qed.

Lemma accepted_pdus_from_members_witness : exists id,
  current_event (rt_store server) "!r" "m.room.member" "@u:a.org" = Some id /\ membership_of (load_event (rt_store server) id) = ms_join.
Proof.
  assert (pr_status judged.1 = pdu_accepted) as Hs by (vm_compute; reflexivity).
  destruct (accepted_pdus_from_members here keyed_backend nobody_else 0 message message_pdu.1 message_pdu.2 policy_v11 7 server judged.1 judged.2
    (bo_rows _ joined_room_books) message_matches) as (_ & Hj & _); [vm_compute; reflexivity|vm_compute; reflexivity|left; exact Hs|].
  apply Hj; [discriminate|discriminate| |exact Hs]. intros [Ht _]. discriminate.
Defined.

Definition ingested_message : PduIngestionResult * Runtime := ingest_pdu_event here keyed_backend nobody_else 0 message server.

Lemma ingestion_leaves_no_trace_witness : pr_status ingested_message.1 = pdu_accepted
  /\ ingest_pdu_event here keyed_backend nobody_else 9 message ingested_message.2
     = (answer pdu_already_stored "event already stored", ingested_message.2).
Proof.
  assert (pr_status ingested_message.1 = pdu_accepted) as Hs by (vm_compute; reflexivity). split; [exact Hs|].
  destruct (ingestion_leaves_no_trace here keyed_backend nobody_else nobody_else_quiet 0 message server ingested_message.1 ingested_message.2
    (bo_table _ joined_room_books)) as [Hst _]; [apply surjective_pairing|]. rewrite Hs in Hst. destruct (Hst eq_refl) as (_ & _ & Hagain).
  apply Hagain; [reflexivity|reflexivity|discriminate].
Defined.

(** The message retained before its history is there. *)
Definition waiting : PersistentDeferredPdu := Build_PersistentDeferredPdu "$m" "!r" "b.org" "M" 0 0.

Lemma retained_pdus_wake_witness : "$m" ∈ (take_deferred_pdus_awaiting joined_room "!r" "$j" (loaded empty_store [waiting])).1.
Proof.
  assert (NoDup (Store.dp_event_id <$> [waiting])) as Hn by (apply (bool_decide_unpack _); vm_compute; exact I).
  assert (bounded [waiting]) as Hb.
  { split; [simpl; lia| |vm_compute; discriminate]. intros room. unfold in_room. etrans; [apply List.filter_length_le|]. simpl. lia. }
  destruct (retained_pdus_wake keyed_backend empty_store [waiting] [] Hn Hb) as (_ & _ & _ & Ht). simpl in Ht.
  destruct (take_deferred_pdus_awaiting joined_room "!r" "$j" (loaded empty_store [waiting])) as [woken d'] eqn:E.
  apply (Ht joined_room "!r" "$j" woken d' E). split; [vm_compute; reflexivity|discriminate].
Defined.

(** * Documents from another server *)

(** Hashes as a constant digest; only the envelope is of interest here. *)
Definition flat_sodium : Sodium := {|
  sodium_init_ok := true; sodium_base642bin := Some; sodium_bin2base64 := fun _ bytes => bytes;
  crypto_hash_sha256 := fun _ => Some "h"; crypto_sign_detached := fun _ _ => None;
  crypto_sign_verify_detached := fun _ _ _ => false |}.

(** An event of version 11 with further members. *)
Definition arriving (more : list (option string * YValue)) : YValue :=
  YObject ([(Some "type", json_text "m.room.topic"); (Some "sender", json_text "@u:a.org"); (Some "room_id", json_text "!r:a.org");
            (Some "origin_server_ts", YRaw (Some "5")); (Some "depth", YRaw (Some "3"));
            (Some "prev_events", YArray [json_text "$j"]); (Some "auth_events", YArray [json_text "$c"])] ++ more).

Definition quoted (s : string) : string := quote +:+ s +:+ quote.

Definition arriving_text (more : string) : string :=
  "{" +:+ quoted "type" +:+ ":" +:+ quoted "m.room.topic" +:+ "," +:+ quoted "sender" +:+ ":" +:+ quoted "@u:a.org" +:+ ","
  +:+ quoted "room_id" +:+ ":" +:+ quoted "!r:a.org" +:+ "," +:+ quoted "origin_server_ts" +:+ ":5," +:+ quoted "depth" +:+ ":3,"
  +:+ quoted "prev_events" +:+ ":[" +:+ quoted "$j" +:+ "]," +:+ quoted "auth_events" +:+ ":[" +:+ quoted "$c" +:+ "],"
  +:+ more +:+ "}".

Definition escaped_unsigned : string := arriving_text (quoted "\u0075nsigned" +:+ ":{}").
Definition numeric_state_key : string := arriving_text (quoted "state_key" +:+ ":0").
Definition plain_topic : string := arriving_text (quoted "state_key" +:+ ":" +:+ quoted EmptyString).

Definition arrival_reader : Yyjson := {|
  read_raw_numbers := fun s =>
    let document more := inr {| doc_root := Some (arriving more); doc_bytes_read := String.length s |} in
    if s =s escaped_unsigned then document [(Some "unsigned", YObject [])]
    else if s =s numeric_state_key then document [(Some "state_key", YRaw (Some "0"))]
    else if s =s plain_topic then document [(Some "state_key", json_text EmptyString)]
    else inl read_json_structure;
  read_numbers := fun _ => inl read_json_structure |}.

Definition arrives (text : string) : option InboundPduEnvelope :=
  @parse_inbound_pdu_envelope no_libc flat_sodium arrival_reader text "11".

Lemma inbound_pdus_well_formed_witness : exists e root,
  arrives plain_topic = Some e /\ @parse_lossless arrival_reader plain_topic = POk (VObject root)
  /\ object_member root "depth" = Some (VInt (in_depth e)) /\ 0 <= in_depth e <= 9007199254740991.
Proof.
  destruct (arrives plain_topic) as [e|] eqn:E; [|vm_compute in E; discriminate].
  destruct (@inbound_pdus_well_formed no_libc flat_sodium arrival_reader plain_topic "11" e E) as (root & policy & Hp & Hrest).
  exists e, root. split; [reflexivity|]. split; [exact Hp|]. do 15 apply proj2 in Hrest. split; [exact (proj1 Hrest)|exact (proj1 (proj2 Hrest))].
Defined.

(** A key written with an escape is not found in the text, so the unsigned data of
    such an event is kept. *)
Lemma escaped_unsigned_is_kept : exists e root, arrives escaped_unsigned = Some e
  /\ @parse_lossless arrival_reader (in_json e) = POk (VObject root) /\ object_member root "unsigned" = Some (VObject []).
Proof. eexists _, _. split; [vm_compute; reflexivity|]. split; vm_compute; reflexivity. Qed.

(** A state key that is not a string is read as the empty state key, while
    authorization and the resolver take the event for no state event at all. *)
Lemma numeric_state_key_is_state : exists e, arrives numeric_state_key = Some e /\ in_state_key e = Some EmptyString
  /\ forall id, @parse_state_event_reference arrival_reader id (in_json e) (in_depth e) = None.
Proof. eexists. split; [vm_compute; reflexivity|]. split; [vm_compute; reflexivity|]. intros id. vm_compute. reflexivity. Qed.

(** * A retained event retried *)

(** A user of this server is in the room, of which no event has arrived. *)
Definition topic_id : string := default EmptyString (in_event_id <$> @parse_inbound_pdu_envelope no_libc flat_sodium arrival_reader plain_topic EmptyString).

Definition topic_row : PersistentDeferredPdu := Build_PersistentDeferredPdu topic_id "!r:a.org" "b.org" plain_topic 0 3.

Definition early_server : Runtime := {|
  rt_store := apply_membership_projection "!r:a.org"
    {| mp_user_id := "@u:a.org"; mp_membership := "join"; mp_stream_ordering := 1; mp_invite := None |} empty_store;
  rt_deferred := @loaded arrival_reader empty_store [topic_row];
  rt_next_stream_ordering := 3; rt_pending_federated_joins := ∅; rt_deferred_pdu_next_attempt := ∅ |}.

Definition one_hour : Surroundings := {|
  steady_start := 100; wall_start := 3600000; stop_requested := fun _ => false; before_retry := fun _ rt => rt;
  ingestion_wall := fun _ => 3600001; ingestion_others := fun _ => nobody_else; before_settle := fun _ rt => rt;
  steady_at := fun _ => 200; before_sleep := fun rt => rt; steady_end := 300 |}.

Lemma one_hour_undisturbed : undisturbed_pass topic_id one_hour.
Proof. split; [intros i rt; apply spared_refl|intros i; split; intros rt; apply spared_refl|intros i rt; apply spared_refl|intros rt; apply spared_refl]. Qed.

Definition retried_pass : Z * Runtime :=
  @retry_deferred_pdus arrival_reader no_libc flat_sodium map_order here keyed_backend one_hour early_server.

Lemma retained_pdus_settle_witness : retained_row topic_id retried_pass.2 = Some (next_attempt topic_row)
  /\ 3 + Z.of_nat (@tries arrival_reader no_libc flat_sodium map_order here keyed_backend topic_id [one_hour] early_server) <= 10
  /\ 1000 <= retried_pass.1 <= 300000.
Proof.
  assert (taken keyed_backend topic_id) as Ht by (split; reflexivity).
  assert (unique_ids early_server) as Hu by (apply (bool_decide_unpack _); vm_compute; exact I).
  pose proof (@retained_pdus_settle arrival_reader no_libc flat_sodium map_order here keyed_backend topic_id one_hour early_server topic_row
    Ht one_hour_undisturbed Hu) as Hs.
  assert (retained_row topic_id early_server = Some topic_row) as Hr by (vm_compute; reflexivity).
  specialize (Hs Hr ltac:(vm_compute; discriminate) ltac:(vm_compute; discriminate) ltac:(vm_compute; split; discriminate)).
  unfold retried_pass. set (retry := @retry_deferred_pdus arrival_reader no_libc flat_sodium map_order here keyed_backend one_hour early_server) in *.
  cbv zeta in Hs. destruct (select_due _ _ _ _) as [due rt1]. destruct retry as [delay rt'] eqn:E. destruct Hs as (_ & _ & _ & Ht' & Hd & _). split; [|split].
  - change rt' with (delay, rt').2. rewrite <- E. vm_compute. reflexivity.
  - apply (Ht' []). constructor.
  - exact Hd.
Defined.

(** * A received event rebuilt *)

Definition topic_document : YValue := arriving [(Some "state_key", json_text EmptyString)].

(** The members of the topic in the order of their keys. *)
Definition sorted_topic_document : YValue :=
  YObject [(Some "auth_events", YArray [json_text "$c"]); (Some "depth", YRaw (Some "3")); (Some "origin_server_ts", YRaw (Some "5"));
           (Some "prev_events", YArray [json_text "$j"]); (Some "room_id", json_text "!r:a.org"); (Some "sender", json_text "@u:a.org");
           (Some "state_key", json_text EmptyString); (Some "type", json_text "m.room.topic")].

Definition topic_value : Value :=
  match @parse_lossless arrival_reader plain_topic with POk v => v | PErr _ => VNull end.

Definition canonical_topic : string :=
  match @serialize_canonical no_libc topic_value with SOk text => text | SErr _ => EmptyString end.

Definition topic_reader : Yyjson := {|
  read_raw_numbers := fun s =>
    if s =s plain_topic then inr {| doc_root := Some topic_document; doc_bytes_read := String.length s |}
    else if s =s canonical_topic then inr {| doc_root := Some sorted_topic_document; doc_bytes_read := String.length s |}
    else inl read_json_structure;
  read_numbers := fun _ => inl read_json_structure |}.

Lemma topic_reads : @raw_reads topic_reader.
Proof.
  intros input document root Hr Hd. cbn in Hr. destruct (input =s plain_topic); [injection Hr as <-; injection Hd as <-; reflexivity|].
  destruct (input =s canonical_topic); [injection Hr as <-; injection Hd as <-; reflexivity|discriminate].
Qed.

Lemma topic_reread : @reread no_libc topic_reader topic_value.
Proof.
  intros text Ht. assert (text = canonical_topic) as ->.
  { unfold canonical_topic. rewrite Ht. reflexivity. }
  eexists. split; [vm_compute; reflexivity|]. apply (@same_text_equiv no_libc _ _ canonical_topic); vm_compute; reflexivity.
Qed.

Definition received_topic : InboundPduEnvelope := default message (@parse_inbound_pdu_envelope no_libc flat_sodium topic_reader plain_topic "11").

Lemma retained_envelopes_rebuild_witness : exists e',
  @rebuild_inbound_pdu_envelope no_libc flat_sodium topic_reader canonical_topic "11" "b.org" = Some e'
  /\ same_event received_topic e' /\ in_origin e' = "b.org".
Proof.
  destruct (@retained_envelopes_rebuild no_libc flat_sodium topic_reader plain_topic "11" received_topic
    (default [] (value_is_object topic_value)) policy_v11 topic_value canonical_topic "b.org" topic_reads) as (e' & He & Hs & Ho & _);
    [vm_compute; reflexivity|vm_compute; reflexivity|vm_compute; reflexivity|vm_compute; reflexivity| | | |by exists e'].
  - intros _. split; [intros Hc; discriminate Hc|]. apply (bool_decide_unpack _). vm_compute. exact I.
  - intros v Hv. assert (v = topic_value) as -> by (vm_compute in Hv; injection Hv as <-; reflexivity). exact topic_reread.
  - intros r Hr. assert (r = topic_value) as -> by (vm_compute in Hr; injection Hr as <-; reflexivity). exact topic_reread.
Defined.
